(* ===== verification/_CoqProject ===== *)
-Q . S2P
Prelude.v
Bytes.v
Math.v
Interpolation.v
Shamir.v
ShamirBits.v
ShamirCorrect.v
SecAggVector.v
SecAggCodec.v
SecAggBranchless.v
SecAggVectorCorrect.v
Prng.v
MapOfMasks.v
MasksCorrect.v
VectorMaps.v
Graph.v
Crypto.v
Client.v
ClientCorrect.v
Accumulator.v
ServerImpl.v
Server.v
ServerCorrect.v
ServerSum.v
ServerUnmask.v
ServerSession.v
Reconstruction.v
Cancellation.v
Examples.v
Sessions.v
HonestSession.v
Tensor.v
TensorCorrect.v
KeyCombiner.v
KeyCombinerCorrect.v
Aggregators.v
AggregatorsCorrect.v
Grouping.v
GroupingCorrect.v
SimpleAggregation.v
ProtocolInvariant.v
ProtocolAggregation.v
ProtocolIncluded.v
ProtocolSafety.v
ProtocolSystem.v
ProtocolProperties.v
ProtocolExamples.v
TimeUtil.v
FileSystem.v
ResourceCache.v
FileSystemCorrect.v
CacheCleanUp.v
CacheCorrect.v
CacheRefinement.v
TempFiles.v
CacheExamples.v
HttpUtil.v
OpStats.v
OpStatsLocks.v
OpStatsStore.v
OpStatsCorrect.v
OpStatsExamples.v
Scheduler.v
SchedulerCorrect.v
Future.v
InterruptibleRunner.v
InMemoryHttp.v
InMemoryHttpCorrect.v
HttpFetch.v
HttpExamples.v
Chunking.v
ChunkingCorrect.v
ChunkingSystem.v
ChunkingExamples.v
RetryWindows.v
GrpcProtocol.v
GrpcProtocolCorrect.v
GrpcStream.v
SecAggRunner.v
GrpcExamples.v
