(* ===== verification/Prelude.v ===== *)
(** * Aggregation and device runtime in federated-compute

    A model of the two ways in which the repository aggregates the inputs of
    clients, the secure aggregation protocol under [src/fcp/secagg] and the
    aggregation in the clear under [src/fcp/aggregation], and of parts of the
    runtime on a device: the schedulers and futures of [src/fcp/base], and how
    resources are fetched and kept under [src/fcp/client], with theorems about
    them.

    In secure aggregation a server learns the sum of the vectors of
    its clients and not the vectors. In round 0 the clients advertise public
    keys; in round 1 each splits its two secrets among its neighbors with Shamir
    secret sharing and sends the encrypted shares; in round 2 it sends its input
    plus masks derived from its self key and from a key agreed with each
    neighbor; in round 3 the survivors reveal shares, from which the server
    computes the masks that do not cancel and removes them from the sum.

    In the simple aggregation protocol clients send checkpoints; the server
    parses them into tensors and accumulates these in aggregators, one for each
    intrinsic of its configuration, while clients come, leave and send messages
    concurrently, until the protocol is completed or aborted. Tensors can also be
    grouped: a combiner maps composite keys to ordinals, and a grouping
    aggregator accumulates values by ordinal.

    On a device, resources are fetched by groups of HTTP requests, which run on a
    background thread and can be interrupted; those that were downloaded are kept
    in a cache of bounded size, each in a file, with a manifest of their metadata
    and expiry. What happens in a session is recorded in a database of
    operational statistics, which is bounded by age and size. In a session over
    gRPC the client checks in twice, gets a task and reports its result, by secure
    aggregation if the server wants it, and learns when to come back; the messages
    are exchanged in chunks with flow control.

    ** The parts and where they are modelled

    - [shared/math.h]: Math.v.
    - [shared/shamir_secret_sharing.cc]: Shamir.v models sharing and
      reconstruction with the caches of the object; Interpolation.v has the
      algebra of polynomials over the field, ShamirBits.v the division of a
      secret into 31-bit subsecrets, ShamirCorrect.v the theorems.
    - [shared/secagg_vector.cc]: SecAggVector.v models the packed vector with its
      two codecs, and the unpacked vector; SecAggCodec.v and SecAggBranchless.v
      relate each codec to the arithmetic of the packed bits, and
      SecAggVectorCorrect.v has the theorems.
    - [shared/aes_key.cc], [ecdh_keys.h], [compute_session_id.cc],
      [aes_ctr_prng.cc], [async_abort.h]: Prng.v.
    - [shared/map_of_masks.cc]: MapOfMasks.v; MasksCorrect.v relates it to a
      reference definition of the masks ([key_mask], [combined_mask]);
      VectorMaps.v has the algebra of maps of vectors.
    - [shared/ecdh_key_agreement.cc], [aes_gcm_encryption.cc]: Crypto.v, over the
      class [Primitives].
    - [client/*.cc]: Client.v, one constructor of [ClientState] per state class
      and one function per method; ClientCorrect.v has the theorems.
    - [server/secret_sharing_*.cc]: Graph.v. [SecretSharingGraph] is the record
      of the operations of the interface and [GraphLaws] what the protocol
      relies on, which both implementations satisfy.
    - [server/secagg_scheduler.h]: Accumulator.v, a state machine whose steps
      are those that the two schedulers can take.
    - [server/secagg_server_protocol_impl.cc],
      [server/aes/aes_secagg_server_protocol_impl.cc]: ServerImpl.v.
    - [server/secagg_server.cc] and [server/secagg_server_*_state.cc]: Server.v;
      ServerCorrect.v has the counters of the rounds, ServerSum.v and
      ServerUnmask.v the sum of the inputs and of the masks, ServerSession.v the
      theorem on the result of a session.
    - Reconstruction.v shows that the server reconstructs the secrets from
      shares, and Cancellation.v, with the algebra of the sums over pairs of
      clients, puts clients and server together: the masks cancel.
    - Examples.v, Sessions.v and HonestSession.v evaluate the definitions: the
      second runs three clients and the server, with a client that drops out.
    - [aggregation/core/tensor*.cc], [datatype.h], [agg_vector*.h]: Tensor.v;
      TensorCorrect.v has the theorems.
    - [aggregation/core/composite_key_combiner.cc]: KeyCombiner.v;
      KeyCombinerCorrect.v relates its state to the list of the keys seen.
    - [aggregation/core/tensor_aggregator.cc], [agg_vector_aggregator.h],
      [federated_sum.cc], [tensor_aggregator_registry.cc]: Aggregators.v. The
      virtual methods are the class [TensorAggregator]; AggregatorsCorrect.v has
      the interface [AggregatorLaws] on which the protocol relies, and that the
      federated sum keeps it.
    - [aggregation/core/one_dim_grouping_aggregator.h]: Grouping.v;
      GroupingCorrect.v shows that it aggregates by key together with the
      combiner.
    - [aggregation/protocol/simple_aggregation/*.cc] and the conversions of
      [aggregation/tensorflow/converters.cc]: SimpleAggregation.v, a system of
      concurrent calls. ProtocolInvariant.v, ProtocolAggregation.v and
      ProtocolIncluded.v have the parts of its invariant, ProtocolSafety.v and
      ProtocolSystem.v that every step keeps it, ProtocolProperties.v the
      theorems and ProtocolExamples.v runs.
    - [base/time_util.cc]: TimeUtil.v. [base/platform.cc] and the parts of
      [std::filesystem] in use: FileSystem.v, with a logic for its operations in
      FileSystemCorrect.v.
    - [client/cache/file_backed_resource_cache.cc]: ResourceCache.v;
      CacheCleanUp.v has the specification of [CleanUp], CacheCorrect.v the bound
      of the size and the evictions, CacheRefinement.v the map that a cache
      stands for, CacheExamples.v runs. [client/cache/temp_files.cc]:
      TempFiles.v.
    - [base/scheduler.cc]: Scheduler.v, a state machine of the threads of a pool
      and the workers on top of it; SchedulerCorrect.v has its invariants and
      theorems. [base/future.h]: Future.v.
    - [client/interruptible_runner.cc]: InterruptibleRunner.v.
    - [client/http/http_client_util.cc]: HttpUtil.v.
      [client/http/in_memory_request_response.cc]: InMemoryHttp.v, with theorems
      in InMemoryHttpCorrect.v. HttpFetch.v states with [ResourceCacheSpec] what
      fetching relies on in a cache, shows that the file backed cache keeps it
      and proves what fetching does against it; HttpExamples.v has runs.
    - [client/opstats/]: OpStats.v has the database, the logger and the searches,
      OpStatsStore.v the example iterator; OpStatsLocks.v has the system of all
      databases of all processes, OpStatsCorrect.v the other theorems and
      OpStatsExamples.v runs. FileSystem.v also has the interface of the
      store that the database and the cache use.
    - [protocol/grpc_chunked_bidi_stream.h]: Chunking.v; ChunkingCorrect.v has the
      specification of its methods with the messages that a list of chunks stands
      for, ChunkingSystem.v the system of two endpoints and the theorems,
      ChunkingExamples.v runs.
    - [client/federated_protocol_util.cc]: RetryWindows.v.
      [client/grpc_federated_protocol.cc] and [federated_protocol.h]:
      GrpcProtocol.v, over the interfaces [GrpcBidiStreamInterface] and
      [SecAggRunnerFactory], with theorems in GrpcProtocolCorrect.v.
      [client/grpc_bidi_stream.cc]: GrpcStream.v, an instance of the first over
      the chunked stream; [client/secagg_runner.cc]: SecAggRunner.v, an instance
      of the second over the client of Client.v. GrpcExamples.v has runs.

    ** How the code is represented

    Integers are [Z], with [u32], [u64] where a width matters. A signed integer
    whose overflow is undefined in C++ ends in [Crash] where a loop or a sum
    counts in it ([int_increment], [add_int64], [flatten]); the sums of the
    aggregators and their counters of inputs wrap around ([add_values],
    [wrap_int]), and the theorems on them exclude the overflow. A function that
    can fail returns [Res]: a value, a status that is not OK, or [Crash] for a
    failed [FCP_CHECK]. An operation of a stateful object takes and returns the
    state, with the messages that it sends. Each public operation of the client
    and of the server runs under one mutex and is one step; a run is a sequence
    of steps ([client_run], [server_run]), and in the asynchronous server the
    steps of the schedulers occur between the calls in any order. What is drawn
    at random is an argument. The simple aggregation protocol has two mutexes: its
    methods are cut into the parts that hold one, [run] executes one part and
    [reachable] is the closure under all interleavings of the parts. The functions
    of BoringSSL and of protocol buffers are fields of [Primitives], with the
    documented facts about them in [PrimitivesLaws]; [ToyPrimitives] satisfies these. Likewise [Varint] stands
    for the variable-length integers of protocol buffers, [Allocator] for the
    addresses that memory is allocated at, [Checkpoints] for the parsers and
    builders of checkpoints and [TfShapes] for the shapes of TensorFlow,
    [AbslTime] for times and [ProtoDataStore] for the store of a message, each
    with an instance that satisfies its laws. Operations on files are in the state
    monad [M] over a tree of files with a list of failures for every operation of
    the operating system; theorems quantify over the failures. The threads of a
    pool are states between the critical sections of its mutex, and an arbitrary
    list of actions says who moves. A callable on a background thread is given by
    its slices; how many of them run before each action of the calling thread is
    an arbitrary function. [HttpClient] is the interface that a platform
    implements, [Gzip], [SimpleAtoi] and [MetadataAny] stand for libraries, and
    [Codec] for the encodings of the messages of a stream, [Randomness] for
    floating-point numbers and the generator of random delays, [ClientContext] for
    the cancellation of a call by gRPC, about which nothing is assumed. A file that
    is locked is told from another one by its number, not by its path: other
    programs may remove and replace files at any time. A method of a
    session returns [Fetch]: a result, the end of the process, or that it waits.

    ** What the theorems show

    - the arithmetic: the branch-free operations agree with the plain ones,
      inverses are inverses and the loop that computes them ends;
    - secret sharing: any [threshold] shares give the secret back, fewer give an
      error; the 32-bit accumulation of [Reconstruct] limits the first statement;
    - vectors and masks: packing and unpacking are inverse, the codecs agree,
      additions are those of the ring, the mask of a key is the reference
      stream, rejection sampling is unbiased, an abort leaves no partial result;
    - the graphs satisfy [GraphLaws]; the accumulator returns the sum of its
      tasks under any interleaving, and is idle after a bounded number of steps
      that do something, whichever they are;
    - the client: its invariant, the order of its messages, the value of the
      masked input and what the unmasking response reveals;
    - the server: its counters, the thresholds, the inputs fixed after round 2,
      and that the result is the sum of the accepted inputs corrected by the
      masks of the unmasking round;
    - client and server: with honest clients whose shares are delivered the
      masks cancel, and the result is the sum of the inputs;
    - tensors: serialization and parsing are inverse; the check of the sizes of
      strings can be passed by sizes that wrap around;
    - aggregators: a federated sum is the sum of its inputs, exact for integers
      when it fits; merging adds sums; grouping combines exactly the values of
      each key;
    - the simple aggregation protocol, under every interleaving: no check fails,
      the counters are exact and exhaustive, every client is closed exactly once,
      and the result aggregates exactly the included inputs, those of all
      completed clients among them (an example has a race by which an included
      input is reported as discarded);
    - the resource cache: its directory never exceeds the configured size whatever
      fails and whatever is called; evictions go by last access and only as
      needed; without failures it is a map that may lose entries; temporary
      files get new names, and times survive their conversion to messages;
    - schedulers: under every interleaving the tasks of a worker run one after the
      other in their order, every closure runs once, no wakeup is lost, and an
      idle pool has finished everything it was given;
    - interruptible runs: the status that is returned, at most one abort, nothing
      left running afterwards, and that the loop ends;
    - HTTP: a client reads exactly the payload of a request; a response is
      accepted exactly when its headers, length and code allow it; the responses
      of a group are in order and independent of each other; fetching returns
      what each resource stands for, and a second fetch is served by the cache;
    - operational statistics: no two databases have a file locked at a time and no
      lock is left behind; what a transformation keeps by age and size; a session is one
      entry however often it is committed, unless it commits before its first
      event; the examples of a selector;
    - chunked streams: two endpoints that send and receive in any order never
      fail, each gets the messages of the other in order and once, the chunks
      under way are bounded by the window, and the stream does not get stuck;
    - sessions over gRPC, whatever stream, HTTP client, cache and secure
      aggregation do: which calls pass their checks, which retry window is
      returned after any history of calls, and that its delay leads into the
      server's range; a stream that is closed while a thread receives is closed
      when that thread returns, which it does when the call ends; the input of
      secure aggregation has the moduli and values of the side channel and is
      accepted by its client; an interruption of secure aggregation waits for the
      server while a thread receives.

    ** Bounds and fuel

    The loops of rejection sampling draw until they have enough samples: [fuel]
    bounds the number of draws, and [draws_masks] says that the stream of a key
    has enough accepted samples within it; for a power of two it always does.
    [InverseModPrime] is proved to return within its fuel. [enough_stream] keeps
    a mask below the number of blocks of the generator. Vectors are shorter than
    2^31 bits, the range of the [int] that indexes them. Tensors have fewer than
    2^59 or 2^60 elements and the pool of a combiner fewer than 2^59 strings, so
    that sizes in bytes fit 64 bits; tensors that are grouped have fewer than 2^31
    elements, and an aggregator gets fewer than 2^31 inputs, since an [int] counts
    them. The search for a temporary file ends within
    a list of random numbers longer than the number of files. [Run] has as many
    turns of its loop as [fuel] says: [Run_result] holds for any, and
    [Run_terminates] for one more than the slices left of a callable that ends.
    A pool has fewer than 2^64 threads, and data that is compressed is shorter
    than 2^31 bytes, as is a message that is sent in chunks; the loops over chunks
    and over received messages are proved to end within the lengths of the message
    and of the stream. The other definitions need no fuel.

    ** Not modelled

    The wire encoding of messages and the cryptographic primitives (outside the
    repository) and values of an enumeration that its declaration does not have;
    the security of the masks against an adversary; the choice of
    the parameters of the Harary graph (floating point); metrics and traces; the
    readers and writers of TensorFlow checkpoints; symbolic links and directories
    that other processes change; how long the waits of a runner are; the rest of
    the device runtime and of the base library, the HTTP clients themselves, the
    federated protocol over HTTP and the TensorFlow operations. *)

From stdpp Require Export base tactics list numbers option strings gmap.
From Stdlib Require Export ZArith Lia.
From Stdlib Require Import Zmod Morphisms Setoid.

#[global] Open Scope Z_scope.

(** ** Machine integers *)

Definition u8 (z : Z) : Z := z mod 2 ^ 8.
Definition u32 (z : Z) : Z := z mod 2 ^ 32.
Definition u64 (z : Z) : Z := z mod 2 ^ 64.

(** ** Results of fallible operations

    A C++ operation of the library either returns a value, returns an
    [absl::Status] that is not OK, or fails an [FCP_CHECK] and terminates the
    process.  [Crash] is the last case, so that a theorem that an operation
    returns [Ok] also says that none of its assertions fails. *)

Inductive StatusCode :=
  | INVALID_ARGUMENT | FAILED_PRECONDITION | UNAVAILABLE | DATA_LOSS | ABORTED | INTERNAL
  | OUT_OF_RANGE | UNIMPLEMENTED | NOT_FOUND | ALREADY_EXISTS | RESOURCE_EXHAUSTED
  | CANCELLED | DEADLINE_EXCEEDED | PERMISSION_DENIED | UNAUTHENTICATED | UNKNOWN.

#[export] Instance StatusCode_eq_dec : EqDecision StatusCode.
Proof. solve_decision. Defined.

Inductive Res (A : Type) : Type :=
  | Ok (a : A)
  | Error (code : StatusCode) (message : string)
  | Crash.
Arguments Ok {A} _.
Arguments Error {A} _ _.
Arguments Crash {A}.

#[export] Instance Res_ret : MRet Res := λ A a, Ok a.
#[export] Instance Res_bind : MBind Res := λ A B f r,
  match r with
  | Ok a => f a
  | Error c m => Error c m
  | Crash => Crash
  end.

(** [FCP_CHECK(b)] in front of the rest of a function. *)
Definition fcp_check {A} (b : bool) (k : Res A) : Res A :=
  if b then k else Crash.

Declare Scope secagg_scope.
Delimit Scope secagg_scope with secagg.
Notation "'FCP_CHECK' b ;; k" := (fcp_check b k)
  (at level 100, b at level 99, right associativity) : secagg_scope.
#[global] Open Scope secagg_scope.

Lemma bind_ok {A B} (r : Res A) (f : A → Res B) b :
  mbind f r = Ok b ↔ ∃ a, r = Ok a ∧ f a = Ok b.
Proof.
  destruct r; simpl; split; intros H; try (by eauto);
    try (by destruct H as (? & ? & ?)); destruct H as (? & [= ->] & ?); done.
Qed.

Lemma fcp_check_ok {A} (b : bool) (k : Res A) a :
  fcp_check b k = Ok a ↔ b = true ∧ k = Ok a.
Proof. destruct b; simpl; split; intros H; try done; by destruct H. Qed.

(** ** Congruence modulo an integer, as a setoid *)

Inductive eqmod (m a b : Z) : Prop := eqmod_intro (_ : a mod m = b mod m).

Lemma eqmod_iff m a b : eqmod m a b ↔ a mod m = b mod m.
Proof. split; [by intros []|by constructor]. Qed.

Lemma eqmod_rem m a b : eqmod m a b → a mod m = b mod m.
Proof. by intros []. Qed.

#[warnings="-postfix-notation-not-level-1"]
Notation "a ≡ b [mod m ]" := (eqmod m a b)
  (at level 70, b at next level, format "a  ≡  b  [mod  m ]") : secagg_scope.

#[export] Instance eqmod_equiv m : Equivalence (eqmod m).
Proof. split; repeat intro; rewrite eqmod_iff in *; congruence. Qed.

#[export] Instance eqmod_add m : Proper (eqmod m ==> eqmod m ==> eqmod m) Z.add.
Proof.
  intros a a' Ha b b' Hb; rewrite eqmod_iff in *.
  by rewrite Zplus_mod, Ha, Hb, <- Zplus_mod.
Qed.
#[export] Instance eqmod_sub m : Proper (eqmod m ==> eqmod m ==> eqmod m) Z.sub.
Proof.
  intros a a' Ha b b' Hb; rewrite eqmod_iff in *.
  by rewrite Zminus_mod, Ha, Hb, <- Zminus_mod.
Qed.
#[export] Instance eqmod_mul m : Proper (eqmod m ==> eqmod m ==> eqmod m) Z.mul.
Proof.
  intros a a' Ha b b' Hb; rewrite eqmod_iff in *.
  by rewrite Zmult_mod, Ha, Hb, <- Zmult_mod.
Qed.
#[export] Instance eqmod_opp m : Proper (eqmod m ==> eqmod m) Z.opp.
Proof. intros a a' Ha. rewrite <- !Z.sub_0_l. by f_equiv. Qed.
(** Reducing a congruence to an equation of remainders. *)
#[export] Instance eqmod_modulo m : Proper (eqmod m ==> eq) (λ a, a mod m).
Proof. intros a a' Ha. apply eqmod_iff in Ha. exact Ha. Qed.

Lemma eqmod_mod m a : a mod m ≡ a [mod m].
Proof. rewrite eqmod_iff. apply Zmod_mod. Qed.

Lemma eqmod_eq m a b : a = b → a ≡ b [mod m].
Proof. by intros ->. Qed.

(** Closes congruences that hold as equations of the ring of integers. *)
Ltac eqmod_ring := apply eqmod_eq; ring.

Lemma eqmod_small m a b : 0 ≤ a < m → 0 ≤ b < m → a ≡ b [mod m] → a = b.
Proof. rewrite eqmod_iff. intros. by rewrite <- (Z.mod_small a m), <- (Z.mod_small b m). Qed.

Lemma eqmod_0_divide m a : m ≠ 0 → a ≡ 0 [mod m] ↔ (m | a).
Proof. intros. rewrite eqmod_iff, Zmod_0_l, <- Z.mod_divide; done. Qed.

Lemma eqmod_sub_0 m a b : a ≡ b [mod m] ↔ a - b ≡ 0 [mod m].
Proof.
  split; intros H.
  - rewrite H. eqmod_ring.
  - replace a with ((a - b) + b) by lia. rewrite H. apply eqmod_eq. lia.
Qed.

Lemma eqmod_mul_cancel p c a b :
  Z.prime p → ¬ c ≡ 0 [mod p] → c * a ≡ c * b [mod p] → a ≡ b [mod p].
Proof.
  intros Hp Hc H. pose proof (Z.prime_ge_2 _ Hp).
  apply eqmod_sub_0 in H. apply eqmod_sub_0. rewrite eqmod_0_divide in * by lia.
  replace (c * a - c * b) with (c * (a - b)) in H by lia.
  apply Z.divide_prime_mul in H as [H|H]; [|done|done]. done.
Qed.

Lemma eqmod_pow m a b k : 0 ≤ k → a ≡ b [mod m] → a ^ k ≡ b ^ k [mod m].
Proof.
  intros Hk H. revert k Hk. refine (natlike_ind _ _ _); [done|].
  intros k Hk IH. by rewrite !Z.pow_succ_r, IH, H by done.
Qed.

(** Fermat's little theorem in the form the code's inverses rely on. *)
Lemma fermat_inverse p a :
  Z.prime p → ¬ a ≡ 0 [mod p] → a * a ^ (p - 2) ≡ 1 [mod p].
Proof.
  intros Hp Ha. pose proof (Z.prime_ge_2 _ Hp).
  rewrite <- Z.pow_succ_r by lia. replace (Z.succ (p - 2)) with (p - 1) by lia.
  rewrite eqmod_iff in *.
  by rewrite Z.fermat_nz, Z.mod_small by (try done; rewrite ?Zmod_0_l in *; lia).
Qed.

(** Removes the inner reductions of a congruence. *)
Ltac drop_mod := repeat rewrite eqmod_mod.

Lemma u8_range z : 0 ≤ u8 z < 2 ^ 8.
Proof. apply Z.mod_pos_bound. lia. Qed.
Lemma u32_range z : 0 ≤ u32 z < 2 ^ 32.
Proof. apply Z.mod_pos_bound. lia. Qed.
Lemma u64_range z : 0 ≤ u64 z < 2 ^ 64.
Proof. apply Z.mod_pos_bound. lia. Qed.
Lemma u8_small z : 0 ≤ z < 2 ^ 8 → u8 z = z.
Proof. apply Z.mod_small. Qed.
Lemma u32_small z : 0 ≤ z < 2 ^ 32 → u32 z = z.
Proof. apply Z.mod_small. Qed.
Lemma u64_small z : 0 ≤ z < 2 ^ 64 → u64 z = z.
Proof. apply Z.mod_small. Qed.

(** Ranges of machine integers and congruences of reductions. *)
Create HintDb secagg discriminated.
#[export] Hint Resolve u8_range u32_range u64_range eqmod_mod : secagg.

(** Erases the wrap-around of operations that stay inside their width: every
    occurrence whose argument [lia] can bound, innermost ones included. *)
Ltac in_width :=
  repeat match goal with
  | |- context [u8 ?x] => rewrite (u8_small x) by lia
  | |- context [u32 ?x] => rewrite (u32_small x) by lia
  | |- context [u64 ?x] => rewrite (u64_small x) by lia
  end.

(** ** Bit fields *)

(** Or-ing a value above the bits of another one adds it. *)
Lemma lor_shiftl_add a b k :
  0 ≤ k → 0 ≤ a < 2 ^ k → Z.lor a (Z.shiftl b k) = a + b * 2 ^ k.
Proof.
  intros Hk Ha. rewrite <- Z.shiftl_mul_pow2 by done.
  enough (Z.land a (Z.shiftl b k) = 0) by (pose proof (Z.add_lor_land a (Z.shiftl b k)); lia).
  apply Z.bits_inj'. intros i Hi. rewrite Z.land_spec, Z.bits_0, Z.shiftl_spec by done.
  destruct (decide (i < k)); [by rewrite (Z.testbit_neg_r b), andb_false_r by lia|].
  rewrite <- (Z.mod_small a (2 ^ k)), Z.mod_pow2_bits_high by lia. done.
Qed.

(** [x & (0xFF >> s)]. *)
Lemma land_shiftr_255 x s :
  0 ≤ s ≤ 8 → Z.land x (Z.shiftr 255 s) = x mod 2 ^ (8 - s).
Proof.
  intros. change 255 with (Z.ones 8).
  rewrite Z.shiftr_div_pow2, Z.ones_div_pow2, Z.land_ones by lia. done.
Qed.

(** [x & ((1 << n) - 1)]. *)
Lemma land_mask x n : 0 ≤ n → Z.land x (Z.shiftl 1 n - 1) = x mod 2 ^ n.
Proof.
  intros. rewrite Z.shiftl_1_l, <- Z.land_ones by done. f_equal. rewrite Z.ones_equiv. lia.
Qed.

(** Bounds of a quotient by a power of two. *)
Lemma div_pow2_bound x n m : 0 ≤ n → 0 ≤ m → 0 ≤ x < 2 ^ (n + m) → 0 ≤ x / 2 ^ n < 2 ^ m.
Proof.
  intros Hn Hm Hx. rewrite Z.pow_add_r in Hx by lia.
  split; [apply Z.div_pos; lia|apply Z.div_lt_upper_bound; lia].
Qed.

Lemma pow2_split n m : 0 ≤ m ≤ n → 2 ^ n = 2 ^ m * 2 ^ (n - m).
Proof. intros. rewrite <- Z.pow_add_r by lia. f_equal. lia. Qed.

Lemma mod_pow2_div x n s : 0 ≤ s ≤ n → x mod 2 ^ n / 2 ^ s = (x / 2 ^ s) mod 2 ^ (n - s).
Proof.
  intros. rewrite <- !Z.land_ones, <- !Z.shiftr_div_pow2, Z.shiftr_land by lia.
  f_equal. rewrite Z.shiftr_div_pow2, Z.ones_div_pow2 by lia. done.
Qed.

Lemma mod_mod_pow2 x n m : 0 ≤ m ≤ n → (x mod 2 ^ n) mod 2 ^ m = x mod 2 ^ m.
Proof.
  intros. apply Z.mod_mod_divide. exists (2 ^ (n - m)). rewrite (pow2_split n m) by lia. ring.
Qed.

Lemma div_pow2_div x n m : 0 ≤ n → 0 ≤ m → x / 2 ^ n / 2 ^ m = x / 2 ^ (n + m).
Proof. intros. by rewrite Z.pow_add_r, Zdiv_Zdiv by lia. Qed.

(** Low and high parts of the bits of a number. *)
Lemma mod_pow2_split x n m :
  0 ≤ n → 0 ≤ m → x mod 2 ^ (n + m) = x mod 2 ^ n + x / 2 ^ n mod 2 ^ m * 2 ^ n.
Proof. intros. rewrite Z.pow_add_r, Z.rem_mul_r by lia. lia. Qed.

(** ** Lists *)

Lemma imap_imap {A B C} (f : nat → A → B) (g : nat → B → C) l :
  imap g (imap f l) = imap (λ i x, g i (f i x)) l.
Proof.
  apply list_eq. intros i. rewrite !list_lookup_imap. by destruct (l !! i).
Qed.

Lemma zip_with_imap {A B C} (f : A → B → C) (d : B) l k :
  length k = length l →
  zip_with f l k = imap (λ i x, f x (default d (k !! i))) l.
Proof.
  intros Hlen. apply list_eq. intros i. rewrite lookup_zip_with, list_lookup_imap.
  destruct (l !! i) as [x|] eqn:Hl; simpl; [|done].
  destruct (lookup_lt_is_Some_2 k i) as [y ->]; [|done].
  rewrite Hlen. by eapply lookup_lt_Some.
Qed.
