(* ===== verification/Bytes.v ===== *)
(** * Byte strings as numbers

    Strings of the program are lists of bytes, integers in [0, 256). The codecs
    are specified through the number that a string denotes, lowest digit first. *)

From S2P Require Import Prelude.

Definition is_byte (b : Z) : Prop := 0 ≤ b < 2 ^ 8.

(** Value of a list of digits in base [2 ^ w], lowest digit first. *)
Fixpoint le_value (w : Z) (l : list Z) : Z :=
  match l with [] => 0 | d :: l => d + 2 ^ w * le_value w l end.

Lemma le_value_alter w l k x f :
  0 ≤ w → l !! k = Some x →
  le_value w (alter f k l) = le_value w l + (f x - x) * 2 ^ (w * Z.of_nat k).
Proof.
  intros Hw. revert k. induction l as [|d l IH]; intros [|k]; simpl; try done.
  - intros [= ->]. rewrite Z.mul_0_r, Z.pow_0_r. lia.
  - intros Hk. rewrite (IH k Hk : le_value w (list_alter f k l) = _). replace (w * Z.of_nat (S k)) with (w + w * Z.of_nat k) by lia.
    rewrite Z.pow_add_r by lia. ring.
Qed.

Lemma le_value_bound w l :
  0 ≤ w → Forall (λ d, 0 ≤ d < 2 ^ w) l → 0 ≤ le_value w l < 2 ^ (w * Z.of_nat (length l)).
Proof.
  intros Hw. induction 1 as [|d l Hd Hall IH]; simpl; [rewrite Z.mul_0_r; lia|].
  replace (w * Z.of_nat (S (length l))) with (w + w * Z.of_nat (length l)) by lia.
  rewrite Z.pow_add_r by lia. nia.
Qed.

Lemma le_value_app w l1 l2 :
  0 ≤ w → le_value w (l1 ++ l2) = le_value w l1 + 2 ^ (w * Z.of_nat (length l1)) * le_value w l2.
Proof.
  intros Hw. induction l1 as [|d l IH]; [rewrite Z.mul_0_r, Z.pow_0_r; simpl; lia|].
  cbn [length app le_value]. rewrite IH.
  replace (w * Z.of_nat (S (length l))) with (w + w * Z.of_nat (length l)) by lia.
  rewrite Z.pow_add_r by lia. ring.
Qed.

Lemma le_value_inj w l1 l2 :
  0 ≤ w → length l1 = length l2 →
  Forall (λ d, 0 ≤ d < 2 ^ w) l1 → Forall (λ d, 0 ≤ d < 2 ^ w) l2 →
  le_value w l1 = le_value w l2 → l1 = l2.
Proof.
  intros Hw. revert l2. induction l1 as [|d l1 IH]; intros [|e l2]; simpl; try done.
  intros [= Hlen] [Hd H1]%Forall_cons [He H2]%Forall_cons Heq.
  assert (d = e) as ->.
  { rewrite <- (Z.mod_small d (2 ^ w)), <- (Z.mod_small e (2 ^ w)) by done.
    rewrite <- (Z_mod_plus_full d (le_value w l1)), <- (Z_mod_plus_full e (le_value w l2)).
    f_equal. lia. }
  f_equal. apply IH; try done. apply (Z.mul_reg_l _ _ (2 ^ w)); lia.
Qed.

Fixpoint le_bytes (n : nat) (V : Z) : list Z :=
  match n with O => [] | S n => V mod 2 ^ 8 :: le_bytes n (V / 2 ^ 8) end.

Lemma le_bytes_value l : Forall is_byte l → le_bytes (length l) (le_value 8 l) = l.
Proof.
  induction 1 as [|b l Hb Hl IH]; [done|]. cbn [length le_bytes le_value]. unfold is_byte in Hb.
  rewrite Z.mul_comm, Z_mod_plus_full, Z.div_add, Z.mod_small, Z.div_small by lia.
  by rewrite Z.add_0_l, IH.
Qed.


Lemma length_le_bytes n V : length (le_bytes n V) = n.
Proof. revert V. induction n as [|n IH]; intros V; simpl; [done|by rewrite IH]. Qed.

Lemma le_bytes_bytes n V : Forall is_byte (le_bytes n V).
Proof.
  revert V. induction n as [|n IH]; intros V; constructor; [|apply IH].
  apply Z.mod_pos_bound. lia.
Qed.

Lemma le_value_le_bytes n V : le_value 8 (le_bytes n V) = V mod 2 ^ (8 * Z.of_nat n).
Proof.
  revert V. induction n as [|n IH]; intros V; [by rewrite Z.mod_1_r|].
  cbn [le_bytes le_value]. rewrite IH. replace (8 * Z.of_nat (S n)) with (8 + 8 * Z.of_nat n) by lia.
  rewrite Z.pow_add_r, Z.rem_mul_r by lia. lia.
Qed.

(** A byte of a string, from the number. *)
Lemma le_value_lookup l k b :
  Forall is_byte l → l !! k = Some b → b = le_value 8 l / 2 ^ (8 * Z.of_nat k) mod 2 ^ 8.
Proof.
  intros Hl. revert k. induction Hl as [|x l Hx Hl IH]; intros [|k]; simpl; try done.
  - intros [= ->]. unfold is_byte in Hx. rewrite Z.mul_0_r, Z.pow_0_r, Z.div_1_r.
    by rewrite Z.mul_comm, Z_mod_plus_full, Z.mod_small by lia.
  - intros Hk. rewrite (IH k Hk). replace (8 * Z.of_nat (S k)) with (8 + 8 * Z.of_nat k) by lia.
    unfold is_byte in Hx. rewrite Z.pow_add_r, <- Zdiv_Zdiv by lia.
    by rewrite (Z.mul_comm _ (le_value 8 l)), Z.div_add, (Z.div_small x) by lia.
Qed.

Lemma value_drop l n :
  Forall is_byte l → (n ≤ length l)%nat →
  le_value 8 (drop n l) = le_value 8 l / 2 ^ (8 * Z.of_nat n).
Proof.
  intros Hl Hn. rewrite <- (take_drop n l) at 2.
  assert (Hb := le_value_bound 8 (take n l) (ltac:(lia)) (Forall_take _ _ _ Hl)).
  rewrite le_value_app, length_take_le in * by lia.
  by rewrite Z.mul_comm, Z.div_add, Z.div_small, Z.add_0_l by lia.
Qed.

Lemma value_take l n :
  Forall is_byte l → (n ≤ length l)%nat →
  le_value 8 (take n l) = le_value 8 l mod 2 ^ (8 * Z.of_nat n).
Proof.
  intros Hl Hn. rewrite <- (take_drop n l) at 2.
  assert (Hb := le_value_bound 8 (take n l) (ltac:(lia)) (Forall_take _ _ _ Hl)).
  rewrite le_value_app, length_take_le in * by lia.
  by rewrite Z.mul_comm, Z_mod_plus_full, Z.mod_small.
Qed.
