(* ===== verification/Math.v ===== *)
(** * [shared/math.h]: modular arithmetic on machine words

    One definition per inline function, at the width of its C++ types, and the
    theorem that relates it to arithmetic in [Z]. *)

From S2P Require Import Prelude.

Definition DivideRoundUp (a b : Z) : Z := u32 (u32 (a + b) - 1) / b.

Definition AddMod (a b z : Z) : Z := u64 (a + b) mod z.

(** The [FCP_CHECK]s of a debug build of [AddModOpt]. *)
Definition AddModOpt_debug_checks (a b modulus : Z) : bool :=
  ((a <? modulus) && (b <? modulus)) && ((a <=? u64 (a + b)) && (b <=? u64 (a + b))).

Definition AddModOpt (a b modulus : Z) : Z :=
  let sum := u64 (a + b) in
  if sum <? modulus then sum else u64 (sum - modulus).

Definition SubtractMod (a b z : Z) : Z := u64 (u64 (a - b) + z) mod z.

Definition SubtractModOpt (a b modulus : Z) : Z :=
  if b <=? a then u64 (a - b) else u64 (u64 (modulus - b) + a).

Definition MultiplyMod (a b z : Z) : Z := u32 (u64 (a * b) mod z).

Definition MultiplyMod64 (a b z : Z) : Z := u64 (((a * b) mod 2 ^ 128) mod z).

(** The square-and-multiply loop; [None] is a loop that has not finished. *)
Fixpoint InverseModPrime_loop (fuel : nat) (inverse exponent a z : Z) : option Z :=
  match fuel with
  | O => None
  | S fuel =>
      if 0 <? exponent then
        let inverse := if Z.land exponent 1 =? 1 then MultiplyMod64 inverse a z else inverse in
        InverseModPrime_loop fuel inverse (Z.shiftr exponent 1) (MultiplyMod64 a a z) z
      else Some inverse
  end.

Definition InverseModPrime (a z : Z) : option Z :=
  InverseModPrime_loop 65 1 (u64 (z - 2)) a z.

(** [absl::big_endian::Store32] of the argument. *)
Definition IntToByteString (input : Z) : list Z :=
  [u8 (Z.shiftr (u32 input) 24); u8 (Z.shiftr (u32 input) 16);
   u8 (Z.shiftr (u32 input) 8); u8 (u32 input)].

#[global] Arguments IntToByteString : simpl never.

(** ** Facts used by the components *)

Lemma length_IntToByteString w : length (IntToByteString w) = 4%nat.
Proof. done. Qed.

Lemma DivideRoundUp_div a b :
  0 ≤ a → 0 < b → a + b < 2 ^ 32 → DivideRoundUp a b = (a + b - 1) / b.
Proof. intros. unfold DivideRoundUp. by in_width. Qed.

Lemma AddMod_small a b z : 0 ≤ a → 0 ≤ b → a + b < 2 ^ 64 → AddMod a b z = (a + b) mod z.
Proof. intros. unfold AddMod. by in_width. Qed.

Lemma AddModOpt_mod a b m :
  0 ≤ a < m → 0 ≤ b < m → m ≤ 2 ^ 63 → AddModOpt a b m = (a + b) mod m.
Proof.
  intros. unfold AddModOpt. in_width. case_match.
  - rewrite Z.mod_small; lia.
  - in_width. apply Z.mod_unique with 1; lia.
Qed.

Lemma SubtractMod_mod a b m :
  0 ≤ a < m → 0 ≤ b < m → m ≤ 2 ^ 63 → SubtractMod a b m = (a - b) mod m.
Proof.
  intros. unfold SubtractMod, u64.
  rewrite Zplus_mod_idemp_l, (Z.mod_small (a - b + m)) by lia.
  replace (a - b + m) with (a - b + 1 * m) by lia. by rewrite Z_mod_plus_full.
Qed.

Lemma SubtractModOpt_mod a b m :
  0 ≤ a < m → 0 ≤ b < m → m ≤ 2 ^ 63 → SubtractModOpt a b m = (a - b) mod m.
Proof.
  intros. unfold SubtractModOpt. case_match; in_width.
  - rewrite Z.mod_small; lia.
  - apply Z.mod_unique with (-1); lia.
Qed.

Lemma MultiplyMod_mod a b z :
  0 ≤ a < 2 ^ 32 → 0 ≤ b < 2 ^ 32 → 0 < z ≤ 2 ^ 32 → MultiplyMod a b z = (a * b) mod z.
Proof.
  intros. unfold MultiplyMod. rewrite (u64_small (a * b)) by nia.
  apply u32_small. pose proof (Z.mod_pos_bound (a * b) z). lia.
Qed.

Lemma MultiplyMod64_mod a b z :
  0 ≤ a < 2 ^ 64 → 0 ≤ b < 2 ^ 64 → 0 < z ≤ 2 ^ 64 → MultiplyMod64 a b z = (a * b) mod z.
Proof.
  intros. unfold MultiplyMod64. rewrite (Z.mod_small (a * b)) by nia.
  apply u64_small. pose proof (Z.mod_pos_bound (a * b) z). lia.
Qed.

Lemma land_1_odd e : (Z.land e 1 =? 1) = Z.odd e.
Proof.
  change 1 with (Z.ones 1) at 1. rewrite Z.land_ones, Zmod_odd by lia. by destruct (Z.odd e).
Qed.

Lemma MultiplyMod64_eqmod a b z :
  0 ≤ a < 2 ^ 64 → 0 ≤ b < 2 ^ 64 → 0 < z ≤ 2 ^ 64 →
  0 ≤ MultiplyMod64 a b z < z ∧ MultiplyMod64 a b z ≡ a * b [mod z].
Proof.
  intros. rewrite MultiplyMod64_mod by lia. split; [|apply eqmod_mod].
  apply Z.mod_pos_bound. lia.
Qed.

(** The exponent of a number is its lowest bit plus twice the rest. *)
Lemma pow_split_odd a e :
  0 ≤ e → a ^ e = a ^ (if Z.odd e then 1 else 0) * (a * a) ^ Z.shiftr e 1.
Proof.
  intros. assert (0 ≤ Z.shiftr e 1) by (apply Z.shiftr_nonneg; lia).
  rewrite <- Z.pow_2_r, <- Z.pow_mul_r, <- Z.pow_add_r by (destruct (Z.odd e); lia).
  f_equal. rewrite Z.shiftr_div_pow2 by lia. rewrite (Z.div_mod e 2) at 1 by lia.
  rewrite Zmod_odd. change (2 ^ 1) with 2. destruct (Z.odd e); lia.
Qed.

Lemma InverseModPrime_loop_spec fuel inv e a z :
  0 < z ≤ 2 ^ 64 → 0 ≤ inv < z → 0 ≤ a < 2 ^ 64 → 0 ≤ e < 2 ^ (Z.of_nat fuel - 1) →
  ∃ r, InverseModPrime_loop fuel inv e a z = Some r ∧ 0 ≤ r < z ∧ r ≡ inv * a ^ e [mod z].
Proof.
  revert inv e a. induction fuel as [|n IH]; intros inv e a Hz Hi Ha He;
    [rewrite Z.pow_neg_r in He; lia|]. simpl InverseModPrime_loop.
  destruct (Z.ltb_spec 0 e).
  2: { assert (e = 0) as -> by lia. eexists; split_and!; [done|lia|lia|eqmod_ring]. }
  destruct (MultiplyMod64_eqmod a a z) as [Haz Haa]; try lia.
  destruct (MultiplyMod64_eqmod inv a z) as [Hiz Hia]; try lia.
  set (inv' := if _ =? _ then _ else _).
  assert (0 ≤ inv' < z ∧ inv' ≡ inv * a ^ (if Z.odd e then 1 else 0) [mod z]) as [Hr Heq].
  { unfold inv'. rewrite land_1_odd. destruct (Z.odd e); split; try done; rewrite ?Hia; eqmod_ring. }
  destruct (IH inv' (Z.shiftr e 1) (MultiplyMod64 a a z)) as (r & -> & Hr0 & Hrm); try lia.
  { rewrite Z.shiftr_div_pow2 by lia. change (2 ^ 1) with 2.
    destruct n as [|n]; [simpl in He; lia|].
    replace (Z.of_nat (S (S n)) - 1) with (Z.succ (Z.of_nat (S n) - 1)) in He by lia.
    rewrite Z.pow_succ_r in He by lia.
    split; [apply Z.div_pos; lia|apply Z.div_lt_upper_bound; lia]. }
  eexists; split_and!; [done|lia|lia|].
  rewrite Hrm, Heq, (eqmod_pow z _ _ (Z.shiftr e 1)) by (done || apply Z.shiftr_nonneg; lia).
  rewrite (pow_split_odd a e) by lia. eqmod_ring.
Qed.

(** ** Properties *)

(** The optimised [AddModOpt] and [SubtractModOpt] agree with the plain
    [AddMod] and [SubtractMod] on reduced operands. *)
Lemma AddModOpt_SubtractModOpt_equivalence a b m :
  0 ≤ a < m → 0 ≤ b < m → m ≤ 2 ^ 63 →
  AddModOpt_debug_checks a b m = true ∧
  AddModOpt a b m = AddMod a b m ∧ AddMod a b m = (a + b) mod m ∧
  SubtractModOpt a b m = SubtractMod a b m ∧ SubtractMod a b m = (a - b) mod m ∧
  AddMod (SubtractMod a b m) b m = a.
Proof.
  intros. assert (0 ≤ (a - b) mod m < m) by (apply Z.mod_pos_bound; lia).
  rewrite AddModOpt_mod, SubtractModOpt_mod, SubtractMod_mod, !AddMod_small by lia.
  split_and!; try done.
  - unfold AddModOpt_debug_checks. in_width. lia.
  - apply (eqmod_small m); [apply Z.mod_pos_bound; lia|lia|].
    drop_mod. eqmod_ring.
Qed.

(** [InverseModPrime] always returns, and returns the inverse. *)
Lemma InverseModPrime_correct a z :
  Z.prime z → z < 2 ^ 64 → 0 ≤ a < 2 ^ 64 → a mod z ≠ 0 →
  ∃ inverse, InverseModPrime a z = Some inverse ∧ 0 ≤ inverse < z ∧
             (a * inverse) mod z = 1.
Proof.
  intros Hp Hz Ha Hnz. pose proof (Z.prime_ge_2 _ Hp).
  destruct (InverseModPrime_loop_spec 65 1 (z - 2) a z) as (r & Hr & Hlt & Heq);
    [lia..|]. exists r. unfold InverseModPrime. in_width. split_and!; [done|lia|lia|].
  rewrite <- (Z.mod_small 1 z) by lia. apply eqmod_rem. rewrite Heq, Z.mul_1_l.
  apply fermat_inverse; [done|]. by rewrite eqmod_iff, Zmod_0_l.
Qed.

Lemma AddModOpt_SubtractModOpt_equivalence_witness :
  AddModOpt_debug_checks 5 6 7 = true ∧
  AddModOpt 5 6 7 = AddMod 5 6 7 ∧ AddMod 5 6 7 = 11 mod 7 ∧
  SubtractModOpt 5 6 7 = SubtractMod 5 6 7 ∧ SubtractMod 5 6 7 = (-1) mod 7 ∧
  AddMod (SubtractMod 5 6 7) 6 7 = 5.
Proof. apply (AddModOpt_SubtractModOpt_equivalence 5 6 7); lia. Defined.

Lemma InverseModPrime_correct_witness :
  ∃ inverse, InverseModPrime 2 3 = Some inverse ∧ 0 ≤ inverse < 3 ∧ (2 * inverse) mod 3 = 1.
Proof. apply (InverseModPrime_correct 2 3); [apply Z.prime_3|lia|lia|discriminate]. Defined.
