(* ===== verification/Interpolation.v ===== *)
(** * Polynomials over the integers modulo a prime

    The mathematics behind [ShamirSecretSharing]: a polynomial with more roots
    than its degree allows is zero, and Lagrange's formula at zero. Polynomials
    are lists of coefficients, lowest degree first. *)

From S2P Require Import Prelude.

Fixpoint sumZ (l : list Z) : Z :=
  match l with [] => 0 | x :: l => x + sumZ l end.
Fixpoint prodZ (l : list Z) : Z :=
  match l with [] => 1 | x :: l => x * prodZ l end.

(** Value of the polynomial with coefficients [cs] at [x]. *)
Fixpoint peval (cs : list Z) (x : Z) : Z :=
  match cs with [] => 0 | c :: cs => c + x * peval cs x end.

(** Coefficients of the quotient by [X - a]. *)
Fixpoint pquot (a : Z) (cs : list Z) : list Z :=
  match cs with
  | [] | [_] => []
  | _ :: cs' => peval cs' a :: pquot a cs'
  end.

Fixpoint padd (cs ds : list Z) : list Z :=
  match cs, ds with
  | [], _ => ds
  | _, [] => cs
  | c :: cs, d :: ds => (c + d) :: padd cs ds
  end.

Lemma peval_cons c cs x : peval (c :: cs) x = c + x * peval cs x.
Proof. done. Qed.

Lemma peval_padd cs ds x : peval (padd cs ds) x = peval cs x + peval ds x.
Proof.
  revert ds. induction cs as [|c cs IH]; intros [|d ds]; simpl; try lia.
  rewrite IH. lia.
Qed.

Lemma length_padd cs ds : length (padd cs ds) = (length cs `max` length ds)%nat.
Proof. revert ds. induction cs as [|c cs IH]; intros [|d ds]; simpl; rewrite ?IH; lia. Qed.

Lemma peval_scale k cs x : peval ((Z.mul k) <$> cs) x = k * peval cs x.
Proof. induction cs as [|c cs IH]; csimpl; rewrite ?IH; lia. Qed.

Lemma length_pquot a cs : length (pquot a cs) = Nat.pred (length cs).
Proof. induction cs as [|c [|d cs] IH]; simpl in *; lia. Qed.

Lemma peval_pquot a cs x : peval cs x = peval cs a + (x - a) * peval (pquot a cs) x.
Proof.
  induction cs as [|c [|d cs] IH]; [simpl; lia|simpl; lia|].
  change (pquot a (c :: d :: cs)) with (peval (d :: cs) a :: pquot a (d :: cs)).
  remember (d :: cs) as ds. rewrite !peval_cons. rewrite IH at 1. ring.
Qed.

Section prime_field.
Context (p : Z) (Hp : Z.prime p).

Definition distinct_mod (xs : list Z) : Prop :=
  ∀ i j x y, i ≠ j → xs !! i = Some x → xs !! j = Some y → ¬ x ≡ y [mod p].

Lemma distinct_mod_cons x xs :
  distinct_mod (x :: xs) → distinct_mod xs ∧ ∀ y, y ∈ xs → ¬ y ≡ x [mod p].
Proof.
  intros H. split.
  - intros i j a b Hij Ha Hb. apply (H (S i) (S j)); [congruence|done..].
  - intros y [j Hj]%list_elem_of_lookup Heq. apply (H (S j) 0%nat y x); done.
Qed.

Lemma mul_eq_0 a b : a * b ≡ 0 [mod p] → a ≡ 0 [mod p] ∨ b ≡ 0 [mod p].
Proof.
  pose proof (Z.prime_ge_2 _ Hp). rewrite !eqmod_0_divide by lia.
  by apply Z.divide_prime_mul.
Qed.

(** A polynomial with at least as many distinct roots as coefficients is zero. *)
Lemma many_roots xs cs :
  distinct_mod xs → (length cs ≤ length xs)%nat →
  (∀ x, x ∈ xs → peval cs x ≡ 0 [mod p]) → ∀ z, peval cs z ≡ 0 [mod p].
Proof.
  revert cs. induction xs as [|a xs IH]; intros cs Hd Hlen Hroot z.
  { destruct cs; [done|simpl in Hlen; lia]. }
  apply distinct_mod_cons in Hd as [Hd Hne].
  rewrite (peval_pquot a), (Hroot a) by set_solver.
  rewrite (IH (pquot a cs)); [eqmod_ring|done|rewrite length_pquot; simpl in *; lia|].
  intros x Hx. specialize (Hroot x ltac:(set_solver)) as Hr.
  rewrite (peval_pquot a), (Hroot a), Z.add_0_l in Hr by set_solver.
  apply mul_eq_0 in Hr as [Hr|Hr]; [|done].
  apply eqmod_sub_0 in Hr. by destruct (Hne x Hx).
Qed.

Definition is_poly (n : nat) (f : Z → Z) : Prop :=
  ∃ cs, (length cs ≤ n)%nat ∧ ∀ x, f x = peval cs x.

Lemma is_poly_const n k : is_poly (S n) (λ _, k).
Proof. exists [k]. simpl. split; [lia|intros; lia]. Qed.
Lemma is_poly_zero n : is_poly n (λ _, 0).
Proof. exists []. simpl. split; [lia|done]. Qed.
Lemma is_poly_add n f g : is_poly n f → is_poly n g → is_poly n (λ x, f x + g x).
Proof.
  intros (cs & ? & Hf) (ds & ? & Hg). exists (padd cs ds). rewrite length_padd.
  split; [lia|intros; by rewrite peval_padd, Hf, Hg].
Qed.
Lemma is_poly_scale n k f : is_poly n f → is_poly n (λ x, k * f x).
Proof.
  intros (cs & ? & Hf). exists (Z.mul k <$> cs). rewrite length_fmap.
  split; [lia|intros; by rewrite peval_scale, Hf].
Qed.
Lemma is_poly_linear n b f : is_poly n f → is_poly (S n) (λ x, (b - x) * f x).
Proof.
  intros (cs & ? & Hf). exists (padd (Z.mul b <$> cs) (0 :: (Z.mul (-1) <$> cs))).
  rewrite length_padd. simpl. rewrite !length_fmap. split; [lia|].
  intros x. rewrite peval_padd, peval_cons, !peval_scale, Hf. ring.
Qed.
Lemma is_poly_prod ys : is_poly (S (length ys)) (λ z, prodZ ((λ y, y - z) <$> ys)).
Proof.
  induction ys as [|y ys IH]; csimpl; [apply is_poly_const|]. by apply is_poly_linear.
Qed.
Lemma is_poly_sum n (gs : list (Z → Z)) :
  Forall (is_poly n) gs → is_poly n (λ z, sumZ ((λ g, g z) <$> gs)).
Proof.
  induction 1; simpl; [apply is_poly_zero|]. by apply is_poly_add.
Qed.

Lemma prod_zero ys z : z ∈ ys → prodZ ((λ y, y - z) <$> ys) = 0.
Proof. induction 1 as [|? ? ? ? IH]; csimpl; [by rewrite Z.sub_diag|rewrite IH; lia]. Qed.

Lemma prod_nonzero ys z :
  (∀ y, y ∈ ys → ¬ y ≡ z [mod p]) → ¬ prodZ ((λ y, y - z) <$> ys) ≡ 0 [mod p].
Proof.
  induction ys as [|y ys IH]; csimpl; intros Hne H.
  - pose proof (Z.prime_ge_2 _ Hp). apply eqmod_rem in H.
    rewrite Z.mod_1_l, Zmod_0_l in H; lia.
  - apply mul_eq_0 in H as [H|H].
    + apply eqmod_sub_0 in H. by destruct (Hne y ltac:(set_solver)).
    + apply IH; [|done]. intros y' Hy'. apply Hne. set_solver.
Qed.

Lemma sumZ_single l k :
  (∀ i v, i ≠ k → l !! i = Some v → v ≡ 0 [mod p]) →
  sumZ l ≡ default 0 (l !! k) [mod p].
Proof.
  revert k. induction l as [|v l IH]; intros k H; simpl; [by destruct k|].
  destruct k as [|k]; simpl.
  - rewrite (IH (length l)).
    + rewrite lookup_ge_None_2 by lia. simpl. eqmod_ring.
    + intros i w _ Hi. by apply (H (S i) w).
  - rewrite (IH k), (H 0%nat v); [eqmod_ring|done|done|].
    intros i w Hik Hi. apply (H (S i) w); [congruence|done].
Qed.

Lemma sumZ_eqmod {A} (f g : nat → A → Z) xs :
  (∀ i x, xs !! i = Some x → f i x ≡ g i x [mod p]) →
  sumZ (imap f xs) ≡ sumZ (imap g xs) [mod p].
Proof.
  revert f g. induction xs as [|x xs IH]; intros f g H; [done|]. simpl.
  rewrite (H 0%nat x), (IH (f ∘ S) (g ∘ S)); [done| |done].
  intros i y Hy. by apply (H (S i)).
Qed.

Lemma elem_of_delete (xs : list Z) i k x :
  i ≠ k → xs !! k = Some x → x ∈ delete i xs.
Proof.
  intros. destruct (decide (k < i)%nat).
  - apply (list_elem_of_lookup_2 _ k). by rewrite list_lookup_delete_lt.
  - apply (list_elem_of_lookup_2 _ (Nat.pred k)). rewrite list_lookup_delete_ge by lia.
    by replace (S (Nat.pred k)) with k by lia.
Qed.

Lemma delete_distinct xs i x y :
  distinct_mod xs → xs !! i = Some x → y ∈ delete i xs → ¬ y ≡ x [mod p].
Proof.
  intros Hd Hi [j Hj]%list_elem_of_lookup. destruct (decide (j < i)%nat).
  - rewrite list_lookup_delete_lt in Hj by lia. apply (Hd j i); [lia|done..].
  - rewrite list_lookup_delete_ge in Hj by lia. apply (Hd (S j) i); [lia|done..].
Qed.

(** The interpolating polynomial through [(x_i, f x_i)], with [v_i] the
    inverse of the product of the differences. *)
Definition interp (cs xs : list Z) (z : Z) : Z :=
  sumZ (imap (λ i x,
    let dx := prodZ ((λ y, y - x) <$> delete i xs) in
    dx ^ (p - 2) * peval cs x * prodZ ((λ y, y - z) <$> delete i xs)) xs).

Lemma interp_poly cs xs : is_poly (length xs) (interp cs xs).
Proof.
  unfold interp.
  set (G := imap (λ i x z, prodZ ((λ y, y - x) <$> delete i xs) ^ (p - 2) * peval cs x *
                            prodZ ((λ y, y - z) <$> delete i xs)) xs).
  assert (HG : Forall (is_poly (length xs)) G).
  { apply Forall_lookup_2. intros i g. unfold G. rewrite list_lookup_imap.
    destruct (xs !! i) as [x|] eqn:Hi; simpl; [|done]. intros [= <-].
    apply is_poly_scale. pose proof (is_poly_prod (delete i xs)) as H.
    assert (S (length (delete i xs)) = length xs) as <-; [|done].
    rewrite length_delete by eauto. apply lookup_lt_Some in Hi. lia. }
  destruct (is_poly_sum _ _ HG) as (ds & Hlen & Hds). exists ds. split; [done|].
  intros z. rewrite <- Hds. f_equal. unfold G. by rewrite fmap_imap.
Qed.

Lemma interp_at_point cs xs k x :
  distinct_mod xs → xs !! k = Some x → interp cs xs x ≡ peval cs x [mod p].
Proof.
  intros Hd Hk. unfold interp. rewrite (sumZ_single _ k).
  - rewrite list_lookup_imap, Hk. simpl.
    pose proof (fermat_inverse p _ Hp (prod_nonzero (delete k xs) x
      (λ y Hy, delete_distinct xs k x y Hd Hk Hy))) as Hinv.
    rewrite <- (Z.mul_1_r (peval cs x)) at 2. rewrite <- Hinv. eqmod_ring.
  - intros i v Hik. rewrite list_lookup_imap. destruct (xs !! i); simpl; [|done].
    intros [= <-]. rewrite (prod_zero (delete i xs) x) by (apply (elem_of_delete xs i k); done). eqmod_ring.
Qed.

(** Lagrange's formula at zero, for weights given by their defining equation. *)
Lemma lagrange_at_zero xs (w : nat → Z → Z) cs :
  distinct_mod xs → (length cs ≤ length xs)%nat →
  (∀ i x, xs !! i = Some x →
     w i x * prodZ ((λ y, y - x) <$> delete i xs) ≡ prodZ (delete i xs) [mod p]) →
  sumZ (imap (λ i x, w i x * peval cs x) xs) ≡ peval cs 0 [mod p].
Proof.
  intros Hd Hlen Hw.
  transitivity (interp cs xs 0).
  - apply sumZ_eqmod. intros i x Hi. cbv zeta.
    pose proof (fermat_inverse p _ Hp (prod_nonzero (delete i xs) x
      (λ y Hy, delete_distinct xs i x y Hd Hi Hy))) as Hinv.
    assert ((λ y, y - 0) <$> delete i xs = delete i xs) as ->.
    { rewrite <- (list_fmap_id (delete i xs)) at 2. apply list_fmap_ext.
      intros _ y _. simpl. lia. }
    rewrite <- (Hw i x Hi). rewrite <- (Z.mul_1_r (w i x * peval cs x)), <- Hinv at 1. eqmod_ring.
  - destruct (interp_poly cs xs) as (ds & Hds & Hpoly).
    apply eqmod_sub_0. rewrite Hpoly.
    transitivity (peval (padd ds (Z.mul (-1) <$> cs)) 0).
    { rewrite peval_padd, peval_scale. eqmod_ring. }
    apply (many_roots xs); [done|rewrite length_padd, length_fmap; lia|].
    intros x [k Hk]%list_elem_of_lookup.
    rewrite peval_padd, peval_scale, <- Hpoly, (interp_at_point cs xs k) by done. eqmod_ring.
Qed.
End prime_field.
