(* ===== verification/Shamir.v ===== *)
(** * [shared/shamir_secret_sharing.{h,cc}]: threshold secret sharing

    The object of the class is the record [ShamirSecretSharing] of its caches;
    a method that changes it returns the new object. Byte strings are lists of
    integers in [0, 256). The random words that [RAND_bytes] delivers are a
    list (the tape) that the sharing methods consume. *)

From S2P Require Import Prelude Math Interpolation.

Definition kPrime : Z := 2147483659.
Definition kBitsPerSubsecret : Z := 31.
Definition kSubsecretSize : nat := 4.

Record ShamirSecretSharing := {
  inverses_ : list Z;
  last_lc_input_ : list Z;
  last_lc_output_ : list Z
}.

Definition new_ShamirSecretSharing : ShamirSecretSharing :=
  {| inverses_ := []; last_lc_input_ := []; last_lc_output_ := [] |}.

(** A share is the string [ShamirShare::data]; the empty one means absent. *)
Abbreviation ShamirShare := (list Z) (only parsing).

(** ** Sharing *)

(** The [do ... while] loop over 32-bit random words; [None] if the tape ends
    before an acceptable word is drawn. *)
Fixpoint RandomFieldElement (tape : list Z) : option (Z * list Z) :=
  match tape with
  | [] => None
  | rand :: tape =>
      if kPrime <=? u32 rand then RandomFieldElement tape else Some (u32 rand, tape)
  end.

(** [n] consecutive calls of [RandomFieldElement]. *)
Fixpoint RandomFieldElements (n : nat) (tape : list Z) : option (list Z * list Z) :=
  match n with
  | O => Some ([], tape)
  | S n =>
      '(r, tape) ← RandomFieldElement tape;
      '(rs, tape) ← RandomFieldElements n tape;
      Some (r :: rs, tape)
  end.

(** Horner's scheme from the highest coefficient down, in [uint64_t]. *)
Definition EvaluatePolynomial (polynomial : list Z) (x : Z) : Z :=
  match polynomial with
  | [] => 0
  | c0 :: cs =>
      let sum := foldr (λ c sum, u64 (u64 (sum + c) * x) mod kPrime) 0 cs in
      u32 (u64 (sum + c0) mod kPrime)
  end.

(** One iteration of the loop over the bytes of the secret, last byte first.
    [rparts] is the vector of subsecrets in [rbegin] order, [cur] the position
    of the iterator [current_subsecret]; [last] tells that [i == 0]. *)
Definition DivideIntoSubsecrets_step (rparts : list Z) (cur : nat) (bits_done : Z)
    (last : bool) (current_byte : Z) : list Z * nat * Z :=
  let or_at k v l := alter (λ part, Z.lor part (u32 v)) k l in
  if 8 <? kBitsPerSubsecret - bits_done then
    (or_at cur (Z.shiftl current_byte bits_done) rparts, cur, bits_done + 8)
  else
    let current_byte_right :=
      Z.land current_byte (Z.shiftr 255 (8 - (kBitsPerSubsecret - bits_done))) in
    let rparts := or_at cur (Z.shiftl current_byte_right bits_done) rparts in
    if last && (bits_done + 8 =? kBitsPerSubsecret) then (rparts, cur, bits_done)
    else
      let bits_done := (bits_done + 8) mod kBitsPerSubsecret in
      (or_at (S cur) (Z.shiftr current_byte (8 - bits_done)) rparts, S cur, bits_done).

Fixpoint DivideIntoSubsecrets_loop (rbytes : list Z) (rparts : list Z) (cur : nat)
    (bits_done : Z) : list Z * nat :=
  match rbytes with
  | [] => (rparts, cur)
  | b :: rest =>
      let '(rparts, cur, bits_done) :=
        DivideIntoSubsecrets_step rparts cur bits_done (bool_decide (rest = [])) (u8 b) in
      DivideIntoSubsecrets_loop rest rparts cur bits_done
  end.

Definition DivideIntoSubsecrets (to_share : list Z) : Res (list Z) :=
  let n := Z.to_nat (DivideRoundUp (u32 (u32 (Z.of_nat (length to_share)) * 8))
                                   kBitsPerSubsecret) in
  let '(rparts, cur) := DivideIntoSubsecrets_loop (reverse to_share) (replicate n 0) 0 0 in
  FCP_CHECK bool_decide (S cur = n) ;; Ok (reverse rparts).

(** The loop over the subsecrets: draw the polynomial of each and append its
    values to the shares. *)
Fixpoint Share_loop (threshold : Z) (subsecrets : list Z) (tape : list Z)
    (shares : list ShamirShare) : option (list ShamirShare * list Z) :=
  match subsecrets with
  | [] => Some (shares, tape)
  | subsecret :: rest =>
      '(rs, tape) ← RandomFieldElements (Z.to_nat (threshold - 1)) tape;
      let coefficients := subsecret :: rs in
      let shares := imap (λ i data,
        data ++ IntToByteString (EvaluatePolynomial coefficients (u32 (Z.of_nat i + 1)))) shares in
      Share_loop threshold rest tape shares
  end.

Definition Share (threshold num_shares : Z) (to_share : list Z) (tape : list Z) :
    Res (option (list ShamirShare * list Z)) :=
  FCP_CHECK negb (bool_decide (to_share = [])) ;;
  FCP_CHECK 1 <? num_shares ;;
  FCP_CHECK (2 <=? threshold) && (threshold <=? num_shares) ;;
  subsecrets ← DivideIntoSubsecrets to_share;
  Ok (Share_loop threshold subsecrets tape (replicate (Z.to_nat num_shares) [])).

(** ** Reconstruction *)

(** [ModPow x y] for [y > 0], on the binary digits of [y]: the recursive call
    is on [y / 2]. *)
Fixpoint ModPow_pos (x : Z) (y : positive) : Z :=
  let half := match y with xH => 1 | xO y' | xI y' => ModPow_pos x y' end in
  let p := u32 (half mod kPrime) in
  let q := MultiplyMod p p kPrime in
  match y with xO _ => q | _ => MultiplyMod x q kPrime end.

Definition ModPow (x y : Z) : Z :=
  match y with Zpos y => ModPow_pos x y | _ => 1 end.

#[global] Arguments ModPow : simpl never.

(** [k] iterations of the [while] loop that extends the cache. *)
Fixpoint extend_inverses (k : nat) (inverses : list Z) : list Z :=
  match k with
  | O => inverses
  | S k => extend_inverses k
             (inverses ++ [ModPow (u32 (Z.of_nat (length inverses) + 1)) (u32 (kPrime - 2))])
  end.

Definition ModInverse (inverses : list Z) (n : Z) : Res (Z * list Z) :=
  FCP_CHECK (0 <? n) && (n <? kPrime) ;;
  let inverses := extend_inverses (Z.to_nat n - length inverses) inverses in
  Ok (default 0 (inverses !! Z.to_nat (n - 1)), inverses).

(** The loop over [j] that computes the coefficient of [x_values[i]]. *)
Fixpoint LagrangeCoefficients_inner (i j : nat) (xi : Z) (x_values : list Z)
    (inverses : list Z) (coefficient : Z) : Res (Z * list Z) :=
  match x_values with
  | [] => Ok (coefficient, inverses)
  | xj :: rest =>
      if bool_decide (i = j) then
        LagrangeCoefficients_inner i (S j) xi rest inverses coefficient
      else
        let coefficient := MultiplyMod coefficient (u32 xj) kPrime in
        if xi <? xj then
          '(inv, inverses) ← ModInverse inverses (u32 (xj - xi));
          LagrangeCoefficients_inner i (S j) xi rest inverses
            (MultiplyMod coefficient inv kPrime)
        else
          let coefficient := MultiplyMod coefficient (kPrime - 1) kPrime in
          '(inv, inverses) ← ModInverse inverses (u32 (xi - xj));
          LagrangeCoefficients_inner i (S j) xi rest inverses
            (MultiplyMod coefficient inv kPrime)
  end.

(** The loop over [i]; [todo] is the part of [x_values] from [i] on. *)
Fixpoint LagrangeCoefficients_outer (i : nat) (todo x_values : list Z)
    (inverses output : list Z) : Res (list Z * list Z) :=
  match todo with
  | [] => Ok (output, inverses)
  | xi :: todo =>
      '(c, inverses) ← LagrangeCoefficients_inner i 0 xi x_values inverses 1;
      LagrangeCoefficients_outer (S i) todo x_values inverses (output ++ [c])
  end.

Definition LagrangeCoefficients (sss : ShamirSecretSharing) (x_values : list Z) :
    Res (list Z * ShamirSecretSharing) :=
  FCP_CHECK bool_decide (1 < length x_values)%nat ;;
  FCP_CHECK forallb (λ x, 0 <? x) x_values ;;
  if bool_decide (x_values = last_lc_input_ sss) then Ok (last_lc_output_ sss, sss)
  else
    '(output, inverses) ← LagrangeCoefficients_outer 0 x_values x_values (inverses_ sss) [];
    Ok (output, {| inverses_ := inverses; last_lc_input_ := x_values; last_lc_output_ := output |}).

(** The loop that selects the shares to use. *)
Fixpoint Reconstruct_x_values (threshold max_num_subsecrets : Z) (i : Z)
    (shares : list ShamirShare) (num_subsecrets : Z) (x_values : list Z) : Res (Z * list Z) :=
  match shares with
  | [] => Ok (num_subsecrets, x_values)
  | data :: rest =>
      if Z.of_nat (length x_values) <? threshold then
        if bool_decide (data = []) then
          Reconstruct_x_values threshold max_num_subsecrets (i + 1) rest num_subsecrets x_values
        else
          let size := Z.of_nat (length data) in
          FCP_CHECK size mod 4 =? 0 ;;
          if num_subsecrets =? 0 then
            let num_subsecrets := size / 4 in
            FCP_CHECK (0 <? num_subsecrets) && (num_subsecrets <=? max_num_subsecrets) ;;
            Reconstruct_x_values threshold max_num_subsecrets (i + 1) rest num_subsecrets
              (x_values ++ [i + 1])
          else
            FCP_CHECK size =? num_subsecrets * 4 ;;
            Reconstruct_x_values threshold max_num_subsecrets (i + 1) rest num_subsecrets
              (x_values ++ [i + 1])
      else Ok (num_subsecrets, x_values)
  end.

(** Big-endian decoding of the [i]-th word of a share. *)
Definition DecodeSubshare (data : ShamirShare) (i : nat) : Z :=
  foldl (λ subshare k, u32 (u32 (Z.shiftl subshare 8) + u8 (default 0 (data !! (4 * i + k)%nat))))
    0 (seq 0 kSubsecretSize).

(** The products that the loop over [j] adds up for subsecret [i]. *)
Definition Reconstruct_terms (shares : list ShamirShare) (x_values coefficients : list Z)
    (i : nat) : list Z :=
  zip_with (λ x c, MultiplyMod
      (DecodeSubshare (default [] (shares !! Z.to_nat (x - 1))) i) c kPrime)
    x_values coefficients.

(** The accumulation, in [uint32_t]. *)
Definition Reconstruct_subsecret (terms : list Z) : Z :=
  foldl (λ acc t, u32 (u32 (acc + t) mod kPrime)) 0 terms.

(** The loop over the bytes of the secret, last byte first; [parts] starts at
    the subsecret of the iterator, in [crbegin] order. *)
Fixpoint RebuildFromSubsecrets_loop (n : nat) (parts : list Z) (bits_done : Z)
    (secret : list Z) : list Z :=
  match n with
  | O => secret
  | S n =>
      match parts with
      | [] => RebuildFromSubsecrets_loop n [] bits_done (0 :: secret)
      | s :: rest =>
          if 8 <? kBitsPerSubsecret - bits_done then
            RebuildFromSubsecrets_loop n parts (bits_done + 8)
              (u8 (Z.land (Z.shiftr s bits_done) 255) :: secret)
          else
            let next_low_bits := u8 (Z.shiftr s bits_done) in
            let high := match rest with
                        | s' :: _ => u8 (Z.land s' (Z.shiftr 255 (kBitsPerSubsecret - bits_done)))
                        | [] => 0
                        end in
            let bits_done := (bits_done + 8) mod kBitsPerSubsecret in
            RebuildFromSubsecrets_loop n rest bits_done
              (Z.lor (u8 (Z.shiftl high (8 - bits_done))) next_low_bits :: secret)
      end
  end.

Definition RebuildFromSubsecrets (secret_parts : list Z) (secret_length : Z) : list Z :=
  RebuildFromSubsecrets_loop (Z.to_nat secret_length) (reverse secret_parts) 0 [].

Definition Reconstruct (sss : ShamirSecretSharing) (threshold : Z) (shares : list ShamirShare)
    (secret_length : Z) : Res (list Z * ShamirSecretSharing) :=
  FCP_CHECK 1 <? threshold ;;
  FCP_CHECK 0 <? secret_length ;;
  FCP_CHECK threshold <=? Z.of_nat (length shares) ;;
  let max_num_subsecrets := (8 * secret_length + kBitsPerSubsecret - 1) / kBitsPerSubsecret in
  '(num_subsecrets, x_values) ← Reconstruct_x_values threshold max_num_subsecrets 0 shares 0 [];
  if Z.of_nat (length x_values) <? threshold then
    Error FAILED_PRECONDITION "Not enough valid shares were provided."
  else
    '(coefficients, sss) ← LagrangeCoefficients sss x_values;
    let subsecrets := (λ i, Reconstruct_subsecret (Reconstruct_terms shares x_values coefficients i))
                        <$> seq 0 (Z.to_nat num_subsecrets) in
    Ok (RebuildFromSubsecrets subsecrets secret_length, sss).

(** ** The modulus is prime *)

Fixpoint no_odd_divisor (fuel : nat) (d n : Z) : bool :=
  match fuel with
  | O => true
  | S fuel => negb (n mod d =? 0) && no_odd_divisor fuel (d + 2) n
  end.

Lemma no_odd_divisor_spec fuel d n :
  no_odd_divisor fuel d n = true →
  ∀ k, 0 ≤ k < Z.of_nat fuel → n mod (d + 2 * k) ≠ 0.
Proof.
  revert d. induction fuel as [|fuel IH]; intros d; simpl; [lia|].
  intros [H1 H2]%andb_true_iff k Hk. destruct (decide (k = 0)) as [->|].
  - rewrite Z.add_0_r. lia.
  - specialize (IH _ H2 (k - 1) ltac:(lia)). by replace (d + 2 * k) with (d + 2 + 2 * (k - 1)) by lia.
Qed.

Lemma kPrime_prime : Z.prime kPrime.
Proof.
  assert (Hc : no_odd_divisor (Z.to_nat 23170) 3 kPrime = true) by (vm_compute; reflexivity).
  pose proof (no_odd_divisor_spec _ _ _ Hc) as Hodd. rewrite Z2Nat.id in Hodd by lia.
  assert (Hsmall : ∀ d, 1 < d ≤ 46341 → ¬ (d | kPrime)).
  { intros d Hd Hdiv. destruct (Z.Even_or_Odd d) as [[k ->]|[k ->]].
    - assert (Hev : (2 | kPrime)) by (apply Z.divide_trans with (2 * k); [exists k; ring|done]).
      apply Z.mod_divide in Hev; [vm_compute in Hev|]; done.
    - apply Z.mod_divide in Hdiv; [|lia]. apply (Hodd (k - 1)); [lia|].
      by replace (3 + 2 * (k - 1)) with (2 * k + 1) by lia. }
  split; [done|]. intros n Hn [q Hq].
  destruct (decide (n ≤ 46341)); [apply (Hsmall n); [lia|by exists q]|].
  apply (Hsmall q); [|exists n; lia].
  assert (0 < q) by (unfold kPrime in *; nia).
  assert (q ≠ 1) by lia. split; [lia|]. apply Z.nlt_ge. intros Hq'.
  assert (46342 * 46342 ≤ q * n) by (apply Z.mul_le_mono_nonneg; lia). unfold kPrime in *. lia.
Qed.

(** ** Arithmetic modulo the prime *)

Lemma MultiplyMod_kPrime a b :
  0 ≤ a < 2 ^ 32 → 0 ≤ b < 2 ^ 32 →
  0 ≤ MultiplyMod a b kPrime < kPrime ∧ MultiplyMod a b kPrime ≡ a * b [mod kPrime].
Proof.
  intros. rewrite MultiplyMod_mod by (unfold kPrime; lia).
  split; [apply Z.mod_pos_bound; done|apply eqmod_mod].
Qed.

Lemma ModPow_pos_spec x y :
  0 ≤ x < 2 ^ 32 → 0 ≤ ModPow_pos x y < kPrime ∧ ModPow_pos x y ≡ x ^ Zpos y [mod kPrime].
Proof.
  intros Hx.
  assert (Hstep : ∀ half e, 0 ≤ half < kPrime → half ≡ x ^ e [mod kPrime] → 0 ≤ e →
    let q := MultiplyMod (u32 (half mod kPrime)) (u32 (half mod kPrime)) kPrime in
    (0 ≤ q < kPrime ∧ q ≡ x ^ (2 * e) [mod kPrime]) ∧
    0 ≤ MultiplyMod x q kPrime < kPrime ∧ MultiplyMod x q kPrime ≡ x ^ (2 * e + 1) [mod kPrime]).
  { intros half e Hh Heq He. cbv zeta. rewrite Z.mod_small by done.
    rewrite u32_small by (unfold kPrime in *; lia).
    destruct (MultiplyMod_kPrime half half) as [Hq Hqe]; [unfold kPrime in *; lia..|].
    destruct (MultiplyMod_kPrime x (MultiplyMod half half kPrime)) as [Hr Hre];
      [lia|unfold kPrime in *; lia|].
    assert (MultiplyMod half half kPrime ≡ x ^ (2 * e) [mod kPrime]) as Hsq.
    { rewrite Hqe, Heq, <- Z.pow_add_r by lia. apply eqmod_eq. f_equal. lia. }
    split_and!; try lia; [done|]. rewrite Hre, Hsq, <- Z.pow_succ_r by lia. done. }
  induction y as [y [IHr IHe]|y [IHr IHe]|]; simpl.
  - destruct (Hstep _ _ IHr IHe) as (_ & ? & ?); [done|].
    by rewrite (Pos2Z.pos_xI y).
  - destruct (Hstep _ _ IHr IHe) as ((? & ?) & _); [done|].
    by rewrite (Pos2Z.pos_xO y).
  - destruct (Hstep 1 0) as (_ & ? & ?); [done|done|done|]. done.
Qed.

(** Entries of the cache of inverses. *)
Definition inverses_ok (inverses : list Z) : Prop :=
  ∀ k v, inverses !! k = Some v → Z.of_nat (S k) < kPrime →
    0 ≤ v < kPrime ∧ Z.of_nat (S k) * v ≡ 1 [mod kPrime].

Lemma small_nonzero n : 0 < n < kPrime → ¬ n ≡ 0 [mod kPrime].
Proof.
  intros Hn H. apply eqmod_rem in H. rewrite Z.mod_small, Zmod_0_l in H; lia.
Qed.

Lemma ModPow_inverse n :
  0 < n < kPrime →
  0 ≤ ModPow (u32 n) (u32 (kPrime - 2)) < kPrime ∧
  n * ModPow (u32 n) (u32 (kPrime - 2)) ≡ 1 [mod kPrime].
Proof.
  intros Hn. rewrite (u32_small n) by (unfold kPrime in *; lia).
  assert (∃ y, u32 (kPrime - 2) = Zpos y ∧ Zpos y = kPrime - 2) as (y & Hy & Hy2)
    by (eexists; split; vm_compute; reflexivity).
  rewrite Hy. unfold ModPow.
  destruct (ModPow_pos_spec n y) as [Hr He]; [unfold kPrime in *; lia|].
  split; [exact Hr|]. rewrite He, Hy2.
  apply fermat_inverse; [apply kPrime_prime|by apply small_nonzero].
Qed.

#[local] Opaque ModPow.

Lemma extend_inverses_ok k inverses :
  inverses_ok inverses →
  inverses_ok (extend_inverses k inverses) ∧
  length (extend_inverses k inverses) = (k + length inverses)%nat.
Proof.
  revert inverses. induction k as [|k IH]; intros inverses Hok; [done|]. simpl.
  destruct (IH (inverses ++ [ModPow (u32 (Z.of_nat (length inverses) + 1)) (u32 (kPrime - 2))]))
    as [Hok' Hlen].
  - intros i v Hi Hlt. apply lookup_app_Some in Hi as [Hi|[Hge Hi]]; [by apply Hok|].
    destruct (i - length inverses)%nat as [|d] eqn:Hd; [|destruct d; done].
    injection Hi as <-. replace (Z.of_nat (length inverses) + 1) with (Z.of_nat (S i)) by lia.
    apply ModPow_inverse. lia.
  - split; [done|]. rewrite Hlen, length_app. simpl. lia.
Qed.

Lemma ModInverse_ok inverses n :
  inverses_ok inverses → 0 < n < kPrime →
  ∃ v inverses', ModInverse inverses n = Ok (v, inverses') ∧ inverses_ok inverses' ∧
    0 ≤ v < kPrime ∧ n * v ≡ 1 [mod kPrime].
Proof.
  intros Hok Hn. unfold ModInverse. rewrite (proj2 (andb_true_iff _ _)) by lia. simpl.
  destruct (extend_inverses_ok (Z.to_nat n - length inverses) _ Hok) as [Hok' Hlen].
  destruct (lookup_lt_is_Some_2 (extend_inverses (Z.to_nat n - length inverses) inverses)
              (Z.to_nat (n - 1))) as [v Hv]; [lia|].
  rewrite Hv. destruct (Hok' _ _ Hv) as [Hr He]; [lia|].
  replace (Z.of_nat (S (Z.to_nat (n - 1)))) with n in He by lia. eauto 10.
Qed.

(** ** Lagrange coefficients *)

(** The elements of a suffix, starting at index [j], whose index is not [i]. *)
Fixpoint others (i j : nat) (xs : list Z) : list Z :=
  match xs with
  | [] => []
  | x :: xs => if bool_decide (i = j) then others i (S j) xs else x :: others i (S j) xs
  end.

Lemma others_delete i j xs :
  others i j xs = if bool_decide (i < j)%nat then xs else delete (i - j)%nat xs.
Proof.
  revert j. induction xs as [|x xs IH]; intros j; simpl; [by case_bool_decide|].
  rewrite IH. repeat case_bool_decide; try lia; [|done|].
  - subst. by rewrite Nat.sub_diag.
  - by replace (i - j)%nat with (S (i - S j)) by lia.
Qed.

Definition small_x (x : Z) : Prop := 0 < x < 2 ^ 31.

(** [w] is the Lagrange coefficient at zero of the [i]-th of the points [xs]. *)
Definition is_weight (xs : list Z) (i : nat) (x w : Z) : Prop :=
  0 ≤ w < kPrime ∧
  w * prodZ ((λ y, y - x) <$> delete i xs) ≡ prodZ (delete i xs) [mod kPrime].

Lemma coefficient_step c xj d v s :
  0 ≤ c < kPrime → small_x xj → 0 ≤ v < kPrime → 0 ≤ s < 2 ^ 32 → s * v * d ≡ 1 [mod kPrime] →
  let c' := MultiplyMod (MultiplyMod (MultiplyMod c (u32 xj) kPrime) s kPrime) v kPrime in
  0 ≤ c' < kPrime ∧ c' * d ≡ c * xj [mod kPrime].
Proof.
  unfold small_x. intros Hc Hx Hv Hs Hd. cbv zeta. rewrite (u32_small xj) by lia.
  destruct (MultiplyMod_kPrime c xj) as [H1 E1]; [unfold kPrime in *; lia..|].
  destruct (MultiplyMod_kPrime (MultiplyMod c xj kPrime) s) as [H2 E2];
    [unfold kPrime in *; lia..|].
  destruct (MultiplyMod_kPrime (MultiplyMod (MultiplyMod c xj kPrime) s kPrime) v) as [H3 E3];
    [unfold kPrime in *; lia..|].
  split; [done|]. rewrite E3, E2, E1.
  transitivity (c * xj * (s * v * d)); [eqmod_ring|]. rewrite Hd. eqmod_ring.
Qed.

Lemma MultiplyMod_1_r a : 0 ≤ a < kPrime → MultiplyMod a 1 kPrime = a.
Proof.
  intros. rewrite MultiplyMod_mod, Z.mul_1_r by (unfold kPrime in *; lia). by apply Z.mod_small.
Qed.

Lemma LagrangeCoefficients_inner_ok i xi rest : ∀ j inverses c,
  inverses_ok inverses → 0 ≤ c < kPrime → small_x xi → Forall small_x rest →
  xi ∉ others i j rest →
  ∃ c' inverses', LagrangeCoefficients_inner i j xi rest inverses c = Ok (c', inverses') ∧
    inverses_ok inverses' ∧ 0 ≤ c' < kPrime ∧
    c' * prodZ ((λ y, y - xi) <$> others i j rest) ≡ c * prodZ (others i j rest) [mod kPrime].
Proof.
  induction rest as [|xj rest IH]; intros j inverses c Hok Hc Hxi Hall Hni; simpl.
  { eexists _, _. split_and!; [done|done|lia..|eqmod_ring]. }
  apply Forall_cons in Hall as [Hxj Hall]. simpl in Hni. case_bool_decide; [by apply IH|].
  apply not_elem_of_cons in Hni as [Hne Hni]. unfold small_x in Hxi, Hxj.
  assert (Hnext : ∀ s v inverses, inverses_ok inverses → 0 ≤ v < kPrime → 0 ≤ s < 2 ^ 32 →
     s * v * (xj - xi) ≡ 1 [mod kPrime] →
     ∃ c' inverses', LagrangeCoefficients_inner i (S j) xi rest inverses
        (MultiplyMod (MultiplyMod (MultiplyMod c (u32 xj) kPrime) s kPrime) v kPrime)
        = Ok (c', inverses') ∧ inverses_ok inverses' ∧ 0 ≤ c' < kPrime ∧
     c' * prodZ ((λ y, y - xi) <$> (xj :: others i (S j) rest)) ≡
     c * prodZ (xj :: others i (S j) rest) [mod kPrime]).
  { intros s v inverses2 Hok2 Hv Hs Hd.
    destruct (coefficient_step c xj (xj - xi) v s) as [Hr He]; try done.
    destruct (IH (S j) inverses2 _ Hok2 Hr Hxi Hall Hni) as (c' & inv' & -> & ? & ? & Heq).
    eexists _, _. split_and!; [done|done|lia..|]. csimpl.
    transitivity ((xj - xi) * (c' * prodZ ((λ y, y - xi) <$> others i (S j) rest))); [eqmod_ring|].
    rewrite Heq. transitivity ((MultiplyMod (MultiplyMod (MultiplyMod c (u32 xj) kPrime) s kPrime)
      v kPrime * (xj - xi)) * prodZ (others i (S j) rest)); [eqmod_ring|]. rewrite He. eqmod_ring. }
  destruct (Z.ltb_spec xi xj).
  - rewrite (u32_small (xj - xi)) by lia.
    destruct (ModInverse_ok inverses (xj - xi)) as (v & inv1 & -> & Hok1 & Hv & Hinv);
      [done|unfold kPrime; lia|]. simpl.
    destruct (Hnext 1 v inv1) as (c' & inv' & Hrun & Hrest); [done|done|lia| |].
    { etransitivity; [|exact Hinv]. eqmod_ring. }
    rewrite MultiplyMod_1_r in Hrun by (apply MultiplyMod_kPrime; unfold kPrime in *;
      rewrite ?u32_small; lia). eauto.
  - rewrite (u32_small (xi - xj)) by lia.
    destruct (ModInverse_ok inverses (xi - xj)) as (v & inv1 & -> & Hok1 & Hv & Hinv);
      [done|unfold kPrime; lia|]. simpl.
    apply (Hnext (kPrime - 1) v inv1); [done|done|unfold kPrime; lia|].
    etransitivity; [|exact Hinv]. transitivity (kPrime * (v * (xj - xi)) + (xi - xj) * v); [eqmod_ring|].
    rewrite (proj2 (eqmod_0_divide kPrime (kPrime * _) ltac:(done))) by (exists (v * (xj - xi)); ring).
    eqmod_ring.
Qed.

Definition weights_ok (xs ws : list Z) : Prop :=
  length ws = length xs ∧
  ∀ i x w, xs !! i = Some x → ws !! i = Some w → is_weight xs i x w.

(** The invariant of the object: both caches hold correct values. *)
Definition sss_ok (sss : ShamirSecretSharing) : Prop :=
  inverses_ok (inverses_ sss) ∧ weights_ok (last_lc_input_ sss) (last_lc_output_ sss).

Lemma LagrangeCoefficients_outer_ok xs todo : ∀ done_ inverses output,
  xs = done_ ++ todo → NoDup xs → Forall small_x xs → inverses_ok inverses →
  length output = length done_ →
  (∀ i x w, xs !! i = Some x → output !! i = Some w → is_weight xs i x w) →
  ∃ ws inverses', LagrangeCoefficients_outer (length done_) todo xs inverses output
      = Ok (ws, inverses') ∧ inverses_ok inverses' ∧ weights_ok xs ws.
Proof.
  induction todo as [|xi todo IH]; intros done_ inverses output Hxs Hnd Hall Hok Hlen Hw; simpl.
  { eexists _, _. split_and!; [done|done|]. split; [|done]. subst xs.
    rewrite app_nil_r. lia. }
  assert (Hi : xs !! length done_ = Some xi) by (subst xs; by apply list_lookup_middle).
  assert (Hdel : others (length done_) 0 xs = delete (length done_) xs).
  { rewrite others_delete, bool_decide_false by lia. by rewrite Nat.sub_0_r. }
  destruct (LagrangeCoefficients_inner_ok (length done_) xi xs 0 inverses 1)
    as (c & inv1 & -> & Hok1 & Hc & Heq); [done|done| |done| |].
  { eapply Forall_lookup_1; eauto. }
  { rewrite Hdel. rewrite (delete_Permutation xs (length done_) xi Hi) in Hnd.
    by apply NoDup_cons in Hnd as [? _]. }
  rewrite Hdel in Heq. simpl.
  destruct (IH (done_ ++ [xi]) inv1 (output ++ [c])) as (ws & inv' & Hrun & ?); try done.
  - by rewrite <- app_assoc.
  - rewrite !length_app. simpl. lia.
  - intros i x w Hx Hwi. apply lookup_app_Some in Hwi as [Hwi|[Hge Hwi]]; [by apply Hw|].
    apply list_lookup_singleton_Some in Hwi as [Heqi ->].
    assert (i = length done_) as -> by lia. rewrite Hi in Hx. injection Hx as <-.
    split; [done|]. rewrite Heq. eqmod_ring.
  - rewrite length_app, Nat.add_1_r in Hrun. eauto.
Qed.

Lemma LagrangeCoefficients_ok sss xs :
  sss_ok sss → (1 < length xs)%nat → NoDup xs → Forall small_x xs →
  ∃ ws sss', LagrangeCoefficients sss xs = Ok (ws, sss') ∧ sss_ok sss' ∧ weights_ok xs ws.
Proof.
  intros [Hok Hcache] Hlen Hnd Hall. unfold LagrangeCoefficients.
  rewrite bool_decide_true by done. simpl.
  assert (forallb (λ x, 0 <? x) xs = true) as ->.
  { apply forallb_forall. intros x Hx%list_elem_of_In.
    rewrite Forall_forall in Hall. destruct (Hall x Hx). lia. }
  simpl. case_bool_decide as Heq.
  - subst xs. eexists _, _. split_and!; [done|by split|done].
  - destruct (LagrangeCoefficients_outer_ok xs xs [] (inverses_ sss) [])
      as (ws & inv' & Hrun & ? & ?); [done..|].
    simpl in Hrun. rewrite Hrun. simpl. eexists _, _. split_and!; [done|by split|done].
Qed.

(** ** Accumulation of a subsecret *)

(** The 32-bit accumulator never wraps around on these terms. *)
Fixpoint accumulates_in_range (acc : Z) (terms : list Z) : bool :=
  match terms with
  | [] => true
  | t :: ts => (acc + t <? 2 ^ 32) && accumulates_in_range ((acc + t) mod kPrime) ts
  end.

Lemma accumulate_sum terms : ∀ acc,
  0 ≤ acc < kPrime → Forall (λ t, 0 ≤ t < kPrime) terms →
  accumulates_in_range acc terms = true →
  foldl (λ acc t, u32 (u32 (acc + t) mod kPrime)) acc terms = (acc + sumZ terms) mod kPrime.
Proof.
  induction terms as [|t terms IH]; intros acc Hacc Hall Hr; simpl.
  { rewrite Z.add_0_r, Z.mod_small; done. }
  apply Forall_cons in Hall as [Ht Hall]. simpl in Hr. apply andb_true_iff in Hr as [Hlt Hr].
  assert (Hm : 0 ≤ (acc + t) mod kPrime < kPrime) by (by apply Z.mod_pos_bound).
  rewrite (u32_small (acc + t)) by lia. rewrite u32_small by (unfold kPrime in *; lia).
  rewrite IH by done. apply eqmod_rem. drop_mod. eqmod_ring.
Qed.

Lemma Reconstruct_subsecret_sum terms :
  Forall (λ t, 0 ≤ t < kPrime) terms → accumulates_in_range 0 terms = true →
  Reconstruct_subsecret terms = sumZ terms mod kPrime.
Proof. intros. by apply accumulate_sum. Qed.

(** ** Evaluation of the sharing polynomials *)

Definition field_element (c : Z) : Prop := 0 ≤ c < kPrime.

Lemma EvaluatePolynomial_loop cs x :
  Forall field_element cs → small_x x →
  let sum := foldr (λ c sum, u64 (u64 (sum + c) * x) mod kPrime) 0 cs in
  0 ≤ sum < kPrime ∧ sum ≡ x * peval cs x [mod kPrime].
Proof.
  unfold small_x, field_element. intros Hall Hx. cbv zeta.
  induction Hall as [|c cs Hc Hall [IHr IHe]]; [split; [done|simpl; eqmod_ring]|].
  cbn [foldr]. revert IHr IHe. generalize (foldr (λ c sum, u64 (u64 (sum + c) * x) mod kPrime) 0 cs).
  intros s IHr IHe. rewrite (u64_small (s + c)), u64_small by (unfold kPrime in *; nia).
  split; [by apply Z.mod_pos_bound|]. drop_mod. rewrite IHe. simpl. eqmod_ring.
Qed.

Lemma EvaluatePolynomial_peval cs x :
  cs ≠ [] → Forall field_element cs → small_x x →
  EvaluatePolynomial cs x = peval cs x mod kPrime.
Proof.
  intros Hne Hall Hx. destruct cs as [|c0 cs]; [done|].
  apply Forall_cons in Hall as [Hc0 Hall]. unfold EvaluatePolynomial, field_element in *.
  destruct (EvaluatePolynomial_loop cs x Hall Hx) as [Hr He].
  set (sum := foldr _ 0 cs) in *. rewrite u64_small by (unfold kPrime in *; lia).
  assert (0 ≤ (sum + c0) mod kPrime < kPrime) by (by apply Z.mod_pos_bound).
  rewrite u32_small by (unfold kPrime in *; lia).
  apply eqmod_rem. rewrite He. simpl. eqmod_ring.
Qed.
