(* ===== verification/ShamirBits.v ===== *)
(** * Packing a secret into 31-bit subsecrets and back

    [DivideIntoSubsecrets] computes the digits in base [2^31] of the secret
    read as a big-endian number; [RebuildFromSubsecrets] inverts it. *)

From S2P Require Import Prelude Bytes Math Shamir.

Definition is_digit (d : Z) : Prop := 0 ≤ d < 2 ^ 31.

(** ** Dividing *)

(** State after [m] bytes with little-endian value [V]. *)
Record divide_inv (n : nat) (rparts : list Z) (cur : nat) (bd m V : Z) : Prop := {
  di_length : length rparts = n;
  di_digits : Forall is_digit rparts;
  di_value : le_value 31 rparts = V;
  di_bits : 31 * Z.of_nat cur + bd = 8 * m;
  di_bd : 0 ≤ bd < 31;
  di_cur : ∀ x, rparts !! cur = Some x → x < 2 ^ bd;
  di_above : ∀ k x, (cur < k)%nat → rparts !! k = Some x → x = 0
}.

Lemma or_at_digit rparts k x v b :
  rparts !! k = Some x → 0 ≤ b ≤ 31 → 0 ≤ x < 2 ^ b → 0 ≤ v → v * 2 ^ b + x < 2 ^ 31 →
  let rparts' := alter (λ part, Z.lor part (u32 (Z.shiftl v b))) k rparts in
  length rparts' = length rparts ∧
  (Forall is_digit rparts → Forall is_digit rparts') ∧
  (∀ j, rparts' !! j = if decide (k = j) then Some (x + v * 2 ^ b) else rparts !! j) ∧
  le_value 31 rparts' = le_value 31 rparts + v * 2 ^ (31 * Z.of_nat k + b).
Proof.
  intros Hk Hb Hx Hv Hlt. cbv zeta.
  assert (Hlor : Z.lor x (u32 (Z.shiftl v b)) = x + v * 2 ^ b).
  { rewrite u32_small by (rewrite Z.shiftl_mul_pow2 by lia; split; [apply Z.mul_nonneg_nonneg|]; lia).
    apply lor_shiftl_add; lia. }
  assert (Hlk : ∀ j, alter (λ part, Z.lor part (u32 (Z.shiftl v b))) k rparts !! j =
            if decide (k = j) then Some (x + v * 2 ^ b) else rparts !! j).
  { intros j. rewrite list_lookup_alter. case_decide; [subst; by rewrite Hk; simpl; rewrite Hlor|done]. }
  split_and!; [by rewrite length_alter| |done|].
  - intros Hall. apply Forall_lookup_2. intros j y. rewrite Hlk. case_decide.
    + intros [= <-]. unfold is_digit. split; [|lia].
      assert (0 ≤ v * 2 ^ b) by (apply Z.mul_nonneg_nonneg; lia). lia.
    + intros Hj. by eapply Forall_lookup_1 in Hall.
  - rewrite (le_value_alter 31 _ k x) by (done || lia). rewrite Hlor, Z.pow_add_r by lia. ring.
Qed.

Lemma divide_inv_nat n rparts cur bd m V :
  divide_inv n rparts cur bd m V → 8 * (m + 1) ≤ 31 * Z.of_nat n →
  ∃ x, rparts !! cur = Some x ∧ 0 ≤ x < 2 ^ bd.
Proof.
  intros [Hlen Hdig _ Hbits Hbd Hcur _] Hm.
  destruct (lookup_lt_is_Some_2 rparts cur) as [x Hx]; [lia|]. exists x. split; [done|].
  eapply Forall_lookup_1 in Hdig; [|done]. split; [apply Hdig|by apply Hcur].
Qed.

(** What one iteration establishes. *)
Definition divide_post (n : nat) (last : bool) (st : list Z * nat * Z) (m V : Z) : Prop :=
  let '(rparts, cur, bd) := st in
  length rparts = n ∧ Forall is_digit rparts ∧ le_value 31 rparts = V ∧
  (last = true → 31 * Z.of_nat cur < 8 * m ≤ 31 * (Z.of_nat cur + 1)) ∧
  (last = false → divide_inv n rparts cur bd m V).

Lemma divide_step_short n rparts cur bd m V last b :
  divide_inv n rparts cur bd m V → is_byte b → 8 * (m + 1) ≤ 31 * Z.of_nat n →
  8 < 31 - bd →
  divide_post n last (DivideIntoSubsecrets_step rparts cur bd last b) (m + 1) (V + b * 2 ^ (8 * m)).
Proof.
  intros Hinv Hb Hm Hlt. destruct (divide_inv_nat _ _ _ _ _ _ Hinv Hm) as (x & Hx & Hxr).
  destruct Hinv as [Hlen Hdig Hval Hbits Hbd Hcur Hab].
  unfold DivideIntoSubsecrets_step, kBitsPerSubsecret. rewrite (proj2 (Z.ltb_lt _ _) Hlt).
  unfold is_byte in Hb.
  assert (Hpow : b * 2 ^ bd + x < 2 ^ (bd + 8)) by (rewrite Z.pow_add_r by lia; nia).
  assert (2 ^ (bd + 8) ≤ 2 ^ 31) by (apply Z.pow_le_mono_r; lia).
  destruct (or_at_digit rparts cur x b bd) as (Hl & Hd & Hlk & Hv); [done|lia..|].
  split_and!; [lia|by apply Hd|by rewrite Hv, Hval, Hbits|lia|]. intros _. split; try lia; auto.
  - by rewrite Hv, Hval, Hbits.
  - intros y. rewrite Hlk, decide_True by done. intros [= <-]. lia.
  - intros k y Hk. rewrite Hlk, decide_False by lia. by apply Hab.
Qed.

Lemma alter_lor_0 (parts : list Z) k : alter (λ part, Z.lor part 0) k parts = parts.
Proof.
  apply list_eq. intros j. rewrite list_lookup_alter. case_decide; [subst j|done].
  destruct (parts !! k); [exact (f_equal Some (Z.lor_0_r _))|done].
Qed.

Lemma divide_step_long n rparts cur bd m V last b :
  divide_inv n rparts cur bd m V → is_byte b → 8 * (m + 1) ≤ 31 * Z.of_nat n →
  (last = false → 8 * (m + 2) ≤ 31 * Z.of_nat n) → 31 - bd ≤ 8 →
  divide_post n last (DivideIntoSubsecrets_step rparts cur bd last b) (m + 1) (V + b * 2 ^ (8 * m)).
Proof.
  intros Hinv Hb Hm Hm2 Hge. destruct (divide_inv_nat _ _ _ _ _ _ Hinv Hm) as (x & Hx & Hxr).
  destruct Hinv as [Hlen Hdig Hval Hbits Hbd Hcur Hab].
  unfold DivideIntoSubsecrets_step, kBitsPerSubsecret. rewrite (proj2 (Z.ltb_ge _ _) Hge).
  unfold is_byte in Hb. rewrite land_shiftr_255 by lia.
  replace (8 - (8 - (31 - bd))) with (31 - bd) by lia.
  assert (Hr : 0 ≤ b mod 2 ^ (31 - bd) < 2 ^ (31 - bd)) by (apply Z.mod_pos_bound; lia).
  assert (H31 : 2 ^ 31 = 2 ^ bd * 2 ^ (31 - bd)) by (rewrite <- Z.pow_add_r by lia; f_equal; lia).
  destruct (or_at_digit rparts cur x (b mod 2 ^ (31 - bd)) bd) as (Hl & Hd & Hlk & Hv);
    [done|lia|lia|lia|nia|].
  set (rp := alter _ cur rparts) in *. specialize (Hd Hdig).
  destruct (Z.eqb_spec (bd + 8) 31) as [Heq|Hne].
  - assert (Hb8 : b mod 2 ^ (31 - bd) = b) by (apply Z.mod_small; replace (31 - bd) with 8 by lia; lia).
    rewrite Hb8, Hbits in Hv.
    destruct last; simpl; [split_and!; [lia|done|lia|lia|done]|].
    rewrite Heq. change (31 mod 31) with 0. change (8 - 0) with 8. rewrite Z.shiftr_div_pow2 by lia.
    rewrite (Z.div_small b) by lia. change (u32 0) with 0.
    rewrite alter_lor_0. split_and!; [lia|done|lia|done|]. intros _. specialize (Hm2 eq_refl). split; try lia; try done.
    + intros y. rewrite Hlk, decide_False by lia. intros Hy. rewrite (Hab (S cur) y); [lia|lia|done].
    + intros k y Hk. rewrite Hlk, decide_False by lia. intros Hy. apply (Hab k); [lia|done].
  - rewrite andb_false_r.
    assert (Hbd' : (bd + 8) mod 31 = bd - 23) by (symmetry; apply Z.mod_unique with 1; lia).
    rewrite Hbd'. replace (8 - (bd - 23)) with (31 - bd) by lia. rewrite Z.shiftr_div_pow2 by lia.
    assert (Hq : 0 ≤ b / 2 ^ (31 - bd) < 2 ^ (bd - 23)).
    { split; [apply Z.div_pos; lia|]. apply Z.div_lt_upper_bound; [lia|].
      rewrite <- Z.pow_add_r by lia. replace (31 - bd + (bd - 23)) with 8 by lia. lia. }
    assert (2 ^ (bd - 23) ≤ 2 ^ 31) by (apply Z.pow_le_mono_r; lia).
    destruct (lookup_lt_is_Some_2 rp (S cur)) as [y Hy]; [lia|].
    assert (Hy0 : rp !! S cur = Some 0).
    { rewrite Hy. rewrite Hlk, decide_False in Hy by lia. f_equal. apply (Hab (S cur)); [lia|done]. }
    destruct (or_at_digit rp (S cur) 0 (b / 2 ^ (31 - bd)) 0) as (Hl2 & Hd2 & Hlk2 & Hv2);
      [done|lia|lia|lia|lia|].
    rewrite Z.shiftl_0_r in *. rewrite Z.pow_0_r in *.
    assert (Hval2 : le_value 31 (alter (λ part, Z.lor part (u32 (b / 2 ^ (31 - bd)))) (S cur) rp) =
                    V + b * 2 ^ (8 * m)).
    { rewrite Hv2, Hv, Hval. rewrite <- Hbits.
      replace (31 * Z.of_nat (S cur) + 0) with (31 * Z.of_nat cur + bd + (31 - bd)) by lia.
      rewrite (Z.pow_add_r 2 (31 * Z.of_nat cur + bd) (31 - bd)) by lia.
      rewrite (Z.div_mod b (2 ^ (31 - bd))) at 3 by lia. ring. }
    split_and!; [lia|by apply Hd2|done|lia|]. intros _. split; try lia; try done; [by apply Hd2| |].
    + intros z. rewrite Hlk2, decide_True by done. intros [= <-]. lia.
    + intros k z Hk. rewrite Hlk2, decide_False, Hlk, decide_False by lia. apply Hab. lia.
Qed.

Lemma divide_step_ok n rparts cur bd m V last b :
  divide_inv n rparts cur bd m V → is_byte b → 8 * (m + 1) ≤ 31 * Z.of_nat n →
  (last = false → 8 * (m + 2) ≤ 31 * Z.of_nat n) →
  divide_post n last (DivideIntoSubsecrets_step rparts cur bd last b) (m + 1) (V + b * 2 ^ (8 * m)).
Proof.
  intros. destruct (decide (8 < 31 - bd)); [by apply divide_step_short|].
  apply divide_step_long; auto with lia.
Qed.

Lemma DivideIntoSubsecrets_loop_ok n rbytes : ∀ rparts cur bd m V,
  divide_inv n rparts cur bd m V → Forall is_byte rbytes → rbytes ≠ [] →
  8 * (m + Z.of_nat (length rbytes)) ≤ 31 * Z.of_nat n →
  ∃ rparts' cur', DivideIntoSubsecrets_loop rbytes rparts cur bd = (rparts', cur') ∧
    length rparts' = n ∧ Forall is_digit rparts' ∧
    le_value 31 rparts' = V + 2 ^ (8 * m) * le_value 8 rbytes ∧
    31 * Z.of_nat cur' < 8 * (m + Z.of_nat (length rbytes)) ≤ 31 * (Z.of_nat cur' + 1).
Proof.
  induction rbytes as [|b rest IH]; intros rparts cur bd m V Hinv Hall Hne Hn; [done|].
  apply Forall_cons in Hall as [Hb Hall].
  assert (Hm : 0 ≤ m) by (destruct Hinv; lia). cbn [length] in Hn. cbn [DivideIntoSubsecrets_loop].
  rewrite (u8_small b) by done.
  pose proof (divide_step_ok n rparts cur bd m V (bool_decide (rest = [])) b Hinv Hb) as Hpost.
  destruct (DivideIntoSubsecrets_step _ _ _ _ _) as [[rp cur1] bd1].
  destruct Hpost as (Hl & Hd & Hv & Hlast & Hnext); [lia| |].
  { rewrite bool_decide_eq_false. destruct rest; [done|]. cbn [length] in Hn. lia. }
  case_bool_decide as Hr.
  - subst rest. simpl. eexists _, _. split_and!; [done|done|done| |specialize (Hlast eq_refl); lia..].
    rewrite Hv. ring.
  - destruct (IH rp cur1 bd1 (m + 1) _ (Hnext eq_refl) Hall Hr) as (rp' & cur' & -> & ? & ? & Hval & ?);
      [lia|]. eexists _, _. cbn [length]. split_and!; [done|done|done| |lia..].
    rewrite Hval. cbn [le_value]. replace (8 * (m + 1)) with (8 * m + 8) by lia.
    rewrite Z.pow_add_r by lia. ring.
Qed.

(** The subsecrets of a string of bytes, as digits of its value. *)
Lemma DivideIntoSubsecrets_ok to_share :
  to_share ≠ [] → Forall is_byte to_share → Z.of_nat (length to_share) < 2 ^ 28 →
  ∃ subsecrets, DivideIntoSubsecrets to_share = Ok subsecrets ∧
    Forall is_digit subsecrets ∧
    Z.of_nat (length subsecrets) = (8 * Z.of_nat (length to_share) + 30) / 31 ∧
    le_value 31 (reverse subsecrets) = le_value 8 (reverse to_share).
Proof.
  intros Hne Hall Hlen. unfold DivideIntoSubsecrets, kBitsPerSubsecret.
  rewrite (u32_small (Z.of_nat _)), u32_small, DivideRoundUp_div by lia.
  set (L := Z.of_nat (length to_share)) in *.
  replace (L * 8 + 31 - 1) with (8 * L + 30) by lia.
  assert (HL : 0 < L) by (destruct to_share; simpl in *; [done|lia]).
  assert (Hq : 8 * L ≤ 31 * ((8 * L + 30) / 31) < 8 * L + 31).
  { pose proof (Z.div_mod (8 * L + 30) 31). pose proof (Z.mod_pos_bound (8 * L + 30) 31). lia. }
  set (n := Z.to_nat ((8 * L + 30) / 31)). assert (Hn : Z.of_nat n = (8 * L + 30) / 31) by lia.
  destruct (DivideIntoSubsecrets_loop_ok n (reverse to_share) (replicate n 0) 0 0 0 0)
    as (rp & cur & -> & Hl & Hd & Hv & Hcur).
  - split; try lia.
    + by rewrite length_replicate.
    + apply Forall_replicate. unfold is_digit. lia.
    + clear. induction n; simpl; lia.
    + intros x Hx. apply lookup_replicate in Hx as [-> _]. lia.
    + intros k x _ Hx. by apply lookup_replicate in Hx as [-> _].
  - by apply Forall_reverse.
  - intros Hr. apply Hne. by apply (f_equal reverse) in Hr; rewrite reverse_involutive in Hr.
  - rewrite length_reverse. lia.
  - rewrite length_reverse in Hcur. rewrite bool_decide_true by lia. simpl.
    eexists. split_and!; [done|by apply Forall_reverse|rewrite length_reverse; lia|].
    rewrite reverse_involutive, Hv. lia.
Qed.

(** ** Rebuilding *)

(** Dividing a number by a power of two inside its lowest digit. *)
Lemma digit_div s R bd :
  0 ≤ bd ≤ 31 → (s + 2 ^ 31 * R) / 2 ^ bd = s / 2 ^ bd + 2 ^ (31 - bd) * R.
Proof.
  intros. replace (2 ^ 31 * R) with ((2 ^ (31 - bd) * R) * 2 ^ bd).
  - rewrite Z.div_add by lia. done.
  - replace (2 ^ 31) with (2 ^ (31 - bd) * 2 ^ bd) by (rewrite <- Z.pow_add_r by lia; f_equal; lia).
    ring.
Qed.

Lemma rebuild_short_byte s R bd :
  is_digit s → 0 ≤ bd → 8 < 31 - bd →
  u8 (Z.land (Z.shiftr s bd) 255) = (s + 2 ^ 31 * R) / 2 ^ bd mod 2 ^ 8.
Proof.
  intros Hs Hbd Hlt. change 255 with (Z.ones 8).
  rewrite Z.land_ones, Z.shiftr_div_pow2, digit_div by lia. unfold u8. rewrite Zmod_mod.
  replace (2 ^ (31 - bd) * R) with (2 ^ (23 - bd) * R * 2 ^ 8); [by rewrite Z_mod_plus_full|].
  replace (31 - bd) with (23 - bd + 8) by lia. rewrite (Z.pow_add_r 2 (23 - bd)) by lia. ring.
Qed.

Lemma rebuild_long_byte s rest bd :
  is_digit s → Forall is_digit rest → bd < 31 → 31 - bd ≤ 8 →
  let high := match rest with
              | s' :: _ => u8 (Z.land s' (Z.shiftr 255 (31 - bd)))
              | [] => 0
              end in
  Z.lor (u8 (Z.shiftl high (8 - (bd - 23)))) (u8 (Z.shiftr s bd)) =
  le_value 31 (s :: rest) / 2 ^ bd mod 2 ^ 8.
Proof.
  intros Hs Hrest Hbd Hge. cbv zeta. set (R := le_value 31 rest).
  assert (Hpow8 : 2 ^ 8 = 2 ^ (31 - bd) * 2 ^ (bd - 23)) by (rewrite <- Z.pow_add_r by lia; f_equal; lia).
  assert (Hhigh : match rest with
              | s' :: _ => u8 (Z.land s' (Z.shiftr 255 (31 - bd))) | [] => 0 end = R mod 2 ^ (bd - 23)).
  { destruct rest as [|s' rest]; [by rewrite Zmod_0_l|].
    rewrite land_shiftr_255 by lia. replace (8 - (31 - bd)) with (bd - 23) by lia.
    assert (0 ≤ s' mod 2 ^ (bd - 23) < 2 ^ (bd - 23)) by (apply Z.mod_pos_bound; lia).
    assert (2 ^ (bd - 23) ≤ 2 ^ 8) by (apply Z.pow_le_mono_r; lia).
    rewrite u8_small by lia. unfold R. cbn [le_value].
    replace (2 ^ 31 * le_value 31 rest) with (2 ^ (54 - bd) * le_value 31 rest * 2 ^ (bd - 23));
      [by rewrite Z_mod_plus_full|].
    assert (2 ^ 31 = 2 ^ (54 - bd) * 2 ^ (bd - 23)) as -> by (rewrite <- Z.pow_add_r by lia; f_equal; lia).
    ring. }
  rewrite Hhigh. replace (8 - (bd - 23)) with (31 - bd) by lia.
  assert (Hq : 0 ≤ s / 2 ^ bd < 2 ^ (31 - bd)).
  { unfold is_digit in Hs. split; [apply Z.div_pos; lia|]. apply Z.div_lt_upper_bound; [lia|].
    rewrite <- Z.pow_add_r by lia. replace (bd + (31 - bd)) with 31 by lia. lia. }
  assert (Hr : 0 ≤ R mod 2 ^ (bd - 23) < 2 ^ (bd - 23)) by (apply Z.mod_pos_bound; lia).
  assert (0 < 2 ^ (bd - 23)) by lia.
  rewrite Z.shiftr_div_pow2 by lia. rewrite (u8_small (s / 2 ^ bd)) by nia.
  rewrite u8_small by (rewrite Z.shiftl_mul_pow2 by lia; nia).
  rewrite Z.lor_comm, lor_shiftl_add by lia. cbn [le_value]. fold R. rewrite digit_div by lia.
  apply Z.mod_unique with (R / 2 ^ (bd - 23)); [left; nia|].
  rewrite (Z.div_mod R (2 ^ (bd - 23))) at 1 by lia. rewrite Hpow8. ring.
Qed.

Lemma RebuildFromSubsecrets_loop_ok n : ∀ parts bd secret,
  Forall is_digit parts → 0 ≤ bd < 31 →
  RebuildFromSubsecrets_loop n parts bd secret =
  reverse (le_bytes n (le_value 31 parts / 2 ^ bd)) ++ secret.
Proof.
  induction n as [|n IH]; intros parts bd secret Hall Hbd; [done|].
  cbn [RebuildFromSubsecrets_loop le_bytes].
  rewrite reverse_cons, <- app_assoc. simpl. unfold kBitsPerSubsecret.
  rewrite Zdiv_Zdiv, <- Z.pow_add_r by lia.
  destruct parts as [|s rest].
  { rewrite IH by done. simpl. by rewrite !Zdiv_0_l, Zmod_0_l. }
  apply Forall_cons in Hall as [Hs Hrest]. destruct (Z.ltb_spec 8 (31 - bd)).
  - rewrite IH by (lia || by apply Forall_cons). do 2 f_equal. apply rebuild_short_byte; lia || done.
  - assert (Hbd' : (bd + 8) mod 31 = bd - 23) by (symmetry; apply Z.mod_unique with 1; lia).
    assert (Hv : le_value 31 (s :: rest) / 2 ^ (bd + 8) = le_value 31 rest / 2 ^ (bd - 23)).
    { cbn [le_value]. replace (bd + 8) with (31 + (bd - 23)) by lia.
      rewrite Z.pow_add_r, <- Zdiv_Zdiv by lia. unfold is_digit in Hs.
      by rewrite Z.mul_comm, Z.div_add, (Z.div_small s) by lia. }
    by rewrite Hbd', IH, rebuild_long_byte, Hv by (done || lia).
Qed.

Lemma RebuildFromSubsecrets_digits subsecrets secret :
  Forall is_digit subsecrets → Forall is_byte secret →
  le_value 31 (reverse subsecrets) = le_value 8 (reverse secret) →
  RebuildFromSubsecrets subsecrets (Z.of_nat (length secret)) = secret.
Proof.
  intros Hs Hb Hv. unfold RebuildFromSubsecrets. rewrite Nat2Z.id.
  rewrite RebuildFromSubsecrets_loop_ok by (lia || by apply Forall_reverse).
  rewrite Z.pow_0_r, Z.div_1_r, app_nil_r, Hv, <- length_reverse.
  by rewrite le_bytes_value, reverse_involutive by (by apply Forall_reverse).
Qed.

(** ** Properties *)

(** The packing of a secret into subsecrets loses nothing: every subsecret
    has 31 bits, there are [ceil(8 * length / 31)] of them, and rebuilding them
    gives the secret back. *)
Lemma Divide_Rebuild_roundtrip secret :
  secret ≠ [] → Forall is_byte secret → Z.of_nat (length secret) < 2 ^ 28 →
  ∃ subsecrets, DivideIntoSubsecrets secret = Ok subsecrets ∧
    Forall is_digit subsecrets ∧
    Z.of_nat (length subsecrets) = (8 * Z.of_nat (length secret) + 30) / 31 ∧
    RebuildFromSubsecrets subsecrets (Z.of_nat (length secret)) = secret.
Proof.
  intros Hne Hb Hl. destruct (DivideIntoSubsecrets_ok secret Hne Hb Hl) as (ss & -> & ? & ? & ?).
  exists ss. split_and!; [done..|]. by apply RebuildFromSubsecrets_digits.
Qed.

Lemma Divide_Rebuild_roundtrip_witness :
  ∃ subsecrets, DivideIntoSubsecrets [1; 2; 3; 4; 255] = Ok subsecrets ∧
    Forall is_digit subsecrets ∧ Z.of_nat (length subsecrets) = 2 ∧
    RebuildFromSubsecrets subsecrets 5 = [1; 2; 3; 4; 255].
Proof.
  apply (Divide_Rebuild_roundtrip [1; 2; 3; 4; 255]); [discriminate|repeat constructor; lia|reflexivity].
Defined.
