(* ===== verification/ShamirCorrect.v ===== *)
(** * Correctness of [ShamirSecretSharing]

    Any [threshold] of the shares produced by [Share] reconstruct the secret,
    as long as the 32-bit accumulator of [Reconstruct] does not wrap around;
    the last theorem shows that it can. *)

From S2P Require Import Prelude Bytes Math Interpolation Shamir ShamirBits.

(** ** The shares *)

Lemma RandomFieldElement_field tape r tape' :
  RandomFieldElement tape = Some (r, tape') → field_element r.
Proof.
  induction tape as [|w tape IH]; simpl; [done|]. destruct (Z.leb_spec kPrime (u32 w)); [done|].
  intros [= <- <-]. split; [apply u32_range|done].
Qed.

Lemma RandomFieldElements_field n : ∀ tape rs tape',
  RandomFieldElements n tape = Some (rs, tape') → length rs = n ∧ Forall field_element rs.
Proof.
  induction n as [|n IH]; intros tape rs tape'; simpl; [by intros [= <- <-]|].
  destruct (RandomFieldElement tape) as [[r t]|] eqn:Hr; simpl; [|done].
  destruct (RandomFieldElements n t) as [[rs1 t1]|] eqn:Hrs; simpl; [|done].
  intros [= <- <-]. apply IH in Hrs as [? ?]. apply RandomFieldElement_field in Hr.
  simpl. split; [lia|by constructor].
Qed.

(** The polynomial of a subsecret: it has [threshold] coefficients, the lowest
    being the subsecret. *)
Definition sharing_poly (threshold : Z) (s : Z) (cs : list Z) : Prop :=
  ∃ rs, cs = s :: rs ∧ Z.of_nat (length rs) = threshold - 1 ∧ Forall field_element rs.

(** The share at index [i] for the given polynomials. *)
Definition share_of (polys : list (list Z)) (i : nat) : list Z :=
  concat ((λ cs, IntToByteString (EvaluatePolynomial cs (u32 (Z.of_nat i + 1)))) <$> polys).

Lemma share_of_cons cs polys i :
  share_of (cs :: polys) i =
  IntToByteString (EvaluatePolynomial cs (u32 (Z.of_nat i + 1))) ++ share_of polys i.
Proof. done. Qed.

Lemma Share_loop_ok threshold subsecrets : ∀ tape shares0 shares tape',
  2 ≤ threshold →
  Share_loop threshold subsecrets tape shares0 = Some (shares, tape') →
  ∃ polys, Forall2 (sharing_poly threshold) subsecrets polys ∧
    shares = imap (λ i d, d ++ share_of polys i) shares0.
Proof.
  induction subsecrets as [|s subsecrets IH]; intros tape shares0 shares tape' Ht; simpl.
  { intros [= <- <-]. exists []. split; [constructor|].
    rewrite <- (list_fmap_id shares0) at 1. rewrite <- imap_const.
    apply imap_ext. intros. unfold share_of. simpl. by rewrite app_nil_r. }
  destruct (RandomFieldElements _ tape) as [[rs t]|] eqn:Hrs; simpl; [|done]. intros Hloop.
  apply RandomFieldElements_field in Hrs as [Hlen Hrs].
  destruct (IH _ _ _ _ Ht Hloop) as (polys & Hpolys & ->). exists ((s :: rs) :: polys).
  split; [constructor; [|done]; exists rs; split_and!; [done|lia|done]|].
  rewrite imap_imap. apply imap_ext. intros i d _. by rewrite share_of_cons, app_assoc.
Qed.

Lemma length_share_of polys i : length (share_of polys i) = (4 * length polys)%nat.
Proof.
  induction polys as [|cs polys IH]; [done|].
  rewrite share_of_cons, length_app, length_IntToByteString, IH. cbn [length]. lia.
Qed.

(** Reading a word back from its four bytes. *)
Lemma decode_word w :
  0 ≤ w < 2 ^ 32 →
  foldl (λ acc k, u32 (u32 (Z.shiftl acc 8) + u8 (default 0 (IntToByteString w !! k)))) 0 (seq 0 4) = w.
Proof.
  intros Hw. unfold IntToByteString. simpl. rewrite (u32_small w) by done.
  unfold u8, u32. rewrite !Z.shiftl_mul_pow2, !Z.shiftr_div_pow2 by lia.
  change (2 ^ 8) with 256. change (2 ^ 16) with 65536. change (2 ^ 24) with 16777216.
  change (2 ^ 32) with 4294967296 in *. rewrite !Zmod_mod, Z.mod_0_l, Z.add_0_l by lia.
  Z.to_euclidean_division_equations. lia.
Qed.

Lemma share_of_lookup polys i k cs j :
  polys !! k = Some cs → (j < 4)%nat →
  share_of polys i !! (4 * k + j)%nat =
  IntToByteString (EvaluatePolynomial cs (u32 (Z.of_nat i + 1))) !! j.
Proof.
  revert k. induction polys as [|c polys IH]; intros [|k] Hk Hj; try done;
    rewrite share_of_cons.
  - injection Hk as ->. change (4 * 0 + j)%nat with j. by rewrite lookup_app_l by done.
  - rewrite lookup_app_r by (rewrite length_IntToByteString; lia). rewrite length_IntToByteString.
    replace (4 * S k + j - 4)%nat with (4 * k + j)%nat by lia. by apply IH.
Qed.

Lemma DecodeSubshare_share_of polys i k cs :
  polys !! k = Some cs → 0 ≤ EvaluatePolynomial cs (u32 (Z.of_nat i + 1)) < 2 ^ 32 →
  DecodeSubshare (share_of polys i) k = EvaluatePolynomial cs (u32 (Z.of_nat i + 1)).
Proof.
  intros Hk Hr. etransitivity; [|exact (decode_word _ Hr)].
  unfold DecodeSubshare, kSubsecretSize. cbn [seq foldl].
  by rewrite !(share_of_lookup _ _ _ _ _ Hk) by lia.
Qed.

(** ** The selected points *)

(** The [x] values of the non-empty shares of a suffix that starts at index [i]. *)
Fixpoint present (i : Z) (shares : list (list Z)) : list Z :=
  match shares with
  | [] => []
  | d :: rest => if bool_decide (d = []) then present (i + 1) rest else (i + 1) :: present (i + 1) rest
  end.

Lemma present_spec i shares x :
  x ∈ present i shares → i < x ≤ i + Z.of_nat (length shares) ∧
    ∃ d, shares !! Z.to_nat (x - i - 1) = Some d ∧ d ≠ [].
Proof.
  revert i. induction shares as [|d rest IH]; intros i; cbn [present length].
  { by intros ?%not_elem_of_nil. }
  assert (Hrec : x ∈ present (i + 1) rest → i < x ≤ i + Z.of_nat (S (length rest)) ∧
    ∃ d0, (d :: rest) !! Z.to_nat (x - i - 1) = Some d0 ∧ d0 ≠ []).
  { intros (Hx & d' & Hd' & Hne)%IH. split; [lia|]. exists d'. split; [|done].
    replace (Z.to_nat (x - i - 1)) with (S (Z.to_nat (x - (i + 1) - 1))) by lia. done. }
  case_bool_decide; [done|]. intros [->|Hin]%elem_of_cons; [|by apply Hrec].
  split; [lia|]. exists d. by replace (Z.to_nat (i + 1 - i - 1)) with 0%nat by lia.
Qed.

Lemma present_NoDup i shares : NoDup (present i shares).
Proof.
  revert i. induction shares as [|d rest IH]; intros i; cbn [present]; [constructor|].
  case_bool_decide; [done|]. constructor; [|done]. intros [? _]%present_spec. lia.
Qed.

(** Shares as [Reconstruct] accepts them: absent, or of the common size. *)
Definition uniform (N : nat) (shares : list (list Z)) : Prop :=
  Forall (λ d, d = [] ∨ length d = (4 * N)%nat) shares.

Lemma Reconstruct_x_values_ok threshold max N shares : ∀ i xs,
  (0 < N)%nat → Z.of_nat N ≤ max → uniform N shares →
  let xs' := xs ++ take (Z.to_nat threshold - length xs) (present i shares) in
  Reconstruct_x_values threshold max i shares (if bool_decide (xs = []) then 0 else Z.of_nat N) xs =
  Ok (if bool_decide (xs' = []) then 0 else Z.of_nat N, xs').
Proof.
  induction shares as [|d rest IH]; intros i xs HN Hmax Huni; cbv zeta; cbn [Reconstruct_x_values present].
  { by rewrite take_nil, app_nil_r. }
  apply Forall_cons in Huni as [Hd Huni].
  destruct (Z.ltb_spec (Z.of_nat (length xs)) threshold) as [Hlt|Hge].
  2: { replace (Z.to_nat threshold - length xs)%nat with 0%nat by lia. by rewrite take_0, app_nil_r. }
  case_bool_decide as Hempty; [by rewrite IH|]. destruct Hd as [Hd|Hd]; [done|].
  rewrite Hd. rewrite Nat2Z.inj_mul, Z.mul_comm, Z_mod_mult. simpl fcp_check.
  rewrite Z.div_mul by done.
  specialize (IH (i + 1) (xs ++ [i + 1]) HN Hmax Huni). cbv zeta in IH.
  rewrite bool_decide_false in IH by (by destruct xs).
  rewrite length_app, <- app_assoc in IH. simpl in IH.
  replace (Z.to_nat threshold - length xs)%nat with (S (Z.to_nat threshold - (length xs + 1))) by lia.
  cbn [take].
  rewrite (bool_decide_false (_ = [])) in IH by (by destruct xs).
  rewrite (bool_decide_false (_ ++ _ :: _ = [])) by (by destruct xs). rewrite <- IH.
  case_bool_decide; simpl.
  - rewrite (proj2 (andb_true_iff _ _)) by lia. done.
  - rewrite (proj2 (Z.eqb_neq _ _)) by lia. by rewrite Z.eqb_refl.
Qed.

(** ** Recovering one subsecret *)

Lemma small_distinct xs : NoDup xs → Forall small_x xs → distinct_mod kPrime xs.
Proof.
  intros Hnd Hall i j x y Hij Hx Hy Heq. apply Hij.
  assert (x = y) as <-; [|by eapply NoDup_lookup].
  pose proof (Forall_lookup_1 _ _ _ _ Hall Hx). pose proof (Forall_lookup_1 _ _ _ _ Hall Hy).
  unfold small_x in *. apply (eqmod_small kPrime); [unfold kPrime; lia..|done].
Qed.

Section column.
Context (shares : list (list Z)) (polys : list (list Z)) (xs ws : list Z) (threshold : Z).
Context (Hnd : NoDup xs) (Hsmall : Forall small_x xs).
Context (Hlen : Z.of_nat (length xs) = threshold) (Hws : weights_ok xs ws).
Context (Hshares : ∀ x, x ∈ xs → shares !! Z.to_nat (x - 1) = Some (share_of polys (Z.to_nat (x - 1)))).

Lemma column_weight i x :
  xs !! i = Some x → ∃ w, ws !! i = Some w ∧ is_weight xs i x w.
Proof.
  intros Hx. destruct Hws as [Hwlen Hw]. destruct (lookup_lt_is_Some_2 ws i) as [w Hwi].
  - rewrite Hwlen. by eapply lookup_lt_Some.
  - exists w. split; [done|]. by apply Hw.
Qed.

Lemma column_term k cs i x :
  polys !! k = Some cs → cs ≠ [] → Forall field_element cs → xs !! i = Some x →
  let t := MultiplyMod (DecodeSubshare (default [] (shares !! Z.to_nat (x - 1))) k)
             (default 0 (ws !! i)) kPrime in
  0 ≤ t < kPrime ∧ t ≡ default 0 (ws !! i) * peval cs x [mod kPrime].
Proof.
  intros Hk Hne Hcs Hx. cbv zeta. pose proof (Forall_lookup_1 _ _ _ _ Hsmall Hx) as Hxs.
  rewrite (Hshares x) by (by eapply list_elem_of_lookup_2).
  destruct (column_weight i x Hx) as (w & -> & Hwr & _). simpl default.
  assert (Hux : u32 (Z.of_nat (Z.to_nat (x - 1)) + 1) = x)
    by (unfold small_x in Hxs; rewrite u32_small; lia).
  pose proof (EvaluatePolynomial_peval cs x Hne Hcs Hxs) as Hev.
  assert (0 ≤ peval cs x mod kPrime < kPrime) by (by apply Z.mod_pos_bound).
  rewrite (DecodeSubshare_share_of _ _ _ _ Hk), Hux, Hev
    by (rewrite Hux, Hev; unfold kPrime in *; lia).
  destruct (MultiplyMod_kPrime (peval cs x mod kPrime) w) as [Hr He];
    [unfold kPrime in *; lia..|]. split; [done|]. rewrite He. drop_mod. eqmod_ring.
Qed.

Lemma column_terms k cs s :
  polys !! k = Some cs → sharing_poly threshold s cs → is_digit s →
  let terms := Reconstruct_terms shares xs ws k in
  Forall (λ t, 0 ≤ t < kPrime) terms ∧ sumZ terms mod kPrime = s.
Proof.
  intros Hk (rs & -> & Hrs & Hfe) Hs. cbv zeta. unfold Reconstruct_terms.
  assert (Hcs : Forall field_element (s :: rs)).
  { constructor; [|done]. unfold is_digit, field_element, kPrime in *. lia. }
  assert (Hterm := λ i x, column_term k (s :: rs) i x Hk ltac:(done) Hcs). cbv zeta in Hterm.
  rewrite (zip_with_imap _ 0) by apply Hws. split.
  - apply Forall_lookup_2. intros i t. rewrite list_lookup_imap.
    destruct (xs !! i) as [x|] eqn:Hx; simpl; [|done]. intros [= <-]. by apply Hterm.
  - rewrite <- (Z.mod_small s kPrime) by (unfold is_digit, kPrime in *; lia). apply eqmod_rem.
    transitivity (sumZ (imap (λ i x, default 0 (ws !! i) * peval (s :: rs) x) xs)).
    { apply sumZ_eqmod. intros i x Hx. by apply Hterm. }
    rewrite (lagrange_at_zero kPrime kPrime_prime); [|by apply small_distinct|simpl; lia|].
    + simpl. eqmod_ring.
    + intros i x Hx. destruct (column_weight i x Hx) as (w & -> & _ & Hw). exact Hw.
Qed.
End column.

(** ** The whole scheme *)

(** Some of the shares, the others being absent. *)
Definition sub_shares (shares shares' : list (list Z)) : Prop :=
  Forall2 (λ s s', s' = [] ∨ s' = s) shares shares'.

Definition num_present (shares : list (list Z)) : Z := Z.of_nat (length (present 0 shares)).

(** No accumulation of [Reconstruct] on these shares exceeds 32 bits. The
    coefficients do not depend on the caches. *)
Definition Reconstruct_in_range (threshold : Z) (shares : list (list Z)) (secret_length : Z) : bool :=
  match Reconstruct_x_values threshold ((8 * secret_length + 31 - 1) / 31) 0 shares 0 [] with
  | Ok (num_subsecrets, x_values) =>
      match LagrangeCoefficients new_ShamirSecretSharing x_values with
      | Ok (coefficients, _) =>
          forallb (λ i, accumulates_in_range 0 (Reconstruct_terms shares x_values coefficients i))
            (seq 0 (Z.to_nat num_subsecrets))
      | _ => false
      end
  | _ => false
  end.

Lemma Share_ok threshold num_shares secret tape shares tape' :
  Forall is_byte secret → Z.of_nat (length secret) < 2 ^ 28 →
  Share threshold num_shares secret tape = Ok (Some (shares, tape')) →
  secret ≠ [] ∧ 2 ≤ threshold ≤ num_shares ∧
  ∃ subsecrets polys,
    Forall is_digit subsecrets ∧
    Z.of_nat (length subsecrets) = (8 * Z.of_nat (length secret) + 30) / 31 ∧
    le_value 31 (reverse subsecrets) = le_value 8 (reverse secret) ∧
    Forall2 (sharing_poly threshold) subsecrets polys ∧
    shares = share_of polys <$> seq 0 (Z.to_nat num_shares).
Proof.
  intros Hb Hl. unfold Share. rewrite !fcp_check_ok, bind_ok.
  intros (Hne & Hn & Ht & subsecrets & Hdiv & [= Hloop]).
  apply negb_true_iff, bool_decide_eq_false in Hne.
  destruct (DivideIntoSubsecrets_ok secret Hne Hb Hl) as (ss & Hss & Hd & Hlen & Hv).
  rewrite Hdiv in Hss. injection Hss as <-.
  assert (Ht2 : 2 ≤ threshold) by lia.
  destruct (Share_loop_ok _ _ _ _ _ _ Ht2 Hloop) as (polys & Hpolys & ->).
  split_and!; [done|lia..|]. exists subsecrets, polys. split_and!; try done.
  apply list_eq. intros i. rewrite list_lookup_imap, list_lookup_fmap.
  destruct (decide (i < Z.to_nat num_shares)%nat).
  - rewrite lookup_replicate_2, lookup_seq_lt by done. done.
  - rewrite (proj1 (lookup_replicate_None _ _ _)) by lia. by rewrite lookup_seq_ge by lia.
Qed.

Section reconstruct.
Context (threshold num_shares : Z) (polys : list (list Z)) (shares' : list (list Z)).
Context (Hsub : sub_shares (share_of polys <$> seq 0 (Z.to_nat num_shares)) shares').
Context (Hn : 2 ≤ threshold ≤ num_shares) (Hmax : num_shares < 2 ^ 31).
Context (Hpolys : (0 < length polys)%nat).

Lemma sub_lookup i d :
  shares' !! i = Some d → (i < Z.to_nat num_shares)%nat ∧ (d = [] ∨ d = share_of polys i).
Proof.
  intros Hd. destruct (Forall2_lookup_r _ _ _ _ _ Hsub Hd) as (s & Hs & Hor).
  apply list_lookup_fmap_Some in Hs as (j & -> & Hj). apply lookup_seq in Hj as [-> ?].
  by split.
Qed.

Lemma sub_length : Z.of_nat (length shares') = num_shares.
Proof using Hsub Hn.
  rewrite <- (Forall2_length _ _ _ Hsub), length_fmap, length_seq. clear Hpolys Hmax. lia.
Qed.

Lemma sub_uniform : uniform (length polys) shares'.
Proof.
  apply Forall_lookup_2. intros i d [_ [-> | ->]]%sub_lookup; [by left|right].
  apply length_share_of.
Qed.

Let xs := take (Z.to_nat threshold) (present 0 shares').

Lemma xs_in x : x ∈ xs → x ∈ present 0 shares'.
Proof. apply subseteq_take. Qed.

Lemma xs_small : Forall small_x xs.
Proof using Hsub Hn Hmax.
  clear Hpolys. apply Forall_forall. intros x [Hx _]%xs_in%present_spec. pose proof sub_length.
  unfold small_x. lia.
Qed.

Lemma xs_NoDup : NoDup xs.
Proof. eapply sublist_NoDup; [apply present_NoDup|apply sublist_take]. Qed.

Lemma xs_shares x :
  x ∈ xs → shares' !! Z.to_nat (x - 1) = Some (share_of polys (Z.to_nat (x - 1))).
Proof.
  intros [Hx (d & Hd & Hne)]%xs_in%present_spec. rewrite Z.sub_0_r in Hd. rewrite Hd.
  apply sub_lookup in Hd as [_ [-> | ->]]; done.
Qed.

Lemma Reconstruct_run sss secret_length :
  Z.of_nat (length polys) = (8 * secret_length + 31 - 1) / 31 → 0 < secret_length →
  Reconstruct_x_values threshold ((8 * secret_length + 31 - 1) / 31) 0 shares' 0 [] =
    Ok (if bool_decide (xs = []) then 0 else Z.of_nat (length polys), xs) ∧
  Reconstruct sss threshold shares' secret_length =
    if num_present shares' <? threshold then
      Error FAILED_PRECONDITION "Not enough valid shares were provided."
    else
      '(coefficients, sss) ← LagrangeCoefficients sss xs;
      Ok (RebuildFromSubsecrets
            ((λ i, Reconstruct_subsecret (Reconstruct_terms shares' xs coefficients i))
               <$> seq 0 (length polys)) secret_length, sss).
Proof.
  intros HN Hs. pose proof (Reconstruct_x_values_ok threshold
    ((8 * secret_length + 31 - 1) / 31) (length polys) shares' 0 [] Hpolys
    ltac:(lia) sub_uniform) as Hx. cbv zeta in Hx. simpl in Hx.
  rewrite Nat.sub_0_r in Hx. fold xs in Hx. split; [done|].
  unfold Reconstruct, kBitsPerSubsecret. rewrite sub_length.
  rewrite (proj2 (Z.ltb_lt _ _)), (proj2 (Z.ltb_lt _ _)), (proj2 (Z.leb_le _ _)) by lia.
  cbn [fcp_check]. rewrite Hx. simpl.
  assert (Hlen : (Z.of_nat (length xs) <? threshold) = (num_present shares' <? threshold)).
  { unfold xs, num_present. rewrite length_take. apply eq_true_iff_eq. rewrite !Z.ltb_lt. lia. }
  rewrite Hlen. destruct (Z.ltb_spec (num_present shares') threshold); [done|].
  rewrite bool_decide_false, Nat2Z.id; [done|]. intros Hnil. apply Z.ltb_ge in Hlen.
  apply (f_equal length) in Hnil. simpl in Hnil. lia.
Qed.
End reconstruct.

Lemma shared_polys_length threshold n subsecrets polys :
  0 < n → Z.of_nat (length subsecrets) = (8 * n + 30) / 31 →
  Forall2 (sharing_poly threshold) subsecrets polys →
  Z.of_nat (length polys) = (8 * n + 31 - 1) / 31 ∧ (0 < length polys)%nat.
Proof.
  intros Hn Hlen Hpolys. rewrite <- (Forall2_length _ _ _ Hpolys).
  assert (0 < (8 * n + 30) / 31) by (apply Z.div_str_pos; lia).
  split; [|lia]. rewrite Hlen. f_equal. lia.
Qed.

(** The sum of the terms of every column gives the subsecret back. *)
Lemma Reconstruct_subsecrets threshold num_shares polys shares' ws subsecrets :
  let xs := take (Z.to_nat threshold) (present 0 shares') in
  sub_shares (share_of polys <$> seq 0 (Z.to_nat num_shares)) shares' →
  2 ≤ threshold ≤ num_shares → num_shares < 2 ^ 31 → threshold ≤ num_present shares' →
  Forall2 (sharing_poly threshold) subsecrets polys → Forall is_digit subsecrets →
  weights_ok xs ws →
  forallb (λ i, accumulates_in_range 0 (Reconstruct_terms shares' xs ws i))
    (seq 0 (length polys)) = true →
  (λ i, Reconstruct_subsecret (Reconstruct_terms shares' xs ws i)) <$> seq 0 (length polys)
    = subsecrets.
Proof.
  intros xs Hsub Hn Hmax Hnum Hpolys Hdig Hws Hrange.
  rewrite <- (Forall2_length _ _ _ Hpolys) in *.
  apply list_eq. intros k. rewrite list_lookup_fmap.
  destruct (subsecrets !! k) as [s|] eqn:Hk; [|by rewrite lookup_seq_ge by (by apply lookup_ge_None)].
  pose proof (lookup_lt_Some _ _ _ Hk). rewrite lookup_seq_lt by done. simpl. f_equal.
  destruct (Forall2_lookup_l _ _ _ _ _ Hpolys Hk) as (cs & Hcs & Hpoly).
  destruct (column_terms shares' polys xs ws threshold) with (k := k) (cs := cs) (s := s)
    as [Hall Hsum]; try done.
  - apply xs_NoDup.
  - by eapply xs_small.
  - unfold xs, num_present in *. rewrite length_take. lia.
  - by eapply xs_shares.
  - by eapply Forall_lookup_1.
  - rewrite Reconstruct_subsecret_sum; [done..|].
    apply (proj1 (forallb_forall _ _) Hrange), in_seq. lia.
Qed.

(** ** Reconstruction *)

Lemma new_sss_ok : sss_ok new_ShamirSecretSharing.
Proof. split; [|split; [done|]]; intros ???; by rewrite ?lookup_nil. Qed.

(** The Lagrange coefficients are determined by the points. *)
Lemma weights_unique xs ws ws' :
  NoDup xs → Forall small_x xs → weights_ok xs ws → weights_ok xs ws' → ws = ws'.
Proof.
  intros Hnd Hall [Hl Hw] [Hl' Hw']. apply list_eq_same_length with (length xs); [lia..|].
  intros i w w' _ Hi Hi'. destruct (lookup_lt_is_Some_2 xs i) as [x Hx].
  { rewrite <- Hl. by eapply lookup_lt_Some. }
  destruct (Hw i x w Hx Hi) as [Hr H]. destruct (Hw' i x w' Hx Hi') as [Hr' H'].
  apply (eqmod_small kPrime); [done|done|].
  apply (eqmod_mul_cancel kPrime (prodZ ((λ y, y - x) <$> delete i xs))); [apply kPrime_prime|..].
  - apply prod_nonzero; [apply kPrime_prime|]. intros y Hy.
    by apply (delete_distinct kPrime xs i); [apply small_distinct|..].
  - rewrite !(Z.mul_comm (prodZ _)). by rewrite H, H'.
Qed.

Lemma Reconstruct_enough_shares sss threshold num_shares secret tape shares tape' shares' :
  sss_ok sss → Forall is_byte secret → Z.of_nat (length secret) < 2 ^ 28 → num_shares < 2 ^ 31 →
  Share threshold num_shares secret tape = Ok (Some (shares, tape')) →
  sub_shares shares shares' → threshold ≤ num_present shares' →
  Reconstruct_in_range threshold shares' (Z.of_nat (length secret)) = true →
  ∃ sss', Reconstruct sss threshold shares' (Z.of_nat (length secret)) = Ok (secret, sss') ∧
    sss_ok sss'.
Proof.
  intros Hsss Hb Hl Hmax Hshare Hsub Hnum Hrange.
  destruct (Share_ok _ _ _ _ _ _ Hb Hl Hshare)
    as (Hne & Hn & subsecrets & polys & Hdig & Hlen & Hval & Hpolys & ->).
  assert (HL : 0 < Z.of_nat (length secret)) by (destruct secret; simpl in *; [done|lia]).
  destruct (shared_polys_length _ _ _ _ HL Hlen Hpolys) as [HP Hpos].
  destruct (Reconstruct_run threshold num_shares polys shares' Hsub Hn Hpos sss _ HP HL)
    as [Hxs ->].
  rewrite (proj2 (Z.ltb_ge _ _)) by done. unfold Reconstruct_in_range in Hrange.
  rewrite Hxs in Hrange. set (xs := take _ _) in *.
  assert (Hxl : Z.of_nat (length xs) = threshold).
  { unfold xs, num_present in *. rewrite length_take. lia. }
  assert (NoDup xs) as Hnd by apply xs_NoDup. assert (Forall small_x xs) as Hsm by (by eapply xs_small).
  destruct (LagrangeCoefficients_ok sss xs Hsss) as (ws & sss' & Hlc & Hsss' & Hws); [lia|done..|].
  destruct (LagrangeCoefficients_ok _ xs new_sss_ok) as (ws' & sss'' & Hlc' & _ & Hws'); [lia|done..|].
  rewrite <- (weights_unique _ _ _ Hnd Hsm Hws Hws') in Hlc'. rewrite Hlc. rewrite Hlc' in Hrange.
  csimpl in *. rewrite bool_decide_false in Hrange
    by (intros Hnil; rewrite Hnil in Hxl; simpl in Hxl; lia).
  rewrite Nat2Z.id in Hrange. exists sss'. split; [|done].
  unfold xs. rewrite (Reconstruct_subsecrets _ _ _ _ _ _ Hsub Hn Hmax Hnum Hpolys Hdig Hws Hrange).
  by rewrite RebuildFromSubsecrets_digits.
Qed.

Lemma Reconstruct_too_few_shares sss threshold num_shares secret tape shares tape' shares' :
  Forall is_byte secret → Z.of_nat (length secret) < 2 ^ 28 →
  Share threshold num_shares secret tape = Ok (Some (shares, tape')) →
  sub_shares shares shares' → num_present shares' < threshold →
  Reconstruct sss threshold shares' (Z.of_nat (length secret)) =
    Error FAILED_PRECONDITION "Not enough valid shares were provided.".
Proof.
  intros Hb Hl Hshare Hsub Hnum.
  destruct (Share_ok _ _ _ _ _ _ Hb Hl Hshare)
    as (Hne & Hn & subsecrets & polys & Hdig & Hlen & Hval & Hpolys & ->).
  assert (HL : 0 < Z.of_nat (length secret)) by (destruct secret; simpl in *; [done|lia]).
  destruct (shared_polys_length _ _ _ _ HL Hlen Hpolys) as [HP Hpos].
  destruct (Reconstruct_run threshold num_shares polys shares' Hsub Hn Hpos sss _ HP HL) as [_ ->].
  by rewrite (proj2 (Z.ltb_lt _ _)).
Qed.

(** ** Properties *)

(** C3: a secret that [Share] splits is recovered by [Reconstruct] from any
    subset of at least [threshold] of its shares, the others being left empty,
    whatever the caches of the object hold, as long as the 32-bit accumulation
    of the subsecrets does not overflow on these shares; and the caches stay
    correct for the calls that follow. From fewer shares it recovers nothing:
    it reports a failed precondition. *)
Theorem Reconstruct_Share_roundtrip sss threshold num_shares secret tape shares tape' shares' :
  sss_ok sss → Forall is_byte secret → Z.of_nat (length secret) < 2 ^ 28 → num_shares < 2 ^ 31 →
  Share threshold num_shares secret tape = Ok (Some (shares, tape')) → sub_shares shares shares' →
  if threshold <=? num_present shares' then
    Reconstruct_in_range threshold shares' (Z.of_nat (length secret)) = true →
    ∃ sss', Reconstruct sss threshold shares' (Z.of_nat (length secret)) = Ok (secret, sss') ∧
      sss_ok sss'
  else
    Reconstruct sss threshold shares' (Z.of_nat (length secret)) =
      Error FAILED_PRECONDITION "Not enough valid shares were provided.".
Proof.
  intros. destruct (Z.leb_spec threshold (num_present shares')).
  - by eapply Reconstruct_enough_shares.
  - by eapply Reconstruct_too_few_shares.
Qed.

Lemma RandomFieldElements_total n : ∀ tape,
  Forall field_element tape → (n ≤ length tape)%nat →
  RandomFieldElements n tape = Some (take n tape, drop n tape).
Proof.
  induction n as [|n IH]; intros tape Hall Hlen; [done|].
  destruct tape as [|r tape]; simpl in Hlen; [lia|]. apply Forall_cons in Hall as [Hr Hall].
  unfold field_element in Hr. simpl. rewrite u32_small by (unfold kPrime in *; lia).
  rewrite (proj2 (Z.leb_gt _ _)) by lia. simpl. rewrite IH by (done || lia). done.
Qed.

Lemma Share_loop_total threshold subsecrets : ∀ tape shares,
  2 ≤ threshold → Forall field_element tape →
  (length subsecrets * Z.to_nat (threshold - 1) ≤ length tape)%nat →
  ∃ shares', Share_loop threshold subsecrets tape shares =
    Some (shares', drop (length subsecrets * Z.to_nat (threshold - 1)) tape).
Proof.
  induction subsecrets as [|s subsecrets IH]; intros tape shares Ht Hall Hlen; simpl in Hlen |- *.
  { eexists. by rewrite drop_0. }
  rewrite RandomFieldElements_total by (done || nia).
  cbn [mbind option_bind]. edestruct (IH (drop (Z.to_nat (threshold - 1)) tape)) as [shares' Hrun];
    [done|by apply Forall_drop|rewrite length_drop; nia|].
  eexists. rewrite <- drop_drop. exact Hrun.
Qed.

(** [Share] never fails on a non-empty secret with [2 <= threshold <=
    num_shares]: it draws [threshold - 1] field elements per subsecret and
    returns [num_shares] shares, each of four bytes per subsecret. *)
Lemma Share_total threshold num_shares secret tape :
  secret ≠ [] → Forall is_byte secret → Z.of_nat (length secret) < 2 ^ 28 →
  2 ≤ threshold ≤ num_shares → Forall field_element tape →
  (8 * Z.of_nat (length secret) + 30) / 31 * (threshold - 1) ≤ Z.of_nat (length tape) →
  ∃ shares tape', Share threshold num_shares secret tape = Ok (Some (shares, tape')) ∧
    Z.of_nat (length shares) = num_shares ∧
    Forall (λ s, Z.of_nat (length s) = 4 * ((8 * Z.of_nat (length secret) + 30) / 31)) shares ∧
    Z.of_nat (length tape') =
      Z.of_nat (length tape) - (8 * Z.of_nat (length secret) + 30) / 31 * (threshold - 1).
Proof.
  intros Hne Hb Hl Hn Htape Hlt.
  destruct (DivideIntoSubsecrets_ok secret Hne Hb Hl) as (ss & Hdiv & _ & Hlen & _).
  rewrite <- Hlen in *.
  destruct (Share_loop_total threshold ss tape (replicate (Z.to_nat num_shares) []))
    as [shares Hrun]; [lia|done|nia|].
  assert (Hs : Share threshold num_shares secret tape = Ok (Some
    (shares, drop (length ss * Z.to_nat (threshold - 1)) tape))).
  { unfold Share. rewrite bool_decide_false by done. cbn [negb fcp_check].
    rewrite (proj2 (Z.ltb_lt _ _)), (proj2 (andb_true_iff _ _)) by lia. cbn [fcp_check].
    rewrite Hdiv. cbn [mbind]. by rewrite <- Hrun. }
  destruct (Share_ok _ _ _ _ _ _ Hb Hl Hs) as (_ & _ & ss' & polys & _ & Hlen' & _ & Hpolys & ->).
  eexists _, _. split_and!; [done| | |].
  - rewrite length_fmap, length_seq. lia.
  - apply Forall_fmap, Forall_true. intros i. simpl.
    rewrite length_share_of, <- (Forall2_length _ _ _ Hpolys). lia.
  - rewrite length_drop. nia.
Qed.

(** The hypothesis on the accumulator is needed. [Reconstruct] adds two
    values below [kPrime] in 32 bits, which wraps around when their sum reaches
    [2 ^ 32]: for the secret [7f ff ff ff] and these random words the shares of
    an honest [Share] are reconstructed, without an error, as [00 00 00 0a]. *)
Example Reconstruct_accumulator_overflow :
  ∃ shares sss',
    Share 2 2 [127; 255; 255; 255] [5; (1 - 2 ^ 30) mod kPrime] = Ok (Some (shares, [])) ∧
    Reconstruct new_ShamirSecretSharing 2 shares 4 = Ok ([0; 0; 0; 10], sss') ∧
    Reconstruct_in_range 2 shares 4 = false.
Proof.
  exists [[0; 0; 0; 5; 64; 0; 0; 0]; [0; 0; 0; 10; 0; 0; 0; 1]],
    {| inverses_ := [1]; last_lc_input_ := [1; 2]; last_lc_output_ := [2; 2147483658] |}.
  split_and!; vm_compute; reflexivity.
Qed.

(** ** Witnesses *)

(** The shares of the secret [01 02 03 04 05] with threshold 2 of 3 used in the
    witnesses. *)
Definition example_secret : list Z := [1; 2; 3; 4; 5].
Definition example_shares : list (list Z) :=
  [[0; 0; 0; 9; 2; 3; 4; 14]; [0; 0; 0; 16; 2; 3; 4; 23]; [0; 0; 0; 23; 2; 3; 4; 32]].

Lemma example_share :
  Share 2 3 example_secret [7; 9] = Ok (Some (example_shares, [])).
Proof. vm_compute. reflexivity. Qed.

Lemma example_bytes : Forall is_byte example_secret.
Proof. repeat constructor; lia. Qed.

(** With the first share missing, and with only the second one. *)
Lemma Reconstruct_Share_roundtrip_witness :
  (∃ sss', Reconstruct new_ShamirSecretSharing 2
    [[]; [0; 0; 0; 16; 2; 3; 4; 23]; [0; 0; 0; 23; 2; 3; 4; 32]] 5 = Ok (example_secret, sss') ∧
    sss_ok sss') ∧
  Reconstruct new_ShamirSecretSharing 2 [[]; [0; 0; 0; 16; 2; 3; 4; 23]; []] 5 =
    Error FAILED_PRECONDITION "Not enough valid shares were provided.".
Proof.
  split.
  - apply (Reconstruct_Share_roundtrip new_ShamirSecretSharing 2 3 example_secret [7; 9]
      example_shares [] [[]; [0; 0; 0; 16; 2; 3; 4; 23]; [0; 0; 0; 23; 2; 3; 4; 32]]).
    + apply new_sss_ok.
    + apply example_bytes.
    + reflexivity.
    + reflexivity.
    + apply example_share.
    + repeat constructor; (lia || by left || by right).
    + vm_compute. reflexivity.
  - apply (Reconstruct_Share_roundtrip new_ShamirSecretSharing 2 3 example_secret [7; 9]
      example_shares [] [[]; [0; 0; 0; 16; 2; 3; 4; 23]; []]).
    + apply new_sss_ok.
    + apply example_bytes.
    + reflexivity.
    + reflexivity.
    + apply example_share.
    + repeat constructor; (lia || by left || by right).
Defined.

Lemma Share_total_witness :
  ∃ shares tape', Share 2 3 example_secret [7; 9; 11] = Ok (Some (shares, tape')) ∧
    Z.of_nat (length shares) = 3 ∧ Forall (λ s, Z.of_nat (length s) = 8) shares ∧
    Z.of_nat (length tape') = 1.
Proof.
  apply (Share_total 2 3 example_secret [7; 9; 11]).
  - discriminate.
  - apply example_bytes.
  - reflexivity.
  - lia.
  - repeat constructor; (lia || by left || by right).
  - vm_compute. discriminate.
Defined.
