(* ===== verification/SecAggVector.v ===== *)
(** * [shared/secagg_vector.{h,cc}]: packed vectors of bounded integers

    A [SecAggVector] keeps its elements in [bit_width] bits each, in a byte
    string. There are two codecs for it: one that addresses the bits of the
    [index]-th element ([PackUint64IntoByteStringAt] and its inverse), and a
    "branchless" one that moves 64-bit blocks ([Coder] and [Decoder]).

    [int] variables are integers: their overflow is undefined behaviour in the
    source, and the theorems bound [num_elements * bit_width] by [2 ^ 31]. A
    character is its unsigned byte: each one is masked with at most [0xff]
    after its promotion to [int], so its sign has no effect. *)

From S2P Require Import Prelude Bytes Math.

Definition kMaxModulus : Z := 2 ^ 62.

(** [absl::bit_width(modulus - 1ULL)]. *)
Definition GetBitWidth (modulus : Z) : Z :=
  let x := u64 (modulus - 1) in if x =? 0 then 0 else Z.log2 x + 1.

Record SecAggVector := {
  packed_bytes_ : list Z;
  modulus_ : Z;
  bit_width_ : Z;
  num_elements_ : Z;
  branchless_codec_ : bool
}.

(** ** The codec by index *)

(** [packed_bytes_[k] |= v] and [packed_bytes_[k] = v]. *)
Definition or_byte (k : Z) (v : Z) (bytes : list Z) : list Z :=
  alter (λ b, Z.lor b (u8 v)) (Z.to_nat k) bytes.
Definition set_byte (k : Z) (v : Z) (bytes : list Z) : list Z :=
  <[Z.to_nat k := u8 v]> bytes.

(** The [while (bits_left_to_pack >= 8)] loop and the partial byte after it.
    Each iteration takes 8 of at most 64 bits: 8 iterations are enough. *)
Fixpoint PackAligned (fuel : nat) (current_byte_index bits_left_to_pack element : Z)
    (bytes : list Z) : list Z :=
  match fuel with
  | S fuel =>
      if 8 <=? bits_left_to_pack then
        PackAligned fuel (current_byte_index + 1) (bits_left_to_pack - 8) (Z.shiftr element 8)
          (set_byte current_byte_index (Z.land element 255) bytes)
      else if 0 <? bits_left_to_pack then or_byte current_byte_index element bytes
      else bytes
  | O => bytes
  end.

Definition PackUint64IntoByteStringAt (bit_width index element : Z) (bytes : list Z) : list Z :=
  let leftmost_bit_position := index * bit_width in
  let current_byte_index := leftmost_bit_position / 8 in
  if negb (leftmost_bit_position mod 8 =? 0) then
    let starting_bit_position := leftmost_bit_position mod 8 in
    let empty_bits_left := 8 - starting_bit_position in
    let mask := Z.shiftl 1 (Z.min empty_bits_left bit_width) - 1 in
    let value_to_add := u64 (Z.shiftl (Z.land element mask) starting_bit_position) in
    PackAligned 9 (current_byte_index + 1) (bit_width - empty_bits_left)
      (Z.shiftr element empty_bits_left) (or_byte current_byte_index value_to_add bytes)
  else PackAligned 9 current_byte_index bit_width element bytes.

Definition byte_at (bytes : list Z) (k : Z) : Z := default 0 (bytes !! Z.to_nat k).

(** The [while (bits_left_to_unpack >= 8)] loop and the partial byte after it. *)
Fixpoint UnpackAligned (fuel : nat) (current_byte_index bits_left_to_unpack unpacked_element : Z)
    (bytes : list Z) : Z :=
  match fuel with
  | S fuel =>
      if 8 <=? bits_left_to_unpack then
        UnpackAligned fuel (current_byte_index - 1) (bits_left_to_unpack - 8)
          (Z.lor (u64 (Z.shiftl unpacked_element 8)) (Z.land (byte_at bytes current_byte_index) 255))
          bytes
      else if 0 <? bits_left_to_unpack then
        Z.lor (u64 (Z.shiftl unpacked_element bits_left_to_unpack))
          (Z.shiftr (Z.land (byte_at bytes current_byte_index) 255) (8 - bits_left_to_unpack))
      else unpacked_element
  | O => unpacked_element
  end.

Definition UnpackUint64FromByteStringAt (index bit_width : Z) (bytes : list Z) : Z :=
  let leftmost_bit_position := index * bit_width in
  let leftmost_byte_index := leftmost_bit_position / 8 in
  let right_boundary_bit_position := (index + 1) * bit_width in
  let rightmost_byte_index := (right_boundary_bit_position - 1) / 8 in
  if leftmost_byte_index =? rightmost_byte_index then
    let num_bits_to_skip := leftmost_bit_position mod 8 in
    let mask := Z.shiftl (Z.shiftl 1 bit_width - 1) num_bits_to_skip in
    Z.shiftr (Z.land (byte_at bytes leftmost_byte_index) mask) num_bits_to_skip
  else if negb (right_boundary_bit_position mod 8 =? 0) then
    let bits_to_copy_from_current_byte := right_boundary_bit_position mod 8 in
    let lower_bits_mask := Z.shiftl 1 bits_to_copy_from_current_byte - 1 in
    UnpackAligned 9 (rightmost_byte_index - 1) (bit_width - bits_to_copy_from_current_byte)
      (Z.land (byte_at bytes rightmost_byte_index) lower_bits_mask) bytes
  else UnpackAligned 9 rightmost_byte_index bit_width 0 bytes.

(** ** The branchless codec *)

(** [memcpy] of a 64-bit variable to and from memory (little endian). *)
Definition u64_bytes (v : Z) : list Z := le_bytes 8 v.

Record Coder := {
  cd_packed_bytes : list Z;
  cd_num_bytes_needed : Z;
  cd_modulus : Z;
  cd_bit_width : Z;
  cd_num_elements : Z;
  write_cursor_ : nat;
  target_cursor_value_ : Z;
  starting_bit_position_ : Z
}.

Definition new_Coder (modulus bit_width num_elements : Z) : Coder :=
  let num_bytes_needed := DivideRoundUp (u32 (num_elements * bit_width)) 8 in
  {| cd_packed_bytes := replicate (Z.to_nat (num_bytes_needed + 8)) 0;
     cd_num_bytes_needed := num_bytes_needed;
     cd_modulus := modulus; cd_bit_width := bit_width; cd_num_elements := num_elements;
     write_cursor_ := 0; target_cursor_value_ := 0; starting_bit_position_ := 0 |}.

Definition WriteValue (value : Z) (c : Coder) : Coder :=
  let sbp := starting_bit_position_ c in
  let target := Z.land (target_cursor_value_ c) (u64 (Z.shiftl 1 sbp) - 1) in
  let target := Z.lor target (u64 (Z.shiftl value sbp)) in
  let advance := (sbp + cd_bit_width c) / 8 in
  let new_starting_bit_position := (sbp + cd_bit_width c) mod 8 in
  let runt_cursor_value :=
    if new_starting_bit_position =? 0 then 0 else Z.shiftr value (Z.land (u32 (64 - sbp)) 63) in
  {| cd_packed_bytes := list_inserts (write_cursor_ c) (u64_bytes target) (cd_packed_bytes c);
     cd_num_bytes_needed := cd_num_bytes_needed c;
     cd_modulus := cd_modulus c; cd_bit_width := cd_bit_width c;
     cd_num_elements := cd_num_elements c;
     write_cursor_ := write_cursor_ c + Z.to_nat advance;
     target_cursor_value_ :=
       if advance =? 8 then runt_cursor_value
       else Z.shiftr target (Z.land (u32 (u32 advance * 8)) 63);
     starting_bit_position_ := u8 new_starting_bit_position |}.

Record Decoder := {
  dc_bytes : list Z;
  read_cursor_ : Z;
  cursor_read_value_ : Z;
  scratch_ : Z;
  read_cursor_bit_ : Z;
  dc_bit_width : Z;
  mask_ : Z;
  dc_modulus : Z
}.

(** The last [memcpy] of a string may be shorter than eight bytes: it leaves
    the high bytes of [cursor_read_value_] as they were. *)
Definition ReadData (d : Decoder) : Decoder :=
  let bytes_remaining := Z.of_nat (length (dc_bytes d)) - read_cursor_ d in
  let copied := take (Z.to_nat (Z.min 8 bytes_remaining))
                  (drop (Z.to_nat (read_cursor_ d)) (dc_bytes d)) in
  let value := le_value 8 (copied ++ drop (length copied) (u64_bytes (cursor_read_value_ d))) in
  {| dc_bytes := dc_bytes d; read_cursor_ := read_cursor_ d;
     cursor_read_value_ := value;
     scratch_ := Z.lor (scratch_ d) (u64 (Z.shiftl value (read_cursor_bit_ d)));
     read_cursor_bit_ := read_cursor_bit_ d; dc_bit_width := dc_bit_width d;
     mask_ := mask_ d; dc_modulus := dc_modulus d |}.

Definition new_Decoder (packed_bytes : list Z) (modulus : Z) : Decoder :=
  let bit_width := u8 (GetBitWidth modulus) in
  ReadData {| dc_bytes := packed_bytes; read_cursor_ := 0; cursor_read_value_ := 0;
              scratch_ := 0; read_cursor_bit_ := 0; dc_bit_width := bit_width;
              mask_ := u64 (Z.shiftl 1 bit_width) - 1; dc_modulus := modulus |}.

Definition ReadValue (d : Decoder) : Z * Decoder :=
  let bit_width := dc_bit_width d in
  let current_value := Z.land (scratch_ d) (mask_ d) in
  let scratch := Z.shiftr (scratch_ d) bit_width in
  let unwritten_bits := read_cursor_bit_ d in
  let read_cursor_bit := read_cursor_bit_ d - bit_width in
  let read_bit_shift := bit_width - unwritten_bits in
  let right_shift_value := if 0 <? read_bit_shift then read_bit_shift else 0 in
  let left_shift_value := if read_bit_shift <? 0 then - read_bit_shift else 0 in
  let value := Z.shiftr (cursor_read_value_ d) right_shift_value in
  let value := u64 (Z.shiftl value left_shift_value) in
  let scratch := Z.lor scratch value in
  let valid_scratch_bits := 64 - bit_width + unwritten_bits in
  let valid_scratch_bits := if 64 <? valid_scratch_bits then 64 else valid_scratch_bits in
  let new_read_cursor_bit :=
    read_cursor_bit + Z.land (u32 (valid_scratch_bits - read_cursor_bit)) (2 ^ 32 - 8) in
  let new_read_cursor_bit := if new_read_cursor_bit =? 64 then 64 - 8 else new_read_cursor_bit in
  (if current_value <? dc_modulus d then current_value else u64 (current_value - dc_modulus d),
   ReadData {| dc_bytes := dc_bytes d;
               read_cursor_ := read_cursor_ d + u32 (new_read_cursor_bit - read_cursor_bit) / 8;
               cursor_read_value_ := value; scratch_ := scratch;
               read_cursor_bit_ := new_read_cursor_bit; dc_bit_width := bit_width;
               mask_ := mask_ d; dc_modulus := dc_modulus d |}).

(** [n] consecutive calls of [ReadValue]. *)
Fixpoint ReadValues (n : nat) (d : Decoder) : list Z :=
  match n with
  | O => []
  | S n => let '(v, d) := ReadValue d in v :: ReadValues n d
  end.

(** ** The class *)

Definition valid_modulus (modulus : Z) : bool := (1 <? modulus) && (modulus <=? kMaxModulus).

(** The constructor from a packed string. *)
Definition SecAggVector_of_bytes (packed_bytes : list Z) (modulus num_elements : Z)
    (branchless_codec : bool) : Res SecAggVector :=
  let bit_width := GetBitWidth modulus in
  FCP_CHECK valid_modulus modulus ;;
  FCP_CHECK Z.of_nat (length packed_bytes) =? DivideRoundUp (u32 (num_elements * bit_width)) 8 ;;
  Ok {| packed_bytes_ := packed_bytes; modulus_ := modulus; bit_width_ := bit_width;
        num_elements_ := num_elements; branchless_codec_ := branchless_codec |}.

Definition Coder_Create (c : Coder) : Res SecAggVector :=
  let bytes := list_inserts (write_cursor_ c) (u64_bytes (target_cursor_value_ c))
                 (cd_packed_bytes c) in
  let bytes := resize (Z.to_nat (cd_num_bytes_needed c)) 0 bytes in
  SecAggVector_of_bytes bytes (cd_modulus c) (cd_num_elements c) true.

(** A moved-from vector has modulus 0; the accessors refuse it. *)
Definition CheckHasValue {A} (v : SecAggVector) (k : Res A) : Res A :=
  FCP_CHECK 0 <? modulus_ v ;; k.

Definition GetAsPackedBytes (v : SecAggVector) : Res (list Z) :=
  CheckHasValue v (Ok (packed_bytes_ v)).

Definition moved_from (bytes : list Z) (branchless_codec : bool) : SecAggVector :=
  {| packed_bytes_ := bytes; modulus_ := 0; bit_width_ := 0; num_elements_ := 0;
     branchless_codec_ := branchless_codec |}.

(** The result and the consumed object. *)
Definition TakePackedBytes (v : SecAggVector) : Res (list Z * SecAggVector) :=
  CheckHasValue v (Ok (packed_bytes_ v, moved_from [] (branchless_codec_ v))).

(** [MoveTo]: the target and the emptied source. *)
Definition MoveTo (v : SecAggVector) : SecAggVector * SecAggVector :=
  (v, moved_from [] false).

Definition PackUint64IntoByteStringBranchless (span : list Z) (modulus bit_width : Z) :
    Res (list Z) :=
  v ← Coder_Create (foldl (λ c element, WriteValue element c)
        (new_Coder modulus bit_width (Z.of_nat (length span))) span);
  '(bytes, _) ← TakePackedBytes v; Ok bytes.

Definition PackUint64IntoByteString (span : list Z) (bit_width : Z) : list Z :=
  let num_bytes_needed := DivideRoundUp (u32 (Z.of_nat (length span) * bit_width)) 8 in
  foldl (λ bytes ie, PackUint64IntoByteStringAt bit_width (Z.of_nat (fst ie)) (snd ie) bytes)
    (replicate (Z.to_nat num_bytes_needed) 0) (imap pair span).

(** The constructor from a span of integers. *)
Definition SecAggVector_of_span (span : list Z) (modulus : Z) (branchless_codec : bool) :
    Res SecAggVector :=
  let bit_width := GetBitWidth modulus in
  FCP_CHECK valid_modulus modulus ;;
  FCP_CHECK forallb (λ element, (0 <=? element) && (element <? modulus)) span ;;
  bytes ← (if branchless_codec then PackUint64IntoByteStringBranchless span modulus bit_width
           else Ok (PackUint64IntoByteString span bit_width));
  Ok {| packed_bytes_ := bytes; modulus_ := modulus; bit_width_ := bit_width;
        num_elements_ := Z.of_nat (length span); branchless_codec_ := branchless_codec |}.

Definition UnpackByteStringToUint64VectorBranchless (v : SecAggVector) : list Z :=
  ReadValues (Z.to_nat (num_elements_ v)) (new_Decoder (packed_bytes_ v) (modulus_ v)).

Definition GetAsUint64Vector (v : SecAggVector) : Res (list Z) :=
  CheckHasValue v (Ok (
    if branchless_codec_ v then UnpackByteStringToUint64VectorBranchless v
    else (λ i, UnpackUint64FromByteStringAt (Z.of_nat i) (bit_width_ v) (packed_bytes_ v))
           <$> seq 0 (Z.to_nat (num_elements_ v)))).

(** ** Unpacked vectors and maps *)

Record SecAggUnpackedVector := { elements : list Z; uv_modulus : Z }.

Definition SecAggUnpackedVector_of_vector (other : SecAggVector) : SecAggUnpackedVector :=
  {| elements := ReadValues (Z.to_nat (num_elements_ other))
                   (new_Decoder (packed_bytes_ other) (modulus_ other));
     uv_modulus := modulus_ other |}.

Definition SecAggUnpackedVector_Add (this : SecAggUnpackedVector) (other : SecAggVector) :
    Res SecAggUnpackedVector :=
  FCP_CHECK Z.of_nat (length (elements this)) =? num_elements_ other ;;
  FCP_CHECK uv_modulus this =? modulus_ other ;;
  Ok {| elements := zip_with (λ v x, AddModOpt v x (uv_modulus this)) (elements this)
                      (ReadValues (length (elements this))
                         (new_Decoder (packed_bytes_ other) (modulus_ other)));
        uv_modulus := uv_modulus this |}.

Abbreviation SecAggVectorMap := (gmap string SecAggVector).
Abbreviation SecAggUnpackedVectorMap := (gmap string SecAggUnpackedVector).

Definition SecAggUnpackedVectorMap_of_map (other : SecAggVectorMap) : SecAggUnpackedVectorMap :=
  SecAggUnpackedVector_of_vector <$> other.

(** A loop over the entries of a hash map that writes one entry of [result] in
    each iteration. It runs here over [map_to_list]: the iterations write
    different entries, so their order has no effect on the result. *)
Definition for_each_entry {A B} (body : string → A → Res B) (entries : gmap string A)
    (result : gmap string B) : Res (gmap string B) :=
  foldr (λ '(name, x) result,
    result ← result; y ← body name x; Ok (<[name := y]> result))
    (Ok result) (map_to_list entries).

Definition SecAggUnpackedVectorMap_Add (this : SecAggUnpackedVectorMap) (other : SecAggVectorMap) :
    Res SecAggUnpackedVectorMap :=
  FCP_CHECK bool_decide (size this = size other) ;;
  for_each_entry (λ name vector,
    match other !! name with
    | None => Crash
    | Some it => SecAggUnpackedVector_Add vector it
    end) this this.

(** [b.at(name)] throws if the name is absent; reading beyond the end of the
    second vector, undefined in the source, is a crash here. *)
Definition SecAggUnpackedVectorMap_AddMaps (a b : SecAggUnpackedVectorMap) :
    Res SecAggUnpackedVectorMap :=
  for_each_entry (λ name a_at_name,
    match b !! name with
    | None => Crash
    | Some b_at_name =>
        let modulus := uv_modulus a_at_name in
        FCP_CHECK bool_decide (length (elements a_at_name) ≤ length (elements b_at_name))%nat ;;
        Ok {| elements := zip_with (λ x y, AddModOpt x y modulus)
                            (elements a_at_name) (elements b_at_name);
              uv_modulus := modulus |}
    end) a ∅.
