(* ===== verification/SecAggCodec.v ===== *)
(** * The codec by index of [SecAggVector]

    Both codecs are specified by the number that the packed string denotes,
    [packed_value bw es], the sum of the elements [e_i * 2 ^ (i * bw)]. *)

From S2P Require Import Prelude Bytes Math SecAggVector.

Abbreviation value := (le_value 8).

(** The number that packing [es] must produce. *)
Definition packed_value (bw : Z) (es : list Z) : Z := le_value bw es.

Definition fits (bw e : Z) : Prop := 0 ≤ e < 2 ^ bw.

(** ** Bytes of a string *)

Section bytes.
Context (bytes : list Z) (Hbytes : Forall is_byte bytes).

Lemma value_bound : 0 ≤ value bytes < 2 ^ (8 * Z.of_nat (length bytes)).
Proof. apply le_value_bound; [lia|done]. Qed.

Lemma byte_at_div k :
  0 ≤ k → byte_at bytes k = value bytes / 2 ^ (8 * k) mod 2 ^ 8.
Proof.
  intros Hk. unfold byte_at. destruct (bytes !! Z.to_nat k) as [b|] eqn:Hb; simpl.
  - rewrite (le_value_lookup _ _ _ Hbytes Hb). repeat f_equal. lia.
  - apply lookup_ge_None in Hb. pose proof value_bound.
    rewrite Z.div_small; [done|]. split; [lia|].
    eapply Z.lt_le_trans; [apply value_bound|]. apply Z.pow_le_mono_r; lia.
Qed.

Lemma byte_small k s b :
  0 ≤ s → bytes !! k = Some b → value bytes < 2 ^ (8 * Z.of_nat k + s) → 0 ≤ b < 2 ^ s.
Proof.
  intros Hs Hb Hv. rewrite (le_value_lookup _ _ _ Hbytes Hb).
  rewrite Z.pow_add_r in Hv by lia. pose proof value_bound.
  assert (0 ≤ value bytes / 2 ^ (8 * Z.of_nat k) < 2 ^ s)
    by (split; [apply Z.div_pos; lia|apply Z.div_lt_upper_bound; lia]).
  split; [apply Z.mod_pos_bound; lia|]. eapply Z.le_lt_trans; [apply Z.mod_le|]; lia.
Qed.

(** Writing [x] above the bits in use. *)
Lemma or_byte_value k s x :
  0 ≤ k < Z.of_nat (length bytes) → 0 ≤ s ≤ 8 → value bytes < 2 ^ (8 * k + s) →
  0 ≤ x < 2 ^ (8 - s) →
  let bytes' := or_byte k (x * 2 ^ s) bytes in
  Forall is_byte bytes' ∧ length bytes' = length bytes ∧
  value bytes' = value bytes + x * 2 ^ (8 * k + s).
Proof.
  intros Hk Hs Hv Hx. cbv zeta. unfold or_byte.
  destruct (lookup_lt_is_Some_2 bytes (Z.to_nat k)) as [b Hb]; [lia|].
  assert (Hbs : 0 ≤ b < 2 ^ s) by (eapply byte_small; [lia|done|by rewrite Z2Nat.id by lia]).
  assert (Hxs : 0 ≤ x * 2 ^ s + b < 2 ^ 8).
  { replace 8 with (8 - s + s) by lia. rewrite Z.pow_add_r by lia. nia. }
  assert (Hlor : Z.lor b (u8 (x * 2 ^ s)) = b + x * 2 ^ s).
  { rewrite u8_small by nia. by rewrite <- (lor_shiftl_add b x s), Z.shiftl_mul_pow2 by lia. }
  split_and!.
  - apply Forall_alter; [done|]. intros y Hy _. rewrite Hb in Hy. injection Hy as <-.
    unfold is_byte. lia.
  - apply length_alter.
  - rewrite (le_value_alter _ _ _ _ _ (ltac:(lia) : 0 ≤ 8) Hb), Hlor, Z2Nat.id by lia.
    rewrite Z.pow_add_r by lia. ring.
Qed.

Lemma set_byte_or k x :
  0 ≤ k → value bytes < 2 ^ (8 * k) → set_byte k x bytes = or_byte k (x * 2 ^ 0) bytes.
Proof.
  intros Hk Hv. unfold set_byte, or_byte. rewrite Z.mul_1_r.
  apply list_eq. intros i. destruct (decide (i = Z.to_nat k)) as [->|Hne].
  - destruct (bytes !! Z.to_nat k) as [b|] eqn:Hb.
    + assert (Hb0 : 0 ≤ b < 2 ^ 0)
        by (eapply byte_small; [lia|done|by rewrite Z2Nat.id, Z.add_0_r by lia]).
      rewrite list_lookup_insert_eq by (by eapply lookup_lt_Some).
      rewrite list_lookup_alter_eq, Hb. simpl. replace b with 0 by lia. done.
    + rewrite list_lookup_alter_eq, Hb. simpl. apply lookup_ge_None in Hb.
      rewrite lookup_ge_None_2; [done|]. by rewrite length_insert.
  - by rewrite list_lookup_insert_ne, list_lookup_alter_ne by done.
Qed.
End bytes.

(** ** Packing one element *)

(** What packing [e] at bit position [pos] has to achieve. *)
Definition packed_at (pos e : Z) (bytes bytes' : list Z) : Prop :=
  Forall is_byte bytes' ∧ length bytes' = length bytes ∧ value bytes' = value bytes + e * 2 ^ pos.

Lemma split_bits e n p : 0 ≤ n → 0 ≤ p →
  e mod 2 ^ n * 2 ^ p + e / 2 ^ n * 2 ^ (p + n) = e * 2 ^ p.
Proof.
  intros. rewrite Z.pow_add_r by lia. pose proof (Z.div_mod e (2 ^ n)). nia.
Qed.

Lemma PackAligned_ok fuel : ∀ k left e bytes,
  Forall is_byte bytes → 0 ≤ k → left < 8 * Z.of_nat fuel → fits (Z.max 0 left) e →
  value bytes < 2 ^ (8 * k) → 8 * k + left ≤ 8 * Z.of_nat (length bytes) →
  packed_at (8 * k) e bytes (PackAligned fuel k left e bytes).
Proof.
  unfold packed_at, fits.
  induction fuel as [|fuel IH]; intros k left e bytes Hb Hk Hfuel He Hv Hlen; cbn [PackAligned].
  { rewrite Z.max_l in He by lia. replace e with 0 by lia. split_and!; [done..|lia]. }
  destruct (Z.leb_spec 8 left) as [H8|H8]; [|destruct (Z.ltb_spec 0 left) as [H0|H0]].
  - rewrite Z.max_r in He by lia. pose proof (Z.mod_pos_bound e (2 ^ 8)).
    change 255 with (Z.ones 8). rewrite Z.land_ones, Z.shiftr_div_pow2, set_byte_or by (done || lia).
    destruct (or_byte_value bytes Hb k 0 (e mod 2 ^ 8)) as (Hb' & Hl' & Hv');
      [lia|lia|by rewrite Z.add_0_r|rewrite Z.sub_0_r; lia|].
    rewrite Z.add_0_r in Hv'.
    destruct (IH (k + 1) (left - 8) (e / 2 ^ 8) _ Hb') as (? & Hl2 & Hv2); [lia|lia| | | |].
    + rewrite Z.max_r by lia. apply div_pow2_bound; [lia..|].
      by replace (8 + (left - 8)) with left by lia.
    + rewrite Hv'. replace (8 * (k + 1)) with (8 * k + 8) by lia. rewrite Z.pow_add_r by lia. nia.
    + rewrite Hl'. lia.
    + split_and!; [done|lia|]. rewrite Hv2, Hv'. replace (8 * (k + 1)) with (8 * k + 8) by lia.
      pose proof (split_bits e 8 (8 * k)). lia.
  - rewrite Z.max_r in He by lia. assert (2 ^ left ≤ 2 ^ 8) by (apply Z.pow_le_mono_r; lia).
    destruct (or_byte_value bytes Hb k 0 e) as (Hb' & Hl' & Hv'); [lia|lia|by rewrite Z.add_0_r| |].
    + rewrite Z.sub_0_r. lia.
    + rewrite Z.pow_0_r, Z.mul_1_r, Z.add_0_r in *. done.
  - rewrite Z.max_l in He by lia. replace e with 0 by lia. split_and!; [done..|lia].
Qed.

Lemma PackUint64IntoByteStringAt_ok bw i e bytes :
  1 ≤ bw ≤ 62 → 0 ≤ i → Forall is_byte bytes → fits bw e →
  value bytes < 2 ^ (i * bw) → (i + 1) * bw ≤ 8 * Z.of_nat (length bytes) →
  packed_at (i * bw) e bytes (PackUint64IntoByteStringAt bw i e bytes).
Proof.
  intros Hbw Hi Hb He Hv Hlen. unfold PackUint64IntoByteStringAt. unfold fits in He.
  assert (Hpos : 0 ≤ i * bw) by nia. assert (Hend : i * bw + bw ≤ 8 * Z.of_nat (length bytes)) by lia.
  revert Hpos Hend Hv. generalize (i * bw). clear Hlen Hi i. intros pos Hpos Hend Hv.
  pose proof (Z.div_mod pos 8). pose proof (Z.mod_pos_bound pos 8).
  assert (0 ≤ pos / 8) by (apply Z.div_pos; lia).
  destruct (Z.eqb_spec (pos mod 8) 0) as [Hs|Hs]; cbn [negb].
  - replace pos with (8 * (pos / 8)) at 1 by lia. apply PackAligned_ok; try (done || lia).
    + unfold fits. by rewrite Z.max_r by lia.
    + by replace (8 * (pos / 8)) with pos by lia.
  - set (s := pos mod 8) in *. set (k := pos / 8) in *. set (n := 8 - s).
    assert (Hpk : pos = 8 * k + s) by lia.
    assert (Hm : e mod 2 ^ Z.min n bw = e mod 2 ^ n).
    { destruct (Z.min_spec n bw) as [[? ->]|[? ->]]; [done|].
      assert (2 ^ bw ≤ 2 ^ n) by (apply Z.pow_le_mono_r; lia). by rewrite !Z.mod_small by lia. }
    assert (Hmb : 0 ≤ e mod 2 ^ n < 2 ^ n) by (apply Z.mod_pos_bound; lia).
    rewrite land_mask, Hm, Z.shiftl_mul_pow2, Z.shiftr_div_pow2 by lia.
    assert (2 ^ n * 2 ^ s = 2 ^ 8) by (rewrite <- Z.pow_add_r by lia; f_equal; lia).
    rewrite u64_small by nia.
    destruct (or_byte_value bytes Hb k s (e mod 2 ^ n)) as (Hb' & Hl' & Hv'); [lia..| |done|].
    { by rewrite <- Hpk. }
    destruct (PackAligned_ok 9 (k + 1) (bw - n) (e / 2 ^ n) _ Hb') as (? & ? & Hv2);
      [lia|lia| | |lia|].
    + unfold fits. apply div_pow2_bound; [lia..|]. split; [lia|].
      eapply Z.lt_le_trans; [apply He|]. apply Z.pow_le_mono_r; lia.
    + rewrite Hv', <- Hpk. replace (8 * (k + 1)) with (pos + n) by lia.
      rewrite Z.pow_add_r by lia. nia.
    + split_and!; [done|lia|]. rewrite Hv2, Hv', <- Hpk.
      replace (8 * (k + 1)) with (pos + n) by lia. pose proof (split_bits e n pos). lia.
Qed.

(** ** Packing a span *)

Lemma packed_value_app bw l e :
  0 ≤ bw → packed_value bw (l ++ [e]) = packed_value bw l + e * 2 ^ (Z.of_nat (length l) * bw).
Proof.
  intros. unfold packed_value. rewrite le_value_app, Z.mul_comm by done. simpl.
  rewrite (Z.mul_comm bw). f_equal. lia.
Qed.

Lemma packed_value_bound bw l :
  0 ≤ bw → Forall (fits bw) l → 0 ≤ packed_value bw l < 2 ^ (Z.of_nat (length l) * bw).
Proof. intros. rewrite Z.mul_comm. by apply le_value_bound. Qed.

Lemma Pack_loop_ok bw todo : ∀ pre bytes,
  1 ≤ bw ≤ 62 → Forall is_byte bytes → Forall (fits bw) (pre ++ todo) →
  value bytes = packed_value bw pre →
  Z.of_nat (length (pre ++ todo)) * bw ≤ 8 * Z.of_nat (length bytes) →
  let bytes' :=
    foldl (λ bytes ie, PackUint64IntoByteStringAt bw (Z.of_nat (fst ie)) (snd ie) bytes) bytes
      (imap (λ i e, (i + length pre, e)%nat) todo) in
  Forall is_byte bytes' ∧ length bytes' = length bytes ∧
  value bytes' = packed_value bw (pre ++ todo).
Proof.
  induction todo as [|e todo IH]; intros pre bytes Hbw Hb Hall Hv Hlen; cbn [imap foldl].
  { by rewrite app_nil_r. }
  pose proof (proj1 (Forall_app _ _ _) Hall) as [Hpre [He _]%Forall_cons].
  rewrite length_app in Hlen. simpl in Hlen.
  destruct (PackUint64IntoByteStringAt_ok bw (Z.of_nat (length pre)) e bytes) as (Hb1 & Hl1 & Hv1);
    [done|lia|done|done| |nia|].
  { rewrite Hv. apply packed_value_bound; [lia|done]. }
  destruct (IH (pre ++ [e]) (PackUint64IntoByteStringAt bw (Z.of_nat (length pre)) e bytes))
    as (Hb2 & Hl2 & Hv2); [done|done| | | |].
  - by rewrite <- app_assoc.
  - by rewrite Hv1, packed_value_app, Hv by lia.
  - rewrite !length_app, Hl1. simpl. lia.
  - rewrite <- app_assoc in Hv2. rewrite length_app in *.
    rewrite (imap_ext _ (λ i e0, (i + (length pre + length [e]), e0)%nat))
      by (intros; simpl; f_equal; lia).
    split_and!; [exact Hb2|exact (eq_trans Hl2 Hl1)|exact Hv2].
Qed.

(** The bytes needed for [n] elements. *)
Definition bytes_needed (n bw : Z) : Z := (n * bw + 7) / 8.

Lemma DivideRoundUp_bytes n bw :
  0 ≤ n → 1 ≤ bw → n * bw < 2 ^ 31 →
  DivideRoundUp (u32 (n * bw)) 8 = bytes_needed n bw ∧
  n * bw ≤ 8 * bytes_needed n bw < n * bw + 8.
Proof.
  intros Hn Hbw Hlt. assert (0 ≤ n * bw) by nia. rewrite u32_small, DivideRoundUp_div by lia.
  unfold bytes_needed. replace (n * bw + 8 - 1) with (n * bw + 7) by lia. split; [done|].
  pose proof (Z.div_mod (n * bw + 7) 8). pose proof (Z.mod_pos_bound (n * bw + 7) 8). lia.
Qed.

(** The string that packs [es], whatever the codec. *)
Definition packed_bytes (bw : Z) (es : list Z) : list Z :=
  le_bytes (Z.to_nat (bytes_needed (Z.of_nat (length es)) bw)) (packed_value bw es).

Lemma bytes_of_value bytes n V :
  Forall is_byte bytes → length bytes = n → value bytes = V → bytes = le_bytes n V.
Proof. intros Hb <- <-. by rewrite le_bytes_value. Qed.

Lemma PackUint64IntoByteString_ok bw es :
  1 ≤ bw ≤ 62 → Forall (fits bw) es → Z.of_nat (length es) * bw < 2 ^ 31 →
  PackUint64IntoByteString es bw = packed_bytes bw es.
Proof.
  intros Hbw Hes Hlt. unfold PackUint64IntoByteString, packed_bytes.
  destruct (DivideRoundUp_bytes (Z.of_nat (length es)) bw) as [-> Hn]; [lia..|].
  set (n := Z.to_nat _).
  destruct (Pack_loop_ok bw es [] (replicate n 0)) as (Hb & Hl & Hv); try done.
  - apply Forall_replicate. unfold is_byte. lia.
  - change (value (replicate n 0) = 0). clear. induction n; cbn [replicate le_value]; lia.
  - rewrite length_replicate. unfold n. simpl. lia.
  - rewrite length_replicate in Hl.
    rewrite (imap_ext pair (λ i e, (i + length (@nil Z), e)%nat)) by (intros; simpl; f_equal; lia).
    by apply bytes_of_value.
Qed.

(** ** Unpacking one element *)

Lemma UnpackAligned_ok fuel bytes : ∀ cur left acc,
  Forall is_byte bytes → left < 8 * Z.of_nat fuel → 0 ≤ left ≤ 8 * (cur + 1) → left ≤ 64 →
  0 ≤ acc < 2 ^ (64 - left) →
  UnpackAligned fuel cur left acc bytes =
    acc * 2 ^ left + (value bytes / 2 ^ (8 * (cur + 1) - left)) mod 2 ^ left.
Proof.
  induction fuel as [|fuel IH]; intros cur left acc Hb Hfuel Hleft H64 Hacc; [lia|].
  cbn [UnpackAligned]. change 255 with (Z.ones 8).
  destruct (Z.leb_spec 8 left) as [H8|H8]; [|destruct (Z.ltb_spec 0 left) as [H0|H0]].
  - rewrite Z.land_ones, byte_at_div, Zmod_mod by (done || lia).
    set (b := value bytes / _ mod _). assert (0 ≤ b < 2 ^ 8) by (apply Z.mod_pos_bound; lia).
    assert (2 ^ (64 - left) * 2 ^ 8 ≤ 2 ^ 64)
      by (rewrite <- Z.pow_add_r by lia; apply Z.pow_le_mono_r; lia).
    rewrite Z.shiftl_mul_pow2, u64_small, Z.lor_comm by nia.
    rewrite <- (Z.shiftl_mul_pow2 acc), lor_shiftl_add by lia. rewrite IH; try (done || lia).
    + assert (Hsplit := mod_pow2_split (value bytes / 2 ^ (8 * (cur + 1) - left)) (left - 8) 8).
      rewrite div_pow2_div in Hsplit by lia.
      replace (left - 8 + 8) with left in Hsplit by lia.
      replace (8 * (cur + 1) - left + (left - 8)) with (8 * cur) in Hsplit by lia.
      rewrite Hsplit by lia. fold b.
      replace (8 * (cur - 1 + 1) - (left - 8)) with (8 * (cur + 1) - left) by lia.
      rewrite (pow2_split left 8) by lia. ring.
    + replace (64 - (left - 8)) with (64 - left + 8) by lia. rewrite Z.pow_add_r by lia. nia.
  - rewrite Z.land_ones, byte_at_div, Zmod_mod by (done || lia).
    rewrite Z.shiftr_div_pow2, mod_pow2_div, div_pow2_div by lia.
    replace (8 - (8 - left)) with left by lia.
    replace (8 * cur + (8 - left)) with (8 * (cur + 1) - left) by lia.
    assert (2 ^ (64 - left) * 2 ^ left = 2 ^ 64) by (rewrite <- Z.pow_add_r by lia; f_equal; lia).
    set (m := value bytes / _ mod _). assert (0 ≤ m < 2 ^ left) by (apply Z.mod_pos_bound; lia).
    rewrite Z.shiftl_mul_pow2, u64_small, Z.lor_comm by nia.
    rewrite <- (Z.shiftl_mul_pow2 acc), lor_shiftl_add, Z.shiftl_mul_pow2 by lia. lia.
  - replace left with 0 by lia. rewrite Z.pow_0_r, Z.mod_1_r. lia.
Qed.

Lemma UnpackUint64FromByteStringAt_ok bytes i bw :
  Forall is_byte bytes → 0 ≤ i → 1 ≤ bw ≤ 62 →
  UnpackUint64FromByteStringAt i bw bytes = (value bytes / 2 ^ (i * bw)) mod 2 ^ bw.
Proof.
  intros Hb Hi Hbw. unfold UnpackUint64FromByteStringAt.
  assert (Hpos : 0 ≤ i * bw) by nia. replace ((i + 1) * bw) with (i * bw + bw) by lia.
  revert Hpos. generalize (i * bw). clear Hi i. intros pos Hpos.
  pose proof (Z.div_mod pos 8). pose proof (Z.mod_pos_bound pos 8).
  pose proof (Z.div_mod (pos + bw) 8). pose proof (Z.mod_pos_bound (pos + bw) 8).
  pose proof (Z.div_mod (pos + bw - 1) 8). pose proof (Z.mod_pos_bound (pos + bw - 1) 8).
  set (s := pos mod 8) in *. set (k := pos / 8) in *.
  set (t := (pos + bw) mod 8) in *. set (r := (pos + bw) / 8) in *.
  set (q := (pos + bw - 1) / 8) in *. set (o := (pos + bw - 1) mod 8) in *.
  destruct (Z.eqb_spec k q) as [Hkq|Hkq]; [|destruct (Z.eqb_spec t 0) as [Ht|Ht]]; cbn [negb].
  - rewrite Z.shiftr_land, Z.shiftr_shiftl_l by lia. rewrite Z.sub_diag, Z.shiftl_0_r.
    rewrite land_mask, byte_at_div, Z.shiftr_div_pow2, mod_pow2_div by (done || lia).
    rewrite div_pow2_div, mod_mod_pow2 by lia. repeat f_equal. lia.
  - rewrite UnpackAligned_ok by (done || lia). rewrite Z.mul_0_l, Z.add_0_l.
    repeat f_equal. lia.
  - assert (q = r) as -> by lia. assert (t < bw) by lia.
    rewrite land_mask, byte_at_div, mod_mod_pow2 by (done || lia).
    set (a := value bytes / 2 ^ (8 * r) mod 2 ^ t).
    assert (Ha : 0 ≤ a < 2 ^ t) by (apply Z.mod_pos_bound; lia).
    rewrite UnpackAligned_ok; try (done || lia).
    + assert (Hsplit := mod_pow2_split (value bytes / 2 ^ pos) (bw - t) t).
      rewrite div_pow2_div in Hsplit by lia.
      replace (bw - t + t) with bw in Hsplit by lia.
      replace (pos + (bw - t)) with (8 * r) in Hsplit by lia. rewrite Hsplit by lia. fold a.
      replace (8 * (r - 1 + 1) - (bw - t)) with pos by lia. lia.
    + split; [lia|]. eapply Z.lt_le_trans; [apply Ha|]. apply Z.pow_le_mono_r; lia.
Qed.

(** An element of the string that packs [es]. *)
Lemma packed_element bw es i e :
  1 ≤ bw → Forall (fits bw) es → es !! i = Some e →
  (packed_value bw es / 2 ^ (Z.of_nat i * bw)) mod 2 ^ bw = e.
Proof.
  intros Hbw Hes Hi. revert i Hi. induction Hes as [|x es Hx Hes IH]; intros i Hi; [done|].
  unfold packed_value, fits in *. cbn [le_value]. rewrite (Z.mul_comm (2 ^ bw)).
  destruct i as [|i]; simpl in Hi.
  - injection Hi as ->. rewrite Z.mul_0_l, Z.pow_0_r, Z.div_1_r, Z_mod_plus_full.
    by apply Z.mod_small.
  - replace (Z.of_nat (S i) * bw) with (bw + Z.of_nat i * bw) by lia.
    rewrite <- div_pow2_div, Z.div_add, (Z.div_small x) by lia. by apply IH.
Qed.

(** The value of the packed string is that of the elements. *)
Lemma value_packed_bytes bw es :
  1 ≤ bw → Forall (fits bw) es → value (packed_bytes bw es) = packed_value bw es.
Proof.
  intros Hbw Hes. unfold packed_bytes. rewrite le_value_le_bytes. apply Z.mod_small.
  destruct (packed_value_bound bw es) as [H0 H1]; [lia|done|]. split; [done|].
  eapply Z.lt_le_trans; [done|]. apply Z.pow_le_mono_r; [lia|].
  unfold bytes_needed. set (x := Z.of_nat (length es) * bw). assert (0 ≤ x) by (unfold x; nia).
  pose proof (Z.div_mod (x + 7) 8). pose proof (Z.mod_pos_bound (x + 7) 8). lia.
Qed.
