(* ===== verification/SecAggBranchless.v ===== *)
(** * The branchless codec of [SecAggVector]

    [Coder] writes the same bytes as the codec by index, and [Decoder] reads
    the elements back, reduced modulo [modulus], from any string: the stale
    bytes that a short [memcpy] leaves only reach bits beyond the string. *)

From S2P Require Import Prelude Bytes Math SecAggVector SecAggCodec.

(** ** Lists of bytes *)

Lemma le_bytes_app n m V :
  le_bytes (n + m) V = le_bytes n V ++ le_bytes m (V / 2 ^ (8 * Z.of_nat n)).
Proof.
  revert V. induction n as [|n IH]; intros V; [by rewrite Z.div_1_r|].
  cbn [Nat.add le_bytes app]. rewrite IH, div_pow2_div by lia. repeat f_equal. lia.
Qed.

Lemma take_le_bytes n m V : (n ≤ m)%nat → take n (le_bytes m V) = le_bytes n V.
Proof.
  intros Hle. replace m with (n + (m - n))%nat by lia. rewrite le_bytes_app.
  by rewrite take_app_length' by (by rewrite length_le_bytes).
Qed.

Lemma le_bytes_eqmod n V V' :
  V ≡ V' [mod 2 ^ (8 * Z.of_nat n)] → le_bytes n V = le_bytes n V'.
Proof.
  intros Heq%eqmod_rem. apply (le_value_inj 8); [lia|by rewrite !length_le_bytes|..].
  1,2: apply le_bytes_bytes. by rewrite !le_value_le_bytes.
Qed.

Lemma take_list_inserts {A} i m (k l : list A) :
  (i + length k ≤ length l)%nat → (m ≤ length k)%nat →
  take (i + m) (list_inserts i k l) = take i l ++ take m k.
Proof.
  intros Hl Hm. apply list_eq. intros j. destruct (decide (j < i + m)%nat) as [Hj|Hj].
  - rewrite lookup_take_lt by done. destruct (decide (j < i)%nat).
    + rewrite list_lookup_inserts_lt by lia.
      by rewrite lookup_app_l, lookup_take_lt by (rewrite ?length_take; lia).
    + rewrite list_lookup_inserts, lookup_app_r by (rewrite ?length_take; lia).
      by rewrite length_take_le, lookup_take_lt by lia.
  - rewrite !lookup_ge_None_2; rewrite ?length_app, ?length_take; [done|lia..].
Qed.

(** ** Writing *)

(** The state of a [Coder] after the elements [pre]. *)
Record coder_inv (bw n m : Z) (pre : list Z) (c : Coder) : Prop := {
  ci_bw : cd_bit_width c = bw;
  ci_n : cd_num_elements c = n;
  ci_m : cd_modulus c = m;
  ci_needed : cd_num_bytes_needed c = bytes_needed n bw;
  ci_length : Z.of_nat (length (cd_packed_bytes c)) = bytes_needed n bw + 8;
  ci_pos : 8 * Z.of_nat (write_cursor_ c) + starting_bit_position_ c = Z.of_nat (length pre) * bw;
  ci_sbp : 0 ≤ starting_bit_position_ c < 8;
  ci_target : target_cursor_value_ c = packed_value bw pre / 2 ^ (8 * Z.of_nat (write_cursor_ c));
  ci_bytes : take (write_cursor_ c) (cd_packed_bytes c) =
             le_bytes (write_cursor_ c) (packed_value bw pre)
}.

Lemma ci_target_bound bw n m pre c :
  1 ≤ bw → Forall (fits bw) pre → coder_inv bw n m pre c →
  0 ≤ target_cursor_value_ c < 2 ^ starting_bit_position_ c.
Proof.
  intros Hbw Hpre Hc. rewrite (ci_target _ _ _ _ _ Hc). pose proof (ci_sbp _ _ _ _ _ Hc).
  apply div_pow2_bound; [lia..|]. rewrite (ci_pos _ _ _ _ _ Hc).
  apply packed_value_bound; [lia|done].
Qed.

(** The block that [WriteValue] stores is the low part of [W], the pending bits
    followed by the new element; the bits above it are the new pending ones. *)
Lemma write_block T v s :
  0 ≤ s < 8 → 0 ≤ T < 2 ^ s → 0 ≤ v →
  Z.lor (Z.land T (u64 (Z.shiftl 1 s) - 1)) (u64 (Z.shiftl v s)) = (T + v * 2 ^ s) mod 2 ^ 64.
Proof.
  intros Hs HT Hv. assert (2 ^ s ≤ 2 ^ 7) by (apply Z.pow_le_mono_r; lia).
  rewrite (u64_small (Z.shiftl 1 s)) by (rewrite Z.shiftl_1_l; lia).
  rewrite land_mask, (Z.mod_small T) by lia. unfold u64. rewrite Z.shiftl_mul_pow2 by lia.
  replace (2 ^ 64) with (2 ^ s * 2 ^ (64 - s)) by (rewrite <- Z.pow_add_r by lia; f_equal; lia).
  rewrite !(Z.mul_comm v), Z.mul_mod_distr_l by lia.
  rewrite Z.rem_mul_r by lia. rewrite (Z.mul_comm (2 ^ s) v), Z_mod_plus_full.
  rewrite Z.div_add, (Z.div_small T), Z.add_0_l, (Z.mod_small T) by lia.
  rewrite (Z.mul_comm (2 ^ s)), <- Z.shiftl_mul_pow2, lor_shiftl_add, Z.shiftl_mul_pow2 by lia.
  lia.
Qed.

Lemma land_63 x : 0 ≤ x < 64 → Z.land (u32 x) 63 = x.
Proof. intros. rewrite u32_small by lia. change 63 with (Z.ones 6). by rewrite Z.land_ones, Z.mod_small by lia. Qed.

Lemma write_pending T v s bw :
  1 ≤ bw ≤ 62 → 0 ≤ s < 8 → 0 ≤ T < 2 ^ s → fits bw v →
  (if (s + bw) / 8 =? 8 then
     if (s + bw) mod 8 =? 0 then 0 else Z.shiftr v (Z.land (u32 (64 - s)) 63)
   else Z.shiftr ((T + v * 2 ^ s) mod 2 ^ 64) (Z.land (u32 (u32 ((s + bw) / 8) * 8)) 63)) =
  (T + v * 2 ^ s) / 2 ^ (8 * ((s + bw) / 8)).
Proof.
  intros Hbw Hs HT Hv. unfold fits in Hv.
  pose proof (Z.div_mod (s + bw) 8). pose proof (Z.mod_pos_bound (s + bw) 8).
  set (a := (s + bw) / 8) in *. set (r := (s + bw) mod 8) in *.
  assert (HW : 0 ≤ T + v * 2 ^ s < 2 ^ (s + bw)) by (rewrite Z.pow_add_r by lia; nia).
  destruct (Z.eqb_spec a 8) as [Ha|Ha]; [destruct (Z.eqb_spec r 0) as [Hr|Hr]|].
  - rewrite Z.div_small; [done|]. replace (8 * a) with (s + bw) by lia. done.
  - rewrite land_63, Z.shiftr_div_pow2 by lia. replace (8 * a) with (s + (64 - s)) by lia.
    rewrite <- div_pow2_div, Z.div_add, (Z.div_small T) by lia. done.
  - rewrite (u32_small a), land_63, Z.shiftr_div_pow2 by lia.
    rewrite (Z.mod_small (T + _)), (Z.mul_comm a 8); [done|]. split; [lia|].
    eapply Z.lt_le_trans; [apply HW|]. apply Z.pow_le_mono_r; lia.
Qed.

Lemma WriteValue_ok bw n m pre c v :
  1 ≤ bw ≤ 62 → Forall (fits bw) pre → fits bw v → coder_inv bw n m pre c →
  Z.of_nat (length (pre ++ [v])) * bw ≤ 8 * bytes_needed n bw →
  coder_inv bw n m (pre ++ [v]) (WriteValue v c).
Proof.
  intros Hbw Hpre Hv Hc Hlen. pose proof (ci_target_bound _ _ _ _ _ (proj1 Hbw) Hpre Hc) as HT.
  destruct Hc as [Hcbw Hn Hm Hneed Hl Hpos Hsbp Htarget Hbytes].
  rewrite length_app in Hlen. simpl in Hlen.
  set (cur := write_cursor_ c) in *. set (s := starting_bit_position_ c) in *.
  set (T := target_cursor_value_ c) in *. set (V := packed_value bw pre) in *.
  pose proof (Z.div_mod (s + bw) 8). pose proof (Z.mod_pos_bound (s + bw) 8).
  assert (Ha : 0 ≤ (s + bw) / 8 ≤ 8) by lia.
  assert (HV : packed_value bw (pre ++ [v]) = V + v * 2 ^ s * 2 ^ (8 * Z.of_nat cur)).
  { rewrite packed_value_app by lia. fold V. rewrite <- Hpos, Z.pow_add_r by lia. lia. }
  assert (HW : packed_value bw (pre ++ [v]) / 2 ^ (8 * Z.of_nat cur) = T + v * 2 ^ s)
    by (rewrite HV, Z.div_add, Htarget by lia; done).
  unfold fits in Hv. unfold WriteValue. fold cur s T. rewrite Hcbw, write_block by lia.
  split; cbn [cd_bit_width cd_num_elements cd_modulus cd_num_bytes_needed cd_packed_bytes
              write_cursor_ starting_bit_position_ target_cursor_value_]; try done.
  - by rewrite length_inserts.
  - rewrite length_app, u8_small by lia. simpl. lia.
  - rewrite u8_small by lia. lia.
  - rewrite write_pending, <- HW, div_pow2_div by (done || lia). do 2 f_equal. lia.
  - assert (Z.of_nat cur ≤ bytes_needed n bw) by nia. unfold u64_bytes.
    rewrite take_list_inserts by (rewrite ?length_le_bytes; lia).
    rewrite Hbytes, take_le_bytes by lia. rewrite le_bytes_app, HW. f_equal.
    + apply le_bytes_eqmod. rewrite HV. apply eqmod_iff. by rewrite Z_mod_plus_full.
    + apply le_bytes_eqmod. apply eqmod_iff, mod_mod_pow2. lia.
Qed.

Lemma WriteValues_ok bw n m todo : ∀ pre c,
  1 ≤ bw ≤ 62 → Forall (fits bw) (pre ++ todo) → coder_inv bw n m pre c →
  Z.of_nat (length (pre ++ todo)) * bw ≤ 8 * bytes_needed n bw →
  coder_inv bw n m (pre ++ todo) (foldl (λ c element, WriteValue element c) c todo).
Proof.
  induction todo as [|v todo IH]; intros pre c Hbw Hall Hc Hlen; simpl; [by rewrite app_nil_r|].
  pose proof (proj1 (Forall_app _ _ _) Hall) as [Hpre [Hv _]%Forall_cons].
  rewrite length_app in Hlen. simpl in Hlen.
  rewrite cons_middle, app_assoc in Hall |- *. apply IH; try done.
  - apply WriteValue_ok; try done. rewrite length_app. simpl. nia.
  - rewrite !length_app. simpl. lia.
Qed.

Lemma resize_take {A} n (x : A) l : (n ≤ length l)%nat → resize n x l = take n l.
Proof. intros. by apply resize_le. Qed.

Lemma Coder_Create_ok bw n m pre c :
  1 ≤ bw ≤ 62 → n = Z.of_nat (length pre) → n * bw < 2 ^ 31 → valid_modulus m = true →
  GetBitWidth m = bw → Forall (fits bw) pre → coder_inv bw n m pre c →
  Coder_Create c = Ok {| packed_bytes_ := packed_bytes bw pre; modulus_ := m; bit_width_ := bw;
                         num_elements_ := n; branchless_codec_ := true |}.
Proof.
  intros Hbw Hn Hlt Hm HB Hpre [Hcbw Hcn Hcm Hneed Hl Hpos Hsbp Htarget Hbytes].
  destruct (DivideRoundUp_bytes n bw) as [Hdru Hbn]; [lia..|].
  unfold Coder_Create, SecAggVector_of_bytes. rewrite Hcn, Hcm, HB, Hneed, Hm, Hdru.
  set (cur := write_cursor_ c) in *. set (s := starting_bit_position_ c) in *.
  assert (Hk : Z.to_nat (bytes_needed n bw) =
    (cur + (if decide (s = 0%Z) then 0 else 1))%nat) by (destruct (decide (s = 0)); lia).
  unfold u64_bytes. rewrite resize_take by (rewrite length_inserts; lia).
  rewrite Hk, take_list_inserts by (rewrite ?length_le_bytes; destruct (decide (s = 0)); lia).
  rewrite Hbytes, take_le_bytes by (destruct (decide (s = 0)); lia).
  rewrite Htarget, <- le_bytes_app, <- Hk, length_le_bytes, Z2Nat.id by lia.
  rewrite Z.eqb_refl. simpl. unfold packed_bytes. by rewrite <- Hn.
Qed.

Lemma new_Coder_inv m bw n :
  1 ≤ bw → 0 ≤ n → n * bw < 2 ^ 31 → coder_inv bw n m [] (new_Coder m bw n).
Proof.
  intros. destruct (DivideRoundUp_bytes n bw) as [Hd Hb]; [lia..|].
  split; cbn [new_Coder cd_bit_width cd_num_elements cd_modulus cd_num_bytes_needed cd_packed_bytes
              write_cursor_ starting_bit_position_ target_cursor_value_]; try (done || lia).
  rewrite length_replicate, Hd. assert (0 ≤ n * bw) by nia. lia.
Qed.

Lemma PackUint64IntoByteStringBranchless_ok bw m es :
  1 ≤ bw ≤ 62 → GetBitWidth m = bw → valid_modulus m = true → Forall (fits bw) es →
  Z.of_nat (length es) * bw < 2 ^ 31 →
  PackUint64IntoByteStringBranchless es m bw = Ok (packed_bytes bw es).
Proof.
  intros Hbw HB Hm Hes Hlt. unfold PackUint64IntoByteStringBranchless.
  destruct (DivideRoundUp_bytes (Z.of_nat (length es)) bw) as [_ Hb]; [lia..|].
  assert (Hinv := new_Coder_inv m bw (Z.of_nat (length es))).
  apply (WriteValues_ok bw _ m es []) in Hinv; simpl; try (done || lia).
  erewrite Coder_Create_ok by done. simpl. unfold TakePackedBytes, CheckHasValue. simpl.
  unfold valid_modulus in Hm. by rewrite (proj2 (Z.ltb_lt _ _)) by lia.
Qed.

(** ** Reading *)

Section decoder.
Context (bytes : list Z) (m bw : Z).
Context (Hbytes : Forall is_byte bytes) (Hbw : 1 ≤ bw ≤ 62).

Let L : Z := 8 * Z.of_nat (length bytes).

(** Bit [k] of [x] is bit [pos + k] of the string, if the string has it. *)
Definition stream_bit (pos x k : Z) : Prop :=
  pos + k < L → Z.testbit x k = Z.testbit (value bytes) (pos + k).

(** Fields that do not change. *)
Record decoder_const (d : Decoder) : Prop := {
  dc_const_bytes : dc_bytes d = bytes;
  dc_const_modulus : dc_modulus d = m;
  dc_const_bw : dc_bit_width d = bw;
  dc_const_mask : mask_ d = Z.shiftl 1 bw - 1
}.

(** The cursor is at bit [pos + read_cursor_bit_], the next element at [pos]. *)
Record decoder_pos (pos : Z) (d : Decoder) : Prop := {
  dp_cursor : 8 * read_cursor_ d = pos + read_cursor_bit_ d;
  dp_cursor_pos : 0 ≤ read_cursor_ d;
  dp_bit : 0 ≤ read_cursor_bit_ d < 64;
  dp_read : 0 ≤ cursor_read_value_ d < 2 ^ 64;
  dp_scratch : 0 ≤ scratch_ d < 2 ^ 64
}.

Record decoder_inv (pos : Z) (d : Decoder) : Prop := {
  di_const : decoder_const d;
  di_pos : decoder_pos pos d;
  di_read : ∀ k, 0 ≤ k < 64 → stream_bit (pos + read_cursor_bit_ d) (cursor_read_value_ d) k;
  di_scratch : ∀ k, 0 ≤ k < 64 → stream_bit pos (scratch_ d) k
}.

Lemma high_bit x k : 0 ≤ x < 2 ^ 64 → 64 ≤ k → Z.testbit x k = false.
Proof. intros Hx Hk. rewrite <- (Z.mod_small x (2 ^ 64)) by done. apply Z.mod_pow2_bits_high. lia. Qed.

Lemma lor_range x y : 0 ≤ x < 2 ^ 64 → 0 ≤ y < 2 ^ 64 → 0 ≤ Z.lor x y < 2 ^ 64.
Proof.
  intros Hx Hy. replace (Z.lor x y) with (Z.lor x y mod 2 ^ 64); [apply Z.mod_pos_bound; lia|].
  apply Z.bits_inj'. intros k Hk. destruct (decide (k < 64)).
  - by rewrite Z.mod_pow2_bits_low by lia.
  - rewrite Z.mod_pow2_bits_high, Z.lor_spec, !high_bit by (done || lia). done.
Qed.

Lemma u64_bit x k : k < 64 → Z.testbit (u64 x) k = Z.testbit x k.
Proof. intros. by apply Z.mod_pow2_bits_low. Qed.

(** The block read at byte [c]. *)
Lemma read_block c old k :
  0 ≤ c → 0 ≤ k < 64 →
  let copied := take (Z.to_nat (Z.min 8 (Z.of_nat (length bytes) - c)))
                  (drop (Z.to_nat c) bytes) in
  let x := value (copied ++ drop (length copied) (u64_bytes old)) in
  0 ≤ x < 2 ^ 64 ∧ stream_bit (8 * c) x k.
Proof.
  intros Hc Hk copied x.
  assert (Hn : Z.of_nat (length copied) = Z.min 8 (Z.max 0 (Z.of_nat (length bytes) - c))).
  { unfold copied. rewrite length_take, length_drop. lia. }
  assert (Hcb : Forall is_byte copied) by (by apply Forall_take, Forall_drop).
  split.
  - assert (Hx := le_value_bound 8 (copied ++ drop (length copied) (u64_bytes old)) ltac:(lia)).
    rewrite length_app, length_drop in Hx. unfold u64_bytes in *. rewrite length_le_bytes in Hx.
    replace (8 * Z.of_nat (length copied + (8 - length copied))) with 64 in Hx by lia.
    apply Hx, Forall_app. split; [done|]. apply Forall_drop, le_bytes_bytes.
  - intros Hin. unfold x. rewrite le_value_app, Z.mul_comm by lia.
    rewrite <- (Z.mod_pow2_bits_low _ (8 * Z.of_nat (length copied))) by lia.
    rewrite Z_mod_plus_full. unfold copied at 1.
    rewrite value_take, value_drop by (try apply Forall_drop; rewrite ?length_drop; done || lia).
    rewrite !Z.mod_pow2_bits_low by lia.
    rewrite Z.div_pow2_bits by lia. f_equal. lia.
Qed.

Lemma ReadData_ok pos d :
  decoder_const d → decoder_pos pos d →
  (∀ k, 0 ≤ k < read_cursor_bit_ d → stream_bit pos (scratch_ d) k) →
  (∀ k, 0 ≤ k < 64 → pos + k < L → Z.testbit (scratch_ d) k = true →
     Z.testbit (value bytes) (pos + k) = true) →
  decoder_inv pos (ReadData d).
Proof.
  intros [Hb Hm Hw Hmask] [Hcur Hcur0 Hbit Hread Hscr] Hlow Hsound.
  assert (Hblock := λ k Hk, read_block (read_cursor_ d) (cursor_read_value_ d) k Hcur0 Hk).
  cbv zeta in Hblock. unfold ReadData. rewrite Hb.
  set (x := value _) in Hblock |- *. set (r := read_cursor_bit_ d) in *.
  split; [by split| |..]; cbn [dc_bytes read_cursor_ read_cursor_bit_ cursor_read_value_ scratch_].
  - split; cbn [dc_bytes read_cursor_ read_cursor_bit_ cursor_read_value_ scratch_]; try done.
    + apply (Hblock 0). lia.
    + apply lor_range; [done|apply u64_range].
  - intros k Hk. fold r. rewrite <- Hcur. by apply Hblock.
  - intros k Hk Hin. rewrite Z.lor_spec, u64_bit, Z.shiftl_spec by lia.
    destruct (decide (k < r)) as [Hkr|Hkr].
    + rewrite (Z.testbit_neg_r x) by lia. rewrite orb_false_r. apply Hlow; [lia|done].
    + destruct (Hblock (k - r)) as [_ Hx]; [lia|]. rewrite Hx by lia.
      replace (8 * read_cursor_ d + (k - r)) with (pos + k) by lia.
      specialize (Hsound k Hk Hin).
      destruct (Z.testbit (scratch_ d) k); simpl; [symmetry; by apply Hsound|done].
Qed.

Lemma new_Decoder_ok : GetBitWidth m = bw → decoder_inv 0 (new_Decoder bytes m).
Proof.
  intros HB. unfold new_Decoder. rewrite HB, u8_small by lia.
  assert (2 ^ bw ≤ 2 ^ 62) by (apply Z.pow_le_mono_r; lia).
  rewrite u64_small by (rewrite Z.shiftl_1_l; lia).
  apply ReadData_ok; [by split|by split| |]; simpl; [lia|].
  intros k _ _. by rewrite Z.bits_0.
Qed.

Lemma land_not_7 x : 0 ≤ x < 2 ^ 32 → Z.land x (2 ^ 32 - 8) = 8 * (x / 8).
Proof.
  intros Hx. change (2 ^ 32 - 8) with (Z.shiftl (Z.ones 29) 3).
  rewrite (Z.mul_comm 8). change 8 with (2 ^ 3). rewrite <- Z.shiftl_mul_pow2 by lia.
  rewrite <- Z.shiftr_div_pow2 by lia.
  rewrite <- (Z.mod_small (Z.shiftr x 3) (2 ^ 29))
    by (rewrite Z.shiftr_div_pow2 by lia; apply div_pow2_bound; lia).
  rewrite <- Z.land_ones, Z.shiftl_land by lia. apply Z.bits_inj'. intros k Hk.
  rewrite !Z.land_spec, !Z.shiftl_spec by lia. destruct (decide (k < 3)).
  - by rewrite (Z.testbit_neg_r (Z.ones 29)), !andb_false_r by lia.
  - rewrite Z.shiftr_spec by lia. do 2 f_equal. lia.
Qed.

(** The new [read_cursor_bit_], as a number. *)
Lemma next_cursor_bit r :
  0 ≤ r < 64 →
  let r' := r - bw in
  let vsb := if 64 <? 64 - bw + r then 64 else 64 - bw + r in
  let nr := r' + Z.land (u32 (vsb - r')) (2 ^ 32 - 8) in
  let nr := if nr =? 64 then 64 - 8 else nr in
  0 ≤ nr < 64 ∧ nr ≤ 64 - bw + r ∧ nr ≤ 64 ∧ 0 ≤ nr - r' ≤ 64 ∧ 8 * (u32 (nr - r') / 8) = nr - r'.
Proof.
  intros Hr. cbv zeta. set (r' := r - bw).
  assert (Hvsb : (if 64 <? 64 - bw + r then 64 else 64 - bw + r) = Z.min 64 (64 + r')).
  { destruct (Z.ltb_spec 64 (64 - bw + r)); lia. }
  rewrite Hvsb. rewrite u32_small, land_not_7 by lia. set (x := Z.min 64 (64 + r') - r').
  pose proof (Z.div_mod x 8). pose proof (Z.mod_pos_bound x 8).
  destruct (Z.eqb_spec (r' + 8 * (x / 8)) 64) as [He|He].
  - rewrite u32_small by lia.
    assert (56 - r' = (x / 8 - 1) * 8) as E by lia. change (64 - 8) with 56.
    rewrite E, Z.div_mul by lia. lia.
  - rewrite u32_small by lia. replace (r' + 8 * (x / 8) - r') with (x / 8 * 8) by lia.
    rewrite Z.div_mul by lia. lia.
Qed.

(** Shifting the last block into place. *)
Lemma shifted_bit x r k :
  0 ≤ x < 2 ^ 64 → 0 ≤ r < 64 → 0 ≤ k < 64 →
  let d := bw - r in
  Z.testbit (u64 (Z.shiftl (Z.shiftr x (if 0 <? d then d else 0)) (if d <? 0 then - d else 0))) k =
  Z.testbit x (k + d).
Proof.
  intros Hx Hr Hk. cbv zeta. rewrite u64_bit by lia.
  destruct (Z.ltb_spec 0 (bw - r)), (Z.ltb_spec (bw - r) 0); try lia.
  - by rewrite Z.shiftl_0_r, Z.shiftr_spec by lia.
  - rewrite Z.shiftr_0_r, Z.shiftl_spec by lia. f_equal. lia.
  - rewrite Z.shiftl_0_r, Z.shiftr_0_r. f_equal. lia.
Qed.

Definition reduced (x : Z) : Z := if x <? m then x else u64 (x - m).

Lemma ReadValue_ok pos d :
  0 ≤ pos → pos + bw ≤ L → decoder_inv pos d →
  fst (ReadValue d) = reduced ((value bytes / 2 ^ pos) mod 2 ^ bw) ∧
  decoder_inv (pos + bw) (snd (ReadValue d)).
Proof.
  intros Hpos Hend [[Hb Hm Hw Hmask] [Hcur Hcur0 Hbit Hread Hscr] Hrb Hsb].
  unfold ReadValue. rewrite Hb, Hm, Hw, Hmask. cbn [fst snd]. split.
  - unfold reduced. replace (Z.land (scratch_ d) (Z.shiftl 1 bw - 1))
      with ((value bytes / 2 ^ pos) mod 2 ^ bw); [done|].
    rewrite land_mask by lia. apply Z.bits_inj'. intros k Hk. destruct (decide (k < bw)).
    + rewrite !Z.mod_pow2_bits_low, Z.div_pow2_bits, Hsb by lia. f_equal. lia.
    + by rewrite !Z.mod_pow2_bits_high by lia.
  - set (r := read_cursor_bit_ d) in *.
    destruct (next_cursor_bit r Hbit) as (Hnr & Hnr1 & Hnr2 & Hnr3 & Hnr4).
    set (nr := if _ =? 64 then _ else _) in *. set (x := u64 _).
    assert (Hx : ∀ k, 0 ≤ k < 64 → Z.testbit x k = Z.testbit (cursor_read_value_ d) (k + (bw - r)))
      by (intros; by apply shifted_bit).
    assert (Hbits : ∀ k, 0 ≤ k < 64 → pos + bw + k < L →
      Z.testbit (Z.lor (Z.shiftr (scratch_ d) bw) x) k =
        Z.testbit (value bytes) (pos + bw + k) && (k <? 64 - bw + r)).
    { intros k Hk Hin. rewrite Z.lor_spec, Z.shiftr_spec, Hx by lia.
      assert (Hcr : Z.testbit (cursor_read_value_ d) (k + (bw - r)) =
        Z.testbit (value bytes) (pos + bw + k) && (r - bw <=? k) && (k <? 64 - bw + r)).
      { destruct (Z.leb_spec (r - bw) k), (Z.ltb_spec k (64 - bw + r)); rewrite ?andb_true_r, ?andb_false_r.
        - rewrite Hrb by lia. f_equal. lia.
        - by apply high_bit; [|lia].
        - apply Z.testbit_neg_r. lia.
        - lia. }
      rewrite Hcr. destruct (decide (k + bw < 64)).
      - rewrite Hsb by lia. replace (pos + (k + bw)) with (pos + bw + k) by lia.
        rewrite (proj2 (Z.ltb_lt k _)) by lia. destruct (Z.testbit (value bytes) _); [done|done].
      - rewrite (high_bit (scratch_ d)) by lia.
        by rewrite (proj2 (Z.leb_le (r - bw) k)), andb_true_r by lia. }
    apply ReadData_ok.
    + by split.
    + split; cbn [read_cursor_ read_cursor_bit_ cursor_read_value_ scratch_]; try lia.
      * apply u64_range.
      * apply lor_range; [|apply u64_range]. rewrite Z.shiftr_div_pow2 by lia.
        split; [apply Z.div_pos; lia|]. apply Z.div_lt_upper_bound; [lia|]. nia.
    + cbn [read_cursor_bit_ scratch_]. intros k Hk Hin. rewrite Hbits by lia.
      by rewrite (proj2 (Z.ltb_lt _ _)), andb_true_r by lia.
    + cbn [scratch_]. intros k Hk Hin. rewrite Hbits by lia. by intros [? _]%andb_true_iff.
Qed.

Lemma ReadValues_ok n : ∀ pos d,
  0 ≤ pos → pos + Z.of_nat n * bw ≤ L → decoder_inv pos d →
  ReadValues n d =
    (λ i, reduced ((value bytes / 2 ^ (pos + Z.of_nat i * bw)) mod 2 ^ bw)) <$> seq 0 n.
Proof.
  induction n as [|n IH]; intros pos d Hpos Hend Hd; [done|]. cbn [ReadValues].
  destruct (ReadValue_ok pos d) as [Hv Hd']; [done|nia|done|].
  destruct (ReadValue d) as [v d']. simpl in Hv, Hd'. subst v.
  rewrite (IH (pos + bw)) by (done || lia). cbn [seq]. rewrite fmap_cons.
  f_equal; [by rewrite Z.mul_0_l, Z.add_0_r|]. rewrite <- fmap_S_seq, <- list_fmap_compose.
  apply list_fmap_ext. intros i x _. unfold compose. do 4 f_equal. lia.
Qed.
End decoder.
