(* ===== verification/SecAggVectorCorrect.v ===== *)
(** * Correctness of [SecAggVector] and of the unpacked vectors

    Properties of the classes of [secagg_vector.h]: round trip, equality of the
    two codecs, what is read from an arbitrary string, modular addition. *)

From S2P Require Import Prelude Bytes Math SecAggVector SecAggCodec SecAggBranchless.

(** ** The modulus *)

Lemma GetBitWidth_bounds m :
  valid_modulus m = true →
  1 ≤ GetBitWidth m ≤ 62 ∧ m ≤ 2 ^ GetBitWidth m < 2 * m ∧ 1 < m ≤ 2 ^ 62.
Proof.
  unfold valid_modulus, kMaxModulus, GetBitWidth. intros [H1 H2]%andb_true_iff.
  rewrite u64_small by lia. rewrite (proj2 (Z.eqb_neq _ _)) by lia.
  destruct (Z.log2_spec (m - 1)) as [Hl Hu]; [lia|].
  assert (Z.log2 (m - 1) < 62) by (apply Z.log2_lt_pow2; lia).
  pose proof (Z.log2_nonneg (m - 1)). rewrite Z.pow_succ_r in Hu by lia.
  rewrite Z.pow_add_r by lia. lia.
Qed.

Lemma reduced_mod m x :
  valid_modulus m = true → 0 ≤ x < 2 ^ GetBitWidth m → reduced m x = x mod m.
Proof.
  intros Hm Hx. destruct (GetBitWidth_bounds m Hm) as (_ & ? & ?). unfold reduced.
  destruct (Z.ltb_spec x m); [by rewrite Z.mod_small by lia|]. rewrite u64_small by lia.
  rewrite <- (Z.mod_small (x - m) m) by lia. rewrite <- (Z_mod_plus_full (x - m) 1). f_equal. lia.
Qed.

(** The [i]-th field of a string. *)
Definition field (bw : Z) (bytes : list Z) (i : nat) : Z :=
  (value bytes / 2 ^ (Z.of_nat i * bw)) mod 2 ^ bw.

(** The length of a string of [n] elements. *)
Definition right_size (bw n : Z) (bytes : list Z) : Prop :=
  Z.of_nat (length bytes) = bytes_needed n bw ∧ 0 ≤ n ∧ n * bw < 2 ^ 31.

Lemma right_size_enough bw n bytes :
  1 ≤ bw → right_size bw n bytes → n * bw ≤ 8 * Z.of_nat (length bytes).
Proof.
  intros Hbw (-> & Hn & Hlt). by destruct (DivideRoundUp_bytes n bw) as [_ [? _]].
Qed.

Lemma decode_fields m n bytes :
  valid_modulus m = true → Forall is_byte bytes → right_size (GetBitWidth m) n bytes →
  ReadValues (Z.to_nat n) (new_Decoder bytes m) =
    (λ i, field (GetBitWidth m) bytes i mod m) <$> seq 0 (Z.to_nat n).
Proof.
  intros Hm Hb Hsize. destruct (GetBitWidth_bounds m Hm) as (Hbw & _).
  pose proof (right_size_enough _ _ _ (proj1 Hbw) Hsize). destruct Hsize as (_ & Hn & _).
  rewrite (ReadValues_ok bytes m (GetBitWidth m) Hb Hbw _ 0) by (try apply new_Decoder_ok; done || lia).
  apply list_fmap_ext. intros i x _. rewrite Z.add_0_l. apply reduced_mod; [done|].
  apply Z.mod_pos_bound. lia.
Qed.

Lemma fields_packed bw es n :
  1 ≤ bw → Forall (fits bw) es → n = length es →
  (λ i, field bw (packed_bytes bw es) i) <$> seq 0 n = es.
Proof.
  intros Hbw Hes ->. apply list_eq. intros i. rewrite list_lookup_fmap.
  destruct (es !! i) as [e|] eqn:He.
  - rewrite lookup_seq_lt by (by eapply lookup_lt_Some). simpl. f_equal. unfold field.
    rewrite value_packed_bytes by done. by apply packed_element.
  - by rewrite lookup_seq_ge by (by apply lookup_ge_None).
Qed.

Lemma packed_right_size bw es :
  1 ≤ bw → Z.of_nat (length es) * bw < 2 ^ 31 →
  right_size bw (Z.of_nat (length es)) (packed_bytes bw es).
Proof.
  intros Hbw Hlt. destruct (DivideRoundUp_bytes (Z.of_nat (length es)) bw) as [_ ?]; [lia..|].
  unfold right_size, packed_bytes. rewrite length_le_bytes. assert (0 ≤ Z.of_nat (length es) * bw) by nia. lia.
Qed.

Definition in_modulus (m e : Z) : Prop := 0 ≤ e < m.

Lemma in_modulus_fits m es :
  valid_modulus m = true → Forall (in_modulus m) es → Forall (fits (GetBitWidth m)) es.
Proof.
  intros Hm Hes. destruct (GetBitWidth_bounds m Hm) as (_ & ? & _).
  eapply Forall_impl; [done|]. unfold in_modulus, fits. lia.
Qed.

(** The vector that holds [es]. *)
Definition vector_of (es : list Z) (m : Z) (branchless : bool) : SecAggVector :=
  {| packed_bytes_ := packed_bytes (GetBitWidth m) es; modulus_ := m; bit_width_ := GetBitWidth m;
     num_elements_ := Z.of_nat (length es); branchless_codec_ := branchless |}.

Lemma in_modulus_forallb m es :
  forallb (λ e, (0 <=? e) && (e <? m)) es = true ↔ Forall (in_modulus m) es.
Proof.
  rewrite forallb_forall, Forall_forall. unfold in_modulus.
  setoid_rewrite list_elem_of_In. split; intros H x Hx; specialize (H x Hx); lia.
Qed.

Lemma SecAggVector_of_span_ok es m branchless :
  valid_modulus m = true → Forall (in_modulus m) es →
  Z.of_nat (length es) * GetBitWidth m < 2 ^ 31 →
  SecAggVector_of_span es m branchless = Ok (vector_of es m branchless).
Proof.
  intros Hm Hes Hlt. destruct (GetBitWidth_bounds m Hm) as (Hbw & _).
  pose proof (in_modulus_fits m es Hm Hes). unfold SecAggVector_of_span.
  rewrite Hm, (proj2 (in_modulus_forallb m es) Hes). cbn [fcp_check]. destruct branchless.
  - by rewrite PackUint64IntoByteStringBranchless_ok.
  - simpl. by rewrite PackUint64IntoByteString_ok.
Qed.

(** ** Decoded elements and modular addition *)

(** The elements of a packed vector, as [Decoder] reads them. *)
Definition decoded (v : SecAggVector) : list Z :=
  ReadValues (Z.to_nat (num_elements_ v)) (new_Decoder (packed_bytes_ v) (modulus_ v)).

(** The invariant of a vector that holds a value. *)
Record vector_ok (v : SecAggVector) : Prop := {
  vok_modulus : valid_modulus (modulus_ v) = true;
  vok_bw : bit_width_ v = GetBitWidth (modulus_ v);
  vok_bytes : Forall is_byte (packed_bytes_ v);
  vok_size : right_size (GetBitWidth (modulus_ v)) (num_elements_ v) (packed_bytes_ v)
}.

Record unpacked_ok (u : SecAggUnpackedVector) : Prop := {
  uok_modulus : valid_modulus (uv_modulus u) = true;
  uok_elements : Forall (in_modulus (uv_modulus u)) (elements u)
}.

Lemma vector_of_ok es m branchless :
  valid_modulus m = true → Forall (in_modulus m) es →
  Z.of_nat (length es) * GetBitWidth m < 2 ^ 31 → vector_ok (vector_of es m branchless).
Proof.
  intros Hm Hes Hlt. destruct (GetBitWidth_bounds m Hm) as (Hbw & _).
  split; simpl; [done|done|apply le_bytes_bytes|apply packed_right_size; lia].
Qed.

Lemma decoded_ok v :
  vector_ok v → Forall (in_modulus (modulus_ v)) (decoded v) ∧
                Z.of_nat (length (decoded v)) = num_elements_ v.
Proof.
  intros [Hm Hbw Hb Hs]. destruct (GetBitWidth_bounds _ Hm) as (? & ? & ?).
  unfold decoded. rewrite decode_fields by done. rewrite length_fmap, length_seq.
  split; [|destruct Hs; lia]. apply Forall_fmap, Forall_true. intros i. apply Z.mod_pos_bound. lia.
Qed.

Lemma decoded_vector_of es m branchless :
  valid_modulus m = true → Forall (in_modulus m) es →
  Z.of_nat (length es) * GetBitWidth m < 2 ^ 31 → decoded (vector_of es m branchless) = es.
Proof.
  intros Hm Hes Hlt. destruct (GetBitWidth_bounds m Hm) as (Hbw & _).
  pose proof (in_modulus_fits m es Hm Hes) as Hfits. unfold decoded. simpl.
  rewrite decode_fields by (done || apply le_bytes_bytes || by apply packed_right_size; lia).
  rewrite (list_fmap_compose (field (GetBitWidth m) (packed_bytes (GetBitWidth m) es)) (λ x, x mod m)).
  rewrite fields_packed by (done || lia). etransitivity; [|apply list_fmap_id].
  apply list_fmap_ext. intros i x Hx. apply Z.mod_small. by eapply Forall_lookup_1 in Hes.
Qed.

(** Element-wise sum modulo [m]. *)
Definition add_mod_list (m : Z) (xs ys : list Z) : list Z := zip_with (λ x y, (x + y) mod m) xs ys.

Lemma AddModOpt_list m xs ys :
  1 < m ≤ 2 ^ 62 → Forall (in_modulus m) xs → Forall (in_modulus m) ys →
  zip_with (λ x y, AddModOpt x y m) xs ys = add_mod_list m xs ys.
Proof.
  intros Hm Hx. revert ys. induction Hx as [|x xs Hx Hxs IH]; intros ys Hy; [done|].
  destruct Hy as [|y ys Hy Hys]; [done|]. unfold in_modulus in *. unfold add_mod_list. simpl.
  rewrite AddModOpt_mod by lia. f_equal. by apply IH.
Qed.

Lemma add_mod_list_in_modulus m xs ys : 0 < m → Forall (in_modulus m) (add_mod_list m xs ys).
Proof.
  intros Hm. revert ys. induction xs as [|x xs IH]; intros [|y ys]; constructor; [|apply IH].
  by apply Z.mod_pos_bound.
Qed.

Lemma SecAggUnpackedVector_Add_ok u v :
  unpacked_ok u → vector_ok v →
  if (Z.of_nat (length (elements u)) =? num_elements_ v) && (uv_modulus u =? modulus_ v) then
    ∃ u', SecAggUnpackedVector_Add u v = Ok u' ∧ unpacked_ok u' ∧
      uv_modulus u' = uv_modulus u ∧
      elements u' = add_mod_list (uv_modulus u) (elements u) (decoded v)
  else SecAggUnpackedVector_Add u v = Crash.
Proof.
  intros [Hm He] Hv. destruct (GetBitWidth_bounds _ Hm) as (_ & _ & ?).
  unfold SecAggUnpackedVector_Add.
  destruct (Z.eqb_spec (Z.of_nat (length (elements u))) (num_elements_ v)) as [Hl|]; [|done].
  destruct (Z.eqb_spec (uv_modulus u) (modulus_ v)) as [Hmm|]; [|done]. simpl.
  eexists. split; [done|]. simpl. destruct (decoded_ok v Hv) as [Hd _].
  replace (length (elements u)) with (Z.to_nat (num_elements_ v)) by lia. fold (decoded v).
  rewrite AddModOpt_list by (done || by rewrite Hmm). split_and!; [|done..].
  split; [done|]. apply add_mod_list_in_modulus. lia.
Qed.

(** ** Maps of vectors *)

Lemma for_each_entry_ok {A B} (body : string → A → Res B) entries result :
  (∀ name x, entries !! name = Some x → ∃ y, body name x = Ok y) →
  ∃ result', for_each_entry body entries result = Ok result' ∧
    ∀ name, match entries !! name with
            | Some x => ∃ y, body name x = Ok y ∧ result' !! name = Some y
            | None => result' !! name = result !! name
            end.
Proof.
  intros Hok. unfold for_each_entry.
  induction entries as [|k x entries Hk Hfirst IH] using map_first_key_ind.
  { rewrite map_to_list_empty. eexists. split; [done|]. intros name. by rewrite lookup_empty. }
  rewrite map_to_list_insert_first_key by done. simpl.
  destruct IH as (r & -> & Hr).
  { intros name y Hy. apply Hok. rewrite lookup_insert_ne; [done|]. by intros ->; rewrite Hk in Hy. }
  simpl. destruct (Hok k x) as [y Hy]; [by rewrite lookup_insert_eq|]. rewrite Hy. simpl.
  eexists. split; [done|]. intros name. destruct (decide (k = name)) as [<-|Hne].
  - rewrite !lookup_insert_eq. eauto.
  - rewrite !lookup_insert_ne by done. apply Hr.
Qed.

(** ** Properties *)

(** C34: elements packed by either codec are read back unchanged, and the two
    codecs, by index and branchless, produce the same bytes. *)
Theorem SecAggVector_roundtrip es m :
  valid_modulus m = true → Forall (in_modulus m) es →
  Z.of_nat (length es) * GetBitWidth m < 2 ^ 31 →
  ∃ v w, SecAggVector_of_span es m false = Ok v ∧ SecAggVector_of_span es m true = Ok w ∧
    packed_bytes_ v = packed_bytes_ w ∧
    GetAsUint64Vector v = Ok es ∧ GetAsUint64Vector w = Ok es.
Proof.
  intros Hm Hes Hlt. destruct (GetBitWidth_bounds m Hm) as (Hbw & ? & ?).
  pose proof (in_modulus_fits m es Hm Hes) as Hfits.
  eexists _, _. split_and!; [by apply SecAggVector_of_span_ok..|done| |].
  - unfold GetAsUint64Vector, CheckHasValue. simpl. rewrite (proj2 (Z.ltb_lt _ _)) by lia.
    cbn [fcp_check]. f_equal. rewrite Nat2Z.id.
    etransitivity; [|apply (fields_packed (GetBitWidth m) es (length es)); done || lia].
    apply list_fmap_ext. intros i x _.
    rewrite UnpackUint64FromByteStringAt_ok by (done || apply le_bytes_bytes || lia). done.
  - unfold GetAsUint64Vector, CheckHasValue. simpl. rewrite (proj2 (Z.ltb_lt _ _)) by lia.
    cbn [fcp_check]. f_equal. by apply (decoded_vector_of es m true).
Qed.

(** The constructor stops the program exactly when the modulus is not in
    [2 .. kMaxModulus] or an element is not below it. *)
Lemma SecAggVector_of_span_checks es m branchless :
  Z.of_nat (length es) * GetBitWidth m < 2 ^ 31 →
  (SecAggVector_of_span es m branchless = Crash ↔
     ¬ (1 < m ≤ kMaxModulus ∧ Forall (in_modulus m) es)) ∧
  (∀ code msg, SecAggVector_of_span es m branchless ≠ Error code msg).
Proof.
  intros Hlt. destruct (valid_modulus m) eqn:Hm; [destruct (decide (Forall (in_modulus m) es)) as [Hes|Hes]|].
  - rewrite SecAggVector_of_span_ok by done. split; [|done]. split; [done|]. intros Hn. destruct Hn.
    split; [|done]. unfold valid_modulus in Hm. lia.
  - unfold SecAggVector_of_span. rewrite Hm. simpl.
    assert (forallb (λ e, (0 <=? e) && (e <? m)) es = false) as ->
      by (apply not_true_iff_false; by rewrite in_modulus_forallb).
    simpl. split; [|done]. split; [|done]. by intros _ [_ ?].
  - unfold SecAggVector_of_span. rewrite Hm. split; [|done]. split; [|done].
    intros _ [? _]. unfold valid_modulus in Hm. lia.
Qed.

(** A vector built from a string that comes from another party, with the
    right length and otherwise arbitrary, is read by the branchless decoder as
    elements below the modulus, each congruent to the element that the codec by
    index reads, which is itself only bounded by [2 ^ bit_width]. *)
Lemma Decoder_reads_in_modulus bytes m n branchless v :
  SecAggVector_of_bytes bytes m n branchless = Ok v → Forall is_byte bytes →
  0 ≤ n → n * GetBitWidth m < 2 ^ 31 →
  let branchless_elements := UnpackByteStringToUint64VectorBranchless v in
  let indexed_elements :=
    (λ i, UnpackUint64FromByteStringAt (Z.of_nat i) (bit_width_ v) (packed_bytes_ v))
      <$> seq 0 (Z.to_nat n) in
  Forall (in_modulus m) branchless_elements ∧ Forall (fits (GetBitWidth m)) indexed_elements ∧
  branchless_elements = (λ x, x mod m) <$> indexed_elements.
Proof.
  intros Hv Hb Hn Hlt. unfold SecAggVector_of_bytes in Hv.
  rewrite !fcp_check_ok in Hv. destruct Hv as (Hm & Hl & [= <-]). cbv zeta. simpl.
  destruct (GetBitWidth_bounds m Hm) as (Hbw & ? & ?).
  destruct (DivideRoundUp_bytes n (GetBitWidth m)) as [Hd _]; [lia..|]. rewrite Hd in Hl.
  unfold UnpackByteStringToUint64VectorBranchless. simpl.
  rewrite decode_fields by (done || split; lia).
  assert (Hf : (λ i, UnpackUint64FromByteStringAt (Z.of_nat i) (GetBitWidth m) bytes) <$>
    seq 0 (Z.to_nat n) = field (GetBitWidth m) bytes <$> seq 0 (Z.to_nat n)).
  { apply list_fmap_ext. intros i x _. rewrite UnpackUint64FromByteStringAt_ok by (done || lia). done. }
  rewrite Hf. split_and!.
  - apply Forall_fmap, Forall_true. intros i. apply Z.mod_pos_bound. lia.
  - apply Forall_fmap, Forall_true. intros i. apply Z.mod_pos_bound. lia.
  - by rewrite <- list_fmap_compose.
Qed.

(** [SecAggUnpackedVector::Add] adds the elements modulo the common modulus
    and keeps the vector well formed; it stops the program when lengths or
    moduli differ. *)
Lemma SecAggUnpackedVector_Add_correct u v :
  unpacked_ok u → vector_ok v →
  if (Z.of_nat (length (elements u)) =? num_elements_ v) && (uv_modulus u =? modulus_ v) then
    ∃ u', SecAggUnpackedVector_Add u v = Ok u' ∧ unpacked_ok u' ∧
      uv_modulus u' = uv_modulus u ∧
      elements u' = add_mod_list (uv_modulus u) (elements u) (decoded v)
  else SecAggUnpackedVector_Add u v = Crash.
Proof. apply SecAggUnpackedVector_Add_ok. Qed.

(** [SecAggUnpackedVectorMap::Add] adds, name by name, a map of packed
    vectors of the same shape. *)
Lemma SecAggUnpackedVectorMap_Add_correct this other :
  size this = size other →
  (∀ name u, this !! name = Some u → unpacked_ok u ∧
     ∃ v, other !! name = Some v ∧ vector_ok v ∧
       Z.of_nat (length (elements u)) = num_elements_ v ∧ uv_modulus u = modulus_ v) →
  ∃ sum, SecAggUnpackedVectorMap_Add this other = Ok sum ∧
    ∀ name, match this !! name, other !! name with
            | Some u, Some v => ∃ u', sum !! name = Some u' ∧ unpacked_ok u' ∧
                uv_modulus u' = uv_modulus u ∧
                elements u' = add_mod_list (uv_modulus u) (elements u) (decoded v)
            | _, _ => sum !! name = None
            end.
Proof.
  intros Hsize Hok. unfold SecAggUnpackedVectorMap_Add. rewrite bool_decide_true by done. simpl.
  assert (Hbody : ∀ name u, this !! name = Some u → ∃ v u', other !! name = Some v ∧
    SecAggUnpackedVector_Add u v = Ok u' ∧ unpacked_ok u' ∧ uv_modulus u' = uv_modulus u ∧
    elements u' = add_mod_list (uv_modulus u) (elements u) (decoded v)).
  { intros name u Hu. destruct (Hok name u Hu) as (Huok & v & Hv & Hvok & Hl & Hm).
    assert (H := SecAggUnpackedVector_Add_ok u v Huok Hvok).
    rewrite (proj2 (Z.eqb_eq _ _) Hl), (proj2 (Z.eqb_eq _ _) Hm) in H. destruct H as (u' & ?).
    exists v, u'. by split. }
  edestruct (for_each_entry_ok (λ name vector, match other !! name with
    | None => Crash | Some it => SecAggUnpackedVector_Add vector it end) this this)
    as (sum & Hsum & Hlook).
  { intros name u Hu. destruct (Hbody name u Hu) as (v & u' & -> & ? & _). eauto. }
  exists sum. split; [done|]. intros name. specialize (Hlook name).
  destruct (this !! name) as [u|] eqn:Hu; [|done].
  destruct (Hbody name u Hu) as (v & u' & Hv & Hadd & ?). rewrite Hv in *.
  destruct Hlook as (y & Hy & Hs). rewrite Hadd in Hy. injection Hy as <-. eauto.
Qed.
