(* ===== verification/Prng.v ===== *)
(** * Keys, generators and session identifiers

    Models [shared/key.h], [shared/aes_key.{h,cc}], [shared/ecdh_keys.h],
    [shared/aes_ctr_prng.{h,cc}], [shared/async_abort.h],
    [shared/input_vector_specification.{h,cc}] and
    [shared/compute_session_id.cc].

    OpenSSL is outside the repository: the key stream of AES-256 in counter
    mode with a zero IV and SHA-256 are parameters. *)

From S2P Require Import Prelude Bytes Math Shamir SecAggVector.

(** ** Keys *)

(** A [Key] is its string; the empty one means that the key is absent. *)
Abbreviation Key := (list Z) (only parsing).

Definition AesKey_kSize : Z := 32.
Definition kLegacyKeySize : Z := 17.

(** The constructor of [AesKey] from data of the given size. *)
Definition new_AesKey (data : list Z) : Res Key :=
  let key_size := Z.of_nat (length data) in
  FCP_CHECK ((0 <? key_size) && (key_size <=? 17)) || (key_size =? 32) ;; Ok data.

Inductive Format := kCompressed | kUncompressed.

Definition EcdhPublicKey_kSize : Z := 33.
Definition EcdhPublicKey_kUncompressedSize : Z := 65.
Definition EcdhPrivateKey_kSize : Z := 32.

(** Both constructors take a pointer and copy a fixed number of bytes. *)
Definition new_EcdhPublicKey (data : list Z) (format : Format) : Key :=
  take (Z.to_nat (match format with
                  | kCompressed => EcdhPublicKey_kSize
                  | kUncompressed => EcdhPublicKey_kUncompressedSize
                  end)) data.
Definition new_EcdhPrivateKey (data : list Z) : Key := take (Z.to_nat EcdhPrivateKey_kSize) data.

(** The loop that looks for the size of the shared key. *)
Fixpoint share_key_length (shares : list (list Z)) : Res Z :=
  match shares with
  | [] => Ok 0
  | data :: rest =>
      if bool_decide (length data = 36%nat) then Ok AesKey_kSize
      else if bool_decide (length data = 20%nat) then Ok kLegacyKeySize
      else FCP_CHECK bool_decide (data = []) ;; share_key_length rest
  end.

(** Number of leading zero bytes to drop: [index] after the [while] loop,
    which stops at [kLegacyKeySize - 1 - index] remaining positions. *)
Fixpoint legacy_index (remaining : nat) (reconstructed : list Z) : nat :=
  match remaining, reconstructed with
  | S remaining, b0 :: ((b1 :: _) as rest) =>
      if (u8 b0 =? 0) && (u8 b1 <=? 127) then S (legacy_index remaining rest) else O
  | _, _ => O
  end.

Definition CreateFromShares (shares : list (list Z)) (threshold : Z) : Res Key :=
  key_length ← share_key_length shares;
  FCP_CHECK negb (key_length =? 0) ;;
  '(reconstructed, _) ← Reconstruct new_ShamirSecretSharing threshold shares key_length;
  if key_length =? kLegacyKeySize then
    let index := legacy_index (Z.to_nat (kLegacyKeySize - 1)) reconstructed in
    new_AesKey (drop index reconstructed)
  else new_AesKey reconstructed.

(** ** Input specifications *)

Record InputVectorSpecification := { ivs_name : string; ivs_length : Z; ivs_modulus : Z }.

Definition new_InputVectorSpecification (name : string) (length modulus : Z) :
    Res InputVectorSpecification :=
  FCP_CHECK 0 <=? length ;;
  FCP_CHECK (1 <? modulus) && (modulus <=? kMaxModulus) ;;
  Ok {| ivs_name := name; ivs_length := length; ivs_modulus := modulus |}.

(** ** Asynchronous aborts *)

(** The computation polls [Signalled]; another thread may raise the signal at
    any moment, and never lowers it. [None] means that it is not raised during
    the computation (or that there is no [AsyncAbort]), [Some n] that it is
    raised after [n] more polls. *)
Definition AsyncAbort := option nat.

Definition Signalled (async_abort : AsyncAbort) : bool * AsyncAbort :=
  match async_abort with
  | None => (false, None)
  | Some O => (true, Some O)
  | Some (S n) => (false, Some n)
  end.

(** ** Session identifiers *)

(** The bytes of a [std::string]. *)
Definition bytes_of_string (s : string) : list Z :=
  (λ a, Z.of_nat (Ascii.nat_of_ascii a)) <$> String.list_ascii_of_string s.

Record PairOfPublicKeys := { noise_pk : list Z; enc_pk : list Z }.

(** What one pair of keys adds to the digest. *)
Definition session_id_block (keys : PairOfPublicKeys) : list Z :=
  let noise_pk_size := Z.of_nat (length (noise_pk keys)) in
  let noise_pk_size_data := IntToByteString noise_pk_size in
  let enc_pk_size_data := IntToByteString noise_pk_size in
  noise_pk_size_data ++ noise_pk keys ++ enc_pk_size_data ++ enc_pk keys.

Definition session_id_input (pairs_of_public_keys : list PairOfPublicKeys) : list Z :=
  pairs_of_public_keys ≫= session_id_block.

Definition kSha256Length : nat := 32.

Section crypto.
(** [sha256 m] is the digest; [keystream key i] is byte [i] of the stream
    that encrypting zeroes produces. *)
Context (sha256 : list Z → list Z) (keystream : list Z → Z → Z).

Definition ComputeSessionId (pairs_of_public_keys : list PairOfPublicKeys) : Res (list Z) :=
  let digest := sha256 (session_id_input pairs_of_public_keys) in
  FCP_CHECK bool_decide (length digest = kSha256Length) ;; Ok digest.

(** ** [AesCtrPrng] *)

Definition kBatchSize : Z := 3 * 5 * 7.
Definition kBlockSize : Z := 16.
Definition kCacheSize : Z := kBatchSize * kBlockSize.
Definition kMaxBlocks : Z := 2 ^ 32 - 1.

(** The cipher context is its key; its position in the stream is the number
    of blocks generated so far. *)
Record AesCtrPrng := {
  ctx_ : list Z;
  cache_ : list Z;
  next_byte_pos_ : Z;
  blocks_generated_ : Z
}.

Definition new_AesCtrPrng (seed : list Z) : AesCtrPrng :=
  {| ctx_ := seed; cache_ := replicate (Z.to_nat kCacheSize) 0; next_byte_pos_ := kCacheSize;
     blocks_generated_ := 0 |}.

Definition stream_bytes (seed : list Z) (from n : Z) : list Z := keystream seed <$> seqZ from n.

Definition GenerateBytes (p : AesCtrPrng) (cache_size : Z) : Res (list Z * AesCtrPrng) :=
  FCP_CHECK cache_size mod kBlockSize =? 0 ;;
  FCP_CHECK cache_size <=? kCacheSize ;;
  FCP_CHECK blocks_generated_ p <=? kMaxBlocks ;;
  Ok (stream_bytes (ctx_ p) (kBlockSize * blocks_generated_ p) cache_size,
      {| ctx_ := ctx_ p; cache_ := cache_ p; next_byte_pos_ := next_byte_pos_ p;
         blocks_generated_ := blocks_generated_ p + cache_size / kBlockSize |}).

Definition Rand8 (p : AesCtrPrng) : Res (Z * AesCtrPrng) :=
  p ← (if kCacheSize <=? next_byte_pos_ p then
         '(cache, p) ← GenerateBytes p kCacheSize;
         Ok {| ctx_ := ctx_ p; cache_ := cache; next_byte_pos_ := 0;
               blocks_generated_ := blocks_generated_ p |}
       else Ok p);
  Ok (byte_at (cache_ p) (next_byte_pos_ p),
      {| ctx_ := ctx_ p; cache_ := cache_ p; next_byte_pos_ := next_byte_pos_ p + 1;
         blocks_generated_ := blocks_generated_ p |}).

(** The loop of [Rand64] from byte [i] on. *)
Fixpoint Rand64_loop (n : nat) (i : Z) (output : Z) (p : AesCtrPrng) : Res (Z * AesCtrPrng) :=
  match n with
  | O => Ok (output, p)
  | S n =>
      '(b, p) ← Rand8 p;
      Rand64_loop n (i + 1) (Z.lor output (u64 (Z.shiftl b (8 * i)))) p
  end.

Definition Rand64 (p : AesCtrPrng) : Res (Z * AesCtrPrng) := Rand64_loop 8 0 0 p.

(** The bytes written to the buffer; their number is the value returned. *)
Definition RandBuffer (p : AesCtrPrng) (buffer_size : Z) : Res (list Z * AesCtrPrng) :=
  let buffer_size := Z.min buffer_size kCacheSize in
  GenerateBytes p buffer_size.
End crypto.
