(* ===== verification/MapOfMasks.v ===== *)
(** * [shared/map_of_masks.{h,cc}]: pseudo-random masks

    The masks of a vector are drawn from one generator per key, whose seed is a
    digest of the key and of the specification of the vector. For a power of
    two the bits of the generator are the mask; for another modulus it is
    obtained by rejection sampling. *)

From S2P Require Import Prelude Bytes Math SecAggVector Prng.

Definition kPrngSeedConstant : Z := 2.
Definition kMaxSampleBits : Z := 63.
Definition kMaxSampleBitsExpansion : Z := 16.

(** ** Choosing the number of bits of a sample *)

Definition choose_better_sample_bits (modulus sample_bits_1 sample_bits_2 : Z) : Res Z :=
  FCP_CHECK sample_bits_1 <=? sample_bits_2 ;;
  FCP_CHECK sample_bits_2 <=? kMaxSampleBits ;;
  FCP_CHECK sample_bits_2 - sample_bits_1 <=? kMaxSampleBitsExpansion ;;
  let sample_modulus_1 := u64 (Z.shiftl 1 sample_bits_1) in
  FCP_CHECK modulus <=? sample_modulus_1 ;;
  if sample_bits_1 =? sample_bits_2 then Ok sample_bits_1
  else
    let sample_modulus_2 := u64 (Z.shiftl 1 sample_bits_2) in
    let sample_modulus_2_over_1 := u64 (Z.shiftl 1 (sample_bits_2 - sample_bits_1)) in
    let cost_per_sample_1 := DivideRoundUp sample_bits_1 8 in
    let cost_per_sample_2 := DivideRoundUp sample_bits_2 8 in
    let modulus_reps_1 := sample_modulus_1 / modulus in
    let modulus_reps_2 := sample_modulus_2 / modulus in
    let cost_product_1 := u64 (cost_per_sample_1 * modulus_reps_1) in
    let cost_product_2 :=
      u64 (u64 (cost_per_sample_2 * modulus_reps_2) * sample_modulus_2_over_1) in
    Ok (if cost_product_2 <? cost_product_1 then sample_bits_2 else sample_bits_1).

(** The loop over [sample_bits], [n] iterations from [sample_bits] on. *)
Fixpoint best_sample_bits_loop (n : nat) (modulus best_sample_bits sample_bits : Z) : Res Z :=
  match n with
  | O => Ok best_sample_bits
  | S n =>
      best ← choose_better_sample_bits modulus best_sample_bits sample_bits;
      best_sample_bits_loop n modulus best (sample_bits + 1)
  end.

Definition compute_best_sample_bits (modulus : Z) : Res Z :=
  let min_sample_bits := GetBitWidth modulus in
  let max_sample_bits := Z.min kMaxSampleBitsExpansion (min_sample_bits + kMaxSampleBitsExpansion) in
  best_sample_bits_loop (Z.to_nat (max_sample_bits - min_sample_bits)) modulus min_sample_bits
    (min_sample_bits + 1).

Section masks.
Context (sha256 : list Z → list Z) (keystream : list Z → Z → Z).

Definition DigestKey (prng_input : list Z) (bit_width : Z) (prng_key : list Z) : Res (list Z) :=
  let input_size_data := IntToByteString (Z.of_nat (length prng_input)) in
  let bit_width_data := IntToByteString bit_width in
  let digest := sha256 (bit_width_data ++ prng_key ++ [kPrngSeedConstant] ++ input_size_data
                          ++ prng_input) in
  FCP_CHECK bool_decide (Z.of_nat (length digest) = AesKey_kSize) ;;
  new_AesKey digest.

(** ** [PrngBuffer] *)

Record PrngBuffer := {
  prng_ : AesCtrPrng;
  msb_mask_ : Z;
  bytes_per_output_ : Z;
  buffer_ : list Z;
  buffer_ptr_ : Z
}.

Definition FillBuffer (b : PrngBuffer) : Res PrngBuffer :=
  let buffer_size := Z.of_nat (length (buffer_ b)) in
  '(bytes, prng) ← RandBuffer keystream (prng_ b) buffer_size;
  FCP_CHECK Z.of_nat (length bytes) =? buffer_size ;;
  Ok {| prng_ := prng; msb_mask_ := msb_mask_ b; bytes_per_output_ := bytes_per_output_ b;
        buffer_ := bytes; buffer_ptr_ := 0 |}.

(** [GetMaxBufferSize] of [AesCtrPrng] is [kCacheSize]. *)
Definition new_PrngBuffer (prng : AesCtrPrng) (msb_mask bytes_per_output : Z) : Res PrngBuffer :=
  FCP_CHECK kCacheSize mod bytes_per_output =? 0 ;;
  FillBuffer {| prng_ := prng; msb_mask_ := msb_mask; bytes_per_output_ := bytes_per_output;
                buffer_ := replicate (Z.to_nat kCacheSize) 0; buffer_ptr_ := 0 |}.

Definition NextMask (b : PrngBuffer) : Res (Z * PrngBuffer) :=
  b ← (if buffer_ptr_ b =? Z.of_nat (length (buffer_ b)) then FillBuffer b else Ok b);
  let first := Z.land (byte_at (buffer_ b) (buffer_ptr_ b)) (msb_mask_ b) in
  let output := foldl (λ output i, Z.lor (u64 (Z.shiftl output 8))
                                     (byte_at (buffer_ b) (buffer_ptr_ b + i)))
                  first (seqZ 1 (bytes_per_output_ b - 1)) in
  Ok (output, {| prng_ := prng_ b; msb_mask_ := msb_mask_ b;
                 bytes_per_output_ := bytes_per_output_ b; buffer_ := buffer_ b;
                 buffer_ptr_ := buffer_ptr_ b + bytes_per_output_ b |}).

(** ** Adding the mask of one key *)

(** The class parameter [TAdapter], applied to one of its two operations. *)
Abbreviation ModOp := (Z → Z → Z → Z) (only parsing).

(** [for (auto& v : mask_vector_buffer) v = op(v, prng.NextMask(), modulus)]. *)
Fixpoint mask_loop_pow2 (op : ModOp) (modulus : Z) (buffer : list Z) (prng : PrngBuffer) :
    Res (list Z) :=
  match buffer with
  | [] => Ok []
  | v :: rest =>
      '(mask, prng) ← NextMask prng;
      rest ← mask_loop_pow2 op modulus rest prng;
      Ok (op v mask modulus :: rest)
  end.

(** The [while (i < length)] loop of the rejection sampling. The generator
    stops the program after [kMaxBlocks] blocks, hence the loop after a
    bounded number of samples, which [fuel] stands for. *)
Fixpoint mask_loop_reject (fuel : nat) (op : ModOp) (modulus rejection_threshold : Z)
    (i length : Z) (buffer : list Z) (prng : PrngBuffer) : Res (list Z) :=
  if i <? length then
    match fuel with
    | O => Crash
    | S fuel =>
        '(mask, prng) ← NextMask prng;
        let reject := mask <? rejection_threshold in
        let inc := if reject then 0 else 1 in
        let mask := if reject then 0 else mask in
        let buffer := alter (λ v, op v (mask mod modulus) modulus) (Z.to_nat i) buffer in
        mask_loop_reject fuel op modulus rejection_threshold (i + inc) length buffer prng
    end
  else Ok buffer.

(** How the masks of a vector are drawn: the parameters that the two branches
    compute from the modulus. *)
Record Sampling := {
  sample_bits : Z;
  bytes_per_output : Z;
  msb_mask : Z;
  rejection : option Z  (** the threshold, unless the modulus is a power of two *)
}.

Definition modulus_is_power_of_two (modulus : Z) : bool :=
  u64 (Z.shiftl 1 (GetBitWidth modulus)) =? modulus.

Definition sampling_of (modulus : Z) : Res Sampling :=
  sample_bits ← (if modulus_is_power_of_two modulus then Ok (GetBitWidth modulus)
                 else compute_best_sample_bits modulus);
  let bytes_per_output := DivideRoundUp sample_bits 8 in
  let bits_in_msb := sample_bits - (bytes_per_output - 1) * 8 in
  let msb_mask := u8 (Z.shiftl 1 bits_in_msb - 1) in
  Ok {| sample_bits := sample_bits; bytes_per_output := bytes_per_output; msb_mask := msb_mask;
        rejection :=
          if modulus_is_power_of_two modulus then None
          else Some (u64 (u64 (Z.shiftl 1 sample_bits) - modulus) mod modulus) |}.

(** The body of the loops over [prng_keys_to_add] and
    [prng_keys_to_subtract], without the poll. *)
Definition apply_key (fuel : nat) (op : ModOp) (spec : InputVectorSpecification) (s : Sampling)
    (prng_input : list Z) (buffer : list Z) (prng_key : list Z) : Res (list Z) :=
  digest_key ← DigestKey prng_input (sample_bits s) prng_key;
  prng ← new_PrngBuffer (new_AesCtrPrng digest_key) (msb_mask s) (bytes_per_output s);
  match rejection s with
  | None => mask_loop_pow2 op (ivs_modulus spec) buffer prng
  | Some threshold =>
      mask_loop_reject fuel op (ivs_modulus spec) threshold 0 (ivs_length spec) buffer prng
  end.

(** A loop over keys: [None] if the signal was seen. *)
Fixpoint apply_keys (fuel : nat) (op : ModOp) (spec : InputVectorSpecification) (s : Sampling)
    (prng_input : list Z) (prng_keys : list (list Z)) (buffer : list Z) (abort : AsyncAbort) :
    Res (option (list Z) * AsyncAbort) :=
  match prng_keys with
  | [] => Ok (Some buffer, abort)
  | prng_key :: rest =>
      let '(signalled, abort) := Signalled abort in
      if signalled then Ok (None, abort)
      else
        buffer ← apply_key fuel op spec s prng_input buffer prng_key;
        apply_keys fuel op spec s prng_input rest buffer abort
  end.

Record Adapter := { AddModImpl : ModOp; SubtractModImpl : ModOp }.
Definition AddModAdapter : Adapter := {| AddModImpl := AddMod; SubtractModImpl := SubtractMod |}.
Definition AddModOptAdapter : Adapter :=
  {| AddModImpl := AddModOpt; SubtractModImpl := SubtractModOpt |}.

Definition prng_input_of (session_id : list Z) (spec : InputVectorSpecification) : list Z :=
  session_id ++ IntToByteString (GetBitWidth (ivs_modulus spec))
    ++ IntToByteString (ivs_length spec) ++ bytes_of_string (ivs_name spec).

(** One iteration of the loop over the specifications. *)
Definition mask_vector (fuel : nat) (adapter : Adapter) (to_add to_subtract : list (list Z))
    (session_id : list Z) (spec : InputVectorSpecification) (abort : AsyncAbort) :
    Res (option (list Z) * AsyncAbort) :=
  let '(signalled, abort) := Signalled abort in
  if signalled then Ok (None, abort)
  else
    let prng_input := prng_input_of session_id spec in
    let buffer := replicate (Z.to_nat (ivs_length spec)) 0 in
    s ← sampling_of (ivs_modulus spec);
    '(added, abort) ←
      apply_keys fuel (AddModImpl adapter) spec s prng_input to_add buffer abort;
    match added with
    | None => Ok (None, abort)
    | Some buffer =>
        '(masked, abort) ←
          apply_keys fuel (SubtractModImpl adapter) spec s prng_input to_subtract buffer abort;
        match masked with
        | None => Ok (None, abort)
        | Some buffer =>
            let '(signalled, abort) := Signalled abort in
            Ok (if signalled then None else Some buffer, abort)
        end
    end.

(** The class parameter [TVector]: how a vector is built from its elements. *)
Class MaskVector (V : Type) := make_vector : list Z → Z → Res V.

#[global] Instance SecAggVector_MaskVector : MaskVector SecAggVector :=
  λ elements modulus, SecAggVector_of_span elements modulus false.
#[global] Instance SecAggUnpackedVector_MaskVector : MaskVector SecAggUnpackedVector :=
  λ elements modulus, Ok {| elements := elements; uv_modulus := modulus |}.

(** [emplace] keeps an entry that is already there. *)
Definition emplace {V} (name : string) (v : V) (m : gmap string V) : gmap string V :=
  match m !! name with Some _ => m | None => <[name := v]> m end.

Fixpoint MapOfMasksImpl {V} `{MaskVector V} (fuel : nat) (adapter : Adapter)
    (to_add to_subtract : list (list Z)) (specs : list InputVectorSpecification)
    (session_id : list Z) (abort : AsyncAbort) (map_of_masks : gmap string V) :
    Res (option (gmap string V)) :=
  match specs with
  | [] => Ok (Some map_of_masks)
  | spec :: rest =>
      '(mask, abort) ← mask_vector fuel adapter to_add to_subtract session_id spec abort;
      match mask with
      | None => Ok None
      | Some elements =>
          v ← make_vector elements (ivs_modulus spec);
          MapOfMasksImpl fuel adapter to_add to_subtract rest session_id abort
            (emplace (ivs_name spec) v map_of_masks)
      end
  end.

Definition MapOfMasks (fuel : nat) (to_add to_subtract : list (list Z))
    (specs : list InputVectorSpecification) (session_id : list Z) (abort : AsyncAbort) :
    Res (option SecAggVectorMap) :=
  MapOfMasksImpl fuel AddModAdapter to_add to_subtract specs session_id abort ∅.

Definition MapOfMasksV3 (fuel : nat) (to_add to_subtract : list (list Z))
    (specs : list InputVectorSpecification) (session_id : list Z) (abort : AsyncAbort) :
    Res (option SecAggVectorMap) :=
  MapOfMasksImpl fuel AddModOptAdapter to_add to_subtract specs session_id abort ∅.

Definition UnpackedMapOfMasks (fuel : nat) (to_add to_subtract : list (list Z))
    (specs : list InputVectorSpecification) (session_id : list Z) (abort : AsyncAbort) :
    Res (option SecAggUnpackedVectorMap) :=
  MapOfMasksImpl fuel AddModOptAdapter to_add to_subtract specs session_id abort ∅.
End masks.

(** ** Adding packed vectors *)

(** The loop over [remaining_elements]. *)
Fixpoint AddVectors_loop (remaining_elements : nat) (modulus : Z) (decoder_a decoder_b : Decoder)
    (sum_coder : Coder) : Coder :=
  match remaining_elements with
  | O => sum_coder
  | S n =>
      let '(x, decoder_a) := ReadValue decoder_a in
      let '(y, decoder_b) := ReadValue decoder_b in
      AddVectors_loop n modulus decoder_a decoder_b
        (WriteValue (u64 (x + y) mod modulus) sum_coder)
  end.

Definition AddVectors (a b : SecAggVector) : Res SecAggVector :=
  FCP_CHECK (modulus_ a =? modulus_ b) && (num_elements_ a =? num_elements_ b) ;;
  let modulus := modulus_ a in
  Coder_Create (AddVectors_loop (Z.to_nat (num_elements_ a)) modulus
    (new_Decoder (packed_bytes_ a) (modulus_ a)) (new_Decoder (packed_bytes_ b) (modulus_ b))
    (new_Coder modulus (bit_width_ a) (num_elements_ a))).

(** [b.at(name)] throws if the name is absent. *)
Definition AddMaps (a b : SecAggVectorMap) : Res SecAggVectorMap :=
  for_each_entry (λ name v,
    match b !! name with None => Crash | Some v' => AddVectors v v' end) a ∅.
