(* ===== verification/MasksCorrect.v ===== *)
(** * Correctness of the masks

    The buffered generator delivers consecutive samples of the key stream; a
    mask is the sum of the masks of the keys to add minus those of the keys to
    subtract, modulo the modulus; rejection sampling gives every residue the
    same number of accepted samples. *)

From S2P Require Import Prelude Bytes Math Interpolation SecAggVector SecAggCodec SecAggBranchless.
From S2P Require Import SecAggVectorCorrect Prng MapOfMasks.

(** ** The number of bits of a sample *)

Lemma choose_better_first modulus b1 b2 :
  1 < modulus → 1 ≤ b1 ≤ b2 → b2 ≤ 16 → modulus ≤ 2 ^ b1 →
  choose_better_sample_bits modulus b1 b2 = Ok b1.
Proof.
  intros Hm Hb Hb2 Hle. unfold choose_better_sample_bits, kMaxSampleBits, kMaxSampleBitsExpansion.
  assert (2 ^ b1 ≤ 2 ^ 16) by (apply Z.pow_le_mono_r; lia).
  assert (2 ^ b2 ≤ 2 ^ 16) by (apply Z.pow_le_mono_r; lia).
  assert (2 ^ b1 ≤ 2 ^ b2) by (apply Z.pow_le_mono_r; lia).
  assert (1 ≤ 2 ^ (b2 - b1) ≤ 2 ^ 16).
  { split; [change 1 with (2 ^ 0)|]; apply Z.pow_le_mono_r; lia. }
  rewrite !Z.shiftl_1_l, (u64_small (2 ^ b1)), (u64_small (2 ^ b2)), (u64_small (2 ^ (b2 - b1))) by lia.
  rewrite !(proj2 (Z.leb_le _ _)) by lia. cbn [fcp_check].
  destruct (Z.eqb_spec b1 b2); [done|]. f_equal.
  rewrite !DivideRoundUp_div by lia.
  assert (0 ≤ (b1 + 8 - 1) / 8 ≤ (b2 + 8 - 1) / 8).
  { split; [apply Z.div_pos; lia|apply Z.div_le_mono; lia]. }
  assert ((b2 + 8 - 1) / 8 ≤ 3) by (apply Z.div_le_upper_bound; lia).
  assert (0 ≤ 2 ^ b1 / modulus ≤ 2 ^ b2 / modulus).
  { split; [apply Z.div_pos; lia|apply Z.div_le_mono; lia]. }
  assert (2 ^ b2 / modulus ≤ 2 ^ 16) by (apply Z.div_le_upper_bound; nia).
  revert H H0 H1 H2 H3 H4 H5 H6. clear. generalize ((b1 + 8 - 1) / 8), ((b2 + 8 - 1) / 8).
  generalize (2 ^ b1 / modulus), (2 ^ b2 / modulus), (2 ^ (b2 - b1)).
  intros r1 r2 t c1 c2 _ _ _ Ht Hc Hc2 Hr Hr2.
  assert (0 ≤ c1 * r1 ≤ c2 * r2) by nia. assert (c2 * r2 ≤ 3 * 2 ^ 16) by nia.
  assert (c2 * r2 ≤ c2 * r2 * t ≤ 3 * 2 ^ 16 * 2 ^ 16) by nia.
  rewrite (u64_small (c1 * r1)), (u64_small (c2 * r2)), u64_small by lia.
  rewrite (proj2 (Z.ltb_ge _ _)); [done|lia].
Qed.

Lemma best_sample_bits_loop_first n : ∀ modulus best b,
  1 < modulus ≤ 2 ^ best → 1 ≤ best < b → b + Z.of_nat n ≤ 17 →
  best_sample_bits_loop n modulus best b = Ok best.
Proof.
  induction n as [|n IH]; intros modulus best b Hm Hb Hn; [done|]. cbn [best_sample_bits_loop].
  rewrite choose_better_first by lia. simpl. apply IH; lia.
Qed.

Lemma compute_best_sample_bits_min modulus :
  valid_modulus modulus = true → compute_best_sample_bits modulus = Ok (GetBitWidth modulus).
Proof.
  intros Hm. destruct (GetBitWidth_bounds _ Hm) as (? & ? & ?).
  unfold compute_best_sample_bits, kMaxSampleBitsExpansion.
  destruct (decide (GetBitWidth modulus < 16)); [|by rewrite (Z2Nat.nonpos (Z.min _ _ - _)) by lia].
  apply best_sample_bits_loop_first; lia.
Qed.

(** ** Samples of the key stream *)

Lemma foldl_ext_in {A B} (f g : A → B → A) l : ∀ a,
  (∀ a x, x ∈ l → f a x = g a x) → foldl f a l = foldl g a l.
Proof.
  induction l as [|x l IH]; intros a Hfg; [done|]. simpl.
  rewrite Hfg by apply list_elem_of_here. apply IH. intros. apply Hfg. by apply list_elem_of_further.
Qed.

Section masks.
Context (sha256 : list Z → list Z) (keystream : list Z → Z → Z).
Context (Hsha : ∀ x, length (sha256 x) = 32%nat) (Hks : ∀ seed i, is_byte (keystream seed i)).

(** Sample [j] of [bpo] bytes, the first one masked with [msb]. *)
Definition stream_sample (seed : list Z) (msb bpo j : Z) : Z :=
  foldl (λ output i, Z.lor (u64 (Z.shiftl output 8)) (keystream seed (j * bpo + i)))
    (Z.land (keystream seed (j * bpo)) msb) (seqZ 1 (bpo - 1)).

(** The buffer holds the [q]-th batch and its cursor is at sample [j]. *)
Record buffer_at (seed : list Z) (msb bpo j q : Z) (b : PrngBuffer) : Prop := {
  ba_ctx : ctx_ (prng_ b) = seed;
  ba_blocks : blocks_generated_ (prng_ b) = 105 * (q + 1);
  ba_msb : msb_mask_ b = msb;
  ba_bpo : bytes_per_output_ b = bpo;
  ba_buffer : buffer_ b = stream_bytes keystream seed (1680 * q) 1680;
  ba_q : 0 ≤ q;
  ba_ptr : 0 ≤ buffer_ptr_ b ≤ 1680;
  ba_pos : 1680 * q + buffer_ptr_ b = j * bpo
}.

Lemma length_stream_bytes seed from n : length (stream_bytes keystream seed from n) = Z.to_nat n.
Proof. unfold stream_bytes. by rewrite length_fmap, length_seqZ. Qed.

Lemma byte_at_stream seed from n k :
  0 ≤ k < n → byte_at (stream_bytes keystream seed from n) k = keystream seed (from + k).
Proof.
  intros Hk. unfold byte_at, stream_bytes. rewrite list_lookup_fmap.
  rewrite lookup_seqZ_lt by lia. simpl. f_equal. lia.
Qed.

Definition valid_bpo (bpo : Z) : Prop := 1 ≤ bpo ≤ 8.

Lemma cache_mod bpo : valid_bpo bpo → (bpo | 1680).
Proof.
  intros H. unfold valid_bpo in H.
  assert (bpo = 1 ∨ bpo = 2 ∨ bpo = 3 ∨ bpo = 4 ∨ bpo = 5 ∨ bpo = 6 ∨ bpo = 7 ∨ bpo = 8) by lia.
  destruct_or!; subst bpo;
    [exists 1680|exists 840|exists 560|exists 420|exists 336|exists 280|exists 240|exists 210]; done.
Qed.

Lemma FillBuffer_ok b :
  length (buffer_ b) = 1680%nat → 0 ≤ blocks_generated_ (prng_ b) ≤ kMaxBlocks →
  ∃ b', FillBuffer keystream b = Ok b' ∧ ctx_ (prng_ b') = ctx_ (prng_ b) ∧
    blocks_generated_ (prng_ b') = blocks_generated_ (prng_ b) + 105 ∧
    msb_mask_ b' = msb_mask_ b ∧ bytes_per_output_ b' = bytes_per_output_ b ∧
    buffer_ b' = stream_bytes keystream (ctx_ (prng_ b)) (16 * blocks_generated_ (prng_ b)) 1680 ∧
    buffer_ptr_ b' = 0.
Proof.
  intros Hl Hb. unfold FillBuffer, RandBuffer, GenerateBytes. rewrite Hl.
  change (Z.min (Z.of_nat 1680) kCacheSize) with 1680.
  change (1680 mod kBlockSize =? 0) with true. change (1680 <=? kCacheSize) with true.
  rewrite (proj2 (Z.leb_le (blocks_generated_ (prng_ b)) _)) by lia. cbn [fcp_check mbind Res_bind].
  rewrite length_stream_bytes. eexists. split; [done|]. simpl. done.
Qed.

Lemma new_PrngBuffer_ok seed msb bpo :
  valid_bpo bpo →
  ∃ b, new_PrngBuffer keystream (new_AesCtrPrng seed) msb bpo = Ok b ∧ buffer_at seed msb bpo 0 0 b.
Proof.
  intros Hbpo. unfold new_PrngBuffer. change kCacheSize with 1680.
  assert ((1680 mod bpo =? 0) = true) as ->.
  { apply Z.eqb_eq, Z.mod_divide; [unfold valid_bpo in Hbpo; lia|by apply cache_mod]. }
  cbn [fcp_check]. edestruct FillBuffer_ok as (b & -> & H1 & H2 & H3 & H4 & H5 & H6);
    [apply length_replicate|by vm_compute|]. simpl in *.
  exists b. split; [done|]. split; rewrite ?H1, ?H2, ?H3, ?H4, ?H5, ?H6; done || lia.
Qed.

Lemma NextMask_ok seed msb bpo j q b :
  valid_bpo bpo → 0 ≤ j → j * bpo ≤ 2 ^ 36 - 16 → buffer_at seed msb bpo j q b →
  ∃ b' q', NextMask keystream b = Ok (stream_sample seed msb bpo j, b') ∧
    buffer_at seed msb bpo (j + 1) q' b'.
Proof.
  intros Hbpo Hj Hmax Hb. pose proof (cache_mod bpo Hbpo) as [w Hw]. unfold valid_bpo in Hbpo.
  assert (Hfill : ∃ b0 q0, (if buffer_ptr_ b =? Z.of_nat (length (buffer_ b)) then FillBuffer keystream b
    else Ok b) = Ok b0 ∧ buffer_at seed msb bpo j q0 b0 ∧ buffer_ptr_ b0 < 1680).
  { destruct Hb as [Hctx Hblk Hmsb Hbp Hbuf Hq Hptr Hpos].
    rewrite Hbuf, length_stream_bytes. change (Z.of_nat (Z.to_nat 1680)) with 1680.
    destruct (Z.eqb_spec (buffer_ptr_ b) 1680) as [He|He].
    - destruct (FillBuffer_ok b) as (b0 & -> & H1 & H2 & H3 & H4 & H5 & H6).
      + by rewrite Hbuf, length_stream_bytes.
      + unfold kMaxBlocks. lia.
      + exists b0, (q + 1). split; [done|]. rewrite H6. split; [|lia].
        split; rewrite ?H1, ?H2, ?H3, ?H4, ?H5, ?H6; try (done || lia).
        rewrite Hctx, Hblk. f_equal. lia.
    - exists b, q. split_and!; [done| |lia]. by split. }
  destruct Hfill as (b0 & q0 & Hrun & [Hctx Hblk Hmsb Hbp Hbuf Hq Hptr Hpos] & Hlt).
  unfold NextMask. rewrite Hrun. simpl. rewrite Hmsb, Hbp, Hbuf.
  assert (Hend : buffer_ptr_ b0 + bpo ≤ 1680).
  { assert (buffer_ptr_ b0 = (j - w * q0) * bpo) as E.
    { transitivity (j * bpo - w * bpo * q0); [rewrite <- Hw; lia|ring]. }
    rewrite E in Hlt |- *. rewrite Hw in Hlt |- *.
    apply Z.mul_lt_mono_pos_r in Hlt; [|lia]. nia. }
  assert (Hsample : stream_sample seed msb bpo j = foldl (λ output i, Z.lor (u64 (Z.shiftl output 8))
    (byte_at (stream_bytes keystream seed (1680 * q0) 1680) (buffer_ptr_ b0 + i)))
    (Z.land (byte_at (stream_bytes keystream seed (1680 * q0) 1680) (buffer_ptr_ b0)) msb)
    (seqZ 1 (bpo - 1))).
  { unfold stream_sample. rewrite byte_at_stream, Hpos by lia. apply foldl_ext_in.
    intros acc i Hi. apply elem_of_seqZ in Hi. rewrite byte_at_stream by lia. do 2 f_equal. lia. }
  rewrite Hsample. eexists _, q0. split; [done|].
  split; cbn [prng_ msb_mask_ bytes_per_output_ buffer_ buffer_ptr_]; try (done || lia).
Qed.

Lemma foldl_bytes_bound (f : Z → Z) l : ∀ o t,
  (∀ i, is_byte (f i)) → 0 ≤ t → 0 ≤ o < 2 ^ t → t + 8 * Z.of_nat (length l) ≤ 64 →
  0 ≤ foldl (λ o i, Z.lor (u64 (Z.shiftl o 8)) (f i)) o l < 2 ^ (t + 8 * Z.of_nat (length l)).
Proof.
  induction l as [|x l IH]; intros o t Hf Ht Ho Hl; simpl in *; [by rewrite Z.add_0_r|].
  specialize (Hf x) as Hx. unfold is_byte in Hx.
  assert (Ho' : o * 2 ^ 8 + f x < 2 ^ (t + 8)) by (rewrite Z.pow_add_r by lia; nia).
  assert (2 ^ (t + 8) ≤ 2 ^ 64) by (apply Z.pow_le_mono_r; lia).
  rewrite Z.shiftl_mul_pow2, u64_small, Z.lor_comm by lia.
  rewrite <- Z.shiftl_mul_pow2, lor_shiftl_add by lia.
  replace (t + 8 * Z.of_nat (S (length l))) with (t + 8 + 8 * Z.of_nat (length l)) by lia.
  apply IH; (done || lia).
Qed.

(** The parameters that the code computes for a valid modulus. *)
Definition sampling (m : Z) : Sampling :=
  let bw := GetBitWidth m in
  let bpo := (bw + 7) / 8 in
  {| sample_bits := bw; bytes_per_output := bpo; msb_mask := 2 ^ (bw - (bpo - 1) * 8) - 1;
     rejection := if 2 ^ bw =? m then None else Some (2 ^ bw - m) |}.

Lemma bytes_per_output_bounds m :
  valid_modulus m = true →
  let bpo := bytes_per_output (sampling m) in
  valid_bpo bpo ∧ 1 ≤ GetBitWidth m - (bpo - 1) * 8 ≤ 8.
Proof.
  intros Hm. destruct (GetBitWidth_bounds _ Hm) as (? & _ & _). simpl. unfold valid_bpo.
  pose proof (Z.div_mod (GetBitWidth m + 7) 8). pose proof (Z.mod_pos_bound (GetBitWidth m + 7) 8).
  lia.
Qed.

Lemma sampling_of_ok m : valid_modulus m = true → sampling_of m = Ok (sampling m).
Proof.
  intros Hm. destruct (GetBitWidth_bounds _ Hm) as (? & ? & ?).
  destruct (bytes_per_output_bounds m Hm) as [Hbpo Hmsb]. simpl in *.
  assert (2 ^ GetBitWidth m ≤ 2 ^ 62) by (apply Z.pow_le_mono_r; lia).
  unfold sampling_of, modulus_is_power_of_two. rewrite Z.shiftl_1_l, u64_small by lia.
  assert ((if 2 ^ GetBitWidth m =? m then Ok (GetBitWidth m) else compute_best_sample_bits m) =
    Ok (GetBitWidth m)) as ->.
  { rewrite compute_best_sample_bits_min by done. by destruct (_ =? _). }
  simpl. rewrite DivideRoundUp_div by lia. unfold sampling.
  replace (GetBitWidth m + 8 - 1) with (GetBitWidth m + 7) by lia.
  assert (0 < 2 ^ (GetBitWidth m - ((GetBitWidth m + 7) / 8 - 1) * 8) ≤ 2 ^ 8)
    by (split; [apply Z.pow_pos_nonneg; lia|apply Z.pow_le_mono_r; lia]).
  rewrite !Z.shiftl_1_l, u8_small, (u64_small (2 ^ GetBitWidth m)), u64_small by lia.
  by rewrite (Z.mod_small (2 ^ GetBitWidth m - m)) by lia.
Qed.

Lemma stream_sample_bound seed m j :
  valid_modulus m = true →
  0 ≤ stream_sample seed (msb_mask (sampling m)) (bytes_per_output (sampling m)) j < 2 ^ GetBitWidth m.
Proof.
  intros Hm. destruct (GetBitWidth_bounds _ Hm) as (? & _ & _).
  destruct (bytes_per_output_bounds m Hm) as [Hbpo Hmsb]. simpl in *.
  set (bpo := (GetBitWidth m + 7) / 8) in *. set (t := GetBitWidth m - (bpo - 1) * 8) in *.
  unfold valid_bpo in Hbpo. unfold stream_sample.
  assert (Hlen : Z.of_nat (length (seqZ 1 (bpo - 1))) = bpo - 1) by (rewrite length_seqZ; lia).
  assert (H0 : 0 ≤ Z.land (keystream seed (j * bpo)) (2 ^ t - 1) < 2 ^ t).
  { rewrite <- (Z.shiftl_1_l t), land_mask, Z.shiftl_1_l by lia. apply Z.mod_pos_bound. lia. }
  pose proof (foldl_bytes_bound (λ i, keystream seed (j * bpo + i)) (seqZ 1 (bpo - 1))
    _ t (λ i, Hks _ _) ltac:(lia) H0) as Hb.
  rewrite Hlen in Hb. replace (t + 8 * (bpo - 1)) with (GetBitWidth m) in Hb by lia.
  apply Hb. lia.
Qed.

(** ** The mask of one key *)

(** The first [count] samples from [j] on that are not below the threshold,
    among the first [fuel] ones. *)
Fixpoint accept (sample : Z → Z) (threshold : Z) (fuel : nat) (j : Z) (count : nat) :
    option (list Z) :=
  match count, fuel with
  | O, _ => Some []
  | S _, O => None
  | S count', S fuel =>
      if sample j <? threshold then accept sample threshold fuel (j + 1) count
      else cons (sample j) <$> accept sample threshold fuel (j + 1) count'
  end.

Lemma accept_spec sample threshold fuel : ∀ j count xs,
  accept sample threshold fuel j count = Some xs →
  length xs = count ∧ Forall (λ x, threshold ≤ x ∧ ∃ k, x = sample k) xs.
Proof.
  induction fuel as [|fuel IH]; intros j [|count] xs; simpl; try (by intros [= <-]).
  destruct (Z.ltb_spec (sample j) threshold) as [Hr|Hr]; [by intros Ha%IH|].
  destruct (accept sample threshold fuel (j + 1) count) as [ys|] eqn:Ha; [|done].
  intros [= <-]. apply IH in Ha as [Hl Hall]. simpl. split; [lia|]. constructor; eauto.
Qed.

Definition seed_of (session_id : list Z) (spec : InputVectorSpecification) (key : list Z) : list Z :=
  let prng_input := prng_input_of session_id spec in
  sha256 (IntToByteString (GetBitWidth (ivs_modulus spec)) ++ key ++ [kPrngSeedConstant]
            ++ IntToByteString (Z.of_nat (length prng_input)) ++ prng_input).

(** The mask of [key] for the vector [spec], as a vector of integers. *)
Definition key_mask (fuel : nat) (session_id : list Z) (spec : InputVectorSpecification)
    (key : list Z) : option (list Z) :=
  let s := sampling (ivs_modulus spec) in
  let sample := stream_sample (seed_of session_id spec key) (msb_mask s) (bytes_per_output s) in
  match rejection s with
  | None => Some (sample <$> seqZ 0 (ivs_length spec))
  | Some threshold =>
      option_map (map (λ x, x mod ivs_modulus spec))
        (accept sample threshold fuel 0 (Z.to_nat (ivs_length spec)))
  end.

(** The generator can deliver this many samples. *)
Definition enough_stream (fuel : nat) (spec : InputVectorSpecification) : Prop :=
  Z.max (Z.of_nat fuel) (ivs_length spec) ≤ 2 ^ 33 - 2.

Record spec_ok (spec : InputVectorSpecification) : Prop := {
  so_modulus : valid_modulus (ivs_modulus spec) = true;
  so_length : 0 ≤ ivs_length spec;
  so_size : ivs_length spec * GetBitWidth (ivs_modulus spec) < 2 ^ 31
}.

Lemma key_mask_ok fuel session_id spec key xs :
  spec_ok spec → key_mask fuel session_id spec key = Some xs →
  Z.of_nat (length xs) = ivs_length spec ∧ Forall (in_modulus (ivs_modulus spec)) xs.
Proof.
  intros [Hm Hl _]. unfold key_mask. destruct (GetBitWidth_bounds _ Hm) as (_ & ? & ?).
  set (sample := stream_sample _ _ _).
  assert (Hs : ∀ j, 0 ≤ sample j < 2 ^ GetBitWidth (ivs_modulus spec))
    by (intros; by apply stream_sample_bound).
  simpl. destruct (Z.eqb_spec (2 ^ GetBitWidth (ivs_modulus spec)) (ivs_modulus spec)) as [He|He].
  - intros [= <-]. rewrite length_fmap, length_seqZ. split; [lia|].
    apply Forall_fmap, Forall_true. intros j. unfold in_modulus. simpl. specialize (Hs j). lia.
  - destruct (accept _ _ _ _ _) as [ys|] eqn:Ha; [|done]. intros [= <-].
    apply accept_spec in Ha as [Hys _]. rewrite length_fmap. split; [lia|].
    apply Forall_fmap, Forall_true. intros x. apply Z.mod_pos_bound. lia.
Qed.

(** ** The loops *)

(** An operation that leaves a reduced element alone when it adds nothing. *)
Definition neutral_op (m : Z) (op : Z → Z → Z → Z) : Prop := ∀ v, in_modulus m v → op v 0 m = v.

Lemma mask_loop_pow2_ok op m seed msb bpo buffer : ∀ j q b,
  valid_bpo bpo → 0 ≤ j → (j + Z.of_nat (length buffer)) * bpo ≤ 2 ^ 36 - 16 →
  buffer_at seed msb bpo j q b →
  mask_loop_pow2 keystream op m buffer b =
    Ok (zip_with (λ v x, op v x m) buffer
          (stream_sample seed msb bpo <$> seqZ j (Z.of_nat (length buffer)))).
Proof.
  induction buffer as [|v buffer IH]; intros j q b Hbpo Hj Hmax Hb; [done|].
  cbn [length] in *. unfold valid_bpo in *.
  destruct (NextMask_ok seed msb bpo j q b) as (b' & q' & Hn & Hb'); [done..|nia|done|].
  cbn [mask_loop_pow2]. rewrite Hn. cbn [mbind Res_bind].
  rewrite (IH (j + 1) q' b') by (done || nia). cbn [mbind Res_bind].
  rewrite (seqZ_cons j) by lia. rewrite fmap_cons.
  replace (Z.succ j) with (j + 1) by lia.
  by replace (Z.pred (Z.of_nat (S (length buffer)))) with (Z.of_nat (length buffer)) by lia.
Qed.

Lemma zip_with_app_nil {A B C} (f : A → B → C) l k : zip_with f (l ++ k) [] = [].
Proof. by destruct l, k. Qed.

Lemma mask_loop_reject_ok op m seed msb bpo threshold n fuel : ∀ j q b pre buffer xs,
  valid_bpo bpo → 0 ≤ j → (j + Z.of_nat fuel) * bpo ≤ 2 ^ 36 - 16 → 0 < m → neutral_op m op →
  Forall (in_modulus m) buffer → n = Z.of_nat (length (pre ++ buffer)) →
  buffer_at seed msb bpo j q b →
  accept (stream_sample seed msb bpo) threshold fuel j (length buffer) = Some xs →
  mask_loop_reject keystream fuel op m threshold (Z.of_nat (length pre)) n (pre ++ buffer) b =
    Ok (pre ++ zip_with (λ v x, op v (x mod m) m) buffer xs).
Proof.
  unfold valid_bpo. induction fuel as [|fuel IH];
    intros j q b pre [|v buffer] xs Hbpo Hj Hmax Hm Hop Hbuf Hn Hb Hacc;
    cbn [length accept] in Hacc; try done; cbn [mask_loop_reject]; rewrite length_app in Hn.
  1,2: simpl in Hn; rewrite (proj2 (Z.ltb_ge _ _)) by lia; by injection Hacc as <-.
  simpl in Hn. rewrite (proj2 (Z.ltb_lt _ _)) by lia.
  destruct (NextMask_ok seed msb bpo j q b) as (b' & q' & Hnm & Hb'); [done..|nia|done|].
  rewrite Hnm. cbn [mbind Res_bind]. rewrite Nat2Z.id.
  apply Forall_cons in Hbuf as [Hv Hbuf].
  rewrite alter_app_r_alt, Nat.sub_diag by lia. destruct (Z.ltb_spec (stream_sample seed msb bpo j) threshold).
  - rewrite Zmod_0_l, Z.add_0_r. simpl. rewrite Hop by done.
    apply (IH (j + 1) q' b' pre (v :: buffer) xs); try (done || lia || nia).
    + by constructor.
    + rewrite length_app. simpl. lia.
  - destruct (accept (stream_sample seed msb bpo) threshold fuel (j + 1) (length buffer))
      as [ys|] eqn:Hys; [|done]. injection Hacc as <-. simpl.
    set (w := op v (stream_sample seed msb bpo j mod m) m).
    assert (Hrun := IH (j + 1) q' b' (pre ++ [w]) buffer ys).
    rewrite <- !app_assoc in Hrun. cbn [app] in Hrun.
    replace (Z.of_nat (length pre) + 1) with (Z.of_nat (length (pre ++ [w])))
      by (rewrite length_app; simpl; lia).
    apply Hrun; try (done || lia || nia). rewrite length_app. simpl. lia.
Qed.

Lemma DigestKey_ok session_id spec key :
  DigestKey sha256 (prng_input_of session_id spec) (GetBitWidth (ivs_modulus spec)) key =
    Ok (seed_of session_id spec key).
Proof.
  unfold DigestKey. fold (seed_of session_id spec key).
  assert (Hl : length (seed_of session_id spec key) = 32%nat) by apply Hsha.
  rewrite bool_decide_true by (by rewrite Hl). simpl. unfold new_AesKey. by rewrite Hl.
Qed.

Lemma apply_key_ok fuel op session_id spec buffer key xs :
  spec_ok spec → enough_stream fuel spec → neutral_op (ivs_modulus spec) op →
  Forall (in_modulus (ivs_modulus spec)) buffer → Z.of_nat (length buffer) = ivs_length spec →
  key_mask fuel session_id spec key = Some xs →
  apply_key sha256 keystream fuel op spec (sampling (ivs_modulus spec))
    (prng_input_of session_id spec) buffer key =
    Ok (zip_with (λ v x, op v x (ivs_modulus spec)) buffer xs).
Proof.
  intros [Hm Hl _] Hfuel Hop Hbuf Hlen Hmask. destruct (GetBitWidth_bounds _ Hm) as (_ & ? & ?).
  unfold apply_key, enough_stream in *. change (sample_bits (sampling (ivs_modulus spec)))
    with (GetBitWidth (ivs_modulus spec)). rewrite DigestKey_ok. cbn [mbind Res_bind].
  destruct (bytes_per_output_bounds _ Hm) as [Hbpo _].
  destruct (new_PrngBuffer_ok (seed_of session_id spec key) (msb_mask (sampling (ivs_modulus spec)))
    _ Hbpo) as (b & -> & Hb). cbn [mbind Res_bind]. unfold key_mask in Hmask. cbv zeta in Hbpo.
  destruct (rejection (sampling (ivs_modulus spec))) as [threshold|].
  - destruct (accept _ _ _ _ _) as [ys|] eqn:Ha; [|done]. injection Hmask as <-.
    rewrite <- Hlen, Nat2Z.id in Ha.
    rewrite <- Hlen. unfold valid_bpo in *.
    rewrite (mask_loop_reject_ok op _ _ _ _ threshold _ fuel 0 0 b [] buffer ys)
      by (done || lia || nia). by rewrite zip_with_fmap_r.
  - injection Hmask as <-. unfold valid_bpo in *.
    rewrite (mask_loop_pow2_ok op _ _ _ _ buffer 0 0 b) by (done || lia || nia).
    by rewrite Hlen.
Qed.

(** ** The mask of a vector *)

(** The [i]-th entries of some vectors, added up. *)
Definition column (masks : list (list Z)) (i : nat) : Z :=
  sumZ ((λ xs, default 0 (xs !! i)) <$> masks).

(** [op] adds, or subtracts if [sgn] is -1. *)
Definition signed_op (m sgn : Z) (op : Z → Z → Z → Z) : Prop :=
  ∀ a b, in_modulus m a → in_modulus m b → op a b m = (a + sgn * b) mod m.

Lemma signed_op_neutral m sgn op : 0 < m → signed_op m sgn op → neutral_op m op.
Proof.
  intros Hm Hop v Hv. rewrite Hop by (done || unfold in_modulus; lia).
  rewrite Z.mul_0_r, Z.add_0_r. by apply Z.mod_small.
Qed.

Definition masks_of (fuel : nat) (session_id : list Z) (spec : InputVectorSpecification)
  (keys masks : list (list Z)) : Prop :=
  Forall2 (λ key xs, key_mask fuel session_id spec key = Some xs) keys masks.

Lemma apply_keys_ok fuel op sgn session_id spec keys masks : ∀ buffer,
  let m := ivs_modulus spec in
  spec_ok spec → enough_stream fuel spec → signed_op m sgn op →
  masks_of fuel session_id spec keys masks →
  Forall (in_modulus m) buffer → Z.of_nat (length buffer) = ivs_length spec →
  ∃ out, apply_keys sha256 keystream fuel op spec (sampling m) (prng_input_of session_id spec)
           keys buffer None = Ok (Some out, None) ∧
    Z.of_nat (length out) = ivs_length spec ∧ Forall (in_modulus m) out ∧
    ∀ i v, buffer !! i = Some v → out !! i = Some ((v + sgn * column masks i) mod m).
Proof.
  intros buffer m Hspec Hfuel Hop Hmasks. revert buffer. subst m.
  destruct (GetBitWidth_bounds _ (so_modulus _ Hspec)) as (_ & ? & ?).
  induction Hmasks as [|key xs keys masks Hkey Hmasks IH]; intros buffer Hbuf Hlen.
  - exists buffer. split_and!; [done..|]. intros i v Hv. rewrite Hv. unfold column. simpl.
    rewrite Z.mul_0_r, Z.add_0_r, Z.mod_small; [done|]. by eapply Forall_lookup_1 in Hbuf.
  - cbn [apply_keys Signalled].
    rewrite (apply_key_ok fuel op session_id spec buffer key xs) by
      first [done|eapply signed_op_neutral; [lia|done]].
    cbn [mbind Res_bind]. set (m := ivs_modulus spec) in *.
    destruct (key_mask_ok _ _ _ _ _ Hspec Hkey) as [Hxl Hxs]. fold m in Hxs.
    assert (Hz : ∀ i v x, buffer !! i = Some v → xs !! i = Some x →
      zip_with (λ v x, op v x m) buffer xs !! i = Some ((v + sgn * x) mod m)).
    { intros i v x Hv Hx. rewrite lookup_zip_with, Hv. simpl. rewrite Hx. simpl. f_equal.
      apply Hop; [exact (Forall_lookup_1 _ _ _ _ Hbuf Hv)|exact (Forall_lookup_1 _ _ _ _ Hxs Hx)]. }
    destruct (IH (zip_with (λ v x, op v x m) buffer xs)) as (out & -> & Hol & Hout & Hpt).
    + apply Forall_lookup_2. intros i y. rewrite lookup_zip_with_Some.
      intros (v & x & -> & Hv & Hx). pose proof (Hz i v x Hv Hx) as Hzi.
      rewrite lookup_zip_with, Hv in Hzi. simpl in Hzi. rewrite Hx in Hzi. injection Hzi as ->.
      apply Z.mod_pos_bound. lia.
    + rewrite length_zip_with. lia.
    + exists out. split_and!; [done..|]. intros i v Hv.
      destruct (lookup_lt_is_Some_2 xs i) as [x Hx]; [apply lookup_lt_Some in Hv; lia|].
      rewrite (Hpt i _ (Hz i v x Hv Hx)). f_equal. unfold column. rewrite fmap_cons. simpl.
      rewrite Hx. simpl. apply eqmod_rem. drop_mod. eqmod_ring.
Qed.

(** The adapters add and subtract. *)
Definition adapter_ok (m : Z) (adapter : Adapter) : Prop :=
  signed_op m 1 (AddModImpl adapter) ∧ signed_op m (-1) (SubtractModImpl adapter).

Lemma adapters_ok m :
  valid_modulus m = true → adapter_ok m AddModAdapter ∧ adapter_ok m AddModOptAdapter.
Proof.
  intros Hm. destruct (GetBitWidth_bounds _ Hm) as (_ & _ & ?).
  assert (E : ∀ a b, (a + -1 * b) = a - b) by lia.
  split; (split; intros a b Ha Hb; unfold in_modulus in *; simpl; rewrite ?Z.mul_1_l, ?E).
  - apply AddMod_small; lia.
  - apply SubtractMod_mod; lia.
  - apply AddModOpt_mod; lia.
  - apply SubtractModOpt_mod; lia.
Qed.

(** What the mask of a vector has to be. *)
Definition combined_mask (spec : InputVectorSpecification) (adds subs : list (list Z)) : list Z :=
  (λ i, (column adds i - column subs i) mod ivs_modulus spec)
    <$> seq 0 (Z.to_nat (ivs_length spec)).

Lemma combined_mask_in_modulus spec adds subs :
  spec_ok spec → Forall (in_modulus (ivs_modulus spec)) (combined_mask spec adds subs) ∧
    Z.of_nat (length (combined_mask spec adds subs)) = ivs_length spec.
Proof.
  intros [Hm Hl _]. destruct (GetBitWidth_bounds _ Hm) as (_ & _ & ?). unfold combined_mask. split.
  - apply Forall_fmap, Forall_true. intros i. apply Z.mod_pos_bound. lia.
  - rewrite length_fmap, length_seq. lia.
Qed.

Lemma mask_vector_ok fuel adapter session_id spec to_add to_subtract adds subs :
  spec_ok spec → enough_stream fuel spec → adapter_ok (ivs_modulus spec) adapter →
  masks_of fuel session_id spec to_add adds → masks_of fuel session_id spec to_subtract subs →
  mask_vector sha256 keystream fuel adapter to_add to_subtract session_id spec None =
    Ok (Some (combined_mask spec adds subs), None).
Proof.
  intros Hspec Hfuel [Hadd Hsub] Ha Hs.
  destruct (GetBitWidth_bounds _ (so_modulus _ Hspec)) as (_ & ? & ?).
  pose proof (so_length _ Hspec). unfold mask_vector. cbn [Signalled].
  rewrite sampling_of_ok by apply Hspec. cbn [mbind Res_bind].
  edestruct (apply_keys_ok fuel (AddModImpl adapter) 1 session_id spec to_add adds)
    as (out1 & -> & Hl1 & Hm1 & Hp1); [done..| |rewrite length_replicate; lia|].
  { apply Forall_replicate. unfold in_modulus. lia. }
  cbn [mbind Res_bind].
  edestruct (apply_keys_ok fuel (SubtractModImpl adapter) (-1) session_id spec to_subtract subs)
    as (out2 & -> & Hl2 & Hm2 & Hp2); [done..|].
  cbn [mbind Res_bind Signalled]. do 3 f_equal. apply list_eq. intros i. unfold combined_mask.
  rewrite list_lookup_fmap. destruct (decide (i < Z.to_nat (ivs_length spec))%nat) as [Hi|Hi].
  - rewrite lookup_seq_lt by done. simpl.
    specialize (Hp1 i 0 (lookup_replicate_2 _ _ _ Hi)). rewrite (Hp2 _ _ Hp1). f_equal.
    apply eqmod_rem. drop_mod. eqmod_ring.
  - rewrite lookup_seq_ge by lia. simpl. apply lookup_ge_None. lia.
Qed.

(** ** The map of masks *)

Definition mask_map {V} (mk : InputVectorSpecification → V) (specs : list InputVectorSpecification)
  (acc : gmap string V) : gmap string V :=
  foldl (λ acc spec, emplace (ivs_name spec) (mk spec) acc) acc specs.

Lemma mask_map_lookup_acc {V} (mk : InputVectorSpecification → V) specs : ∀ acc name v,
  acc !! name = Some v → mask_map mk specs acc !! name = Some v.
Proof.
  induction specs as [|spec specs IH]; intros acc name v Hv; [done|]. apply IH. unfold emplace.
  destruct (acc !! ivs_name spec) eqn:He; [done|]. rewrite lookup_insert_ne; [done|]. congruence.
Qed.

Lemma mask_map_lookup {V} (mk : InputVectorSpecification → V) specs : ∀ acc spec,
  NoDup (ivs_name <$> specs) → spec ∈ specs →
  (∀ spec, spec ∈ specs → acc !! ivs_name spec = None) →
  mask_map mk specs acc !! ivs_name spec = Some (mk spec).
Proof.
  induction specs as [|spec0 specs IH]; intros acc spec Hnd Hin Hacc; [by apply not_elem_of_nil in Hin|].
  rewrite fmap_cons in Hnd. apply NoDup_cons in Hnd as [Hnot Hnd]. simpl.
  assert (He : emplace (ivs_name spec0) (mk spec0) acc = <[ivs_name spec0 := mk spec0]> acc).
  { unfold emplace. by rewrite Hacc by apply list_elem_of_here. }
  fold (mask_map mk specs (emplace (ivs_name spec0) (mk spec0) acc)). rewrite He.
  apply elem_of_cons in Hin as [->|Hin].
  - apply mask_map_lookup_acc. apply lookup_insert_eq.
  - apply IH; [done..|]. intros spec' Hin'. rewrite lookup_insert_ne.
    + apply Hacc. by apply list_elem_of_further.
    + intros Heq. apply Hnot. rewrite Heq. by apply list_elem_of_fmap_2.
Qed.

Section map_of_masks.
Context (fuel : nat) (session_id : list Z) (to_add to_subtract : list (list Z)).
Context (adds subs : InputVectorSpecification → list (list Z)).

(** The masks that the code is going to draw exist. *)
Record masks_exist (spec : InputVectorSpecification) : Prop := {
  me_spec : spec_ok spec;
  me_stream : enough_stream fuel spec;
  me_adds : masks_of fuel session_id spec to_add (adds spec);
  me_subs : masks_of fuel session_id spec to_subtract (subs spec)
}.

Definition the_mask (spec : InputVectorSpecification) : list Z :=
  combined_mask spec (adds spec) (subs spec).

Definition the_vector (spec : InputVectorSpecification) : SecAggVector :=
  vector_of (the_mask spec) (ivs_modulus spec) false.
Definition the_unpacked (spec : InputVectorSpecification) : SecAggUnpackedVector :=
  {| elements := the_mask spec; uv_modulus := ivs_modulus spec |}.

Lemma MapOfMasksImpl_ok {V} `{MaskVector V} (mk : InputVectorSpecification → V) adapter specs :
  ∀ acc,
  Forall masks_exist specs → Forall (λ spec, adapter_ok (ivs_modulus spec) adapter) specs →
  Forall (λ spec, make_vector (the_mask spec) (ivs_modulus spec) = Ok (mk spec)) specs →
  MapOfMasksImpl sha256 keystream fuel adapter to_add to_subtract specs session_id None acc =
    Ok (Some (mask_map mk specs acc)).
Proof.
  induction specs as [|spec specs IH]; intros acc Hex Had Hmk; [done|].
  apply Forall_cons in Hex as [[? ? ? ?] Hex]. apply Forall_cons in Had as [? Had].
  apply Forall_cons in Hmk as [Hv Hmk]. cbn [MapOfMasksImpl].
  rewrite (mask_vector_ok _ _ _ _ _ _ (adds spec) (subs spec)) by done.
  cbn [mbind Res_bind]. fold (the_mask spec). rewrite Hv. cbn [mbind Res_bind].
  by apply IH.
Qed.

Lemma the_vector_make spec :
  masks_exist spec →
  SecAggVector_of_span (the_mask spec) (ivs_modulus spec) false = Ok (the_vector spec) ∧
  vector_ok (the_vector spec) ∧ decoded (the_vector spec) = the_mask spec.
Proof.
  intros [Hs _ _ _]. destruct (combined_mask_in_modulus spec (adds spec) (subs spec) Hs) as [Hm Hl].
  destruct Hs as [? ? ?]. rewrite <- Hl in *. unfold the_vector, the_mask.
  split_and!; [apply SecAggVector_of_span_ok|apply vector_of_ok|apply decoded_vector_of]; done.
Qed.

Lemma all_adapters_ok specs :
  Forall masks_exist specs →
  Forall (λ spec, adapter_ok (ivs_modulus spec) AddModAdapter) specs ∧
  Forall (λ spec, adapter_ok (ivs_modulus spec) AddModOptAdapter) specs.
Proof.
  intros Hex. split; eapply Forall_impl; try done; simpl; intros spec [[Hm _ _] _ _ _];
    by destruct (adapters_ok _ Hm).
Qed.

Lemma MapOfMasks_ok specs :
  Forall masks_exist specs →
  MapOfMasks sha256 keystream fuel to_add to_subtract specs session_id None =
    Ok (Some (mask_map the_vector specs ∅)) ∧
  MapOfMasksV3 sha256 keystream fuel to_add to_subtract specs session_id None =
    Ok (Some (mask_map the_vector specs ∅)) ∧
  UnpackedMapOfMasks sha256 keystream fuel to_add to_subtract specs session_id None =
    Ok (Some (mask_map the_unpacked specs ∅)).
Proof.
  intros Hex. destruct (all_adapters_ok specs Hex) as [Ha Ho].
  assert (Hv : Forall (λ spec, SecAggVector_of_span (the_mask spec) (ivs_modulus spec) false
    = Ok (the_vector spec)) specs).
  { apply (Forall_impl masks_exist); [done|]. intros spec Hs. by destruct (the_vector_make spec Hs). }
  split_and!; apply MapOfMasksImpl_ok; try done.
  apply Forall_true. done.
Qed.
End map_of_masks.

(** ** Aborting *)

(** Polls of [Signalled] for one vector. *)
Definition polls_per_vector (to_add to_subtract : list (list Z)) : nat :=
  2 + length to_add + length to_subtract.

Lemma apply_keys_abort fuel op spec s input keys : ∀ buffer out n,
  apply_keys sha256 keystream fuel op spec s input keys buffer None = Ok (Some out, None) →
  apply_keys sha256 keystream fuel op spec s input keys buffer (Some n) =
    if decide (n < length keys)%nat then Ok (None, Some O)
    else Ok (Some out, Some (n - length keys)%nat).
Proof.
  induction keys as [|key keys IH]; intros buffer out n; cbn [apply_keys Signalled].
  - intros [= ->]. rewrite decide_False by (simpl; lia). by rewrite Nat.sub_0_r.
  - intros Hrun. destruct n as [|n]; cbn [Signalled]; [by rewrite decide_True by (simpl; lia)|].
    apply bind_ok in Hrun as (b & -> & Hrun). cbn [mbind Res_bind].
    rewrite (IH _ _ _ Hrun). simpl.
    destruct (decide (n < length keys)%nat), (decide (S n < S (length keys))%nat); done || lia.
Qed.

Lemma mask_vector_abort fuel adapter session_id spec to_add to_subtract out n :
  mask_vector sha256 keystream fuel adapter to_add to_subtract session_id spec None =
    Ok (Some out, None) →
  mask_vector sha256 keystream fuel adapter to_add to_subtract session_id spec (Some n) =
    if decide (n < polls_per_vector to_add to_subtract)%nat then Ok (None, Some O)
    else Ok (Some out, Some (n - polls_per_vector to_add to_subtract)%nat).
Proof.
  unfold mask_vector, polls_per_vector. cbn [Signalled]. intros Hrun.
  destruct n as [|n]; cbn [Signalled]; [by rewrite decide_True by lia|].
  apply bind_ok in Hrun as (s & -> & Hrun). apply bind_ok in Hrun as ([[a|] ab] & Ha & Hrun); [|done].
  apply bind_ok in Hrun as ([[b|] bb] & Hb & Hrun); [|done]. cbn [mbind Res_bind].
  assert (Hnone : ∀ op keys buf x y, apply_keys sha256 keystream fuel op spec s
    (prng_input_of session_id spec) keys buf None = Ok (x, y) → y = None).
  { clear. intros op keys. induction keys as [|k keys IH]; intros buf x y; cbn [apply_keys Signalled];
      [by intros [= _ <-]|]. by intros (? & _ & ?%IH)%bind_ok. }
  pose proof (Hnone _ _ _ _ _ Ha) as ->. pose proof (Hnone _ _ _ _ _ Hb) as ->.
  cbn [Signalled] in Hrun. injection Hrun as <-.
  rewrite (apply_keys_abort _ _ _ _ _ _ _ _ _ Ha).
  case_decide; cbn [mbind Res_bind]; [by rewrite decide_True by lia|].
  rewrite (apply_keys_abort _ _ _ _ _ _ _ _ _ Hb).
  case_decide; cbn [mbind Res_bind]; [by rewrite decide_True by lia|].
  destruct (n - length to_add - length to_subtract)%nat as [|k] eqn:Hk; cbn [Signalled].
  - by rewrite decide_True by lia.
  - rewrite decide_False by lia. repeat f_equal. lia.
Qed.

(** ** Properties *)

(** C29: without an abort, [MapOfMasks] returns for every vector the sum of the
    masks of the keys to add minus those of the keys to subtract, modulo the
    modulus of the vector; the optimised [MapOfMasksV3] returns the very same
    map and [UnpackedMapOfMasks] the same elements. A mask of a key is made
    of the first samples of its key stream, those below the rejection
    threshold skipped; the buffering of the generator does not show. *)
Theorem MapOfMasks_value fuel session_id to_add to_subtract adds subs specs :
  NoDup (ivs_name <$> specs) →
  Forall (masks_exist fuel session_id to_add to_subtract adds subs) specs →
  ∃ masks unpacked,
    MapOfMasks sha256 keystream fuel to_add to_subtract specs session_id None = Ok (Some masks) ∧
    MapOfMasksV3 sha256 keystream fuel to_add to_subtract specs session_id None = Ok (Some masks) ∧
    UnpackedMapOfMasks sha256 keystream fuel to_add to_subtract specs session_id None =
      Ok (Some unpacked) ∧
    Forall (λ spec, ∃ v, masks !! ivs_name spec = Some v ∧ vector_ok v ∧
      decoded v = combined_mask spec (adds spec) (subs spec) ∧
      unpacked !! ivs_name spec =
        Some {| elements := decoded v; uv_modulus := ivs_modulus spec |}) specs.
Proof.
  intros Hnd Hex. destruct (MapOfMasks_ok _ _ _ _ _ _ _ Hex) as (H1 & H2 & H3).
  eexists _, _. split_and!; [done..|]. apply Forall_forall. intros spec Hin.
  rewrite Forall_forall in Hex.
  destruct (the_vector_make _ _ _ _ _ _ _ (Hex spec Hin)) as (_ & Hv & Hd).
  eexists. split_and!.
  - apply mask_map_lookup; [done..|]. intros. apply lookup_empty.
  - done.
  - done.
  - rewrite Hd. apply (mask_map_lookup (the_unpacked adds subs)); [done..|].
    intros. apply lookup_empty.
Qed.

(** [MapOfMasks] polls the abort signal [2 + |keys|] times per vector; if
    it is raised before the last of these polls the result is the null
    pointer, never a partial map, and otherwise the result is the one
    without an abort. *)
Lemma MapOfMasks_abort fuel session_id to_add to_subtract adds subs specs n :
  Forall (masks_exist fuel session_id to_add to_subtract adds subs) specs →
  MapOfMasks sha256 keystream fuel to_add to_subtract specs session_id (Some n) =
    if decide (n < length specs * polls_per_vector to_add to_subtract)%nat then Ok None
    else MapOfMasks sha256 keystream fuel to_add to_subtract specs session_id None.
Proof.
  intros Hex. destruct (all_adapters_ok _ _ _ _ _ _ _ Hex) as [Had _].
  destruct (MapOfMasks_ok _ _ _ _ _ _ _ Hex) as (-> & _).
  unfold MapOfMasks. generalize (∅ : SecAggVectorMap). revert n.
  induction specs as [|spec specs IH]; intros n acc; [by rewrite decide_False by (simpl; lia)|].
  apply Forall_cons in Hex as [He Hex]. apply Forall_cons in Had as [Ha Had].
  destruct (the_vector_make _ _ _ _ _ _ _ He) as (Hv & _). destruct He as [? ? ? ?].
  cbn [MapOfMasksImpl length Nat.mul].
  rewrite (mask_vector_abort fuel AddModAdapter session_id spec to_add to_subtract
    (the_mask adds subs spec)) by (by apply mask_vector_ok).
  case_decide; cbn [mbind Res_bind]; [by rewrite decide_True by lia|].
  change (make_vector (the_mask adds subs spec) (ivs_modulus spec))
    with (SecAggVector_of_span (the_mask adds subs spec) (ivs_modulus spec) false).
  rewrite Hv. cbn [mbind Res_bind]. rewrite IH by done.
  set (p := polls_per_vector _ _) in *. clearbody p. repeat case_decide; done || lia.
Qed.
End masks.

(** rejection sampling is unbiased: for a modulus that is not a power of two,
    every residue is obtained from exactly one accepted sample, and more than
    half of the samples are accepted. *)
Lemma rejection_sampling_unbiased m s threshold :
  valid_modulus m = true → sampling_of m = Ok s → rejection s = Some threshold →
  2 ^ sample_bits s - threshold = m ∧ 2 ^ sample_bits s < 2 * m ∧
  ∀ r, 0 ≤ r < m →
    exists! x, (0 ≤ x < 2 ^ sample_bits s ∧ (x <? threshold) = false) ∧ x mod m = r.
Proof.
  intros Hm Hs Hr. rewrite sampling_of_ok in Hs by done. injection Hs as <-. simpl in *.
  destruct (GetBitWidth_bounds _ Hm) as (_ & Hb & ?). set (B := 2 ^ GetBitWidth m) in *.
  destruct (Z.eqb_spec B m); [done|]. injection Hr as <-. split; [lia|]. split; [lia|].
  intros r Hr. set (t := B - m). exists (t + (r - t) mod m).
  assert (Hmod : 0 ≤ (r - t) mod m < m) by (apply Z.mod_pos_bound; lia). split.
  - split; [split; [lia|]; apply Z.ltb_ge; lia|].
    rewrite <- (Z.mod_small r m) at 2 by lia. apply eqmod_rem. drop_mod. eqmod_ring.
  - intros x [[Hx Hge%Z.ltb_ge] <-].
    assert ((x mod m - t) mod m = x - t) as ->; [|lia].
    rewrite <- (Z.mod_small (x - t) m) by lia. apply eqmod_rem. drop_mod. eqmod_ring.
Qed.

(** Bytes that a draw with [b] bits consumes on average, as a fraction: each
    sample costs [ceil(b / 8)] bytes and [floor(2^b / m) * m] of the [2^b]
    values are accepted. *)
Definition expected_bytes (m b : Z) : Z * Z := ((b + 7) / 8 * 2 ^ b, 2 ^ b / m * m).

(** [compute_best_sample_bits] always returns the smallest number of bits,
    whatever larger numbers of bits would save: for the modulus 257 it chooses
    9 bits, with an expected cost of 1024/257 bytes, where 16 bits cost
    131072/65535 bytes. *)
Lemma compute_best_sample_bits_is_minimal :
  (∀ m, valid_modulus m = true → compute_best_sample_bits m = Ok (GetBitWidth m)) ∧
  compute_best_sample_bits 257 = Ok 9 ∧
  expected_bytes 257 9 = (1024, 257) ∧ expected_bytes 257 16 = (131072, 65535).
Proof. split_and!; [exact compute_best_sample_bits_min|reflexivity..]. Qed.

(** ** Adding packed vectors *)

Lemma AddVectors_loop_fold n : ∀ m da db c,
  AddVectors_loop n m da db c =
    foldl (λ c e, WriteValue e c) c
      (zip_with (λ x y, u64 (x + y) mod m) (ReadValues n da) (ReadValues n db)).
Proof.
  induction n as [|n IH]; intros m da db c; [done|]. cbn [AddVectors_loop ReadValues].
  destruct (ReadValue da) as [x da'], (ReadValue db) as [y db']. simpl. apply IH.
Qed.

Lemma sum_u64_list m xs ys :
  1 < m ≤ 2 ^ 62 → Forall (in_modulus m) xs → Forall (in_modulus m) ys →
  zip_with (λ x y, u64 (x + y) mod m) xs ys = add_mod_list m xs ys.
Proof.
  intros Hm Hx. revert ys. induction Hx as [|x xs Hx Hxs IH]; intros ys Hy; [done|].
  destruct Hy as [|y ys Hy Hys]; [done|]. unfold in_modulus in *. unfold add_mod_list. simpl.
  rewrite u64_small by lia. f_equal. by apply IH.
Qed.

Definition same_shape (a b : SecAggVector) : Prop :=
  modulus_ a = modulus_ b ∧ num_elements_ a = num_elements_ b.

Definition sum_vector (a b : SecAggVector) : SecAggVector :=
  vector_of (add_mod_list (modulus_ a) (decoded a) (decoded b)) (modulus_ a) true.

Lemma AddVectors_ok a b :
  vector_ok a → vector_ok b → same_shape a b →
  AddVectors a b = Ok (sum_vector a b) ∧ vector_ok (sum_vector a b) ∧
  decoded (sum_vector a b) = add_mod_list (modulus_ a) (decoded a) (decoded b) ∧
  same_shape a (sum_vector a b).
Proof.
  intros Ha Hb [Hm Hn]. destruct (decoded_ok a Ha) as [Hda Hla], (decoded_ok b Hb) as [Hdb Hlb].
  destruct (GetBitWidth_bounds _ (vok_modulus _ Ha)) as (Hbw & Hp & Hmm).
  set (es := add_mod_list (modulus_ a) (decoded a) (decoded b)).
  assert (Hes : Forall (in_modulus (modulus_ a)) es) by (apply add_mod_list_in_modulus; lia).
  assert (Hle : Z.of_nat (length es) = num_elements_ a).
  { unfold es, add_mod_list. rewrite length_zip_with. lia. }
  destruct (vok_size _ Ha) as (_ & _ & Hlt). rewrite <- Hle in Hlt.
  assert (Hfits := in_modulus_fits _ _ (vok_modulus _ Ha) Hes).
  split_and!.
  - unfold AddVectors. rewrite (proj2 (Z.eqb_eq _ _) Hm), (proj2 (Z.eqb_eq _ _) Hn). simpl.
    rewrite AddVectors_loop_fold. fold (decoded a).
    replace (ReadValues (Z.to_nat (num_elements_ a)) (new_Decoder (packed_bytes_ b) (modulus_ b)))
      with (decoded b) by (unfold decoded; by rewrite Hn).
    rewrite (sum_u64_list (modulus_ a)); [|lia|done|rewrite Hm; exact Hdb]. fold es.
    rewrite (vok_bw _ Ha), <- Hle.
    destruct (DivideRoundUp_bytes (Z.of_nat (length es)) (GetBitWidth (modulus_ a))) as [_ ?]; [lia..|].
    apply (Coder_Create_ok (GetBitWidth (modulus_ a)) _ _ es); try done; [apply Ha|].
    fold es. apply (WriteValues_ok _ _ _ es []); [done|done| |cbn [app]; lia]. apply new_Coder_inv; lia.
  - by apply vector_of_ok; [apply Ha| |].
  - by apply decoded_vector_of; [apply Ha| |].
  - done.
Qed.

(** [AddVectors] on packed vectors of the same shape returns the packed
    element-wise sum modulo the modulus, and [AddMaps] does so for every name. *)
Lemma AddMaps_correct a b :
  (∀ name v, a !! name = Some v → vector_ok v ∧
     ∃ v', b !! name = Some v' ∧ vector_ok v' ∧ same_shape v v') →
  ∃ sum, AddMaps a b = Ok sum ∧
    ∀ name, match a !! name, b !! name with
            | Some v, Some v' => ∃ s, sum !! name = Some s ∧ vector_ok s ∧ same_shape v s ∧
                decoded s = add_mod_list (modulus_ v) (decoded v) (decoded v')
            | _, _ => sum !! name = None
            end.
Proof.
  intros Hok. unfold AddMaps.
  edestruct (for_each_entry_ok (λ name v, match b !! name with
    | None => Crash | Some v' => AddVectors v v' end) a ∅) as (sum & Hsum & Hlook).
  { intros name v Hv. destruct (Hok name v Hv) as (? & v' & -> & ? & ?).
    destruct (AddVectors_ok v v') as (-> & _); eauto. }
  exists sum. split; [done|]. intros name. specialize (Hlook name).
  destruct (a !! name) as [v|] eqn:Hv; [|by rewrite Hlook, lookup_empty].
  destruct (Hok name v Hv) as (? & v' & Hv' & ? & ?). rewrite Hv' in *.
  destruct Hlook as (y & Hy & Hs). destruct (AddVectors_ok v v') as (Heq & ? & ? & ?); [done..|].
  rewrite Heq in Hy. injection Hy as <-. eauto.
Qed.
