(* ===== verification/VectorMaps.v ===== *)
(** * Maps of vectors of one shape

    The server adds up maps that all have the shape its input specifications
    give them. On those maps [AddMaps] and [Add] are total and are the sum
    [vadd], which is what the accumulator needs of its function. *)

From S2P Require Import Prelude Bytes Math SecAggVector SecAggCodec SecAggVectorCorrect Prng.
From S2P Require Import MapOfMasks MasksCorrect Interpolation.

(** The sum of two maps, name by name. *)
Definition vadd_vector (a b : SecAggUnpackedVector) : SecAggUnpackedVector :=
  {| elements := add_mod_list (uv_modulus a) (elements a) (elements b); uv_modulus := uv_modulus a |}.
Definition vadd (a b : SecAggUnpackedVectorMap) : SecAggUnpackedVectorMap :=
  map_zip_with vadd_vector a b.

(** A vector of the shape of [spec]. *)
Record unpacked_shape (spec : InputVectorSpecification) (v : SecAggUnpackedVector) : Prop := {
  us_modulus : uv_modulus v = ivs_modulus spec;
  us_length : Z.of_nat (length (elements v)) = ivs_length spec;
  us_elements : Forall (in_modulus (ivs_modulus spec)) (elements v)
}.

Record packed_shape (spec : InputVectorSpecification) (v : SecAggVector) : Prop := {
  ps_ok : vector_ok v;
  ps_modulus : modulus_ v = ivs_modulus spec;
  ps_length : num_elements_ v = ivs_length spec
}.

(** Maps with one entry per specification and no other. *)
Section shapes.
Context (specs : list InputVectorSpecification).
Context (Hnd : NoDup (ivs_name <$> specs)) (Hspecs : Forall spec_ok specs).

Record of_shape {V} (shape : InputVectorSpecification → V → Prop) (m : gmap string V) : Prop := {
  os_entries : ∀ spec, spec ∈ specs → ∃ v, m !! ivs_name spec = Some v ∧ shape spec v;
  os_names : ∀ name, is_Some (m !! name) → ∃ spec, spec ∈ specs ∧ ivs_name spec = name
}.

Abbreviation unpacked_map := (of_shape unpacked_shape).
Abbreviation packed_map := (of_shape packed_shape).

Lemma shape_lookup {V} (shape : InputVectorSpecification → V → Prop) m name v :
  of_shape shape m → m !! name = Some v →
  ∃ spec, spec ∈ specs ∧ ivs_name spec = name ∧ shape spec v.
Proof.
  intros [He Hn] Hv. destruct (Hn name) as (spec & Hin & <-); [by eexists|].
  destruct (He spec Hin) as (v' & Hv' & Hsh). rewrite Hv in Hv'. injection Hv' as <-. by exists spec.
Qed.

(** Entries of two maps of the same shape. *)
Lemma shape_lookup2 {V W} (shape : InputVectorSpecification → V → Prop)
    (shape' : InputVectorSpecification → W → Prop) m m' name v :
  of_shape shape m → of_shape shape' m' → m !! name = Some v →
  ∃ spec w, spec ∈ specs ∧ ivs_name spec = name ∧ shape spec v ∧ m' !! name = Some w ∧ shape' spec w.
Proof.
  intros Hm Hm' Hv. destruct (shape_lookup _ _ _ _ Hm Hv) as (spec & Hin & <- & Hsh).
  destruct (os_entries _ _ Hm' spec Hin) as (w & ? & ?). by exists spec, w.
Qed.

Lemma shape_domain {V W} (shape : InputVectorSpecification → V → Prop)
    (shape' : InputVectorSpecification → W → Prop) m m' name :
  of_shape shape m → of_shape shape' m' → m !! name = None → m' !! name = None.
Proof.
  intros Hm Hm' Hn. destruct (m' !! name) as [w|] eqn:Hw; [|done].
  destruct (shape_lookup2 _ _ _ _ _ _ Hm' Hm Hw) as (? & v & _ & _ & _ & Hv & _). congruence.
Qed.

Lemma spec_modulus spec : spec ∈ specs → 1 < ivs_modulus spec ≤ 2 ^ 62.
Proof using Hspecs.
  intros Hin. rewrite Forall_forall in Hspecs. destruct (Hspecs _ Hin) as [Hm _ _].
  by destruct (GetBitWidth_bounds _ Hm) as (_ & _ & ?).
Qed.

Lemma vadd_shape a b : unpacked_map a → unpacked_map b → unpacked_map (vadd a b).
Proof using Hspecs.
  intros Ha Hb. split.
  - intros spec Hin. destruct (os_entries _ _ Ha spec Hin) as (x & Hx & [Hm Hl He]).
    destruct (os_entries _ _ Hb spec Hin) as (y & Hy & [Hm' Hl' He']).
    exists (vadd_vector x y). unfold vadd. rewrite map_lookup_zip_with, Hx, Hy. split; [done|].
    split; simpl; [done| |].
    + unfold add_mod_list. rewrite length_zip_with. lia.
    + rewrite Hm. apply add_mod_list_in_modulus. pose proof (spec_modulus _ Hin). lia.
  - intros name [v Hv]. unfold vadd in Hv. rewrite map_lookup_zip_with in Hv.
    destruct (a !! name) eqn:Hx; [|done]. apply (os_names _ _ Ha). by eexists.
Qed.

Lemma AddMaps_vadd a b :
  unpacked_map a → unpacked_map b → SecAggUnpackedVectorMap_AddMaps a b = Ok (vadd a b).
Proof using Hspecs.
  intros Ha Hb. unfold SecAggUnpackedVectorMap_AddMaps.
  set (body := λ name a_at_name, _).
  assert (∀ name x, a !! name = Some x → ∃ y, b !! name = Some y ∧ body name x = Ok (vadd_vector x y))
    as Hbody.
  { intros name x Hx.
    destruct (shape_lookup2 _ _ _ _ _ _ Ha Hb Hx) as (spec & y & Hin & _ & [Hm Hl He] & Hy & [Hm' Hl' He']).
    exists y. split; [done|]. subst body. simpl. rewrite Hy, bool_decide_true by lia. simpl.
    unfold vadd_vector. do 2 f_equal. rewrite Hm. apply AddModOpt_list; [|done|done].
    by apply spec_modulus. }
  destruct (for_each_entry_ok body a ∅) as (r & -> & Hr).
  { intros name x Hx. destruct (Hbody name x Hx) as (y & _ & ?). by eexists. }
  f_equal. apply map_eq. intros name. specialize (Hr name). unfold vadd.
  rewrite map_lookup_zip_with. destruct (a !! name) as [x|] eqn:Hx; [|by rewrite Hr, lookup_empty].
  destruct (Hbody name x Hx) as (y & Hy & Hxy). destruct Hr as (z & Hz & ->).
  rewrite Hxy in Hz. injection Hz as <-. by rewrite Hy.
Qed.

Lemma of_map_shape v : packed_map v → unpacked_map (SecAggUnpackedVectorMap_of_map v).
Proof.
  intros Hv. unfold SecAggUnpackedVectorMap_of_map. split.
  - intros spec Hin. destruct (os_entries _ _ Hv spec Hin) as (x & Hx & [Hok Hm Hl]).
    exists (SecAggUnpackedVector_of_vector x). rewrite lookup_fmap, Hx. split; [done|].
    destruct (decoded_ok x Hok) as [Hd Hn]. unfold decoded in *.
    split; simpl; [done|by rewrite Hn|by rewrite <- Hm].
  - intros name [x Hx]. rewrite lookup_fmap in Hx. apply (os_names _ _ Hv).
    destruct (v !! name); [by eexists|done].
Qed.

Lemma Add_vadd a v :
  unpacked_map a → packed_map v →
  SecAggUnpackedVectorMap_Add a v = Ok (vadd a (SecAggUnpackedVectorMap_of_map v)).
Proof using Hspecs.
  intros Ha Hv. unfold SecAggUnpackedVectorMap_Add.
  assert (dom a = dom v) as Hdom.
  { apply set_eq. intros name. rewrite !elem_of_dom. split; intros [x Hx].
    - destruct (shape_lookup2 _ _ _ _ _ _ Ha Hv Hx) as (? & w & _ & _ & _ & Hw & _). by eexists.
    - destruct (shape_lookup2 _ _ _ _ _ _ Hv Ha Hx) as (? & w & _ & _ & _ & Hw & _). by eexists. }
  rewrite bool_decide_true by (by rewrite <- !size_dom, Hdom). cbn [fcp_check].
  set (body := λ name vector, _).
  assert (∀ name x, a !! name = Some x → ∃ y, v !! name = Some y ∧
    body name x = Ok (vadd_vector x (SecAggUnpackedVector_of_vector y))) as Hbody.
  { intros name x Hx.
    destruct (shape_lookup2 _ _ _ _ _ _ Ha Hv Hx) as (spec & y & Hin & _ & [Hm Hl He] & Hy & [Hok Hm' Hl']).
    exists y. split; [done|]. subst body. simpl. rewrite Hy. unfold SecAggUnpackedVector_Add.
    rewrite (proj2 (Z.eqb_eq _ _)), (proj2 (Z.eqb_eq _ _)) by congruence. cbn [fcp_check].
    unfold vadd_vector. do 2 f_equal. simpl.
    replace (length (elements x)) with (Z.to_nat (num_elements_ y)) by lia.
    destruct (decoded_ok y Hok) as [Hd _]. rewrite Hm' in Hd. unfold decoded in Hd.
    rewrite Hm. apply AddModOpt_list; [by apply spec_modulus|done|done]. }
  destruct (for_each_entry_ok body a a) as (r & -> & Hr).
  { intros name x Hx. destruct (Hbody name x Hx) as (y & _ & ?). by eexists. }
  f_equal. apply map_eq. intros name. specialize (Hr name). unfold vadd, SecAggUnpackedVectorMap_of_map.
  rewrite map_lookup_zip_with, lookup_fmap. destruct (a !! name) as [x|] eqn:Hx; [|by rewrite Hr].
  destruct (Hbody name x Hx) as (y & Hy & Hxy). destruct Hr as (z & Hz & ->).
  rewrite Hxy in Hz. injection Hz as <-. by rewrite Hy.
Qed.

Lemma add_mod_swap m xs : ∀ ys zs,
  add_mod_list m (add_mod_list m xs ys) zs = add_mod_list m (add_mod_list m xs zs) ys.
Proof.
  unfold add_mod_list. induction xs as [|x xs IH]; intros [|y ys] [|z zs]; simpl; try done.
  f_equal; [|apply IH]. apply eqmod_rem. drop_mod. eqmod_ring.
Qed.

Lemma vadd_swap v x y :
  unpacked_map v → unpacked_map x → unpacked_map y → vadd (vadd v x) y = vadd (vadd v y) x.
Proof.
  intros Hv Hx Hy. apply map_eq. intros name. unfold vadd. rewrite !map_lookup_zip_with.
  destruct (v !! name) as [a|], (x !! name) as [b|], (y !! name) as [c|]; simpl; try done.
  f_equal. unfold vadd_vector. simpl. f_equal. apply add_mod_swap.
Qed.

(** ** Entries *)

(** Element [i] of the vector [name]. *)
Definition entry (m : SecAggUnpackedVectorMap) (name : string) (i : nat) : Z :=
  match m !! name with Some v => default 0 (elements v !! i) | None => 0 end.

Lemma add_mod_list_lookup m xs ys i :
  length xs = length ys → (i < length xs)%nat →
  default 0 (add_mod_list m xs ys !! i) = (default 0 (xs !! i) + default 0 (ys !! i)) mod m.
Proof.
  intros Hl Hi. destruct (lookup_lt_is_Some_2 xs i Hi) as [x Hx].
  destruct (lookup_lt_is_Some_2 ys i) as [y Hy]; [lia|].
  unfold add_mod_list. by rewrite lookup_zip_with, Hx, Hy.
Qed.

Lemma entry_vadd a b spec i :
  unpacked_map a → unpacked_map b → spec ∈ specs → (i < Z.to_nat (ivs_length spec))%nat →
  entry (vadd a b) (ivs_name spec) i =
    (entry a (ivs_name spec) i + entry b (ivs_name spec) i) mod ivs_modulus spec.
Proof.
  intros Ha Hb Hin Hi. unfold entry, vadd. rewrite map_lookup_zip_with.
  destruct (os_entries _ _ Ha spec Hin) as (x & -> & [Hm Hl _]).
  destruct (os_entries _ _ Hb spec Hin) as (y & -> & [_ Hl' _]). simpl.
  rewrite Hm. apply add_mod_list_lookup; lia.
Qed.

Lemma entry_range a spec i :
  unpacked_map a → spec ∈ specs → (i < Z.to_nat (ivs_length spec))%nat →
  in_modulus (ivs_modulus spec) (entry a (ivs_name spec) i).
Proof.
  intros Ha Hin Hi. unfold entry. destruct (os_entries _ _ Ha spec Hin) as (x & -> & [_ Hl He]).
  destruct (lookup_lt_is_Some_2 (elements x) i) as [v Hv]; [lia|]. rewrite Hv.
  apply (Forall_lookup_1 _ _ _ _ He Hv).
Qed.

(** The entries of a sum of maps. *)
Lemma entry_sum xs spec i : ∀ v,
  unpacked_map v → Forall unpacked_map xs → spec ∈ specs → (i < Z.to_nat (ivs_length spec))%nat →
  entry (foldl vadd v xs) (ivs_name spec) i =
    (entry v (ivs_name spec) i + sumZ ((λ x, entry x (ivs_name spec) i) <$> xs)) mod ivs_modulus spec.
Proof using Hspecs.
  induction xs as [|x xs IH]; intros v Hv Hxs Hin Hi.
  - simpl. rewrite Z.add_0_r, Z.mod_small; [done|]. by apply entry_range.
  - apply Forall_cons in Hxs as [Hx Hxs]. simpl. rewrite IH by (try apply vadd_shape; done).
    rewrite entry_vadd by done. apply eqmod_rem. drop_mod. apply eqmod_eq; rewrite Z.add_assoc; reflexivity.
Qed.

(** A map is determined by its entries. *)
Lemma elements_entries a spec v :
  unpacked_map a → spec ∈ specs → a !! ivs_name spec = Some v →
  elements v = (λ i, entry a (ivs_name spec) i) <$> seq 0 (Z.to_nat (ivs_length spec)).
Proof.
  intros Ha Hin Hv. destruct (os_entries _ _ Ha spec Hin) as (x & Hx & [_ Hl _]).
  rewrite Hv in Hx. injection Hx as <-. apply list_eq. intros i. rewrite list_lookup_fmap.
  unfold entry. rewrite Hv. destruct (elements v !! i) as [y|] eqn:Hy.
  - apply lookup_lt_Some in Hy as Hlt. rewrite lookup_seq_lt by lia. simpl. by rewrite Hy.
  - apply lookup_ge_None in Hy as Hge. by rewrite lookup_seq_ge by lia.
Qed.

(** ** Maps made from the specifications *)

Lemma mask_map_names {V} (mk : InputVectorSpecification → V) l : ∀ acc name,
  is_Some (mask_map mk l acc !! name) →
  is_Some (acc !! name) ∨ ∃ spec, spec ∈ l ∧ ivs_name spec = name.
Proof.
  induction l as [|spec l IH]; intros acc name Hs; [by left|]. simpl in Hs.
  apply IH in Hs as [Hs|(spec' & Hin & <-)].
  - unfold emplace in Hs. destruct (acc !! ivs_name spec) eqn:He; [by left|].
    rewrite lookup_insert_is_Some in Hs. destruct Hs as [<-|[_ Hs]]; [|by left].
    right. exists spec. split; [apply list_elem_of_here|done].
  - right. exists spec'. split; [by apply list_elem_of_further|done].
Qed.

Lemma mask_map_shape {V} (shape : InputVectorSpecification → V → Prop) mk :
  (∀ spec, spec ∈ specs → shape spec (mk spec)) → of_shape shape (mask_map mk specs ∅).
Proof using Hnd.
  intros Hmk. split.
  - intros spec Hin. exists (mk spec). split; [|by apply Hmk].
    apply mask_map_lookup; [done|done|]. intros. apply lookup_empty.
  - intros name [[v Hv]|?]%mask_map_names; [|done]. by rewrite lookup_empty in Hv.
Qed.

Lemma entry_mask_map (f : InputVectorSpecification → list Z) spec i :
  spec ∈ specs →
  entry (mask_map (λ spec, {| elements := f spec; uv_modulus := ivs_modulus spec |}) specs ∅)
    (ivs_name spec) i = default 0 (f spec !! i).
Proof using Hnd.
  intros Hin. unfold entry. rewrite mask_map_lookup; [done|done|done|]. intros. apply lookup_empty.
Qed.
End shapes.
