(* ===== verification/Graph.v ===== *)
(** * The graph of key sharing

    Models [server/secret_sharing_graph.h], [secret_sharing_complete_graph.h],
    [secret_sharing_harary_graph.{h,cc}] and [secret_sharing_graph_factory.h].
    The abstract class is the record [SecretSharingGraph] of its virtual
    methods; [GraphLaws] states what the server relies on, and both subclasses
    are instances of it. *)

From S2P Require Import Prelude.

Record SecretSharingGraph := {
  GetNumNodes : Z;
  GetDegree : Z;
  GetThreshold : Z;
  GetNeighbor : Z → Z → Res Z;
  GetNeighborIndex : Z → Z → Res (option Z);
  AreNeighbors : Z → Z → Res bool;
  IsOutgoingNeighbor : Z → Z → Res bool
}.

Definition IsValidNode (num_nodes node : Z) : bool := (0 <=? node) && (node <? num_nodes).

(** ** The complete graph *)

Definition CompleteGraph (num_nodes threshold : Z) : SecretSharingGraph := {|
  GetNumNodes := num_nodes;
  GetDegree := num_nodes;
  GetThreshold := threshold;
  GetNeighbor := λ curr_node i,
    FCP_CHECK IsValidNode num_nodes curr_node ;; FCP_CHECK IsValidNode num_nodes i ;; Ok i;
  GetNeighborIndex := λ node_1 node_2,
    FCP_CHECK IsValidNode num_nodes node_1 ;; FCP_CHECK IsValidNode num_nodes node_2 ;;
    Ok (Some node_2);
  AreNeighbors := λ node_1 node_2,
    FCP_CHECK IsValidNode num_nodes node_1 ;; FCP_CHECK IsValidNode num_nodes node_2 ;; Ok true;
  IsOutgoingNeighbor := λ node_1 node_2,
    FCP_CHECK IsValidNode num_nodes node_1 ;; FCP_CHECK IsValidNode num_nodes node_2 ;;
    Ok (node_1 <=? node_2)
|}.

(** ** Harary graphs *)

Definition at_index (l : list Z) (i : Z) : Z := default 0 (l !! Z.to_nat i).

(** The loop of the constructor. *)
Definition inverse_permutation (permutation : list Z) : list Z :=
  foldl (λ inverse i, <[Z.to_nat (at_index permutation (Z.of_nat i)) := Z.of_nat i]> inverse)
    (replicate (length permutation) 0) (seq 0 (length permutation)).

Definition Harary_GetNeighbor (degree : Z) (permutation : list Z) (curr_node neighbor_index : Z) :
    Res Z :=
  let number_of_nodes := Z.of_nat (length permutation) in
  FCP_CHECK IsValidNode number_of_nodes curr_node ;;
  FCP_CHECK (0 <=? neighbor_index) && (neighbor_index <? degree) ;;
  let curr_node_before_renaming := at_index (inverse_permutation permutation) curr_node in
  let zeroth_neighbor_before_renaming := curr_node_before_renaming - Z.quot degree 2 in
  Ok (at_index permutation
        (Z.rem (zeroth_neighbor_before_renaming + neighbor_index + number_of_nodes)
               number_of_nodes)).

Definition Harary_GetNeighborIndex (degree : Z) (permutation : list Z) (node_1 node_2 : Z) :
    Res (option Z) :=
  let number_of_nodes := Z.of_nat (length permutation) in
  FCP_CHECK IsValidNode number_of_nodes node_1 ;;
  FCP_CHECK IsValidNode number_of_nodes node_2 ;;
  let inverse_permutation_ := inverse_permutation permutation in
  let sub_before_renaming :=
    Z.abs (at_index inverse_permutation_ node_1 - at_index inverse_permutation_ node_2) in
  let mod_dist_before_renaming :=
    Z.min sub_before_renaming (number_of_nodes - sub_before_renaming) in
  if Z.quot degree 2 <? mod_dist_before_renaming then Ok None
  else if Z.rem (at_index inverse_permutation_ node_1 - mod_dist_before_renaming + number_of_nodes)
                number_of_nodes =? at_index inverse_permutation_ node_2
  then Ok (Some (Z.quot degree 2 - mod_dist_before_renaming))
  else Ok (Some (Z.quot degree 2 + mod_dist_before_renaming)).

Definition HararyGraph (degree threshold : Z) (permutation : list Z) : SecretSharingGraph :=
  let number_of_nodes := Z.of_nat (length permutation) in {|
  GetNumNodes := number_of_nodes;
  GetDegree := degree;
  GetThreshold := threshold;
  GetNeighbor := Harary_GetNeighbor degree permutation;
  GetNeighborIndex := Harary_GetNeighborIndex degree permutation;
  AreNeighbors := λ node_1 node_2,
    FCP_CHECK IsValidNode number_of_nodes node_1 ;; FCP_CHECK IsValidNode number_of_nodes node_2 ;;
    index ← Harary_GetNeighborIndex degree permutation node_1 node_2;
    Ok (0 <=? default (-1) index);
  IsOutgoingNeighbor := λ node_1 node_2,
    FCP_CHECK IsValidNode number_of_nodes node_1 ;; FCP_CHECK IsValidNode number_of_nodes node_2 ;;
    index ← Harary_GetNeighborIndex degree permutation node_1 node_2;
    Ok (Z.quot degree 2 <=? default (-1) index)
|}.

(** ** The factory *)

Definition CreateCompleteGraph (num_nodes threshold : Z) : Res SecretSharingGraph :=
  FCP_CHECK 1 <=? num_nodes ;;
  FCP_CHECK 1 <=? threshold ;;
  FCP_CHECK threshold <=? num_nodes ;;
  Ok (CompleteGraph num_nodes threshold).

(** [shuffle] is [std::shuffle] with the random bits of [SslBitGen]. *)
Definition CreateHararyGraph (shuffle : list Z → list Z) (num_nodes degree threshold : Z)
    (is_random : bool) : Res SecretSharingGraph :=
  FCP_CHECK 1 <=? num_nodes ;;
  FCP_CHECK degree <=? num_nodes ;;
  FCP_CHECK Z.rem degree 2 =? 1 ;;
  FCP_CHECK 1 <=? threshold ;;
  FCP_CHECK threshold <=? degree ;;
  let permutation := seqZ 0 num_nodes in
  let permutation := if is_random then shuffle permutation else permutation in
  Ok (HararyGraph degree threshold permutation).

(** ** What the server relies on *)

Class GraphLaws (g : SecretSharingGraph) : Prop := {
  graph_sizes : 1 ≤ GetThreshold g ≤ GetDegree g ∧ GetDegree g ≤ GetNumNodes g;
  graph_neighbor u i :
    0 ≤ u < GetNumNodes g → 0 ≤ i < GetDegree g →
    ∃ v, GetNeighbor g u i = Ok v ∧ 0 ≤ v < GetNumNodes g ∧
         GetNeighborIndex g u v = Ok (Some i);
  graph_index u v :
    0 ≤ u < GetNumNodes g → 0 ≤ v < GetNumNodes g →
    ∃ o, GetNeighborIndex g u v = Ok o ∧
      (∀ i, o = Some i → 0 ≤ i < GetDegree g ∧ GetNeighbor g u i = Ok v) ∧
      AreNeighbors g u v = Ok (bool_decide (is_Some o));
  graph_self u : 0 ≤ u < GetNumNodes g → AreNeighbors g u u = Ok true;
  graph_symmetric u v :
    0 ≤ u < GetNumNodes g → 0 ≤ v < GetNumNodes g → AreNeighbors g u v = AreNeighbors g v u;
  graph_oriented u v :
    0 ≤ u < GetNumNodes g → 0 ≤ v < GetNumNodes g → u ≠ v → AreNeighbors g u v = Ok true →
    ∃ b, IsOutgoingNeighbor g u v = Ok b ∧ IsOutgoingNeighbor g v u = Ok (negb b);
  graph_order u v i :
    0 ≤ u < GetNumNodes g → 0 ≤ v < GetNumNodes g → GetNeighborIndex g u v = Ok (Some i) →
    ∃ own, GetNeighborIndex g u u = Ok (Some own) ∧ IsOutgoingNeighbor g u v = Ok (own <=? i)
}.

Lemma IsValidNode_true n u : 0 ≤ u < n → IsValidNode n u = true.
Proof. unfold IsValidNode. lia. Qed.

#[export] Instance CompleteGraph_laws n t : 1 ≤ t → t ≤ n → GraphLaws (CompleteGraph n t).
Proof.
  intros Ht Hn. split; simpl; intros; rewrite ?IsValidNode_true by lia; simpl.
  - lia.
  - exists i. by rewrite IsValidNode_true by lia.
  - eexists. split; [done|]. split; [|by rewrite bool_decide_true by (by eexists)].
    intros i [= <-]. rewrite IsValidNode_true by lia. by split.
  - done.
  - done.
  - eexists. split; [done|]. f_equal. destruct (Z.leb_spec u v), (Z.leb_spec v u); done || lia.
  - exists u. split; [done|].
    match goal with H : _ = Ok (Some _) |- _ => rewrite !IsValidNode_true in H by lia;
      by injection H as -> end.
Qed.

(** *** Neighbors on the circle *)

Section circle.
Context (n h : Z) (Hn : 0 < n) (Hh : 0 ≤ h) (Hhn : 2 * h < n).

Definition circle_neighbor (p i : Z) : Z := (p - h + i + n) mod n.

Definition circle_index (p q : Z) : option Z :=
  let s := Z.abs (p - q) in
  let d := Z.min s (n - s) in
  if h <? d then None
  else if (p - d + n) mod n =? q then Some (h - d) else Some (h + d).

Lemma mod_cases x :
  0 ≤ x < 3 * n →
  (x < n ∧ x mod n = x) ∨ (n ≤ x < 2 * n ∧ x mod n = x - n) ∨ (2 * n ≤ x ∧ x mod n = x - 2 * n).
Proof.
  intros Hx. pose proof (Z.div_mod x n). pose proof (Z.mod_pos_bound x n).
  assert (x / n < 3) by (apply Z.div_lt_upper_bound; lia).
  assert (0 ≤ x / n) by (apply Z.div_pos; lia).
  assert (x / n = 0 ∨ x / n = 1 ∨ x / n = 2) as [E|[E|E]] by lia; rewrite E in *; lia.
Qed.

Lemma circle_neighbor_index p i :
  0 ≤ p < n → 0 ≤ i < 2 * h + 1 →
  0 ≤ circle_neighbor p i < n ∧ circle_index p (circle_neighbor p i) = Some i.
Proof.
  intros Hp Hi. unfold circle_index, circle_neighbor.
  pose proof (Z.mod_pos_bound (p - h + i + n) n Hn). split; [done|].
  destruct (mod_cases (p - h + i + n)) as [[? ->]|[[? ->]|[? ->]]]; [lia|..];
    set (s := Z.abs _); set (d := Z.min s _);
    destruct (Z.ltb_spec h d); try lia;
    (match goal with |- context [?a =? ?b] => destruct (Z.eqb_spec a b) as [E|E] end;
      destruct (mod_cases (p - d + n)) as [[? E']|[[? E']|[? E']]]; try lia; f_equal; lia).
Qed.

Lemma circle_index_neighbor p q i :
  0 ≤ p < n → 0 ≤ q < n → circle_index p q = Some i →
  0 ≤ i < 2 * h + 1 ∧ circle_neighbor p i = q.
Proof.
  intros Hp Hq. unfold circle_index, circle_neighbor.
  set (s := Z.abs _); set (d := Z.min s _). destruct (Z.ltb_spec h d); [done|].
  destruct (Z.eqb_spec ((p - d + n) mod n) q) as [E|E]; intros [= <-]; (split; [lia|]).
  - replace (p - h + (h - d) + n) with (p - d + n) by lia. done.
  - replace (p - h + (h + d) + n) with (p + d + n) by lia.
    destruct (mod_cases (p - d + n)) as [[? E']|[[? E']|[? E']]]; [lia|..];
      destruct (mod_cases (p + d + n)) as [[? ->]|[[? ->]|[? ->]]]; lia.
Qed.

Lemma circle_symmetric p q :
  0 ≤ p < n → 0 ≤ q < n → p ≠ q →
  match circle_index p q, circle_index q p with
  | Some i, Some j => i + j = 2 * h ∧ i ≠ h
  | None, None => True
  | _, _ => False
  end.
Proof.
  intros Hp Hq Hne. unfold circle_index. replace (Z.abs (q - p)) with (Z.abs (p - q)) by lia.
  set (s := Z.abs _). set (d := Z.min s _). destruct (Z.ltb_spec h d); [done|].
  destruct (Z.eqb_spec ((p - d + n) mod n) q), (Z.eqb_spec ((q - d + n) mod n) p);
    destruct (mod_cases (p - d + n)) as [[? E]|[[? E]|[? E]]]; try lia;
    destruct (mod_cases (q - d + n)) as [[? E']|[[? E']|[? E']]]; lia.
Qed.

Lemma circle_self p : 0 ≤ p < n → circle_index p p = Some h.
Proof.
  intros Hp. unfold circle_index. rewrite Z.sub_diag, Z.sub_0_r, Z.abs_0, Z.min_l by lia.
  rewrite (proj2 (Z.ltb_ge _ _)) by lia. rewrite Z.sub_0_r, Z.add_0_r.
  destruct (Z.eqb_spec ((p + n) mod n) p); [f_equal; lia|done].
Qed.
End circle.

(** *** Renaming the nodes *)

Section renaming.
Context (perm : list Z) (Hperm : perm ≡ₚ seqZ 0 (Z.of_nat (length perm))).

Let n := Z.of_nat (length perm).
Definition position (v : Z) : Z := at_index (inverse_permutation perm) v.

Lemma perm_NoDup : NoDup perm.
Proof. rewrite Hperm. apply NoDup_seqZ. Qed.

Lemma perm_lookup i : 0 ≤ i < n → perm !! Z.to_nat i = Some (at_index perm i) ∧ 0 ≤ at_index perm i < n.
Proof.
  intros Hi. unfold at_index. destruct (lookup_lt_is_Some_2 perm (Z.to_nat i)) as [x Hx]; [lia|].
  rewrite Hx. split; [done|]. simpl. apply list_elem_of_lookup_2 in Hx.
  rewrite Hperm in Hx. apply elem_of_seqZ in Hx. unfold n. lia.
Qed.

Lemma inverse_prefix k :
  (k ≤ length perm)%nat →
  let inv := foldl (λ inverse i, <[Z.to_nat (at_index perm (Z.of_nat i)) := Z.of_nat i]> inverse)
    (replicate (length perm) 0) (seq 0 k) in
  length inv = length perm ∧
  ∀ i, 0 ≤ i < Z.of_nat k → inv !! Z.to_nat (at_index perm i) = Some i.
Proof.
  induction k as [|k IH]; intros Hk; cbv zeta; [split; [apply length_replicate|lia]|].
  rewrite seq_S, foldl_app. simpl. destruct IH as [Hl IHk]; [lia|]. split; [by rewrite length_insert|].
  intros i Hi. destruct (decide (i = Z.of_nat k)) as [->|Hne].
  - apply list_lookup_insert_eq. destruct (perm_lookup (Z.of_nat k)); unfold n in *; lia.
  - rewrite list_lookup_insert_ne; [apply IHk; lia|]. intros Heq.
    destruct (perm_lookup i) as [Hi1 ?], (perm_lookup (Z.of_nat k)) as [Hk1 ?]; unfold n in *; try lia.
    assert (at_index perm i = at_index perm (Z.of_nat k)) as E by lia. rewrite E in Hi1.
    pose proof (NoDup_lookup _ _ _ _ perm_NoDup Hi1 Hk1). lia.
Qed.

Lemma position_at i : 0 ≤ i < n → position (at_index perm i) = i.
Proof.
  intros Hi. unfold position, at_index at 1, inverse_permutation.
  destruct (inverse_prefix (length perm)) as [_ H]; [done|]. rewrite H by done. done.
Qed.

Lemma at_position v : 0 ≤ v < n → 0 ≤ position v < n ∧ at_index perm (position v) = v.
Proof.
  intros Hv. assert (v ∈ perm) as Hin by (rewrite Hperm; apply elem_of_seqZ; unfold n in *; lia).
  apply list_elem_of_lookup in Hin as [k Hk]. pose proof (lookup_lt_Some _ _ _ Hk).
  assert (at_index perm (Z.of_nat k) = v) as <- by (unfold at_index; by rewrite Nat2Z.id, Hk).
  rewrite position_at by (unfold n; lia). unfold n. by split; [lia|].
Qed.

Context (degree threshold : Z).
Context (Hdeg : degree ≤ n) (Hodd : Z.rem degree 2 = 1) (Ht : 1 ≤ threshold) (Htd : threshold ≤ degree).

Let h := Z.quot degree 2.

Lemma half_degree : degree = 2 * h + 1 ∧ 0 ≤ h ∧ 2 * h < n.
Proof. pose proof (Z.quot_rem' degree 2). pose proof (Z.quot_pos degree 2). unfold h in *. lia. Qed.

Lemma Harary_GetNeighbor_circle u i :
  0 ≤ u < n → 0 ≤ i < degree →
  Harary_GetNeighbor degree perm u i = Ok (at_index perm (circle_neighbor n h (position u) i)).
Proof.
  intros Hu Hi. destruct half_degree as (Hd & Hh & Hhn). destruct (at_position u Hu) as [Hp _].
  unfold Harary_GetNeighbor. fold n. rewrite IsValidNode_true by done. cbn [fcp_check].
  rewrite (proj2 (andb_true_iff _ _)) by lia. cbn [fcp_check]. fold (position u) h.
  rewrite Z.rem_mod_nonneg by lia. done.
Qed.

Lemma Harary_GetNeighborIndex_circle u v :
  0 ≤ u < n → 0 ≤ v < n →
  Harary_GetNeighborIndex degree perm u v = Ok (circle_index n h (position u) (position v)).
Proof.
  intros Hu Hv. destruct half_degree as (Hd & Hh & Hhn). destruct (at_position u Hu) as [Hp _].
  destruct (at_position v Hv) as [Hq _].
  unfold Harary_GetNeighborIndex, circle_index. fold n. rewrite !IsValidNode_true by done.
  cbn [fcp_check]. fold (position u) (position v) h. rewrite Z.rem_mod_nonneg by lia.
  destruct (h <? _); [done|]. by destruct (_ =? _).
Qed.

Lemma position_inj u v : 0 ≤ u < n → 0 ≤ v < n → u ≠ v → position u ≠ position v.
Proof.
  intros Hu Hv Hne Heq. apply Hne. destruct (at_position u Hu) as [_ <-].
  destruct (at_position v Hv) as [_ E]. by rewrite Heq.
Qed.

Lemma Harary_index_range u v i :
  0 ≤ u < n → 0 ≤ v < n → circle_index n h (position u) (position v) = Some i →
  0 ≤ i < degree ∧ circle_neighbor n h (position u) i = position v.
Proof.
  intros Hu Hv Hi. destruct half_degree as (Hd & Hh & Hhn). rewrite Hd.
  apply circle_index_neighbor in Hi; try (done || lia). 1,2: by apply at_position.
Qed.

(** The two indices of an edge lie symmetrically around the middle. *)
Lemma Harary_indices u v :
  0 ≤ u < n → 0 ≤ v < n → u ≠ v →
  match circle_index n h (position u) (position v), circle_index n h (position v) (position u) with
  | Some i, Some j => i + j = 2 * h ∧ i ≠ h
  | None, None => True
  | _, _ => False
  end.
Proof.
  intros Hu Hv Hne. destruct half_degree as (Hd & Hh & Hhn).
  apply circle_symmetric; [lia|lia|by apply at_position|by apply at_position|by apply position_inj].
Qed.

Lemma Harary_AreNeighbors u v :
  0 ≤ u < n → 0 ≤ v < n →
  AreNeighbors (HararyGraph degree threshold perm) u v =
    Ok (bool_decide (is_Some (circle_index n h (position u) (position v)))).
Proof.
  intros Hu Hv. simpl. fold n. rewrite !IsValidNode_true by done. cbn [fcp_check].
  rewrite Harary_GetNeighborIndex_circle by done. cbn [mbind Res_bind]. f_equal.
  destruct (circle_index _ _ _ _) as [i|] eqn:Hi; [|done].
  destruct (Harary_index_range u v i) as [? _]; [done..|].
  change (bool_decide (is_Some (Some i))) with true. simpl. lia.
Qed.

Lemma Harary_IsOutgoingNeighbor u v :
  0 ≤ u < n → 0 ≤ v < n →
  IsOutgoingNeighbor (HararyGraph degree threshold perm) u v =
    Ok (h <=? default (-1) (circle_index n h (position u) (position v))).
Proof.
  intros Hu Hv. simpl. fold n. rewrite !IsValidNode_true by done. cbn [fcp_check].
  by rewrite Harary_GetNeighborIndex_circle by done.
Qed.

Lemma HararyGraph_laws : GraphLaws (HararyGraph degree threshold perm).
Proof.
  destruct half_degree as (Hd & Hh & Hhn).
  split; cbn [GetNumNodes GetDegree GetThreshold GetNeighbor GetNeighborIndex HararyGraph];
    fold n; intros.
  - lia.
  - destruct (at_position u) as [Hp _]; [done|].
    destruct (circle_neighbor_index n h ltac:(lia) Hhn (position u) i) as [Hr Hi]; [done|lia|].
    eexists. split; [by apply Harary_GetNeighbor_circle|].
    destruct (perm_lookup _ Hr) as [_ Hrange]. split; [done|].
    rewrite Harary_GetNeighborIndex_circle, position_at by done. by rewrite Hi.
  - eexists. split; [by apply Harary_GetNeighborIndex_circle|]. split; [|by apply Harary_AreNeighbors].
    intros i Hi. destruct (Harary_index_range u v i) as [? Hn']; [done..|]. split; [done|].
    rewrite Harary_GetNeighbor_circle, Hn' by done. by destruct (at_position v) as [_ ->].
  - rewrite Harary_AreNeighbors, circle_self by (lia || done || by apply at_position). done.
  - rewrite !Harary_AreNeighbors by done. destruct (decide (u = v)) as [->|Hne]; [done|].
    assert (Hs := Harary_indices u v). by destruct (circle_index _ _ _ _), (circle_index _ _ _ _);
      try done; destruct Hs.
  - rewrite Harary_AreNeighbors in * by done. rewrite !Harary_IsOutgoingNeighbor by done.
    assert (Hs := Harary_indices u v ltac:(done) ltac:(done) ltac:(done)).
    destruct (circle_index n h (position u) (position v)) as [i|],
      (circle_index n h (position v) (position u)) as [j|]; try done.
    simpl. eexists. split; [done|]. f_equal.
    destruct (Z.leb_spec h i), (Z.leb_spec h j); done || lia.
  - rewrite Harary_GetNeighborIndex_circle in * by done. rewrite Harary_IsOutgoingNeighbor by done.
    exists h. rewrite circle_self by (lia || done || by apply at_position). split; [done|].
    match goal with H : Ok _ = Ok _ |- _ => by injection H as -> end.
Qed.
End renaming.

(** ** Properties *)

Lemma graph_factory_ok shuffle num_nodes degree threshold is_random g :
  (∀ l, shuffle l ≡ₚ l) →
  CreateCompleteGraph num_nodes threshold = Ok g ∨
  CreateHararyGraph shuffle num_nodes degree threshold is_random = Ok g →
  GraphLaws g ∧ GetNumNodes g = num_nodes ∧ GetThreshold g = threshold.
Proof.
  intros Hshuffle [Hg|Hg]; unfold CreateCompleteGraph, CreateHararyGraph in Hg; cbv zeta in Hg;
    rewrite !fcp_check_ok in Hg.
  - destruct Hg as (H1 & H2 & H3 & [= <-]). split; [apply CompleteGraph_laws; lia|done].
  - destruct Hg as (H1 & H2 & H3 & H4 & H5 & [= <-]).
    assert (Hp : (if is_random then shuffle (seqZ 0 num_nodes) else seqZ 0 num_nodes) ≡ₚ
      seqZ 0 num_nodes) by (by destruct is_random).
    set (perm := if is_random then _ else _) in *.
    assert (Hl : Z.of_nat (length perm) = num_nodes).
    { rewrite Hp, length_seqZ. lia. }
    split; [|simpl; lia]. apply HararyGraph_laws; rewrite ?Hl; try lia. done.
Qed.

(** What clients and server need of a graph. *)
Record neighbor_contract (g : SecretSharingGraph) : Prop := {
  contract_sizes : 1 ≤ GetThreshold g ≤ GetDegree g ∧ GetDegree g ≤ GetNumNodes g;
  contract_list u i :
    0 ≤ u < GetNumNodes g → 0 ≤ i < GetDegree g →
    ∃ v, GetNeighbor g u i = Ok v ∧ 0 ≤ v < GetNumNodes g ∧ GetNeighborIndex g u v = Ok (Some i);
  contract_index u v i :
    0 ≤ u < GetNumNodes g → 0 ≤ v < GetNumNodes g → GetNeighborIndex g u v = Ok (Some i) →
    0 ≤ i < GetDegree g ∧ GetNeighbor g u i = Ok v;
  contract_adjacent u v :
    0 ≤ u < GetNumNodes g → 0 ≤ v < GetNumNodes g →
    ∃ b, AreNeighbors g u v = Ok b ∧ AreNeighbors g v u = Ok b ∧
      (b = true ↔ ∃ i, GetNeighborIndex g u v = Ok (Some i));
  contract_self u : 0 ≤ u < GetNumNodes g → AreNeighbors g u u = Ok true;
  (** The direction of an edge: the end that has the other one behind itself in
      its list is the same from both ends. *)
  contract_directed u v i j own_u own_v :
    0 ≤ u < GetNumNodes g → 0 ≤ v < GetNumNodes g → u ≠ v →
    GetNeighborIndex g u v = Ok (Some i) → GetNeighborIndex g v u = Ok (Some j) →
    GetNeighborIndex g u u = Ok (Some own_u) → GetNeighborIndex g v v = Ok (Some own_v) →
    IsOutgoingNeighbor g u v = Ok (own_u <? i) ∧ IsOutgoingNeighbor g v u = Ok (own_v <? j) ∧
    (own_u < i ↔ j < own_v)
}.

Lemma strictly_after g (HL : GraphLaws g) u v i own :
  0 ≤ u < GetNumNodes g → 0 ≤ v < GetNumNodes g → u ≠ v →
  GetNeighborIndex g u v = Ok (Some i) → GetNeighborIndex g u u = Ok (Some own) →
  i ≠ own ∧ IsOutgoingNeighbor g u v = Ok (own <? i).
Proof.
  intros Hu Hv Hne Hi Ho. assert (i ≠ own) as Hio.
  { intros ->. destruct (graph_index u v Hu Hv) as (o & Ho' & Hn & _), (graph_index u u Hu Hu) as (o2 & Ho2 & Hn2 & _).
    destruct (Hn own) as [_ H1], (Hn2 own) as [_ H2]; congruence. }
  split; [done|]. destruct (graph_order u v i Hu Hv Hi) as (own' & Ho' & ->). rewrite Ho in Ho'. injection Ho' as <-. f_equal. lia.
Qed.

Lemma laws_contract g : GraphLaws g → neighbor_contract g.
Proof.
  intros HL. split; [apply HL|apply HL| | |apply HL|].
  - intros u v i Hu Hv Hi. destruct (graph_index u v Hu Hv) as (o & Ho & Hn & _). apply Hn. congruence.
  - intros u v Hu Hv. destruct (graph_index u v Hu Hv) as (o & Ho & _ & Ha). exists (bool_decide (is_Some o)).
    split; [done|]. split; [by rewrite <- (graph_symmetric u v)|]. rewrite bool_decide_eq_true, Ho. split.
    + intros [i ->]. by exists i.
    + intros [i [= ->]]. by eexists.
  - intros u v i j ou ov Hu Hv Hne Hi Hj Hou Hov.
    destruct (strictly_after g HL u v i ou) as [Hi' Hu'], (strictly_after g HL v u j ov) as [Hj' Hv']; try done.
    split; [done|]. split; [done|]. destruct (graph_index u v Hu Hv) as (o & Ho & _ & Ha). rewrite Hi in Ho. injection Ho as <-.
    destruct (graph_oriented u v Hu Hv Hne) as (b & Hb & Hnb); [by rewrite Ha, bool_decide_true by (by eexists)|].
    rewrite Hu' in Hb. rewrite Hv' in Hnb. injection Hb as <-. injection Hnb as Hnb. lia.
Qed.


