(* ===== verification/Crypto.v ===== *)
(** * Key agreement and authenticated encryption

    Models [shared/ecdh_key_agreement.cc] and [shared/aes_gcm_encryption.cc]
    over the primitives of BoringSSL, which are outside the repository, as is
    the encoding of messages by protocol buffers. The class [Primitives] names
    these functions and [PrimitivesLaws] the documented facts about them that
    the theorems use; [ToyPrimitives] shows that the laws are consistent. *)

From S2P Require Import Prelude Bytes Prng.

(** The two shares that one client sends to another, [PairOfKeyShares]. *)
Record PairOfKeyShares := { noise_sk_share : list Z; prf_sk_share : list Z }.

#[export] Instance PairOfKeyShares_eq_dec : EqDecision PairOfKeyShares.
Proof. solve_decision. Defined.

Class Primitives := {
  sha256 : list Z → list Z;                          (** [EVP_sha256] *)
  keystream : list Z → Z → Z;                        (** [EVP_aes_256_ctr], zero IV *)
  ec_public_key : list Z → list Z;                   (** compressed point of a private key *)
  ec_set_private_key : list Z → bool;                (** [EC_KEY_set_private_key] succeeds *)
  ec_oct2point : list Z → bool;                      (** [EC_POINT_oct2point] succeeds *)
  ecdh_compute_key : list Z → list Z → list Z;       (** [ECDH_compute_key] *)
  gcm_seal : list Z → list Z → list Z → list Z;      (** key, IV, plaintext *)
  gcm_open : list Z → list Z → list Z → option (list Z);
  SerializeAsString : PairOfKeyShares → list Z;
  ParseFromString : list Z → option PairOfKeyShares
}.

Class PrimitivesLaws (P : Primitives) : Prop := {
  sha256_length x : length (sha256 x) = 32%nat;
  keystream_byte seed i : is_byte (keystream seed i);
  ec_public_key_length sk : length (ec_public_key sk) = 33%nat;
  ec_public_key_valid sk : ec_oct2point (ec_public_key sk) = true;
  ecdh_length sk pk : length (ecdh_compute_key sk pk) = 32%nat;
  ecdh_symmetric sk1 sk2 :
    ecdh_compute_key sk1 (ec_public_key sk2) = ecdh_compute_key sk2 (ec_public_key sk1);
  gcm_seal_length key iv m : length (gcm_seal key iv m) = (length m + 16)%nat;
  gcm_open_seal key iv m : gcm_open key iv (gcm_seal key iv m) = Some m;
  parse_serialize p : ParseFromString (SerializeAsString p) = Some p
}.

(** ** [EcdhKeyAgreement] *)

(** A key pair is given by its private key. *)
Definition PublicKey `{Primitives} (private_key : list Z) : list Z :=
  new_EcdhPublicKey (ec_public_key private_key) kCompressed.

(** The key pair without its public key. *)
Definition CreateFromPrivateKey `{Primitives} (private_key : list Z) : Res (list Z) :=
  if negb (bool_decide (Z.of_nat (length private_key) = EcdhPrivateKey_kSize)) then
    Error INVALID_ARGUMENT "Private key must be of length 32"
  else if negb (ec_set_private_key private_key) then
    Error INVALID_ARGUMENT "Invalid private key."
  else Ok private_key.

Definition ComputeSharedSecret `{Primitives} (private_key other_key : list Z) : Res (list Z) :=
  if negb (bool_decide (Z.of_nat (length other_key) = EcdhPublicKey_kSize)) &&
     negb (bool_decide (Z.of_nat (length other_key) = EcdhPublicKey_kUncompressedSize)) then
    Error INVALID_ARGUMENT "Public key must be of length 33 or 65"
  else if negb (ec_oct2point other_key) then
    Error INVALID_ARGUMENT "Invalid ECDH public key."
  else new_AesKey (ecdh_compute_key private_key other_key).

(** ** [AesGcmEncryption] *)

Definition gcm_kIvSize : nat := 12.
Definition gcm_kTagSize : nat := 16.

(** [iv] is what [RAND_bytes] wrote. *)
Definition Encrypt `{Primitives} (iv key plaintext : list Z) : Res (list Z) :=
  FCP_CHECK negb (bool_decide (key = [])) ;;
  FCP_CHECK bool_decide (Z.of_nat (length key) = AesKey_kSize) ;;
  Ok (iv ++ gcm_seal key iv plaintext).

Definition Decrypt `{Primitives} (key ciphertext : list Z) : Res (list Z) :=
  FCP_CHECK negb (bool_decide (key = [])) ;;
  FCP_CHECK bool_decide (Z.of_nat (length key) = AesKey_kSize) ;;
  if bool_decide (length ciphertext < gcm_kIvSize + gcm_kTagSize)%nat then
    Error DATA_LOSS "Ciphertext is too short."
  else
    match gcm_open key (take gcm_kIvSize ciphertext) (drop gcm_kIvSize ciphertext) with
    | None => Error DATA_LOSS "Verification of ciphertext failed."
    | Some plaintext => Ok plaintext
    end.

Section laws.
Context {P : Primitives} {HP : PrimitivesLaws P}.

Lemma PublicKey_length sk : length (PublicKey sk) = 33%nat.
Proof. unfold PublicKey, new_EcdhPublicKey. rewrite length_take, ec_public_key_length. done. Qed.

Lemma PublicKey_eq sk : PublicKey sk = ec_public_key sk.
Proof.
  unfold PublicKey, new_EcdhPublicKey. rewrite take_ge; [done|]. by rewrite ec_public_key_length.
Qed.

Lemma ComputeSharedSecret_PublicKey sk1 sk2 :
  ComputeSharedSecret sk1 (PublicKey sk2) = Ok (ecdh_compute_key sk1 (ec_public_key sk2)).
Proof.
  unfold ComputeSharedSecret. rewrite PublicKey_length. simpl.
  rewrite PublicKey_eq, ec_public_key_valid. simpl. unfold new_AesKey. by rewrite ecdh_length.
Qed.

Lemma Decrypt_Encrypt iv key plaintext :
  length iv = 12%nat → length key = 32%nat →
  ∃ ciphertext, Encrypt iv key plaintext = Ok ciphertext ∧ ciphertext ≠ [] ∧
    Decrypt key ciphertext = Ok plaintext.
Proof.
  intros Hiv Hkey. assert (key ≠ []) by (by intros ->).
  unfold Encrypt, Decrypt. rewrite bool_decide_false, bool_decide_true by (done || by rewrite Hkey).
  simpl. eexists. split; [done|]. split; [by destruct iv|].
  rewrite bool_decide_false by (rewrite length_app, gcm_seal_length; unfold gcm_kIvSize, gcm_kTagSize; lia).
  rewrite take_app_length', drop_app_length' by done. by rewrite gcm_open_seal.
Qed.
End laws.

(** ** A model of the laws *)

(** Not cryptography: functions simple enough to evaluate, on which the laws
    hold. The "shared secret" of two keys is the sum of their first bytes. *)
#[local] Definition pad (n : nat) (l : list Z) : list Z := resize n 0 l.

Definition ToyPrimitives : Primitives := {|
  sha256 x := pad 32 [foldr (λ b h, (7 * h + b + 1) mod 251) 0 x];
  keystream seed i := (default 0 (seed !! 0%nat) + 31 * i) mod 256;
  ec_public_key sk := pad 33 [2; default 0 (sk !! 0%nat)];
  ec_set_private_key sk := true;
  ec_oct2point pk := true;
  ecdh_compute_key sk pk := pad 32 [default 0 (sk !! 0%nat) + default 0 (pk !! 1%nat)];
  gcm_seal key iv m := m ++ replicate 16 0;
  gcm_open key iv c := Some (take (length c - 16) c);
  SerializeAsString p := Z.of_nat (length (noise_sk_share p)) :: noise_sk_share p ++ prf_sk_share p;
  ParseFromString l :=
    match l with
    | [] => None
    | n :: l => Some {| noise_sk_share := take (Z.to_nat n) l; prf_sk_share := drop (Z.to_nat n) l |}
    end
|}.

Lemma ToyPrimitives_laws : PrimitivesLaws ToyPrimitives.
Proof.
  split; intros; cbn [sha256 keystream ec_public_key ec_oct2point ecdh_compute_key gcm_seal gcm_open
    SerializeAsString ParseFromString ToyPrimitives].
  - apply length_resize.
  - apply Z.mod_pos_bound. lia.
  - apply length_resize.
  - done.
  - apply length_resize.
  - do 2 f_equal. simpl. lia.
  - rewrite length_app, length_replicate. done.
  - rewrite length_app, length_replicate, Nat.add_sub. by rewrite take_app_length.
  - rewrite Nat2Z.id, take_app_length, drop_app_length. by destruct p.
Qed.
