(* ===== verification/Client.v ===== *)
(** * The client: [client/secagg_client*.cc]

    The state classes are the constructors of [ClientState], with the members
    of each class as its fields; an operation of [SecAggClient] returns the new
    state and the events it causes: messages sent to the server and states
    announced to the transition listener. A result [Error] is a status that is
    not OK, which leaves the client as it was.

    What a call draws at random (private keys, the self key, the polynomials of
    the secret sharing, the IVs) is an argument of the call, [Entropy]. The
    asynchronous abort is the schedule of Prng.v, with its message. Counters of
    type [uint32_t] keep their width. *)

From S2P Require Import Prelude Bytes Shamir SecAggVector Prng MapOfMasks Crypto.

(** ** Messages *)

Record ShareKeysRequest := {
  pairs_of_public_keys : list PairOfPublicKeys;
  session_id : list Z
}.

Inductive ServerToClient :=
  | SC_abort (early_success : bool) (diagnostic_info : string)
  | SC_share_keys_request (request : ShareKeysRequest)
  | SC_masked_input_request (encrypted_key_shares : list (list Z))
  | SC_unmasking_request (dead_3_client_ids : list Z)
  | SC_not_set.

(** [NoiseOrPrfKeyShare], a oneof. *)
Inductive NoiseOrPrf := NoShare | NoiseShare (share : list Z) | PrfShare (share : list Z).

#[export] Instance NoiseOrPrf_eq_dec : EqDecision NoiseOrPrf.
Proof. solve_decision. Defined.

Inductive ClientToServer :=
  | CS_abort (diagnostic_info : string)
  | CS_advertise_keys (keys : PairOfPublicKeys)
  | CS_share_keys_response (encrypted_key_shares : list (list Z))
  | CS_masked_input_response (vectors : gmap string (list Z))
  | CS_unmasking_response (noise_or_prf_key_shares : list NoiseOrPrf)
  | CS_not_set.

(** The states announced to [StateTransitionListenerInterface]. *)
Inductive ClientPhase :=
  R0_ADVERTISE_KEYS | R1_SHARE_KEYS | R2_MASKED_INPUT | R3_UNMASKING | COMPLETED | ABORTED_.

Inductive Event := Send (message : ClientToServer) | Transition (phase : ClientPhase).

(** ** State *)

Inductive OtherClientState := kAlive | kDeadAtRound1 | kDeadAtRound2 | kDeadAtRound3.

#[export] Instance OtherClientState_eq_dec : EqDecision OtherClientState.
Proof. solve_decision. Defined.

(** Members common to rounds 0 and 1. *)
Record Config := {
  max_neighbors_expected_ : Z;
  minimum_surviving_ : Z;
  input_vector_specs_ : list InputVectorSpecification
}.

(** The key pairs of round 1, by their private keys. *)
Record R1Keys := { enc_key_agreement_ : list Z; prng_key_agreement_ : list Z }.

Record R2Data := {
  r2_client_id : Z;
  r2_minimum : Z;
  r2_alive : Z;
  r2_number : Z;
  r2_specs : list InputVectorSpecification;
  r2_states : list OtherClientState;
  r2_enc_keys : list (list Z);
  r2_prng_keys : list (list Z);
  r2_own_self_key_share : list Z;
  r2_self_prng_key : list Z;
  r2_session_id : list Z
}.

Record R3Data := {
  r3_client_id : Z;
  r3_alive : Z;
  r3_minimum : Z;
  r3_number : Z;
  r3_states : list OtherClientState;
  r3_pairwise_key_shares : list (list Z);
  r3_self_key_shares : list (list Z)
}.

Inductive ClientState :=
  | R0InputNotSet (c : Config)
  | R0InputSet (c : Config) (input_map : SecAggVectorMap)
  | R1InputNotSet (c : Config) (k : R1Keys)
  | R1InputSet (c : Config) (k : R1Keys) (input_map : SecAggVectorMap)
  | R2InputNotSet (d : R2Data)
  | R2InputSet (d : R2Data) (input_map : SecAggVectorMap)
  | R2WaitingForInput (d : R3Data) (specs : list InputVectorSpecification)
      (map_of_masks : SecAggVectorMap)
  | R3Unmasking (d : R3Data)
  | Aborted (reason : string)
  | Completed.

Definition IsAborted (s : ClientState) : bool := match s with Aborted _ => true | _ => false end.
Definition IsCompletedSuccessfully (s : ClientState) : bool :=
  match s with Completed => true | _ => false end.

Definition ErrorMessage (s : ClientState) : Res string :=
  match s with
  | Aborted reason => Ok reason
  | _ => Error FAILED_PRECONDITION "Error message requested, but client is in another state"
  end.

Record Entropy := {
  fresh_enc_key : list Z;
  fresh_prng_key : list Z;
  rand8 : list Z;            (** bytes of [prng_->Rand8()] *)
  rand_words : list Z;       (** words of the secret sharing *)
  rand_iv : nat → list Z     (** the IV of the encryption for client [i] *)
}.

(** ** Common operations *)

Definition ValidateInput (input_map : SecAggVectorMap) (specs : list InputVectorSpecification) :
    bool :=
  bool_decide (size input_map = length specs) &&
  forallb (λ spec,
    match input_map !! ivs_name spec with
    | None => false
    | Some v => (modulus_ v =? ivs_modulus spec) && (num_elements_ v =? ivs_length spec)
    end) specs.

Definition AbortAndNotifyServer (reason : string) : ClientState * list Event :=
  (Aborted reason, [Send (CS_abort reason); Transition ABORTED_]).

(** The reaction to an abort message, the same in all states that are alive. *)
Definition HandleAbort (early_success : bool) : ClientState * list Event :=
  if early_success then (Completed, [Transition COMPLETED])
  else (Aborted "Aborting because of abort message from the server.", [Transition ABORTED_]).

Definition illegal_message {A} : Res A :=
  Error FAILED_PRECONDITION "Client received a message of another type in this state".
Definition illegal_start {A} : Res A :=
  Error FAILED_PRECONDITION "An illegal start transition was attempted".
Definition illegal_input {A} : Res A :=
  Error FAILED_PRECONDITION "An illegal input transition was attempted".
Definition wrong_input {A} : Res A :=
  Error INVALID_ARGUMENT "The input to SetInput does not match the InputVectorSpecification.".

(** A [uint32_t] converted to [int]. *)
Definition s32 (z : Z) : Z := if z <? 2 ^ 31 then z else z - 2 ^ 32.

(** A call that can fail with an error message for the server: [inl] is the
    message. *)
Abbreviation Outcome A := (Res (string + A)) (only parsing).

Section client.
Context {P : Primitives}.
(** Bound on the samples of the rejection sampling (MapOfMasks.v), and the
    message of the asynchronous abort. *)
Context (fuel : nat) (abort_message : string).

(** ** Round 0 *)

(** [Start]: the state after it holds the new key pairs. *)
Definition fresh_keys (e : Entropy) : R1Keys :=
  {| enc_key_agreement_ := fresh_enc_key e; prng_key_agreement_ := fresh_prng_key e |}.

Definition advertise_keys (e : Entropy) : ClientToServer :=
  CS_advertise_keys {| noise_pk := PublicKey (fresh_prng_key e);
                       enc_pk := PublicKey (fresh_enc_key e) |}.

Definition R0InputNotSet_Start (c : Config) (e : Entropy) : Res (ClientState * list Event) :=
  Ok (R1InputNotSet c (fresh_keys e), [Send (advertise_keys e); Transition R1_SHARE_KEYS]).

Definition R0InputSet_Start (c : Config) (input_map : SecAggVectorMap) (e : Entropy) :
    Res (ClientState * list Event) :=
  Ok (R1InputSet c (fresh_keys e) input_map, [Send (advertise_keys e); Transition R1_SHARE_KEYS]).

Definition Start (s : ClientState) (e : Entropy) : Res (ClientState * list Event) :=
  match s with
  | R0InputNotSet c => R0InputNotSet_Start c e
  | R0InputSet c input_map => R0InputSet_Start c input_map e
  | _ => illegal_start
  end.

(** ** Round 1 *)

(** [Share] on the tape; a tape that is too short ends the run. *)
Definition ShareOnTape (threshold n : Z) (secret tape : list Z) : Res (list (list Z) * list Z) :=
  r ← Share threshold n secret tape;
  match r with Some x => Ok x | None => Crash end.

(** The shares of the pairwise key and of the self key; nothing happens if
    both are there already. *)
Definition SetUpShares (threshold n : Z) (agreement_key self_prng_key tape : list Z)
    (self_prng_key_shares pairwise_prng_key_shares : list (list Z)) :
    Res (list (list Z) * list (list Z)) :=
  if bool_decide (pairwise_prng_key_shares = []) && bool_decide (self_prng_key_shares = []) then
    '(pairwise, tape) ← ShareOnTape threshold n agreement_key tape;
    '(self, _) ← ShareOnTape threshold n self_prng_key tape;
    Ok (self, pairwise)
  else Ok (self_prng_key_shares, pairwise_prng_key_shares).

(** The variables of the loop over the public keys. *)
Record KeysLoop := {
  kl_client_id : option Z;          (** [client_id] once [client_id_set] *)
  kl_alive : Z;
  kl_enc_keys : list (list Z);
  kl_prng_keys : list (list Z);
  kl_states : list OtherClientState
}.

Definition keys_loop_step (k : R1Keys) (i : Z) (keys : PairOfPublicKeys) (l : KeysLoop) :
    Outcome KeysLoop :=
  if bool_decide (enc_pk keys = []) || bool_decide (noise_pk keys = []) then
    Ok (inr {| kl_client_id := kl_client_id l; kl_alive := u32 (kl_alive l - 1);
               kl_enc_keys := kl_enc_keys l ++ [[]]; kl_prng_keys := kl_prng_keys l ++ [[]];
               kl_states := <[Z.to_nat i := kDeadAtRound1]> (kl_states l) |})
  else if negb (bool_decide (Z.of_nat (length (enc_pk keys)) = EcdhPublicKey_kSize)) ||
          negb (bool_decide (Z.of_nat (length (noise_pk keys)) = EcdhPublicKey_kSize)) then
    Ok (inl "Invalid public key in request from server.")
  else
    let enc := new_EcdhPublicKey (enc_pk keys) kCompressed in
    let prng := new_EcdhPublicKey (noise_pk keys) kCompressed in
    if bool_decide (enc = PublicKey (enc_key_agreement_ k)) &&
       bool_decide (prng = PublicKey (prng_key_agreement_ k)) then
      match kl_client_id l with
      | Some _ => Ok (inl "Found this client's keys in the ShareKeysRequest twice somehow.")
      | None =>
          Ok (inr {| kl_client_id := Some i; kl_alive := kl_alive l;
                     kl_enc_keys := kl_enc_keys l ++ [[]]; kl_prng_keys := kl_prng_keys l ++ [[]];
                     kl_states := kl_states l |})
      end
    else
      match ComputeSharedSecret (enc_key_agreement_ k) enc,
            ComputeSharedSecret (prng_key_agreement_ k) prng with
      | Ok shared_enc_key, Ok shared_prng_key =>
          Ok (inr {| kl_client_id := kl_client_id l; kl_alive := kl_alive l;
                     kl_enc_keys := kl_enc_keys l ++ [shared_enc_key];
                     kl_prng_keys := kl_prng_keys l ++ [shared_prng_key];
                     kl_states := kl_states l |})
      | Crash, _ | _, Crash => Crash
      | _, _ => Ok (inl "Invalid public key in request from server.")
      end.

Fixpoint keys_loop (k : R1Keys) (i : Z) (pairs : list PairOfPublicKeys) (abort : AsyncAbort)
    (l : KeysLoop) : Res ((string + KeysLoop) * AsyncAbort) :=
  match pairs with
  | [] => Ok (inr l, abort)
  | keys :: rest =>
      let '(signalled, abort) := Signalled abort in
      if signalled then Ok (inl abort_message, abort)
      else
        r ← keys_loop_step k i keys l;
        match r with
        | inl error => Ok (inl error, abort)
        | inr l => keys_loop k (i + 1) rest abort l
        end
  end.

(** What [HandleShareKeysRequest] leaves in its output parameters. *)
Record ShareKeysResult := {
  sk_client_id : Z;
  sk_alive : Z;
  sk_number : Z;
  sk_enc_keys : list (list Z);
  sk_prng_keys : list (list Z);
  sk_states : list OtherClientState;
  sk_self_shares : list (list Z);
  sk_pairwise_shares : list (list Z);
  sk_session_id : list Z
}.

Definition HandleShareKeysRequest (request : ShareKeysRequest) (c : Config) (k : R1Keys)
    (self_prng_key tape : list Z) (abort : AsyncAbort) :
    Res ((string + ShareKeysResult) * AsyncAbort) :=
  let pairs := pairs_of_public_keys request in
  let n := Z.of_nat (length pairs) in
  if n <? s32 (minimum_surviving_ c) then
    Ok (inl "The ShareKeysRequest received does not contain enough participants.", abort)
  else if s32 (max_neighbors_expected_ c) <? n then
    Ok (inl "The ShareKeysRequest received contains too many participants.", abort)
  else
    '(self_shares, pairwise_shares) ←
      SetUpShares (s32 (minimum_surviving_ c)) n (prng_key_agreement_ k) self_prng_key tape [] [];
    if negb (bool_decide (length (session_id request) = kSha256Length)) then
      Ok (inl "Session ID is absent in ShareKeysRequest or has an unexpected length.", abort)
    else
      '(r, abort) ← keys_loop k 0 pairs abort
        {| kl_client_id := None; kl_alive := n; kl_enc_keys := []; kl_prng_keys := [];
           kl_states := replicate (length pairs) kAlive |};
      match r with
      | inl error => Ok (inl error, abort)
      | inr l =>
          if kl_alive l <? minimum_surviving_ c then
            Ok (inl "There are not enough clients to complete this protocol session. Aborting.",
                abort)
          else
            match kl_client_id l with
            | None => Ok (inl "The ShareKeysRequest sent by the server doesn't contain this client's public keys.", abort)
            | Some id =>
                Ok (inr {| sk_client_id := id; sk_alive := kl_alive l; sk_number := n;
                           sk_enc_keys := kl_enc_keys l; sk_prng_keys := kl_prng_keys l;
                           sk_states := kl_states l; sk_self_shares := self_shares;
                           sk_pairwise_shares := pairwise_shares;
                           sk_session_id := session_id request |}, abort)
            end
      end.

(** The loop of [EncryptAndSendResponse]: [None] if the signal was seen. *)
Fixpoint encrypt_loop (e : Entropy) (i : nat) (enc_keys pairwise self : list (list Z))
    (abort : AsyncAbort) : Res (option (list (list Z)) * AsyncAbort) :=
  match enc_keys with
  | [] => Ok (Some [], abort)
  | key :: rest =>
      let '(signalled, abort) := Signalled abort in
      if signalled then Ok (None, abort)
      else
        c ← (if bool_decide (key = []) then Ok []
             else Encrypt (rand_iv e i) key (SerializeAsString
                    {| noise_sk_share := default [] (pairwise !! i);
                       prf_sk_share := default [] (self !! i) |}));
        '(cs, abort) ← encrypt_loop e (S i) rest pairwise self abort;
        Ok (option_map (cons c) cs, abort)
  end.

Definition EncryptAndSendResponse (e : Entropy) (enc_keys pairwise self : list (list Z))
    (abort : AsyncAbort) : Res (option ClientToServer * AsyncAbort) :=
  '(cs, abort) ← encrypt_loop e 0 enc_keys pairwise self abort;
  Ok (option_map CS_share_keys_response cs, abort).

(** [HandleMessage] on a [ShareKeysRequest], in both states of round 1. The
    state with an input polls the signal once more before it encrypts. *)
Definition R1HandleShareKeys (c : Config) (k : R1Keys) (input : option SecAggVectorMap)
    (request : ShareKeysRequest) (e : Entropy) (abort : AsyncAbort) :
    Res (ClientState * list Event) :=
  let self_prng_key := take (Z.to_nat AesKey_kSize) (rand8 e) in
  self_prng_key ← new_AesKey self_prng_key;
  '(r, abort) ← HandleShareKeysRequest request c k self_prng_key (rand_words e) abort;
  match r with
  | inl error => Ok (AbortAndNotifyServer error)
  | inr r =>
      let '(signalled, abort) :=
        match input with Some _ => Signalled abort | None => (false, abort) end in
      if signalled then Ok (AbortAndNotifyServer abort_message)
      else
        '(response, abort) ←
          EncryptAndSendResponse e (sk_enc_keys r) (sk_pairwise_shares r) (sk_self_shares r) abort;
        match response with
        | None => Ok (AbortAndNotifyServer abort_message)
        | Some response =>
            let d := {| r2_client_id := sk_client_id r; r2_minimum := minimum_surviving_ c;
                        r2_alive := sk_alive r; r2_number := sk_number r;
                        r2_specs := input_vector_specs_ c; r2_states := sk_states r;
                        r2_enc_keys := sk_enc_keys r; r2_prng_keys := sk_prng_keys r;
                        r2_own_self_key_share :=
                          default [] (sk_self_shares r !! Z.to_nat (sk_client_id r));
                        r2_self_prng_key := self_prng_key; r2_session_id := sk_session_id r |} in
            Ok (match input with None => R2InputNotSet d | Some m => R2InputSet d m end,
                [Send response; Transition R2_MASKED_INPUT])
        end
  end.

(** ** Round 2 *)

(** The variables of the loop over the encrypted shares. *)
Record SharesLoop := {
  sl_alive : Z;
  sl_states : list OtherClientState;
  sl_pairwise : list (list Z);
  sl_self : list (list Z)
}.

Definition shares_loop_push (l : SharesLoop) (pairwise self : list Z) : SharesLoop :=
  {| sl_alive := sl_alive l; sl_states := sl_states l;
     sl_pairwise := sl_pairwise l ++ [pairwise]; sl_self := sl_self l ++ [self] |}.

Definition shares_loop_step (d : R2Data) (i : Z) (encrypted : list Z) (l : SharesLoop) :
    Outcome SharesLoop :=
  if i =? r2_client_id d then Ok (inr (shares_loop_push l [] (r2_own_self_key_share d)))
  else if negb (bool_decide (default kAlive (sl_states l !! Z.to_nat i) = kAlive)) then
    if negb (bool_decide (encrypted = [])) then
      Ok (inl "Received encrypted key shares from an aborted client.")
    else Ok (inr (shares_loop_push l [] []))
  else if bool_decide (encrypted = []) then
    Ok (inr (shares_loop_push
               {| sl_alive := u32 (sl_alive l - 1);
                  sl_states := <[Z.to_nat i := kDeadAtRound2]> (sl_states l);
                  sl_pairwise := sl_pairwise l; sl_self := sl_self l |} [] []))
  else
    match Decrypt (default [] (r2_enc_keys d !! Z.to_nat i)) encrypted with
    | Crash => Crash
    | Error _ _ => Ok (inl "Authentication of encrypted data failed.")
    | Ok plaintext =>
        match ParseFromString plaintext with
        | None => Ok (inl "Unable to parse decrypted pair of key shares.")
        | Some p => Ok (inr (shares_loop_push l (noise_sk_share p) (prf_sk_share p)))
        end
    end.

Fixpoint shares_loop (d : R2Data) (i : Z) (encrypted : list (list Z)) (abort : AsyncAbort)
    (l : SharesLoop) : Res ((string + SharesLoop) * AsyncAbort) :=
  match encrypted with
  | [] => Ok (inr l, abort)
  | x :: rest =>
      let '(signalled, abort) := Signalled abort in
      if signalled then Ok (inl abort_message, abort)
      else
        r ← shares_loop_step d i x l;
        match r with
        | inl error => Ok (inl error, abort)
        | inr l => shares_loop d (i + 1) rest abort l
        end
  end.

(** The loop that sorts the keys of the living neighbors: those before this
    client are added, those after it subtracted. [None] if aborted. *)
Fixpoint keys_to_use (client_id i : Z) (states : list OtherClientState) (prng_keys : list (list Z))
    (to_add to_subtract : list (list Z)) (abort : AsyncAbort) :
    option (list (list Z) * list (list Z)) * AsyncAbort :=
  match states with
  | [] => (Some (to_add, to_subtract), abort)
  | state :: rest =>
      let '(signalled, abort) := Signalled abort in
      if signalled then (None, abort)
      else if (i =? client_id) || negb (bool_decide (state = kAlive)) then
        keys_to_use client_id (i + 1) rest prng_keys to_add to_subtract abort
      else
        let key := default [] (prng_keys !! Z.to_nat i) in
        if i <? client_id then
          keys_to_use client_id (i + 1) rest prng_keys (to_add ++ [key]) to_subtract abort
        else keys_to_use client_id (i + 1) rest prng_keys to_add (to_subtract ++ [key]) abort
  end.

Definition HandleMaskedInputCollectionRequest (d : R2Data) (encrypted_key_shares : list (list Z))
    (abort : AsyncAbort) : Outcome (SecAggVectorMap * SharesLoop) :=
  if negb (bool_decide (Z.of_nat (length encrypted_key_shares) = s32 (r2_number d))) then
    Ok (inl "The number of encrypted shares sent by the server does not match the number of clients.")
  else
    '(r, abort) ← shares_loop d 0 encrypted_key_shares abort
      {| sl_alive := r2_alive d; sl_states := r2_states d; sl_pairwise := []; sl_self := [] |};
    match r with
    | inl error => Ok (inl error)
    | inr l =>
        if sl_alive l <? r2_minimum d then
          Ok (inl "There are not enough clients to complete this protocol session. Aborting.")
        else
          let '(keys, abort) :=
            keys_to_use (r2_client_id d) 0 (sl_states l) (r2_prng_keys d)
              [r2_self_prng_key d] [] abort in
          match keys with
          | None => Ok (inl abort_message)
          | Some (to_add, to_subtract) =>
              masks ← MapOfMasks sha256 keystream fuel to_add to_subtract (r2_specs d)
                        (r2_session_id d) abort;
              match masks with
              | None => Ok (inl abort_message)
              | Some masks => Ok (inr (masks, l))
              end
          end
    end.

Definition AddSecAggVectors (v1 v2 : SecAggVector) : Res SecAggVector :=
  FCP_CHECK modulus_ v1 =? modulus_ v2 ;;
  let modulus := modulus_ v1 in
  vec1 ← GetAsUint64Vector v1;
  vec2 ← GetAsUint64Vector v2;
  FCP_CHECK bool_decide (length vec1 = length vec2) ;;
  SecAggVector_of_span (zip_with (λ x y, u64 (x + y) mod modulus) vec1 vec2) modulus false.

Definition SendMaskedInput (input_map map_of_masks : SecAggVectorMap) : Res ClientToServer :=
  vectors ← for_each_entry (λ name input,
    match map_of_masks !! name with
    | None => Crash
    | Some mask =>
        sum ← AddSecAggVectors input mask;
        '(bytes, _) ← TakePackedBytes sum;
        Ok bytes
    end) input_map ∅;
  Ok (CS_masked_input_response vectors).

Definition R3_of_R2 (d : R2Data) (l : SharesLoop) : R3Data :=
  {| r3_client_id := r2_client_id d; r3_alive := sl_alive l; r3_minimum := r2_minimum d;
     r3_number := r2_number d; r3_states := sl_states l; r3_pairwise_key_shares := sl_pairwise l;
     r3_self_key_shares := sl_self l |}.

(** [HandleMessage] on a [MaskedInputCollectionRequest], in both states. *)
Definition R2HandleMaskedInput (d : R2Data) (input : option SecAggVectorMap)
    (encrypted_key_shares : list (list Z)) (abort : AsyncAbort) : Res (ClientState * list Event) :=
  r ← HandleMaskedInputCollectionRequest d encrypted_key_shares abort;
  match r with
  | inl error => Ok (AbortAndNotifyServer error)
  | inr (masks, l) =>
      match input with
      | None => Ok (R2WaitingForInput (R3_of_R2 d l) (r2_specs d) masks, [Transition R2_MASKED_INPUT])
      | Some input_map =>
          message ← SendMaskedInput input_map masks;
          Ok (R3Unmasking (R3_of_R2 d l), [Send message; Transition R3_UNMASKING])
      end
  end.

(** ** Round 3 *)

(** The loop over [dead_3_client_ids]. *)
Fixpoint dead_loop (d : R3Data) (ids : list Z) (alive : Z) (states : list OtherClientState) :
    string + (Z * list OtherClientState) :=
  match ids with
  | [] => inr (alive, states)
  | i :: rest =>
      let id := u32 (i - 1) in
      if id =? r3_client_id d then
        inl "The received UnmaskingRequest states this client has aborted, but this client had not yet aborted."%string
      else if r3_number d <=? id then
        inl "The received UnmaskingRequest contains a client id that does not correspond to any client."%string
      else
        match default kDeadAtRound1 (states !! Z.to_nat id) with
        | kAlive => dead_loop d rest (u32 (alive - 1)) (<[Z.to_nat id := kDeadAtRound3]> states)
        | kDeadAtRound3 =>
            inl "The received UnmaskingRequest repeated a client more than once as a dead client."%string
        | _ =>
            inl "The received UnmaskingRequest considers a client dead in round 3 that was already considered dead."%string
        end
  end.

(** The loop that builds the response. *)
Fixpoint unmasking_loop (d : R3Data) (i : nat) (states : list OtherClientState)
    (abort : AsyncAbort) : option (list NoiseOrPrf) :=
  match states with
  | [] => Some []
  | state :: rest =>
      let '(signalled, abort) := Signalled abort in
      if signalled then None
      else
        let share :=
          match state with
          | kAlive => PrfShare (default [] (r3_self_key_shares d !! i))
          | kDeadAtRound3 => NoiseShare (default [] (r3_pairwise_key_shares d !! i))
          | _ => NoShare
          end in
        option_map (cons share) (unmasking_loop d (S i) rest abort)
  end.

Definition R3HandleUnmasking (d : R3Data) (dead_3_client_ids : list Z) (abort : AsyncAbort) :
    ClientState * list Event :=
  let '(signalled, abort) := Signalled abort in
  if signalled then AbortAndNotifyServer abort_message
  else
    match dead_loop d dead_3_client_ids (r3_alive d) (r3_states d) with
    | inl error => AbortAndNotifyServer error
    | inr (alive, states) =>
        if alive <? r3_minimum d then
          AbortAndNotifyServer
            "Not enough clients survived. The server should not have sent this UnmaskingRequest."
        else
          match unmasking_loop d 0 (take (Z.to_nat (r3_number d)) states) abort with
          | None => AbortAndNotifyServer abort_message
          | Some shares => (Completed, [Send (CS_unmasking_response shares); Transition COMPLETED])
          end
    end.

(** ** The operations of [SecAggClient] *)

(** [HandleMessage] of each state; one that handles no message but an abort
    leaves the others to the base class. *)
Definition R0InputNotSet_HandleMessage (message : ServerToClient) : Res (ClientState * list Event) :=
  match message with
  | SC_abort early_success _ => Ok (HandleAbort early_success)
  | _ => illegal_message
  end.

Definition R0InputSet_HandleMessage (message : ServerToClient) : Res (ClientState * list Event) :=
  match message with
  | SC_abort early_success _ => Ok (HandleAbort early_success)
  | _ => illegal_message
  end.

Definition R1InputNotSet_HandleMessage (c : Config) (k : R1Keys) (message : ServerToClient)
    (e : Entropy) (abort : AsyncAbort) : Res (ClientState * list Event) :=
  match message with
  | SC_abort early_success _ => Ok (HandleAbort early_success)
  | SC_share_keys_request request => R1HandleShareKeys c k None request e abort
  | _ => illegal_message
  end.

Definition R1InputSet_HandleMessage (c : Config) (k : R1Keys) (input_map : SecAggVectorMap)
    (message : ServerToClient) (e : Entropy) (abort : AsyncAbort) : Res (ClientState * list Event) :=
  match message with
  | SC_abort early_success _ => Ok (HandleAbort early_success)
  | SC_share_keys_request request => R1HandleShareKeys c k (Some input_map) request e abort
  | _ => illegal_message
  end.

Definition R2InputNotSet_HandleMessage (d : R2Data) (message : ServerToClient) (abort : AsyncAbort) :
    Res (ClientState * list Event) :=
  match message with
  | SC_abort early_success _ => Ok (HandleAbort early_success)
  | SC_masked_input_request shares => R2HandleMaskedInput d None shares abort
  | _ => illegal_message
  end.

Definition R2InputSet_HandleMessage (d : R2Data) (input_map : SecAggVectorMap)
    (message : ServerToClient) (abort : AsyncAbort) : Res (ClientState * list Event) :=
  match message with
  | SC_abort early_success _ => Ok (HandleAbort early_success)
  | SC_masked_input_request shares => R2HandleMaskedInput d (Some input_map) shares abort
  | _ => illegal_message
  end.

Definition R2WaitingForInput_HandleMessage (message : ServerToClient) :
    Res (ClientState * list Event) :=
  match message with
  | SC_abort early_success _ => Ok (HandleAbort early_success)
  | _ => illegal_message
  end.

Definition R3Unmasking_HandleMessage (d : R3Data) (message : ServerToClient) (abort : AsyncAbort) :
    Res (ClientState * list Event) :=
  match message with
  | SC_abort early_success _ => Ok (HandleAbort early_success)
  | SC_unmasking_request ids => Ok (R3HandleUnmasking d ids abort)
  | _ => illegal_message
  end.

Definition HandleMessage (s : ClientState) (message : ServerToClient) (e : Entropy)
    (abort : AsyncAbort) : Res (ClientState * list Event) :=
  match s with
  | R0InputNotSet _ => R0InputNotSet_HandleMessage message
  | R0InputSet _ _ => R0InputSet_HandleMessage message
  | R1InputNotSet c k => R1InputNotSet_HandleMessage c k message e abort
  | R1InputSet c k input_map => R1InputSet_HandleMessage c k input_map message e abort
  | R2InputNotSet d => R2InputNotSet_HandleMessage d message abort
  | R2InputSet d input_map => R2InputSet_HandleMessage d input_map message abort
  | R2WaitingForInput _ _ _ => R2WaitingForInput_HandleMessage message
  | R3Unmasking d => R3Unmasking_HandleMessage d message abort
  | Aborted _ | Completed => illegal_message
  end.

(** [SetInput] of the states that accept one. *)
Definition R0InputNotSet_SetInput (c : Config) (input_map : SecAggVectorMap) :
    Res (ClientState * list Event) :=
  if ValidateInput input_map (input_vector_specs_ c) then
    Ok (R0InputSet c input_map, [Transition R0_ADVERTISE_KEYS])
  else wrong_input.

Definition R1InputNotSet_SetInput (c : Config) (k : R1Keys) (input_map : SecAggVectorMap) :
    Res (ClientState * list Event) :=
  if ValidateInput input_map (input_vector_specs_ c) then
    Ok (R1InputSet c k input_map, [Transition R1_SHARE_KEYS])
  else wrong_input.

Definition R2InputNotSet_SetInput (d : R2Data) (input_map : SecAggVectorMap) :
    Res (ClientState * list Event) :=
  if ValidateInput input_map (r2_specs d) then
    Ok (R2InputSet d input_map, [Transition R2_MASKED_INPUT])
  else wrong_input.

Definition R2WaitingForInput_SetInput (d : R3Data) (specs : list InputVectorSpecification)
    (map_of_masks input_map : SecAggVectorMap) : Res (ClientState * list Event) :=
  if ValidateInput input_map specs then
    message ← SendMaskedInput input_map map_of_masks;
    Ok (R3Unmasking d, [Send message; Transition R3_UNMASKING])
  else wrong_input.

Definition SetInput (s : ClientState) (input_map : SecAggVectorMap) : Res (ClientState * list Event) :=
  match s with
  | R0InputNotSet c => R0InputNotSet_SetInput c input_map
  | R1InputNotSet c k => R1InputNotSet_SetInput c k input_map
  | R2InputNotSet d => R2InputNotSet_SetInput d input_map
  | R2WaitingForInput d specs masks => R2WaitingForInput_SetInput d specs masks input_map
  | _ => illegal_input
  end.

(** [SecAggClient::Abort]: nothing happens in a terminal state. *)
Definition Abort (s : ClientState) (reason : string) : Res (ClientState * list Event) :=
  if IsAborted s || IsCompletedSuccessfully s then Ok (s, [])
  else Ok (AbortAndNotifyServer ("Abort upon external request for reason <" +:+ reason +:+ ">.")).

(** A call of a public method, and the client after it: a status that is not
    OK leaves the state as it was. *)
Inductive ClientOp :=
  | OpStart (e : Entropy)
  | OpAbort (reason : string)
  | OpSetInput (input_map : SecAggVectorMap)
  | OpReceiveMessage (message : ServerToClient) (e : Entropy) (abort : AsyncAbort).

Definition run_op (s : ClientState) (op : ClientOp) : Res (ClientState * list Event) :=
  match op with
  | OpStart e => Start s e
  | OpAbort reason => Abort s reason
  | OpSetInput input_map => SetInput s input_map
  | OpReceiveMessage message e abort => HandleMessage s message e abort
  end.

Inductive client_step (s : ClientState) : list Event → ClientState → Prop :=
  | step_ok op s' events : run_op s op = Ok (s', events) → client_step s events s'
  | step_error op code message : run_op s op = Error code message → client_step s [] s.

Inductive client_run : ClientState → list Event → ClientState → Prop :=
  | run_nil s : client_run s [] s
  | run_cons s events s' events' s'' :
      client_step s events s' → client_run s' events' s'' → client_run s (events ++ events') s''.

(** [ReceiveMessage] tells the caller whether the session goes on. *)
Definition ReceiveMessage (s : ClientState) (message : ServerToClient) (e : Entropy)
    (abort : AsyncAbort) : ClientState * list Event * Res bool :=
  match HandleMessage s message e abort with
  | Ok (s', events) => (s', events, Ok (negb (IsAborted s' || IsCompletedSuccessfully s')))
  | Error code message => (s, [], Error code message)
  | Crash => (s, [], Crash)
  end.

(** The constructor of [SecAggClient]. *)
Definition new_SecAggClient (max_neighbors_expected minimum_surviving : Z)
    (specs : list InputVectorSpecification) : ClientState * list Event :=
  (R0InputNotSet {| max_neighbors_expected_ := u32 max_neighbors_expected;
                    minimum_surviving_ := u32 minimum_surviving;
                    input_vector_specs_ := specs |}, [Transition R0_ADVERTISE_KEYS]).
End client.
