(* ===== verification/ClientCorrect.v ===== *)
(** * Correctness of the client

    An invariant of the state of a client, what its unmasking response may
    reveal, the order of its messages, and the masked input that it sends. *)

From Stdlib Require Import Sorted.
From S2P Require Import Prelude Bytes Math Interpolation Shamir SecAggVector SecAggCodec.
From S2P Require Import SecAggBranchless SecAggVectorCorrect Prng MapOfMasks MasksCorrect Crypto.
From S2P Require Import Client.

(** ** Counting the living neighbors *)

Definition count_alive (states : list OtherClientState) : Z :=
  Z.of_nat (length (filter (λ s, s = kAlive) states)).

Lemma count_alive_cons s states :
  count_alive (s :: states) = (if decide (s = kAlive) then 1 else 0) + count_alive states.
Proof. unfold count_alive. rewrite filter_cons. destruct (decide (s = kAlive)); simpl; lia. Qed.

Lemma count_alive_bound states : 0 ≤ count_alive states ≤ Z.of_nat (length states).
Proof. unfold count_alive. pose proof (length_filter (λ s, s = kAlive) states). lia. Qed.

(** Marking a living neighbor as dead. *)
Lemma count_alive_kill states i s :
  states !! i = Some kAlive → s ≠ kAlive →
  count_alive (<[i := s]> states) = count_alive states - 1 ∧ 1 ≤ count_alive states.
Proof.
  revert i. induction states as [|x states IH]; intros [|i] Hi Hs; simpl in *; try done.
  - injection Hi as ->. rewrite !count_alive_cons. rewrite decide_False, decide_True by done.
    pose proof (count_alive_bound states). lia.
  - rewrite !count_alive_cons. destruct (IH i Hi Hs) as [-> ?]. destruct (decide (x = kAlive)); lia.
Qed.

Lemma count_alive_replicate n : count_alive (replicate n kAlive) = Z.of_nat n.
Proof. induction n as [|n IH]; [done|]. simpl. rewrite count_alive_cons, IH. simpl. lia. Qed.

(** ** The invariant *)

(** What every state from round 2 on knows about the neighbors. *)
Record neighbors_ok (client_id alive minimum number : Z) (states : list OtherClientState)
    (allowed : OtherClientState → Prop) : Prop := {
  nb_id : 0 ≤ client_id < number;
  nb_number : number = Z.of_nat (length states);
  nb_small : number < 2 ^ 31;
  nb_self : states !! Z.to_nat client_id = Some kAlive;
  nb_alive : alive = count_alive states;
  nb_minimum : minimum ≤ alive;
  nb_states : Forall allowed states
}.

Definition known_in_round_2 (s : OtherClientState) : Prop := s = kAlive ∨ s = kDeadAtRound1.
Definition known_in_round_3 (s : OtherClientState) : Prop :=
  s = kAlive ∨ s = kDeadAtRound1 ∨ s = kDeadAtRound2.

(** The keys shared with the living neighbors. *)
Definition keys_ok (client_id : Z) (states : list OtherClientState) (keys : list (list Z)) : Prop :=
  length keys = length states ∧
  ∀ i k, keys !! i = Some k → Z.of_nat i ≠ client_id → states !! i = Some kAlive →
    length k = 32%nat.

Record r2_ok (d : R2Data) : Prop := {
  r2_neighbors : neighbors_ok (r2_client_id d) (r2_alive d) (r2_minimum d) (r2_number d)
                   (r2_states d) known_in_round_2;
  r2_enc : keys_ok (r2_client_id d) (r2_states d) (r2_enc_keys d);
  r2_prng : keys_ok (r2_client_id d) (r2_states d) (r2_prng_keys d)
}.

Record r3_ok (d : R3Data) : Prop := {
  r3_neighbors : neighbors_ok (r3_client_id d) (r3_alive d) (r3_minimum d) (r3_number d)
                   (r3_states d) known_in_round_3;
  r3_pairwise_length : length (r3_pairwise_key_shares d) = length (r3_states d);
  r3_self_length : length (r3_self_key_shares d) = length (r3_states d)
}.

Definition config_ok (c : Config) : Prop :=
  0 ≤ max_neighbors_expected_ c < 2 ^ 32 ∧ 0 ≤ minimum_surviving_ c < 2 ^ 32.

Definition client_ok (s : ClientState) : Prop :=
  match s with
  | R0InputNotSet c | R0InputSet c _ | R1InputNotSet c _ | R1InputSet c _ _ => config_ok c
  | R2InputNotSet d | R2InputSet d _ => r2_ok d
  | R2WaitingForInput d _ _ | R3Unmasking d => r3_ok d
  | Aborted _ | Completed => True
  end.

Section client.
Context {P : Primitives} {HP : PrimitivesLaws P} (fuel : nat) (abort_message : string).

(** *** Round 1 *)

(** Every key of a living neighbor, other than this client, has 32 bytes. *)
Definition partial_keys (id : option Z) (states : list OtherClientState) (keys : list (list Z)) :
    Prop :=
  ∀ j k, keys !! j = Some k → id ≠ Some (Z.of_nat j) → states !! j = Some kAlive →
    length k = 32%nat.

Lemma partial_keys_snoc id states keys key :
  partial_keys id states keys →
  (id ≠ Some (Z.of_nat (length keys)) → states !! length keys = Some kAlive → length key = 32%nat) →
  partial_keys id states (keys ++ [key]).
Proof.
  intros Hk Hkey j k [Hj|[Hj1 Hj2]]%lookup_app_Some; [by apply Hk|].
  apply list_lookup_singleton_Some in Hj2 as [? <-]. by replace j with (length keys) by lia.
Qed.

Lemma partial_keys_kill id states keys i s :
  partial_keys id states keys → s ≠ kAlive → partial_keys id (<[i := s]> states) keys.
Proof.
  intros Hk Hs j k Hj Hid [[? [? ?]]|[? ?]]%list_lookup_insert_Some; [done|by eapply Hk].
Qed.

Lemma partial_keys_found i states keys :
  partial_keys None states keys → partial_keys (Some i) states keys.
Proof. intros Hk j k Hj _. by apply (Hk j k Hj). Qed.

(** The variables of the loop after the first [i] of [n] clients. *)
Record keys_loop_inv (n : nat) (i : Z) (l : KeysLoop) : Prop := {
  ki_id : ∀ id, kl_client_id l = Some id → 0 ≤ id < i ∧ kl_states l !! Z.to_nat id = Some kAlive;
  ki_length : length (kl_states l) = n;
  ki_alive : kl_alive l = count_alive (kl_states l);
  ki_states : Forall known_in_round_2 (kl_states l);
  ki_enc : Z.of_nat (length (kl_enc_keys l)) = i;
  ki_prng : Z.of_nat (length (kl_prng_keys l)) = i;
  ki_rest : ∀ j, i ≤ Z.of_nat j → (j < n)%nat → kl_states l !! j = Some kAlive;
  ki_enc_keys : partial_keys (kl_client_id l) (kl_states l) (kl_enc_keys l);
  ki_prng_keys : partial_keys (kl_client_id l) (kl_states l) (kl_prng_keys l)
}.

Lemma new_AesKey_ecdh sk pk : new_AesKey (ecdh_compute_key sk pk) = Ok (ecdh_compute_key sk pk).
Proof. unfold new_AesKey. by rewrite ecdh_length. Qed.

Lemma ComputeSharedSecret_ok sk pk key : ComputeSharedSecret sk pk = Ok key → length key = 32%nat.
Proof.
  unfold ComputeSharedSecret. destruct (_ && _); [done|]. destruct (negb _); [done|].
  rewrite new_AesKey_ecdh. intros [= <-]. apply ecdh_length.
Qed.

Lemma keys_loop_step_inv k n i keys l l' :
  keys_loop_inv n i l → 0 ≤ i < Z.of_nat n → Z.of_nat n < 2 ^ 31 →
  keys_loop_step k i keys l = Ok (inr l') → keys_loop_inv n (i + 1) l'.
Proof.
  intros [Hid Hlen Hal Hst Henc Hprng Hrest Hek Hpk] Hi Hn. unfold keys_loop_step.
  pose proof (count_alive_bound (kl_states l)).
  assert (Hself : kl_states l !! Z.to_nat i = Some kAlive) by (apply Hrest; lia).
  destruct (_ || _); [|destruct (_ || _); [done|destruct (_ && _)]].
  - intros [= <-]. destruct (count_alive_kill (kl_states l) (Z.to_nat i) kDeadAtRound1) as [Hc Hc1];
      [done|done|]. split; cbn [kl_client_id kl_alive kl_enc_keys kl_prng_keys kl_states];
      rewrite ?length_app, ?length_insert; simpl; try lia.
    + intros id Hx. destruct (Hid id Hx) as [? ?]. split; [lia|].
      rewrite list_lookup_insert_ne; [done|lia].
    + rewrite Hal, Hc, u32_small by lia. done.
    + apply Forall_insert; [done|]. by right.
    + intros j Hj Hjn. rewrite list_lookup_insert_ne by lia. apply Hrest; lia.
    + apply partial_keys_snoc; [by apply partial_keys_kill|]. intros _.
      replace (length (kl_enc_keys l)) with (Z.to_nat i) by lia.
      by rewrite list_lookup_insert_eq by lia.
    + apply partial_keys_snoc; [by apply partial_keys_kill|]. intros _.
      replace (length (kl_prng_keys l)) with (Z.to_nat i) by lia.
      by rewrite list_lookup_insert_eq by lia.
  - destruct (kl_client_id l) as [|] eqn:Hnone; [done|]. intros [= <-].
    split; cbn [kl_client_id kl_alive kl_enc_keys kl_prng_keys kl_states];
      rewrite ?length_app; simpl; try (done || lia).
    + intros id [= <-]. split; [lia|done].
    + intros j Hj Hjn. apply Hrest; lia.
    + apply partial_keys_snoc; [by apply partial_keys_found|]. intros []. f_equal. lia.
    + apply partial_keys_snoc; [by apply partial_keys_found|]. intros []. f_equal. lia.
  - destruct (ComputeSharedSecret (enc_key_agreement_ k) (new_EcdhPublicKey (enc_pk keys) kCompressed))
      as [ek| |] eqn:Hk1, (ComputeSharedSecret (prng_key_agreement_ k)
      (new_EcdhPublicKey (noise_pk keys) kCompressed)) as [pk| |] eqn:Hk2; try done.
    intros [= <-]. split; cbn [kl_client_id kl_alive kl_enc_keys kl_prng_keys kl_states];
      rewrite ?length_app; simpl; try (done || lia).
    + intros id Hx. destruct (Hid id Hx) as [? ?]. split; [lia|done].
    + intros j Hj Hjn. apply Hrest; lia.
    + apply partial_keys_snoc; [done|]. intros _ _. by eapply ComputeSharedSecret_ok.
    + apply partial_keys_snoc; [done|]. intros _ _. by eapply ComputeSharedSecret_ok.
Qed.

Lemma keys_loop_ok k n pairs : ∀ i abort l l' abort',
  keys_loop_inv n i l → 0 ≤ i → i + Z.of_nat (length pairs) = Z.of_nat n → Z.of_nat n < 2 ^ 31 →
  keys_loop abort_message k i pairs abort l = Ok (inr l', abort') → keys_loop_inv n (Z.of_nat n) l'.
Proof.
  induction pairs as [|keys pairs IH]; intros i abort l l' abort' Hl Hi Hn Hmax; simpl in Hn |- *.
  { intros [= <- _]. by replace (Z.of_nat n) with i by lia. }
  destruct (Signalled abort) as [[] ab]; [done|].
  intros ([error|l1] & Hstep & Hrun)%bind_ok; [done|].
  eapply (IH (i + 1)); [|lia|lia|done|done]. eapply keys_loop_step_inv; [done|lia|done|done].
Qed.

Lemma s32_upper z : 0 ≤ z < 2 ^ 32 → s32 z < 2 ^ 31.
Proof. unfold s32. destruct (Z.ltb_spec z (2 ^ 31)); lia. Qed.

Lemma HandleShareKeysRequest_ok request c k self tape abort r abort' :
  config_ok c →
  HandleShareKeysRequest abort_message request c k self tape abort = Ok (inr r, abort') →
  neighbors_ok (sk_client_id r) (sk_alive r) (minimum_surviving_ c) (sk_number r) (sk_states r)
    known_in_round_2 ∧
  keys_ok (sk_client_id r) (sk_states r) (sk_enc_keys r) ∧
  keys_ok (sk_client_id r) (sk_states r) (sk_prng_keys r).
Proof.
  intros [Hmax Hmin]. unfold HandleShareKeysRequest. set (pairs := pairs_of_public_keys request).
  destruct (Z.ltb_spec (Z.of_nat (length pairs)) (s32 (minimum_surviving_ c))); [done|].
  destruct (Z.ltb_spec (s32 (max_neighbors_expected_ c)) (Z.of_nat (length pairs))); [done|].
  assert (Hn : Z.of_nat (length pairs) < 2 ^ 31) by (pose proof (s32_upper _ Hmax); lia).
  intros ([self_shares pairwise_shares] & _ & Hrun)%bind_ok. destruct (negb _); [done|].
  apply bind_ok in Hrun as ([[error|l] ab] & Hloop & Hrun); [done|].
  destruct (Z.ltb_spec (kl_alive l) (minimum_surviving_ c)); [done|].
  destruct (kl_client_id l) as [id|] eqn:Hid; [|done]. injection Hrun as <- _. simpl.
  apply (keys_loop_ok k (length pairs)) in Hloop as [Hi Hlen Hal Hst Henc Hprng _ Hek Hpk];
    [|split; simpl; try done; rewrite ?length_replicate|lia|lia|done].
  - destruct (Hi id Hid) as [Hid0 Hid1]. rewrite Hid in *. split_and!.
    + split; try done. lia.
    + split; [lia|]. intros j key Hj Hne. apply (Hek j key Hj). congruence.
    + split; [lia|]. intros j key Hj Hne. apply (Hpk j key Hj). congruence.
  - done.
  - by rewrite count_alive_replicate.
  - apply Forall_replicate. by left.
  - intros j _ Hj. by apply lookup_replicate_2.
Qed.

Lemma R1HandleShareKeys_ok c k input request e abort s events :
  config_ok c → R1HandleShareKeys abort_message c k input request e abort = Ok (s, events) →
  client_ok s.
Proof.
  intros Hc. unfold R1HandleShareKeys. intros (key & _ & Hrun)%bind_ok.
  apply bind_ok in Hrun as ([[error|r] ab] & Hreq & Hrun); [by injection Hrun as <- _|].
  destruct (match input with Some _ => _ | None => _ end) as [[] ab'];
    [by injection Hrun as <- _|].
  apply bind_ok in Hrun as ([[response|] ab''] & _ & Hrun); [|by injection Hrun as <- _].
  injection Hrun as <- _.
  destruct (HandleShareKeysRequest_ok _ _ _ _ _ _ _ _ Hc Hreq) as (? & ? & ?).
  destruct input; by split.
Qed.

(** *** Round 2 *)

(** The variables of the loop over the encrypted shares, after [i] of them. *)
Record shares_loop_inv (d : R2Data) (i : Z) (l : SharesLoop) : Prop := {
  si_length : length (sl_states l) = length (r2_states d);
  si_alive : sl_alive l = count_alive (sl_states l);
  si_states : Forall known_in_round_3 (sl_states l);
  si_self : sl_states l !! Z.to_nat (r2_client_id d) = Some kAlive;
  si_pairwise : Z.of_nat (length (sl_pairwise l)) = i;
  si_selfs : Z.of_nat (length (sl_self l)) = i;
  si_alive_before : ∀ j, sl_states l !! j = Some kAlive → r2_states d !! j = Some kAlive
}.

Lemma shares_loop_inv_push d i l pairwise self :
  shares_loop_inv d i l → shares_loop_inv d (i + 1) (shares_loop_push l pairwise self).
Proof.
  intros [Hlen Hal Hst Hid Hp Hs Hb]. split; simpl; try done; rewrite ?length_app; simpl; lia.
Qed.

Lemma shares_loop_step_inv d i encrypted l l' :
  r2_ok d → shares_loop_inv d i l → 0 ≤ i < r2_number d →
  shares_loop_step d i encrypted l = Ok (inr l') → shares_loop_inv d (i + 1) l'.
Proof.
  intros [[Hid Hnum Hsmall _ _ _ _] _ _] Hl Hi. unfold shares_loop_step.
  destruct (Z.eqb_spec i (r2_client_id d)) as [->|Hne].
  { intros [= <-]. by apply shares_loop_inv_push. }
  destruct (negb (bool_decide (default _ _ = kAlive))) eqn:Hdead.
  { destruct (bool_decide (encrypted = [])); simpl; intros; simplify_eq.
    by apply shares_loop_inv_push. }
  destruct (bool_decide (encrypted = [])).
  - intros [= <-]. apply shares_loop_inv_push. destruct Hl as [Hlen Hal Hst Hself Hp Hs Hb].
    apply negb_false_iff, bool_decide_eq_true in Hdead.
    destruct (lookup_lt_is_Some_2 (sl_states l) (Z.to_nat i)) as [x Hx]; [lia|].
    rewrite Hx in Hdead. simpl in Hdead. subst x.
    destruct (count_alive_kill (sl_states l) (Z.to_nat i) kDeadAtRound2) as [Hc ?]; [done|done|].
    pose proof (count_alive_bound (sl_states l)).
    split; simpl; try done; rewrite ?length_insert; try done.
    + rewrite Hal, Hc, u32_small by lia. done.
    + apply Forall_insert; [done|]. by right; right.
    + rewrite list_lookup_insert_ne; [done|lia].
    + intros j [(_ & ? & _)|[_ ?]]%list_lookup_insert_Some; [done|by apply Hb].
  - destruct (Decrypt _ _); try done. destruct (ParseFromString _); [|done].
    intros [= <-]. by apply shares_loop_inv_push.
Qed.

Lemma shares_loop_ok d encrypted : ∀ i abort l l' abort',
  r2_ok d → shares_loop_inv d i l → 0 ≤ i → i + Z.of_nat (length encrypted) = r2_number d →
  shares_loop abort_message d i encrypted abort l = Ok (inr l', abort') →
  shares_loop_inv d (r2_number d) l'.
Proof.
  induction encrypted as [|x encrypted IH]; intros i abort l l' abort' Hd Hl Hi Hn; simpl in Hn |- *.
  { intros [= <- _]. by replace (r2_number d) with i by lia. }
  destruct (Signalled abort) as [[] ab]; [done|].
  intros ([error|l1] & Hstep & Hrun)%bind_ok; [done|].
  eapply (IH (i + 1)); [done| |lia|lia|done]. eapply shares_loop_step_inv; [done|done|lia|done].
Qed.

Lemma HandleMaskedInputCollectionRequest_ok d encrypted abort masks l :
  r2_ok d → HandleMaskedInputCollectionRequest fuel abort_message d encrypted abort = Ok (inr (masks, l)) →
  r3_ok (R3_of_R2 d l).
Proof.
  intros Hd. unfold HandleMaskedInputCollectionRequest.
  case_bool_decide as Hlen; cbn [negb]; [|done].
  intros ([[error|l1] ab] & Hloop & Hrun)%bind_ok; [done|].
  destruct (Z.ltb_spec (sl_alive l1) (r2_minimum d)); [done|].
  destruct (keys_to_use _ _ _ _ _ _ _) as [[[ta ts]|] ab1]; [|done].
  apply bind_ok in Hrun as ([m|] & _ & Hrun); [|done]. injection Hrun as -> ->.
  pose proof Hd as [[Hid Hnum Hsmall Hself Hal Hmin Hst] _ _].
  assert (Hs32 : s32 (r2_number d) = r2_number d)
    by (unfold s32; by rewrite (proj2 (Z.ltb_lt _ _))).
  eapply shares_loop_ok in Hloop as [Hl1 Hl2 Hl3 Hl4 Hl5 Hl6 _]; [|done| |lia|lia].
  - split; simpl; [|lia|lia]. split; try done. lia.
  - split; simpl; try done. eapply Forall_impl; [done|]. intros x [-> | ->]; [by left|by right; left].
Qed.

Lemma R2HandleMaskedInput_ok d input encrypted abort s events :
  r2_ok d → R2HandleMaskedInput fuel abort_message d input encrypted abort = Ok (s, events) →
  client_ok s.
Proof.
  intros Hd. unfold R2HandleMaskedInput. intros ([error|[masks l]] & Hreq & Hrun)%bind_ok;
    [by injection Hrun as <- _|].
  apply HandleMaskedInputCollectionRequest_ok in Hreq; [|done]. destruct input as [input|].
  - apply bind_ok in Hrun as (message & _ & Hrun). by injection Hrun as <- _.
  - by injection Hrun as <- _.
Qed.

(** *** All operations *)

Lemma R3HandleUnmasking_terminal d ids abort s events :
  R3HandleUnmasking abort_message d ids abort = (s, events) → client_ok s.
Proof.
  unfold R3HandleUnmasking. destruct (Signalled abort) as [[] ab]; [by intros [= <- _]|].
  destruct (dead_loop _ _ _ _) as [error|[alive states]]; [by intros [= <- _]|].
  destruct (alive <? _); [by intros [= <- _]|].
  by destruct (unmasking_loop _ _ _ _); intros [= <- _].
Qed.

Lemma HandleAbort_inv b s events :
  Ok (HandleAbort b) = Ok (s, events) →
  ((if b then Completed else Aborted "Aborting because of abort message from the server."),
   [Transition (if b then COMPLETED else ABORTED_)]) = (s, events).
Proof. by destruct b; intros [= <- <-]. Qed.

(** The methods of the state classes. *)
Ltac unfold_methods :=
  unfold Start, R0InputNotSet_Start, R0InputSet_Start,
    HandleMessage, R0InputNotSet_HandleMessage, R0InputSet_HandleMessage,
    R1InputNotSet_HandleMessage, R1InputSet_HandleMessage, R2InputNotSet_HandleMessage,
    R2InputSet_HandleMessage, R2WaitingForInput_HandleMessage, R3Unmasking_HandleMessage,
    SetInput, R0InputNotSet_SetInput, R1InputNotSet_SetInput, R2InputNotSet_SetInput,
    R2WaitingForInput_SetInput.

Lemma run_op_ok s op s' events :
  client_ok s → run_op fuel abort_message s op = Ok (s', events) → client_ok s'.
Proof.
  intros Hs. destruct op as [e|reason|input_map|message e abort]; simpl; unfold_methods.
  - destruct s; simpl; try done; by intros [= <- _].
  - unfold Abort. destruct (_ || _); by intros [= <- _].
  - destruct s; simpl; try done; (destruct (ValidateInput _ _); [|done]); try (by intros [= <- _]).
    intros (m & _ & [= <- _])%bind_ok. done.
  - destruct s, message; try done;
      try (intros [= <- _]%HandleAbort_inv; by destruct early_success).
    + by apply R1HandleShareKeys_ok.
    + by apply R1HandleShareKeys_ok.
    + by apply R2HandleMaskedInput_ok.
    + by apply R2HandleMaskedInput_ok.
    + intros [= Hrun]. by eapply R3HandleUnmasking_terminal.
Qed.

(** *** Round 3 *)

(** The neighbors that an unmasking request declares dead, from 0. *)
Definition dead_ids (ids : list Z) : list Z := (λ i, u32 (i - 1)) <$> ids.

Lemma dead_loop_ok d ids : ∀ alive states alive' states',
  dead_loop d ids alive states = inr (alive', states') →
  alive = count_alive states → Z.of_nat (length states) < 2 ^ 31 →
  r3_number d = Z.of_nat (length states) →
  alive' = count_alive states' ∧ length states' = length states ∧
  (∀ id, id ∈ dead_ids ids → 0 ≤ id < r3_number d ∧ id ≠ r3_client_id d ∧
     states !! Z.to_nat id = Some kAlive) ∧
  (∀ i, states' !! i =
     if decide (Z.of_nat i ∈ dead_ids ids) then Some kDeadAtRound3 else states !! i).
Proof.
  induction ids as [|x ids IH]; intros alive states alive' states'; cbn [dead_loop].
  { intros [= <- <-] -> _ _. split_and!; try done. intros id Hid. by apply not_elem_of_nil in Hid. }
  set (id := u32 (x - 1)). intros Hrun Hal Hsmall Hnum. pose proof (u32_range (x - 1)) as Hid.
  fold id in Hid. destruct (Z.eqb_spec id (r3_client_id d)); [done|].
  destruct (Z.leb_spec (r3_number d) id); [done|].
  destruct (lookup_lt_is_Some_2 states (Z.to_nat id)) as [st Hst]; [lia|].
  rewrite Hst in Hrun. simpl in Hrun. destruct st; try done.
  destruct (count_alive_kill states (Z.to_nat id) kDeadAtRound3 Hst) as [Hc Hc1]; [done|].
  pose proof (count_alive_bound states).
  apply IH in Hrun as (Ha & Hl & Hdead & Hlook); rewrite ?length_insert in *; try done;
    [|rewrite Hal, Hc, u32_small by lia; done].
  assert (Hin : ∀ y, y ∈ dead_ids (x :: ids) ↔ y = id ∨ y ∈ dead_ids ids)
    by (intros y; unfold dead_ids; rewrite fmap_cons, elem_of_cons; done).
  assert (Hnot : id ∉ dead_ids ids).
  { intros Hx. destruct (Hdead _ Hx) as (_ & _ & Hx2). rewrite list_lookup_insert_eq in Hx2 by lia.
    done. }
  split_and!; [done|done| |].
  - intros y [->|Hy]%Hin; [split_and!; [lia|lia|done|done]|].
    destruct (Hdead y Hy) as (? & ? & Hy2). split_and!; try (done || lia).
    apply list_lookup_insert_Some in Hy2 as [(_ & ? & _)|[_ ?]]; done.
  - intros i. rewrite Hlook. destruct (decide (Z.of_nat i ∈ dead_ids ids)) as [Hi|Hi].
    + rewrite decide_True by (apply Hin; by right). done.
    + destruct (decide (i = Z.to_nat id)) as [->|Hne].
      * rewrite list_lookup_insert_eq by lia. rewrite decide_True by (apply Hin; left; lia). done.
      * rewrite list_lookup_insert_ne by done. rewrite decide_False; [done|].
        intros [?|?]%Hin; [lia|done].
Qed.

Lemma unmasking_loop_ok d states : ∀ j abort shares,
  unmasking_loop d j states abort = Some shares →
  length shares = length states ∧
  ∀ i st, states !! i = Some st → shares !! i = Some
    match st with
    | kAlive => PrfShare (default [] (r3_self_key_shares d !! (j + i)%nat))
    | kDeadAtRound3 => NoiseShare (default [] (r3_pairwise_key_shares d !! (j + i)%nat))
    | _ => NoShare
    end.
Proof.
  induction states as [|st states IH]; intros j abort shares; cbn [unmasking_loop]; [by intros [= <-]|].
  destruct (Signalled abort) as [[] ab]; [done|].
  destruct (unmasking_loop d (S j) states ab) as [rest|] eqn:Hr; [|done]. intros [= <-].
  apply IH in Hr as [Hl Hp]. split; [simpl; lia|]. intros [|i] st'; simpl.
  - intros [= ->]. rewrite Nat.add_0_r. done.
  - intros Hi. rewrite (Hp i st' Hi). replace (S j + i)%nat with (j + S i)%nat by lia. done.
Qed.

Definition is_prf (x : NoiseOrPrf) : bool := match x with PrfShare _ => true | _ => false end.

Lemma unmasking_loop_count d states : ∀ j abort shares,
  unmasking_loop d j states abort = Some shares →
  Z.of_nat (length (filter (λ x, is_prf x = true) shares)) = count_alive states.
Proof.
  induction states as [|st states IH]; intros j abort shares; cbn [unmasking_loop]; [by intros [= <-]|].
  destruct (Signalled abort) as [[] ab]; [done|].
  destruct (unmasking_loop d (S j) states ab) as [rest|] eqn:Hr; [|done]. intros [= <-].
  apply IH in Hr. rewrite count_alive_cons, filter_cons. destruct st; simpl; lia.
Qed.

(** ** The order of the messages *)

(** How far a state and a message are in the protocol. *)
Definition state_rank (s : ClientState) : nat :=
  match s with
  | R0InputNotSet _ | R0InputSet _ _ => 0
  | R1InputNotSet _ _ | R1InputSet _ _ _ => 1
  | R2InputNotSet _ | R2InputSet _ _ | R2WaitingForInput _ _ _ => 2
  | R3Unmasking _ => 3
  | Aborted _ | Completed => 5
  end.

Definition message_rank (m : ClientToServer) : nat :=
  match m with
  | CS_advertise_keys _ => 0
  | CS_share_keys_response _ => 1
  | CS_masked_input_response _ => 2
  | CS_unmasking_response _ => 3
  | CS_abort _ | CS_not_set => 4
  end.

Definition sent (events : list Event) : list ClientToServer :=
  omap (λ e, match e with Send m => Some m | Transition _ => None end) events.

Lemma sent_app e1 e2 : sent (e1 ++ e2) = sent e1 ++ sent e2.
Proof. apply omap_app. Qed.

(** A step sends at most one message, of a rank between those of the states. *)
Definition step_sends (s : ClientState) (events : list Event) (s' : ClientState) : Prop :=
  (state_rank s ≤ state_rank s')%nat ∧
  (sent events = [] ∨
   ∃ m, sent events = [m] ∧ (state_rank s ≤ message_rank m < state_rank s')%nat).

Lemma abort_sends s reason events s' :
  (state_rank s ≤ 4)%nat → AbortAndNotifyServer reason = (s', events) → step_sends s events s'.
Proof. intros Hs [= <- <-]. split; simpl; [lia|]. right. eexists. split; [done|]. simpl. lia. Qed.

Lemma abort_sends_ok s reason events s' :
  (state_rank s ≤ 4)%nat → Ok (AbortAndNotifyServer reason) = Ok (s', events) →
  step_sends s events s'.
Proof. intros Hs Heq. apply (abort_sends s reason); [done|]. congruence. Qed.

Lemma one_sends s m phase s' :
  (state_rank s ≤ message_rank m < state_rank s')%nat → step_sends s [Send m; Transition phase] s'.
Proof. intros H. split; [lia|]. right. by exists m. Qed.

Lemma none_sends s phase s' : (state_rank s ≤ state_rank s')%nat → step_sends s [Transition phase] s'.
Proof. intros H. split; [done|by left]. Qed.

Lemma R1HandleShareKeys_sends c k input request e abort s events :
  R1HandleShareKeys abort_message c k input request e abort = Ok (s, events) →
  step_sends (R1InputNotSet c k) events s.
Proof.
  unfold R1HandleShareKeys. intros (key & _ & Hrun)%bind_ok.
  apply bind_ok in Hrun as ([[error|r] ab] & Hreq & Hrun).
  { eapply abort_sends_ok; [|done]. simpl. lia. }
  destruct (match input with Some _ => _ | None => _ end) as [[] ab'].
  { eapply abort_sends_ok; [|done]. simpl. lia. }
  unfold EncryptAndSendResponse in Hrun.
  apply bind_ok in Hrun as ([response ab''] & Henc & Hrun).
  apply bind_ok in Henc as ([cs ab3] & _ & [= <- _]). destruct cs as [cs|]; simpl in Hrun.
  - injection Hrun as <- <-. apply one_sends. destruct input; simpl; lia.
  - eapply abort_sends_ok; [|done]. simpl. lia.
Qed.

Lemma SendMaskedInput_message input masks m :
  SendMaskedInput input masks = Ok m → message_rank m = 2%nat.
Proof. unfold SendMaskedInput. by intros (v & _ & [= <-])%bind_ok. Qed.

Lemma R2HandleMaskedInput_sends d input encrypted abort s events :
  R2HandleMaskedInput fuel abort_message d input encrypted abort = Ok (s, events) →
  step_sends (R2InputNotSet d) events s.
Proof.
  unfold R2HandleMaskedInput. intros ([error|[masks l]] & _ & Hrun)%bind_ok.
  { eapply abort_sends_ok; [|done]. simpl. lia. }
  destruct input as [input|].
  - apply bind_ok in Hrun as (m & Hm & Hrun). injection Hrun as <- <-.
    apply one_sends. rewrite (SendMaskedInput_message _ _ _ Hm). simpl. lia.
  - injection Hrun as <- <-. apply none_sends. simpl. lia.
Qed.

Lemma R3HandleUnmasking_sends d ids abort s events :
  R3HandleUnmasking abort_message d ids abort = (s, events) → step_sends (R3Unmasking d) events s.
Proof.
  unfold R3HandleUnmasking. destruct (Signalled abort) as [[] ab]; [apply abort_sends; simpl; lia|].
  destruct (dead_loop _ _ _ _) as [error|[alive states]]; [apply abort_sends; simpl; lia|].
  destruct (alive <? _); [apply abort_sends; simpl; lia|].
  destruct (unmasking_loop _ _ _ _); [|apply abort_sends; simpl; lia].
  intros [= <- <-]. apply one_sends. simpl. lia.
Qed.

Lemma run_op_sends s op s' events :
  run_op fuel abort_message s op = Ok (s', events) → step_sends s events s'.
Proof.
  destruct op as [e|reason|input_map|message e abort]; simpl; unfold_methods.
  - destruct s; simpl; try done; intros [= <- <-]; apply one_sends; simpl; lia.
  - unfold Abort. destruct (_ || _) eqn:Hterm.
    + intros [= <- <-]. split; [done|by left].
    + intros Hrun. eapply abort_sends_ok; [|done]. destruct s; simpl in *; lia || done.
  - destruct s; simpl; try done; (destruct (ValidateInput _ _); [|done]);
      try (intros [= <- <-]; apply none_sends; simpl; lia).
    intros (m & Hm & [= <- <-])%bind_ok. apply one_sends.
    rewrite (SendMaskedInput_message _ _ _ Hm). simpl. lia.
  - destruct s, message; try done;
      try (intros [= <- <-]%HandleAbort_inv; apply none_sends; destruct early_success; simpl; lia).
    + apply R1HandleShareKeys_sends.
    + apply R1HandleShareKeys_sends.
    + apply R2HandleMaskedInput_sends.
    + apply R2HandleMaskedInput_sends.
    + intros [= Hrun]. by apply R3HandleUnmasking_sends in Hrun.
Qed.

Lemma client_run_sends s events s' :
  client_run fuel abort_message s events s' →
  (state_rank s ≤ state_rank s')%nat ∧ StronglySorted lt (message_rank <$> sent events) ∧
  Forall (λ m, state_rank s ≤ message_rank m < state_rank s')%nat (sent events).
Proof.
  induction 1 as [s|s events s' events' s'' Hstep Hrun (IHr & IHs & IHf)].
  { split_and!; [lia|constructor|constructor]. }
  assert (Hsends : step_sends s events s').
  { destruct Hstep as [op s' events Hop|op code msg Hop]; [by eapply run_op_sends|].
    split; [done|by left]. }
  destruct Hsends as [Hr Hs]. rewrite sent_app. split; [lia|]. destruct Hs as [->|(m & -> & Hm)].
  - split; [done|]. eapply Forall_impl; [done|]. simpl. intros. lia.
  - simpl. split; constructor.
    + done.
    + rewrite Forall_fmap. eapply Forall_impl; [done|]. simpl. intros. lia.
    + lia.
    + eapply Forall_impl; [done|]. simpl. intros. lia.
Qed.

(** ** The masked input *)

(** The keys of the living neighbors of client [id] whose index satisfies
    [f], from index [i] on. *)
Fixpoint neighbor_keys (f : Z → bool) (id i : Z) (states : list OtherClientState)
    (prng_keys : list (list Z)) : list (list Z) :=
  match states with
  | [] => []
  | st :: rest =>
      let keys := neighbor_keys f id (i + 1) rest prng_keys in
      if (i =? id) || negb (bool_decide (st = kAlive)) then keys
      else if f i then default [] (prng_keys !! Z.to_nat i) :: keys else keys
  end.

Lemma keys_to_use_ok id states prng_keys : ∀ i to_add to_subtract,
  keys_to_use id i states prng_keys to_add to_subtract None =
    (Some (to_add ++ neighbor_keys (λ j, j <? id) id i states prng_keys,
           to_subtract ++ neighbor_keys (λ j, negb (j <? id)) id i states prng_keys), None).
Proof.
  induction states as [|st states IH]; intros i to_add to_subtract; simpl.
  { by rewrite !app_nil_r. }
  destruct (_ || _); [apply IH|]. destruct (i <? id); simpl; by rewrite IH, <- !app_assoc.
Qed.

Lemma GetAsUint64Vector_ok v :
  vector_ok v →
  ∃ es, GetAsUint64Vector v = Ok es ∧ Forall (fits (GetBitWidth (modulus_ v))) es ∧
    (λ x, x mod modulus_ v) <$> es = decoded v.
Proof.
  intros Hv. destruct (decoded_ok v Hv) as [Hd _]. destruct Hv as [Hm Hbw Hb Hs].
  destruct (GetBitWidth_bounds _ Hm) as (? & ? & ?).
  unfold GetAsUint64Vector, CheckHasValue. rewrite (proj2 (Z.ltb_lt _ _)) by lia. cbn [fcp_check].
  eexists. split; [done|]. destruct (branchless_codec_ v).
  - unfold UnpackByteStringToUint64VectorBranchless. fold (decoded v). split.
    + by apply in_modulus_fits.
    + etransitivity; [|apply list_fmap_id]. apply list_fmap_ext. intros i x Hx.
      apply Z.mod_small. by eapply Forall_lookup_1 in Hd.
  - assert (Hf : (λ i, UnpackUint64FromByteStringAt (Z.of_nat i) (bit_width_ v) (packed_bytes_ v)) <$>
      seq 0 (Z.to_nat (num_elements_ v)) =
      field (GetBitWidth (modulus_ v)) (packed_bytes_ v) <$> seq 0 (Z.to_nat (num_elements_ v))).
    { apply list_fmap_ext. intros i x _. rewrite Hbw, UnpackUint64FromByteStringAt_ok by (done || lia).
      done. }
    rewrite Hf. split.
    + apply Forall_fmap, Forall_true. intros i. apply Z.mod_pos_bound. lia.
    + unfold decoded. rewrite decode_fields by done. by rewrite <- list_fmap_compose.
Qed.

(** Adding before reducing the operands. *)
Lemma sum_u64_reduced m xs : ∀ ys,
  1 < m ≤ 2 ^ 62 → Forall (λ x, 0 ≤ x < 2 ^ 62) xs → Forall (λ x, 0 ≤ x < 2 ^ 62) ys →
  zip_with (λ x y, u64 (x + y) mod m) xs ys =
    add_mod_list m ((λ x, x mod m) <$> xs) ((λ x, x mod m) <$> ys).
Proof.
  induction xs as [|x xs IH]; intros ys Hm Hx Hy; [done|]. destruct ys as [|y ys]; [done|].
  apply Forall_cons in Hx as [Hx Hxs]. apply Forall_cons in Hy as [Hy Hys].
  unfold add_mod_list. rewrite !fmap_cons. simpl. rewrite u64_small by lia. f_equal.
  - apply eqmod_rem. drop_mod. done.
  - by apply IH.
Qed.

Lemma fits_62 m es :
  valid_modulus m = true → Forall (fits (GetBitWidth m)) es → Forall (λ x, 0 ≤ x < 2 ^ 62) es.
Proof.
  intros Hm Hes. destruct (GetBitWidth_bounds m Hm) as (? & _ & _).
  assert (2 ^ GetBitWidth m ≤ 2 ^ 62) by (apply Z.pow_le_mono_r; lia).
  eapply Forall_impl; [done|]. unfold fits. lia.
Qed.

(** What adding the mask [v2] to the vector [v1] gives. *)
Definition masked_vector (v1 v2 : SecAggVector) : SecAggVector :=
  vector_of (add_mod_list (modulus_ v1) (decoded v1) (decoded v2)) (modulus_ v1) false.

Lemma AddSecAggVectors_ok v1 v2 :
  vector_ok v1 → vector_ok v2 → same_shape v1 v2 →
  AddSecAggVectors v1 v2 = Ok (masked_vector v1 v2) ∧ vector_ok (masked_vector v1 v2) ∧
  decoded (masked_vector v1 v2) = add_mod_list (modulus_ v1) (decoded v1) (decoded v2).
Proof.
  intros Hv1 Hv2 [Hm Hn]. destruct (decoded_ok v1 Hv1) as [_ Hl1], (decoded_ok v2 Hv2) as [_ Hl2].
  destruct (GetAsUint64Vector_ok v1 Hv1) as (e1 & Hg1 & Hf1 & Hr1).
  destruct (GetAsUint64Vector_ok v2 Hv2) as (e2 & Hg2 & Hf2 & Hr2).
  assert (Hle : length e1 = length e2).
  { apply (f_equal length) in Hr1, Hr2. rewrite length_fmap in Hr1, Hr2. lia. }
  destruct (GetBitWidth_bounds _ (vok_modulus _ Hv1)) as (_ & _ & Hmm).
  assert (Hes : Forall (in_modulus (modulus_ v1))
    (add_mod_list (modulus_ v1) (decoded v1) (decoded v2))) by (apply add_mod_list_in_modulus; lia).
  destruct (vok_size _ Hv1) as (_ & _ & Hlt).
  assert (Hlen : Z.of_nat (length (add_mod_list (modulus_ v1) (decoded v1) (decoded v2))) =
    num_elements_ v1) by (unfold add_mod_list; rewrite length_zip_with; lia).
  rewrite <- Hlen in Hlt. split_and!.
  - unfold AddSecAggVectors. rewrite (proj2 (Z.eqb_eq _ _) Hm). cbn [fcp_check].
    rewrite Hg1, Hg2. cbn [mbind Res_bind]. rewrite bool_decide_true by done. cbn [fcp_check].
    rewrite sum_u64_reduced; [|done|by eapply fits_62; [apply Hv1|]|by eapply fits_62; [apply Hv2|]].
    rewrite Hr1, Hm, Hr2, <- Hm. apply SecAggVector_of_span_ok; [apply Hv1|done|done].
  - apply vector_of_ok; [apply Hv1|done|done].
  - apply decoded_vector_of; [apply Hv1|done|done].
Qed.

Lemma TakePackedBytes_ok v : vector_ok v → ∃ w, TakePackedBytes v = Ok (packed_bytes_ v, w).
Proof.
  intros [Hm _ _ _]. destruct (GetBitWidth_bounds _ Hm) as (_ & _ & ?).
  unfold TakePackedBytes, CheckHasValue. rewrite (proj2 (Z.ltb_lt _ _)) by lia. by eexists.
Qed.

Lemma SendMaskedInput_ok input masks :
  (∀ name v, input !! name = Some v → vector_ok v ∧
     ∃ mask, masks !! name = Some mask ∧ vector_ok mask ∧ same_shape v mask) →
  ∃ vectors, SendMaskedInput input masks = Ok (CS_masked_input_response vectors) ∧
    ∀ name, vectors !! name =
      match input !! name, masks !! name with
      | Some v, Some mask => Some (packed_bytes_ (masked_vector v mask))
      | _, _ => None
      end.
Proof.
  intros Hok. unfold SendMaskedInput.
  edestruct (for_each_entry_ok (λ name input, match masks !! name with
    | None => Crash
    | Some mask => sum ← AddSecAggVectors input mask; '(bytes, _) ← TakePackedBytes sum; Ok bytes
    end) input ∅) as (vectors & Hv & Hlook).
  { intros name v Hv. destruct (Hok name v Hv) as (? & mask & -> & ? & ?).
    destruct (AddSecAggVectors_ok v mask) as (-> & Hs & _); [done..|].
    destruct (TakePackedBytes_ok _ Hs) as [w Hw]. simpl. rewrite Hw. simpl. eauto. }
  rewrite Hv. simpl. eexists. split; [done|]. intros name. specialize (Hlook name).
  destruct (input !! name) as [v|] eqn:Hi; [|by rewrite Hlook, lookup_empty].
  destruct (Hok name v Hi) as (? & mask & Hmask & ? & ?). rewrite Hmask in *.
  destruct (AddSecAggVectors_ok v mask) as (Ha & Hs & _); [done..|].
  destruct (TakePackedBytes_ok _ Hs) as [w Hw]. destruct Hlook as (y & Hy & ->).
  rewrite Ha in Hy. simpl in Hy. rewrite Hw in Hy. simpl in Hy. by injection Hy as <-.
Qed.

(** *** No request makes the client crash in round 2 *)

Lemma shares_loop_step_total d i encrypted l :
  r2_ok d → shares_loop_inv d i l → 0 ≤ i < r2_number d →
  ∃ r, shares_loop_step d i encrypted l = Ok r.
Proof.
  intros [[Hid Hnum _ _ _ _ _] [Hkl Hkeys] _] Hl Hi. unfold shares_loop_step.
  destruct (Z.eqb_spec i (r2_client_id d)); [by eexists|].
  destruct (negb (bool_decide (default _ _ = kAlive))) eqn:Hdead.
  { destruct (negb (bool_decide (encrypted = []))); by eexists. }
  destruct (bool_decide (encrypted = [])); [by eexists|].
  apply negb_false_iff, bool_decide_eq_true in Hdead.
  destruct (lookup_lt_is_Some_2 (sl_states l) (Z.to_nat i)) as [x Hx];
    [rewrite (si_length _ _ _ Hl); lia|]. rewrite Hx in Hdead. simpl in Hdead. subst x.
  destruct (lookup_lt_is_Some_2 (r2_enc_keys d) (Z.to_nat i)) as [key Hkey]; [lia|].
  rewrite Hkey. simpl. assert (length key = 32%nat) as Hk32.
  { eapply Hkeys; [done|lia|]. by eapply si_alive_before. }
  unfold Decrypt. rewrite bool_decide_false by (by intros ->).
  rewrite bool_decide_true by (by rewrite Hk32). simpl.
  destruct (bool_decide _); [by eexists|]. destruct (gcm_open _ _ _); [|by eexists].
  destruct (ParseFromString _); by eexists.
Qed.

Lemma shares_loop_total d encrypted : ∀ i abort l,
  r2_ok d → shares_loop_inv d i l → 0 ≤ i → i + Z.of_nat (length encrypted) = r2_number d →
  ∃ r, shares_loop abort_message d i encrypted abort l = Ok r.
Proof.
  induction encrypted as [|x encrypted IH]; intros i abort l Hd Hl Hi Hn; simpl in Hn |- *;
    [by eexists|].
  destruct (Signalled abort) as [[] ab]; [by eexists|].
  destruct (shares_loop_step_total d i x l) as [[error|l1] Hstep]; [done|done|lia|..];
    rewrite Hstep; simpl; [by eexists|].
  apply IH; [done| |lia|lia]. eapply shares_loop_step_inv; [done|done|lia|done].
Qed.

Lemma shares_loop_start d :
  r2_ok d →
  shares_loop_inv d 0
    {| sl_alive := r2_alive d; sl_states := r2_states d; sl_pairwise := []; sl_self := [] |}.
Proof.
  intros [[Hid Hnum Hsmall Hself Hal Hmin Hst] _ _]. split; simpl; try done.
  eapply Forall_impl; [done|]. intros x [-> | ->]; [by left|by right; left].
Qed.

(** The generator delivers the masks of all keys for these vectors. *)
Definition draws_masks (session_id : list Z) (specs : list InputVectorSpecification) : Prop :=
  NoDup (ivs_name <$> specs) ∧ Forall spec_ok specs ∧ Forall (enough_stream fuel) specs ∧
  ∀ spec key, spec ∈ specs → ∃ xs, key_mask sha256 keystream fuel session_id spec key = Some xs.

Definition mask_of_key (session_id : list Z) (spec : InputVectorSpecification) (key : list Z) :
    list Z :=
  default [] (key_mask sha256 keystream fuel session_id spec key).

Definition masks_of_keys (session_id : list Z) (keys : list (list Z))
    (spec : InputVectorSpecification) : list (list Z) :=
  mask_of_key session_id spec <$> keys.

Lemma draws_masks_exist session_id specs to_add to_subtract :
  draws_masks session_id specs →
  Forall (masks_exist sha256 keystream fuel session_id to_add to_subtract
            (masks_of_keys session_id to_add) (masks_of_keys session_id to_subtract)) specs.
Proof.
  intros (_ & Hspec & Hstream & Hdraw).
  assert (Hmasks : ∀ spec keys, spec ∈ specs →
    masks_of sha256 keystream fuel session_id spec keys (masks_of_keys session_id keys spec)).
  { intros spec keys Hin. unfold masks_of, masks_of_keys. induction keys as [|key keys IH];
      [constructor|]. rewrite fmap_cons. constructor; [|done].
    destruct (Hdraw spec key Hin) as [xs Hxs]. unfold mask_of_key. by rewrite Hxs. }
  rewrite Forall_forall in Hspec, Hstream. apply Forall_forall. intros spec Hin.
  split; [by apply Hspec|by apply Hstream|by apply Hmasks|by apply Hmasks].
Qed.

(** The keys that enter the mask of a client, with this view of the others. *)
Definition keys_added (d : R2Data) (states : list OtherClientState) : list (list Z) :=
  r2_self_prng_key d ::
    neighbor_keys (λ j, j <? r2_client_id d) (r2_client_id d) 0 states (r2_prng_keys d).
Definition keys_subtracted (d : R2Data) (states : list OtherClientState) : list (list Z) :=
  neighbor_keys (λ j, negb (j <? r2_client_id d)) (r2_client_id d) 0 states (r2_prng_keys d).

(** The mask of this client for the vector [spec]. *)
Definition client_mask (d : R2Data) (states : list OtherClientState)
    (spec : InputVectorSpecification) : list Z :=
  combined_mask spec
    (masks_of_keys (r2_session_id d) (keys_added d states) spec)
    (masks_of_keys (r2_session_id d) (keys_subtracted d states) spec).

(** The masks that the client holds after a successful round 2 request. *)
Definition holds_masks (d : R2Data) (masks : SecAggVectorMap) (states : list OtherClientState) : Prop :=
  ∀ spec, spec ∈ r2_specs d → ∃ mask, masks !! ivs_name spec = Some mask ∧ vector_ok mask ∧
    modulus_ mask = ivs_modulus spec ∧ num_elements_ mask = ivs_length spec ∧
    decoded mask = client_mask d states spec.

(** A signal ends the loop or makes no difference. *)
Lemma keys_to_use_abort id states prng_keys : ∀ i to_add to_subtract abort,
  (keys_to_use id i states prng_keys to_add to_subtract abort).1 = None ∨
  (keys_to_use id i states prng_keys to_add to_subtract abort).1 =
    (keys_to_use id i states prng_keys to_add to_subtract None).1.
Proof.
  induction states as [|state states IH]; intros i to_add to_subtract abort; simpl; [by right|].
  destruct (Signalled abort) as [[] ab]; [by left|]. repeat case_match; apply IH.
Qed.

Lemma MapOfMasks_signal session_id specs to_add to_subtract abort :
  draws_masks session_id specs →
  ∃ r, MapOfMasks sha256 keystream fuel to_add to_subtract specs session_id abort = Ok r ∧
    (r = None ∨ MapOfMasks sha256 keystream fuel to_add to_subtract specs session_id None = Ok r).
Proof.
  intros Hdraw. pose proof (draws_masks_exist _ _ to_add to_subtract Hdraw) as Hex.
  destruct (MapOfMasks_ok sha256 keystream sha256_length keystream_byte _ _ _ _ _ _ _ Hex) as (Hm & _).
  destruct abort as [n|]; [|eauto].
  rewrite (MapOfMasks_abort sha256 keystream sha256_length keystream_byte _ _ _ _ _ _ _ _ Hex).
  case_decide; eauto.
Qed.

Lemma HandleMaskedInputCollectionRequest_total d encrypted abort :
  r2_ok d → draws_masks (r2_session_id d) (r2_specs d) →
  ∃ r, HandleMaskedInputCollectionRequest fuel abort_message d encrypted abort = Ok r ∧
    ∀ masks l, r = inr (masks, l) → holds_masks d masks (sl_states l).
Proof.
  intros Hd Hdraw. pose proof Hd as [[Hid Hnum Hsmall _ _ _ _] _ _].
  unfold HandleMaskedInputCollectionRequest.
  case_bool_decide as Hlen; cbn [negb]; [|by eexists].
  assert (Hs32 : s32 (r2_number d) = r2_number d)
    by (unfold s32; by rewrite (proj2 (Z.ltb_lt _ _))).
  destruct (shares_loop_total d encrypted 0 abort _ Hd (shares_loop_start d Hd)) as [[[error|l] ab] Hloop];
    [lia|lia|..]; rewrite Hloop; cbn [mbind Res_bind]; [by eexists|].
  destruct (sl_alive l <? r2_minimum d); [by eexists|].
  pose proof (keys_to_use_abort (r2_client_id d) (sl_states l) (r2_prng_keys d) 0 [r2_self_prng_key d] [] ab) as Hkeys.
  rewrite keys_to_use_ok in Hkeys. cbn [app fst] in Hkeys.
  fold (keys_added d (sl_states l)) (keys_subtracted d (sl_states l)) in Hkeys.
  destruct (keys_to_use _ _ _ _ _ _ _) as [keys ab']. cbn [fst] in Hkeys.
  destruct Hkeys as [-> | ->]; [by eexists|].
  destruct (MapOfMasks_signal _ _ (keys_added d (sl_states l)) (keys_subtracted d (sl_states l)) ab' Hdraw)
    as (r & -> & Hr). cbn [mbind Res_bind]. destruct r as [masks|]; [|by eexists].
  destruct Hr as [?|Hr]; [done|]. eexists. split; [done|]. intros masks' l' [= <- <-] spec Hin.
  pose proof (draws_masks_exist _ _ (keys_added d (sl_states l)) (keys_subtracted d (sl_states l))
    Hdraw) as Hex.
  destruct (MapOfMasks_ok sha256 keystream sha256_length keystream_byte _ _ _ _ _ _ _ Hex)
    as (Hm & _). rewrite Hm in Hr. injection Hr as <-.
  rewrite Forall_forall in Hex. specialize (Hex spec Hin).
  destruct (the_vector_make sha256 keystream _ _ _ _ _ _ _ Hex) as (_ & Hv & Hdec).
  eexists. split; [apply mask_map_lookup; [apply Hdraw|done|intros; apply lookup_empty]|].
  split_and!; [done|done| |done]. simpl.
  destruct (combined_mask_in_modulus spec (masks_of_keys (r2_session_id d) (keys_added d (sl_states l)) spec)
    (masks_of_keys (r2_session_id d) (keys_subtracted d (sl_states l)) spec)) as [_ ?];
    [apply Hex|done].
Qed.

(** An input that [SetInput] accepted. *)
Definition valid_input (input : SecAggVectorMap) (specs : list InputVectorSpecification) : Prop :=
  ValidateInput input specs = true ∧ ∀ name v, input !! name = Some v → vector_ok v.

(** The names of a validated input are those of the specifications. *)
Lemma valid_input_names input specs :
  NoDup (ivs_name <$> specs) → ValidateInput input specs = true →
  (∀ spec, spec ∈ specs → ∃ v, input !! ivs_name spec = Some v ∧
     modulus_ v = ivs_modulus spec ∧ num_elements_ v = ivs_length spec) ∧
  ∀ name v, input !! name = Some v → ∃ spec, spec ∈ specs ∧ ivs_name spec = name.
Proof.
  intros Hnd [Hsize Hall]%andb_true_iff. apply bool_decide_eq_true in Hsize.
  rewrite forallb_forall in Hall. setoid_rewrite <- list_elem_of_In in Hall.
  assert (Hspec : ∀ spec, spec ∈ specs → ∃ v, input !! ivs_name spec = Some v ∧
     modulus_ v = ivs_modulus spec ∧ num_elements_ v = ivs_length spec).
  { intros spec Hin. specialize (Hall spec Hin). destruct (input !! ivs_name spec) as [v|]; [|done].
    exists v. split; [done|lia]. }
  split; [done|]. intros name v Hv.
  assert (Hsub : list_to_set (ivs_name <$> specs) ⊆@{gset string} dom input).
  { intros x Hx. apply elem_of_list_to_set, list_elem_of_fmap in Hx as (spec & -> & Hin).
    destruct (Hspec spec Hin) as (w & Hw & _). apply elem_of_dom. by eexists. }
  assert (Heq : list_to_set (ivs_name <$> specs) = dom input).
  { apply leibniz_equiv, set_subseteq_size_equiv; [done|].
    rewrite size_dom, Hsize, size_list_to_set, length_fmap by done. done. }
  assert (Hx : name ∈ dom input) by (apply elem_of_dom; by eexists).
  rewrite <- Heq in Hx. apply elem_of_list_to_set, list_elem_of_fmap in Hx as (spec & -> & Hin).
  by eexists.
Qed.

(** The vectors of the message that masks [input]. *)
Definition masked_vectors (d : R2Data) (states : list OtherClientState) (input : SecAggVectorMap)
    (vectors : gmap string (list Z)) : Prop :=
  ∀ spec, spec ∈ r2_specs d → ∃ v, input !! ivs_name spec = Some v ∧
    vectors !! ivs_name spec = Some (packed_bytes (GetBitWidth (ivs_modulus spec))
      (add_mod_list (ivs_modulus spec) (decoded v) (client_mask d states spec))).

Lemma SendMaskedInput_masks d input masks states :
  NoDup (ivs_name <$> r2_specs d) → valid_input input (r2_specs d) → holds_masks d masks states →
  ∃ vectors, SendMaskedInput input masks = Ok (CS_masked_input_response vectors) ∧
    masked_vectors d states input vectors ∧
    ∀ name, is_Some (vectors !! name) ↔ ∃ spec, spec ∈ r2_specs d ∧ ivs_name spec = name.
Proof.
  intros Hnd [Hval Hvok] Hmasks. destruct (valid_input_names _ _ Hnd Hval) as [Hspec Hname].
  destruct (SendMaskedInput_ok input masks) as (vectors & Hsend & Hlook).
  { intros name v Hv. split; [by eapply Hvok|]. destruct (Hname name v Hv) as (spec & Hin & <-).
    destruct (Hmasks spec Hin) as (mask & ? & ? & Hmm & Hmn & _). exists mask. split_and!; [done|done|].
    destruct (Hspec spec Hin) as (v' & Hv' & ? & ?). rewrite Hv in Hv'. injection Hv' as <-.
    split; congruence. }
  exists vectors. split; [done|]. split.
  - intros spec Hin. destruct (Hspec spec Hin) as (v & Hv & Hm & _). exists v. split; [done|].
    destruct (Hmasks spec Hin) as (mask & Hmask & _ & _ & _ & Hdec).
    rewrite Hlook, Hv, Hmask. simpl. by rewrite Hm, Hdec.
  - intros name. rewrite Hlook. split.
    + intros [y Hy]. destruct (input !! name) as [v|] eqn:Hv; [|done]. by eapply Hname.
    + intros (spec & Hin & <-). destruct (Hspec spec Hin) as (v & -> & _).
      destruct (Hmasks spec Hin) as (mask & -> & _). by eexists.
Qed.

(** ** Properties *)

Lemma client_run_ok s events s' :
  client_run fuel abort_message s events s' → client_ok s → client_ok s'.
Proof.
  induction 1 as [|s1 ev s2 ev' s3 Hstep Hrun IH]; [done|]. intros Hs1. apply IH.
  destruct Hstep as [op s' ev'' Hop|]; [by eapply run_op_ok|done].
Qed.

Lemma new_client_ok max_neighbors minimum specs :
  client_ok (new_SecAggClient max_neighbors minimum specs).1.
Proof. split; simpl; auto with secagg. Qed.

(** C36: every state that a client can reach satisfies its invariant: from
    round 2 on the client knows its own index and counts itself as alive, the
    counter of living neighbors is the number of neighbors marked alive and
    is at least the reconstruction threshold, and there is a 32-byte key for
    every living neighbor. *)
Theorem client_invariant max_neighbors minimum specs s0 e0 events s :
  new_SecAggClient max_neighbors minimum specs = (s0, e0) →
  client_run fuel abort_message s0 events s → client_ok s.
Proof.
  intros [= <- _] Hrun. eapply client_run_ok; [done|].
  apply (new_client_ok max_neighbors minimum specs).
Qed.

(** C35: whatever calls and messages a client receives, it sends at most one
    message of each round and an abort at most once, in the order of the
    protocol and with nothing after an abort. *)
Theorem client_messages_in_order max_neighbors minimum specs s0 e0 events s :
  new_SecAggClient max_neighbors minimum specs = (s0, e0) →
  client_run fuel abort_message s0 events s →
  StronglySorted lt (message_rank <$> sent events).
Proof. intros _ Hrun. by destruct (client_run_sends _ _ _ Hrun) as (_ & ? & _). Qed.

(** Aborted and completed clients stay so, and send nothing. *)
Lemma client_terminal s events s' :
  IsAborted s || IsCompletedSuccessfully s = true → client_run fuel abort_message s events s' →
  s' = s ∧ events = [].
Proof.
  intros Ht Hrun. induction Hrun as [|s1 ev s2 ev' s3 Hstep Hrun IH]; [done|].
  assert (s2 = s1 ∧ ev = []) as [-> ->].
  { destruct Hstep as [op s' ev'' Hop|]; [|done].
    destruct op as [e|reason|input|message e abort]; simpl in Hop.
    - by destruct s1.
    - unfold Abort in Hop. rewrite Ht in Hop. by injection Hop as <- <-.
    - by destruct s1.
    - by destruct s1. }
  by apply IH.
Qed.

(** C28: what an unmasking response reveals. It has one entry per neighbor;
    for every neighbor it holds at most one of the two shares: the share of
    the self key of those that are still alive, the share of the pairwise key
    of those that the request declares dead in round 3, and nothing for those
    that had dropped out before. The client itself is never in the second
    case, and at least [minimum] entries are self-key shares. *)
Theorem unmasking_response_safe d ids abort events shares :
  r3_ok d → R3HandleUnmasking abort_message d ids abort = (Completed, events) →
  CS_unmasking_response shares ∈ sent events →
  Z.of_nat (length shares) = r3_number d ∧
  r3_minimum d ≤ Z.of_nat (length (filter (λ x, is_prf x = true) shares)) ∧
  shares !! Z.to_nat (r3_client_id d) =
    Some (PrfShare (default [] (r3_self_key_shares d !! Z.to_nat (r3_client_id d)))) ∧
  ∀ i, 0 ≤ i < r3_number d → shares !! Z.to_nat i = Some
    (if decide (r3_states d !! Z.to_nat i = Some kAlive) then
       if decide (i ∈ dead_ids ids) then
         NoiseShare (default [] (r3_pairwise_key_shares d !! Z.to_nat i))
       else PrfShare (default [] (r3_self_key_shares d !! Z.to_nat i))
     else NoShare).
Proof.
  intros [[Hid Hnum Hsmall Hself Hal Hmin Hst] _ _]. unfold R3HandleUnmasking.
  destruct (Signalled abort) as [[] ab]; [done|].
  destruct (dead_loop d ids (r3_alive d) (r3_states d)) as [error|[alive states]] eqn:Hdead; [done|].
  apply dead_loop_ok in Hdead as (Ha & Hl & Hids & Hlook); [|done|lia|done].
  destruct (Z.ltb_spec alive (r3_minimum d)); [done|].
  rewrite take_ge by lia.
  destruct (unmasking_loop d 0 states ab) as [shares'|] eqn:Hloop; [|done].
  intros [= <-] Hin. simpl in Hin. apply list_elem_of_singleton in Hin as [= ->].
  pose proof (unmasking_loop_count _ _ _ _ _ Hloop) as Hcount.
  apply unmasking_loop_ok in Hloop as [Hls Hp]. simpl in Hp.
  assert (Hentry : ∀ i, 0 ≤ i < r3_number d → shares' !! Z.to_nat i = Some
    (if decide (r3_states d !! Z.to_nat i = Some kAlive) then
       if decide (i ∈ dead_ids ids) then
         NoiseShare (default [] (r3_pairwise_key_shares d !! Z.to_nat i))
       else PrfShare (default [] (r3_self_key_shares d !! Z.to_nat i))
     else NoShare)).
  { intros i Hi. destruct (lookup_lt_is_Some_2 (r3_states d) (Z.to_nat i)) as [st Hs]; [lia|].
    specialize (Hlook (Z.to_nat i)). rewrite Z2Nat.id, Hs in Hlook by lia. rewrite Hs.
    destruct (decide (i ∈ dead_ids ids)) as [Hd|Hd].
    - rewrite (Hp _ _ Hlook). destruct (Hids i Hd) as (_ & _ & Hai). rewrite Hs in Hai.
      by rewrite decide_True.
    - rewrite (Hp _ _ Hlook). pose proof (Forall_lookup_1 _ _ _ _ Hst Hs) as [-> |[-> | ->]];
        [by rewrite decide_True|by rewrite decide_False..]. }
  split_and!; [lia|lia| |done]. rewrite Hentry by lia. rewrite decide_True by done.
  rewrite decide_False; [done|]. intros Hx. by destruct (Hids _ Hx) as (_ & ? & _).
Qed.

(** C7: what a client with an input does in round 2, whatever the server sends and
    whenever the asynchronous abort is signalled: no check fails. The request of
    the round, however malformed, makes it abort and tell the server, or send its
    input plus its mask, vector by vector modulo the modulus; the mask is the sum
    of the masks of its self key and of the keys of the living neighbors before
    it minus those of the living neighbors after it. On an abort message it ends
    without an answer, and a message of another round is an error that changes
    nothing. *)
Theorem masked_input_response_value d input message e abort :
  r2_ok d → draws_masks (r2_session_id d) (r2_specs d) → valid_input input (r2_specs d) →
  let result := HandleMessage fuel abort_message (R2InputSet d input) message e abort in
  match message with
  | SC_masked_input_request _ =>
      (∃ reason, result = Ok (AbortAndNotifyServer reason)) ∨
      ∃ d' vectors, result =
          Ok (R3Unmasking d', [Send (CS_masked_input_response vectors); Transition R3_UNMASKING]) ∧
        r3_ok d' ∧ masked_vectors d (r3_states d') input vectors
  | SC_abort early_success _ =>
      result = Ok (HandleAbort early_success) ∧ sent (HandleAbort early_success).2 = []
  | _ => ∃ code reason, result = Error code reason
  end.
Proof.
  intros Hd Hdraw Hinput result. subst result.
  destruct message as [early_success text|request|encrypted|ids|]; simpl; try by eexists _, _.
  { by destruct early_success. }
  unfold R2HandleMaskedInput.
  destruct (HandleMaskedInputCollectionRequest_total d encrypted abort Hd Hdraw)
    as ([error|[masks l]] & Hrun & Hmasks); rewrite Hrun; cbn [mbind Res_bind]; [left; by eexists|].
  right. apply HandleMaskedInputCollectionRequest_ok in Hrun; [|done].
  destruct (SendMaskedInput_masks d input masks (sl_states l)) as (vectors & -> & Hv & _);
    [apply Hdraw|done|by apply Hmasks|]. cbn [mbind Res_bind]. by eexists _, _.
Qed.
End client.
