(* ===== verification/Accumulator.v ===== *)
(** * Asynchronous accumulation: [server/secagg_scheduler.h]

    [Accumulator<T>] hands generators to a parallel scheduler and reduces what
    they return, one at a time, on a sequential scheduler. The record keeps the
    members of the class and, in its last five fields, where the tasks given to
    the two schedulers have got to. A step of a scheduler is an [Action]; the
    interleaving of the actions with each other and with the calls of the owner
    is arbitrary, each being atomic as far as [mutex_] makes it so.

    A generator may read and change the state it shares with the owner, the
    environment [E]. [Schedule] with a delay differs only in when its task
    reaches the parallel scheduler. *)

From S2P Require Import Prelude.

Abbreviation Generator T E := (E → Res (T * E)).

Section accumulator.
Context {T E C : Type} (accumulator_func_ : T → T → Res T).

Inductive SequentialTask := Reduce (partial : T) | RunCallback (callback : C).

Record Accumulator := {
  accumulated_value_ : option T;          (** [None]: moved out *)
  async_callback_ : option C;
  remaining_sequential_tasks_count_ : Z;
  has_unobserved_work_ : bool;
  active_count_ : Z;
  is_cancelled_ : bool;
  parallel_queue : list (Generator T E);        (** given to [RunParallel], not started *)
  parallel_running : list (Generator T E);      (** past [MaybeIncrementActiveCount] *)
  parallel_finished : list T;             (** past [DecrementActiveCount] *)
  sequential_queue : list SequentialTask; (** given to [RunSequential] *)
  sequential_running : option T           (** past [MaybeIncrementActiveCount] *)
}.

Definition new_Accumulator (initial_value : T) : Accumulator :=
  {| accumulated_value_ := Some initial_value; async_callback_ := None;
     remaining_sequential_tasks_count_ := 0; has_unobserved_work_ := false;
     active_count_ := 0; is_cancelled_ := false; parallel_queue := []; parallel_running := [];
     parallel_finished := []; sequential_queue := []; sequential_running := None |}.

(** Assignments to the members. *)
Definition set_counts (remaining : Z) (unobserved : bool) (active : Z) (a : Accumulator) :
    Accumulator :=
  {| accumulated_value_ := accumulated_value_ a; async_callback_ := async_callback_ a;
     remaining_sequential_tasks_count_ := remaining; has_unobserved_work_ := unobserved;
     active_count_ := active; is_cancelled_ := is_cancelled_ a;
     parallel_queue := parallel_queue a; parallel_running := parallel_running a;
     parallel_finished := parallel_finished a; sequential_queue := sequential_queue a;
     sequential_running := sequential_running a |}.
Definition set_tasks pq pr pf sq sr (a : Accumulator) : Accumulator :=
  {| accumulated_value_ := accumulated_value_ a; async_callback_ := async_callback_ a;
     remaining_sequential_tasks_count_ := remaining_sequential_tasks_count_ a;
     has_unobserved_work_ := has_unobserved_work_ a;
     active_count_ := active_count_ a; is_cancelled_ := is_cancelled_ a;
     parallel_queue := pq; parallel_running := pr; parallel_finished := pf;
     sequential_queue := sq; sequential_running := sr |}.
Definition set_value value callback cancelled (a : Accumulator) : Accumulator :=
  {| accumulated_value_ := value; async_callback_ := callback;
     remaining_sequential_tasks_count_ := remaining_sequential_tasks_count_ a;
     has_unobserved_work_ := has_unobserved_work_ a;
     active_count_ := active_count_ a; is_cancelled_ := cancelled;
     parallel_queue := parallel_queue a; parallel_running := parallel_running a;
     parallel_finished := parallel_finished a; sequential_queue := sequential_queue a;
     sequential_running := sequential_running a |}.
Definition set_active (active : Z) (a : Accumulator) : Accumulator :=
  set_counts (remaining_sequential_tasks_count_ a) (has_unobserved_work_ a) active a.
Definition set_sequential_queue sq (a : Accumulator) : Accumulator :=
  set_tasks (parallel_queue a) (parallel_running a) (parallel_finished a) sq
    (sequential_running a) a.

(** ** Members *)

Definition MaybeIncrementActiveCount (a : Accumulator) : bool * Accumulator :=
  if is_cancelled_ a then (false, a) else (true, set_active (active_count_ a + 1) a).

Definition DecrementActiveCount (a : Accumulator) : Res Accumulator :=
  FCP_CHECK 0 <? active_count_ a ;; Ok (set_active (active_count_ a - 1) a).

Definition IncrementRemainingCount (a : Accumulator) : Accumulator :=
  set_counts (remaining_sequential_tasks_count_ a + 1)
    (has_unobserved_work_ a || (remaining_sequential_tasks_count_ a =? 0)) (active_count_ a) a.

Definition RunParallel (g : Generator T E) (a : Accumulator) : Accumulator :=
  set_tasks (parallel_queue a ++ [g]) (parallel_running a) (parallel_finished a)
    (sequential_queue a) (sequential_running a) a.
Definition RunSequential (t : SequentialTask) (a : Accumulator) : Accumulator :=
  set_sequential_queue (sequential_queue a ++ [t]) a.

Definition Schedule (g : Generator T E) (a : Accumulator) : Accumulator :=
  RunParallel g (IncrementRemainingCount a).

Definition IsIdle (a : Accumulator) : bool := remaining_sequential_tasks_count_ a =? 0.

Definition SetAsyncObserver (callback : C) (a : Accumulator) : bool * Accumulator :=
  if negb (has_unobserved_work_ a) then (false, a)
  else if remaining_sequential_tasks_count_ a =? 0 then
    (true, RunSequential (RunCallback callback)
             (set_counts (remaining_sequential_tasks_count_ a) false (active_count_ a) a))
  else (true, set_value (accumulated_value_ a) (Some callback) (is_cancelled_ a) a).

Definition UpdateCountsAndGetCallback (a : Accumulator) : option C * Accumulator :=
  let remaining := remaining_sequential_tasks_count_ a - 1 in
  let a' := set_counts remaining (has_unobserved_work_ a) (active_count_ a - 1) a in
  match async_callback_ a with
  | Some callback =>
      if remaining =? 0 then
        (Some callback,
         set_value (accumulated_value_ a) None (is_cancelled_ a)
           (set_counts remaining false (active_count_ a - 1) a))
      else (None, a')
  | None => (None, a')
  end.

(** The value is moved out, whether or not it is there. *)
Definition GetResultAndCancel (a : Accumulator) : Res (option T * Accumulator) :=
  FCP_CHECK active_count_ a =? 0 ;;
  Ok (accumulated_value_ a, set_value None (async_callback_ a) true a).

(** ** Steps of the schedulers *)

Inductive Action :=
  | StartParallel (i : nat)     (** a worker takes a task and checks for cancellation *)
  | FinishParallel (i : nat)    (** [generator()] returns and the task is no longer active *)
  | ScheduleSequential (i : nat)(** the rest of the task, unless cancelled *)
  | StartSequential             (** the sequential scheduler takes its next task *)
  | FinishSequential.           (** the reduction, and the callback it may trigger *)

(** An action whose task does not exist changes nothing. The result names the
    callback that is invoked, if any. *)
Definition perform (action : Action) (a : Accumulator) (e : E) :
    Res (Accumulator * E * option C) :=
  match action with
  | StartParallel i =>
      match parallel_queue a !! i with
      | None => Ok (a, e, None)
      | Some g =>
          let '(active, a) := MaybeIncrementActiveCount a in
          let running := if active then parallel_running a ++ [g] else parallel_running a in
          Ok (set_tasks (delete i (parallel_queue a)) running (parallel_finished a)
                (sequential_queue a) (sequential_running a) a, e, None)
      end
  | FinishParallel i =>
      match parallel_running a !! i with
      | None => Ok (a, e, None)
      | Some generator =>
          '(partial, e) ← generator e;
          a ← DecrementActiveCount a;
          Ok (set_tasks (parallel_queue a) (delete i (parallel_running a))
                (parallel_finished a ++ [partial]) (sequential_queue a)
                (sequential_running a) a, e, None)
      end
  | ScheduleSequential i =>
      match parallel_finished a !! i with
      | None => Ok (a, e, None)
      | Some partial =>
          let queue := if is_cancelled_ a then sequential_queue a
                       else sequential_queue a ++ [Reduce partial] in
          Ok (set_tasks (parallel_queue a) (parallel_running a) (delete i (parallel_finished a))
                queue (sequential_running a) a, e, None)
      end
  | StartSequential =>
      match sequential_running a, sequential_queue a with
      | None, Reduce partial :: queue =>
          let '(active, a) := MaybeIncrementActiveCount a in
          Ok (set_tasks (parallel_queue a) (parallel_running a) (parallel_finished a) queue
                (if active then Some partial else None) a, e, None)
      | None, RunCallback callback :: queue =>
          Ok (set_sequential_queue queue a, e, Some callback)
      | _, _ => Ok (a, e, None)
      end
  | FinishSequential =>
      match sequential_running a with
      | None => Ok (a, e, None)
      | Some partial =>
          match accumulated_value_ a with
          | None => Crash
          | Some value =>
              new_value ← accumulator_func_ value partial;
              let a := set_value (Some new_value) (async_callback_ a) (is_cancelled_ a) a in
              let '(callback, a) := UpdateCountsAndGetCallback a in
              Ok (set_tasks (parallel_queue a) (parallel_running a) (parallel_finished a)
                    (sequential_queue a) None a, e, callback)
          end
      end
  end.

(** [Cancel] sets the flag and waits until no task is active: the generators
    that run return, their results being dropped, and so does a reduction. *)
Fixpoint finish_generators (running : list (Generator T E)) (a : Accumulator) (e : E) :
    Res (Accumulator * E) :=
  match running with
  | [] => Ok (a, e)
  | generator :: rest =>
      '(partial, e) ← generator e;
      a ← DecrementActiveCount a;
      finish_generators rest
        (set_tasks (parallel_queue a) rest (parallel_finished a ++ [partial])
           (sequential_queue a) (sequential_running a) a) e
  end.

Definition Cancel (a : Accumulator) (e : E) : Res (Accumulator * E * option C) :=
  let a := set_value (accumulated_value_ a) (async_callback_ a) true a in
  '(a, e) ← finish_generators (parallel_running a) a e;
  perform FinishSequential a e.
End accumulator.

Arguments Accumulator : clear implicits.
Arguments SequentialTask : clear implicits.

(** ** Bookkeeping *)

Section counts.
Context {T E C : Type}.
Implicit Types (a : Accumulator T E C).

Definition reduces (queue : list (SequentialTask T C)) : list T :=
  queue ≫= λ t, match t with Reduce partial => [partial] | RunCallback _ => [] end.

Lemma reduces_app q1 q2 : reduces (q1 ++ q2) = reduces q1 ++ reduces q2.
Proof. apply bind_app. Qed.

(** Results that are on their way to the accumulated value. *)
Definition in_flight a : list T :=
  option_list (sequential_running a) ++ reduces (sequential_queue a) ++ parallel_finished a.

Definition to_generate a : list (Generator T E) := parallel_running a ++ parallel_queue a.

(** What the counters count. *)
Record counts_ok a : Prop := {
  co_active :
    active_count_ a =
      Z.of_nat (length (parallel_running a) + length (option_list (sequential_running a)));
  co_remaining :
    is_cancelled_ a = false →
    remaining_sequential_tasks_count_ a = Z.of_nat (length (in_flight a) + length (to_generate a))
}.

(** A bound on the steps that the schedulers can still make. *)
Definition work a : nat :=
  5 * length (parallel_queue a) + 4 * length (parallel_running a) +
  3 * length (parallel_finished a) + 2 * length (sequential_queue a) +
  length (option_list (sequential_running a)).

Lemma idle_empty a :
  counts_ok a → is_cancelled_ a = false → IsIdle a = true → in_flight a = [] ∧ to_generate a = [].
Proof.
  intros [_ Hr] Hc Hi. unfold IsIdle in Hi. specialize (Hr Hc).
  split; apply nil_length_inv; lia.
Qed.

Lemma idle_inactive a :
  counts_ok a → is_cancelled_ a = false → IsIdle a = true → active_count_ a = 0.
Proof.
  intros Ha Hc Hi. destruct (idle_empty a Ha Hc Hi) as [Hf Hg].
  rewrite (co_active a Ha). unfold in_flight, to_generate in *.
  apply app_eq_nil in Hf as [-> _]. apply app_eq_nil in Hg as [-> _]. done.
Qed.
End counts.

(** ** What is accumulated *)

Section reduction.
Context {T E C : Type} (func : T → T → Res T).
(** On the values of [wf] the accumulation function is the total [op], which
    is associative and commutative. *)
Context (wf : T → Prop) (op : T → T → T).
Context (op_wf : ∀ x y, wf x → wf y → wf (op x y)).
Context (func_op : ∀ x y, wf x → wf y → func x y = Ok (op x y)).
Context (op_swap : ∀ v x y, wf v → wf x → wf y → op (op v x) y = op (op v y) x).
(** What the generators [gs] will contribute, started in the environment [e]
    in any order. *)
Context (good : list (Generator T E) → E → Prop) (outstanding : list (Generator T E) → E → list T).
Context (generate : ∀ gs1 g gs2 e, good (gs1 ++ g :: gs2) e →
  ∃ x e', g e = Ok (x, e') ∧ wf x ∧ good (gs1 ++ gs2) e' ∧
    (∀ v, wf v → foldl op v (outstanding (gs1 ++ g :: gs2) e) =
                 foldl op v (x :: outstanding (gs1 ++ gs2) e'))).
Context (good_perm : ∀ gs gs' e, gs ≡ₚ gs' → good gs e → good gs' e).
Context (outstanding_perm : ∀ gs gs' e, gs ≡ₚ gs' → good gs e →
  outstanding gs e ≡ₚ outstanding gs' e).
Context (outstanding_wf : ∀ gs e, good gs e → Forall wf (outstanding gs e)).
Implicit Types (a : Accumulator T E C).

Lemma foldl_wf xs : ∀ v, wf v → Forall wf xs → wf (foldl op v xs).
Proof using op_wf. induction xs; simpl; [done|]. intros v Hv [? ?]%Forall_cons. auto. Qed.

Lemma foldl_perm xs ys : xs ≡ₚ ys → ∀ v, wf v → Forall wf xs → foldl op v xs = foldl op v ys.
Proof using op_wf op_swap.
  induction 1; simpl; intros v Hv Hxs; decompose_Forall_hyps; auto.
  - by rewrite op_swap.
  - rewrite IHPermutation1, IHPermutation2 by (done || by eapply Permutation_Forall). done.
Qed.

(** [total] is what the accumulator will hold when all is done. *)
Record accumulates (total : T) a (e : E) : Prop := {
  ac_counts : counts_ok a;
  ac_not_cancelled : is_cancelled_ a = false;
  ac_good : good (to_generate a) e;
  ac_in_flight : Forall wf (in_flight a);
  ac_value : ∃ v, accumulated_value_ a = Some v ∧ wf v ∧
    foldl op v (in_flight a ++ outstanding (to_generate a) e) = total
}.

Lemma accumulates_all_wf total a e :
  accumulates total a e → Forall wf (in_flight a ++ outstanding (to_generate a) e).
Proof using outstanding_wf. intros [? ? ? ? ?]. apply Forall_app; eauto. Qed.

(** A step that only moves tasks around. *)
Lemma accumulates_permute total a a' e :
  accumulates total a e → counts_ok a' → is_cancelled_ a' = false →
  accumulated_value_ a' = accumulated_value_ a →
  in_flight a' ≡ₚ in_flight a → to_generate a' ≡ₚ to_generate a →
  accumulates total a' e.
Proof using op_wf op_swap good_perm outstanding_perm outstanding_wf.
  intros Ha Hc Hn Hv Hf Hg. pose proof (accumulates_all_wf _ _ _ Ha) as Hwf.
  destruct Ha as [_ _ Hgood Hfl (v & Hv' & Hwv & Ht)].
  split; [done|done|by eapply good_perm|by rewrite Hf|].
  exists v. split; [congruence|]. split; [done|]. rewrite <- Ht.
  symmetry. apply foldl_perm; [|done|done].
  rewrite Hf. f_equiv. by apply outstanding_perm.
Qed.

Lemma StartParallel_accumulates total a e i :
  accumulates total a e →
  ∃ a' e' callback, perform func (StartParallel i) a e = Ok (a', e', callback) ∧ accumulates total a' e'.
Proof using op_wf func_op op_swap generate good_perm outstanding_perm outstanding_wf.
  intros Ha. simpl.
  destruct (parallel_queue a !! i) as [g|] eqn:Hg; [|by eauto 10].
  unfold MaybeIncrementActiveCount. rewrite (ac_not_cancelled _ _ _ Ha). simpl.
  eexists _, _, _. split; [done|].
  pose proof (delete_Permutation _ _ _ Hg) as Hp.
  apply (accumulates_permute _ a); [done| |apply Ha|done|done|].
  + destruct (ac_counts _ _ _ Ha) as [Hact Hrem]. split; simpl; [|intros Hc; specialize (Hrem Hc)];
      unfold in_flight, to_generate in *; simpl; rewrite ?length_app in *;
      apply Permutation_length in Hp; simpl in *; lia.
  + unfold to_generate. simpl. rewrite <- (assoc_L (++)). f_equiv. symmetry. exact Hp.
Qed.

Lemma FinishParallel_accumulates total a e i :
  accumulates total a e →
  ∃ a' e' callback, perform func (FinishParallel i) a e = Ok (a', e', callback) ∧ accumulates total a' e'.
Proof using op_wf func_op op_swap generate good_perm outstanding_perm outstanding_wf.
  intros Ha. simpl.
  destruct (parallel_running a !! i) as [g|] eqn:Hg; [|by eauto 10].
  pose proof (delete_Permutation _ _ _ Hg) as Hp.
  pose proof (accumulates_all_wf _ _ _ Ha) as Hwf.
  destruct Ha as [Hco Hnc Hgood Hfl (v & Hv & Hwv & Ht)].
  assert (to_generate a = take i (parallel_running a) ++ g ::
            drop (S i) (parallel_running a) ++ parallel_queue a) as Hsplit.
  { unfold to_generate. rewrite <- (take_drop_middle _ _ _ Hg) at 1. by rewrite <- (assoc_L (++)). }
  assert (delete i (parallel_running a) ++ parallel_queue a =
            take i (parallel_running a) ++ drop (S i) (parallel_running a) ++ parallel_queue a) as Hd.
  { by rewrite delete_take_drop, (assoc_L (++)). }
  rewrite Hsplit in Hgood. destruct (generate _ _ _ _ Hgood) as (x & e' & -> & Hx & Hgood' & Hout).
  destruct Hco as [Hact Hrem]. unfold DecrementActiveCount, fcp_check. simpl.
  assert ((0 <? active_count_ a) = true) as ->.
  { apply Permutation_length in Hp. simpl in Hp. apply Z.ltb_lt. clear -Hact Hp. lia. }
  simpl. eexists _, _, _. split; [done|]. split; simpl.
  + split; simpl.
    * apply Permutation_length in Hp. simpl in *. lia.
    * intros Hc. specialize (Hrem Hc). unfold in_flight, to_generate in *. simpl.
      apply Permutation_length in Hp. rewrite ?length_app in *. simpl in *. lia.
  + done.
  + unfold to_generate. simpl. by rewrite Hd.
  + unfold in_flight in *. simpl. rewrite !Forall_app in *. repeat split; try apply Hfl.
    by apply Forall_singleton.
  + exists v. split; [done|]. split; [done|]. unfold to_generate at 1. simpl. rewrite Hd.
    rewrite <- Ht, Hsplit. rewrite (foldl_app _ (in_flight a)).
    assert (wf (foldl op v (in_flight a))) as Hw by (by apply foldl_wf).
    rewrite (Hout _ Hw), <- (foldl_app _ (in_flight a)). f_equal.
    unfold in_flight. simpl. by rewrite <- !(assoc_L (++)).
Qed.

Lemma ScheduleSequential_accumulates total a e i :
  accumulates total a e →
  ∃ a' e' callback, perform func (ScheduleSequential i) a e = Ok (a', e', callback) ∧ accumulates total a' e'.
Proof using op_wf func_op op_swap generate good_perm outstanding_perm outstanding_wf.
  intros Ha. simpl.
  destruct (parallel_finished a !! i) as [x|] eqn:Hx; [|by eauto 10].
  rewrite (ac_not_cancelled _ _ _ Ha).
  eexists _, _, _. split; [done|].
  pose proof (delete_Permutation _ _ _ Hx) as Hp.
  apply (accumulates_permute _ a); [done| |apply Ha|done| |done].
  + destruct (ac_counts _ _ _ Ha) as [Hact Hrem]. split; simpl; [done|]. intros Hc.
    specialize (Hrem Hc). unfold in_flight, to_generate in *. simpl.
    rewrite reduces_app. simpl. rewrite ?length_app in *.
    apply Permutation_length in Hp; simpl in *; lia.
  + unfold in_flight. simpl. rewrite reduces_app. simpl.
    rewrite <- !(assoc_L (++)). do 2 f_equiv. symmetry. exact Hp.
Qed.

Lemma StartSequential_accumulates total a e :
  accumulates total a e →
  ∃ a' e' callback, perform func (StartSequential) a e = Ok (a', e', callback) ∧ accumulates total a' e'.
Proof using op_wf func_op op_swap generate good_perm outstanding_perm outstanding_wf.
  intros Ha. simpl.
  destruct (sequential_running a) as [r|] eqn:Hr; [by eauto 10|].
  destruct (sequential_queue a) as [|[x|c] q] eqn:Hq; [by eauto 10| |].
  + unfold MaybeIncrementActiveCount. rewrite (ac_not_cancelled _ _ _ Ha).
    eexists _, _, _. split; [done|].
    apply (accumulates_permute _ a); [done| |apply Ha|done| |done].
    * destruct (ac_counts _ _ _ Ha) as [Hact Hrem]. unfold in_flight, to_generate in *.
      rewrite Hr, Hq in *. split; simpl in *; [lia|done].
    * unfold in_flight. rewrite Hr, Hq. done.
  + eexists _, _, _. split; [done|].
    apply (accumulates_permute _ a); [done| |apply Ha|done| |done].
    * destruct (ac_counts _ _ _ Ha) as [Hact Hrem]. unfold in_flight, to_generate in *.
      split; unfold in_flight, to_generate; simpl; rewrite Hr, ?Hq in *; simpl in *; done.
    * unfold in_flight. simpl. rewrite Hr, Hq. done.
Qed.

Lemma FinishSequential_accumulates total a e :
  accumulates total a e →
  ∃ a' e' callback, perform func (FinishSequential) a e = Ok (a', e', callback) ∧ accumulates total a' e'.
Proof using op_wf func_op op_swap generate good_perm outstanding_perm outstanding_wf.
  intros Ha. simpl.
  destruct (sequential_running a) as [x|] eqn:Hr; [|by eauto 10].
  destruct Ha as [[Hact Hrem] Hnc Hgood Hfl (v & Hv & Hwv & Ht)]. rewrite Hv.
  assert (in_flight a = x :: reduces (sequential_queue a) ++ parallel_finished a) as Hif
    by (unfold in_flight; by rewrite Hr).
  rewrite Hif in *. apply Forall_cons in Hfl as [Hx Hfl].
  rewrite func_op by done. cbn [mbind Res_bind].
  rewrite Hr in Hact. specialize (Hrem Hnc). simpl in *.
  assert (∀ callback unobserved, accumulates total
    (set_tasks (parallel_queue a) (parallel_running a) (parallel_finished a) (sequential_queue a)
       None (set_value (Some (op v x)) callback (is_cancelled_ a)
         (set_counts (remaining_sequential_tasks_count_ a - 1) unobserved (active_count_ a - 1) a)))
    e) as Hend.
  { intros callback unobserved. split; simpl; [|done|done|done|].
    - split; simpl; [lia|]. intros _. unfold in_flight, to_generate in *. simpl in *.
      rewrite ?Hr in *. simpl in *. lia.
    - exists (op v x). split; [done|]. split; [by apply op_wf|]. done. }
  unfold UpdateCountsAndGetCallback. simpl.
  destruct (async_callback_ a) as [c|] eqn:Hcb; [destruct (_ =? 0)|];
    (eexists _, _, _; split; [done|]); rewrite ?Hcb;
    [apply (Hend None false)| |]; destruct a; simpl in *; subst; apply Hend.
Qed.

(** No action of the schedulers fails, and none changes the total. *)
Lemma perform_accumulates total a e action :
  accumulates total a e →
  ∃ a' e' callback, perform func action a e = Ok (a', e', callback) ∧ accumulates total a' e'.
Proof using op_wf func_op op_swap generate good_perm outstanding_perm outstanding_wf.
  destruct action; auto using StartParallel_accumulates, FinishParallel_accumulates,
    ScheduleSequential_accumulates, StartSequential_accumulates, FinishSequential_accumulates.
Qed.

(** An owner that finds the accumulator idle can take the total. *)
Lemma idle_total total a e :
  (∀ e, outstanding [] e = []) → accumulates total a e → IsIdle a = true →
  accumulated_value_ a = Some total ∧ active_count_ a = 0.
Proof using.
  intros Hnil [Hc Hn _ _ (v & Hv & _ & Ht)] Hi. destruct (idle_empty a Hc Hn Hi) as [Hf Hg].
  rewrite Hf, Hg, Hnil in Ht. simpl in Ht. subst. split; [done|]. by apply idle_inactive.
Qed.
End reduction.

(** ** Runs of the schedulers *)

Section runs.
Context {T E C : Type} (func : T → T → Res T).
Implicit Types (a : Accumulator T E C).

(** The actions of a schedule, and the callbacks they invoke. *)
Fixpoint perform_all (actions : list Action) a (e : E) : Res (Accumulator T E C * E * list C) :=
  match actions with
  | [] => Ok (a, e, [])
  | action :: rest =>
      '(a, e, callback) ← perform func action a e;
      '(a, e, callbacks) ← perform_all rest a e;
      Ok (a, e, option_list callback ++ callbacks)
  end.

Lemma perform_all_app actions1 actions2 a e a1 e1 cs1 a2 e2 cs2 :
  perform_all actions1 a e = Ok (a1, e1, cs1) → perform_all actions2 a1 e1 = Ok (a2, e2, cs2) →
  perform_all (actions1 ++ actions2) a e = Ok (a2, e2, cs1 ++ cs2).
Proof.
  revert a e cs1. induction actions1 as [|action rest IH]; simpl; intros a e cs1 H1 H2.
  - by simplify_eq.
  - apply bind_ok in H1 as ([[a' e'] c] & -> & H1). simpl.
    apply bind_ok in H1 as ([[a'' e''] cs] & Hrest & [= <- <- <-]).
    rewrite (IH _ _ _ Hrest H2). simpl. by rewrite (assoc_L (++)).
Qed.

(** The task of the action exists. *)
Definition enabled (action : Action) a : bool :=
  match action with
  | StartParallel i => bool_decide (i < length (parallel_queue a))%nat
  | FinishParallel i => bool_decide (i < length (parallel_running a))%nat
  | ScheduleSequential i => bool_decide (i < length (parallel_finished a))%nat
  | StartSequential =>
      match sequential_running a, sequential_queue a with None, _ :: _ => true | _, _ => false end
  | FinishSequential => bool_decide (is_Some (sequential_running a))
  end.

(** How many actions of a schedule found their task. *)
Fixpoint effective (actions : list Action) a (e : E) : nat :=
  match actions with
  | [] => 0
  | action :: rest =>
      match perform func action a e with
      | Ok (a', e', _) => (if enabled action a then 1 else 0) + effective rest a' e'
      | _ => 0
      end
  end.

Lemma perform_disabled action a e : enabled action a = false → perform func action a e = Ok (a, e, None).
Proof.
  destruct action as [i|i|i| |]; simpl.
  1-3: intros Hi%bool_decide_eq_false; by rewrite lookup_ge_None_2 by lia.
  - by destruct (sequential_running a), (sequential_queue a) as [|[]].
  - intros Hi%bool_decide_eq_false. destruct (sequential_running a); [by destruct Hi|done].
Qed.

Lemma length_delete_lt {A} (l : list A) i x : l !! i = Some x → length l = S (length (delete i l)).
Proof. intros H. rewrite length_delete by done. apply lookup_lt_Some in H. lia. Qed.

(** An action that finds its task reduces the work. *)
Lemma perform_work action a e a' e' callback :
  enabled action a = true → perform func action a e = Ok (a', e', callback) → (work a' < work a)%nat.
Proof.
  unfold work. destruct action as [i|i|i| |]; simpl; intros Hen H.
  - destruct (parallel_queue a !! i) as [g|] eqn:Hg; [|apply lookup_ge_None in Hg; by apply bool_decide_eq_true in Hen; lia].
    pose proof (length_delete_lt _ _ _ Hg). unfold MaybeIncrementActiveCount in H.
    destruct (is_cancelled_ a); simplify_eq; simpl; rewrite ?length_app; simpl; lia.
  - destruct (parallel_running a !! i) as [g|] eqn:Hg; [|apply lookup_ge_None in Hg; by apply bool_decide_eq_true in Hen; lia].
    pose proof (length_delete_lt _ _ _ Hg). apply bind_ok in H as ([x e1] & _ & (a1 & Hd & H)%bind_ok).
    unfold DecrementActiveCount in Hd. apply fcp_check_ok in Hd as [_ [= <-]]. simplify_eq. simpl.
    rewrite length_app. simpl. lia.
  - destruct (parallel_finished a !! i) as [x|] eqn:Hx; [|apply lookup_ge_None in Hx; by apply bool_decide_eq_true in Hen; lia].
    pose proof (length_delete_lt _ _ _ Hx). destruct (is_cancelled_ a); simplify_eq; simpl; rewrite ?length_app; simpl; lia.
  - destruct (sequential_running a) as [x|] eqn:Hr; [done|]. destruct (sequential_queue a) as [|[y|c] q]; [done|..].
    + unfold MaybeIncrementActiveCount in H. destruct (is_cancelled_ a); simplify_eq; simpl; lia.
    + simplify_eq. simpl. rewrite Hr. simpl. lia.
  - destruct (sequential_running a) as [x|] eqn:Hr; [|by apply bool_decide_eq_true in Hen as [? ?]].
    destruct (accumulated_value_ a); [|done]. apply bind_ok in H as (w & _ & H).
    unfold UpdateCountsAndGetCallback in H. simpl in H. repeat case_match; simplify_eq; simpl; lia.
Qed.

(** However the schedulers go on, they come to an end. *)
Lemma effective_bound actions : ∀ a e, (effective actions a e ≤ work a)%nat.
Proof.
  induction actions as [|action rest IH]; intros a e; simpl; [lia|].
  destruct (perform func action a e) as [[[a' e'] c]| |] eqn:Hp; [|lia..]. specialize (IH a' e').
  destruct (enabled action a) eqn:Hen; [apply perform_work in Hp; [lia|done]|].
  rewrite perform_disabled in Hp by done. simplify_eq. lia.
Qed.

(** As long as there is a task, one of them can go on. *)
Lemma stuck_idle a :
  counts_ok a → is_cancelled_ a = false → (∀ action, enabled action a = false) → IsIdle a = true.
Proof.
  intros [_ Hrem] Hc Hstuck. specialize (Hrem Hc). unfold IsIdle. apply Z.eqb_eq.
  pose proof (Hstuck (StartParallel 0)) as H1. pose proof (Hstuck (FinishParallel 0)) as H2.
  pose proof (Hstuck (ScheduleSequential 0)) as H3. pose proof (Hstuck StartSequential) as H4.
  pose proof (Hstuck FinishSequential) as H5. simpl in *. apply bool_decide_eq_false in H1, H2, H3, H5.
  destruct (sequential_running a) eqn:Hr; [by destruct H5|].
  destruct (sequential_queue a) eqn:Hq; [|done]. rewrite Hrem. unfold in_flight, to_generate.
  rewrite Hr, Hq, !length_app. simpl. lia.
Qed.
End runs.

(** ** Generators whose result does not depend on the environment *)

Section constant.
Context {T E C : Type} (func : T → T → Res T).
Context (wf : T → Prop) (op : T → T → T).
Context (op_wf : ∀ x y, wf x → wf y → wf (op x y)).
Context (func_op : ∀ x y, wf x → wf y → func x y = Ok (op x y)).
Context (op_swap : ∀ v x y, wf v → wf x → wf y → op (op v x) y = op (op v y) x).

Definition constant_generator (g : Generator T E) : Prop := ∃ x, wf x ∧ ∀ e, g e = Ok (x, e).
Definition generated (gs : list (Generator T E)) (e : E) : list T :=
  gs ≫= λ g, match g e with Ok (x, _) => [x] | _ => [] end.
Definition constant_generators (gs : list (Generator T E)) (e : E) : Prop :=
  Forall constant_generator gs.

Implicit Types (a : Accumulator T E C).
Abbreviation accumulating := (accumulates wf op constant_generators generated).

Lemma generated_wf gs e : constant_generators gs e → Forall wf (generated gs e).
Proof.
  induction 1 as [|g gs (x & Hx & Hg) _ IH]; simpl; [done|]. rewrite Hg. by constructor.
Qed.

Lemma generate_constant gs1 g gs2 e :
  constant_generators (gs1 ++ g :: gs2) e →
  ∃ x e', g e = Ok (x, e') ∧ wf x ∧ constant_generators (gs1 ++ gs2) e' ∧
    (∀ v, wf v → foldl op v (generated (gs1 ++ g :: gs2) e) =
                 foldl op v (x :: generated (gs1 ++ gs2) e')).
Proof using op_wf op_swap.
  intros Hgs. pose proof (generated_wf _ _ Hgs) as Hwf. unfold constant_generators in *.
  apply Forall_app in Hgs as [H1 H2]. apply Forall_cons in H2 as [(x & Hx & Hg) H2].
  exists x, e. split; [done|]. split; [done|]. split; [by apply Forall_app|]. intros v Hv.
  eapply foldl_perm; [done|done| |done|done].
  unfold generated. rewrite !bind_app, bind_cons, Hg. simpl. by rewrite <- Permutation_middle.
Qed.

Lemma constant_perm gs gs' e : gs ≡ₚ gs' → constant_generators gs e → constant_generators gs' e.
Proof. unfold constant_generators. intros Hp. by rewrite Hp. Qed.

Lemma generated_perm gs gs' e :
  gs ≡ₚ gs' → constant_generators gs e → generated gs e ≡ₚ generated gs' e.
Proof. intros Hp _. unfold generated. by rewrite Hp. Qed.

(** Such generators do not look at the environment. *)
Lemma constant_env total a e e' : accumulating total a e → accumulating total a e'.
Proof.
  intros [Hc Hn Hg Hf (v & Hv & Hwv & Ht)]. split; [done..|]. exists v. split; [done|].
  split; [done|]. rewrite <- Ht. f_equal. f_equal. unfold generated. unfold constant_generators in Hg.
  clear -Hg. induction Hg as [|g gs (x & _ & Hx) _ IH]; [done|]. rewrite !bind_cons, !Hx. by rewrite IH.
Qed.

Lemma perform_constant total a e action :
  accumulating total a e →
  ∃ a' e' callback, perform func action a e = Ok (a', e', callback) ∧ accumulating total a' e'.
Proof using op_wf func_op op_swap.
  apply perform_accumulates; eauto using generate_constant, constant_perm, generated_perm,
    generated_wf.
Qed.

Lemma perform_all_constant total actions : ∀ a e,
  accumulating total a e →
  ∃ a' e' callbacks, perform_all func actions a e = Ok (a', e', callbacks) ∧
    accumulating total a' e'.
Proof using op_wf func_op op_swap.
  induction actions as [|action rest IH]; simpl; intros a e Ha; [by eauto 10|].
  destruct (perform_constant _ _ _ action Ha) as (a1 & e1 & c & -> & Ha1). simpl.
  destruct (IH _ _ Ha1) as (a2 & e2 & cs & -> & Ha2). simpl. eauto 10.
Qed.

Lemma Schedule_constant total a e g x :
  accumulating total a e → wf x → (∀ e, g e = Ok (x, e)) →
  accumulating (op total x) (Schedule g a) e.
Proof using op_wf op_swap.
  intros [[Hact Hrem] Hn Hg Hf (v & Hv & Hwv & Ht)] Hx Hgx.
  assert (to_generate (Schedule g a) = to_generate a ++ [g]) as Htg.
  { unfold to_generate. simpl. by rewrite (assoc_L (++)). }
  split; simpl; [|done| |done|].
  - split; simpl; [done|]. intros _. rewrite Hrem by done.
    change (in_flight (Schedule g a)) with (in_flight a).
    unfold to_generate. simpl. rewrite !length_app. simpl. lia.
  - rewrite Htg. unfold constant_generators in *. apply Forall_app. split; [done|].
    apply Forall_singleton. by exists x.
  - exists v. split; [done|]. split; [done|]. rewrite Htg. unfold generated. rewrite bind_app.
    simpl. rewrite Hgx, (assoc_L (++)), foldl_app.
    change (in_flight (Schedule g a)) with (in_flight a). simpl.
    unfold generated in Ht. by rewrite Ht.
Qed.

Lemma new_Accumulator_constant initial e :
  wf initial → accumulating initial (new_Accumulator initial : Accumulator T E C) e.
Proof.
  intros Hi. split; [split; done|done|by constructor|by constructor|].
  exists initial. done.
Qed.

(** ** The observer *)

(** An observer that was accepted and is still to be called. *)
Inductive observed (callback : C) a : Prop :=
  | observed_later :
      async_callback_ a = Some callback → IsIdle a = false →
      length (reduces (sequential_queue a)) = length (sequential_queue a) → observed callback a
  | observed_soon :
      async_callback_ a = None → IsIdle a = true →
      sequential_queue a = [RunCallback callback] → observed callback a.

Lemma SetAsyncObserver_observed total a e callback :
  accumulating total a e → has_unobserved_work_ a = true → async_callback_ a = None →
  length (reduces (sequential_queue a)) = length (sequential_queue a) →
  ∃ a', SetAsyncObserver callback a = (true, a') ∧ accumulating total a' e ∧ observed callback a'.
Proof.
  intros Ha Hw Hn Hq. unfold SetAsyncObserver. rewrite Hw. simpl.
  destruct Ha as [[Hact Hrem] Hnc Hg Hf Hv].
  destruct (_ =? 0) eqn:Hi; (eexists; split; [done|]).
  - assert (in_flight (RunSequential (RunCallback callback)
      (set_counts (remaining_sequential_tasks_count_ a) false (active_count_ a) a)) = in_flight a)
      as Hfl.
    { unfold in_flight. simpl. by rewrite reduces_app, app_nil_r. }
    split; [split; rewrite ?Hfl; try done; split; rewrite ?Hfl; done|].
    apply observed_soon; [done|done|]. simpl.
    destruct (idle_empty a) as [Hf' _]; [by split|done|done|].
    unfold in_flight in Hf'. apply app_eq_nil in Hf' as [_ Hf'].
    apply app_eq_nil in Hf' as [Hf' _]. rewrite Hf' in Hq. by destruct (sequential_queue a).
  - split; [by split|]. by apply observed_later.
Qed.

(** The observer is called once, and then the accumulator is idle. *)
Lemma perform_observed total a e callback action a' e' called :
  accumulating total a e → observed callback a → perform func action a e = Ok (a', e', called) →
  (called = None ∧ observed callback a') ∨ (called = Some callback ∧ IsIdle a' = true).
Proof using op_wf func_op op_swap.
  intros Ha Ho H. pose proof (ac_counts _ _ _ _ _ _ _ Ha) as Hco.
  pose proof (ac_not_cancelled _ _ _ _ _ _ _ Ha) as Hnc.
  destruct action as [i|i|i| |]; simpl in H.
  - destruct (parallel_queue a !! i); [|simplify_eq; by left].
    unfold MaybeIncrementActiveCount in H. rewrite Hnc in H. simplify_eq. left. split; [done|].
    destruct Ho; [by apply observed_later|by apply observed_soon].
  - destruct (parallel_running a !! i); [|simplify_eq; by left].
    apply bind_ok in H as ([x e1] & _ & H). apply bind_ok in H as (a1 & Hd & H).
    unfold DecrementActiveCount in Hd. apply fcp_check_ok in Hd as [_ [= <-]]. simplify_eq.
    left. split; [done|]. destruct Ho; [by apply observed_later|by apply observed_soon].
  - destruct (parallel_finished a !! i) as [x|] eqn:Hx; [|simplify_eq; by left].
    rewrite Hnc in H. simplify_eq. left. split; [done|].
    destruct Ho as [Hcb Hi Hq|Hcb Hi Hq].
    + apply observed_later; [done|done|]. simpl. rewrite reduces_app, !length_app. simpl. lia.
    + destruct (idle_empty _ Hco Hnc Hi) as [Hf _]. unfold in_flight in Hf.
      apply app_eq_nil in Hf as [_ Hf]. apply app_eq_nil in Hf as [_ Hf]. by rewrite Hf in Hx.
  - destruct (sequential_running a) as [r|] eqn:Hr; [simplify_eq; by left|].
    destruct Ho as [Hcb Hi Hq|Hcb Hi Hq]; [|rewrite Hq in H; simplify_eq; by right].
    destruct (sequential_queue a) as [|[x|c] q] eqn:Hsq; [|  |].
    + simplify_eq. left. split; [done|]. apply observed_later; [done|done|]. by rewrite Hsq.
    + unfold MaybeIncrementActiveCount in H. rewrite Hnc in H. simplify_eq. left. split; [done|].
      apply observed_later; [done|done|]. simpl in *. lia.
    + exfalso. simpl in Hq. assert (length (reduces q) ≤ length q)%nat; [|lia].
      clear. induction q as [|[]]; simpl; lia.
  - destruct (sequential_running a) as [r|] eqn:Hr; [|simplify_eq; by left].
    destruct (accumulated_value_ a); [|done]. apply bind_ok in H as (w & _ & H).
    unfold UpdateCountsAndGetCallback in H. simpl in H.
    destruct Ho as [Hcb Hi Hq|Hcb Hi Hq].
    + rewrite Hcb in H. case_match eqn:H0; case_match; simplify_eq.
      * right. split; [done|]. unfold IsIdle. simpl. done.
      * left. split; [done|]. by apply observed_later.
    + destruct (idle_empty _ Hco Hnc Hi) as [Hf _]. unfold in_flight in Hf. by rewrite Hr in Hf.
Qed.

Definition schedule_all (gs : list (Generator T E)) a : Accumulator T E C :=
  foldl (λ a g, Schedule g a) a gs.

Lemma schedule_all_constant gs xs : ∀ total a e,
  accumulating total a e → Forall wf xs → Forall2 (λ g x, ∀ e, g e = Ok (x, e)) gs xs →
  accumulating (foldl op total xs) (schedule_all gs a) e.
Proof using op_wf op_swap.
  intros total a e Ha Hxs Hgs. revert total a Ha Hxs.
  induction Hgs as [|g x gs xs Hg _ IH]; simpl; [done|].
  intros total a Ha [Hx Hxs]%Forall_cons. apply IH; [|done]. by apply Schedule_constant.
Qed.

(** The observer and the queue after the generators have been scheduled. *)
Lemma schedule_all_fields gs : ∀ a,
  async_callback_ (schedule_all gs a) = async_callback_ a ∧
  sequential_queue (schedule_all gs a) = sequential_queue a ∧
  (has_unobserved_work_ a = true ∨ (IsIdle a = true ∧ gs ≠ []) →
   has_unobserved_work_ (schedule_all gs a) = true).
Proof.
  induction gs as [|g gs IH]; intros a; [by split_and!; [..|intros [?|[_ ?]]]|].
  simpl. fold (schedule_all gs (Schedule g a)). destruct (IH (Schedule g a)) as (-> & -> & Hw). split_and!; [done..|].
  intros Ha. apply Hw. left. simpl. destruct Ha as [->|[Hi _]]; [done|].
  unfold IsIdle in Hi. by rewrite Hi, orb_true_r.
Qed.

Lemma work_schedule_all gs : ∀ a, work (schedule_all gs a) = (work a + 5 * length gs)%nat.
Proof.
  induction gs as [|g gs IH]; intros a; simpl; [lia|]. fold (schedule_all gs (Schedule g a)). rewrite IH.
  unfold work. simpl. rewrite length_app. simpl. lia.
Qed.

(** C30: whatever the interleaving of the schedulers, no step of an accumulator
    fails a check, and at most five steps per generator find a task to go on
    with; when no task can go on any more the accumulator is idle, so that every
    run of the schedulers that goes on as long as it can makes it idle. When it
    is idle, [GetResultAndCancel] succeeds and returns the initial value with the
    results of all generators added, in whatever order they were produced. *)
Theorem Accumulator_result initial gs xs e actions :
  wf initial → Forall wf xs → Forall2 (λ g x, ∀ e, g e = Ok (x, e)) gs xs →
  let start := schedule_all gs (new_Accumulator initial) in
  ∃ a e1 callbacks,
    perform_all func actions start e = Ok (a, e1, callbacks) ∧
    (effective func actions start e ≤ 5 * length gs)%nat ∧
    ((∀ action, enabled action a = false) → IsIdle a = true) ∧
    (IsIdle a = true → ∃ a', GetResultAndCancel a = Ok (Some (foldl op initial xs), a')).
Proof using op_wf func_op op_swap.
  intros Hi Hxs Hgs start.
  assert (accumulating (foldl op initial xs) start e) as Ha
    by (by apply schedule_all_constant; [apply new_Accumulator_constant|..]).
  destruct (perform_all_constant _ actions _ _ Ha) as (a & e1 & cs & Hrun & Ha1).
  exists a, e1, cs. split; [done|]. split.
  { pose proof (effective_bound func actions start e) as Hw. unfold start in *. by rewrite work_schedule_all in Hw. }
  split; [by apply stuck_idle; eapply ac_counts || eapply ac_not_cancelled|].
  intros Hidle. destruct (idle_total _ _ _ _ _ _ _ (λ _, eq_refl) Ha1 Hidle) as [Hv H0].
  eexists. unfold GetResultAndCancel. rewrite H0, Hv. done.
Qed.
End constant.

(** Two generators; the second one finishes first. *)
Lemma Accumulator_result_witness :
  ∃ a : Accumulator Z unit unit, ∃ callbacks,
    perform_all (λ x y, Ok (x + y))
      [StartParallel 0; StartParallel 0; FinishParallel 1; ScheduleSequential 0; FinishParallel 0;
       StartSequential; FinishSequential; ScheduleSequential 0; StartSequential; FinishSequential]
      (schedule_all [λ e, Ok (3, e); λ e, Ok (4, e)] (new_Accumulator 10)) ()
    = Ok (a, (), callbacks) ∧ ∃ a', GetResultAndCancel a = Ok (Some 17, a').
Proof.
  destruct (Accumulator_result (C:=unit) (λ x y, Ok (x + y)) (λ _, True) Z.add (λ _ _ _ _, I)
    (λ _ _ _ _, eq_refl) ltac:(intros; lia) 10 [λ e, Ok (3, e); λ e, Ok (4, e)] [3; 4] ()
    [StartParallel 0; StartParallel 0; FinishParallel 1; ScheduleSequential 0; FinishParallel 0;
     StartSequential; FinishSequential; ScheduleSequential 0; StartSequential; FinishSequential]
    I ltac:(by repeat constructor) ltac:(by repeat constructor)) as (a & [] & cs & H & _ & Hstuck & Hi).
  exists a, cs. split; [done|]. apply Hi, Hstuck. vm_compute in H. simplify_eq. by intros [[|i]|[|i]|[|i]| |].
Defined.
