(* ===== verification/ServerImpl.v ===== *)
(** * The data of the server: [SecAggServerProtocolImpl]

    Models [server/secagg_server_protocol_impl.{h,cc}] and
    [server/aes/aes_secagg_server_protocol_impl.{h,cc}]. The record [Impl] has
    the members of the two classes that the protocol changes or reads; metrics
    and tracing are left out. Client ids are positions in [client_statuses_];
    [at] on a vector is an index that is checked. *)

From S2P Require Import Prelude Bytes Math Shamir SecAggVector Prng MapOfMasks Graph Crypto Client.
From S2P Require Import Accumulator.

Inductive ClientStatus :=
  | READY_TO_START
  | DEAD_BEFORE_SENDING_ANYTHING
  | ADVERTISE_KEYS_RECEIVED
  | DEAD_AFTER_ADVERTISE_KEYS_RECEIVED
  | SHARE_KEYS_RECEIVED
  | DEAD_AFTER_SHARE_KEYS_RECEIVED
  | MASKED_INPUT_RESPONSE_RECEIVED
  | DEAD_AFTER_MASKED_INPUT_RESPONSE_RECEIVED
  | UNMASKING_RESPONSE_RECEIVED
  | DEAD_AFTER_UNMASKING_RESPONSE_RECEIVED.

#[export] Instance ClientStatus_eq_dec : EqDecision ClientStatus.
Proof. solve_decision. Defined.

(** Who is called back by an accumulator: the owner of the server, or
    [StartPrng] when the masks have been removed. *)
Inductive Callback := AsyncCallback | PrngDone.

Abbreviation MapAccumulator :=
  (Accumulator SecAggUnpackedVectorMap (list SecAggVectorMap) Callback).

Record Impl := {
  secret_sharing_graph_ : SecretSharingGraph;
  minimum_number_of_clients_to_proceed_ : Z;
  input_vector_specs : list InputVectorSpecification;
  async_round_2 : bool;                       (** [kSecAggAsyncRound2Experiment] *)
  client_statuses_ : list ClientStatus;
  pairwise_public_keys_ : list (list Z);
  pairs_of_public_keys_ : list PairOfPublicKeys;
  session_id_ : option (list Z);
  encrypted_shares_ : list (list (list Z));
  pairwise_shamir_share_table_ : option (gmap Z (list (list Z)));
  self_shamir_share_table_ : option (gmap Z (list (list Z)));
  masked_input_ : option SecAggUnpackedVectorMap;
  masked_input_queue_ : list SecAggVectorMap;
  masked_input_accumulator_ : option MapAccumulator;
  result_ : option SecAggVectorMap
}.

(** ** Assignments *)

Definition update_keys (pairwise : list (list Z)) (pairs : list PairOfPublicKeys)
    (session : option (list Z)) (shares : list (list (list Z))) (im : Impl) : Impl :=
  {| secret_sharing_graph_ := secret_sharing_graph_ im;
     minimum_number_of_clients_to_proceed_ := minimum_number_of_clients_to_proceed_ im;
     input_vector_specs := input_vector_specs im; async_round_2 := async_round_2 im;
     client_statuses_ := client_statuses_ im; pairwise_public_keys_ := pairwise;
     pairs_of_public_keys_ := pairs; session_id_ := session; encrypted_shares_ := shares;
     pairwise_shamir_share_table_ := pairwise_shamir_share_table_ im;
     self_shamir_share_table_ := self_shamir_share_table_ im; masked_input_ := masked_input_ im;
     masked_input_queue_ := masked_input_queue_ im;
     masked_input_accumulator_ := masked_input_accumulator_ im; result_ := result_ im |}.
Definition update_tables (pairwise self : option (gmap Z (list (list Z)))) (im : Impl) : Impl :=
  {| secret_sharing_graph_ := secret_sharing_graph_ im;
     minimum_number_of_clients_to_proceed_ := minimum_number_of_clients_to_proceed_ im;
     input_vector_specs := input_vector_specs im; async_round_2 := async_round_2 im;
     client_statuses_ := client_statuses_ im; pairwise_public_keys_ := pairwise_public_keys_ im;
     pairs_of_public_keys_ := pairs_of_public_keys_ im; session_id_ := session_id_ im;
     encrypted_shares_ := encrypted_shares_ im; pairwise_shamir_share_table_ := pairwise;
     self_shamir_share_table_ := self; masked_input_ := masked_input_ im;
     masked_input_queue_ := masked_input_queue_ im;
     masked_input_accumulator_ := masked_input_accumulator_ im; result_ := result_ im |}.
Definition update_masked (masked : option SecAggUnpackedVectorMap) (queue : list SecAggVectorMap)
    (accumulator : option MapAccumulator) (result : option SecAggVectorMap) (im : Impl) : Impl :=
  {| secret_sharing_graph_ := secret_sharing_graph_ im;
     minimum_number_of_clients_to_proceed_ := minimum_number_of_clients_to_proceed_ im;
     input_vector_specs := input_vector_specs im; async_round_2 := async_round_2 im;
     client_statuses_ := client_statuses_ im; pairwise_public_keys_ := pairwise_public_keys_ im;
     pairs_of_public_keys_ := pairs_of_public_keys_ im; session_id_ := session_id_ im;
     encrypted_shares_ := encrypted_shares_ im;
     pairwise_shamir_share_table_ := pairwise_shamir_share_table_ im;
     self_shamir_share_table_ := self_shamir_share_table_ im; masked_input_ := masked;
     masked_input_queue_ := queue; masked_input_accumulator_ := accumulator; result_ := result |}.
Definition set_client_status (client_id : Z) (status : ClientStatus) (im : Impl) : Impl :=
  {| secret_sharing_graph_ := secret_sharing_graph_ im;
     minimum_number_of_clients_to_proceed_ := minimum_number_of_clients_to_proceed_ im;
     input_vector_specs := input_vector_specs im; async_round_2 := async_round_2 im;
     client_statuses_ := <[Z.to_nat client_id := status]> (client_statuses_ im);
     pairwise_public_keys_ := pairwise_public_keys_ im;
     pairs_of_public_keys_ := pairs_of_public_keys_ im; session_id_ := session_id_ im;
     encrypted_shares_ := encrypted_shares_ im;
     pairwise_shamir_share_table_ := pairwise_shamir_share_table_ im;
     self_shamir_share_table_ := self_shamir_share_table_ im; masked_input_ := masked_input_ im;
     masked_input_queue_ := masked_input_queue_ im;
     masked_input_accumulator_ := masked_input_accumulator_ im; result_ := result_ im |}.

(** An index that is checked; a negative one is out of range. *)
Definition at_ {A} (l : list A) (i : Z) : Res A :=
  if i <? 0 then Crash else match l !! Z.to_nat i with Some x => Ok x | None => Crash end.

Definition total_number_of_clients (im : Impl) : Z := Z.of_nat (length (client_statuses_ im)).
Definition number_of_neighbors (im : Impl) : Z := GetDegree (secret_sharing_graph_ im).
Definition minimum_surviving_neighbors_for_reconstruction (im : Impl) : Z :=
  GetThreshold (secret_sharing_graph_ im).
Definition client_status (im : Impl) (client_id : Z) : Res ClientStatus :=
  at_ (client_statuses_ im) client_id.
Definition clients (im : Impl) : list Z := seqZ 0 (total_number_of_clients im).

Definition GetNeighborIndexOrDie (im : Impl) (client_id_1 client_id_2 : Z) : Res Z :=
  index ← GetNeighborIndex (secret_sharing_graph_ im) client_id_1 client_id_2;
  match index with Some i => Ok i | None => Crash end.

Definition set_pairwise_public_key (client_id : Z) (key : list Z) (im : Impl) : Impl :=
  update_keys (<[Z.to_nat client_id := key]> (pairwise_public_keys_ im)) (pairs_of_public_keys_ im)
    (session_id_ im) (encrypted_shares_ im) im.
Definition set_pair_of_public_keys (client_id : Z) (keys : PairOfPublicKeys) (im : Impl) : Impl :=
  update_keys (pairwise_public_keys_ im) (<[Z.to_nat client_id := keys]> (pairs_of_public_keys_ im))
    (session_id_ im) (encrypted_shares_ im) im.
Definition set_encrypted_shares (shares : list (list (list Z))) (im : Impl) : Impl :=
  update_keys (pairwise_public_keys_ im) (pairs_of_public_keys_ im) (session_id_ im) shares im.
Definition set_masked_input (masked : option SecAggUnpackedVectorMap) (im : Impl) : Impl :=
  update_masked masked (masked_input_queue_ im) (masked_input_accumulator_ im) (result_ im) im.

(** The constructor, from [SecAggServer::Create]. *)
Definition new_Impl (graph : SecretSharingGraph) (minimum : Z)
    (specs : list InputVectorSpecification) (async : bool) (client_statuses : list ClientStatus) :
    Impl :=
  let n := length client_statuses in
  {| secret_sharing_graph_ := graph; minimum_number_of_clients_to_proceed_ := minimum;
     input_vector_specs := specs; async_round_2 := async; client_statuses_ := client_statuses;
     pairwise_public_keys_ := replicate n [];
     pairs_of_public_keys_ := replicate n {| noise_pk := []; enc_pk := [] |}; session_id_ := None;
     encrypted_shares_ := replicate n (replicate (Z.to_nat (GetDegree graph)) []);
     pairwise_shamir_share_table_ := None; self_shamir_share_table_ := None; masked_input_ := None;
     masked_input_queue_ := []; masked_input_accumulator_ := None; result_ := None |}.

Definition SetResult (result : SecAggVectorMap) (im : Impl) : Res Impl :=
  FCP_CHECK match result_ im with None => true | Some _ => false end ;;
  Ok (update_masked (masked_input_ im) (masked_input_queue_ im) (masked_input_accumulator_ im)
        (Some result) im).
Definition TakeResult (im : Impl) : option SecAggVectorMap * Impl :=
  (result_ im,
   update_masked (masked_input_ im) (masked_input_queue_ im) (masked_input_accumulator_ im) None im).

(** A loop whose body can fail. *)
Fixpoint for_each {A S} (body : A → S → Res S) (l : list A) (s : S) : Res S :=
  match l with [] => Ok s | x :: rest => s ← body x s; for_each body rest s end.

Section impl.
Context {P : Primitives}.
(** Bound on the samples of the rejection sampling (MapOfMasks.v). *)
Context (fuel : nat).

(** ** Round 0 *)

Definition HandleAdvertiseKeys (client_id : Z) (keys : PairOfPublicKeys) (im : Impl) : Res Impl :=
  let enc_size := Z.of_nat (length (enc_pk keys)) in
  let noise_size := Z.of_nat (length (noise_pk keys)) in
  if (negb (enc_size =? EcdhPublicKey_kSize) &&
      ((enc_size <? EcdhPublicKey_kUncompressedSize) ||
       (noise_size <? EcdhPublicKey_kUncompressedSize))) ||
     negb (enc_size =? noise_size) then
    Error INVALID_ARGUMENT "A public key sent by the client was not the correct size."
  else
    let key :=
      if noise_size =? EcdhPublicKey_kSize then new_EcdhPublicKey (noise_pk keys) kCompressed
      else new_EcdhPublicKey
             (drop (Z.to_nat (noise_size - EcdhPublicKey_kUncompressedSize)) (noise_pk keys))
             kUncompressed in
    Ok (set_pair_of_public_keys client_id keys (set_pairwise_public_key client_id key im)).

Definition ErasePublicKeysForClient (client_id : Z) (im : Impl) : Impl :=
  set_pair_of_public_keys client_id {| noise_pk := []; enc_pk := [] |}
    (set_pairwise_public_key client_id [] im).

(** [ComputeSessionId] of the class. *)
Definition SetSessionId (im : Impl) : Res Impl :=
  pairs ← mapM (at_ (pairs_of_public_keys_ im)) (clients im);
  id ← ComputeSessionId sha256 pairs;
  Ok (update_keys (pairwise_public_keys_ im) (pairs_of_public_keys_ im) (Some id)
        (encrypted_shares_ im) im).

Definition get_session_id (im : Impl) : Res (list Z) :=
  match session_id_ im with Some id => Ok id | None => Crash end.

(** The keys of the neighbors of the client. *)
Definition PrepareShareKeysRequestForClient (client_id : Z) (im : Impl) :
    Res (list PairOfPublicKeys) :=
  mapM (λ j, neighbor ← GetNeighbor (secret_sharing_graph_ im) client_id j;
             at_ (pairs_of_public_keys_ im) neighbor) (seqZ 0 (number_of_neighbors im)).

Definition ClearPairsOfPublicKeys (im : Impl) : Impl :=
  update_keys (pairwise_public_keys_ im) [] (session_id_ im) (encrypted_shares_ im) im.

(** ** Round 1 *)

(** Assignment to [encrypted_shares_[neighbor_id][index]]. *)
Definition set_encrypted_share (neighbor_id index : Z) (share : list Z) (im : Impl) : Res Impl :=
  row ← at_ (encrypted_shares_ im) neighbor_id;
  _ ← at_ row index;
  Ok (set_encrypted_shares
        (<[Z.to_nat neighbor_id := <[Z.to_nat index := share]> row]> (encrypted_shares_ im)) im).

(** The first loop: [None] if the shares are those expected. *)
Fixpoint check_encrypted_shares (client_id i : Z) (shares : list (list Z)) (im : Impl) :
    Res (option string) :=
  match shares with
  | [] => Ok None
  | share :: rest =>
      let i_is_empty := bool_decide (share = []) in
      neighbor_id ← GetNeighbor (secret_sharing_graph_ im) client_id i;
      status ← client_status im neighbor_id;
      let i_should_be_empty :=
        (neighbor_id =? client_id) || bool_decide (status = DEAD_BEFORE_SENDING_ANYTHING) in
      if i_is_empty && negb i_should_be_empty then
        Ok (Some "Client omitted a key share that was expected."%string)
      else if i_should_be_empty && negb i_is_empty then
        Ok (Some "Client sent a key share that was not expected."%string)
      else check_encrypted_shares client_id (i + 1) rest im
  end.

Definition store_encrypted_share (client_id : Z) (shares : list (list Z)) (i : Z) (im : Impl) :
    Res Impl :=
  neighbor_id ← GetNeighbor (secret_sharing_graph_ im) client_id i;
  index_in_neighbor ← GetNeighborIndexOrDie im neighbor_id client_id;
  share ← at_ shares i;
  set_encrypted_share neighbor_id index_in_neighbor share im.

Definition HandleShareKeysResponse (client_id : Z) (encrypted_key_shares : list (list Z))
    (im : Impl) : Res Impl :=
  if negb (Z.of_nat (length encrypted_key_shares) =? number_of_neighbors im) then
    Error INVALID_ARGUMENT "The ShareKeysResponse does not contain the expected number of encrypted pairs of key shares."
  else
    error ← check_encrypted_shares client_id 0 encrypted_key_shares im;
    match error with
    | Some message => Error INVALID_ARGUMENT message
    | None => for_each (store_encrypted_share client_id encrypted_key_shares)
                (seqZ 0 (number_of_neighbors im)) im
    end.

Definition EraseShareKeysForClient (client_id : Z) (im : Impl) : Res Impl :=
  for_each (λ i im,
    neighbor_id ← GetNeighbor (secret_sharing_graph_ im) client_id i;
    index_in_neighbor ← GetNeighborIndexOrDie im neighbor_id client_id;
    set_encrypted_share neighbor_id index_in_neighbor [] im)
    (seqZ 0 (number_of_neighbors im)) im.

Definition PrepareMaskedInputCollectionRequestForClient (client_id : Z) (im : Impl) :
    Res (list (list Z)) :=
  row ← at_ (encrypted_shares_ im) client_id;
  mapM (at_ row) (seqZ 0 (number_of_neighbors im)).

Definition ClearShareKeys (im : Impl) : Impl := set_encrypted_shares [] im.

(** ** Round 2 *)

Definition AddReduce (vector_of_maps : list SecAggVectorMap) : Res SecAggUnpackedVectorMap :=
  match vector_of_maps with
  | [] => Crash
  | first :: rest =>
      for_each (λ m result, SecAggUnpackedVectorMap_Add result m) rest
        (SecAggUnpackedVectorMap_of_map first)
  end.

Definition zero_vector (spec : InputVectorSpecification) : SecAggUnpackedVector :=
  {| elements := replicate (Z.to_nat (ivs_length spec)) 0; uv_modulus := ivs_modulus spec |}.

Definition InitializeVectorMap (specs : list InputVectorSpecification) : SecAggUnpackedVectorMap :=
  foldl (λ m spec, emplace (ivs_name spec) (zero_vector spec) m) ∅ specs.

(** The accumulator is also what the method returns. *)
Definition SetupMaskedInputCollection (im : Impl) : Impl :=
  let initial_value := InitializeVectorMap (input_vector_specs im) in
  if negb (async_round_2 im) then set_masked_input (Some initial_value) im
  else update_masked (masked_input_ im) (masked_input_queue_ im)
         (Some (new_Accumulator initial_value)) (result_ im) im.

(** The queue is moved out. *)
Definition TakeMaskedInputQueue (queue : list SecAggVectorMap) :
    list SecAggVectorMap * list SecAggVectorMap := (queue, []).

(** The task that reduces the queue it finds. *)
Definition reduce_queue : Generator SecAggUnpackedVectorMap (list SecAggVectorMap) :=
  λ queue, let '(taken, queue) := TakeMaskedInputQueue queue in
           r ← AddReduce taken; Ok (r, queue).

(** The loop that checks the vectors against the specification. A vector that
    has been used is moved out of the message. *)
Fixpoint check_masked_vectors (specs : list InputVectorSpecification)
    (vectors : gmap string (list Z)) (checked : SecAggVectorMap) : Res SecAggVectorMap :=
  match specs with
  | [] => Ok checked
  | spec :: rest =>
      match vectors !! ivs_name spec with
      | None => Error INVALID_ARGUMENT "Masked input does not match input vector specification - wrong vector names."
      | Some encoded_vector =>
          let bit_width := GetBitWidth (ivs_modulus spec) in
          if negb (Z.of_nat (length encoded_vector) =?
                   DivideRoundUp (u32 (ivs_length spec * bit_width)) 8) then
            Error INVALID_ARGUMENT "Masked input does not match input vector specification - vector is wrong size."
          else
            v ← SecAggVector_of_bytes encoded_vector (ivs_modulus spec) (ivs_length spec) false;
            check_masked_vectors rest (<[ivs_name spec := []]> vectors)
              (emplace (ivs_name spec) v checked)
      end
  end.

Definition HandleMaskedInputCollectionResponse (vectors : gmap string (list Z)) (im : Impl) :
    Res Impl :=
  if negb (Z.of_nat (size vectors) =? Z.of_nat (length (input_vector_specs im))) then
    Error INVALID_ARGUMENT "Masked input does not match input vector specification - wrong number of vectors."
  else
    checked_masked_vectors ← check_masked_vectors (input_vector_specs im) vectors ∅;
    if async_round_2 im then
      let is_queue_empty := bool_decide (masked_input_queue_ im = []) in
      let queue := masked_input_queue_ im ++ [checked_masked_vectors] in
      match masked_input_accumulator_ im with
      | None => Crash
      | Some accumulator =>
          let accumulator :=
            if is_queue_empty then Schedule reduce_queue accumulator else accumulator in
          Ok (update_masked (masked_input_ im) queue (Some accumulator) (result_ im) im)
      end
    else
      match masked_input_ im with
      | None => Crash
      | Some masked_input =>
          masked_input ← SecAggUnpackedVectorMap_Add masked_input checked_masked_vectors;
          Ok (set_masked_input (Some masked_input) im)
      end.

Definition FinalizeMaskedInputCollection (im : Impl) : Res Impl :=
  if async_round_2 im then
    match masked_input_accumulator_ im with
    | None => Crash
    | Some accumulator =>
        FCP_CHECK IsIdle accumulator ;;
        '(value, accumulator) ← GetResultAndCancel accumulator;
        Ok (update_masked value (masked_input_queue_ im) (Some accumulator) (result_ im) im)
    end
  else Ok im.

(** ** Round 3 *)

Inductive ClientMask := kPairwiseMask | kSelfMask | kNoMask.

Definition ClientMaskType (status : ClientStatus) : ClientMask :=
  match status with
  | SHARE_KEYS_RECEIVED | DEAD_AFTER_SHARE_KEYS_RECEIVED => kPairwiseMask
  | MASKED_INPUT_RESPONSE_RECEIVED | DEAD_AFTER_MASKED_INPUT_RESPONSE_RECEIVED
  | UNMASKING_RESPONSE_RECEIVED | DEAD_AFTER_UNMASKING_RESPONSE_RECEIVED => kSelfMask
  | _ => kNoMask
  end.

(** A row of empty shares for each client with a mask of the given type. *)
Definition share_table (mask : ClientMask → bool) (im : Impl) : gmap Z (list (list Z)) :=
  list_to_map ((λ i, (i, replicate (Z.to_nat (number_of_neighbors im)) [])) <$>
    filter (λ i, match client_status im i with
                 | Ok status => mask (ClientMaskType status)
                 | _ => false
                 end = true) (clients im)).

Definition SetUpShamirSharesTables (im : Impl) : Impl :=
  update_tables
    (Some (share_table (λ m, match m with kPairwiseMask => true | _ => false end) im))
    (Some (share_table (λ m, match m with kSelfMask => true | _ => false end) im)) im.

(** The first loop: [None] if the shares have the right types. *)
Fixpoint check_share_types (client_id : Z) (indices : list Z) (shares : list NoiseOrPrf) (im : Impl) :
    Res (option string) :=
  match indices with
  | [] => Ok None
  | i :: rest =>
      ith_neighbor ← GetNeighbor (secret_sharing_graph_ im) client_id i;
      status ← client_status im ith_neighbor;
      share ← at_ shares i;
      match ClientMaskType status, share with
      | kPairwiseMask, NoiseShare _ | kSelfMask, PrfShare _ | kNoMask, NoShare =>
          check_share_types client_id rest shares im
      | (kPairwiseMask | kSelfMask), _ =>
          Ok (Some "Client did not include the correct type of key share."%string)
      | kNoMask, _ => Ok (Some "Client included a key share for which none was expected."%string)
      end
  end.

(** Assignment to [table[row][index]]; [operator[]] of the map makes a row
    that is not there, which is empty. *)
Definition set_share (table : gmap Z (list (list Z))) (row index : Z) (share : list Z) :
    Res (gmap Z (list (list Z))) :=
  let shares := default [] (table !! row) in
  _ ← at_ shares index;
  Ok (<[row := <[Z.to_nat index := share]> shares]> table).

Definition store_share (client_id : Z) (shares : list NoiseOrPrf) (i : Z)
    (tables : gmap Z (list (list Z)) * gmap Z (list (list Z))) (im : Impl) :
    Res (gmap Z (list (list Z)) * gmap Z (list (list Z))) :=
  ith_neighbor ← GetNeighbor (secret_sharing_graph_ im) client_id i;
  index ← GetNeighborIndexOrDie im ith_neighbor client_id;
  share ← at_ shares i;
  match share with
  | NoiseShare x => pairwise ← set_share tables.1 ith_neighbor index x; Ok (pairwise, tables.2)
  | PrfShare x => self ← set_share tables.2 ith_neighbor index x; Ok (tables.1, self)
  | NoShare => Ok tables
  end.

Definition HandleUnmaskingResponse (client_id : Z) (noise_or_prf_key_shares : list NoiseOrPrf)
    (im : Impl) : Res Impl :=
  match pairwise_shamir_share_table_ im, self_shamir_share_table_ im with
  | Some pairwise, Some self =>
      error ← check_share_types client_id (seqZ 0 (number_of_neighbors im))
                noise_or_prf_key_shares im;
      match error with
      | Some message => Error INVALID_ARGUMENT message
      | None =>
          '(pairwise, self) ←
            for_each (λ i tables, store_share client_id noise_or_prf_key_shares i tables im)
              (seqZ 0 (number_of_neighbors im)) (pairwise, self);
          Ok (update_tables (Some pairwise) (Some self) im)
      end
  | _, _ => Crash
  end.

(** ** Removing the masks *)

Record ShamirReconstructionResult := {
  aborted_client_key_agreements : gmap Z (list Z);    (** private keys *)
  self_keys : gmap Z (list Z)
}.

(** One row of the first table; the reconstructor keeps its inverses. *)
Definition reconstruct_pairwise (threshold : Z) (item : Z * list (list Z))
    (acc : gmap Z (list Z) * ShamirSecretSharing) : Res (gmap Z (list Z) * ShamirSecretSharing) :=
  '(reconstructed_key, reconstructor) ←
    Reconstruct acc.2 threshold item.2 EcdhPrivateKey_kSize;
  match CreateFromPrivateKey (new_EcdhPrivateKey reconstructed_key) with
  | Ok key_agreement => Ok (<[item.1 := key_agreement]> acc.1, reconstructor)
  | Error _ _ =>
      Error INVALID_ARGUMENT "Unable to reconstruct aborted client's private key from shares"
  | Crash => Crash
  end.

Definition HandleShamirReconstruction (im : Impl) : Res ShamirReconstructionResult :=
  match pairwise_shamir_share_table_ im, self_shamir_share_table_ im with
  | Some pairwise, Some self =>
      let threshold := minimum_surviving_neighbors_for_reconstruction im in
      '(agreements, _) ← for_each (reconstruct_pairwise threshold) (map_to_list pairwise)
        (∅, new_ShamirSecretSharing);
      keys ← for_each (λ (item : Z * list (list Z)) keys,
                 reconstructed ← CreateFromShares item.2 threshold;
                 Ok (<[item.1 := reconstructed]> keys)) (map_to_list self) ∅;
      Ok {| aborted_client_key_agreements := agreements; self_keys := keys |}
  | _, _ => Crash
  end.

Record PrngWorkItems := {
  prng_keys_to_add : list (list Z);
  prng_keys_to_subtract : list (list Z)
}.

Definition push_add (key : list Z) (w : PrngWorkItems) : PrngWorkItems :=
  {| prng_keys_to_add := prng_keys_to_add w ++ [key];
     prng_keys_to_subtract := prng_keys_to_subtract w |}.
Definition push_subtract (key : list Z) (w : PrngWorkItems) : PrngWorkItems :=
  {| prng_keys_to_add := prng_keys_to_add w;
     prng_keys_to_subtract := prng_keys_to_subtract w ++ [key] |}.

(** The body of the inner loop: client [i] and a client that aborted. *)
Definition unmask_pair (im : Impl) (i : Z) (item : Z * list Z) (w : PrngWorkItems) :
    Res PrngWorkItems :=
  neighbors ← AreNeighbors (secret_sharing_graph_ im) i item.1;
  if negb neighbors then Ok w
  else
    public_key ← at_ (pairwise_public_keys_ im) i;
    match ComputeSharedSecret item.2 public_key with
    | Crash => Crash
    | Error _ _ => Error INVALID_ARGUMENT "Invalid public key from client detected"
    | Ok shared_key =>
        outgoing ← IsOutgoingNeighbor (secret_sharing_graph_ im) i item.1;
        Ok (if outgoing : bool then push_add shared_key w else push_subtract shared_key w)
    end.

Definition is_included (status : ClientStatus) : bool :=
  match status with
  | UNMASKING_RESPONSE_RECEIVED | DEAD_AFTER_UNMASKING_RESPONSE_RECEIVED
  | DEAD_AFTER_MASKED_INPUT_RESPONSE_RECEIVED => true
  | _ => false
  end.

(** The body of the outer loop. *)
Definition unmask_client (im : Impl) (r : ShamirReconstructionResult) (i : Z) (w : PrngWorkItems) :
    Res PrngWorkItems :=
  status ← client_status im i;
  if negb (is_included status) then Ok w
  else
    match self_keys r !! i with
    | None => Crash
    | Some self_key =>
        for_each (unmask_pair im i) (map_to_list (aborted_client_key_agreements r))
          (push_subtract self_key w)
    end.

Definition InitializePrng (r : ShamirReconstructionResult) (im : Impl) : Res PrngWorkItems :=
  for_each (unmask_client im r) (clients im)
    {| prng_keys_to_add := []; prng_keys_to_subtract := [] |}.

Definition kPrngBatchSize : nat := 32.

(** The loop that cuts the keys into batches. *)
Fixpoint batches (n : nat) (keys : list (list Z)) : list (list (list Z)) :=
  match n, keys with
  | _, [] | O, _ => []
  | S n, _ => take kPrngBatchSize keys :: batches n (drop kPrngBatchSize keys)
  end.

(** [UnpackedMapOfMasks] without a signal that could abort it. *)
Definition mask_task (im : Impl) (to_add to_subtract : list (list Z)) :
    Generator SecAggUnpackedVectorMap (list SecAggVectorMap) :=
  λ queue,
    session_id ← get_session_id im;
    masks ← UnpackedMapOfMasks sha256 keystream fuel to_add to_subtract (input_vector_specs im)
              session_id None;
    match masks with Some m => Ok (m, queue) | None => Crash end.

Definition StartPrng (work_items : PrngWorkItems) (im : Impl) : Res (MapAccumulator * Impl) :=
  match masked_input_ im with
  | None => Crash
  | Some masked_input =>
      let add_keys := prng_keys_to_add work_items in
      let subtract_keys := prng_keys_to_subtract work_items in
      let generators :=
        ((λ batch, mask_task im batch []) <$> batches (length add_keys) add_keys) ++
        ((λ batch, mask_task im [] batch) <$> batches (length subtract_keys) subtract_keys) in
      let accumulator := foldl (λ a g, Schedule g a) (new_Accumulator masked_input) generators in
      let '(_, accumulator) := SetAsyncObserver PrngDone accumulator in
      Ok (accumulator, set_masked_input None im)
  end.

(** The observer that [StartPrng] installs. *)
Definition pack_result (unpacked_map : SecAggUnpackedVectorMap) : Res SecAggVectorMap :=
  for_each_entry (λ _ v, SecAggVector_of_span (elements v) (uv_modulus v) false) unpacked_map ∅.

Definition PrngObserver (accumulator : MapAccumulator) (im : Impl) : Res (MapAccumulator * Impl) :=
  '(value, accumulator) ← GetResultAndCancel accumulator;
  match value with
  | None => Crash
  | Some unpacked_map =>
      packed_map ← pack_result unpacked_map;
      im ← SetResult packed_map im;
      Ok (accumulator, im)
  end.
End impl.
