(* ===== verification/Server.v ===== *)
(** * The server: [server/secagg_server*.cc]

    The state classes are the constructors of [StateKind], with the members of
    each class as arguments; the members of their base class [SecAggServerState]
    are the fields of [ServerState]. A method that is virtual is a function that
    matches on the kind. What a call sends and which callbacks it triggers is
    collected in an outbox. A result [Error] is a status that is not OK, which
    leaves the server as it was.

    Metrics, traces and round times are left out. The tasks of the asynchronous
    parts are the actions of Accumulator.v, interleaved with the calls. *)

From S2P Require Import Prelude Shamir SecAggVector Prng MapOfMasks Graph Crypto Client Accumulator.
From S2P Require Import ServerImpl.

Inductive Completion := CompletionOk | CompletionError (message : string).

Inductive StateKind :=
  | R0_ADVERTISE_KEYS
  | R1_SHARE_KEYS
  | R2_MASKED_INPUT_COLLECTION (clients_aborted_at_round_2_ : list Z)
  | R3_UNMASKING
  | PRNG_RUNNING (completion_status_ : option Completion) (cancellation_token_ : option MapAccumulator)
      (prng_done_callback_ : bool)
  | COMPLETED
  | ABORTED (error_message_ : string).

Inductive ClientDropReason :=
  | SENT_ABORT_MESSAGE | UNEXPECTED_MESSAGE_TYPE | ADVERTISE_KEYS_UNEXPECTED | NO_ADVERTISE_KEYS
  | SHARE_KEYS_UNEXPECTED | NO_SHARE_KEYS | MASKED_INPUT_UNEXPECTED | INVALID_MASKED_INPUT
  | NO_MASKED_INPUT | UNMASKING_RESPONSE_UNEXPECTED | INVALID_UNMASKING_RESPONSE
  | INVALID_PUBLIC_KEY | SERVER_PROTOCOL_ABORT_CLIENT | EARLY_SUCCESS | CONNECTION_CLOSED
  | INVALID_SHARE_KEYS_RESPONSE.

#[export] Instance ClientDropReason_eq_dec : EqDecision ClientDropReason.
Proof. solve_decision. Defined.

Inductive ClientAbortReason := INVALID_MESSAGE | NOT_CHECKED_IN | CONNECTION_DROPPED | OBSOLETE_VERSION.

Definition ClientAbortReason_Name (reason : ClientAbortReason) : string :=
  match reason with
  | INVALID_MESSAGE => "INVALID_MESSAGE" | NOT_CHECKED_IN => "NOT_CHECKED_IN"
  | CONNECTION_DROPPED => "CONNECTION_DROPPED" | OBSOLETE_VERSION => "OBSOLETE_VERSION"
  end.

Inductive ServerEvent :=
  | SendTo (recipient_id : Z) (message : ServerToClient)
  | Broadcast (message : ServerToClient)
  | InvokeCallback.

Record ServerState := {
  state_kind_ : StateKind;
  needs_to_abort_ : bool;
  number_of_clients_failed_after_sending_masked_input_ : Z;
  number_of_clients_failed_before_sending_masked_input_ : Z;
  number_of_clients_ready_for_next_round_ : Z;
  number_of_clients_terminated_without_unmasking_ : Z;
  number_of_messages_received_in_this_round_ : Z;
  impl_ : Impl
}.

Definition Out : Type := ServerState * list ServerEvent.

Definition emit (event : ServerEvent) (o : Out) : Out := (o.1, o.2 ++ [event]).

(** ** Assignments *)

Definition update_state (kind : StateKind) (needs_to_abort : bool)
    (failed_after failed_before ready terminated messages : Z) (im : Impl) : ServerState :=
  {| state_kind_ := kind; needs_to_abort_ := needs_to_abort;
     number_of_clients_failed_after_sending_masked_input_ := failed_after;
     number_of_clients_failed_before_sending_masked_input_ := failed_before;
     number_of_clients_ready_for_next_round_ := ready;
     number_of_clients_terminated_without_unmasking_ := terminated;
     number_of_messages_received_in_this_round_ := messages; impl_ := im |}.

Definition add_counts (failed_after failed_before ready terminated messages : Z) (s : ServerState) :
    ServerState :=
  update_state (state_kind_ s) (needs_to_abort_ s)
    (number_of_clients_failed_after_sending_masked_input_ s + failed_after)
    (number_of_clients_failed_before_sending_masked_input_ s + failed_before)
    (number_of_clients_ready_for_next_round_ s + ready)
    (number_of_clients_terminated_without_unmasking_ s + terminated)
    (number_of_messages_received_in_this_round_ s + messages) (impl_ s).

Definition set_kind (kind : StateKind) (s : ServerState) : ServerState :=
  update_state kind (needs_to_abort_ s) (number_of_clients_failed_after_sending_masked_input_ s)
    (number_of_clients_failed_before_sending_masked_input_ s)
    (number_of_clients_ready_for_next_round_ s) (number_of_clients_terminated_without_unmasking_ s)
    (number_of_messages_received_in_this_round_ s) (impl_ s).

Definition set_impl (im : Impl) (s : ServerState) : ServerState :=
  update_state (state_kind_ s) (needs_to_abort_ s)
    (number_of_clients_failed_after_sending_masked_input_ s)
    (number_of_clients_failed_before_sending_masked_input_ s)
    (number_of_clients_ready_for_next_round_ s) (number_of_clients_terminated_without_unmasking_ s)
    (number_of_messages_received_in_this_round_ s) im.

Definition set_status (client_id : Z) (status : ClientStatus) (s : ServerState) : ServerState :=
  set_impl (set_client_status client_id status (impl_ s)) s.

Definition set_needs_to_abort (s : ServerState) : ServerState :=
  update_state (state_kind_ s) true
    (number_of_clients_failed_after_sending_masked_input_ s)
    (number_of_clients_failed_before_sending_masked_input_ s)
    (number_of_clients_ready_for_next_round_ s) (number_of_clients_terminated_without_unmasking_ s)
    (number_of_messages_received_in_this_round_ s) (impl_ s).

(** The constructor of the base class: the counters of failed clients carry
    over from the old state, those of the round start at zero. *)
Definition new_ServerState (kind : StateKind) (s : ServerState) : ServerState :=
  update_state kind false (number_of_clients_failed_after_sending_masked_input_ s)
    (number_of_clients_failed_before_sending_masked_input_ s) 0
    (number_of_clients_terminated_without_unmasking_ s) 0 (impl_ s).

(** ** Queries *)

Definition IsAborted (s : ServerState) : bool :=
  match state_kind_ s with ABORTED _ => true | _ => false end.
Definition IsCompletedSuccessfully (s : ServerState) : bool :=
  match state_kind_ s with COMPLETED => true | _ => false end.

Definition minimum_number_of_clients_to_proceed (s : ServerState) : Z :=
  minimum_number_of_clients_to_proceed_ (impl_ s).

Definition NumberOfAliveClients (s : ServerState) : Z :=
  total_number_of_clients (impl_ s) - number_of_clients_failed_before_sending_masked_input_ s -
  number_of_clients_failed_after_sending_masked_input_ s -
  number_of_clients_terminated_without_unmasking_ s.

Definition NumberOfPendingClients (s : ServerState) : Z :=
  match state_kind_ s with
  | R0_ADVERTISE_KEYS | R1_SHARE_KEYS | R2_MASKED_INPUT_COLLECTION _ | R3_UNMASKING =>
      NumberOfAliveClients s - number_of_clients_ready_for_next_round_ s
  | _ => 0
  end.

Definition NumberOfIncludedInputs (s : ServerState) : Z :=
  match state_kind_ s with
  | R2_MASKED_INPUT_COLLECTION _ => number_of_messages_received_in_this_round_ s
  | R3_UNMASKING | PRNG_RUNNING _ _ _ | COMPLETED =>
      total_number_of_clients (impl_ s) - number_of_clients_failed_before_sending_masked_input_ s
  | _ => 0
  end.

Definition IsNumberOfIncludedInputsCommitted (s : ServerState) : bool :=
  match state_kind_ s with
  | R0_ADVERTISE_KEYS | R1_SHARE_KEYS | R2_MASKED_INPUT_COLLECTION _ => false
  | _ => true
  end.

Definition MinimumMessagesNeededForNextRound (s : ServerState) : Z :=
  match state_kind_ s with
  | R0_ADVERTISE_KEYS | R1_SHARE_KEYS | R2_MASKED_INPUT_COLLECTION _ =>
      Z.max 0 (minimum_number_of_clients_to_proceed s - number_of_clients_ready_for_next_round_ s)
  | R3_UNMASKING =>
      Z.max 0 (minimum_number_of_clients_to_proceed s - number_of_messages_received_in_this_round_ s)
  | _ => 0
  end.

Definition ReadyForNextRound (s : ServerState) : bool :=
  match state_kind_ s with
  | R0_ADVERTISE_KEYS | R1_SHARE_KEYS =>
      (minimum_number_of_clients_to_proceed s <=? number_of_clients_ready_for_next_round_ s) ||
      needs_to_abort_ s
  | R2_MASKED_INPUT_COLLECTION _ =>
      match masked_input_accumulator_ (impl_ s) with None => true | Some a => IsIdle a end &&
      ((minimum_number_of_clients_to_proceed s <=? number_of_clients_ready_for_next_round_ s) ||
       needs_to_abort_ s)
  | R3_UNMASKING =>
      (minimum_number_of_clients_to_proceed s <=? number_of_messages_received_in_this_round_ s) ||
      needs_to_abort_ s
  | PRNG_RUNNING completion_status _ _ =>
      match completion_status with Some _ => true | None => false end
  | COMPLETED | ABORTED _ => false
  end.

Definition ErrorMessage (s : ServerState) : Res string :=
  match state_kind_ s with
  | ABORTED message => Ok message
  | _ => Error FAILED_PRECONDITION "Error message requested, but server is in another state"
  end.

Definition is_dead (status : ClientStatus) : bool :=
  match status with
  | DEAD_BEFORE_SENDING_ANYTHING | DEAD_AFTER_ADVERTISE_KEYS_RECEIVED
  | DEAD_AFTER_SHARE_KEYS_RECEIVED | DEAD_AFTER_MASKED_INPUT_RESPONSE_RECEIVED
  | DEAD_AFTER_UNMASKING_RESPONSE_RECEIVED => true
  | _ => false
  end.

Definition IsClientDead (s : ServerState) (client_id : Z) : Res bool :=
  status ← client_status (impl_ s) client_id; Ok (is_dead status).

Definition AbortedClientIds (s : ServerState) : Res (list Z) :=
  dead ← mapM (λ i, b ← IsClientDead s i; Ok (i, b)) (clients (impl_ s));
  Ok (filter (λ ib, ib.2 = true) dead).*1.

Section server.
Context {P : Primitives} (fuel : nat).

(** ** Aborting a client *)

(** [needs_to_abort_] when too few clients are left. *)
Definition check_enough_alive (s : ServerState) : ServerState :=
  if NumberOfAliveClients s <? minimum_number_of_clients_to_proceed s then set_needs_to_abort s
  else s.

Definition R0_HandleAbortClient (client_id : Z) (s : ServerState) : Res ServerState :=
  status ← client_status (impl_ s) client_id;
  let s := add_counts 0 1 0 0 0 s in
  let s :=
    if bool_decide (status = ADVERTISE_KEYS_RECEIVED) then
      set_impl (ErasePublicKeysForClient client_id (impl_ s)) (add_counts 0 0 (-1) 0 0 s)
    else s in
  Ok (check_enough_alive (set_status client_id DEAD_BEFORE_SENDING_ANYTHING s)).

Definition R1_HandleAbortClient (client_id : Z) (s : ServerState) : Res ServerState :=
  status ← client_status (impl_ s) client_id;
  let s := add_counts 0 1 0 0 0 s in
  s ← (if bool_decide (status = SHARE_KEYS_RECEIVED) then
         im ← EraseShareKeysForClient client_id (impl_ s);
         Ok (set_impl im (add_counts 0 0 (-1) 0 0 s))
       else Ok s);
  Ok (check_enough_alive (set_status client_id DEAD_AFTER_ADVERTISE_KEYS_RECEIVED s)).

Definition R2_HandleAbortClient (aborted : list Z) (client_id : Z) (s : ServerState) :
    Res ServerState :=
  status ← client_status (impl_ s) client_id;
  let s :=
    if bool_decide (status = MASKED_INPUT_RESPONSE_RECEIVED) then
      set_status client_id DEAD_AFTER_MASKED_INPUT_RESPONSE_RECEIVED (add_counts 1 0 (-1) 0 0 s)
    else
      set_status client_id DEAD_AFTER_SHARE_KEYS_RECEIVED
        (set_kind (R2_MASKED_INPUT_COLLECTION (aborted ++ [client_id])) (add_counts 0 1 0 0 0 s)) in
  Ok (check_enough_alive s).

Definition R3_HandleAbortClient (client_id : Z) (reason_code : ClientDropReason)
    (s : ServerState) : Res ServerState :=
  status ← client_status (impl_ s) client_id;
  if bool_decide (status = UNMASKING_RESPONSE_RECEIVED) then
    Ok (set_status client_id DEAD_AFTER_UNMASKING_RESPONSE_RECEIVED s)
  else
    let s := if bool_decide (reason_code = EARLY_SUCCESS) then add_counts 0 0 0 1 0 s
             else add_counts 1 0 0 0 0 s in
    let s := set_status client_id DEAD_AFTER_MASKED_INPUT_RESPONSE_RECEIVED s in
    Ok (if NumberOfPendingClients s + number_of_messages_received_in_this_round_ s <?
           minimum_number_of_clients_to_proceed s then set_needs_to_abort s else s).

Definition HandleAbortClient (client_id : Z) (reason_code : ClientDropReason) (s : ServerState) :
    Res ServerState :=
  match state_kind_ s with
  | R0_ADVERTISE_KEYS => R0_HandleAbortClient client_id s
  | R1_SHARE_KEYS => R1_HandleAbortClient client_id s
  | R2_MASKED_INPUT_COLLECTION aborted => R2_HandleAbortClient aborted client_id s
  | R3_UNMASKING => R3_HandleAbortClient client_id reason_code s
  | PRNG_RUNNING _ _ _ => Ok (set_status client_id DEAD_AFTER_UNMASKING_RESPONSE_RECEIVED s)
  | COMPLETED | ABORTED _ => Ok s
  end.

(** [AbortClient] of the state. *)
Definition AbortClientInState (client_id : Z) (reason : string) (reason_code : ClientDropReason)
    (notify : bool) (o : Out) : Res Out :=
  FCP_CHECK negb (IsAborted o.1 || IsCompletedSuccessfully o.1) ;;
  dead ← IsClientDead o.1 client_id;
  if dead : bool then Ok o
  else
    s ← HandleAbortClient client_id reason_code o.1;
    let message := SC_abort (bool_decide (reason_code = EARLY_SUCCESS)) reason in
    Ok (if notify then emit (SendTo client_id message) (s, o.2) else (s, o.2)).

(** ** Asynchronous work *)

(** [PrngRunnerFinished], called by the observer of [StartPrng]. *)
Definition PrngRunnerFinished (final_status : Completion) (o : Out) : Out :=
  match state_kind_ o.1 with
  | PRNG_RUNNING _ token callback =>
      let o := (set_kind (PRNG_RUNNING (Some final_status) token callback) o.1, o.2) in
      if callback : bool then emit InvokeCallback o else o
  | _ => o
  end.

(** A callback of an accumulator runs. *)
Definition run_callback (callback : option Callback) (o : Out) : Res Out :=
  match callback, state_kind_ o.1 with
  | Some AsyncCallback, _ => Ok (emit InvokeCallback o)
  | Some PrngDone, PRNG_RUNNING completion_status (Some accumulator) done_callback =>
      '(accumulator, im) ← PrngObserver accumulator (impl_ o.1);
      Ok (PrngRunnerFinished CompletionOk
            (set_impl im
               (set_kind (PRNG_RUNNING completion_status (Some accumulator) done_callback) o.1), o.2))
  | _, _ => Ok o
  end.

(** A step of the schedulers. After round 2 the first accumulator is
    cancelled, and so is each one of a server that has been aborted: their
    remaining tasks do nothing. *)
Definition RunTask (action : Action) (o : Out) : Res Out :=
  let s := o.1 in
  match state_kind_ s with
  | R2_MASKED_INPUT_COLLECTION _ =>
      match masked_input_accumulator_ (impl_ s) with
      | None => Ok o
      | Some accumulator =>
          '(accumulator, queue, callback) ←
            perform SecAggUnpackedVectorMap_AddMaps action accumulator
              (masked_input_queue_ (impl_ s));
          run_callback callback
            (set_impl (update_masked (masked_input_ (impl_ s)) queue (Some accumulator)
                         (result_ (impl_ s)) (impl_ s)) s, o.2)
      end
  | PRNG_RUNNING completion_status (Some accumulator) done_callback =>
      '(accumulator, _, callback) ←
        perform SecAggUnpackedVectorMap_AddMaps action accumulator [];
      run_callback callback
        (set_kind (PRNG_RUNNING completion_status (Some accumulator) done_callback) s, o.2)
  | _ => Ok o
  end.

(** [HandleAbort]: what runs in the background is cancelled. *)
Definition HandleAbort (o : Out) : Res Out :=
  let s := o.1 in
  match state_kind_ s with
  | R2_MASKED_INPUT_COLLECTION _ =>
      match masked_input_accumulator_ (impl_ s) with
      | None => Ok o
      | Some accumulator =>
          '(accumulator, queue, callback) ←
            Cancel SecAggUnpackedVectorMap_AddMaps accumulator (masked_input_queue_ (impl_ s));
          run_callback callback
            (set_impl (update_masked (masked_input_ (impl_ s)) queue (Some accumulator)
                         (result_ (impl_ s)) (impl_ s)) s, o.2)
      end
  | PRNG_RUNNING completion_status (Some accumulator) done_callback =>
      '(accumulator, _, callback) ← Cancel SecAggUnpackedVectorMap_AddMaps accumulator [];
      run_callback callback
        (set_kind (PRNG_RUNNING completion_status (Some accumulator) done_callback) s, o.2)
  | _ => Ok o
  end.

(** [SetAsyncCallback]: whether the callback was accepted. *)
Definition SetAsyncCallback (o : Out) : bool * Out :=
  let s := o.1 in
  match state_kind_ s with
  | R2_MASKED_INPUT_COLLECTION _ =>
      match masked_input_accumulator_ (impl_ s) with
      | None => (false, o)
      | Some accumulator =>
          let '(accepted, accumulator) := SetAsyncObserver AsyncCallback accumulator in
          (accepted,
           (set_impl (update_masked (masked_input_ (impl_ s)) (masked_input_queue_ (impl_ s))
                        (Some accumulator) (result_ (impl_ s)) (impl_ s)) s, o.2))
      end
  | PRNG_RUNNING (Some _) _ _ => (true, emit InvokeCallback o)
  | PRNG_RUNNING None token _ => (true, (set_kind (PRNG_RUNNING None token true) s, o.2))
  | _ => (false, o)
  end.

(** ** Messages *)

(** The part of [HandleMessage] that the rounds 0 to 3 share: [expected] is
    the status of a client whose message is due, [unexpected] and [unexpected_code]
    what others are told, [payload] the contents the round looks for and
    [accept] what it does with them, with [received] the status afterwards
    and [invalid_code] the reason if the contents are refused. *)
Definition handle_round {A} (expected received : ClientStatus) (abort_reason unexpected : string)
    (unexpected_code invalid_code : ClientDropReason) (payload : ClientToServer → option A)
    (accept : A → Impl → Res Impl) (client_id : Z) (message : ClientToServer) (o : Out) : Res Out :=
  match message with
  | CS_abort _ => AbortClientInState client_id abort_reason SENT_ABORT_MESSAGE false o
  | _ =>
      status ← client_status (impl_ o.1) client_id;
      if negb (bool_decide (status = expected)) then
        AbortClientInState client_id unexpected unexpected_code true o
      else
        match payload message with
        | None =>
            AbortClientInState client_id
              "Message type received is different from what was expected."
              UNEXPECTED_MESSAGE_TYPE true o
        | Some contents =>
            match accept contents (impl_ o.1) with
            | Crash => Crash
            | Error _ error => AbortClientInState client_id error invalid_code true o
            | Ok im =>
                Ok (add_counts 0 0 1 0 1 (set_status client_id received (set_impl im o.1)), o.2)
            end
        end
  end.

Definition R0_HandleMessage : Z → ClientToServer → Out → Res Out :=
  λ client_id,
    handle_round READY_TO_START ADVERTISE_KEYS_RECEIVED ""
      "Not expecting an AdvertiseKeys message from this client - either the client already aborted or one such message was already received."
      ADVERTISE_KEYS_UNEXPECTED INVALID_PUBLIC_KEY
      (λ m, match m with CS_advertise_keys keys => Some keys | _ => None end)
      (HandleAdvertiseKeys client_id) client_id.

Definition R1_HandleMessage : Z → ClientToServer → Out → Res Out :=
  λ client_id,
    handle_round ADVERTISE_KEYS_RECEIVED SHARE_KEYS_RECEIVED ""
      "Not expecting an ShareKeysResponse from this client - either the client already aborted or one such message was already received."
      SHARE_KEYS_UNEXPECTED INVALID_SHARE_KEYS_RESPONSE
      (λ m, match m with CS_share_keys_response shares => Some shares | _ => None end)
      (HandleShareKeysResponse client_id) client_id.

Definition R2_HandleMessage : Z → ClientToServer → Out → Res Out :=
  λ client_id,
    handle_round SHARE_KEYS_RECEIVED MASKED_INPUT_RESPONSE_RECEIVED ""
      "Not expecting an MaskedInputCollectionResponse from this client - either the client already aborted or one such message was already received."
      MASKED_INPUT_UNEXPECTED INVALID_MASKED_INPUT
      (λ m, match m with CS_masked_input_response vectors => Some vectors | _ => None end)
      HandleMaskedInputCollectionResponse client_id.

Definition R3_HandleMessage : Z → ClientToServer → Out → Res Out :=
  λ client_id,
    handle_round MASKED_INPUT_RESPONSE_RECEIVED UNMASKING_RESPONSE_RECEIVED
      "Client sent abort message."
      "Not expecting an UnmaskingResponse from this client - either the client already aborted or one such message was already received."
      UNMASKING_RESPONSE_UNEXPECTED INVALID_UNMASKING_RESPONSE
      (λ m, match m with CS_unmasking_response shares => Some shares | _ => None end)
      (HandleUnmaskingResponse client_id) client_id.

Definition PrngRunning_HandleMessage (client_id : Z) (message : ClientToServer) (o : Out) :
    Res Out :=
  match message with
  | CS_abort _ => AbortClientInState client_id "" SENT_ABORT_MESSAGE false o
  | _ => AbortClientInState client_id "Non-abort message sent during PrngUnmasking step."
           UNEXPECTED_MESSAGE_TYPE true o
  end.

Definition HandleMessage (client_id : Z) (message : ClientToServer) (o : Out) : Res Out :=
  match state_kind_ o.1 with
  | R0_ADVERTISE_KEYS => R0_HandleMessage client_id message o
  | R1_SHARE_KEYS => R1_HandleMessage client_id message o
  | R2_MASKED_INPUT_COLLECTION _ => R2_HandleMessage client_id message o
  | R3_UNMASKING => R3_HandleMessage client_id message o
  | PRNG_RUNNING _ _ _ => PrngRunning_HandleMessage client_id message o
  | COMPLETED | ABORTED _ =>
      Error FAILED_PRECONDITION "Server received a message but was in a terminal state"
  end.

(** ** Round transitions *)

Definition AbortState (reason : string) (s : ServerState) : ServerState :=
  new_ServerState (ABORTED reason) s.

Definition too_many_aborted : string := "Too many clients aborted.".

(** The branch of all rounds that tells the clients and aborts. *)
Definition abort_round (o : Out) : Out :=
  let o := emit (Broadcast (SC_abort false too_many_aborted)) o in
  (AbortState too_many_aborted o.1, o.2).

(** The loop that aborts the clients whose message has not come. *)
Definition abort_unless (expected : ClientStatus) (reason : string) (code : ClientDropReason)
    (i : Z) (o : Out) : Res Out :=
  dead ← IsClientDead o.1 i;
  status ← client_status (impl_ o.1) i;
  if negb dead && negb (bool_decide (status = expected)) then
    AbortClientInState i reason code true o
  else Ok o.

Definition R0_send_request (session_id : list Z) (i : Z) (o : Out) : Res Out :=
  dead ← IsClientDead o.1 i;
  if dead : bool then Ok o
  else
    pairs ← PrepareShareKeysRequestForClient i (impl_ o.1);
    Ok (emit (SendTo i (SC_share_keys_request
          {| pairs_of_public_keys := pairs; session_id := session_id |})) o).

Definition R0_ProceedToNextRound (o : Out) : Res Out :=
  if needs_to_abort_ o.1 then Ok (abort_round o)
  else
    o ← for_each (abort_unless ADVERTISE_KEYS_RECEIVED
           "Client did not send AdvertiseKeys message before round transition."
           NO_ADVERTISE_KEYS) (clients (impl_ o.1)) o;
    im ← SetSessionId (impl_ o.1);
    let o := (set_impl im o.1, o.2) in
    session_id ← get_session_id im;
    o ← for_each (R0_send_request session_id) (clients (impl_ o.1)) o;
    Ok (new_ServerState R1_SHARE_KEYS (set_impl (ClearPairsOfPublicKeys (impl_ o.1)) o.1), o.2).

(** The body of the only loop of round 1. *)
Definition R1_send_request (i : Z) (o : Out) : Res Out :=
  dead ← IsClientDead o.1 i;
  status ← client_status (impl_ o.1) i;
  if negb dead && negb (bool_decide (status = SHARE_KEYS_RECEIVED)) then
    AbortClientInState i "Client did not send ShareKeysResponse before round transition."
      NO_SHARE_KEYS true o
  else if bool_decide (status = SHARE_KEYS_RECEIVED) then
    shares ← PrepareMaskedInputCollectionRequestForClient i (impl_ o.1);
    Ok (emit (SendTo i (SC_masked_input_request shares)) o)
  else Ok o.

Definition R1_ProceedToNextRound (o : Out) : Res Out :=
  if needs_to_abort_ o.1 then Ok (abort_round o)
  else
    o ← for_each R1_send_request (clients (impl_ o.1)) o;
    let s := set_impl (SetupMaskedInputCollection (ClearShareKeys (impl_ o.1))) o.1 in
    Ok (new_ServerState (R2_MASKED_INPUT_COLLECTION []) s, o.2).

(** The positions of the aborted clients among the neighbors of client [i],
    counted from 1. *)
Fixpoint dead_neighbors (im : Impl) (i : Z) (aborted : list Z) : Res (list Z) :=
  match aborted with
  | [] => Ok []
  | aborted_client :: rest =>
      neighbor_index ← GetNeighborIndex (secret_sharing_graph_ im) i aborted_client;
      ids ← dead_neighbors im i rest;
      Ok (match neighbor_index with Some index => (index + 1) :: ids | None => ids end)
  end.

Definition R2_send_request (i : Z) (o : Out) : Res Out :=
  dead ← IsClientDead o.1 i;
  if dead : bool then Ok o
  else
    match state_kind_ o.1 with
    | R2_MASKED_INPUT_COLLECTION aborted =>
        ids ← dead_neighbors (impl_ o.1) i aborted;
        Ok (emit (SendTo i (SC_unmasking_request ids)) o)
    | _ => Ok o
    end.

Definition R2_ProceedToNextRound (o : Out) : Res Out :=
  if needs_to_abort_ o.1 then
    let o := emit (Broadcast (SC_abort false too_many_aborted)) o in
    o ← HandleAbort o;
    Ok (AbortState too_many_aborted o.1, o.2)
  else
    o ← for_each (abort_unless MASKED_INPUT_RESPONSE_RECEIVED
           "Client did not send MaskedInputCollectionResponse before round transition."
           NO_MASKED_INPUT) (clients (impl_ o.1)) o;
    o ← for_each R2_send_request (clients (impl_ o.1)) o;
    im ← FinalizeMaskedInputCollection (impl_ o.1);
    Ok (new_ServerState R3_UNMASKING (set_impl (SetUpShamirSharesTables im) o.1), o.2).

Definition R3_terminate (i : Z) (o : Out) : Res Out :=
  status ← client_status (impl_ o.1) i;
  if negb (bool_decide (status = UNMASKING_RESPONSE_RECEIVED)) then
    AbortClientInState i "Client did not send unmasking response but protocol completed successfully."
      EARLY_SUCCESS true o
  else Ok o.

(** [EnterState] of the PRNG state: an error ends it at once. *)
Definition Initialize (im : Impl) : Res PrngWorkItems :=
  r ← HandleShamirReconstruction im;
  InitializePrng r im.

Definition EnterPrngRunning (s : ServerState) : Res ServerState :=
  match Initialize (impl_ s) with
  | Crash => Crash
  | Error _ message => Ok (set_kind (PRNG_RUNNING (Some (CompletionError message)) None false) s)
  | Ok work_items =>
      '(token, im) ← StartPrng fuel work_items (impl_ s);
      Ok (set_impl im (set_kind (PRNG_RUNNING None (Some token) false) s))
  end.

Definition R3_ProceedToNextRound (o : Out) : Res Out :=
  if needs_to_abort_ o.1 then Ok (abort_round o)
  else
    o ← for_each R3_terminate (clients (impl_ o.1)) o;
    s ← EnterPrngRunning (new_ServerState (PRNG_RUNNING None None false) o.1);
    Ok (s, o.2).

Definition PrngRunning_ProceedToNextRound (completion_status : Completion) (o : Out) : Out :=
  match completion_status with
  | CompletionOk => (new_ServerState COMPLETED o.1, o.2)
  | CompletionError message => (AbortState message o.1, o.2)
  end.

(** [ProceedToNextRound] of the state and the transition. *)
Definition ProceedInState (o : Out) : Res Out :=
  let unavailable := Error UNAVAILABLE "" in
  match state_kind_ o.1 with
  | R0_ADVERTISE_KEYS => if ReadyForNextRound o.1 then R0_ProceedToNextRound o else unavailable
  | R1_SHARE_KEYS => if ReadyForNextRound o.1 then R1_ProceedToNextRound o else unavailable
  | R2_MASKED_INPUT_COLLECTION _ =>
      if ReadyForNextRound o.1 then R2_ProceedToNextRound o else unavailable
  | R3_UNMASKING => if ReadyForNextRound o.1 then R3_ProceedToNextRound o else unavailable
  | PRNG_RUNNING completion_status _ _ =>
      match completion_status with
      | None => unavailable
      | Some c => Ok (PrngRunning_ProceedToNextRound c o)
      end
  | COMPLETED | ABORTED _ =>
      Error FAILED_PRECONDITION "The server cannot proceed to next round from a terminal state"
  end.

Definition AbortInState (reason : string) (o : Out) : Res Out :=
  FCP_CHECK negb (IsAborted o.1 || IsCompletedSuccessfully o.1) ;;
  o ← HandleAbort o;
  let o := emit (Broadcast (SC_abort false reason)) o in
  Ok (AbortState reason o.1, o.2).

(** ** [SecAggServer] *)

Definition ErrorIfAbortedOrCompleted {A} (s : ServerState) (k : Res A) : Res A :=
  if IsAborted s then
    Error FAILED_PRECONDITION "The server has already aborted. The request cannot be satisfied."
  else if IsCompletedSuccessfully s then
    Error FAILED_PRECONDITION "The server has already completed the protocol. Call getOutput() to retrieve the output."
  else k.

Definition ValidateClientId {A} (client_id : Z) (s : ServerState) (k : Res A) : Res A :=
  if total_number_of_clients (impl_ s) <=? client_id then
    Error FAILED_PRECONDITION "Client Id is outside of the expected bounds"
  else k.

Definition Abort (reason : option string) (s : ServerState) : Res Out :=
  let reason :=
    match reason with
    | None => "Abort upon external request."%string
    | Some r => ("Abort upon external request for reason <" +:+ r +:+ ">.")%string
    end in
  ErrorIfAbortedOrCompleted s (AbortInState reason (s, [])).

Definition MakeClientAbortMessage (reason : ClientAbortReason) : string :=
  ("The protocol is closing client with ClientAbortReason <" +:+
     ClientAbortReason_Name reason +:+ ">.")%string.

Definition AbortClient (client_id : Z) (reason : ClientAbortReason) (s : ServerState) : Res Out :=
  ErrorIfAbortedOrCompleted s (ValidateClientId client_id s (
    match reason with
    | INVALID_MESSAGE =>
        AbortClientInState client_id (MakeClientAbortMessage reason) SERVER_PROTOCOL_ABORT_CLIENT
          true (s, [])
    | CONNECTION_DROPPED => AbortClientInState client_id "" CONNECTION_CLOSED false (s, [])
    | _ => AbortClientInState client_id (MakeClientAbortMessage reason)
             SERVER_PROTOCOL_ABORT_CLIENT false (s, [])
    end)).

Definition ProceedToNextRound (s : ServerState) : Res Out :=
  ErrorIfAbortedOrCompleted s (ProceedInState (s, [])).

(** The second result tells the caller whether the round can end. *)
Definition ReceiveMessage (client_id : Z) (message : ClientToServer) (s : ServerState) :
    Res (Out * bool) :=
  ErrorIfAbortedOrCompleted s (ValidateClientId client_id s (
    o ← HandleMessage client_id message (s, []);
    Ok (o, ReadyForNextRound o.1))).

Definition Result (s : ServerState) : Res (SecAggVectorMap * ServerState) :=
  match state_kind_ s with
  | COMPLETED =>
      let '(result, im) := TakeResult (impl_ s) in
      match result with
      | None => Error UNAVAILABLE "Result is uninitialized or requested more than once"
      | Some result => Ok (result, set_impl im s)
      end
  | _ => Error UNAVAILABLE "Result requested, but server is in another state"
  end.

(** The constructor. *)
Definition new_SecAggServer (graph : SecretSharingGraph) (minimum total_number_of_clients : Z)
    (specs : list InputVectorSpecification) (async : bool) : ServerState :=
  update_state R0_ADVERTISE_KEYS false 0 0 0 0 0
    (new_Impl graph minimum specs async
       (replicate (Z.to_nat total_number_of_clients) READY_TO_START)).

(** [Create]. The parameters of the graph that are searched for, the check of
    those of the complete graph and the number of clients that the estimated
    dropout rate leaves are computed in floating point, which is not modelled:
    they are arguments, as is the shuffle of the clients. *)
Definition Create (harary_parameters : Res (Z * Z)) (full_graph_check : Res unit)
    (surviving_clients : Z) (shuffle : list Z → list Z)
    (fullgraph_experiment force_subgraph_experiment async_experiment : bool)
    (minimum_number_of_clients_to_proceed total_number_of_clients : Z)
    (specs : list InputVectorSpecification) : Res ServerState :=
  let computed :=
    if fullgraph_experiment then None
    else if force_subgraph_experiment then
      let degree := Z.quot total_number_of_clients 2 in
      let degree := if Z.rem degree 2 =? 0 then degree + 1 else degree in
      Some (degree, Z.max 2 (Z.quot degree 2))
    else match harary_parameters with
         | Ok (degree, threshold) => Some (degree + 1, threshold)
         | _ => None
         end in
  let minimum := Z.max minimum_number_of_clients_to_proceed surviving_clients in
  graph ←
    match computed with
    | None => _ ← full_graph_check; CreateCompleteGraph total_number_of_clients minimum
    | Some (degree, threshold) =>
        CreateHararyGraph shuffle total_number_of_clients degree threshold true
    end;
  Ok (new_SecAggServer graph minimum total_number_of_clients specs async_experiment).

(** ** Sessions *)

Inductive ServerOp :=
  | OpReceive (client_id : Z) (message : ClientToServer)
  | OpAbortClient (client_id : Z) (reason : ClientAbortReason)
  | OpProceed
  | OpAbort (reason : option string)
  | OpSetAsyncCallback
  | OpTask (action : Action)        (** a step of the schedulers *)
  | OpResult.

Definition run_op (s : ServerState) (op : ServerOp) : Res Out :=
  match op with
  | OpReceive client_id message => '(o, _) ← ReceiveMessage client_id message s; Ok o
  | OpAbortClient client_id reason => AbortClient client_id reason s
  | OpProceed => ProceedToNextRound s
  | OpAbort reason => Abort reason s
  | OpSetAsyncCallback => Ok (SetAsyncCallback (s, [])).2
  | OpTask action => RunTask action (s, [])
  | OpResult => '(_, s) ← Result s; Ok (s, [])
  end.

(** A session: the calls, in order, and what they sent. A call that returns an
    error leaves the server as it was. *)
Inductive server_run (s : ServerState) : list ServerOp → ServerState → list ServerEvent → Prop :=
  | server_run_nil : server_run s [] s []
  | server_run_ok ops s' events op s'' events' :
      server_run s ops s' events → run_op s' op = Ok (s'', events') →
      server_run s (ops ++ [op]) s'' (events ++ events')
  | server_run_error ops s' events op code message :
      server_run s ops s' events → run_op s' op = Error code message →
      server_run s (ops ++ [op]) s' events.
End server.
