(* ===== verification/ServerCorrect.v ===== *)
(** * The counters and the rounds of the server

    The invariant of a session: which statuses a client can have in each state
    of the server, and what the counters of the base class count. *)

From S2P Require Import Prelude Shamir SecAggVector Prng MapOfMasks Graph Crypto Client Accumulator.
From S2P Require Import ServerImpl Server.

(** ** Counting statuses *)

Definition count (p : ClientStatus → bool) (l : list ClientStatus) : Z :=
  Z.of_nat (length (filter (λ s, p s = true) l)).

Lemma count_cons p s l : count p (s :: l) = Z.b2z (p s) + count p l.
Proof. unfold count. rewrite filter_cons. destruct (p s); simpl; lia. Qed.

Lemma count_bound p l : 0 ≤ count p l ≤ Z.of_nat (length l).
Proof. unfold count. pose proof (length_filter (λ s, p s = true) l). lia. Qed.

Lemma count_update p l i old new :
  l !! i = Some old → count p (<[i := new]> l) = count p l - Z.b2z (p old) + Z.b2z (p new).
Proof.
  revert i. induction l as [|s l IH]; intros [|i] H; simpl in H; simplify_eq.
  - simpl. rewrite !count_cons. lia.
  - simpl. rewrite !count_cons, (IH _ H). lia.
Qed.

Lemma count_replicate p n s : p s = false → count p (replicate n s) = 0.
Proof. intros H. induction n; [done|]. simpl. rewrite count_cons, H, IHn. done. Qed.

(** Counting is additive over a partition of the statuses. *)
Lemma count_add p q r l :
  Forall (λ s, Z.b2z (r s) = Z.b2z (p s) + Z.b2z (q s)) l → count r l = count p l + count q l.
Proof. induction 1; rewrite ?count_cons; [done|]. lia. Qed.

Lemma count_le p q l :
  Forall (λ s, p s = true → q s = true) l → count p l ≤ count q l.
Proof.
  induction 1 as [|s l Hs _ IH]; [done|]. rewrite !count_cons.
  destruct (p s), (q s); simpl; lia.
Qed.

Lemma count_all p l : Forall (λ s, p s = true) l → count p l = Z.of_nat (length l).
Proof. induction 1 as [|s l Hs _ IH]; rewrite ?count_cons; [done|]. rewrite Hs, IH. simpl. lia. Qed.

Lemma count_ext p q l : Forall (λ s, p s = q s) l → count p l = count q l.
Proof. induction 1 as [|s l Hs _ IH]; rewrite ?count_cons; [done|]. by rewrite Hs, IH. Qed.

Definition is_status (st s : ClientStatus) : bool := bool_decide (s = st).

(** The client failed before its masked input was accepted. *)
Definition failed_before (s : ClientStatus) : bool :=
  match s with
  | DEAD_BEFORE_SENDING_ANYTHING | DEAD_AFTER_ADVERTISE_KEYS_RECEIVED
  | DEAD_AFTER_SHARE_KEYS_RECEIVED => true
  | _ => false
  end.

(** The masked input of the client was accepted. *)
Definition sent_masked_input (s : ClientStatus) : bool :=
  match ClientMaskType s with kSelfMask => true | _ => false end.

(** The unmasking response of the client was accepted. *)
Definition sent_unmasking (s : ClientStatus) : bool :=
  match s with
  | UNMASKING_RESPONSE_RECEIVED | DEAD_AFTER_UNMASKING_RESPONSE_RECEIVED => true
  | _ => false
  end.

(** ** The invariant *)

(** Statuses a client can have in a state of the server. *)
Definition allowed (kind : StateKind) (s : ClientStatus) : bool :=
  match kind with
  | R0_ADVERTISE_KEYS =>
      match s with
      | READY_TO_START | ADVERTISE_KEYS_RECEIVED | DEAD_BEFORE_SENDING_ANYTHING => true
      | _ => false
      end
  | R1_SHARE_KEYS =>
      match s with
      | DEAD_BEFORE_SENDING_ANYTHING | ADVERTISE_KEYS_RECEIVED | SHARE_KEYS_RECEIVED
      | DEAD_AFTER_ADVERTISE_KEYS_RECEIVED => true
      | _ => false
      end
  | R2_MASKED_INPUT_COLLECTION _ =>
      match s with
      | DEAD_BEFORE_SENDING_ANYTHING | DEAD_AFTER_ADVERTISE_KEYS_RECEIVED | SHARE_KEYS_RECEIVED
      | DEAD_AFTER_SHARE_KEYS_RECEIVED | MASKED_INPUT_RESPONSE_RECEIVED
      | DEAD_AFTER_MASKED_INPUT_RESPONSE_RECEIVED => true
      | _ => false
      end
  | R3_UNMASKING =>
      match s with
      | READY_TO_START | ADVERTISE_KEYS_RECEIVED | SHARE_KEYS_RECEIVED => false
      | _ => true
      end
  | PRNG_RUNNING _ _ _ | COMPLETED =>
      match s with
      | READY_TO_START | ADVERTISE_KEYS_RECEIVED | SHARE_KEYS_RECEIVED
      | MASKED_INPUT_RESPONSE_RECEIVED => false
      | _ => true
      end
  | ABORTED _ => true
  end.

(** What [number_of_clients_ready_for_next_round_] counts. *)
Definition ready (kind : StateKind) : ClientStatus → bool :=
  match kind with
  | R0_ADVERTISE_KEYS => is_status ADVERTISE_KEYS_RECEIVED
  | R1_SHARE_KEYS => is_status SHARE_KEYS_RECEIVED
  | R2_MASKED_INPUT_COLLECTION _ => is_status MASKED_INPUT_RESPONSE_RECEIVED
  | R3_UNMASKING => sent_unmasking
  | _ => λ _, false
  end.

#[global] Arguments ready : simpl never.

Definition statuses (s : ServerState) : list ClientStatus := client_statuses_ (impl_ s).

(** [number_of_messages_received_in_this_round_]: in rounds 0 and 1 a client
    that aborts after its message was counted is no longer told apart. *)
Definition messages_ok (s : ServerState) : Prop :=
  match state_kind_ s with
  | R0_ADVERTISE_KEYS | R1_SHARE_KEYS =>
      count (ready (state_kind_ s)) (statuses s) ≤ number_of_messages_received_in_this_round_ s
  | R2_MASKED_INPUT_COLLECTION _ =>
      number_of_messages_received_in_this_round_ s = count sent_masked_input (statuses s)
  | R3_UNMASKING => number_of_messages_received_in_this_round_ s = count sent_unmasking (statuses s)
  | _ => number_of_messages_received_in_this_round_ s = 0
  end.

(** [needs_to_abort_] is raised for want of clients only. *)
Definition needs_ok (s : ServerState) : Prop :=
  needs_to_abort_ s = true →
  match state_kind_ s with
  | R0_ADVERTISE_KEYS | R1_SHARE_KEYS | R2_MASKED_INPUT_COLLECTION _ =>
      NumberOfAliveClients s < minimum_number_of_clients_to_proceed s
  | R3_UNMASKING =>
      NumberOfPendingClients s + number_of_messages_received_in_this_round_ s <
        minimum_number_of_clients_to_proceed s
  | _ => False
  end.

(** The clients that the unmasking requests will name. *)
Definition aborted_ok (s : ServerState) : Prop :=
  match state_kind_ s with
  | R2_MASKED_INPUT_COLLECTION aborted =>
      NoDup aborted ∧
      ∀ i, i ∈ aborted ↔ 0 ≤ i ∧ statuses s !! Z.to_nat i = Some DEAD_AFTER_SHARE_KEYS_RECEIVED
  | _ => True
  end.

Record counters_inv (s : ServerState) : Prop := {
  ci_allowed : Forall (λ st, allowed (state_kind_ s) st = true) (statuses s);
  ci_before :
    number_of_clients_failed_before_sending_masked_input_ s = count failed_before (statuses s);
  ci_after :
    0 ≤ number_of_clients_failed_after_sending_masked_input_ s ∧
    0 ≤ number_of_clients_terminated_without_unmasking_ s ∧
    number_of_clients_failed_after_sending_masked_input_ s +
    number_of_clients_terminated_without_unmasking_ s =
      count (is_status DEAD_AFTER_MASKED_INPUT_RESPONSE_RECEIVED) (statuses s);
  ci_ready :
    number_of_clients_ready_for_next_round_ s = count (ready (state_kind_ s)) (statuses s);
  ci_messages : messages_ok s;
  ci_needs : needs_ok s;
  ci_aborted : aborted_ok s
}.

Lemma at_ok {A} (l : list A) i x : at_ l i = Ok x → 0 ≤ i ∧ l !! Z.to_nat i = Some x.
Proof. unfold at_. destruct (i <? 0) eqn:E; [done|]. destruct (l !! _) eqn:Hl; [|done].
  intros [= ->]. split; [lia|done]. Qed.

Lemma at_in {A} (l : list A) i x : 0 ≤ i → l !! Z.to_nat i = Some x → at_ l i = Ok x.
Proof. intros Hi Hl. unfold at_. destruct (i <? 0) eqn:E; [lia|]. by rewrite Hl. Qed.

Lemma for_each_ind {A S} (body : A → S → Res S) (I : S → Prop) l : ∀ s s',
  (∀ x s s', x ∈ l → I s → body x s = Ok s' → I s') → I s → for_each body l s = Ok s' → I s'.
Proof.
  induction l as [|x l IH]; simpl; intros s s' Hstep Hs H; [by simplify_eq|].
  apply bind_ok in H as (s1 & H1 & H2). eapply IH; [|by eapply Hstep; [left| |]|done].
  intros y t t' Hy. apply Hstep. by right.
Qed.

(** ** Aborting a client *)

Lemma Forall_update {A} (Q : A → Prop) l i x : Forall Q l → Q x → Forall Q (<[i := x]> l).
Proof. intros. by apply Forall_insert. Qed.

Lemma check_enough_alive_inv s :
  match state_kind_ s with
  | R0_ADVERTISE_KEYS | R1_SHARE_KEYS | R2_MASKED_INPUT_COLLECTION _ => True
  | _ => False
  end → counters_inv s → counters_inv (check_enough_alive s).
Proof.
  intros Hk [? ? ? ? ? ? ?]. unfold check_enough_alive.
  destruct (_ <? _) eqn:Hlt; [|by split].
  split; try done. intros _. simpl. unfold NumberOfAliveClients, minimum_number_of_clients_to_proceed in *.
  simpl in *. destruct (state_kind_ s); try done; lia.
Qed.

(** Counters after one status has changed: [Hold] gives the old status. *)
Ltac count_step Hold :=
  rewrite ?(count_update _ _ _ _ _ Hold);
  repeat match goal with
  | |- context [Z.b2z (?p ?c)] =>
      let v := eval vm_compute in (Z.b2z (p c)) in
      match v with 0 => idtac | 1 => idtac end; change (Z.b2z (p c)) with v
  end.

Ltac unfold_counters :=
  unfold messages_ok, needs_ok, aborted_ok, statuses, NumberOfPendingClients, NumberOfAliveClients,
    total_number_of_clients, minimum_number_of_clients_to_proceed, ready in *;
  cbn -[Z.add Z.sub Z.opp count allowed is_status] in *.

(** Closes the invariant of a state in which one client has changed its status. *)
Ltac solve_counters Hold :=
  split; unfold_counters; rewrite ?length_insert in *;
  first [by apply Forall_update|count_step Hold; lia|done
        |let Hna := fresh in intros Hna;
         repeat match goal with H : ?A → _ < _ |- _ => specialize (H Hna) end;
         count_step Hold; lia
        |idtac].

(** The status of a client that is alive, given by [Hd] and the invariant. *)
Lemma alive_status s client_id :
  counters_inv s → IsClientDead s client_id = Ok false →
  ∃ old, client_status (impl_ s) client_id = Ok old ∧ 0 ≤ client_id ∧
    statuses s !! Z.to_nat client_id = Some old ∧ allowed (state_kind_ s) old = true ∧
    is_dead old = false.
Proof.
  intros Hs Hd. unfold IsClientDead in Hd. apply bind_ok in Hd as (old & Hold & [= Hd]).
  exists old. pose proof (at_ok _ _ _ Hold) as [? Hl]. split_and!; try done.
  apply (Forall_lookup_1 _ _ _ _ (ci_allowed _ Hs) Hl).
Qed.

(** ** What the operations on the data leave alone *)

Record frame (im im' : Impl) : Prop := {
  fr_graph : secret_sharing_graph_ im' = secret_sharing_graph_ im;
  fr_minimum : minimum_number_of_clients_to_proceed_ im' = minimum_number_of_clients_to_proceed_ im;
  fr_specs : input_vector_specs im' = input_vector_specs im;
  fr_async : async_round_2 im' = async_round_2 im;
  fr_statuses : client_statuses_ im' = client_statuses_ im
}.

#[export] Instance frame_preorder : PreOrder frame.
Proof. split; [by constructor|]. intros ??? [] []. split; congruence. Qed.

Lemma counters_inv_frame s im : frame (impl_ s) im → counters_inv s → counters_inv (set_impl im s).
Proof.
  intros [_ Hm _ _ Hst] [? ? ? ? ? ? ?]. split; unfold_counters; rewrite ?Hst, ?Hm; done.
Qed.

Section rounds.
Context {P : Primitives} (fuel : nat).

Lemma HandleAdvertiseKeys_frame client_id keys im im' :
  HandleAdvertiseKeys client_id keys im = Ok im' → frame im im'.
Proof. unfold HandleAdvertiseKeys. case_match; [done|]. intros [= <-]. by split. Qed.

Lemma set_encrypted_share_frame n i x im im' : set_encrypted_share n i x im = Ok im' → frame im im'.
Proof.
  unfold set_encrypted_share. intros (row & _ & H)%bind_ok. apply bind_ok in H as (y & _ & [= <-]).
  by split.
Qed.

Lemma store_encrypted_share_frame client_id shares i im im' :
  store_encrypted_share client_id shares i im = Ok im' → frame im im'.
Proof.
  unfold store_encrypted_share. intros (n & _ & H)%bind_ok. apply bind_ok in H as (k & _ & H).
  apply bind_ok in H as (x & _ & H). by eapply set_encrypted_share_frame.
Qed.

Lemma for_each_frame {A} (body : A → Impl → Res Impl) l im im' :
  (∀ x im im', body x im = Ok im' → frame im im') → for_each body l im = Ok im' → frame im im'.
Proof.
  intros Hbody. apply (for_each_ind _ (frame im)); [|done].
  intros x im1 im2 _ H1 H2. etrans; [done|by eapply Hbody].
Qed.

Lemma HandleShareKeysResponse_frame client_id shares im im' :
  HandleShareKeysResponse client_id shares im = Ok im' → frame im im'.
Proof.
  unfold HandleShareKeysResponse. case_match; [done|]. intros (e & _ & Hr)%bind_ok.
  destruct e; [done|]. eapply for_each_frame; [|done]. intros. by eapply store_encrypted_share_frame.
Qed.

Lemma EraseShareKeysForClient_frame client_id im im' :
  EraseShareKeysForClient client_id im = Ok im' → frame im im'.
Proof.
  apply for_each_frame. intros i im1 im2 (n & _ & H)%bind_ok. apply bind_ok in H as (k & _ & H).
  by eapply set_encrypted_share_frame.
Qed.

Lemma HandleMaskedInputCollectionResponse_frame vectors im im' :
  HandleMaskedInputCollectionResponse vectors im = Ok im' → frame im im'.
Proof.
  unfold HandleMaskedInputCollectionResponse. case_match; [done|]. intros (c & _ & Hr)%bind_ok.
  case_match; [|]; case_match; try done; [by simplify_eq|].
  apply bind_ok in Hr as (m & _ & [= <-]). by split.
Qed.

Lemma HandleUnmaskingResponse_frame client_id shares im im' :
  HandleUnmaskingResponse client_id shares im = Ok im' → frame im im'.
Proof.
  unfold HandleUnmaskingResponse. repeat case_match; try done. intros (e & _ & Hr)%bind_ok.
  destruct e; [done|]. apply bind_ok in Hr as ([t1 t2] & _ & [= <-]). by split.
Qed.

Lemma SetSessionId_frame im im' : SetSessionId im = Ok im' → frame im im'.
Proof.
  unfold SetSessionId. intros (p & _ & H)%bind_ok. apply bind_ok in H as (id & _ & [= <-]). by split.
Qed.

Lemma FinalizeMaskedInputCollection_frame im im' :
  FinalizeMaskedInputCollection im = Ok im' → frame im im'.
Proof.
  unfold FinalizeMaskedInputCollection. case_match; [|by intros [= <-]]. case_match; [|done].
  intros [_ Hr]%fcp_check_ok. apply bind_ok in Hr as ([v a'] & _ & [= <-]). by split.
Qed.

Lemma SetResult_frame r im im' : SetResult r im = Ok im' → frame im im'.
Proof. unfold SetResult. intros [_ [= <-]]%fcp_check_ok. by split. Qed.

Lemma PrngObserver_frame a im a' im' : PrngObserver a im = Ok (a', im') → frame im im'.
Proof.
  unfold PrngObserver. intros ([v a1] & _ & H)%bind_ok. destruct v; [|done].
  apply bind_ok in H as (m & _ & H). apply bind_ok in H as (im1 & H & [= <- <-]).
  by eapply SetResult_frame.
Qed.

Lemma StartPrng_frame w im a im' : StartPrng fuel w im = Ok (a, im') → frame im im'.
Proof. unfold StartPrng. repeat case_match; try done. intros [= <- <-]. by split. Qed.

Lemma R0_HandleAbortClient_inv client_id s s' :
  counters_inv s → state_kind_ s = R0_ADVERTISE_KEYS → IsClientDead s client_id = Ok false →
  R0_HandleAbortClient client_id s = Ok s' → counters_inv s'.
Proof.
  intros Hs Hk Hd H. destruct (alive_status _ _ Hs Hd) as (old & Hst & Hid & Hold & Hal & Hnd).
  unfold R0_HandleAbortClient in H. rewrite Hst in H. injection H as <-.
  apply check_enough_alive_inv; [by case_bool_decide; simpl; rewrite Hk|].
  destruct s as [k na fa fb rd tm ms im]; simpl in *; subst k. destruct Hs.
  destruct old; simpl in Hal, Hnd; try done; rewrite bool_decide_decide; simpl;
    solve_counters Hold.
Qed.

Lemma R1_HandleAbortClient_inv client_id s s' :
  counters_inv s → state_kind_ s = R1_SHARE_KEYS → IsClientDead s client_id = Ok false →
  R1_HandleAbortClient client_id s = Ok s' → counters_inv s'.
Proof.
  intros Hs Hk Hd H. destruct (alive_status _ _ Hs Hd) as (old & Hst & Hid & Hold & Hal & Hnd).
  unfold R1_HandleAbortClient in H. rewrite Hst in H. cbn [mbind Res_bind] in H.
  apply bind_ok in H as (s1 & H1 & [= <-]).
  destruct s as [k na fa fb rd tm ms im]; simpl in *; subst k. destruct Hs.
  case_bool_decide as Ho; [apply bind_ok in H1 as (im' & [_ Hm _ _ He]%EraseShareKeysForClient_frame & [= <-])
                          |injection H1 as <-]; (apply check_enough_alive_inv; [done|]).
  - subst old. simpl in He, Hm. unfold statuses in Hold. simpl in Hold. rewrite <- He in Hold.
    destruct im' as [????? ?????????]; simpl in *; subst. solve_counters Hold.
  - destruct old; simpl in Hal, Hnd; try done; solve_counters Hold.
Qed.

Lemma aborted_snoc (l : list ClientStatus) aborted client_id old :
  0 ≤ client_id → l !! Z.to_nat client_id = Some old → old ≠ DEAD_AFTER_SHARE_KEYS_RECEIVED →
  NoDup aborted →
  (∀ i, i ∈ aborted ↔ 0 ≤ i ∧ l !! Z.to_nat i = Some DEAD_AFTER_SHARE_KEYS_RECEIVED) →
  NoDup (aborted ++ [client_id]) ∧
  (∀ i, i ∈ aborted ++ [client_id] ↔ 0 ≤ i ∧
     <[Z.to_nat client_id := DEAD_AFTER_SHARE_KEYS_RECEIVED]> l !! Z.to_nat i =
       Some DEAD_AFTER_SHARE_KEYS_RECEIVED).
Proof.
  intros Hid Hold Hne Hnd Hin. split.
  - apply NoDup_app. split; [done|]. split; [|by apply NoDup_singleton].
    intros i [_ Hi]%Hin ->%list_elem_of_singleton. congruence.
  - intros i. rewrite elem_of_app, list_elem_of_singleton, Hin.
    destruct (decide (i = client_id)) as [->|Hne'].
    + rewrite list_lookup_insert_eq by (by eapply lookup_lt_Some). split; [by split|by right].
    + split.
      * intros [[? ?]|?]; [|done]. split; [done|]. by rewrite list_lookup_insert_ne by lia.
      * intros [Hi Hl]. left. split; [done|]. by rewrite list_lookup_insert_ne in Hl by lia.
Qed.

(** A change of status that does not touch the clients of the list. *)
Lemma aborted_keep (l : list ClientStatus) aborted client_id old new :
  l !! client_id = Some old → old ≠ DEAD_AFTER_SHARE_KEYS_RECEIVED →
  new ≠ DEAD_AFTER_SHARE_KEYS_RECEIVED →
  (NoDup aborted ∧ ∀ i, i ∈ aborted ↔ 0 ≤ i ∧ l !! Z.to_nat i = Some DEAD_AFTER_SHARE_KEYS_RECEIVED) →
  NoDup aborted ∧ ∀ i, i ∈ aborted ↔ 0 ≤ i ∧
    <[client_id := new]> l !! Z.to_nat i = Some DEAD_AFTER_SHARE_KEYS_RECEIVED.
Proof.
  intros Hold Ho Hn [Hnd Hin]. split; [done|]. intros i. rewrite Hin.
  destruct (decide (client_id = Z.to_nat i)) as [->|Hne]; [|by rewrite list_lookup_insert_ne].
  rewrite list_lookup_insert_eq by (by eapply lookup_lt_Some). split; intros [? ?]; congruence.
Qed.

Lemma R2_HandleAbortClient_inv aborted client_id s s' :
  counters_inv s → state_kind_ s = R2_MASKED_INPUT_COLLECTION aborted →
  IsClientDead s client_id = Ok false →
  R2_HandleAbortClient aborted client_id s = Ok s' → counters_inv s'.
Proof.
  intros Hs Hk Hd H. destruct (alive_status _ _ Hs Hd) as (old & Hst & Hid & Hold & Hal & Hnd).
  unfold R2_HandleAbortClient in H. rewrite Hst in H. injection H as <-.
  apply check_enough_alive_inv; [by case_bool_decide; simpl; rewrite ?Hk|].
  destruct s as [k na fa fb rd tm ms im]; simpl in *; subst k. destruct Hs.
  destruct old; simpl in Hal, Hnd; try done; rewrite bool_decide_decide; simpl;
    solve_counters Hold.
  - destruct ci_aborted0. by eapply aborted_snoc.
  - by eapply aborted_keep.
Qed.

Lemma R3_HandleAbortClient_inv client_id reason s s' :
  counters_inv s → state_kind_ s = R3_UNMASKING → IsClientDead s client_id = Ok false →
  R3_HandleAbortClient client_id reason s = Ok s' → counters_inv s'.
Proof.
  intros Hs Hk Hd H. destruct (alive_status _ _ Hs Hd) as (old & Hst & Hid & Hold & Hal & Hnd).
  unfold R3_HandleAbortClient in H. rewrite Hst in H. cbn [mbind Res_bind] in H.
  destruct s as [k na fa fb rd tm ms im]; simpl in *; subst k. destruct Hs.
  destruct old; simpl in Hal, Hnd; try done; rewrite bool_decide_decide in H; simpl in H;
    injection H as <-; [|solve_counters Hold].
  case_bool_decide; (destruct (_ <? _) eqn:Hlt in |- *; solve_counters Hold).
Qed.

Lemma HandleAbortClient_inv client_id reason s s' :
  counters_inv s → IsClientDead s client_id = Ok false →
  HandleAbortClient client_id reason s = Ok s' → counters_inv s'.
Proof.
  intros Hs Hd H. unfold HandleAbortClient in H. destruct (state_kind_ s) eqn:Hk;
    eauto using R0_HandleAbortClient_inv, R1_HandleAbortClient_inv, R2_HandleAbortClient_inv,
      R3_HandleAbortClient_inv; simplify_eq; [|done|done].
  destruct (alive_status _ _ Hs Hd) as (old & Hst & Hid & Hold & Hal & Hnd).
  destruct s as [k na fa fb rd tm ms im]; simpl in *; subst k. destruct Hs.
  destruct old; simpl in Hal, Hnd; try done. solve_counters Hold.
Qed.

(** Which state a state of the same round is. *)
Definition same_round (k k' : StateKind) : Prop :=
  match k, k' with
  | R0_ADVERTISE_KEYS, R0_ADVERTISE_KEYS | R1_SHARE_KEYS, R1_SHARE_KEYS
  | R2_MASKED_INPUT_COLLECTION _, R2_MASKED_INPUT_COLLECTION _ | R3_UNMASKING, R3_UNMASKING => True
  | _, _ => k = k'
  end.

Lemma same_round_refl k : same_round k k.
Proof. by destruct k. Qed.

Lemma AbortClientInState_inv client_id reason code notify o o' :
  counters_inv o.1 → AbortClientInState client_id reason code notify o = Ok o' → counters_inv o'.1.
Proof.
  intros Hs H. unfold AbortClientInState in H. apply fcp_check_ok in H as [_ H].
  apply bind_ok in H as ([] & Hd & H); [by simplify_eq|].
  apply bind_ok in H as (s' & Hs' & [= <-]).
  apply HandleAbortClient_inv in Hs'; [|done|done]. by destruct notify.
Qed.

(** ** Receiving a message *)

(** A message that is accepted moves its client on. *)
Definition accepted_ok (expected received : ClientStatus) (s : ServerState) : Prop :=
  ∀ client_id im, statuses s !! client_id = Some expected → frame (impl_ s) im →
    counters_inv (add_counts 0 0 1 0 1 (set_status (Z.of_nat client_id) received (set_impl im s))).

Lemma handle_round_inv {A} expected received abort_reason unexpected unexpected_code invalid_code
    (payload : ClientToServer → option A) accept client_id message o o' :
  counters_inv o.1 → accepted_ok expected received o.1 →
  (∀ a im im', accept a im = Ok im' → frame im im') →
  handle_round expected received abort_reason unexpected unexpected_code invalid_code payload accept
    client_id message o = Ok o' → counters_inv o'.1.
Proof.
  intros Hs Hacc Hfr H.
  assert (∀ r c n, AbortClientInState client_id r c n o = Ok o' → counters_inv o'.1) as Hab
    by (intros; by eapply AbortClientInState_inv).
  unfold handle_round in H.
  destruct message as [d| | | | |]; [by eapply Hab|..];
    (apply bind_ok in H as (st & Hst & H); case_bool_decide as Heq; simpl in H; [|by eapply Hab];
     destruct (payload _) as [a|]; [|by eapply Hab];
     destruct (accept a _) as [im| |] eqn:Ha; [|by eapply Hab|done]; injection H as <-; simpl;
     apply at_ok in Hst as [Hid Hst]; subst st;
     rewrite <- (Z2Nat.id client_id) by done; eapply Hacc; [done|by eapply Hfr]).
Qed.

Ltac solve_accepted s :=
  let c := fresh "c" in let im := fresh "im" in
  intros Hs Hk c im Hold [_ Hm _ _ He]; destruct s as [k na fa fb rd tm ms im0]; simpl in *; subst k;
  unfold statuses in Hold; simpl in Hold; rewrite <- He in Hold; rewrite <- (Nat2Z.id c) in Hold;
  destruct im as [????? ?????????]; simpl in *; subst; destruct Hs; solve_counters Hold.

Lemma accepted_R0 s :
  counters_inv s → state_kind_ s = R0_ADVERTISE_KEYS →
  accepted_ok READY_TO_START ADVERTISE_KEYS_RECEIVED s.
Proof. solve_accepted s. Qed.
Lemma accepted_R1 s :
  counters_inv s → state_kind_ s = R1_SHARE_KEYS →
  accepted_ok ADVERTISE_KEYS_RECEIVED SHARE_KEYS_RECEIVED s.
Proof. solve_accepted s. Qed.
Lemma accepted_R2 s aborted :
  counters_inv s → state_kind_ s = R2_MASKED_INPUT_COLLECTION aborted →
  accepted_ok SHARE_KEYS_RECEIVED MASKED_INPUT_RESPONSE_RECEIVED s.
Proof. solve_accepted s. by eapply aborted_keep. Qed.
Lemma accepted_R3 s :
  counters_inv s → state_kind_ s = R3_UNMASKING →
  accepted_ok MASKED_INPUT_RESPONSE_RECEIVED UNMASKING_RESPONSE_RECEIVED s.
Proof. solve_accepted s. Qed.

Lemma HandleMessage_inv client_id message o o' :
  counters_inv o.1 → HandleMessage client_id message o = Ok o' → counters_inv o'.1.
Proof.
  intros Hs H. unfold HandleMessage in H. destruct (state_kind_ o.1) eqn:Hk; [| | | | |done|done].
  - eapply handle_round_inv; [done|by apply accepted_R0| |exact H].
    intros. by eapply HandleAdvertiseKeys_frame.
  - eapply handle_round_inv; [done|by apply accepted_R1| |exact H].
    intros. by eapply HandleShareKeysResponse_frame.
  - eapply handle_round_inv; [done|by eapply accepted_R2| |exact H].
    intros. by eapply HandleMaskedInputCollectionResponse_frame.
  - eapply handle_round_inv; [done|by apply accepted_R3| |exact H].
    intros. by eapply HandleUnmaskingResponse_frame.
  - unfold PrngRunning_HandleMessage in H. destruct message; by eapply AbortClientInState_inv.
Qed.

(** ** Round transitions *)

(** The configuration of a session. *)
Record same_config (im im' : Impl) : Prop := {
  sc_graph : secret_sharing_graph_ im' = secret_sharing_graph_ im;
  sc_minimum : minimum_number_of_clients_to_proceed_ im' = minimum_number_of_clients_to_proceed_ im;
  sc_specs : input_vector_specs im' = input_vector_specs im;
  sc_async : async_round_2 im' = async_round_2 im
}.

#[export] Instance same_config_preorder : PreOrder same_config.
Proof. split; [by constructor|]. intros ??? [] []. split; congruence. Qed.

Lemma frame_config im im' : frame im im' → same_config im im'.
Proof. intros []. by split. Qed.

(** The data that the later rounds work on. *)
Record same_data (im im' : Impl) : Prop := {
  sd_public : pairwise_public_keys_ im' = pairwise_public_keys_ im;
  sd_session : session_id_ im' = session_id_ im;
  sd_pairwise : pairwise_shamir_share_table_ im' = pairwise_shamir_share_table_ im;
  sd_self : self_shamir_share_table_ im' = self_shamir_share_table_ im;
  sd_masked : masked_input_ im' = masked_input_ im;
  sd_queue : masked_input_queue_ im' = masked_input_queue_ im;
  sd_accumulator : masked_input_accumulator_ im' = masked_input_accumulator_ im;
  sd_result : result_ im' = result_ im
}.

#[export] Instance same_data_preorder : PreOrder same_data.
Proof. split; [by constructor|]. intros ??? [] []. split; congruence. Qed.

(** Counters that an abort of a client leaves alone: from round 3 on the
    inputs are fixed, and afterwards the outcome of every client. *)
Definition counts_frame (s s' : ServerState) : Prop :=
  number_of_messages_received_in_this_round_ s' = number_of_messages_received_in_this_round_ s ∧
  match state_kind_ s with
  | R3_UNMASKING =>
      number_of_clients_failed_before_sending_masked_input_ s' =
        number_of_clients_failed_before_sending_masked_input_ s
  | PRNG_RUNNING _ _ _ | COMPLETED | ABORTED _ =>
      number_of_clients_failed_before_sending_masked_input_ s' =
        number_of_clients_failed_before_sending_masked_input_ s ∧
      NumberOfAliveClients s' = NumberOfAliveClients s
  | _ => True
  end.

(** What aborting a client changes. *)
Record abort_shape (client_id : Z) (s s' : ServerState) : Prop := {
  as_round : same_round (state_kind_ s) (state_kind_ s');
  as_status : ∃ st, is_dead st = true ∧
    statuses s' = <[Z.to_nat client_id := st]> (statuses s);
  as_config : same_config (impl_ s) (impl_ s');
  as_counts : counts_frame s s';
  as_data : match state_kind_ s with
            | R0_ADVERTISE_KEYS | R1_SHARE_KEYS => True
            | _ => same_data (impl_ s) (impl_ s') ∧
                   ClientMaskType <$> statuses s' = ClientMaskType <$> statuses s
            end
}.

Lemma check_enough_alive_kind s : state_kind_ (check_enough_alive s) = state_kind_ s.
Proof. unfold check_enough_alive. by case_match. Qed.
Lemma check_enough_alive_impl s : impl_ (check_enough_alive s) = impl_ s.
Proof. unfold check_enough_alive. by case_match. Qed.

Lemma masks_keep (l : list ClientStatus) i old new :
  l !! i = Some old → ClientMaskType new = ClientMaskType old →
  ClientMaskType <$> <[i := new]> l = ClientMaskType <$> l.
Proof.
  intros Hl Hm. rewrite list_fmap_insert, Hm. apply list_insert_id. by rewrite list_lookup_fmap, Hl.
Qed.

Ltac dead_status := eexists; split; [|reflexivity]; done.

Lemma check_enough_alive_messages s :
  number_of_messages_received_in_this_round_ (check_enough_alive s) =
    number_of_messages_received_in_this_round_ s.
Proof. unfold check_enough_alive. by case_match. Qed.

Lemma HandleAbortClient_counts client_id reason s s' :
  HandleAbortClient client_id reason s = Ok s' → counts_frame s s'.
Proof.
  unfold HandleAbortClient, counts_frame. destruct (state_kind_ s) eqn:Hk; intros H.
  - unfold R0_HandleAbortClient in H. apply bind_ok in H as (st & _ & [= <-]).
    rewrite check_enough_alive_messages. case_bool_decide; simpl; split; (done || lia).
  - unfold R1_HandleAbortClient in H. apply bind_ok in H as (st & _ & H).
    apply bind_ok in H as (s1 & H1 & [= <-]). rewrite check_enough_alive_messages. split; [|done].
    case_bool_decide; [apply bind_ok in H1 as (im & _ & [= <-])|injection H1 as <-]; simpl; lia.
  - unfold R2_HandleAbortClient in H. apply bind_ok in H as (st & _ & [= <-]).
    rewrite check_enough_alive_messages. case_bool_decide; simpl; split; (done || lia).
  - unfold R3_HandleAbortClient in H. apply bind_ok in H as (st & _ & H).
    case_bool_decide; injection H as <-; [done|].
    case_bool_decide; (destruct (_ <? _) in |- *; simpl; lia).
  - injection H as <-. unfold NumberOfAliveClients, total_number_of_clients. simpl.
    by rewrite length_insert.
  - by simplify_eq.
  - by simplify_eq.
Qed.

Lemma HandleAbortClient_shape client_id reason s s' :
  counters_inv s → IsClientDead s client_id = Ok false →
  IsAborted s = false → IsCompletedSuccessfully s = false →
  HandleAbortClient client_id reason s = Ok s' → abort_shape client_id s s'.
Proof.
  intros Hs Hd Hna Hnc H. pose proof (HandleAbortClient_counts _ _ _ _ H) as Hcounts.
  destruct (alive_status _ _ Hs Hd) as (old & Hst & Hid & Hold & Hal & Hnd).
  unfold HandleAbortClient, IsAborted, IsCompletedSuccessfully in *.
  destruct s as [k na fa fb rd tm ms im]; simpl in *.
  destruct k; try done; unfold R0_HandleAbortClient, R1_HandleAbortClient, R2_HandleAbortClient,
    R3_HandleAbortClient in H; simpl in H; rewrite ?Hst in H; cbn [mbind Res_bind] in H.
  - injection H as <-. split; try exact Hcounts; clear Hcounts; unfold statuses;
      rewrite ?check_enough_alive_kind, ?check_enough_alive_impl; case_bool_decide; try done; dead_status.
  - apply bind_ok in H as (s1 & H1 & [= <-]).
    assert (frame im (impl_ s1) ∧ state_kind_ s1 = R1_SHARE_KEYS) as [[] Hk].
    { case_bool_decide; [apply bind_ok in H1 as (im' & H1 & [= <-])|by simplify_eq].
      split; [|done]. by eapply EraseShareKeysForClient_frame. }
    split; try exact Hcounts; clear Hcounts; unfold statuses;
      rewrite ?check_enough_alive_kind, ?check_enough_alive_impl; simpl; rewrite ?Hk; try done. rewrite fr_statuses0. dead_status.
  - injection H as <-. split; try exact Hcounts; clear Hcounts; unfold statuses;
      rewrite ?check_enough_alive_kind, ?check_enough_alive_impl;
      (destruct old; simpl in Hal, Hnd; try done; rewrite bool_decide_decide; simpl; try done;
       first [dead_status|split; [done|by eapply masks_keep]]).
  - destruct old; simpl in Hal, Hnd; try done; rewrite bool_decide_decide in H; simpl in H;
      injection H as <-.
    + split; try exact Hcounts; clear Hcounts; unfold statuses; repeat case_match; try done;
        first [dead_status|split; [by repeat case_match|]]; by repeat case_match; eapply masks_keep.
    + split; try exact Hcounts; clear Hcounts; unfold statuses; try done; [dead_status|].
      split; [done|by eapply masks_keep].
  - injection H as <-. destruct old; simpl in Hal, Hnd; try done.
    split; try exact Hcounts; clear Hcounts; unfold statuses; try done; [dead_status|]. split; [done|by eapply masks_keep].
Qed.

Lemma abort_shape_dead client_id s :
  IsClientDead s client_id = Ok true → abort_shape client_id s s.
Proof.
  intros Hd. unfold IsClientDead in Hd. apply bind_ok in Hd as (st & Hst & [= Hd]).
  apply at_ok in Hst as [_ Hst]. split; [apply same_round_refl| |done|by split; [|case_match]|by case_match].
  exists st. split; [done|]. symmetry. by apply list_insert_id.
Qed.

Lemma AbortClientInState_shape client_id reason code notify o o' :
  counters_inv o.1 → AbortClientInState client_id reason code notify o = Ok o' →
  abort_shape client_id o.1 o'.1.
Proof.
  intros Hs H. unfold AbortClientInState in H. apply fcp_check_ok in H as [Ht H].
  apply negb_true_iff, orb_false_iff in Ht as [Ht1 Ht2].
  apply bind_ok in H as ([] & Hd & H); [simplify_eq; by apply abort_shape_dead|].
  apply bind_ok in H as (s' & Hs' & [= <-]).
  apply HandleAbortClient_shape in Hs'; [|done..]. by destruct notify.
Qed.

(** Composition of such steps, for the loops over all clients. *)
Record round_frame (s s' : ServerState) : Prop := {
  rf_inv : counters_inv s';
  rf_round : same_round (state_kind_ s) (state_kind_ s');
  rf_length : length (statuses s') = length (statuses s);
  rf_config : same_config (impl_ s) (impl_ s');
  rf_counts : counts_frame s s';
  rf_data : match state_kind_ s with
            | R0_ADVERTISE_KEYS | R1_SHARE_KEYS => True
            | _ => same_data (impl_ s) (impl_ s') ∧
                   ClientMaskType <$> statuses s' = ClientMaskType <$> statuses s
            end
}.

Lemma round_frame_refl s : counters_inv s → round_frame s s.
Proof. intros. split; [done|apply same_round_refl|done|done|by split; [|case_match]|by case_match]. Qed.

Lemma round_frame_trans s1 s2 s3 : round_frame s1 s2 → round_frame s2 s3 → round_frame s1 s3.
Proof.
  intros [? Hr1 ? ? [Hm1 Hc1] H1] [? Hr2 ? ? [Hm2 Hc2] H2].
  split; [done| |congruence|by etrans|split; [congruence|]|].
  - destruct (state_kind_ s1) eqn:E1, (state_kind_ s2) eqn:E2; simpl in *; try congruence;
      destruct (state_kind_ s3) eqn:E3; simpl in *; congruence || done.
  - destruct (state_kind_ s1) eqn:E1; try done; destruct (state_kind_ s2) eqn:E2; simpl in Hr1; try done;
      intuition congruence.
  - destruct (state_kind_ s1) eqn:E1; try done; destruct (state_kind_ s2) eqn:E2; simpl in Hr1; try done;
      destruct H1, H2; (split; [by etrans|congruence]).
Qed.

Lemma abort_frame client_id s s' :
  counters_inv s' → abort_shape client_id s s' → round_frame s s'.
Proof.
  intros Hs' [Hr (st & _ & Hst) Hc Hn Hd]. split; try done. by rewrite Hst, length_insert.
Qed.

(** After a loop in which the body settles the status of each client in turn,
    the statuses of all clients are settled. *)
Lemma for_each_settles (settled : ClientStatus → Prop) (body : Z → Out → Res Out) o o' :
  counters_inv o.1 →
  (∀ i o1 o2, counters_inv o1.1 → round_frame o.1 o1.1 → body i o1 = Ok o2 →
     round_frame o1.1 o2.1 ∧
     (∀ st, statuses o2.1 !! Z.to_nat i = Some st → settled st) ∧
     (∀ j, j ≠ Z.to_nat i → statuses o2.1 !! j = statuses o1.1 !! j)) →
  for_each body (clients (impl_ o.1)) o = Ok o' →
  round_frame o.1 o'.1 ∧ Forall settled (statuses o'.1).
Proof.
  intros Hs Hbody. unfold clients, total_number_of_clients.
  assert (∀ n start o1, (start + n)%nat = length (statuses o.1) → round_frame o.1 o1.1 →
    (∀ j st, (j < start)%nat → statuses o1.1 !! j = Some st → settled st) →
    for_each body (seqZ (Z.of_nat start) (Z.of_nat n)) o1 = Ok o' →
    round_frame o.1 o'.1 ∧ Forall settled (statuses o'.1)) as Hgen.
  { induction n as [|n IH]; intros start o1 Hlen Hf Hset H.
    - simpl in H. simplify_eq. split; [done|]. apply Forall_lookup_2. intros j st Hj. eapply Hset; [|done].
      apply lookup_lt_Some in Hj. pose proof (rf_length _ _ Hf). lia.
    - rewrite seqZ_cons in H by lia. simpl in H. apply bind_ok in H as (o2 & H1 & H2).
      destruct (Hbody _ _ _ (rf_inv _ _ Hf) Hf H1) as (Hf2 & Hi & Hj).
      replace (Z.succ (Z.of_nat start)) with (Z.of_nat (S start)) in H2 by lia.
      replace (Z.pred (Z.of_nat (S n))) with (Z.of_nat n) in H2 by lia.
      eapply IH; [| | |exact H2]; [lia|by eapply round_frame_trans|].
      intros j st Hlt Hjst. rewrite Nat2Z.id in Hi, Hj.
      destruct (decide (j = start)) as [->|Hne]; [by apply Hi|].
      rewrite Hj in Hjst by done. eapply (Hset j); [lia|done]. }
  intros H. apply (Hgen (length (statuses o.1)) 0%nat o); [lia|by apply round_frame_refl| |done].
  intros; lia.
Qed.

Lemma abort_settles client_id s s' :
  abort_shape client_id s s' →
  (∀ st, statuses s' !! Z.to_nat client_id = Some st → is_dead st = true) ∧
  (∀ j, j ≠ Z.to_nat client_id → statuses s' !! j = statuses s !! j).
Proof.
  intros [_ (st & Hd & ->) _ _ _]. split.
  - intros st' Hl. destruct (decide (Z.to_nat client_id < length (statuses s))%nat).
    + rewrite list_lookup_insert_eq in Hl by done. by simplify_eq.
    + apply lookup_lt_Some in Hl. rewrite length_insert in Hl. lia.
  - intros j Hj. by rewrite list_lookup_insert_ne.
Qed.

Definition settled (expected st : ClientStatus) : Prop := is_dead st = true ∨ st = expected.

Lemma abort_unless_step expected reason code i o1 o2 :
  counters_inv o1.1 → abort_unless expected reason code i o1 = Ok o2 →
  round_frame o1.1 o2.1 ∧
  (∀ st, statuses o2.1 !! Z.to_nat i = Some st → settled expected st) ∧
  (∀ j, j ≠ Z.to_nat i → statuses o2.1 !! j = statuses o1.1 !! j).
Proof.
  intros Hs H. unfold abort_unless in H. apply bind_ok in H as (dead & Hd & H).
  apply bind_ok in H as (st & Hst & H). unfold IsClientDead in Hd. rewrite Hst in Hd.
  injection Hd as <-. destruct (negb (is_dead st) && _) eqn:Hc.
  - pose proof (AbortClientInState_inv _ _ _ _ _ _ Hs H).
    pose proof (AbortClientInState_shape _ _ _ _ _ _ Hs H) as Hsh.
    destruct (abort_settles _ _ _ Hsh) as [Hi Hj]. split; [by eapply abort_frame|].
    split; [|done]. intros. left. by apply Hi.
  - simplify_eq. split; [by apply round_frame_refl|]. split; [|done]. intros st' Hl.
    apply at_ok in Hst as [_ Hst]. unfold statuses in Hl. rewrite Hst in Hl. simplify_eq.
    apply andb_false_iff in Hc as [Hc|Hc]; apply negb_false_iff in Hc; [by left|].
    right. by apply bool_decide_eq_true in Hc.
Qed.

Lemma abort_loop expected reason code o o' :
  counters_inv o.1 →
  for_each (abort_unless expected reason code) (clients (impl_ o.1)) o = Ok o' →
  round_frame o.1 o'.1 ∧ Forall (settled expected) (statuses o'.1).
Proof.
  intros Hs. apply for_each_settles; [done|]. intros i o1 o2 Ho1 _ H.
  by eapply abort_unless_step.
Qed.

(** Loops that only send messages. *)
Lemma send_loop (body : Z → Out → Res Out) l o o' :
  (∀ i o1 o2, body i o1 = Ok o2 → o2.1 = o1.1) → for_each body l o = Ok o' → o'.1 = o.1.
Proof.
  intros Hbody. apply (for_each_ind _ (λ o', o'.1 = o.1)); [|done].
  intros i o1 o2 _ H1 H2. by rewrite (Hbody _ _ _ H2).
Qed.

Lemma R0_send_request_state session i o1 o2 : R0_send_request session i o1 = Ok o2 → o2.1 = o1.1.
Proof.
  intros (d & _ & H)%bind_ok. destruct d; [by simplify_eq|]. apply bind_ok in H as (p & _ & [= <-]).
  done.
Qed.
Lemma R2_send_request_state i o1 o2 : R2_send_request i o1 = Ok o2 → o2.1 = o1.1.
Proof.
  intros (d & _ & H)%bind_ok. destruct d; [by simplify_eq|]. case_match; try by simplify_eq.
  apply bind_ok in H as (p & _ & [= <-]). done.
Qed.

(** The counters of a new round. *)
Lemma new_round_inv kind s :
  counters_inv s → Forall (λ st, allowed kind st = true) (statuses s) →
  count (ready kind) (statuses s) = 0 →
  messages_ok (new_ServerState kind s) → aborted_ok (new_ServerState kind s) →
  counters_inv (new_ServerState kind s).
Proof. intros [] Hall Hr Hm Ha. split; try done. Qed.

Lemma settled_allowed kind expected kind' s :
  counters_inv s → state_kind_ s = kind → Forall (settled expected) (statuses s) →
  (∀ st, allowed kind st = true → settled expected st → allowed kind' st = true) →
  Forall (λ st, allowed kind' st = true) (statuses s).
Proof.
  intros Hs <- Hset Himp. apply Forall_lookup_2. intros i st Hi.
  apply Himp; [apply (Forall_lookup_1 _ _ _ _ (ci_allowed _ Hs) Hi)
              |apply (Forall_lookup_1 _ _ _ _ Hset Hi)].
Qed.

(** No client has a status that the round does not allow. *)
Lemma count_none kind p s :
  Forall (λ st, allowed kind st = true) (statuses s) →
  (∀ st, allowed kind st = true → p st = false) → count p (statuses s) = 0.
Proof.
  intros Hall Hp. induction Hall as [|st l Hst _ IH]; [done|]. by rewrite count_cons, Hp, IH.
Qed.

Lemma abort_round_inv o : counters_inv o.1 → counters_inv (abort_round o).1.
Proof.
  intros Hs. apply new_round_inv; try done; [by apply Forall_true|].
  by apply (count_none (ABORTED "")); [apply Forall_true|].
Qed.

Ltac by_statuses :=
  let st := fresh "st" in let Ha := fresh in let Hs := fresh in
  intros st Ha; try intros Hs; destruct st; simpl in *; try done; try (by destruct Hs).

Lemma R0_Proceed_inv o o' :
  counters_inv o.1 → state_kind_ o.1 = R0_ADVERTISE_KEYS →
  R0_ProceedToNextRound o = Ok o' →
  counters_inv o'.1 ∧ same_config (impl_ o.1) (impl_ o'.1) ∧
  length (statuses o'.1) = length (statuses o.1).
Proof.
  intros Hs Hk H. unfold R0_ProceedToNextRound in H.
  destruct (needs_to_abort_ o.1).
  { simplify_eq. split; [by apply abort_round_inv|done]. }
  apply bind_ok in H as (o1 & H1 & H). destruct (abort_loop _ _ _ _ _ Hs H1) as [Hf Hset].
  apply bind_ok in H as (im & Him & H). apply bind_ok in H as (id & _ & H).
  apply bind_ok in H as (o2 & H2 & [= <-]). simpl.
  apply send_loop in H2; [|apply R0_send_request_state]. simpl in H2.
  destruct Hf as [Hs1 Hr Hlen Hc Hn _]. rewrite Hk in Hr. simpl in Hr.
  pose proof (SetSessionId_frame _ _ Him) as Hfr.
  pose proof (counters_inv_frame _ _ Hfr Hs1) as Hs2. rewrite <- H2 in Hs2.
  assert (state_kind_ o2.1 = R0_ADVERTISE_KEYS ∧ statuses o2.1 = statuses o1.1) as [Hk2 Hst2].
  { rewrite H2. unfold statuses. simpl. rewrite (fr_statuses _ _ Hfr). by destruct (state_kind_ o1.1). }
  assert (counters_inv (set_impl (ClearPairsOfPublicKeys (impl_ o2.1)) o2.1)) as Hs3
    by (by apply counters_inv_frame).
  assert (Forall (λ st, allowed R1_SHARE_KEYS st = true) (statuses o1.1)) as Hall.
  { rewrite <- Hst2 in *. eapply settled_allowed; [done|exact Hk2|done|by_statuses]. }
  assert (count (ready R1_SHARE_KEYS) (statuses o1.1) = 0) as Hz.
  { rewrite <- Hst2 in *. apply (count_none R0_ADVERTISE_KEYS); [|by_statuses].
    rewrite <- Hk2. apply Hs2. }
  rewrite <- Hst2 in *.
  split; [apply new_round_inv; try done; unfold messages_ok, statuses in *; simpl; lia|].
  split; [|done].
  etrans; [done|]. etrans; [by apply frame_config|]. by rewrite H2.
Qed.

Lemma R1_send_request_step i o1 o2 :
  counters_inv o1.1 → R1_send_request i o1 = Ok o2 →
  round_frame o1.1 o2.1 ∧
  (∀ st, statuses o2.1 !! Z.to_nat i = Some st → settled SHARE_KEYS_RECEIVED st) ∧
  (∀ j, j ≠ Z.to_nat i → statuses o2.1 !! j = statuses o1.1 !! j).
Proof.
  intros Hs H. unfold R1_send_request in H. apply bind_ok in H as (dead & Hd & H).
  apply bind_ok in H as (st & Hst & H).
  assert (abort_unless SHARE_KEYS_RECEIVED
    "Client did not send ShareKeysResponse before round transition." NO_SHARE_KEYS i o1 = Ok o2 ∨
    (∃ events, o2 = (o1.1, events) ∧ abort_unless SHARE_KEYS_RECEIVED
       "Client did not send ShareKeysResponse before round transition." NO_SHARE_KEYS i o1 = Ok o1))
    as [Hab|(ev & -> & Hab)].
  { unfold abort_unless. rewrite Hd, Hst. cbn [mbind Res_bind].
    destruct (negb dead && _); [by left|]. right. case_bool_decide.
    - apply bind_ok in H as (shares & _ & [= <-]). by eexists.
    - injection H as <-. exists o1.2. by destruct o1. }
  - by eapply abort_unless_step.
  - simpl. by eapply abort_unless_step.
Qed.

Lemma R1_Proceed_inv o o' :
  counters_inv o.1 → state_kind_ o.1 = R1_SHARE_KEYS →
  R1_ProceedToNextRound o = Ok o' →
  counters_inv o'.1 ∧ same_config (impl_ o.1) (impl_ o'.1) ∧
  length (statuses o'.1) = length (statuses o.1).
Proof.
  intros Hs Hk H. unfold R1_ProceedToNextRound in H.
  destruct (needs_to_abort_ o.1).
  { simplify_eq. split; [by apply abort_round_inv|done]. }
  apply bind_ok in H as (o1 & H1 & [= <-]).
  destruct (for_each_settles (settled SHARE_KEYS_RECEIVED) _ _ _ Hs
    (λ i a b Ha _, R1_send_request_step i a b Ha) H1) as [[Hs1 Hr Hlen Hc Hn _] Hset].
  rewrite Hk in Hr. assert (state_kind_ o1.1 = R1_SHARE_KEYS) as Hk1 by (by destruct (state_kind_ o1.1)).
  set (im := SetupMaskedInputCollection _).
  assert (frame (impl_ o1.1) im) as Hfr.
  { subst im. unfold SetupMaskedInputCollection. by case_match. }
  pose proof (counters_inv_frame _ _ Hfr Hs1) as Hs2.
  assert (statuses (set_impl im o1.1) = statuses o1.1) as Hst by apply (fr_statuses _ _ Hfr).
  split.
  - apply new_round_inv; [done|..].
    + rewrite Hst. eapply settled_allowed; [done|exact Hk1|done|by_statuses].
    + rewrite Hst. apply (count_none R1_SHARE_KEYS); [|by_statuses]. rewrite <- Hk1. apply Hs1.
    + unfold messages_ok. simpl. symmetry.
      change (count sent_masked_input (statuses (set_impl im o1.1)) = 0). rewrite Hst.
      apply (count_none R1_SHARE_KEYS); [|by_statuses]. rewrite <- Hk1. apply Hs1.
    + split; [apply NoDup_nil_2|]. intros i. split; [by intros ?%not_elem_of_nil|].
      intros [_ Hi]. change (statuses (set_impl im o1.1) !! Z.to_nat i =
        Some DEAD_AFTER_SHARE_KEYS_RECEIVED) in Hi. rewrite Hst in Hi.
      pose proof (Forall_lookup_1 _ _ _ _ (ci_allowed _ Hs1) Hi) as Ha. by rewrite Hk1 in Ha.
  - split; [etrans; [done|by apply frame_config]|]. simpl.
    change (length (statuses (set_impl im o1.1)) = length (statuses o.1)). by rewrite Hst.
Qed.

(** ** Background work *)

Lemma prng_kind_inv a b c a' b' c' s :
  state_kind_ s = PRNG_RUNNING a b c → counters_inv s →
  counters_inv (set_kind (PRNG_RUNNING a' b' c') s).
Proof. destruct s; simpl. intros -> []. by split. Qed.

Definition counters (s : ServerState) : list Z :=
  [number_of_clients_failed_after_sending_masked_input_ s;
   number_of_clients_failed_before_sending_masked_input_ s;
   number_of_clients_ready_for_next_round_ s; number_of_clients_terminated_without_unmasking_ s;
   number_of_messages_received_in_this_round_ s].

(** Steps that change neither a status nor a counter. *)
Record quiet (s s' : ServerState) : Prop := {
  qu_counters : counters s' = counters s;
  qu_inv : counters_inv s → counters_inv s';
  qu_frame : frame (impl_ s) (impl_ s');
  qu_kind : match state_kind_ s, state_kind_ s' with
            | PRNG_RUNNING _ _ _, PRNG_RUNNING _ _ _ => True
            | k, k' => k = k'
            end
}.

Lemma quiet_refl s : quiet s s.
Proof. split; try done. by destruct (state_kind_ s). Qed.

Lemma quiet_trans s1 s2 s3 : quiet s1 s2 → quiet s2 s3 → quiet s1 s3.
Proof.
  intros [? ? ? Hk1] [? ? ? Hk2]. split; [congruence|by auto|by etrans|].
  destruct (state_kind_ s1) eqn:E1, (state_kind_ s2) eqn:E2; simplify_eq;
    destruct (state_kind_ s3) eqn:E3; simplify_eq; done.
Qed.

Lemma quiet_impl s im : frame (impl_ s) im → quiet s (set_impl im s).
Proof.
  intros Hf. split; [done|by apply counters_inv_frame|done|]. simpl. by destruct (state_kind_ s).
Qed.

Lemma quiet_prng a b c a' b' c' s :
  state_kind_ s = PRNG_RUNNING a b c → quiet s (set_kind (PRNG_RUNNING a' b' c') s).
Proof.
  intros Hk. split; [done|by eapply prng_kind_inv|done|]. simpl. by rewrite Hk.
Qed.

Lemma run_callback_quiet callback o o' : run_callback callback o = Ok o' → quiet o.1 o'.1.
Proof.
  unfold run_callback. destruct callback as [[|]|];
    [intros [= <-]; apply quiet_refl| |intros [= <-]; apply quiet_refl].
  destruct (state_kind_ o.1) as [| | | |c [a|] d| |] eqn:Hk;
    try (intros [= <-]; apply quiet_refl).
  intros ([a' im] & H & [= <-])%bind_ok. apply PrngObserver_frame in H. unfold PrngRunnerFinished.
  simpl. apply (quiet_trans _ (set_impl im (set_kind (PRNG_RUNNING c (Some a') d) o.1))).
  - eapply quiet_trans; [by eapply quiet_prng|]. by apply quiet_impl.
  - destruct d; simpl; by eapply quiet_prng.
Qed.

Lemma update_masked_quiet masked queue acc result s :
  quiet s (set_impl (update_masked masked queue acc result (impl_ s)) s).
Proof. by apply quiet_impl. Qed.

Lemma RunTask_quiet action o o' : RunTask action o = Ok o' → quiet o.1 o'.1.
Proof.
  unfold RunTask. destruct (state_kind_ o.1) as [| |ab| |c [a|] d| |] eqn:Hk;
    try (intros [= <-]; apply quiet_refl).
  - destruct (masked_input_accumulator_ (impl_ o.1)); [|intros [= <-]; apply quiet_refl].
    intros ([[a' q] cb] & _ & H)%bind_ok. apply run_callback_quiet in H.
    eapply quiet_trans; [|done]. apply update_masked_quiet.
  - intros ([[a' q] cb] & _ & H)%bind_ok. apply run_callback_quiet in H.
    eapply quiet_trans; [|done]. by eapply quiet_prng.
Qed.

Lemma HandleAbort_quiet o o' : HandleAbort o = Ok o' → quiet o.1 o'.1.
Proof.
  unfold HandleAbort. destruct (state_kind_ o.1) as [| |ab| |c [a|] d| |] eqn:Hk;
    try (intros [= <-]; apply quiet_refl).
  - destruct (masked_input_accumulator_ (impl_ o.1)); [|intros [= <-]; apply quiet_refl].
    intros ([[a' q] cb] & _ & H)%bind_ok. apply run_callback_quiet in H.
    eapply quiet_trans; [|done]. apply update_masked_quiet.
  - intros ([[a' q] cb] & _ & H)%bind_ok. apply run_callback_quiet in H.
    eapply quiet_trans; [|done]. by eapply quiet_prng.
Qed.

Lemma SetAsyncCallback_quiet o : quiet o.1 (SetAsyncCallback o).2.1.
Proof.
  unfold SetAsyncCallback. destruct (state_kind_ o.1) as [| |ab| |[c|] a d| |] eqn:Hk;
    try apply quiet_refl.
  - destruct (masked_input_accumulator_ (impl_ o.1)); [|apply quiet_refl].
    destruct (SetAsyncObserver _ _). apply update_masked_quiet.
  - by eapply quiet_prng.
Qed.

Lemma AbortState_inv reason s : counters_inv s → counters_inv (AbortState reason s).
Proof.
  intros Hs. apply new_round_inv; try done; [by apply Forall_true|].
  by apply (count_none (ABORTED "")); [apply Forall_true|].
Qed.

Lemma R2_Proceed_inv aborted o o' :
  counters_inv o.1 → state_kind_ o.1 = R2_MASKED_INPUT_COLLECTION aborted →
  R2_ProceedToNextRound o = Ok o' →
  counters_inv o'.1 ∧ same_config (impl_ o.1) (impl_ o'.1) ∧
  length (statuses o'.1) = length (statuses o.1).
Proof.
  intros Hs Hk H. unfold R2_ProceedToNextRound in H.
  destruct (needs_to_abort_ o.1).
  { apply bind_ok in H as (o1 & H1 & [= <-]). apply HandleAbort_quiet in H1. simpl in H1.
    destruct H1 as [_ Hi Hf _]. split; [by apply AbortState_inv, Hi|].
    split; [by apply frame_config|]. unfold statuses. simpl. by rewrite (fr_statuses _ _ Hf). }
  apply bind_ok in H as (o1 & H1 & H). destruct (abort_loop _ _ _ _ _ Hs H1) as [Hf Hset].
  apply bind_ok in H as (o2 & H2 & H). apply send_loop in H2; [|apply R2_send_request_state].
  apply bind_ok in H as (im & Him & [= <-]). rewrite H2 in *.
  destruct Hf as [Hs1 Hr Hlen Hc Hn _]. rewrite Hk in Hr.
  destruct (state_kind_ o1.1) as [| |aborted'| | | |] eqn:Hk1; try done.
  assert (frame (impl_ o1.1) (SetUpShamirSharesTables im)) as Hfr.
  { etrans; [by eapply FinalizeMaskedInputCollection_frame|done]. }
  pose proof (counters_inv_frame _ _ Hfr Hs1) as Hs2.
  assert (statuses (set_impl (SetUpShamirSharesTables im) o1.1) = statuses o1.1) as Hst
    by apply (fr_statuses _ _ Hfr).
  assert (count sent_unmasking (statuses o1.1) = 0) as Hz.
  { apply (count_none (R2_MASKED_INPUT_COLLECTION aborted')); [|by_statuses]. rewrite <- Hk1. apply Hs1. }
  split.
  - apply new_round_inv; [done|..]; rewrite ?Hst; try done.
    + eapply settled_allowed; [done|exact Hk1|done|by_statuses].
    + unfold messages_ok. simpl. symmetry.
      change (count sent_unmasking (statuses (set_impl (SetUpShamirSharesTables im) o1.1)) = 0).
      by rewrite Hst.
  - split; [etrans; [done|by apply frame_config]|].
    change (length (statuses (set_impl (SetUpShamirSharesTables im) o1.1)) = length (statuses o.1)).
    by rewrite Hst.
Qed.

Lemma R3_terminate_step i o1 o2 :
  counters_inv o1.1 → R3_terminate i o1 = Ok o2 →
  round_frame o1.1 o2.1 ∧
  (∀ st, statuses o2.1 !! Z.to_nat i = Some st → settled UNMASKING_RESPONSE_RECEIVED st) ∧
  (∀ j, j ≠ Z.to_nat i → statuses o2.1 !! j = statuses o1.1 !! j).
Proof.
  intros Hs H. unfold R3_terminate in H. apply bind_ok in H as (st & Hst & H).
  case_bool_decide as Heq; simpl in H.
  - simplify_eq. split; [by apply round_frame_refl|]. split; [|done].
    apply at_ok in Hst as [_ Hst]. unfold statuses. rewrite Hst. intros st [= <-]. by right.
  - pose proof (AbortClientInState_inv _ _ _ _ _ _ Hs H).
    pose proof (AbortClientInState_shape _ _ _ _ _ _ Hs H) as Hsh.
    destruct (abort_settles _ _ _ Hsh) as [Hi Hj]. split; [by eapply abort_frame|].
    split; [|done]. intros. left. by apply Hi.
Qed.

Lemma EnterPrngRunning_quiet a b c s s' :
  state_kind_ s = PRNG_RUNNING a b c → EnterPrngRunning fuel s = Ok s' → quiet s s'.
Proof.
  intros Hk H. unfold EnterPrngRunning in H. destruct (Initialize (impl_ s)); [| |done].
  - apply bind_ok in H as ([token im] & H & [= <-]). apply StartPrng_frame in H.
    eapply quiet_trans; [by eapply quiet_prng|]. by apply quiet_impl.
  - injection H as <-. by eapply quiet_prng.
Qed.

Lemma R3_Proceed_inv o o' :
  counters_inv o.1 → state_kind_ o.1 = R3_UNMASKING →
  R3_ProceedToNextRound fuel o = Ok o' →
  counters_inv o'.1 ∧ same_config (impl_ o.1) (impl_ o'.1) ∧
  length (statuses o'.1) = length (statuses o.1).
Proof.
  intros Hs Hk H. unfold R3_ProceedToNextRound in H.
  destruct (needs_to_abort_ o.1).
  { simplify_eq. split; [by apply abort_round_inv|done]. }
  apply bind_ok in H as (o1 & H1 & H).
  destruct (for_each_settles (settled UNMASKING_RESPONSE_RECEIVED) _ _ _ Hs
    (λ i a b Ha _, R3_terminate_step i a b Ha) H1) as [[Hs1 Hr Hlen Hc Hn _] Hset].
  rewrite Hk in Hr. assert (state_kind_ o1.1 = R3_UNMASKING) as Hk1 by (by destruct (state_kind_ o1.1)).
  apply bind_ok in H as (s2 & H2 & [= <-]). eapply EnterPrngRunning_quiet in H2; [|done].
  destruct H2 as [_ Hi Hf _]. simpl in *. split.
  - apply Hi. apply new_round_inv; try done.
    + eapply settled_allowed; [done|exact Hk1|done|by_statuses].
    + by apply (count_none R3_UNMASKING); [rewrite <- Hk1; apply Hs1|].
  - split; [etrans; [done|by apply frame_config]|]. unfold statuses. rewrite (fr_statuses _ _ Hf).
    apply Hlen.
Qed.

Lemma ProceedInState_inv o o' :
  counters_inv o.1 → ProceedInState fuel o = Ok o' →
  counters_inv o'.1 ∧ same_config (impl_ o.1) (impl_ o'.1) ∧
  length (statuses o'.1) = length (statuses o.1).
Proof.
  intros Hs H. unfold ProceedInState in H. destruct (state_kind_ o.1) as [| |ab| |[c|] t d| |] eqn:Hk;
    repeat case_match; try done;
    eauto using R0_Proceed_inv, R1_Proceed_inv, R2_Proceed_inv, R3_Proceed_inv.
  injection H as <-. unfold PrngRunning_ProceedToNextRound. destruct c; simpl.
  - split; [|done]. pose proof (ci_allowed _ Hs) as Hall. rewrite Hk in Hall.
    apply new_round_inv; try done. by apply (count_none (ABORTED "")); [apply Forall_true|].
  - split; [by apply AbortState_inv|done].
Qed.

(** ** Sessions *)

Definition session_frame (s s' : ServerState) : Prop :=
  same_config (impl_ s) (impl_ s') ∧ length (statuses s') = length (statuses s).

Lemma quiet_session s s' : quiet s s' → session_frame s s'.
Proof.
  intros [_ _ Hf _]. split; [by apply frame_config|]. unfold statuses. by rewrite (fr_statuses _ _ Hf).
Qed.

Lemma abort_session client_id s s' : abort_shape client_id s s' → session_frame s s'.
Proof. intros [_ (st & _ & Hst) Hc _ _]. split; [done|]. by rewrite Hst, length_insert. Qed.

(** What a message can do: abort its client, or be accepted. *)
Lemma handle_round_cases {A} expected received abort_reason unexpected unexpected_code invalid_code
    (payload : ClientToServer → option A) accept client_id message o o' :
  handle_round expected received abort_reason unexpected unexpected_code invalid_code payload accept
    client_id message o = Ok o' →
  (∃ reason code notify, AbortClientInState client_id reason code notify o = Ok o') ∨
  (∃ a im, payload message = Some a ∧ accept a (impl_ o.1) = Ok im ∧ 0 ≤ client_id ∧
     statuses o.1 !! Z.to_nat client_id = Some expected ∧
     o' = (add_counts 0 0 1 0 1 (set_status client_id received (set_impl im o.1)), o.2)).
Proof.
  intros H. unfold handle_round in H.
  destruct message as [d| | | | |]; [by eauto|..];
    (apply bind_ok in H as (st & Hst & H); case_bool_decide as Heq; simpl in H; [|by eauto];
     destruct (payload _) as [a|] eqn:Hp; [|by eauto];
     destruct (accept a _) as [im| |] eqn:Ha; [|by eauto|done]; injection H as <-;
     apply at_ok in Hst as [Hid Hst]; subst st; right; by exists a, im).
Qed.

Lemma accepted_session client_id received im s :
  frame (impl_ s) im →
  session_frame s (add_counts 0 0 1 0 1 (set_status client_id received (set_impl im s))).
Proof.
  intros [Hg Hm Hsp Ha Hst]. split; [by split|]. unfold statuses. simpl. by rewrite length_insert, Hst.
Qed.

Lemma HandleMessage_session client_id message o o' :
  counters_inv o.1 → HandleMessage client_id message o = Ok o' → session_frame o.1 o'.1.
Proof.
  intros Hs H. unfold HandleMessage in H.
  destruct (state_kind_ o.1) eqn:Hk; [| | | | |done|done];
    [apply handle_round_cases in H as [(r & c & n & H)|(a & im & _ & Ha & _ & _ & ->)];
       [by eapply abort_session, AbortClientInState_shape|apply accepted_session] ..|].
  - by eapply HandleAdvertiseKeys_frame.
  - by eapply HandleShareKeysResponse_frame.
  - by eapply HandleMaskedInputCollectionResponse_frame.
  - by eapply HandleUnmaskingResponse_frame.
  - unfold PrngRunning_HandleMessage in H.
    destruct message; by eapply abort_session, AbortClientInState_shape.
Qed.

Lemma ErrorIfAbortedOrCompleted_ok {A} s (k : Res A) a :
  ErrorIfAbortedOrCompleted s k = Ok a →
  IsAborted s = false ∧ IsCompletedSuccessfully s = false ∧ k = Ok a.
Proof.
  unfold ErrorIfAbortedOrCompleted. destruct (IsAborted s), (IsCompletedSuccessfully s); done.
Qed.

Lemma ValidateClientId_ok {A} client_id s (k : Res A) a :
  ValidateClientId client_id s k = Ok a →
  client_id < total_number_of_clients (impl_ s) ∧ k = Ok a.
Proof. unfold ValidateClientId. case_match; [done|]. split; [lia|done]. Qed.

Lemma AbortClient_ok client_id reason s o :
  AbortClient client_id reason s = Ok o →
  ∃ r code notify, AbortClientInState client_id r code notify (s, []) = Ok o.
Proof.
  unfold AbortClient. intros (_ & _ & H)%ErrorIfAbortedOrCompleted_ok.
  apply ValidateClientId_ok in H as [_ H]. destruct reason; by eauto.
Qed.

Lemma Abort_ok reason s o :
  Abort reason s = Ok o →
  ∃ o1 r, HandleAbort (s, []) = Ok o1 ∧ o = (AbortState r o1.1, o1.2 ++ [Broadcast (SC_abort false r)]).
Proof.
  unfold Abort. intros (_ & _ & H)%ErrorIfAbortedOrCompleted_ok. unfold AbortInState in H.
  apply fcp_check_ok in H as [_ H]. apply bind_ok in H as (o1 & H & [= <-]). by eauto.
Qed.

Lemma Result_ok s r s' :
  Result s = Ok (r, s') →
  state_kind_ s = COMPLETED ∧ result_ (impl_ s) = Some r ∧ s' = set_impl (TakeResult (impl_ s)).2 s.
Proof.
  unfold Result. destruct (state_kind_ s); try done. simpl.
  destruct (result_ (impl_ s)); [|done]. by intros [= <- <-].
Qed.

Lemma run_op_inv s op o :
  counters_inv s → run_op fuel s op = Ok o → counters_inv o.1 ∧ session_frame s o.1.
Proof.
  intros Hs H. destruct op as [c m|c r| |r| |a|]; simpl in H.
  - apply bind_ok in H as ([o1 b] & H & [= <-]). unfold ReceiveMessage in H.
    apply ErrorIfAbortedOrCompleted_ok in H as (_ & _ & H). apply ValidateClientId_ok in H as [_ H].
    apply bind_ok in H as (o2 & H & [= <- _]).
    split; [by apply (HandleMessage_inv _ _ _ _ (Hs : counters_inv (s, []).1) H)
          |by apply (HandleMessage_session _ _ _ _ (Hs : counters_inv (s, []).1) H)].
  - apply AbortClient_ok in H as (r' & code & n & H).
    split; [by apply (AbortClientInState_inv _ _ _ _ _ _ (Hs : counters_inv (s, []).1) H)|].
    by apply (abort_session c), (AbortClientInState_shape _ _ _ _ _ _ (Hs : counters_inv (s, []).1) H).
  - apply ErrorIfAbortedOrCompleted_ok in H as (_ & _ & H).
    destruct (ProceedInState_inv (s, []) _ Hs H) as (? & ? & ?). done.
  - apply Abort_ok in H as (o1 & r' & H%HandleAbort_quiet & ->). simpl.
    split; [apply AbortState_inv; by apply (qu_inv _ _ H)|]. by apply (quiet_session s o1.1).
  - injection H as <-. pose proof (SetAsyncCallback_quiet (s, [])) as Hq.
    split; [by apply (qu_inv _ _ Hq)|by apply quiet_session].
  - apply RunTask_quiet in H. split; [by apply (qu_inv _ _ H)|by apply quiet_session].
  - apply bind_ok in H as ([r s'] & H & [= <-]). apply Result_ok in H as (_ & _ & ->).
    assert (quiet s (set_impl (TakeResult (impl_ s)).2 s)) as Hq by (by apply quiet_impl).
    split; [by apply (qu_inv _ _ Hq)|by apply quiet_session].
Qed.

Lemma new_server_inv graph minimum total specs async :
  counters_inv (new_SecAggServer graph minimum total specs async).
Proof.
  split; unfold_counters; rewrite ?count_replicate by done; try done.
  by apply Forall_replicate.
Qed.

Lemma server_run_inv s ops s' events :
  server_run fuel s ops s' events → counters_inv s → counters_inv s' ∧ session_frame s s'.
Proof.
  induction 1 as [|ops s1 events op s2 events' _ IH Hop|]; intros Hs; [done| |by auto].
  destruct (IH Hs) as [Hs1 [Hc1 Hl1]]. destruct (run_op_inv _ _ _ Hs1 Hop) as [Hs2 [Hc2 Hl2]].
  split; [done|]. split; [by etrans|]. simpl in *. congruence.
Qed.

(** ** Enough clients *)

(** The guarantee behind [minimum_number_of_clients_to_proceed]. *)
Definition threshold_inv (s : ServerState) : Prop :=
  match state_kind_ s with
  | R3_UNMASKING => minimum_number_of_clients_to_proceed s ≤ NumberOfIncludedInputs s
  | PRNG_RUNNING _ _ _ | COMPLETED =>
      minimum_number_of_clients_to_proceed s ≤ NumberOfIncludedInputs s ∧
      minimum_number_of_clients_to_proceed s ≤ NumberOfAliveClients s
  | _ => True
  end.

Lemma partition_R2 aborted s :
  counters_inv s → state_kind_ s = R2_MASKED_INPUT_COLLECTION aborted →
  Forall (settled MASKED_INPUT_RESPONSE_RECEIVED) (statuses s) →
  Z.of_nat (length (statuses s)) =
    count failed_before (statuses s) + count sent_masked_input (statuses s).
Proof.
  intros Hs Hk Hset. rewrite <- (count_all (λ _, true)) by (by apply Forall_true). apply count_add.
  apply Forall_lookup_2. intros i st Hi. pose proof (Forall_lookup_1 _ _ _ _ Hset Hi) as [Hd| ->];
    [|done]. pose proof (Forall_lookup_1 _ _ _ _ (ci_allowed _ Hs) Hi) as Ha. rewrite Hk in Ha.
  by destruct st.
Qed.

Lemma partition_R3 s :
  counters_inv s → state_kind_ s = R3_UNMASKING →
  Forall (settled UNMASKING_RESPONSE_RECEIVED) (statuses s) →
  NumberOfAliveClients s = count sent_unmasking (statuses s).
Proof.
  intros Hs Hk Hset.
  assert (Z.of_nat (length (statuses s)) =
    count (λ st, failed_before st || is_status DEAD_AFTER_MASKED_INPUT_RESPONSE_RECEIVED st)
      (statuses s) + count sent_unmasking (statuses s)) as Hp.
  { rewrite <- (count_all (λ _, true)) by (by apply Forall_true). apply count_add.
    apply Forall_lookup_2. intros i st Hi. pose proof (Forall_lookup_1 _ _ _ _ Hset Hi) as [Hd| ->];
      [|done]. by destruct st. }
  rewrite (count_add failed_before (is_status DEAD_AFTER_MASKED_INPUT_RESPONSE_RECEIVED)) in Hp
    by (apply Forall_true; by intros []).
  pose proof (ci_before _ Hs). pose proof (ci_after _ Hs). unfold NumberOfAliveClients.
  unfold total_number_of_clients. fold (statuses s). lia.
Qed.

Lemma session_same_total s s' :
  session_frame s s' → total_number_of_clients (impl_ s') = total_number_of_clients (impl_ s) ∧
    minimum_number_of_clients_to_proceed s' = minimum_number_of_clients_to_proceed s.
Proof.
  intros [Hc Hl]. unfold total_number_of_clients, minimum_number_of_clients_to_proceed, statuses in *.
  by rewrite Hl, (sc_minimum _ _ Hc).
Qed.

Lemma threshold_quiet s s' : quiet s s' → threshold_inv s → threshold_inv s'.
Proof.
  intros Hq. destruct (session_same_total _ _ (quiet_session _ _ Hq)) as [Ht Hm].
  destruct Hq as [Hc _ _ Hk]. unfold counters in Hc. simplify_eq.
  unfold threshold_inv, NumberOfIncludedInputs, NumberOfAliveClients.
  destruct (state_kind_ s), (state_kind_ s'); simplify_eq; rewrite ?Ht, ?Hm; try done; lia.
Qed.

Lemma threshold_abort client_id s s' :
  abort_shape client_id s s' → threshold_inv s → threshold_inv s'.
Proof.
  intros Hsh. destruct (session_same_total _ _ (abort_session _ _ _ Hsh)) as [Ht Hm].
  destruct Hsh as [Hr _ _ [_ Hn] _]. unfold threshold_inv, NumberOfIncludedInputs.
  destruct (state_kind_ s), (state_kind_ s'); simpl in Hr; simplify_eq; rewrite ?Ht, ?Hm; try done;
    try lia; destruct Hn as [-> ->]; done.
Qed.

Lemma threshold_accepted client_id received im s :
  (match state_kind_ s with PRNG_RUNNING _ _ _ | COMPLETED => False | _ => True end) →
  frame (impl_ s) im → threshold_inv s →
  threshold_inv (add_counts 0 0 1 0 1 (set_status client_id received (set_impl im s))).
Proof.
  intros Hk Hf. destruct (session_same_total _ _ (accepted_session client_id received _ _ Hf)) as [Ht Hm].
  unfold threshold_inv, NumberOfIncludedInputs. rewrite Ht, Hm. simpl.
  destruct (state_kind_ s); try done. lia.
Qed.

Lemma HandleMessage_threshold client_id message o o' :
  counters_inv o.1 → HandleMessage client_id message o = Ok o' →
  threshold_inv o.1 → threshold_inv o'.1.
Proof.
  intros Hs H. unfold HandleMessage in H.
  destruct (state_kind_ o.1) eqn:Hk; [| | | | |done|done];
    [apply handle_round_cases in H as [(r & c & n & H)|(a & im & _ & Ha & _ & _ & ->)];
       [by eapply threshold_abort, AbortClientInState_shape
       |apply threshold_accepted; [by rewrite Hk|]] ..|].
  - by eapply HandleAdvertiseKeys_frame.
  - by eapply HandleShareKeysResponse_frame.
  - by eapply HandleMaskedInputCollectionResponse_frame.
  - by eapply HandleUnmaskingResponse_frame.
  - unfold PrngRunning_HandleMessage in H.
    destruct message; by eapply threshold_abort, AbortClientInState_shape.
Qed.

Lemma R2_Proceed_threshold aborted o o' :
  counters_inv o.1 → state_kind_ o.1 = R2_MASKED_INPUT_COLLECTION aborted →
  ReadyForNextRound o.1 = true → R2_ProceedToNextRound o = Ok o' → threshold_inv o'.1.
Proof.
  intros Hs Hk Hrdy H. pose proof (R2_Proceed_inv _ _ _ Hs Hk H) as (_ & Hcfg & Hlen').
  unfold R2_ProceedToNextRound in H. unfold ReadyForNextRound in Hrdy. rewrite Hk in Hrdy.
  apply andb_true_iff in Hrdy as [_ Hrdy].
  destruct (needs_to_abort_ o.1); [by apply bind_ok in H as (o1 & H1 & [= <-])|].
  rewrite orb_false_r in Hrdy.
  apply bind_ok in H as (o1 & H1 & H). destruct (abort_loop _ _ _ _ _ Hs H1) as [Hf Hset].
  apply bind_ok in H as (o2 & H2 & H). apply send_loop in H2; [|apply R2_send_request_state].
  apply bind_ok in H as (im & Him & [= <-]). rewrite H2 in *.
  destruct Hf as [Hs1 Hr Hlen Hc [Hn _] _]. rewrite Hk in Hr.
  destruct (state_kind_ o1.1) as [| |aborted'| | | |] eqn:Hk1; try done.
  pose proof (partition_R2 _ _ Hs1 Hk1 Hset) as Hp. pose proof (ci_before _ Hs1) as Hb.
  pose proof (ci_messages _ Hs1) as Hm1. pose proof (ci_messages _ Hs) as Hm0.
  pose proof (ci_ready _ Hs) as Hrd. unfold messages_ok in *. rewrite Hk, Hk1 in *.
  assert (count (ready (R2_MASKED_INPUT_COLLECTION aborted)) (statuses o.1) ≤
          count sent_masked_input (statuses o.1)).
  { apply count_le, Forall_true. by intros []. }
  pose proof (sc_minimum _ _ Hcfg) as Hmin. clear Hcfg Hc.
  unfold threshold_inv, NumberOfIncludedInputs, minimum_number_of_clients_to_proceed,
    total_number_of_clients, statuses in *. simpl in *. lia.
Qed.

Lemma R3_Proceed_threshold o o' :
  counters_inv o.1 → state_kind_ o.1 = R3_UNMASKING → threshold_inv o.1 →
  ReadyForNextRound o.1 = true → R3_ProceedToNextRound fuel o = Ok o' → threshold_inv o'.1.
Proof.
  intros Hs Hk Hth Hrdy H. unfold R3_ProceedToNextRound in H. unfold ReadyForNextRound in Hrdy.
  rewrite Hk in Hrdy. destruct (needs_to_abort_ o.1); [by simplify_eq|]. rewrite orb_false_r in Hrdy.
  apply bind_ok in H as (o1 & H1 & H).
  destruct (for_each_settles (settled UNMASKING_RESPONSE_RECEIVED) _ _ _ Hs
    (λ i a b Ha _, R3_terminate_step i a b Ha) H1) as [[Hs1 Hr Hlen Hc Hn _] Hset].
  rewrite Hk in Hr. assert (state_kind_ o1.1 = R3_UNMASKING) as Hk1 by (by destruct (state_kind_ o1.1)).
  destruct (session_same_total o.1 o1.1) as [Ht Hm]; [by split|].
  apply bind_ok in H as (s2 & H2 & [= <-]). eapply EnterPrngRunning_quiet in H2; [|done].
  apply (threshold_quiet _ _ H2). pose proof (partition_R3 _ Hs1 Hk1 Hset) as Hp.
  pose proof (ci_messages _ Hs1) as Hm1. unfold messages_ok in Hm1. rewrite Hk1 in Hm1.
  destruct Hn as [Hn1 Hn2]. rewrite Hk in Hn2. unfold threshold_inv in *. rewrite Hk in Hth.
  change (minimum_number_of_clients_to_proceed o1.1 ≤
            total_number_of_clients (impl_ o1.1) -
            number_of_clients_failed_before_sending_masked_input_ o1.1 ∧
          minimum_number_of_clients_to_proceed o1.1 ≤ NumberOfAliveClients o1.1).
  unfold NumberOfIncludedInputs in Hth. rewrite Hk in Hth. rewrite Hm, Ht, Hn2. lia.
Qed.

Lemma ProceedInState_threshold o o' :
  counters_inv o.1 → threshold_inv o.1 → ProceedInState fuel o = Ok o' → threshold_inv o'.1.
Proof.
  intros Hs Hth H. unfold ProceedInState in H.
  destruct (state_kind_ o.1) as [| |ab| |[c|] t d| |] eqn:Hk; try done.
  - destruct (ReadyForNextRound o.1); [|done]. unfold R0_ProceedToNextRound in H.
    destruct (needs_to_abort_ o.1); [by simplify_eq|]. apply bind_ok in H as (o1 & _ & H).
    apply bind_ok in H as (im & _ & H). apply bind_ok in H as (id & _ & H).
    by apply bind_ok in H as (o2 & _ & [= <-]).
  - destruct (ReadyForNextRound o.1); [|done]. unfold R1_ProceedToNextRound in H.
    destruct (needs_to_abort_ o.1); [by simplify_eq|]. by apply bind_ok in H as (o1 & _ & [= <-]).
  - destruct (ReadyForNextRound o.1) eqn:Hr; [|done]. by eapply R2_Proceed_threshold.
  - destruct (ReadyForNextRound o.1) eqn:Hr; [|done]. by eapply R3_Proceed_threshold.
  - injection H as <-. unfold PrngRunning_ProceedToNextRound. destruct c; [|done].
    unfold threshold_inv, NumberOfIncludedInputs in *. simpl. by rewrite Hk in Hth.
Qed.

Lemma run_op_threshold s op o :
  counters_inv s → threshold_inv s → run_op fuel s op = Ok o → threshold_inv o.1.
Proof.
  intros Hs Hth H. destruct op as [c m|c r| |r| |a|]; simpl in H.
  - apply bind_ok in H as ([o1 b] & H & [= <-]). unfold ReceiveMessage in H.
    apply ErrorIfAbortedOrCompleted_ok in H as (_ & _ & H). apply ValidateClientId_ok in H as [_ H].
    apply bind_ok in H as (o2 & H & [= <- _]).
    by apply (HandleMessage_threshold _ _ _ _ (Hs : counters_inv (s, []).1) H).
  - apply AbortClient_ok in H as (r' & code & n & H).
    by apply (threshold_abort _ _ _ (AbortClientInState_shape _ _ _ _ _ _ (Hs : counters_inv (s, []).1) H)).
  - apply ErrorIfAbortedOrCompleted_ok in H as (_ & _ & H).
    by apply (ProceedInState_threshold (s, [])).
  - by apply Abort_ok in H as (o1 & r' & H%HandleAbort_quiet & ->).
  - injection H as <-. by apply (threshold_quiet _ _ (SetAsyncCallback_quiet (s, []))).
  - by apply (threshold_quiet _ _ (RunTask_quiet _ _ _ H)).
  - apply bind_ok in H as ([r s'] & H & [= <-]). apply Result_ok in H as (_ & _ & ->).
    by apply (threshold_quiet s); [apply quiet_impl|].
Qed.

Lemma server_run_threshold s ops s' events :
  server_run fuel s ops s' events → counters_inv s → threshold_inv s → threshold_inv s'.
Proof.
  induction 1 as [|ops s1 events op s2 events' Hrun IH Hop|]; intros Hs Hth; [done| |by auto].
  apply (run_op_threshold s1 op (s2, events')); [|by apply IH|done]. by eapply server_run_inv.
Qed.

(** ** The inputs of the sum *)

Definition included_same (s s' : ServerState) : Prop :=
  IsNumberOfIncludedInputsCommitted s = true → IsAborted s' = false →
  IsNumberOfIncludedInputsCommitted s' = true ∧ NumberOfIncludedInputs s' = NumberOfIncludedInputs s.

Lemma included_quiet s s' : quiet s s' → included_same s s'.
Proof.
  intros Hq. destruct (session_same_total _ _ (quiet_session _ _ Hq)) as [Ht _].
  destruct Hq as [Hc _ _ Hk]. unfold counters in Hc. injection Hc as _ Hb _ _ _.
  unfold included_same, IsNumberOfIncludedInputsCommitted, NumberOfIncludedInputs, IsAborted.
  destruct (state_kind_ s), (state_kind_ s'); try done; simplify_eq; intros _ _; by rewrite Ht, Hb.
Qed.

Lemma included_abort client_id s s' : abort_shape client_id s s' → included_same s s'.
Proof.
  intros Hsh. destruct (session_same_total _ _ (abort_session _ _ _ Hsh)) as [Ht _].
  destruct Hsh as [Hr _ _ [_ Hn] _].
  unfold included_same, IsNumberOfIncludedInputsCommitted, NumberOfIncludedInputs, IsAborted.
  destruct (state_kind_ s), (state_kind_ s'); try done; intros _ _; rewrite Ht;
    first [by rewrite Hn|by destruct Hn as [-> _]].
Qed.

Lemma HandleMessage_included client_id message o o' :
  counters_inv o.1 → HandleMessage client_id message o = Ok o' → included_same o.1 o'.1.
Proof.
  intros Hs H. unfold HandleMessage in H.
  destruct (state_kind_ o.1) eqn:Hk; [| | | | |done|done];
    try (by unfold included_same, IsNumberOfIncludedInputsCommitted; rewrite Hk).
  - apply handle_round_cases in H as [(r & c & n & H)|(a & im & _ & Ha & _ & _ & ->)];
      [by eapply included_abort, AbortClientInState_shape|].
    apply HandleUnmaskingResponse_frame in Ha.
    destruct (session_same_total _ _ (accepted_session client_id UNMASKING_RESPONSE_RECEIVED _ _ Ha))
      as [Ht _].
    unfold included_same, IsNumberOfIncludedInputsCommitted, NumberOfIncludedInputs. simpl fst.
    rewrite Ht. simpl. rewrite Hk. intros _ _. split; [done|lia].
  - unfold PrngRunning_HandleMessage in H.
    destruct message; by eapply included_abort, AbortClientInState_shape.
Qed.

Lemma ProceedInState_included o o' :
  counters_inv o.1 → ProceedInState fuel o = Ok o' → included_same o.1 o'.1.
Proof.
  intros Hs H. unfold ProceedInState in H.
  destruct (state_kind_ o.1) as [| |ab| |[c|] t d| |] eqn:Hk; try done;
    try (by unfold included_same, IsNumberOfIncludedInputsCommitted; rewrite Hk).
  - destruct (ReadyForNextRound o.1); [|done]. unfold R3_ProceedToNextRound in H.
    destruct (needs_to_abort_ o.1); [simplify_eq; by intros _ ?|].
    apply bind_ok in H as (o1 & H1 & H).
    destruct (for_each_settles (settled UNMASKING_RESPONSE_RECEIVED) _ _ _ Hs
      (λ i a b Ha _, R3_terminate_step i a b Ha) H1) as [[Hs1 Hr Hlen Hc [_ Hn] _] _].
    destruct (session_same_total o.1 o1.1) as [Ht _]; [by split|]. rewrite Hk in Hn.
    apply bind_ok in H as (s2 & H2 & [= <-]). eapply EnterPrngRunning_quiet in H2; [|done].
    intros _ Hna. destruct (included_quiet _ _ H2 eq_refl Hna) as [Hcm Heq].
    split; [done|]. simpl. rewrite Heq. unfold NumberOfIncludedInputs. rewrite Hk. simpl. by rewrite Ht, Hn.
  - injection H as <-. unfold PrngRunning_ProceedToNextRound. destruct c; [|by intros _ ?].
    unfold included_same, NumberOfIncludedInputs. simpl. by rewrite Hk.
Qed.

Lemma run_op_included s op o : counters_inv s → run_op fuel s op = Ok o → included_same s o.1.
Proof.
  intros Hs H. destruct op as [c m|c r| |r| |a|]; simpl in H.
  - apply bind_ok in H as ([o1 b] & H & [= <-]). unfold ReceiveMessage in H.
    apply ErrorIfAbortedOrCompleted_ok in H as (_ & _ & H). apply ValidateClientId_ok in H as [_ H].
    apply bind_ok in H as (o2 & H & [= <- _]).
    by apply (HandleMessage_included _ _ _ _ (Hs : counters_inv (s, []).1) H).
  - apply AbortClient_ok in H as (r' & code & n & H).
    by apply (included_abort _ _ _ (AbortClientInState_shape _ _ _ _ _ _ (Hs : counters_inv (s, []).1) H)).
  - apply ErrorIfAbortedOrCompleted_ok in H as (_ & _ & H).
    by apply (ProceedInState_included (s, [])).
  - apply Abort_ok in H as (o1 & r' & _ & ->). by intros _ ?.
  - injection H as <-. by apply (included_quiet _ _ (SetAsyncCallback_quiet (s, []))).
  - by apply (included_quiet _ _ (RunTask_quiet _ _ _ H)).
  - apply bind_ok in H as ([r s'] & H & [= <-]). apply Result_ok in H as (_ & _ & ->).
    by apply (included_quiet s), quiet_impl.
Qed.

(** ** Statements *)

(** The clients whose message of the round is still awaited. *)
Definition pending (kind : StateKind) : ClientStatus → bool :=
  match kind with
  | R0_ADVERTISE_KEYS => is_status READY_TO_START
  | R1_SHARE_KEYS => is_status ADVERTISE_KEYS_RECEIVED
  | R2_MASKED_INPUT_COLLECTION _ => is_status SHARE_KEYS_RECEIVED
  | R3_UNMASKING => is_status MASKED_INPUT_RESPONSE_RECEIVED
  | _ => λ _, false
  end.

Lemma count_partition4 p q r t l :
  Forall (λ s, 1 = Z.b2z (p s) + Z.b2z (q s) + Z.b2z (r s) + Z.b2z (t s)) l →
  Z.of_nat (length l) = count p l + count q l + count r l + count t l.
Proof. induction 1; rewrite ?count_cons; simpl length; [done|]. lia. Qed.

Lemma partition_all s :
  counters_inv s →
  match state_kind_ s with
  | R0_ADVERTISE_KEYS | R1_SHARE_KEYS | R2_MASKED_INPUT_COLLECTION _ | R3_UNMASKING => True
  | _ => False
  end →
  Z.of_nat (length (statuses s)) =
    count failed_before (statuses s) +
    count (is_status DEAD_AFTER_MASKED_INPUT_RESPONSE_RECEIVED) (statuses s) +
    count (ready (state_kind_ s)) (statuses s) + count (pending (state_kind_ s)) (statuses s).
Proof.
  intros Hs Hk. apply count_partition4. apply Forall_lookup_2. intros i st Hi.
  pose proof (Forall_lookup_1 _ _ _ _ (ci_allowed _ Hs) Hi) as Ha.
  destruct (state_kind_ s); try done; by destruct st.
Qed.

Lemma pending_count s : counters_inv s →
  NumberOfPendingClients s = count (pending (state_kind_ s)) (statuses s).
Proof.
  intros Hs. pose proof (ci_before _ Hs). pose proof (ci_after _ Hs). pose proof (ci_ready _ Hs).
  pose proof (partition_all s Hs) as Hp.
  unfold NumberOfPendingClients, NumberOfAliveClients, total_number_of_clients.
  fold (statuses s). destruct (state_kind_ s) eqn:Hk; try (specialize (Hp I); lia);
    (symmetry; apply (count_none (ABORTED "")); [by apply Forall_true|done]).
Qed.

Lemma alive_count s : counters_inv s →
  match state_kind_ s with
  | R0_ADVERTISE_KEYS | R1_SHARE_KEYS | R2_MASKED_INPUT_COLLECTION _ => True | _ => False end →
  NumberOfAliveClients s = count (λ st, negb (is_dead st)) (statuses s).
Proof.
  intros Hs Hk. pose proof (ci_before _ Hs). pose proof (ci_after _ Hs).
  assert (Z.of_nat (length (statuses s)) = count failed_before (statuses s) +
    count (is_status DEAD_AFTER_MASKED_INPUT_RESPONSE_RECEIVED) (statuses s) +
    count (λ st, negb (is_dead st)) (statuses s) + count (λ _, false) (statuses s)) as Hp.
  { apply count_partition4, Forall_lookup_2. intros i st Hi.
    pose proof (Forall_lookup_1 _ _ _ _ (ci_allowed _ Hs) Hi) as Ha.
    destruct (state_kind_ s); try done; by destruct st. }
  rewrite (count_none (ABORTED "") (λ _, false)) in Hp by (done || by apply Forall_true).
  unfold NumberOfAliveClients, total_number_of_clients. fold (statuses s). lia.
Qed.

Lemma unmasked_count s : counters_inv s →
  match state_kind_ s with PRNG_RUNNING _ _ _ | COMPLETED => True | _ => False end →
  NumberOfAliveClients s = count sent_unmasking (statuses s).
Proof.
  intros Hs Hk. pose proof (ci_before _ Hs). pose proof (ci_after _ Hs).
  assert (Z.of_nat (length (statuses s)) = count failed_before (statuses s) +
    count (is_status DEAD_AFTER_MASKED_INPUT_RESPONSE_RECEIVED) (statuses s) +
    count sent_unmasking (statuses s) + count (λ _, false) (statuses s)) as Hp.
  { apply count_partition4, Forall_lookup_2. intros i st Hi.
    pose proof (Forall_lookup_1 _ _ _ _ (ci_allowed _ Hs) Hi) as Ha.
    destruct (state_kind_ s); try done; by destruct st. }
  rewrite (count_none (ABORTED "") (λ _, false)) in Hp by (done || by apply Forall_true).
  unfold NumberOfAliveClients, total_number_of_clients. fold (statuses s). lia.
Qed.

Lemma included_count s : counters_inv s →
  match state_kind_ s with
  | R2_MASKED_INPUT_COLLECTION _ | R3_UNMASKING | PRNG_RUNNING _ _ _ | COMPLETED => True
  | _ => False end →
  NumberOfIncludedInputs s = count sent_masked_input (statuses s).
Proof.
  intros Hs Hk. pose proof (ci_before _ Hs) as Hb. pose proof (ci_messages _ Hs) as Hm.
  unfold NumberOfIncludedInputs, messages_ok, total_number_of_clients in *. fold (statuses s).
  pose proof (ci_allowed _ Hs) as Hall. destruct (state_kind_ s); try done;
    (enough (Z.of_nat (length (statuses s)) =
       count failed_before (statuses s) + count sent_masked_input (statuses s)) by lia;
     rewrite <- (count_all (λ _, true)) by (by apply Forall_true);
     apply count_add; eapply Forall_impl; [exact Hall|]; by intros []).
Qed.

(** C39: what the server reports about its clients is what their statuses say,
    after any sequence of calls, whatever clients send: the pending clients are
    those whose message of the round has neither come nor failed to come, the
    living ones in rounds 0 to 2 those that did not fail, and the included
    inputs those of the clients whose masked input was accepted. *)
Theorem server_counters graph minimum total specs async ops s events :
  server_run fuel (new_SecAggServer graph minimum total specs async) ops s events →
  length (statuses s) = Z.to_nat total ∧
  NumberOfPendingClients s = count (pending (state_kind_ s)) (statuses s) ∧
  match state_kind_ s with
  | R0_ADVERTISE_KEYS | R1_SHARE_KEYS =>
      NumberOfAliveClients s = count (λ st, negb (is_dead st)) (statuses s)
  | R2_MASKED_INPUT_COLLECTION _ =>
      NumberOfAliveClients s = count (λ st, negb (is_dead st)) (statuses s) ∧
      NumberOfIncludedInputs s = count sent_masked_input (statuses s)
  | R3_UNMASKING | PRNG_RUNNING _ _ _ | COMPLETED =>
      NumberOfIncludedInputs s = count sent_masked_input (statuses s)
  | ABORTED _ => NumberOfIncludedInputs s = 0
  end.
Proof.
  intros Hrun. destruct (server_run_inv _ _ _ _ Hrun) as [Hs [_ Hlen]]; [apply new_server_inv|].
  split; [rewrite Hlen; apply length_replicate|]. split; [by apply pending_count|].
  destruct (state_kind_ s) eqn:Hk; try (apply alive_count; [done|by rewrite Hk]);
    try (apply included_count; [done|by rewrite Hk]).
  - split; [apply alive_count|apply included_count]; (done || by rewrite Hk).
  - unfold NumberOfIncludedInputs. by rewrite Hk.
Qed.

(** C33: a session that completes has added at least
    [minimum_number_of_clients_to_proceed] inputs and has heard at least as many
    clients in the unmasking round; the masks are removed only then. *)
Theorem server_enough_clients graph minimum total specs async ops s events :
  server_run fuel (new_SecAggServer graph minimum total specs async) ops s events →
  match state_kind_ s with
  | R3_UNMASKING => minimum ≤ count sent_masked_input (statuses s)
  | PRNG_RUNNING _ _ _ | COMPLETED =>
      minimum ≤ count sent_masked_input (statuses s) ∧ minimum ≤ count sent_unmasking (statuses s)
  | _ => True
  end.
Proof.
  intros Hrun. destruct (server_run_inv _ _ _ _ Hrun) as [Hs [Hc _]]; [apply new_server_inv|].
  assert (threshold_inv s) as Hth by (eapply server_run_threshold; [done|apply new_server_inv|done]).
  pose proof (included_count _ Hs) as Hinc. pose proof (unmasked_count _ Hs) as Hun.
  assert (minimum_number_of_clients_to_proceed s = minimum) as Hmin by apply (sc_minimum _ _ Hc).
  unfold threshold_inv in Hth. rewrite Hmin in Hth.
  destruct (state_kind_ s) eqn:Hk; try done; rewrite Hinc, ?Hun in Hth by done; done.
Qed.

(** ** After the end *)

Definition is_terminal (s : ServerState) : bool := IsAborted s || IsCompletedSuccessfully s.

Lemma run_op_terminal s op o :
  is_terminal s = true → run_op fuel s op = Ok o →
  o.2 = [] ∧ (o.1 = s ∨ o.1 = set_impl (TakeResult (impl_ s)).2 s).
Proof.
  intros Ht H. destruct op as [c m|c r| |r| |a|]; simpl in H.
  1: apply bind_ok in H as ([o1 b] & H & _); unfold ReceiveMessage in H.
  2: unfold AbortClient in H.
  3: unfold ProceedToNextRound in H.
  4: unfold Abort in H.
  1-4: apply ErrorIfAbortedOrCompleted_ok in H as (H1 & H2 & _); unfold is_terminal in Ht;
    by rewrite H1, H2 in Ht.
  - injection H as <-. unfold is_terminal, IsAborted, IsCompletedSuccessfully in Ht.
    unfold SetAsyncCallback. simpl. destruct (state_kind_ s); try done; by split; [|left].
  - unfold is_terminal, IsAborted, IsCompletedSuccessfully in Ht.
    unfold RunTask in H. simpl in H. destruct (state_kind_ s); try done; simplify_eq; by split; [|left].
  - apply bind_ok in H as ([r s'] & H & [= <-]). apply Result_ok in H as (_ & _ & ->). by split; [|right].
Qed.

Lemma server_run_terminal s ops s' events :
  server_run fuel s ops s' events → is_terminal s = true →
  events = [] ∧ state_kind_ s' = state_kind_ s ∧ statuses s' = statuses s ∧
  (result_ (impl_ s') = result_ (impl_ s) ∨ result_ (impl_ s') = None).
Proof.
  induction 1 as [|ops s1 events op s2 events' Hrun IH Hop|]; intros Ht; [by auto| |by auto].
  destruct (IH Ht) as (-> & Hk & Hst & Hr).
  destruct (run_op_terminal _ _ _ (ltac:(unfold is_terminal, IsAborted, IsCompletedSuccessfully in *;
    by rewrite Hk) : is_terminal s1 = true) Hop) as [H2 [H1|H1]]; simpl in H1, H2; subst.
  - by split_and!.
  - simpl. split_and!; try done. by right.
Qed.

(** once [IsNumberOfIncludedInputsCommitted] holds, the number of inputs of
    the sum no longer changes, unless the server aborts. *)
Lemma server_inputs_fixed graph minimum total specs async ops1 s1 events1 ops2 s2 events2 :
  server_run fuel (new_SecAggServer graph minimum total specs async) ops1 s1 events1 →
  server_run fuel s1 ops2 s2 events2 →
  IsNumberOfIncludedInputsCommitted s1 = true → IsAborted s2 = false →
  IsNumberOfIncludedInputsCommitted s2 = true ∧ NumberOfIncludedInputs s2 = NumberOfIncludedInputs s1.
Proof.
  intros Hrun1 Hrun2. destruct (server_run_inv _ _ _ _ Hrun1) as [Hs1 _]; [apply new_server_inv|].
  intros Hc. induction Hrun2 as [|ops s events op s' events' Hrun2 IH Hop|]; intros Ha; [done| |by auto].
  destruct (server_run_inv _ _ _ _ Hrun2 Hs1) as [Hs _].
  assert (IsAborted s = false) as Ha'.
  { destruct (IsAborted s) eqn:E; [|done]. exfalso.
    destruct (run_op_terminal s op (s', events')) as [_ [H|H]]; [|done|..];
      [by unfold is_terminal; rewrite E|simpl in H; subst; congruence|].
    simpl in H. subst. unfold IsAborted in *. simpl in *. congruence. }
  destruct (IH Ha') as [Hc' Heq]. destruct (run_op_included _ _ _ Hs Hop Hc' Ha) as [? ?].
  split; [done|]. simpl in *. congruence.
Qed.

(** A server that has aborted or completed sends nothing and keeps its
    state and the statuses of its clients whatever is called, except that
    [Result] takes the sum out, once. *)
Lemma server_terminal s ops s' events :
  server_run fuel s ops s' events → is_terminal s = true →
  events = [] ∧ state_kind_ s' = state_kind_ s ∧ statuses s' = statuses s ∧
  (∀ r t, Result s' = Ok (r, t) → ∃ message, Result t = Error UNAVAILABLE message).
Proof.
  intros Hrun Ht. destruct (server_run_terminal _ _ _ _ Hrun Ht) as (? & ? & ? & _).
  split_and!; try done. intros r t (Hk & _ & ->)%Result_ok. unfold Result. simpl. rewrite Hk. by eexists.
Qed.
End rounds.
