(* ===== verification/ServerSum.v ===== *)
(** * The sum that the server computes

    What [masked_input_] holds, in the synchronous and in the asynchronous
    variant of round 2, and what the result is after the masks of the work items
    have been removed, whatever the interleaving of the background tasks. *)

From S2P Require Import Prelude Bytes Math SecAggVector SecAggCodec SecAggVectorCorrect Prng.
From S2P Require Import MapOfMasks MasksCorrect Interpolation VectorMaps Graph Crypto Client.
From S2P Require Import ClientCorrect Accumulator ServerImpl Server ServerCorrect.

(** ** Masked inputs *)

(** The vector that the server makes of the bytes it received. *)
Definition received_vector (vectors : gmap string (list Z)) (spec : InputVectorSpecification) :
    SecAggVector :=
  {| packed_bytes_ := default [] (vectors !! ivs_name spec); modulus_ := ivs_modulus spec;
     bit_width_ := GetBitWidth (ivs_modulus spec); num_elements_ := ivs_length spec;
     branchless_codec_ := false |}.

Lemma mask_map_ext {V} (mk mk' : InputVectorSpecification → V) l : ∀ acc,
  (∀ spec, spec ∈ l → mk spec = mk' spec) → mask_map mk l acc = mask_map mk' l acc.
Proof.
  induction l as [|spec l IH]; intros acc Heq; [done|]. simpl.
  rewrite (Heq spec) by apply list_elem_of_here. apply IH. intros. apply Heq.
  by apply list_elem_of_further.
Qed.

Lemma check_masked_vectors_ok specs : ∀ vectors checked c,
  NoDup (ivs_name <$> specs) → check_masked_vectors specs vectors checked = Ok c →
  c = mask_map (received_vector vectors) specs checked ∧
  Forall (λ spec, ∃ bytes, vectors !! ivs_name spec = Some bytes ∧
    Z.of_nat (length bytes) =
      DivideRoundUp (u32 (ivs_length spec * GetBitWidth (ivs_modulus spec))) 8) specs.
Proof.
  induction specs as [|spec specs IH]; intros vectors checked c Hnd H; [by injection H as <-|].
  rewrite fmap_cons in Hnd. apply NoDup_cons in Hnd as [Hnot Hnd]. simpl in H.
  destruct (vectors !! ivs_name spec) as [bytes|] eqn:Hb; [|done].
  destruct (negb _) eqn:Hlen; [done|]. apply negb_false_iff, Z.eqb_eq in Hlen.
  apply bind_ok in H as (v & Hv & H). unfold SecAggVector_of_bytes in Hv.
  rewrite !fcp_check_ok in Hv. destruct Hv as (_ & _ & [= <-]).
  apply IH in H as [-> Hall]; [|done].
  assert (Hne : ∀ spec', spec' ∈ specs → ivs_name spec ≠ ivs_name spec').
  { intros spec' Hin Heq. apply Hnot. rewrite Heq. by apply list_elem_of_fmap_2. }
  split.
  - simpl. unfold received_vector at 3. rewrite Hb. simpl. apply mask_map_ext.
    intros spec' Hin. unfold received_vector. by rewrite lookup_insert_ne by (by apply Hne).
  - constructor; [by exists bytes|]. rewrite Forall_forall in Hall |- *. intros spec' Hin.
    specialize (Hall spec' Hin). by rewrite lookup_insert_ne in Hall by (by apply Hne).
Qed.

(** A message is made of bytes. *)
Definition vectors_ok (vectors : gmap string (list Z)) : Prop :=
  ∀ name bytes, vectors !! name = Some bytes → Forall is_byte bytes.

Section sums.
Context {P : Primitives} {HP : PrimitivesLaws P} (fuel : nat).
Context (specs : list InputVectorSpecification).
Context (Hnd : NoDup (ivs_name <$> specs)) (Hspecs : Forall spec_ok specs).

Abbreviation unpacked_map := (of_shape specs unpacked_shape).
Abbreviation packed_map := (of_shape specs packed_shape).

Lemma check_masked_vectors_shape vectors c :
  vectors_ok vectors → check_masked_vectors specs vectors ∅ = Ok c →
  packed_map c ∧ c = mask_map (received_vector vectors) specs ∅.
Proof using Hnd Hspecs.
  intros Hvec H. apply check_masked_vectors_ok in H as [-> Hall]; [|done]. split; [|done].
  apply mask_map_shape; [done|]. intros spec Hin. rewrite Forall_forall in Hall, Hspecs.
  destruct (Hall spec Hin) as (bytes & Hb & Hlen). destruct (Hspecs spec Hin) as [Hm Hl Hsz].
  destruct (GetBitWidth_bounds _ Hm) as (Hbw & _). unfold received_vector. rewrite Hb. simpl.
  split; [|done|done]. split; simpl; [done|done|by eapply Hvec|].
  destruct (DivideRoundUp_bytes (ivs_length spec) (GetBitWidth (ivs_modulus spec))) as [Hd _]; [lia..|].
  split; [|lia]. by rewrite Hlen, Hd.
Qed.

(** ** The asynchronous queue *)

Lemma vadd_assoc a b c :
  unpacked_map a → unpacked_map b → unpacked_map c → vadd (vadd a b) c = vadd a (vadd b c).
Proof.
  intros Ha Hb Hc. apply map_eq. intros name. unfold vadd. rewrite !map_lookup_zip_with.
  destruct (a !! name) as [x|] eqn:Hx, (b !! name) as [y|] eqn:Hy, (c !! name) as [z|]; simpl; try done.
  destruct (shape_lookup2 _ _ _ _ _ _ _ Ha Hb Hx) as (spec & y' & _ & _ & [Hm _ _] & Hy' & [Hm' _ _]).
  rewrite Hy in Hy'. injection Hy' as <-.
  f_equal. unfold vadd_vector. simpl. f_equal. rewrite Hm, Hm'.
  generalize (elements x), (elements y), (elements z). clear.
  unfold add_mod_list. induction l as [|p l IH]; intros [|q l'] [|r l'']; simpl; try done.
  f_equal; [|apply IH]. apply eqmod_rem. drop_mod. eqmod_ring.
Qed.

Lemma foldl_vadd_assoc xs : ∀ v x,
  unpacked_map v → unpacked_map x → Forall unpacked_map xs →
  foldl vadd (vadd v x) xs = vadd v (foldl vadd x xs).
Proof using Hspecs.
  induction xs as [|y xs IH]; intros v x Hv Hx Hxs; [done|].
  apply Forall_cons in Hxs as [Hy Hxs]. simpl. rewrite vadd_assoc by done.
  by apply IH; [|apply vadd_shape|].
Qed.

Definition unpack (m : SecAggVectorMap) : SecAggUnpackedVectorMap := SecAggUnpackedVectorMap_of_map m.

Lemma unpack_all queue : Forall packed_map queue → Forall unpacked_map (unpack <$> queue).
Proof.
  intros Hq. apply Forall_fmap. eapply Forall_impl; [done|]. intros m Hm. by apply of_map_shape.
Qed.

Lemma AddReduce_ok first rest :
  packed_map first → Forall packed_map rest →
  AddReduce (first :: rest) = Ok (foldl vadd (unpack first) (unpack <$> rest)).
Proof using Hspecs.
  intros Hf Hr. simpl. fold (unpack first).
  assert (unpacked_map (unpack first)) as Hu by (by apply of_map_shape).
  revert Hu. generalize (unpack first). induction Hr as [|m rest Hm Hr IH]; intros v Hv; [done|]. simpl.
  rewrite (Add_vadd specs) by done. simpl. apply IH. apply vadd_shape; [done|done|by apply of_map_shape].
Qed.

Abbreviation QGen := (Generator SecAggUnpackedVectorMap (list SecAggVectorMap)).

(** A task is under way exactly when the queue is not empty. *)
Definition queue_good (gs : list QGen) (queue : list SecAggVectorMap) : Prop :=
  Forall packed_map queue ∧ gs = if decide (queue = []) then [] else [reduce_queue].

Definition queue_outstanding (gs : list QGen) (queue : list SecAggVectorMap) :
    list SecAggUnpackedVectorMap := unpack <$> queue.

Lemma queue_generate gs1 g gs2 queue :
  queue_good (gs1 ++ g :: gs2) queue →
  ∃ x queue', g queue = Ok (x, queue') ∧ unpacked_map x ∧ queue_good (gs1 ++ gs2) queue' ∧
    (∀ v, unpacked_map v → foldl vadd v (queue_outstanding (gs1 ++ g :: gs2) queue) =
                           foldl vadd v (x :: queue_outstanding (gs1 ++ gs2) queue')).
Proof using Hspecs.
  intros [Hq Hgs]. case_decide as Hne; [by destruct gs1|].
  destruct gs1 as [|g1 gs1]; [|by destruct gs1]. simpl in Hgs. injection Hgs as -> ->.
  destruct queue as [|first rest]; [done|]. apply Forall_cons in Hq as [Hf Hr].
  change (reduce_queue (first :: rest)) with
    (AddReduce (first :: rest) ≫= λ r, Ok (r, [] : list SecAggVectorMap)).
  rewrite AddReduce_ok by done. cbn [mbind Res_bind]. eexists _, _. split; [done|].
  assert (unpacked_map (unpack first)) by (by apply of_map_shape).
  pose proof (unpack_all _ Hr).
  split; [by apply (foldl_wf _ _ (vadd_shape specs Hspecs))|].
  split; [by split|]. intros v Hv. simpl. by apply foldl_vadd_assoc.
Qed.

Lemma queue_perm gs gs' queue : gs ≡ₚ gs' → queue_good gs queue → queue_good gs' queue.
Proof.
  intros Hp [Hq ->]. split; [done|]. symmetry in Hp. case_decide.
  - by apply Permutation_nil_r in Hp.
  - by apply Permutation_singleton_r in Hp.
Qed.

(** The accumulator of round 2 and its queue hold [total]. *)
Definition collecting (total : SecAggUnpackedVectorMap) (a : MapAccumulator)
    (queue : list SecAggVectorMap) : Prop :=
  accumulates unpacked_map vadd queue_good queue_outstanding total a queue.

Lemma perform_collecting total a queue action :
  collecting total a queue →
  ∃ a' queue' callback, perform SecAggUnpackedVectorMap_AddMaps action a queue =
      Ok (a', queue', callback) ∧ collecting total a' queue'.
Proof using Hspecs.
  apply perform_accumulates.
  - apply vadd_shape, Hspecs.
  - intros. by apply (AddMaps_vadd specs).
  - intros. by apply (vadd_swap specs).
  - apply queue_generate.
  - apply queue_perm.
  - intros gs gs' e _ _. done.
  - intros gs e [Hq _]. by apply unpack_all.
Qed.

Lemma new_collecting initial :
  unpacked_map initial → collecting initial (new_Accumulator initial) [].
Proof. intros Hi. split; [split; done|done|by split|by constructor|]. by exists initial. Qed.

(** Accepting one more input. *)
Lemma enqueue_collecting total a queue m :
  collecting total a queue → packed_map m →
  collecting (vadd total (unpack m))
    (if bool_decide (queue = []) then Schedule reduce_queue a else a) (queue ++ [m]).
Proof using Hspecs.
  intros [[Hact Hrem] Hn [Hq Hg] Hf (v & Hv & Hwv & Ht)] Hm.
  assert (∀ X (p q : X), (if decide (queue ++ [m] = []) then p else q) = q) as Hdec
    by (intros; rewrite decide_False; [done|by destruct queue]).
  assert (foldl vadd v (in_flight a ++ (unpack <$> queue ++ [m])) = vadd total (unpack m)) as Htot.
  { rewrite fmap_app, (assoc_L (++)), foldl_app. unfold queue_outstanding in Ht. by rewrite Ht. }
  case_bool_decide as He.
  - subst queue. simpl in Hg. split; simpl; [|done| |done|].
    + split; simpl; [done|]. intros _. rewrite Hrem by done.
      change (in_flight (Schedule reduce_queue a)) with (in_flight a).
      unfold to_generate. simpl. rewrite !length_app. simpl. lia.
    + split; [by apply Forall_singleton|]. rewrite Hdec.
      unfold to_generate in *. simpl. rewrite (assoc_L (++)), Hg. done.
    + by exists v.
  - split; [by split|done| |done|by exists v].
    split; [apply Forall_app; split; [done|by apply Forall_singleton]|].
    rewrite Hdec. rewrite Hg. by rewrite decide_False.
Qed.

Lemma collecting_idle total a queue :
  collecting total a queue → IsIdle a = true →
  queue = [] ∧ accumulated_value_ a = Some total ∧ active_count_ a = 0.
Proof.
  intros [Hc Hn [Hq Hg] Hf (v & Hv & Hwv & Ht)] Hi.
  destruct (idle_empty a Hc Hn Hi) as [Hif Htg].
  assert (queue = []) as ->.
  { rewrite Htg in Hg. by case_decide. }
  split; [done|]. rewrite Hif in Ht. simpl in Ht. subst v. split; [done|]. by apply idle_inactive.
Qed.

(** ** Removing the masks *)

Lemma batches_concat n : ∀ keys, (length keys ≤ n)%nat → concat (batches n keys) = keys.
Proof.
  induction n as [|n IH]; intros [|k keys] Hn; [done|simpl in Hn; lia|done|].
  cbn [batches concat]. rewrite IH; [apply take_drop|].
  rewrite length_drop. unfold kPrngBatchSize. simpl in Hn |- *. lia.
Qed.

Lemma batches_nil n keys : (length keys ≤ n)%nat → batches n keys = [] → keys = [].
Proof. intros Hn Hb. rewrite <- (batches_concat n keys Hn), Hb. done. Qed.

(** The map of the masks of some keys. *)
Definition masks_map (session_id : list Z) (to_add to_subtract : list (list Z)) :
    SecAggUnpackedVectorMap :=
  mask_map (λ spec, {| elements :=
      combined_mask spec (masks_of_keys fuel session_id to_add spec)
        (masks_of_keys fuel session_id to_subtract spec); uv_modulus := ivs_modulus spec |}) specs ∅.

Lemma masks_map_shape session_id to_add to_subtract :
  unpacked_map (masks_map session_id to_add to_subtract).
Proof using Hnd Hspecs.
  apply mask_map_shape; [done|]. intros spec Hin. rewrite Forall_forall in Hspecs.
  destruct (combined_mask_in_modulus spec (masks_of_keys fuel session_id to_add spec)
    (masks_of_keys fuel session_id to_subtract spec) (Hspecs spec Hin)) as [Hm Hl]. by split.
Qed.

(** Element [i] of the sum of the masks of some keys for [spec]. *)
Definition keys_column (session_id : list Z) (spec : InputVectorSpecification) (i : nat)
    (keys : list (list Z)) : Z := column (masks_of_keys fuel session_id keys spec) i.

Lemma sumZ_app xs ys : sumZ (xs ++ ys) = sumZ xs + sumZ ys.
Proof. induction xs; simpl; lia. Qed.

Lemma keys_column_app session_id spec i keys1 keys2 :
  keys_column session_id spec i (keys1 ++ keys2) =
    keys_column session_id spec i keys1 + keys_column session_id spec i keys2.
Proof. unfold keys_column, column, masks_of_keys. by rewrite !fmap_app, sumZ_app. Qed.

Lemma keys_column_concat session_id spec i batches :
  keys_column session_id spec i (concat batches) =
    sumZ (keys_column session_id spec i <$> batches).
Proof. induction batches as [|b bs IH]; [done|]. simpl. by rewrite keys_column_app, IH. Qed.

Lemma entry_masks_map session_id to_add to_subtract spec i :
  spec ∈ specs → (i < Z.to_nat (ivs_length spec))%nat →
  entry (masks_map session_id to_add to_subtract) (ivs_name spec) i =
    (keys_column session_id spec i to_add - keys_column session_id spec i to_subtract)
      mod ivs_modulus spec.
Proof using Hnd.
  intros Hin Hi. unfold masks_map. rewrite entry_mask_map by done. unfold combined_mask.
  rewrite list_lookup_fmap, lookup_seq_lt by done. done.
Qed.

Lemma mask_task_ok im session_id to_add to_subtract queue :
  input_vector_specs im = specs → session_id_ im = Some session_id →
  draws_masks fuel session_id specs →
  mask_task fuel im to_add to_subtract queue = Ok (masks_map session_id to_add to_subtract, queue).
Proof using HP.
  intros Hsp Hid Hdraw. unfold mask_task, get_session_id. rewrite Hid. cbn [mbind Res_bind].
  pose proof (draws_masks_exist fuel _ _ to_add to_subtract Hdraw) as Hex.
  destruct (MapOfMasks_ok sha256 keystream sha256_length keystream_byte _ _ _ _ _ _ _ Hex)
    as (_ & _ & Hmap). rewrite Hsp, Hmap. done.
Qed.

(** The maps that the background tasks of [StartPrng] produce. *)
Definition prng_maps (session_id : list Z) (w : PrngWorkItems) : list SecAggUnpackedVectorMap :=
  ((λ b, masks_map session_id b []) <$> batches (length (prng_keys_to_add w)) (prng_keys_to_add w)) ++
  ((λ b, masks_map session_id [] b) <$>
     batches (length (prng_keys_to_subtract w)) (prng_keys_to_subtract w)).

Lemma prng_maps_shape session_id w : Forall unpacked_map (prng_maps session_id w).
Proof using Hnd Hspecs.
  unfold prng_maps. apply Forall_app. split; rewrite Forall_fmap; apply Forall_true; intros b; unfold compose;
    apply masks_map_shape.
Qed.

Definition unmasked (session_id : list Z) (total : SecAggUnpackedVectorMap) (w : PrngWorkItems) :
    SecAggUnpackedVectorMap := foldl vadd total (prng_maps session_id w).

Lemma unmasked_shape session_id total w :
  unpacked_map total → unpacked_map (unmasked session_id total w).
Proof using Hnd Hspecs.
  intros Ht. apply (foldl_wf _ _ (vadd_shape specs Hspecs)); [done|apply prng_maps_shape].
Qed.

Lemma sumZ_eqmod_list {A} m (f g : A → Z) xs :
  (∀ x, x ∈ xs → f x ≡ g x [mod m]) → sumZ (f <$> xs) ≡ sumZ (g <$> xs) [mod m].
Proof.
  induction xs as [|x xs IH]; intros H; [done|]. rewrite !fmap_cons. cbn [sumZ].
  rewrite (H x) by apply list_elem_of_here. rewrite IH; [done|]. intros. apply H.
  by apply list_elem_of_further.
Qed.

Lemma sumZ_opp {A} (f : A → Z) xs : sumZ ((λ x, - f x) <$> xs) = - sumZ (f <$> xs).
Proof. induction xs as [|x xs IH]; [done|]. rewrite !fmap_cons. cbn [sumZ]. lia. Qed.

(** Whatever the batches, the masks of all keys are added and subtracted. *)
Lemma entry_unmasked session_id total w spec i :
  unpacked_map total → spec ∈ specs → (i < Z.to_nat (ivs_length spec))%nat →
  entry (unmasked session_id total w) (ivs_name spec) i =
    (entry total (ivs_name spec) i + keys_column session_id spec i (prng_keys_to_add w) -
     keys_column session_id spec i (prng_keys_to_subtract w)) mod ivs_modulus spec.
Proof using Hnd Hspecs.
  intros Ht Hin Hi. unfold unmasked.
  rewrite (entry_sum specs Hspecs) by (done || apply prng_maps_shape). apply eqmod_rem.
  unfold prng_maps. rewrite fmap_app, sumZ_app, <- !list_fmap_compose.
  rewrite (sumZ_eqmod_list (ivs_modulus spec)
    (( λ x, entry x (ivs_name spec) i) ∘ λ b, masks_map session_id b [])
    (keys_column session_id spec i)).
  2:{ intros b _. simpl. rewrite entry_masks_map by done. drop_mod.
      change (keys_column session_id spec i []) with 0. eqmod_ring. }
  rewrite (sumZ_eqmod_list (ivs_modulus spec)
    (( λ x, entry x (ivs_name spec) i) ∘ λ b, masks_map session_id [] b)
    (λ b, - keys_column session_id spec i b)).
  2:{ intros b _. simpl. rewrite entry_masks_map by done. drop_mod.
      change (keys_column session_id spec i []) with 0. eqmod_ring. }
  rewrite (sumZ_opp (keys_column session_id spec i)), <- !keys_column_concat.
  rewrite !batches_concat by done. eqmod_ring.
Qed.

(** The accumulator of [StartPrng] holds [total]. *)
Definition unmasking (total : SecAggUnpackedVectorMap) (a : MapAccumulator) : Prop :=
  accumulates unpacked_map vadd (constant_generators unpacked_map) generated total a [].

Lemma perform_unmasking total a action a' queue callback :
  unmasking total a → observed PrngDone a →
  perform SecAggUnpackedVectorMap_AddMaps action a [] = Ok (a', queue, callback) →
  unmasking total a' ∧ ((callback = None ∧ observed PrngDone a') ∨
                        (callback = Some PrngDone ∧ IsIdle a' = true)).
Proof using Hspecs.
  intros Ha Hob H.
  pose proof (vadd_shape specs Hspecs) as Hwf. pose proof (AddMaps_vadd specs Hspecs) as Hadd.
  pose proof (vadd_swap specs) as Hswap.
  split; [|eapply (perform_observed _ _ _ Hwf Hadd Hswap total a [] PrngDone); eassumption].
  assert (∃ a1 e1 c1, perform SecAggUnpackedVectorMap_AddMaps action a [] = Ok (a1, e1, c1) ∧
    accumulates unpacked_map vadd (constant_generators unpacked_map) generated total a1 e1)
    as (a1 & e1 & c1 & Heq & Ha1).
  { by apply (perform_constant _ _ _ Hwf Hadd Hswap). }
  rewrite H in Heq. injection Heq as <- <- <-. by eapply constant_env.
Qed.

Lemma StartPrng_ok im session_id total w :
  input_vector_specs im = specs → session_id_ im = Some session_id →
  draws_masks fuel session_id specs → masked_input_ im = Some total → unpacked_map total →
  prng_keys_to_subtract w ≠ [] →
  ∃ a, StartPrng fuel w im = Ok (a, set_masked_input None im) ∧
    unmasking (unmasked session_id total w) a ∧ observed PrngDone a.
Proof using HP Hnd Hspecs.
  intros Hsp Hid Hdraw Hmasked Ht Hw. unfold StartPrng. rewrite Hmasked.
  set (gs := _ ++ _).
  assert (Forall2 (λ g x, ∀ e, g e = Ok (x, e)) gs (prng_maps session_id w)) as Hgs.
  { apply Forall2_app; apply Forall2_fmap, Forall_Forall2_diag, Forall_true; intros b e;
      by apply mask_task_ok. }
  fold (schedule_all (C:=Callback) gs (new_Accumulator total)).
  assert (unmasking (unmasked session_id total w) (schedule_all gs (new_Accumulator total))) as Hacc.
  { apply schedule_all_constant; [apply vadd_shape, Hspecs|intros; by apply (vadd_swap specs)| | |done].
    - by apply new_Accumulator_constant.
    - apply prng_maps_shape. }
  assert (gs ≠ []) as Hne.
  { intros Hnil. apply app_eq_nil in Hnil as [_ Hnil]. apply fmap_nil_inv in Hnil.
    apply Hw. by eapply batches_nil. }
  destruct (schedule_all_fields gs (new_Accumulator (E:=list SecAggVectorMap) (C:=Callback) total))
    as (Hcb & Hsq & Huw).
  destruct (SetAsyncObserver_observed _ _ _ _ _ PrngDone Hacc) as (a & Ha & Hua & Hob).
  - apply Huw. by right.
  - by rewrite Hcb.
  - by rewrite Hsq.
  - rewrite Ha. by exists a.
Qed.
End sums.
