(* ===== verification/ServerUnmask.v ===== *)
(** * Reconstruction and work items

    What [InitializePrng] puts on the list of keys, and on which parts of the
    data it depends. *)

From S2P Require Import Prelude Bytes Shamir Prng SecAggVector Graph Crypto Client Accumulator.
From S2P Require Import ServerImpl Server ServerCorrect.

Lemma for_each_ext {A S} (f g : A → S → Res S) l : ∀ s,
  (∀ x s, x ∈ l → f x s = g x s) → for_each f l s = for_each g l s.
Proof.
  induction l as [|x l IH]; intros s Hfg; [done|]. simpl. rewrite Hfg by apply list_elem_of_here.
  destruct (g x s) as [s'| |]; simpl; try done. apply IH. intros. apply Hfg. by apply list_elem_of_further.
Qed.

Lemma bind_ext {A B} (f g : A → Res B) r : (∀ a, f a = g a) → mbind f r = mbind g r.
Proof. intros H. destruct r; simpl; done || apply H. Qed.

Section unmask.
Context {P : Primitives}.

(** ** The keys of the work items *)

(** What client [i] and a client that aborted contribute: the direction and
    the key they share. *)
Definition pair_key (im : Impl) (i : Z) (item : Z * list Z) : option (bool * list Z) :=
  match AreNeighbors (secret_sharing_graph_ im) i item.1,
        at_ (pairwise_public_keys_ im) i,
        IsOutgoingNeighbor (secret_sharing_graph_ im) i item.1 with
  | Ok true, Ok public_key, Ok outgoing =>
      match ComputeSharedSecret item.2 public_key with
      | Ok shared_key => Some (outgoing, shared_key)
      | _ => None
      end
  | _, _, _ => None
  end.

Definition pair_keys (direction : bool) (im : Impl) (i : Z) (items : list (Z * list Z)) :
    list (list Z) :=
  items ≫= λ item, match pair_key im i item with
                   | Some (outgoing, key) => if Bool.eqb outgoing direction then [key] else []
                   | None => []
                   end.

Definition push_all (adds subs : list (list Z)) (w : PrngWorkItems) : PrngWorkItems :=
  {| prng_keys_to_add := prng_keys_to_add w ++ adds;
     prng_keys_to_subtract := prng_keys_to_subtract w ++ subs |}.

Lemma push_all_nil w : push_all [] [] w = w.
Proof. destruct w. unfold push_all. simpl. by rewrite !app_nil_r. Qed.
Lemma push_all_all a s a' s' w : push_all a' s' (push_all a s w) = push_all (a ++ a') (s ++ s') w.
Proof. unfold push_all. simpl. by rewrite !(assoc_L (++)). Qed.

Lemma unmask_pair_ok im i item w w' :
  unmask_pair im i item w = Ok w' →
  w' = push_all (pair_keys true im i [item]) (pair_keys false im i [item]) w.
Proof.
  unfold unmask_pair, pair_keys. intros (nb & Hnb & H)%bind_ok. simpl. rewrite !app_nil_r.
  unfold pair_key. rewrite Hnb. destruct nb; simpl in H.
  2:{ injection H as <-. by rewrite push_all_nil. }
  apply bind_ok in H as (pk & Hpk & H). rewrite Hpk.
  destruct (ComputeSharedSecret item.2 pk) as [key| |] eqn:Hkey; [|done|done].
  apply bind_ok in H as (out & Hout & H). rewrite Hout. injection H as <-.
  destruct out; unfold push_add, push_subtract, push_all; simpl; by rewrite app_nil_r.
Qed.

Lemma pair_keys_cons b im i item items :
  pair_keys b im i (item :: items) = pair_keys b im i [item] ++ pair_keys b im i items.
Proof. unfold pair_keys. by rewrite <- bind_app. Qed.

Lemma unmask_pairs_ok im i items : ∀ w w',
  for_each (unmask_pair im i) items w = Ok w' →
  w' = push_all (pair_keys true im i items) (pair_keys false im i items) w.
Proof.
  induction items as [|item items IH]; intros w w' H; [injection H as <-; by rewrite push_all_nil|].
  simpl in H. apply bind_ok in H as (w1 & H1 & H2). apply unmask_pair_ok in H1 as ->.
  apply IH in H2 as ->. rewrite push_all_all, <- !pair_keys_cons. done.
Qed.

(** The clients whose masked input is in the sum. *)
Definition included_clients (im : Impl) : list Z :=
  filter (λ i, match client_status im i with Ok st => is_included st | _ => false end = true)
    (clients im).

Definition client_adds (im : Impl) (r : ShamirReconstructionResult) (i : Z) : list (list Z) :=
  pair_keys true im i (map_to_list (aborted_client_key_agreements r)).
Definition client_subs (im : Impl) (r : ShamirReconstructionResult) (i : Z) : list (list Z) :=
  default [] (self_keys r !! i) ::
    pair_keys false im i (map_to_list (aborted_client_key_agreements r)).

Lemma InitializePrng_ok r im w :
  InitializePrng r im = Ok w →
  prng_keys_to_add w = included_clients im ≫= client_adds im r ∧
  prng_keys_to_subtract w = included_clients im ≫= client_subs im r ∧
  Forall (λ i, is_Some (self_keys r !! i)) (included_clients im).
Proof.
  unfold InitializePrng, included_clients.
  assert (∀ l w0, for_each (unmask_client im r) l w0 = Ok w →
    let inc := filter (λ i, match client_status im i with Ok st => is_included st | _ => false end
      = true) l in
    w = push_all (inc ≫= client_adds im r) (inc ≫= client_subs im r) w0 ∧
    Forall (λ i, is_Some (self_keys r !! i)) inc) as Hgen.
  { induction l as [|i l IH]; intros w0 H; [injection H as <-; simpl; rewrite push_all_nil; by split|].
    simpl in H. apply bind_ok in H as (w1 & H1 & H2). apply IH in H2 as [-> Hall].
    unfold unmask_client in H1. apply bind_ok in H1 as (st & Hst & H1). cbv zeta.
    rewrite filter_cons. rewrite Hst. destruct (is_included st); simpl in H1.
    - rewrite decide_True by done. destruct (self_keys r !! i) as [k|] eqn:Hk; [|done].
      apply unmask_pairs_ok in H1 as ->. rewrite !bind_cons. split.
      + unfold client_subs at 2. rewrite Hk. unfold push_subtract, push_all, client_adds. simpl.
        by rewrite <- !(assoc_L (++)).
      + constructor; [by eexists|done].
    - rewrite decide_False by done. injection H1 as <-. done. }
  intros H. destruct (Hgen _ _ H) as [-> Hall]. done.
Qed.

(** A session with an included client subtracts at least its self key. *)
Lemma InitializePrng_nonempty r im w :
  InitializePrng r im = Ok w → included_clients im ≠ [] → prng_keys_to_subtract w ≠ [].
Proof.
  intros (_ & -> & _)%InitializePrng_ok Hne. by destruct (included_clients im).
Qed.

(** ** What the reconstruction depends on *)

Record unmask_same (im im' : Impl) : Prop := {
  un_graph : secret_sharing_graph_ im' = secret_sharing_graph_ im;
  un_public : pairwise_public_keys_ im' = pairwise_public_keys_ im;
  un_pairwise : pairwise_shamir_share_table_ im' = pairwise_shamir_share_table_ im;
  un_self : self_shamir_share_table_ im' = self_shamir_share_table_ im;
  un_included : is_included <$> client_statuses_ im' = is_included <$> client_statuses_ im
}.

Lemma included_status im im' i :
  is_included <$> client_statuses_ im' = is_included <$> client_statuses_ im →
  (st ← client_status im' i; Ok (is_included st)) = (st ← client_status im i; Ok (is_included st)).
Proof.
  intros Heq. unfold client_status, at_. destruct (i <? 0); [done|].
  apply (f_equal (λ l, l !! Z.to_nat i)) in Heq. rewrite !list_lookup_fmap in Heq.
  destruct (client_statuses_ im' !! _), (client_statuses_ im !! _); simpl in *; congruence.
Qed.

Lemma unmask_client_same im im' r i w :
  unmask_same im im' → unmask_client im' r i w = unmask_client im r i w.
Proof.
  intros [Hg Hpk _ _ Hinc]. unfold unmask_client. pose proof (included_status _ _ i Hinc) as Hst.
  assert (∀ item w, unmask_pair im' i item w = unmask_pair im i item w) as Hpair.
  { intros. unfold unmask_pair. by rewrite Hg, Hpk. }
  destruct (client_status im' i) as [st'|c m|], (client_status im i) as [st|c' m'|]; simpl in *;
    try done; [|congruence]. injection Hst as ->. destruct (is_included st); simpl; [|done].
  destruct (self_keys r !! i); [|done]. apply for_each_ext. intros. apply Hpair.
Qed.

Lemma Initialize_same im im' : unmask_same im im' → Initialize im' = Initialize im.
Proof.
  intros Hu. unfold Initialize, HandleShamirReconstruction, InitializePrng,
    minimum_surviving_neighbors_for_reconstruction, clients, total_number_of_clients.
  rewrite (un_pairwise _ _ Hu), (un_self _ _ Hu), (un_graph _ _ Hu).
  assert (length (client_statuses_ im') = length (client_statuses_ im)) as ->.
  { pose proof (f_equal length (un_included _ _ Hu)) as Hl. by rewrite !length_fmap in Hl. }
  apply bind_ext. intros r. apply for_each_ext. intros. by apply unmask_client_same.
Qed.
End unmask.
