(* ===== verification/ServerSession.v ===== *)
(** * The sum over a whole session

    The invariant that ties the sum the server holds to the messages it has
    accepted, through all rounds, aborts and background tasks. *)

From S2P Require Import Prelude Bytes Math SecAggVector SecAggCodec SecAggVectorCorrect Prng.
From S2P Require Import MapOfMasks MasksCorrect Interpolation VectorMaps Graph Crypto Client.
From S2P Require Import ClientCorrect Accumulator ServerImpl Server ServerCorrect ServerSum.
From S2P Require Import ServerUnmask.

(** ** What leaves the sum alone *)

Record masked_same (im im' : Impl) : Prop := {
  ms_input : masked_input_ im' = masked_input_ im;
  ms_queue : masked_input_queue_ im' = masked_input_queue_ im;
  ms_accumulator : masked_input_accumulator_ im' = masked_input_accumulator_ im;
  ms_result : result_ im' = result_ im
}.

#[export] Instance masked_same_preorder : PreOrder masked_same.
Proof. split; [by constructor|]. intros ??? [] []. split; congruence. Qed.

Lemma for_each_masked {A S} (f : S → Impl) (body : A → S → Res S) l s s' :
  (∀ x s s', body x s = Ok s' → masked_same (f s) (f s')) → for_each body l s = Ok s' →
  masked_same (f s) (f s').
Proof.
  intros Hbody. apply (for_each_ind _ (λ s', masked_same (f s) (f s'))); [|done].
  intros x s1 s2 _ H1 H2. etrans; [done|by eapply Hbody].
Qed.

Section session.
Context {P : Primitives} {HP : PrimitivesLaws P} (fuel : nat).

Lemma HandleAdvertiseKeys_masked client_id keys im im' :
  HandleAdvertiseKeys client_id keys im = Ok im' → masked_same im im'.
Proof. unfold HandleAdvertiseKeys. case_match; [done|]. intros [= <-]. by split. Qed.

Lemma set_encrypted_share_masked n i x im im' :
  set_encrypted_share n i x im = Ok im' → masked_same im im'.
Proof.
  unfold set_encrypted_share. intros (row & _ & H)%bind_ok. apply bind_ok in H as (y & _ & [= <-]).
  by split.
Qed.

Lemma HandleShareKeysResponse_masked client_id shares im im' :
  HandleShareKeysResponse client_id shares im = Ok im' → masked_same im im'.
Proof.
  unfold HandleShareKeysResponse. case_match; [done|]. intros (e & _ & Hr)%bind_ok.
  destruct e; [done|]. eapply (for_each_masked id); [|done]. intros i im1 im2 Hb.
  unfold store_encrypted_share in Hb. apply bind_ok in Hb as (n & _ & Hb).
  apply bind_ok in Hb as (k & _ & Hb). apply bind_ok in Hb as (x & _ & Hb).
  by eapply set_encrypted_share_masked.
Qed.

Lemma EraseShareKeysForClient_masked client_id im im' :
  EraseShareKeysForClient client_id im = Ok im' → masked_same im im'.
Proof.
  apply (for_each_masked id). intros i im1 im2 (n & _ & H)%bind_ok.
  apply bind_ok in H as (k & _ & H). by eapply set_encrypted_share_masked.
Qed.

Lemma SetSessionId_masked im im' : SetSessionId im = Ok im' → masked_same im im'.
Proof.
  unfold SetSessionId. intros (p & _ & H)%bind_ok. apply bind_ok in H as (i & _ & [= <-]). by split.
Qed.

Lemma HandleAbortClient_masked client_id reason s s' :
  HandleAbortClient client_id reason s = Ok s' → masked_same (impl_ s) (impl_ s').
Proof.
  unfold HandleAbortClient. destruct (state_kind_ s) eqn:Hk; intros H.
  - unfold R0_HandleAbortClient in H. apply bind_ok in H as (st & _ & [= <-]).
    rewrite check_enough_alive_impl. by case_bool_decide.
  - unfold R1_HandleAbortClient in H. apply bind_ok in H as (st & _ & H).
    apply bind_ok in H as (s1 & H1 & [= <-]). rewrite check_enough_alive_impl.
    case_bool_decide; [apply bind_ok in H1 as (im & H1 & [= <-])|by injection H1 as <-].
    apply EraseShareKeysForClient_masked in H1. by destruct H1.
  - unfold R2_HandleAbortClient in H. apply bind_ok in H as (st & _ & [= <-]).
    rewrite check_enough_alive_impl. by case_bool_decide.
  - unfold R3_HandleAbortClient in H. apply bind_ok in H as (st & _ & H).
    case_bool_decide; injection H as <-; [done|].
    case_bool_decide; by destruct (_ <? _) in |- *.
  - by injection H as <-.
  - by injection H as <-.
  - by injection H as <-.
Qed.

Lemma AbortClientInState_masked client_id reason code notify o o' :
  AbortClientInState client_id reason code notify o = Ok o' → masked_same (impl_ o.1) (impl_ o'.1).
Proof.
  unfold AbortClientInState. intros [_ H]%fcp_check_ok. apply bind_ok in H as ([] & _ & H);
    [by injection H as <-|]. apply bind_ok in H as (s' & H & [= <-]).
  apply HandleAbortClient_masked in H. by destruct notify.
Qed.

Lemma abort_unless_masked expected reason code i o o' :
  abort_unless expected reason code i o = Ok o' → masked_same (impl_ o.1) (impl_ o'.1).
Proof.
  unfold abort_unless. intros (d & _ & H)%bind_ok. apply bind_ok in H as (st & _ & H).
  destruct (_ && _); [by eapply AbortClientInState_masked|by injection H as <-].
Qed.

Lemma R1_send_request_masked i o o' :
  R1_send_request i o = Ok o' → masked_same (impl_ o.1) (impl_ o'.1).
Proof.
  unfold R1_send_request. intros (d & _ & H)%bind_ok. apply bind_ok in H as (st & _ & H).
  destruct (_ && _); [by eapply AbortClientInState_masked|].
  case_bool_decide; [by apply bind_ok in H as (x & _ & [= <-])|by injection H as <-].
Qed.

(** ** The invariant *)

Context (specs : list InputVectorSpecification).
Context (Hnd : NoDup (ivs_name <$> specs)) (Hspecs : Forall spec_ok specs).

Abbreviation unpacked_map := (of_shape specs unpacked_shape).
Abbreviation packed_map := (of_shape specs packed_shape).

(** A packed map with the elements of an unpacked one. *)
Definition packs (r : SecAggVectorMap) (u : SecAggUnpackedVectorMap) : Prop :=
  ∀ spec, spec ∈ specs → ∃ v, r !! ivs_name spec = Some v ∧ packed_shape spec v ∧
    decoded v = (λ i, entry u (ivs_name spec) i) <$> seq 0 (Z.to_nat (ivs_length spec)).

Lemma pack_result_ok u r : unpacked_map u → pack_result u = Ok r → packs r u.
Proof using Hnd Hspecs.
  intros Hu H. unfold pack_result in H.
  assert (∀ name x, u !! name = Some x → ∃ spec, spec ∈ specs ∧ ivs_name spec = name ∧
    SecAggVector_of_span (elements x) (uv_modulus x) false =
      Ok (vector_of (elements x) (ivs_modulus spec) false) ∧
    packed_shape spec (vector_of (elements x) (ivs_modulus spec) false) ∧
    decoded (vector_of (elements x) (ivs_modulus spec) false) = elements x) as Hbody.
  { intros name x Hx. destruct (shape_lookup _ _ _ _ _ Hu Hx) as (spec & Hin & <- & [Hm Hl He]).
    exists spec. rewrite Forall_forall in Hspecs. destruct (Hspecs spec Hin) as [Hvm _ Hsz].
    rewrite <- Hl in Hsz. rewrite Hm. split_and!; [done|done|by apply SecAggVector_of_span_ok| |].
    - split; [by apply vector_of_ok|done|done].
    - by apply decoded_vector_of. }
  destruct (for_each_entry_ok (λ (_ : string) v, SecAggVector_of_span (elements v) (uv_modulus v) false)
    u ∅) as (r' & Hr' & Hlook).
  { intros name x Hx. destruct (Hbody name x Hx) as (spec & _ & _ & -> & _). by eexists. }
  rewrite H in Hr'. injection Hr' as <-. intros spec Hin.
  destruct (os_entries _ _ _ Hu spec Hin) as (x & Hx & Hsh).
  specialize (Hlook (ivs_name spec)). rewrite Hx in Hlook. destruct Hlook as (y & Hy & Hry).
  destruct (Hbody _ _ Hx) as (spec' & Hin' & Hname & Hspan & Hps & Hdec).
  assert (spec' = spec) as ->.
  { apply list_elem_of_lookup in Hin as [i Hi]. apply list_elem_of_lookup in Hin' as [j Hj].
    assert (i = j) as ->; [|congruence].
    eapply NoDup_lookup; [exact Hnd| |]; rewrite list_lookup_fmap;
      [rewrite Hi; done|rewrite Hj; simpl; by rewrite Hname]. }
  rewrite Hspan in Hy. injection Hy as <-. eexists. split; [done|]. split; [done|]. rewrite Hdec.
  by apply (elements_entries specs).
Qed.

(** The masks of the session can be drawn. *)
Definition can_draw (im : Impl) (id : list Z) : Prop :=
  session_id_ im = Some id ∧ draws_masks fuel id specs.

Definition unmasked_result (total : SecAggUnpackedVectorMap) (im : Impl) (r : SecAggVectorMap) : Prop :=
  ∀ id, can_draw im id → ∃ w, Initialize im = Ok w ∧ packs r (unmasked fuel specs id total w).

(** What the server holds in each state, [total] being the sum of the masked
    inputs it has accepted. *)
Definition sum_state (total : SecAggUnpackedVectorMap) (s : ServerState) : Prop :=
  let im := impl_ s in
  match state_kind_ s with
  | R0_ADVERTISE_KEYS | R1_SHARE_KEYS =>
      masked_input_queue_ im = [] ∧ masked_input_accumulator_ im = None ∧ result_ im = None
  | R2_MASKED_INPUT_COLLECTION _ =>
      result_ im = None ∧
      if async_round_2 im then
        ∃ a, masked_input_accumulator_ im = Some a ∧ collecting specs total a (masked_input_queue_ im)
      else masked_input_ im = Some total
  | R3_UNMASKING => result_ im = None ∧ masked_input_ im = Some total
  | PRNG_RUNNING None token _ =>
      result_ im = None ∧ ∃ a, token = Some a ∧ ∀ id, can_draw im id → ∃ w, Initialize im = Ok w ∧
        unmasking specs (unmasked fuel specs id total w) a ∧ observed PrngDone a
  | PRNG_RUNNING (Some CompletionOk) _ _ => ∃ r, result_ im = Some r ∧ unmasked_result total im r
  | PRNG_RUNNING (Some (CompletionError _)) token _ => token = None
  | COMPLETED => ∀ r, result_ im = Some r → unmasked_result total im r
  | ABORTED _ => True
  end.

(** An input that came in a message. *)
Definition accepted_input (ops : list ServerOp) (cv : Z * SecAggVectorMap) : Prop :=
  packed_map cv.2 ∧ ∃ vectors, OpReceive cv.1 (CS_masked_input_response vectors) ∈ ops ∧
    vectors_ok vectors ∧ check_masked_vectors specs vectors ∅ = Ok cv.2.

Definition total_of (accepted : list (Z * SecAggVectorMap)) : SecAggUnpackedVectorMap :=
  foldl vadd (InitializeVectorMap specs) (unpack <$> accepted.*2).

Record accepted_ok (ops : list ServerOp) (l : list ClientStatus)
    (accepted : list (Z * SecAggVectorMap)) : Prop := {
  ao_nodup : NoDup accepted.*1;
  ao_clients : ∀ c, c ∈ accepted.*1 ↔
    0 ≤ c ∧ ∃ st, l !! Z.to_nat c = Some st ∧ sent_masked_input st = true;
  ao_inputs : Forall (accepted_input ops) accepted
}.

Definition sum_inv (ops : list ServerOp) (s : ServerState) : Prop :=
  input_vector_specs (impl_ s) = specs ∧
  (IsAborted s = false →
   ∃ accepted, accepted_ok ops (statuses s) accepted ∧ sum_state (total_of accepted) s).

Lemma zero_map_shape : unpacked_map (InitializeVectorMap specs).
Proof using Hnd Hspecs.
  apply (mask_map_shape specs Hnd unpacked_shape zero_vector). intros spec Hin.
  rewrite Forall_forall in Hspecs. destruct (Hspecs spec Hin) as [Hm Hl _].
  destruct (GetBitWidth_bounds _ Hm) as (_ & _ & ?). split; simpl; [done| |].
  - rewrite length_replicate. lia.
  - apply Forall_replicate. unfold in_modulus. lia.
Qed.

Lemma total_of_shape ops accepted :
  Forall (accepted_input ops) accepted → unpacked_map (total_of accepted).
Proof using Hnd Hspecs.
  intros Hall. apply (foldl_wf _ _ (vadd_shape specs Hspecs)); [apply zero_map_shape|].
  apply unpack_all. apply Forall_fmap. eapply Forall_impl; [done|]. by intros cv [? _].
Qed.

Lemma total_of_snoc accepted c v :
  total_of (accepted ++ [(c, v)]) = vadd (total_of accepted) (unpack v).
Proof. unfold total_of. by rewrite !fmap_app, foldl_app. Qed.

(** ** Steps that leave the sum alone *)

Lemma accepted_ok_more ops op l l' accepted :
  sent_masked_input <$> l' = sent_masked_input <$> l →
  accepted_ok ops l accepted → accepted_ok (ops ++ [op]) l' accepted.
Proof.
  intros Hl [? Hc Hi]. split; [done| |].
  - intros c. rewrite Hc. apply (f_equal (λ l, l !! Z.to_nat c)) in Hl.
    rewrite !list_lookup_fmap in Hl. destruct (l !! _) as [st|], (l' !! _) as [st'|]; simpl in *;
      simplify_eq; split; intros [? (x & Hx & Hs)]; simplify_eq; (split; [done|]); eexists;
      (split; [done|congruence]).
  - eapply Forall_impl; [done|]. intros cv [Hp (vs & Hin & Hok & Hch)]. split; [done|].
    exists vs. split; [|done]. apply elem_of_app. by left.
Qed.

Lemma masks_sent (l l' : list ClientStatus) :
  ClientMaskType <$> l' = ClientMaskType <$> l → sent_masked_input <$> l' = sent_masked_input <$> l.
Proof.
  intros Hm. unfold sent_masked_input.
  rewrite !(list_fmap_compose ClientMaskType (λ m, match m with kSelfMask => true | _ => false end)).
  by rewrite Hm.
Qed.

(** Once the masks are being removed, the included clients are those whose
    masked input was accepted. *)
Lemma included_sent a b c l :
  Forall (λ st, allowed (PRNG_RUNNING a b c) st = true) l →
  is_included <$> l = sent_masked_input <$> l.
Proof.
  intros Hall. apply list_fmap_ext. intros i st Hi.
  pose proof (Forall_lookup_1 _ _ _ _ Hall Hi) as Ha. by destruct st.
Qed.

Lemma none_sent s :
  counters_inv s → (state_kind_ s = R0_ADVERTISE_KEYS ∨ state_kind_ s = R1_SHARE_KEYS) →
  sent_masked_input <$> statuses s = replicate (length (statuses s)) false.
Proof.
  intros Hs Hk. apply list_eq. intros i. rewrite list_lookup_fmap.
  destruct (statuses s !! i) as [st|] eqn:Hi.
  - rewrite lookup_replicate_2 by (by eapply lookup_lt_Some). simpl.
    pose proof (Forall_lookup_1 _ _ _ _ (ci_allowed _ Hs) Hi) as Ha.
    by destruct Hk as [Hk|Hk]; rewrite Hk in Ha; destruct st.
  - symmetry. apply lookup_replicate_None. by apply lookup_ge_None.
Qed.

Lemma sum_state_same total s s' :
  same_round (state_kind_ s) (state_kind_ s') → same_config (impl_ s) (impl_ s') →
  match state_kind_ s with
  | R0_ADVERTISE_KEYS | R1_SHARE_KEYS => masked_same (impl_ s) (impl_ s')
  | R2_MASKED_INPUT_COLLECTION _ | R3_UNMASKING => same_data (impl_ s) (impl_ s')
  | PRNG_RUNNING _ _ _ | COMPLETED =>
      same_data (impl_ s) (impl_ s') ∧ unmask_same (impl_ s) (impl_ s')
  | ABORTED _ => True
  end → sum_state total s → sum_state total s'.
Proof.
  intros Hr Hcfg Hd. unfold sum_state.
  assert (∀ im im' r, same_data im im' → unmask_same im im' → unmasked_result total im r →
    unmasked_result total im' r) as Hres.
  { intros im im' r Hd1 Hu H id [Hid Hdraw]. rewrite (Initialize_same _ _ Hu). apply H. split; [|done].
    by rewrite <- (sd_session _ _ Hd1). }
  destruct (state_kind_ s) as [| | | |[[]|] token cb| |] eqn:Hk, (state_kind_ s') eqn:Hk'; simpl in Hr;
    try done; simplify_eq.
  - destruct Hd as [? -> -> ->]. done.
  - destruct Hd as [? -> -> ->]. done.
  - rewrite (sc_async _ _ Hcfg). destruct Hd as [_ _ _ _ -> -> -> ->]. done.
  - destruct Hd as [_ _ _ _ -> _ _ ->]. done.
  - destruct Hd as [Hd Hu]. intros (r & Hr' & Hres'). exists r. rewrite (sd_result _ _ Hd).
    split; [done|]. by eapply Hres.
  - intros Ht. exact Ht.
  - destruct Hd as [Hd Hu]. rewrite (sd_result _ _ Hd). intros (Hn & a & -> & H). split; [done|].
    exists a. split; [done|]. intros id [Hid Hdraw]. rewrite (Initialize_same _ _ Hu). apply H.
    split; [|done]. by rewrite <- (sd_session _ _ Hd).
  - destruct Hd as [Hd Hu]. intros H r. rewrite (sd_result _ _ Hd). intros Hr'. eapply Hres; [done|done|].
    by apply H.
Qed.

Lemma abort_unmask_same client_id s s' a b c :
  counters_inv s → counters_inv s' → state_kind_ s = PRNG_RUNNING a b c →
  abort_shape client_id s s' → unmask_same (impl_ s) (impl_ s').
Proof.
  intros Hs Hs' Hk [Hr _ Hcfg _ Hd]. rewrite Hk in Hd, Hr. destruct Hd as [Hd Hm].
  assert (state_kind_ s' = PRNG_RUNNING a b c) as Hk' by done.
  pose proof (ci_allowed _ Hs) as Hall. pose proof (ci_allowed _ Hs') as Hall'.
  rewrite Hk in Hall. rewrite Hk' in Hall'.
  split; [apply Hcfg|apply Hd|apply Hd|apply Hd|]. fold (statuses s) (statuses s').
  rewrite (included_sent _ _ _ _ Hall), (included_sent _ _ _ _ Hall'). by apply masks_sent.
Qed.

Lemma sum_abort ops op client_id s s' :
  counters_inv s → counters_inv s' → is_terminal s = false →
  abort_shape client_id s s' → masked_same (impl_ s) (impl_ s') →
  sum_inv ops s → sum_inv (ops ++ [op]) s'.
Proof.
  intros Hs Hs' Ht Hsh Hms [Hsp Hinv]. pose proof (as_config _ _ _ Hsh) as Hcfg.
  split; [by rewrite (sc_specs _ _ Hcfg)|]. intros _.
  unfold is_terminal in Ht. apply orb_false_iff in Ht as [Hna Hnc].
  destruct (Hinv Hna) as (accepted & Hacc & Hst). exists accepted.
  pose proof (as_round _ _ _ Hsh) as Hr. pose proof (as_data _ _ _ Hsh) as Hd. split.
  - eapply accepted_ok_more; [|done].
    destruct (as_status _ _ _ Hsh) as (st & _ & Hstat).
    destruct (state_kind_ s) eqn:Hk; try (apply masks_sent, Hd);
      (rewrite !none_sent; [by rewrite Hstat, length_insert|done|rewrite Hk; by auto|done|]);
      destruct (state_kind_ s'); simpl in Hr; by auto.
  - eapply sum_state_same; [done|done| |done].
    destruct (state_kind_ s) eqn:Hk; try done; try apply Hd;
      (split; [apply Hd|by eapply abort_unmask_same]) || idtac.
    unfold IsCompletedSuccessfully in Hnc. by rewrite Hk in Hnc.
Qed.

(** ** Messages *)

(** The call leaves the sum and its inputs alone. *)
Lemma sum_keep ops op s s' :
  session_frame s s' → sent_masked_input <$> statuses s' = sent_masked_input <$> statuses s →
  (IsAborted s' = false → IsAborted s = false) →
  (∀ total, sum_state total s → sum_state total s') →
  sum_inv ops s → sum_inv (ops ++ [op]) s'.
Proof.
  intros [Hcfg _] Hsent Hab Hst [Hsp Hinv]. split; [by rewrite (sc_specs _ _ Hcfg)|]. intros Ha.
  destruct (Hinv (Hab Ha)) as (accepted & Hacc & Htot). exists accepted.
  split; [by eapply accepted_ok_more|by apply Hst].
Qed.

Lemma sum_idle_state total s s' :
  state_kind_ s' = state_kind_ s →
  match state_kind_ s with R0_ADVERTISE_KEYS | R1_SHARE_KEYS | R3_UNMASKING => True | _ => False end →
  masked_same (impl_ s) (impl_ s') → sum_state total s → sum_state total s'.
Proof.
  intros Hk Hr [Hi Hq Ha Hres]. unfold sum_state. rewrite Hk.
  destruct (state_kind_ s); try done; by rewrite ?Hi, ?Hq, ?Ha, ?Hres.
Qed.

Lemma sent_keep (l : list ClientStatus) i old new :
  l !! i = Some old → sent_masked_input new = sent_masked_input old →
  sent_masked_input <$> <[i := new]> l = sent_masked_input <$> l.
Proof.
  intros Hl Hm. rewrite list_fmap_insert, Hm. apply list_insert_id. by rewrite list_lookup_fmap, Hl.
Qed.

(** A message of round 0, 1 or 3 that is accepted. *)
Lemma sum_accepted ops op client_id expected received im s :
  match state_kind_ s with R0_ADVERTISE_KEYS | R1_SHARE_KEYS | R3_UNMASKING => True | _ => False end →
  sent_masked_input received = sent_masked_input expected →
  frame (impl_ s) im → masked_same (impl_ s) im →
  statuses s !! Z.to_nat client_id = Some expected → sum_inv ops s →
  sum_inv (ops ++ [op]) (add_counts 0 0 1 0 1 (set_status client_id received (set_impl im s))).
Proof.
  intros Hk Hsent Hfr Hms Hst Hinv. eapply sum_keep; [by apply accepted_session| | | |done].
  - unfold statuses in *. simpl. rewrite (fr_statuses _ _ Hfr). by eapply sent_keep.
  - done.
  - intros total. apply sum_idle_state; [done|done|]. by destruct Hms.
Qed.

Lemma HandleUnmaskingResponse_masked client_id shares im im' :
  HandleUnmaskingResponse client_id shares im = Ok im' → masked_same im im'.
Proof.
  unfold HandleUnmaskingResponse. repeat case_match; try done. intros (e & _ & Hr)%bind_ok.
  destruct e; [done|]. apply bind_ok in Hr as ([t1 t2] & _ & [= <-]). by split.
Qed.

(** What round 2 does with a masked input. *)
Lemma HandleMaskedInput_sum vectors im im' total aborted s :
  input_vector_specs im = specs → vectors_ok vectors → unpacked_map total →
  state_kind_ s = R2_MASKED_INPUT_COLLECTION aborted → impl_ s = im → sum_state total s →
  HandleMaskedInputCollectionResponse vectors im = Ok im' →
  ∃ c, check_masked_vectors specs vectors ∅ = Ok c ∧ packed_map c ∧
    ∀ client_id received, sum_state (vadd total (unpack c))
      (add_counts 0 0 1 0 1 (set_status client_id received (set_impl im' s))).
Proof using Hnd Hspecs.
  intros Hsp Hvec Ht Hk <- Hst H. unfold HandleMaskedInputCollectionResponse in H. rewrite Hsp in H.
  destruct (negb _); [done|]. apply bind_ok in H as (c & Hc & H). exists c. split; [done|].
  assert (packed_map c) as Hpc by (by eapply check_masked_vectors_shape). split; [done|].
  intros client_id received. unfold sum_state in *. simpl. rewrite Hk in *. destruct Hst as [Hres Hst].
  destruct (async_round_2 (impl_ s)) eqn:Hasync.
  - destruct Hst as (a & Ha & Hcol). rewrite Ha in H. injection H as <-. simpl. rewrite Hasync.
    split; [done|]. eexists. split; [done|]. by apply enqueue_collecting.
  - rewrite Hst in H. rewrite (Add_vadd specs) in H by done. cbn [mbind Res_bind] in H.
    injection H as <-. simpl. by rewrite Hasync.
Qed.

Lemma accepted_ok_accept ops op l client_id accepted vectors c :
  accepted_ok ops l accepted → 0 ≤ client_id →
  l !! Z.to_nat client_id = Some SHARE_KEYS_RECEIVED →
  op = OpReceive client_id (CS_masked_input_response vectors) → vectors_ok vectors →
  check_masked_vectors specs vectors ∅ = Ok c → packed_map c →
  accepted_ok (ops ++ [op]) (<[Z.to_nat client_id := MASKED_INPUT_RESPONSE_RECEIVED]> l)
    (accepted ++ [(client_id, c)]).
Proof.
  intros [Hd Hc Hi] Hid Hl -> Hvec Hch Hpc. rewrite Forall_forall in Hi.
  assert (client_id ∉ accepted.*1) as Hnot.
  { rewrite Hc. intros (_ & st & Hst & Hs). rewrite Hl in Hst. by simplify_eq. }
  split.
  - rewrite fmap_app. apply NoDup_app. split_and!; [done| |apply NoDup_singleton].
    intros x Hx ->%list_elem_of_singleton. done.
  - intros x. rewrite fmap_app, elem_of_app, Hc. simpl. rewrite list_elem_of_singleton.
    destruct (decide (x = client_id)) as [->|Hne].
    + split; [|by right]. intros _. split; [done|]. exists MASKED_INPUT_RESPONSE_RECEIVED.
      split; [|done]. apply list_lookup_insert_eq. by eapply lookup_lt_Some.
    + split; [intros [[? H]|Heq]; [|done]|intros [? H]; left]; (split; [done|]).
      * rewrite list_lookup_insert_ne by lia. done.
      * by rewrite list_lookup_insert_ne in H by lia.
  - apply Forall_forall. intros cv [Hin|Hin]%elem_of_app.
    + destruct (Hi cv Hin) as [? (vs & Hin' & ?)]. split; [done|]. exists vs. split; [|done].
      apply elem_of_app. by left.
    + apply list_elem_of_singleton in Hin as ->. split; [done|]. exists vectors.
      split; [|done]. apply elem_of_app. right. by apply list_elem_of_singleton.
Qed.

Lemma sum_AbortClient ops op client_id reason code notify o o' :
  counters_inv o.1 → AbortClientInState client_id reason code notify o = Ok o' →
  sum_inv ops o.1 → sum_inv (ops ++ [op]) o'.1.
Proof.
  intros Hs H. eapply sum_abort; [done|by eapply AbortClientInState_inv| |
    by eapply AbortClientInState_shape|by eapply AbortClientInState_masked].
  unfold AbortClientInState in H. apply fcp_check_ok in H as [Ht _]. by apply negb_true_iff in Ht.
Qed.

Lemma HandleMessage_sum ops client_id message o o' :
  counters_inv o.1 →
  (∀ vectors, message = CS_masked_input_response vectors → vectors_ok vectors) →
  HandleMessage client_id message o = Ok o' →
  sum_inv ops o.1 → sum_inv (ops ++ [OpReceive client_id message]) o'.1.
Proof using Hnd Hspecs.
  intros Hs Hvec H Hinv. unfold HandleMessage in H.
  destruct (state_kind_ o.1) as [| |aborted| | | |] eqn:Hk; [| | | | |done|done];
    [apply handle_round_cases in H as [(r & c & n & H)|(a & im & Hpay & Ha & Hid & Hst & ->)];
       [by eapply sum_AbortClient|] ..|].
  - eapply (sum_accepted _ _ _ READY_TO_START); [by rewrite Hk|done|by eapply HandleAdvertiseKeys_frame|
      by eapply HandleAdvertiseKeys_masked|done|done].
  - eapply (sum_accepted _ _ _ ADVERTISE_KEYS_RECEIVED); [by rewrite Hk|done|by eapply HandleShareKeysResponse_frame|
      by eapply HandleShareKeysResponse_masked|done|done].
  - pose proof (HandleMaskedInputCollectionResponse_frame _ _ _ Ha) as Hfr.
    destruct message as [| | |vectors| |]; try done. injection Hpay as ->.
    destruct Hinv as [Hsp Hinv]. split; [by rewrite <- (fr_specs _ _ Hfr) in Hsp|]. intros Hna.
    destruct Hinv as (accepted & Hacc & Hsum); [done|].
    destruct (HandleMaskedInput_sum a (impl_ o.1) im (total_of accepted) aborted o.1)
      as (c & Hc & Hpc & Hnew); [done|by apply Hvec| |done..|].
    { eapply total_of_shape, Hacc. }
    exists (accepted ++ [(client_id, c)]). rewrite total_of_snoc. split; [|apply Hnew].
    unfold statuses. simpl. rewrite (fr_statuses _ _ Hfr).
    eapply accepted_ok_accept; [done..|by apply Hvec|done|done].
  - eapply (sum_accepted _ _ _ MASKED_INPUT_RESPONSE_RECEIVED); [by rewrite Hk|done|by eapply HandleUnmaskingResponse_frame|
      by eapply HandleUnmaskingResponse_masked|done|done].
  - unfold PrngRunning_HandleMessage in H. destruct message; by eapply sum_AbortClient.
Qed.

(** ** Transitions *)

Lemma abort_loop_masked expected reason code l o o' :
  for_each (abort_unless expected reason code) l o = Ok o' → masked_same (impl_ o.1) (impl_ o'.1).
Proof. apply (for_each_masked (λ o : Out, impl_ o.1)). intros. by eapply abort_unless_masked. Qed.

Lemma sum_aborted ops op s s' :
  same_config (impl_ s) (impl_ s') → IsAborted s' = true → sum_inv ops s → sum_inv (ops ++ [op]) s'.
Proof. intros Hc Ha [Hsp _]. split; [by rewrite (sc_specs _ _ Hc)|by rewrite Ha]. Qed.

(** Both rounds are without inputs. *)
Lemma none_sent_same s s' :
  counters_inv s → counters_inv s' →
  (state_kind_ s = R0_ADVERTISE_KEYS ∨ state_kind_ s = R1_SHARE_KEYS) →
  (state_kind_ s' = R0_ADVERTISE_KEYS ∨ state_kind_ s' = R1_SHARE_KEYS) →
  length (statuses s') = length (statuses s) →
  sent_masked_input <$> statuses s' = sent_masked_input <$> statuses s.
Proof. intros Hs Hs' Hk Hk' Hl. by rewrite !none_sent, Hl. Qed.

Lemma R0_Proceed_sum ops op o o' :
  counters_inv o.1 → state_kind_ o.1 = R0_ADVERTISE_KEYS → R0_ProceedToNextRound o = Ok o' →
  sum_inv ops o.1 → sum_inv (ops ++ [op]) o'.1.
Proof.
  intros Hs Hk H. destruct (R0_Proceed_inv _ _ Hs Hk H) as (Hs' & Hcfg & Hlen).
  unfold R0_ProceedToNextRound in H.
  destruct (needs_to_abort_ o.1); [injection H as <-; by apply sum_aborted|].
  apply bind_ok in H as (o1 & H1 & H). apply bind_ok in H as (im & Him & H).
  apply bind_ok in H as (id & _ & H). apply bind_ok in H as (o2 & H2 & [= <-]).
  apply abort_loop_masked in H1. apply SetSessionId_masked in Him.
  apply send_loop in H2; [|apply R0_send_request_state]. simpl in H2.
  assert (masked_same (impl_ o.1) (impl_ o2.1)) as [? Hq Ha Hr] by (rewrite H2; by etrans).
  apply sum_keep; [done| |by unfold IsAborted; rewrite Hk|].
  - apply none_sent_same; auto.
  - intros total. unfold sum_state. rewrite Hk. simpl. by rewrite Hq, Ha, Hr.
Qed.

Lemma R1_Proceed_sum ops op o o' :
  counters_inv o.1 → state_kind_ o.1 = R1_SHARE_KEYS → R1_ProceedToNextRound o = Ok o' →
  sum_inv ops o.1 → sum_inv (ops ++ [op]) o'.1.
Proof using Hnd Hspecs.
  intros Hs Hk H. destruct (R1_Proceed_inv _ _ Hs Hk H) as (Hs' & Hcfg & Hlen).
  unfold R1_ProceedToNextRound in H.
  destruct (needs_to_abort_ o.1); [injection H as <-; by apply sum_aborted|].
  apply bind_ok in H as (o1 & H1 & [= <-]).
  destruct (for_each_settles (settled SHARE_KEYS_RECEIVED) _ _ _ Hs
    (λ i a b Ha _, R1_send_request_step i a b Ha) H1) as [[Hs1 Hrd Hlen1 Hc1 _ _] _].
  apply (for_each_masked (λ o : Out, impl_ o.1)) in H1 as [Hi Hq Ha Hr];
    [|intros; by eapply R1_send_request_masked].
  rewrite Hk in Hrd. assert (state_kind_ o1.1 = R1_SHARE_KEYS) as Hk1 by (by destruct (state_kind_ o1.1)).
  intros [Hsp Hinv]. split; [by rewrite (sc_specs _ _ Hcfg)|]. intros _.
  destruct Hinv as (accepted & Hacc & Hsum); [by unfold IsAborted; rewrite Hk|].
  unfold sum_state in Hsum. rewrite Hk in Hsum. destruct Hsum as (Hq0 & Ha0 & Hr0).
  assert (accepted = []) as ->.
  { destruct accepted as [|cv accepted]; [done|]. exfalso.
    destruct (ao_clients _ _ _ Hacc cv.1) as [Hcv _].
    destruct Hcv as (_ & st & Hst & Hs1'); [apply list_elem_of_here|].
    pose proof (none_sent _ Hs (or_intror Hk)) as Hnone.
    apply (f_equal (λ l, l !! Z.to_nat cv.1)) in Hnone. rewrite list_lookup_fmap, Hst in Hnone.
    simpl in Hnone. symmetry in Hnone. apply lookup_replicate in Hnone as [? _]. congruence. }
  exists []. split.
  - eapply accepted_ok_more; [|done]. transitivity (sent_masked_input <$> statuses o1.1);
      [|apply none_sent_same; auto].
    unfold statuses. simpl. unfold SetupMaskedInputCollection. by case_match.
  - unfold sum_state. simpl. unfold SetupMaskedInputCollection. simpl.
    rewrite (sc_async _ _ Hc1), (sc_specs _ _ Hc1), Hsp.
    destruct (async_round_2 (impl_ o.1)) eqn:Hasync; simpl; rewrite (sc_async _ _ Hc1), Hasync, Hr, Hr0.
    + split; [done|]. eexists. split; [done|]. rewrite Hq, Hq0. apply new_collecting, zero_map_shape.
    + done.
Qed.

Lemma R2_Proceed_sum ops op aborted o o' :
  counters_inv o.1 → state_kind_ o.1 = R2_MASKED_INPUT_COLLECTION aborted →
  R2_ProceedToNextRound o = Ok o' → sum_inv ops o.1 → sum_inv (ops ++ [op]) o'.1.
Proof.
  intros Hs Hk H. destruct (R2_Proceed_inv _ _ _ Hs Hk H) as (Hs' & Hcfg & Hlen).
  unfold R2_ProceedToNextRound in H. destruct (needs_to_abort_ o.1).
  { apply bind_ok in H as (o1 & _ & [= <-]). by apply sum_aborted. }
  apply bind_ok in H as (o1 & H1 & H). destruct (abort_loop _ _ _ _ _ Hs H1) as [Hf _].
  apply bind_ok in H as (o2 & H2 & H). apply send_loop in H2; [|apply R2_send_request_state].
  apply bind_ok in H as (im & Him & [= <-]). rewrite H2 in *.
  pose proof (rf_config _ _ Hf) as Hc1. pose proof (rf_data _ _ Hf) as Hd. rewrite Hk in Hd.
  destruct Hd as [[_ _ _ _ Hi Hq Ha Hr] Hm].
  pose proof (FinalizeMaskedInputCollection_frame _ _ Him) as Hfr.
  apply sum_keep; [done| |by unfold IsAborted; rewrite Hk|].
  - unfold statuses. simpl. rewrite (fr_statuses _ _ Hfr). by apply masks_sent.
  - intros total. unfold sum_state. rewrite Hk. simpl. unfold FinalizeMaskedInputCollection in Him.
    rewrite (sc_async _ _ Hc1) in Him. destruct (async_round_2 (impl_ o.1)).
    + intros (Hr0 & a & Ha0 & Hcol). rewrite Ha, Ha0 in Him. apply fcp_check_ok in Him as [Hidle Him].
      apply bind_ok in Him as ([v a'] & Hv & [= <-]). simpl.
      unfold GetResultAndCancel in Hv. apply fcp_check_ok in Hv as [_ [= <- _]].
      destruct (collecting_idle _ _ _ _ Hcol Hidle) as (_ & Hval & _). by rewrite Hr, Hr0, Hval.
    + injection Him as <-. simpl. by rewrite Hr, Hi.
Qed.

Lemma included_nonempty a b c s :
  counters_inv s → state_kind_ s = PRNG_RUNNING a b c → 1 ≤ count sent_masked_input (statuses s) →
  included_clients (impl_ s) ≠ [].
Proof.
  intros Hs Hk Hn. pose proof (ci_allowed _ Hs) as Hall. rewrite Hk in Hall.
  apply included_sent in Hall.
  assert (∃ i, sent_masked_input <$> statuses s !! i = Some true) as [i Hi].
  { revert Hn. clear. unfold count. induction (statuses s) as [|st l IH]; [simpl; lia|].
    rewrite filter_cons. case_decide as E.
    - intros _. exists 0%nat. simpl. by rewrite E.
    - intros Hn. destruct (IH Hn) as [i Hi]. by exists (S i). }
  rewrite <- list_lookup_fmap, <- Hall, list_lookup_fmap in Hi.
  destruct (statuses s !! i) as [st|] eqn:Hst; [|done]. simpl in Hi. injection Hi as Hinc.
  intros Hnil. apply (not_elem_of_nil (Z.of_nat i)). rewrite <- Hnil. unfold included_clients.
  apply list_elem_of_filter. unfold client_status, statuses in *.
  erewrite at_in by (lia || by rewrite Nat2Z.id). split; [done|].
  unfold clients, total_number_of_clients. apply elem_of_seqZ. apply lookup_lt_Some in Hst. lia.
Qed.

Lemma EnterPrngRunning_sum total a b c s s' :
  state_kind_ s = PRNG_RUNNING a b c → input_vector_specs (impl_ s) = specs →
  included_clients (impl_ s) ≠ [] → unpacked_map total →
  result_ (impl_ s) = None → masked_input_ (impl_ s) = Some total →
  EnterPrngRunning fuel s = Ok s' → sum_state total s' ∧ statuses s' = statuses s.
Proof using HP Hnd Hspecs.
  intros Hk Hsp Hinc Ht Hr Hm H. unfold EnterPrngRunning in H.
  destruct (Initialize (impl_ s)) as [w| |] eqn:Hw; [| |done].
  2:{ injection H as <-. by split. }
  apply bind_ok in H as ([token im] & H & [= <-]). pose proof H as Hstart.
  unfold StartPrng in H. rewrite Hm in H. destruct (SetAsyncObserver _ _) as [? token'] in H.
  injection H as <- <-. split; [|done]. unfold sum_state. simpl. split; [done|].
  exists token'. split; [done|]. intros id [Hid Hdraw]. simpl in Hid. exists w. split.
  - rewrite <- Hw. by apply Initialize_same.
  - unfold Initialize in Hw. apply bind_ok in Hw as (r & _ & Hw).
    destruct (StartPrng_ok fuel specs Hnd Hspecs (impl_ s) id total w) as (a' & Ha' & Hun & Hob);
      try done; [by eapply InitializePrng_nonempty|].
    rewrite Hstart in Ha'. by injection Ha' as ->.
Qed.

Lemma R3_Proceed_sum ops op o o' :
  counters_inv o.1 → threshold_inv o.1 → 1 ≤ minimum_number_of_clients_to_proceed o.1 →
  state_kind_ o.1 = R3_UNMASKING → R3_ProceedToNextRound fuel o = Ok o' →
  sum_inv ops o.1 → sum_inv (ops ++ [op]) o'.1.
Proof using HP Hnd Hspecs.
  intros Hs Hth Hmin Hk H. destruct (R3_Proceed_inv _ _ _ Hs Hk H) as (Hs' & Hcfg & Hlen).
  unfold R3_ProceedToNextRound in H.
  destruct (needs_to_abort_ o.1); [injection H as <-; by apply sum_aborted|].
  apply bind_ok in H as (o1 & H1 & H).
  destruct (for_each_settles (settled UNMASKING_RESPONSE_RECEIVED) _ _ _ Hs
    (λ i a b Ha _, R3_terminate_step i a b Ha) H1) as [[Hs1 Hrd Hlen1 Hc1 Hn1 Hd] Hset].
  apply bind_ok in H as (s2 & H2 & [= <-]). rewrite Hk in Hd. destruct Hd as [Hd Hm].
  rewrite Hk in Hrd. assert (state_kind_ o1.1 = R3_UNMASKING) as Hk1 by (by destruct (state_kind_ o1.1)).
  set (s1 := new_ServerState _ o1.1) in *.
  assert (counters_inv s1) as Hs1'.
  { apply new_round_inv; try done; [|by apply (count_none (ABORTED "")); [apply Forall_true|]].
    eapply settled_allowed; [done|exact Hk1|done|].
    intros st Ha Hst. destruct st; simpl in *; try done; by destruct Hst. }
  intros [Hsp Hinv]. split; [by rewrite (sc_specs _ _ Hcfg)|]. intros _.
  destruct Hinv as (accepted & Hacc & Hsum); [by unfold IsAborted; rewrite Hk|]. exists accepted.
  unfold sum_state in Hsum. rewrite Hk in Hsum. destruct Hsum as [Hr0 Hm0].
  destruct (EnterPrngRunning_sum (total_of accepted) None None false s1 s2) as [Hsum Hst]; try done.
  - simpl. by rewrite (sc_specs _ _ Hc1).
  - eapply included_nonempty; [done|done|]. change (statuses s1) with (statuses o1.1).
    rewrite <- (included_count o1.1) by (done || by rewrite Hk1).
    destruct (session_same_total o.1 o1.1) as [Htot _]; [by split|].
    unfold threshold_inv, NumberOfIncludedInputs in *. rewrite Hk in Hth. rewrite Hk1, Htot.
    destruct Hn1 as [_ Hn1]. rewrite Hk in Hn1. rewrite Hn1. lia.
  - eapply total_of_shape, Hacc.
  - simpl. by rewrite (sd_result _ _ Hd).
  - simpl. by rewrite (sd_masked _ _ Hd).
  - split; [|done]. eapply accepted_ok_more; [|done]. simpl. rewrite Hst. by apply masks_sent.
Qed.

Lemma ProceedInState_sum ops op o o' :
  counters_inv o.1 → threshold_inv o.1 → 1 ≤ minimum_number_of_clients_to_proceed o.1 →
  ProceedInState fuel o = Ok o' → sum_inv ops o.1 → sum_inv (ops ++ [op]) o'.1.
Proof using HP Hnd Hspecs.
  intros Hs Hth Hmin H. unfold ProceedInState in H.
  destruct (state_kind_ o.1) as [| |aborted| |[c|] t d| |] eqn:Hk; try done;
    [destruct (ReadyForNextRound o.1); [|done].. |].
  - by eapply R0_Proceed_sum.
  - by eapply R1_Proceed_sum.
  - by eapply R2_Proceed_sum.
  - by eapply R3_Proceed_sum.
  - injection H as <-. unfold PrngRunning_ProceedToNextRound. destruct c; [|by apply sum_aborted].
    apply sum_keep; [done|done|by unfold IsAborted; rewrite Hk|].
    intros total. unfold sum_state. rewrite Hk. simpl. intros (r & Hr & Hres) r' Hr'. by simplify_eq.
Qed.

(** ** Background tasks *)

Lemma sum_quiet ops op s s' :
  quiet s s' → (∀ total, unpacked_map total → input_vector_specs (impl_ s) = specs →
    sum_state total s → sum_state total s') →
  sum_inv ops s → sum_inv (ops ++ [op]) s'.
Proof using Hnd Hspecs.
  intros Hq Hst [Hsp Hinv]. destruct (quiet_session _ _ Hq) as [Hcfg _].
  destruct Hq as [_ _ Hfr Hk]. split; [by rewrite (sc_specs _ _ Hcfg)|]. intros Ha.
  destruct Hinv as (accepted & Hacc & Hsum).
  { unfold IsAborted in *. destruct (state_kind_ s), (state_kind_ s'); congruence. }
  exists accepted. split; [|by apply Hst; [eapply total_of_shape, Hacc|..]].
  eapply accepted_ok_more; [|done]. unfold statuses. by rewrite (fr_statuses _ _ Hfr).
Qed.

(** A step of the schedulers while the masks are being removed. *)
Lemma prng_task_sum total action a d s events a' q cb o' :
  unpacked_map total →
  state_kind_ s = PRNG_RUNNING None (Some a) d → sum_state total s →
  perform SecAggUnpackedVectorMap_AddMaps action a [] = Ok (a', q, cb) →
  run_callback cb (set_kind (PRNG_RUNNING None (Some a') d) s, events) = Ok o' →
  sum_state total o'.1.
Proof using Hnd Hspecs.
  intros Ht Hk Hsum Hperf Hcb. unfold sum_state in Hsum. rewrite Hk in Hsum.
  destruct Hsum as (Hr & a0 & [= <-] & Hdraw).
  assert (∀ id, can_draw (impl_ s) id → ∃ w, Initialize (impl_ s) = Ok w ∧
    unmasking specs (unmasked fuel specs id total w) a' ∧
    ((cb = None ∧ observed PrngDone a') ∨ (cb = Some PrngDone ∧ IsIdle a' = true))) as Hstep.
  { intros id Hid. destruct (Hdraw id Hid) as (w & Hw & Hun & Hob). exists w. split; [done|].
    by eapply perform_unmasking. }
  unfold run_callback in Hcb. simpl in Hcb. destruct cb as [[|]|].
  - injection Hcb as <-. unfold sum_state. simpl. split; [done|]. exists a'. split; [done|].
    intros id Hid. destruct (Hstep id Hid) as (w & _ & _ & [[? _]|[? _]]); done.
  - apply bind_ok in Hcb as ([a1 im] & Hobs & [= <-]). unfold PrngObserver in Hobs.
    apply bind_ok in Hobs as ([v a2] & Hv & Hobs). destruct v as [u|]; [|done].
    apply bind_ok in Hobs as (r & Hpack & Hobs). apply bind_ok in Hobs as (im1 & Hset & [= <- <-]).
    unfold SetResult in Hset. apply fcp_check_ok in Hset as [_ [= <-]].
    unfold PrngRunnerFinished. simpl.
    enough (unmasked_result total (impl_ s) r) by (destruct d; simpl; exists r; done).
    intros id Hid. destruct (Hstep id Hid) as (w & Hw & Hun & [[? _]|[_ Hidle]]); [done|].
    exists w. split; [done|]. apply pack_result_ok; [by apply unmasked_shape|].
    apply idle_total in Hun as [Hval _]; [|done|done].
    unfold GetResultAndCancel in Hv. apply fcp_check_ok in Hv as [_ [= Hu _]]. congruence.
  - injection Hcb as <-. unfold sum_state. simpl. split; [done|]. exists a'. split; [done|].
    intros id Hid. destruct (Hstep id Hid) as (w & Hw & Hun & [[_ Hob]|[? _]]); [|done].
    by exists w.
Qed.

Lemma run_callback_masked aborted cb s events o' :
  state_kind_ s = R2_MASKED_INPUT_COLLECTION aborted → run_callback cb (s, events) = Ok o' → o'.1 = s.
Proof. intros Hk. unfold run_callback. simpl. rewrite Hk. destruct cb as [[|]|]; by intros [= <-]. Qed.

Lemma RunTask_sum total action o o' :
  unpacked_map total → RunTask action o = Ok o' → sum_state total o.1 → sum_state total o'.1.
Proof using Hnd Hspecs.
  intros Ht H Hsum. unfold RunTask in H.
  destruct (state_kind_ o.1) as [| |aborted| |c [a|] d| |] eqn:Hk; try (injection H as <-; exact Hsum).
  - unfold sum_state in Hsum. rewrite Hk in Hsum. destruct Hsum as [Hr Hsum].
    destruct (masked_input_accumulator_ (impl_ o.1)) as [a|] eqn:Ha.
    2:{ injection H as <-. unfold sum_state. by rewrite Hk, Ha. }
    apply bind_ok in H as ([[a' q] cb] & Hperf & H). eapply run_callback_masked in H; [|done].
    rewrite H. unfold sum_state. simpl. rewrite Hk. split; [done|].
    destruct (async_round_2 (impl_ o.1)); [|done]. destruct Hsum as (a0 & [= <-] & Hcol).
    destruct (perform_collecting specs Hspecs _ _ _ action Hcol) as (a1 & q1 & cb1 & Heq & Hcol1).
    rewrite Hperf in Heq. injection Heq as <- <- <-. by exists a'.
  - apply bind_ok in H as ([[a' q] cb] & Hperf & H).
    destruct c as [[|message]|]; [| |by eapply prng_task_sum].
    + (* done: the observer is not called again *)
      unfold sum_state in Hsum. rewrite Hk in Hsum. destruct Hsum as (r & Hr & Hres).
      unfold run_callback in H. simpl in H. destruct cb as [[|]|];
        try (injection H as <-; unfold sum_state; simpl; by exists r).
      apply bind_ok in H as ([a1 im] & Hobs & _). exfalso. unfold PrngObserver in Hobs.
      apply bind_ok in Hobs as ([v a2] & Hv & Hobs). destruct v as [u|]; [|done].
      apply bind_ok in Hobs as (r' & _ & Hobs). apply bind_ok in Hobs as (im1 & Hset & _).
      unfold SetResult in Hset. apply fcp_check_ok in Hset as [Hset _]. by rewrite Hr in Hset.
    + unfold sum_state in Hsum. by rewrite Hk in Hsum.
Qed.

Lemma SetAsyncObserver_collecting total callback a queue :
  collecting specs total a queue → collecting specs total (SetAsyncObserver callback a).2 queue.
Proof.
  intros [[Hact Hrem] Hn Hg Hf Hv]. unfold SetAsyncObserver. destruct (negb _); [by split|].
  destruct (_ =? 0) eqn:Hz; simpl; [|by split].
  assert (∀ q : list (SequentialTask SecAggUnpackedVectorMap Callback),
    reduces (q ++ [RunCallback callback]) = reduces q) as Hred.
  { intros q. rewrite reduces_app. simpl. by rewrite app_nil_r. }
  split; unfold in_flight, to_generate in *; simpl; rewrite ?Hred; try done.
  split; unfold in_flight, to_generate; simpl; rewrite ?Hred; done.
Qed.

Lemma SetAsyncCallback_sum total o : sum_state total o.1 → sum_state total (SetAsyncCallback o).2.1.
Proof.
  intros Hsum. unfold SetAsyncCallback.
  destruct (state_kind_ o.1) as [| |aborted| |[c|] t d| |] eqn:Hk; try exact Hsum.
  - unfold sum_state in Hsum. rewrite Hk in Hsum. destruct Hsum as [Hr Hsum].
    destruct (masked_input_accumulator_ (impl_ o.1)) as [a|] eqn:Ha.
    2:{ unfold sum_state. simpl. by rewrite Hk, Ha. }
    pose proof (λ total queue, SetAsyncObserver_collecting total AsyncCallback a queue) as Hset.
    destruct (SetAsyncObserver AsyncCallback a) as [b a'] eqn:Ha'. unfold sum_state. simpl.
    rewrite Hk. split; [done|]. destruct (async_round_2 (impl_ o.1)); [|done].
    destruct Hsum as (a0 & [= <-] & Hcol). exists a'. split; [done|]. by apply Hset.
  - unfold sum_state in Hsum |- *. by rewrite Hk in Hsum.
Qed.

(** ** Sessions *)

Lemma run_op_sum ops op s o :
  counters_inv s → threshold_inv s → 1 ≤ minimum_number_of_clients_to_proceed s →
  (∀ c vectors, op = OpReceive c (CS_masked_input_response vectors) → vectors_ok vectors) →
  run_op fuel s op = Ok o → sum_inv ops s → sum_inv (ops ++ [op]) o.1.
Proof using HP Hnd Hspecs.
  intros Hs Hth Hmin Hvec H Hinv. destruct op as [c m|c r| |r| |a|]; simpl in H.
  - apply bind_ok in H as ([o1 b] & H & [= <-]). unfold ReceiveMessage in H.
    apply ErrorIfAbortedOrCompleted_ok in H as (_ & _ & H). apply ValidateClientId_ok in H as [_ H].
    apply bind_ok in H as (o2 & H & [= <- _]).
    apply (HandleMessage_sum _ _ _ (s, [])); [done| |done|done]. intros vectors ->. by eapply Hvec.
  - apply AbortClient_ok in H as (r' & code & n & H). by eapply (sum_AbortClient _ _ _ _ _ _ (s, [])).
  - apply ErrorIfAbortedOrCompleted_ok in H as (_ & _ & H). by apply (ProceedInState_sum _ _ (s, [])).
  - apply Abort_ok in H as (o1 & r' & H & ->). apply HandleAbort_quiet in H.
    destruct (quiet_session _ _ H) as [Hcfg _]. by eapply sum_aborted.
  - injection H as <-. eapply sum_quiet; [apply (SetAsyncCallback_quiet (s, []))| |done].
    intros total _ _. by apply (SetAsyncCallback_sum total (s, [])).
  - eapply sum_quiet; [apply (RunTask_quiet _ _ _ H)| |done]. intros total Ht _.
    by apply (RunTask_sum total a (s, [])).
  - apply bind_ok in H as ([r s'] & H & [= <-]). apply Result_ok in H as (Hk & Hr & ->).
    eapply sum_quiet; [by apply quiet_impl| |done]. intros total _ _ _. unfold sum_state. simpl.
    by rewrite Hk.
Qed.

Lemma server_run_sum graph minimum total async ops s events :
  1 ≤ minimum →
  server_run fuel (new_SecAggServer graph minimum total specs async) ops s events →
  (∀ c vectors, OpReceive c (CS_masked_input_response vectors) ∈ ops → vectors_ok vectors) →
  sum_inv ops s.
Proof using HP Hnd Hspecs.
  intros Hmin. set (s0 := new_SecAggServer _ _ _ _ _).
  assert (counters_inv s0) as Hs0 by apply new_server_inv.
  induction 1 as [|ops s1 events op s2 events' Hrun IH Hop|ops s1 events op code msg Hrun IH Hop];
    intros Hvec.
  - split; [done|]. intros _. exists []. split; [|done]. split; [apply NoDup_nil_2| |done].
    intros c. split; [by intros ?%not_elem_of_nil|]. intros (_ & st & Hst & Hsent).
    apply lookup_replicate in Hst as [-> _]. done.
  - destruct (server_run_inv _ _ _ _ _ Hrun Hs0) as [Hs1 [Hc1 _]].
    apply (run_op_sum ops op s1 (s2, events')); try done.
    + by eapply server_run_threshold.
    + unfold minimum_number_of_clients_to_proceed. by rewrite (sc_minimum _ _ Hc1).
    + intros c vectors ->. apply (Hvec c). apply elem_of_app. right. by apply list_elem_of_singleton.
    + apply IH. intros c vectors Hin. apply (Hvec c). apply elem_of_app. by left.
  - assert (sum_inv ops s1) as [Hsp Hinv].
    { apply IH. intros c vectors Hin. apply (Hvec c). apply elem_of_app. by left. }
    split; [done|]. intros Ha. destruct (Hinv Ha) as (accepted & Hacc & Hst). exists accepted.
    split; [by eapply accepted_ok_more|done].
Qed.

(** ** The result *)

(** Element [i] of an accepted input for [spec]. *)
Definition input_element (spec : InputVectorSpecification) (i : nat) (cv : Z * SecAggVectorMap) : Z :=
  entry (unpack cv.2) (ivs_name spec) i.

Lemma entry_zero spec i :
  spec ∈ specs → (i < Z.to_nat (ivs_length spec))%nat →
  entry (InitializeVectorMap specs) (ivs_name spec) i = 0.
Proof using Hnd.
  intros Hin Hi.
  pose proof (entry_mask_map specs Hnd (λ spec, replicate (Z.to_nat (ivs_length spec)) 0) spec i Hin) as He.
  etrans; [exact He|]. simpl. by rewrite lookup_replicate_2.
Qed.

Lemma entry_total ops accepted spec i :
  Forall (accepted_input ops) accepted → spec ∈ specs → (i < Z.to_nat (ivs_length spec))%nat →
  entry (total_of accepted) (ivs_name spec) i =
    sumZ (input_element spec i <$> accepted) mod ivs_modulus spec.
Proof using Hnd Hspecs.
  intros Hall Hin Hi. unfold total_of. rewrite (entry_sum specs Hspecs); try done.
  - rewrite entry_zero by done. unfold input_element. by rewrite <- !list_fmap_compose.
  - apply zero_map_shape.
  - apply unpack_all. apply Forall_fmap. eapply Forall_impl; [done|]. by intros cv [? _].
Qed.

(** What the session computes from the accepted inputs and the work items. *)
Definition session_sum (id : list Z) (accepted : list (Z * SecAggVectorMap)) (w : PrngWorkItems)
    (spec : InputVectorSpecification) (i : nat) : Z :=
  (sumZ (input_element spec i <$> accepted) +
   keys_column fuel id spec i (prng_keys_to_add w) -
   keys_column fuel id spec i (prng_keys_to_subtract w)) mod ivs_modulus spec.

Lemma Result_sum ops s r s' id :
  sum_inv ops s → Result s = Ok (r, s') → session_id_ (impl_ s) = Some id → draws_masks fuel id specs →
  ∃ accepted w, accepted_ok ops (statuses s) accepted ∧ Initialize (impl_ s) = Ok w ∧
    ∀ spec, spec ∈ specs → ∃ v, r !! ivs_name spec = Some v ∧ packed_shape spec v ∧
      decoded v = session_sum id accepted w spec <$> seq 0 (Z.to_nat (ivs_length spec)).
Proof using HP Hnd Hspecs.
  intros [_ Hinv] Hres Hid Hdraw. apply Result_ok in Hres as (Hk & Hr & _).
  destruct Hinv as (accepted & Hacc & Hsum); [by unfold IsAborted; rewrite Hk|].
  unfold sum_state in Hsum. rewrite Hk in Hsum. destruct (Hsum r Hr id) as (w & Hw & Hpacks); [by split|].
  exists accepted, w. split; [done|]. split; [done|]. intros spec Hin.
  destruct (Hpacks spec Hin) as (v & Hv & Hsh & Hdec). exists v. split; [done|]. split; [done|].
  rewrite Hdec. apply list_fmap_ext. intros j x Hx. apply lookup_seq in Hx as [-> Hlt]. simpl.
  rewrite entry_unmasked; [|done|done| |done|done]; [|eapply total_of_shape, Hacc].
  erewrite entry_total by (done || apply Hacc). unfold session_sum. apply eqmod_rem. drop_mod. done.
Qed.
End session.

(** C2: when the protocol completes, [Result] is the sum of the masked inputs
    that were accepted, each one once, corrected by the masks of the work items
    of the unmasking round. This holds whatever the clients send, whichever of
    them abort and when, and however the tasks of the asynchronous rounds are
    interleaved with the calls, for any number of vectors. *)
Theorem server_result {P : Primitives} {HP : PrimitivesLaws P} (fuel : nat)
    graph minimum total specs async ops s events r s' id :
  NoDup (ivs_name <$> specs) → Forall spec_ok specs → 1 ≤ minimum →
  server_run fuel (new_SecAggServer graph minimum total specs async) ops s events →
  (∀ c vectors, OpReceive c (CS_masked_input_response vectors) ∈ ops → vectors_ok vectors) →
  Result s = Ok (r, s') → session_id_ (impl_ s) = Some id → draws_masks fuel id specs →
  ∃ accepted w,
    accepted_ok specs ops (statuses s) accepted ∧ Initialize (impl_ s) = Ok w ∧
    ∀ spec, spec ∈ specs → ∃ v, r !! ivs_name spec = Some v ∧ packed_shape spec v ∧
      decoded v = session_sum fuel id accepted w spec <$> seq 0 (Z.to_nat (ivs_length spec)).
Proof.
  intros Hnd Hspecs Hmin Hrun Hvec. eapply (Result_sum fuel specs Hnd Hspecs).
  by eapply server_run_sum.
Qed.
