(* ===== verification/Reconstruction.v ===== *)
(** * Recovering the keys of the clients

    What [HandleShamirReconstruction] returns when the rows of the two tables
    hold shares of the secrets of the clients. *)

From S2P Require Import Prelude Bytes Shamir ShamirCorrect Prng SecAggVector Graph Crypto Client.
From S2P Require Import Accumulator ServerImpl ServerCorrect.

(** A loop that computes one value per item of a map and collects the values;
    [inv] holds of what the loop threads through. *)
Lemma for_each_collect {A B S} (body : Z * A → gmap Z B * S → Res (gmap Z B * S)) (inv : S → Prop)
    (value : Z → A → B) (l : list (Z * A)) :
  (∀ k x m s, (k, x) ∈ l → inv s → ∃ s',
     body (k, x) (m, s) = Ok ((<[k := value k x]> m), s') ∧ inv s') →
  ∀ m s, NoDup l.*1 → inv s → ∃ m' s', for_each body l (m, s) = Ok (m', s') ∧ inv s' ∧
    ∀ k b, m' !! k = Some b ↔
      (∃ x, (k, x) ∈ l ∧ b = value k x) ∨ ((k ∉ l.*1) ∧ m !! k = Some b).
Proof.
  induction l as [|[k x] l IH]; intros Hbody m s Hnd Hs.
  { exists m, s. split_and!; [done|done|]. intros k b. split.
    - intros H. right. split; [apply not_elem_of_nil|done].
    - intros [(x & []%not_elem_of_nil & _)|[_ ?]]; done. }
  rewrite fmap_cons in Hnd. apply NoDup_cons in Hnd as [Hk Hnd]. simpl in Hk.
  destruct (Hbody k x m s) as (s1 & Hb & Hs1); [apply list_elem_of_here|done|].
  destruct (IH (λ k' x' m' s' Hin, Hbody k' x' m' s' (list_elem_of_further _ _ _ Hin))
    (<[k := value k x]> m) s1 Hnd Hs1) as (m' & s' & Hrest & Hs' & Hm').
  exists m', s'. simpl. rewrite Hb. simpl. split_and!; [done|done|]. intros k' b. rewrite Hm'.
  rewrite not_elem_of_cons. setoid_rewrite elem_of_cons. destruct (decide (k' = k)) as [->|Hne].
  - rewrite lookup_insert_eq. split.
    + intros [(x' & Hin & _)|[_ [= <-]]]; [|left; by exists x; auto].
      destruct Hk. apply list_elem_of_fmap. by exists (k, x').
    + intros [(x' & [[= <-]|Hin] & ->)|[[] _]]; [by right|..|done].
      destruct Hk. apply list_elem_of_fmap. by exists (k, x').
  - rewrite lookup_insert_ne by done. split.
    + intros [(x' & Hin & ->)|[Hn Hl]]; [left; by exists x'; auto|by right].
    + intros [(x' & [[= ??]|Hin] & ->)|[[_ Hn] Hl]]; [done|left; by exists x'|by right].
Qed.

(** A loop that ends well passed every item. *)
Lemma for_each_steps {A S} (body : A → S → Res S) (inv : S → Prop) (Q : A → Prop) l :
  (∀ x s s', x ∈ l → inv s → body x s = Ok s' → inv s' ∧ Q x) →
  ∀ s s', inv s → for_each body l s = Ok s' → Forall Q l.
Proof.
  induction l as [|x l IH]; intros Hbody s s' Hs H; [done|]. simpl in H.
  apply bind_ok in H as (s1 & H1 & H2).
  destruct (Hbody x s s1) as [Hs1 Hx]; [apply list_elem_of_here|done|done|].
  constructor; [done|]. eapply IH; [|exact Hs1|exact H2]. intros y t t' Hy. apply Hbody.
  by apply list_elem_of_further.
Qed.

(** A loop that crashes does so at one of its items. *)
Lemma for_each_crash {A S} (body : A → S → Res S) (inv : S → Prop) l :
  (∀ x s s', x ∈ l → inv s → body x s = Ok s' → inv s') →
  ∀ s, inv s → for_each body l s = Crash → ∃ x s', x ∈ l ∧ inv s' ∧ body x s' = Crash.
Proof.
  induction l as [|x l IH]; intros Hbody s Hs H; [done|]. simpl in H.
  destruct (body x s) as [s1| |] eqn:Hb; try done.
  - destruct (IH (λ y t t' Hy, Hbody y t t' (list_elem_of_further _ _ _ Hy)) s1) as (y & s' & Hy & ? & ?); [|done|].
    { eapply Hbody; [apply list_elem_of_here|exact Hs|exact Hb]. }
    exists y, s'. split; [by apply list_elem_of_further|done].
  - exists x, s. split; [apply list_elem_of_here|done].
Qed.

(** Shares of [secret] for [n] neighbors, some of which are missing; if enough of
    them are there, they can be put together without an overflow of the 32-bit
    accumulator of [Reconstruct]. *)
Definition shares_of (threshold n : Z) (secret : list Z) (row : list (list Z)) : Prop :=
  length secret = 32%nat ∧ Forall is_byte secret ∧ n < 2 ^ 31 ∧
  (∃ tape shares tape', Share threshold n secret tape = Ok (Some (shares, tape')) ∧
     sub_shares shares row) ∧
  (threshold ≤ num_present row → Reconstruct_in_range threshold row 32 = true).

Lemma shares_of_enough threshold n secret row sss :
  shares_of threshold n secret row → sss_ok sss → threshold ≤ num_present row →
  ∃ sss', Reconstruct sss threshold row 32 = Ok (secret, sss') ∧ sss_ok sss'.
Proof.
  intros (Hlen & Hb & Hn & (tape & shares & tape' & Hshare & Hsub) & Hrange) Hsss Hnum.
  pose proof (Reconstruct_enough_shares sss threshold n secret tape shares tape' row) as H.
  rewrite Hlen in H. specialize (Hrange Hnum). by apply H.
Qed.

Lemma shares_of_few threshold n secret row sss :
  shares_of threshold n secret row → num_present row < threshold →
  ∃ message, Reconstruct sss threshold row 32 = Error FAILED_PRECONDITION message.
Proof.
  intros (Hlen & Hb & Hn & (tape & shares & tape' & Hshare & Hsub) & _) Hnum. eexists.
  pose proof (Reconstruct_too_few_shares sss threshold n secret tape shares tape' row) as H.
  rewrite Hlen in H. by apply H.
Qed.

(** The size of the shares tells [CreateFromShares] that the key has 32 bytes. *)
Lemma shares_of_length threshold n secret row :
  shares_of threshold n secret row → Forall (λ s, s = [] ∨ length s = 36%nat) row ∧ 2 ≤ threshold.
Proof.
  intros (Hlen & Hb & Hn & (tape & shares & tape' & Hshare & Hsub) & _).
  destruct (Share_ok _ _ _ _ _ _ Hb ltac:(rewrite Hlen; lia) Hshare)
    as (_ & ? & subsecrets & polys & _ & Hls & _ & Hpolys & ->). split; [|lia].
  assert (length polys = 9%nat) as Hp.
  { rewrite <- (Forall2_length _ _ _ Hpolys). rewrite Hlen in Hls. apply Nat2Z.inj. by rewrite Hls. }
  apply Forall_forall. intros s Hin. apply list_elem_of_lookup in Hin as [i Hi].
  destruct (Forall2_lookup_r _ _ _ _ _ Hsub Hi) as (s0 & Hs0 & [-> | ->]); [by left|]. right.
  apply list_lookup_fmap_Some in Hs0 as (x & -> & _). by rewrite length_share_of, Hp.
Qed.

Lemma share_key_length_32 row :
  Forall (λ s, s = [] ∨ length s = 36%nat) row → ∀ i,
  share_key_length row = Ok (if bool_decide (present i row = []) then 0 else AesKey_kSize).
Proof.
  induction 1 as [|s row Hs Hrow IH]; intros i; [done|].
  simpl. destruct Hs as [-> | Hs].
  - simpl. apply IH.
  - rewrite Hs. simpl. rewrite (bool_decide_false (s = [])) by (by intros ->). done.
Qed.

Section reconstruction.
Context {P : Primitives} (threshold n : Z) (secret self_key : Z → list Z).

Lemma CreateFromShares_enough key row :
  shares_of threshold n key row → threshold ≤ num_present row →
  CreateFromShares row threshold = Ok key.
Proof.
  intros Hrow Hnum. destruct (shares_of_length _ _ _ _ Hrow) as [Hl Ht]. unfold CreateFromShares.
  rewrite (share_key_length_32 _ Hl 0). rewrite bool_decide_false by
    (intros E; unfold num_present in Hnum; rewrite E in Hnum; simpl in Hnum; lia).
  cbn [mbind Res_bind]. change (AesKey_kSize =? 0) with false. cbn [negb fcp_check].
  destruct (shares_of_enough _ _ _ _ _ Hrow new_sss_ok Hnum) as (sss' & Hr & _).
  change AesKey_kSize with 32. rewrite Hr. cbn [mbind Res_bind].
  change (32 =? kLegacyKeySize) with false. unfold new_AesKey. by rewrite (proj1 Hrow).
Qed.

Lemma CreateFromShares_few key row x :
  shares_of threshold n key row → CreateFromShares row threshold = Ok x → threshold ≤ num_present row.
Proof.
  intros Hrow H. destruct (Z.le_gt_cases threshold (num_present row)) as [?|Hfew]; [done|].
  destruct (shares_of_length _ _ _ _ Hrow) as [Hl Ht]. unfold CreateFromShares in H.
  rewrite (share_key_length_32 _ Hl 0) in H. cbn [mbind Res_bind] in H.
  destruct (shares_of_few _ _ _ _ new_ShamirSecretSharing Hrow) as [message Hm]; [lia|].
  case_bool_decide; [done|]. change (AesKey_kSize =? 0) with false in H. cbn [negb fcp_check] in H.
  change AesKey_kSize with 32 in H. by rewrite Hm in H.
Qed.

Lemma CreateFromShares_crash key row :
  shares_of threshold n key row → CreateFromShares row threshold = Crash → num_present row = 0.
Proof.
  intros Hrow H. destruct (Z.le_gt_cases threshold (num_present row)) as [Hnum|Hfew].
  { by rewrite (CreateFromShares_enough key) in H. }
  destruct (shares_of_length _ _ _ _ Hrow) as [Hl Ht]. unfold CreateFromShares in H.
  rewrite (share_key_length_32 _ Hl 0) in H. cbn [mbind Res_bind] in H.
  destruct (shares_of_few _ _ _ _ new_ShamirSecretSharing Hrow) as [message Hm]; [lia|].
  case_bool_decide as Hp; [unfold num_present; by rewrite Hp|].
  change (AesKey_kSize =? 0) with false in H. cbn [negb fcp_check] in H.
  change AesKey_kSize with 32 in H. by rewrite Hm in H.
Qed.

(** A row that recovers the private key of client [j]. *)
Definition recovers (item : Z * list (list Z)) : Prop :=
  threshold ≤ num_present item.2 ∧ ec_set_private_key (secret item.1) = true.

Lemma reconstruct_pairwise_ok j row m sss :
  shares_of threshold n (secret j) row → sss_ok sss → recovers (j, row) →
  ∃ sss', reconstruct_pairwise threshold (j, row) (m, sss) = Ok (<[j := secret j]> m, sss') ∧ sss_ok sss'.
Proof.
  intros Hrow Hsss [Hnum Hec]. unfold reconstruct_pairwise. cbn [fst snd] in *.
  change EcdhPrivateKey_kSize with 32.
  destruct (shares_of_enough _ _ _ _ _ Hrow Hsss Hnum) as (sss' & -> & Hsss'). cbn [mbind Res_bind].
  pose proof (proj1 Hrow) as Hlen. unfold CreateFromPrivateKey, new_EcdhPrivateKey.
  rewrite take_ge by (by rewrite Hlen). rewrite Hlen, Hec. simpl. by exists sss'.
Qed.

Lemma reconstruct_pairwise_recovers j row m sss acc :
  shares_of threshold n (secret j) row → sss_ok sss →
  reconstruct_pairwise threshold (j, row) (m, sss) = Ok acc → sss_ok acc.2 ∧ recovers (j, row).
Proof.
  intros Hrow Hsss. unfold reconstruct_pairwise, recovers. cbn [fst snd].
  change EcdhPrivateKey_kSize with 32.
  destruct (Z.le_gt_cases threshold (num_present row)) as [Hnum|Hfew].
  - destruct (shares_of_enough _ _ _ _ _ Hrow Hsss Hnum) as (sss' & -> & Hsss'). cbn [mbind Res_bind].
    pose proof (proj1 Hrow) as Hlen. unfold CreateFromPrivateKey, new_EcdhPrivateKey.
    rewrite take_ge by (by rewrite Hlen). rewrite Hlen. simpl.
    destruct (ec_set_private_key (secret j)); simpl; [|done]. by intros [= <-].
  - destruct (shares_of_few _ _ _ _ sss Hrow) as [message ->]; [lia|done].
Qed.

Lemma reconstruct_pairwise_crash j row m sss :
  shares_of threshold n (secret j) row → sss_ok sss → reconstruct_pairwise threshold (j, row) (m, sss) ≠ Crash.
Proof.
  intros Hrow Hsss. unfold reconstruct_pairwise. cbn [fst snd]. change EcdhPrivateKey_kSize with 32.
  destruct (Z.le_gt_cases threshold (num_present row)) as [Hnum|Hfew].
  - destruct (shares_of_enough _ _ _ _ _ Hrow Hsss Hnum) as (sss' & -> & _). cbn [mbind Res_bind].
    pose proof (proj1 Hrow) as Hlen. unfold CreateFromPrivateKey, new_EcdhPrivateKey.
    rewrite take_ge by (by rewrite Hlen). rewrite Hlen. simpl. by destruct (ec_set_private_key (secret j)).
  - by destruct (shares_of_few _ _ _ _ sss Hrow) as [message ->]; [lia|].
Qed.

Context (im : Impl) (pairwise self : gmap Z (list (list Z))).
Context (Hpw : pairwise_shamir_share_table_ im = Some pairwise).
Context (Hself : self_shamir_share_table_ im = Some self).
Context (Hthreshold : minimum_surviving_neighbors_for_reconstruction im = threshold).
Context (Hpw_rows : ∀ j row, pairwise !! j = Some row → shares_of threshold n (secret j) row).
Context (Hself_rows : ∀ i row, self !! i = Some row → shares_of threshold n (self_key i) row).

(** Enough shares in every row, and private keys that the library accepts. *)
Definition all_recover : Prop :=
  (∀ j row, pairwise !! j = Some row → recovers (j, row)) ∧
  (∀ i row, self !! i = Some row → threshold ≤ num_present row).

(** The secrets of the clients that have a row. *)
Definition exact_keys (r : ShamirReconstructionResult) : Prop :=
  (∀ j key, aborted_client_key_agreements r !! j = Some key ↔
     is_Some (pairwise !! j) ∧ key = secret j) ∧
  (∀ i key, self_keys r !! i = Some key ↔ is_Some (self !! i) ∧ key = self_key i).

Lemma collected {B} (m : gmap Z B) (table : gmap Z (list (list Z))) (value : Z → B) :
  (∀ k b, m !! k = Some b ↔
    (∃ x, (k, x) ∈ map_to_list table ∧ b = value k) ∨
    ((k ∉ (map_to_list table).*1) ∧ (∅ : gmap Z B) !! k = Some b)) →
  ∀ k b, m !! k = Some b ↔ is_Some (table !! k) ∧ b = value k.
Proof using.
  intros H k b. rewrite H. setoid_rewrite elem_of_map_to_list. split.
  - intros [(x & Hx & ->)|[_ Hn]]; [split; [by eexists|done]|by rewrite lookup_empty in Hn].
  - intros [[x Hx] ->]. left. by exists x.
Qed.

Lemma reconstruction_succeeds :
  all_recover → ∃ r, HandleShamirReconstruction im = Ok r ∧ exact_keys r.
Proof using Hpw Hself Hthreshold Hpw_rows Hself_rows.
  intros [Hrec Hnum]. unfold HandleShamirReconstruction. rewrite Hpw, Hself, Hthreshold. cbv zeta.
  destruct (for_each_collect (reconstruct_pairwise threshold) sss_ok (λ j _, secret j)
    (map_to_list pairwise)) with (m := ∅ : gmap Z (list Z)) (s := new_ShamirSecretSharing)
    as (m & sss & -> & _ & Hm).
  { intros j row m sss Hin%elem_of_map_to_list Hsss.
    apply reconstruct_pairwise_ok; [by apply Hpw_rows|done|by apply Hrec]. }
  { apply NoDup_fst_map_to_list. } { apply new_sss_ok. }
  cbn [mbind Res_bind].
  destruct (for_each_collect (λ item (acc : gmap Z (list Z) * unit),
      key ← CreateFromShares item.2 threshold; Ok (<[item.1 := key]> acc.1, acc.2)) (λ _, True)
    (λ i _, self_key i) (map_to_list self)) with (m := ∅ : gmap Z (list Z)) (s := ())
    as (m' & u & Hloop & _ & Hm').
  { intros i row m' u Hin%elem_of_map_to_list _. exists u. cbn [fst snd].
    by rewrite (CreateFromShares_enough (self_key i)) by eauto. }
  { apply NoDup_fst_map_to_list. } { done. }
  assert (∀ l m0 u0 m1 u1, for_each (λ item (acc : gmap Z (list Z) * unit),
      key ← CreateFromShares item.2 threshold; Ok (<[item.1 := key]> acc.1, acc.2)) l (m0, u0) =
      Ok (m1, u1) →
    for_each (λ (item : Z * list (list Z)) keys, reconstructed ← CreateFromShares item.2 threshold;
      Ok (<[item.1 := reconstructed]> keys)) l m0 = Ok m1) as Hproj.
  { induction l as [|item l IH]; intros m0 u0 m1 u1 H; [by injection H as <- _|]. simpl in *.
    destruct (CreateFromShares item.2 threshold); simpl in *; [by eapply IH|done|done]. }
  rewrite (Hproj _ _ _ _ _ Hloop). simpl. eexists. split; [done|]. split; simpl.
  - by apply (collected m pairwise secret).
  - by apply (collected m' self self_key).
Qed.

Lemma reconstruction_needs_all r : HandleShamirReconstruction im = Ok r → all_recover.
Proof using Hpw Hself Hthreshold Hpw_rows Hself_rows.
  unfold HandleShamirReconstruction. rewrite Hpw, Hself, Hthreshold. cbv zeta.
  intros ([agreements sss] & H1 & (keys & H2 & _)%bind_ok)%bind_ok. split.
  - apply (for_each_steps _ (λ acc, sss_ok acc.2) recovers) in H1; [|..|apply new_sss_ok].
    { intros j row Hrow. rewrite Forall_forall in H1. apply H1. by apply elem_of_map_to_list. }
    intros [j row] [m s] acc Hin%elem_of_map_to_list Hs Hb.
    eapply reconstruct_pairwise_recovers; [by apply Hpw_rows|exact Hs|exact Hb].
  - apply (for_each_steps _ (λ _, True) (λ item, threshold ≤ num_present item.2)) in H2; [|..|done].
    { intros i row Hrow. rewrite Forall_forall in H2. apply (H2 (i, row)). by apply elem_of_map_to_list. }
    intros [i row] m m' Hin%elem_of_map_to_list _ (key & Hkey & _)%bind_ok. split; [done|].
    eapply CreateFromShares_few; [by apply Hself_rows|exact Hkey].
Qed.

Lemma reconstruction_exact r : HandleShamirReconstruction im = Ok r → exact_keys r.
Proof using Hpw Hself Hthreshold Hpw_rows Hself_rows.
  intros Hr. pose proof Hr as Hall%reconstruction_needs_all.
  destruct (reconstruction_succeeds Hall) as (r' & Hr' & Hexact). congruence.
Qed.

Lemma reconstruction_crash :
  HandleShamirReconstruction im = Crash → ∃ i row, self !! i = Some row ∧ num_present row = 0.
Proof using Hpw Hself Hthreshold Hpw_rows Hself_rows.
  unfold HandleShamirReconstruction. rewrite Hpw, Hself, Hthreshold. cbv zeta.
  destruct (for_each _ (map_to_list pairwise) _) as [[agreements sss]| |] eqn:H1; cbn [mbind Res_bind]; [|done|].
  - destruct (for_each _ (map_to_list self) _) as [keys| |] eqn:H2; cbn [mbind Res_bind]; try done. intros _.
    apply (for_each_crash _ (λ _, True)) in H2 as ([i row] & m & Hin%elem_of_map_to_list & _ & Hc); [|done|done].
    exists i, row. split; [done|]. cbn [fst snd] in Hc.
    eapply CreateFromShares_crash; [by apply Hself_rows|]. by destruct (CreateFromShares row threshold).
  - intros _. apply (for_each_crash _ (λ acc, sss_ok acc.2)) in H1; [|..|apply new_sss_ok].
    + destruct H1 as ([j row] & [m s] & Hin%elem_of_map_to_list & Hs & Hc).
      by apply reconstruct_pairwise_crash in Hc; [|by apply Hpw_rows|].
    + intros [j row] [m s] acc Hin%elem_of_map_to_list Hs Hb.
      eapply reconstruct_pairwise_recovers; [by apply Hpw_rows|exact Hs|exact Hb].
Qed.

(** C6: the server recovers the keys of the clients or nothing. Let the rows of its
    tables hold shares, some of them missing, of the private keys of the clients
    that dropped out and of the self keys of the others, such that the 32-bit
    accumulator of [Reconstruct] does not overflow on the rows with at least
    [threshold] shares. Then [HandleShamirReconstruction] succeeds exactly when
    every row has at least [threshold] shares and the private keys are valid, and
    what it returns are the secrets that the clients shared, one for each row. It
    returns an error otherwise, unless a row of a self key has no share at all:
    only then can a check fail. *)
Theorem HandleShamirReconstruction_correct :
  (all_recover ↔ ∃ r, HandleShamirReconstruction im = Ok r) ∧
  (∀ r, HandleShamirReconstruction im = Ok r → exact_keys r) ∧
  (¬ all_recover → (∀ i row, self !! i = Some row → num_present row ≠ 0) →
    ∃ code message, HandleShamirReconstruction im = Error code message).
Proof using Hpw Hself Hthreshold Hpw_rows Hself_rows.
  split.
  - split; [intros (r & ? & _)%reconstruction_succeeds; by exists r|].
    intros [r Hr]. by eapply reconstruction_needs_all.
  - split; [apply reconstruction_exact|]. intros Hnot Hsome.
    destruct (HandleShamirReconstruction im) as [r|code message|] eqn:H; [|by eauto|].
    + by apply reconstruction_needs_all in H.
    + apply reconstruction_crash in H as (i & row & Hrow & Hz). by apply Hsome in Hrow.
Qed.
End reconstruction.
