(* ===== verification/Cancellation.v ===== *)
(** * The masks cancel

    What the masked inputs of honest clients and the work items of the server
    add up to. Clients that were heard of in round 2 put the mask of a common
    key into the sum with opposite signs; the server removes the self masks of
    these clients, and their masks towards the clients that dropped out after
    round 1. So the result of a session is the sum of the inputs.  The first
    part has the algebra of finite sums over lists. *)

From S2P Require Import Prelude Bytes Interpolation Shamir SecAggVector SecAggVectorCorrect Prng.
From S2P Require Import MapOfMasks MasksCorrect VectorMaps Graph Crypto Client ClientCorrect.
From S2P Require Import Accumulator ServerImpl Server ServerCorrect ServerSum ServerUnmask.
From S2P Require Import ServerSession Reconstruction.

(** ** Finite sums *)

(** The sum of [f] over [l]. *)
Definition sum_on {A} (l : list A) (f : A → Z) : Z := sumZ (f <$> l).

Section sums.
Context {A : Type}.
Implicit Types (l : list A) (f h : A → Z).

Lemma sum_on_cons x l f : sum_on (x :: l) f = f x + sum_on l f.
Proof. done. Qed.

Lemma sum_on_app l l' f : sum_on (l ++ l') f = sum_on l f + sum_on l' f.
Proof. induction l as [|x l IH]; [done|]. simpl. rewrite !sum_on_cons. lia. Qed.

Lemma sum_on_ext l f h : (∀ x, x ∈ l → f x = h x) → sum_on l f = sum_on l h.
Proof.
  induction l as [|x l IH]; intros H; [done|]. rewrite !sum_on_cons, IH, H; [done|..].
  - apply list_elem_of_here.
  - intros y Hy. apply H. by apply list_elem_of_further.
Qed.

Lemma sum_on_add l f h : sum_on l (λ x, f x + h x) = sum_on l f + sum_on l h.
Proof. induction l as [|x l IH]; [done|]. rewrite !sum_on_cons. lia. Qed.

Lemma sum_on_sub l f h : sum_on l (λ x, f x - h x) = sum_on l f - sum_on l h.
Proof. induction l as [|x l IH]; [done|]. rewrite !sum_on_cons. lia. Qed.

Lemma sum_on_opp l f : sum_on l (λ x, - f x) = - sum_on l f.
Proof. induction l as [|x l IH]; [done|]. rewrite !sum_on_cons. lia. Qed.

Lemma sum_on_zero l f : (∀ x, x ∈ l → f x = 0) → sum_on l f = 0.
Proof.
  intros H. rewrite (sum_on_ext l f (λ _, 0)) by done. clear H. induction l; [done|].
  by rewrite sum_on_cons.
Qed.

Lemma sum_on_perm l l' f : l ≡ₚ l' → sum_on l f = sum_on l' f.
Proof. induction 1; rewrite ?sum_on_cons; lia. Qed.

Lemma sum_on_filter (Q : A → Prop) `{∀ x, Decision (Q x)} l f :
  sum_on (filter Q l) f = sum_on l (λ x, if decide (Q x) then f x else 0).
Proof.
  induction l as [|x l IH]; [done|]. rewrite filter_cons, sum_on_cons, <- IH.
  destruct (decide (Q x)); rewrite ?sum_on_cons; lia.
Qed.

Lemma sum_on_eqmod m l f h :
  (∀ x, x ∈ l → f x ≡ h x [mod m]) → sum_on l f ≡ sum_on l h [mod m].
Proof.
  induction l as [|x l IH]; intros H; [done|]. rewrite !sum_on_cons, IH, H; [done|..].
  - apply list_elem_of_here.
  - intros y Hy. apply H. by apply list_elem_of_further.
Qed.
End sums.

Lemma sum_on_fmap {A B} (t : A → B) (l : list A) f : sum_on (t <$> l) f = sum_on l (λ x, f (t x)).
Proof. unfold sum_on. by rewrite <- list_fmap_compose. Qed.

Lemma sum_on_bind {A B} (t : A → list B) (l : list A) f :
  sum_on (l ≫= t) f = sum_on l (λ x, sum_on (t x) f).
Proof. induction l as [|x l IH]; [done|]. rewrite bind_cons, sum_on_app, sum_on_cons. lia. Qed.

Lemma sum_on_swap {A B} (l : list A) (l' : list B) (f : A → B → Z) :
  sum_on l (λ x, sum_on l' (f x)) = sum_on l' (λ y, sum_on l (λ x, f x y)).
Proof.
  induction l as [|x l IH]; [symmetry; by apply sum_on_zero|].
  rewrite sum_on_cons, IH, <- sum_on_add. done.
Qed.

(** What [x] contributes against [y] is undone by what [y] contributes against
    [x]. *)
Lemma sum_on_antisymmetric {A} (l : list A) (f : A → A → Z) :
  (∀ x y, x ∈ l → y ∈ l → f x y = - f y x) → sum_on l (λ x, sum_on l (f x)) = 0.
Proof.
  intros H. enough (sum_on l (λ x, sum_on l (f x)) = - sum_on l (λ x, sum_on l (f x))) by lia.
  rewrite sum_on_swap at 1. rewrite <- sum_on_opp. apply sum_on_ext. intros x Hx.
  rewrite <- sum_on_opp. apply sum_on_ext. intros y Hy. by apply H.
Qed.

(** ** The masks of a session *)

Lemma at_inv {A} (l : list A) i x : at_ l i = Ok x → 0 ≤ i ∧ l !! Z.to_nat i = Some x.
Proof.
  unfold at_. destruct (Z.ltb_spec i 0); [done|]. destruct (l !! Z.to_nat i); [|done].
  by intros [= ->].
Qed.

Lemma filter_ext_in {A} (Q Q' : A → Prop) `{∀ x, Decision (Q x), ∀ x, Decision (Q' x)} (l : list A) :
  (∀ x, x ∈ l → Q x ↔ Q' x) → filter Q l = filter Q' l.
Proof.
  induction l as [|x l IH]; intros H'; [done|]. rewrite !filter_cons, IH.
  - destruct (decide (Q x)) as [q|q], (decide (Q' x)) as [q'|q']; try done; exfalso;
      apply (H' x) in q || apply q, (H' x); done || apply list_elem_of_here.
  - intros y Hy. apply H'. by apply list_elem_of_further.
Qed.

Section cancel.
Context {P : Primitives} {HP : PrimitivesLaws P} (fuel : nat).
Context (g : SecretSharingGraph) {Hg : GraphLaws g}.

(** The private keys of the pairwise masks, the self keys, who finished round 1
    and whose input is in the sum. *)
Context (secret self_key : Z → list Z) (shared included : Z → bool).

(** The key that two clients agree on. *)
Definition agreed (i j : Z) : list Z := ecdh_compute_key (secret i) (ec_public_key (secret j)).

Lemma agreed_sym i j : agreed i j = agreed j i.
Proof using HP. apply ecdh_symmetric. Qed.

(** The view that client [i] has in round 2 when all messages were delivered:
    its own index, the session, who is alive, and the keys. *)
Record honest_client (id : list Z) (i : Z) (d : R2Data) (states : list OtherClientState) : Prop := {
  hc_own : GetNeighborIndex g i i = Ok (Some (r2_client_id d));
  hc_session : r2_session_id d = id;
  hc_length : Z.of_nat (length states) = GetDegree g;
  hc_self : r2_self_prng_key d = self_key i;
  hc_alive : ∀ k j, 0 ≤ k → GetNeighbor g i k = Ok j →
    states !! Z.to_nat k = Some kAlive ↔ shared j = true;
  hc_keys : ∀ k j, 0 ≤ k → GetNeighbor g i k = Ok j → j ≠ i → shared j = true →
    r2_prng_keys d !! Z.to_nat k = Some (agreed i j)
}.

(** What the server knows when it computes the work items. *)
Record honest_server (im : Impl) (r : ShamirReconstructionResult) : Prop := {
  hs_graph : secret_sharing_graph_ im = g;
  hs_total : total_number_of_clients im = GetNumNodes g;
  hs_included : ∀ i st, client_status im i = Ok st → is_included st = included i;
  hs_shared : ∀ i, included i = true → shared i = true;
  hs_public : ∀ i, 0 ≤ i < GetNumNodes g → included i = true →
    at_ (pairwise_public_keys_ im) i = Ok (PublicKey (secret i));
  hs_self : ∀ i, 0 ≤ i < GetNumNodes g → included i = true → self_keys r !! i = Some (self_key i);
  hs_dropped : ∀ j key, aborted_client_key_agreements r !! j = Some key ↔
    0 ≤ j < GetNumNodes g ∧ shared j = true ∧ included j = false ∧ key = secret j
}.

Definition nodes : list Z := seqZ 0 (GetNumNodes g).

Lemma elem_nodes i : i ∈ nodes ↔ 0 ≤ i < GetNumNodes g.
Proof using. unfold nodes. rewrite elem_of_seqZ. lia. Qed.

Definition neighbor (i j : Z) : bool :=
  match AreNeighbors g i j with Ok b => b | _ => false end.
Definition outgoing (i j : Z) : bool :=
  match IsOutgoingNeighbor g i j with Ok b => b | _ => false end.

(** What the key of [i] and [j] contributes to the mask of [i], when the mask
    of a key is [mask]. *)
Definition signed (mask : list Z → Z) (i j : Z) : Z :=
  if neighbor i j && negb (bool_decide (i = j)) then
    (if outgoing i j then - mask (agreed i j) else mask (agreed i j))
  else 0.

Lemma signed_antisymmetric mask i j : i ∈ nodes → j ∈ nodes → signed mask i j = - signed mask j i.
Proof using HP Hg.
  intros Hi%elem_nodes Hj%elem_nodes. unfold signed, neighbor, outgoing.
  rewrite (graph_symmetric j i), (agreed_sym j i) by done.
  destruct (decide (i = j)) as [->|Hne].
  { rewrite !(bool_decide_true (j = j)) by done. simpl. by rewrite !andb_false_r. }
  rewrite !bool_decide_false by done. destruct (AreNeighbors g i j) as [[]| |] eqn:Hn; try done.
  destruct (graph_oriented i j) as (b & -> & ->); [done..|]. destruct b; simpl; lia.
Qed.

(** *** The mask of a client *)

Lemma neighbor_keys_sum mask f own states keys : ∀ i,
  sum_on (neighbor_keys f own i states keys) mask =
  sum_on (seqZ i (Z.of_nat (length states))) (λ k,
    if negb (k =? own) && bool_decide (states !! Z.to_nat (k - i) = Some kAlive) && f k
    then mask (default [] (keys !! Z.to_nat k)) else 0).
Proof using.
  induction states as [|st states IH]; intros i; [done|].
  cbn [length neighbor_keys]. rewrite seqZ_cons by lia. rewrite sum_on_cons.
  rewrite Z.sub_diag. cbn [lookup list_lookup Z.to_nat].
  assert (sum_on (neighbor_keys f own (i + 1) states keys) mask =
    sum_on (seqZ (Z.succ i) (Z.pred (Z.of_nat (S (length states))))) (λ k,
      if negb (k =? own) && bool_decide ((st :: states) !! Z.to_nat (k - i) = Some kAlive) && f k
      then mask (default [] (keys !! Z.to_nat k)) else 0)) as <-.
  { rewrite IH. replace (Z.pred (Z.of_nat (S (length states)))) with (Z.of_nat (length states)) by lia.
    replace (Z.succ i) with (i + 1) by lia. apply sum_on_ext. intros k Hk%elem_of_seqZ.
    replace (Z.to_nat (k - i)) with (S (Z.to_nat (k - (i + 1)))) by lia. done. }
  rewrite (bool_decide_ext (Some st = Some kAlive) (st = kAlive)) by (split; congruence).
  destruct (i =? own); simpl; [done|]. case_bool_decide; simpl; [|done].
  destruct (f i); simpl; rewrite ?sum_on_cons; lia.
Qed.

(** The neighbors of [i], in the order of their indices. *)
Definition neighbors_of (i : Z) : list Z :=
  (λ k, match GetNeighbor g i k with Ok j => j | _ => -1 end) <$> seqZ 0 (GetDegree g).

Lemma neighbors_of_perm i : i ∈ nodes → neighbors_of i ≡ₚ filter (λ j, neighbor i j = true) nodes.
Proof using Hg.
  intros Hi%elem_nodes. unfold neighbors_of. apply NoDup_Permutation.
  - apply NoDup_fmap_2_strong; [|apply NoDup_seqZ]. intros k k' Hk%elem_of_seqZ Hk'%elem_of_seqZ.
    destruct (graph_neighbor i k) as (j & -> & _ & Hj); [done|lia|].
    destruct (graph_neighbor i k') as (j' & -> & _ & Hj'); [done|lia|]. intros ->. congruence.
  - apply NoDup_filter, NoDup_seqZ.
  - intros j. rewrite list_elem_of_fmap, list_elem_of_filter, elem_nodes. split.
    + intros (k & -> & Hk%elem_of_seqZ).
      destruct (graph_neighbor i k) as (j & -> & Hj & Hidx); [done|lia|]. split; [|done].
      destruct (graph_index i j) as (o & Ho & _ & Hn); [done..|]. rewrite Hidx in Ho.
      injection Ho as <-. unfold neighbor. rewrite Hn. by apply bool_decide_eq_true_2.
    + intros [Hn Hj]. unfold neighbor in Hn.
      destruct (graph_index i j) as (o & Ho & Hk & Hn'); [done..|]. rewrite Hn' in Hn.
      apply bool_decide_eq_true in Hn as [k ->]. destruct (Hk k) as [Hr Hg']; [done|].
      exists k. rewrite Hg'. split; [done|]. apply elem_of_seqZ. lia.
Qed.

(** The pairwise part of the mask of an honest client, neighbor by neighbor. *)
Lemma client_pairs mask id i d states :
  i ∈ nodes → honest_client id i d states →
  let own := r2_client_id d in
  sum_on (neighbor_keys (λ k, k <? own) own 0 states (r2_prng_keys d)) mask -
  sum_on (neighbor_keys (λ k, negb (k <? own)) own 0 states (r2_prng_keys d)) mask =
  sum_on nodes (λ j, if shared j then signed mask i j else 0).
Proof using Hg.
  intros Hi [Hown _ Hlen _ Halive Hkeys] own. subst own. set (own := r2_client_id d) in *.
  rewrite !neighbor_keys_sum, Hlen, <- sum_on_sub.
  transitivity (sum_on (neighbors_of i) (λ j, if shared j then signed mask i j else 0)).
  - unfold neighbors_of. rewrite sum_on_fmap. apply sum_on_ext. intros k Hk%elem_of_seqZ.
    apply elem_nodes in Hi. destruct (graph_neighbor i k) as (j & Hj & Hjr & Hidx); [done|lia|].
    rewrite Hj, Z.sub_0_r. destruct (graph_order i j k) as (own' & Hown' & Hout); [done..|].
    rewrite Hown in Hown'. injection Hown' as <-.
    destruct (graph_index i j) as (o & Ho & _ & Hn); [done..|]. rewrite Hidx in Ho. injection Ho as <-.
    assert (k = own ↔ i = j) as Heq.
    { split; [|intros ->; congruence]. intros ->.
      destruct (graph_index i i) as (o & Ho & Hg' & _); [done..|]. rewrite Hown in Ho.
      injection Ho as <-. destruct (Hg' own) as [_ ?]; [done|]. congruence. }
    unfold signed, neighbor, outgoing. rewrite Hn, Hout. change (bool_decide (is_Some (Some k))) with true.
    destruct (Halive k j) as [Ha1 Ha2]; [lia|done|]. fold own.
    destruct (Z.eqb_spec k own) as [->|Hne]; cbn [negb andb].
    { rewrite bool_decide_true by (by apply Heq). simpl. by destruct (shared j). }
    rewrite (bool_decide_false (i = j)) by (by rewrite <- Heq).
    destruct (shared j) eqn:Hs; [|rewrite bool_decide_false; [done|by intros ?%Ha1]].
    rewrite bool_decide_true by (by apply Ha2). rewrite (Hkeys k j) by (done || lia || naive_solver).
    simpl. destruct (Z.ltb_spec k own), (Z.leb_spec own k); simpl; lia.
  - rewrite (sum_on_perm _ _ _ (neighbors_of_perm i Hi)), sum_on_filter. apply sum_on_ext.
    intros j _. unfold signed. destruct (neighbor i j); [done|]. simpl. by destruct (shared j).
Qed.

(** *** The work items of the server *)

Definition direction_sum (mask : list Z → Z) (keys : bool → list (list Z)) : Z :=
  sum_on (keys true) mask - sum_on (keys false) mask.

Lemma pair_keys_sum mask im r i :
  honest_server im r → i ∈ nodes → included i = true →
  direction_sum mask (λ b, pair_keys b im i (map_to_list (aborted_client_key_agreements r))) =
  - sum_on nodes (λ j, if shared j && negb (included j) then signed mask i j else 0).
Proof using HP Hg.
  intros Hs Hi Hinc. set (items := map_to_list _).
  assert (Hitem : ∀ item, item ∈ items → pair_key im i item =
    if neighbor i item.1 then Some (outgoing i item.1, agreed i item.1) else None).
  { intros [j key] Hin. apply elem_of_map_to_list, (hs_dropped _ _ Hs) in Hin as (Hj & _ & Hni & ->).
    apply elem_nodes in Hi. unfold pair_key, neighbor, outgoing. simpl. rewrite (hs_graph _ _ Hs).
    destruct (AreNeighbors g i j) as [[]| |] eqn:Hn; try done. rewrite (hs_public _ _ Hs) by done.
    destruct (graph_oriented i j) as (b & -> & _); [done|done|congruence|done|].
    by rewrite ComputeSharedSecret_PublicKey, (agreed_sym i j : _ = agreed j i). }
  unfold direction_sum, pair_keys. rewrite !sum_on_bind, <- sum_on_sub, <- sum_on_opp.
  transitivity (sum_on items.*1 (λ j, - signed mask i j)).
  - rewrite sum_on_fmap. apply sum_on_ext. intros item Hin. rewrite (Hitem item Hin).
    destruct item as [j key]. apply elem_of_map_to_list, (hs_dropped _ _ Hs) in Hin as (_ & _ & Hni & ->).
    simpl. unfold signed. rewrite (bool_decide_false (i = j)) by congruence.
    destruct (neighbor i j); [|done]. destruct (outgoing i j); simpl; unfold sum_on; simpl; lia.
  - assert (items.*1 ≡ₚ filter (λ j, shared j && negb (included j) = true) nodes) as Hperm.
    { apply NoDup_Permutation; [apply NoDup_fst_map_to_list|apply NoDup_filter, NoDup_seqZ|].
      intros j. rewrite list_elem_of_fmap, list_elem_of_filter, elem_nodes. split.
      - intros ([j' key] & -> & Hin). apply elem_of_map_to_list, (hs_dropped _ _ Hs) in Hin
          as (? & Hsh & Hni & _). simpl. by rewrite Hsh, Hni.
      - intros [[Hsh Hni%negb_true_iff]%andb_true_iff Hj]. exists (j, secret j). split; [done|].
        apply elem_of_map_to_list, (hs_dropped _ _ Hs). done. }
    rewrite (sum_on_perm _ _ _ Hperm), sum_on_filter. apply sum_on_ext. intros j _.
    by destruct (shared j && negb (included j)).
Qed.

Lemma included_clients_perm im r :
  honest_server im r → included_clients im = filter (λ i, included i = true) nodes.
Proof using.
  intros Hs. unfold included_clients, clients, nodes. rewrite (hs_total _ _ Hs).
  apply filter_ext_in. intros i Hi%elem_of_seqZ.
  pose proof (hs_total _ _ Hs) as Htot. unfold total_number_of_clients in Htot.
  unfold client_status, at_. rewrite (proj2 (Z.ltb_ge i 0)) by lia.
  destruct (lookup_lt_is_Some_2 (client_statuses_ im) (Z.to_nat i)) as [st Hst]; [lia|]. rewrite Hst.
  rewrite (hs_included _ _ Hs i st); [done|]. unfold client_status, at_.
  by rewrite (proj2 (Z.ltb_ge i 0)), Hst by lia.
Qed.

(** *** All of them *)

(** The keys of the mask of a client, added up with their signs. *)
Definition mask_sum (mask : list Z → Z) (d : R2Data) (states : list OtherClientState) : Z :=
  sum_on (keys_added d states) mask - sum_on (keys_subtracted d states) mask.

Lemma masks_cancel mask im r w id (view : Z → R2Data * list OtherClientState) :
  honest_server im r → InitializePrng r im = Ok w →
  (∀ i, i ∈ nodes → included i = true → honest_client id i (view i).1 (view i).2) →
  sum_on (included_clients im) (λ i, mask_sum mask (view i).1 (view i).2) +
  sum_on (prng_keys_to_add w) mask - sum_on (prng_keys_to_subtract w) mask = 0.
Proof using HP Hg.
  intros Hs (-> & -> & _)%InitializePrng_ok Hview. rewrite (included_clients_perm _ _ Hs).
  rewrite !sum_on_bind, <- sum_on_add, <- sum_on_sub. set (inc := filter _ nodes).
  rewrite (sum_on_ext inc _ (λ i, sum_on inc (signed mask i))).
  { apply sum_on_antisymmetric. intros i j [_ Hi]%list_elem_of_filter [_ Hj]%list_elem_of_filter.
    by apply signed_antisymmetric. }
  intros i [Hinc Hi]%list_elem_of_filter. pose proof (Hview i Hi Hinc) as Hc.
  pose proof (client_pairs mask _ _ _ _ Hi Hc) as Hpairs. cbv zeta in Hpairs.
  pose proof (pair_keys_sum mask _ _ _ Hs Hi Hinc) as Hserver. unfold direction_sum in Hserver.
  unfold client_subs, client_adds, mask_sum, keys_added, keys_subtracted. rewrite !sum_on_cons.
  rewrite (hs_self _ _ Hs i) by (done || by apply elem_nodes). simpl. rewrite (hc_self _ _ _ _ Hc).
  subst inc. rewrite sum_on_filter.
  assert (sum_on nodes (λ j, if decide (included j = true) then signed mask i j else 0) =
    sum_on nodes (λ j, if shared j then signed mask i j else 0) -
    sum_on nodes (λ j, if shared j && negb (included j) then signed mask i j else 0)) as ->.
  { rewrite <- sum_on_sub. apply sum_on_ext. intros j _.
    destruct (included j) eqn:Hj; simpl; [rewrite (hs_shared _ _ Hs j Hj); simpl; lia|].
    rewrite andb_true_r. destruct (shared j); simpl; lia. }
  lia.
Qed.
End cancel.

(** ** Masked inputs of honest clients *)

Section inputs.
Context {P : Primitives} {HP : PrimitivesLaws P} (fuel : nat).
Context (specs : list InputVectorSpecification).
Context (Hnd : NoDup (ivs_name <$> specs)) (Hspecs : Forall spec_ok specs).

(** Element [e] of the input for [spec], and of the mask of a key. *)
Definition input_at (input : SecAggVectorMap) (spec : InputVectorSpecification) (e : nat) : Z :=
  match input !! ivs_name spec with Some v => default 0 (decoded v !! e) | None => 0 end.
Definition mask_at (id : list Z) (spec : InputVectorSpecification) (e : nat) (key : list Z) : Z :=
  default 0 (mask_of_key fuel id spec key !! e).

Lemma keys_column_sum id spec e keys : keys_column fuel id spec e keys = sum_on keys (mask_at id spec e).
Proof using. unfold keys_column, column, masks_of_keys. by rewrite <- list_fmap_compose. Qed.

Lemma client_mask_at d states spec e :
  (e < Z.to_nat (ivs_length spec))%nat →
  default 0 (client_mask fuel d states spec !! e) =
    mask_sum (mask_at (r2_session_id d) spec e) d states mod ivs_modulus spec.
Proof using.
  intros He. unfold client_mask, combined_mask. rewrite list_lookup_fmap, lookup_seq_lt by done. simpl.
  unfold mask_sum. by rewrite <- !keys_column_sum.
Qed.

(** What the server reads in the message of an honest client. *)
Lemma masked_element c vectors m d states input spec e :
  vectors_ok vectors → check_masked_vectors specs vectors ∅ = Ok m →
  r2_specs d = specs → valid_input input specs → masked_vectors fuel d states input vectors →
  spec ∈ specs → (e < Z.to_nat (ivs_length spec))%nat →
  input_element spec e (c, m) =
    (input_at input spec e + mask_sum (mask_at (r2_session_id d) spec e) d states)
      mod ivs_modulus spec.
Proof using Hnd Hspecs.
  intros Hvec Hcheck Hd [Hval Hvok] Hmasked Hin He.
  apply (check_masked_vectors_shape specs Hnd Hspecs) in Hcheck as [_ ->]; [|done].
  destruct (Hmasked spec) as (v & Hv & Hb); [by rewrite Hd|].
  destruct (valid_input_names _ _ Hnd Hval) as [Hnames _].
  destruct (Hnames spec Hin) as (v' & Hv' & Hm & Hn). rewrite Hv in Hv'. injection Hv' as <-.
  destruct (decoded_ok v (Hvok _ _ Hv)) as [Hdm Hdl]. rewrite Forall_forall in Hspecs.
  pose proof (Hspecs spec Hin) as Hspec. pose proof Hspec as [Hmod Hlen Hsize].
  destruct (combined_mask_in_modulus spec
    (masks_of_keys fuel (r2_session_id d) (keys_added d states) spec)
    (masks_of_keys fuel (r2_session_id d) (keys_subtracted d states) spec) Hspec) as [Hcm Hcl].
  set (sum := add_mod_list (ivs_modulus spec) (decoded v) (client_mask fuel d states spec)).
  assert (length (decoded v) = Z.to_nat (ivs_length spec)) as Hl1 by (rewrite <- Hn; lia).
  assert (length sum = Z.to_nat (ivs_length spec)) as Hl2.
  { subst sum. unfold add_mod_list, client_mask. rewrite length_zip_with. lia. }
  unfold input_element, entry, unpack, SecAggUnpackedVectorMap_of_map. cbn [snd].
  rewrite lookup_fmap, (mask_map_lookup (received_vector vectors)) by (done || intros; apply lookup_empty).
  cbn [fmap option_fmap option_map]. unfold SecAggUnpackedVector_of_vector. cbn [elements].
  assert (received_vector vectors spec = vector_of sum (ivs_modulus spec) false) as ->.
  { unfold received_vector, vector_of. rewrite Hb. simpl. f_equal. lia. }
  fold (decoded (vector_of sum (ivs_modulus spec) false)).
  destruct (GetBitWidth_bounds _ Hmod) as (_ & _ & ?).
  rewrite decoded_vector_of; [|done|by apply add_mod_list_in_modulus; lia|rewrite Hl2; lia].
  subst sum. rewrite add_mod_list_lookup by (unfold client_mask; lia).
  rewrite client_mask_at by done. unfold input_at. rewrite Hv. apply eqmod_rem. by drop_mod.
Qed.
End inputs.

(** ** The result of a session *)

(** Who finished round 1, and whose input is in the sum, by the statuses. *)
Definition shared_in (im : Impl) (i : Z) : bool :=
  match client_status im i with
  | Ok st => match ClientMaskType st with kNoMask => false | _ => true end
  | _ => false
  end.
Definition included_in (im : Impl) (i : Z) : bool :=
  match client_status im i with Ok st => is_included st | _ => false end.

(** The clients are those of the graph; the keys they advertised are known, and
    the tables hold shares of what they shared: of the private keys of those
    that dropped out after round 1, and of the self keys of those included. *)
Record unmasking_data {P : Primitives} (g : SecretSharingGraph) (secret self_key : Z → list Z)
    (im : Impl) : Prop := {
  ud_graph : secret_sharing_graph_ im = g;
  ud_total : total_number_of_clients im = GetNumNodes g;
  ud_public : ∀ i, included_in im i = true →
    at_ (pairwise_public_keys_ im) i = Ok (PublicKey (secret i));
  ud_pairwise : ∃ table, pairwise_shamir_share_table_ im = Some table ∧
    ∀ j, match table !! j with
         | Some row => shared_in im j = true ∧ included_in im j = false ∧
             shares_of (GetThreshold g) (GetDegree g) (secret j) row
         | None => shared_in im j && negb (included_in im j) = false
         end;
  ud_self : ∃ table, self_shamir_share_table_ im = Some table ∧
    ∀ i, match table !! i with
         | Some row => included_in im i = true ∧
             shares_of (GetThreshold g) (GetDegree g) (self_key i) row
         | None => included_in im i = false
         end
}.

(** The masked inputs that the server received are those of honest clients. *)
Definition honest_inputs {P : Primitives} (fuel : nat) (g : SecretSharingGraph)
    (secret self_key : Z → list Z) (specs : list InputVectorSpecification) (id : list Z) (im : Impl)
    (view : Z → R2Data * list OtherClientState) (inputs : Z → SecAggVectorMap)
    (ops : list ServerOp) : Prop :=
  ∀ c vectors, OpReceive c (CS_masked_input_response vectors) ∈ ops →
    vectors_ok vectors ∧ r2_specs (view c).1 = specs ∧ valid_input (inputs c) specs ∧
    masked_vectors fuel (view c).1 (view c).2 (inputs c) vectors ∧
    honest_client g secret self_key (shared_in im) id c (view c).1 (view c).2.

Section result.
Context {P : Primitives} {HP : PrimitivesLaws P} (fuel : nat).
Context (g : SecretSharingGraph) {Hg : GraphLaws g} (secret self_key : Z → list Z).

Lemma client_status_range im i st :
  client_status im i = Ok st → 0 ≤ i < total_number_of_clients im.
Proof using.
  intros [? Hl%lookup_lt_Some]%at_inv. unfold total_number_of_clients. lia.
Qed.

Lemma unmasking_data_honest im r :
  unmasking_data g secret self_key im → HandleShamirReconstruction im = Ok r →
  honest_server g secret self_key (shared_in im) (included_in im) im r.
Proof using.
  intros [Hgr Htot Hpub (pw & Hpw & Hrows) (sf & Hsf & Hself)] Hr.
  destruct (reconstruction_exact (GetThreshold g) (GetDegree g) secret self_key im pw sf Hpw Hsf)
    with (r := r) as [Hex1 Hex2]; [by unfold minimum_surviving_neighbors_for_reconstruction; rewrite Hgr|..|done|].
  { intros j row Hj. specialize (Hrows j). rewrite Hj in Hrows. apply Hrows. }
  { intros i row Hi. specialize (Hself i). rewrite Hi in Hself. apply Hself. }
  split; [done|done|..].
  - intros i st Hst. unfold included_in. by rewrite Hst.
  - intros i. unfold included_in, shared_in. destruct (client_status im i) as [st| |]; [|done|done].
    by destruct st.
  - intros i _ Hi. by apply Hpub.
  - intros i _ Hi. apply Hex2. split; [|done]. specialize (Hself i). destruct (sf !! i); [by eexists|congruence].
  - intros j key. rewrite Hex1. specialize (Hrows j). split.
    + intros [[row Hj] ->]. rewrite Hj in Hrows. destruct Hrows as (Hs & Hi & _).
      split; [|done]. rewrite <- Htot. unfold shared_in in Hs.
      destruct (client_status im j) eqn:Hst; [|done|done]. by eapply client_status_range.
    + intros (_ & Hs & Hi & ->). split; [|done]. destruct (pw !! j); [by eexists|].
      by rewrite Hs, Hi in Hrows.
Qed.

(** The accepted inputs are those of the included clients. *)
Lemma accepted_perm specs ops s accepted :
  counters_inv s → state_kind_ s = COMPLETED → ServerSession.accepted_ok specs ops (statuses s) accepted →
  accepted.*1 ≡ₚ included_clients (impl_ s).
Proof using.
  intros Hs Hk [Hnd Hclients _]. apply NoDup_Permutation; [done|apply NoDup_filter, NoDup_seqZ|].
  pose proof (ci_allowed _ Hs) as Hall. rewrite Hk in Hall.
  assert (∀ i st, statuses s !! i = Some st → is_included st = sent_masked_input st) as Hsame.
  { intros i st Hi. pose proof (Forall_lookup_1 _ _ _ _ Hall Hi). by destruct st. }
  intros c. rewrite Hclients. unfold included_clients, clients.
  rewrite list_elem_of_filter, elem_of_seqZ. unfold client_status, at_. split.
  - intros (Hc & st & Hst & Hsent). rewrite (proj2 (Z.ltb_ge c 0)) by lia. fold (statuses s).
    rewrite Hst, (Hsame _ _ Hst). apply lookup_lt_Some in Hst.
    unfold total_number_of_clients. fold (statuses s). split; [done|lia].
  - intros [Hinc [Hc _]]. split; [done|]. rewrite (proj2 (Z.ltb_ge c 0)) in Hinc by lia.
    fold (statuses s) in Hinc. destruct (statuses s !! Z.to_nat c) as [st|] eqn:Hst; [|done].
    exists st. split; [done|]. by rewrite <- (Hsame _ _ Hst).
Qed.

Lemma honest_sum specs ops s accepted r w id view inputs spec e :
  NoDup (ivs_name <$> specs) → Forall spec_ok specs → counters_inv s → state_kind_ s = COMPLETED →
  ServerSession.accepted_ok specs ops (statuses s) accepted →
  unmasking_data g secret self_key (impl_ s) → HandleShamirReconstruction (impl_ s) = Ok r →
  InitializePrng r (impl_ s) = Ok w →
  honest_inputs fuel g secret self_key specs id (impl_ s) view inputs ops →
  spec ∈ specs → (e < Z.to_nat (ivs_length spec))%nat →
  session_sum fuel id accepted w spec e =
    sum_on (included_clients (impl_ s)) (λ c, input_at (inputs c) spec e) mod ivs_modulus spec.
Proof using HP Hg.
  intros Hnd Hspecs Hs Hk Hacc Hdata Hr Hw Hinputs Hin He. unfold session_sum. apply eqmod_rem.
  pose proof (unmasking_data_honest _ _ Hdata Hr) as Hserver.
  set (mask := mask_at fuel id spec e). set (m := ivs_modulus spec).
  assert (∀ cv, cv ∈ accepted → ∃ vectors, check_masked_vectors specs vectors ∅ = Ok cv.2 ∧
    vectors_ok vectors ∧ OpReceive cv.1 (CS_masked_input_response vectors) ∈ ops) as Hmsg.
  { intros cv Hcv. pose proof (ao_inputs _ _ _ _ Hacc) as Hall. rewrite Forall_forall in Hall.
    destruct (Hall cv Hcv) as (_ & vectors & ? & ? & ?). by exists vectors. }
  assert (sumZ (input_element spec e <$> accepted) ≡
    sum_on (included_clients (impl_ s)) (λ c, input_at (inputs c) spec e +
      mask_sum mask (view c).1 (view c).2) [mod m]) as ->.
  { rewrite <- (sum_on_perm _ _ _ (accepted_perm _ _ _ _ Hs Hk Hacc)), sum_on_fmap.
    apply sum_on_eqmod. intros [c map] Hcv. destruct (Hmsg _ Hcv) as (vectors & Hcheck & _ & Hop).
    destruct (Hinputs c vectors Hop) as (Hvec & Hsp & Hval & Hmasked & Hc). simpl in *.
    rewrite (masked_element fuel specs Hnd Hspecs c vectors map (view c).1 (view c).2 (inputs c)) by done.
    drop_mod. by rewrite (hc_session _ _ _ _ _ _ _ _ Hc). }
  rewrite !keys_column_sum, sum_on_add. fold mask.
  pose proof (masks_cancel g secret self_key (shared_in (impl_ s)) (included_in (impl_ s)) mask
    (impl_ s) r w id view Hserver Hw) as Hcancel.
  apply eqmod_eq. rewrite <- (Z.add_0_r (sum_on _ (λ c, input_at _ _ _))) at 2.
  rewrite <- Hcancel; [ring|]. intros i Hi%elem_nodes Hinc. assert (i ∈ accepted.*1) as Ha.
  { rewrite (accepted_perm _ _ _ _ Hs Hk Hacc). unfold included_clients. apply list_elem_of_filter.
    split; [done|]. unfold clients. rewrite (ud_total _ _ _ _ Hdata). apply elem_of_seqZ. lia. }
  apply list_elem_of_fmap in Ha as (cv & -> & Hcv). destruct (Hmsg _ Hcv) as (vectors & _ & _ & Hop).
  by destruct (Hinputs _ _ Hop) as (_ & _ & _ & _ & ?).
Qed.
End result.

(** C1: the server learns the sum. In a session where the masked inputs come from
    clients that followed the protocol and the shares of the unmasking round
    are theirs, the result has, for each vector, the sum of the inputs of the
    included clients modulo the modulus: all masks cancel, also when clients
    drop out after having shared their keys, for any graph, any order of the
    messages and any interleaving of the background tasks. The 32-bit
    accumulator of [Reconstruct] does not overflow on these shares. *)
Theorem honest_session_result {P : Primitives} {HP : PrimitivesLaws P} (fuel : nat)
    g (Hg : GraphLaws g) secret self_key minimum total specs async ops s events r s' id view inputs :
  NoDup (ivs_name <$> specs) → Forall spec_ok specs → 1 ≤ minimum →
  server_run fuel (new_SecAggServer g minimum total specs async) ops s events →
  Result s = Ok (r, s') → session_id_ (impl_ s) = Some id → draws_masks fuel id specs →
  unmasking_data g secret self_key (impl_ s) →
  honest_inputs fuel g secret self_key specs id (impl_ s) view inputs ops →
  ∀ spec, spec ∈ specs → ∃ v, r !! ivs_name spec = Some v ∧
    decoded v = (λ e, sum_on (included_clients (impl_ s)) (λ c, input_at (inputs c) spec e)
                        mod ivs_modulus spec) <$> seq 0 (Z.to_nat (ivs_length spec)).
Proof.
  intros Hnd Hspecs Hmin Hrun Hres Hid Hdraw Hdata Hinputs spec Hin.
  destruct (server_run_inv _ _ _ _ _ Hrun) as [Hs _]; [apply new_server_inv|].
  assert (sum_inv fuel specs ops s) as Hsum.
  { eapply server_run_sum; try done. intros c vectors Hop. by apply (Hinputs c vectors Hop). }
  destruct (Result_sum fuel specs Hnd Hspecs _ _ _ _ _ Hsum Hres Hid Hdraw)
    as (accepted & w & Hacc & Hw & Hr).
  destruct (Hr spec Hin) as (v & Hv & _ & Hdec). exists v. split; [done|]. rewrite Hdec.
  apply list_fmap_ext. intros j e [-> He]%lookup_seq.
  unfold Initialize in Hw. apply bind_ok in Hw as (rec & Hrec & Hw).
  apply Result_ok in Hres as (Hk & _). by eapply honest_sum.
Qed.
