(* ===== verification/Examples.v ===== *)
(** * Concrete instances

    Runs of the model on concrete inputs, with the primitives of Crypto.v that
    can be evaluated: each theorem with hypotheses is applied where these hold.
    The sessions are computed by [run_ops], which follows [server_run]. *)

From S2P Require Import Prelude Bytes Math SecAggVector SecAggCodec SecAggVectorCorrect Prng.
From S2P Require Import MapOfMasks MasksCorrect Interpolation Graph Crypto VectorMaps.

(** ** Vectors *)

Ltac bytes := repeat constructor; unfold is_byte, in_modulus; simpl; lia.

Lemma SecAggVector_roundtrip_witness :
  ∃ v w, SecAggVector_of_span [1; 2; 4; 0; 3] 5 false = Ok v ∧
    SecAggVector_of_span [1; 2; 4; 0; 3] 5 true = Ok w ∧ packed_bytes_ v = packed_bytes_ w ∧
    GetAsUint64Vector v = Ok [1; 2; 4; 0; 3] ∧ GetAsUint64Vector w = Ok [1; 2; 4; 0; 3].
Proof. apply (SecAggVector_roundtrip [1; 2; 4; 0; 3] 5); [reflexivity|bytes|reflexivity]. Defined.

Lemma SecAggVector_of_span_checks_witness :
  SecAggVector_of_span [1; 5] 5 false = Crash ↔
    ¬ (1 < 5 ≤ kMaxModulus ∧ Forall (in_modulus 5) [1; 5]).
Proof. apply (SecAggVector_of_span_checks [1; 5] 5 false). reflexivity. Defined.

Definition five_elements : SecAggVector :=
  {| packed_bytes_ := [255; 1]; modulus_ := 5; bit_width_ := 3; num_elements_ := 5;
     branchless_codec_ := false |}.

Lemma Decoder_reads_in_modulus_witness :
  Forall (in_modulus 5) (UnpackByteStringToUint64VectorBranchless five_elements) ∧
  UnpackByteStringToUint64VectorBranchless five_elements =
    (λ x, x mod 5) <$> ((λ i, UnpackUint64FromByteStringAt (Z.of_nat i) 3 [255; 1]) <$> seq 0 5).
Proof.
  destruct (Decoder_reads_in_modulus [255; 1] 5 5 false five_elements) as (H1 & _ & H2);
    [reflexivity|bytes|lia|reflexivity|]. split; [exact H1|exact H2].
Defined.

Definition unpacked_example : SecAggUnpackedVector := {| elements := [4; 3; 2; 1; 0]; uv_modulus := 5 |}.
Definition packed_example : SecAggVector :=
  {| packed_bytes_ := [209; 56]; modulus_ := 5; bit_width_ := 3; num_elements_ := 5;
     branchless_codec_ := false |}.

Lemma unpacked_example_ok : unpacked_ok unpacked_example.
Proof. split; [reflexivity|bytes]. Qed.
Lemma packed_example_ok : vector_ok packed_example.
Proof. split; [reflexivity|reflexivity|bytes|]. split; [reflexivity|by vm_compute]. Qed.

Lemma SecAggUnpackedVector_Add_correct_witness :
  ∃ u', SecAggUnpackedVector_Add unpacked_example packed_example = Ok u' ∧ unpacked_ok u' ∧
    uv_modulus u' = 5 ∧ elements u' = add_mod_list 5 [4; 3; 2; 1; 0] (decoded packed_example).
Proof.
  exact (SecAggUnpackedVector_Add_correct unpacked_example packed_example unpacked_example_ok
    packed_example_ok).
Defined.

Lemma SecAggUnpackedVectorMap_Add_correct_witness :
  ∃ sum, SecAggUnpackedVectorMap_Add {["v"%string := unpacked_example]} {["v"%string := packed_example]}
    = Ok sum.
Proof.
  destruct (SecAggUnpackedVectorMap_Add_correct {["v"%string := unpacked_example]}
    {["v"%string := packed_example]}) as (sum & H & _); [reflexivity| |by exists sum].
  intros name u Hu. apply lookup_singleton_Some in Hu as [<- <-]. split; [apply unpacked_example_ok|].
  exists packed_example. split; [apply lookup_singleton_eq|]. split; [apply packed_example_ok|].
  split; reflexivity.
Defined.

Lemma AddMaps_correct_witness :
  ∃ sum, AddMaps {["v"%string := packed_example]} {["v"%string := packed_example]} = Ok sum.
Proof.
  destruct (AddMaps_correct {["v"%string := packed_example]} {["v"%string := packed_example]})
    as (sum & H & _); [|by exists sum].
  intros name u Hu. apply lookup_singleton_Some in Hu as [<- <-]. split; [apply packed_example_ok|].
  exists packed_example. split; [apply lookup_singleton_eq|]. split; [apply packed_example_ok|].
  by split.
Defined.

(** ** Masks *)

Definition example_spec (modulus : Z) : InputVectorSpecification :=
  {| ivs_name := "v"; ivs_length := 2; ivs_modulus := modulus |}.

Lemma rejection_sampling_unbiased_witness :
  2 ^ 4 - 7 = 9 ∧ 2 ^ 4 < 2 * 9 ∧
  ∀ r, 0 ≤ r < 9 → exists! x, (0 ≤ x < 2 ^ 4 ∧ (x <? 7) = false) ∧ x mod 9 = r.
Proof.
  exact (rejection_sampling_unbiased 9
    {| sample_bits := 4; msb_mask := 15; bytes_per_output := 1; rejection := Some 7 |} 7
    eq_refl eq_refl eq_refl).
Defined.

#[local] Existing Instance ToyPrimitives.
#[local] Existing Instance ToyPrimitives_laws.

Definition key_a : list Z := resize 32 0 [17].
Definition key_b : list Z := resize 32 0 [99].
Definition session : list Z := resize 32 0 [5].

Definition example_masks (keys : list (list Z)) (spec : InputVectorSpecification) : list (list Z) :=
  (λ key, default [] (key_mask sha256 keystream 100 session spec key)) <$> keys.

Lemma example_spec_ok m : m = 5 ∨ m = 16 → spec_ok (example_spec m).
Proof. intros [-> | ->]; (split; [done|done|by vm_compute]). Qed.

Lemma example_masks_exist :
  Forall (masks_exist sha256 keystream 100 session [key_a] [key_b] (example_masks [key_a])
    (example_masks [key_b])) [example_spec 5].
Proof.
  constructor; [|done]. split; [by apply example_spec_ok; left|by vm_compute| |];
    (constructor; [by vm_compute|done]).
Qed.

Lemma MapOfMasks_value_witness :
  ∃ masks, MapOfMasks sha256 keystream 100 [key_a] [key_b] [example_spec 5] session None = Ok (Some masks) ∧
    MapOfMasksV3 sha256 keystream 100 [key_a] [key_b] [example_spec 5] session None = Ok (Some masks).
Proof.
  destruct (MapOfMasks_value sha256 keystream sha256_length keystream_byte 100 session [key_a] [key_b]
    (example_masks [key_a]) (example_masks [key_b]) [example_spec 5]) as (masks & u & H1 & H2 & _).
  - simpl. apply NoDup_singleton.
  - exact example_masks_exist.
  - exists masks. split; assumption.
Defined.

Lemma MapOfMasks_abort_witness :
  MapOfMasks sha256 keystream 100 [key_a] [key_b] [example_spec 5] session (Some 3%nat) = Ok None ∧
  MapOfMasks sha256 keystream 100 [key_a] [key_b] [example_spec 5] session (Some 4%nat) =
    MapOfMasks sha256 keystream 100 [key_a] [key_b] [example_spec 5] session None.
Proof.
  split; refine (MapOfMasks_abort sha256 keystream sha256_length keystream_byte 100 session [key_a] [key_b]
    (example_masks [key_a]) (example_masks [key_b]) [example_spec 5] _ example_masks_exist).
Defined.
