(* ===== verification/Sessions.v ===== *)
(** * A session of clients and a server

    Three clients and the server exchange their messages, computed with the
    primitives of Crypto.v that can be evaluated. One client stops answering
    after round 1, so that its pairwise masks have to be removed. The theorems
    on clients and on the server are applied to this session. *)

From Stdlib Require Import Sorted.
From S2P Require Import Prelude Bytes Math Shamir SecAggVector SecAggVectorCorrect Prng MapOfMasks.
From S2P Require Import MasksCorrect Interpolation VectorMaps Graph Crypto Client ClientCorrect.
From S2P Require Import Accumulator ServerImpl Server ServerCorrect ServerSum ServerUnmask.
From S2P Require Import ServerSession Examples.

#[local] Existing Instance ToyPrimitives.
#[local] Existing Instance ToyPrimitives_laws.

(** ** Computing runs of the server *)

Section run.
Context {P : Primitives} (fuel : nat).

Fixpoint run_ops (s : ServerState) (ops : list ServerOp) : Res (ServerState * list ServerEvent) :=
  match ops with
  | [] => Ok (s, [])
  | op :: rest =>
      match Server.run_op fuel s op with
      | Ok (s', events) => '(s'', events') ← run_ops s' rest; Ok (s'', events ++ events')
      | Error _ _ => run_ops s rest
      | Crash => Crash
      end
  end.

Lemma run_ops_after s0 ops s : ∀ done events s' events',
  server_run fuel s0 done s events → run_ops s ops = Ok (s', events') →
  server_run fuel s0 (done ++ ops) s' (events ++ events').
Proof.
  revert s. induction ops as [|op ops IH]; intros s done events s' events' Hrun H; simpl in H.
  { injection H as <- <-. by rewrite !app_nil_r. }
  rewrite (app_assoc done [op] ops : done ++ op :: ops = _).
  destruct (Server.run_op fuel s op) as [[s1 ev1]|code msg|] eqn:Hop; [| |done].
  - apply bind_ok in H as ([s2 ev2] & H & [= <- <-]). rewrite (assoc_L (++)).
    eapply IH; [|exact H]. by eapply server_run_ok.
  - eapply IH; [|exact H]. by eapply server_run_error.
Qed.

Lemma run_ops_sound s ops s' events : run_ops s ops = Ok (s', events) → server_run fuel s ops s' events.
Proof. intros H. apply (run_ops_after s ops s [] [] s' events); [constructor|done]. Qed.
End run.

(** ** The clients *)

Definition example_specs : list InputVectorSpecification := [example_spec 16].

Definition entropy (k : Z) : Entropy := {|
  fresh_enc_key := resize 32 0 [k + 1];
  fresh_prng_key := resize 32 0 [k + 100];
  rand8 := resize 32 0 [k + 50];
  rand_words := (λ i, (Z.of_nat i * 7919 + k) mod 2 ^ 31) <$> seq 0 60;
  rand_iv := λ i, replicate 12 (Z.of_nat i)
|}.

Definition sends (client_id : Z) (events : list Event) : list ServerOp :=
  events ≫= λ event, match event with Send m => [OpReceive client_id m] | _ => [] end.

(** A client with its input that has started. *)
Definition start_client (client_id : Z) (input : list Z) : Res (ClientState * list ServerOp) :=
  v ← SecAggVector_of_span input 16 false;
  '(s, _) ← Client.SetInput (new_SecAggClient 10 2 example_specs).1 {["v"%string := v]};
  '(s, events) ← Client.Start s (entropy client_id);
  Ok (s, sends client_id events).

(** The answers of the clients in [alive] to what the server sent. *)
Fixpoint answers (alive : list Z) (cs : gmap Z ClientState) (events : list ServerEvent) :
    Res (gmap Z ClientState * list ServerOp) :=
  match events with
  | SendTo client_id message :: rest =>
      match cs !! client_id with
      | Some s =>
          if bool_decide (client_id ∈ alive) then
            '(s, sent) ← Client.HandleMessage 100 "abort" s message (entropy client_id) None;
            '(cs, ops) ← answers alive (<[client_id := s]> cs) rest;
            Ok (cs, sends client_id sent ++ ops)
          else answers alive cs rest
      | None => answers alive cs rest
      end
  | _ :: rest => answers alive cs rest
  | [] => Ok (cs, [])
  end.

(** A round: the messages arrive, the server proceeds and the clients answer. *)
Definition round (alive : list Z) (w : ServerState * gmap Z ClientState * list ServerOp * list ServerOp) :
    Res (ServerState * gmap Z ClientState * list ServerOp * list ServerOp) :=
  let '(server, cs, log, pending) := w in
  let ops := pending ++ [OpProceed] in
  '(server, events) ← run_ops 100 server ops;
  '(cs, answers) ← answers alive cs events;
  Ok (server, cs, log ++ ops, answers).

Definition example_server (async : bool) : ServerState :=
  new_SecAggServer (CompleteGraph 3 2) 2 3 example_specs async.

(** The background work of the last step, two batches of keys. *)
Definition background : list ServerOp :=
  OpTask <$> [StartParallel 0; StartParallel 0; FinishParallel 1; ScheduleSequential 0;
              StartSequential; FinishSequential; FinishParallel 0; ScheduleSequential 0;
              StartSequential; FinishSequential].

(** The calls that the server receives in the whole session: client 2 is not
    heard of after round 1. *)
Definition session_ops : Res (list ServerOp) :=
  '(c0, m0) ← start_client 0 [1; 2];
  '(c1, m1) ← start_client 1 [3; 4];
  '(c2, m2) ← start_client 2 [5; 6];
  w ← round [0; 1; 2] (example_server false, {[0 := c0; 1 := c1; 2 := c2]}, [], m0 ++ m1 ++ m2);
  w ← round [0; 1] w;
  w ← round [0; 1] w;
  '(_, _, log, last) ← round [] w;
  Ok (log ++ last ++ background ++ [OpProceed]).

Definition complete_ops : list ServerOp := match session_ops with Ok ops => ops | _ => [] end.

Definition complete_run : Res (ServerState * list ServerEvent) :=
  run_ops 100 (example_server false) complete_ops.

(** The vector in the result of a completed session. *)
Definition session_result (s : ServerState) : option (list Z) :=
  match Server.Result s with
  | Ok (r, _) => match r !! "v"%string with Some v => Some (decoded v) | None => None end
  | _ => None
  end.

(** The sum of the two inputs that arrived. *)
Example complete_session :
  match complete_run with Ok (s, _) => session_result s | _ => None end = Some [4; 6].
Proof. vm_compute. reflexivity. Qed.

(** ** The theorems on the server, on this session *)

Definition is_ok {A} (r : Res A) : bool := match r with Ok _ => true | _ => false end.

Lemma run_ops_ok {P : Primitives} fuel s ops :
  is_ok (run_ops fuel s ops) = true → ∃ s' events, run_ops fuel s ops = Ok (s', events).
Proof. destruct (run_ops fuel s ops) as [[s' events]|code message|]; [by eauto|done|done]. Qed.

(** The state after the calls [ops] and the messages they cause. *)
Definition final (s : ServerState) (ops : list ServerOp) : ServerState :=
  match run_ops 100 s ops with Ok (s', _) => s' | _ => s end.

Definition emitted (s : ServerState) (ops : list ServerOp) : list ServerEvent :=
  match run_ops 100 s ops with Ok (_, events) => events | _ => [] end.

Lemma run_final s ops :
  is_ok (run_ops 100 s ops) = true → server_run 100 s ops (final s ops) (emitted s ops).
Proof.
  intros (s' & events & H)%run_ops_ok. apply run_ops_sound. unfold final, emitted. by rewrite H.
Qed.

Definition state_after (n : nat) : ServerState := final (example_server false) (take n complete_ops).
Definition events_until (n : nat) : list ServerEvent :=
  emitted (example_server false) (take n complete_ops).

(** In the middle of round 1: two of the three clients have answered. *)
Lemma server_counters_witness :
  state_kind_ (state_after 6) = R1_SHARE_KEYS ∧ NumberOfPendingClients (state_after 6) = 1 ∧
  NumberOfPendingClients (state_after 6) = count (pending R1_SHARE_KEYS) (statuses (state_after 6)).
Proof.
  assert (state_kind_ (state_after 6) = R1_SHARE_KEYS) as Hk by (vm_compute; reflexivity).
  destruct (server_counters 100 (CompleteGraph 3 2) 2 3 example_specs false (take 6 complete_ops)
    (state_after 6) (events_until 6)) as (_ & H & _).
  { apply run_final. vm_compute. reflexivity. }
  rewrite Hk in H. split; [exact Hk|]. split; [vm_compute; reflexivity|exact H].
Defined.

Lemma server_enough_clients_witness :
  state_kind_ (state_after 30) = COMPLETED ∧
  2 ≤ count sent_masked_input (statuses (state_after 30)) ∧
  2 ≤ count sent_unmasking (statuses (state_after 30)).
Proof.
  assert (state_kind_ (state_after 30) = COMPLETED) as Hk by (vm_compute; reflexivity).
  pose proof (server_enough_clients 100 (CompleteGraph 3 2) 2 3 example_specs false
    (take 30 complete_ops) (state_after 30) (events_until 30)) as H.
  rewrite Hk in H. split; [exact Hk|]. apply H. apply run_final. vm_compute. reflexivity.
Defined.

(** The inputs are fixed when round 3 starts, after eleven calls. *)
Definition last_state : ServerState := final (state_after 11) (drop 11 complete_ops).

Lemma server_inputs_fixed_witness :
  NumberOfIncludedInputs (state_after 11) = 2 ∧
  IsNumberOfIncludedInputsCommitted last_state = true ∧
  NumberOfIncludedInputs last_state = NumberOfIncludedInputs (state_after 11).
Proof.
  split; [vm_compute; reflexivity|].
  refine (server_inputs_fixed 100 (CompleteGraph 3 2) 2 3 example_specs false (take 11 complete_ops)
    (state_after 11) (events_until 11) (drop 11 complete_ops) last_state
    (emitted (state_after 11) (drop 11 complete_ops)) _ _ _ _).
  - apply run_final. vm_compute. reflexivity.
  - apply run_final. vm_compute. reflexivity.
  - vm_compute. reflexivity.
  - vm_compute. reflexivity.
Defined.

(** Calls after the end. *)
Definition late_ops : list ServerOp := [OpAbort None; OpProceed; OpResult].

Lemma server_terminal_witness :
  emitted (state_after 30) late_ops = [] ∧
  state_kind_ (final (state_after 30) late_ops) = COMPLETED.
Proof.
  assert (state_kind_ (state_after 30) = COMPLETED) as Hk by (vm_compute; reflexivity).
  rewrite <- Hk.
  destruct (server_terminal 100 (state_after 30) late_ops (final (state_after 30) late_ops)
    (emitted (state_after 30) late_ops)) as (H1 & H2 & _).
  - apply run_final. vm_compute. reflexivity.
  - vm_compute. reflexivity.
  - split; assumption.
Defined.

Lemma example_draws_masks id : draws_masks 100 id example_specs.
Proof.
  split; [apply NoDup_singleton|]. split; [|split].
  - constructor; [apply example_spec_ok; by right|done].
  - by constructor; [vm_compute|].
  - intros spec key ->%list_elem_of_singleton. by eexists.
Qed.

(** The masked inputs of the session are bytes. *)
Definition bytes_sent (op : ServerOp) : bool :=
  match op with
  | OpReceive _ (CS_masked_input_response vectors) =>
      forallb (λ kv, forallb (λ b, (0 <=? b) && (b <? 256)) kv.2) (map_to_list vectors)
  | _ => true
  end.

Lemma bytes_sent_ok ops c vectors :
  forallb bytes_sent ops = true → OpReceive c (CS_masked_input_response vectors) ∈ ops →
  vectors_ok vectors.
Proof.
  intros Hall Hin name bytes Hb. rewrite forallb_forall in Hall.
  specialize (Hall _ (proj1 (list_elem_of_In _ _) Hin)). simpl in Hall. rewrite forallb_forall in Hall.
  specialize (Hall (name, bytes)). simpl in Hall. rewrite forallb_forall in Hall.
  apply Forall_forall. intros b Hbin. unfold is_byte.
  assert ((0 <=? b) && (b <? 256) = true); [|lia]. apply Hall; [|by apply list_elem_of_In].
  apply list_elem_of_In. by apply elem_of_map_to_list.
Qed.

(** The result of the session has the vector that [server_result] describes. *)
Lemma server_result_witness :
  ∃ r v, fst <$> (match Server.Result (state_after 30) with Ok x => Some x | _ => None end) = Some r ∧
    r !! "v"%string = Some v ∧ packed_shape (example_spec 16) v.
Proof.
  destruct (Server.Result (state_after 30)) as [[r s']|code message|] eqn:Hr.
  2,3: exfalso; assert (is_ok (Server.Result (state_after 30)) = true) as H
    by (vm_compute; reflexivity); rewrite Hr in H; discriminate.
  destruct (session_id_ (impl_ (state_after 30))) as [id|] eqn:Hid.
  2: { exfalso. assert (bool_decide (session_id_ (impl_ (state_after 30)) = None) = false) as H
         by (vm_compute; reflexivity). rewrite Hid in H. discriminate. }
  destruct (server_result 100 (CompleteGraph 3 2) 2 3 example_specs false (take 30 complete_ops)
    (state_after 30) (events_until 30) r s' id) as (accepted & w & _ & _ & H).
  - apply NoDup_singleton.
  - constructor; [apply example_spec_ok; right; reflexivity|constructor].
  - lia.
  - apply run_final. vm_compute. reflexivity.
  - intros c vectors. apply bytes_sent_ok. vm_compute. reflexivity.
  - exact Hr.
  - exact Hid.
  - apply example_draws_masks.
  - destruct (H (example_spec 16)) as (v & Hv & Hs & _); [apply list_elem_of_here|].
    exists r, v. split; [reflexivity|]. split; assumption.
Defined.

(** ** The theorems on clients, on the session of client 0 *)

Fixpoint run_client (s : ClientState) (ops : list ClientOp) : Res (ClientState * list Event) :=
  match ops with
  | [] => Ok (s, [])
  | op :: rest =>
      '(s', events) ← Client.run_op 100 "abort" s op;
      '(s'', events') ← run_client s' rest;
      Ok (s'', events ++ events')
  end.

Lemma run_client_sound ops : ∀ s s' events,
  run_client s ops = Ok (s', events) → client_run 100 "abort" s events s'.
Proof.
  induction ops as [|op ops IH]; intros s s' events H; simpl in H.
  { injection H as <- <-. constructor. }
  apply bind_ok in H as ([s1 ev1] & Hop & H). apply bind_ok in H as ([s2 ev2] & Hrest & [= <- <-]).
  eapply run_cons; [by eapply step_ok|by apply IH].
Qed.

Definition new_client : ClientState := (new_SecAggClient 10 2 example_specs).1.

Definition input_vector : SecAggVector := vector_of [1; 2] 16 false.

(** What the server sent to client 0. *)
Definition received : list ServerToClient :=
  events_until 30 ≫= λ event,
    match event with SendTo 0 message => [message] | _ => [] end.

Definition client_ops : list ClientOp :=
  [OpSetInput {["v"%string := input_vector]}; OpStart (entropy 0)] ++
  ((λ message, OpReceiveMessage message (entropy 0) None) <$> received).

Definition client_after (n : nat) : ClientState :=
  match run_client new_client (take n client_ops) with Ok (s, _) => s | _ => new_client end.
Definition client_events (n : nat) : list Event :=
  match run_client new_client (take n client_ops) with Ok (_, l) => l | _ => [] end.

Lemma client_run_after n :
  is_ok (run_client new_client (take n client_ops)) = true →
  client_run 100 "abort" new_client (client_events n) (client_after n).
Proof.
  unfold client_events, client_after.
  destruct (run_client new_client (take n client_ops)) as [[s ev]|code message|] eqn:H; [|done|done].
  intros _. by eapply run_client_sound.
Qed.

Lemma client_after_ok n :
  is_ok (run_client new_client (take n client_ops)) = true → client_ok (client_after n).
Proof.
  intros H%client_run_after. eapply client_run_ok; [exact H|]. apply new_client_ok.
Qed.

Lemma client_invariant_witness :
  match client_after 3 with R2InputSet d _ => r2_ok d | _ => False end.
Proof.
  assert (match client_after 3 with R2InputSet _ _ => true | _ => false end = true) as Hk
    by (vm_compute; reflexivity).
  pose proof (client_invariant 100 "abort" 10 2 example_specs new_client
    [Transition Client.R0_ADVERTISE_KEYS] (client_events 3) (client_after 3) eq_refl
    (client_run_after 3 ltac:(vm_compute; reflexivity))) as H.
  destruct (client_after 3); try discriminate Hk. exact H.
Defined.

(** The four messages of a client that goes through all rounds. *)
Lemma client_messages_in_order_witness :
  (message_rank <$> sent (client_events 5)) = [0; 1; 2; 3]%nat ∧
  StronglySorted lt (message_rank <$> sent (client_events 5)).
Proof.
  split; [vm_compute; reflexivity|].
  refine (client_messages_in_order 100 "abort" 10 2 example_specs new_client
    [Transition Client.R0_ADVERTISE_KEYS] (client_events 5) (client_after 5) eq_refl _).
  apply client_run_after. vm_compute. reflexivity.
Defined.

Lemma client_terminal_witness :
  client_after 5 = Completed ∧ Completed = Completed ∧ @nil Event ++ [] = [].
Proof.
  split; [vm_compute; reflexivity|].
  refine (client_terminal 100 "abort" Completed ([] ++ []) Completed eq_refl _).
  refine (run_cons _ _ Completed [] Completed [] Completed _ (run_nil _ _ Completed)).
  refine (step_ok _ _ Completed (Client.OpAbort "late") Completed [] eq_refl).
Defined.

(** The last answer of client 0: client 2, at index 2, is dead. *)
Definition example_r3 : R3Data :=
  match client_after 4 with
  | R3Unmasking d => d
  | _ => {| r3_client_id := 0; r3_alive := 0; r3_minimum := 0; r3_number := 0; r3_states := [];
            r3_pairwise_key_shares := []; r3_self_key_shares := [] |}
  end.

Lemma example_r3_ok : r3_ok example_r3.
Proof.
  assert (match client_after 4 with R3Unmasking _ => true | _ => false end = true) as Hk
    by (vm_compute; reflexivity).
  pose proof (client_after_ok 4) as H. unfold example_r3.
  destruct (client_after 4); try discriminate Hk. apply H. vm_compute. reflexivity.
Qed.

Definition revealed : list NoiseOrPrf :=
  match sent (R3HandleUnmasking "abort" example_r3 [3] None).2 with
  | [CS_unmasking_response shares] => shares
  | _ => []
  end.

Lemma unmasking_response_safe_witness :
  Z.of_nat (length revealed) = 3 ∧
  revealed !! 2%nat = Some (NoiseShare (default [] (r3_pairwise_key_shares example_r3 !! 2%nat))).
Proof.
  destruct (unmasking_response_safe "abort" example_r3 [3] None
    (R3HandleUnmasking "abort" example_r3 [3] None).2 revealed) as (Hl & _ & _ & H).
  - exact example_r3_ok.
  - vm_compute. reflexivity.
  - assert (sent (R3HandleUnmasking "abort" example_r3 [3] None).2 = [CS_unmasking_response revealed])
      as -> by (vm_compute; reflexivity). apply list_elem_of_here.
  - assert (r3_number example_r3 = 3) as Hn by (vm_compute; reflexivity).
    split; [rewrite Hl; exact Hn|]. specialize (H 2). rewrite Hn in H.
    assert (r3_states example_r3 !! Z.to_nat 2 = Some kAlive) as Hs by (vm_compute; reflexivity).
    assert (2 ∈ dead_ids [3]) as Hd by apply list_elem_of_here.
    rewrite (decide_True _ _ Hs), (decide_True _ _ Hd) in H. apply H. lia.
Defined.

Definition example_r2 : R2Data :=
  match client_after 3 with
  | R2InputSet d _ => d
  | _ => {| r2_client_id := 0; r2_minimum := 0; r2_alive := 0; r2_number := 0; r2_specs := [];
            r2_states := []; r2_enc_keys := []; r2_prng_keys := []; r2_own_self_key_share := [];
            r2_self_prng_key := []; r2_session_id := [] |}
  end.

Lemma example_r2_ok : r2_ok example_r2.
Proof.
  assert (match client_after 3 with R2InputSet _ _ => true | _ => false end = true) as Hk
    by (vm_compute; reflexivity).
  pose proof (client_after_ok 3) as H. unfold example_r2.
  destruct (client_after 3); try discriminate Hk. apply H. vm_compute. reflexivity.
Qed.

(** The shares that the server forwards to client 0 in round 2. *)
Definition forwarded : list (list Z) :=
  match received with [_; SC_masked_input_request l; _] => l | _ => [] end.

Lemma masked_input_response_value_witness :
  ∃ d vectors, Client.HandleMessage 100 "abort" (R2InputSet example_r2 {["v"%string := input_vector]})
      (SC_masked_input_request forwarded) (entropy 0) None =
      Ok (R3Unmasking d, [Send (CS_masked_input_response vectors); Transition Client.R3_UNMASKING]) ∧
    masked_vectors 100 example_r2 (r3_states d) {["v"%string := input_vector]} vectors.
Proof.
  assert (r2_specs example_r2 = example_specs) as Hspecs by (vm_compute; reflexivity).
  destruct (masked_input_response_value 100 "abort" example_r2 {["v"%string := input_vector]}
    (SC_masked_input_request forwarded) (entropy 0) None) as [[reason H]|(d & vectors & H & _ & Hv)].
  - exact example_r2_ok.
  - rewrite Hspecs. apply example_draws_masks.
  - rewrite Hspecs. split; [vm_compute; reflexivity|].
    intros name v [_ <-]%lookup_singleton_Some. apply vector_of_ok; [done| |by vm_compute].
    repeat constructor; unfold in_modulus; lia.
  - exfalso. assert (match Client.HandleMessage 100 "abort"
      (R2InputSet example_r2 {["v"%string := input_vector]}) (SC_masked_input_request forwarded)
      (entropy 0) None with Ok (R3Unmasking _, _) => true | _ => false end = true) as Hc
      by (vm_compute; reflexivity).
    rewrite H in Hc. discriminate Hc.
  - exists d, vectors. split; assumption.
Defined.
