(* ===== verification/HonestSession.v ===== *)
(** * The example session, with honest clients

    The theorems on the recovery of keys and on the sum of a session, applied to
    the session of Sessions.v: clients 0 and 1 are included, client 2 has dropped
    out after it had shared its keys. *)

From S2P Require Import Prelude Bytes Shamir ShamirCorrect SecAggVector SecAggVectorCorrect Prng.
From S2P Require Import MapOfMasks MasksCorrect Interpolation VectorMaps Graph Crypto Client.
From S2P Require Import ClientCorrect Accumulator ServerImpl Server ServerCorrect ServerSum.
From S2P Require Import ServerUnmask ServerSession Reconstruction Cancellation Examples Sessions.
From S2P Require Import SecAggCodec.

#[local] Existing Instance ToyPrimitives.
#[local] Existing Instance ToyPrimitives_laws.

Definition graph3 : SecretSharingGraph := CompleteGraph 3 2.
Definition secret (c : Z) : list Z := fresh_prng_key (entropy c).
Definition self_key (c : Z) : list Z := rand8 (entropy c).

(** ** Rows of shares, checked *)

(** The words that client [c] used for the two secrets. *)
Definition tape_after (secret tape : list Z) : list Z :=
  match Share 2 3 secret tape with Ok (Some (_, tape')) => tape' | _ => [] end.
Definition pairwise_tape (c : Z) : list Z := rand_words (entropy c).
Definition self_tape (c : Z) : list Z := tape_after (secret c) (pairwise_tape c).

Definition check_row (key tape : list Z) (row : list (list Z)) : bool :=
  (length key =? 32)%nat && forallb (λ b, (0 <=? b) && (b <? 256)) key &&
  match Share 2 3 key tape with
  | Ok (Some (shares, _)) =>
      (length row =? length shares)%nat &&
      forallb (λ ss, bool_decide (ss.2 = []) || bool_decide (ss.2 = ss.1)) (zip shares row)
  | _ => false
  end && Reconstruct_in_range 2 row 32.

Lemma check_row_ok key tape row : check_row key tape row = true → shares_of 2 3 key row.
Proof.
  unfold check_row. intros [[[Hl Hb]%andb_true_iff Hs]%andb_true_iff Hr]%andb_true_iff.
  destruct (Share 2 3 key tape) as [[[shares tape']|]| |] eqn:Hshare; try done.
  apply andb_true_iff in Hs as [Hlen Hall]. apply Nat.eqb_eq in Hl, Hlen.
  split_and!; [done| |done| |by intros _].
  - apply Forall_forall. intros b Hin. rewrite forallb_forall in Hb.
    specialize (Hb b (proj1 (list_elem_of_In _ _) Hin)). unfold is_byte. lia.
  - exists tape, shares, tape'. split; [done|]. unfold sub_shares.
    clear Hshare Hr. revert row Hlen Hall. induction shares as [|s shares IH]; intros [|x row]; try done.
    simpl. intros Hlen [Hx Hall]%andb_true_iff. constructor; [|by apply IH; [lia|]].
    apply orb_true_iff in Hx as [Hx|Hx]; apply bool_decide_eq_true in Hx; [by left|by right].
Qed.

(** A table has the rows of the clients in [rows], all of them good. *)
Definition check_table (rows : list Z) (key tape : Z → list Z)
    (table : option (gmap Z (list (list Z)))) : bool :=
  match table with
  | Some t => bool_decide ((map_to_list t).*1 = rows) &&
              forallb (λ kr, check_row (key kr.1) (tape kr.1) kr.2) (map_to_list t)
  | None => false
  end.

Lemma check_table_ok rows key tape table :
  check_table rows key tape table = true →
  ∃ t, table = Some t ∧ ∀ j, match t !! j with
                             | Some row => j ∈ rows ∧ shares_of 2 3 (key j) row
                             | None => j ∉ rows
                             end.
Proof.
  unfold check_table. destruct table as [t|]; [|done].
  intros [Hd%bool_decide_eq_true Hall]%andb_true_iff. exists t. split; [done|]. intros j.
  rewrite forallb_forall in Hall. destruct (t !! j) as [row|] eqn:Hj.
  - assert ((j, row) ∈ map_to_list t) as Hin by (by apply elem_of_map_to_list). split.
    + rewrite <- Hd. apply list_elem_of_fmap. by exists (j, row).
    + apply check_row_ok with (tape j). by apply (Hall (j, row)), list_elem_of_In.
  - rewrite <- Hd. intros ([j' row] & -> & Hin)%list_elem_of_fmap.
    apply elem_of_map_to_list in Hin. simpl in Hj. congruence.
Qed.

Definition final_impl : Impl := impl_ (state_after 30).

Lemma final_pairwise :
  check_table [2] secret pairwise_tape (pairwise_shamir_share_table_ final_impl) = true.
Proof. vm_compute. reflexivity. Qed.

Lemma final_self : check_table [1; 0] self_key self_tape (self_shamir_share_table_ final_impl) = true.
Proof. vm_compute. reflexivity. Qed.

(** Both tables are complete: the server recovers one private key and two self
    keys. *)
Lemma HandleShamirReconstruction_correct_witness :
  ∃ r, HandleShamirReconstruction final_impl = Ok r ∧
    aborted_client_key_agreements r !! 2 = Some (secret 2) ∧ self_keys r !! 0 = Some (self_key 0).
Proof.
  destruct (check_table_ok _ _ _ _ final_pairwise) as (pw & Hpw & Hrows).
  destruct (check_table_ok _ _ _ _ final_self) as (sf & Hsf & Hself).
  destruct (HandleShamirReconstruction_correct 2 3 secret self_key final_impl pw sf Hpw Hsf) as [_ [H _]].
  - vm_compute. reflexivity.
  - intros j row Hj. specialize (Hrows j). rewrite Hj in Hrows. apply Hrows.
  - intros i row Hi. specialize (Hself i). rewrite Hi in Hself. apply Hself.
  - destruct (HandleShamirReconstruction final_impl) as [r| |] eqn:Hr.
    2,3: exfalso; assert (is_ok (HandleShamirReconstruction final_impl) = true) as Ho
      by (vm_compute; reflexivity); rewrite Hr in Ho; discriminate Ho.
    exists r. split; [reflexivity|]. destruct (H r eq_refl) as [H1 H2]. split.
    + apply H1. split; [|reflexivity]. specialize (Hrows 2). destruct (pw !! 2); [by eexists|].
      exfalso. apply Hrows, list_elem_of_here.
    + apply H2. split; [|reflexivity]. specialize (Hself 0). destruct (sf !! 0); [by eexists|].
      exfalso. apply Hself. apply list_elem_of_further, list_elem_of_here.
Defined.

(** ** The clients *)

Definition example_input (c : Z) : SecAggVectorMap :=
  {["v"%string := vector_of (if c =? 0 then [1; 2] else [3; 4]) 16 false]}.

(** What the server sent to client [c], and the states of this client. *)
Definition sent_to (c : Z) : list ServerToClient :=
  events_until 30 ≫= λ event,
    match event with SendTo c' message => if c' =? c then [message] else [] | _ => [] end.

Definition calls (c : Z) : list ClientOp :=
  [OpSetInput (example_input c); OpStart (entropy c)] ++
  ((λ message, OpReceiveMessage message (entropy c) None) <$> sent_to c).

Definition client_at (c : Z) (n : nat) : ClientState :=
  match run_client new_client (take n (calls c)) with Ok (s, _) => s | _ => new_client end.

(** Its keys in round 2, and its view of the others when it masks its input. *)
Definition view (c : Z) : R2Data * list OtherClientState :=
  (match client_at c 3 with R2InputSet d _ => d | _ => example_r2 end,
   match client_at c 4 with R3Unmasking d => r3_states d | _ => [] end).

(** The round 2 messages of the session are the masked inputs of the clients. *)
Definition check_masked (op : ServerOp) : bool :=
  match op with
  | OpReceive c (CS_masked_input_response vectors) =>
      ((c =? 0) || (c =? 1)) &&
      bool_decide (vectors !! "v"%string = Some (packed_bytes 4
        (add_mod_list 16 (decoded (vector_of (if c =? 0 then [1; 2] else [3; 4]) 16 false))
           (client_mask 100 (view c).1 (view c).2 (example_spec 16)))))
  | _ => true
  end.

Lemma session_masked : forallb check_masked (take 30 complete_ops) = true.
Proof. vm_compute. reflexivity. Qed.

Lemma view_honest c id :
  c = 0 ∨ c = 1 → session_id_ final_impl = Some id →
  honest_client graph3 secret self_key (shared_in final_impl) id c (view c).1 (view c).2.
Proof.
  intros Hc Hid.
  assert (∀ k j, 0 ≤ k → GetNeighbor graph3 c k = Ok j → k = j ∧ (k = 0 ∨ k = 1 ∨ k = 2)) as Hnb.
  { intros k j Hk. simpl. unfold IsValidNode.
    destruct ((0 <=? c) && (c <? 3)); [|done]. destruct ((0 <=? k) && (k <? 3)) eqn:E; [|done].
    intros [= <-]. lia. }
  split.
  - destruct Hc as [-> | ->]; vm_compute; reflexivity.
  - assert (Some (r2_session_id (view c).1) = session_id_ final_impl) as H
      by (destruct Hc as [-> | ->]; vm_compute; reflexivity).
    rewrite Hid in H. by injection H.
  - destruct Hc as [-> | ->]; vm_compute; reflexivity.
  - destruct Hc as [-> | ->]; vm_compute; reflexivity.
  - intros k j Hk [<- Hk']%Hnb; [|done]. split; intros _;
      destruct Hc as [-> | ->]; destruct Hk' as [-> | [-> | ->]]; vm_compute; reflexivity.
  - intros k j Hk [<- Hk']%Hnb Hne _; [|done].
    destruct Hc as [-> | ->]; destruct Hk' as [-> | [-> | ->]];
      first [exfalso; apply Hne; reflexivity | vm_compute; reflexivity].
Qed.

Lemma session_inputs id :
  session_id_ final_impl = Some id →
  honest_inputs 100 graph3 secret self_key example_specs id final_impl view example_input
    (take 30 complete_ops).
Proof.
  intros Hid c vectors Hin. pose proof session_masked as Hall. rewrite forallb_forall in Hall.
  specialize (Hall _ (proj1 (list_elem_of_In _ _) Hin)). simpl in Hall.
  apply andb_true_iff in Hall as [Hc Hv]. apply bool_decide_eq_true in Hv.
  assert (c = 0 ∨ c = 1) as Hc' by lia. split_and!.
  - eapply bytes_sent_ok; [|exact Hin]. vm_compute. reflexivity.
  - destruct Hc' as [-> | ->]; vm_compute; reflexivity.
  - split; [destruct Hc' as [-> | ->]; vm_compute; reflexivity|].
    intros name v Hl. unfold example_input in Hl. apply lookup_singleton_Some in Hl as [_ <-].
    apply vector_of_ok; [done| |].
    + destruct Hc' as [-> | ->]; repeat constructor; unfold in_modulus; simpl; lia.
    + destruct Hc' as [-> | ->]; by vm_compute.
  - intros spec Hspec. assert (spec = example_spec 16) as ->.
    { destruct Hc' as [-> | ->]; revert Hspec;
      replace (r2_specs _) with example_specs by (vm_compute; reflexivity);
      by intros ->%list_elem_of_singleton. }
    eexists. split; [unfold example_input; apply lookup_singleton_eq|]. exact Hv.
  - by apply view_honest.
Qed.

Lemma final_data : unmasking_data graph3 secret self_key final_impl.
Proof.
  destruct (check_table_ok _ _ _ _ final_pairwise) as (pw & Hpw & Hrows).
  destruct (check_table_ok _ _ _ _ final_self) as (sf & Hsf & Hself).
  assert (Hout : ∀ i, i = 0 ∨ i = 1 ∨ i = 2 ∨ client_status final_impl i = Crash).
  { intros i. destruct (decide (0 ≤ i < 3)); [lia|]. do 3 right. unfold client_status, at_.
    destruct (Z.ltb_spec i 0); [done|]. rewrite lookup_ge_None_2; [done|].
    replace (length (client_statuses_ final_impl)) with 3%nat by (vm_compute; reflexivity). lia. }
  split.
  - vm_compute. reflexivity.
  - vm_compute. reflexivity.
  - intros i Hi. destruct (Hout i) as [-> | [-> | [-> | H]]]; [vm_compute; reflexivity..| |].
    + assert (included_in final_impl 2 = false) as H2 by (vm_compute; reflexivity).
      rewrite H2 in Hi. discriminate Hi.
    + unfold included_in in Hi. rewrite H in Hi. discriminate Hi.
  - exists pw. split; [exact Hpw|]. intros j. specialize (Hrows j). destruct (pw !! j).
    + destruct Hrows as [->%list_elem_of_singleton Hr]. split; [vm_compute; reflexivity|].
      split; [vm_compute; reflexivity|exact Hr].
    + destruct (Hout j) as [-> | [-> | [-> | H]]]; [vm_compute; reflexivity..| |].
      * destruct Hrows. apply list_elem_of_here.
      * unfold shared_in. rewrite H. reflexivity.
  - exists sf. split; [exact Hsf|]. intros j. specialize (Hself j). destruct (sf !! j).
    + destruct Hself as [Hj Hr]. split; [|exact Hr].
      apply elem_of_cons in Hj as [-> | ->%list_elem_of_singleton]; vm_compute; reflexivity.
    + destruct (Hout j) as [-> | [-> | [-> | H]]].
      * destruct Hself. apply list_elem_of_further, list_elem_of_here.
      * destruct Hself. apply list_elem_of_here.
      * vm_compute. reflexivity.
      * unfold included_in. rewrite H. reflexivity.
Qed.

(** The session adds up the inputs [1, 2] and [3, 4] of clients 0 and 1. *)
Lemma honest_session_result_witness :
  ∃ r s' v, Server.Result (state_after 30) = Ok (r, s') ∧ r !! "v"%string = Some v ∧
    decoded v = [4; 6].
Proof.
  destruct (Server.Result (state_after 30)) as [[r s']|code message|] eqn:Hr.
  2,3: exfalso; assert (is_ok (Server.Result (state_after 30)) = true) as H
    by (vm_compute; reflexivity); rewrite Hr in H; discriminate.
  destruct (session_id_ final_impl) as [id|] eqn:Hid.
  2: { exfalso. assert (bool_decide (session_id_ final_impl = None) = false) as H
         by (vm_compute; reflexivity). rewrite Hid in H. discriminate. }
  destruct (honest_session_result 100 graph3 (CompleteGraph_laws 3 2 ltac:(lia) ltac:(lia)) secret
    self_key 2 3 example_specs false (take 30 complete_ops) (state_after 30) (events_until 30) r s' id
    view example_input) with (spec := example_spec 16) as (v & Hv & Hdec).
  - apply NoDup_singleton.
  - constructor; [apply example_spec_ok; right; reflexivity|constructor].
  - lia.
  - apply run_final. vm_compute. reflexivity.
  - exact Hr.
  - exact Hid.
  - apply example_draws_masks.
  - exact final_data.
  - apply session_inputs. exact Hid.
  - apply list_elem_of_here.
  - exists r, s', v. split; [reflexivity|]. split; [exact Hv|]. rewrite Hdec. vm_compute. reflexivity.
Defined.
