(* ===== verification/Tensor.v ===== *)
(** * Tensors: [aggregation/core/tensor*.{h,cc}]

    A tensor packages a flat array of values with their type and its shape. The
    classes that implement [TensorData] are the constructors of [Storage]: a
    buffer of numbers as they lie in memory (little-endian), the strings that a
    serialized content embeds, given as views into it, and a vector of strings.
    A value is the list of its bytes. Reading a view that leaves its buffer,
    or memory that holds values of another type, is [Crash], like a failed
    check. [size_t] has 64 bits. *)

From S2P Require Import Prelude Bytes.

Inductive DataType := DT_INVALID | DT_FLOAT | DT_DOUBLE | DT_INT32 | DT_STRING | DT_INT64.

#[export] Instance DataType_eq_dec : EqDecision DataType.
Proof. solve_decision. Defined.

(** [sizeof(T)] in a switch over the type, which ends the process on
    [DT_INVALID]. *)
Definition value_size (dtype : DataType) : Res Z :=
  match dtype with
  | DT_INVALID => Crash
  | DT_FLOAT | DT_INT32 => Ok 4
  | DT_DOUBLE | DT_INT64 => Ok 8
  | DT_STRING => Ok 16
  end.

(** ** Shapes *)

Definition TensorShape := list Z.

Definition NumElements (dim_sizes : TensorShape) : Z :=
  foldl (λ num_elements dim_size, u64 (num_elements * dim_size)) 1 dim_sizes.

Fixpoint TensorShape_FromProto (dim_sizes : list Z) : Res TensorShape :=
  match dim_sizes with
  | [] => Ok []
  | dim_size :: rest =>
      if dim_size <? 0 then
        Error INVALID_ARGUMENT "Negative dimension size isn't supported when converting from shape_proto"
      else shape ← TensorShape_FromProto rest; Ok (u64 dim_size :: shape)
  end.

(** The cast of a [size_t] to [int64_t]. *)
Definition s64 (z : Z) : Z := if u64 z <? 2 ^ 63 then u64 z else u64 z - 2 ^ 64.

Definition TensorShape_ToProto (shape : TensorShape) : list Z := s64 <$> shape.

Record TensorSpec := { spec_name : string; spec_dtype : DataType; spec_shape : TensorShape }.

(** ** Data *)

Inductive Storage :=
  | NumericBuffer (content : list Z)
  | SerializedStrings (content : list Z) (string_views : list (Z * Z))   (** offset and size *)
  | VectorStrings (strings : list (list Z)).

Record TensorData := { data_address : Z; storage : Storage }.

Definition byte_size (data : TensorData) : Z :=
  match storage data with
  | NumericBuffer content => Z.of_nat (length content)
  | SerializedStrings _ views => u64 (Z.of_nat (length views) * 16)
  | VectorStrings strings => u64 (Z.of_nat (length strings) * 16)
  end.

Definition TensorData_CheckValid (value_size : Z) (data : TensorData) : Res unit :=
  FCP_CHECK 0 <? value_size ;;
  if byte_size data =? 0 then
    Error FAILED_PRECONDITION "TensorData: non-empty size required"
  else if negb (byte_size data mod value_size =? 0) then
    Error FAILED_PRECONDITION "TensorData: byte_size() must be a multiple of value_size"
  else if negb (data_address data mod value_size =? 0) then
    Error FAILED_PRECONDITION "TensorData: data() address is not aligned by value_size"
  else Ok ().

(** ** Tensors *)

(** A tensor whose contents were moved has no data. *)
Record Tensor := { dtype : DataType; shape : TensorShape; data_ : option TensorData }.

Definition CheckValid (t : Tensor) : Res unit :=
  if bool_decide (dtype t = DT_INVALID) then
    Error FAILED_PRECONDITION "Invalid Tensor dtype."
  else
    size ← value_size (dtype t);
    match data_ t with
    | None => Crash
    | Some data =>
        _ ← TensorData_CheckValid size data;
        if negb (byte_size data =? u64 (NumElements (shape t) * size)) then
          Error FAILED_PRECONDITION "TensorData byte_size is inconsistent with the Tensor dtype and shape."
        else Ok ()
    end.

Definition Create (dt : DataType) (sh : TensorShape) (data : TensorData) : Res Tensor :=
  let tensor := {| dtype := dt; shape := sh; data_ := Some data |} in
  _ ← CheckValid tensor; Ok tensor.

(** What is left of a tensor after a move. *)
Definition moved_from (t : Tensor) : Tensor :=
  {| dtype := DT_INVALID; shape := []; data_ := None |}.

(** ** Values *)

Definition view_bytes (content : list Z) (view : Z * Z) : Res (list Z) :=
  if view.1 + view.2 <=? Z.of_nat (length content) then
    Ok (take (Z.to_nat view.2) (drop (Z.to_nat view.1) content))
  else Crash.

(** Cuts a buffer into values of [n] bytes. *)
Fixpoint chunks (count n : nat) (content : list Z) : list (list Z) :=
  match count with
  | O => []
  | S count => take n content :: chunks count n (drop n content)
  end.

(** The values that [AsAggVector<T>()] iterates over, in the order of their
    dense index. *)
Definition AsAggVector (dt : DataType) (t : Tensor) : Res (list (list Z)) :=
  FCP_CHECK bool_decide (dt = dtype t) ;;
  match data_ t, dt with
  | Some {| storage := SerializedStrings content views |}, DT_STRING => mapM (view_bytes content) views
  | Some {| storage := VectorStrings strings |}, DT_STRING => Ok strings
  | Some {| storage := NumericBuffer content |}, (DT_FLOAT | DT_DOUBLE | DT_INT32 | DT_INT64) =>
      size ← value_size dt;
      Ok (chunks (Z.to_nat (Z.of_nat (length content) / size)) (Z.to_nat size) content)
  | _, _ => Crash
  end.

(** ** Serialization *)

(** Variable-length integers of protocol buffers. *)
Class Varint := {
  WriteVarint64 : Z → list Z;
  ReadVarint64 : list Z → option (Z * list Z)       (** the value and the rest of the input *)
}.

Class VarintLaws (V : Varint) : Prop := {
  varint_roundtrip n rest : 0 ≤ n < 2 ^ 64 → ReadVarint64 (WriteVarint64 n ++ rest) = Some (n, rest);
  varint_reads l n rest : ReadVarint64 l = Some (n, rest) →
    0 ≤ n < 2 ^ 64 ∧ (length rest < length l)%nat
}.

Record TensorProto := { proto_dtype : DataType; proto_shape : list Z; content : list Z }.

Section serialization.
Context {V : Varint}.

(** [WriteRaw] takes the size of a string as an [int]. *)
Definition EncodeContent_string (strings : list (list Z)) (num : Z) : Res (list Z) :=
  FCP_CHECK (num <=? Z.of_nat (length strings)) ;;
  let written := take (Z.to_nat num) strings in
  FCP_CHECK forallb (λ s, Z.of_nat (length s) <? 2 ^ 31) written ;;
  Ok ((written ≫= λ s, WriteVarint64 (Z.of_nat (length s))) ++ concat written).

Definition EncodeContent (t : Tensor) : Res (list Z) :=
  match dtype t with
  | DT_INVALID => Crash
  | DT_STRING => strings ← AsAggVector DT_STRING t; EncodeContent_string strings (NumElements (shape t))
  | _ => match data_ t with
         | Some {| storage := NumericBuffer content |} => Ok content
         | _ => Crash
         end
  end.

(** The first pass: the views relative to the first string, the sum of the
    sizes and what is left of the input. *)
Fixpoint read_sizes (num : nat) (input : list Z) (cumulative_size : Z) :
    Res (list (Z * Z) * Z * list Z) :=
  match num with
  | O => Ok ([], cumulative_size, input)
  | S num =>
      match ReadVarint64 input with
      | None => Error INVALID_ARGUMENT "the input tensor content doesn't contain a size for a string."
      | Some (size, rest) =>
          '(views, total, rest) ← read_sizes num rest (u64 (cumulative_size + size));
          Ok ((cumulative_size, size) :: views, total, rest)
      end
  end.

(** [SerializedContentStringData::Initialize]; the input stream takes the size
    of the content as an [int]. *)
Definition Initialize (content : list Z) (num : nat) : Res Storage :=
  FCP_CHECK Z.of_nat (length content) <? 2 ^ 31 ;;
  '(views, cumulative_size, rest) ← read_sizes num content 0;
  let offset := Z.of_nat (length content) - Z.of_nat (length rest) in
  if Z.of_nat (length content) <? u64 (offset + cumulative_size) then
    Error INVALID_ARGUMENT "Input tensor content has insufficient size to store the string values."
  else Ok (SerializedStrings content ((λ view, (u64 (view.1 + offset), view.2)) <$> views)).

Definition DecodeContent (dt : DataType) (content : list Z) (num : Z) : Res Storage :=
  match dt with
  | DT_INVALID => Crash
  | DT_STRING => Initialize content (Z.to_nat num)
  | _ => Ok (NumericBuffer content)
  end.

(** [address] is where the data is allocated. *)
Definition FromProto (address : Z) (p : TensorProto) : Res Tensor :=
  sh ← TensorShape_FromProto (proto_shape p);
  data ← DecodeContent (proto_dtype p) (content p) (NumElements sh);
  Create (proto_dtype p) sh {| data_address := address; storage := data |}.

Definition ToProto (t : Tensor) : Res TensorProto :=
  content ← EncodeContent t;
  Ok {| proto_dtype := dtype t; proto_shape := TensorShape_ToProto (shape t); content := content |}.
End serialization.

(** ** A model of the variable-length integers *)

(** Groups of seven bits, lowest first, with the top bit set in all but the
    last byte. *)
Fixpoint varint_bytes (fuel : nat) (n : Z) : list Z :=
  match fuel with
  | O => []
  | S fuel => if n <? 128 then [n] else (n mod 128 + 128) :: varint_bytes fuel (n / 128)
  end.

Fixpoint varint_value (fuel : nat) (l : list Z) : option (Z * list Z) :=
  match fuel, l with
  | S fuel, b :: rest =>
      if b <? 128 then Some (b, rest)
      else match varint_value fuel rest with
           | Some (v, rest) => Some (b - 128 + 128 * v, rest)
           | None => None
           end
  | _, _ => None
  end.

#[export] Instance Leb128 : Varint := {|
  WriteVarint64 n := varint_bytes 10 n;
  ReadVarint64 l := match varint_value 10 l with Some (v, rest) => Some (u64 v, rest) | None => None end
|}.

Lemma varint_bytes_read fuel rest : ∀ n,
  0 ≤ n < 128 ^ Z.of_nat (S fuel) →
  varint_value (S fuel) (varint_bytes (S fuel) n ++ rest) = Some (n, rest).
Proof.
  induction fuel as [|fuel IH]; intros n Hn.
  { cbn [varint_bytes]. rewrite (proj2 (Z.ltb_lt n 128)) by (simpl in Hn; lia). simpl.
    by rewrite (proj2 (Z.ltb_lt n 128)) by (simpl in Hn; lia). }
  rewrite Nat2Z.inj_succ, Z.pow_succ_r in Hn by lia.
  change (varint_bytes (S (S fuel)) n) with
    (if n <? 128 then [n] else (n mod 128 + 128) :: varint_bytes (S fuel) (n / 128)).
  destruct (Z.ltb_spec n 128) as [Hs|Hs].
  - simpl. by rewrite (proj2 (Z.ltb_lt _ _)).
  - pose proof (Z.mod_pos_bound n 128 ltac:(lia)). set (m := S fuel) in *.
    cbn [app varint_value]. rewrite (proj2 (Z.ltb_ge _ _)) by lia. subst m.
    rewrite IH by (split; [apply Z.div_pos; lia|apply Z.div_lt_upper_bound; lia]).
    do 2 f_equal. rewrite (Z.div_mod n 128) at 3 by lia. lia.
Qed.

Lemma varint_value_shorter fuel : ∀ l v rest,
  varint_value fuel l = Some (v, rest) → (length rest < length l)%nat.
Proof.
  induction fuel as [|fuel IH]; intros [|b l] v rest; simpl; try done.
  destruct (b <? 128); [intros [= _ <-]; lia|].
  destruct (varint_value fuel l) as [[v' rest']|] eqn:E; [|done]. intros [= _ <-].
  apply IH in E. lia.
Qed.

#[export] Instance Leb128_laws : VarintLaws Leb128.
Proof.
  split.
  - intros n rest Hn. cbn [ReadVarint64 WriteVarint64 Leb128].
    rewrite varint_bytes_read by (change (128 ^ Z.of_nat 10) with (2 ^ 70); lia). by rewrite u64_small.
  - intros l n rest. cbn [ReadVarint64 Leb128].
    destruct (varint_value 10 l) as [[v rest']|] eqn:E; [|done]. intros [= <- <-].
    split; [apply u64_range|by eapply varint_value_shorter].
Qed.
