(* ===== verification/TensorCorrect.v ===== *)
(** * Correctness of the serialization of tensors *)

From S2P Require Import Prelude Bytes Tensor.

Lemma s64_small z : 0 ≤ z < 2 ^ 63 → s64 z = z ∧ u64 (s64 z) = z ∧ 0 ≤ s64 z.
Proof.
  intros Hz. unfold s64. rewrite u64_small, (proj2 (Z.ltb_lt _ _)) by lia.
  split_and!; [done|apply u64_small; lia|lia].
Qed.

Lemma shape_roundtrip sh :
  Forall (λ d, 0 ≤ d < 2 ^ 63) sh → TensorShape_FromProto (TensorShape_ToProto sh) = Ok sh.
Proof.
  induction 1 as [|d sh Hd _ IH]; [done|]. destruct (s64_small d Hd) as (_ & Hu & Hpos).
  unfold TensorShape_ToProto in *. rewrite fmap_cons. cbn [TensorShape_FromProto].
  rewrite (proj2 (Z.ltb_ge _ _)) by done. rewrite IH. simpl. by rewrite Hu.
Qed.

(** Where the data lies has no effect on a tensor, as long as it is aligned. *)
Lemma CheckValid_moved t data data' :
  CheckValid t = Ok () → data_ t = Some data → byte_size data' = byte_size data →
  data_address data' mod 16 = 0 →
  CheckValid {| dtype := dtype t; shape := shape t; data_ := Some data' |} = Ok ().
Proof.
  unfold CheckValid. simpl. intros H Hd Hsize Haddr. rewrite Hd in H.
  case_bool_decide; [done|]. destruct (value_size (dtype t)) as [size| |] eqn:Hs; simpl in *; [|done|done].
  apply bind_ok in H as ([] & Hv & H). unfold TensorData_CheckValid in *.
  rewrite fcp_check_ok in Hv. destruct Hv as [Hpos Hv]. rewrite Hpos, Hsize. simpl.
  destruct (byte_size data =? 0); [done|]. destruct (negb (byte_size data mod size =? 0)); [done|].
  assert (data_address data' mod size = 0) as ->; [|done].
  assert ((size | 16)) as Hdiv.
  { destruct (dtype t); simpl in Hs; try done; injection Hs as <-;
      [by exists 4|by exists 2|by exists 4|by exists 1|by exists 2]. }
  apply Z.mod_divide; [lia|]. etrans; [exact Hdiv|]. by apply Z.mod_divide.
Qed.

Section strings.
Context {V : Varint} {HV : VarintLaws V}.

Definition header (strings : list (list Z)) : list Z :=
  strings ≫= λ s, WriteVarint64 (Z.of_nat (length s)).

(** The views of consecutive strings from position [o] on. *)
Fixpoint views_at (o : Z) (strings : list (list Z)) : list (Z * Z) :=
  match strings with
  | [] => []
  | s :: rest => (o, Z.of_nat (length s)) :: views_at (o + Z.of_nat (length s)) rest
  end.

Lemma read_sizes_header strings rest : ∀ c,
  0 ≤ c → c + Z.of_nat (length (concat strings)) < 2 ^ 64 →
  read_sizes (length strings) (header strings ++ rest) c =
    Ok (views_at c strings, c + Z.of_nat (length (concat strings)), rest).
Proof.
  induction strings as [|s strings IH]; intros c Hc Hsum.
  { unfold header. simpl. by rewrite Z.add_0_r. }
  cbn [length concat views_at read_sizes] in *. rewrite length_app, Nat2Z.inj_add in *.
  change (header (s :: strings)) with (WriteVarint64 (Z.of_nat (length s)) ++ header strings).
  rewrite <- (assoc_L (++)), varint_roundtrip, u64_small, IH by lia.
  cbn [mbind Res_bind]. do 3 f_equal. lia.
Qed.

Lemma views_shift strings offset : ∀ c,
  0 ≤ c → 0 ≤ offset → offset + c + Z.of_nat (length (concat strings)) < 2 ^ 64 →
  (λ view, (u64 (view.1 + offset), view.2)) <$> views_at c strings = views_at (offset + c) strings.
Proof.
  induction strings as [|s strings IH]; intros c Hc Ho Hsum; [done|]. simpl in *.
  rewrite length_app, Nat2Z.inj_add in Hsum. rewrite u64_small by lia. rewrite IH by lia.
  f_equal; f_equal; lia.
Qed.

Lemma views_read strings : ∀ pre,
  mapM (view_bytes (pre ++ concat strings)) (views_at (Z.of_nat (length pre)) strings) = Ok strings.
Proof.
  induction strings as [|s strings IH]; intros pre; [done|]. cbn [views_at concat mapM].
  assert (view_bytes (pre ++ s ++ concat strings) (Z.of_nat (length pre), Z.of_nat (length s)) = Ok s)
    as ->.
  { unfold view_bytes. cbn [fst snd]. rewrite (proj2 (Z.leb_le _ _)) by (rewrite !length_app; lia).
    by rewrite !Nat2Z.id, drop_app_length, take_app_length. }
  cbn [mbind Res_bind]. rewrite (assoc_L (++)), <- Nat2Z.inj_add, <- length_app, IH. done.
Qed.

Lemma header_length strings :
  Z.of_nat (length (concat strings)) < 2 ^ 64 → (length strings ≤ length (header strings))%nat.
Proof using HV.
  induction strings as [|s strings IH]; intros Hlen; [done|]. cbn [concat] in Hlen.
  rewrite length_app in Hlen.
  change (header (s :: strings)) with (WriteVarint64 (Z.of_nat (length s)) ++ header strings).
  pose proof (varint_roundtrip (Z.of_nat (length s)) [] ltac:(lia)) as [_ Hr]%varint_reads.
  rewrite app_nil_r in Hr. cbn [length] in *. rewrite length_app. specialize (IH ltac:(lia)). lia.
Qed.

Lemma Initialize_header strings :
  Z.of_nat (length (header strings ++ concat strings)) < 2 ^ 31 →
  ∃ views, Initialize (header strings ++ concat strings) (length strings) =
      Ok (SerializedStrings (header strings ++ concat strings) views) ∧
    length views = length strings ∧
    mapM (view_bytes (header strings ++ concat strings)) views = Ok strings.
Proof.
  intros Hlen. unfold Initialize. rewrite (proj2 (Z.ltb_lt _ _)) by done. cbn [fcp_check].
  rewrite length_app, Nat2Z.inj_add in Hlen. rewrite read_sizes_header by lia. cbn [mbind Res_bind].
  rewrite length_app, Nat2Z.inj_add, Z.add_0_l, Z.add_simpl_r, u64_small, Z.ltb_irrefl by lia.
  rewrite views_shift, Z.add_0_r by lia. eexists. split; [done|]. split; [|apply views_read].
  generalize (Z.of_nat (length (header strings))). clear.
  induction strings as [|s strings IH]; intros o; simpl; [done|by rewrite IH].
Qed.
End strings.

Lemma NumElements_range sh : 0 ≤ NumElements sh.
Proof.
  unfold NumElements. assert (∀ n, 0 ≤ n → 0 ≤ foldl (λ num d, u64 (num * d)) n sh) as H; [|by apply H].
  induction sh as [|d sh IH]; intros n Hn; [done|]. apply IH, u64_range.
Qed.

Lemma length_mapM_views content views strings :
  mapM (view_bytes content) views = Ok strings → length strings = length views.
Proof.
  revert strings. induction views as [|v views IH]; intros strings H; [by injection H as <-|].
  cbn [mapM] in H. apply bind_ok in H as (s & _ & (rest & Hrest & [= <-])%bind_ok).
  simpl. by rewrite (IH rest).
Qed.

(** ** Values of valid tensors *)

(** A value of the size of its type. *)
Definition typed (dt : DataType) (value : list Z) : Prop :=
  match dt with
  | DT_INVALID => False
  | DT_STRING => True
  | DT_FLOAT | DT_INT32 => length value = 4%nat
  | DT_DOUBLE | DT_INT64 => length value = 8%nat
  end.

Definition numeric (dt : DataType) : Prop := dt ≠ DT_INVALID ∧ dt ≠ DT_STRING.

(** The number of bytes of a number. *)
Definition width (dt : DataType) : nat :=
  match dt with DT_FLOAT | DT_INT32 => 4 | _ => 8 end.

Lemma numeric_size dt : numeric dt → value_size dt = Ok (Z.of_nat (width dt)).
Proof. intros [? ?]. by destruct dt. Qed.

Lemma numeric_typed dt value : numeric dt → typed dt value ↔ length value = width dt.
Proof. intros [? ?]. by destruct dt. Qed.

Lemma width_pos dt : (0 < width dt ≤ 8)%nat.
Proof. destruct dt; simpl; lia. Qed.

Lemma length_chunks count n : ∀ content, length (chunks count n content) = count.
Proof. induction count as [|count IH]; intros content; simpl; [done|by rewrite IH]. Qed.

Lemma chunks_typed count n : ∀ content,
  (count * n ≤ length content)%nat → Forall (λ v, length v = n) (chunks count n content).
Proof.
  induction count as [|count IH]; intros content Hlen; simpl; constructor.
  - rewrite length_take. lia.
  - apply IH. rewrite length_drop. lia.
Qed.

Lemma chunks_concat n values :
  Forall (λ v, length v = n) values → chunks (length values) n (concat values) = values.
Proof.
  induction 1 as [|v values Hv _ IH]; [done|]. simpl. rewrite <- Hv, take_app_length, drop_app_length, Hv, IH. done.
Qed.

Lemma length_concat_typed n values :
  Forall (λ v, length v = n) values → length (concat (A:=Z) values) = (length values * n)%nat.
Proof. induction 1 as [|v values Hv _ IH]; [done|]. simpl. rewrite length_app, IH. lia. Qed.

Lemma concat_chunks count n : ∀ content,
  length content = (count * n)%nat → concat (chunks count n content) = content.
Proof.
  induction count as [|count IH]; intros content Hlen; simpl; [by destruct content|].
  rewrite IH by (rewrite length_drop; lia). apply take_drop.
Qed.

Lemma CheckValid_inv t :
  CheckValid t = Ok () → ∃ size data, value_size (dtype t) = Ok size ∧ 0 < size ≤ 16 ∧ data_ t = Some data ∧
    byte_size data ≠ 0 ∧ byte_size data = u64 (NumElements (shape t) * size).
Proof.
  unfold CheckValid. case_bool_decide; [done|]. intros (size & Hs & Hrest)%bind_ok.
  destruct (data_ t) as [data|]; [|done]. apply bind_ok in Hrest as ([] & Hv & Hrest). exists size, data.
  unfold TensorData_CheckValid in Hv. rewrite fcp_check_ok in Hv. destruct Hv as [Hpos Hv].
  destruct (Z.eqb_spec (byte_size data) 0); [done|]. destruct (Z.eqb_spec (byte_size data) (u64 (NumElements (shape t) * size))); [|done].
  split_and!; try done; [lia|]. destruct (dtype t); simpl in Hs; congruence || (injection Hs as <-; lia).
Qed.

(** The number of values of a valid tensor is that of its shape, and is not
    zero. *)
Lemma valid_values t values :
  CheckValid t = Ok () → AsAggVector (dtype t) t = Ok values → NumElements (shape t) < 2 ^ 60 →
  Z.of_nat (length values) < 2 ^ 60 →
  Z.of_nat (length values) = NumElements (shape t) ∧ values ≠ [] ∧ Forall (typed (dtype t)) values.
Proof.
  intros (size & data & Hs & Hsize & Hd & Hnz & Hb)%CheckValid_inv Hv Hnum Hlen.
  pose proof (NumElements_range (shape t)). rewrite u64_small in Hb by nia.
  unfold AsAggVector in Hv. rewrite bool_decide_true in Hv by done. cbn [fcp_check] in Hv. rewrite Hd in Hv.
  destruct data as [a [buffer|c views|strings]]; cbn [storage byte_size] in *.
  - assert (Hn : numeric (dtype t)) by (destruct (dtype t); by split).
    rewrite numeric_size in Hs by done. injection Hs as <-. pose proof (width_pos (dtype t)).
    assert (Hvals : values = chunks (Z.to_nat (NumElements (shape t))) (width (dtype t)) buffer).
    { rewrite <- (Z.div_mul (NumElements (shape t)) (Z.of_nat (width (dtype t)))), <- Hb by lia.
      by destruct (dtype t); simplify_eq/=. }
    rewrite Hvals, length_chunks. split_and!; [lia| |].
    + intros Hnil%(f_equal length). rewrite length_chunks in Hnil. simpl in Hnil. nia.
    + eapply Forall_impl; [apply chunks_typed; lia|]. intros v. by apply numeric_typed.
  - destruct (dtype t) eqn:Hdt; try done. injection Hs as <-. apply length_mapM_views in Hv as Hl.
    unfold byte_size in Hb, Hnz. simpl in Hb, Hnz. rewrite u64_small in Hb, Hnz by lia. split_and!; [lia| |by apply Forall_true].
    intros ->. simpl in Hl. lia.
  - destruct (dtype t) eqn:Hdt; try done. injection Hs as <-. injection Hv as ->.
    unfold byte_size in Hb, Hnz. simpl in Hb, Hnz. rewrite u64_small in Hb, Hnz by lia. split_and!; [lia| |by apply Forall_true].
    by intros ->.
Qed.

(** Tensors of values. *)
Lemma Create_numeric dt sh address values :
  numeric dt → Forall (typed dt) values → Z.of_nat (length values) = NumElements sh →
  0 < NumElements sh < 2 ^ 60 → address mod 16 = 0 →
  let t := {| dtype := dt; shape := sh;
              data_ := Some {| data_address := address; storage := NumericBuffer (concat values) |} |} in
  Create dt sh {| data_address := address; storage := NumericBuffer (concat values) |} = Ok t ∧
  CheckValid t = Ok () ∧ AsAggVector dt t = Ok values.
Proof.
  intros Hn Ht Hlen Hnum Haddr t.
  assert (Hw : Forall (λ v, length v = width dt) values).
  { eapply Forall_impl; [exact Ht|]. intros v. by apply numeric_typed. }
  pose proof (width_pos dt). pose proof (length_concat_typed _ _ Hw) as Hc.
  assert (Hvalid : CheckValid t = Ok ()).
  { unfold CheckValid, t. cbn [dtype shape data_]. rewrite bool_decide_false by apply Hn.
    rewrite numeric_size by done. cbn [mbind Res_bind]. unfold TensorData_CheckValid.
    rewrite (proj2 (Z.ltb_lt _ _)) by lia. cbn [fcp_check]. unfold byte_size. cbn [storage data_address].
    rewrite Hc, Nat2Z.inj_mul, Z.mod_mul by lia. rewrite (proj2 (Z.eqb_neq _ 0)) by (apply Z.neq_mul_0; lia). cbn [negb].
    assert (address mod Z.of_nat (width dt) = 0) as ->.
    { apply Z.mod_divide; [lia|]. apply Z.mod_divide in Haddr; [|done]. etrans; [|exact Haddr].
      by destruct dt; [exists 2|exists 4|exists 2|exists 4|exists 2|exists 2]. }
    cbn [mbind Res_bind]. rewrite Hlen, u64_small by nia. by rewrite Z.eqb_refl. }
  split_and!; [unfold Create; fold t; by rewrite Hvalid|done|].
  unfold AsAggVector. rewrite bool_decide_true by done. cbn [fcp_check t data_ storage].
  assert (Hch : chunks (Z.to_nat (Z.of_nat (length (concat values)) / Z.of_nat (width dt))) (width dt) (concat values) = values).
  { rewrite Hc, Nat2Z.inj_mul, Z.div_mul, Nat2Z.id by lia. by apply chunks_concat. }
  destruct Hn as [? ?]. destruct dt; try done; exact (f_equal Ok Hch).
Qed.

Lemma Create_strings sh address values :
  Z.of_nat (length values) = NumElements sh → 0 < NumElements sh < 2 ^ 60 → address mod 16 = 0 →
  let t := {| dtype := DT_STRING; shape := sh;
              data_ := Some {| data_address := address; storage := VectorStrings values |} |} in
  Create DT_STRING sh {| data_address := address; storage := VectorStrings values |} = Ok t ∧
  CheckValid t = Ok () ∧ AsAggVector DT_STRING t = Ok values.
Proof.
  intros Hlen Hnum Haddr t.
  assert (Hvalid : CheckValid t = Ok ()).
  { unfold CheckValid, t. cbn [dtype shape data_]. rewrite bool_decide_false by done. cbn [value_size mbind Res_bind].
    unfold TensorData_CheckValid, byte_size. cbn [storage data_address]. rewrite u64_small by lia.
    rewrite Z.mod_mul, Haddr, (proj2 (Z.eqb_neq _ 0)) by lia. cbn. by rewrite Hlen, u64_small, Z.eqb_refl by lia. }
  split_and!; [unfold Create; fold t; by rewrite Hvalid|done|done].
Qed.

(** A storage that decodes the encoded content gives the tensor back. *)
Lemma roundtrip_storage {V : Varint} t values address c st :
  CheckValid t = Ok () → Forall (λ d, 0 ≤ d < 2 ^ 63) (shape t) → address mod 16 = 0 →
  EncodeContent t = Ok c → DecodeContent (dtype t) c (NumElements (shape t)) = Ok st →
  (∀ data, data_ t = Some data → byte_size {| data_address := address; storage := st |} = byte_size data) →
  AsAggVector (dtype t) {| dtype := dtype t; shape := shape t;
    data_ := Some {| data_address := address; storage := st |} |} = Ok values →
  ∃ p t', ToProto t = Ok p ∧ FromProto address p = Ok t' ∧
    dtype t' = dtype t ∧ shape t' = shape t ∧ AsAggVector (dtype t') t' = Ok values.
Proof.
  intros Hvalid Hdims Haddr Henc Hdec Hsize Hval. unfold ToProto, FromProto. rewrite Henc. eexists _, _.
  split; [done|]. cbn [proto_shape proto_dtype content]. rewrite shape_roundtrip by done.
  cbn [mbind Res_bind]. rewrite Hdec. cbn [mbind Res_bind]. unfold Create.
  destruct (CheckValid_inv _ Hvalid) as (_ & data & _ & _ & Hd & _).
  by rewrite (CheckValid_moved t data) by (done || by apply Hsize).
Qed.

Lemma EncodeContent_strings {V : Varint} t values :
  dtype t = DT_STRING → AsAggVector (dtype t) t = Ok values →
  Z.of_nat (length values) = NumElements (shape t) → Z.of_nat (length (concat values)) < 2 ^ 31 →
  EncodeContent t = Ok (header values ++ concat values).
Proof.
  intros Hdt Hvalues Hn Hcat. unfold EncodeContent. rewrite Hdt in *. rewrite Hvalues. cbn [mbind Res_bind].
  unfold EncodeContent_string. rewrite <- Hn, Z.leb_refl, Nat2Z.id, firstn_all. cbn [fcp_check].
  rewrite (proj2 (forallb_forall _ _)); [done|]. intros s Hs%list_elem_of_In.
  apply Z.ltb_lt. apply list_elem_of_split in Hs as (l1 & l2 & ->).
  rewrite concat_app, length_app in Hcat. simpl in Hcat. rewrite length_app in Hcat. lia.
Qed.

(** ** Properties *)

(** C32: a valid tensor survives serialization: [ToProto] succeeds, and
    [FromProto] of the result, wherever it is allocated with the alignment of
    the allocator, is a tensor of the same type and shape with the same values,
    numbers or strings. *)
Theorem Tensor_proto_roundtrip {V : Varint} {HV : VarintLaws V} t values address :
  CheckValid t = Ok () → AsAggVector (dtype t) t = Ok values →
  Forall (λ d, 0 ≤ d < 2 ^ 63) (shape t) → NumElements (shape t) < 2 ^ 60 →
  Z.of_nat (length (header values ++ concat values)) < 2 ^ 31 → address mod 16 = 0 →
  ∃ p t', ToProto t = Ok p ∧ FromProto address p = Ok t' ∧
    dtype t' = dtype t ∧ shape t' = shape t ∧ AsAggVector (dtype t') t' = Ok values.
Proof.
  intros Hvalid Hvalues Hdims Hnum Hlen Haddr.
  destruct (data_ t) as [[addr st]|] eqn:Hd.
  2: { unfold AsAggVector in Hvalues. rewrite Hd in Hvalues. by destruct (bool_decide _), (dtype t). }
  destruct (decide (dtype t = DT_STRING)) as [Hdt|Hdt].
  - assert (Hcat : Z.of_nat (length (concat values)) < 2 ^ 31) by (rewrite length_app in Hlen; lia).
    assert (Hcount : Z.of_nat (length values) < 2 ^ 31).
    { pose proof (header_length values ltac:(lia)). rewrite length_app in Hlen. lia. }
    destruct (valid_values t values Hvalid Hvalues ltac:(lia) ltac:(lia)) as (Hn & _ & _).
    destruct (Initialize_header values Hlen) as (views & Hinit & Hviews & Hread).
    apply (roundtrip_storage t values address (header values ++ concat values)
             (SerializedStrings (header values ++ concat values) views)); try done.
    + by apply EncodeContent_strings.
    + rewrite Hdt. simpl. by rewrite <- Hn, Nat2Z.id.
    + intros data Hdata. destruct (CheckValid_inv _ Hvalid) as (size & d & Hs & _ & Hd' & _ & Hb).
      assert (data = d) as -> by congruence. rewrite Hdt in Hs. injection Hs as <-. rewrite Hb, <- Hn.
      unfold byte_size. simpl. by rewrite Hviews.
    + by rewrite Hdt.
  - unfold AsAggVector in Hvalues. rewrite bool_decide_true in Hvalues by done. cbn [fcp_check] in Hvalues. rewrite Hd in Hvalues.
    destruct st as [c|c views|strings]; [|by destruct (dtype t)..].
    apply (roundtrip_storage t values address c (NumericBuffer c)); try done.
    + unfold EncodeContent. rewrite Hd. by destruct (dtype t).
    + by destruct (dtype t).
    + intros data Hdata. rewrite Hd in Hdata. by injection Hdata as <-.
    + unfold AsAggVector. rewrite bool_decide_true by done. exact Hvalues.
Qed.

(** Two strings and four bytes of a number. *)
Definition string_tensor : Tensor :=
  {| dtype := DT_STRING; shape := [2];
     data_ := Some {| data_address := 4096; storage := VectorStrings [[97; 98]; []] |} |}.

Lemma Tensor_proto_roundtrip_witness :
  ∃ p t', ToProto string_tensor = Ok p ∧ FromProto 64 p = Ok t' ∧
    AsAggVector DT_STRING t' = Ok [[97; 98]; []].
Proof.
  destruct (Tensor_proto_roundtrip string_tensor [[97; 98]; []] 64)
    as (p & t' & H1 & H2 & H3 & _ & H5).
  - reflexivity.
  - reflexivity.
  - repeat constructor; lia.
  - reflexivity.
  - reflexivity.
  - reflexivity.
  - exists p, t'. rewrite H3 in H5. split; [exact H1|]. split; [exact H2|exact H5].
Defined.

(** the check on the sizes of the strings in a serialized tensor can be
    passed by sizes whose sum wraps around: for two strings of sizes
    [2 ^ 64 - 1] and 1 in a content of eleven bytes, [FromProto] returns a valid
    tensor whose first string extends beyond the content. *)
Lemma string_sizes_overflow :
  ∃ t, FromProto 64 {| proto_dtype := DT_STRING; proto_shape := [2];
         content := WriteVarint64 (2 ^ 64 - 1) ++ WriteVarint64 1 |} = Ok t ∧
    CheckValid t = Ok () ∧ AsAggVector DT_STRING t = Crash ∧
    ∃ c views, storage <$> data_ t = Some (SerializedStrings c views) ∧
      length c = 11%nat ∧ views !! 0%nat = Some (11, 2 ^ 64 - 1).
Proof. eexists. split; [vm_compute; reflexivity|]. split_and!; try reflexivity. by eexists _, _. Qed.
