(* ===== verification/KeyCombiner.v ===== *)
(** * Composite keys: [aggregation/core/composite_key_combiner.{h,cc}]

    The combiner maps combinations of values, one of each tensor, to ordinals.
    The values are packed into 64-bit slots of a string; a string value is
    represented by the address of its copy in a pool. The addresses that the
    pool allocates are those of the memory allocator, [allocate]. *)

From S2P Require Import Prelude Bytes Tensor TensorCorrect.

Record Combiner := {
  dtypes_ : list DataType;
  key_vec_ : list (list Z);
  intern_pool_ : gmap (list Z) Z;          (** the address of each string *)
  composite_keys_ : gmap (list Z) Z;
  composite_key_next_ : Z
}.

(** The address of the next string of the pool: not one in use, as long as there
    is memory. *)
Class Allocator := { allocate : gmap (list Z) Z → Z }.
Class AllocatorLaws (A : Allocator) : Prop := {
  allocate_range pool : 0 ≤ allocate pool < 2 ^ 64;
  allocate_fresh pool s : Z.of_nat (size pool) < 2 ^ 59 → pool !! s ≠ Some (allocate pool)
}.

Definition new_CompositeKeyCombiner (dtypes : list DataType) : Res Combiner :=
  FCP_CHECK forallb (λ dt, negb (bool_decide (dt = DT_INVALID))) dtypes ;;
  Ok {| dtypes_ := dtypes; key_vec_ := []; intern_pool_ := ∅; composite_keys_ := ∅;
        composite_key_next_ := 0 |}.

(** ** Checks *)

(** [++i] of an [int]; an overflow is undefined. *)
Definition int_increment (i : Z) : Res Z := if i <? 2 ^ 31 - 1 then Ok (i + 1) else Crash.

(** The loop over the tensors from index [i] on, with the shape of the first one. *)
Fixpoint check_tensors (i : Z) (first : option TensorShape) (dtypes : list DataType) (tensors : list Tensor) :
    Res (option TensorShape) :=
  match tensors, dtypes with
  | t :: tensors, expected_dtype :: dtypes =>
      if match first with Some sh => negb (bool_decide (sh = shape t)) | None => false end then
        Error INVALID_ARGUMENT "All tensors in the InputTensorList must have the expected shape."
      else if negb (bool_decide (expected_dtype = dtype t)) then
        Error INVALID_ARGUMENT "Tensor did not have expected dtype"
      else i ← int_increment i; check_tensors i (Some (default (shape t) first)) dtypes tensors
  | _, _ => Ok first
  end.

Definition CheckValidAndGetShape (c : Combiner) (tensors : list Tensor) : Res TensorShape :=
  if bool_decide (tensors = []) then
    Error INVALID_ARGUMENT "InputTensorList must contain at least one tensor."
  else if negb (bool_decide (length tensors = length (dtypes_ c))) then
    Error INVALID_ARGUMENT "InputTensorList size is not the same as the length of expected dtypes"
  else
    sh ← check_tensors 0 None (dtypes_ c) tensors;
    match sh with Some sh => Ok sh | None => Crash end.

(** ** Accumulating *)

Section combiner.
Context {A : Allocator}.

Definition intern (s : list Z) (pool : gmap (list Z) Z) : Z * gmap (list Z) Z :=
  match pool !! s with
  | Some address => (address, pool)
  | None => (allocate pool, <[s := allocate pool]> pool)
  end.

(** The slot of a value, eight bytes that were zero. *)
Definition CopyToDest (dt : DataType) (value : list Z) (pool : gmap (list Z) Z) :
    Res (list Z * gmap (list Z) Z) :=
  match dt with
  | DT_INVALID => Crash
  | DT_STRING => let '(address, pool) := intern value pool in Ok (le_bytes 8 (u64 address), pool)
  | _ => Ok (value ++ replicate (8 - length value) 0, pool)
  end.

(** The composite key of the values at one index. *)
Fixpoint composite_key (dtypes : list DataType) (row : list (list Z)) (pool : gmap (list Z) Z) :
    Res (list Z * gmap (list Z) Z) :=
  match dtypes, row with
  | dt :: dtypes, value :: row =>
      '(slot, pool) ← CopyToDest dt value pool;
      '(key, pool) ← composite_key dtypes row pool;
      Ok (slot ++ key, pool)
  | _, _ => Ok ([], pool)
  end.

(** One index: the ordinal of its key. *)
Definition accumulate_row (row : list (list Z)) (c : Combiner) : Res (Z * Combiner) :=
  '(key, pool) ← composite_key (dtypes_ c) row (intern_pool_ c);
  match composite_keys_ c !! key with
  | Some ordinal =>
      Ok (ordinal, {| dtypes_ := dtypes_ c; key_vec_ := key_vec_ c; intern_pool_ := pool;
                      composite_keys_ := composite_keys_ c;
                      composite_key_next_ := composite_key_next_ c |})
  | None =>
      Ok (composite_key_next_ c,
          {| dtypes_ := dtypes_ c; key_vec_ := key_vec_ c ++ [key]; intern_pool_ := pool;
             composite_keys_ := <[key := composite_key_next_ c]> (composite_keys_ c);
             composite_key_next_ := composite_key_next_ c + 1 |})
  end.

(** The values of all tensors at index [i]. *)
Definition row_at (columns : list (list (list Z))) (i : nat) : Res (list (list Z)) :=
  mapM (λ column : list (list Z), match column !! i with Some value => Ok value | None => Crash end)
    columns.

Fixpoint accumulate_rows (columns : list (list (list Z))) (indices : list nat) (c : Combiner) :
    Res (list Z * Combiner) :=
  match indices with
  | [] => Ok ([], c)
  | i :: rest =>
      row ← row_at columns i;
      '(ordinal, c) ← accumulate_row row c;
      _ ← int_increment (Z.of_nat i);
      '(ordinals, c) ← accumulate_rows columns rest c;
      Ok (ordinal :: ordinals, c)
  end.

(** [address] is where the result is allocated. *)
Definition Accumulate (address : Z) (tensors : list Tensor) (c : Combiner) : Res (Tensor * Combiner) :=
  sh ← CheckValidAndGetShape c tensors;
  columns ← mapM (λ t, AsAggVector (dtype t) t) tensors;
  '(ordinals, c) ← accumulate_rows columns (seq 0 (Z.to_nat (NumElements sh))) c;
  t ← Create DT_INT64 sh {| data_address := address;
        storage := NumericBuffer (concat ((λ o, le_bytes 8 (u64 o)) <$> ordinals)) |};
  Ok (t, c).

(** ** Output *)

(** The string at an address. *)
Definition dereference (pool : gmap (list Z) Z) (address : Z) : Res (list Z) :=
  match filter (λ sa, sa.2 = address) (map_to_list pool) with
  | (s, _) :: _ => Ok s
  | [] => Crash
  end.

(** The tensor of the slots at [index]. *)
Definition GetTensorForType (address : Z) (dt : DataType) (index : nat) (c : Combiner) : Res Tensor :=
  let slots := (λ key, take 8 (drop (8 * index) key)) <$> key_vec_ c in
  let sh := [Z.of_nat (length (key_vec_ c))] in
  match dt with
  | DT_INVALID => Crash
  | DT_STRING =>
      strings ← mapM (λ slot, dereference (intern_pool_ c) (le_value 8 slot)) slots;
      Create DT_STRING sh {| data_address := address; storage := VectorStrings strings |}
  | _ =>
      size ← value_size dt;
      Create dt sh {| data_address := address;
                      storage := NumericBuffer (concat (take (Z.to_nat size) <$> slots)) |}
  end.

(** [addresses] are where the tensors are allocated. *)
Definition GetOutputKeys (address : nat → Z) (c : Combiner) : Res (list Tensor) :=
  if bool_decide (key_vec_ c = []) then Ok []
  else mapM (λ jd, GetTensorForType (address jd.1) jd.2 jd.1 c) (imap pair (dtypes_ c)).
End combiner.
