(* ===== verification/KeyCombinerCorrect.v ===== *)
(** * Correctness of the combiner of composite keys

    The abstract state of a combiner is the list of the composite keys that it
    has seen, without repetitions: the ordinal of a key is its position. *)

From S2P Require Import Prelude Bytes Tensor TensorCorrect KeyCombiner.

(** ** Slots *)

Definition slot (pool : gmap (list Z) Z) (dt : DataType) (value : list Z) : list Z :=
  match dt with
  | DT_STRING => le_bytes 8 (default 0 (pool !! value))
  | _ => value ++ replicate (8 - length value) 0
  end.

Definition encode (pool : gmap (list Z) Z) (dtypes : list DataType) (row : list (list Z)) : list Z :=
  concat (zip_with (slot pool) dtypes row).

(** Strings have a place in the pool. *)
Definition interned (pool : gmap (list Z) Z) (dt : DataType) (value : list Z) : Prop :=
  dt = DT_STRING → is_Some (pool !! value).

Record pool_ok (pool : gmap (list Z) Z) : Prop := {
  pool_range : ∀ s a, pool !! s = Some a → 0 ≤ a < 2 ^ 64;
  pool_injective : ∀ s s' a, pool !! s = Some a → pool !! s' = Some a → s = s'
}.

Lemma slot_length pool dt value : typed dt value → length (slot pool dt value) = 8%nat.
Proof.
  destruct dt; simpl; intros H; try done; rewrite ?length_le_bytes, ?length_app, ?length_replicate; lia.
Qed.

Lemma slot_inj pool dt v v' :
  pool_ok pool → typed dt v → typed dt v' → interned pool dt v → interned pool dt v' →
  slot pool dt v = slot pool dt v' → v = v'.
Proof.
  intros Hp Ht Ht' Hi Hi' Heq. destruct dt; cbn [typed slot] in *; try done;
    try (by apply app_inj_1 in Heq as [? _]; [|congruence]).
  destruct (Hi eq_refl) as [a Ha], (Hi' eq_refl) as [a' Ha']. rewrite Ha, Ha' in Heq.
  apply (f_equal (le_value 8)) in Heq. rewrite !le_value_le_bytes in Heq.
  change (8 * Z.of_nat 8) with 64 in Heq.
  pose proof (pool_range _ Hp _ _ Ha). pose proof (pool_range _ Hp _ _ Ha').
  cbn [default from_option] in Heq. unfold id in Heq. rewrite !Z.mod_small in Heq by done. subst a'. by eapply (pool_injective _ Hp).
Qed.

Lemma encode_inj pool dtypes : ∀ row row',
  pool_ok pool → Forall2 typed dtypes row → Forall2 typed dtypes row' →
  Forall2 (interned pool) dtypes row → Forall2 (interned pool) dtypes row' →
  encode pool dtypes row = encode pool dtypes row' → row = row'.
Proof.
  intros row row' Hp Ht. revert row'. induction Ht as [|dt v dtypes row Hv Ht IH]; intros row' Ht' Hi Hi' Heq.
  { by inversion Ht'. }
  apply Forall2_cons_inv_l in Ht' as (v' & row'' & Hv' & Ht' & ->).
  apply Forall2_cons in Hi as [Hi1 Hi], Hi' as [Hi1' Hi']. unfold encode in Heq. simpl in Heq.
  apply app_inj_1 in Heq as [Hs Heq]; [|by rewrite !slot_length].
  apply slot_inj in Hs as ->; try done. f_equal. by apply IH.
Qed.

Lemma encode_grows pool pool' dtypes row :
  pool ⊆ pool' → Forall2 (interned pool) dtypes row → encode pool dtypes row = encode pool' dtypes row.
Proof.
  intros Hsub Hi. unfold encode. f_equal. induction Hi as [|dt v dtypes row Hv Hi IH]; [done|]. simpl.
  rewrite IH. f_equal. destruct dt; try done. simpl. destruct (Hv eq_refl) as [a Ha].
  by rewrite Ha, (lookup_weaken _ _ _ _ Ha Hsub).
Qed.

Lemma interned_grows pool pool' dtypes row :
  pool ⊆ pool' → Forall2 (interned pool) dtypes row → Forall2 (interned pool') dtypes row.
Proof.
  intros Hsub Hall. eapply Forall2_impl; [exact Hall|]. intros dt v Hi Hdt. destruct (Hi Hdt) as [a Ha].
  exists a. by eapply lookup_weaken.
Qed.

Section correct.
Context {A : Allocator} {HA : AllocatorLaws A}.

Lemma CopyToDest_ok dt value pool :
  typed dt value → pool_ok pool → Z.of_nat (size pool) < 2 ^ 59 →
  ∃ pool', CopyToDest dt value pool = Ok (slot pool' dt value, pool') ∧ pool ⊆ pool' ∧ pool_ok pool' ∧
    interned pool' dt value ∧ (size pool' ≤ size pool + 1)%nat ∧ (interned pool dt value → pool' = pool).
Proof.
  intros Ht Hp Hsize. destruct dt; cbn [typed slot CopyToDest] in *; try done;
    try (exists pool; by split_and!; [| |done|unfold interned|lia|]).
  unfold intern. destruct (pool !! value) as [a|] eqn:Ha.
  - exists pool. rewrite Ha, u64_small by (by eapply pool_range). split_and!; try done; [by eexists|lia].
  - exists (<[value := allocate pool]> pool). rewrite lookup_insert_eq, u64_small by apply allocate_range.
    split_and!; [done|by apply insert_subseteq| |intros _; rewrite lookup_insert_eq; by eexists|
      rewrite map_size_insert_None by done; lia|
      intros Hi; by destruct (Hi eq_refl) as [a Ha']; congruence]. split.
    + intros s a [[<- <-]|[_ H]]%lookup_insert_Some; [apply allocate_range|by eapply (pool_range _ Hp)].
    + intros s s' a [[<- <-]|[Hne H]]%lookup_insert_Some [[<- Heq]|[Hne' H']]%lookup_insert_Some; try done.
      * by destruct (allocate_fresh pool s').
      * subst. by destruct (allocate_fresh pool s).
      * by eapply (pool_injective _ Hp).
Qed.

Lemma composite_key_ok dtypes row : ∀ pool,
  Forall2 typed dtypes row → pool_ok pool → Z.of_nat (size pool + length dtypes) < 2 ^ 59 →
  ∃ pool', composite_key dtypes row pool = Ok (encode pool' dtypes row, pool') ∧ pool ⊆ pool' ∧
    pool_ok pool' ∧ Forall2 (interned pool') dtypes row ∧ (size pool' ≤ size pool + length dtypes)%nat ∧
    (Forall2 (interned pool) dtypes row → pool' = pool).
Proof.
  intros pool Ht. revert pool. induction Ht as [|dt v dtypes row Hv Ht IH]; intros pool Hp Hsize.
  { exists pool. split_and!; try done. simpl. lia. }
  cbn [length] in Hsize. destruct (CopyToDest_ok dt v pool Hv Hp) as (pool1 & Hc & Hsub1 & Hp1 & Hi1 & Hs1 & He1); [lia|].
  destruct (IH pool1 Hp1) as (pool2 & Hrest & Hsub2 & Hp2 & Hi2 & Hs2 & He2); [lia|].
  exists pool2. simpl. rewrite Hc. cbn [mbind Res_bind]. rewrite Hrest. cbn [mbind Res_bind].
  assert (interned pool2 dt v) as Hiv.
  { intros Hdt. destruct (Hi1 Hdt) as [a Ha]. exists a. by eapply lookup_weaken. }
  split_and!; [|by etrans|done|by constructor|cbn [length]; lia|]; cycle 1.
  { intros [Hdt Hrow]%Forall2_cons. rewrite <- (He1 Hdt) in Hrow |- *. by apply He2. }
  unfold encode. simpl.
  destruct dt; try done. simpl. destruct (Hi1 eq_refl) as [a Ha].
  by rewrite Ha, (lookup_weaken _ _ _ _ Ha Hsub2).
Qed.

(** ** The keys seen so far *)

Definition see (seen : list (list (list Z))) (row : list (list Z)) : list (list (list Z)) :=
  if bool_decide (row ∈ seen) then seen else seen ++ [row].

Record combiner_inv (c : Combiner) (seen : list (list (list Z))) : Prop := {
  inv_nodup : NoDup seen;
  inv_pool : pool_ok (intern_pool_ c);
  inv_typed : Forall (Forall2 typed (dtypes_ c)) seen;
  inv_interned : Forall (Forall2 (interned (intern_pool_ c)) (dtypes_ c)) seen;
  inv_keys : key_vec_ c = encode (intern_pool_ c) (dtypes_ c) <$> seen;
  inv_ordinals : ∀ key o, composite_keys_ c !! key = Some o ↔ 0 ≤ o ∧ key_vec_ c !! Z.to_nat o = Some key;
  inv_next : composite_key_next_ c = Z.of_nat (length seen);
  inv_size : (size (intern_pool_ c) ≤ length seen * length (dtypes_ c))%nat
}.

Lemma see_prefix seen row : seen `prefix_of` see seen row.
Proof. unfold see. case_bool_decide; [done|by exists [row]]. Qed.

Lemma see_NoDup seen row : NoDup seen → NoDup (see seen row).
Proof.
  intros Hn. unfold see. case_bool_decide; [done|].
  apply NoDup_app. split_and!; [done|by intros x Hx ->%list_elem_of_singleton|apply NoDup_singleton].
Qed.

Lemma length_see seen row : (length (see seen row) ≤ length seen + 1)%nat.
Proof. unfold see. case_bool_decide; rewrite ?length_app; simpl; lia. Qed.

Lemma length_foldl_see rows : ∀ seen, (length (foldl see seen rows) ≤ length seen + length rows)%nat.
Proof.
  induction rows as [|row rows IH]; intros seen; simpl; [lia|]. etrans; [apply IH|].
  pose proof (length_see seen row). lia.
Qed.

Lemma foldl_see_prefix rows : ∀ seen, seen `prefix_of` foldl see seen rows.
Proof.
  induction rows as [|row rows IH]; intros seen; simpl; [done|]. etrans; [apply see_prefix|apply IH].
Qed.

(** An index with values that are in [seen] keeps the keys; another one adds
    its key as the last. *)
Lemma accumulate_row_ok c seen row :
  combiner_inv c seen → Forall2 typed (dtypes_ c) row →
  Z.of_nat ((length seen + 1) * length (dtypes_ c)) < 2 ^ 59 →
  ∃ o c', accumulate_row row c = Ok (o, c') ∧ combiner_inv c' (see seen row) ∧
    dtypes_ c' = dtypes_ c ∧ 0 ≤ o ∧ see seen row !! Z.to_nat o = Some row.
Proof.
  intros [Hn Hp Ht Hi Hk Ho Hnext Hsize] Hrow Hmem.
  destruct (composite_key_ok (dtypes_ c) row _ Hrow Hp) as (pool & Hc & Hsub & Hp' & Hirow & Hs' & Hsame); [lia|].
  unfold accumulate_row. rewrite Hc. cbn [mbind Res_bind].
  assert (Hi' : Forall (Forall2 (interned pool) (dtypes_ c)) seen).
  { eapply Forall_impl; [exact Hi|]. intros r. by apply interned_grows. }
  assert (Hk' : key_vec_ c = encode pool (dtypes_ c) <$> seen).
  { rewrite Hk. apply list_fmap_ext. intros i r Hr. apply encode_grows; [done|].
    exact (Forall_lookup_1 _ _ _ _ Hi Hr). }
  assert (Hpos : ∀ i r, seen !! i = Some r → encode pool (dtypes_ c) r = encode pool (dtypes_ c) row → r = row).
  { intros i r Hr. apply encode_inj; try done; by eapply Forall_lookup_1. }
  destruct (composite_keys_ c !! encode pool (dtypes_ c) row) as [o|] eqn:Hlook.
  - apply Ho in Hlook as Hl. destruct Hl as [Hge Hl]. rewrite Hk', list_lookup_fmap in Hl.
    destruct (seen !! Z.to_nat o) as [r|] eqn:Hr; [|done]. injection Hl as Hl.
    apply (Hpos _ _ Hr) in Hl as ->. assert (see seen row = seen) as ->.
    { unfold see. rewrite bool_decide_true; [done|]. by eapply list_elem_of_lookup_2. }
    assert (pool = intern_pool_ c) as -> by (apply Hsame; by eapply Forall_lookup_1).
    eexists o, _. split_and!; done.
  - assert (Hnew : row ∉ seen).
    { intros [i Hr]%list_elem_of_lookup. enough (composite_keys_ c !! encode pool (dtypes_ c) row = Some (Z.of_nat i)) by congruence.
      apply Ho. split; [lia|]. by rewrite Nat2Z.id, Hk', list_lookup_fmap, Hr. }
    assert (see seen row = seen ++ [row]) as -> by (unfold see; by rewrite bool_decide_false).
    assert (Hlen : length (key_vec_ c) = length seen) by by rewrite Hk', length_fmap.
    eexists _, _. split; [done|]. split_and!; [|done|lia|by rewrite Hnext, Nat2Z.id, list_lookup_middle].
    split; simpl; try done.
    + apply NoDup_app. split_and!; [done|by intros x Hx ->%list_elem_of_singleton|apply NoDup_singleton].
    + apply Forall_app. by split; [|apply Forall_singleton].
    + apply Forall_app. by split; [|apply Forall_singleton].
    + by rewrite Hk', fmap_app.
    + intros key o. rewrite lookup_insert_Some, Ho, Hnext. split.
      * intros [[<- <-]|[Hne [Hge Hl]]]; split; try lia; [by rewrite Nat2Z.id, <- Hlen, list_lookup_middle|].
        by apply lookup_app_l_Some.
      * intros [Hge [Hl|[Hl [Hz <-]%list_lookup_singleton_Some]]%lookup_app_Some].
        -- right. split; [|done]. intros Heq. enough (composite_keys_ c !! key = Some o) by congruence. by apply Ho.
        -- left. split; [done|lia].
    + rewrite length_app, Hnext. simpl. lia.
    + rewrite length_app. simpl. lia.
Qed.

(** The values at each index. *)
Definition rows_of (columns : list (list (list Z))) (indices : list nat) : list (list (list Z)) :=
  (λ i, (λ column : list (list Z), column !!! i) <$> columns) <$> indices.

Lemma row_at_ok columns i :
  Forall (λ column : list (list Z), i < length column)%nat columns →
  row_at columns i = Ok ((λ column : list (list Z), column !!! i) <$> columns).
Proof.
  unfold row_at. induction 1 as [|column columns Hi _ IH]; [done|].
  cbn [mapM]. destruct (lookup_lt_is_Some_2 _ _ Hi) as [v Hv]. rewrite Hv. cbn [mbind Res_bind]. rewrite IH.
  cbn [mbind Res_bind]. by rewrite fmap_cons, (list_lookup_total_correct _ _ _ Hv).
Qed.

Definition typed_columns (dtypes : list DataType) (num : nat) (columns : list (list (list Z))) : Prop :=
  Forall2 (λ dt (column : list (list Z)), length column = num ∧ Forall (typed dt) column) dtypes columns.

Lemma typed_columns_row dtypes num columns i :
  typed_columns dtypes num columns → (i < num)%nat →
  Forall (λ column : list (list Z), i < length column)%nat columns ∧
  Forall2 typed dtypes ((λ column : list (list Z), column !!! i) <$> columns).
Proof.
  intros H Hi. split.
  - induction H as [|dt column dtypes columns [Hl _] _ IH]; constructor; [lia|done].
  - apply Forall2_fmap_r. eapply Forall2_impl; [exact H|]. intros dt column [Hl Ht]. simpl.
    destruct (lookup_lt_is_Some_2 column i ltac:(lia)) as [v Hv].
    rewrite (list_lookup_total_correct _ _ _ Hv). by eapply Forall_lookup_1.
Qed.

Lemma int_increment_ok i : i < 2 ^ 31 - 1 → int_increment i = Ok (i + 1).
Proof. intros Hi. unfold int_increment. by rewrite (proj2 (Z.ltb_lt _ _) Hi). Qed.

Lemma accumulate_rows_ok columns num indices : ∀ c seen,
  combiner_inv c seen → typed_columns (dtypes_ c) num columns → Z.of_nat num < 2 ^ 31 → Forall (λ i, i < num)%nat indices →
  Z.of_nat ((length seen + length indices) * length (dtypes_ c)) < 2 ^ 59 →
  let seen' := foldl see seen (rows_of columns indices) in
  ∃ ordinals c', accumulate_rows columns indices c = Ok (ordinals, c') ∧ combiner_inv c' seen' ∧
    dtypes_ c' = dtypes_ c ∧
    Forall2 (λ row o, 0 ≤ o ∧ seen' !! Z.to_nat o = Some row) (rows_of columns indices) ordinals.
Proof.
  induction indices as [|i indices IH]; intros c seen Hc Ht Hnum Hi Hmem; [by eexists [], c|].
  apply Forall_cons in Hi as [Hi His]. destruct (typed_columns_row _ _ _ _ Ht Hi) as [Hlt Hrow].
  cbn [length] in Hmem.
  destruct (accumulate_row_ok c seen _ Hc Hrow) as (o & c1 & Ha & Hc1 & Hd1 & Hge & Hl); [nia|].
  rewrite <- Hd1 in Ht. destruct (IH c1 _ Hc1 Ht Hnum His) as (os & c2 & Har & Hc2 & Hd2 & Hos).
  { rewrite Hd1. pose proof (length_see seen ((λ column : list (list Z), column !!! i) <$> columns)). nia. }
  exists (o :: os), c2. cbn [accumulate_rows]. rewrite row_at_ok by done. cbn [mbind Res_bind].
  rewrite Ha. cbn [mbind Res_bind]. rewrite int_increment_ok by lia. cbn [mbind Res_bind]. rewrite Har. cbn [mbind Res_bind].
  split; [done|]. split; [done|]. split; [congruence|]. constructor; [|done].
  split; [done|]. eapply prefix_lookup_Some; [exact Hl|]. simpl. apply foldl_see_prefix.
Qed.

(** ** Input *)

Lemma check_tensors_ok sh r : ∀ dtypes tensors i,
  length tensors = length dtypes → check_tensors i (Some sh) dtypes tensors = Ok r →
  r = Some sh ∧ Forall2 (λ dt t, dtype t = dt ∧ shape t = sh) dtypes tensors.
Proof.
  intros dtypes tensors. revert dtypes. induction tensors as [|t tensors IH]; intros [|dt dtypes] i Hlen H; try done.
  { injection H as <-. by split. }
  cbn [check_tensors] in H. destruct (decide (sh = shape t)) as [Hsh|]; [|by rewrite bool_decide_false in H].
  destruct (decide (dt = dtype t)) as [Hdt|]; [|by rewrite bool_decide_true, bool_decide_false in H].
  rewrite !bool_decide_true in H by done. apply bind_ok in H as (i' & _ & H). apply IH in H as [-> H]; [|simpl in Hlen; lia]. by repeat constructor.
Qed.

Lemma CheckValidAndGetShape_ok c tensors sh :
  CheckValidAndGetShape c tensors = Ok sh →
  tensors ≠ [] ∧ Forall2 (λ dt t, dtype t = dt ∧ shape t = sh) (dtypes_ c) tensors.
Proof.
  unfold CheckValidAndGetShape. case_bool_decide as Hne; [done|]. case_bool_decide as Hlen; [|done].
  intros (r & H & Hr)%bind_ok. split; [done|]. destruct tensors as [|t tensors]; [done|].
  destruct (dtypes_ c) as [|dt dtypes]; [done|]. cbn [check_tensors] in H.
  destruct (decide (dt = dtype t)) as [Hdt|]; [|by rewrite bool_decide_false in H].
  rewrite bool_decide_true in H by done. apply bind_ok in H as (i & _ & H). apply check_tensors_ok in H as [-> H]; [|simpl in Hlen; lia].
  injection Hr as <-. by repeat constructor.
Qed.

Lemma columns_typed dtypes sh tensors columns :
  Forall2 (λ dt t, dtype t = dt ∧ shape t = sh) dtypes tensors →
  Forall (λ t, CheckValid t = Ok ()) tensors → NumElements sh < 2 ^ 60 →
  mapM (λ t, AsAggVector (dtype t) t) tensors = Ok columns →
  Forall (λ column : list (list Z), Z.of_nat (length column) < 2 ^ 60) columns →
  typed_columns dtypes (Z.to_nat (NumElements sh)) columns.
Proof.
  intros Hs. revert columns. induction Hs as [|dt t dtypes tensors [Hdt Hsh] Hs IH]; intros columns Hv Hnum Hm Hlen.
  { injection Hm as <-. constructor. }
  cbn [mapM] in Hm. apply bind_ok in Hm as (column & Hc & (rest & Hm & [= <-])%bind_ok).
  apply Forall_cons in Hv as [Hv Hvs], Hlen as [Hl Hls]. constructor; [|by apply IH].
  destruct (valid_values _ _ Hv Hc) as (Hnl & _ & Ht); [by rewrite Hsh|done|].
  rewrite Hsh in Hnl. rewrite Hdt in Ht. split; [lia|done].
Qed.

(** ** Output *)

Lemma encode_slot pool dtypes row j dt :
  Forall2 typed dtypes row → dtypes !! j = Some dt →
  ∃ value, row !! j = Some value ∧ take 8 (drop (8 * j) (encode pool dtypes row)) = slot pool dt value.
Proof.
  intros Ht. revert j. induction Ht as [|dt' v dtypes row Hv Ht IH]; intros j Hj; [done|].
  pose proof (slot_length pool _ _ Hv) as Hl. unfold encode in *. cbn [zip_with concat].
  destruct j as [|j]; simpl in Hj.
  - injection Hj as ->. exists v. split; [done|]. change (8 * 0)%nat with 0%nat. by rewrite drop_0, take_app_length'.
  - destruct (IH j Hj) as (w & Hw & Hs). exists w. split; [done|]. rewrite <- Hs. f_equal. rewrite drop_app_ge by lia. f_equal. lia.
Qed.

Lemma dereference_ok pool s a : pool_ok pool → pool !! s = Some a → dereference pool a = Ok s.
Proof.
  intros Hp Ha. unfold dereference.
  assert (Hin : (s, a) ∈ filter (λ sa : list Z * Z, sa.2 = a) (map_to_list pool)).
  { apply list_elem_of_filter. split; [done|]. by apply elem_of_map_to_list. }
  destruct (filter _ _) as [|[s' a'] rest] eqn:Hf; [by apply elem_of_nil in Hin|].
  assert (Hin' : (s', a') ∈ filter (λ sa : list Z * Z, sa.2 = a) (map_to_list pool)).
  { rewrite Hf. apply list_elem_of_here. }
  apply list_elem_of_filter in Hin' as [Heq Hin'%elem_of_map_to_list]. simpl in Heq. subst a'.
  by rewrite (pool_injective _ Hp _ _ _ Ha Hin').
Qed.

Lemma mapM_fmap_ok {B C D} (f : C → Res D) (g : B → C) (h : B → D) (l : list B) :
  Forall (λ x, f (g x) = Ok (h x)) l → mapM f (g <$> l) = Ok (h <$> l).
Proof. induction 1 as [|x l Hx _ IH]; [done|]. rewrite fmap_cons. cbn [mapM]. rewrite Hx. cbn [mbind Res_bind]. by rewrite IH. Qed.

(** The column of a data type holds the values of all keys seen. *)
Lemma GetTensorForType_ok address c seen j dt :
  combiner_inv c seen → seen ≠ [] → Z.of_nat (length seen) < 2 ^ 60 → address mod 16 = 0 →
  dtypes_ c !! j = Some dt →
  ∃ t, GetTensorForType address dt j c = Ok t ∧ dtype t = dt ∧ shape t = [Z.of_nat (length seen)] ∧
    CheckValid t = Ok () ∧ AsAggVector dt t = Ok ((λ row : list (list Z), row !!! j) <$> seen).
Proof.
  intros [Hn Hp Ht Hi Hk Ho Hnext _] Hne Hlen Haddr Hj. unfold GetTensorForType.
  assert (Hslots : (λ key, take 8 (drop (8 * j) key)) <$> key_vec_ c =
    (λ row : list (list Z), slot (intern_pool_ c) dt (row !!! j)) <$> seen).
  { rewrite Hk, <- list_fmap_compose. apply list_fmap_ext. intros i row Hr. simpl.
    destruct (encode_slot (intern_pool_ c) _ _ _ _ (Forall_lookup_1 _ _ _ _ Ht Hr) Hj) as (v & Hv & Hs).
    by rewrite (list_lookup_total_correct _ _ _ Hv). }
  assert (Hcell : Forall (λ row : list (list Z), typed dt (row !!! j) ∧ interned (intern_pool_ c) dt (row !!! j)) seen).
  { apply Forall_forall. intros row Hr. pose proof (proj1 (Forall_forall _ _) Ht row Hr) as Htr.
    pose proof (proj1 (Forall_forall _ _) Hi row Hr) as Hir.
    destruct (Forall2_lookup_l _ _ _ _ _ Htr Hj) as (v & Hv & Htv). rewrite (list_lookup_total_correct _ _ _ Hv).
    split; [done|]. by eapply (Forall2_lookup_lr _ _ _ _ _ _ Hir). }
  assert (Hnum : NumElements [Z.of_nat (length seen)] = Z.of_nat (length seen)).
  { unfold NumElements. simpl. by rewrite Z.mul_1_l, u64_small by lia. }
  assert (0 < length seen)%nat by (destruct seen; simpl; [done|lia]).
  set (values := (λ row : list (list Z), row !!! j) <$> seen).
  assert (Hvl : length values = length seen) by apply length_fmap.
  rewrite Hslots. assert (length (key_vec_ c) = length seen) as -> by by rewrite Hk, length_fmap.
  destruct (decide (dt = DT_STRING)) as [->|Hns].
  - assert (mapM (λ slot, dereference (intern_pool_ c) (le_value 8 slot))
        ((λ row : list (list Z), slot (intern_pool_ c) DT_STRING (row !!! j)) <$> seen) = Ok values) as ->.
    { apply mapM_fmap_ok. eapply Forall_impl; [exact Hcell|]. intros row [_ Hr]. destruct (Hr eq_refl) as [a Ha].
      cbn [slot]. rewrite Ha. cbn [default from_option]. unfold id. rewrite le_value_le_bytes, Z.mod_small.
      - by apply dereference_ok.
      - change (2 ^ (8 * Z.of_nat 8)) with (2 ^ 64). by eapply (pool_range _ Hp). }
    cbn [mbind Res_bind]. destruct (Create_strings [Z.of_nat (length seen)] address values) as (Hc & Hv & Ha);
      rewrite ?Hnum; try done; try lia. rewrite Hc. eexists. split_and!; done.
  - assert (Hnumeric : numeric dt).
    { split; [|done]. intros ->. destruct seen as [|row rest]; [done|]. by apply Forall_cons in Hcell as [[[] _] _]. }
    assert (Htv : Forall (typed dt) values).
    { apply Forall_fmap. eapply Forall_impl; [exact Hcell|]. by intros row [? _]. }
    assert (Htake : take (width dt) <$> ((λ row : list (list Z), slot (intern_pool_ c) dt (row !!! j)) <$> seen) = values).
    { rewrite <- list_fmap_compose. apply list_fmap_ext. intros i row Hr. simpl.
      destruct (Forall_lookup_1 _ _ _ _ Hcell Hr) as [Htr _]. apply numeric_typed in Htr; [|done].
      destruct dt; try done; cbn [slot]; by rewrite take_app_length'. }
    destruct (Create_numeric dt [Z.of_nat (length seen)] address values) as (Hc & Hv & Ha);
      rewrite ?Hnum; try done; try lia. rewrite <- Htake in Hc at 1.
    eexists. split; [etrans; [|exact Hc]|by split_and!]. by destruct Hnumeric, dt.
Qed.
End correct.

(** ** Operations *)

(** A new combiner has seen no keys. *)
Lemma new_CompositeKeyCombiner_inv dtypes c :
  new_CompositeKeyCombiner dtypes = Ok c → combiner_inv c [] ∧ dtypes_ c = dtypes.
Proof.
  unfold new_CompositeKeyCombiner. rewrite fcp_check_ok. intros [_ [= <-]]. split; [|done].
  split; simpl; try done; [by apply NoDup_nil|].
  intros key o. rewrite lookup_empty, lookup_nil. split; [done|by intros [_ ?]].
Qed.

(** [CompositeKeyCombiner::Accumulate] on valid tensors of the expected types
    and of one shape returns a tensor of that shape with an ordinal for each
    index, such that two indices, in this or in earlier calls, have the same
    ordinal exactly when their combinations of values are equal: the ordinal is
    the position of the combination in the list of those seen so far, without
    repetitions and in the order of their first occurrence. *)
Lemma Accumulate_ordinals {A : Allocator} {HA : AllocatorLaws A} address c seen tensors sh columns :
  combiner_inv c seen → CheckValidAndGetShape c tensors = Ok sh →
  Forall (λ t, CheckValid t = Ok ()) tensors → NumElements sh < 2 ^ 31 →
  mapM (λ t, AsAggVector (dtype t) t) tensors = Ok columns →
  Forall (λ column : list (list Z), Z.of_nat (length column) < 2 ^ 60) columns →
  (Z.of_nat (length seen) + NumElements sh) * Z.of_nat (length tensors) < 2 ^ 59 → address mod 16 = 0 →
  let rows := rows_of columns (seq 0 (Z.to_nat (NumElements sh))) in
  let seen' := foldl see seen rows in
  ∃ t c' ordinals, Accumulate address tensors c = Ok (t, c') ∧
    combiner_inv c' seen' ∧ seen `prefix_of` seen' ∧ NoDup seen' ∧
    dtype t = DT_INT64 ∧ shape t = sh ∧ AsAggVector DT_INT64 t = Ok (le_bytes 8 <$> ordinals) ∧
    Forall2 (λ row o, 0 ≤ o < 2 ^ 63 ∧ seen' !! Z.to_nat o = Some row) rows ordinals.
Proof.
  intros Hc Hcheck Hv Hnum Hm Hlen Hseen Haddr rows seen'.
  apply CheckValidAndGetShape_ok in Hcheck as Hs. destruct Hs as [Hne Hs].
  pose proof (columns_typed _ _ _ _ Hs Hv ltac:(lia) Hm Hlen) as Ht.
  destruct (accumulate_rows_ok columns _ (seq 0 (Z.to_nat (NumElements sh))) c seen Hc Ht) as
    (ordinals & c' & Ha & Hc' & Hd & Hos).
  { pose proof (NumElements_range sh). lia. }
  { apply Forall_seq. lia. }
  { rewrite length_seq, (Forall2_length _ _ _ Hs). pose proof (NumElements_range sh). nia. }
  fold rows in Hos, Hc'. fold seen' in Hos, Hc'.
  assert (Hrl : length rows = Z.to_nat (NumElements sh)) by (unfold rows, rows_of; by rewrite length_fmap, length_seq).
  assert (Hos' : Forall2 (λ row o, 0 ≤ o < 2 ^ 63 ∧ seen' !! Z.to_nat o = Some row) rows ordinals).
  { eapply Forall2_impl; [exact Hos|]. intros row o [Hge Ho]. split; [|done]. split; [done|].
    apply lookup_lt_Some in Ho. pose proof (length_foldl_see rows seen) as Hl. fold seen' in Hl.
    pose proof (NumElements_range sh).
    assert (Z.of_nat (length seen) + NumElements sh < 2 ^ 59); [|lia].
    destruct tensors; [done|]. cbn [length] in Hseen. nia. }
  assert (Hvals : (λ o, le_bytes 8 (u64 o)) <$> ordinals = le_bytes 8 <$> ordinals).
  { apply list_fmap_ext. intros i o Ho. destruct (Forall2_lookup_r _ _ _ _ _ Hos' Ho) as (row & _ & Hr & _).
    by rewrite u64_small by lia. }
  assert (0 < NumElements sh).
  { destruct tensors as [|t tensors]; [done|]. apply Forall2_cons_inv_r in Hs as (dt & dts & [_ Hsh] & _ & _).
    apply Forall_cons in Hv as [(size & data & _ & Hsize & _ & Hnz & Hb)%CheckValid_inv _]. rewrite Hsh in Hb.
    pose proof (NumElements_range sh). destruct (decide (NumElements sh = 0)) as [Hz|]; [|lia].
    by rewrite Hz in Hb. }
  destruct (Create_numeric DT_INT64 sh address (le_bytes 8 <$> ordinals)) as (Hcr & _ & Has); try done; try lia.
  { apply Forall_fmap, Forall_true. intros o. apply length_le_bytes. }
  { rewrite length_fmap, <- (Forall2_length _ _ _ Hos'), Hrl. lia. }
  eexists _, c', ordinals. unfold Accumulate. rewrite Hcheck. cbn [mbind Res_bind]. rewrite Hm. cbn [mbind Res_bind].
  rewrite Ha. cbn [mbind Res_bind]. rewrite Hvals, Hcr. cbn [mbind Res_bind].
  split_and!; try done; [apply foldl_see_prefix|apply Hc'].
Qed.

(** [CompositeKeyCombiner::GetOutputKeys] returns, once a key was seen, a
    valid tensor for each data type of the combiner, whose value at each ordinal
    is that of the combination with this ordinal, and no tensors before that. *)
Lemma GetOutputKeys_columns addresses c seen :
  combiner_inv c seen → Z.of_nat (length seen) < 2 ^ 60 → (∀ j, addresses j mod 16 = 0) →
  (seen = [] → GetOutputKeys addresses c = Ok []) ∧
  (seen ≠ [] → ∃ tensors, GetOutputKeys addresses c = Ok tensors ∧ length tensors = length (dtypes_ c) ∧
    ∀ j t, tensors !! j = Some t → dtypes_ c !! j = Some (dtype t) ∧ CheckValid t = Ok () ∧
      shape t = [Z.of_nat (length seen)] ∧
      AsAggVector (dtype t) t = Ok ((λ row : list (list Z), row !!! j) <$> seen)).
Proof.
  intros Hc Hlen Haddr. unfold GetOutputKeys. split.
  { intros ->. by rewrite (inv_keys _ _ Hc), bool_decide_true. }
  intros Hne. rewrite bool_decide_false by (rewrite (inv_keys _ _ Hc); by destruct seen).
  assert (Hl : ∀ jd, jd ∈ imap pair (dtypes_ c) → dtypes_ c !! jd.1 = Some jd.2).
  { intros jd [i Hi]%list_elem_of_lookup. rewrite list_lookup_imap in Hi.
    destruct (dtypes_ c !! i) as [dt|] eqn:Hdt; simplify_eq/=. done. }
  assert (Hm : ∀ l, (∀ jd, jd ∈ l → dtypes_ c !! jd.1 = Some jd.2) →
    ∃ tensors, mapM (λ jd, GetTensorForType (addresses jd.1) jd.2 jd.1 c) l = Ok tensors ∧
      Forall2 (λ jd t, dtype t = jd.2 ∧ CheckValid t = Ok () ∧ shape t = [Z.of_nat (length seen)] ∧
        AsAggVector (dtype t) t = Ok ((λ row : list (list Z), row !!! jd.1) <$> seen)) l tensors).
  { intros l. induction l as [|[j dt] l IH]; intros Hin; [by exists []|].
    destruct IH as (ts & Hm & Hts); [intros jd Hjd; by apply Hin, list_elem_of_further|].
    destruct (GetTensorForType_ok (addresses j) c seen j dt Hc Hne Hlen (Haddr j) (Hin _ (list_elem_of_here _ _)))
      as (t & Ht & Hdt & Hsh & Hv & Has). exists (t :: ts). cbn [mapM fst snd]. rewrite Ht. cbn [mbind Res_bind].
    rewrite Hm. split; [done|]. constructor; [|done]. simpl. by rewrite Hdt. }
  destruct (Hm _ Hl) as (tensors & Hts & Hall). exists tensors. split; [done|].
  split; [by rewrite <- (Forall2_length _ _ _ Hall), length_imap|]. intros j t Ht.
  destruct (Forall2_lookup_r _ _ _ _ _ Hall Ht) as ([j' dt] & Hj & Hd & Hv & Hsh & Has). simpl in *.
  rewrite list_lookup_imap in Hj. destruct (dtypes_ c !! j) as [dt'|] eqn:Hdt; simplify_eq/=. done.
Qed.

(** ** An allocator *)

(** The first address of the multiples of 16 that is not used. *)
#[export] Instance first_free : Allocator := {|
  allocate pool := let used := (map_to_list pool).*2 in
    u64 (default 0 (snd <$> list_find (λ a, a ∉ used) ((λ n, 16 * Z.of_nat n) <$> seq 0 (S (size pool)))))
|}.

#[export] Instance first_free_laws : AllocatorLaws first_free.
Proof.
  split; [intros; apply u64_range|]. intros pool s Hsize Hs. cbn [allocate first_free] in Hs.
  set (used := (map_to_list pool).*2) in *. set (candidates := (λ n, 16 * Z.of_nat n) <$> seq 0 (S (size pool))) in *.
  destruct (list_find (λ a, a ∉ used) candidates) as [[i a]|] eqn:Hf.
  - apply list_find_Some in Hf as (Hi & Hnew & _). cbn in Hs. rewrite u64_small in Hs.
    + apply Hnew. unfold used. apply list_elem_of_fmap. exists (s, a). split; [done|]. by apply elem_of_map_to_list.
    + unfold candidates in Hi. rewrite list_lookup_fmap in Hi. apply fmap_Some in Hi as (n & [-> Hn]%lookup_seq & ->). lia.
  - apply list_find_None in Hf. assert (candidates ⊆+ used) as Hsub.
    { apply NoDup_submseteq; [apply NoDup_fmap; [intros n m; lia|apply NoDup_seq]|].
      intros a Ha. destruct (decide (a ∈ used)) as [|Hn]; [done|]. destruct (proj1 (Forall_forall _ _) Hf a Ha Hn). }
    apply submseteq_length in Hsub. unfold candidates, used in Hsub.
    rewrite !length_fmap, length_seq, length_map_to_list in Hsub. lia.
Qed.

(** ** Examples *)

(** Strings and numbers at three indices; the first and the last are equal. *)
Definition example_tensors : list Tensor :=
  [ {| dtype := DT_STRING; shape := [3];
       data_ := Some {| data_address := 4096; storage := VectorStrings [[97]; [98]; [97]] |} |};
    {| dtype := DT_INT32; shape := [3];
       data_ := Some {| data_address := 8192; storage := NumericBuffer [1; 0; 0; 0; 1; 0; 0; 0; 1; 0; 0; 0] |} |} ].

Definition example_combiner : Combiner :=
  {| dtypes_ := [DT_STRING; DT_INT32]; key_vec_ := []; intern_pool_ := ∅; composite_keys_ := ∅;
     composite_key_next_ := 0 |}.

Lemma example_combiner_inv : combiner_inv example_combiner [].
Proof. by apply (new_CompositeKeyCombiner_inv [DT_STRING; DT_INT32]). Qed.
