(* ===== verification/Aggregators.v ===== *)
(** * Aggregators of tensors: [aggregation/core/tensor_aggregator.{h,cc}],
      [agg_vector_aggregator.h], [federated_sum.cc],
      [one_dim_grouping_aggregator.h] and [tensor_aggregator_registry.cc]

    The virtual methods of [TensorAggregator] are a class; the methods of the
    base class are defined over it. A method that returns an error leaves its
    object as it was, except for [MergeWith], which also returns the other
    object. The sum of two signed integers that overflows, which C++ leaves
    undefined, is the one of the machine, modulo the width; the theorems on sums
    and counters are about runs without an overflow. Floating-point addition is
    that of IEEE 754, rounding to nearest, ties to even; a result that is not a
    number is the canonical one, and the theorems do not tell these apart. *)

From Stdlib Require SpecFloat.
From S2P Require Import Prelude Bytes Tensor.

(** ** Aggregators *)

Class TensorAggregator (A : Type) := {
  CheckValid : A → Res unit;
  AggregateTensors : list Tensor → A → Res A;
  TakeOutputs : A → Res (list Tensor * A);
  GetNumInputs : A → Z
}.

Section base.
Context `{TensorAggregator A}.

Definition Accumulate (tensors : list Tensor) (a : A) : Res A :=
  _ ← CheckValid a; AggregateTensors tensors a.

Definition CanReport (a : A) : Res bool :=
  match CheckValid a with Ok _ => Ok true | Error _ _ => Ok false | Crash => Crash end.

Definition Report (a : A) : Res (list Tensor * A) :=
  _ ← CheckValid a;
  can_report ← CanReport a;
  if negb can_report then Error FAILED_PRECONDITION "TensorAggregator::Report: the report goal isn't met"
  else TakeOutputs a.
End base.

(** ** Addition of values *)

(** The fields of a floating-point number with [mw] bits of mantissa and [ew]
    bits of exponent. *)
Definition float_of_bits (mw ew bits : Z) : SpecFloat.spec_float :=
  let sign := Z.testbit bits (mw + ew) in
  let exponent := Z.shiftr bits mw mod 2 ^ ew in
  let mantissa := bits mod 2 ^ mw in
  let emin := SpecFloat.emin (mw + 1) (2 ^ (ew - 1)) in
  if exponent =? 0 then
    match mantissa with Z.pos m => SpecFloat.S754_finite sign m emin | _ => SpecFloat.S754_zero sign end
  else if exponent =? 2 ^ ew - 1 then
    if mantissa =? 0 then SpecFloat.S754_infinity sign else SpecFloat.S754_nan
  else SpecFloat.S754_finite sign (Z.to_pos (mantissa + 2 ^ mw)) (exponent + emin - 1).

Definition bits_of_float (mw ew : Z) (f : SpecFloat.spec_float) : Z :=
  let emin := SpecFloat.emin (mw + 1) (2 ^ (ew - 1)) in
  let signed (sign : bool) z := (if sign then 2 ^ (mw + ew) else 0) + z in
  match f with
  | SpecFloat.S754_zero sign => signed sign 0
  | SpecFloat.S754_infinity sign => signed sign ((2 ^ ew - 1) * 2 ^ mw)
  | SpecFloat.S754_nan => (2 ^ ew - 1) * 2 ^ mw + 2 ^ (mw - 1)
  | SpecFloat.S754_finite sign m e =>
      if Z.pos m <? 2 ^ mw then signed sign (Z.pos m)
      else signed sign (Z.pos m - 2 ^ mw + (e - emin + 1) * 2 ^ mw)
  end.

Definition float_add (mw ew a b : Z) : Z :=
  bits_of_float mw ew
    (SpecFloat.SFadd (mw + 1) (2 ^ (ew - 1)) (float_of_bits mw ew a) (float_of_bits mw ew b)).

(** [a + b] of two values of a numeric type. *)
Definition add_values (dt : DataType) (a b : list Z) : list Z :=
  match dt with
  | DT_FLOAT => le_bytes 4 (float_add 23 8 (le_value 8 a) (le_value 8 b))
  | DT_DOUBLE => le_bytes 8 (float_add 52 11 (le_value 8 a) (le_value 8 b))
  | DT_INT32 => le_bytes 4 (u32 (le_value 8 a + le_value 8 b))
  | DT_INT64 => le_bytes 8 (u64 (le_value 8 a + le_value 8 b))
  | DT_INVALID | DT_STRING => a
  end.

(** An [int] on the machine. *)
Definition wrap_int (z : Z) : Z := (z + 2 ^ 31) mod 2 ^ 32 - 2 ^ 31.

Lemma wrap_int_small z : - 2 ^ 31 ≤ z < 2 ^ 31 → wrap_int z = z.
Proof. intros Hz. unfold wrap_int. rewrite Z.mod_small by lia. lia. Qed.

(** ** [AggVectorAggregator<T>] with the addition of [FederatedSum<T>] *)

Module FederatedSum.

(** [value_type] stands for [T]; [data()] is the buffer of [result_tensor_]. *)
Record State := { value_type : DataType; result_tensor_ : Tensor; num_inputs_ : Z }.

Definition new (T dtype : DataType) (sh : TensorShape) (address : Z) : Res State :=
  size ← value_size T;
  match Create dtype sh {| data_address := address;
          storage := NumericBuffer (replicate (Z.to_nat (NumElements sh * size)) 0) |} with
  | Ok tensor =>
      FCP_CHECK bool_decide (T = dtype) ;;
      Ok {| value_type := T; result_tensor_ := tensor; num_inputs_ := 0 |}
  | _ => Crash                                        (** [value()] of an error *)
  end.

(** [data()[v.index] += v.value] for all values from [index] on. *)
Fixpoint add_all (T : DataType) (index : nat) (values data : list (list Z)) : Res (list (list Z)) :=
  match values with
  | [] => Ok data
  | v :: values =>
      match data !! index with
      | Some d => add_all T (S index) values (<[index := add_values T d v]> data)
      | None => Crash
      end
  end.

Definition AggregateVector (values : list (list Z)) (a : State) : Res State :=
  data ← AsAggVector (value_type a) (result_tensor_ a);
  data ← add_all (value_type a) 0 values data;
  match data_ (result_tensor_ a) with
  | Some d =>
      Ok {| value_type := value_type a;
            result_tensor_ := {| dtype := dtype (result_tensor_ a); shape := shape (result_tensor_ a);
              data_ := Some {| data_address := data_address d; storage := NumericBuffer (concat data) |} |};
            num_inputs_ := num_inputs_ a |}
  | None => Crash
  end.

Definition count_inputs (n : Z) (a : State) : State :=
  {| value_type := value_type a; result_tensor_ := result_tensor_ a; num_inputs_ := wrap_int (num_inputs_ a + n) |}.

Definition AggregateTensors (tensors : list Tensor) (a : State) : Res State :=
  match tensors with
  | [tensor] =>
      if negb (bool_decide (dtype tensor = value_type a)) then
        Error INVALID_ARGUMENT "AggVectorAggregator::AggregateTensors: dtype mismatch"
      else if negb (bool_decide (shape tensor = shape (result_tensor_ a))) then
        Error INVALID_ARGUMENT "AggVectorAggregator::AggregateTensors: tensor shape mismatch"
      else
        values ← AsAggVector (value_type a) tensor;
        a ← AggregateVector values a;
        Ok (count_inputs 1 a)
  | _ => Crash
  end.

Definition TakeOutputs (a : State) : Res (list Tensor * State) :=
  Ok ([result_tensor_ a],
      {| value_type := value_type a; result_tensor_ := moved_from (result_tensor_ a);
         num_inputs_ := num_inputs_ a |}).

#[global] Instance aggregator : TensorAggregator State := {|
  Aggregators.CheckValid a := Tensor.CheckValid (result_tensor_ a);
  Aggregators.AggregateTensors := AggregateTensors;
  Aggregators.TakeOutputs := TakeOutputs;
  Aggregators.GetNumInputs := num_inputs_
|}.

(** The result, and what is left of the other aggregator. *)
Definition MergeWith (other a : State) : Res State * State :=
  match CheckValid a with
  | Ok _ =>
      if negb (bool_decide (value_type other = value_type a)) then
        (Error INVALID_ARGUMENT "AggVectorAggregator::MergeOutputTensors: Can only merge with another AggVectorAggregator operating on the same dtype", other)
      else
        match CheckValid other with
        | Ok _ =>
            let other_num_inputs := GetNumInputs other in
            match TakeOutputs other with
            | Ok (output_tensors, other) =>
                (match output_tensors with
                 | [output] =>
                     if negb (bool_decide (shape output = shape (result_tensor_ a))) then
                       Error INVALID_ARGUMENT "AggVectorAggregator::MergeOutputTensors: tensor shape mismatch"
                     else
                       values ← AsAggVector (value_type a) output;
                       a ← AggregateVector values a;
                       Ok (count_inputs other_num_inputs a)
                 | _ => Crash
                 end, other)
            | Error c m => (Error c m, other)
            | Crash => (Crash, other)
            end
        | Error c m => (Error c m, other)
        | Crash => (Crash, other)
        end
  | Error c m => (Error c m, other)
  | Crash => (Crash, other)
  end.

(** [FederatedSumFactory::Create]; [address] is where the sum is allocated. *)
Definition Factory_Create (address : Z) (dtype : DataType) (sh : TensorShape) : Res State :=
  match dtype with
  | DT_INVALID => Crash
  | DT_STRING => Error INVALID_ARGUMENT "FederatedSum isn't supported for DT_STRING datatype."
  | T => new T dtype sh address
  end.
End FederatedSum.

(** ** The registry of factories *)

Definition Factory (A : Type) : Type := DataType → TensorShape → Res A.
Abbreviation Registry A := (gmap string (Factory A)).

Definition RegisterAggregatorFactory {A} (intrinsic_uri : string) (factory : Factory A)
    (map_ : Registry A) : Res (Registry A) :=
  FCP_CHECK bool_decide (map_ !! intrinsic_uri = None) ;;
  Ok (<[intrinsic_uri := factory]> map_).

Definition GetAggregatorFactory {A} (intrinsic_uri : string) (map_ : Registry A) : Res (Factory A) :=
  match map_ !! intrinsic_uri with
  | Some factory => Ok factory
  | None => Error NOT_FOUND "Unknown factory for intrinsic_uri"
  end.
