(* ===== verification/AggregatorsCorrect.v ===== *)
(** * Correctness of the aggregators

    [AggregatorLaws] is what the protocol relies on: an aggregator for a type and
    a shape takes inputs of that type and shape and then gives one tensor of it,
    once. [FederatedSum] keeps these laws, and its tensor is the sum. *)

From S2P Require Import Prelude Bytes Tensor TensorCorrect Aggregators.

(** A valid tensor whose values can be read. *)
Definition good_tensor (t : Tensor) : Prop :=
  Tensor.CheckValid t = Ok () ∧ NumElements (shape t) < 2 ^ 59 ∧
  ∃ values, AsAggVector (dtype t) t = Ok values ∧ Z.of_nat (length values) < 2 ^ 60.

Class AggregatorLaws (A : Type) `{TensorAggregator A} := {
  ready : DataType → TensorShape → A → Prop;
  consumed : A → Prop;
  ready_valid dt sh a : ready dt sh a → CheckValid a = Ok ();
  ready_aggregates dt sh a t :
    ready dt sh a → good_tensor t → dtype t = dt → shape t = sh →
    ∃ a', AggregateTensors [t] a = Ok a' ∧ ready dt sh a';
  ready_outputs dt sh a :
    ready dt sh a → ∃ t a', TakeOutputs a = Ok ([t], a') ∧ dtype t = dt ∧ shape t = sh ∧ consumed a';
  consumed_invalid a : consumed a → ∃ m, CheckValid a = Error FAILED_PRECONDITION m
}.

(** Accumulates inputs one by one. *)
Fixpoint accumulate_all `{TensorAggregator A} (inputs : list Tensor) (a : A) : Res A :=
  match inputs with
  | [] => Ok a
  | t :: inputs => a ← Accumulate [t] a; accumulate_all inputs a
  end.

Section laws.
Context `{AggregatorLaws A}.

Lemma ready_accumulate dt sh a t :
  ready dt sh a → good_tensor t → dtype t = dt → shape t = sh →
  ∃ a', Accumulate [t] a = Ok a' ∧ ready dt sh a'.
Proof.
  intros Hr Ht Hd Hs. unfold Accumulate. rewrite (ready_valid _ _ _ Hr). by eapply ready_aggregates.
Qed.

Lemma ready_CanReport dt sh a : ready dt sh a → CanReport a = Ok true.
Proof. intros Hr. unfold CanReport. by rewrite (ready_valid _ _ _ Hr). Qed.

Lemma consumed_CanReport a : consumed a → CanReport a = Ok false.
Proof. intros Hc. unfold CanReport. by destruct (consumed_invalid _ Hc) as [m ->]. Qed.

Lemma consumed_Accumulate a tensors : consumed a → ∃ m, Accumulate tensors a = Error FAILED_PRECONDITION m.
Proof. intros Hc. unfold Accumulate. destruct (consumed_invalid _ Hc) as [m ->]. by exists m. Qed.

Lemma ready_Report dt sh a :
  ready dt sh a → ∃ t a', Report a = Ok ([t], a') ∧ dtype t = dt ∧ shape t = sh ∧ consumed a'.
Proof.
  intros Hr. unfold Report. rewrite (ready_valid _ _ _ Hr). cbn [mbind Res_bind].
  rewrite (ready_CanReport _ _ _ Hr). cbn [mbind Res_bind negb]. by apply ready_outputs.
Qed.
End laws.

(** ** Sums *)

(** A sum that is valid, with its values and the number of inputs. *)
Record summed (dt : DataType) (sh : TensorShape) (total : list (list Z)) (n : Z) (a : FederatedSum.State) : Prop := {
  summed_numeric : numeric dt;
  summed_type : FederatedSum.value_type a = dt;
  summed_dtype : dtype (FederatedSum.result_tensor_ a) = dt;
  summed_shape : shape (FederatedSum.result_tensor_ a) = sh;
  summed_valid : Tensor.CheckValid (FederatedSum.result_tensor_ a) = Ok ();
  summed_values : AsAggVector dt (FederatedSum.result_tensor_ a) = Ok total;
  summed_typed : Forall (typed dt) total;
  summed_length : Z.of_nat (length total) = NumElements sh;
  summed_range : 0 < NumElements sh < 2 ^ 60;
  summed_aligned : ∀ d, data_ (FederatedSum.result_tensor_ a) = Some d → data_address d mod 16 = 0;
  summed_num : FederatedSum.num_inputs_ a = n
}.

Lemma add_values_typed dt a b : numeric dt → typed dt (add_values dt a b).
Proof. intros [? ?]. destruct dt; try done; apply length_le_bytes. Qed.

Lemma add_all_ok T values : ∀ pre data,
  length values = length data →
  FederatedSum.add_all T (length pre) values (pre ++ data) = Ok (pre ++ zip_with (add_values T) data values).
Proof.
  induction values as [|v values IH]; intros pre [|d data] Hlen; try done.
  cbn [FederatedSum.add_all]. rewrite list_lookup_middle by done. rewrite insert_app_r_alt, Nat.sub_diag by done.
  cbn [zip_with]. change (<[0%nat := add_values T d v]> (d :: data)) with ([add_values T d v] ++ data).
  replace (S (length pre)) with (length (pre ++ [add_values T d v])) by (rewrite length_app; simpl; lia).
  rewrite (assoc_L (++)), IH by (simpl in Hlen; lia). by rewrite <- (assoc_L (++)).
Qed.

Lemma AggregateVector_ok dt sh total n a values :
  summed dt sh total n a → Z.of_nat (length values) = NumElements sh →
  ∃ a', FederatedSum.AggregateVector values a = Ok a' ∧ summed dt sh (zip_with (add_values dt) total values) n a'.
Proof.
  intros [Hn Ht Hd Hs Hv Hval Htyped Hlen Hr Hal Hnum] Hvl. unfold FederatedSum.AggregateVector. rewrite Ht, Hval.
  cbn [mbind Res_bind]. pose proof (add_all_ok dt values [] total ltac:(lia)) as Hadd. cbn [length app] in Hadd.
  rewrite Hadd. cbn [mbind Res_bind].
  pose proof (CheckValid_inv _ Hv) as (_ & d & _ & _ & Hdata & _). rewrite Hdata.
  destruct (Create_numeric dt sh (data_address d) (zip_with (add_values dt) total values)) as (_ & Hvalid & Hvals).
  - done.
  - apply Forall_lookup. intros i x (y & z & -> & _ & _)%lookup_zip_with_Some. by apply add_values_typed.
  - rewrite length_zip_with. lia.
  - done.
  - by apply Hal.
  - eexists. split; [done|].
    split; cbn [FederatedSum.value_type FederatedSum.result_tensor_ FederatedSum.num_inputs_ dtype shape data_];
      rewrite ?Hd, ?Hs; try done.
    + apply Forall_lookup. intros i x (y & z & -> & _ & _)%lookup_zip_with_Some. by apply add_values_typed.
    + rewrite length_zip_with. lia.
    + intros d' [= <-]. exact (Hal d Hdata).
Qed.

Lemma count_inputs_ok dt sh total n k a :
  summed dt sh total n a → summed dt sh total (wrap_int (n + k)) (FederatedSum.count_inputs k a).
Proof. intros []. split; try done. simpl. congruence. Qed.

Lemma sum_AggregateTensors dt sh total n a t values :
  summed dt sh total n a → Tensor.CheckValid t = Ok () → dtype t = dt → shape t = sh →
  AsAggVector dt t = Ok values → Z.of_nat (length values) < 2 ^ 60 →
  ∃ a', FederatedSum.AggregateTensors [t] a = Ok a' ∧
    summed dt sh (zip_with (add_values dt) total values) (wrap_int (n + 1)) a'.
Proof.
  intros Ha Hv Hd Hs Hval Hl. unfold FederatedSum.AggregateTensors.
  rewrite !bool_decide_true by (rewrite ?(summed_type _ _ _ _ _ Ha), ?(summed_shape _ _ _ _ _ Ha); done).
  cbn [negb]. rewrite (summed_type _ _ _ _ _ Ha), Hval. cbn [mbind Res_bind].
  destruct (AggregateVector_ok _ _ _ _ _ values Ha) as (a' & Hagg & Ha').
  { pose proof (summed_range _ _ _ _ _ Ha). destruct (valid_values t values Hv) as (Hn & _); rewrite ?Hd, ?Hs; try done; try lia.
    by rewrite Hs in Hn. }
  rewrite Hagg. cbn [mbind Res_bind]. eexists. split; [done|]. by apply count_inputs_ok.
Qed.

Definition zeros (dt : DataType) (sh : TensorShape) : list (list Z) :=
  replicate (Z.to_nat (NumElements sh)) (replicate (width dt) 0).

Lemma Factory_Create_ok address dt sh :
  numeric dt → 0 < NumElements sh < 2 ^ 60 → address mod 16 = 0 →
  ∃ a, FederatedSum.Factory_Create address dt sh = Ok a ∧ summed dt sh (zeros dt sh) 0 a.
Proof.
  intros Hn Hr Ha.
  assert (Hf : FederatedSum.Factory_Create address dt sh = FederatedSum.new dt dt sh address) by (destruct Hn; by destruct dt).
  rewrite Hf. unfold FederatedSum.new. rewrite numeric_size by done. cbn [mbind Res_bind].
  assert (Hz : replicate (Z.to_nat (NumElements sh * Z.of_nat (width dt))) 0 = concat (zeros dt sh)).
  { unfold zeros. rewrite Z2Nat.inj_mul, Nat2Z.id by lia. generalize (Z.to_nat (NumElements sh)). clear. intros m.
    induction m as [|m IH]; [done|]. simpl. by rewrite replicate_add, IH. }
  assert (Hzt : Forall (typed dt) (zeros dt sh)).
  { apply Forall_replicate. apply numeric_typed; [done|]. by rewrite length_replicate. }
  assert (Hzl : Z.of_nat (length (zeros dt sh)) = NumElements sh) by (unfold zeros; rewrite length_replicate; lia).
  rewrite Hz. destruct (Create_numeric dt sh address (zeros dt sh)) as (-> & Hv & Hvals); try done.
  rewrite bool_decide_true by done. eexists. split; [done|]. split; try done. simpl. by intros d [= <-].
Qed.

#[export] Program Instance FederatedSum_laws : AggregatorLaws FederatedSum.State := {|
  ready dt sh a := ∃ total n, summed dt sh total n a;
  consumed a := FederatedSum.result_tensor_ a = moved_from (FederatedSum.result_tensor_ a)
|}.
Next Obligation. intros dt sh a (total & n & Ha). apply Ha. Qed.
Next Obligation.
  intros dt sh a t (total & n & Ha) (Hv & _ & values & Hval & Hl) Hd Hs. rewrite Hd in Hval.
  destruct (sum_AggregateTensors _ _ _ _ _ _ _ Ha Hv Hd Hs Hval Hl) as (a' & Ha' & Hsum). exists a'.
  split; [done|]. by eexists _, _.
Qed.
Next Obligation.
  intros dt sh a (total & n & Ha). eexists _, _. split; [done|].
  split_and!; [exact (summed_dtype _ _ _ _ _ Ha)|exact (summed_shape _ _ _ _ _ Ha)|done].
Qed.
Next Obligation. intros a Hc. simpl in *. rewrite Hc. by eexists. Qed.

(** ** Integers *)

(** The signed integer of the bytes of a value. *)
Definition signed (dt : DataType) (v : list Z) : Z :=
  let w := 8 * Z.of_nat (width dt) in
  let u := le_value 8 v mod 2 ^ w in
  if u <? 2 ^ (w - 1) then u else u - 2 ^ w.

Lemma signed_mod dt v : signed dt v ≡ le_value 8 v [mod 2 ^ (8 * Z.of_nat (width dt))].
Proof.
  unfold signed. destruct (_ <? _); [apply eqmod_mod|].
  rewrite eqmod_iff. rewrite Zminus_mod, Z_mod_same_full, Z.sub_0_r, !Zmod_mod. done.
Qed.

Lemma signed_unique dt v s :
  s ≡ le_value 8 v [mod 2 ^ (8 * Z.of_nat (width dt))] →
  - 2 ^ (8 * Z.of_nat (width dt) - 1) ≤ s < 2 ^ (8 * Z.of_nat (width dt) - 1) → signed dt v = s.
Proof.
  intros Hm Hs. pose proof (width_pos dt). set (w := 8 * Z.of_nat (width dt)) in *.
  assert (Hw : 2 ^ w = 2 * 2 ^ (w - 1)) by (rewrite <- Z.pow_succ_r by lia; f_equal; lia).
  unfold signed. fold w. apply eqmod_rem in Hm.
  pose proof (Z.mod_pos_bound (le_value 8 v) (2 ^ w) ltac:(lia)).
  destruct (decide (0 ≤ s)).
  - rewrite (Z.mod_small s) in Hm by lia. rewrite <- Hm, (proj2 (Z.ltb_lt _ _)) by lia. done.
  - assert (s mod 2 ^ w = s + 2 ^ w) as Hneg.
    { rewrite <- (Z.mod_small (s + 2 ^ w) (2 ^ w)) by lia. rewrite Zplus_mod, Z_mod_same_full, Z.add_0_r, Zmod_mod. done. }
    rewrite <- Hm, Hneg, (proj2 (Z.ltb_ge _ _)) by lia. lia.
Qed.

Definition is_integer (dt : DataType) : Prop := dt = DT_INT32 ∨ dt = DT_INT64.

Lemma add_values_value dt a b :
  is_integer dt → le_value 8 (add_values dt a b) ≡ le_value 8 a + le_value 8 b [mod 2 ^ (8 * Z.of_nat (width dt))].
Proof.
  intros [-> | ->]; cbn [add_values]; rewrite le_value_le_bytes; unfold u32, u64;
    [change (2 ^ (8 * Z.of_nat 4)) with (2 ^ 32); change (2 ^ (8 * Z.of_nat (width DT_INT32))) with (2 ^ 32)
    |change (2 ^ (8 * Z.of_nat 8)) with (2 ^ 64); change (2 ^ (8 * Z.of_nat (width DT_INT64))) with (2 ^ 64)];
    by drop_mod.
Qed.

(** The sum of the values at an index. *)
Definition exact_sum (dt : DataType) (i : nat) (inputs : list (list (list Z))) : Z :=
  foldr Z.add 0 ((λ values : list (list Z), signed dt (values !!! i)) <$> inputs).

Lemma foldl_add_value dt i inputs : ∀ total v,
  is_integer dt → foldl (zip_with (add_values dt)) total inputs !! i = Some v →
  Forall (λ values : list (list Z), length values = length total) inputs →
  le_value 8 v ≡ le_value 8 (total !!! i) + exact_sum dt i inputs [mod 2 ^ (8 * Z.of_nat (width dt))].
Proof.
  unfold exact_sum. induction inputs as [|values inputs IH]; intros total v Hi Hv Hl; simpl in Hv.
  { rewrite (list_lookup_total_correct _ _ _ Hv). simpl. by rewrite Z.add_0_r. }
  apply Forall_cons in Hl as [Hl Hls]. apply IH in Hv as Hm; [|done|]; cycle 1.
  { eapply Forall_impl; [exact Hls|]. simpl. intros l. rewrite length_zip_with. lia. }
  rewrite Hm. rewrite fmap_cons. cbn [foldr].
  assert (Hlt : (i < length (zip_with (add_values dt) total values))%nat).
  { apply lookup_lt_Some in Hv. revert Hv. clear -Hls Hl. rewrite length_zip_with, Hl, Nat.min_id.
    assert (Hlen : ∀ acc, length acc = length total → length (foldl (zip_with (add_values dt)) acc inputs) = length total).
    { induction Hls as [|x inputs Hx _ IH]; intros acc Ha; [done|]. simpl. apply IH. rewrite length_zip_with. lia. }
    rewrite Hlen; [done|]. rewrite length_zip_with. lia. }
  rewrite length_zip_with in Hlt.
  destruct (lookup_lt_is_Some_2 total i ltac:(lia)) as [x Hx], (lookup_lt_is_Some_2 values i ltac:(lia)) as [y Hy].
  rewrite (list_lookup_total_correct _ _ _ Hx), (list_lookup_total_correct _ _ _ Hy).
  assert (zip_with (add_values dt) total values !!! i = add_values dt x y) as ->.
  { apply list_lookup_total_correct. rewrite lookup_zip_with, Hx, Hy. done. }
  rewrite add_values_value, signed_mod by done. eqmod_ring.
Qed.

Lemma zeros_value dt sh i : le_value 8 (zeros dt sh !!! i) = 0.
Proof.
  assert (Hz : ∀ n, le_value 8 (replicate n 0) = 0) by (intros n; induction n as [|n IH]; simpl; [done|rewrite IH; done]).
  unfold zeros. destruct (decide (i < Z.to_nat (NumElements sh))%nat).
  - by rewrite lookup_total_replicate_2.
  - rewrite list_lookup_total_alt, lookup_ge_None_2 by (rewrite length_replicate; lia). done.
Qed.

(** ** Properties *)

(** The inputs of a sum. *)
Definition sum_inputs (dt : DataType) (sh : TensorShape) : list Tensor → list (list (list Z)) → Prop :=
  Forall2 (λ t values, good_tensor t ∧ dtype t = dt ∧ shape t = sh ∧ AsAggVector dt t = Ok values).

Lemma accumulate_all_ok dt sh ts inputs : ∀ total n a,
  sum_inputs dt sh ts inputs → summed dt sh total n a → 0 ≤ n → n + Z.of_nat (length ts) < 2 ^ 31 →
  ∃ a', accumulate_all ts a = Ok a' ∧
    summed dt sh (foldl (zip_with (add_values dt)) total inputs) (n + Z.of_nat (length ts)) a'.
Proof.
  intros total n a Hin. revert total n a.
  induction Hin as [|t values ts inputs ((Hv & _ & vals & Hval' & Hl) & Hd & Hs & Hval) _ IH]; intros total n a Ha Hn Hlt.
  { exists a. split; [done|]. simpl. by rewrite Z.add_0_r. }
  rewrite Hd, Hval in Hval'. injection Hval' as <-.
  destruct (sum_AggregateTensors _ _ _ _ _ _ _ Ha Hv Hd Hs Hval Hl) as (a1 & Ha1 & Hsum).
  cbn [length] in Hlt. rewrite wrap_int_small in Hsum by lia.
  destruct (IH _ _ _ Hsum ltac:(lia) ltac:(lia)) as (a2 & Ha2 & Hsum2). exists a2. cbn [accumulate_all]. unfold Accumulate.
  cbn [CheckValid AggregateTensors FederatedSum.aggregator]. rewrite (summed_valid _ _ _ _ _ Ha).
  cbn [mbind Res_bind]. rewrite Ha1. cbn [mbind Res_bind]. split; [done|]. cbn [foldl length].
  replace (n + Z.of_nat (S (length ts))) with (n + 1 + Z.of_nat (length ts)) by lia. done.
Qed.

Lemma sum_inputs_length dt sh ts inputs :
  sum_inputs dt sh ts inputs → Forall (λ values : list (list Z), Z.of_nat (length values) = NumElements sh) inputs.
Proof.
  induction 1 as [|t values ts inputs ((Hv & Hn & vals & Hval' & Hl) & Hd & Hs & Hval) _ IH]; constructor; [|done].
  rewrite Hd, Hval in Hval'. injection Hval' as <-.
  destruct (valid_values t values Hv) as (Hlen & _); rewrite ?Hd; try done; try lia. by rewrite Hs in Hlen.
Qed.

Definition fits (dt : DataType) (z : Z) : Prop :=
  - 2 ^ (8 * Z.of_nat (width dt) - 1) ≤ z < 2 ^ (8 * Z.of_nat (width dt) - 1).

(** The same number, or no number at all: which of the values that are not
    numbers a sum returns is up to the machine. *)
Definition is_nan (dt : DataType) (v : list Z) : bool :=
  match dt with
  | DT_FLOAT => match float_of_bits 23 8 (le_value 8 v) with SpecFloat.S754_nan => true | _ => false end
  | DT_DOUBLE => match float_of_bits 52 11 (le_value 8 v) with SpecFloat.S754_nan => true | _ => false end
  | _ => false
  end.

Definition same_number (dt : DataType) (v w : list Z) : Prop := v = w ∨ is_nan dt v = true ∧ is_nan dt w = true.

#[export] Instance same_number_equivalence dt : Equivalence (same_number dt).
Proof.
  split.
  - by left.
  - intros v w [->|[Hv Hw]]; [by left|by right].
  - intros v w x [->|[Hv Hw]]; [done|]. intros [<-|[_ Hx]]; by right.
Qed.

(** C31: a federated sum that was created for a numeric type and a shape takes
    less than 2 ^ 31 valid tensors of that type and shape, counts them, and
    reports one tensor of the type and shape. For the integer types its value at
    an index is the sum of the integers at that index, if all partial sums fit in
    the type; for the floating-point types it is the IEEE sum of the values, in
    their order, up to the choice of a value that is not a number. After the
    report the aggregator can neither report again nor take inputs. *)
Theorem FederatedSum_sum address dt sh ts inputs :
  numeric dt → 0 < NumElements sh < 2 ^ 59 → address mod 16 = 0 → sum_inputs dt sh ts inputs →
  Z.of_nat (length ts) < 2 ^ 31 →
  ∃ a0 a t a' values, FederatedSum.Factory_Create address dt sh = Ok a0 ∧ accumulate_all ts a0 = Ok a ∧
    GetNumInputs a = Z.of_nat (length ts) ∧ Report a = Ok ([t], a') ∧ dtype t = dt ∧ shape t = sh ∧
    AsAggVector dt t = Ok values ∧ Z.of_nat (length values) = NumElements sh ∧ CanReport a' = Ok false ∧
    (∀ tensors, ∃ m, Accumulate tensors a' = Error FAILED_PRECONDITION m) ∧
    (is_integer dt → ∀ i v, values !! i = Some v →
      (∀ n, fits dt (exact_sum dt i (take n inputs))) → signed dt v = exact_sum dt i inputs) ∧
    (¬ is_integer dt →
      Forall2 (same_number dt) values (foldl (zip_with (add_values dt)) (zeros dt sh) inputs)).
Proof.
  intros Hn Hr Ha Hin Hcount. destruct (Factory_Create_ok address dt sh Hn ltac:(lia) Ha) as (a0 & Hc & Hs0).
  destruct (accumulate_all_ok _ _ _ _ _ _ _ Hin Hs0 ltac:(lia) ltac:(lia)) as (a & Hacc & Hsum).
  exists a0, a, (FederatedSum.result_tensor_ a). eexists _, _. split; [done|]. split; [done|].
  split; [exact (summed_num _ _ _ _ _ Hsum)|]. unfold Report, CanReport.
  cbn [CheckValid TakeOutputs FederatedSum.aggregator]. rewrite (summed_valid _ _ _ _ _ Hsum). cbn [mbind Res_bind negb].
  split; [done|]. split; [exact (summed_dtype _ _ _ _ _ Hsum)|]. split; [exact (summed_shape _ _ _ _ _ Hsum)|].
  split; [exact (summed_values _ _ _ _ _ Hsum)|]. split; [exact (summed_length _ _ _ _ _ Hsum)|].
  split; [done|]. split; [intros; by eexists|]. split; [|by intros _].
  intros Hi i v Hv Hrange. specialize (Hrange (length inputs)). rewrite firstn_all in Hrange.
  apply signed_unique; [|exact Hrange].
  pose proof (foldl_add_value dt i inputs _ v Hi Hv) as Hm. rewrite zeros_value in Hm. symmetry.
  apply Hm. eapply Forall_impl; [exact (sum_inputs_length _ _ _ _ Hin)|]. intros values Hl. simpl in *.
  pose proof (summed_length _ _ _ _ _ Hs0). lia.
Qed.

(** [MergeWith] of two sums of the same type and shape adds the other sum and
    its number of inputs (an [int]), and leaves the other aggregator without a result. When
    the types differ neither is changed; when only the shapes differ it is an
    error too, but the other sum is lost. *)
Lemma FederatedSum_merge dt sh total n a dt' sh' total' n' other :
  summed dt sh total n a → summed dt' sh' total' n' other →
  (dt' = dt → sh' = sh → ∃ a' other', FederatedSum.MergeWith other a = (Ok a', other') ∧
    summed dt sh (zip_with (add_values dt) total total') (wrap_int (n + n')) a' ∧ CanReport other' = Ok false) ∧
  (dt' ≠ dt → ∃ m, FederatedSum.MergeWith other a = (Error INVALID_ARGUMENT m, other)) ∧
  (dt' = dt → sh' ≠ sh → ∃ m other', FederatedSum.MergeWith other a = (Error INVALID_ARGUMENT m, other') ∧
    CanReport other' = Ok false).
Proof.
  intros Ha Ho. unfold FederatedSum.MergeWith. cbn [CheckValid GetNumInputs FederatedSum.aggregator].
  rewrite (summed_valid _ _ _ _ _ Ha), (summed_valid _ _ _ _ _ Ho), (summed_type _ _ _ _ _ Ha), (summed_type _ _ _ _ _ Ho).
  unfold FederatedSum.TakeOutputs. rewrite (summed_shape _ _ _ _ _ Ha), (summed_shape _ _ _ _ _ Ho).
  split_and!.
  - intros -> ->. rewrite !bool_decide_true by done. cbn [negb]. rewrite (summed_values _ _ _ _ _ Ho). cbn [mbind Res_bind].
    destruct (AggregateVector_ok _ _ _ _ _ total' Ha (summed_length _ _ _ _ _ Ho)) as (a' & -> & Hsum).
    cbn [mbind Res_bind]. eexists _, _. split; [done|]. split; [|done]. rewrite (summed_num _ _ _ _ _ Ho). by apply count_inputs_ok.
  - intros Hne. rewrite bool_decide_false by done. by eexists.
  - intros -> Hne. rewrite bool_decide_true, bool_decide_false by done. by eexists _, _.
Qed.

(** ** Examples *)

Definition int32_tensor (bytes : list Z) : Tensor :=
  {| dtype := DT_INT32; shape := [2];
     data_ := Some {| data_address := 4096; storage := NumericBuffer bytes |} |}.

(** The values [2147483647, 5], [-2, 6] and [1, -12]. *)
Definition example_inputs : list (list (list Z)) :=
  [ [[255; 255; 255; 127]; [5; 0; 0; 0]]; [[254; 255; 255; 255]; [6; 0; 0; 0]];
    [[1; 0; 0; 0]; [244; 255; 255; 255]] ].

Definition example_input_tensors : list Tensor := (λ values, int32_tensor (concat values)) <$> example_inputs.

Lemma example_sum_inputs :
  sum_inputs DT_INT32 [2] example_input_tensors example_inputs.
Proof.
  repeat constructor; simpl; try reflexivity; eexists; (split; [reflexivity|reflexivity]).
Qed.

Lemma example_fits i n : (i < 2)%nat → fits DT_INT32 (exact_sum DT_INT32 i (take n example_inputs)).
Proof.
  intros Hi. assert (Hn : (n < 3)%nat ∨ take n example_inputs = example_inputs).
  { destruct (decide (n < 3)%nat); [by left|]. right. apply take_ge. simpl. lia. }
  destruct i as [|[|i]]; [| |lia]; destruct Hn as [Hn| ->]; [destruct n as [|[|[|n]]]; [..|lia]| |
    destruct n as [|[|[|n]]]; [..|lia]|]; vm_compute; by split.
Qed.

Lemma FederatedSum_sum_witness :
  ∃ a0 a t a' v w, FederatedSum.Factory_Create 64 DT_INT32 [2] = Ok a0 ∧
    accumulate_all example_input_tensors a0 = Ok a ∧ GetNumInputs a = 3 ∧
    Report a = Ok ([t], a') ∧ AsAggVector DT_INT32 t = Ok [v; w] ∧
    signed DT_INT32 v = 2147483646 ∧ signed DT_INT32 w = -1.
Proof.
  destruct (FederatedSum_sum 64 DT_INT32 [2] example_input_tensors example_inputs)
    as (a0 & a & t & a' & values & Hc & Hacc & Hk & Hr & _ & _ & Hv & Hl & _ & _ & Hi & _).
  - split; discriminate.
  - split; reflexivity.
  - reflexivity.
  - exact example_sum_inputs.
  - reflexivity.
  - change (NumElements [2]) with 2 in Hl. destruct values as [|v [|w [|x values]]]; cbn [length] in Hl; try lia.
    exists a0, a, t, a', v, w. split; [exact Hc|]. split; [exact Hacc|]. split; [exact Hk|]. split; [exact Hr|].
    split; [exact Hv|]. split.
    + apply (Hi (or_introl eq_refl) 0%nat v eq_refl). intros n. apply example_fits. lia.
    + apply (Hi (or_introl eq_refl) 1%nat w eq_refl). intros n. apply example_fits. lia.
Defined.

(** A sum of floating-point numbers, 1.5 and 2.25. *)
Example float_sum : add_values DT_FLOAT [0; 0; 192; 63] [0; 0; 16; 64] = [0; 0; 112; 64].
Proof. vm_compute. reflexivity. Qed.

Definition example_sum (bytes : list Z) (n : Z) : FederatedSum.State :=
  {| FederatedSum.value_type := DT_INT32; FederatedSum.result_tensor_ := int32_tensor bytes;
     FederatedSum.num_inputs_ := n |}.

Lemma example_summed bytes n values :
  AsAggVector DT_INT32 (int32_tensor bytes) = Ok values → length bytes = 8%nat → Forall (typed DT_INT32) values →
  length values = 2%nat → summed DT_INT32 [2] values n (example_sum bytes n).
Proof.
  intros Hv Hl Ht Hlen. split; try done; [|by rewrite Hlen|by intros d [= <-]].
  unfold Tensor.CheckValid, TensorData_CheckValid, byte_size. simpl. by rewrite Hl.
Qed.

Lemma FederatedSum_merge_witness :
  ∃ a' other', FederatedSum.MergeWith (example_sum [1; 0; 0; 0; 2; 0; 0; 0] 3) (example_sum [5; 0; 0; 0; 255; 0; 0; 0] 4) =
      (Ok a', other') ∧
    summed DT_INT32 [2] [[6; 0; 0; 0]; [1; 1; 0; 0]] 7 a' ∧ CanReport other' = Ok false.
Proof.
  destruct (FederatedSum_merge DT_INT32 [2] [[5; 0; 0; 0]; [255; 0; 0; 0]] 4 (example_sum [5; 0; 0; 0; 255; 0; 0; 0] 4)
    DT_INT32 [2] [[1; 0; 0; 0]; [2; 0; 0; 0]] 3 (example_sum [1; 0; 0; 0; 2; 0; 0; 0] 3)) as [H _].
  - apply example_summed; repeat constructor.
  - apply example_summed; repeat constructor.
  - exact (H eq_refl eq_refl).
Defined.
