(* ===== verification/Grouping.v ===== *)
(** * Grouping aggregators: [aggregation/core/one_dim_grouping_aggregator.h]

    The methods that a derived class provides are a record of functions on the
    vector of data. *)

From S2P Require Import Prelude Bytes Tensor TensorCorrect Aggregators.

(** [TypeTraits<T>::kDataType] and the virtual methods. *)
Class GroupingOps := {
  ops_dtype : DataType;
  AggregateVectorByOrdinals : list Z → list (list Z) → list (list Z) → Res (list (list Z));
  AggregateVector : list (list Z) → list (list Z) → Res (list (list Z));
  GetDefaultValue : list Z
}.

(** The vector is [None] once it was consumed. *)
Record GroupingAggregator := { data_vector_ : option (list (list Z)); num_inputs_ : Z }.

Section grouping.
Context {ops : GroupingOps}.

Definition new_OneDimGroupingAggregator (dtype : DataType) : Res GroupingAggregator :=
  FCP_CHECK bool_decide (ops_dtype = dtype) ;; Ok {| data_vector_ := Some []; num_inputs_ := 0 |}.

(** [std::vector::resize], which throws above the largest size of a vector. *)
Definition resize (n : Z) (data : list (list Z)) : Res (list (list Z)) :=
  size ← value_size ops_dtype;
  if 2 ^ 63 <=? n * size then Crash
  else Ok (take (Z.to_nat n) data ++ replicate (Z.to_nat n - length data) GetDefaultValue).

(** A signed ordinal is compared with the unsigned size. *)
Definition final_size (ordinals : list Z) (size : Z) : Z :=
  foldl (λ final_size o, if final_size <=? u64 o then u64 (o + 1) else final_size) size ordinals.

Definition ordinal_value (value : list Z) : Z := s64 (le_value 8 value).

Definition Grouping_CheckValid (g : GroupingAggregator) : Res unit :=
  match data_vector_ g with
  | None => Error FAILED_PRECONDITION "GroupingAggregator::CheckValid: Output has already been consumed."
  | Some _ => Ok ()
  end.

Definition Grouping_AggregateTensors (tensors : list Tensor) (g : GroupingAggregator) : Res GroupingAggregator :=
  match tensors with
  | [ordinals; tensor] =>
      if negb (bool_decide (dtype ordinals = DT_INT64)) then
        Error INVALID_ARGUMENT "GroupingAggregator::AggregateTensors: dtype mismatch for tensor 0. Expected DT_INT64."
      else if negb (bool_decide (dtype tensor = ops_dtype)) then
        Error INVALID_ARGUMENT "GroupingAggregator::AggregateTensors: dtype mismatch for tensor 1"
      else if negb (bool_decide (shape ordinals = shape tensor)) then
        Error INVALID_ARGUMENT "GroupingAggregator::AggregateTensors: tensor shape mismatch. Shape of both tensors must be the same."
      else if bool_decide (1 < length (shape tensor))%nat then
        Error INVALID_ARGUMENT "GroupingAggregator::AggregateTensors: Only 1 dimensional tensors supported."
      else
        value_vector ← AsAggVector ops_dtype tensor;
        ordinals_vector ← AsAggVector DT_INT64 ordinals;
        match data_vector_ g with
        | None => Crash
        | Some data =>
            let ordinals := ordinal_value <$> ordinals_vector in
            data ← resize (final_size ordinals (Z.of_nat (length data))) data;
            data ← AggregateVectorByOrdinals ordinals value_vector data;
            Ok {| data_vector_ := Some data; num_inputs_ := wrap_int (num_inputs_ g + 1) |}
        end
  | _ => Crash
  end.

(** [address] is where the vector lies. *)
Definition Grouping_TakeOutputs (address : Z) (g : GroupingAggregator) :
    Res (list Tensor * GroupingAggregator) :=
  let consumed := {| data_vector_ := None; num_inputs_ := num_inputs_ g |} in
  match data_vector_ g with
  | None => Crash
  | Some [] => Ok ([], consumed)
  | Some data =>
      match Create ops_dtype [Z.of_nat (length data)]
              {| data_address := address; storage := NumericBuffer (concat data) |} with
      | Ok tensor => Ok ([tensor], consumed)
      | _ => Crash
      end
  end.

Definition Grouping_aggregator (address : Z) : TensorAggregator GroupingAggregator := {|
  Aggregators.CheckValid := Grouping_CheckValid;
  Aggregators.AggregateTensors := Grouping_AggregateTensors;
  Aggregators.TakeOutputs := Grouping_TakeOutputs address;
  Aggregators.GetNumInputs := num_inputs_
|}.

(** The result, and what is left of the other aggregator, which is of the same
    type. *)
Definition Grouping_MergeWith (address : Z) (other g : GroupingAggregator) :
    Res GroupingAggregator * GroupingAggregator :=
  match Grouping_CheckValid g, Grouping_CheckValid other, data_vector_ g with
  | Ok _, Ok _, Some data =>
      match Grouping_TakeOutputs address other with
      | Ok (output_tensors, consumed) =>
          (data ← match output_tensors with
                  | [output] =>
                      other_data_vector ← AsAggVector ops_dtype output;
                      data ← (if (length data <? length other_data_vector)%nat
                              then resize (Z.of_nat (length other_data_vector)) data else Ok data);
                      AggregateVector other_data_vector data
                  | [] => Ok data
                  | _ => Crash
                  end;
           Ok {| data_vector_ := Some data; num_inputs_ := wrap_int (num_inputs_ g + num_inputs_ other) |}, consumed)
      | Error c m => (Error c m, other)
      | Crash => (Crash, other)
      end
  | Error c m, _, _ => (Error c m, other)
  | Ok _, Error c m, _ => (Error c m, other)
  | _, _, _ => (Crash, other)
  end.
End grouping.

(** ** Derived classes that combine values one by one *)

(** [AggregateValue(o, v)] for the pairs of an ordinal and a value, with a check
    that there is a value for each ordinal. *)
Fixpoint aggregate_by_ordinals (combine : list Z → list Z → list Z) (ordinals : list Z)
    (values data : list (list Z)) : Res (list (list Z)) :=
  match ordinals, values with
  | [], _ => Ok data
  | o :: ordinals, v :: values =>
      if (0 <=? o) then
        match data !! Z.to_nat o with
        | Some d => aggregate_by_ordinals combine ordinals values (<[Z.to_nat o := combine d v]> data)
        | None => Crash
        end
      else Crash
  | _ :: _, [] => Crash
  end.

(** What a derived class promises: values are combined one by one into the data
    at their ordinals, or at their indices. *)
Class GroupingLaws (ops : GroupingOps) (combine : list Z → list Z → list Z) : Prop := {
  AggregateVectorByOrdinals_combine ordinals values data :
    AggregateVectorByOrdinals ordinals values data = aggregate_by_ordinals combine ordinals values data;
  AggregateVector_combine values data :
    AggregateVector values data =
      aggregate_by_ordinals combine (Z.of_nat <$> seq 0 (length values)) values data;
  combine_typed d v : typed ops_dtype d → typed ops_dtype v → typed ops_dtype (combine d v);
  default_typed : typed ops_dtype GetDefaultValue;
  ops_numeric : numeric ops_dtype
}.
