(* ===== verification/GroupingCorrect.v ===== *)
(** * Correctness of grouping

    A combiner of composite keys and a grouping aggregator over its ordinals
    implement the aggregation of values by key. *)

From S2P Require Import Prelude Bytes Tensor TensorCorrect KeyCombiner KeyCombinerCorrect.
From S2P Require Import Aggregators Grouping.

(** ** Combining by ordinals *)

(** The values with ordinal [k]. *)
Definition group (k : nat) (ordinals : list Z) (values : list (list Z)) : list (list Z) :=
  (filter (λ ov : Z * list Z, ov.1 = Z.of_nat k) (zip ordinals values)).*2.

Lemma aggregate_by_ordinals_ok combine ordinals : ∀ values data,
  length ordinals = length values → Forall (λ o, 0 ≤ o < Z.of_nat (length data)) ordinals →
  ∃ data', aggregate_by_ordinals combine ordinals values data = Ok data' ∧ length data' = length data ∧
    ∀ k d, data !! k = Some d → data' !! k = Some (foldl combine d (group k ordinals values)).
Proof.
  induction ordinals as [|o ordinals IH]; intros [|v values] data Hlen Ho; try done.
  { exists data. split_and!; done. }
  apply Forall_cons in Ho as [Hr Ho]. cbn [aggregate_by_ordinals]. rewrite (proj2 (Z.leb_le _ _)) by lia.
  destruct (lookup_lt_is_Some_2 data (Z.to_nat o) ltac:(lia)) as [d Hd]. rewrite Hd.
  destruct (IH values (<[Z.to_nat o := combine d v]> data)) as (data' & Ha & Hl & Hk).
  { simpl in Hlen. lia. }
  { by rewrite length_insert. }
  rewrite length_insert in Hl. exists data'. split_and!; try done. intros k x Hx. unfold group. cbn [zip zip_with].
  rewrite filter_cons. destruct (decide (o = Z.of_nat k)) as [->|Hne].
  - rewrite decide_True by done. rewrite fmap_cons. cbn [snd foldl]. rewrite Nat2Z.id in Hd, Hk. simplify_eq.
    apply Hk. by rewrite list_lookup_insert_eq by by eapply lookup_lt_Some.
  - rewrite decide_False by done. apply Hk. by rewrite list_lookup_insert_ne by lia.
Qed.

Lemma aggregate_by_ordinals_typed (P : list Z → Prop) combine ordinals : ∀ values data data',
  (∀ d v, P d → P v → P (combine d v)) → Forall P values → Forall P data →
  aggregate_by_ordinals combine ordinals values data = Ok data' → Forall P data'.
Proof.
  induction ordinals as [|o ordinals IH]; intros values data data' Hc Hv Hd H; [by injection H as <-|].
  destruct values as [|v values]; [done|]. cbn [aggregate_by_ordinals] in H. destruct (0 <=? o); [|done].
  destruct (data !! Z.to_nat o) as [d|] eqn:Hl; [|done]. apply Forall_cons in Hv as [Hv Hvs].
  eapply IH; [done|exact Hvs| |exact H]. apply Forall_insert; [done|]. apply Hc; [|done]. by eapply Forall_lookup_1.
Qed.

Lemma final_size_ok bound ordinals : ∀ size,
  0 ≤ size ≤ bound → bound < 2 ^ 63 → Forall (λ o, 0 ≤ o < bound) ordinals →
  let n := final_size ordinals size in
  size ≤ n ≤ bound ∧ Forall (λ o, o < n) ordinals ∧ (n = size ∨ ∃ o, o ∈ ordinals ∧ n = o + 1).
Proof.
  induction ordinals as [|o ordinals IH]; intros size Hs Hb Ho.
  { unfold final_size. simpl. split_and!; [lia|lia|done|by left]. }
  apply Forall_cons in Ho as [Hr Ho]. unfold final_size in *. cbn [foldl]. rewrite u64_small by lia.
  destruct (Z.leb_spec size o).
  - rewrite u64_small by lia. destruct (IH (o + 1) ltac:(lia) Hb Ho) as (Hn & Hall & Hor).
    split_and!; [lia|lia|constructor; [lia|done]|]. right.
    destruct Hor as [->|(o' & Hin & ->)]; [exists o|exists o']; (split; [|done]); [left|by right].
  - destruct (IH size Hs Hb Ho) as (Hn & Hall & Hor). split_and!; [lia|lia|constructor; [lia|done]|].
    destruct Hor as [->|(o' & Hin & ->)]; [by left|]. right. exists o'. split; [by right|done].
Qed.

(** ** Keys and values *)

(** The values that came with a key. *)
Definition values_of (key : list (list Z)) (history : list (list (list Z) * list Z)) : list (list Z) :=
  (filter (λ kv : list (list Z) * list Z, kv.1 = key) history).*2.

(** The keys in the order of their first occurrence. *)
Definition keys_of (history : list (list (list Z) * list Z)) : list (list (list Z)) :=
  foldl see [] history.*1.

Lemma elem_of_foldl_see x rows : ∀ seen, x ∈ foldl see seen rows ↔ x ∈ seen ∨ x ∈ rows.
Proof.
  induction rows as [|row rows IH]; intros seen; simpl; [rewrite elem_of_nil; tauto|].
  rewrite IH, elem_of_cons. unfold see. case_bool_decide; [|rewrite elem_of_app, list_elem_of_singleton; tauto].
  split; [tauto|]. intros [?|[->|?]]; tauto.
Qed.

Lemma values_of_app key h h' : values_of key (h ++ h') = values_of key h ++ values_of key h'.
Proof. unfold values_of. by rewrite filter_app, fmap_app. Qed.

Lemma values_of_new key h : key ∉ keys_of h → values_of key h = [].
Proof.
  intros Hn. unfold values_of. destruct (filter _ h) as [|kv rest] eqn:Hf; [done|]. destruct Hn.
  assert (Hin : kv ∈ filter (λ kv : list (list Z) * list Z, kv.1 = key) h) by (rewrite Hf; apply list_elem_of_here).
  apply list_elem_of_filter in Hin as [<- Hin]. apply elem_of_foldl_see. right. by apply list_elem_of_fmap_2.
Qed.

Lemma keys_of_zip h rows values :
  length rows = length values → keys_of (h ++ zip rows values) = foldl see (keys_of h) rows.
Proof. intros Hl. unfold keys_of. by rewrite fmap_app, fst_zip, foldl_app by lia. Qed.

(** Grouping by ordinals is grouping by keys. *)
Lemma group_values_of seen rows ordinals values k key :
  NoDup seen → Forall2 (λ row o, 0 ≤ o < 2 ^ 63 ∧ seen !! Z.to_nat o = Some row) rows ordinals →
  seen !! k = Some key → group k ordinals values = values_of key (zip rows values).
Proof.
  intros Hn Hall Hk. unfold group, values_of. revert values.
  induction Hall as [|row o rows ordinals [Ho Hrow] _ IH]; intros [|v values]; try done.
  cbn [zip zip_with]. rewrite !filter_cons. cbn [fst].
  destruct (decide (row = key)) as [->|Hne].
  - rewrite decide_True by (pose proof (NoDup_lookup _ _ _ _ Hn Hrow Hk); lia).
    rewrite !fmap_cons. by f_equal.
  - rewrite decide_False; [done|]. intros ->. rewrite Nat2Z.id in Hrow. congruence.
Qed.

(** The data grows to the number of keys. *)
Lemma final_size_keys seen rows ordinals :
  let seen' := foldl see seen rows in
  NoDup seen' → Z.of_nat (length seen') < 2 ^ 63 →
  Forall2 (λ row o, 0 ≤ o < 2 ^ 63 ∧ seen' !! Z.to_nat o = Some row) rows ordinals →
  Forall (λ o, 0 ≤ o < Z.of_nat (length seen')) ordinals ∧
  final_size ordinals (Z.of_nat (length seen)) = Z.of_nat (length seen').
Proof.
  intros seen' Hn Hlt Hall. pose proof (foldl_see_prefix rows seen) as [l Hl]. fold seen' in Hl.
  assert (Ho : Forall (λ o, 0 ≤ o < Z.of_nat (length seen')) ordinals).
  { apply Forall_lookup. intros i o Hi. destruct (Forall2_lookup_r _ _ _ _ _ Hall Hi) as (row & _ & Hr & Hs).
    apply lookup_lt_Some in Hs. lia. }
  split; [done|]. assert (Hle : (length seen ≤ length seen')%nat) by (rewrite Hl, length_app; lia).
  destruct (final_size_ok (Z.of_nat (length seen')) ordinals (Z.of_nat (length seen)) ltac:(lia) ltac:(lia) Ho)
    as (Hr & Hmax & _).
  destruct (decide (length seen = length seen')) as [He|He]; [lia|].
  assert (Hlast : (length seen' - 1 < length seen')%nat) by lia.
  apply lookup_lt_is_Some_2 in Hlast as [row Hrow]. assert (row ∈ seen') as Hin by by eapply list_elem_of_lookup_2.
  apply elem_of_foldl_see in Hin as [[i Hi]%list_elem_of_lookup|[i Hi]%list_elem_of_lookup].
  - assert (seen' !! i = Some row) as Hi' by (rewrite Hl; by apply lookup_app_l_Some).
    pose proof (NoDup_lookup _ _ _ _ Hn Hrow Hi'). apply lookup_lt_Some in Hi. lia.
  - destruct (Forall2_lookup_l _ _ _ _ _ Hall Hi) as (o & Hio & Hor & Hs).
    pose proof (NoDup_lookup _ _ _ _ Hn Hrow Hs) as Heq.
    assert (o < final_size ordinals (Z.of_nat (length seen))) by exact (Forall_lookup_1 _ _ _ _ Hmax Hio). lia.
Qed.

Section grouping.
Context {ops : GroupingOps} {combine : list Z → list Z → list Z} {HG : GroupingLaws ops combine}.

Lemma resize_grow n data :
  Z.of_nat (length data) ≤ n < 2 ^ 60 →
  resize n data = Ok (data ++ replicate (Z.to_nat n - length data) GetDefaultValue).
Proof using HG.
  intros Hn. unfold resize. rewrite numeric_size by apply ops_numeric. cbn [mbind Res_bind].
  pose proof (width_pos ops_dtype). rewrite (proj2 (Z.leb_gt _ _)) by nia. by rewrite take_ge by lia.
Qed.

(** Values are combined, in their order, into the data at their ordinals; the
    data grows with the largest ordinal. *)
Lemma Grouping_AggregateTensors_ok ot vt g data ordinals values bound :
  data_vector_ g = Some data → Forall (typed ops_dtype) data →
  dtype ot = DT_INT64 → dtype vt = ops_dtype → shape ot = shape vt → (length (shape vt) ≤ 1)%nat →
  AsAggVector DT_INT64 ot = Ok (le_bytes 8 <$> ordinals) → AsAggVector ops_dtype vt = Ok values →
  length ordinals = length values → Forall (typed ops_dtype) values →
  Z.of_nat (length data) ≤ bound < 2 ^ 60 → Forall (λ o, 0 ≤ o < bound) ordinals →
  let n := final_size ordinals (Z.of_nat (length data)) in
  ∃ data', Grouping_AggregateTensors [ot; vt] g =
      Ok {| data_vector_ := Some data'; num_inputs_ := wrap_int (num_inputs_ g + 1) |} ∧
    Z.of_nat (length data') = n ∧ Forall (typed ops_dtype) data' ∧
    ∀ k, (k < length data')%nat → data' !! k =
      Some (foldl combine (default GetDefaultValue (data !! k)) (group k ordinals values)).
Proof.
  intros Hg Ht Hod Hvd Hsh Hdim Hov Hvv Hlen Htv Hb Ho n.
  destruct (final_size_ok bound ordinals (Z.of_nat (length data)) ltac:(lia) ltac:(lia) Ho) as (Hn & Hall & _).
  fold n in Hn, Hall. unfold Grouping_AggregateTensors. rewrite !bool_decide_true by done. cbn [negb].
  rewrite bool_decide_false by lia. rewrite Hvv. cbn [mbind Res_bind]. rewrite Hov. cbn [mbind Res_bind]. rewrite Hg.
  assert (ordinal_value <$> (le_bytes 8 <$> ordinals) = ordinals) as ->.
  { rewrite <- list_fmap_compose. rewrite <- (list_fmap_id ordinals) at 2. apply list_fmap_ext. intros i o Hi.
    assert (0 ≤ o < bound) by exact (Forall_lookup_1 _ _ _ _ Ho Hi). unfold compose, ordinal_value, id. rewrite le_value_le_bytes.
    change (8 * Z.of_nat 8) with 64. rewrite Z.mod_small by lia. apply s64_small. lia. }
  rewrite resize_grow by (fold n; lia). fold n. cbn [mbind Res_bind]. rewrite AggregateVectorByOrdinals_combine.
  set (grown := data ++ replicate (Z.to_nat n - length data) GetDefaultValue).
  assert (Hgl : Z.of_nat (length grown) = n) by (unfold grown; rewrite length_app, length_replicate; lia).
  destruct (aggregate_by_ordinals_ok combine ordinals values grown Hlen) as (data' & Ha & Hl & Hk).
  { rewrite Hgl. apply Forall_and. split; [|done]. eapply Forall_impl; [exact Ho|]. simpl. lia. }
  exists data'. rewrite Ha. cbn [mbind Res_bind]. split_and!; [done|lia| |].
  - eapply aggregate_by_ordinals_typed; [|exact Htv| |exact Ha]; [apply combine_typed|].
    apply Forall_app. split; [done|]. apply Forall_replicate, default_typed.
  - intros k Hk'. apply Hk. unfold grown. destruct (data !! k) as [d|] eqn:Hd.
    + by apply lookup_app_l_Some.
    + apply lookup_ge_None in Hd. rewrite lookup_app_r by done. apply lookup_replicate. split; [done|lia].
Qed.

(** The combiner has seen the keys of the history, and the data at the ordinal of
    a key combines, from the default value on, the values that came with it. *)
Record grouped (c : Combiner) (g : GroupingAggregator) (history : list (list (list Z) * list Z)) : Prop := {
  grouped_keys : combiner_inv c (keys_of history);
  grouped_data : data_vector_ g =
    Some ((λ key, foldl combine GetDefaultValue (values_of key history)) <$> keys_of history);
  grouped_typed : Forall (λ kv, typed ops_dtype kv.2) history
}.

Lemma foldl_combine_typed d values :
  typed ops_dtype d → Forall (typed ops_dtype) values → typed ops_dtype (foldl combine d values).
Proof using HG.
  intros Hd Hv. revert d Hd. induction Hv as [|v values Hv _ IH]; intros d Hd; [done|]. simpl. by apply IH, combine_typed.
Qed.

Lemma grouped_values c g history :
  grouped c g history → Forall (typed ops_dtype)
    ((λ key, foldl combine GetDefaultValue (values_of key history)) <$> keys_of history).
Proof using HG.
  intros [_ _ Ht]. apply Forall_fmap, Forall_true. intros key. apply foldl_combine_typed; [apply default_typed|].
  unfold values_of. apply Forall_fmap, Forall_forall. intros kv [_ Hin]%list_elem_of_filter.
  exact (proj1 (Forall_forall _ _) Ht kv Hin).
Qed.
End grouping.

(** ** Properties *)

Section properties.
Context {A : Allocator} {HA : AllocatorLaws A}.
Context {ops : GroupingOps} {combine : list Z → list Z → list Z} {HG : GroupingLaws ops combine}.

(** C8: aggregation by composite key: accumulating tensors of keys in the combiner
    and then its ordinals with a tensor of values in a grouping aggregator
    succeeds, and extends the history by a pair of a key and a value for each
    index: the combiner has the keys of the history, each once, and the data at
    the ordinal of a key combines exactly the values that came with this key, in
    their order. The tensors have less than 2 ^ 31 elements, and the aggregator
    has taken less than 2 ^ 31 - 1 inputs, so that the [int] counters of the two
    loops and of the inputs do not overflow. *)
Theorem group_by_accumulate address out c g history tensors sh columns vt values :
  grouped (combine := combine) c g history →
  CheckValidAndGetShape c tensors = Ok sh → (length sh ≤ 1)%nat →
  Forall (λ t, Tensor.CheckValid t = Ok ()) (vt :: tensors) → NumElements sh < 2 ^ 31 →
  mapM (λ t, AsAggVector (dtype t) t) tensors = Ok columns →
  Forall (λ column : list (list Z), Z.of_nat (length column) < 2 ^ 60) (values :: columns) →
  dtype vt = ops_dtype → shape vt = sh → AsAggVector ops_dtype vt = Ok values →
  (Z.of_nat (length (keys_of history)) + NumElements sh) * Z.of_nat (length tensors) < 2 ^ 59 →
  address mod 16 = 0 → 0 ≤ num_inputs_ g < 2 ^ 31 - 1 →
  let rows := rows_of columns (seq 0 (Z.to_nat (NumElements sh))) in
  ∃ ordinals c' g', KeyCombiner.Accumulate address tensors c = Ok (ordinals, c') ∧
    Aggregators.Accumulate (H := Grouping_aggregator out) [ordinals; vt] g = Ok g' ∧
    grouped (combine := combine) c' g' (history ++ zip rows values) ∧ num_inputs_ g' = num_inputs_ g + 1.
Proof.
  intros Hg Hcheck Hdim [Hvt Hv]%Forall_cons Hnum Hm [Hvl Hcl]%Forall_cons Hvd Hvs Hva Hmem Haddr Hcount rows.
  pose proof Hg as [Hc Hd Ht]. pose proof (NumElements_range sh) as Hnn.
  assert (Hne : tensors ≠ []) by by eapply CheckValidAndGetShape_ok.
  destruct (Accumulate_ordinals address c _ tensors sh columns Hc Hcheck Hv ltac:(lia) Hm Hcl Hmem Haddr) as
    (ot & c' & ordinals & Ha & Hc' & Hpre & Hn & Hod & Hos & Hoa & Hall). fold rows in Hc', Hpre, Hn, Hall.
  destruct (valid_values vt values Hvt) as (Hvn & _ & Hvtyped); rewrite ?Hvd, ?Hvs; try done; try lia.
  rewrite Hvs in Hvn. rewrite Hvd in Hvtyped.
  assert (Hrl : length rows = length values) by (unfold rows, rows_of; rewrite length_fmap, length_seq; lia).
  pose proof (Forall2_length _ _ _ Hall) as Hol. set (seen := keys_of history) in *.
  assert (Hsmall : Z.of_nat (length (foldl see seen rows)) < 2 ^ 59).
  { pose proof (length_foldl_see rows seen). destruct tensors; [done|]. cbn [length] in Hmem. nia. }
  destruct (final_size_keys seen rows ordinals Hn ltac:(lia) Hall) as [Hrange Hfs].
  set (old := (λ key, foldl combine GetDefaultValue (values_of key history)) <$> seen) in *.
  assert (Holdlen : length old = length seen) by apply length_fmap.
  destruct (Grouping_AggregateTensors_ok (HG := HG) ot vt g old ordinals values (Z.of_nat (length (foldl see seen rows))))
    as (data' & Hagg & Hdl & _ & Hk); try done; try congruence.
  { by eapply grouped_values. }
  { rewrite Holdlen. pose proof (prefix_length _ _ Hpre). lia. }
  rewrite Holdlen, Hfs in Hdl. eexists ot, c', _. split; [exact Ha|].
  split; [unfold Aggregators.Accumulate; cbn [Aggregators.CheckValid Grouping_aggregator]; unfold Grouping_CheckValid;
    rewrite Hd; exact Hagg|]. split; [|cbn [num_inputs_]; apply wrap_int_small; lia].
  split; [by rewrite keys_of_zip by done| |].
  - cbn [data_vector_]. f_equal. apply list_eq. intros k. rewrite keys_of_zip, list_lookup_fmap by done. fold seen.
    destruct (foldl see seen rows !! k) as [key|] eqn:Hkey; cycle 1.
    { apply lookup_ge_None. apply lookup_ge_None in Hkey. lia. }
    rewrite Hk by (apply lookup_lt_Some in Hkey; lia). cbn [fmap option_fmap option_map]. f_equal.
    rewrite values_of_app, foldl_app. rewrite <- (group_values_of _ rows ordinals values k key Hn Hall Hkey). f_equal.
    unfold old. rewrite list_lookup_fmap. destruct (seen !! k) as [key'|] eqn:Hsk; cbn.
    + assert (foldl see seen rows !! k = Some key') by (eapply prefix_lookup_Some; [exact Hsk|done]). congruence.
    + rewrite values_of_new; [done|]. intros [i Hi]%list_elem_of_lookup. fold seen in Hi.
      assert (foldl see seen rows !! i = Some key) as Hi' by (eapply prefix_lookup_Some; [exact Hi|done]).
      pose proof (NoDup_lookup _ _ _ _ Hn Hkey Hi') as ->. congruence.
  - apply Forall_app. split; [done|]. apply Forall_lookup. intros i [key v] (x & y & Heq & Hx & Hy)%lookup_zip_with_Some.
    simplify_eq. exact (Forall_lookup_1 _ _ _ _ Hvtyped Hy).
Qed.

(** The report of an aggregation by key, once something was accumulated: the
    combiner gives the tensors of the keys, each key once, the grouping
    aggregator one tensor whose value at the index of each key combines all
    values that came with the key; after that the aggregator refuses all
    operations. *)
Lemma group_by_report addresses out c g history :
  grouped (combine := combine) c g history → history ≠ [] →
  Z.of_nat (length (keys_of history)) < 2 ^ 60 → (∀ j, addresses j mod 16 = 0) → out mod 16 = 0 →
  ∃ keys t g', GetOutputKeys addresses c = Ok keys ∧ length keys = length (dtypes_ c) ∧
    (∀ j column, keys !! j = Some column → dtypes_ c !! j = Some (dtype column) ∧
      AsAggVector (dtype column) column = Ok ((λ key : list (list Z), key !!! j) <$> keys_of history)) ∧
    Report (H := Grouping_aggregator out) g = Ok ([t], g') ∧ dtype t = ops_dtype ∧
    AsAggVector ops_dtype t =
      Ok ((λ key, foldl combine GetDefaultValue (values_of key history)) <$> keys_of history) ∧
    CanReport (H := Grouping_aggregator out) g' = Ok false ∧
    (∀ tensors, ∃ m, Aggregators.Accumulate (H := Grouping_aggregator out) tensors g' = Error FAILED_PRECONDITION m).
Proof.
  intros Hg Hne Hlen Haddr Hout. pose proof Hg as [Hc Hd _].
  assert (Hk : keys_of history ≠ []).
  { destruct history as [|[key v] history]; [done|]. intros Hk.
    assert (key ∈ keys_of ((key, v) :: history)) as Hin by (apply elem_of_foldl_see; right; left).
    rewrite Hk in Hin. by apply elem_of_nil in Hin. }
  destruct (proj2 (GetOutputKeys_columns addresses c _ Hc Hlen Haddr) Hk) as (keys & Ho & Hl & Hcols).
  set (data := (λ key, foldl combine GetDefaultValue (values_of key history)) <$> keys_of history) in *.
  assert (Hdl : length data = length (keys_of history)) by apply length_fmap.
  assert (Hpos : (0 < length data)%nat) by (rewrite Hdl; destruct (keys_of history); [done|simpl; lia]).
  assert (Hnum : NumElements [Z.of_nat (length data)] = Z.of_nat (length data)).
  { unfold NumElements. simpl. by rewrite Z.mul_1_l, u64_small by lia. }
  destruct (Create_numeric ops_dtype [Z.of_nat (length data)] out data) as (Hcr & _ & Hval);
    rewrite ?Hnum; try done; try lia; [apply (ops_numeric (combine := combine))|by eapply grouped_values|].
  eexists keys, _, {| data_vector_ := None; num_inputs_ := num_inputs_ g |}.
  split; [done|]. split; [done|]. split.
  { intros j column Hj. destruct (Hcols j column Hj) as (? & _ & _ & ?). done. }
  unfold Report, CanReport, Aggregators.Accumulate. cbn [Aggregators.CheckValid Aggregators.TakeOutputs Grouping_aggregator].
  unfold Grouping_CheckValid, Grouping_TakeOutputs. rewrite Hd. cbn [mbind Res_bind negb data_vector_].
  
  assert (Hm : ∀ X Y : Res (list Tensor * GroupingAggregator), match data with [] => X | _ :: _ => Y end = Y).
  { intros X Y. clear -Hpos. destruct data; [simpl in Hpos; lia|done]. }
  rewrite Hm, Hcr. split; [done|]. split_and!; [done|done|done|].
  intros tensors. by eexists.
Qed.
End properties.

(** ** Sums by key *)

(** Adds the values of a numeric type. *)
#[export] Instance SumGrouping : GroupingOps := {|
  ops_dtype := DT_INT32;
  AggregateVectorByOrdinals := aggregate_by_ordinals (add_values DT_INT32);
  AggregateVector values := aggregate_by_ordinals (add_values DT_INT32) (Z.of_nat <$> seq 0 (length values)) values;
  GetDefaultValue := [0; 0; 0; 0]
|}.

#[export] Instance SumGrouping_laws : GroupingLaws SumGrouping (add_values DT_INT32).
Proof. by split. Qed.

(** Values of the indices of [example_tensors]. *)
Definition example_values : Tensor :=
  {| dtype := DT_INT32; shape := [3];
     data_ := Some {| data_address := 16384; storage := NumericBuffer [5; 0; 0; 0; 6; 0; 0; 0; 7; 1; 0; 0] |} |}.

Definition new_grouping : GroupingAggregator := {| data_vector_ := Some []; num_inputs_ := 0 |}.

Lemma new_grouped : grouped (combine := add_values DT_INT32) example_combiner new_grouping [].
Proof. split; [exact example_combiner_inv|done|constructor]. Qed.

Lemma group_by_accumulate_witness :
  ∃ ordinals c' g', KeyCombiner.Accumulate 64 example_tensors example_combiner = Ok (ordinals, c') ∧
    Aggregators.Accumulate (H := Grouping_aggregator 128) [ordinals; example_values] new_grouping = Ok g' ∧
    grouped (combine := add_values DT_INT32) c' g'
      [([[97]; [1; 0; 0; 0]], [5; 0; 0; 0]); ([[98]; [1; 0; 0; 0]], [6; 0; 0; 0]);
       ([[97]; [1; 0; 0; 0]], [7; 1; 0; 0])].
Proof.
  destruct (group_by_accumulate 64 128 example_combiner new_grouping [] example_tensors [3]
    [[[97]; [98]; [97]]; [[1; 0; 0; 0]; [1; 0; 0; 0]; [1; 0; 0; 0]]]
    example_values [[5; 0; 0; 0]; [6; 0; 0; 0]; [7; 1; 0; 0]]) as (ot & c' & g' & Ha & Hg & Hh & _).
  - exact new_grouped.
  - reflexivity.
  - simpl. lia.
  - repeat constructor.
  - reflexivity.
  - reflexivity.
  - repeat constructor.
  - reflexivity.
  - reflexivity.
  - reflexivity.
  - reflexivity.
  - reflexivity.
  - split; [discriminate|reflexivity].
  - exists ot, c', g'. split; [exact Ha|]. split; [exact Hg|exact Hh].
Defined.

(** A combiner that has seen one key, twice, with the values 5 and 263. *)
Definition one_key_combiner : Combiner :=
  {| dtypes_ := [DT_INT32]; key_vec_ := [[1; 0; 0; 0; 0; 0; 0; 0]]; intern_pool_ := ∅;
     composite_keys_ := {[ [1; 0; 0; 0; 0; 0; 0; 0] := 0 ]}; composite_key_next_ := 1 |}.

Lemma one_key_grouped :
  grouped (combine := add_values DT_INT32) one_key_combiner
    {| data_vector_ := Some [[12; 1; 0; 0]]; num_inputs_ := 2 |}
    [([[1; 0; 0; 0]], [5; 0; 0; 0]); ([[1; 0; 0; 0]], [7; 1; 0; 0])].
Proof.
  split; [|vm_compute; reflexivity|repeat constructor].
  destruct (accumulate_row_ok {| dtypes_ := [DT_INT32]; key_vec_ := []; intern_pool_ := ∅; composite_keys_ := ∅;
     composite_key_next_ := 0 |} [] [[1; 0; 0; 0]]) as (o & c & Ha & Hc & _).
  - by apply (new_CompositeKeyCombiner_inv [DT_INT32]).
  - repeat constructor.
  - reflexivity.
  - vm_compute in Ha. injection Ha as _ <-. exact Hc.
Qed.

Lemma group_by_report_witness :
  ∃ keys t g', GetOutputKeys (λ _, 64) one_key_combiner = Ok keys ∧ length keys = 1%nat ∧
    Report (H := Grouping_aggregator 128) {| data_vector_ := Some [[12; 1; 0; 0]]; num_inputs_ := 2 |} = Ok ([t], g') ∧
    AsAggVector DT_INT32 t = Ok [[12; 1; 0; 0]].
Proof.
  destruct (group_by_report (λ _, 64) 128 one_key_combiner {| data_vector_ := Some [[12; 1; 0; 0]]; num_inputs_ := 2 |}
    [([[1; 0; 0; 0]], [5; 0; 0; 0]); ([[1; 0; 0; 0]], [7; 1; 0; 0])])
    as (keys & t & g' & Hk & Hl & _ & Hr & _ & Hv & _).
  - exact one_key_grouped.
  - discriminate.
  - reflexivity.
  - reflexivity.
  - reflexivity.
  - exists keys, t, g'. split; [exact Hk|]. split; [exact Hl|]. split; [exact Hr|exact Hv].
Defined.
