(* ===== verification/SimpleAggregation.v ===== *)
(** * The simple aggregation protocol:
      [aggregation/protocol/simple_aggregation/simple_aggregation_protocol.{h,cc}]

    The protocol is a shared object whose methods run concurrently. A method is
    cut where it holds no mutex: [ReceiveClientMessage] into the part that
    verifies the state, the aggregation and the update of the state, and every
    method that calls back after it released [state_mu_] into its state change
    and its callbacks. [System] is the object with the calls that are under way,
    and [run] performs one part of one method. [Complete] creates the report
    while it holds [state_mu_]; an aggregation between the two finds
    [aggregation_finished_] set and does nothing, so it is one part. *)

From S2P Require Import Prelude Bytes Tensor Aggregators.

Inductive ProtocolState := PROTOCOL_CREATED | PROTOCOL_STARTED | PROTOCOL_COMPLETED | PROTOCOL_ABORTED.
Inductive ClientState :=
  | CLIENT_PENDING | CLIENT_RECEIVED_INPUT_AND_PENDING | CLIENT_COMPLETED | CLIENT_FAILED
  | CLIENT_ABORTED | CLIENT_DISCARDED.

#[export] Instance ProtocolState_eq_dec : EqDecision ProtocolState.
Proof. solve_decision. Defined.
#[export] Instance ClientState_eq_dec : EqDecision ClientState.
Proof. solve_decision. Defined.

(** The unsigned counters. *)
Record Counters := {
  num_clients_received_and_pending_ : Z;
  num_clients_aggregated_ : Z;
  num_clients_failed_ : Z;
  num_clients_aborted_ : Z;
  num_clients_discarded_ : Z
}.

(** An intrinsic always has an aggregator: no operation takes it away. *)
Record Intrinsic (A : Type) := { input : TensorSpec; output : TensorSpec; aggregator : A }.
Arguments input {A} _.
Arguments output {A} _.
Arguments aggregator {A} _.

Record Protocol (A : Type) := {
  protocol_state_ : ProtocolState;
  client_states_ : list ClientState;
  counters : Counters;
  aggregation_finished_ : bool;
  intrinsics_ : list (Intrinsic A)
}.
Arguments protocol_state_ {A} _.
Arguments client_states_ {A} _.
Arguments counters {A} _.
Arguments aggregation_finished_ {A} _.
Arguments intrinsics_ {A} _.

Inductive Event :=
  | OnAcceptClients (start_index num_clients : Z)
  | OnCloseClient (client_id : Z) (status : Res unit)
  | OnComplete (result : list Z).

Inductive Input := InlineBytes (bytes : list Z) | Uri (uri : string) | OtherInput.

(** What a message has. *)
Inductive ClientMessage := OtherMessage | SimpleAggregationMessage (input : option Input).

Abbreviation TensorMap := (gmap string Tensor).

(** Parsers and builders of checkpoints. *)
Class Checkpoints := {
  Parser : Type;
  ParserFactory_Create : list Z → Res Parser;
  GetTensor : string → Parser → Res Tensor;
  Builder : Type;
  BuilderFactory_Create : Builder;
  Builder_Add : string → Tensor → Builder → Res Builder;
  Build : Builder → Res (list Z)
}.

(** ** Configuration *)

(** The [TensorSpecProto] of TensorFlow, with the code of the type. *)
Record TensorSpecProto := { tf_name : string; tf_dtype : Z; tf_shape : list Z; tf_unknown_rank : bool }.

Definition ConvertDataType (dtype : Z) : Res DataType :=
  match dtype with
  | 1 => Ok DT_FLOAT
  | 2 => Ok DT_DOUBLE
  | 3 => Ok DT_INT32
  | 9 => Ok DT_INT64
  | 7 => Ok DT_STRING
  | _ => Error INVALID_ARGUMENT "Unsupported tf::DataType"
  end.

(** [None] stands for [tf::TensorShape::BuildTensorShape] failing. *)
Class TfShapes := { BuildTensorShape : TensorSpecProto → option (list Z) }.

Definition ConvertShape (dim_sizes : list Z) : Res TensorShape :=
  FCP_CHECK forallb (λ d, 0 <=? d) dim_sizes ;; Ok (u64 <$> dim_sizes).

Definition ConvertTensorSpec `{TfShapes} (spec : TensorSpecProto) : Res TensorSpec :=
  dtype ← ConvertDataType (tf_dtype spec);
  match BuildTensorShape spec with
  | None => Error INVALID_ARGUMENT "Unsupported tf::TensorShape"
  | Some tf_shape =>
      shape ← ConvertShape tf_shape;
      Ok {| spec_name := tf_name spec; spec_dtype := dtype; spec_shape := shape |}
  end.

(** A tensor of TensorFlow: its data as one block, or its strings. *)
Record TfTensor := {
  tf_tensor_dtype : Z; tf_tensor_shape : list Z; tensor_address : Z; tensor_data : list Z; flat_strings : list (list Z)
}.

Definition ConvertTensorData (dtype : DataType) (tensor : TfTensor) : Res TensorData :=
  match dtype with
  | DT_INVALID => Crash
  | DT_STRING => Ok {| data_address := tensor_address tensor; storage := VectorStrings (flat_strings tensor) |}
  | _ => Ok {| data_address := tensor_address tensor; storage := NumericBuffer (tensor_data tensor) |}
  end.

Definition ConvertTensor (tensor : TfTensor) : Res Tensor :=
  dtype ← ConvertDataType (tf_tensor_dtype tensor);
  shape ← ConvertShape (tf_tensor_shape tensor);
  data ← ConvertTensorData dtype tensor;
  Tensor.Create dtype shape data.

(** An intrinsic argument is an input tensor or something else. *)
Record ServerAggregationConfig := {
  intrinsic_uri : string;
  intrinsic_args : list (option TensorSpecProto);
  output_tensors : list TensorSpecProto
}.

Section configuration.
Context {A : Type} `{TfShapes}.

Definition CreateIntrinsic (registry : Registry A) (config : ServerAggregationConfig) : Res (Intrinsic A) :=
  factory ← GetAggregatorFactory (intrinsic_uri config) registry;
  match intrinsic_args config, output_tensors config with
  | Some arg :: _, out :: _ =>
      input_spec ← ConvertTensorSpec arg;
      output_spec ← ConvertTensorSpec out;
      if negb (bool_decide (spec_dtype input_spec = spec_dtype output_spec)) ||
         negb (bool_decide (spec_shape input_spec = spec_shape output_spec)) then
        Error INVALID_ARGUMENT "Input and output tensors have mismatched specs."
      else
        aggregator ← factory (spec_dtype input_spec) (spec_shape input_spec);
        Ok {| input := input_spec; output := output_spec; aggregator := aggregator |}
  | _, _ => Crash
  end.

Fixpoint ValidateConfig (registry : Registry A) (configs : list ServerAggregationConfig) : Res unit :=
  match configs with
  | [] => Ok ()
  | config :: configs =>
      match GetAggregatorFactory (intrinsic_uri config) registry with
      | Ok _ =>
          if negb (length (intrinsic_args config) =? 1)%nat then
            Error INVALID_ARGUMENT "Exactly one intrinsic argument is expected."
          else if negb (length (output_tensors config) =? 1)%nat then
            Error INVALID_ARGUMENT "Exactly one output tensor is expected."
          else match intrinsic_args config with
          | Some _ :: _ => ValidateConfig registry configs
          | _ => Error INVALID_ARGUMENT "Intrinsic arguments must be input tensors."
          end
      | _ => Error INVALID_ARGUMENT "is not a supported intrinsic_uri."
      end
  end.

Definition no_clients : Counters :=
  {| num_clients_received_and_pending_ := 0; num_clients_aggregated_ := 0; num_clients_failed_ := 0;
     num_clients_aborted_ := 0; num_clients_discarded_ := 0 |}.

(** The pointers to the environment are not null. *)
Definition Create (registry : Registry A) (configs : list ServerAggregationConfig) : Res (Protocol A) :=
  _ ← ValidateConfig registry configs;
  intrinsics ← mapM (CreateIntrinsic registry) configs;
  Ok {| protocol_state_ := PROTOCOL_CREATED; client_states_ := []; counters := no_clients;
        aggregation_finished_ := false; intrinsics_ := intrinsics |}.
End configuration.

(** ** The state *)

Section protocol.
Context `{TensorAggregator A}.

Definition CheckProtocolState (state : ProtocolState) (p : Protocol A) : Res unit :=
  if bool_decide (protocol_state_ p = state) then Ok ()
  else Error FAILED_PRECONDITION "The current protocol state is not the expected one.".

Definition SetProtocolState (state : ProtocolState) (p : Protocol A) : Res (Protocol A) :=
  FCP_CHECK match protocol_state_ p, state with
            | PROTOCOL_CREATED, PROTOCOL_STARTED => true
            | PROTOCOL_STARTED, (PROTOCOL_COMPLETED | PROTOCOL_ABORTED) => true
            | _, _ => false
            end ;;
  Ok {| protocol_state_ := state; client_states_ := client_states_ p; counters := counters p;
        aggregation_finished_ := aggregation_finished_ p; intrinsics_ := intrinsics_ p |}.

Definition GetClientState (client_id : Z) (p : Protocol A) : Res ClientState :=
  if (client_id <? 0) || (Z.of_nat (length (client_states_ p)) <=? client_id) then
    Error INVALID_ARGUMENT "client_id is outside the valid range"
  else match client_states_ p !! Z.to_nat client_id with Some state => Ok state | None => Crash end.

(** Adds to the counter of a state. *)
Definition add_to (state : ClientState) (d : Z) (k : Counters) : Counters :=
  let pick s n := if bool_decide (state = s) then u64 (n + d) else n in
  {| num_clients_received_and_pending_ :=
       pick CLIENT_RECEIVED_INPUT_AND_PENDING (num_clients_received_and_pending_ k);
     num_clients_aggregated_ := pick CLIENT_COMPLETED (num_clients_aggregated_ k);
     num_clients_failed_ := pick CLIENT_FAILED (num_clients_failed_ k);
     num_clients_aborted_ := pick CLIENT_ABORTED (num_clients_aborted_ k);
     num_clients_discarded_ := pick CLIENT_DISCARDED (num_clients_discarded_ k) |}.

Definition with_clients (states : list ClientState) (k : Counters) (p : Protocol A) : Protocol A :=
  {| protocol_state_ := protocol_state_ p; client_states_ := states; counters := k;
     aggregation_finished_ := aggregation_finished_ p; intrinsics_ := intrinsics_ p |}.

Definition SetClientState (client_id : Z) (to_state : ClientState) (p : Protocol A) : Res (Protocol A) :=
  FCP_CHECK (0 <=? client_id) && (client_id <? Z.of_nat (length (client_states_ p))) ;;
  match client_states_ p !! Z.to_nat client_id with
  | None => Crash
  | Some from_state =>
      FCP_CHECK negb (bool_decide (from_state = to_state)) ;;
      k ← match from_state with
          | CLIENT_RECEIVED_INPUT_AND_PENDING => Ok (add_to CLIENT_RECEIVED_INPUT_AND_PENDING (-1) (counters p))
          | CLIENT_COMPLETED =>
              FCP_CHECK bool_decide (to_state = CLIENT_DISCARDED) ;;
              Ok (add_to CLIENT_COMPLETED (-1) (counters p))
          | _ => FCP_CHECK bool_decide (from_state = CLIENT_PENDING) ;; Ok (counters p)
          end;
      k ← match to_state with CLIENT_PENDING => Crash | _ => Ok (add_to to_state 1 k) end;
      Ok (with_clients (<[Z.to_nat client_id := to_state]> (client_states_ p)) k p)
  end.

(** [client_states_.resize], which throws above the largest size of a vector. *)
Definition resize_clients (size : Z) (p : Protocol A) : Res (Protocol A) :=
  if 2 ^ 63 <=? size then Crash
  else Ok (with_clients (client_states_ p ++
             replicate (Z.to_nat size - length (client_states_ p)) CLIENT_PENDING) (counters p) p).

(** ** Aggregation *)

Context `{Checkpoints}.

Fixpoint get_tensors (parser : Parser) (intrinsics : list (Intrinsic A)) (tensor_map : TensorMap) : Res TensorMap :=
  match intrinsics with
  | [] => Ok tensor_map
  | intrinsic :: intrinsics =>
      tensor ← GetTensor (spec_name (input intrinsic)) parser;
      if negb (bool_decide (dtype tensor = spec_dtype (input intrinsic))) ||
         negb (bool_decide (shape tensor = spec_shape (input intrinsic))) then
        Error INVALID_ARGUMENT "Input tensor spec mismatch."
      else
        get_tensors parser intrinsics
          (match tensor_map !! spec_name (input intrinsic) with
           | Some _ => tensor_map                                    (** [emplace] keeps the first *)
           | None => <[spec_name (input intrinsic) := tensor]> tensor_map
           end)
  end.

Definition ParseCheckpoint (report : list Z) (p : Protocol A) : Res TensorMap :=
  parser ← ParserFactory_Create report; get_tensors parser (intrinsics_ p) ∅.

(** The loop over the intrinsics, with the aggregators after it. *)
Fixpoint accumulate_each (tensor_map : TensorMap) (intrinsics : list (Intrinsic A)) : Res unit * list (Intrinsic A) :=
  match intrinsics with
  | [] => (Ok (), [])
  | intrinsic :: rest =>
      match tensor_map !! spec_name (input intrinsic) with
      | None => (Crash, intrinsics)
      | Some tensor =>
          match Accumulate [tensor] (aggregator intrinsic) with
          | Ok a =>
              let '(status, rest) := accumulate_each tensor_map rest in
              (status, {| input := input intrinsic; output := output intrinsic; aggregator := a |} :: rest)
          | Error c m => (Error c m, intrinsics)
          | Crash => (Crash, intrinsics)
          end
      end
  end.

Definition with_intrinsics (intrinsics : list (Intrinsic A)) (p : Protocol A) : Protocol A :=
  {| protocol_state_ := protocol_state_ p; client_states_ := client_states_ p; counters := counters p;
     aggregation_finished_ := aggregation_finished_ p; intrinsics_ := intrinsics |}.

Definition AggregateClientInput (tensor_map : TensorMap) (p : Protocol A) : Res unit * Protocol A :=
  if negb (aggregation_finished_ p) then
    let '(status, intrinsics) := accumulate_each tensor_map (intrinsics_ p) in
    (status, with_intrinsics intrinsics p)
  else (Ok (), p).

Fixpoint can_report_all (intrinsics : list (Intrinsic A)) : Res unit :=
  match intrinsics with
  | [] => Ok ()
  | intrinsic :: intrinsics =>
      can_report ← CanReport (aggregator intrinsic);
      if negb can_report then
        Error FAILED_PRECONDITION "The aggregation can't be completed due to failed preconditions."
      else can_report_all intrinsics
  end.

Fixpoint report_each (builder : Builder) (intrinsics : list (Intrinsic A)) : Res Builder * list (Intrinsic A) :=
  match intrinsics with
  | [] => (Ok builder, [])
  | intrinsic :: rest =>
      match Report (aggregator intrinsic) with
      | Ok (output_tensors, a) =>
          let reported := {| input := input intrinsic; output := output intrinsic; aggregator := a |} in
          match output_tensors with
          | [tensor] =>
              if bool_decide (dtype tensor = spec_dtype (output intrinsic)) &&
                 bool_decide (shape tensor = spec_shape (output intrinsic)) then
                match Builder_Add (spec_name (output intrinsic)) tensor builder with
                | Ok builder =>
                    let '(result, rest) := report_each builder rest in (result, reported :: rest)
                | Error c m => (Error c m, reported :: rest)
                | Crash => (Crash, reported :: rest)
                end
              else (Crash, reported :: rest)
          | _ => (Crash, reported :: rest)
          end
      | Error c m => (Error c m, intrinsics)
      | Crash => (Crash, intrinsics)
      end
  end.

Definition finish (p : Protocol A) : Protocol A :=
  {| protocol_state_ := protocol_state_ p; client_states_ := client_states_ p; counters := counters p;
     aggregation_finished_ := true; intrinsics_ := intrinsics_ p |}.

Definition CreateReport (p : Protocol A) : Res (list Z) * Protocol A :=
  match can_report_all (intrinsics_ p) with
  | Ok _ =>
      let '(builder, intrinsics) := report_each BuilderFactory_Create (intrinsics_ p) in
      match builder with
      | Ok builder => (Build builder, finish (with_intrinsics intrinsics p))
      | Error c m => (Error c m, with_intrinsics intrinsics p)
      | Crash => (Crash, p)
      end
  | Error c m => (Error c m, p)
  | Crash => (Crash, p)
  end.

(** ** Methods *)

(** The state change and the callbacks that follow it. *)
Definition Start (num_clients : Z) (p : Protocol A) : Res (Protocol A * list Event) :=
  if num_clients <? 0 then Error INVALID_ARGUMENT "Number of clients cannot be negative."
  else
    _ ← CheckProtocolState PROTOCOL_CREATED p;
    p ← SetProtocolState PROTOCOL_STARTED p;
    FCP_CHECK bool_decide (client_states_ p = []) ;;
    p ← resize_clients num_clients p;
    Ok (p, if 0 <? num_clients then [OnAcceptClients 0 num_clients] else []).

Definition AddClients (num_clients : Z) (p : Protocol A) : Res (Protocol A * list Event) :=
  _ ← CheckProtocolState PROTOCOL_STARTED p;
  if num_clients <=? 0 then Error INVALID_ARGUMENT "Non-zero number of clients required"
  else
    let start_index := Z.of_nat (length (client_states_ p)) in
    p ← resize_clients (start_index + num_clients) p;
    Ok (p, [OnAcceptClients start_index num_clients]).

(** The first part of [ReceiveClientMessage]: the input, unless the message is
    ignored. *)
Definition ReceiveClientMessage_verify (client_id : Z) (message : ClientMessage) (p : Protocol A) :
    Res (Protocol A * option Input) :=
  match message with
  | OtherMessage | SimpleAggregationMessage None => Error INVALID_ARGUMENT "Unexpected message"
  | SimpleAggregationMessage (Some OtherInput) =>
      Error INVALID_ARGUMENT "Only inline_bytes or uri type of input is supported"
  | SimpleAggregationMessage (Some input) =>
      if bool_decide (protocol_state_ p = PROTOCOL_CREATED) then
        Error FAILED_PRECONDITION "The protocol hasn't been started"
      else
        client_state ← GetClientState client_id p;
        if negb (bool_decide (client_state = CLIENT_PENDING)) then Ok (p, None)
        else p ← SetClientState client_id CLIENT_RECEIVED_INPUT_AND_PENDING p; Ok (p, Some input)
  end.

(** The second part: the state and the status to close the client with.
    [RetrieveResource] is the resolver's answer. *)
Definition ReceiveClientMessage_aggregate (RetrieveResource : Z → string → Res (list Z)) (client_id : Z)
    (input : Input) (p : Protocol A) : Res (Protocol A * (ClientState * Res unit)) :=
  match match input with
        | InlineBytes bytes => Ok bytes
        | Uri uri => RetrieveResource client_id uri
        | OtherInput => Crash
        end with
  | Crash => Crash
  | Error c m => Ok (p, (CLIENT_FAILED, Error c m))
  | Ok report =>
      match ParseCheckpoint report p with
      | Crash => Crash
      | Error c m => Ok (p, (CLIENT_FAILED, Error c m))
      | Ok tensor_map =>
          let '(status, p) := AggregateClientInput tensor_map p in
          match status with
          | Ok _ => Ok (p, (CLIENT_COMPLETED, Ok ()))
          | Error c m => Ok (p, (CLIENT_DISCARDED, Error c m))
          | Crash => Crash
          end
      end
  end.

(** The last part; its callback happens with the mutex held. *)
Definition ReceiveClientMessage_update (client_id : Z) (state : ClientState) (status : Res unit) (p : Protocol A) :
    Res (Protocol A * list Event) :=
  match client_states_ p !! Z.to_nat client_id with
  | Some CLIENT_RECEIVED_INPUT_AND_PENDING =>
      p ← SetClientState client_id state p; Ok (p, [OnCloseClient client_id status])
  | Some _ => Ok (p, [])
  | None => Crash
  end.

Definition CloseClient (client_id : Z) (client_status : Res unit) (p : Protocol A) : Res (Protocol A) :=
  if bool_decide (protocol_state_ p = PROTOCOL_CREATED) then
    Error FAILED_PRECONDITION "The protocol hasn't been started"
  else
    client_state ← GetClientState client_id p;
    if bool_decide (client_state = CLIENT_PENDING) then
      SetClientState client_id (match client_status with Ok _ => CLIENT_DISCARDED | _ => CLIENT_FAILED end) p
    else Ok p.

(** The loop over the clients: the new state of a client, if it changes, and
    whether it is to be closed. *)
Fixpoint close_clients (next : ClientState → option (ClientState * bool)) (ids : list nat) (p : Protocol A) :
    Res (Protocol A * list Z) :=
  match ids with
  | [] => Ok (p, [])
  | id :: ids =>
      match client_states_ p !! id with
      | None => Crash
      | Some state =>
          match next state with
          | None => close_clients next ids p
          | Some (to_state, close) =>
              p ← SetClientState (Z.of_nat id) to_state p;
              '(p, client_ids_to_close) ← close_clients next ids p;
              Ok (p, if close then Z.of_nat id :: client_ids_to_close else client_ids_to_close)
          end
      end
  end.

Definition next_on_complete (state : ClientState) : option (ClientState * bool) :=
  match state with
  | CLIENT_PENDING => Some (CLIENT_ABORTED, true)
  | CLIENT_RECEIVED_INPUT_AND_PENDING => Some (CLIENT_DISCARDED, true)
  | _ => None
  end.

Definition next_on_abort (state : ClientState) : option (ClientState * bool) :=
  match state with
  | CLIENT_PENDING => Some (CLIENT_ABORTED, true)
  | CLIENT_RECEIVED_INPUT_AND_PENDING => Some (CLIENT_DISCARDED, true)
  | CLIENT_COMPLETED => Some (CLIENT_DISCARDED, false)
  | _ => None
  end.

Definition all_clients (p : Protocol A) : list nat := seq 0 (length (client_states_ p)).

Definition aborted (message : string) (client_id : Z) : Event := OnCloseClient client_id (Error ABORTED message).

(** The result, with the object also after an error. *)
Definition Complete (p : Protocol A) : Res (list Event) * Protocol A :=
  match CheckProtocolState PROTOCOL_STARTED p with
  | Ok _ =>
      let '(result, p) := CreateReport p in
      match result with
      | Ok result =>
          match (p ← SetProtocolState PROTOCOL_COMPLETED p; close_clients next_on_complete (all_clients p) p) with
          | Ok (p, ids) =>
              (Ok (map (aborted "The protocol has completed before the client input has been aggregated.") ids ++
                   [OnComplete result]), p)
          | Error c m => (Error c m, p)
          | Crash => (Crash, p)
          end
      | Error c m => (Error c m, p)
      | Crash => (Crash, p)
      end
  | Error c m => (Error c m, p)
  | Crash => (Crash, p)
  end.

Definition Abort (p : Protocol A) : Res (Protocol A * list Event) :=
  _ ← CheckProtocolState PROTOCOL_STARTED p;
  p ← SetProtocolState PROTOCOL_ABORTED (finish p);
  '(p, ids) ← close_clients next_on_abort (all_clients p) p;
  Ok (p, map (aborted "The protocol has aborted before the client input has been aggregated.") ids).

Record StatusMessage := {
  num_clients_completed : Z; num_clients_failed : Z; num_clients_pending : Z; num_clients_aborted : Z;
  num_inputs_aggregated_and_included : Z; num_inputs_aggregated_and_pending : Z; num_inputs_discarded : Z
}.

Definition GetStatus (p : Protocol A) : StatusMessage :=
  let k := counters p in
  let completed := s64 (num_clients_received_and_pending_ k + num_clients_aggregated_ k + num_clients_discarded_ k) in
  {| num_clients_completed := completed;
     num_clients_failed := s64 (num_clients_failed_ k);
     num_clients_pending := s64 (Z.of_nat (length (client_states_ p)) - completed - num_clients_failed_ k
                                 - num_clients_aborted_ k);
     num_clients_aborted := s64 (num_clients_aborted_ k);
     num_inputs_aggregated_and_included := s64 (num_clients_aggregated_ k);
     num_inputs_aggregated_and_pending := s64 (num_clients_received_and_pending_ k);
     num_inputs_discarded := s64 (num_clients_discarded_ k) |}.

(** ** Concurrent calls *)

(** What is left to do of a call: the aggregation of an input, the update of the
    state of a client, or callbacks. *)
Inductive Call :=
  | Aggregating (client_id : Z) (input : Input)
  | Updating (client_id : Z) (state : ClientState) (status : Res unit)
  | Notifying (events : list Event).

(** [included] lists the clients whose input has been aggregated, with their
    tensors, and [closed_by_caller] those that [CloseClient] closed; they only
    record what happened. *)
Record System := {
  protocol : Protocol A;
  calls : list Call;
  events : list Event;
  included : list (Z * TensorMap);
  closed_by_caller : list Z
}.

Inductive Action :=
  | DoStart (num_clients : Z)
  | DoAddClients (num_clients : Z)
  | DoReceiveClientMessage (client_id : Z) (message : ClientMessage)
  | DoAggregate (call : nat) (RetrieveResource : Z → string → Res (list Z))
  | DoUpdate (call : nat)
  | DoNotify (call : nat)
  | DoCloseClient (client_id : Z) (status : Res unit)
  | DoComplete
  | DoAbort.

(** The object after a change, with the callbacks to make. *)
Definition notifying (p : Protocol A) (new_events : list Event) (s : System) : System :=
  {| protocol := p; calls := calls s ++ [Notifying new_events]; events := events s; included := included s;
     closed_by_caller := closed_by_caller s |}.

(** An error is returned to the caller, and the system goes on. *)
Definition returning {X} (r : Res X) (s : System) (k : X → Res System) : Res System :=
  match r with Ok x => k x | Error _ _ => Ok s | Crash => Crash end.

(** The tensors that an aggregation adds, if it does. *)
Definition added_input (RetrieveResource : Z → string → Res (list Z)) (client_id : Z) (input : Input)
    (state : ClientState) (p : Protocol A) : list (Z * TensorMap) :=
  if aggregation_finished_ p || negb (bool_decide (state = CLIENT_COMPLETED)) then []
  else
    match (report ← match input with
                    | InlineBytes bytes => Ok bytes
                    | Uri uri => RetrieveResource client_id uri
                    | OtherInput => Crash
                    end; ParseCheckpoint report p) with
    | Ok tensor_map => [(client_id, tensor_map)]
    | _ => []
    end.

Definition run (a : Action) (s : System) : Res System :=
  let p := protocol s in
  match a with
  | DoStart n => returning (Start n p) s (λ '(p, es), Ok (notifying p es s))
  | DoAddClients n => returning (AddClients n p) s (λ '(p, es), Ok (notifying p es s))
  | DoReceiveClientMessage id message =>
      returning (ReceiveClientMessage_verify id message p) s (λ '(p, input),
        Ok {| protocol := p; calls := calls s ++ match input with Some i => [Aggregating id i] | None => [] end;
              events := events s; included := included s; closed_by_caller := closed_by_caller s |})
  | DoAggregate i RetrieveResource =>
      match calls s !! i with
      | Some (Aggregating id input) =>
          '(p', (state, status)) ← ReceiveClientMessage_aggregate RetrieveResource id input p;
          Ok {| protocol := p'; calls := <[i := Updating id state status]> (calls s); events := events s;
                included := included s ++ added_input RetrieveResource id input state p;
                closed_by_caller := closed_by_caller s |}
      | _ => Ok s
      end
  | DoUpdate i =>
      match calls s !! i with
      | Some (Updating id state status) =>
          '(p, es) ← ReceiveClientMessage_update id state status p;
          Ok {| protocol := p; calls := delete i (calls s); events := events s ++ es; included := included s;
                closed_by_caller := closed_by_caller s |}
      | _ => Ok s
      end
  | DoNotify i =>
      match calls s !! i with
      | Some (Notifying (e :: es)) =>
          Ok {| protocol := p; calls := <[i := Notifying es]> (calls s); events := events s ++ [e];
                included := included s; closed_by_caller := closed_by_caller s |}
      | _ => Ok s
      end
  | DoCloseClient id status =>
      returning (CloseClient id status p) s (λ p',
        Ok {| protocol := p'; calls := calls s; events := events s; included := included s;
              closed_by_caller := closed_by_caller s ++
                match GetClientState id p with Ok CLIENT_PENDING => [id] | _ => [] end |})
  | DoComplete =>
      match Complete p with
      | (Ok es, p) => Ok (notifying p es s)
      | (Error _ _, p) => Ok {| protocol := p; calls := calls s; events := events s; included := included s;
                                closed_by_caller := closed_by_caller s |}
      | (Crash, _) => Crash
      end
  | DoAbort => returning (Abort p) s (λ '(p, es), Ok (notifying p es s))
  end.

Definition initial (p : Protocol A) : System :=
  {| protocol := p; calls := []; events := []; included := []; closed_by_caller := [] |}.

Inductive reachable (p : Protocol A) : System → Prop :=
  | reachable_initial : reachable p (initial p)
  | reachable_step s a s' : reachable p s → run a s = Ok s' → reachable p s'.
End protocol.
