(* ===== verification/ProtocolInvariant.v ===== *)
(** * Invariants of the simple aggregation protocol

    First the states of the clients and their counters, through the loops that
    change them; then [clients_inv] relates the states of the clients to the calls that are under
    way and to the clients that were closed. *)

From S2P Require Import Prelude Bytes Tensor Aggregators SimpleAggregation.

(** ** Counting *)

Definition count (state : ClientState) (states : list ClientState) : Z :=
  Z.of_nat (length (filter (eq state) states)).

Definition counter (state : ClientState) (k : Counters) : Z :=
  match state with
  | CLIENT_PENDING => 0
  | CLIENT_RECEIVED_INPUT_AND_PENDING => num_clients_received_and_pending_ k
  | CLIENT_COMPLETED => num_clients_aggregated_ k
  | CLIENT_FAILED => num_clients_failed_ k
  | CLIENT_ABORTED => num_clients_aborted_ k
  | CLIENT_DISCARDED => num_clients_discarded_ k
  end.

(** 1 for the state itself. *)
Definition indicator (state state' : ClientState) : Z := if decide (state = state') then 1 else 0.

Lemma count_state_cons state st states : count state (st :: states) = indicator state st + count state states.
Proof. unfold count, indicator. rewrite filter_cons. destruct (decide (state = st)); simpl; lia. Qed.

Lemma count_insert state i from to : ∀ states,
  states !! i = Some from →
  count state (<[i := to]> states) = count state states - indicator state from + indicator state to.
Proof.
  induction i as [|i IH]; intros [|st states] Hi; try done; simpl in Hi.
  - injection Hi as ->. change (<[0%nat := to]> (from :: states)) with (to :: states). rewrite !count_state_cons. lia.
  - change (<[S i := to]> (st :: states)) with (st :: <[i := to]> states). rewrite !count_state_cons, IH by done. lia.
Qed.

Lemma count_range state states : 0 ≤ count state states ≤ Z.of_nat (length states).
Proof. unfold count. pose proof (length_filter (eq state) states). lia. Qed.

Lemma count_pos state states i : states !! i = Some state → 0 < count state states.
Proof.
  intros Hi. unfold count. assert (state ∈ filter (eq state) states) as Hin.
  { apply list_elem_of_filter. split; [done|]. by eapply list_elem_of_lookup_2. }
  destruct (filter (eq state) states); [by apply elem_of_nil in Hin|simpl; lia].
Qed.

Lemma count_app state l l' : count state (l ++ l') = count state l + count state l'.
Proof. unfold count. rewrite filter_app, length_app. lia. Qed.

Lemma count_replicate_pending state n :
  state ≠ CLIENT_PENDING → count state (replicate n CLIENT_PENDING) = 0.
Proof.
  intros Hne. induction n as [|n IH]; [done|]. simpl. rewrite count_state_cons, IH. unfold indicator.
  by rewrite decide_False.
Qed.

(** The buckets are exhaustive. *)
Lemma count_total states :
  count CLIENT_PENDING states + count CLIENT_RECEIVED_INPUT_AND_PENDING states + count CLIENT_COMPLETED states +
  count CLIENT_FAILED states + count CLIENT_ABORTED states + count CLIENT_DISCARDED states =
  Z.of_nat (length states).
Proof.
  induction states as [|st states IH]; [done|]. rewrite !count_state_cons. cbn [length]. rewrite Nat2Z.inj_succ, <- IH.
  unfold indicator. destruct st; repeat destruct (decide _); try done; lia.
Qed.

Lemma counter_add_to state state' d k :
  state ≠ CLIENT_PENDING →
  counter state (add_to state' d k) = if decide (state = state') then u64 (counter state k + d) else counter state k.
Proof. intros Hne. destruct state, state'; try done. Qed.

(** ** Changes *)

Section clients.
Context {A : Type}.

Record counters_ok (p : Protocol A) : Prop := {
  counters_exact : ∀ state, state ≠ CLIENT_PENDING → counter state (counters p) = count state (client_states_ p);
  clients_bounded : Z.of_nat (length (client_states_ p)) < 2 ^ 63
}.

(** Only the clients differ. *)
Record same_rest (p p' : Protocol A) : Prop := {
  same_state : protocol_state_ p' = protocol_state_ p;
  same_finished : aggregation_finished_ p' = aggregation_finished_ p;
  same_intrinsics : intrinsics_ p' = intrinsics_ p
}.

(** The transitions of a client. *)
Definition allowed (from to : ClientState) : Prop :=
  match from with
  | CLIENT_PENDING => to ≠ CLIENT_PENDING
  | CLIENT_RECEIVED_INPUT_AND_PENDING => to ≠ CLIENT_PENDING ∧ to ≠ CLIENT_RECEIVED_INPUT_AND_PENDING
  | CLIENT_COMPLETED => to = CLIENT_DISCARDED
  | _ => False
  end.

Lemma same_rest_refl p : same_rest p p.
Proof. done. Qed.

Lemma same_rest_trans p p' p'' : same_rest p p' → same_rest p' p'' → same_rest p p''.
Proof. intros [] []. split; congruence. Qed.

Lemma SetClientState_ok id from to p :
  counters_ok p → client_states_ p !! id = Some from → allowed from to →
  ∃ p', SetClientState (Z.of_nat id) to p = Ok p' ∧ client_states_ p' = <[id := to]> (client_states_ p) ∧
    counters_ok p' ∧ same_rest p p'.
Proof.
  intros [Hex Hb] Hid Hal. pose proof (lookup_lt_Some _ _ _ Hid) as Hlt.
  set (k1 := if decide (from = CLIENT_PENDING) then counters p else add_to from (-1) (counters p)).
  assert (Hset : SetClientState (Z.of_nat id) to p =
    Ok (with_clients (<[id := to]> (client_states_ p)) (add_to to 1 k1) p)).
  { unfold SetClientState. rewrite (proj2 (Z.leb_le _ _)), (proj2 (Z.ltb_lt _ _)), Nat2Z.id, Hid by lia.
    cbn [andb fcp_check]. rewrite bool_decide_false by (intros ->; by destruct to; simpl in Hal; naive_solver).
    subst k1. destruct from; simpl in Hal; try done; destruct to; try done; naive_solver. }
  eexists. split; [exact Hset|]. split; [done|]. split; [|done].
  assert (Hto : to ≠ CLIENT_PENDING) by (destruct from; simpl in Hal; naive_solver).
  assert (Hft : from ≠ to) by (intros ->; destruct to; simpl in Hal; naive_solver).
  split; [|by simpl; rewrite length_insert].
  intros state Hne. cbn [with_clients counters client_states_]. rewrite counter_add_to by done.
  rewrite (count_insert _ _ from) by done.
  pose proof (count_range state (client_states_ p)). pose proof (count_pos _ _ _ Hid).
  assert (Hk1 : counter state k1 = count state (client_states_ p) - indicator state from).
  { subst k1. unfold indicator. destruct (decide (from = CLIENT_PENDING)) as [->|Hfp].
    - rewrite (decide_False (P := state = CLIENT_PENDING)) by done. rewrite Hex by done. lia.
    - rewrite counter_add_to by done. destruct (decide (state = from)) as [->|]; rewrite Hex by done; [|lia].
      rewrite u64_small by lia. lia. }
  rewrite Hk1. unfold indicator in *. destruct (decide (state = to)) as [->|]; [|lia].
  rewrite decide_False by done. rewrite u64_small by lia. lia.
Qed.

(** The state of a client after the loop reached it. *)
Definition after (next : ClientState → option (ClientState * bool)) (state : ClientState) : ClientState :=
  match next state with Some (to, _) => to | None => state end.

Lemma elem_of_if_cons (b : bool) (x y : Z) l :
  x ∈ (if b then y :: l else l) ↔ (b = true ∧ x = y) ∨ x ∈ l.
Proof. destruct b; [rewrite elem_of_cons|]; naive_solver. Qed.

Lemma close_clients_ok next n : ∀ k p,
  counters_ok p → (k + n)%nat = length (client_states_ p) →
  (∀ state to close, next state = Some (to, close) → allowed state to) →
  ∃ p' ids, close_clients next (seq k n) p = Ok (p', ids) ∧ counters_ok p' ∧ same_rest p p' ∧
    length (client_states_ p') = length (client_states_ p) ∧
    (∀ i state, client_states_ p !! i = Some state →
      client_states_ p' !! i = Some (if decide (k ≤ i)%nat then after next state else state)) ∧
    NoDup ids ∧
    (∀ id, id ∈ ids ↔ ∃ i state to, id = Z.of_nat i ∧ (k ≤ i)%nat ∧
      client_states_ p !! i = Some state ∧ next state = Some (to, true)).
Proof.
  induction n as [|n IH]; intros k p Hc Hlen Hal.
  { exists p, []. split_and!; try done; [| by apply NoDup_nil|].
    - intros i state Hi. rewrite decide_False; [done|]. apply lookup_lt_Some in Hi. lia.
    - intros id. split; [by intros ?%elem_of_nil|]. intros (i & state & to & _ & Hk & Hi & _).
      apply lookup_lt_Some in Hi. lia. }
  cbn [seq close_clients]. destruct (lookup_lt_is_Some_2 (client_states_ p) k ltac:(lia)) as [state Hk]. rewrite Hk.
  destruct (next state) as [[to close]|] eqn:Hnext.
  - destruct (SetClientState_ok k state to p Hc Hk (Hal _ _ _ Hnext)) as (p1 & Hset & Hst & Hc1 & Hs1).
    rewrite Hset. cbn [mbind Res_bind].
    destruct (IH (S k) p1 Hc1) as (p2 & ids & Hcl & Hc2 & Hs2 & Hl2 & Hst2 & Hnd & Hids); [|done|].
    { rewrite Hst, length_insert. lia. }
    rewrite Hcl. cbn [mbind Res_bind]. exists p2, (if close then Z.of_nat k :: ids else ids).
    assert (Hlater : ∀ i st, (k < i)%nat → client_states_ p1 !! i = Some st ↔ client_states_ p !! i = Some st).
    { intros i st Hlt. by rewrite Hst, list_lookup_insert_ne by lia. }
    assert (Hids' : ∀ id, id ∈ ids ↔ ∃ i st to0, id = Z.of_nat i ∧ (k < i)%nat ∧
      client_states_ p !! i = Some st ∧ next st = Some (to0, true)).
    { intros id. rewrite Hids. split; intros (i & st & to0 & -> & Hle & Hi & Hn); exists i, st, to0;
        (split_and!; [done|lia| |done]); by apply Hlater. }
    split_and!; [done|done|by eapply same_rest_trans|rewrite Hl2, Hst; apply length_insert| | |].
    + intros i st Hi. destruct (decide (i = k)) as [->|Hne].
      * assert (st = state) as -> by congruence. rewrite decide_True by done.
        rewrite (Hst2 k to) by (rewrite Hst, list_lookup_insert_eq by lia; done). rewrite decide_False by lia.
        unfold after. by rewrite Hnext.
      * rewrite (Hst2 i st) by (rewrite Hst, list_lookup_insert_ne by done; done).
        destruct (decide (S k ≤ i)%nat), (decide (k ≤ i)%nat); try done; lia.
    + destruct close; [|done]. constructor; [|done]. intros (i & _ & _ & Heq & Hlt & _)%Hids'. lia.
    + intros id. rewrite elem_of_if_cons, Hids'. split.
      * intros [[-> ->]|(i & st & to0 & -> & Hlt & Hi & Hn)]; [by exists k, state, to|].
        exists i, st, to0. split_and!; try done. lia.
      * intros (i & st & to0 & -> & Hle & Hi & Hn). destruct (decide (i = k)) as [->|Hne]; [left|right].
        -- split; [|done]. congruence.
        -- exists i, st, to0. split_and!; try done. lia.
  - destruct (IH (S k) p Hc ltac:(lia) Hal) as (p2 & ids & Hcl & Hc2 & Hs2 & Hl2 & Hst2 & Hnd & Hids).
    exists p2, ids. split_and!; try done.
    + intros i st Hi. rewrite (Hst2 i st Hi). destruct (decide (i = k)) as [->|Hne].
      * assert (st = state) as -> by congruence. rewrite decide_False, decide_True by lia. unfold after. by rewrite Hnext.
      * destruct (decide (S k ≤ i)%nat), (decide (k ≤ i)%nat); try done; lia.
    + intros id. rewrite Hids. split; intros (i & st & to0 & -> & Hle & Hi & Hn); exists i, st, to0;
        (split_and!; [done| |done|done]); [lia|].
      destruct (decide (i = k)) as [->|]; [|lia]. congruence.
Qed.
End clients.

(** ** The invariant *)

(** A client that is done. *)
Definition final (state : ClientState) : Prop :=
  state ≠ CLIENT_PENDING ∧ state ≠ CLIENT_RECEIVED_INPUT_AND_PENDING.

Definition in_state (states : list ClientState) (id : Z) (state : ClientState) : Prop :=
  0 ≤ id ∧ states !! Z.to_nat id = Some state.

Definition is_final (states : list ClientState) (id : Z) : Prop := ∃ state, in_state states id state ∧ final state.

(** [ids] are the clients with a message that is being processed. *)
Record clients_inv (ps : ProtocolState) (states : list ClientState) (ids closed : list Z) : Prop := {
  inv_created : ps = PROTOCOL_CREATED → states = [];
  inv_ended : ps = PROTOCOL_COMPLETED ∨ ps = PROTOCOL_ABORTED → Forall final states;
  inv_calls_nodup : NoDup ids;
  inv_calls_state : ∀ id, id ∈ ids →
    in_state states id CLIENT_RECEIVED_INPUT_AND_PENDING ∨ in_state states id CLIENT_DISCARDED;
  inv_received : ∀ id, in_state states id CLIENT_RECEIVED_INPUT_AND_PENDING → id ∈ ids;
  inv_closed_nodup : NoDup closed;
  inv_closed : ∀ id, id ∈ closed ↔ is_final states id
}.

Lemma in_state_unique states id st st' : in_state states id st → in_state states id st' → st = st'.
Proof. intros [_ H] [_ H']. congruence. Qed.

Lemma in_state_insert states i to id st :
  (i < length states)%nat →
  in_state (<[i := to]> states) id st ↔ (id = Z.of_nat i ∧ st = to) ∨ (id ≠ Z.of_nat i ∧ in_state states id st).
Proof.
  intros Hi. unfold in_state. destruct (decide (id = Z.of_nat i)) as [->|Hne].
  - rewrite Nat2Z.id, list_lookup_insert_eq by done. split.
    + intros [_ [= ->]]. by left.
    + intros [[_ ->]|[? _]]; [split; [lia|done]|done].
  - split.
    + intros [Hge H]. rewrite list_lookup_insert_ne in H by lia. by right.
    + intros [[? _]|[_ [Hge H]]]; [done|]. split; [done|]. by rewrite list_lookup_insert_ne by lia.
Qed.

Lemma in_state_lt states id st : in_state states id st → 0 ≤ id ∧ (Z.to_nat id < length states)%nat.
Proof. intros [H1 H2]. split; [done|]. by eapply lookup_lt_Some. Qed.

Lemma is_final_insert states i to id :
  (i < length states)%nat →
  is_final (<[i := to]> states) id ↔ (id = Z.of_nat i ∧ final to) ∨ (id ≠ Z.of_nat i ∧ is_final states id).
Proof.
  intros Hi. unfold is_final. split.
  - intros (st & Hst & Hf). apply in_state_insert in Hst as [[-> ->]|[Hne Hst]]; [by left|right; eauto|done].
  - intros [[-> Hf]|[Hne (st & Hst & Hf)]]; eexists; (split; [apply in_state_insert; [done|]|done]); [by left|by right].
Qed.

(** ** Transitions *)

Section transitions.
Context (ps : ProtocolState) (states : list ClientState) (ids closed : list Z).
Context (Hinv : clients_inv ps states ids closed).

(** A client whose state is not final keeps the protocol open. *)
Lemma not_final_open i st :
  states !! i = Some st → ¬ final st → ps = PROTOCOL_STARTED.
Proof using Hinv.
  intros Hi Hf. destruct ps eqn:Hps; [|done|exfalso..].
  - by rewrite (inv_created _ _ _ _ Hinv) in Hi.
  - apply Hf. eapply Forall_lookup_1; [|exact Hi]. apply (inv_ended _ _ _ _ Hinv). by left.
  - apply Hf. eapply Forall_lookup_1; [|exact Hi]. apply (inv_ended _ _ _ _ Hinv). by right.
Qed.

Lemma inv_permute ids' closed' : ids ≡ₚ ids' → closed ≡ₚ closed' → clients_inv ps states ids' closed'.
Proof using Hinv.
  intros Hi Hp. destruct Hinv as [Hcr Hen Hn Hst Hrec Hcn Hcl]. split; try done.
  - by rewrite <- Hi.
  - intros id. rewrite <- Hi. apply Hst.
  - intros id. rewrite <- Hi. apply Hrec.
  - by rewrite <- Hp.
  - intros id. by rewrite <- Hp.
Qed.

Lemma inv_grow n :
  ps = PROTOCOL_CREATED ∨ ps = PROTOCOL_STARTED →
  clients_inv PROTOCOL_STARTED (states ++ replicate n CLIENT_PENDING) ids closed.
Proof using Hinv.
  intros Hps. destruct Hinv as [Hcr Hen Hn Hst Hrec Hcn Hcl].
  assert (Happ : ∀ id st, st ≠ CLIENT_PENDING →
    in_state (states ++ replicate n CLIENT_PENDING) id st ↔ in_state states id st).
  { intros id st Hne. unfold in_state. split; intros [Hge H]; (split; [done|]).
    - apply lookup_app_Some in H as [H|[_ H]]; [done|]. by apply lookup_replicate in H as [-> _].
    - by apply lookup_app_l_Some. }
  split; try done; [by intros [?|?]| | |].
  - intros id Hid. destruct (Hst id Hid); [left|right]; by apply Happ.
  - intros id Hid. apply Hrec. by apply Happ in Hid.
  - intros id. rewrite Hcl. unfold is_final.
    split; intros (st & Hst' & Hf); exists st; (split; [|done]); apply (Happ id st); try done; by destruct Hf.
Qed.

Lemma inv_receive i :
  states !! i = Some CLIENT_PENDING →
  clients_inv ps (<[i := CLIENT_RECEIVED_INPUT_AND_PENDING]> states) (ids ++ [Z.of_nat i]) closed.
Proof using Hinv.
  intros Hi. pose proof (lookup_lt_Some _ _ _ Hi) as Hlt.
  assert (Hpend : in_state states (Z.of_nat i) CLIENT_PENDING) by (split; [lia|by rewrite Nat2Z.id]).
  assert (ps = PROTOCOL_STARTED) as Hps by (eapply not_final_open; [exact Hi|by intros []]).
  destruct Hinv as [Hcr Hen Hn Hst Hrec Hcn Hcl].
  assert (Hnew : Z.of_nat i ∉ ids).
  { intros Hin. destruct (Hst _ Hin) as [H|H]; by pose proof (in_state_unique _ _ _ _ Hpend H). }
  split; try done; [by rewrite Hps|rewrite Hps; by intros [?|?]| | | |].
  - apply NoDup_app. split_and!; [done| |apply NoDup_singleton]. by intros x Hx ->%list_elem_of_singleton.
  - intros id [Hid| ->%list_elem_of_singleton]%elem_of_app; [|left; apply in_state_insert; [done|by left]].
    assert (id ≠ Z.of_nat i) by (by intros ->). rewrite !in_state_insert by done.
    destruct (Hst id Hid); [left|right]; by right.
  - intros id [[-> _]|[Hne H]]%in_state_insert; [| |done]; apply elem_of_app; [right; by apply list_elem_of_singleton|left; by apply Hrec].
  - intros id. rewrite Hcl, is_final_insert by done. split.
    + intros Hf. right. split; [|done]. intros ->. destruct Hf as (st & Hst' & [Hf _]).
      by pose proof (in_state_unique _ _ _ _ Hpend Hst').
    + intros [[_ [_ ?]]|[_ ?]]; done.
Qed.

(** A client whose message was processed, and that is still open, is closed. *)
Lemma inv_close i from to ids' closed' :
  states !! i = Some from → ¬ final from → final to →
  (from = CLIENT_RECEIVED_INPUT_AND_PENDING → ids ≡ₚ Z.of_nat i :: ids') → (from = CLIENT_PENDING → ids' = ids) →
  closed' ≡ₚ Z.of_nat i :: closed →
  clients_inv ps (<[i := to]> states) ids' closed'.
Proof using Hinv.
  intros Hi Hnf Hto Hrecv Hpend Hclosed. pose proof (lookup_lt_Some _ _ _ Hi) as Hlt.
  assert (Hfrom : in_state states (Z.of_nat i) from) by (split; [lia|by rewrite Nat2Z.id]).
  assert (ps = PROTOCOL_STARTED) as Hps by by eapply not_final_open.
  destruct Hinv as [Hcr Hen Hn Hst Hrec Hcn Hcl].
  assert (Hids : NoDup ids' ∧ ∀ id, id ∈ ids' ↔ id ≠ Z.of_nat i ∧ id ∈ ids).
  { destruct from; try (by destruct Hnf).
    - rewrite Hpend by done. split; [done|]. intros id. split; [|by intros [_ ?]]. intros Hid. split; [|done]. intros ->.
      destruct (Hst _ Hid) as [H|H]; by pose proof (in_state_unique _ _ _ _ Hfrom H).
    - specialize (Hrecv eq_refl). rewrite Hrecv in Hn. apply NoDup_cons in Hn as [Hnew Hn]. split; [done|].
      intros id. rewrite Hrecv, elem_of_cons. split.
      + intros Hid. split; [by intros ->|by right].
      + by intros [? [?|?]]. }
  destruct Hids as [Hn' Hids].
  assert (Hnotclosed : Z.of_nat i ∉ closed).
  { rewrite Hcl. intros (st & Hst' & Hf). by pose proof (in_state_unique _ _ _ _ Hfrom Hst') as ->. }
  split; [by rewrite Hps|rewrite Hps; by intros [?|?]|done| | | |].
  - intros id [Hne Hid]%Hids. rewrite !in_state_insert by done. destruct (Hst id Hid); [left|right]; by right.
  - intros id [[-> <-]|[Hne H]]%in_state_insert; [by destruct Hto| |done]. apply Hids. split; [done|by apply Hrec].
  - rewrite Hclosed. by constructor.
  - intros id. rewrite Hclosed, elem_of_cons, is_final_insert, Hcl by done. split.
    + intros [->|Hf]; [by left|]. right. split; [|done]. intros ->. by apply Hnotclosed, Hcl.
    + intros [[-> _]|[_ ?]]; [by left|by right].
Qed.

(** A message of a client that was closed meanwhile. *)
Lemma inv_drop i ids' :
  ids ≡ₚ Z.of_nat i :: ids' → states !! i ≠ Some CLIENT_RECEIVED_INPUT_AND_PENDING → clients_inv ps states ids' closed.
Proof using Hinv.
  intros Hp Hne. destruct Hinv as [Hcr Hen Hn Hst Hrec Hcn Hcl]. rewrite Hp in Hn. apply NoDup_cons in Hn as [Hnew Hn].
  split; try done.
  - intros id Hid. apply Hst. rewrite Hp. by right.
  - intros id Hid. apply Hrec in Hid as Hin. rewrite Hp in Hin. apply elem_of_cons in Hin as [->|?]; [|done].
    destruct Hid as [_ Hid]. by rewrite Nat2Z.id in Hid.
Qed.

(** The end of the protocol. *)
Lemma inv_end next states' new closed' ps' :
  ps = PROTOCOL_STARTED → ps' = PROTOCOL_COMPLETED ∨ ps' = PROTOCOL_ABORTED →
  next = next_on_complete ∨ next = next_on_abort → length states' = length states →
  (∀ i st, states !! i = Some st → states' !! i = Some (after next st)) → NoDup new →
  (∀ id, id ∈ new ↔ ∃ i st to, id = Z.of_nat i ∧ states !! i = Some st ∧ next st = Some (to, true)) →
  closed' ≡ₚ new ++ closed →
  clients_inv ps' states' ids closed'.
Proof using Hinv.
  intros Hps Hps' Hnext Hlen Hafter Hnn Hnew Hclosed. destruct Hinv as [Hcr Hen Hn Hst Hrec Hcn Hcl].
  assert (Hf : ∀ st, final (after next st)) by (intros st; destruct Hnext as [-> | ->]; by destruct st).
  assert (Hall : ∀ i st', states' !! i = Some st' → ∃ st, states !! i = Some st ∧ st' = after next st).
  { intros i st' Hi. destruct (lookup_lt_is_Some_2 states i) as [st Hst'].
    - rewrite <- Hlen. by eapply lookup_lt_Some.
    - exists st. split; [done|]. rewrite (Hafter _ _ Hst') in Hi. congruence. }
  assert (Hnewst : ∀ st, (∃ to, next st = Some (to, true)) ↔ ¬ final st).
  { intros st. unfold final. destruct Hnext as [-> | ->]; destruct st; simpl; naive_solver. }
  split.
  - by destruct Hps' as [-> | ->].
  - intros _. apply Forall_lookup. intros i st' (st & _ & ->)%Hall. apply Hf.
  - done.
  - intros id Hid. right. destruct (Hst id Hid) as [[Hge H]|[Hge H]]; (split; [done|]); rewrite (Hafter _ _ H);
      destruct Hnext as [-> | ->]; done.
  - intros id [_ (st & _ & Heq)%Hall]. destruct (Hf st) as [_ Hne]. by rewrite <- Heq in Hne.
  - rewrite Hclosed. apply NoDup_app. split_and!; [done| |done].
    intros id (i & st & to & -> & Hi & Hn')%Hnew (st' & [_ Hst'] & Hf')%Hcl. rewrite Nat2Z.id in Hst'.
    assert (st' = st) as -> by congruence. assert (¬ final st) by (apply Hnewst; by exists to). done.
  - intros id. rewrite Hclosed, elem_of_app, Hcl, Hnew. split.
    + intros [(i & st & to & -> & Hi & _)|(st & [Hge Hi] & _)]; exists (after next st); (split; [|done]);
        (split; [lia|]); rewrite ?Nat2Z.id; by apply Hafter.
    + intros (st' & [Hge (st & Hi & ->)%Hall] & _). destruct (decide (final st)) as [Hfin|Hnf].
      * right. by exists st.
      * left. apply Hnewst in Hnf as [to Hto]. exists (Z.to_nat id), st, to. split; [lia|done].
Qed.
End transitions.
