(* ===== verification/ProtocolAggregation.v ===== *)
(** * Aggregation in the simple aggregation protocol

    What the operations of the protocol do with its aggregators, which keep the
    laws of [AggregatorLaws]. *)

From S2P Require Import Prelude Bytes Tensor TensorCorrect Aggregators AggregatorsCorrect.
From S2P Require Import SimpleAggregation ProtocolInvariant.

(** Parsers give valid tensors; parsers and builders fail with errors. *)
Class CheckpointsLaws (C : Checkpoints) : Prop := {
  parser_returns report : ParserFactory_Create report ≠ Crash;
  GetTensor_returns name parser : GetTensor name parser ≠ Crash;
  GetTensor_good name parser t : GetTensor name parser = Ok t → good_tensor t;
  Builder_Add_returns name t builder : Builder_Add name t builder ≠ Crash;
  Build_returns builder : Build builder ≠ Crash
}.

Section aggregation.
Context `{AggregatorLaws A} {C : Checkpoints} {HC : CheckpointsLaws C}.

Definition well_specified (i : Intrinsic A) : Prop :=
  spec_dtype (input i) = spec_dtype (output i) ∧ spec_shape (input i) = spec_shape (output i).

Definition same_specs (i0 i : Intrinsic A) : Prop := input i = input i0 ∧ output i = output i0.

(** The tensors of an intrinsic among the inputs. *)
Definition inputs_for (i : Intrinsic A) (inputs : list (Z * TensorMap)) : list Tensor :=
  omap (λ x : Z * TensorMap, x.2 !! spec_name (input i)) inputs.

(** The aggregator has accumulated exactly the inputs. *)
Record live (inputs : list (Z * TensorMap)) (i0 i : Intrinsic A) : Prop := {
  live_specs : same_specs i0 i;
  live_accumulated : accumulate_all (inputs_for i0 inputs) (aggregator i0) = Ok (aggregator i);
  live_ready : ready (spec_dtype (input i0)) (spec_shape (input i0)) (aggregator i)
}.

(** The tensors of a map fit the intrinsics. *)
Definition fits (tensor_map : TensorMap) (i : Intrinsic A) : Prop :=
  ∃ t, tensor_map !! spec_name (input i) = Some t ∧ good_tensor t ∧
    dtype t = spec_dtype (input i) ∧ shape t = spec_shape (input i).

(** ** Parsing *)

Lemma get_tensors_spec parser intrinsics : ∀ tensor_map done,
  Forall (fits tensor_map) done →
  (∀ name t, tensor_map !! name = Some t → ∃ i, i ∈ done ∧ spec_name (input i) = name ∧ GetTensor name parser = Ok t) →
  match get_tensors parser intrinsics tensor_map with
  | Ok tensor_map' => Forall (fits tensor_map') (done ++ intrinsics)
  | Error _ _ => True
  | Crash => False
  end.
Proof using HC.
  induction intrinsics as [|i intrinsics IH]; intros tm done Hdone Hmap; [by rewrite app_nil_r|].
  cbn [get_tensors]. destruct (GetTensor (spec_name (input i)) parser) as [t|c m|] eqn:Ht;
    cbn [mbind Res_bind]; [|done|by apply GetTensor_returns in Ht].
  destruct (decide (dtype t = spec_dtype (input i))) as [Hd|]; [|by rewrite bool_decide_false].
  destruct (decide (shape t = spec_shape (input i))) as [Hs|]; [|by rewrite bool_decide_true, bool_decide_false].
  rewrite !bool_decide_true by done. cbn [negb orb].
  rewrite cons_middle, (assoc_L (++)). set (name := spec_name (input i)) in *.
  destruct (tm !! name) as [t'|] eqn:Hl.
  - apply IH.
    + apply Forall_app. split; [done|]. apply Forall_singleton. exists t'. split; [done|].
      destruct (Hmap _ _ Hl) as (_ & _ & _ & Ht'). assert (t' = t) as -> by congruence.
      split_and!; try done. by eapply GetTensor_good.
    + intros n x Hx. destruct (Hmap _ _ Hx) as (j & Hj & Hn & Hg). exists j. split_and!; try done. apply elem_of_app. by left.
  - apply IH.
    + apply Forall_app. split.
      * eapply Forall_impl; [exact Hdone|]. intros j (x & Hx & Hrest). exists x. split; [|done].
        rewrite lookup_insert_ne; [done|]. intros Heq. rewrite Heq in Hl. congruence.
      * apply Forall_singleton. exists t. rewrite lookup_insert_eq. split_and!; try done. by eapply GetTensor_good.
    + intros n x [[<- <-]|[Hne Hx]]%lookup_insert_Some.
      * exists i. split_and!; try done. apply elem_of_app. right. by apply list_elem_of_singleton.
      * destruct (Hmap _ _ Hx) as (j & Hj & Hn & Hg). exists j. split_and!; try done. apply elem_of_app. by left.
Qed.

Lemma ParseCheckpoint_spec report (p : Protocol A) :
  match ParseCheckpoint report p with
  | Ok tensor_map => Forall (fits tensor_map) (intrinsics_ p)
  | Error _ _ => True
  | Crash => False
  end.
Proof using HC.
  unfold ParseCheckpoint. destruct (ParserFactory_Create report) as [parser|c m|] eqn:Hp;
    cbn [mbind Res_bind]; [|done|by apply parser_returns in Hp].
  pose proof (get_tensors_spec parser (intrinsics_ p) ∅ []) as Hspec. cbn [app] in Hspec. apply Hspec; [constructor|].
  intros name t Hn. by rewrite lookup_empty in Hn.
Qed.

(** ** Accumulating *)

Lemma accumulate_all_app inputs inputs' (a : A) :
  accumulate_all (inputs ++ inputs') a = (a ← accumulate_all inputs a; accumulate_all inputs' a).
Proof.
  revert a. induction inputs as [|t inputs IH]; intros a; [done|]. cbn [app accumulate_all].
  destruct (Accumulate [t] a); cbn [mbind Res_bind]; [apply IH|done|done].
Qed.

Lemma accumulate_each_live inputs id tensor_map ins0 ins :
  Forall2 (live inputs) ins0 ins → Forall (fits tensor_map) ins →
  ∃ ins', accumulate_each tensor_map ins = (Ok (), ins') ∧ Forall2 (live (inputs ++ [(id, tensor_map)])) ins0 ins'.
Proof.
  intros Hl. induction Hl as [|i0 i ins0 ins [[Hin Hout] Hacc Hr] _ IH]; intros Hf; [by exists []|].
  apply Forall_cons in Hf as [(t & Ht & Hgood & Hd & Hs) Hf]. destruct (IH Hf) as (ins' & Hrest & Hlive).
  rewrite Hin in Ht, Hd, Hs. cbn [accumulate_each]. rewrite Hin, Ht.
  destruct (ready_accumulate _ _ _ t Hr Hgood Hd Hs) as (a & Ha & Hr'). rewrite Ha, Hrest.
  eexists. split; [done|]. constructor; [|done]. split; [done| |done].
  unfold inputs_for. rewrite omap_app. cbn [omap list_omap snd]. rewrite Ht. rewrite accumulate_all_app.
  unfold inputs_for in Hacc. rewrite Hacc. cbn [mbind Res_bind accumulate_all]. by rewrite Ha.
Qed.

Lemma accumulate_each_consumed tensor_map i ins :
  consumed (aggregator i) → Forall (fits tensor_map) (i :: ins) →
  ∃ c m, accumulate_each tensor_map (i :: ins) = (Error c m, i :: ins).
Proof.
  intros Hc [(t & Ht & _) _]%Forall_cons. cbn [accumulate_each]. rewrite Ht.
  destruct (consumed_Accumulate (aggregator i) [t] Hc) as [m ->]. by eexists _, _.
Qed.

(** ** The report *)

(** What the checkpoint of a list of inputs is built from. *)
Fixpoint expected_report (inputs : list (Z * TensorMap)) (builder : Builder) (ins0 : list (Intrinsic A)) : Res Builder :=
  match ins0 with
  | [] => Ok builder
  | i0 :: ins0 =>
      a ← accumulate_all (inputs_for i0 inputs) (aggregator i0);
      '(tensors, _) ← Report a;
      match tensors with
      | [t] => builder ← Builder_Add (spec_name (output i0)) t builder; expected_report inputs builder ins0
      | _ => Crash
      end
  end.

Lemma can_report_live inputs ins0 ins : Forall2 (live inputs) ins0 ins → can_report_all ins = Ok ().
Proof.
  induction 1 as [|i0 i ins0 ins [_ _ Hr] _ IH]; [done|]. cbn [can_report_all].
  rewrite (ready_CanReport _ _ _ Hr). cbn [mbind Res_bind negb]. done.
Qed.

Lemma can_report_consumed i ins :
  consumed (aggregator i) → ∃ m, can_report_all (i :: ins) = Error FAILED_PRECONDITION m.
Proof. intros Hc. cbn [can_report_all]. rewrite consumed_CanReport by done. by eexists. Qed.

(** Reporting consumes the aggregators in order, up to an error of the builder. *)
Lemma report_each_live inputs ins0 ins : ∀ builder,
  Forall2 (live inputs) ins0 ins → Forall well_specified ins0 →
  let '(result, ins') := report_each builder ins in
  result = expected_report inputs builder ins0 ∧ result ≠ Crash ∧ Forall2 same_specs ins0 ins' ∧
  (∀ i, head ins' = Some i → consumed (aggregator i)).
Proof using HC.
  intros builder Hl. revert builder.
  induction Hl as [|i0 i ins0 ins [Hsame Hacc Hr] Hl IH]; intros builder Hw; [done|].
  apply Forall_cons in Hw as [[Hwd Hws] Hw]. cbn [report_each expected_report]. rewrite Hacc. cbn [mbind Res_bind].
  destruct (ready_Report _ _ _ Hr) as (t & a' & Hrep & Hd & Hs & Hc). rewrite Hrep. cbn [mbind Res_bind].
  pose proof Hsame as [Hin Hout]. rewrite Hout, Hd, Hs, !bool_decide_true by done. cbn [andb].
  assert (Hrest : Forall2 same_specs ins0 ins).
  { eapply Forall2_impl; [exact Hl|]. by intros j0 j []. }
  destruct (Builder_Add (spec_name (output i0)) t builder) as [b|c m|] eqn:Hb; cbn [mbind Res_bind].
  - pose proof (IH b Hw) as HIH. destruct (report_each b ins) as [result ins'].
    destruct HIH as (-> & Hncrash & Hsp & _). split_and!; try done; [by constructor|]. by intros j [= <-].
  - split_and!; try done; [by constructor|]. by intros j [= <-].
  - by apply Builder_Add_returns in Hb.
Qed.
End aggregation.
