(* ===== verification/ProtocolIncluded.v ===== *)
(** * The inputs included in the result of the simple aggregation protocol

    [included_inv] relates the inputs that were aggregated to the states of the
    clients and to the calls under way. *)

From S2P Require Import Prelude Bytes Tensor Aggregators SimpleAggregation ProtocolInvariant.

(** ** Calls and events *)

Definition call_id (c : Call) : option Z :=
  match c with Aggregating id _ | Updating id _ _ => Some id | Notifying _ => None end.

Definition call_ids (calls : list Call) : list Z := omap call_id calls.

Definition call_events (c : Call) : list Event := match c with Notifying es => es | _ => [] end.

Definition pending_events (calls : list Call) : list Event := calls ≫= call_events.

Definition closes (es : list Event) : list Z :=
  omap (λ e, match e with OnCloseClient id _ => Some id | _ => None end) es.

Definition completes (es : list Event) : list (list Z) :=
  omap (λ e, match e with OnComplete r => Some r | _ => None end) es.

#[export] Instance call_ids_proper : Proper ((≡ₚ) ==> (≡ₚ)) call_ids.
Proof. intros l l' Hp. unfold call_ids. by rewrite Hp. Qed.
#[export] Instance pending_events_proper : Proper ((≡ₚ) ==> (≡ₚ)) pending_events.
Proof. intros l l' Hp. unfold pending_events. by rewrite Hp. Qed.
#[export] Instance closes_proper : Proper ((≡ₚ) ==> (≡ₚ)) closes.
Proof. intros l l' Hp. unfold closes. by rewrite Hp. Qed.
#[export] Instance completes_proper : Proper ((≡ₚ) ==> (≡ₚ)) completes.
Proof. intros l l' Hp. unfold completes. by rewrite Hp. Qed.

Lemma closes_app es es' : closes (es ++ es') = closes es ++ closes es'.
Proof. apply omap_app. Qed.
Lemma completes_app es es' : completes (es ++ es') = completes es ++ completes es'.
Proof. apply omap_app. Qed.
Lemma call_ids_app l l' : call_ids (l ++ l') = call_ids l ++ call_ids l'.
Proof. apply omap_app. Qed.
Lemma pending_events_app l l' : pending_events (l ++ l') = pending_events l ++ pending_events l'.
Proof. apply bind_app. Qed.

Lemma insert_Permutation_delete {X} (l : list X) i x y :
  l !! i = Some x → <[i := y]> l ≡ₚ y :: delete i l.
Proof.
  intros Hi. rewrite insert_take_drop by (by eapply lookup_lt_Some). rewrite delete_take_drop.
  symmetry. apply Permutation_middle.
Qed.

Lemma elem_of_call_ids calls id : id ∈ call_ids calls ↔ ∃ c, c ∈ calls ∧ call_id c = Some id.
Proof. apply list_elem_of_omap. Qed.

(** A client has at most one message in processing. *)
Lemma call_unique calls c c' id :
  NoDup (call_ids calls) → c ∈ calls → c' ∈ calls → call_id c = Some id → call_id c' = Some id → c = c'.
Proof.
  intros Hn Hc Hc' Hid Hid'. induction calls as [|d calls IH]; [by apply elem_of_nil in Hc|].
  apply elem_of_cons in Hc as [->|Hc], Hc' as [->|Hc']; try done.
  - exfalso. cbn in Hn. rewrite Hid in Hn. apply NoDup_cons in Hn as [Hnot _]. apply Hnot, elem_of_call_ids. by exists c'.
  - exfalso. cbn in Hn. rewrite Hid' in Hn. apply NoDup_cons in Hn as [Hnot _]. apply Hnot, elem_of_call_ids. by exists c.
  - apply IH; try done. cbn in Hn. destruct (call_id d); [by apply NoDup_cons in Hn as [_ ?]|done].
Qed.

(** ** Included inputs *)

Record included_inv (ps : ProtocolState) (finished : bool) (states : list ClientState) (calls : list Call)
    (inc : list Z) : Prop := {
  inc_nodup : NoDup inc;
  inc_state : ∀ id, id ∈ inc → in_state states id CLIENT_COMPLETED ∨ in_state states id CLIENT_DISCARDED ∨
    (in_state states id CLIENT_RECEIVED_INPUT_AND_PENDING ∧ ∃ st, Updating id CLIENT_COMPLETED st ∈ calls);
  inc_not_yet : ∀ id input, Aggregating id input ∈ calls → id ∉ inc;
  inc_completed : finished = false ∨ ps = PROTOCOL_COMPLETED →
    ∀ id, in_state states id CLIENT_COMPLETED → id ∈ inc;
  inc_updating : finished = false → ∀ id st, Updating id CLIENT_COMPLETED st ∈ calls → id ∈ inc
}.

(** Calls that only notify are not related to inputs. *)
Lemma included_calls ps finished states calls calls' inc :
  (∀ c, call_id c ≠ None → c ∈ calls' ↔ c ∈ calls) →
  included_inv ps finished states calls inc → included_inv ps finished states calls' inc.
Proof.
  intros Hc [Hn Hs Hy Hco Hu]. split; try done.
  - intros id Hid. destruct (Hs id Hid) as [?|[?|[? [st Hst]]]]; [by left|by right; left|right; right].
    split; [done|]. exists st. by apply Hc.
  - intros id input Hin. apply (Hy id input). by apply Hc in Hin.
  - intros Hf id st Hin. apply (Hu Hf id st). by apply Hc in Hin.
Qed.

Lemma included_grow ps ps' finished states calls inc n :
  ps' ≠ PROTOCOL_COMPLETED → included_inv ps finished states calls inc →
  included_inv ps' finished (states ++ replicate n CLIENT_PENDING) calls inc.
Proof.
  intros Hps [Hn Hs Hy Hco Hu].
  assert (Happ : ∀ id st, in_state states id st → in_state (states ++ replicate n CLIENT_PENDING) id st).
  { intros id st [Hge Hst]. split; [done|]. by apply lookup_app_l_Some. }
  split; try done.
  - intros id Hid. destruct (Hs id Hid) as [?|[?|[? ?]]]; [left|right; left|right; right]; eauto.
  - intros [Hf|?] id [Hge Hst]; [|done]. apply Hco; [by left|]. split; [done|].
    apply lookup_app_Some in Hst as [?|[_ Hst]]; [done|]. by apply lookup_replicate in Hst as [? _].
Qed.

(** A client without an included input changes its state. *)
Lemma included_change ps finished states calls inc i from to :
  states !! i = Some from → Z.of_nat i ∉ inc → to ≠ CLIENT_COMPLETED →
  included_inv ps finished states calls inc → included_inv ps finished (<[i := to]> states) calls inc.
Proof.
  intros Hi Hnot Hto [Hn Hs Hy Hco Hu]. pose proof (lookup_lt_Some _ _ _ Hi). split; try done.
  - intros id Hid. assert (id ≠ Z.of_nat i) by by intros ->. rewrite !in_state_insert by done.
    destruct (Hs id Hid) as [?|[?|[? ?]]]; [left; by right|right; left; by right|right; right].
    split; [by right|done].
  - intros Hf id [[_ ?]|[_ Hst]]%in_state_insert; [done|by apply Hco|done].
Qed.

Lemma included_pending ps finished states calls inc i :
  included_inv ps finished states calls inc → states !! i = Some CLIENT_PENDING → Z.of_nat i ∉ inc.
Proof.
  intros Hinc Hi Hin. assert (Hp : in_state states (Z.of_nat i) CLIENT_PENDING) by (split; [lia|by rewrite Nat2Z.id]).
  destruct (inc_state _ _ _ _ _ Hinc _ Hin) as [Hst|[Hst|[Hst _]]]; by pose proof (in_state_unique _ _ _ _ Hp Hst).
Qed.

(** A new message. *)
Lemma included_receive ps finished states calls inc id input :
  id ∉ inc → included_inv ps finished states calls inc →
  included_inv ps finished states (calls ++ [Aggregating id input]) inc.
Proof.
  intros Hnot [Hn Hs Hy Hco Hu]. split; try done.
  - intros x Hx. destruct (Hs x Hx) as [?|[?|[? [st Hst]]]]; [by left|by right; left|right; right].
    split; [done|]. exists st. apply elem_of_app. by left.
  - intros x inp [Hin|Hin%list_elem_of_singleton]%elem_of_app; [by eapply Hy|congruence].
  - intros Hf x st [Hin|Hin%list_elem_of_singleton]%elem_of_app; [by eapply Hu|done].
Qed.

(** An aggregation; [new] is the client if its input was added. *)
Lemma included_aggregate ps finished states calls calls' inc id input state st new :
  included_inv ps finished states calls inc → NoDup (call_ids calls) →
  calls ≡ₚ Aggregating id input :: calls' →
  in_state states id CLIENT_RECEIVED_INPUT_AND_PENDING ∨ in_state states id CLIENT_DISCARDED →
  new = [] ∨ (new = [id] ∧ state = CLIENT_COMPLETED) →
  (finished = false → state = CLIENT_COMPLETED → new = [id]) →
  included_inv ps finished states (Updating id state st :: calls') (inc ++ new).
Proof.
  intros [Hn Hs Hy Hco Hu] Hnd Hp Hst Hnew Hadd.
  assert (Hid : id ∉ inc) by (apply (Hy id input); rewrite Hp; left).
  assert (Hother : ∀ c, c ∈ calls' → c ∈ calls) by (intros c Hc; rewrite Hp; by right).
  assert (Hids : id ∉ call_ids calls').
  { rewrite Hp in Hnd. cbn in Hnd. by apply NoDup_cons in Hnd as [? _]. }
  assert (Hel : ∀ x, x ∈ inc ++ new ↔ x ∈ inc ∨ (x = id ∧ new = [id])).
  { intros x. rewrite elem_of_app. destruct Hnew as [->|[-> _]].
    - split; [intros [?| ?%elem_of_nil]; [by left|done]|intros [?|[_ ?]]; [by left|done]].
    - rewrite list_elem_of_singleton. naive_solver. }
  split.
  - apply NoDup_app. split_and!; [done| |]; destruct Hnew as [->|[-> _]].
    + by intros x _ ?%elem_of_nil.
    + by intros x Hx ->%list_elem_of_singleton.
    + by apply NoDup_nil.
    + apply NoDup_singleton.
  - intros x [Hx|[-> Heq]]%Hel.
    + destruct (Hs x Hx) as [?|[?|[? [st' Hst']]]]; [by left|by right; left|right; right]. split; [done|].
      exists st'. right. rewrite Hp in Hst'. apply elem_of_cons in Hst' as [?|?]; done.
    + destruct Hnew as [Hnil|[_ ->]]; [congruence|].
      destruct Hst as [Hst|Hst]; [right; right; split; [done|exists st; left]|by right; left].
  - intros x inp [?|Hin]%elem_of_cons; [done|]. intros [Hx|[-> _]]%Hel; [by eapply Hy; [apply Hother|]|].
    apply Hids, elem_of_call_ids. by exists (Aggregating id inp).
  - intros Hf x Hx. apply Hel. left. by apply Hco.
  - intros Hf x st' [[= -> <- _]|Hin]%elem_of_cons; apply Hel; [|left; by eapply Hu; [|apply Hother]].
    right. split; [done|]. by apply Hadd.
Qed.

(** The update of a client that is still open. *)
Lemma included_update ps finished states calls calls' inc i state st :
  included_inv ps finished states calls inc → NoDup (call_ids calls) →
  calls ≡ₚ Updating (Z.of_nat i) state st :: calls' →
  states !! i = Some CLIENT_RECEIVED_INPUT_AND_PENDING → ps ≠ PROTOCOL_COMPLETED →
  included_inv ps finished (<[i := state]> states) calls' inc.
Proof.
  intros [Hn Hs Hy Hco Hu] Hnd Hp Hi Hps. pose proof (lookup_lt_Some _ _ _ Hi).
  assert (Hr : in_state states (Z.of_nat i) CLIENT_RECEIVED_INPUT_AND_PENDING) by (split; [lia|by rewrite Nat2Z.id]).
  assert (Hother : ∀ c, c ∈ calls' → c ∈ calls) by (intros c Hc; rewrite Hp; by right).
  assert (Hcall : Updating (Z.of_nat i) state st ∈ calls) by (rewrite Hp; left).
  split; try done.
  - intros id Hid. rewrite !in_state_insert by done. destruct (decide (id = Z.of_nat i)) as [->|Hne].
    + left. left. split; [done|]. destruct (Hs _ Hid) as [Hst|[Hst|[_ [st' Hst']]]];
        [by pose proof (in_state_unique _ _ _ _ Hr Hst)|by pose proof (in_state_unique _ _ _ _ Hr Hst)|].
      by pose proof (call_unique _ _ _ (Z.of_nat i) Hnd Hcall Hst' eq_refl eq_refl) as [= ? _].
    + destruct (Hs id Hid) as [?|[?|[? [st' Hst']]]]; [left; by right|right; left; by right|right; right].
      split; [by right|]. exists st'. rewrite Hp in Hst'. apply elem_of_cons in Hst' as [[= ? _ _]|?]; done.
  - intros id input Hin. eapply Hy. by apply Hother.
  - intros [Hf|?] id Hst; [|done]. apply in_state_insert in Hst as [[-> <-]|[_ Hst]]; [| |done].
    + by eapply Hu.
    + apply Hco; [by left|done].
  - intros Hf id st' Hin. eapply Hu; [done|]. by apply Hother.
Qed.

(** The update of a client that was closed meanwhile. *)
Lemma included_drop ps finished states calls calls' inc i state st :
  included_inv ps finished states calls inc → calls ≡ₚ Updating (Z.of_nat i) state st :: calls' →
  states !! i ≠ Some CLIENT_RECEIVED_INPUT_AND_PENDING → included_inv ps finished states calls' inc.
Proof.
  intros [Hn Hs Hy Hco Hu] Hp Hi.
  assert (Hother : ∀ c, c ∈ calls' → c ∈ calls) by (intros c Hc; rewrite Hp; by right).
  split; try done.
  - intros id Hid. destruct (Hs id Hid) as [?|[?|[Hr [st' Hst']]]]; [by left|by right; left|right; right].
    split; [done|]. exists st'. rewrite Hp in Hst'. apply elem_of_cons in Hst' as [[= -> _ _]|?]; [|done].
    destruct Hr as [_ Hr]. by rewrite Nat2Z.id in Hr.
  - intros id input Hin. eapply Hy. by apply Hother.
  - intros Hf id st' Hin. eapply Hu; [done|]. by apply Hother.
Qed.

(** The end of the protocol. *)
Lemma included_end ps ps' finished next states states' calls inc :
  included_inv ps finished states calls inc →
  (ps' = PROTOCOL_COMPLETED ∧ next = next_on_complete ∧ finished = false) ∨ (ps' = PROTOCOL_ABORTED ∧ next = next_on_abort) →
  length states' = length states → (∀ i st, states !! i = Some st → states' !! i = Some (after next st)) →
  included_inv ps' true states' calls inc.
Proof.
  intros [Hn Hs Hy Hco Hu] Hcase Hlen Hafter.
  assert (Hst : ∀ id st, in_state states id st → in_state states' id (after next st)).
  { intros id st [Hge Hi]. split; [done|]. by apply Hafter. }
  split; try done.
  - intros id Hid. destruct (Hs id Hid) as [H|[H|[H _]]]; apply Hst in H;
      destruct Hcase as [(_ & -> & _)|(_ & ->)]; simpl in H; auto.
  - intros [?|Hps] id [Hge Hi]; [done|]. destruct Hcase as [(_ & -> & ->)|(-> & _)]; [|done].
    apply Hco; [by left|]. destruct (lookup_lt_is_Some_2 states (Z.to_nat id)) as [st Hst'].
    { rewrite <- Hlen. by eapply lookup_lt_Some. }
    split; [done|]. rewrite (Hafter _ _ Hst') in Hi. rewrite Hst'. by destruct st.
Qed.
