(* ===== verification/ProtocolSafety.v ===== *)
(** * Safety of the simple aggregation protocol

    The invariant of the system of concurrent calls, and that every part of a
    call keeps it and fails no check. *)

From S2P Require Import Prelude Bytes Tensor TensorCorrect Aggregators AggregatorsCorrect.
From S2P Require Import SimpleAggregation ProtocolInvariant ProtocolAggregation ProtocolIncluded.

Section safety.
Context `{AggregatorLaws A} {C : Checkpoints} {HC : CheckpointsLaws C}.

(** Callbacks that were made or are pending. *)
Definition all_events (s : System (A := A)) : list Event := events s ++ pending_events (calls s).

Definition closed (s : System (A := A)) : list Z := closes (all_events s) ++ closed_by_caller s.

Definition call_ok (c : Call) : Prop :=
  match c with
  | Aggregating _ input => input ≠ OtherInput
  | Updating _ state _ => final state
  | Notifying _ => True
  end.

(** The first aggregator gave its result away. *)
Definition drained (p0 p : Protocol A) : Prop :=
  Forall2 same_specs (intrinsics_ p0) (intrinsics_ p) ∧
  ∀ i, head (intrinsics_ p) = Some i → consumed (aggregator i).

Definition agg_ok (p0 : Protocol A) (inputs : list (Z * TensorMap)) (p : Protocol A) : Prop :=
  Forall2 (live inputs) (intrinsics_ p0) (intrinsics_ p) ∨ drained p0 p.

Definition result_inv (p0 : Protocol A) (s : System) : Prop :=
  match protocol_state_ (protocol s) with
  | PROTOCOL_COMPLETED => ∃ r, completes (all_events s) ≡ₚ [r] ∧
      (b ← expected_report (included s) BuilderFactory_Create (intrinsics_ p0); Build b) = Ok r
  | _ => completes (all_events s) = []
  end.

Record Inv (p0 : Protocol A) (s : System) : Prop := {
  inv_counters : counters_ok (protocol s);
  inv_clients : clients_inv (protocol_state_ (protocol s)) (client_states_ (protocol s)) (call_ids (calls s)) (closed s);
  inv_calls : Forall call_ok (calls s);
  inv_agg : agg_ok p0 (included s) (protocol s);
  inv_included : intrinsics_ p0 ≠ [] →
    included_inv (protocol_state_ (protocol s)) (aggregation_finished_ (protocol s)) (client_states_ (protocol s))
      (calls s) (included s).*1;
  inv_finished : aggregation_finished_ (protocol s) = true →
    protocol_state_ (protocol s) = PROTOCOL_COMPLETED ∨ protocol_state_ (protocol s) = PROTOCOL_ABORTED ∨
    drained p0 (protocol s);
  inv_completed : protocol_state_ (protocol s) = PROTOCOL_COMPLETED → aggregation_finished_ (protocol s) = true;
  inv_result : result_inv p0 s
}.

(** Requests that do not ask for more clients than a vector can hold, and
    resolvers that return. *)
Definition admissible (a : Action) (s : System (A := A)) : Prop :=
  match a with
  | DoStart n => n < 2 ^ 63
  | DoAddClients n => Z.of_nat (length (client_states_ (protocol s))) + n < 2 ^ 63
  | DoAggregate _ RetrieveResource => ∀ id uri, RetrieveResource id uri ≠ Crash
  | _ => True
  end.

(** ** Methods *)

Lemma resize_clients_spec n (p : Protocol A) :
  counters_ok p → Z.of_nat (length (client_states_ p)) ≤ n →
  match resize_clients n p with
  | Ok p' => counters_ok p' ∧ same_rest p p' ∧ client_states_ p' =
      client_states_ p ++ replicate (Z.to_nat n - length (client_states_ p)) CLIENT_PENDING
  | Error _ _ => False
  | Crash => 2 ^ 63 ≤ n
  end.
Proof.
  intros [Hex Hb] Hn. unfold resize_clients. destruct (Z.leb_spec (2 ^ 63) n); [done|]. split_and!; try done. split.
  - intros state Hne. cbn [with_clients counters client_states_].
    rewrite count_app, count_replicate_pending, Z.add_0_r by done. by apply Hex.
  - cbn [with_clients client_states_]. rewrite length_app, length_replicate. lia.
Qed.

Lemma Start_spec n (p : Protocol A) :
  counters_ok p → (protocol_state_ p = PROTOCOL_CREATED → client_states_ p = []) →
  match Start n p with
  | Ok (p', es) => protocol_state_ p = PROTOCOL_CREATED ∧ protocol_state_ p' = PROTOCOL_STARTED ∧ counters_ok p' ∧
      aggregation_finished_ p' = aggregation_finished_ p ∧ intrinsics_ p' = intrinsics_ p ∧
      (∃ k, client_states_ p' = client_states_ p ++ replicate k CLIENT_PENDING) ∧ closes es = [] ∧ completes es = []
  | Error _ _ => True
  | Crash => 2 ^ 63 ≤ n
  end.
Proof.
  intros Hc Hcr. unfold Start. destruct (Z.ltb_spec n 0); [done|]. unfold CheckProtocolState.
  case_bool_decide as Hps; [|done]. cbn [mbind Res_bind]. unfold SetProtocolState. rewrite Hps. cbn [fcp_check mbind Res_bind].
  rewrite bool_decide_true by (by apply Hcr). cbn [fcp_check].
  match goal with |- context [resize_clients n ?q] => set (p1 := q) end.
  assert (Hc1 : counters_ok p1) by by destruct Hc.
  assert (Hl1 : Z.of_nat (length (client_states_ p1)) ≤ n) by (cbn [p1 client_states_]; rewrite Hcr by done; simpl; lia).
  pose proof (resize_clients_spec n p1 Hc1 Hl1) as Hr.
  destruct (resize_clients n p1) as [p'|c m|]; cbn [mbind Res_bind]; [|done|done].
  destruct Hr as (Hc' & [Hs1 Hs2 Hs3] & Hst). split_and!; try done; [by eexists|by destruct (0 <? n)|by destruct (0 <? n)].
Qed.

Lemma AddClients_spec n (p : Protocol A) :
  counters_ok p →
  match AddClients n p with
  | Ok (p', es) => protocol_state_ p = PROTOCOL_STARTED ∧ counters_ok p' ∧ same_rest p p' ∧
      (∃ k, client_states_ p' = client_states_ p ++ replicate k CLIENT_PENDING) ∧ closes es = [] ∧ completes es = []
  | Error _ _ => True
  | Crash => 2 ^ 63 ≤ Z.of_nat (length (client_states_ p)) + n
  end.
Proof.
  intros Hc. unfold AddClients, CheckProtocolState. case_bool_decide as Hps; [|done]. cbn [mbind Res_bind].
  destruct (Z.leb_spec n 0); [done|].
  pose proof (resize_clients_spec (Z.of_nat (length (client_states_ p)) + n) p Hc ltac:(lia)) as Hr.
  destruct (resize_clients _ p) as [p'|c m|]; cbn [mbind Res_bind]; [|done|done].
  destruct Hr as (Hc' & Hs & Hst). split_and!; try done. by eexists.
Qed.

Lemma GetClientState_spec id (p : Protocol A) :
  match GetClientState id p with
  | Ok state => in_state (client_states_ p) id state
  | Error _ _ => True
  | Crash => False
  end.
Proof.
  unfold GetClientState. destruct (Z.ltb_spec id 0); [done|]. destruct (Z.leb_spec (Z.of_nat (length (client_states_ p))) id); [done|].
  cbn [orb]. destruct (lookup_lt_is_Some_2 (client_states_ p) (Z.to_nat id) ltac:(lia)) as [state Hst]. rewrite Hst. done.
Qed.

Lemma verify_spec id message (p : Protocol A) :
  counters_ok p →
  match ReceiveClientMessage_verify id message p with
  | Ok (p', None) => p' = p
  | Ok (p', Some input) => input ≠ OtherInput ∧ ∃ i, id = Z.of_nat i ∧ client_states_ p !! i = Some CLIENT_PENDING ∧
      client_states_ p' = <[i := CLIENT_RECEIVED_INPUT_AND_PENDING]> (client_states_ p) ∧ counters_ok p' ∧ same_rest p p'
  | Error _ _ => True
  | Crash => False
  end.
Proof.
  intros Hc. unfold ReceiveClientMessage_verify.
  assert (Hmain : ∀ input, input ≠ OtherInput →
    match (if bool_decide (protocol_state_ p = PROTOCOL_CREATED)
           then Error FAILED_PRECONDITION "The protocol hasn't been started"
           else client_state ← GetClientState id p;
                if negb (bool_decide (client_state = CLIENT_PENDING)) then Ok (p, None)
                else p ← SetClientState id CLIENT_RECEIVED_INPUT_AND_PENDING p; Ok (p, Some input)) with
    | Ok (p', None) => p' = p
    | Ok (p', Some input) => input ≠ OtherInput ∧ ∃ i, id = Z.of_nat i ∧ client_states_ p !! i = Some CLIENT_PENDING ∧
        client_states_ p' = <[i := CLIENT_RECEIVED_INPUT_AND_PENDING]> (client_states_ p) ∧ counters_ok p' ∧ same_rest p p'
    | Error _ _ => True
    | Crash => False
    end).
  { intros input Hin. case_bool_decide; [done|]. pose proof (GetClientState_spec id p) as Hg.
    destruct (GetClientState id p) as [state|c m|]; cbn [mbind Res_bind]; [|done|done].
    case_bool_decide as Hp; [|done]. cbn [negb]. destruct Hg as [Hge Hst]. subst state.
    destruct (SetClientState_ok (Z.to_nat id) _ CLIENT_RECEIVED_INPUT_AND_PENDING p Hc Hst) as (p' & Hset & Hst' & Hc' & Hs); [done|].
    rewrite Z2Nat.id in Hset by done. rewrite Hset. cbn [mbind Res_bind]. split; [done|]. exists (Z.to_nat id).
    split_and!; try done. lia. }
  destruct message as [|[[| |]|]]; try done; by apply Hmain.
Qed.

Lemma update_spec i state status (p : Protocol A) from :
  counters_ok p → client_states_ p !! i = Some from → final state →
  match ReceiveClientMessage_update (Z.of_nat i) state status p with
  | Ok (p', es) =>
      (from = CLIENT_RECEIVED_INPUT_AND_PENDING ∧ client_states_ p' = <[i := state]> (client_states_ p) ∧
       counters_ok p' ∧ same_rest p p' ∧ es = [OnCloseClient (Z.of_nat i) status]) ∨
      (from ≠ CLIENT_RECEIVED_INPUT_AND_PENDING ∧ p' = p ∧ es = [])
  | _ => False
  end.
Proof.
  intros Hc Hi Hf. unfold ReceiveClientMessage_update. rewrite Nat2Z.id, Hi.
  destruct (decide (from = CLIENT_RECEIVED_INPUT_AND_PENDING)) as [->|Hne].
  - destruct (SetClientState_ok i _ state p Hc Hi) as (p' & Hset & Hst & Hc' & Hs); [done|].
    rewrite Hset. cbn [mbind Res_bind]. by left.
  - assert ((match from with CLIENT_RECEIVED_INPUT_AND_PENDING =>
        p ← SetClientState (Z.of_nat i) state p; Ok (p, [OnCloseClient (Z.of_nat i) status]) | _ => Ok (p, []) end) = Ok (p, [])) as ->
      by by destruct from.
    by right.
Qed.

Lemma CloseClient_spec id status (p : Protocol A) :
  counters_ok p →
  match CloseClient id status p with
  | Ok p' => ∃ i from, id = Z.of_nat i ∧ client_states_ p !! i = Some from ∧
      ((from = CLIENT_PENDING ∧ ∃ to, (to = CLIENT_DISCARDED ∨ to = CLIENT_FAILED) ∧
        client_states_ p' = <[i := to]> (client_states_ p) ∧ counters_ok p' ∧ same_rest p p') ∨
       (from ≠ CLIENT_PENDING ∧ p' = p))
  | Error _ _ => True
  | Crash => False
  end.
Proof.
  intros Hc. unfold CloseClient. case_bool_decide; [done|]. pose proof (GetClientState_spec id p) as Hg.
  destruct (GetClientState id p) as [state|c m|]; cbn [mbind Res_bind]; [|done|done]. destruct Hg as [Hge Hst].
  case_bool_decide as Hp.
  - subst state. set (to := match status with Ok _ => CLIENT_DISCARDED | _ => CLIENT_FAILED end).
    assert (Hto : to = CLIENT_DISCARDED ∨ to = CLIENT_FAILED) by (subst to; destruct status; auto).
    destruct (SetClientState_ok (Z.to_nat id) _ to p Hc Hst) as (p' & Hset & Hst' & Hc' & Hs); [by destruct Hto as [-> | ->]|].
    rewrite Z2Nat.id in Hset by done. rewrite Hset. exists (Z.to_nat id), CLIENT_PENDING.
    split_and!; [lia|done|]. left. split; [done|]. by exists to.
  - exists (Z.to_nat id), state. split_and!; [lia|done|]. by right.
Qed.

Lemma agg_cases p0 inputs (p : Protocol A) :
  agg_ok p0 inputs p → Forall2 (live inputs) (intrinsics_ p0) (intrinsics_ p) ∨
    (drained p0 p ∧ ∃ i rest, intrinsics_ p = i :: rest ∧ consumed (aggregator i)).
Proof.
  intros [Hl|Hd]; [by left|]. pose proof Hd as [Hs Hc]. destruct (intrinsics_ p) as [|i rest] eqn:Hi.
  - left. by inversion Hs.
  - right. split; [done|]. exists i, rest. split; [done|]. by apply Hc.
Qed.

(** The second part of [ReceiveClientMessage] only changes the aggregators, by
    the input if it is added. *)
Lemma aggregate_spec RetrieveResource id inp p0 inputs (p : Protocol A) :
  inp ≠ OtherInput → agg_ok p0 inputs p →
  match ReceiveClientMessage_aggregate RetrieveResource id inp p with
  | Ok (p', (state, status)) =>
      let new := added_input RetrieveResource id inp state p in
      final state ∧ p' = with_intrinsics (intrinsics_ p') p ∧ agg_ok p0 (inputs ++ new) p' ∧
      (drained p0 p → drained p0 p') ∧
      (new = [] ∨ (new.*1 = [id] ∧ state = CLIENT_COMPLETED)) ∧
      (aggregation_finished_ p = false → state = CLIENT_COMPLETED → new.*1 = [id]) ∧
      (aggregation_finished_ p = true → new = [])
  | Error _ _ => False
  | Crash => ∃ uri, RetrieveResource id uri = Crash
  end.
Proof using HC.
  intros Hin Hagg. unfold ReceiveClientMessage_aggregate, added_input.
  set (source := match inp with InlineBytes bytes => Ok bytes | Uri uri => RetrieveResource id uri | OtherInput => Crash end).
  assert (Hsame : p = with_intrinsics (intrinsics_ p) p) by by destruct p.
  destruct source as [report|c m|] eqn:Hsrc; cbn [mbind Res_bind].
  2: { rewrite bool_decide_false, orb_true_r, app_nil_r by done. split_and!; try done. by left. }
  2: { destruct inp; try done. by eexists. }
  pose proof (ParseCheckpoint_spec report p) as Hparse.
  destruct (ParseCheckpoint report p) as [tm|c m|]; [|rewrite bool_decide_false, orb_true_r, app_nil_r by done; split_and!; try done; by left|done].
  unfold AggregateClientInput. destruct (aggregation_finished_ p) eqn:Hfin; cbn [negb orb].
  { rewrite app_nil_r. split_and!; try done. by left. }
  destruct (agg_cases _ _ _ Hagg) as [Hlive|[Hdr (i & rest & Hi & Hc)]].
  - destruct (accumulate_each_live inputs id tm _ _ Hlive Hparse) as (ins & -> & Hlive').
    rewrite bool_decide_true by done. cbn [negb with_intrinsics intrinsics_].
    split_and!; try done; [by left| |by right].
    intros [Hs Hhead]. split; cbn [intrinsics_ with_intrinsics].
    + eapply Forall2_impl; [exact Hlive'|]. by intros j0 j [].
    + intros j Hj. destruct (intrinsics_ p) as [|i rest] eqn:Hp.
      * inversion Hlive as [Hnil|]. rewrite <- Hnil in Hlive'. inversion Hlive'. by subst.
      * exfalso. inversion Hlive as [|i0 ? ins0 ? Hl _]; subst. destruct (consumed_invalid _ (Hhead i eq_refl)) as [m Hm].
        rewrite (ready_valid _ _ _ (live_ready _ _ _ Hl)) in Hm. done.
  - rewrite Hi in Hparse. destruct (accumulate_each_consumed tm i rest Hc Hparse) as (c & m & Hacc).
    rewrite Hi, Hacc. rewrite bool_decide_false, app_nil_r by done. cbn [negb]. rewrite <- Hi.
    split_and!; try done. by left.
Qed.

Lemma CreateReport_spec p0 inputs (p : Protocol A) :
  Forall well_specified (intrinsics_ p0) → agg_ok p0 inputs p →
  match CreateReport p with
  | (Ok r, p') => Forall2 (live inputs) (intrinsics_ p0) (intrinsics_ p) ∧ drained p0 p' ∧
      p' = finish (with_intrinsics (intrinsics_ p') p) ∧
      (b ← expected_report inputs BuilderFactory_Create (intrinsics_ p0); Build b) = Ok r
  | (Error _ _, p') => agg_ok p0 inputs p' ∧ (drained p0 p → drained p0 p') ∧
      (p' = p ∨ (drained p0 p' ∧ (p' = with_intrinsics (intrinsics_ p') p ∨ p' = finish (with_intrinsics (intrinsics_ p') p))))
  | (Crash, _) => False
  end.
Proof using HC.
  intros Hw Hagg. unfold CreateReport. destruct (agg_cases _ _ _ Hagg) as [Hlive|[Hdr (i & rest & Hi & Hc)]].
  - rewrite (can_report_live _ _ _ Hlive). pose proof (report_each_live inputs _ _ BuilderFactory_Create Hlive Hw) as Hrep.
    destruct (report_each BuilderFactory_Create (intrinsics_ p)) as [result ins]. destruct Hrep as (-> & Hnc & Hsp & Hhead).
    destruct (expected_report inputs BuilderFactory_Create (intrinsics_ p0)) as [b|c m|]; cbn [mbind Res_bind]; [| |done].
    + destruct (Build b) as [r|c m|] eqn:Hb; [| |by apply Build_returns in Hb].
      * split_and!; done.
      * assert (drained p0 (finish (with_intrinsics ins p))) by done. split_and!; [by right|done|]. right. split; [done|]. by right.
    + assert (drained p0 (with_intrinsics ins p)) by done. split_and!; [by right|done|]. right. split; [done|]. by left.
  - rewrite Hi. destruct (can_report_consumed i rest Hc) as [m ->]. split_and!; [done|done|by left].
Qed.

Lemma next_allowed next state to close :
  next = next_on_complete ∨ next = next_on_abort → next state = Some (to, close) → allowed state to.
Proof. intros [-> | ->]; destruct state; simpl; naive_solver. Qed.

(** The loop over all clients. *)
Lemma close_all_ok next (p : Protocol A) :
  counters_ok p → next = next_on_complete ∨ next = next_on_abort →
  ∃ p' ids, close_clients next (all_clients p) p = Ok (p', ids) ∧ counters_ok p' ∧ same_rest p p' ∧
    length (client_states_ p') = length (client_states_ p) ∧
    (∀ i st, client_states_ p !! i = Some st → client_states_ p' !! i = Some (after next st)) ∧ NoDup ids ∧
    (∀ id, id ∈ ids ↔ ∃ i st to, id = Z.of_nat i ∧ client_states_ p !! i = Some st ∧ next st = Some (to, true)).
Proof.
  intros Hc Hnext. destruct (close_clients_ok next (length (client_states_ p)) 0 p Hc eq_refl)
    as (p' & ids & Hcl & Hc' & Hs & Hl & Hst & Hn & Hids).
  { intros state to close. by apply next_allowed. }
  exists p', ids. split_and!; try done.
  intros id. rewrite Hids. split; intros (i & st & to & -> & Hrest); exists i, st, to; (split; [done|]).
  - by destruct Hrest as (_ & ? & ?).
  - split; [lia|done].
Qed.

Lemma closes_aborted m ids : closes (map (aborted m) ids) = ids ∧ completes (map (aborted m) ids) = [].
Proof. induction ids as [|id ids [IH1 IH2]]; [done|]. cbn. split; [by f_equal|done]. Qed.

(** What the end of the protocol does to the clients. *)
Record ended (next : ClientState → option (ClientState * bool)) (ps : ProtocolState) (p p' : Protocol A)
    (ids : list Z) : Prop := {
  ended_from : protocol_state_ p = PROTOCOL_STARTED;
  ended_state : protocol_state_ p' = ps;
  ended_finished : aggregation_finished_ p' = true;
  ended_counters : counters_ok p';
  ended_length : length (client_states_ p') = length (client_states_ p);
  ended_after : ∀ i st, client_states_ p !! i = Some st → client_states_ p' !! i = Some (after next st);
  ended_nodup : NoDup ids;
  ended_ids : ∀ id, id ∈ ids ↔ ∃ i st to, id = Z.of_nat i ∧ client_states_ p !! i = Some st ∧ next st = Some (to, true)
}.

Lemma Complete_spec p0 inputs (p : Protocol A) :
  Forall well_specified (intrinsics_ p0) → agg_ok p0 inputs p → counters_ok p →
  match Complete p with
  | (Ok es, p') => Forall2 (live inputs) (intrinsics_ p0) (intrinsics_ p) ∧ drained p0 p' ∧
      ended next_on_complete PROTOCOL_COMPLETED p p' (closes es) ∧ ∃ r, completes es = [r] ∧
      (b ← expected_report inputs BuilderFactory_Create (intrinsics_ p0); Build b) = Ok r
  | (Error _ _, p') => agg_ok p0 inputs p' ∧ (drained p0 p → drained p0 p') ∧
      (p' = p ∨ (protocol_state_ p = PROTOCOL_STARTED ∧ drained p0 p' ∧
        (p' = with_intrinsics (intrinsics_ p') p ∨ p' = finish (with_intrinsics (intrinsics_ p') p))))
  | (Crash, _) => False
  end.
Proof using HC.
  intros Hw Hagg Hc. unfold Complete, CheckProtocolState. case_bool_decide as Hps; [|by split_and!; [| |left]].
  pose proof (CreateReport_spec p0 inputs p Hw Hagg) as Hrep. destruct (CreateReport p) as [[r|c m|] p1]; [| |done].
  - destruct Hrep as (Hlive & Hdr & Hp1 & Hr). unfold SetProtocolState.
    assert (protocol_state_ p1 = PROTOCOL_STARTED) as -> by (rewrite Hp1; done). cbn [fcp_check mbind Res_bind].
    match goal with |- context [close_clients next_on_complete _ ?q] => set (p2 := q) end.
    assert (Hst2 : client_states_ p2 = client_states_ p) by (cbn [p2 client_states_]; by rewrite Hp1).
    assert (Hk2 : counters p2 = counters p) by (cbn [p2 counters]; by rewrite Hp1).
    assert (Hc2 : counters_ok p2) by (destruct Hc; split; rewrite ?Hst2, ?Hk2; done).
    destruct (close_all_ok next_on_complete p2 Hc2 ltac:(by left)) as (p3 & ids & -> & Hc3 & [Hs1 Hs2 Hs3] & Hl3 & Hst3 & Hn & Hids).
    rewrite Hst2 in Hl3, Hst3, Hids. destruct (closes_aborted "The protocol has completed before the client input has been aggregated." ids) as [Hcl Hco].
    split; [done|]. split; [|split].
    + unfold drained. rewrite Hs3. exact Hdr.
    + rewrite closes_app, Hcl. cbn. rewrite app_nil_r. split; try done. rewrite Hs2. cbn [p2 aggregation_finished_]. by rewrite Hp1.
    + exists r. split; [|done]. by rewrite completes_app, Hco.
  - destruct Hrep as (Ha & Hd & Hor). split_and!; [done|done|]. destruct Hor as [?|[? ?]]; [by left|by right].
Qed.

Lemma Abort_spec (p : Protocol A) :
  counters_ok p →
  match Abort p with
  | Ok (p', es) => ended next_on_abort PROTOCOL_ABORTED p p' (closes es) ∧ completes es = [] ∧
      intrinsics_ p' = intrinsics_ p
  | Error _ _ => True
  | Crash => False
  end.
Proof.
  intros Hc. unfold Abort, CheckProtocolState. case_bool_decide as Hps; [|done]. cbn [mbind Res_bind]. unfold SetProtocolState.
  cbn [finish protocol_state_]. rewrite Hps. cbn [fcp_check mbind Res_bind].
  match goal with |- context [close_clients next_on_abort _ ?q] => set (p2 := q) end.
  assert (Hc2 : counters_ok p2) by by destruct Hc.
  destruct (close_all_ok next_on_abort p2 Hc2 ltac:(by right)) as (p3 & ids & -> & Hc3 & [Hs1 Hs2 Hs3] & Hl3 & Hst3 & Hn & Hids).
  cbn [mbind Res_bind]. destruct (closes_aborted "The protocol has aborted before the client input has been aggregated." ids) as [Hcl Hco].
  rewrite Hcl. split_and!; [|done|by rewrite Hs3]. by split.
Qed.
End safety.
