(* ===== verification/ProtocolSystem.v ===== *)
(** * The simple aggregation protocol, with all its interleavings *)

From S2P Require Import Prelude Bytes Tensor TensorCorrect Aggregators AggregatorsCorrect.
From S2P Require Import SimpleAggregation ProtocolInvariant ProtocolAggregation ProtocolIncluded.
From S2P Require Import ProtocolSafety.

Section system.
Context `{AggregatorLaws A} {C : Checkpoints} {HC : CheckpointsLaws C}.

(** ** Notifications *)

Lemma all_events_notifying p es (s : System (A := A)) : all_events (notifying p es s) = all_events s ++ es.
Proof. unfold all_events. cbn [notifying events calls]. rewrite pending_events_app. cbn. by rewrite app_nil_r, (assoc_L (++)). Qed.

Lemma closed_notifying p es (s : System (A := A)) : closed (notifying p es s) ≡ₚ closes es ++ closed s.
Proof.
  unfold closed. rewrite all_events_notifying, closes_app. cbn [notifying closed_by_caller].
  rewrite (assoc_L (++)). f_equiv. apply Permutation_app_comm.
Qed.

Lemma call_ids_notifying p es (s : System (A := A)) : call_ids (calls (notifying p es s)) = call_ids (calls s).
Proof. cbn [notifying calls]. rewrite call_ids_app. apply app_nil_r. Qed.

Lemma included_notifying ps finished states p es (s : System (A := A)) inc :
  included_inv ps finished states (calls s) inc → included_inv ps finished states (calls (notifying p es s)) inc.
Proof.
  apply included_calls. intros c Hc. cbn [notifying calls]. rewrite elem_of_app, list_elem_of_singleton.
  split; [|by left]. intros [?| ->]; done.
Qed.

Lemma calls_ok_notifying p es (s : System (A := A)) :
  Forall call_ok (calls s) → Forall call_ok (calls (notifying p es s)).
Proof. intros Hc. cbn [notifying calls]. apply Forall_app. split; [done|]. by apply Forall_singleton. Qed.

(** The aggregators of two states are the same. *)
Lemma agg_ok_same p0 inputs (p p' : Protocol A) :
  intrinsics_ p' = intrinsics_ p → agg_ok p0 inputs p → agg_ok p0 inputs p'.
Proof. unfold agg_ok, drained. by intros ->. Qed.

Lemma drained_same p0 (p p' : Protocol A) : intrinsics_ p' = intrinsics_ p → drained p0 p → drained p0 p'.
Proof. unfold drained. by intros ->. Qed.

(** New clients. *)
Lemma Inv_grow p0 s p' es k :
  Inv p0 s → protocol_state_ (protocol s) = PROTOCOL_CREATED ∨ protocol_state_ (protocol s) = PROTOCOL_STARTED →
  protocol_state_ p' = PROTOCOL_STARTED → counters_ok p' →
  aggregation_finished_ p' = aggregation_finished_ (protocol s) → intrinsics_ p' = intrinsics_ (protocol s) →
  client_states_ p' = client_states_ (protocol s) ++ replicate k CLIENT_PENDING → closes es = [] → completes es = [] →
  Inv p0 (notifying p' es s).
Proof.
  intros [Hco Hcl Hca Hag Hin Hfi Hcf Hre] Hps Hps' Hc' Hf' Hi' Hst' Hces Hmes. split; cbn [notifying protocol included].
  - done.
  - rewrite Hps', Hst', call_ids_notifying. eapply inv_permute; [by apply (inv_grow _ _ _ _ Hcl)|done|].
    rewrite closed_notifying, Hces. done.
  - by apply calls_ok_notifying.
  - by eapply agg_ok_same.
  - intros Hne. rewrite Hst', Hf'. apply included_notifying. eapply included_grow; [by rewrite Hps'|by apply Hin].
  - rewrite Hf', Hps'. intros [Hx|[Hx|Hx]]%Hfi; [destruct Hps; congruence..|]. right. right. by eapply drained_same.
  - by rewrite Hps'.
  - unfold result_inv in *. cbn [notifying protocol]. rewrite Hps', all_events_notifying, completes_app, Hmes, app_nil_r.
    destruct Hps as [Hx|Hx]; by rewrite Hx in Hre.
Qed.

(** The end of the protocol. *)
Lemma Inv_end p0 s p' es next ps :
  Inv p0 s → ended next ps (protocol s) p' (closes es) →
  (ps = PROTOCOL_COMPLETED ∧ next = next_on_complete ∧ drained p0 p' ∧
    Forall2 (live (included s)) (intrinsics_ p0) (intrinsics_ (protocol s)) ∧ ∃ r, completes es = [r] ∧
    (b ← expected_report (included s) BuilderFactory_Create (intrinsics_ p0); Build b) = Ok r) ∨
  (ps = PROTOCOL_ABORTED ∧ next = next_on_abort ∧ intrinsics_ p' = intrinsics_ (protocol s) ∧ completes es = []) →
  Inv p0 (notifying p' es s).
Proof.
  intros [Hco Hcl Hca Hag Hin Hfi Hcf Hre] [Hps Hps' Hf Hc' Hlen Haft Hnd Hids] Hcase.
  assert (Hnext : next = next_on_complete ∨ next = next_on_abort) by (destruct Hcase as [(_ & ? & _)|(_ & ? & _)]; auto).
  assert (Hend : ps = PROTOCOL_COMPLETED ∨ ps = PROTOCOL_ABORTED) by (destruct Hcase as [(? & _)|(? & _)]; auto).
  split; cbn [notifying protocol included].
  - done.
  - rewrite Hps', call_ids_notifying. eapply (inv_end _ _ _ _ Hcl); try done. apply closed_notifying.
  - by apply calls_ok_notifying.
  - destruct Hcase as [(_ & _ & Hd & _)|(_ & _ & Hi & _)]; [by right|by eapply agg_ok_same].
  - intros Hne. rewrite Hps', Hf. apply included_notifying. eapply included_end; [by apply Hin| |done|done].
    destruct Hcase as [(-> & -> & Hd & Hlive & _)|(-> & -> & _)]; [left|by right]. split_and!; try done.
    destruct (aggregation_finished_ (protocol s)) eqn:Hfin; [|done].
    destruct (Hfi eq_refl) as [Hx|[Hx|[_ Hhead]]]; [congruence..|]. exfalso.
    destruct (intrinsics_ p0) as [|i0 ins0]; [done|]. apply Forall2_cons_inv_l in Hlive as (i & ins & Hl & _ & Heq).
    rewrite Heq in Hhead. destruct (consumed_invalid _ (Hhead i eq_refl)) as [m Hm].
    rewrite (ready_valid _ _ _ (live_ready _ _ _ Hl)) in Hm. done.
  - intros _. rewrite Hps'. destruct Hend; auto.
  - by rewrite Hps'.
  - unfold result_inv in *. cbn [notifying protocol included]. rewrite Hps', all_events_notifying, completes_app.
    rewrite Hps in Hre. rewrite Hre. cbn [app]. destruct Hcase as [(-> & _ & _ & _ & r & -> & Hr)|(-> & _ & _ & ->)]; [by exists r|done].
Qed.

(** The state of a client that is not open any more does not matter for the rest. *)
Lemma Inv_same_events p0 s p' calls' (closed' : list Z) :
  Inv p0 s → same_rest (protocol s) p' → counters_ok p' →
  clients_inv (protocol_state_ p') (client_states_ p') (call_ids calls') (closes (all_events s) ++ closed') →
  pending_events calls' = pending_events (calls s) → Forall call_ok calls' →
  (intrinsics_ p0 ≠ [] → included_inv (protocol_state_ p') (aggregation_finished_ p') (client_states_ p') calls' (included s).*1) →
  Inv p0 {| protocol := p'; calls := calls'; events := events s; included := included s; closed_by_caller := closed' |}.
Proof.
  intros [Hco Hcl Hca Hag Hin Hfi Hcf Hre] [Hs1 Hs2 Hs3] Hc' Hcl' Hpe Hca' Hin'.
  split; cbn [protocol calls included events closed_by_caller]; try done.
  - unfold closed, all_events. cbn [calls events closed_by_caller]. by rewrite Hpe.
  - by eapply agg_ok_same.
  - rewrite Hs1, Hs2. intros [?|[?|?]]%Hfi; [by left|by right; left|right; right; by eapply drained_same].
  - by rewrite Hs1, Hs2.
  - unfold result_inv, all_events in *. cbn [protocol calls included events]. by rewrite Hs1, Hpe.
Qed.

(** ** Steps *)

Definition step_ok (p0 : Protocol A) (a : Action) (s : System (A := A)) (r : Res (System (A := A))) : Prop :=
  match r with Ok s' => Inv p0 s' | Error _ _ => False | Crash => ¬ admissible a s end.

Lemma run_receive p0 s id message :
  Inv p0 s → step_ok p0 (DoReceiveClientMessage id message) s (run (DoReceiveClientMessage id message) s).
Proof.
  intros Hinv. pose proof Hinv as [Hco Hcl Hca Hag Hin Hfi Hcf Hre]. cbn [run].
  pose proof (verify_spec id message (protocol s) Hco) as Hv.
  destruct (ReceiveClientMessage_verify id message (protocol s)) as [[p' [inp|]]|c m|]; cbn [returning]; [| |done|done].
  - destruct Hv as (Hok & i & -> & Hi & Hst & Hc' & Hs). pose proof Hs as [Hs1 Hs2 Hs3].
    eapply Inv_same_events; try done.
    + rewrite Hs1, Hst, call_ids_app. by apply (inv_receive _ _ _ _ Hcl).
    + rewrite pending_events_app. apply app_nil_r.
    + apply Forall_app. split; [done|]. by apply Forall_singleton.
    + intros Hne. rewrite Hs1, Hs2, Hst. specialize (Hin Hne). pose proof (included_pending _ _ _ _ _ _ Hin Hi).
      apply included_receive; [done|]. by eapply included_change.
  - subst p'. rewrite app_nil_r. by destruct s.
Qed.

Lemma run_aggregate p0 s n RetrieveResource :
  Inv p0 s → step_ok p0 (DoAggregate n RetrieveResource) s (run (DoAggregate n RetrieveResource) s).
Proof using HC.
  intros Hinv. pose proof Hinv as [Hco Hcl Hca Hag Hin Hfi Hcf Hre]. cbn [run].
  destruct (calls s !! n) as [[id inp|id st status|es]|] eqn:Hn; [|done..].
  assert (Hok : inp ≠ OtherInput) by exact (Forall_lookup_1 _ _ _ _ Hca Hn).
  pose proof (aggregate_spec RetrieveResource id inp p0 (included s) (protocol s) Hok Hag) as Hspec.
  destruct (ReceiveClientMessage_aggregate RetrieveResource id inp (protocol s)) as [[p' [state status]]|c m|];
    cbn [mbind Res_bind]; [|done|destruct Hspec as [uri Huri]; intros Ha; by apply (Ha id uri)].
  destruct Hspec as (Hfinal & Hp' & Hag' & Hdr & Hnew & Hadd & Hnone).
  assert (Hperm : calls s ≡ₚ Aggregating id inp :: delete n (calls s)) by by apply delete_Permutation.
  assert (Hperm' : <[n := Updating id state status]> (calls s) ≡ₚ Updating id state status :: delete n (calls s))
    by by eapply insert_Permutation_delete.
  assert (Hids : call_ids (<[n := Updating id state status]> (calls s)) ≡ₚ call_ids (calls s)).
  { rewrite Hperm'. transitivity (call_ids (Aggregating id inp :: delete n (calls s))); [done|]. by rewrite <- Hperm. }
  assert (Hev : pending_events (<[n := Updating id state status]> (calls s)) ≡ₚ pending_events (calls s)).
  { rewrite Hperm'. transitivity (pending_events (Aggregating id inp :: delete n (calls s))); [done|]. by rewrite <- Hperm. }
  assert (Hps : protocol_state_ p' = protocol_state_ (protocol s)) by by rewrite Hp'.
  assert (Hst : client_states_ p' = client_states_ (protocol s)) by by rewrite Hp'.
  assert (Hk : counters p' = counters (protocol s)) by by rewrite Hp'.
  assert (Hf : aggregation_finished_ p' = aggregation_finished_ (protocol s)) by by rewrite Hp'.
  assert (Hidin : id ∈ call_ids (calls s)) by (apply elem_of_call_ids; exists (Aggregating id inp); split; [by eapply list_elem_of_lookup_2|done]).
  split; cbn [protocol calls included events closed_by_caller].
  - destruct Hco. split; rewrite ?Hk, ?Hst; done.
  - rewrite Hps, Hst. unfold closed, all_events. cbn [calls events closed_by_caller].
    eapply inv_permute; [exact Hcl|done|]. unfold closed, all_events. by rewrite Hev.
  - apply Forall_insert; done.
  - done.
  - intros Hne. specialize (Hin Hne). rewrite Hps, Hst, Hf, fmap_app.
    eapply (included_calls _ _ _ (Updating id state status :: delete n (calls s))); [intros c _; by rewrite Hperm'|].
    eapply included_aggregate; [exact Hin|apply Hcl|exact Hperm|by apply (inv_calls_state _ _ _ _ Hcl)| |done].
    destruct Hnew as [->|[? ?]]; [by left|by right].
  - rewrite Hf, Hps. intros [?|[?|?]]%Hfi; [by left|by right; left|right; right; by apply Hdr].
  - rewrite Hf, Hps. done.
  - unfold result_inv, all_events in *. cbn [protocol calls included events]. rewrite Hps.
    destruct (protocol_state_ (protocol s)) eqn:Hp.
    1,2,4: apply Permutation_nil_r; by rewrite Hev, Hre.
    destruct Hre as (r & Hr & Hexp). exists r. rewrite Hev. split; [done|].
    rewrite Hnone, app_nil_r by by apply Hcf. done.
Qed.

Lemma run_update p0 s n : Inv p0 s → step_ok p0 (DoUpdate n) s (run (DoUpdate n) s).
Proof.
  intros Hinv. pose proof Hinv as [Hco Hcl Hca Hag Hin Hfi Hcf Hre]. cbn [run].
  destruct (calls s !! n) as [[id inp|id state status|es]|] eqn:Hn; [done| |done|done].
  assert (Hfinal : final state) by exact (Forall_lookup_1 _ _ _ _ Hca Hn).
  assert (Hperm : calls s ≡ₚ Updating id state status :: delete n (calls s)) by by apply delete_Permutation.
  assert (Hids : call_ids (calls s) ≡ₚ id :: call_ids (delete n (calls s))) by by rewrite Hperm at 1.
  assert (Hev : pending_events (calls s) ≡ₚ pending_events (delete n (calls s))) by by rewrite Hperm at 1.
  assert (Hidin : id ∈ call_ids (calls s)) by (rewrite Hids; left).
  assert (Hfrom : ∃ i from, id = Z.of_nat i ∧ client_states_ (protocol s) !! i = Some from).
  { destruct (inv_calls_state _ _ _ _ Hcl _ Hidin) as [[Hge Hi]|[Hge Hi]]; eexists (Z.to_nat id), _; (split; [lia|done]). }
  destruct Hfrom as (i & from & -> & Hi).
  assert (Hca' : Forall call_ok (delete n (calls s))) by by apply Forall_delete.
  pose proof (update_spec i state status (protocol s) from Hco Hi Hfinal) as Hspec.
  destruct (ReceiveClientMessage_update (Z.of_nat i) state status (protocol s)) as [[p' es]|c m|]; cbn [mbind Res_bind]; [|done|done].
  destruct Hspec as [(-> & Hst & Hc' & [Hs1 Hs2 Hs3] & ->)|(Hne & -> & ->)].
  - assert (Hstarted : protocol_state_ (protocol s) = PROTOCOL_STARTED) by (eapply (not_final_open _ _ _ _ Hcl); [exact Hi|by intros []]).
    split; cbn [protocol calls included events closed_by_caller]; try done.
    + rewrite Hs1, Hst. eapply (inv_close _ _ _ _ Hcl); try done.
      { by intros []. }
      unfold closed, all_events. cbn [calls events closed_by_caller]. rewrite Hev, !closes_app. cbn. solve_Permutation.
    + by eapply agg_ok_same.
    + intros Hne. rewrite Hs1, Hs2, Hst. eapply included_update; [by apply Hin|apply Hcl|done|done|by rewrite Hstarted].
    + rewrite Hs1, Hs2. intros [?|[?|?]]%Hfi; [by left|by right; left|right; right; by eapply drained_same].
    + by rewrite Hs1, Hs2.
    + unfold result_inv, all_events in *. cbn [protocol calls included events]. rewrite Hs1, Hstarted in *.
      apply Permutation_nil_r. rewrite !completes_app, <- Hev. cbn. by rewrite app_nil_r, <- completes_app, Hre.
  - split; cbn [protocol calls included events closed_by_caller]; try done.
    + eapply inv_permute; [eapply (inv_drop _ _ _ _ Hcl); [done|congruence]|done|].
      unfold closed, all_events. cbn [calls events closed_by_caller]. by rewrite app_nil_r, Hev.
    + intros Hnil. eapply included_drop; [by apply Hin|done|congruence].
    + unfold result_inv, all_events in *. cbn [protocol calls included events]. rewrite app_nil_r.
      destruct (protocol_state_ (protocol s)); try (apply Permutation_nil_r; by rewrite <- Hev, Hre).
      destruct Hre as (r & Hr & Hexp). exists r. by rewrite <- Hev.
Qed.

Lemma run_notify p0 s n : Inv p0 s → step_ok p0 (DoNotify n) s (run (DoNotify n) s).
Proof.
  intros Hinv. pose proof Hinv as [Hco Hcl Hca Hag Hin Hfi Hcf Hre]. cbn [run].
  destruct (calls s !! n) as [[id inp|id state status|[|e es]]|] eqn:Hn; try done.
  assert (Hperm : calls s ≡ₚ Notifying (e :: es) :: delete n (calls s)) by by apply delete_Permutation.
  assert (Hperm' : <[n := Notifying es]> (calls s) ≡ₚ Notifying es :: delete n (calls s)) by by eapply insert_Permutation_delete.
  assert (Hids : call_ids (<[n := Notifying es]> (calls s)) ≡ₚ call_ids (calls s)).
  { rewrite Hperm'. transitivity (call_ids (Notifying (e :: es) :: delete n (calls s))); [done|]. by rewrite <- Hperm. }
  assert (Hev : pending_events (calls s) ≡ₚ e :: pending_events (<[n := Notifying es]> (calls s))).
  { rewrite Hperm'. etrans; [apply pending_events_proper, Hperm|done]. }
  assert (Hall : (events s ++ [e]) ++ pending_events (<[n := Notifying es]> (calls s)) ≡ₚ all_events s).
  { unfold all_events. rewrite Hev. by rewrite <- (assoc_L (++)). }
  split; cbn [protocol calls included events closed_by_caller]; try done.
  - unfold closed, all_events. cbn [calls events closed_by_caller]. eapply inv_permute; [exact Hcl|done|].
    unfold closed. by rewrite Hall.
  - by apply Forall_insert.
  - intros Hne. specialize (Hin Hne). eapply included_calls; [|exact Hin]. intros c Hc.
    assert (Hold : c ∈ calls s ↔ c ∈ Notifying (e :: es) :: delete n (calls s)) by by rewrite <- Hperm.
    rewrite Hold, Hperm', !elem_of_cons. split; (intros [->|?]; [done|by right]).
  - unfold result_inv in *. cbn [protocol included]. unfold all_events at 1. cbn [calls events].
    destruct (protocol_state_ (protocol s)).
    1,2,4: apply Permutation_nil_r; unfold all_events; cbn [calls events]; by rewrite Hall, Hre.
    destruct Hre as (r & Hr & Hexp). exists r. by rewrite Hall.
Qed.

Lemma run_close p0 s id status : Inv p0 s → step_ok p0 (DoCloseClient id status) s (run (DoCloseClient id status) s).
Proof.
  intros Hinv. pose proof Hinv as [Hco Hcl Hca Hag Hin Hfi Hcf Hre]. cbn [run].
  pose proof (CloseClient_spec id status (protocol s) Hco) as Hspec.
  destruct (CloseClient id status (protocol s)) as [p'|c m|]; cbn [returning]; [|done|done].
  destruct Hspec as (i & from & -> & Hi & Hcase).
  assert (Hget : GetClientState (Z.of_nat i) (protocol s) = Ok from).
  { unfold GetClientState. apply lookup_lt_Some in Hi as Hlt. rewrite (proj2 (Z.ltb_ge _ _)), (proj2 (Z.leb_gt _ _)) by lia.
    cbn [orb]. by rewrite Nat2Z.id, Hi. }
  rewrite Hget. destruct Hcase as [(-> & to & Hto & Hst & Hc' & Hs)|(Hne & ->)].
  - pose proof Hs as [Hs1 Hs2 Hs3]. eapply Inv_same_events; try done.
    + rewrite Hs1, Hst. eapply (inv_close _ _ _ _ Hcl); [done|by intros []|by destruct Hto as [-> | ->]|done|done|].
      unfold closed. solve_Permutation.
    + intros Hnil. rewrite Hs1, Hs2, Hst. specialize (Hin Hnil).
      eapply included_change; [done|by eapply included_pending|by destruct Hto as [-> | ->]|done].
  - assert ((match from with CLIENT_PENDING => [Z.of_nat i] | _ => [] end) = []) as -> by by destruct from.
    rewrite app_nil_r. by destruct s.
Qed.

Lemma run_spec p0 a s :
  Forall well_specified (intrinsics_ p0) → Inv p0 s → step_ok p0 a s (run a s).
Proof using HC.
  intros Hw Hinv. pose proof Hinv as [Hco Hcl Hca Hag Hin Hfi Hcf Hre].
  destruct a as [n|n|id message|n R|n|n|id status| |].
  - cbn [run]. pose proof (Start_spec n (protocol s) Hco (inv_created _ _ _ _ Hcl)) as Hspec.
    destruct (Start n (protocol s)) as [[p' es]|c m|]; cbn [returning step_ok admissible]; [|done|lia].
    destruct Hspec as (Hps & Hps' & Hc' & Hf & Hi & [k Hst] & Hce & Hme). eapply Inv_grow; try done. by left.
  - cbn [run]. pose proof (AddClients_spec n (protocol s) Hco) as Hspec.
    destruct (AddClients n (protocol s)) as [[p' es]|c m|]; cbn [returning step_ok admissible]; [|done|lia].
    destruct Hspec as (Hps & Hc' & [Hs1 Hs2 Hs3] & [k Hst] & Hce & Hme). eapply Inv_grow; try done; [by right|by rewrite Hs1].
  - by apply run_receive.
  - by apply run_aggregate.
  - by apply run_update.
  - by apply run_notify.
  - by apply run_close.
  - cbn [run]. pose proof (Complete_spec p0 (included s) (protocol s) Hw Hag Hco) as Hspec.
    destruct (Complete (protocol s)) as [[es|c m|] p']; [| |done].
    + destruct Hspec as (Hlive & Hdr & Hend & r & Hr). eapply Inv_end; [done|exact Hend|]. left. split_and!; try done. by exists r.
    + destruct Hspec as (Hag' & Hdr & Hor). cbn [step_ok].
      destruct Hor as [->|(Hps & Hd' & Hor)]; [by destruct s|].
      assert (Hf : protocol_state_ p' = protocol_state_ (protocol s) ∧ client_states_ p' = client_states_ (protocol s) ∧
        counters p' = counters (protocol s) ∧ (aggregation_finished_ p' = false → aggregation_finished_ (protocol s) = false)).
      { destruct Hor as [-> | ->]; by split_and!. }
      destruct Hf as (Hps' & Hst & Hk & Hf).
      split; cbn [protocol calls included events closed_by_caller]; rewrite ?Hps', ?Hst; try done.
      * destruct Hco. split; rewrite ?Hk, ?Hst; done.
      * intros Hne. specialize (Hin Hne) as [Hn Hs Hy Hcm Hu]. split; try done.
        -- intros [Hx|Hx]; [apply Hcm; left; by apply Hf|congruence].
        -- intros Hx. apply Hu. by apply Hf.
      * intros _. by right; right.
      * congruence.
      * unfold result_inv in *. cbn [protocol]. by rewrite Hps'.
  - cbn [run]. pose proof (Abort_spec (protocol s) Hco) as Hspec.
    destruct (Abort (protocol s)) as [[p' es]|c m|]; cbn [returning]; [|done|done].
    destruct Hspec as (Hend & Hme & Hi). eapply Inv_end; [done|exact Hend|]. by right.
Qed.

(** ** Reachable systems *)

Lemma initial_Inv p0 :
  protocol_state_ p0 = PROTOCOL_CREATED → client_states_ p0 = [] → counters p0 = no_clients →
  aggregation_finished_ p0 = false →
  Forall (λ i, ready (spec_dtype (input i)) (spec_shape (input i)) (aggregator i)) (intrinsics_ p0) →
  Inv p0 (initial p0).
Proof.
  intros Hps Hst Hk Hf Hr. split; cbn [initial protocol calls included]; rewrite ?Hst, ?Hps.
  - split; rewrite ?Hk, ?Hst; [by intros []|done].
  - split.
    + done.
    + by intros [?|?].
    + by apply NoDup_nil.
    + by intros id ?%elem_of_nil.
    + by intros id [_ ?].
    + by apply NoDup_nil.
    + intros id. split; [by intros ?%elem_of_nil|by intros (st & [_ ?] & _)].
  - constructor.
  - left. induction Hr as [|i ins Hi _ IH]; constructor; [by split|done].
  - intros _. split.
    + by apply NoDup_nil.
    + by intros id ?%elem_of_nil.
    + by intros id inp ?%elem_of_nil.
    + by intros _ id [_ ?].
    + by intros _ id st ?%elem_of_nil.
  - by rewrite Hf.
  - done.
  - unfold result_inv. cbn [initial protocol]. by rewrite Hps.
Qed.

Lemma reachable_Inv p0 s :
  Forall well_specified (intrinsics_ p0) → Inv p0 (initial p0) → reachable p0 s → Inv p0 s.
Proof using HC.
  intros Hw Hi. induction 1 as [|s a s' _ IH Hrun]; [done|].
  pose proof (run_spec p0 a s Hw IH) as Hspec. by rewrite Hrun in Hspec.
Qed.
End system.
