(* ===== verification/ProtocolProperties.v ===== *)
(** * Properties of the simple aggregation protocol *)

From S2P Require Import Prelude Bytes Tensor TensorCorrect Aggregators AggregatorsCorrect.
From S2P Require Import SimpleAggregation ProtocolInvariant ProtocolAggregation ProtocolIncluded.
From S2P Require Import ProtocolSafety ProtocolSystem.

Section properties.
Context `{AggregatorLaws A} {C : Checkpoints} {HC : CheckpointsLaws C} {T : TfShapes}.

(** The factories give aggregators for the type and the shape, of a size that
    memory can hold. *)
Definition registry_ok (registry : Registry A) : Prop :=
  ∀ uri factory dt sh a, registry !! uri = Some factory → NumElements sh < 2 ^ 59 →
    factory dt sh = Ok a → ready dt sh a.

(** A protocol that was created from a configuration. *)
Record created (registry : Registry A) (configs : list ServerAggregationConfig) (p0 : Protocol A) : Prop := {
  created_registry : registry_ok registry;
  created_ok : Create registry configs = Ok p0;
  created_small : Forall (λ i, NumElements (spec_shape (input i)) < 2 ^ 59) (intrinsics_ p0)
}.

Lemma CreateIntrinsic_ok registry config i :
  registry_ok registry → CreateIntrinsic registry config = Ok i → NumElements (spec_shape (input i)) < 2 ^ 59 →
  well_specified i ∧ ready (spec_dtype (input i)) (spec_shape (input i)) (aggregator i).
Proof.
  intros Hreg Hc Hsmall. unfold CreateIntrinsic in Hc. apply bind_ok in Hc as (factory & Hf & Hc).
  destruct (intrinsic_args config) as [|[arg|] args]; [done| |done]. destruct (output_tensors config) as [|out outs]; [done|].
  apply bind_ok in Hc as (ispec & _ & (ospec & _ & Hc)%bind_ok).
  destruct (decide (spec_dtype ispec = spec_dtype ospec)) as [Hd|]; [|by rewrite bool_decide_false in Hc].
  destruct (decide (spec_shape ispec = spec_shape ospec)) as [Hs|]; [|by rewrite bool_decide_true, bool_decide_false in Hc].
  rewrite !bool_decide_true in Hc by done. cbn [negb orb] in Hc. apply bind_ok in Hc as (a & Ha & [= <-]).
  split; [done|]. cbn [input aggregator] in *. unfold GetAggregatorFactory in Hf.
  destruct (registry !! intrinsic_uri config) as [f|] eqn:Hl; [|done]. injection Hf as ->. by eapply Hreg.
Qed.

Lemma created_Inv registry configs p0 :
  created registry configs p0 → Forall well_specified (intrinsics_ p0) ∧ Inv p0 (initial p0).
Proof.
  intros [Hreg Hc Hsmall]. unfold Create in Hc. apply bind_ok in Hc as ([] & _ & (ins & Hm & [= <-])%bind_ok).
  cbn [intrinsics_] in *.
  assert (Hall : Forall (λ i, well_specified i ∧ ready (spec_dtype (input i)) (spec_shape (input i)) (aggregator i)) ins).
  { clear -Hreg Hm Hsmall. revert ins Hm Hsmall. induction configs as [|config configs IH]; intros ins Hm Hsmall.
    - injection Hm as <-. constructor.
    - cbn [mapM] in Hm. apply bind_ok in Hm as (i & Hi & (rest & Hm & [= <-])%bind_ok).
      apply Forall_cons in Hsmall as [Hs Hsmall]. constructor; [by eapply CreateIntrinsic_ok|by apply IH]. }
  apply Forall_and in Hall as [Hw Hr]. split; [done|]. by apply initial_Inv.
Qed.

(** C5: no interleaving of concurrent calls of the protocol fails a check: in every
    reachable state every part of every call, of every method with any
    arguments, runs to its end, as long as the number of clients fits a vector
    and the resolver of resources returns. *)
Theorem protocol_never_crashes registry configs p0 s a :
  created registry configs p0 → reachable p0 s → admissible a s → ∃ s', run a s = Ok s'.
Proof using HC.
  intros Hc Hr Ha. destruct (created_Inv _ _ _ Hc) as [Hw Hi].
  pose proof (run_spec p0 a s Hw (reachable_Inv p0 s Hw Hi Hr)) as Hspec.
  destruct (run a s) as [s'|c m|]; [by eexists|done|done].
Qed.

(** in every reachable state [GetStatus] reports the exact numbers of clients
    in each state, and the buckets are exhaustive: completed, failed, pending and
    aborted clients are all clients, and the completed ones are those whose input
    is included, pending or discarded. *)
Lemma GetStatus_exact registry configs p0 s :
  created registry configs p0 → reachable p0 s →
  let states := client_states_ (protocol s) in let m := GetStatus (protocol s) in
  num_inputs_aggregated_and_included m = count CLIENT_COMPLETED states ∧
  num_inputs_aggregated_and_pending m = count CLIENT_RECEIVED_INPUT_AND_PENDING states ∧
  num_inputs_discarded m = count CLIENT_DISCARDED states ∧
  num_clients_failed m = count CLIENT_FAILED states ∧
  num_clients_aborted m = count CLIENT_ABORTED states ∧
  num_clients_pending m = count CLIENT_PENDING states ∧
  num_clients_completed m + num_clients_failed m + num_clients_pending m + num_clients_aborted m =
    Z.of_nat (length states) ∧
  num_clients_completed m = num_inputs_aggregated_and_included m + num_inputs_aggregated_and_pending m +
    num_inputs_discarded m.
Proof using HC.
  intros Hc Hr states m. destruct (created_Inv _ _ _ Hc) as [Hw Hi].
  destruct (inv_counters _ _ (reachable_Inv p0 s Hw Hi Hr)) as [Hex Hb]. fold states in Hex, Hb.
  assert (Hk : ∀ st, st ≠ CLIENT_PENDING → counter st (counters (protocol s)) = count st states) by done.
  pose proof (Hk CLIENT_COMPLETED ltac:(done)) as H1. pose proof (Hk CLIENT_RECEIVED_INPUT_AND_PENDING ltac:(done)) as H2.
  pose proof (Hk CLIENT_DISCARDED ltac:(done)) as H3. pose proof (Hk CLIENT_FAILED ltac:(done)) as H4.
  pose proof (Hk CLIENT_ABORTED ltac:(done)) as H5. cbn [counter] in *.
  pose proof (count_total states) as Ht.
  pose proof (count_range CLIENT_COMPLETED states). pose proof (count_range CLIENT_RECEIVED_INPUT_AND_PENDING states).
  pose proof (count_range CLIENT_DISCARDED states). pose proof (count_range CLIENT_FAILED states).
  pose proof (count_range CLIENT_ABORTED states). pose proof (count_range CLIENT_PENDING states).
  assert (Hs : ∀ z, 0 ≤ z < 2 ^ 63 → s64 z = z) by (intros z Hz; by apply s64_small).
  subst m. unfold GetStatus. cbn [num_inputs_aggregated_and_included num_inputs_aggregated_and_pending num_inputs_discarded
    num_clients_failed num_clients_aborted num_clients_pending num_clients_completed].
  fold states. rewrite H1, H2, H3, H4, H5.
  rewrite (Hs (count CLIENT_RECEIVED_INPUT_AND_PENDING states + _ + _)) by lia.
  rewrite !Hs by lia. split_and!; lia.
Qed.

(** C9: every client is closed at most once, by a callback or by the caller of
    [CloseClient], and only when it has reached a final state; when the protocol
    has completed or aborted and the callbacks have been made, every client has
    been closed, exactly once. *)
Theorem clients_closed_once registry configs p0 s :
  created registry configs p0 → reachable p0 s →
  let states := client_states_ (protocol s) in
  NoDup (closes (events s) ++ closed_by_caller s) ∧
  (∀ id, id ∈ closes (events s) ++ closed_by_caller s → is_final states id) ∧
  (protocol_state_ (protocol s) = PROTOCOL_COMPLETED ∨ protocol_state_ (protocol s) = PROTOCOL_ABORTED →
    pending_events (calls s) = [] →
    ∀ id, id ∈ closes (events s) ++ closed_by_caller s ↔ 0 ≤ id < Z.of_nat (length states)).
Proof using HC.
  intros Hc Hr states. destruct (created_Inv _ _ _ Hc) as [Hw Hi].
  pose proof (inv_clients _ _ (reachable_Inv p0 s Hw Hi Hr)) as [Hcr Hen Hn Hst Hrec Hcn Hcl]. fold states in Hen, Hcl.
  assert (Hclosed : closed s ≡ₚ (closes (events s) ++ closed_by_caller s) ++ closes (pending_events (calls s))).
  { unfold closed, all_events. rewrite closes_app. solve_Permutation. }
  rewrite Hclosed in Hcn. apply NoDup_app in Hcn as (Hcn & _ & _). split; [done|].
  assert (Hfin : ∀ id, id ∈ closes (events s) ++ closed_by_caller s → is_final states id).
  { intros id Hid. apply Hcl. rewrite Hclosed. apply elem_of_app. by left. }
  split; [done|]. intros Hend Hpe id. split.
  - intros (st & Hst' & _)%Hfin.
    apply in_state_lt in Hst' as [? ?]. lia.
  - intros Hid. destruct (lookup_lt_is_Some_2 states (Z.to_nat id) ltac:(lia)) as [st Hst'].
    assert (Hin : id ∈ closed s).
    { apply Hcl. exists st. split; [split; [lia|done]|]. exact (Forall_lookup_1 _ _ _ _ (Hen Hend) Hst'). }
    rewrite Hclosed, Hpe in Hin. cbn in Hin. by rewrite app_nil_r in Hin.
Qed.

(** C4: the result of the protocol: it is reported at most once, and it is the
    checkpoint of the outputs of the aggregators after accumulating, in some
    order, exactly the inputs of the included clients: each included client
    once, all clients that are reported as completed, and no client that failed
    or was aborted before its input was received. *)
Theorem Complete_result registry configs p0 s r :
  created registry configs p0 → reachable p0 s → intrinsics_ p0 ≠ [] → OnComplete r ∈ events s →
  let states := client_states_ (protocol s) in let clients := (included s).*1 in
  completes (events s) = [r] ∧ protocol_state_ (protocol s) = PROTOCOL_COMPLETED ∧
  (b ← expected_report (included s) BuilderFactory_Create (intrinsics_ p0); Build b) = Ok r ∧
  NoDup clients ∧
  (∀ id, in_state states id CLIENT_COMPLETED → id ∈ clients) ∧
  (∀ id, id ∈ clients → in_state states id CLIENT_COMPLETED ∨ in_state states id CLIENT_DISCARDED).
Proof using HC.
  intros Hc Hr Hne Hev states clients. destruct (created_Inv _ _ _ Hc) as [Hw Hi].
  pose proof (reachable_Inv p0 s Hw Hi Hr) as [_ Hcl _ _ Hin _ _ Hre]. specialize (Hin Hne).
  assert (Hr' : r ∈ completes (events s)) by (apply list_elem_of_omap; by exists (OnComplete r)).
  unfold result_inv in Hre. unfold all_events in Hre. rewrite completes_app in Hre.
  destruct (protocol_state_ (protocol s)) eqn:Hps.
  1,2,4: apply app_nil in Hre as [Hre _]; rewrite Hre in Hr'; by apply elem_of_nil in Hr'.
  destruct Hre as (r' & Hp & Hexp). apply Permutation_singleton_r in Hp.
  assert (Hone : completes (events s) = [r']).
  { destruct (completes (events s)) as [|x l]; [by apply elem_of_nil in Hr'|].
    injection Hp as -> Hnil. apply app_nil in Hnil as [-> _]. done. }
  rewrite Hone in Hr'. apply list_elem_of_singleton in Hr' as ->.
  split_and!; try done; [apply Hin|apply (inc_completed _ _ _ _ _ Hin); by right|].
  intros id Hid. destruct (inc_state _ _ _ _ _ Hin _ Hid) as [?|[?|[[_ Hst] _]]]; [by left|by right|].
  exfalso. assert (Hf : final CLIENT_RECEIVED_INPUT_AND_PENDING); [|by destruct Hf].
  eapply Forall_lookup_1; [|exact Hst]. apply (inv_ended _ _ _ _ Hcl). by left.
Qed.
End properties.
