(* ===== verification/ProtocolExamples.v ===== *)
(** * Runs of the simple aggregation protocol

    A protocol that sums pairs of 32-bit integers, and runs of it in which the
    properties of the protocol apply. *)

From S2P Require Import Prelude Bytes Tensor TensorCorrect Aggregators AggregatorsCorrect.
From S2P Require Import SimpleAggregation ProtocolInvariant ProtocolAggregation ProtocolIncluded.
From S2P Require Import ProtocolSafety ProtocolSystem ProtocolProperties.

(** ** Checkpoints *)

(** The checkpoint of one tensor is its eight bytes. *)
#[export] Instance RawCheckpoints : Checkpoints := {|
  Parser := list Z;
  ParserFactory_Create report := Ok report;
  GetTensor _ parser :=
    if (length parser =? 8)%nat then Ok (int32_tensor parser) else Error NOT_FOUND "No tensor";
  Builder := list Z;
  BuilderFactory_Create := [];
  Builder_Add _ t builder :=
    match data_ t with
    | Some {| storage := NumericBuffer content |} => Ok (builder ++ content)
    | _ => Error INVALID_ARGUMENT "Not a numeric tensor"
    end;
  Build builder := Ok builder
|}.

#[export] Instance RawCheckpoints_laws : CheckpointsLaws RawCheckpoints.
Proof.
  split; try done.
  - intros name parser. cbn. by destruct (_ =? _)%nat.
  - intros name parser t. cbn. destruct (Nat.eqb_spec (length parser) 8) as [Hl|]; [|done]. intros [= <-]. split_and!.
    + unfold Tensor.CheckValid, TensorData_CheckValid, byte_size. simpl. by rewrite Hl.
    + done.
    + unfold AsAggVector. simpl. rewrite Hl. eexists. split; [done|]. done.
  - intros name t builder. cbn. by destruct (data_ t) as [[a []]|].
Qed.

#[export] Instance known_shapes : TfShapes := {|
  BuildTensorShape spec := if tf_unknown_rank spec then None else Some (tf_shape spec)
|}.

(** ** Federated sums *)

Definition sum_registry : Registry FederatedSum.State := {[ "federated_sum" := FederatedSum.Factory_Create 64 ]}.

Lemma sum_registry_ok : registry_ok sum_registry.
Proof.
  intros uri factory dt sh a Hl Hn Ha. unfold sum_registry in Hl. apply lookup_singleton_Some in Hl as [_ <-].
  assert (Hnum : numeric dt) by (destruct dt; try done; by split).
  destruct (decide (NumElements sh = 0)) as [Hz|Hz].
  - exfalso. revert Ha. unfold FederatedSum.Factory_Create, FederatedSum.new. destruct dt; try done;
      cbn [value_size mbind Res_bind]; rewrite Hz; done.
  - pose proof (NumElements_range sh).
    destruct (Factory_Create_ok 64 dt sh Hnum ltac:(lia) eq_refl) as (a' & Ha' & Hs).
    assert (a' = a) as -> by congruence. by eexists _, _.
Qed.

Definition pair_spec : TensorSpecProto := {| tf_name := "x"; tf_dtype := 3; tf_shape := [2]; tf_unknown_rank := false |}.

Definition sum_config : list ServerAggregationConfig :=
  [ {| intrinsic_uri := "federated_sum"; intrinsic_args := [Some pair_spec]; output_tensors := [pair_spec] |} ].

Definition sum_protocol : Protocol FederatedSum.State :=
  match Create sum_registry sum_config with
  | Ok p => p
  | _ => {| protocol_state_ := PROTOCOL_ABORTED; client_states_ := []; counters := no_clients;
            aggregation_finished_ := true; intrinsics_ := [] |}
  end.

Lemma sum_created : created sum_registry sum_config sum_protocol.
Proof. split; [exact sum_registry_ok|reflexivity|repeat constructor]. Qed.

(** ** Runs *)

Fixpoint run_all (actions : list Action) (s : System (A := FederatedSum.State)) : Res System :=
  match actions with [] => Ok s | a :: actions => s ← run a s; run_all actions s end.

Lemma run_all_reachable p0 actions : ∀ s s',
  reachable p0 s → run_all actions s = Ok s' → reachable p0 s'.
Proof.
  induction actions as [|a actions IH]; intros s s' Hr Hrun; [by injection Hrun as <-|].
  cbn [run_all] in Hrun. apply bind_ok in Hrun as (s1 & Hs1 & Hrun). eapply IH; [|exact Hrun]. by eapply reachable_step.
Qed.

Definition no_resources : Z → string → Res (list Z) := λ _ _, Error NOT_FOUND "No resource".

Definition message (bytes : list Z) : ClientMessage := SimpleAggregationMessage (Some (InlineBytes bytes)).

(** Three clients; the first two send a pair each, the second one at the same
    time as the first, the third one is aborted. *)
Definition normal_run : list Action :=
  [ DoStart 3; DoNotify 0;
    DoReceiveClientMessage 0 (message [1; 0; 0; 0; 2; 0; 0; 0]);
    DoReceiveClientMessage 1 (message [5; 0; 0; 0; 255; 0; 0; 0]);
    DoAggregate 2 no_resources; DoAggregate 1 no_resources; DoUpdate 1; DoUpdate 1;
    DoComplete; DoNotify 1; DoNotify 1 ].

Definition normal_end : System :=
  match run_all normal_run (initial sum_protocol) with Ok s => s | _ => initial sum_protocol end.

Lemma normal_run_ok : run_all normal_run (initial sum_protocol) = Ok normal_end.
Proof. vm_compute. reflexivity. Qed.

Lemma normal_end_reachable : reachable sum_protocol normal_end.
Proof. eapply run_all_reachable; [apply reachable_initial|exact normal_run_ok]. Qed.

(** The clients 0 and 1 are completed, client 2 is aborted, and the result is
    the sum of the two inputs. *)
Example normal_result :
  client_states_ (protocol normal_end) = [CLIENT_COMPLETED; CLIENT_COMPLETED; CLIENT_ABORTED] ∧
  events normal_end = [OnAcceptClients 0 3; OnCloseClient 0 (Ok ()); OnCloseClient 1 (Ok ());
    OnCloseClient 2 (Error ABORTED "The protocol has completed before the client input has been aggregated.");
    OnComplete [6; 0; 0; 0; 1; 1; 0; 0]].
Proof. vm_compute. split; reflexivity. Qed.

Lemma protocol_never_crashes_witness : ∃ s', run DoAbort normal_end = Ok s'.
Proof.
  apply (protocol_never_crashes sum_registry sum_config sum_protocol normal_end DoAbort).
  - exact sum_created.
  - exact normal_end_reachable.
  - exact I.
Defined.

Lemma GetStatus_exact_witness :
  num_inputs_aggregated_and_included (GetStatus (protocol normal_end)) = 2 ∧
  num_clients_aborted (GetStatus (protocol normal_end)) = 1.
Proof.
  destruct (GetStatus_exact sum_registry sum_config sum_protocol normal_end) as (H1 & _ & _ & _ & H2 & _).
  - exact sum_created.
  - exact normal_end_reachable.
  - split; [rewrite H1; vm_compute; reflexivity|rewrite H2; vm_compute; reflexivity].
Defined.

Lemma clients_closed_once_witness :
  NoDup (closes (events normal_end) ++ closed_by_caller normal_end) ∧
  2 ∈ closes (events normal_end) ++ closed_by_caller normal_end.
Proof.
  destruct (clients_closed_once sum_registry sum_config sum_protocol normal_end) as (Hn & _ & H).
  - exact sum_created.
  - exact normal_end_reachable.
  - split; [exact Hn|]. apply H; [left; vm_compute; reflexivity|vm_compute; reflexivity|].
    split; [discriminate|reflexivity].
Defined.

Lemma Complete_result_witness :
  completes (events normal_end) = [[6; 0; 0; 0; 1; 1; 0; 0]] ∧
  (b ← expected_report (included normal_end) BuilderFactory_Create (intrinsics_ sum_protocol); Build b) =
    Ok [6; 0; 0; 0; 1; 1; 0; 0].
Proof.
  destruct (Complete_result sum_registry sum_config sum_protocol normal_end [6; 0; 0; 0; 1; 1; 0; 0]) as (H1 & _ & H2 & _).
  - exact sum_created.
  - exact normal_end_reachable.
  - discriminate.
  - apply list_elem_of_lookup. exists 4%nat. vm_compute. reflexivity.
  - split; [exact H1|exact H2].
Defined.

(** ** A race *)

(** The only client sends its input; [Complete] runs after the input has been
    aggregated and before the state of the client is updated. *)
Definition race_run : list Action :=
  [ DoStart 1; DoNotify 0; DoReceiveClientMessage 0 (message [1; 0; 0; 0; 2; 0; 0; 0]);
    DoAggregate 1 no_resources; DoComplete; DoNotify 2; DoNotify 2; DoUpdate 1 ].

(** The client is closed with the error that the protocol has completed before its
    input has been aggregated, [GetStatus] counts the input as discarded and none
    as included, and the result is that input. *)
Example Complete_race :
  ∃ s, run_all race_run (initial sum_protocol) = Ok s ∧ (included s).*1 = [0] ∧
    events s = [OnAcceptClients 0 1;
      OnCloseClient 0 (Error ABORTED "The protocol has completed before the client input has been aggregated.");
      OnComplete [1; 0; 0; 0; 2; 0; 0; 0]] ∧
    num_inputs_aggregated_and_included (GetStatus (protocol s)) = 0 ∧
    num_inputs_discarded (GetStatus (protocol s)) = 1.
Proof. eexists. split; [vm_compute; reflexivity|]. vm_compute. repeat split. Qed.

(** ** Configurations and closing *)

(** A result is released without any client: the protocol has no threshold. *)
Example release_without_clients :
  ∃ s, run_all [DoStart 0; DoComplete; DoNotify 1] (initial sum_protocol) = Ok s ∧
    events s = [OnComplete [0; 0; 0; 0; 0; 0; 0; 0]].
Proof. eexists. split; [vm_compute; reflexivity|reflexivity]. Qed.

(** A client that the caller closes with an OK status before it sent an input is
    counted as completed, with a discarded input. *)
Example close_counts_as_input :
  ∃ s, run_all [DoStart 1; DoCloseClient 0 (Ok ())] (initial sum_protocol) = Ok s ∧
    num_clients_completed (GetStatus (protocol s)) = 1 ∧ num_inputs_discarded (GetStatus (protocol s)) = 1.
Proof. eexists. split; [vm_compute; reflexivity|]. vm_compute. split; reflexivity. Qed.

(** A configuration with a tensor that has no elements terminates the process. *)
Example empty_tensor_crashes :
  let spec := {| tf_name := "x"; tf_dtype := 3; tf_shape := [0]; tf_unknown_rank := false |} in
  Create sum_registry
    [{| intrinsic_uri := "federated_sum"; intrinsic_args := [Some spec]; output_tensors := [spec] |}] = Crash.
Proof. vm_compute. reflexivity. Qed.
