(* ===== verification/TimeUtil.v ===== *)
(** * Time: [base/time_util.cc]

    The conversions between the times and durations of Abseil and the messages
    [google.protobuf.Timestamp] and [google.protobuf.Duration].  The types of
    Abseil are the class [AbslTime]; [AbslTimeLaws] states what its
    documentation says of them: values have a resolution of a quarter of a
    nanosecond ([ticks]), a range of [int64_t] seconds, and two infinities.
    [Ticks] is an instance. *)

From S2P Require Import Prelude.

Definition kTicksPerNanosecond : Z := 4.
Definition kTicksPerSecond : Z := 4 * 10 ^ 9.

Definition in_int64 (z : Z) : bool := (- 2 ^ 63 <=? z) && (z <? 2 ^ 63).
Definition in_range (ticks : Z) : bool :=
  (- 2 ^ 63 * kTicksPerSecond <=? ticks) && (ticks <? 2 ^ 63 * kTicksPerSecond).

Class AbslTime := {
  Time : Type;
  Duration : Type;
  Time_lt : Time → Time → bool;
  Time_add : Time → Duration → Time;
  Time_sub : Time → Time → Duration;
  FromUnixSeconds : Z → Time;
  ToUnixSeconds : Time → Z;
  Duration_add : Duration → Duration → Duration;
  Duration_eqb : Duration → Duration → bool;
  Seconds : Z → Duration;
  Nanoseconds : Z → Duration;
  InfiniteDuration : Duration;
  NegInfiniteDuration : Duration;
  (** The quotient, truncated towards zero and saturated to [int64_t], and the remainder. *)
  IDivDuration : Duration → Duration → Z * Duration
}.

Class AbslTimeLaws `(AbslTime) := {
  time_ticks : Time → option Z;
  duration_ticks : Duration → option Z;
  time_ticks_inj t u x : time_ticks t = Some x → time_ticks u = Some x → t = u;
  duration_ticks_inj d e x : duration_ticks d = Some x → duration_ticks e = Some x → d = e;
  time_ticks_range t x : time_ticks t = Some x → in_range x = true;
  duration_ticks_range d x : duration_ticks d = Some x → in_range x = true;
  Time_lt_irrefl t : Time_lt t t = false;
  Time_lt_trans t u v : Time_lt t u = true → Time_lt u v = true → Time_lt t v = true;
  Time_ge_trans t u v : Time_lt u t = false → Time_lt v u = false → Time_lt v t = false;
  Time_lt_ticks t u x y : time_ticks t = Some x → time_ticks u = Some y → Time_lt t u = (x <? y);
  Time_add_ticks t d x y :
    time_ticks t = Some x → duration_ticks d = Some y → in_range (x + y) = true →
    time_ticks (Time_add t d) = Some (x + y);
  Time_sub_ticks t u x y :
    time_ticks t = Some x → time_ticks u = Some y → in_range (x - y) = true →
    duration_ticks (Time_sub t u) = Some (x - y);
  FromUnixSeconds_ticks s :
    in_int64 s = true → time_ticks (FromUnixSeconds s) = Some (s * kTicksPerSecond);
  ToUnixSeconds_ticks t x : time_ticks t = Some x → ToUnixSeconds t = x / kTicksPerSecond;
  Duration_add_ticks d e x y :
    duration_ticks d = Some x → duration_ticks e = Some y → in_range (x + y) = true →
    duration_ticks (Duration_add d e) = Some (x + y);
  Duration_eqb_eq d e : Duration_eqb d e = true ↔ d = e;
  Seconds_ticks s : in_int64 s = true → duration_ticks (Seconds s) = Some (s * kTicksPerSecond);
  Nanoseconds_ticks n : in_int64 n = true → duration_ticks (Nanoseconds n) = Some (n * kTicksPerNanosecond);
  InfiniteDuration_ticks : duration_ticks InfiniteDuration = None;
  NegInfiniteDuration_ticks : duration_ticks NegInfiniteDuration = None;
  IDivDuration_ticks d e x y :
    duration_ticks d = Some x → duration_ticks e = Some y → y ≠ 0 → in_int64 (Z.quot x y) = true →
    (IDivDuration d e).1 = Z.quot x y ∧ duration_ticks (IDivDuration d e).2 = Some (Z.rem x y)
}.

(** [google.protobuf.Timestamp] and [google.protobuf.Duration]: [int64] seconds
    and [int32] nanoseconds. *)
Record Timestamp := { seconds : Z; nanos : Z }.
Record DurationProto := { duration_seconds : Z; duration_nanos : Z }.

#[export] Instance Timestamp_eq_dec : EqDecision Timestamp.
Proof. solve_decision. Defined.

(** A conversion to [int32_t]. *)
Definition i32 (z : Z) : Z := (z + 2 ^ 31) mod 2 ^ 32 - 2 ^ 31.

Section TimeUtil.
Context `{AbslTime}.

Definition ConvertAbslToProtoTimestamp (t : Time) : Timestamp :=
  let s := ToUnixSeconds t in
  {| seconds := s;
     nanos := i32 (IDivDuration (Time_sub t (FromUnixSeconds s)) (Nanoseconds 1)).1 |}.

Definition ConvertProtoToAbslTime (proto : Timestamp) : Time :=
  Time_add (FromUnixSeconds (seconds proto)) (Nanoseconds (nanos proto)).

Definition ConvertAbslToProtoDuration (absl_duration : Duration) : DurationProto :=
  if Duration_eqb absl_duration InfiniteDuration then
    {| duration_seconds := 2 ^ 63 - 1; duration_nanos := i32 999999999 |}
  else if Duration_eqb absl_duration NegInfiniteDuration then
    {| duration_seconds := - 2 ^ 63; duration_nanos := i32 (-999999999) |}
  else
    let '(s, absl_duration) := IDivDuration absl_duration (Seconds 1) in
    let '(n, _) := IDivDuration absl_duration (Nanoseconds 1) in
    {| duration_seconds := s; duration_nanos := i32 n |}.

Definition ConvertProtoToAbslDuration (proto : DurationProto) : Duration :=
  Duration_add (Seconds (duration_seconds proto)) (Nanoseconds (duration_nanos proto)).
End TimeUtil.

(** ** Times as numbers of ticks *)

Inductive TickCount := Finite (ticks : Z) | PosInfinite | NegInfinite.

#[export] Instance TickCount_eq_dec : EqDecision TickCount.
Proof. solve_decision. Defined.

Definition saturate (ticks : Z) : TickCount :=
  if in_range ticks then Finite ticks else if 0 <? ticks then PosInfinite else NegInfinite.

Definition add_ticks (a b : TickCount) : TickCount :=
  match a, b with
  | Finite x, Finite y => saturate (x + y)
  | Finite _, _ => b
  | _, _ => a
  end.

Definition sub_ticks (a b : TickCount) : TickCount :=
  match a, b with
  | Finite x, Finite y => saturate (x - y)
  | Finite _, PosInfinite => NegInfinite
  | Finite _, NegInfinite => PosInfinite
  | _, _ => a
  end.

Definition ltb_ticks (a b : TickCount) : bool :=
  match a, b with
  | NegInfinite, NegInfinite => false
  | NegInfinite, _ => true
  | Finite x, Finite y => x <? y
  | Finite _, PosInfinite => true
  | _, _ => false
  end.

Definition idiv_ticks (a b : TickCount) : Z * TickCount :=
  match a, b with
  | Finite x, Finite y =>
      if y =? 0 then (if 0 <=? x then 2 ^ 63 - 1 else - 2 ^ 63, if 0 <=? x then PosInfinite else NegInfinite)
      else (Z.min (2 ^ 63 - 1) (Z.max (- 2 ^ 63) (Z.quot x y)), saturate (Z.rem x y))
  | PosInfinite, _ => (2 ^ 63 - 1, PosInfinite)
  | NegInfinite, _ => (- 2 ^ 63, NegInfinite)
  | Finite _, _ => (0, a)
  end.

(** The finite values are those in range. *)
Definition finite_ticks (a : TickCount) : option Z :=
  match a with Finite x => if in_range x then Some x else None | _ => None end.

#[export] Instance Ticks : AbslTime := {|
  Time := TickCount;
  Duration := TickCount;
  Time_lt := ltb_ticks;
  Time_add := add_ticks;
  Time_sub := sub_ticks;
  FromUnixSeconds := λ s, saturate (s * kTicksPerSecond);
  ToUnixSeconds := λ t, match t with Finite x => x / kTicksPerSecond | PosInfinite => 2 ^ 63 - 1 | NegInfinite => - 2 ^ 63 end;
  Duration_add := add_ticks;
  Duration_eqb := λ d e, bool_decide (d = e);
  Seconds := λ s, saturate (s * kTicksPerSecond);
  Nanoseconds := λ n, saturate (n * kTicksPerNanosecond);
  InfiniteDuration := PosInfinite;
  NegInfiniteDuration := NegInfinite;
  IDivDuration := idiv_ticks
|}.

Lemma in_int64_iff z : in_int64 z = true ↔ - 2 ^ 63 ≤ z < 2 ^ 63.
Proof. unfold in_int64. rewrite andb_true_iff, Z.leb_le, Z.ltb_lt. done. Qed.

Lemma in_range_iff x :
  in_range x = true ↔ - 2 ^ 63 * kTicksPerSecond ≤ x < 2 ^ 63 * kTicksPerSecond.
Proof. unfold in_range. rewrite andb_true_iff, Z.leb_le, Z.ltb_lt. done. Qed.

Lemma saturate_finite x : in_range x = true → finite_ticks (saturate x) = Some x.
Proof. intros Hx. unfold saturate. rewrite Hx. simpl. by rewrite Hx. Qed.

Lemma finite_ticks_Some a x : finite_ticks a = Some x → a = Finite x ∧ in_range x = true.
Proof. destruct a; simpl; repeat case_match; naive_solver. Qed.

Ltac ticks :=
  unfold in_int64, in_range, kTicksPerSecond, kTicksPerNanosecond in *;
  repeat match goal with
  | H : finite_ticks _ = Some _ |- _ => apply finite_ticks_Some in H as [-> ?]
  end.

#[export] Instance Ticks_laws : AbslTimeLaws Ticks.
Proof.
  refine {| time_ticks := finite_ticks : @Time Ticks → option Z;
            duration_ticks := finite_ticks : @Duration Ticks → option Z |}; cbn;
    intros; ticks; try done; try (by apply saturate_finite).
  - destruct t; simpl; lia.
  - destruct t, u, v; simpl in *; try done; lia.
  - destruct t, u, v; simpl in *; try done; lia.
  - apply saturate_finite. unfold in_range, kTicksPerSecond. lia.
  - apply bool_decide_eq_true.
  - apply saturate_finite. unfold in_range, kTicksPerSecond. lia.
  - apply saturate_finite. unfold in_range, kTicksPerSecond. lia.
  - simpl. rewrite (proj2 (Z.eqb_neq y 0)) by done. simpl. split; [lia|].
    apply saturate_finite. pose proof (Z.rem_bound_abs x y ltac:(done)).
    rewrite in_range_iff in *. unfold kTicksPerSecond in *. lia.
Defined.

(** ** The conversions *)

Section Conversions.
Context `{AbslTimeLaws}.

(** The seconds of a time in range, and their ticks. *)
Lemma seconds_range x : in_range x = true → in_int64 (x / kTicksPerSecond) = true.
Proof.
  rewrite in_range_iff, in_int64_iff. unfold kTicksPerSecond. intros.
  split; [apply Z.div_le_lower_bound|apply Z.div_lt_upper_bound]; lia.
Qed.

Lemma i32_small z : - 2 ^ 31 ≤ z < 2 ^ 31 → i32 z = z.
Proof. intros. unfold i32. rewrite Z.mod_small by lia. lia. Qed.

Lemma ConvertAbslToProtoTimestamp_ticks t x :
  time_ticks t = Some x →
  ConvertAbslToProtoTimestamp t =
    {| seconds := x / kTicksPerSecond; nanos := x mod kTicksPerSecond / kTicksPerNanosecond |}.
Proof.
  intros Ht. pose proof (time_ticks_range _ _ Ht) as Hr. pose proof (seconds_range _ Hr) as Hs.
  unfold ConvertAbslToProtoTimestamp. rewrite (ToUnixSeconds_ticks _ _ Ht).
  pose proof (Z.mod_pos_bound x kTicksPerSecond ltac:(done)) as Hm.
  assert (x - x / kTicksPerSecond * kTicksPerSecond = x mod kTicksPerSecond) as Hsub
    by (rewrite Z.mod_eq by done; lia).
  assert (in_range (x mod kTicksPerSecond) = true) as Hmr
    by (apply in_range_iff; unfold kTicksPerSecond in *; lia).
  pose proof (Time_sub_ticks _ _ _ _ Ht (FromUnixSeconds_ticks _ Hs)) as Hd.
  rewrite Hsub in Hd. specialize (Hd Hmr).
  assert (0 ≤ x mod kTicksPerSecond / kTicksPerNanosecond < 10 ^ 9) as Hn.
  { unfold kTicksPerSecond, kTicksPerNanosecond in *.
    split; [apply Z.div_pos|apply Z.div_lt_upper_bound]; lia. }
  destruct (IDivDuration_ticks _ _ _ (1 * kTicksPerNanosecond) Hd (Nanoseconds_ticks 1 eq_refl))
    as [-> _]; [done| |].
  - rewrite Z.mul_1_l, Z.quot_div_nonneg by (lia || done). apply in_int64_iff. lia.
  - rewrite Z.mul_1_l, Z.quot_div_nonneg by (lia || done). rewrite i32_small by lia. done.
Qed.

Lemma ticks_split x :
  x / kTicksPerSecond * kTicksPerSecond + x mod kTicksPerSecond / kTicksPerNanosecond * kTicksPerNanosecond =
  x - x mod kTicksPerNanosecond.
Proof.
  unfold kTicksPerSecond, kTicksPerNanosecond.
  pose proof (Z.div_mod x (4 * 10 ^ 9)). pose proof (Z.div_mod (x mod (4 * 10 ^ 9)) 4).
  rewrite (Z.mod_mod_divide x (4 * 10 ^ 9) 4) in * by (by exists (10 ^ 9)). lia.
Qed.

(** A time that goes through a Timestamp comes back truncated to whole
    nanoseconds, and unchanged if it was whole. *)
Lemma Timestamp_roundtrip t x :
  time_ticks t = Some x →
  time_ticks (ConvertProtoToAbslTime (ConvertAbslToProtoTimestamp t)) = Some (x - x mod kTicksPerNanosecond).
Proof.
  intros Ht. pose proof (time_ticks_range _ _ Ht) as Hr.
  rewrite (ConvertAbslToProtoTimestamp_ticks _ _ Ht). unfold ConvertProtoToAbslTime. simpl.
  pose proof (seconds_range _ Hr) as Hs. rewrite <- ticks_split.
  assert (0 ≤ x mod kTicksPerSecond / kTicksPerNanosecond < 10 ^ 9) as Hn.
  { pose proof (Z.mod_pos_bound x kTicksPerSecond ltac:(done)).
    unfold kTicksPerSecond, kTicksPerNanosecond in *.
    split; [apply Z.div_pos|apply Z.div_lt_upper_bound]; lia. }
  apply Time_add_ticks; [by apply FromUnixSeconds_ticks|apply Nanoseconds_ticks, in_int64_iff; lia|].
  rewrite ticks_split. apply in_range_iff in Hr. apply in_range_iff.
  pose proof (Z.mod_pos_bound x kTicksPerNanosecond ltac:(done)).
  unfold kTicksPerSecond, kTicksPerNanosecond in *.
  pose proof (Z.div_mod x 4). pose proof (Z.div_le_lower_bound x 4 (- 2 ^ 63 * 10 ^ 9)). lia.
Qed.

(** Truncated division by a positive number, by the sign of the dividend. *)
Lemma quot_rem_signs x y :
  0 < y →
  x = y * Z.quot x y + Z.rem x y ∧
  (0 ≤ x ∧ 0 ≤ Z.rem x y < y ∧ 0 ≤ Z.quot x y ∨ x < 0 ∧ - y < Z.rem x y ≤ 0 ∧ Z.quot x y ≤ 0).
Proof.
  intros Hy. pose proof (Z.quot_rem' x y). split; [done|].
  destruct (decide (0 ≤ x)); [left|right].
  - pose proof (Z.rem_bound_pos x y). pose proof (Z.quot_pos x y). lia.
  - pose proof (Z.rem_bound_pos (- x) y). pose proof (Z.quot_pos (- x) y).
    rewrite Z.rem_opp_l, Z.quot_opp_l in * by lia. lia.
Qed.

(** The parts of a duration. *)
Lemma duration_parts x :
  in_range x = true →
  let s := Z.quot x kTicksPerSecond in
  let n := Z.quot (Z.rem x kTicksPerSecond) kTicksPerNanosecond in
  - 2 ^ 63 ≤ s < 2 ^ 63 ∧ - 10 ^ 9 < n < 10 ^ 9 ∧
  s * kTicksPerSecond + n * kTicksPerNanosecond = x - Z.rem x kTicksPerNanosecond ∧
  in_range (x - Z.rem x kTicksPerNanosecond) = true.
Proof.
  cbv zeta. rewrite !in_range_iff. unfold kTicksPerSecond, kTicksPerNanosecond. intros Hx.
  destruct (quot_rem_signs x (4 * 10 ^ 9) ltac:(done)) as [Hq Hs].
  destruct (quot_rem_signs x 4 ltac:(done)) as [Hq' Hs'].
  destruct (quot_rem_signs (Z.rem x (4 * 10 ^ 9)) 4 ltac:(done)) as [Hq'' Hs''].
  generalize dependent (Z.quot (Z.rem x (4 * 10 ^ 9)) 4). generalize dependent (Z.rem (Z.rem x (4 * 10 ^ 9)) 4).
  generalize dependent (Z.quot x (4 * 10 ^ 9)). generalize dependent (Z.rem x (4 * 10 ^ 9)).
  generalize dependent (Z.quot x 4). generalize dependent (Z.rem x 4).
  intros r m -> Hs' r1 q Hq Hs r2 n -> Hs''.
  assert (m = 10 ^ 9 * q + n) as Hm by (destruct Hs, Hs', Hs''; lia).
  split_and!; destruct Hs, Hs', Hs''; lia.
Qed.

(** A duration comes back truncated towards zero. *)
Lemma Duration_roundtrip d x :
  duration_ticks d = Some x →
  duration_ticks (ConvertProtoToAbslDuration (ConvertAbslToProtoDuration d)) =
  Some (x - Z.rem x kTicksPerNanosecond).
Proof.
  intros Hd.
  destruct (duration_parts x (duration_ticks_range _ _ Hd)) as (Hs64 & Hn & Hsum & Hr).
  unfold ConvertAbslToProtoDuration.
  rewrite !(not_true_is_false (Duration_eqb d _)).
  2,3: intros E; apply Duration_eqb_eq in E; subst d;
    rewrite ?InfiniteDuration_ticks, ?NegInfiniteDuration_ticks in Hd; done.
  destruct (IDivDuration_ticks d (Seconds 1) x kTicksPerSecond Hd) as [Hs Hrem];
    [by rewrite Seconds_ticks|done|by apply in_int64_iff|].
  destruct (IDivDuration d (Seconds 1)) as [s rest]. simpl in Hs, Hrem. subst s.
  destruct (IDivDuration_ticks rest (Nanoseconds 1) _ kTicksPerNanosecond Hrem) as [Hn' _];
    [by rewrite Nanoseconds_ticks|done|apply in_int64_iff; lia|].
  destruct (IDivDuration rest (Nanoseconds 1)) as [n rest']. simpl in Hn'. subst n.
  unfold ConvertProtoToAbslDuration. simpl. rewrite i32_small, <- Hsum by lia.
  apply Duration_add_ticks; [apply Seconds_ticks, in_int64_iff; lia|apply Nanoseconds_ticks, in_int64_iff; lia|].
  by rewrite Hsum.
Qed.
End Conversions.
