(* ===== verification/FileSystem.v ===== *)
(** * Files: [base/platform.cc] and the parts of [std::filesystem] in use

    Paths, a tree of files, and the operations on it.  Every operation of the
    operating system can fail: [faults] holds, for each operation, what happens
    to its next calls, [None] for a success and [Some k] for a failure, after
    [k] bytes where bytes are transferred.  An overload that takes no error code
    throws, which ends the process ([Crash]).  [M] is the monad of stateful
    operations that can fail. *)

From S2P Require Import Prelude.
From Stdlib Require Import Ascii.

(** ** Stateful operations that return a status *)

Definition M (S A : Type) : Type := S → Res A * S.

#[export] Instance M_ret {S} : MRet (M S) := λ A a s, (Ok a, s).
#[export] Instance M_bind {S} : MBind (M S) := λ A B f m s,
  match m s with
  | (Ok a, s') => f a s'
  | (Error c msg, s') => (Error c msg, s')
  | (Crash, s') => (Crash, s')
  end.

Definition fail {S A} (code : StatusCode) (message : string) : M S A := λ s, (Error code message, s).
Definition crash {S A} : M S A := λ s, (Crash, s).
Definition get {S} : M S S := λ s, (Ok s, s).
Definition modify {S} (f : S → S) : M S unit := λ s, (Ok tt, f s).

(** A status that the caller looks at instead of returning it. *)
Definition Status : Type := StatusCode * string.
Definition attempt {S A} (m : M S A) : M S (A + Status) := λ s,
  match m s with
  | (Ok a, s') => (Ok (inl a), s')
  | (Error c msg, s') => (Ok (inr (c, msg)), s')
  | (Crash, s') => (Crash, s')
  end.

(** [FCP_RETURN_IF_ERROR] of a status variable. *)
Definition return_if_error {S} (status : option Status) : M S unit :=
  match status with None => mret tt | Some (c, msg) => fail c msg end.

(** A range-based for loop with the variables [a]. *)
Fixpoint for_each {S A B} (body : B → A → M S A) (l : list B) (a : A) : M S A :=
  match l with
  | [] => mret a
  | x :: l => a' ← body x a; for_each body l a'
  end.

(** ** Paths

    The elements of an absolute path behind the root directory, with an empty
    last element for a trailing separator; this is what comparing paths
    compares. *)

Abbreviation path := (list string).

Fixpoint split_path (s : string) : list string :=
  match s with
  | EmptyString => [EmptyString]
  | String c s =>
      if Ascii.eqb c "/"%char then EmptyString :: split_path s
      else match split_path s with
           | [] => [String c EmptyString]
           | x :: l => String c x :: l
           end
  end.

Definition is_absolute (s : string) : bool :=
  match s with String c _ => Ascii.eqb c "/"%char | _ => false end.

(** The elements of a string: empty ones count only at the end. *)
Definition elements_of (s : string) : list string :=
  let pieces := split_path s in
  filter (.≠ EmptyString) (removelast pieces) ++ [List.last pieces EmptyString].

Definition path_of (s : string) : path :=
  if decide (elements_of s = [EmptyString]) then [] else elements_of s.

Definition strip_trailing (p : path) : path :=
  if decide (last p = Some EmptyString) then removelast p else p.

(** [p / s]. *)
Definition path_append (p : path) (s : string) : path :=
  if is_absolute s then path_of s else strip_trailing p ++ elements_of s.

(** The file that a path names. *)
Definition resolve (p : path) : path :=
  foldl (λ acc c,
    if decide (c = EmptyString ∨ c = "."%string) then acc
    else if decide (c = ".."%string) then removelast acc
    else acc ++ [c]) [] p.

Definition ConcatPath (path1 path2 : string) : string :=
  if decide (path1 = EmptyString) then path2 else (path1 +:+ "/" +:+ path2)%string.

Fixpoint StripTrailingPathSeparator (path : string) : string :=
  match path with
  | EmptyString => EmptyString
  | String c s =>
      if decide (s = EmptyString ∧ c = "/"%char) then EmptyString else String c (StripTrailingPathSeparator s)
  end.

(** ** The tree of files *)

Inductive Node := File (content : list Z) | Directory.

Inductive Op :=
  | op_exists | op_create_directories | op_directory_iterator | op_increment | op_remove
  | op_file_size | op_open | op_read | op_write | op_flock.

#[export] Instance Op_eq_dec : EqDecision Op.
Proof. solve_decision. Defined.

Record Disk := {
  tree : gmap path Node;
  faults : Op → list (option nat);
  (** The codes passed to [LogDiag], the last one first. *)
  diags : list Z
}.

Definition with_tree (t : gmap path Node) (d : Disk) : Disk :=
  {| tree := t; faults := faults d; diags := diags d |}.

Definition LogDiag (code : Z) : M Disk unit :=
  modify (λ d, {| tree := tree d; faults := faults d; diags := code :: diags d |}).

(** What happens to the next call of an operation. *)
Definition fault (op : Op) : M Disk (option nat) := λ d,
  (Ok (default None (head (faults d op))),
   {| tree := tree d;
      faults := λ o, if decide (o = op) then tail (faults d op) else faults d o;
      diags := diags d |}).

Definition node_at (p : path) : M Disk (option Node) := λ d, (Ok (tree d !! resolve p), d).
Definition set_node (p : path) (n : Node) : M Disk unit :=
  modify (λ d, with_tree (<[resolve p := n]> (tree d)) d).
Definition delete_node (p : path) : M Disk unit :=
  modify (λ d, with_tree (delete (resolve p) (tree d)) d).

(** The name of [k] in directory [dir]. *)
Fixpoint child_name (dir k : path) : option string :=
  match dir, k with
  | [], [name] => Some name
  | x :: dir, y :: k => if decide (x = y) then child_name dir k else None
  | _, _ => None
  end.

Definition children (dir : path) (t : gmap path Node) : list string :=
  omap (λ kn, child_name dir kn.1) (map_to_list t).

(** The operations with an error code return it as a second component. *)
Definition fs_exists (p : path) : M Disk (bool * bool) :=
  f ← fault op_exists;
  n ← node_at p;
  match f with
  | Some _ => mret (false, true)
  | None => mret (bool_decide (is_Some n), false)
  end.

Definition fs_exists_throws (p : path) : M Disk bool :=
  r ← fs_exists p;
  if r.2 : bool then crash else mret r.1.

(** Creates the directories on the way from [base] to [base ++ rest]. *)
Fixpoint make_directories (base rest : path) (t : gmap path Node) : gmap path Node * bool :=
  match t !! base with
  | Some (File _) => (t, true)
  | n =>
      let t := if n is Some _ then t else <[base := Directory]> t in
      match rest with
      | [] => (t, false)
      | x :: rest => make_directories (base ++ [x]) rest t
      end
  end.

(** The error code. *)
Definition fs_create_directories (p : path) : M Disk bool :=
  f ← fault op_create_directories;
  match f with
  | Some _ => mret true
  | None =>
      d ← get;
      let '(t, error) := make_directories [] (resolve p) (tree d) in
      modify (with_tree t);; mret error
  end.

Definition fs_remove (p : path) : M Disk (bool * bool) :=
  f ← fault op_remove;
  n ← node_at p;
  d ← get;
  match f, n with
  | Some _, _ => mret (false, true)
  | None, None => mret (false, false)
  | None, Some (File _) => delete_node p;; mret (true, false)
  | None, Some Directory =>
      if decide (children (resolve p) (tree d) = []) then delete_node p;; mret (true, false)
      else mret (false, true)
  end.

Definition fs_file_size (p : path) : M Disk (Z * bool) :=
  f ← fault op_file_size;
  n ← node_at p;
  match f, n with
  | None, Some (File content) => mret (Z.of_nat (length content), false)
  | _, _ => mret (2 ^ 64 - 1, true)
  end.

(** The names in a directory, [None] when it cannot be opened; the increment of
    the iterator of a range-based for loop throws. *)
Definition fs_directory_iterator (p : path) : M Disk (option (list string)) :=
  f ← fault op_directory_iterator;
  n ← node_at p;
  d ← get;
  match f, n with
  | None, Some Directory => mret (Some (children (resolve p) (tree d)))
  | _, _ => mret None
  end.

Definition increment : M Disk unit :=
  f ← fault op_increment;
  if f is Some _ then crash else mret tt.

(** [std::ofstream os(p)]: whether the stream is good.  The file is created or
    truncated. *)
Definition open_for_writing (p : path) : M Disk bool :=
  f ← fault op_open;
  n ← node_at p;
  parent ← node_at (removelast (resolve p));
  match f, n, parent with
  | Some _, _, _ | _, Some Directory, _ => mret false
  | _, _, Some Directory => set_node p (File []);; mret true
  | _, _, _ => mret false
  end.

(** ** [platform.cc] *)

(** A stream reads a directory as an empty file.  A failure while the contents
    are inserted into [buffer] sets a flag of [buffer]; the test of [is]
    afterwards does not see it. *)
Definition ReadFile (file_name : path) : M Disk (list Z) :=
  f ← fault op_open;
  n ← node_at file_name;
  match f, n with
  | None, Some n =>
      r ← fault op_read;
      let content := match n with File content => content | Directory => [] end in
      match r with
      | None => mret content
      | Some k => mret (take k content)
      end
  | _, _ => fail INTERNAL "cannot read file"
  end.

Definition ReadFileToString : path → M Disk (list Z) := ReadFile.
Definition ReadFileToCord : path → M Disk (list Z) := ReadFile.

(** The destructor of a stream writes what is buffered and reports no error. *)
Definition close_stream (file_name : path) (content : list Z) : M Disk unit :=
  f ← fault op_write;
  set_node file_name (File (match f with None => content | Some k => take k content end)).

(** A chunk is put into the stream; [None] when that fails and a part of the
    contents is written. *)
Definition put_chunk (file_name : path) (chunk : list Z) (content : list Z) : M Disk (list Z) :=
  f ← fault op_write;
  match f with
  | None => mret (content ++ chunk)
  | Some k => set_node file_name (File (take k (content ++ chunk)));; fail INTERNAL "error writing to file"
  end.

Definition WriteCordToFile (file_name : path) (chunks : list (list Z)) : M Disk unit :=
  os ← open_for_writing file_name;
  if os : bool then
    content ← for_each (put_chunk file_name) chunks [];
    close_stream file_name content
  else fail INTERNAL "cannot create file".

Definition WriteStringToFile (file_name : path) (content : list Z) : M Disk unit :=
  os ← open_for_writing file_name;
  if os : bool then
    content ← put_chunk file_name content [];
    close_stream file_name content
  else fail INTERNAL "cannot create file".

Definition FileExists (file_name : path) : M Disk bool :=
  r ← fs_exists file_name; mret r.1.

(** ** The store of a message: [protostore::ProtoDataStore]

    A library that the repository uses and does not contain keeps a message in
    a file.  The class [ProtoDataStore] has its operations, and
    [ProtoDataStoreLaws] what its documentation promises.  The resource cache
    keeps its manifest in one, and the operational statistics are in another. *)

(** The store reads and writes one file, whose contents are an argument and, for
    [Write], a result. *)
Class ProtoDataStore (T : Type) := {
  Store : Type;
  pds_Read : option (list Z) → Store → (T + Status) * Store;
  pds_Write : T → option (list Z) → Store → option Status * option (list Z) * Store;
  GetFileSize : option (list Z) → Store → (Z + Status) * Store
}.

(** [holds m f s]: the store in state [s] with the file [f] has the message [m];
    [sound s]: its next operations do not fail. *)
Class ProtoDataStoreLaws `(ProtoDataStore T) := {
  holds : T → option (list Z) → Store → Prop;
  sound : Store → Prop;
  Read_holds f s m s' : pds_Read f s = (inl m, s') → holds m f s';
  Read_same m f s m' s' : holds m f s → pds_Read f s = (inl m', s') → m' = m;
  Read_sound m f s : holds m f s → sound s → ∃ s', pds_Read f s = (inl m, s') ∧ sound s';
  Write_holds m f s f' s' : pds_Write m f s = (None, f', s') → holds m f' s' ∧ is_Some f';
  Write_sound m f s : is_Some f → sound s → ∃ f' s', pds_Write m f s = (None, f', s') ∧ sound s'
}.

(** A store that keeps the message in memory. *)
Definition MemoryStore (T : Type) : ProtoDataStore T := {|
  Store := option T;
  pds_Read := λ f s, (match s with Some m => inl m | None => inr (INTERNAL, "no message"%string) end, s);
  pds_Write := λ m f s, (None, Some [1], Some m);
  GetFileSize := λ f s,
    (match f with Some content => inl (Z.of_nat (length content)) | None => inr (INTERNAL, "no file"%string) end, s)
|}.

Definition MemoryStore_laws (T : Type) : ProtoDataStoreLaws (MemoryStore T).
Proof.
  refine {| holds := λ m f (s : @Store T (MemoryStore T)), s = Some m; sound := λ _, True |}; simpl.
  - intros f [m'|] m s' [= <- <-]. done.
  - intros m f s m' s' -> [= <- _]. done.
  - intros m f s -> _. eauto.
  - intros m f s f' s' [= <- <-]. eauto.
  - eauto.
Defined.
