(* ===== verification/ResourceCache.v ===== *)
(** * The resource cache of a device: [client/cache/file_backed_resource_cache.cc]

    A cache keeps each resource in a file of its directory, and a manifest with
    an entry per resource.  The manifest is kept by a [ProtoDataStore], which is
    not in the repository: the class of that name has its operations.  [World] is
    what the operations act on: the files, the state of the store and the
    readings of the clock.  [MapOrder] and [StdSort] are what the language leaves
    open: the order in which a map is iterated, and the order of elements that
    [std::sort] compares as equal.  Each public method holds [mutex_]
    throughout and is one step. *)

From S2P Require Import Prelude TimeUtil FileSystem.
From Stdlib Require Import Sorted.

(** [google.protobuf.Any]. *)
Record Any := { type_url : string; value : list Z }.

Record CachedResource := {
  file_name : string;
  metadata : Any;
  expiry_time : Timestamp;
  last_accessed_time : Timestamp
}.

Abbreviation CacheManifest := (gmap string CachedResource).

Record ResourceAndMetadata := { resource : list Z; resource_metadata : Any }.

Class MapOrder := {
  map_order : CacheManifest → list (string * CachedResource);
  map_order_perm m : map_order m ≡ₚ map_to_list m
}.

Class StdSort `{AbslTime} := sort_by_time : list (string * Time) → list (string * Time).

Class StdSortLaws `(StdSort) := {
  sort_by_time_perm l : sort_by_time l ≡ₚ l;
  sort_by_time_sorted l : StronglySorted (λ a b, Time_lt b.2 a.2 = false) (sort_by_time l)
}.

Record World `{AbslTime, ProtoDataStore CacheManifest} := {
  disk : Disk;
  store : Store;
  (** The readings to come. *)
  clock : nat → Time
}.

(** The constants of the object; the rest of its state is in [World]. *)
Record FileBackedResourceCache := {
  cache_dir_path_ : path;
  manifest_path_ : path;
  max_cache_size_bytes_ : Z
}.

Definition kCacheManifestFileName : string := "cache_manifest.pb".
Definition kParentDir : string := "fcp".
Definition kCacheDir : string := "cache".

Definition RESOURCE_CACHE_HIT : Z := 1200.
Definition RESOURCE_CACHE_MISS : Z := 1201.
Definition RESOURCE_CACHE_MANIFEST_READ_FAILED : Z := 1999.
Definition RESOURCE_CACHE_MANIFEST_WRITE_FAILED : Z := 1998.
Definition RESOURCE_CACHE_RESOURCE_READ_FAILED : Z := 1997.
Definition RESOURCE_CACHE_RESOURCE_WRITE_FAILED : Z := 1996.
Definition RESOURCE_CACHE_CACHE_ROOT_PATH_NOT_ABSOLUTE : Z := 1995.
Definition RESOURCE_CACHE_FAILED_TO_CREATE_CACHE_DIR : Z := 1994.
Definition RESOURCE_CACHE_INVALID_MANIFEST_PATH : Z := 1993.
Definition RESOURCE_CACHE_FAILED_TO_CREATE_MANIFEST_DIR : Z := 1992.
Definition RESOURCE_CACHE_INIT_FAILED_TO_GET_MANIFEST_SIZE : Z := 1990.
Definition RESOURCE_CACHE_CLEANUP_FAILED_TO_ITERATE_OVER_CACHE_DIR : Z := 1989.
Definition RESOURCE_CACHE_CLEANUP_FAILED_TO_DELETE_CACHED_FILE : Z := 1988.
Definition RESOURCE_CACHE_CLEANUP_FAILED_TO_GET_FILE_SIZE : Z := 1987.
Definition RESOURCE_CACHE_INIT_FAILED_TO_INITIALIZE_MANIFEST : Z := 1986.
Definition RESOURCE_CACHE_FAILED_TO_DELETE_MANIFEST : Z := 1985.
Definition RESOURCE_CACHE_INIT_FAILED_CLEANUP : Z := 1984.
Definition RESOURCE_CACHE_PUT_FAILED_TO_CHECK_IF_FILE_EXISTS : Z := 1982.

Section ResourceCache.
Context `{AbslTime, ProtoDataStore CacheManifest, MapOrder, !StdSort}.

Definition on_disk {A} (m : M Disk A) : M World A := λ w,
  let '(r, d) := m (disk w) in (r, {| disk := d; store := store w; clock := clock w |}).

Definition log (code : Z) : M World unit := on_disk (LogDiag code).

Definition Now : M World Time := λ w,
  (Ok (clock w 0%nat), {| disk := disk w; store := store w; clock := λ n, clock w (S n) |}).

Section Methods.
Context (self : FileBackedResourceCache).

(** The contents of the file of the manifest. *)
Definition manifest_file (w : World) : option (list Z) :=
  match tree (disk w) !! resolve (manifest_path_ self) with
  | Some (File content) => Some content
  | _ => None
  end.

Definition set_manifest_file (f : option (list Z)) (d : Disk) : Disk :=
  match f with
  | Some content => with_tree (<[resolve (manifest_path_ self) := File content]> (tree d)) d
  | None => with_tree (delete (resolve (manifest_path_ self)) (tree d)) d
  end.

Definition store_Read : M World (CacheManifest + Status) := λ w,
  let '(r, s) := pds_Read (manifest_file w) (store w) in
  (Ok r, {| disk := disk w; store := s; clock := clock w |}).

Definition store_Write (manifest : CacheManifest) : M World (option Status) := λ w,
  let '(r, f, s) := pds_Write manifest (manifest_file w) (store w) in
  (Ok r, {| disk := set_manifest_file f (disk w); store := s; clock := clock w |}).

Definition store_GetFileSize : M World (Z + Status) := λ w,
  let '(r, s) := GetFileSize (manifest_file w) (store w) in
  (Ok r, {| disk := disk w; store := s; clock := clock w |}).

Definition DeleteManifest : M World unit :=
  e ← on_disk (fs_exists_throws (manifest_path_ self));
  if e : bool then
    r ← on_disk (fs_remove (manifest_path_ self));
    if r.2 : bool then
      log RESOURCE_CACHE_FAILED_TO_DELETE_MANIFEST;; fail INTERNAL "Failed to delete manifest!"
    else mret tt
  else mret tt.

Definition ReadInternal : M World CacheManifest :=
  data ← store_Read;
  match data with
  | inl manifest => mret manifest
  | inr (_, message) =>
      log RESOURCE_CACHE_MANIFEST_READ_FAILED;;
      attempt DeleteManifest;;
      fail INTERNAL message
  end.

Definition WriteInternal (manifest : CacheManifest) : M World unit :=
  status ← store_Write manifest;
  match status with
  | None => mret tt
  | Some (c, message) =>
      log RESOURCE_CACHE_MANIFEST_WRITE_FAILED;;
      attempt DeleteManifest;;
      fail c message
  end.

(** ** [CleanUp] *)

(** The path of an entry of a directory. *)
Definition entry_path (dir : path) (name : string) : path := strip_trailing dir ++ [name].

Definition insert_file (name : string) (cache_dir_files : gset path) : M World (gset path) :=
  on_disk increment;;
  mret ({[entry_path (cache_dir_path_ self) name]} ∪ cache_dir_files).

Definition scan_cache_dir : M World (gset path) :=
  cache_dir_iterator ← on_disk (fs_directory_iterator (cache_dir_path_ self));
  match cache_dir_iterator with
  | None =>
      log RESOURCE_CACHE_CLEANUP_FAILED_TO_ITERATE_OVER_CACHE_DIR;;
      fail INTERNAL "Error iterating over cache dir."
  | Some names =>
      for_each insert_file names ∅
  end.

Definition resource_file (r : CachedResource) : path := path_append (cache_dir_path_ self) (file_name r).

(** The files not yet claimed by an entry, and the ids to delete. *)
Definition expire_step (now : Time) (acc : gset path * gset string) (entry : string * CachedResource) :
    gset path * gset string :=
  let '(cache_dir_files, cache_ids_to_delete) := acc in
  let '(id, r) := entry in
  let expiry := ConvertProtoToAbslTime (expiry_time r) in
  let cached_resource_exists := bool_decide (resource_file r ∈ cache_dir_files) in
  if Time_lt expiry now || negb cached_resource_exists then
    (cache_dir_files, {[id]} ∪ cache_ids_to_delete)
  else (cache_dir_files ∖ {[resource_file r]}, cache_ids_to_delete).

Definition erase_all (ids : gset string) (manifest : CacheManifest) : CacheManifest :=
  foldl (λ m id, delete id m) manifest (elements ids).

(** Keeps the first error. *)
Definition remove_untracked (file : path) (filesystem_status : option Status) : M World (option Status) :=
  r ← on_disk (fs_remove file);
  match r.2, filesystem_status with
  | true, None =>
      log RESOURCE_CACHE_CLEANUP_FAILED_TO_DELETE_CACHED_FILE;;
      mret (Some (INTERNAL, "Failed to delete file."%string))
  | _, _ => mret filesystem_status
  end.

Record Measure := {
  cache_id_lru : list (string * Time);
  cache_dir_size : Z;
  filesystem_status : option Status
}.

Definition first_error (status : option Status) (message : string) : option Status :=
  match status with None => Some (INTERNAL, message) | _ => status end.

Definition measure_step (entry : string * CachedResource) (m : Measure) : M World Measure :=
  let '(id, r) := entry in
  let lru := cache_id_lru m ++ [(id, ConvertProtoToAbslTime (last_accessed_time r))] in
  e ← on_disk (fs_exists (resource_file r));
  if e.1 : bool then
    '(size, file_size_error) ← on_disk (fs_file_size (resource_file r));
    if file_size_error : bool then
      log RESOURCE_CACHE_CLEANUP_FAILED_TO_GET_FILE_SIZE;;
      on_disk (fs_remove (resource_file r));;
      mret {| cache_id_lru := lru; cache_dir_size := cache_dir_size m;
              filesystem_status := first_error (filesystem_status m) "Error getting file size." |}
    else
      mret {| cache_id_lru := lru; cache_dir_size := u64 (cache_dir_size m + size);
              filesystem_status := filesystem_status m |}
  else
    log RESOURCE_CACHE_CLEANUP_FAILED_TO_GET_FILE_SIZE;;
    mret {| cache_id_lru := lru; cache_dir_size := cache_dir_size m; filesystem_status := filesystem_status m |}.

(** Records an error of the two calls of the loop of evictions. *)
Definition record_error (error : bool) (message : string) (status : option Status) : M World (option Status) :=
  match error, status with
  | true, None => log RESOURCE_CACHE_CLEANUP_FAILED_TO_GET_FILE_SIZE;; mret (Some (INTERNAL, message))
  | _, _ => mret status
  end.

(** The size of a file that is removed. *)
Definition remove_evicted (file_to_remove : path) (status : option Status) : M World (Z * option Status) :=
  '(file_size, remove_error) ← on_disk (fs_file_size file_to_remove);
  status ← record_error remove_error "Error getting file size." status;
  '(_, remove_error) ← on_disk (fs_remove file_to_remove);
  status ← record_error remove_error "Failed to delete file." status;
  mret (file_size, status).

Fixpoint evict (max_allowed_size_bytes : Z) (lru : list (string * Time)) (manifest : CacheManifest)
    (cache_dir_size : Z) (status : option Status) : M World (CacheManifest * option Status) :=
  match lru with
  | [] => mret (manifest, status)
  | (id_to_remove, _) :: lru =>
      match manifest !! id_to_remove with
      | None => crash
      | Some r =>
          let file_to_remove := resource_file r in
          let manifest := delete id_to_remove manifest in
          '(file_size, status) ← remove_evicted file_to_remove status;
          let cache_dir_size := u64 (cache_dir_size - file_size) in
          if cache_dir_size <? u64 max_allowed_size_bytes then mret (manifest, status)
          else evict max_allowed_size_bytes lru manifest cache_dir_size status
      end
  end.

(** The part of [CleanUp] that brings the directory below the allowed size. *)
Definition make_room (max_allowed_size_bytes : Z) (manifest : CacheManifest) : M World CacheManifest :=
  m ← for_each measure_step (map_order manifest)
        {| cache_id_lru := []; cache_dir_size := 0; filesystem_status := None |};
  return_if_error (filesystem_status m);;
  if u64 max_allowed_size_bytes <? cache_dir_size m then
    '(manifest, status) ←
      evict max_allowed_size_bytes (sort_by_time (cache_id_lru m)) manifest (cache_dir_size m) None;
    return_if_error status;;
    mret manifest
  else mret manifest.

Definition CleanUp (reserved_space_bytes : option Z) (manifest : CacheManifest) : M World CacheManifest :=
  cache_dir_files ← scan_cache_dir;
  let max_allowed_size_bytes := max_cache_size_bytes_ self - default 0 reserved_space_bytes in
  now ← Now;
  let '(cache_dir_files, cache_ids_to_delete) :=
    foldl (expire_step now) (cache_dir_files, ∅) (map_order manifest) in
  let manifest := erase_all cache_ids_to_delete manifest in
  status ← for_each remove_untracked (elements cache_dir_files) None;
  return_if_error status;;
  make_room max_allowed_size_bytes manifest.

(** ** The operations *)

Definition cord_size (cord : list (list Z)) : Z := Z.of_nat (length (concat cord)).

Definition Put (cache_id : string) (resource : list (list Z)) (metadata : Any) (max_age : Duration) :
    M World unit :=
  if u64 (Z.quot (max_cache_size_bytes_ self) 2) <? cord_size resource then fail RESOURCE_EXHAUSTED "too large"
  else
    manifest ← ReadInternal;
    manifest ← CleanUp (Some (cord_size resource)) manifest;
    let cached_file_path := path_append (cache_dir_path_ self) cache_id in
    now ← Now;
    let expiry := Time_add now max_age in
    let cached_resource :=
      {| file_name := cache_id; metadata := metadata;
         expiry_time := ConvertAbslToProtoTimestamp expiry;
         last_accessed_time := ConvertAbslToProtoTimestamp now |} in
    let manifest :=
      match manifest !! cache_id with
      | Some _ => manifest
      | None => <[cache_id := cached_resource]> manifest
      end in
    WriteInternal manifest;;
    '(cached_file_exists, exists_error) ← on_disk (fs_exists cached_file_path);
    if exists_error : bool then
      log RESOURCE_CACHE_PUT_FAILED_TO_CHECK_IF_FILE_EXISTS;;
      fail INTERNAL "Failed to check if cached resource already exists"
    else if cached_file_exists : bool then mret tt
    else
      status ← attempt (on_disk (WriteCordToFile cached_file_path resource));
      match status with
      | inl _ => mret tt
      | inr (c, message) => log RESOURCE_CACHE_RESOURCE_WRITE_FAILED;; fail c message
      end.

Definition Get_locked (cache_id : string) (max_age : option Duration) : M World ResourceAndMetadata :=
  manifest ← ReadInternal;
  match manifest !! cache_id with
  | None => fail NOT_FOUND "not found"
  | Some cached_resource =>
      let cached_file_path := path_append (cache_dir_path_ self) cache_id in
      now ← Now;
      let cached_resource' :=
        {| file_name := file_name cached_resource; metadata := metadata cached_resource;
           expiry_time :=
             match max_age with
             | Some max_age => ConvertAbslToProtoTimestamp (Time_add now max_age)
             | None => expiry_time cached_resource
             end;
           last_accessed_time := ConvertAbslToProtoTimestamp now |} in
      contents ← attempt (on_disk (ReadFileToCord cached_file_path));
      match contents with
      | inr _ =>
          log RESOURCE_CACHE_RESOURCE_READ_FAILED;;
          '(_, error) ← on_disk (fs_remove cached_file_path);
          if error : bool then fail INTERNAL "error of remove" else fail NOT_FOUND "not found"
      | inl contents =>
          WriteInternal (<[cache_id := cached_resource']> (delete cache_id manifest));;
          mret {| resource := contents; resource_metadata := metadata cached_resource |}
      end
  end.

(** The diagnostic code is logged when the method exits. *)
Definition Get (cache_id : string) (max_age : option Duration) : M World ResourceAndMetadata :=
  r ← attempt (Get_locked cache_id max_age);
  match r with
  | inl a => log RESOURCE_CACHE_HIT;; mret a
  | inr (c, message) => log RESOURCE_CACHE_MISS;; fail c message
  end.

Definition Initialize : M World unit :=
  e ← on_disk (fs_exists_throws (manifest_path_ self));
  (if e : bool then mret tt else on_disk (open_for_writing (manifest_path_ self));; mret tt);;
  file_size ← store_GetFileSize;
  match file_size with
  | inr (_, message) =>
      log RESOURCE_CACHE_INIT_FAILED_TO_GET_MANIFEST_SIZE;; fail INTERNAL message
  | inl file_size =>
      (if file_size =? 0 then
         status ← attempt (WriteInternal ∅);
         match status with
         | inl _ => mret tt
         | inr (_, message) =>
             log RESOURCE_CACHE_INIT_FAILED_TO_INITIALIZE_MANIFEST;; fail INTERNAL message
         end
       else mret tt);;
      manifest ← attempt ReadInternal;
      match manifest with
      | inr (_, message) => fail INTERNAL message
      | inl manifest =>
          cleanup_status ← attempt (CleanUp None manifest);
          match cleanup_status with
          | inr (_, message) => log RESOURCE_CACHE_INIT_FAILED_CLEANUP;; fail INTERNAL message
          | inl manifest =>
              write_status ← attempt (WriteInternal manifest);
              match write_status with
              | inr (_, message) => fail INTERNAL message
              | inl _ => mret tt
              end
          end
      end
  end.
End Methods.

(** [new_store] is what the constructor of the store returns. *)
Definition Create (base_dir cache_dir : string) (max_cache_size_bytes : Z) (new_store : Store) :
    M World FileBackedResourceCache :=
  if negb (is_absolute cache_dir) then
    log RESOURCE_CACHE_CACHE_ROOT_PATH_NOT_ABSOLUTE;; fail INVALID_ARGUMENT "The path must be absolute"
  else
    let cache_dir_path := path_append (path_append (path_of cache_dir) kParentDir) kCacheDir in
    error ← on_disk (fs_create_directories cache_dir_path);
    if error : bool then
      log RESOURCE_CACHE_FAILED_TO_CREATE_CACHE_DIR;; fail INTERNAL "Failed to create cache directory"
    else if negb (is_absolute base_dir) then
      log RESOURCE_CACHE_INVALID_MANIFEST_PATH;; fail INVALID_ARGUMENT "The path must start with a slash"
    else
      let manifest_path := path_append (path_of base_dir) kParentDir in
      error ← on_disk (fs_create_directories manifest_path);
      if error : bool then
        log RESOURCE_CACHE_FAILED_TO_CREATE_MANIFEST_DIR;; fail INTERNAL "Failed to create directory"
      else
        let self := {| cache_dir_path_ := cache_dir_path;
                       manifest_path_ := path_append manifest_path kCacheManifestFileName;
                       max_cache_size_bytes_ := max_cache_size_bytes |} in
        modify (λ w, {| disk := disk w; store := new_store; clock := clock w |});;
        Initialize self;;
        mret self.
End ResourceCache.
