(* ===== verification/FileSystemCorrect.v ===== *)
(** * Reasoning about files

    A logic for the monad [M]: [wp] for postconditions and [keeps] for relations
    between the states before and after; facts on paths and the size of a
    directory; and what each operation of FileSystem.v does, whatever fails. *)

From S2P Require Import Prelude FileSystem.
From Stdlib Require Import Ascii.

(** ** Postconditions *)

Definition wp {S A} (m : M S A) (Q : Res A → S → Prop) (s : S) : Prop := Q (m s).1 (m s).2.

Section Logic.
Context {S : Type}.

Lemma wp_mono {A} (m : M S A) (P Q : Res A → S → Prop) s :
  wp m P s → (∀ r s', P r s' → Q r s') → wp m Q s.
Proof. unfold wp. auto. Qed.

Lemma wp_ret {A} (a : A) Q (s : S) : Q (Ok a) s → wp (mret a) Q s.
Proof. done. Qed.

Lemma wp_bind {A B} (m : M S A) (f : A → M S B) Q s :
  wp m (λ r s', match r with
                | Ok a => wp (f a) Q s'
                | Error c e => Q (Error c e) s'
                | Crash => Q Crash s'
                end) s →
  wp (mbind f m) Q s.
Proof.
  unfold wp, mbind, M_bind. by destruct (m s) as [[a|c e|] s'].
Qed.

Lemma wp_bind_assoc {A B C} (m : M S A) (f : A → M S B) (g : B → M S C) Q s :
  wp (b ← (a ← m; f a); g b) Q s → wp (a ← m; b ← f a; g b) Q s.
Proof. unfold wp, mbind, M_bind. by destruct (m s) as [[a|c e|] s']. Qed.

Lemma wp_for_each_app {A B} (body : B → A → M S A) l k a Q s :
  wp (a' ← for_each body l a; for_each body k a') Q s → wp (for_each body (l ++ k) a) Q s.
Proof.
  revert a s. induction l as [|x l IH]; intros a s; [done|]. simpl. intros Hwp%wp_bind_assoc.
  apply wp_bind. unfold wp in *. unfold mbind at 1 3, M_bind at 1 3 in Hwp.
  destruct (body x a s) as [[a'|c e|] s']; [by apply IH|done..].
Qed.

(** The operation returns a value that satisfies [P]. *)
Definition returns {A} (P : A → S → Prop) (r : Res A) (s : S) : Prop := ∃ a, r = Ok a ∧ P a s.

Lemma wp_bind_returns {A B} (m : M S A) (f : A → M S B) P Q s :
  wp m (returns P) s → (∀ a s', P a s' → wp (f a) Q s') → wp (mbind f m) Q s.
Proof.
  intros Hm Hf. apply wp_bind. eapply wp_mono; [exact Hm|]. intros r s' (a & -> & HP). by apply Hf.
Qed.

Lemma wp_ret_returns {A} (a : A) (P : A → S → Prop) s : P a s → wp (mret a) (returns P) s.
Proof. intros. by exists a. Qed.

Lemma wp_for_each_returns {A B} (I : list B → A → S → Prop) (body : B → A → M S A) l a s :
  I [] a s →
  (∀ done x rest a s, l = done ++ x :: rest → I done a s → wp (body x a) (returns (I (done ++ [x]))) s) →
  wp (for_each body l a) (returns (I l)) s.
Proof.
  intros H0 Hbody.
  enough (∀ rest done a s, l = done ++ rest → I done a s → wp (for_each body rest a) (returns (I l)) s) as Hgen
    by (apply (Hgen l []); done).
  clear a s H0. intros rest. induction rest as [|x rest IH]; intros pre a s -> HI; simpl.
  - apply wp_ret_returns. by rewrite app_nil_r.
  - eapply wp_bind_returns; [by eapply Hbody|]. intros a' s' HI'. simpl in HI'.
    apply (IH (pre ++ [x])); [by rewrite <- app_assoc|done].
Qed.

(** The operation returns a value or it does not, and [Q] is about values only. *)
Lemma wp_bind_ok {A B} (m : M S A) (f : A → M S B) (P : A → S → Prop) (Q : B → S → Prop) s :
  wp m (λ r s', ∀ a, r = Ok a → P a s') s →
  (∀ a s', P a s' → wp (f a) (λ r s'', ∀ b, r = Ok b → Q b s'') s') →
  wp (mbind f m) (λ r s'', ∀ b, r = Ok b → Q b s'') s.
Proof.
  intros Hm Hf. apply wp_bind. eapply wp_mono; [exact Hm|]. intros [a|c e|] s' HP; try done.
  apply Hf, HP. done.
Qed.

Lemma wp_attempt {A} (m : M S A) Q s :
  wp m (λ r s', match r with
                | Ok a => Q (Ok (inl a)) s'
                | Error c e => Q (Ok (inr (c, e))) s'
                | Crash => Q Crash s'
                end) s →
  wp (attempt m) Q s.
Proof. unfold wp, attempt. by destruct (m s) as [[a|c e|] s']. Qed.

(** A loop whose body never returns an error: [I] holds of the elements done. *)
Lemma wp_for_each {A B} (I : list B → A → S → Prop) (body : B → A → M S A) l a s :
  I [] a s →
  (∀ done x rest a s, l = done ++ x :: rest → I done a s →
     wp (body x a) (λ r s', ∀ a', r = Ok a' → I (done ++ [x]) a' s') s) →
  wp (for_each body l a) (λ r s', ∀ a', r = Ok a' → I l a' s') s.
Proof.
  intros H0 Hbody.
  enough (∀ rest done a s, l = done ++ rest → I done a s →
    wp (for_each body rest a) (λ r s', ∀ a', r = Ok a' → I l a' s') s) as Hgen
    by (apply (Hgen l []); done).
  clear a s H0. intros rest. induction rest as [|x rest IH]; intros pre a s -> HI; simpl.
  - apply wp_ret. intros ? [= <-]. by rewrite app_nil_r.
  - eapply wp_bind_ok; [by eapply Hbody|]. intros a' s' HI'. simpl in HI'.
    apply (IH (pre ++ [x])); [by rewrite <- app_assoc|done].
Qed.
End Logic.

(** ** Relations between the states before and after *)

Definition keeps {S A} (R : relation S) (m : M S A) : Prop := ∀ s, R s (m s).2.

Create HintDb keeps.

Section Keeps.
Context {S : Type} (R : relation S) `{!PreOrder R}.

Lemma keeps_ret {A} (a : A) : keeps R (mret a).
Proof. intros s. simpl. reflexivity. Qed.
Lemma keeps_fail {A} c e : keeps R (fail (A:=A) c e).
Proof. intros s. simpl. reflexivity. Qed.
Lemma keeps_crash {A} : keeps R (crash (A:=A)).
Proof. intros s. simpl. reflexivity. Qed.
Lemma keeps_get : keeps R get.
Proof. intros s. simpl. reflexivity. Qed.
Lemma keeps_modify f : (∀ s, R s (f s)) → keeps R (modify f).
Proof. intros H s. apply H. Qed.
Lemma keeps_bind {A B} (m : M S A) (f : A → M S B) :
  keeps R m → (∀ a, keeps R (f a)) → keeps R (mbind f m).
Proof.
  intros Hm Hf s. specialize (Hm s). unfold mbind, M_bind.
  destruct (m s) as [[a|c e|] s']; simpl in *; try done. etrans; [done|apply Hf].
Qed.
Lemma keeps_attempt {A} (m : M S A) : keeps R m → keeps R (attempt m).
Proof. intros Hm s. specialize (Hm s). unfold attempt. by destruct (m s) as [[a|c e|] s']. Qed.
Lemma keeps_for_each {A B} (body : B → A → M S A) l a :
  (∀ x a, keeps R (body x a)) → keeps R (for_each body l a).
Proof.
  intros Hb. revert a. induction l as [|x l IH]; intros a; simpl; [apply keeps_ret|].
  by apply keeps_bind.
Qed.
Lemma keeps_return_if_error status : keeps R (return_if_error status).
Proof. destruct status as [[c e]|]; [apply keeps_fail|apply keeps_ret]. Qed.
Lemma keeps_wp {A} (m : M S A) s : keeps R m → wp m (λ _ s', R s s') s.
Proof. intros H. apply H. Qed.
End Keeps.

#[export] Hint Resolve keeps_ret keeps_fail keeps_crash keeps_get keeps_attempt keeps_for_each
  keeps_return_if_error : keeps.

(** Decomposes an operation down to those that the hints know. *)
Ltac keep :=
  repeat first
    [ assumption
    | solve [eauto 3 with keeps typeclass_instances]
    | apply keeps_bind; [try apply _| |intros]
    | apply keeps_attempt
    | apply keeps_for_each; [try apply _|intros]
    | case_match ].

(** ** Paths *)

Lemma child_name_Some dir k n : child_name dir k = Some n ↔ k = dir ++ [n].
Proof.
  split; [|intros ->; induction dir; simpl; [done|by rewrite decide_True]].
  revert k. induction dir as [|x dir IH]; intros [|y k]; simpl; try done.
  - destruct k; [by intros [= ->]|done].
  - case_decide; [|done]. intros ?%IH. by subst.
Qed.

Lemma elem_of_children n dir t : n ∈ children dir t ↔ is_Some (t !! (dir ++ [n])).
Proof.
  unfold children. rewrite list_elem_of_omap. split.
  - intros ([k nd] & Hin & Hc). apply elem_of_map_to_list in Hin.
    apply child_name_Some in Hc. simpl in Hc. subst k. by eexists.
  - intros [nd Hnd]. exists (dir ++ [n], nd). split; [by apply elem_of_map_to_list|].
    by apply child_name_Some.
Qed.

(** A name that a directory can have. *)
Definition simple_name (s : string) : bool :=
  bool_decide (s ≠ EmptyString ∧ s ≠ "."%string ∧ s ≠ ".."%string ∧ split_path s = [s]).

Lemma resolve_app p q : resolve (p ++ q) = foldl (λ acc c,
    if decide (c = EmptyString ∨ c = "."%string) then acc
    else if decide (c = ".."%string) then removelast acc
    else acc ++ [c]) (resolve p) q.
Proof. unfold resolve. apply foldl_app. Qed.

Lemma resolve_snoc p n : simple_name n = true → resolve (p ++ [n]) = resolve p ++ [n].
Proof.
  intros (? & ? & ? & _)%bool_decide_eq_true. rewrite resolve_app. simpl.
  rewrite decide_False by naive_solver. by rewrite decide_False.
Qed.

Lemma resolve_strip p : resolve (strip_trailing p) = resolve p.
Proof.
  unfold strip_trailing. case_decide as Hl; [|done].
  apply last_Some in Hl as [q ->]. by rewrite removelast_last, resolve_app.
Qed.

Lemma simple_elements n : simple_name n = true → elements_of n = [n] ∧ is_absolute n = false.
Proof.
  intros (Hne & _ & _ & Hs)%bool_decide_eq_true. unfold elements_of. rewrite Hs. split; [done|].
  destruct n as [|c n]; [done|]. simpl in *. destruct (Ascii.eqb c "/"%char); [|done].
  by injection Hs as ??.
Qed.

Lemma append_simple p n : simple_name n = true → path_append p n = strip_trailing p ++ [n].
Proof.
  intros Hn. destruct (simple_elements n Hn) as [He Ha]. unfold path_append. by rewrite Ha, He.
Qed.

Lemma resolve_append p n : simple_name n = true → resolve (path_append p n) = resolve p ++ [n].
Proof. intros Hn. by rewrite append_simple, resolve_snoc, resolve_strip. Qed.

(** Paths whose elements have no separators, and files with names. *)
Definition clean (p : path) : Prop := Forall (λ c, split_path c = [c]) p.
Definition named (k : path) : Prop := Forall (λ c, simple_name c = true) k.
Definition wf_tree (t : gmap path Node) : Prop := ∀ k, is_Some (t !! k) → named k.

Lemma split_path_cons s : ∃ x l, split_path s = x :: l.
Proof. destruct s as [|c s]; simpl; [by eauto|]. repeat case_match; eauto. Qed.

Lemma split_path_clean s : clean (split_path s).
Proof.
  induction s as [|c s IH]; simpl; [by repeat constructor|].
  destruct (Ascii.eqb c "/"%char) eqn:Hc; [by constructor|].
  destruct (split_path_cons s) as (x & l & Hs). rewrite Hs in *.
  apply Forall_cons in IH as [Hx Hl]. constructor; [|done]. simpl. by rewrite Hc, Hx.
Qed.

Lemma clean_removelast p : clean p → clean (removelast p).
Proof.
  unfold clean. destruct p as [|x p] using rev_ind; [done|].
  rewrite removelast_last. by intros [? _]%Forall_app.
Qed.

Lemma clean_last p : clean p → split_path (List.last p EmptyString) = [List.last p EmptyString].
Proof.
  destruct p as [|x p _] using rev_ind; [done|]. rewrite last_last.
  intros [_ H]%Forall_app. by apply Forall_cons in H as [? _].
Qed.

Lemma elements_of_clean s : clean (elements_of s).
Proof.
  unfold elements_of. pose proof (split_path_clean s) as Hs.
  apply Forall_app. split; [|constructor; [by apply clean_last|done]].
  apply Forall_forall. intros c [_ Hc]%list_elem_of_filter.
  apply clean_removelast in Hs. by apply (proj1 (Forall_forall _ _) Hs).
Qed.

Lemma path_of_clean s : clean (path_of s).
Proof. unfold path_of. case_decide; [by constructor|apply elements_of_clean]. Qed.

Lemma path_append_clean p s : clean p → clean (path_append p s).
Proof.
  intros Hp. unfold path_append, strip_trailing. case_match; [apply path_of_clean|].
  apply Forall_app. split; [|apply elements_of_clean].
  case_decide; [by apply clean_removelast|done].
Qed.

Lemma named_removelast k : named k → named (removelast k).
Proof.
  unfold named. destruct k as [|x k _] using rev_ind; [done|].
  rewrite removelast_last. by intros [? _]%Forall_app.
Qed.

Lemma resolve_named p : clean p → named (resolve p).
Proof.
  intros Hp. induction p as [|c p IH] using rev_ind; [by constructor|].
  apply Forall_app in Hp as [Hp Hc]. apply Forall_cons in Hc as [Hc _].
  specialize (IH Hp). rewrite resolve_app. simpl.
  case_decide; [done|]. case_decide; [by apply named_removelast|].
  apply Forall_app. split; [done|]. constructor; [|done].
  apply bool_decide_eq_true. naive_solver.
Qed.

Lemma resolve_of_named k : named k → resolve k = k.
Proof.
  induction k as [|c k IH] using rev_ind; [done|]. intros [Hk Hc]%Forall_app.
  apply Forall_cons in Hc as [Hc _]. by rewrite resolve_snoc, IH.
Qed.

(** ** The size of a directory *)

Definition node_size (n : Node) : nat := match n with File content => length content | Directory => 0 end.
Definition size_at (t : gmap path Node) (k : path) : nat := default 0%nat (node_size <$> t !! k).

Definition weight (dir : path) (kn : path * Node) : nat :=
  if child_name dir kn.1 then node_size kn.2 else 0.

(** The bytes of the files of a directory. *)
Definition dir_size (dir : path) (t : gmap path Node) : nat := sum_list_with (weight dir) (map_to_list t).

Section DirSize.
Context (dir : path).

Lemma dir_size_insert_None t k n :
  t !! k = None → dir_size dir (<[k := n]> t) = (weight dir (k, n) + dir_size dir t)%nat.
Proof. intros Hk. unfold dir_size. by rewrite map_to_list_insert. Qed.

Lemma dir_size_delete t k n :
  t !! k = Some n → dir_size dir t = (weight dir (k, n) + dir_size dir (delete k t))%nat.
Proof. intros Hk. unfold dir_size. by rewrite <- (map_to_list_delete t k n Hk). Qed.

Lemma dir_size_insert_outside t k n :
  child_name dir k = None → dir_size dir (<[k := n]> t) = dir_size dir t.
Proof.
  intros Hc. assert (∀ n', weight dir (k, n') = 0%nat) as Hw by (intros; unfold weight; simpl; by rewrite Hc).
  rewrite <- insert_delete_eq, dir_size_insert_None, Hw by apply lookup_delete_eq.
  destruct (t !! k) as [n'|] eqn:Hk; [by rewrite (dir_size_delete t k n' Hk), Hw|].
  by rewrite delete_id.
Qed.

Lemma dir_size_subseteq t t' : t' ⊆ t → (dir_size dir t' ≤ dir_size dir t)%nat.
Proof.
  revert t'. induction t as [|k n t Hk IH] using map_ind; intros t' Hsub.
  { assert (t' = ∅) as ->; [|done]. apply map_empty. intros i. by eapply lookup_weaken_None; [apply lookup_empty|]. }
  rewrite dir_size_insert_None by done. destruct (t' !! k) as [n'|] eqn:Hk'.
  - assert (n' = n) as -> by (pose proof (lookup_weaken _ _ _ _ Hk' Hsub) as H; rewrite lookup_insert_eq in H; congruence).
    rewrite (dir_size_delete t' k n Hk'). apply Nat.add_le_mono_l, IH.
    apply map_subseteq_spec. intros i x [Hi Hx]%lookup_delete_Some.
    pose proof (lookup_weaken _ _ _ _ Hx Hsub) as H. by rewrite lookup_insert_ne in H.
  - etrans; [apply (IH t')|lia]. apply map_subseteq_spec. intros i x Hx.
    pose proof (lookup_weaken _ _ _ _ Hx Hsub) as H. rewrite lookup_insert_ne in H; [done|congruence].
Qed.

(** The files [ks] are all that the directory has. *)
Lemma dir_size_sum ks t :
  NoDup ks → Forall (λ k, is_Some (child_name dir k)) ks →
  (∀ k, is_Some (child_name dir k) → is_Some (t !! k) → k ∈ ks) →
  dir_size dir t = sum_list_with (size_at t) ks.
Proof.
  revert t. induction ks as [|k ks IH]; intros t Hnd Hch Hcov; simpl.
  - unfold dir_size. assert (∀ kn, kn ∈ map_to_list t → weight dir kn = 0%nat) as Hz.
    { intros [k n] Hin%elem_of_map_to_list. unfold weight. simpl.
      destruct (child_name dir k) eqn:Hc; [|done]. specialize (Hcov k). set_solver. }
    induction (map_to_list t) as [|kn l IH]; [done|]. simpl.
    rewrite Hz, IH; [done| |]; set_solver.
  - apply NoDup_cons in Hnd as [Hk Hnd]. apply Forall_cons in Hch as [Hck Hch].
    assert (sum_list_with (size_at (delete k t)) ks = sum_list_with (size_at t) ks) as Hsame.
    { clear -Hk. induction ks as [|k' ks IH]; simpl; [done|].
      rewrite IH by set_solver. unfold size_at at 1. rewrite lookup_delete_ne by set_solver. done. }
    assert (dir_size dir (delete k t) = sum_list_with (size_at (delete k t)) ks) as Hrest.
    { apply IH; [done|done|]. intros k' Hc' [n' [Hne Hn']%lookup_delete_Some].
      specialize (Hcov k' Hc' (mk_is_Some _ _ Hn')). set_solver. }
    unfold size_at at 1. destruct (t !! k) as [n|] eqn:Hn; simpl.
    + rewrite (dir_size_delete t k n Hn), Hrest, Hsame. unfold weight. simpl.
      by destruct Hck as [? ->].
    + by rewrite <- Hsame, <- Hrest, delete_id.
Qed.
End DirSize.

(** ** The operations *)

(** No call of [op] will fail. *)
Definition healthy (op : Op) (d : Disk) : Prop := Forall (λ f, f = None) (faults d op).
Definition fault_free (d : Disk) : Prop := ∀ op, healthy op d.

(** Files can disappear, and calls of operations are spent. *)
Definition shrinks : relation Disk := λ d d',
  tree d' ⊆ tree d ∧ (∀ op, healthy op d → healthy op d').

#[export] Instance shrinks_preorder : PreOrder shrinks.
Proof.
  split; [by intros d|]. intros d1 d2 d3 [H1 H1'] [H2 H2']. split; [by etrans|auto].
Qed.

Lemma fault_spec op d :
  wp (fault op) (returns (λ f d', tree d' = tree d ∧ (healthy op d → f = None) ∧ shrinks d d')) d.
Proof.
  eexists. split; [done|]. simpl. split; [done|]. split.
  - unfold healthy. intros H. destruct (faults d op); [done|]. by apply Forall_cons in H as [-> _].
  - split; [done|]. intros op' H. unfold healthy in *. simpl. case_decide; subst; [|done].
    destruct (faults d op); [done|]. by apply Forall_cons in H as [_ ?].
Qed.

Lemma keeps_fault op : keeps shrinks (fault op).
Proof. intros d. destruct (fault_spec op d) as (f & _ & _ & _ & ?). done. Qed.
Lemma keeps_node_at p : keeps shrinks (node_at p).
Proof. intros d. reflexivity. Qed.
Lemma keeps_LogDiag code : keeps shrinks (LogDiag code).
Proof. intros d. split; [done|]. done. Qed.
Lemma keeps_delete_node p : keeps shrinks (delete_node p).
Proof. intros d. split; [apply delete_subseteq|done]. Qed.
#[export] Hint Resolve keeps_fault keeps_node_at keeps_LogDiag keeps_delete_node : keeps.

Lemma keeps_fs_exists p : keeps shrinks (fs_exists p).
Proof. unfold fs_exists. keep. Qed.
Lemma keeps_fs_remove p : keeps shrinks (fs_remove p).
Proof. unfold fs_remove. keep. Qed.
Lemma keeps_fs_file_size p : keeps shrinks (fs_file_size p).
Proof. unfold fs_file_size. keep. Qed.
Lemma keeps_fs_directory_iterator p : keeps shrinks (fs_directory_iterator p).
Proof. unfold fs_directory_iterator. keep. Qed.
Lemma keeps_increment : keeps shrinks increment.
Proof. unfold increment. keep. Qed.
Lemma keeps_ReadFile p : keeps shrinks (ReadFile p).
Proof. unfold ReadFile. keep. Qed.
#[export] Hint Resolve keeps_fs_exists keeps_fs_remove keeps_fs_file_size
  keeps_fs_directory_iterator keeps_increment keeps_ReadFile : keeps.
Lemma keeps_fs_exists_throws p : keeps shrinks (fs_exists_throws p).
Proof. unfold fs_exists_throws. keep. Qed.
#[export] Hint Resolve keeps_fs_exists_throws : keeps.

(** Runs an operation up to its calls of [fault]. *)
Ltac spend :=
  eapply wp_bind_returns; [apply fault_spec|];
  let f := fresh "f" in let d := fresh "d" in let Ht := fresh "Ht" in
  let Hf := fresh "Hf" in let Hs := fresh "Hs" in intros f d (Ht & Hf & Hs).

Lemma fs_exists_spec p d :
  wp (fs_exists p) (returns (λ a d',
    tree d' = tree d ∧ shrinks d d' ∧
    (healthy op_exists d → a = (bool_decide (is_Some (tree d !! resolve p)), false)))) d.
Proof.
  unfold fs_exists. spend. rewrite <- Ht. destruct f; eexists; (split; [reflexivity|]); split_and!; try done.
  intros H. by specialize (Hf H).
Qed.

Lemma fs_remove_spec p d :
  wp (fs_remove p) (returns (λ a d',
    shrinks d d' ∧
    (a.2 = false → tree d' = delete (resolve p) (tree d)) ∧
    (a.2 = true → tree d' = tree d ∧ (healthy op_remove d → tree d !! resolve p = Some Directory)))) d.
Proof.
  pose proof (keeps_fs_remove p d) as Hk. unfold fs_remove in *. revert Hk. unfold wp, mbind, M_bind.
  destruct (fault_spec op_remove d) as (f & Hr & Ht & Hf & Hs).
  destruct (fault op_remove d) as [? d1]. simpl in *. subst. simpl. rewrite Ht.
  destruct f as [k|].
  { intros Hk. eexists. split; [done|]. split_and!; try done. intros _. split; [done|].
    intros H. by specialize (Hf H). }
  destruct (tree d !! resolve p) as [[c|]|] eqn:Hn; [| |].
  - intros Hk. eexists. split; [done|]. split_and!; try done. intros _. simpl. by rewrite Ht.
  - case_decide; intros Hk; eexists; (split; [done|]); split_and!; try done.
    intros _. simpl. by rewrite Ht.
  - intros Hk. eexists. split; [done|]. split_and!; try done. intros _. simpl. by rewrite delete_id.
Qed.

(** [remove] returns whether there was a file and it is gone. *)
Lemma fs_remove_true p d :
  wp (fs_remove p) (returns (λ a d',
    (a.1 = true → tree d' = delete (resolve p) (tree d)) ∧ shrinks d d' ∧
    (a.1 = false → healthy op_remove d → tree d !! resolve p = None ∨ tree d !! resolve p = Some Directory))) d.
Proof.
  pose proof (keeps_fs_remove p d) as Hk. unfold fs_remove in *. revert Hk. unfold wp, mbind, M_bind.
  destruct (fault_spec op_remove d) as (f & Hr & Ht & Hf & Hs).
  destruct (fault op_remove d) as [? d1]. simpl in *. subst. simpl. rewrite Ht.
  destruct f as [k|], (tree d !! resolve p) as [[c|]|] eqn:Hn; try case_decide; intros Hk; eexists;
    (split; [done|]); split_and!; try done; simpl; rewrite ?Ht; try done; auto;
    intros _ Hh; by specialize (Hf Hh).
Qed.

Lemma fs_file_size_spec p d :
  wp (fs_file_size p) (returns (λ a d',
    tree d' = tree d ∧ shrinks d d' ∧
    (a.2 = false → a.1 = Z.of_nat (size_at (tree d) (resolve p)) ∧ ∃ c, tree d !! resolve p = Some (File c)) ∧
    (a.2 = true → healthy op_file_size d → ∀ c, tree d !! resolve p ≠ Some (File c)))) d.
Proof.
  unfold fs_file_size. spend. unfold size_at. rewrite <- Ht.
  eapply (wp_bind_returns _ _ (λ n d', d' = d0 ∧ n = tree d0 !! resolve p)); [by eexists|].
  intros n d' [-> ->].
  destruct f as [k|], (tree d0 !! resolve p) as [[c|]|]; eexists; (split; [done|]); split_and!; try done;
    simpl; eauto; intros; naive_solver.
Qed.

Lemma fs_directory_iterator_spec p d :
  wp (fs_directory_iterator p) (returns (λ a d',
    tree d' = tree d ∧ shrinks d d' ∧
    (∀ names, a = Some names → names = children (resolve p) (tree d)) ∧
    (a = None → healthy op_directory_iterator d → tree d !! resolve p ≠ Some Directory))) d.
Proof.
  unfold fs_directory_iterator. spend. rewrite <- Ht.
  eapply (wp_bind_returns _ _ (λ n d', d' = d0 ∧ n = tree d0 !! resolve p)); [by eexists|].
  intros n d' [-> ->]. eapply (wp_bind_returns _ _ (λ e d', d' = d0 ∧ e = d0)); [by eexists|].
  intros ? ? [-> ->].
  destruct f as [k|], (tree d0 !! resolve p) as [[c|]|]; eexists; (split; [done|]); split_and!; try done;
    simpl; naive_solver.
Qed.

Lemma increment_spec d :
  wp increment (λ r d',
    tree d' = tree d ∧ shrinks d d' ∧ (r = Ok tt ∨ r = Crash ∧ ¬ healthy op_increment d)) d.
Proof.
  unfold increment. spend. destruct f; split_and!; try done; [right|by left].
  split; [done|]. intros H. by specialize (Hf H).
Qed.

(** ** Directories and written files *)

(** Nothing is added to the size of [dir]. *)
Definition calm (dir : path) : relation Disk := λ d d',
  (dir_size dir (tree d') ≤ dir_size dir (tree d))%nat ∧
  (wf_tree (tree d) → wf_tree (tree d')) ∧
  (∀ op, healthy op d → healthy op d').

#[export] Instance calm_preorder dir : PreOrder (calm dir).
Proof.
  split; [by intros d|]. intros d1 d2 d3 (H1 & H1' & H1'') (H2 & H2' & H2''). split_and!; [lia|auto|auto].
Qed.

Lemma wf_tree_subseteq t t' : t' ⊆ t → wf_tree t → wf_tree t'.
Proof. intros Hs Hw k [n Hn]. apply Hw. exists n. by eapply lookup_weaken. Qed.

Lemma wf_tree_insert t k n : named k → wf_tree t → wf_tree (<[k := n]> t).
Proof.
  intros Hk Hw k' [n' Hn']. apply lookup_insert_Some in Hn' as [[<- _]|[_ Hn']]; [done|]. apply Hw. by eexists.
Qed.

Lemma shrinks_calm dir d d' : shrinks d d' → calm dir d d'.
Proof.
  intros [Ht Hh]. split_and!; [by apply dir_size_subseteq|by apply wf_tree_subseteq|done].
Qed.

Lemma keeps_calm {A} dir (m : M Disk A) : keeps shrinks m → keeps (calm dir) m.
Proof. intros H d. by apply shrinks_calm. Qed.

(** Adds empty nodes that have names and are not there, such as directories. *)
Definition grows_empty (t t' : gmap path Node) : Prop :=
  (∀ dir, dir_size dir t' = dir_size dir t) ∧ (wf_tree t → wf_tree t').

Lemma insert_grows_empty t k : named k → t !! k = None → grows_empty t (<[k := Directory]> t).
Proof.
  intros Hk Hn. split; [|by apply wf_tree_insert].
  intros dir. rewrite dir_size_insert_None by done. unfold weight. by destruct (child_name dir _).
Qed.

Lemma make_directories_spec rest base t :
  named (base ++ rest) → grows_empty t (make_directories base rest t).1.
Proof.
  assert (∀ t1 t2 t3, grows_empty t1 t2 → grows_empty t2 t3 → grows_empty t1 t3) as Htrans.
  { intros t1 t2 t3 [H1 H1'] [H2 H2']. split; [intros; by rewrite H2, H1|auto]. }
  revert base t. induction rest as [|x rest IH]; intros base t Hn; simpl.
  - rewrite app_nil_r in Hn. repeat case_match; simpl; try (by split). by apply insert_grows_empty.
  - assert (named base) by (by apply Forall_app in Hn as [? _]).
    assert (∀ t', grows_empty t' (make_directories (base ++ [x]) rest t').1) as IH'
      by (intros; apply IH; by rewrite <- app_assoc).
    repeat case_match; simpl; [by split|by apply IH'|].
    eapply Htrans; [by apply insert_grows_empty|apply IH'].
Qed.

Lemma keeps_fs_create_directories dir p : clean p → keeps (calm dir) (fs_create_directories p).
Proof.
  intros Hp. unfold fs_create_directories.
  apply keeps_bind; [apply _|apply keeps_calm, keeps_fault|]. intros [k|]; [apply keeps_ret, _|].
  intros d. destruct (make_directories_spec (resolve p) [] (tree d)) as [Hsize Hwf];
    [by apply resolve_named|].
  unfold mbind, M_bind, get. simpl. destruct (make_directories [] (resolve p) (tree d)) as [t e]. simpl in *. split_and!; try done.
  by rewrite Hsize.
Qed.

Lemma keeps_open_for_writing dir p :
  clean p → child_name dir (resolve p) = None → keeps (calm dir) (open_for_writing p).
Proof.
  intros Hp Hc. unfold open_for_writing.
  repeat (apply keeps_bind; [apply _|apply keeps_calm; eauto with keeps|intros]).
  assert (keeps (calm dir) (set_node p (File []);; mret true)).
  { apply keeps_bind; [apply _| |intros; apply keeps_ret, _]. apply keeps_modify. intros d. split_and!; [| |done].
    - simpl. by rewrite dir_size_insert_outside.
    - apply wf_tree_insert. by apply resolve_named. }
  repeat case_match; try done; apply keeps_ret, _.
Qed.

(** What writing a new file can leave: nothing, or a part of the contents. *)
Definition written (p : path) (content : list Z) (d d' : Disk) : Prop :=
  (∀ op, healthy op d → healthy op d') ∧
  (tree d' = tree d ∨
   ∃ c, (length c ≤ length content)%nat ∧ tree d' = <[resolve p := File c]> (tree d)).

Lemma put_chunk_spec p chunk content d :
  wp (put_chunk p chunk content) (λ r d',
    (∀ op, healthy op d → healthy op d') ∧
    (tree d' = tree d ∧ r = Ok (content ++ chunk) ∨
     ¬ healthy op_write d ∧ (∃ e, r = Error INTERNAL e) ∧
     ∃ c, (length c ≤ length (content ++ chunk))%nat ∧ tree d' = <[resolve p := File c]> (tree d))) d.
Proof.
  unfold put_chunk. spend. destruct Hs as [_ Hs]. destruct f as [k|]; split; try done; [right|by left].
  split; [intros H; by specialize (Hf H)|]. split; [by eexists|].
  exists (take k (content ++ chunk)). split; [rewrite length_take; lia|]. simpl. by rewrite Ht.
Qed.

Lemma close_stream_spec p content d :
  wp (close_stream p content) (returns (λ _ d',
    (∀ op, healthy op d → healthy op d') ∧
    (healthy op_write d → tree d' = <[resolve p := File content]> (tree d)) ∧
    ∃ c, (length c ≤ length content)%nat ∧ tree d' = <[resolve p := File c]> (tree d))) d.
Proof.
  unfold close_stream. spend. destruct Hs as [_ Hs]. eexists. split; [done|]. split_and!; [done| |].
  - intros H. simpl. by rewrite (Hf H), Ht.
  - exists (match f with None => content | Some k => take k content end). simpl. rewrite Ht.
    destruct f; [rewrite length_take|]; split; done || lia.
Qed.

Lemma put_chunks_spec p chunks content d :
  wp (for_each (put_chunk p) chunks content) (λ r d',
    (∀ op, healthy op d → healthy op d') ∧
    (tree d' = tree d ∧ r = Ok (content ++ concat chunks) ∨
     ¬ healthy op_write d ∧ (∃ e, r = Error INTERNAL e) ∧
     ∃ c, (length c ≤ length (content ++ concat chunks))%nat ∧ tree d' = <[resolve p := File c]> (tree d))) d.
Proof.
  revert content d. induction chunks as [|chunk chunks IH]; intros content d; simpl.
  { split; [done|]. left. by rewrite app_nil_r. }
  apply wp_bind. eapply wp_mono; [apply put_chunk_spec|]. rewrite app_assoc.
  intros r d1 (Hh & [[Ht ->]|(Hu & [e ->] & c & Hc & Ht)]).
  - eapply wp_mono; [apply IH|]. rewrite Ht. intros r d2 (Hh' & [H|(Hu & H)]); split; auto.
    right. split; [|done]. intros H'. by apply Hu, Hh.
  - split; [done|]. right. split; [done|]. split; [by eexists|]. exists c. split; [|done].
    rewrite !length_app in *. lia.
Qed.

Lemma open_for_writing_spec p d :
  wp (open_for_writing p) (returns (λ ok d',
    (∀ op, healthy op d → healthy op d') ∧
    (ok = false → tree d' = tree d) ∧
    (ok = true → tree d' = <[resolve p := File []]> (tree d)) ∧
    (healthy op_open d → tree d !! resolve p = None → named (resolve p) →
     tree d !! removelast (resolve p) = Some Directory → ok = true))) d.
Proof.
  unfold open_for_writing. spend. destruct Hs as [_ Hs]. rewrite <- Ht.
  eapply (wp_bind_returns _ _ (λ n d', d' = d0 ∧ n = tree d0 !! resolve p)); [by eexists|].
  intros n d' [-> ->].
  eapply (wp_bind_returns _ _ (λ n d', d' = d0 ∧ n = tree d0 !! resolve (removelast (resolve p)))); [by eexists|].
  intros parent d' [-> ->].
  assert (named (resolve p) → resolve (removelast (resolve p)) = removelast (resolve p)) as Hres
    by (intros; by apply resolve_of_named, named_removelast).
  destruct f as [k|].
  { eexists. split; [done|]. split_and!; try done. intros H. by specialize (Hf H). }
  destruct (tree d0 !! resolve p) as [[c|]|], (tree d0 !! resolve (removelast (resolve p))) as [[c'|]|] eqn:Hp;
    eexists; (split; [reflexivity|]); split_and!; try done; intros _ _ Hnm; rewrite <- (Hres Hnm); congruence.
Qed.

(** Writing a file that is not there, whatever fails; all of it when nothing does. *)
Lemma WriteCordToFile_spec p chunks d :
  tree d !! resolve p = None → named (resolve p) →
  wp (WriteCordToFile p chunks) (λ r d',
    written p (concat chunks) d d' ∧ r ≠ Crash ∧
    (fault_free d → tree d !! removelast (resolve p) = Some Directory →
     r = Ok tt ∧ tree d' = <[resolve p := File (concat chunks)]> (tree d))) d.
Proof.
  intros Hnone Hnamed. unfold WriteCordToFile.
  eapply wp_bind_returns; [apply open_for_writing_spec|]. intros [] d1 (Hh1 & Hfalse & Htrue & Hgood); last first.
  { split_and!; [split; [done|left; auto]|done|]. intros Hff Hdir. by specialize (Hgood (Hff _) Hnone Hnamed Hdir). }
  specialize (Htrue eq_refl). apply wp_bind. eapply wp_mono; [apply put_chunks_spec|].
  rewrite Htrue. intros r d2 (Hh2 & [[Ht2 ->]|(Hu & [e ->] & c & Hc & Ht2)]).
  - eapply wp_mono; [apply close_stream_spec|]. rewrite Ht2, !insert_insert_eq.
    intros r d3 (u & -> & Hh3 & Hok & c & Hc & Ht3). destruct u. split_and!; [|done|].
    + split; [auto|]. right. exists c. by rewrite insert_insert_eq in Ht3.
    + intros Hff Hdir. split; [done|]. apply Hok, Hh2, Hh1, Hff.
  - split_and!; [|done|intros Hff _; by destruct Hu; apply Hh1, Hff].
    split; [auto|]. right. exists c. split; [done|]. by rewrite Ht2, insert_insert_eq.
Qed.

(** Reading a file when nothing fails. *)
Lemma ReadFile_spec p d :
  fault_free d →
  wp (ReadFile p) (λ r d',
    tree d' = tree d ∧ shrinks d d' ∧
    r = match tree d !! resolve p with
        | Some (File c) => Ok c
        | Some Directory => Ok []
        | None => Error INTERNAL "cannot read file"
        end) d.
Proof.
  intros Hff. unfold ReadFile. spend. rewrite (Hf (Hff _)), <- Ht.
  eapply (wp_bind_returns _ _ (λ n d', d' = d0 ∧ n = tree d0 !! resolve p)); [by eexists|].
  intros n d' [-> ->]. destruct (tree d0 !! resolve p) as [n|]; [|by split_and!].
  spend. rewrite (Hf0 (proj2 Hs _ (Hff _))). unfold wp. simpl.
  split_and!; [done|by etrans|by destruct n].
Qed.
