(* ===== verification/CacheCleanUp.v ===== *)
(** * What [CleanUp] does

    [cleaned] states what is true when [CleanUp] of ResourceCache.v returns a
    manifest: which entries it keeps, that the directory has exactly their
    files, that it is within the allowed size, and that entries were evicted by
    their last access and only as needed.  [CleanUp_spec] shows it for every
    pattern of failures of the operating system in which the status of a file
    can be queried. *)

From S2P Require Import Prelude TimeUtil FileSystem FileSystemCorrect ResourceCache.
From Stdlib Require Import Sorted.

Section CleanUp.
Context `{AbslTimeLaws, ProtoDataStore CacheManifest, MapOrder} `{!StdSort, !StdSortLaws _}.
Implicit Types (w : World) (m : CacheManifest) (t : gmap path Node).

(** ** Lifting operations on files *)

(** An operation on files leaves the store and the clock alone. *)
Definition same_rest w w' : Prop := store w' = store w ∧ clock w' = clock w.

Lemma wp_on_disk {A} (op : M Disk A) P w :
  wp op (returns P) (disk w) →
  wp (on_disk op) (returns (λ a w', P a (disk w') ∧ same_rest w w')) w.
Proof.
  unfold wp, on_disk. intros (a & Hr & HP). destruct (op (disk w)) as [x d]. simpl in *. subst x.
  exists a. by repeat split.
Qed.

Definition world_rel (R : relation Disk) : relation World := λ w w', R (disk w) (disk w').

#[export] Instance world_rel_preorder R `{!PreOrder R} : PreOrder (world_rel R).
Proof.
  split; [intros w; unfold world_rel; reflexivity|].
  intros w1 w2 w3 ??. unfold world_rel in *. by etrans.
Qed.

Lemma keeps_on_disk {A} R (op : M Disk A) : keeps R op → keeps (world_rel R) (on_disk op).
Proof. intros Hop w. specialize (Hop (disk w)). unfold on_disk, world_rel. by destruct (op (disk w)). Qed.

Lemma log_spec code w :
  wp (log code) (returns (λ _ w', tree (disk w') = tree (disk w) ∧ faults (disk w') = faults (disk w) ∧ same_rest w w')) w.
Proof. by eexists. Qed.

Lemma keeps_log code : keeps (world_rel shrinks) (log code).
Proof. apply keeps_on_disk, keeps_LogDiag. Qed.

Lemma keeps_Now : keeps (world_rel shrinks) Now.
Proof. intros w. unfold world_rel. simpl. reflexivity. Qed.
#[local] Hint Resolve keeps_on_disk keeps_log keeps_Now : keeps.

Context (self : FileBackedResourceCache).

(** The directory, the file of an entry and the size of the directory. *)
Definition dir : path := resolve (cache_dir_path_ self).
Definition file_key (r : CachedResource) : path := resolve (resource_file self r).

(** ** Removing what no entry has *)

Definition scanned t : gset path :=
  list_to_set (entry_path (cache_dir_path_ self) <$> children dir t).

Lemma elem_of_scanned p t :
  p ∈ scanned t ↔ ∃ n, p = entry_path (cache_dir_path_ self) n ∧ is_Some (t !! (dir ++ [n])).
Proof.
  unfold scanned. rewrite elem_of_list_to_set, list_elem_of_fmap. setoid_rewrite elem_of_children. naive_solver.
Qed.

(** Different entries of the directory are different files. *)
Lemma scanned_key p t :
  wf_tree t → p ∈ scanned t → ∃ n, p = entry_path (cache_dir_path_ self) n ∧ resolve p = dir ++ [n] ∧ is_Some (t !! (dir ++ [n])).
Proof.
  intros Hw (n & -> & Hn)%elem_of_scanned. exists n. split; [done|]. split; [|done].
  apply Hw, Forall_app in Hn as [_ Hn]. apply Forall_cons in Hn as [Hn _].
  unfold entry_path, dir. by rewrite resolve_snoc, resolve_strip.
Qed.

Lemma scanned_inj p q t :
  wf_tree t → p ∈ scanned t → q ∈ scanned t → resolve p = resolve q → p = q.
Proof.
  intros Hw (n & -> & Hn & _)%(scanned_key _ t Hw) (n' & -> & Hn' & _)%(scanned_key _ t Hw) E.
  rewrite Hn, Hn' in E. apply app_inv_head in E. by injection E as ->.
Qed.

Lemma scan_cache_dir_spec w :
  wp (scan_cache_dir self) (λ r w',
    tree (disk w') = tree (disk w) ∧ shrinks (disk w) (disk w') ∧ same_rest w w' ∧
    (∀ files, r = Ok files → files = scanned (tree (disk w))) ∧
    (fault_free (disk w) → tree (disk w) !! dir = Some Directory → ∃ files, r = Ok files)) w.
Proof.
  unfold scan_cache_dir.
  eapply wp_bind_returns; [apply wp_on_disk, fs_directory_iterator_spec|].
  intros names w1 ((Ht & Hs & Hnames & Hnone) & Hrest). destruct names as [names|]; last first.
  { eapply wp_bind_returns; [apply log_spec|]. intros _ w2 (Ht2 & Hf2 & Hr2). unfold wp; simpl.
    split_and!; [congruence| |unfold same_rest in *; naive_solver congruence|done|].
    - destruct Hs as [Hs Hs']. split; [by rewrite Ht2|]. unfold healthy in *. by rewrite Hf2.
    - intros Hff Hd. by destruct (Hnone eq_refl (Hff _)). }
  specialize (Hnames names eq_refl). subst names.
  assert (∀ acc w2, tree (disk w2) = tree (disk w) → shrinks (disk w) (disk w2) → same_rest w w2 →
    wp (for_each (insert_file self) (children dir (tree (disk w))) acc)
       (λ r w', tree (disk w') = tree (disk w) ∧ shrinks (disk w) (disk w') ∧ same_rest w w' ∧
          (∀ files, r = Ok files → files = list_to_set (entry_path (cache_dir_path_ self) <$> children dir (tree (disk w))) ∪ acc) ∧
          (fault_free (disk w) → ∃ files, r = Ok files)) w2) as Hloop.
  { induction (children dir (tree (disk w))) as [|n l IH]; intros acc w2 Ht2 Hs2 Hr2; simpl.
    - split_and!; try done; [|by eauto]. intros files [= <-]. set_solver.
    - apply wp_bind, wp_bind. unfold wp at 1, on_disk.
      pose proof (increment_spec (disk w2)) as Hinc. unfold wp in Hinc.
      destruct (increment (disk w2)) as [r d]. simpl in *. destruct Hinc as (Htd & Hsd & Hres).
      assert (shrinks (disk w) d) as Hsd' by (by etrans).
      destruct Hres as [-> | [-> Hu]].
      + apply wp_ret. eapply wp_mono; [apply IH|]; [simpl; congruence|done|done|].
        intros r w' (? & ? & ? & Hf & ?). split_and!; try done. intros files ->. rewrite (Hf files); set_solver.
      + split_and!; [simpl; congruence|done|done|done|]. intros Hff. destruct Hu. apply Hs2, Hff. }
  eapply wp_mono; [apply (Hloop ∅ w1)|]; [done|done|done|].
  intros r w' (? & ? & ? & Hf & Htot). split_and!; try done; [|eauto].
  intros files Hr. rewrite (Hf files Hr). unfold scanned. set_solver.
Qed.

(** ** Expired entries and those without a file *)

Definition live (now : Time) (r : CachedResource) : Prop :=
  Time_lt (ConvertProtoToAbslTime (expiry_time r)) now = false.

Record expired (now : Time) (files0 : gset path) (l : list (string * CachedResource))
    (files : gset path) (ids : gset string) : Prop := {
  expired_ids id : id ∈ ids → id ∈ l.*1;
  expired_files : files ⊆ files0;
  expired_kept id r : (id, r) ∈ l → id ∉ ids → live now r ∧ resource_file self r ∈ files0 ∧ resource_file self r ∉ files;
  expired_claimed p : p ∈ files0 → p ∉ files → ∃ id r, (id, r) ∈ l ∧ id ∉ ids ∧ resource_file self r = p;
  expired_inj id r id' r' :
    (id, r) ∈ l → (id', r') ∈ l → id ∉ ids → id' ∉ ids → resource_file self r = resource_file self r' → id = id';
  expired_usable id r :
    (id, r) ∈ l → live now r → resource_file self r ∈ files0 →
    (∀ id' r', (id', r') ∈ l → resource_file self r' = resource_file self r → id' = id) → id ∉ ids
}.

Lemma elem_snoc {A B} (l : list (A * B)) (a a' : A) (b b' : B) :
  (a', b') ∈ l ++ [(a, b)] ↔ (a', b') ∈ l ∨ a' = a ∧ b' = b.
Proof. rewrite elem_of_app, list_elem_of_singleton. naive_solver. Qed.

Section Expire.
Context (now : Time) (files0 files : gset path) (ids : gset string).
Context (l : list (string * CachedResource)) (id : string) (r : CachedResource).
Context (He : expired now files0 l files ids) (Hid : id ∉ l.*1).

#[local] Lemma fresh_id id' r' : (id', r') ∈ l → id' ≠ id.
Proof. intros Hin ->. apply Hid, (list_elem_of_fmap_2 fst _ _ Hin). Qed.

Lemma expired_skip :
  ¬ live now r ∨ resource_file self r ∉ files → expired now files0 (l ++ [(id, r)]) files ({[id]} ∪ ids).
Proof.
  destruct He as [Hids Hfiles Hkept Hclaimed Hinj Husable]. intros Hwhy. split.
  - intros i. rewrite fmap_app. set_solver.
  - done.
  - intros i r1 [Hin|[-> ->]]%elem_snoc Hni; [apply (Hkept i); set_solver|set_solver].
  - intros p Hp Hp'. destruct (Hclaimed p Hp Hp') as (i & r1 & Hin & Hni & <-). exists i, r1.
    rewrite elem_snoc. pose proof (fresh_id _ _ Hin). set_solver.
  - intros i r1 i' r1' [Hin|[-> ->]]%elem_snoc [Hin'|[-> ->]]%elem_snoc Hni Hni'; try set_solver.
  - intros i r1 [Hin|[-> ->]]%elem_snoc Hlive Hf Hu.
    + pose proof (fresh_id _ _ Hin). assert (i ∉ ids); [|set_solver]. apply (Husable i r1); try done.
      intros i' r' Hin'. apply Hu. rewrite elem_snoc. by left.
    + exfalso. destruct Hwhy as [?|Hwhy]; [done|].
      destruct (Hclaimed _ Hf Hwhy) as (i & r1 & Hin & _ & Heq).
      apply (fresh_id _ _ Hin), (Hu i r1); [rewrite elem_snoc; by left|done].
Qed.

Lemma expired_keep :
  live now r → resource_file self r ∈ files →
  expired now files0 (l ++ [(id, r)]) (files ∖ {[resource_file self r]}) ids.
Proof.
  destruct He as [Hids Hfiles Hkept Hclaimed Hinj Husable]. intros Hlive Hf. split.
  - intros i Hi. rewrite fmap_app. apply elem_of_app. left. by apply Hids.
  - set_solver.
  - intros i r1 [Hin|[-> ->]]%elem_snoc Hni; [|set_solver].
    destruct (Hkept i r1 Hin Hni) as (? & ? & ?). set_solver.
  - intros p Hp Hp'. destruct (decide (p = resource_file self r)) as [->|Hne].
    + exists id, r. rewrite elem_snoc.
      split; [by right|]. split; [|done]. intros Hi. exact (Hid (Hids _ Hi)).
    + rewrite elem_of_difference, not_elem_of_singleton in Hp'.
      destruct (Hclaimed p Hp) as (i & r1 & Hin & Hni & Hr1); [by intros ?; apply Hp'|]. exists i, r1. rewrite elem_snoc. auto.
  - intros i r1 i' r1' [Hin|[-> ->]]%elem_snoc [Hin'|[-> ->]]%elem_snoc Hni Hni' Heq; try done.
    + by apply (Hinj i r1 i' r1').
    + destruct (Hkept i r1 Hin Hni) as (? & ? & Hno). by rewrite Heq in Hno.
    + destruct (Hkept i' r1' Hin' Hni') as (? & ? & Hno). by rewrite <- Heq in Hno.
  - intros i r1 [Hin|[-> ->]]%elem_snoc Hl Hf0 Hu; [|intros Hi; exact (Hid (Hids _ Hi))].
    apply (Husable i r1); try done. intros i' r' Hin'. apply Hu. rewrite elem_snoc. by left.
Qed.
End Expire.

Lemma expire_spec now files0 l :
  NoDup l.*1 →
  let '(files, ids) := foldl (expire_step self now) (files0, ∅) l in expired now files0 l files ids.
Proof.
  induction l as [|[id r] l IH] using rev_ind; intros Hnd.
  { simpl. split; set_solver. }
  rewrite fmap_app in Hnd. apply NoDup_app in Hnd as (Hnd & Hnew & _). specialize (IH Hnd).
  assert (id ∉ l.*1) as Hid by (intros Hin; apply (Hnew id Hin); set_solver).
  rewrite foldl_app. destruct (foldl (expire_step self now) (files0, ∅) l) as [files ids]. simpl.
  destruct (Time_lt _ now) eqn:Hexp; [|case_bool_decide as Hin]; simpl.
  - apply expired_skip; try done. left. unfold live. by rewrite Hexp.
  - by apply expired_keep.
  - apply expired_skip; try done. by right.
Qed.

Lemma lookup_erase_all ids m id :
  erase_all ids m !! id = if decide (id ∈ ids) then None else m !! id.
Proof.
  unfold erase_all.
  assert (∀ l m, foldl (λ m id, delete id m) m l !! id = if decide (id ∈ l) then None else m !! id) as Hl.
  { intros l. induction l as [|x l IH]; intros m'; simpl; [done|]. rewrite IH.
    destruct (decide (id = x)) as [->|Hne].
    - rewrite lookup_delete_eq. rewrite (decide_True (P := x ∈ x :: l)) by set_solver. by case_decide.
    - rewrite lookup_delete_ne by done. repeat case_decide; set_solver. }
  rewrite Hl. repeat case_decide; set_solver.
Qed.

(** ** The loops *)

(** Files can have disappeared; the store and the clock are as before. *)
Definition later : relation World := λ w w', shrinks (disk w) (disk w') ∧ same_rest w w'.

#[export] Instance later_preorder : PreOrder later.
Proof.
  split; [intros w; by repeat split|]. intros w1 w2 w3 [? [??]] [? [??]]. split; [by etrans|].
  split; congruence.
Qed.

Lemma later_log code w : wp (log code) (returns (λ _ w', tree (disk w') = tree (disk w) ∧ later w w')) w.
Proof. eexists. split; [done|]. split; [done|]. split; [by split|by split]. Qed.

Lemma later_on_disk {A} (op : M Disk A) P w :
  keeps shrinks op → wp op (returns P) (disk w) →
  wp (on_disk op) (returns (λ a w', P a (disk w') ∧ later w w')) w.
Proof.
  intros Hk HP. specialize (Hk (disk w)). revert HP Hk. unfold wp, on_disk, later.
  destruct (op (disk w)) as [x d]. simpl. intros (a & -> & HP) Hk. exists a. by split_and!.
Qed.

(** [t'] is [t] without the files [ks]. *)
Definition without (ks : list path) t t' : Prop :=
  ∀ k, t' !! k = if decide (k ∈ ks) then None else t !! k.

Lemma without_nil t : without [] t t.
Proof. intros k. by rewrite decide_False by set_solver. Qed.

Lemma without_snoc ks k t t' : without ks t t' → without (ks ++ [k]) t (delete k t').
Proof.
  intros Hw i. destruct (decide (i = k)) as [->|Hne].
  - rewrite lookup_delete_eq. by rewrite decide_True by set_solver.
  - rewrite lookup_delete_ne, Hw by done. repeat case_decide; set_solver.
Qed.

Lemma remove_untracked_spec files w :
  wp (for_each remove_untracked files None) (returns (λ status w',
    later w w' ∧
    (status = None → without (resolve <$> files) (tree (disk w)) (tree (disk w'))) ∧
    (healthy op_remove (disk w) → (∀ p, p ∈ files → tree (disk w) !! resolve p ≠ Some Directory) →
     status = None))) w.
Proof.
  eapply (wp_for_each_returns (λ done status w', later w w' ∧
    (status = None → without (resolve <$> done) (tree (disk w)) (tree (disk w'))) ∧
    (healthy op_remove (disk w) → (∀ p, p ∈ files → tree (disk w) !! resolve p ≠ Some Directory) →
     status = None))).
  { split_and!; [reflexivity| |done]. intros _. apply without_nil. }
  intros pre p rest status w1 -> (Hl & Hwithout & Hok). unfold remove_untracked.
  eapply wp_bind_returns; [apply later_on_disk; [apply keeps_fs_remove|apply fs_remove_spec]|].
  intros [b e] w2 ((_ & Hfalse & Htrue) & Hl2). simpl in *.
  assert (later w w2) as Hl' by (by etrans). rewrite fmap_app. destruct e.
  - destruct (Htrue eq_refl) as [Ht Hdir].
    assert (¬ (healthy op_remove (disk w) ∧ ∀ q, q ∈ pre ++ p :: rest → tree (disk w) !! resolve q ≠ Some Directory)) as Hno.
    { intros [Hh Hnd]. destruct Hl as [[Hsub Hhl] _]. specialize (Hdir (Hhl _ Hh)).
      apply (lookup_weaken _ _ _ _ Hdir) in Hsub. by apply (Hnd p); [set_solver|]. }
    destruct status as [st|].
    + apply wp_ret_returns. split_and!; [done|done|]. intros Hh Hnd. by destruct Hno.
    + eapply wp_bind_returns; [apply later_log|]. intros _ w3 [Ht3 Hl3]. apply wp_ret_returns.
      split_and!; [by etrans|done|]. intros Hh Hnd. by destruct Hno.
  - apply wp_ret_returns. split_and!; [done| |done]. intros ->. rewrite Hfalse by done.
    by apply without_snoc, Hwithout.
Qed.

(** The entries and the times of their last access. *)
Definition last_access r : Time := ConvertProtoToAbslTime (last_accessed_time r).
Definition lru_of (l : list (string * CachedResource)) : list (string * Time) :=
  (λ e, (e.1, last_access e.2)) <$> l.

Definition is_file t r : Prop := ∃ c, t !! file_key r = Some (File c).

Lemma u64_add_l a b : u64 (u64 a + b) = u64 (a + b).
Proof. apply Zplus_mod_idemp_l. Qed.

(** What the loop has measured after the entries [l]; [files] says that all of
    the entries have files. *)
Definition measured w (files : Prop) (l : list (string * CachedResource)) (ms : Measure) w' : Prop :=
  later w w' ∧ cache_id_lru ms = lru_of l ∧
  (filesystem_status ms = None →
     tree (disk w') = tree (disk w) ∧ (∀ e, e ∈ l → is_file (tree (disk w)) e.2) ∧
     cache_dir_size ms = u64 (Z.of_nat (sum_list_with (λ e, size_at (tree (disk w)) (file_key e.2)) l))) ∧
  (healthy op_file_size (disk w) → files → filesystem_status ms = None).

Lemma measure_step_spec w (files : Prop) l id r ms w1 :
  healthy op_exists (disk w) → is_Some (tree (disk w) !! file_key r) →
  (files → is_file (tree (disk w)) r) →
  measured w files l ms w1 →
  wp (measure_step self (id, r) ms) (returns (measured w files (l ++ [(id, r)]))) w1.
Proof.
  intros Hex Hsome Hfiles (Hl & Hlru & Hsize & Hok). unfold measure_step.
  assert (cache_id_lru ms ++ [(id, last_access r)] = lru_of (l ++ [(id, r)])) as Hlru'.
  { unfold lru_of in *. by rewrite fmap_app, Hlru. }
  eapply wp_bind_returns; [apply later_on_disk; [apply keeps_fs_exists|apply fs_exists_spec]|].
  intros e w2 ((Ht2 & _ & He) & Hl2). rewrite (He (proj2 (proj1 Hl) _ Hex)). simpl. clear e He.
  change (resolve (resource_file self r)) with (file_key r). case_bool_decide as Hnode.
  2: { eapply wp_bind_returns; [apply later_log|]. intros _ w3 [Ht3 Hl3]. apply wp_ret_returns.
       assert (filesystem_status ms ≠ None) as Hne.
       { intros Hst. destruct (Hsize Hst) as [Ht _]. by rewrite Ht in Hnode. }
       split_and!; [etrans; [done|by etrans]|done|done|]. intros Hh Hf. by destruct Hne; apply Hok. }
  eapply wp_bind_returns; [apply later_on_disk; [apply keeps_fs_file_size|apply fs_file_size_spec]|].
  intros [size error] w3 ((Ht3 & _ & Hgood & Hbad) & Hl3). simpl in Hgood, Hbad.
  assert (later w w3) as Hl' by (etrans; [done|by etrans]). destruct error.
  - eapply wp_bind_returns; [apply later_log|]. intros _ w4 [Ht4 Hl4].
    eapply wp_bind_returns; [apply later_on_disk; [apply keeps_fs_remove|apply fs_remove_spec]|].
    intros _ w5 [_ Hl5]. apply wp_ret_returns. simpl.
    split_and!; [etrans; [done|by etrans]|done|by destruct (filesystem_status ms)|].
    intros Hh Hf. destruct (Hsize (Hok Hh Hf)) as [Ht _]. destruct (Hfiles Hf) as [c Hc].
    destruct (Hbad eq_refl) with (c := c); [|by rewrite Ht2, Ht].
    apply Hl2, Hl. done.
  - apply wp_ret_returns. simpl. destruct (Hgood eq_refl) as [-> Hc]. rewrite Ht2 in Hc |- *.
    split_and!; [done|done| |done]. intros Hst. destruct (Hsize Hst) as (Ht & Hall & Hsz). rewrite Ht in Hc |- *.
    split_and!; [by rewrite Ht3, Ht2| |].
    + intros [i ri] [Hin|[-> ->]]%elem_snoc; [by apply (Hall (i, ri))|done].
    + rewrite Hsz, u64_add_l, sum_list_with_app. simpl. f_equal. unfold file_key. lia.
Qed.

Lemma measure_spec l w :
  healthy op_exists (disk w) → (∀ e, e ∈ l → is_Some (tree (disk w) !! file_key e.2)) →
  wp (for_each (measure_step self) l {| cache_id_lru := []; cache_dir_size := 0; filesystem_status := None |})
    (returns (measured w (∀ e, e ∈ l → is_file (tree (disk w)) e.2) l)) w.
Proof.
  intros Hex Hsome. apply (wp_for_each_returns (measured w (∀ e, e ∈ l → is_file (tree (disk w)) e.2))).
  { split_and!; [reflexivity|done| |done]. intros _. split_and!; [done|set_solver|done]. }
  intros pre [id r] rest ms w1 -> Hm. apply measure_step_spec; [done| | |done].
  - apply (Hsome (id, r)). set_solver.
  - intros Hf. apply (Hf (id, r)). set_solver.
Qed.

(** ** Evictions *)

(** The directory has the files of the entries, one each, and nothing else. *)
Record tracked m t : Prop := {
  tracked_child id r : m !! id = Some r → is_Some (child_name dir (file_key r));
  tracked_inj id r id' r' : m !! id = Some r → m !! id' = Some r' → file_key r = file_key r' → id = id';
  tracked_file id r : m !! id = Some r → is_file t r;
  tracked_all k : is_Some (child_name dir k) → is_Some (t !! k) → ∃ id r, m !! id = Some r ∧ file_key r = k
}.

Lemma tracked_delete m t id r :
  tracked m t → m !! id = Some r → tracked (delete id m) (delete (file_key r) t).
Proof.
  intros [Hch Hinj Hfile Hall] Hr. split.
  - intros i ri [_ Hi]%lookup_delete_Some. by eapply Hch.
  - intros i ri i' ri' [_ Hi]%lookup_delete_Some [_ Hi']%lookup_delete_Some. by apply Hinj.
  - intros i ri [Hne Hi]%lookup_delete_Some. destruct (Hfile i ri Hi) as [c Hc]. exists c.
    rewrite lookup_delete_ne; [done|]. intros E. apply Hne. by eapply Hinj.
  - intros k Hk [n [Hne Hn]%lookup_delete_Some]. destruct (Hall k Hk (mk_is_Some _ _ Hn)) as (i & ri & Hi & <-).
    exists i, ri. rewrite lookup_delete_ne; [done|]. intros ->. congruence.
Qed.

Lemma tracked_size m t l :
  tracked m t → l ≡ₚ map_to_list m → dir_size dir t = sum_list_with (λ e, size_at t (file_key e.2)) l.
Proof.
  intros [Hch Hinj _ Hall] Hl.
  assert (∀ e, e ∈ l ↔ m !! e.1 = Some e.2) as Hin.
  { intros [i r]. rewrite Hl. apply elem_of_map_to_list. }
  assert (NoDup l.*1) as Hnd by (rewrite Hl; apply NoDup_fst_map_to_list).
  rewrite (dir_size_sum dir ((λ e, file_key e.2) <$> l)).
  - clear. induction l as [|e l IH]; csimpl; [done|]. by rewrite IH.
  - apply NoDup_fmap_2_strong; [|by eapply NoDup_fmap_1].
    intros [i r] [i' r'] Hi%Hin Hi'%Hin E. simpl in *. assert (i = i') as -> by (by eapply Hinj). congruence.
  - apply Forall_fmap, Forall_forall. intros [i r] Hi%Hin. by eapply Hch.
  - intros k Hk Hk'. destruct (Hall k Hk Hk') as (i & r & Hi & <-).
    apply list_elem_of_fmap. exists (i, r). by rewrite Hin.
Qed.

Lemma record_error_spec error message status w :
  wp (record_error error message status) (returns (λ st w',
    tree (disk w') = tree (disk w) ∧ later w w' ∧ (st = None ↔ error = false ∧ status = None))) w.
Proof.
  unfold record_error. destruct error, status as [x|].
  1,3,4: apply wp_ret_returns; split_and!; [done|reflexivity|naive_solver].
  eapply wp_bind_returns; [apply later_log|]. intros _ w' [??]. apply wp_ret_returns. naive_solver.
Qed.

(** What the evictions of [ev] have done. *)
Record evicted (allowed : Z) m t (ev : list (string * Time)) m' t' : Prop := {
  evicted_tracked : tracked m' t';
  evicted_lookup id : m' !! id = if decide (id ∈ ev.*1) then None else m !! id;
  evicted_outside k : child_name dir k = None → t' !! k = t !! k;
  evicted_none : ev = [] → t' = t;
  evicted_size : Z.of_nat (dir_size dir t') ≤ allowed;
  evicted_needed pre id time :
    ev = pre ++ [(id, time)] →
    ∃ r, m !! id = Some r ∧ allowed ≤ Z.of_nat (dir_size dir t' + size_at t (file_key r))
}.

Lemma evicted_cons allowed m t id time r ev m' t' :
  tracked m t → m !! id = Some r →
  evicted allowed (delete id m) (delete (file_key r) t) ev m' t' →
  (ev = [] → allowed ≤ Z.of_nat (dir_size dir t' + size_at t (file_key r))) →
  evicted allowed m t ((id, time) :: ev) m' t'.
Proof.
  intros Htr Hr [Ht' Hlook Hout _ Hsize Hneed] Hfirst. split; [done| | |done|done|].
  - intros i. rewrite Hlook. destruct (decide (i = id)) as [->|Hne].
    + rewrite lookup_delete_eq. csimpl. rewrite (decide_True (P := id ∈ id :: _)) by set_solver. by case_decide.
    + rewrite lookup_delete_ne by done. csimpl. repeat case_decide; set_solver.
  - intros k Hk. rewrite Hout by done. apply lookup_delete_ne. intros <-.
    destruct (tracked_child _ _ Htr id r Hr) as [? Hc]. congruence.
  - intros [|x pre] i tm E; simplify_eq/=.
    + exists r. split; [done|auto].
    + destruct (Hneed pre i tm eq_refl) as (ri & [Hne Hri]%lookup_delete_Some & Hle).
      exists ri. split; [done|]. unfold size_at in Hle. rewrite lookup_delete_ne in Hle; [done|].
      intros E'. apply Hne. by eapply (tracked_inj _ _ Htr).
Qed.

Lemma evicted_nil allowed m t :
  tracked m t → Z.of_nat (dir_size dir t) ≤ allowed → evicted allowed m t [] m t.
Proof. intros Htr Hsize. split; try done. intros [|? pre] ?? E; done. Qed.

(** The files removed by one turn of the loop. *)
Lemma tracked_delete_size m t id r :
  tracked m t → m !! id = Some r →
  Z.of_nat (dir_size dir t) - Z.of_nat (size_at t (file_key r)) = Z.of_nat (dir_size dir (delete (file_key r) t)).
Proof.
  intros Htr Hr. destruct (tracked_file _ _ Htr id r Hr) as [c Hc].
  rewrite (dir_size_delete dir t _ _ Hc). unfold weight, size_at. rewrite Hc. simpl.
  destruct (tracked_child _ _ Htr id r Hr) as [? ->]. lia.
Qed.

Lemma remove_evicted_spec file status w :
  wp (remove_evicted file status) (returns (λ res w',
    later w w' ∧
    (res.2 = None → status = None ∧ tree (disk w') = delete (resolve file) (tree (disk w)) ∧
                    res.1 = Z.of_nat (size_at (tree (disk w)) (resolve file))) ∧
    (fault_free (disk w) → status = None → (∃ c, tree (disk w) !! resolve file = Some (File c)) → res.2 = None))) w.
Proof.
  unfold remove_evicted.
  eapply wp_bind_returns; [apply later_on_disk; [apply keeps_fs_file_size|apply fs_file_size_spec]|].
  intros [size e1] w1 ((Ht1 & _ & Hgood1 & Hbad1) & Hl1). simpl in Hgood1, Hbad1.
  eapply wp_bind_returns; [apply record_error_spec|]. intros st1 w2 (Ht2 & Hl2 & Hst1).
  eapply wp_bind_returns; [apply later_on_disk; [apply keeps_fs_remove|apply fs_remove_spec]|].
  intros [b e3] w3 ((_ & Hgood3 & Hbad3) & Hl3). simpl in Hgood3, Hbad3.
  eapply wp_bind_returns; [apply record_error_spec|]. intros st2 w4 (Ht4 & Hl4 & Hst2).
  apply wp_ret_returns. split; [do 3 (etrans; [done|]); done|]. simpl. rewrite Hst2, Hst1. split.
  - intros (-> & -> & ->). split; [done|].
    by rewrite Ht4, Hgood3, Ht2, Ht1, (proj1 (Hgood1 eq_refl)) by done.
  - intros Hff -> [c Hc]. destruct e1; [by destruct (Hbad1 eq_refl (Hff _) c)|]. split; [|done].
    destruct e3; [|done]. destruct (Hbad3 eq_refl) as [_ Hdir].
    rewrite Ht2, Ht1, Hc in Hdir. by specialize (Hdir ltac:(apply Hl2, Hl1, Hff)).
Qed.

Lemma evict_spec allowed lru m w csize status :
  0 ≤ allowed < 2 ^ 64 →
  NoDup lru.*1 → (∀ id, id ∈ lru.*1 ↔ is_Some (m !! id)) →
  (status = None →
     tracked m (tree (disk w)) ∧ csize = Z.of_nat (dir_size dir (tree (disk w))) ∧ allowed ≤ csize < 2 ^ 64) →
  wp (evict self allowed lru m csize status) (returns (λ res w',
    later w w' ∧
    (res.2 = None → status = None ∧
       ∃ ev keep, lru = ev ++ keep ∧ evicted allowed m (tree (disk w)) ev res.1 (tree (disk w'))) ∧
    (fault_free (disk w) → status = None → res.2 = None))) w.
Proof.
  intros Hallowed. revert m w csize status.
  induction lru as [|[id time] lru IH]; intros m w csize status Hnd Hdom Hst; simpl.
  { apply wp_ret_returns. simpl. split_and!; [reflexivity| |done]. intros Hn. split; [done|].
    destruct (Hst Hn) as (Htr & _ & _). exists [], []. split; [done|].
    assert (m = ∅) as -> by (apply map_empty; intros i; apply eq_None_not_Some; rewrite <- Hdom; set_solver).
    apply evicted_nil; [done|].
    rewrite (tracked_size ∅ _ [] Htr) by (by rewrite map_to_list_empty). simpl. lia. }
  apply NoDup_cons in Hnd as [Hid Hnd].
  destruct (proj1 (Hdom id) ltac:(csimpl; set_solver)) as [r Hr]. rewrite Hr.
  eapply wp_bind_returns; [apply remove_evicted_spec|]. change (resolve (resource_file self r)) with (file_key r).
  intros [size st] w1 (Hl & Hnone & Hok). simpl in Hnone, Hok.
  assert (st = None → tracked (delete id m) (tree (disk w1)) ∧
          u64 (csize - size) = Z.of_nat (dir_size dir (tree (disk w1))) ∧ u64 (csize - size) < 2 ^ 64) as Hst1.
  { intros Hn. destruct (Hnone Hn) as (Hs & -> & ->). destruct (Hst Hs) as (Htr & -> & ?).
    split; [by apply tracked_delete|]. rewrite (tracked_delete_size _ _ id r) by done.
    pose proof (dir_size_subseteq dir _ _ (delete_subseteq (tree (disk w)) (file_key r))).
    rewrite u64_small by lia. lia. }
  assert (fault_free (disk w) → status = None → st = None) as Hok'.
  { intros Hff Hn. apply Hok; try done. by apply (tracked_file _ _ (proj1 (Hst Hn)) id). }
  rewrite (u64_small allowed) by done. case_match eqn:Hlt.
  - apply Z.ltb_lt in Hlt. apply wp_ret_returns. simpl. split_and!; [done| |done]. intros Hn.
    destruct (Hnone Hn) as (Hs & Ht & Hsize). split; [done|]. destruct (Hst1 Hn) as (Htr1 & Hcs & _).
    destruct (Hst Hs) as (Htr & Hc & ?). exists [(id, time)], lru. split; [done|].
    apply (evicted_cons _ _ _ _ _ r); try done; rewrite Ht in *; [apply evicted_nil; [done|lia]|].
    intros _. pose proof (tracked_delete_size _ _ id r Htr Hr). lia.
  - apply Z.ltb_ge in Hlt. eapply wp_mono; [apply IH; [done| |]|].
    + intros i. destruct (decide (i = id)) as [->|Hne].
      * rewrite lookup_delete_eq. split; [done|]. by intros [? ?].
      * rewrite lookup_delete_ne, <- Hdom by done. csimpl. set_solver.
    + intros Hn. destruct (Hst1 Hn) as (? & ? & ?). by split_and!.
    + intros res w2 ([m' st'] & -> & Hl' & Hn' & Hok2). exists (m', st'). split; [done|]. simpl in *.
      split_and!; [by etrans| |].
      * intros Hn. destruct (Hn' Hn) as (Hst' & ev & keep & -> & Hev). destruct (Hnone Hst') as (Hs & Ht & _).
        split; [done|]. exists ((id, time) :: ev), keep. split; [done|]. rewrite Ht in Hev.
        apply (evicted_cons _ _ _ _ _ r); try done; [apply Hst, Hs|]. intros ->.
        rewrite (evicted_none _ _ _ _ _ _ Hev eq_refl), <- Ht. destruct (Hst1 Hst'). lia.
      * intros Hff Hs. apply Hok2; [|by apply Hok']. intros op. apply Hl, Hff.
Qed.

(** ** [CleanUp] *)

Lemma scanned_child p t : wf_tree t → p ∈ scanned t → is_Some (child_name dir (resolve p)).
Proof. intros Hw (n & _ & -> & _)%(scanned_key _ t Hw). exists n. by apply child_name_Some. Qed.

(** The entries that are left, once the files that no entry claims are gone. *)
Section Claimed.
Context (now : Time) (m : CacheManifest) (t t' : gmap path Node) (files : gset path) (ids : gset string).
Context (Hwf : wf_tree t) (He : expired now (scanned t) (map_order m) files ids).
Context (Hwithout : without (resolve <$> elements files) t t').

#[local] Lemma elem_of_map_order id r : (id, r) ∈ map_order m ↔ m !! id = Some r.
Proof. rewrite map_order_perm. apply elem_of_map_to_list. Qed.

#[local] Lemma kept_lookup id r :
  erase_all ids m !! id = Some r → m !! id = Some r ∧ id ∉ ids ∧ live now r ∧ resource_file self r ∈ scanned t ∧ resource_file self r ∉ files.
Proof.
  rewrite lookup_erase_all. case_decide as Hid; [done|]. intros Hr.
  by destruct (expired_kept _ _ _ _ _ He id r (proj2 (elem_of_map_order _ _) Hr) Hid) as (? & ? & ?).
Qed.

Lemma kept_node id r : erase_all ids m !! id = Some r → t' !! file_key r = t !! file_key r ∧ is_Some (t !! file_key r).
Proof.
  intros (_ & _ & _ & Hin & Hout)%kept_lookup. unfold file_key. split.
  - rewrite Hwithout. rewrite decide_False; [done|]. intros (p & Heq & Hp)%list_elem_of_fmap.
    apply elem_of_elements in Hp. apply Hout.
    by rewrite (scanned_inj _ p t Hwf Hin (expired_files _ _ _ _ _ He _ Hp) Heq).
  - by destruct (scanned_key _ t Hwf Hin) as (n & _ & -> & Hn).
Qed.

Lemma kept_outside k : child_name dir k = None → t' !! k = t !! k.
Proof.
  intros Hk. rewrite Hwithout. rewrite decide_False; [done|]. intros (p & -> & Hp)%list_elem_of_fmap.
  apply elem_of_elements, (expired_files _ _ _ _ _ He), (scanned_child _ t Hwf) in Hp as [? ?]. congruence.
Qed.

Lemma kept_tracked :
  (∀ id r, erase_all ids m !! id = Some r → is_file t' r) → tracked (erase_all ids m) t'.
Proof.
  intros Hfiles. split; [| |done|].
  - intros id r (_ & _ & _ & Hin & _)%kept_lookup. by apply scanned_child with t.
  - intros id r id' r' (Hr & Hid & _ & Hin & _)%kept_lookup (Hr' & Hid' & _ & Hin' & _)%kept_lookup Heq.
    eapply (expired_inj _ _ _ _ _ He); [by apply elem_of_map_order|by apply elem_of_map_order|done|done|].
    by apply (scanned_inj _ _ t Hwf).
  - intros k [n Hn] Hk. apply child_name_Some in Hn as ->.
    assert (¬ dir ++ [n] ∈ resolve <$> elements files) as Hnin.
    { intros Hin. rewrite Hwithout, decide_True in Hk by done. by destruct Hk. }
    rewrite Hwithout, decide_False in Hk by done.
    assert (entry_path (cache_dir_path_ self) n ∈ scanned t) as Hscan by (apply elem_of_scanned; eauto).
    destruct (scanned_key _ t Hwf Hscan) as (n' & Hn' & Hkey & _). apply app_inj_tail in Hn' as [_ <-].
    destruct (expired_claimed _ _ _ _ _ He _ Hscan) as (id & r & Hr & Hid & Hfile).
    { intros Hf. apply Hnin, list_elem_of_fmap. eexists. split; [by symmetry|]. by apply elem_of_elements. }
    exists id, r. rewrite lookup_erase_all, decide_False by done. split; [by apply elem_of_map_order|].
    unfold file_key. by rewrite Hfile.
Qed.
End Claimed.

(** An entry that [CleanUp] deletes only to make room. *)
Definition usable now m t id r : Prop :=
  m !! id = Some r ∧ live now r ∧ resource_file self r ∈ scanned t ∧
  ∀ id' r', m !! id' = Some r' → resource_file self r' = resource_file self r → id' = id.

Record cleaned now (allowed : Z) m t m' t' : Prop := {
  cleaned_sub id r : m' !! id = Some r → m !! id = Some r ∧ live now r;
  cleaned_tracked : tracked m' t';
  cleaned_outside k : child_name dir k = None → t' !! k = t !! k;
  cleaned_size : Z.of_nat (dir_size dir t') ≤ allowed;
  cleaned_lru id r id' r' :
    usable now m t id r → m' !! id = None → m' !! id' = Some r' →
    Time_lt (last_access r') (last_access r) = false;
  cleaned_needed id r :
    usable now m t id r → m' !! id = None →
    ∃ id' r', m !! id' = Some r' ∧ m' !! id' = None ∧
      allowed ≤ Z.of_nat (dir_size dir t' + size_at t (file_key r'))
}.

Lemma usable_kept now m t id r files ids :
  expired now (scanned t) (map_order m) files ids → usable now m t id r → erase_all ids m !! id = Some r.
Proof.
  intros He (Hr & Hlive & Hin & Hu). rewrite lookup_erase_all, decide_False; [done|].
  eapply (expired_usable _ _ _ _ _ He); [by apply elem_of_map_order|done|done|].
  intros id' r' ?%elem_of_map_order. by apply Hu.
Qed.

Lemma sorted_app {A} (R : relation A) (l k : list A) a b :
  StronglySorted R (l ++ k) → a ∈ l → b ∈ k → R a b.
Proof.
  induction l as [|x l IH]; simpl; [set_solver|]. intros Hs Ha Hb. inversion Hs as [|? ? Hs' Hall]; subst.
  apply elem_of_cons in Ha as [->|Ha]; [|by apply IH].
  apply (proj1 (Forall_forall _ _) Hall). set_solver.
Qed.

Lemma elem_of_sorted m id time :
  (id, time) ∈ sort_by_time (lru_of (map_order m)) ↔ ∃ r, m !! id = Some r ∧ time = last_access r.
Proof.
  rewrite sort_by_time_perm. unfold lru_of. rewrite list_elem_of_fmap. split.
  - intros ([i r] & [= -> ->] & Hin%elem_of_map_order). eauto.
  - intros (r & Hr & ->). exists (id, r). by rewrite elem_of_map_order.
Qed.

Lemma sorted_ids m : (sort_by_time (lru_of (map_order m))).*1 ≡ₚ (map_to_list m).*1.
Proof.
  rewrite sort_by_time_perm. unfold lru_of. rewrite <- list_fmap_compose, <- map_order_perm. done.
Qed.

Lemma evicted_cleaned now allowed m t t1 files ids ev keep m' t' :
  wf_tree t → expired now (scanned t) (map_order m) files ids →
  without (resolve <$> elements files) t t1 →
  sort_by_time (lru_of (map_order (erase_all ids m))) = ev ++ keep →
  evicted allowed (erase_all ids m) t1 ev m' t' →
  cleaned now allowed m t m' t'.
Proof.
  intros Hwf He Hw Hsort [Htr Hlook Hout _ Hsize Hneed].
  assert (∀ id r, m' !! id = Some r → id ∉ ev.*1 ∧ erase_all ids m !! id = Some r) as Hsub.
  { intros id r. rewrite Hlook. case_decide; [done|auto]. }
  assert (∀ id r, usable now m t id r → m' !! id = None → (id, last_access r) ∈ ev) as Hev.
  { intros id r Hu%(usable_kept _ _ _ _ _ _ _ He). rewrite Hlook. case_decide as Hin; [intros _|congruence].
    apply list_elem_of_fmap in Hin as ([i time] & -> & Hin).
    destruct (proj1 (elem_of_sorted (erase_all ids m) i time)) as (r' & Hr' & ->);
      [rewrite Hsort; set_solver|]. simpl in *. congruence. }
  split; [|done| |done| |].
  - intros id r [_ Hr]%Hsub. by destruct (kept_lookup _ _ _ _ _ He _ _ Hr) as (? & ? & ? & _).
  - intros k Hk. rewrite Hout by done. by apply (kept_outside now m t t1 files ids).
  - intros id r id' r' Hu Hn [Hid' Hr']%Hsub. specialize (Hev id r Hu Hn).
    pose proof (sort_by_time_sorted (lru_of (map_order (erase_all ids m)))) as Hs. rewrite Hsort in Hs.
    apply (sorted_app _ _ _ (id, last_access r) (id', last_access r') Hs Hev).
    pose proof (proj2 (elem_of_sorted _ id' (last_access r')) (ex_intro _ r' (conj Hr' eq_refl))) as Hin.
    rewrite Hsort in Hin. apply elem_of_app in Hin as [Hin|Hin]; [|done].
    destruct Hid'. by apply (list_elem_of_fmap_2 fst) in Hin.
  - intros id r Hu Hn. specialize (Hev id r Hu Hn).
    destruct ev as [|[id' time'] pre] using rev_ind; [set_solver|].
    destruct (Hneed pre id' time' eq_refl) as (r' & Hr' & Hle). exists id', r'.
    destruct (kept_lookup _ _ _ _ _ He _ _ Hr') as (Hm & _). split_and!; [done| |].
    + rewrite Hlook, decide_True; [done|]. rewrite fmap_app. set_solver.
    + unfold size_at in *. by rewrite (proj1 (kept_node _ _ _ _ _ _ Hwf He Hw _ _ Hr')) in Hle.
Qed.

Lemma wp_return_if_error {B} status (k : M World B) Q w :
  (status = None → wp k Q w) → (∀ c e, status = Some (c, e) → Q (Error c e) w) →
  wp (return_if_error status;; k) Q w.
Proof. intros Hn Hs. apply wp_bind. destruct status as [[c e]|]; [by apply Hs|by apply wp_ret, Hn]. Qed.

Lemma make_room_spec allowed m w :
  let t := tree (disk w) in
  0 ≤ allowed < 2 ^ 64 → healthy op_exists (disk w) → Z.of_nat (dir_size dir t) < 2 ^ 64 →
  (∀ id r, m !! id = Some r → is_Some (t !! file_key r)) →
  ((∀ id r, m !! id = Some r → is_file t r) → tracked m t) →
  wp (make_room self allowed m) (λ res w',
    (∀ m', res = Ok m' → later w w' ∧
       ∃ ev keep, sort_by_time (lru_of (map_order m)) = ev ++ keep ∧ evicted allowed m t ev m' (tree (disk w'))) ∧
    (fault_free (disk w) → (∀ id r, m !! id = Some r → is_file t r) → ∃ m', res = Ok m')) w.
Proof.
  intros t Hallowed Hex Hbig Hsome Htr. unfold make_room.
  eapply wp_bind_returns; [apply measure_spec; [done|]|].
  { intros [id r] Hr%elem_of_map_order. by eapply Hsome. }
  intros ms w1 (Hl1 & Hlru & Hsize & Hok). apply wp_return_if_error.
  2: { intros c e Hst. split; [done|]. intros Hff Hfiles. rewrite Hok in Hst; [done|apply Hff|].
       intros [id r] Hr%elem_of_map_order. by eapply Hfiles. }
  intros Hst. destruct (Hsize Hst) as (Ht1 & Hfiles & Hcs). fold t in Ht1, Hfiles, Hcs.
  assert (tracked m t) as Htr'.
  { apply Htr. intros id r Hr. by apply (Hfiles (id, r)), elem_of_map_order. }
  rewrite <- (tracked_size m t _ Htr' (map_order_perm m)), u64_small in Hcs by lia.
  rewrite (u64_small allowed) by done. case_match eqn:Hgt.
  - apply Z.ltb_lt in Hgt. rewrite Hlru.
    eapply wp_bind_returns; [apply evict_spec; [done| | |]|].
    + rewrite sorted_ids. apply NoDup_fst_map_to_list.
    + intros id. rewrite sorted_ids, list_elem_of_fmap. split.
      * intros ([i r] & -> & Hr%elem_of_map_to_list). by eexists.
      * intros [r Hr]. exists (id, r). by rewrite elem_of_map_to_list.
    + intros _. rewrite Ht1. split_and!; [done|done|lia|lia].
    + intros [m' st] w2 (Hl2 & Hn & Hok2). simpl in *. rewrite Ht1 in Hn. apply wp_return_if_error.
      * intros ->. apply wp_ret. split; [|by eauto]. intros ? [= <-]. split; [by etrans|].
        destruct (Hn eq_refl) as (_ & ev & keep & ? & ?). by exists ev, keep.
      * intros c e ->. split; [done|]. intros Hff _. by specialize (Hok2 (λ op, proj2 (proj1 Hl1) op (Hff op)) eq_refl).
  - apply Z.ltb_ge in Hgt. apply wp_ret. split; [|by eauto]. intros ? [= <-]. split; [done|].
    eexists [], _. split; [done|]. rewrite Ht1. apply evicted_nil; [done|lia].
Qed.

Lemma CleanUp_spec reserved m w :
  let allowed := max_cache_size_bytes_ self - default 0 reserved in
  let t := tree (disk w) in
  0 ≤ allowed < 2 ^ 64 → wf_tree t → healthy op_exists (disk w) → Z.of_nat (dir_size dir t) < 2 ^ 64 →
  wp (CleanUp self reserved m) (λ res w',
    (∀ m', res = Ok m' →
       shrinks (disk w) (disk w') ∧ store w' = store w ∧ clock w' = (λ n, clock w (S n)) ∧
       cleaned (clock w 0%nat) allowed m t m' (tree (disk w'))) ∧
    (fault_free (disk w) → t !! dir = Some Directory → (∀ n, t !! (dir ++ [n]) ≠ Some Directory) →
     ∃ m', res = Ok m')) w.
Proof.
  intros allowed t Hallowed Hwf Hex Hbig. unfold CleanUp.
  apply wp_bind. eapply wp_mono; [apply scan_cache_dir_spec|].
  intros res w1 (Ht1 & Hs1 & [Hst1 Hclk1] & Hfiles & Htot). fold t in Ht1, Hfiles, Htot.
  destruct res as [files0|c e|].
  2,3: split; [done|]; intros Hff Hd _; by destruct (Htot Hff Hd).
  rewrite (Hfiles files0 eq_refl). clear files0 Hfiles Htot.
  apply wp_bind. unfold wp at 1. cbn [Now fst snd]. rewrite Hclk1.
  set (w2 := {| disk := disk w1; store := store w1; clock := λ n, clock w (S n) |}).
  pose proof (expire_spec (clock w 0%nat) (scanned t) (map_order m)) as He.
  rewrite map_order_perm in He at 1. specialize (He (NoDup_fst_map_to_list _)).
  destruct (foldl (expire_step self (clock w 0%nat)) (scanned t, ∅) (map_order m)) as [files ids].
  eapply wp_bind_returns; [apply remove_untracked_spec|].
  intros status w3 (Hl3 & Hnone & Hok3). change (tree (disk w2)) with (tree (disk w1)) in *. rewrite Ht1 in *.
  assert (shrinks (disk w) (disk w3)) as Hs3 by (etrans; [exact Hs1|apply Hl3]).
  apply wp_return_if_error.
  2: { intros c e ->. split; [done|]. intros Hff _ Hnd. enough (Some (c, e) = None) by done. apply Hok3; [apply Hs1, Hff|].
       intros p Hp%elem_of_elements%(expired_files _ _ _ _ _ He).
       destruct (scanned_key _ t Hwf Hp) as (n & _ & -> & _). apply Hnd. }
  intros Hn. specialize (Hnone Hn). pose proof (dir_size_subseteq dir _ _ (proj1 Hs3)) as Hle. fold t in Hle.
  eapply wp_mono; [apply make_room_spec; [done|apply Hs3, Hex|lia| |]|].
  - intros id r Hr. destruct (kept_node _ _ _ _ _ _ Hwf He Hnone _ _ Hr) as [-> ?]. done.
  - apply (kept_tracked (clock w 0%nat) m t (tree (disk w3)) files ids Hwf He Hnone).
  - intros res w4 [Hgood Htot]. split.
    + intros m' Hm'. destruct (Hgood m' Hm') as ([Hs4 [Hst4 Hclk4]] & ev & keep & Hsort & Hev).
      destruct Hl3 as [_ [Hst3 Hclk3]]. split_and!; [by etrans|rewrite Hst4, Hst3; done|rewrite Hclk4, Hclk3; done|].
      by eapply evicted_cleaned.
    + intros Hff Hd Hnd. apply Htot; [intros op; apply Hs3, Hff|].
      intros id r Hr. destruct (kept_node _ _ _ _ _ _ Hwf He Hnone _ _ Hr) as [Heq Hsome].
      destruct (kept_lookup _ _ _ _ _ He _ _ Hr) as (_ & _ & _ & Hin & _).
      destruct (scanned_key _ t Hwf Hin) as (n & _ & Hk & Hn'). unfold is_file. rewrite Heq. unfold file_key. rewrite Hk.
      specialize (Hnd n). destruct Hn' as [[c|] Hc]; [by exists c|done].
Qed.
End CleanUp.
