(* ===== verification/CacheCorrect.v ===== *)
(** * The resource cache is correct

    The size of the directory never exceeds the configured one ([bounded]), and
    what [Put] stores [Get] returns. *)

From S2P Require Import Prelude TimeUtil FileSystem FileSystemCorrect ResourceCache CacheCleanUp.
From Stdlib Require Import Sorted.

(** ** The object that [Create] returns *)

Definition cache_of (base_dir cache_dir : string) (max : Z) : FileBackedResourceCache :=
  {| cache_dir_path_ := path_append (path_append (path_of cache_dir) kParentDir) kCacheDir;
     manifest_path_ := path_append (path_append (path_of base_dir) kParentDir) kCacheManifestFileName;
     max_cache_size_bytes_ := max |}.

(** The manifest is a file outside of the directory of the cache. *)
Record placed (self : FileBackedResourceCache) : Prop := {
  placed_dir : clean (cache_dir_path_ self);
  placed_manifest : clean (manifest_path_ self);
  placed_outside : child_name (dir self) (resolve (manifest_path_ self)) = None;
  placed_apart : resolve (manifest_path_ self) ≠ dir self
}.

Lemma cache_of_placed base_dir cache_dir max : placed (cache_of base_dir cache_dir max).
Proof.
  split; unfold cache_of, dir; simpl.
  - do 2 apply path_append_clean. apply path_of_clean.
  - do 2 apply path_append_clean. apply path_of_clean.
  - apply eq_None_not_Some. intros [n Hn%child_name_Some].
    rewrite !resolve_append in Hn by done.
    apply app_inj_tail in Hn as [Hn _]. by apply app_inj_tail in Hn as [_ Hn].
  - intros E. rewrite !resolve_append in E by done. by apply app_inj_tail in E as [_ E].
Qed.

Section Cache.
Context `{AbslTimeLaws, ProtoDataStore CacheManifest, MapOrder} `{!StdSort, !StdSortLaws _}.
Implicit Types (w : World) (m : CacheManifest).

(** ** Operations that add nothing to the directory *)

Section Calm.
Context (self : FileBackedResourceCache) (Hplaced : placed self).

Abbreviation quiet := (keeps (world_rel (calm (dir self)))).

Lemma quiet_shrinks {A} (op : M World A) : keeps (world_rel shrinks) op → quiet op.
Proof. intros Hop w. apply shrinks_calm, Hop. Qed.

Lemma quiet_on_disk {A} (op : M Disk A) : keeps shrinks op → quiet (on_disk op).
Proof. intros Hop. by apply keeps_on_disk, keeps_calm. Qed.

Lemma quiet_log code : quiet (log code).
Proof. apply quiet_shrinks, keeps_log. Qed.
Lemma quiet_Now : quiet Now.
Proof. apply quiet_shrinks, keeps_Now. Qed.

Lemma quiet_store_Read : quiet (store_Read self).
Proof. intros w. unfold store_Read. destruct (pds_Read _ _). unfold world_rel. simpl. reflexivity. Qed.
Lemma quiet_store_GetFileSize : quiet (store_GetFileSize self).
Proof. intros w. unfold store_GetFileSize. destruct (GetFileSize _ _). unfold world_rel. simpl. reflexivity. Qed.

Lemma quiet_store_Write m : quiet (store_Write self m).
Proof.
  intros w. unfold store_Write. destruct (pds_Write _ _ _) as [[r f] s]. unfold world_rel. simpl.
  destruct Hplaced as [_ Hm Hout _]. destruct f as [content|]; simpl.
  - split_and!; [simpl; by rewrite dir_size_insert_outside| |done].
    apply wf_tree_insert. by apply resolve_named.
  - apply shrinks_calm. split; [apply delete_subseteq|done].
Qed.
#[local] Hint Resolve quiet_on_disk quiet_log quiet_Now quiet_store_Read quiet_store_GetFileSize
  quiet_store_Write : keeps.

Lemma quiet_DeleteManifest : quiet (DeleteManifest self).
Proof. unfold DeleteManifest. keep. Qed.
#[local] Hint Resolve quiet_DeleteManifest : keeps.

Lemma quiet_ReadInternal : quiet (ReadInternal self).
Proof. unfold ReadInternal. keep. Qed.
Lemma quiet_WriteInternal m : quiet (WriteInternal self m).
Proof. unfold WriteInternal. keep. Qed.
#[local] Hint Resolve quiet_ReadInternal quiet_WriteInternal : keeps.

Lemma quiet_scan_cache_dir : quiet (scan_cache_dir self).
Proof. unfold scan_cache_dir, insert_file. keep. Qed.
Lemma quiet_remove_untracked file status : quiet (remove_untracked file status).
Proof. unfold remove_untracked. keep. Qed.
Lemma quiet_measure_step e ms : quiet (measure_step self e ms).
Proof. unfold measure_step. keep. Qed.
Lemma quiet_remove_evicted file status : quiet (remove_evicted file status).
Proof. unfold remove_evicted, record_error. keep. Qed.
#[local] Hint Resolve quiet_scan_cache_dir quiet_remove_untracked quiet_measure_step quiet_remove_evicted : keeps.

Lemma quiet_evict allowed lru m size status : quiet (evict self allowed lru m size status).
Proof. revert m size status. induction lru as [|[id t] lru IH]; intros m size status; simpl; keep. Qed.
#[local] Hint Resolve quiet_evict : keeps.

Lemma quiet_CleanUp reserved m : quiet (CleanUp self reserved m).
Proof. unfold CleanUp, make_room. keep. Qed.
#[local] Hint Resolve quiet_CleanUp : keeps.

Lemma quiet_Get id age : quiet (Get self id age).
Proof. unfold Get, Get_locked. keep. Qed.

Lemma quiet_Initialize : quiet (Initialize self).
Proof.
  destruct Hplaced as [_ Hm Hout _].
  assert (quiet (on_disk (open_for_writing (manifest_path_ self)))) by (by apply keeps_on_disk, keeps_open_for_writing).
  unfold Initialize. keep.
Qed.
End Calm.

(** ** The size of the directory *)

Section Bound.
Context (base_dir cache_dir : string) (max : Z) (Hmax : 0 ≤ max < 2 ^ 63).
Abbreviation self := (cache_of base_dir cache_dir max).

(** What holds between the calls. *)
Record bounded w : Prop := {
  bounded_names : wf_tree (tree (disk w));
  bounded_exists : healthy op_exists (disk w);
  bounded_size : Z.of_nat (dir_size (dir self) (tree (disk w))) ≤ max
}.

Lemma calm_bounded w w' : world_rel (calm (dir self)) w w' → bounded w → bounded w'.
Proof. intros (Hsize & Hwf & Hh) [Hn He Hs]. split; [by apply Hwf|by apply Hh|lia]. Qed.

Lemma wp_CleanUp_room reserved m w :
  0 ≤ max - default 0 reserved →  0 ≤ default 0 reserved →
  wf_tree (tree (disk w)) → healthy op_exists (disk w) → Z.of_nat (dir_size (dir self) (tree (disk w))) < 2 ^ 64 →
  wp (CleanUp self reserved m) (λ res w',
    world_rel (calm (dir self)) w w' ∧
    ∀ m', res = Ok m' → Z.of_nat (dir_size (dir self) (tree (disk w'))) ≤ max - default 0 reserved) w.
Proof.
  intros Hr Hr' Hwf Hex Hbig.
  pose proof (CleanUp_spec self reserved m w ltac:(simpl; lia) Hwf Hex Hbig) as Hspec.
  pose proof (quiet_CleanUp self reserved m w) as Hquiet.
  unfold wp in *. split; [done|]. intros m' Hm'.
  destruct (proj1 Hspec m' Hm') as (_ & _ & _ & Hclean). apply (cleaned_size _ _ _ _ _ _ _ Hclean).
Qed.

(** Writing a new file after the room for it was made. *)
Lemma written_bounded w w' p content :
  named (resolve p) → tree (disk w) !! resolve p = None →
  Z.of_nat (dir_size (dir self) (tree (disk w))) + Z.of_nat (length content) ≤ max →
  bounded w → written p content (disk w) (disk w') → bounded w'.
Proof.
  intros Hn Hnone Hroom [Hwf Hex _] [Hh [Ht|(c & Hc & Ht)]]; split; rewrite ?Ht; auto; [lia| |].
  - by apply wf_tree_insert.
  - rewrite dir_size_insert_None by done. unfold weight. simpl. destruct (child_name _ _); lia.
Qed.

(** The size of a resource that [Put] accepts. *)
Lemma accepted_size size :
  (u64 (Z.quot max 2) <? size) = false → size ≤ max / 2.
Proof.
  rewrite Z.ltb_ge, Z.quot_div_nonneg by lia. pose proof (Z.div_pos max 2). pose proof (Z.div_le_upper_bound max 2 max).
  rewrite u64_small by lia. done.
Qed.

Lemma quiet_bounded {A} (op : M World A) w :
  keeps (world_rel (calm (dir self))) op → bounded w → wp op (λ _ w', bounded w') w.
Proof. intros Hop Hb. unfold wp. eapply calm_bounded; [apply Hop|done]. Qed.

(** The last part of [Put]: the file is written unless it exists. *)
Lemma write_resource_bounded (p : path) cord (k : M World unit) (k' : StatusCode → string → M World unit) w :
  clean p → bounded w → Z.of_nat (dir_size (dir self) (tree (disk w))) + cord_size cord ≤ max →
  keeps (world_rel (calm (dir self))) k → (∀ c e, keeps (world_rel (calm (dir self))) (k' c e)) →
  wp ('(exists_, error) ← on_disk (fs_exists p);
      if error : bool then k
      else if exists_ : bool then mret tt
      else
        status ← attempt (on_disk (WriteCordToFile p cord));
        match status with inl _ => mret tt | inr (c, e) => k' c e end) (λ _ w', bounded w') w.
Proof.
  intros Hp Hb Hroom Hk Hk'.
  eapply wp_bind_returns; [apply later_on_disk; [apply keeps_fs_exists|apply fs_exists_spec]|].
  intros [ex error] w1 ((Ht1 & _ & Hex) & [Hs1 _]). injection (Hex (bounded_exists _ Hb)) as -> ->.
  assert (bounded w1) as Hb1 by (eapply calm_bounded; [by apply shrinks_calm|done]).
  case_bool_decide as Hnode; [by apply wp_ret|]. rewrite <- eq_None_not_Some, <- Ht1 in Hnode.
  apply wp_bind, wp_attempt. unfold wp at 1, on_disk.
  pose proof (WriteCordToFile_spec p cord (disk w1) Hnode (resolve_named p Hp)) as Hw. unfold wp in Hw.
  destruct (WriteCordToFile p cord (disk w1)) as [res d]. destruct Hw as (Hw & _ & _). simpl in Hw |- *.
  assert (bounded {| disk := d; store := store w1; clock := clock w1 |}) as Hb2.
  { eapply written_bounded; [by apply resolve_named|exact Hnode| |exact Hb1|exact Hw].
    rewrite Ht1. done. }
  destruct res; [by apply wp_ret|by apply quiet_bounded|done].
Qed.

Lemma Put_bounded id cord meta age w :
  bounded w → wp (Put self id cord meta age) (λ _ w', bounded w') w.
Proof.
  intros Hb. pose proof (cache_of_placed base_dir cache_dir max) as Hp. unfold Put. cbn [max_cache_size_bytes_ cache_of].
  case_match eqn:Hlarge; [done|]. apply accepted_size in Hlarge.
  assert (0 ≤ cord_size cord ≤ max) as Hfit by (unfold cord_size in *; pose proof (Z.div_le_upper_bound max 2 max); lia).
  apply wp_bind. eapply wp_mono; [apply (quiet_bounded _ _ (quiet_ReadInternal self) Hb)|].
  intros [m| |] w1 Hb1; [|done|done]. apply wp_bind.
  eapply wp_mono; [apply (wp_CleanUp_room (Some (cord_size cord))); simpl; [lia|lia|apply Hb1|apply Hb1|]|].
  { pose proof (bounded_size _ Hb1). lia. }
  intros res w2 [Hc2 Hsize2]. pose proof (calm_bounded _ _ Hc2 Hb1) as Hb2.
  destruct res as [m2| |]; [|done|done]. specialize (Hsize2 _ eq_refl). simpl in Hsize2.
  apply wp_bind. eapply wp_mono; [apply keeps_wp, quiet_Now|]. intros [now| |] w3 Hc3; [|by eapply calm_bounded|by eapply calm_bounded].
  pose proof (calm_bounded _ _ Hc3 Hb2) as Hb3.
  apply wp_bind. eapply wp_mono; [apply keeps_wp, quiet_WriteInternal, Hp|].
  intros [[]| |] w4 Hc4; [|by eapply calm_bounded|by eapply calm_bounded].
  apply write_resource_bounded.
  - apply path_append_clean, Hp.
  - by eapply calm_bounded.
  - destruct Hc3 as [Hc3 _], Hc4 as [Hc4 _]. lia.
  - apply keeps_bind; [apply _|apply quiet_log|intros; apply keeps_fail, _].
  - intros. apply keeps_bind; [apply _|apply quiet_log|intros; apply keeps_fail, _].
Qed.

(** A state from which the cache can be initialized. *)
Record readable w : Prop := {
  readable_names : wf_tree (tree (disk w));
  readable_exists : healthy op_exists (disk w);
  readable_size : Z.of_nat (dir_size (dir self) (tree (disk w))) < 2 ^ 64
}.

Lemma calm_readable w w' : world_rel (calm (dir self)) w w' → readable w → readable w'.
Proof. intros (Hsize & Hwf & Hh) [Hn He Hs]. split; [by apply Hwf|by apply Hh|lia]. Qed.

Lemma wp_bind_quiet {A B} (op : M World A) (f : A → M World B) (Q : B → World → Prop) w :
  keeps (world_rel (calm (dir self))) op → readable w →
  (∀ a w', readable w' → wp (f a) (λ r w'', ∀ b, r = Ok b → Q b w'') w') →
  wp (mbind f op) (λ r w'', ∀ b, r = Ok b → Q b w'') w.
Proof.
  intros Hop Hw Hf. eapply wp_bind_ok; [|exact Hf].
  eapply wp_mono; [apply keeps_wp, Hop|]. intros r w' Hc a _. exact (calm_readable _ _ Hc Hw).
Qed.

Lemma Initialize_bounded w :
  readable w → wp (Initialize self) (λ res w', ∀ u, res = Ok u → bounded w') w.
Proof.
  intros Hw. pose proof (cache_of_placed base_dir cache_dir max) as Hp.
  assert (keeps (world_rel (calm (dir self))) (on_disk (open_for_writing (manifest_path_ self)))) as Hopen
    by (apply keeps_on_disk, keeps_open_for_writing; apply Hp).
  unfold Initialize. apply wp_bind_quiet; [apply quiet_on_disk, keeps_fs_exists_throws|done|]. intros e w1 Hw1.
  apply wp_bind_quiet; [destruct e; keep|done|]. intros _ w2 Hw2.
  apply wp_bind_quiet; [apply quiet_store_GetFileSize|done|]. intros [size|[c msg]] w3 Hw3.
  2: { apply wp_bind_quiet; [apply quiet_log|done|]. done. }
  apply wp_bind_quiet; [|done|].
  { pose proof (quiet_WriteInternal self Hp ∅). pose proof (quiet_log self). keep. }
  intros _ w4 Hw4. apply wp_bind_quiet; [apply keeps_attempt, quiet_ReadInternal|done|].
  intros [m|[c msg]] w5 Hw5; [|done].
  eapply (wp_bind_ok _ _ (λ r w', readable w' ∧ ∀ m', r = inl m' → bounded w')).
  { apply wp_attempt. eapply wp_mono; [apply (wp_CleanUp_room None); simpl; [lia|lia|apply Hw5|apply Hw5|apply Hw5]|].
    intros [m'| |] w6 [Hc6 Hsize6] a [= <-]; (split; [by eapply calm_readable|]); [|done].
    intros ? [= <-]. pose proof (calm_readable _ _ Hc6 Hw5) as Hw6. specialize (Hsize6 _ eq_refl). simpl in Hsize6.
    split; [apply Hw6|apply Hw6|lia]. }
  intros [m'|[c msg]] w6 [Hw6 Hb6]; [|apply wp_bind_quiet; [apply quiet_log|done|done]].
  specialize (Hb6 m' eq_refl). apply wp_bind.
  eapply wp_mono; [apply keeps_wp, keeps_attempt, quiet_WriteInternal, Hp|].
  intros [[u|[c msg]]| |] w7 Hc7 u'; try done. intros _. by eapply calm_bounded.
Qed.

Lemma quiet_new_store new_store :
  keeps (world_rel (calm (dir self))) (modify (λ w, {| disk := disk w; store := new_store; clock := clock w |})).
Proof. intros w. unfold world_rel. simpl. reflexivity. Qed.

Lemma quiet_create_directories p :
  clean p → keeps (world_rel (calm (dir self))) (on_disk (fs_create_directories p)).
Proof. intros Hp. by apply keeps_on_disk, keeps_fs_create_directories. Qed.

Lemma quiet_Create new_store : keeps (world_rel (calm (dir self))) (Create base_dir cache_dir max new_store).
Proof.
  pose proof (cache_of_placed base_dir cache_dir max) as Hp. pose proof (quiet_Initialize self Hp) as Hinit.
  pose proof (quiet_log self) as Hlog. pose proof (quiet_new_store new_store) as Hnew.
  pose proof (quiet_create_directories _ (placed_dir _ Hp)) as Hdir.
  pose proof (quiet_create_directories (path_append (path_of base_dir) kParentDir)
    (path_append_clean _ _ (path_of_clean _))) as Hdir'.
  unfold Create. keep.
Qed.

(** What [Create] returns, and that it leaves the cache bounded. *)
Lemma Create_bounded new_store w :
  readable w →
  wp (Create base_dir cache_dir max new_store) (λ res w', ∀ self', res = Ok self' → self' = self ∧ bounded w') w.
Proof.
  intros Hw. pose proof (cache_of_placed base_dir cache_dir max) as Hp. unfold Create.
  case_match; [by apply wp_bind_quiet; [apply quiet_log|done|]|].
  apply wp_bind_quiet; [apply quiet_create_directories, (placed_dir _ Hp)|done|]. intros [] w1 Hw1.
  { by apply wp_bind_quiet; [apply quiet_log|done|]. }
  case_match; [by apply wp_bind_quiet; [apply quiet_log|done|]|].
  apply wp_bind_quiet; [apply quiet_create_directories, path_append_clean, path_of_clean|done|].
  intros [] w2 Hw2; [by apply wp_bind_quiet; [apply quiet_log|done|]|].
  apply wp_bind_quiet; [apply quiet_new_store|done|]. intros _ w3 Hw3.
  eapply wp_bind_ok; [apply Initialize_bounded, Hw3|]. intros u w4 Hb4. apply wp_ret. by intros ? [= <-].
Qed.

(** ** Sequences of calls *)

(** A call of an operation, or the end of the process and the creation of the
    cache by another one. *)
Inductive Call :=
  | CallPut (cache_id : string) (cord : list (list Z)) (meta : Any) (max_age : Duration)
  | CallGet (cache_id : string) (max_age : option Duration)
  | CallCreate (new_store : Store).

Definition run_call (w : World) (c : Call) : World :=
  match c with
  | CallPut id cord meta age => (Put self id cord meta age w).2
  | CallGet id age => (Get self id age w).2
  | CallCreate new_store => (Create base_dir cache_dir max new_store w).2
  end.

Lemma run_call_bounded w c : bounded w → bounded (run_call w c).
Proof.
  intros Hb. destruct c as [id cord meta age|id age|new_store]; simpl.
  - by apply Put_bounded.
  - eapply calm_bounded; [apply quiet_Get, cache_of_placed|done].
  - eapply calm_bounded; [apply quiet_Create|done].
Qed.
End Bound.

(** C38: When CleanUp returns a manifest, whichever operations failed on the way
    other than queries whether a file exists, and the files of the directory take
    less than 2^64 bytes and the reserved space is not larger than the cache: the
    manifest has entries of the old one that have not expired and whose files
    exist; the directory has no other files and takes at most the size of the cache
    less the reserved space. An entry that has not expired and has a file of
    its own is deleted only by least recent use, so that no entry that is left
    was used earlier, and only as needed: with one more file the directory would
    be as large as allowed. *)
Theorem CleanUp_evicts_lru self reserved m w m' w' :
  let allowed := max_cache_size_bytes_ self - default 0 reserved in
  let now := clock w 0%nat in
  0 ≤ allowed < 2 ^ 64 → wf_tree (tree (disk w)) → healthy op_exists (disk w) →
  Z.of_nat (dir_size (dir self) (tree (disk w))) < 2 ^ 64 →
  CleanUp self reserved m w = (Ok m', w') →
  (∀ id r, m' !! id = Some r → m !! id = Some r ∧ live now r ∧ is_file self (tree (disk w')) r) ∧
  (∀ n, is_Some (tree (disk w') !! (dir self ++ [n])) → ∃ id r, m' !! id = Some r ∧ file_key self r = dir self ++ [n]) ∧
  Z.of_nat (dir_size (dir self) (tree (disk w'))) ≤ allowed ∧
  (∀ id r, usable self now m (tree (disk w)) id r → m' !! id = None →
     (∀ id' r', m' !! id' = Some r' → Time_lt (last_access r') (last_access r) = false) ∧
     ∃ id' r', m !! id' = Some r' ∧ m' !! id' = None ∧
       allowed ≤ Z.of_nat (dir_size (dir self) (tree (disk w')) + size_at (tree (disk w)) (file_key self r'))).
Proof.
  intros allowed now Hallowed Hwf Hex Hbig Hc.
  pose proof (CleanUp_spec self reserved m w Hallowed Hwf Hex Hbig) as Hspec. unfold wp in Hspec. rewrite Hc in Hspec.
  destruct (proj1 Hspec m' eq_refl) as (_ & _ & _ & [Hsub Htr _ Hsize Hlru Hneed]). split_and!; [| |done|].
  - intros id r Hr. destruct (Hsub id r Hr). split_and!; [done|done|]. by eapply (tracked_file _ _ _ Htr).
  - intros n Hn. apply (tracked_all _ _ _ Htr); [|done]. by rewrite (proj2 (child_name_Some _ _ n)).
  - intros id r Hu Hn. split; [intros; by eapply Hlru|by eapply Hneed].
Qed.

(** C26: The files of the cache never take more bytes than the configured size:
    from the moment that Create returns a cache, whatever the directory held
    before, after every sequence of calls of Put and Get and of restarts of the
    process, and whichever operations on files and on the manifest fail, other
    than queries whether a file exists. *)
Theorem cache_size_bounded base_dir cache_dir max new_store calls w self w1 :
  0 ≤ max < 2 ^ 63 →
  wf_tree (tree (disk w)) → healthy op_exists (disk w) →
  Z.of_nat (dir_size (dir (cache_of base_dir cache_dir max)) (tree (disk w))) < 2 ^ 64 →
  Create base_dir cache_dir max new_store w = (Ok self, w1) →
  Z.of_nat (dir_size (dir self) (tree (disk (foldl (run_call base_dir cache_dir max) w1 calls)))) ≤ max.
Proof.
  intros Hmax Hwf Hex Hbig Hcreate.
  pose proof (Create_bounded base_dir cache_dir max Hmax new_store w) as Hc. unfold wp in Hc. rewrite Hcreate in Hc.
  destruct (Hc ltac:(by split) self eq_refl) as [-> Hb]. clear Hc Hcreate.
  enough (bounded base_dir cache_dir max (foldl (run_call base_dir cache_dir max) w1 calls)) as Hb'
    by apply (bounded_size _ _ _ _ Hb').
  revert w1 Hb. induction calls as [|c calls IH]; intros w1 Hb; simpl; [done|].
  by apply IH, run_call_bounded.
Qed.
End Cache.
