(* ===== verification/CacheRefinement.v ===== *)
(** * The resource cache as a map that can lose entries

    While no operation fails, the cache behaves as a map from ids to resources
    with their metadata: [Get] returns what the map has, and [Put] adds a
    resource under a new id after the map has lost some entries.  [view] is the
    map that a state of the cache stands for. *)

From S2P Require Import Prelude TimeUtil FileSystem FileSystemCorrect ResourceCache CacheCleanUp CacheCorrect.

Section Refinement.
Context `{AbslTimeLaws, ProtoDataStore CacheManifest, MapOrder} `{!StdSort, !StdSortLaws _, !ProtoDataStoreLaws _}.
Context (self : FileBackedResourceCache) (Hplaced : placed self).
Context (Hmax : 0 ≤ max_cache_size_bytes_ self < 2 ^ 63).
Implicit Types (w : World) (m : CacheManifest) (t : gmap path Node).

(** The entries that [Put] makes. *)
Definition named_entries m : Prop := ∀ id r, m !! id = Some r → file_name r = id ∧ simple_name id = true.

(** The directory exists and has files only. *)
Definition flat t : Prop := t !! dir self = Some Directory ∧ ∀ n, t !! (dir self ++ [n]) ≠ Some Directory.

(** The manifest is [m] and nothing will fail. *)
Record ready m w : Prop := {
  ready_holds : holds m (manifest_file self w) (store w);
  ready_sound : sound (store w);
  ready_file : is_Some (manifest_file self w);
  ready_faults : fault_free (disk w);
  ready_names : wf_tree (tree (disk w));
  ready_flat : flat (tree (disk w));
  ready_entries : named_entries m;
  ready_size : Z.of_nat (dir_size (dir self) (tree (disk w))) ≤ max_cache_size_bytes_ self
}.

(** The resource of an entry. *)
Definition content_at t (id : string) : option (list Z) :=
  match t !! (dir self ++ [id]) with Some (File c) => Some c | _ => None end.

Definition view m t : gmap string (list Z * Any) :=
  map_imap (λ id r, c ← content_at t id; Some (c, metadata r)) m.

Lemma lookup_view m t id : view m t !! id = r ← m !! id; c ← content_at t id; Some (c, metadata r).
Proof. unfold view. by rewrite map_lookup_imap. Qed.

Lemma named_key m id r : named_entries m → m !! id = Some r → file_key self r = dir self ++ [id].
Proof.
  intros Hm Hr. destruct (Hm id r Hr) as [Hn Hs]. unfold file_key, resource_file, dir. by rewrite Hn, resolve_append.
Qed.

Lemma child_dir n : child_name (dir self) (dir self ++ [n]) = Some n.
Proof. by apply child_name_Some. Qed.

(** ** The manifest *)

Lemma ReadInternal_ready m w :
  ready m w →
  wp (ReadInternal self) (returns (λ m' w', m' = m ∧ ready m w' ∧ disk w' = disk w ∧ clock w' = clock w)) w.
Proof.
  intros [Hh Hs Hf Hff Hw Hfl He Hsz]. destruct (Read_sound m _ _ Hh Hs) as (s' & Hr & Hs').
  unfold ReadInternal. eapply (wp_bind_returns _ _ (λ d w', d = inl m ∧ w' = {| disk := disk w; store := s'; clock := clock w |})).
  { unfold wp, store_Read. rewrite Hr. by eexists. }
  intros d w' [-> ->]. apply wp_ret_returns. split_and!; try done. split; try done. by apply (Read_holds _ _ _ _ Hr).
Qed.

Lemma tree_set_manifest c d : tree (set_manifest_file self (Some c) d) = <[resolve (manifest_path_ self) := File c]> (tree d).
Proof. done. Qed.

(** Writing a manifest changes no file of the directory. *)
Lemma WriteInternal_ready m m' w :
  ready m w → named_entries m' →
  wp (WriteInternal self m') (returns (λ _ w',
    ready m' w' ∧ dir_size (dir self) (tree (disk w')) = dir_size (dir self) (tree (disk w)) ∧ ∀ k, k ≠ resolve (manifest_path_ self) → tree (disk w') !! k = tree (disk w) !! k)) w.
Proof.
  intros [Hh Hs Hf Hff Hw [Hd Hfl] He Hsz] Hm'. destruct (Write_sound m' _ (store w) Hf Hs) as (f' & s' & Hwr & Hs').
  destruct (Write_holds _ _ _ _ _ Hwr) as [Hh' [c ->]].
  set (w1 := {| disk := set_manifest_file self (Some c) (disk w); store := s'; clock := clock w |}).
  unfold WriteInternal. eapply (wp_bind_returns _ _ (λ st w', st = None ∧ w' = w1)).
  { unfold wp, store_Write. rewrite Hwr. by eexists. }
  intros ? ? [-> ->]. apply wp_ret_returns. destruct Hplaced as [_ Hmp Hout Hapart].
  split_and!; [|simpl; by rewrite dir_size_insert_outside|intros k Hk; simpl; by rewrite lookup_insert_ne].
  assert (∀ n, dir self ++ [n] ≠ resolve (manifest_path_ self)) as Hne.
  { intros n E. rewrite <- E, child_dir in Hout. done. }
  assert (manifest_file self w1 = Some c) as Hmf by (unfold manifest_file; simpl; by rewrite lookup_insert_eq).
  split; [by rewrite Hmf|done|by rewrite Hmf|done| | |done|].
  - apply wf_tree_insert; [by apply resolve_named|done].
  - split; simpl; [by rewrite lookup_insert_ne|]. intros n. by rewrite lookup_insert_ne.
  - simpl. by rewrite dir_size_insert_outside.
Qed.

(** ** [CleanUp] *)

Lemma flat_subseteq t t' : t' ⊆ t → t' !! dir self = t !! dir self → flat t → flat t'.
Proof.
  intros Hs Hd [Hdir Hn]. split; [by rewrite Hd|]. intros n E. by apply (Hn n), (lookup_weaken _ _ _ _ E).
Qed.

Lemma dir_ne_child n : dir self ≠ dir self ++ [n].
Proof. intros E%(f_equal length). rewrite length_app in E. simpl in E. lia. Qed.

Lemma child_dir_self : child_name (dir self) (dir self) = None.
Proof. apply eq_None_not_Some. intros [n E%child_name_Some]. by apply (dir_ne_child n). Qed.

Lemma view_subseteq m m' t t' :
  (∀ id r, m' !! id = Some r → m !! id = Some r) → t' ⊆ t → view m' t' ⊆ view m t.
Proof.
  intros Hm Ht. apply map_subseteq_spec. intros id x. rewrite !lookup_view. unfold content_at.
  destruct (m' !! id) as [r|] eqn:Hr; simpl; [|done]. rewrite (Hm _ _ Hr). simpl.
  destruct (t' !! (dir self ++ [id])) as [n|] eqn:Hn; simpl; [|done]. by rewrite (lookup_weaken _ _ _ _ Hn Ht).
Qed.

Lemma CleanUp_ready reserved m w :
  ready m w → 0 ≤ reserved ≤ max_cache_size_bytes_ self →
  wp (CleanUp self (Some reserved) m) (returns (λ m' w',
    ready m w' ∧ named_entries m' ∧ tracked self m' (tree (disk w')) ∧
    view m' (tree (disk w')) ⊆ view m (tree (disk w)) ∧
    Z.of_nat (dir_size (dir self) (tree (disk w'))) ≤ max_cache_size_bytes_ self - reserved)) w.
Proof.
  intros [Hh Hs Hf Hff Hw Hfl He Hsz] Hres.
  pose proof (CleanUp_spec self (Some reserved) m w ltac:(simpl; lia) Hw (Hff _) ltac:(lia)) as Hspec.
  unfold wp in *. simpl in Hspec. destruct Hspec as [Hgood Htot].
  destruct (Htot Hff (proj1 Hfl) (proj2 Hfl)) as [m' Hm']. rewrite Hm'. exists m'. split; [done|].
  destruct (Hgood m' Hm') as ([Hsub Hhealthy] & Hstore & _ & [Hkeep Htr Hout Hsize _ _]).
  set (w' := (CleanUp self (Some reserved) m w).2) in *.
  assert (manifest_file self w' = manifest_file self w) as Hmf by (unfold manifest_file; by rewrite Hout by apply Hplaced).
  split_and!; [|intros id r Hr; by apply He, Hkeep|done|apply view_subseteq; [intros; by apply Hkeep|done]|done].
  split; rewrite ?Hmf, ?Hstore; try done.
  - intros op. by apply Hhealthy.
  - by eapply wf_tree_subseteq.
  - eapply flat_subseteq; [done| |done]. apply Hout, child_dir_self.
  - lia.
Qed.

(** ** [Put] *)

(** A new file in the directory. *)
Lemma write_ready m w id content w' :
  ready m w → simple_name id = true → tree (disk w) !! (dir self ++ [id]) = None →
  Z.of_nat (dir_size (dir self) (tree (disk w)) + length content) ≤ max_cache_size_bytes_ self →
  store w' = store w → (∀ op, healthy op (disk w) → healthy op (disk w')) →
  tree (disk w') = <[dir self ++ [id] := File content]> (tree (disk w)) →
  ready m w'.
Proof.
  intros [Hh Hs Hf Hff Hw [Hd Hfl] He Hsz] Hid Hnone Hroom Hst Hhealthy Ht.
  assert (manifest_file self w' = manifest_file self w) as Hmf.
  { unfold manifest_file. rewrite Ht, lookup_insert_ne; [done|]. intros E.
    pose proof (placed_outside _ Hplaced) as Hout. by rewrite <- E, child_dir in Hout. }
  split; rewrite ?Hmf, ?Hst, ?Ht; try done.
  - intros op. by apply Hhealthy.
  - apply wf_tree_insert; [|done]. unfold dir. rewrite <- resolve_append by done.
    apply resolve_named, path_append_clean, Hplaced.
  - split; [rewrite lookup_insert_ne; [done|intros E; by apply (dir_ne_child id)]|].
    intros n. destruct (decide (n = id)) as [->|Hne]; [by rewrite lookup_insert_eq|].
    rewrite lookup_insert_ne; [done|]. intros E. apply Hne. apply app_inv_head in E. by injection E.
  - rewrite dir_size_insert_None by done. unfold weight. simpl. rewrite child_dir. lia.
Qed.

Lemma view_same m t t' :
  (∀ id, t' !! (dir self ++ [id]) = t !! (dir self ++ [id])) → view m t' = view m t.
Proof. intros Ht. apply map_eq. intros id. rewrite !lookup_view. unfold content_at. by rewrite Ht. Qed.

Lemma view_insert m t id r content :
  view (<[id := r]> m) (<[dir self ++ [id] := File content]> t) = <[id := (content, metadata r)]> (view m t).
Proof.
  apply map_eq. intros i. rewrite lookup_view. destruct (decide (i = id)) as [->|Hne].
  - rewrite !lookup_insert_eq. simpl. unfold content_at. by rewrite lookup_insert_eq.
  - rewrite !lookup_insert_ne by done. rewrite lookup_view. unfold content_at. rewrite lookup_insert_ne; [done|].
    intros E. apply Hne. apply app_inv_head in E. by injection E.
Qed.

Lemma tracked_content m t id :
  named_entries m → tracked self m t → is_Some (t !! (dir self ++ [id])) ↔ is_Some (m !! id).
Proof.
  intros Hm Htr. split.
  - intros Hn. destruct (tracked_all _ _ _ Htr (dir self ++ [id])) as (id' & r & Hr & Hk); [by rewrite child_dir|done|].
    rewrite (named_key m id' r Hm Hr) in Hk. apply app_inv_head in Hk. injection Hk as ->. by eexists.
  - intros [r Hr]. destruct (tracked_file _ _ _ Htr id r Hr) as [c Hc].
    rewrite (named_key m id r Hm Hr) in Hc. by eexists.
Qed.

Lemma path_key id : simple_name id = true → resolve (path_append (cache_dir_path_ self) id) = dir self ++ [id].
Proof. apply resolve_append. Qed.

Lemma Now_ready m w : ready m w → wp Now (returns (λ _ w', ready m w' ∧ disk w' = disk w)) w.
Proof. intros Hr. eexists. split; [done|]. split; [|done]. by destruct Hr; split. Qed.

Lemma ready_later m w w' : ready m w → later w w' → tree (disk w') = tree (disk w) → ready m w'.
Proof.
  intros [? ? ? ? ? ? ? ?] [Hs [Hst _]] Ht. split; unfold manifest_file in *; rewrite ?Hst, ?Ht; try done.
  intros op. by apply Hs.
Qed.

(** The last part of [Put]. *)
Lemma write_resource_ready (k : M World unit) (k' : StatusCode → string → M World unit) id cord m w :
  ready m w → simple_name id = true →
  (tree (disk w) !! (dir self ++ [id]) = None →
   Z.of_nat (dir_size (dir self) (tree (disk w))) + cord_size cord ≤ max_cache_size_bytes_ self) →
  wp ('(exists_, error) ← on_disk (fs_exists (path_append (cache_dir_path_ self) id));
      if error : bool then k
      else if exists_ : bool then mret tt
      else
        status ← attempt (on_disk (WriteCordToFile (path_append (cache_dir_path_ self) id) cord));
        match status with inl _ => mret tt | inr (c, e) => k' c e end)
    (returns (λ _ w', ready m w' ∧
       tree (disk w') = match tree (disk w) !! (dir self ++ [id]) with
                        | Some _ => tree (disk w)
                        | None => <[dir self ++ [id] := File (concat cord)]> (tree (disk w))
                        end)) w.
Proof.
  intros Hr Hid Hroom. pose proof (path_key id Hid) as Hkey.
  eapply wp_bind_returns; [apply later_on_disk; [apply keeps_fs_exists|apply fs_exists_spec]|].
  intros [ex error] w1 ((Ht1 & _ & Hex) & Hl1). rewrite Hkey in Hex.
  injection (Hex (ready_faults _ _ Hr _)) as -> ->. clear Hex.
  assert (ready m w1) as Hr1 by (by eapply ready_later).
  rewrite <- Ht1. case_bool_decide as Hn.
  { apply wp_ret_returns. split; [done|]. by destruct Hn as [n ->]. }
  rewrite <- eq_None_not_Some in Hn. rewrite Hn. specialize (Hroom ltac:(by rewrite <- Ht1)).
  apply wp_bind, wp_attempt. unfold wp at 1, on_disk.
  pose proof (WriteCordToFile_spec (path_append (cache_dir_path_ self) id) cord (disk w1)) as Hw.
  unfold wp in Hw. rewrite Hkey in Hw.
  destruct (WriteCordToFile _ cord (disk w1)) as [res d]. simpl in Hw |- *.
  destruct Hw as ([Hh _] & _ & Hok); [done| |].
  { rewrite <- Hkey. apply resolve_named, path_append_clean, Hplaced. }
  destruct Hok as [-> Ht]; [apply (ready_faults _ _ Hr1)|rewrite removelast_last; apply (ready_flat _ _ Hr1)|].
  apply wp_ret_returns. split; [|done].
  eapply (write_ready m w1 id (concat cord)); [done|done|done| |done|done|done].
  unfold cord_size in Hroom. rewrite Ht1. lia.
Qed.

Lemma Put_ready id cord meta age m w :
  ready m w → simple_name id = true → cord_size cord ≤ max_cache_size_bytes_ self / 2 →
  wp (Put self id cord meta age) (returns (λ _ w', ∃ m' kept,
    ready m' w' ∧ kept ⊆ view m (tree (disk w)) ∧
    view m' (tree (disk w')) =
      match kept !! id with Some _ => kept | None => <[id := (concat cord, meta)]> kept end)) w.
Proof.
  intros Hr Hid Hsmall. unfold Put. pose proof (Z.div_pos (max_cache_size_bytes_ self) 2).
  pose proof (Z.div_le_upper_bound (max_cache_size_bytes_ self) 2 (max_cache_size_bytes_ self)).
  rewrite Z.quot_div_nonneg, u64_small, (proj2 (Z.ltb_ge _ _) Hsmall) by lia.
  eapply wp_bind_returns; [by apply ReadInternal_ready|]. intros ? w1 (-> & Hr1 & Hd1 & _).
  eapply wp_bind_returns; [apply CleanUp_ready; [done|unfold cord_size in *; lia]|].
  intros m2 w2 (Hr2 & Hm2 & Htr2 & Hview2 & Hroom2). rewrite Hd1 in Hview2.
  eapply wp_bind_returns; [by apply Now_ready|]. intros now w3 [Hr3 Hd3].
  set (r := {| file_name := id; metadata := meta; expiry_time := _; last_accessed_time := _ |}).
  set (m3 := match m2 !! id with Some _ => m2 | None => <[id := r]> m2 end).
  assert (named_entries m3) as Hm3.
  { subst m3. destruct (m2 !! id); [done|]. intros i ri [[<- <-]|[_ Hi]]%lookup_insert_Some; [done|by apply Hm2]. }
  eapply wp_bind_returns; [apply (WriteInternal_ready m m3 _ Hr3 Hm3)|]. intros _ w4 (Hr4 & Hsize4 & Ht4).
  assert (∀ n, tree (disk w4) !! (dir self ++ [n]) = tree (disk w2) !! (dir self ++ [n])) as Hsame.
  { intros n. rewrite Ht4, Hd3; [done|]. intros E. pose proof (placed_outside _ Hplaced) as Hout.
    by rewrite <- E, child_dir in Hout. }
  eapply wp_mono; [apply (write_resource_ready _ _ id cord m3 w4 Hr4 Hid)|].
  { intros _. rewrite Hsize4, Hd3. lia. }
  intros res w5 (u & -> & Hr5 & Ht5). exists u. split; [done|].
  exists m3, (view m2 (tree (disk w2))). split_and!; [done|done|].
  rewrite lookup_view, Ht5, Hsame. subst m3. destruct (m2 !! id) as [r2|] eqn:Hr2'; simpl.
  - destruct (tracked_file _ _ _ Htr2 id r2 Hr2') as [c Hc]. rewrite (named_key m2 id r2 Hm2 Hr2') in Hc.
    unfold content_at. rewrite Hc. simpl. by apply view_same.
  - assert (tree (disk w2) !! (dir self ++ [id]) = None) as ->.
    { apply eq_None_not_Some. rewrite (tracked_content m2) by done. rewrite Hr2'. by intros [? ?]. }
    by rewrite view_insert, (view_same m2 (tree (disk w2))).
Qed.

(** ** [Get] *)

(** The entry that [Get] writes back. *)
Lemma view_touch m t id r r' :
  m !! id = Some r → metadata r' = metadata r → view (<[id := r']> (delete id m)) t = view m t.
Proof.
  intros Hr Hmeta. rewrite insert_delete_eq. apply map_eq. intros i. rewrite !lookup_view.
  destruct (decide (i = id)) as [->|Hne]; [|by rewrite lookup_insert_ne].
  rewrite lookup_insert_eq, Hr. simpl. by rewrite Hmeta.
Qed.

Lemma named_touch m id r r' :
  named_entries m → m !! id = Some r → file_name r' = file_name r → named_entries (<[id := r']> (delete id m)).
Proof.
  intros Hm Hr Hn i ri. rewrite insert_delete_eq. intros [[<- <-]|[_ Hi]]%lookup_insert_Some; [|by apply Hm].
  rewrite Hn. by apply Hm.
Qed.

Lemma Get_locked_ready id age m w :
  ready m w → simple_name id = true →
  wp (Get_locked self id age) (λ res w', ∃ m',
    ready m' w' ∧ view m' (tree (disk w')) = view m (tree (disk w)) ∧
    res = match view m (tree (disk w)) !! id with
          | Some (c, meta) => Ok {| resource := c; resource_metadata := meta |}
          | None => Error NOT_FOUND "not found"
          end) w.
Proof.
  intros Hr Hid. unfold Get_locked. rewrite lookup_view.
  eapply wp_bind_returns; [by apply ReadInternal_ready|]. intros ? w1 (-> & Hr1 & Hd1 & _).
  rewrite <- Hd1. destruct (m !! id) as [r|] eqn:Hm; [|by exists m].
  eapply wp_bind_returns; [by apply Now_ready|]. intros now w2 [Hr2 Hd2]. rewrite <- Hd2.
  set (r' := {| file_name := file_name r; metadata := _; expiry_time := _; last_accessed_time := _ |}).
  apply wp_bind, wp_attempt. unfold wp at 1, on_disk, ReadFileToCord.
  pose proof (ReadFile_spec (path_append (cache_dir_path_ self) id) (disk w2) (ready_faults _ _ Hr2)) as Hread.
  unfold wp in Hread. destruct (ReadFile _ (disk w2)) as [res d]. simpl in Hread |- *.
  destruct Hread as (Ht & Hs & ->). rewrite path_key by done.
  set (w3 := {| disk := d; store := store w2; clock := clock w2 |}).
  assert (ready m w3) as Hr3 by (by eapply ready_later).
  unfold content_at. destruct (tree (disk w2) !! (dir self ++ [id])) as [[c|]|] eqn:Hn; simpl.
  - apply wp_bind. eapply wp_mono; [apply (WriteInternal_ready m _ w3 Hr3)|].
    { eapply named_touch; [apply (ready_entries _ _ Hr)|done|done]. }
    intros res w4 (u & -> & Hr4 & _ & Ht4). apply wp_ret. eexists. split_and!; [done| |done].
    rewrite (view_touch _ _ _ r r' Hm eq_refl). apply view_same. intros i. rewrite Ht4; [by rewrite <- Ht|].
    intros E. pose proof (placed_outside _ Hplaced) as Hout. by rewrite <- E, child_dir in Hout.
  - by destruct (proj2 (ready_flat _ _ Hr2) id).
  - eapply wp_bind_returns; [apply later_log|]. intros _ w4 [Ht4 Hl4].
    eapply wp_bind_returns; [apply later_on_disk; [apply keeps_fs_remove|apply fs_remove_spec]|].
    intros [b e] w5 ((_ & Hgood & Hbad) & Hl5). rewrite path_key in * by done. simpl in *.
    assert (tree (disk w4) !! (dir self ++ [id]) = None) as Hn4 by (rewrite Ht4; simpl; by rewrite Ht).
    assert (ready m w4) as Hr4 by (by eapply ready_later). destruct e.
    { destruct (Hbad eq_refl) as [_ Hdir]. by rewrite (Hdir (ready_faults _ _ Hr4 _)) in Hn4. }
    specialize (Hgood eq_refl). rewrite delete_id in Hgood by done.
    assert (tree (disk w5) = tree (disk w2)) as Ht5 by (rewrite Hgood, Ht4; exact Ht).
    unfold wp. simpl. exists m. split_and!; [by eapply ready_later|by rewrite Ht5|done].
Qed.

Lemma Get_ready id age m w :
  ready m w → simple_name id = true →
  wp (Get self id age) (λ res w', ∃ m',
    ready m' w' ∧ view m' (tree (disk w')) = view m (tree (disk w)) ∧
    res = match view m (tree (disk w)) !! id with
          | Some (c, meta) => Ok {| resource := c; resource_metadata := meta |}
          | None => Error NOT_FOUND "not found"
          end) w.
Proof.
  intros Hr Hid. unfold Get. apply wp_bind, wp_attempt.
  eapply wp_mono; [by apply Get_locked_ready|]. intros res w1 (m' & Hr' & Hview & ->).
  destruct (view m (tree (disk w)) !! id) as [[c meta]|]; eapply wp_bind_returns; try apply later_log;
    intros _ w2 [Ht2 Hl2]; exists m'; (split_and!; [by eapply ready_later|by simpl; rewrite Ht2|done]).
Qed.

(** ** The simulation *)

Inductive Request :=
  | PutRequest (cache_id : string) (cord : list (list Z)) (meta : Any) (max_age : Duration)
  | GetRequest (cache_id : string) (max_age : option Duration).

Definition request_id (q : Request) : string :=
  match q with PutRequest id _ _ _ => id | GetRequest id _ => id end.

Definition perform (q : Request) : M World (option (list Z * Any)) :=
  match q with
  | PutRequest id cord meta age => Put self id cord meta age;; mret None
  | GetRequest id age => r ← Get self id age; mret (Some (resource r, resource_metadata r))
  end.

(** A name that is a file name, and a maximal age that is not in the past. *)
Definition request_ok (q : Request) : Prop :=
  simple_name (request_id q) = true ∧
  match q with
  | PutRequest _ _ _ age => ∀ x, duration_ticks age = Some x → 0 ≤ x
  | GetRequest _ _ => True
  end.

(** A map from ids to resources that refuses large resources, and can lose
    resources when it stores one. Under an id that is in use there is a resource
    afterwards, the new one or the one before. *)
Inductive map_step (v : gmap string (list Z * Any)) :
    Request → Res (option (list Z * Any)) → gmap string (list Z * Any) → Prop :=
  | map_refuse id cord meta age :
      max_cache_size_bytes_ self / 2 < cord_size cord →
      map_step v (PutRequest id cord meta age) (Error RESOURCE_EXHAUSTED "too large") v
  | map_put_again id cord meta age kept x y :
      cord_size cord ≤ max_cache_size_bytes_ self / 2 → kept ⊆ v → kept !! id = Some x →
      y ∈ [x; (concat cord, meta)] →
      map_step v (PutRequest id cord meta age) (Ok None) (<[id := y]> kept)
  | map_put id cord meta age kept :
      cord_size cord ≤ max_cache_size_bytes_ self / 2 → kept ⊆ v → kept !! id = None →
      map_step v (PutRequest id cord meta age) (Ok None) (<[id := (concat cord, meta)]> kept)
  | map_hit id age c meta :
      v !! id = Some (c, meta) → map_step v (GetRequest id age) (Ok (Some (c, meta))) v
  | map_miss id age :
      v !! id = None → map_step v (GetRequest id age) (Error NOT_FOUND "not found") v.

Lemma perform_refines q m w :
  ready m w → simple_name (request_id q) = true →
  wp (perform q) (λ res w', ∃ m', ready m' w' ∧ map_step (view m (tree (disk w))) q res (view m' (tree (disk w')))) w.
Proof.
  intros Hr Hid. destruct q as [id cord meta age|id age]; simpl in *.
  - destruct (decide (cord_size cord ≤ max_cache_size_bytes_ self / 2)) as [Hs|Hs].
    + eapply wp_bind_returns; [by apply Put_ready|]. intros _ w' (m' & kept & Hr' & Hsub & Hview).
      apply wp_ret. exists m'. split; [done|]. rewrite Hview.
      destruct (kept !! id) as [x|] eqn:Hk; [|by eapply map_put].
      rewrite <- (insert_id kept id x) by done. by eapply map_put_again; [..|left].
    + unfold wp, mbind, M_bind, Put. pose proof (Z.div_pos (max_cache_size_bytes_ self) 2).
      pose proof (Z.div_le_upper_bound (max_cache_size_bytes_ self) 2 (max_cache_size_bytes_ self)).
      rewrite Z.quot_div_nonneg, u64_small, (proj2 (Z.ltb_lt _ _)) by lia. simpl.
      exists m. split; [done|]. apply map_refuse. lia.
  - apply wp_bind. eapply wp_mono; [by apply Get_ready|]. intros res w' (m' & Hr' & Hview & ->).
    destruct (view m (tree (disk w)) !! id) as [[c meta]|] eqn:Hv; unfold wp; simpl; exists m'; rewrite Hview; (split; [done|]);
      [by apply map_hit|by apply map_miss].
Qed.

(** Performs requests in a row. *)
Fixpoint serve (qs : list Request) (w : World) : list (Res (option (list Z * Any))) * World :=
  match qs with
  | [] => ([], w)
  | q :: qs =>
      let '(r, w) := perform q w in
      let '(rs, w) := serve qs w in
      (r :: rs, w)
  end.

Inductive map_steps : gmap string (list Z * Any) → list Request → list (Res (option (list Z * Any))) →
    gmap string (list Z * Any) → Prop :=
  | map_steps_nil v : map_steps v [] [] v
  | map_steps_cons v q r v' qs rs v'' :
      map_step v q r v' → map_steps v' qs rs v'' → map_steps v (q :: qs) (r :: rs) v''.
End Refinement.

(** C27: While no operation on files and on the manifest fails, a cache is a map
    from ids to resources with their metadata that may lose entries when it
    stores one: the answers to every sequence of Put and Get are those of such a
    map. Put refuses what is larger than half of the size, and stores a resource
    under a new id so that it is there afterwards; under an id that is in use
    there is either the new resource or the one before. Get returns the stored
    bytes and metadata, or NOT_FOUND exactly when the map has no entry. The ids are
    names of files, and the maximal ages that are given to Put are not negative. *)
Theorem cache_refines_map `{AbslTimeLaws, ProtoDataStore CacheManifest, MapOrder} `{!StdSort, !StdSortLaws _, !ProtoDataStoreLaws _}
    (self : FileBackedResourceCache) qs m w :
  placed self → 0 ≤ max_cache_size_bytes_ self < 2 ^ 63 →
  ready self m w → Forall request_ok qs →
  ∃ m', ready self m' (serve self qs w).2 ∧
    map_steps self (view self m (tree (disk w))) qs (serve self qs w).1
      (view self m' (tree (disk (serve self qs w).2))).
Proof.
  intros Hplaced Hmax Hr Hqs. revert m w Hr. induction Hqs as [|q qs Hq _ IH]; intros m w Hr; simpl.
  { exists m. split; [done|constructor]. }
  pose proof (perform_refines self Hplaced Hmax q m w Hr (proj1 Hq)) as Hstep. unfold wp in Hstep.
  destruct (perform self q w) as [r w1]. destruct Hstep as (m1 & Hr1 & Hstep). simpl in *.
  specialize (IH m1 w1 Hr1). destruct (serve self qs w1) as [rs w2]. destruct IH as (m2 & Hr2 & Hsteps).
  exists m2. split; [done|]. by econstructor.
Qed.
