(* ===== verification/TempFiles.v ===== *)
(** * Temporary files: [client/cache/temp_files.cc]

    A directory whose files are removed when the object is created and when it
    is destroyed.  The numbers that [std::rand] returns are an argument of
    [CreateTempFile], a list; the loop has ended when it does not exhaust it. *)

From S2P Require Import Prelude FileSystem FileSystemCorrect.
From stdpp Require Import pretty.

Definition kTempParentDir : string := "fcp".
Definition kTempFilesDir : string := "tmp".
Definition TEMP_FILES_NATIVE_FAILED_TO_DELETE : Z := 1090.

(** The object: the path [temp_files_dir_]. *)
Record TempFiles := { temp_files_dir_ : path }.

(** The iterator is over the entries at the start of the loop. *)
Definition delete_entry (directory : path) (name : string) (status : option Status) : M Disk (option Status) :=
  increment;;
  '(removed, _) ← fs_remove (strip_trailing directory ++ [name]);
  match removed, status with
  | false, None => mret (Some (INTERNAL, "Failed to delete file"%string))
  | _, _ => mret status
  end.

Definition DeleteFilesInDirectory (directory : path) : M Disk unit :=
  e ← fs_exists_throws directory;
  if negb e then fail INVALID_ARGUMENT "Directory does not exist"
  else
    entries ← fs_directory_iterator directory;
    match entries with
    | None => crash
    | Some names =>
        status ← for_each (delete_entry directory) names None;
        return_if_error status
    end.

Definition TempFiles_Create (cache_dir : string) : M Disk TempFiles :=
  if negb (is_absolute cache_dir) then fail INVALID_ARGUMENT "The path must start with a slash"
  else
    let fcp_base_dir := path_append (path_of cache_dir) kTempParentDir in
    error ← fs_create_directories fcp_base_dir;
    if error : bool then fail INTERNAL "Failed to create TempFiles base directory"
    else
      let temp_files_dir := path_append fcp_base_dir kTempFilesDir in
      error ← fs_create_directories temp_files_dir;
      if error : bool then fail INTERNAL "Failed to create TempFiles temp file directory"
      else
        cleanup_status ← attempt (DeleteFilesInDirectory temp_files_dir);
        match cleanup_status with
        | inr (c, message) => LogDiag TEMP_FILES_NATIVE_FAILED_TO_DELETE;; fail c message
        | inl _ => mret {| temp_files_dir_ := temp_files_dir |}
        end.

(** [open] with [O_CREAT | O_EXCL]. *)
Inductive OpenResult := Opened | EExist | OtherErrno.

Definition open_exclusively (p : path) : M Disk OpenResult :=
  f ← fault op_open;
  n ← node_at p;
  parent ← node_at (removelast (resolve p));
  match f, n, parent with
  | Some _, _, _ => mret OtherErrno
  | None, Some _, _ => mret EExist
  | None, None, Some Directory => set_node p (File []);; mret Opened
  | None, None, _ => mret OtherErrno
  end.

Definition candidate (self : TempFiles) (prefix suffix : string) (rand : Z) : path :=
  path_append (temp_files_dir_ self) (prefix +:+ pretty rand +:+ suffix).

(** The path of the loop's last attempt, [None] when the numbers are exhausted. *)
Fixpoint find_candidate (self : TempFiles) (prefix suffix : string) (rands : list Z) : M Disk (option path) :=
  match rands with
  | [] => mret None
  | rand :: rands =>
      fd ← open_exclusively (candidate self prefix suffix rand);
      match fd with
      | EExist => find_candidate self prefix suffix rands
      | _ => mret (Some (candidate self prefix suffix rand))
      end
  end.

Definition CreateTempFile (self : TempFiles) (prefix suffix : string) (rands : list Z) : M Disk (option path) :=
  p ← find_candidate self prefix suffix rands;
  match p with
  | None => mret None
  | Some candidate_path =>
      tmp_file ← open_for_writing candidate_path;
      if tmp_file : bool then mret (Some candidate_path)
      else fail INVALID_ARGUMENT "could not create file"
  end.

(** The destructor. *)
Definition TempFiles_destroy (self : TempFiles) : M Disk unit :=
  status ← attempt (DeleteFilesInDirectory (temp_files_dir_ self));
  match status with
  | inl _ => mret tt
  | inr _ => LogDiag TEMP_FILES_NATIVE_FAILED_TO_DELETE
  end.

(** ** The directory is emptied *)

Lemma delete_entry_spec directory name status d :
  simple_name name = true →
  wp (delete_entry directory name status) (λ r d',
    shrinks d d' ∧
    (∀ st, r = Ok st → st = None → status = None ∧ tree d' !! (resolve directory ++ [name]) = None) ∧
    (fault_free d → (∃ c, tree d !! (resolve directory ++ [name]) = Some (File c)) → status = None → r = Ok None)) d.
Proof.
  intros Hn. unfold delete_entry. apply wp_bind. eapply wp_mono; [apply increment_spec|].
  intros r d1 (Ht1 & Hs1 & [-> | [-> Hu]]).
  2: { split_and!; try done. intros Hff. by destruct Hu. }
  eapply wp_bind_returns; [apply fs_remove_true|]. rewrite resolve_snoc, resolve_strip by done.
  intros [b e] d2 (Hgood & Hs2 & Hbad). simpl in *. rewrite Ht1 in *.
  assert (shrinks d d2) by (by etrans). destruct b; simpl.
  - destruct status; unfold wp; simpl; (split_and!; [done| |done]); intros st [= <-]; [done|]. intros _.
    rewrite (Hgood eq_refl). by rewrite lookup_delete_eq.
  - destruct status; unfold wp; simpl; (split_and!; [done| |]); try done; [by intros st [= <-]|by intros st [= <-]|].
    intros Hff [c Hc] _. destruct (Hbad eq_refl (proj2 Hs1 _ (Hff _))); congruence.
Qed.

(** A status of OK says that all files have been removed, whatever fails. *)
Lemma DeleteFilesInDirectory_spec directory d :
  wf_tree (tree d) →
  wp (DeleteFilesInDirectory directory) (λ r d',
    ∀ u, r = Ok u → shrinks d d' ∧ children (resolve directory) (tree d') = []) d.
Proof.
  intros Hwf. unfold DeleteFilesInDirectory.
  apply (wp_bind_ok _ _ (λ _ d', shrinks d d')).
  { eapply wp_mono; [apply keeps_wp, keeps_fs_exists_throws|done]. }
  intros e d1 Hs1. destruct e; [|done]. simpl.
  eapply wp_bind_returns; [apply fs_directory_iterator_spec|]. intros [names|] d2 (Ht2 & Hs2 & Hnames & _); [|done].
  rewrite (Hnames names eq_refl). set (dir := resolve directory) in *.
  assert (shrinks d d2) as Hs by (by etrans).
  apply (wp_bind_ok _ _ (λ st d', shrinks d2 d' ∧ (st = None → ∀ n, n ∈ children dir (tree d1) → tree d' !! (dir ++ [n]) = None))).
  - apply (wp_for_each (λ pre st d', shrinks d2 d' ∧ (st = None → ∀ n, n ∈ pre → tree d' !! (dir ++ [n]) = None))).
    { split; [done|]. set_solver. }
    intros pre n rest st d3 Hl [Hs3 Hgone].
    assert (named (dir ++ [n])) as Hn.
    { apply Hwf. destruct (proj1 (elem_of_children n dir (tree d1))) as [x Hx]; [rewrite Hl; set_solver|].
      exists x. by apply (lookup_weaken _ _ _ _ Hx), Hs1. }
    apply Forall_app in Hn as [_ Hn]. apply Forall_cons in Hn as [Hn _].
    eapply wp_mono; [by apply delete_entry_spec|]. intros r d4 (Hs4 & Hnone & _) st' Hst'. split; [by etrans|].
    intros E. destruct (Hnone st' Hst' E) as [E' Hd]. intros n' [Hin| ->%list_elem_of_singleton]%elem_of_app; [|done].
    apply (lookup_weaken_None _ (tree d3)); [by apply Hgone|apply Hs4].
  - intros st d3 [Hs3 Hgone]. destruct st as [[c msg]|]; [done|]. apply wp_ret. intros u _.
    split; [by etrans|]. apply elem_of_nil_inv. intros n [x Hx]%elem_of_children.
    assert (n ∈ children dir (tree d1)) as Hin.
    { apply elem_of_children. exists x. rewrite <- Ht2. by apply (lookup_weaken _ _ _ _ Hx), Hs3. }
    specialize (Hgone eq_refl n Hin). unfold dir in *. by rewrite Hx in Hgone.
Qed.

(** Creating TempFiles leaves its directory without files, whichever
    operations fail, if it returns an object. *)
Lemma TempFiles_Create_empty cache_dir d self d' :
  wf_tree (tree d) → TempFiles_Create cache_dir d = (Ok self, d') →
  children (resolve (temp_files_dir_ self)) (tree d') = [].
Proof.
  intros Hwf Hc. assert (wp (TempFiles_Create cache_dir) (λ r d', ∀ self, r = Ok self →
    children (resolve (temp_files_dir_ self)) (tree d') = []) d) as Hspec; [|unfold wp in Hspec; rewrite Hc in Hspec; by apply Hspec].
  unfold TempFiles_Create. case_match; [done|].
  assert (∀ p d, clean p → wf_tree (tree d) →
    wp (fs_create_directories p) (λ r d', ∀ e, r = Ok e → wf_tree (tree d')) d) as Hdirs.
  { intros p d1 Hp Hw. eapply wp_mono; [by apply keeps_wp, (keeps_fs_create_directories [])|]. intros r d2 (_ & Hw2 & _) e _. auto. }
  eapply wp_bind_ok; [apply Hdirs; [apply path_append_clean, path_of_clean|done]|]. intros [] d1 Hw1; [done|].
  eapply wp_bind_ok; [apply Hdirs; [do 2 apply path_append_clean; apply path_of_clean|done]|]. intros [] d2 Hw2; [done|].
  apply wp_bind, wp_attempt. eapply wp_mono; [by apply DeleteFilesInDirectory_spec|].
  intros [u|c msg|] d3 Hd3; [|done|done]. apply wp_ret. intros ? [= <-]. by destruct (Hd3 u eq_refl).
Qed.

(** ** Candidates *)

Lemma open_exclusively_spec p d :
  wp (open_exclusively p) (returns (λ r d',
    (∀ op, healthy op d → healthy op d') ∧
    match r with
    | Opened => tree d !! resolve p = None ∧ tree d' = <[resolve p := File []]> (tree d)
    | EExist => is_Some (tree d !! resolve p) ∧ tree d' = tree d
    | OtherErrno => tree d' = tree d ∧ (healthy op_open d → tree d !! resolve p = None)
    end)) d.
Proof.
  unfold open_exclusively. spend. destruct Hs as [_ Hs].
  eapply (wp_bind_returns _ _ (λ n d', d' = d0 ∧ n = tree d0 !! resolve p)); [by eexists|]. intros n d' [-> ->].
  eapply (wp_bind_returns _ _ (λ n d', d' = d0)); [by eexists|]. intros parent d' ->. rewrite <- Ht.
  destruct f as [k|], (tree d0 !! resolve p) as [x|] eqn:Hx, parent as [[c|]|];
    eexists; (split; [done|]); (split; [done|]); simpl; rewrite ?Hx; eauto;
    (split; [done|]); intros Hh; by specialize (Hf Hh).
Qed.

(** The loop stops at the first candidate that is not there. *)
Lemma find_candidate_spec self prefix suffix rands d :
  wp (find_candidate self prefix suffix rands) (returns (λ r d',
    (r = None → ∀ n, n ∈ rands → is_Some (tree d !! resolve (candidate self prefix suffix n))) ∧
    (∀ p, r = Some p →
       (∃ n, n ∈ rands ∧ p = candidate self prefix suffix n) ∧
       (healthy op_open d → tree d !! resolve p = None) ∧
       (tree d' = <[resolve p := File []]> (tree d) ∨ tree d' = tree d)))) d.
Proof.
  revert d. induction rands as [|n rands IH]; intros d; simpl.
  { apply wp_ret_returns. split; [set_solver|done]. }
  eapply wp_bind_returns; [apply open_exclusively_spec|]. intros [] d1 [Hh Hd1].
  - apply wp_ret_returns. split; [done|]. intros ? [= <-]. destruct Hd1. split_and!; [set_solver|done|by left].
  - destruct Hd1 as [Hn Ht]. eapply wp_mono; [apply IH|]. rewrite Ht.
    intros r d2 (p & -> & Hnone & Hsome). exists p. split; [done|]. split.
    + intros E n' [-> |Hin]%elem_of_cons; [done|by apply Hnone].
    + intros q E. destruct (Hsome q E) as ((n' & Hin & Hq) & Hfree & Htree). split_and!; [|auto|done]. exists n'. set_solver.
  - apply wp_ret_returns. split; [done|]. intros ? [= <-]. destruct Hd1. split_and!; [set_solver|done|by right].
Qed.

Lemma length_append a b : String.length (a +:+ b) = (String.length a + String.length b)%nat.
Proof. induction a; simpl; [done|]. by rewrite IHa. Qed.

Lemma append_cancel_r a b c : a +:+ c = b +:+ c → a = b.
Proof.
  revert b. induction a as [|x a IH]; intros [|y b] E; [done| | |].
  - apply (f_equal String.length) in E. rewrite !length_append in E. simpl in E. lia.
  - apply (f_equal String.length) in E. rewrite !length_append in E. simpl in E. lia.
  - injection E as -> E. by rewrite (IH b E).
Qed.

Lemma append_cancel_l a b c : a +:+ b = a +:+ c → b = c.
Proof. induction a as [|x a IH]; [done|]. intros E. injection E as E. auto. Qed.

Lemma candidate_inj self prefix suffix n n' :
  simple_name (prefix +:+ pretty n +:+ suffix) = true → simple_name (prefix +:+ pretty n' +:+ suffix) = true →
  resolve (candidate self prefix suffix n) = resolve (candidate self prefix suffix n') → n = n'.
Proof.
  intros Hn Hn'. unfold candidate. rewrite !resolve_append by done. intros E%app_inv_head. injection E as E.
  apply append_cancel_l, append_cancel_r in E. by apply (inj pretty).
Qed.

(** More different numbers than files cannot all give names that are taken. *)
Lemma candidate_free (self : TempFiles) (prefix suffix : string) (rands : list Z) (t : gmap path Node) :
  NoDup rands → (size t < length rands)%nat →
  (∀ n, n ∈ rands → simple_name (prefix +:+ pretty n +:+ suffix) = true) →
  ¬ ∀ n, n ∈ rands → is_Some (t !! resolve (candidate self prefix suffix n)).
Proof.
  intros Hnd Hlen Hsimple Hall.
  assert ((λ n, resolve (candidate self prefix suffix n)) <$> rands ⊆+ elements (dom t)) as Hsub.
  { apply NoDup_submseteq.
    - apply NoDup_fmap_2_strong; [|done]. intros n n' Hn Hn'. apply candidate_inj; auto.
    - intros k (n & -> & Hn)%list_elem_of_fmap. apply elem_of_elements, elem_of_dom. auto. }
  apply submseteq_length in Hsub. rewrite length_fmap in Hsub. change (length (elements (dom t))) with (size (dom t)) in Hsub.
  rewrite size_dom in Hsub. lia.
Qed.

(** CreateTempFile ends: among more different random numbers than there are
    files, one gives a name that is free, and the loop stops there at the
    latest. It creates the file that it returns, or fails with INVALID_ARGUMENT
    and never with another error; unless opening files fails, the file was not
    there before, and nothing else changes. *)
Lemma CreateTempFile_terminates (self : TempFiles) (prefix suffix : string) (rands : list Z) (d : Disk) :
  NoDup rands → (size (tree d) < length rands)%nat →
  (∀ n, n ∈ rands → simple_name (prefix +:+ pretty n +:+ suffix) = true) →
  ∃ r d', CreateTempFile self prefix suffix rands d = (r, d') ∧
    ((∃ msg, r = Error INVALID_ARGUMENT msg) ∨
     ∃ p, r = Ok (Some p) ∧ tree d' = <[resolve p := File []]> (tree d) ∧
       (healthy op_open d → tree d !! resolve p = None)).
Proof.
  intros Hnd Hlen Hsimple. eexists _, _. split; [apply surjective_pairing|].
  enough (wp (CreateTempFile self prefix suffix rands) (λ r d', (∃ msg, r = Error INVALID_ARGUMENT msg) ∨
     ∃ p, r = Ok (Some p) ∧ tree d' = <[resolve p := File []]> (tree d) ∧
       (healthy op_open d → tree d !! resolve p = None)) d) by done.
  unfold CreateTempFile. eapply wp_bind_returns; [apply find_candidate_spec|].
  intros [p|] d1 [Hnone Hsome]; [|by destruct (candidate_free self prefix suffix rands (tree d)); auto].
  destruct (Hsome p eq_refl) as (_ & Hfree & Htree).
  eapply wp_bind_returns; [apply open_for_writing_spec|]. intros [] d2 (_ & _ & Htrue & _); [|left; by eexists].
  apply wp_ret. right. exists p. split_and!; [done| |done]. rewrite (Htrue eq_refl).
  destruct Htree as [->| ->]; [by rewrite insert_insert_eq|done].
Qed.
