(* ===== verification/CacheExamples.v ===== *)
(** * Runs of the resource cache

    The manifest in a store in memory, orders for what the language leaves open, and runs of
    the definitions on concrete files. *)

From S2P Require Import Prelude TimeUtil FileSystem FileSystemCorrect ResourceCache CacheCleanUp.
From S2P Require Import CacheCorrect CacheRefinement TempFiles.
From stdpp Require Import sorting.
From Stdlib Require Import Sorted.
#[local] Open Scope Z_scope.

#[export] Instance ManifestStore : ProtoDataStore CacheManifest := MemoryStore CacheManifest.
#[export] Instance ManifestStore_laws : ProtoDataStoreLaws ManifestStore := MemoryStore_laws CacheManifest.

#[export] Instance list_order : MapOrder := {| map_order := map_to_list; map_order_perm := λ m, reflexivity _ |}.

Definition earlier `{AbslTime} (a b : string * Time) : Prop := Time_lt b.2 a.2 = false.
#[export] Instance earlier_dec `{AbslTime} : RelDecision earlier.
Proof. intros a b. unfold earlier. apply bool_eq_dec. Defined.

#[export] Instance merge_order `{AbslTime} : StdSort := merge_sort earlier.

#[export] Instance merge_order_laws `{AbslTimeLaws} : StdSortLaws merge_order.
Proof.
  split; intros l; [apply merge_sort_Permutation|].
  apply StronglySorted_merge_sort.
  - intros a b c. unfold earlier. apply Time_ge_trans.
  - intros a b. unfold earlier. destruct (Time_lt b.2 a.2) eqn:E; [right|by left].
    apply not_true_is_false. intros E'. pose proof (Time_lt_trans _ _ _ E E') as Hc. by rewrite Time_lt_irrefl in Hc.
Qed.

(** ** A cache of 10 bytes *)

(** A file system with two root directories, and the time of the readings. *)
Definition empty_disk (faults : Op → list (option nat)) : Disk :=
  {| tree := {[ [] := Directory ]}; faults := faults; diags := [] |}.

Definition no_faults : Op → list (option nat) := λ _, [].
Definition example_clock : nat → TickCount := λ n, Finite (4 * Z.of_nat n).

Definition start (faults : Op → list (option nat)) : World :=
  {| disk := empty_disk faults; store := None; clock := example_clock |}.

Definition example_cache : FileBackedResourceCache := cache_of "/data" "/cache" 10.
Definition created (faults : Op → list (option nat)) : World := (Create "/data" "/cache" 10 None (start faults)).2.

Definition meta (n : Z) : Any := {| type_url := "m"; value := [n] |}.
Definition hour : TickCount := Finite (3600 * kTicksPerSecond).
Definition put (id : string) (content : list Z) : Request := PutRequest id [content] (meta 7) hour.
Definition fetch (id : string) : Request := GetRequest id None.

Example create_ok : (Create "/data" "/cache" 10 None (start no_faults)).1 = Ok example_cache.
Proof. vm_compute. reflexivity. Qed.

(** Three resources of four bytes do not fit: the one that was used least recently goes. *)
Example eviction :
  (serve example_cache
     [put "a" [1; 2; 3; 4]; put "b" [5; 6; 7; 8]; fetch "a"; put "c" [9; 10; 11; 12]; fetch "a"; fetch "b"; fetch "c"]
     (created no_faults)).1 =
  [Ok None; Ok None; Ok (Some ([1; 2; 3; 4], meta 7)); Ok None; Ok (Some ([1; 2; 3; 4], meta 7));
   Error NOT_FOUND "not found"; Ok (Some ([9; 10; 11; 12], meta 7))].
Proof. vm_compute. reflexivity. Qed.

(** A resource under an id that is there is not overwritten. *)
Example no_overwrite :
  (serve example_cache [put "a" [1]; PutRequest "a" [[2]] (meta 8) hour; fetch "a"] (created no_faults)).1 =
  [Ok None; Ok None; Ok (Some ([1], meta 7))].
Proof. vm_compute. reflexivity. Qed.

(** A maximal age in the past is accepted. *)
Example negative_age :
  (perform example_cache (PutRequest "a" [[1]] (meta 7) (Finite (- kTicksPerSecond))) (created no_faults)).1 = Ok None.
Proof. vm_compute. reflexivity. Qed.

(** The id can name a file outside of the directory. *)
Example id_outside :
  tree (disk (perform example_cache (put "../../x" [1; 2]) (created no_faults)).2) !! ["cache"%string; "x"%string] =
  Some (File [1; 2]).
Proof. vm_compute. reflexivity. Qed.

(** The bytes of the last buffer of a file are not written; the second failure
    of writing is that of the destructor of the stream. *)
Definition full_disk : Op → list (option nat) := λ op, if decide (op = op_write) then [None; Some 1%nat] else [].

(** A failure to write the buffered bytes of a resource is not detected:
    Put returns OK, and Get returns a truncated resource as if it had been
    stored. *)
Lemma write_failure_undetected :
  (serve example_cache [put "a" [1; 2; 3; 4]; fetch "a"] (created full_disk)).1 =
  [Ok None; Ok (Some ([1], meta 7))].
Proof. vm_compute. reflexivity. Qed.

(** ** Witnesses *)

(** Well-formedness is decidable. *)
Lemma wf_tree_dec t : bool_decide (map_Forall (λ k _, Forall (λ c, simple_name c = true) k) t) = true → wf_tree t.
Proof. intros Hall%bool_decide_eq_true k [n Hn]. exact (Hall k n Hn). Qed.

(** Removing and writing files can fail. *)
Definition bad_disk : Op → list (option nat) := λ op,
  if decide (op = op_remove) then [Some 0%nat] else if decide (op = op_write) then [None; Some 2%nat] else [].

Definition example_calls : list Call :=
  [CallPut "a" [[1; 2]; [3; 4]] (meta 7) hour; CallPut "b" [[5; 6; 7; 8]] (meta 7) hour; CallGet "a" None;
   CallPut "c" [[9; 10; 11; 12]] (meta 7) hour; CallCreate None].

Lemma cache_size_bounded_witness :
  Z.of_nat (dir_size (dir example_cache)
    (tree (disk (foldl (run_call "/data" "/cache" 10) (created bad_disk) example_calls)))) ≤ 10.
Proof.
  apply (cache_size_bounded "/data" "/cache" 10 (None : @Store _ ManifestStore) example_calls (start bad_disk) example_cache (created bad_disk)).
  - lia.
  - apply wf_tree_dec. vm_compute. reflexivity.
  - constructor.
  - vm_compute. reflexivity.
  - unfold created. rewrite (surjective_pairing (Create _ _ _ _ _)) at 1. apply (f_equal2 pair); [vm_compute; reflexivity|reflexivity].
Defined.

Lemma ready_created : ready example_cache ∅ (created no_faults).
Proof.
  split.
  - vm_compute. reflexivity.
  - done.
  - vm_compute. by eexists.
  - intros op. unfold healthy. replace (faults (disk (created no_faults)) op) with (@nil (option nat)); [constructor|].
    destruct op; vm_compute; reflexivity.
  - apply wf_tree_dec. vm_compute. reflexivity.
  - split; [vm_compute; reflexivity|]. intros n.
    assert (children (dir example_cache) (tree (disk (created no_faults))) = []) as Hc by (vm_compute; reflexivity).
    intros Hn. assert (n ∈ children (dir example_cache) (tree (disk (created no_faults)))) as Hin
      by (apply elem_of_children; by eexists). rewrite Hc in Hin. by apply elem_of_nil in Hin.
  - intros id r Hr. by rewrite lookup_empty in Hr.
  - vm_compute. done.
Qed.

Lemma cache_refines_map_witness :
  ∃ m', ready example_cache m' (serve example_cache [put "a" [1; 2]; fetch "a"] (created no_faults)).2 ∧
    map_steps example_cache ∅ [put "a" [1; 2]; fetch "a"] [Ok None; Ok (Some ([1; 2], meta 7))]
      (view example_cache m' (tree (disk (serve example_cache [put "a" [1; 2]; fetch "a"] (created no_faults)).2))).
Proof.
  destruct (cache_refines_map example_cache [put "a" [1; 2]; fetch "a"] ∅ (created no_faults)) as (m' & Hr & Hs).
  - apply cache_of_placed.
  - simpl. lia.
  - apply ready_created.
  - repeat constructor. intros x Hx. vm_compute in Hx. injection Hx as <-. discriminate.
  - exists m'. split; [exact Hr|]. exact Hs.
Defined.

(** Two entries that fit no more when eight bytes are reserved: the older one goes. *)
Definition entry (id : string) (accessed : Z) : CachedResource :=
  {| file_name := id; metadata := meta 7; expiry_time := {| seconds := 100; nanos := 0 |};
     last_accessed_time := {| seconds := accessed; nanos := 0 |} |}.
Definition two_entries : CacheManifest := {[ "a"%string := entry "a" 2; "b"%string := entry "b" 1 ]}.
Definition two_files : World :=
  (serve example_cache [put "a" [1; 2]; put "b" [3; 4]] (created no_faults)).2.

Lemma CleanUp_evicts_lru_witness :
  (CleanUp example_cache (Some 7) two_entries two_files).1 = Ok {[ "a"%string := entry "a" 2 ]} ∧
  Z.of_nat (dir_size (dir example_cache) (tree (disk (CleanUp example_cache (Some 7) two_entries two_files).2))) ≤ 3.
Proof.
  split; [vm_compute; reflexivity|].
  apply (CleanUp_evicts_lru example_cache (Some 7) two_entries two_files {[ "a"%string := entry "a" 2 ]}
    (CleanUp example_cache (Some 7) two_entries two_files).2).
  - simpl. lia.
  - apply wf_tree_dec. vm_compute. reflexivity.
  - unfold healthy. replace (faults (disk two_files) op_exists) with (@nil (option nat)); [constructor|].
    vm_compute. reflexivity.
  - vm_compute. reflexivity.
  - rewrite (surjective_pairing (CleanUp _ _ _ _)) at 1. apply (f_equal2 pair); [vm_compute; reflexivity|reflexivity].
Defined.

Definition leftover_disk : Disk :=
  {| tree := {[ [] := Directory; ["c"%string] := Directory; ["c"; "fcp"]%string := Directory;
                ["c"; "fcp"; "tmp"]%string := Directory; ["c"; "fcp"; "tmp"; "x"]%string := File [1] ]};
     faults := no_faults; diags := [] |}.
Definition example_temp_files : TempFiles := {| temp_files_dir_ := ["c"; "fcp"; "tmp"]%string |}.

Lemma TempFiles_Create_empty_witness :
  children (resolve (temp_files_dir_ example_temp_files)) (tree (TempFiles_Create "/c" leftover_disk).2) = [].
Proof.
  apply (TempFiles_Create_empty "/c" leftover_disk).
  - apply wf_tree_dec. vm_compute. reflexivity.
  - rewrite (surjective_pairing (TempFiles_Create _ _)) at 1. apply (f_equal2 pair); [vm_compute; reflexivity|reflexivity].
Defined.

(** A destination with one file more than those that have the names of the first numbers. *)
Lemma CreateTempFile_terminates_witness :
  ∃ r d', CreateTempFile example_temp_files "t" "x" [1; 2; 3; 4; 5; 6] leftover_disk = (r, d') ∧
    ((∃ msg, r = Error INVALID_ARGUMENT msg) ∨
     ∃ p, r = Ok (Some p) ∧ tree d' = <[resolve p := File []]> (tree leftover_disk) ∧
       (healthy op_open leftover_disk → tree leftover_disk !! resolve p = None)).
Proof.
  apply (CreateTempFile_terminates example_temp_files "t" "x" [1; 2; 3; 4; 5; 6] leftover_disk).
  - apply (bool_decide_unpack _). vm_compute. exact I.
  - vm_compute. lia.
  - intros n Hn. repeat (apply elem_of_cons in Hn as [->|Hn]; [vm_compute; reflexivity|]). by apply elem_of_nil in Hn.
Defined.

(** The time 1.5 ns after the epoch is truncated. *)
Lemma Timestamp_roundtrip_witness :
  time_ticks (ConvertProtoToAbslTime (ConvertAbslToProtoTimestamp (Finite 6 : @Time Ticks))) = Some 4.
Proof. apply (Timestamp_roundtrip (Finite 6 : @Time Ticks) 6). vm_compute. reflexivity. Defined.
