(* ===== verification/HttpUtil.v ===== *)
(** * HTTP utilities: [client/http/http_client_util.cc]

    Status codes, headers and URIs.  An [absl::Status] is an [option Status], [None]
    being OK. *)

From S2P Require Import Prelude FileSystem.
From stdpp Require Import pretty.
From Stdlib Require Import Ascii.
#[local] Open Scope Z_scope.

(** ** Status codes *)

Definition kHttpOk : Z := 200.

(** [None] is the code of OK. *)
Definition ConvertHttpCodeToStatusCode (code : Z) : option StatusCode :=
  if code =? 400 then Some INVALID_ARGUMENT
  else if code =? 403 then Some PERMISSION_DENIED
  else if code =? 404 then Some NOT_FOUND
  else if code =? 409 then Some ABORTED
  else if code =? 429 then Some RESOURCE_EXHAUSTED
  else if code =? 499 then Some CANCELLED
  else if code =? 504 then Some DEADLINE_EXCEEDED
  else if code =? 501 then Some UNIMPLEMENTED
  else if code =? 503 then Some UNAVAILABLE
  else if code =? 401 then Some UNAUTHENTICATED
  else if (200 <=? code) && (code <? 300) then None
  else if (400 <=? code) && (code <? 500) then Some FAILED_PRECONDITION
  else if (500 <=? code) && (code <? 600) then Some INTERNAL
  else Some UNKNOWN.

Definition ConvertHttpCodeToStatus (code : Z) : option Status :=
  match ConvertHttpCodeToStatusCode code with
  | None => None
  | Some c => Some (c, "Request returned non-OK response (code: " +:+ pretty code +:+ ")")
  end.

(** The values of [absl::StatusCode]. *)
Definition status_value (code : StatusCode) : Z :=
  match code with
  | CANCELLED => 1 | UNKNOWN => 2 | INVALID_ARGUMENT => 3 | DEADLINE_EXCEEDED => 4 | NOT_FOUND => 5
  | ALREADY_EXISTS => 6 | PERMISSION_DENIED => 7 | RESOURCE_EXHAUSTED => 8 | FAILED_PRECONDITION => 9
  | ABORTED => 10 | OUT_OF_RANGE => 11 | UNIMPLEMENTED => 12 | INTERNAL => 13 | UNAVAILABLE => 14
  | DATA_LOSS => 15 | UNAUTHENTICATED => 16
  end.

Definition ConvertRpcCodeToStatusCode (code : Z) : option StatusCode :=
  match code with
  | 0 => None
  | 1 => Some CANCELLED
  | 2 => Some UNKNOWN
  | 3 => Some INVALID_ARGUMENT
  | 4 => Some DEADLINE_EXCEEDED
  | 5 => Some NOT_FOUND
  | 6 => Some ALREADY_EXISTS
  | 7 => Some PERMISSION_DENIED
  | 8 => Some RESOURCE_EXHAUSTED
  | 9 => Some FAILED_PRECONDITION
  | 10 => Some ABORTED
  | 11 => Some OUT_OF_RANGE
  | 12 => Some UNIMPLEMENTED
  | 13 => Some INTERNAL
  | 14 => Some UNAVAILABLE
  | 15 => Some DATA_LOSS
  | 16 => Some UNAUTHENTICATED
  | _ => Some UNKNOWN
  end.

(** The message [google::internal::federatedcompute::v1::Status]. *)
Record RpcStatus := { rpc_code : Z; rpc_message : string }.

Definition ConvertRpcStatusToAbslStatus (rpc_status : RpcStatus) : option Status :=
  match ConvertRpcCodeToStatusCode (rpc_code rpc_status) with
  | None => None
  | Some c => Some (c, rpc_message rpc_status)
  end.

Definition ConvertAbslStatusToRpcStatus (status : option Status) : RpcStatus :=
  match status with
  | Some (c, message) => {| rpc_code := status_value c; rpc_message := message |}
  | None => {| rpc_code := 0; rpc_message := EmptyString |}
  end.

(** ** Requests and headers *)

Inductive Method := kHead | kGet | kPost | kPut | kPatch | kDelete.

Definition ConvertMethodToString (method : Method) : string :=
  match method with
  | kGet => "GET" | kHead => "HEAD" | kDelete => "DELETE" | kPatch => "PATCH" | kPost => "POST" | kPut => "PUT"
  end.

Abbreviation HeaderList := (list (string * string)).

Definition char_code (c : ascii) : Z := Z.of_N (N_of_ascii c).

Definition ascii_to_lower (c : ascii) : ascii :=
  if (65 <=? char_code c) && (char_code c <=? 90) then ascii_of_N (N_of_ascii c + 32) else c.

Fixpoint AsciiStrToLower (s : string) : string :=
  match s with
  | EmptyString => EmptyString
  | String c s => String (ascii_to_lower c) (AsciiStrToLower s)
  end.

Definition FindHeader (headers : HeaderList) (needle : string) : option string :=
  snd <$> List.find (λ h, bool_decide (AsciiStrToLower h.1 = AsciiStrToLower needle)) headers.

Definition kHttpsScheme : string := "https://".
Definition kLocalhostUri : string := "http://localhost:".
Definition kAcceptEncodingHdr : string := "Accept-Encoding".
Definition kContentLengthHdr : string := "Content-Length".
Definition kContentEncodingHdr : string := "Content-Encoding".
Definition kContentTypeHdr : string := "Content-Type".
Definition kTransferEncodingHdr : string := "Transfer-Encoding".
Definition kIdentityEncodingHdrValue : string := "identity".
Definition kGzipEncodingHdrValue : string := "gzip".

(** ** URIs *)

Fixpoint strip_suffix_slash (s : string) : string :=
  match s with
  | EmptyString => EmptyString
  | String c EmptyString => if Ascii.eqb c "/"%char then EmptyString else s
  | String c s => String c (strip_suffix_slash s)
  end.

Definition strip_prefix_slash (s : string) : string :=
  match s with
  | String c s' => if Ascii.eqb c "/"%char then s' else s
  | EmptyString => s
  end.

Definition JoinBaseUriWithSuffix (base_uri uri_suffix : string) : Res string :=
  match uri_suffix with
  | String c _ =>
      if Ascii.eqb c "/"%char then Ok (strip_suffix_slash base_uri +:+ "/" +:+ strip_prefix_slash uri_suffix)
      else Error INVALID_ARGUMENT "uri_suffix be empty or must have a leading '/'"
  | EmptyString => Ok (strip_suffix_slash base_uri +:+ "/" +:+ strip_prefix_slash uri_suffix)
  end.

Definition ascii_isalnum (c : ascii) : bool :=
  let n := char_code c in
  (48 <=? n) && (n <=? 57) || (65 <=? n) && (n <=? 90) || (97 <=? n) && (n <=? 122).

Definition hex_digit (n : Z) : ascii := ascii_of_N (Z.to_N (if n <? 10 then 48 + n else 55 + n)).

(** The conversion [%X] of a character, without leading zeros. *)
Definition format_hex (n : Z) : string :=
  if n <? 16 then String (hex_digit n) EmptyString
  else String (hex_digit (n / 16)) (String (hex_digit (n mod 16)) EmptyString).

Fixpoint PercentEncode (input : string) (unencoded_chars : ascii → bool) : Res string :=
  match input with
  | EmptyString => Ok EmptyString
  | String c input =>
      if negb (char_code c <? 128) then
        Error INVALID_ARGUMENT ("Encountered unsupported char during URI encoding: " +:+ pretty (char_code c))
      else
        result ← PercentEncode input unencoded_chars;
        if unencoded_chars c then Ok (String c result)
        else Ok (String "%"%char (format_hex (char_code c)) +:+ result)
  end.

Definition single_segment_char (c : ascii) : bool :=
  ascii_isalnum c || Ascii.eqb c "-"%char || Ascii.eqb c "_"%char || Ascii.eqb c "."%char || Ascii.eqb c "~"%char.

Definition EncodeUriSinglePathSegment (input : string) : Res string :=
  PercentEncode input single_segment_char.

Definition EncodeUriMultiplePathSegments (input : string) : Res string :=
  PercentEncode input (λ c, single_segment_char c || Ascii.eqb c "/"%char).

Definition CreateByteStreamUploadUriSuffix (resource_name : string) : Res string :=
  encoded_resource_name ← EncodeUriMultiplePathSegments resource_name;
  Ok ("/upload/v1/media/" +:+ encoded_resource_name).

(** ** Properties *)

(** A status that is sent as an RPC status comes back unchanged, and so does
    every RPC status with a code that Abseil knows, an OK one without its
    message. *)
Lemma RpcStatus_roundtrip :
  (∀ status, ConvertRpcStatusToAbslStatus (ConvertAbslStatusToRpcStatus status) = status) ∧
  (∀ rpc, 1 ≤ rpc_code rpc ≤ 16 → ConvertAbslStatusToRpcStatus (ConvertRpcStatusToAbslStatus rpc) = rpc).
Proof.
  split; [by intros [[[] ?]|]|]. intros [code msg]. simpl. intros Hc.
  assert (code ∈ [1; 2; 3; 4; 5; 6; 7; 8; 9; 10; 11; 12; 13; 14; 15; 16]) as Hin by (rewrite !elem_of_cons; lia).
  repeat (apply elem_of_cons in Hin as [->|Hin]; [done|]). by apply elem_of_nil in Hin.
Qed.

(** The value of a hexadecimal digit. *)
Definition hex_value (c : ascii) : option Z :=
  let n := char_code c in
  if (48 <=? n) && (n <=? 57) then Some (n - 48)
  else if (65 <=? n) && (n <=? 70) then Some (n - 55)
  else None.

(** The standard decoding: a percent sign and two digits stand for a character. *)
Fixpoint percent_decode (s : string) : option string :=
  match s with
  | EmptyString => Some EmptyString
  | String c s =>
      if Ascii.eqb c "%"%char then
        match s with
        | String a (String b s) =>
            x ← hex_value a; y ← hex_value b; rest ← percent_decode s;
            Some (String (ascii_of_N (Z.to_N (16 * x + y))) rest)
        | _ => None
        end
      else rest ← percent_decode s; Some (String c rest)
  end.

Fixpoint string_forall (P : ascii → bool) (s : string) : bool :=
  match s with EmptyString => true | String c s => P c && string_forall P s end.

(** Every character, by computation. *)
Lemma all_ascii (P : ascii → bool) :
  forallb (λ n, P (ascii_of_N (N.of_nat n))) (seq 0 256) = true → ∀ c, P c = true.
Proof.
  intros Hall c. rewrite <- (ascii_N_embedding c). pose proof (N_ascii_bounded c).
  rewrite forallb_forall in Hall. specialize (Hall (N.to_nat (N_of_ascii c))).
  rewrite N2Nat.id in Hall. apply Hall, in_seq. lia.
Qed.

Lemma decode_format c rest :
  16 ≤ char_code c < 128 →
  percent_decode (String "%"%char (format_hex (char_code c)) +:+ rest) = r ← percent_decode rest; Some (String c r).
Proof.
  intros Hc.
  assert (format_hex (char_code c) =
    String (hex_digit (char_code c / 16)) (String (hex_digit (char_code c mod 16)) EmptyString)) as ->.
  { unfold format_hex. by rewrite (proj2 (Z.ltb_ge _ _)) by lia. }
  pose proof (all_ascii (λ c, negb (char_code c <? 128) ||
    bool_decide (hex_value (hex_digit (char_code c / 16)) = Some (char_code c / 16)) &&
    bool_decide (hex_value (hex_digit (char_code c mod 16)) = Some (char_code c mod 16))) eq_refl c) as Hhex.
  simpl in Hhex. rewrite (proj2 (Z.ltb_lt _ _)) in Hhex by lia. simpl in Hhex.
  apply andb_true_iff in Hhex as [Hhi%bool_decide_eq_true Hlo%bool_decide_eq_true].
  simpl. rewrite Hhi, Hlo. simpl. rewrite <- Z.div_mod by lia. unfold char_code.
  by rewrite N2Z.id, ascii_N_embedding.
Qed.

Lemma PercentEncode_decode input P :
  P "%"%char = false → string_forall (λ c, (16 <=? char_code c) && (char_code c <? 128)) input = true →
  ∃ e, PercentEncode input P = Ok e ∧ percent_decode e = Some input.
Proof.
  intros HP. induction input as [|c input IH]; [by exists EmptyString|].
  cbn [string_forall]. intros [[Hlo%Z.leb_le Hhi%Z.ltb_lt]%andb_true_iff Hrest]%andb_true_iff.
  destruct (IH Hrest) as (e & He & Hd).
  cbn [PercentEncode]. rewrite (proj2 (Z.ltb_lt _ _) Hhi), He. cbn [negb mbind Res_bind].
  destruct (P c) eqn:Hc; eexists; (split; [done|]).
  - cbn [percent_decode]. destruct (Ascii.eqb_spec c "%"%char) as [->|]; [congruence|]. by rewrite Hd.
  - rewrite decode_format by lia. by rewrite Hd.
Qed.

Lemma PercentEncode_not_ascii input P :
  string_forall (λ c, char_code c <? 128) input = false → ∃ e, PercentEncode input P = Error INVALID_ARGUMENT e.
Proof.
  induction input as [|c input IH]; [done|]. cbn [string_forall PercentEncode].
  destruct (char_code c <? 128); simpl; [|by eauto]. intros Hrest. destruct (IH Hrest) as [e He].
  rewrite He. simpl. eauto.
Qed.

(** Decoding the encoding of a path gives the path back, for ASCII strings
    without the control characters below 16; strings that are not ASCII are
    refused. *)
Lemma EncodeUri_roundtrip input :
  (string_forall (λ c, (16 <=? char_code c) && (char_code c <? 128)) input = true →
   ∃ single multiple,
     EncodeUriSinglePathSegment input = Ok single ∧ percent_decode single = Some input ∧
     EncodeUriMultiplePathSegments input = Ok multiple ∧ percent_decode multiple = Some input) ∧
  (string_forall (λ c, char_code c <? 128) input = false →
   ∃ e, EncodeUriSinglePathSegment input = Error INVALID_ARGUMENT e).
Proof.
  split; [|apply PercentEncode_not_ascii]. intros Hin.
  destruct (PercentEncode_decode input single_segment_char eq_refl Hin) as (e & He & Hd).
  destruct (PercentEncode_decode input (λ c, single_segment_char c || Ascii.eqb c "/"%char) eq_refl Hin) as (e' & He' & Hd').
  by exists e, e'.
Qed.

(** The control characters below 16 are encoded with a single digit, so that
    two different names have the same encoding. *)
Lemma EncodeUri_collision :
  EncodeUriSinglePathSegment (String "001" "1") = Ok "%11"%string ∧
  EncodeUriSinglePathSegment (String "017" EmptyString) = Ok "%11"%string.
Proof. split; reflexivity. Qed.
