(* ===== verification/OpStats.v ===== *)
(** * Operational statistics of a device: [client/opstats/]

    A device keeps a history of its sessions: [OpStatsLoggerImpl] collects the
    events of a session and commits them as one entry of a sequence, which
    [PdsBackedOpStatsDb] keeps in a file, [opstats_utils.cc] searches, and
    [OpStatsExampleIteratorFactory] offers as examples.  The database removes
    entries by age and by size.

    The file is used by one object at a time: the objects of a process agree by
    the set [files_in_use], and the processes by [flock], which locks the file that
    a path names when it is opened.  [World] is what the
    operations act on, the state of the operating system and of all processes
    included; [store] is the store of the object whose method runs.  The times
    of Abseil, those of protobuf and the encoded size of a message are the
    classes [AbslMillis], [ProtobufTime] and [ByteSize].  Each public method
    holds [mutex_] throughout and is one step. *)

From S2P Require Import Prelude TimeUtil FileSystem HttpUtil.
From stdpp Require Import pretty.
From Stdlib Require Import Ascii.
#[local] Open Scope Z_scope.

(** ** Messages of [opstats.proto] *)

Record Event := { event_type : Z; timestamp : option Timestamp }.
Record DatasetStats := { num_examples_read : Z; num_bytes_read : Z }.
Record RetryWindow := {
  retry_token : string;
  delay_min : option DurationProto;
  delay_max : option DurationProto
}.

Record OperationalStats := {
  population_name : string;
  session_name : string;
  task_name : string;
  events : list Event;
  dataset_stats : gmap string DatasetStats;
  error_message : string;
  retry_window : option RetryWindow;
  chunking_layer_bytes_downloaded : Z;
  chunking_layer_bytes_uploaded : Z;
  network_duration : option DurationProto
}.

Record OpStatsSequence := {
  opstats : list OperationalStats;
  earliest_trustworthy_time : option Timestamp
}.

Definition empty_sequence : OpStatsSequence := {| opstats := []; earliest_trustworthy_time := None |}.
Definition default_timestamp : Timestamp := {| seconds := 0; nanos := 0 |}.
Definition default_duration : DurationProto := {| duration_seconds := 0; duration_nanos := 0 |}.

(** A message that is not set reads as the default message. *)
Definition event_timestamp (e : Event) : Timestamp := default default_timestamp (timestamp e).

Definition EVENT_KIND_RESULT_UPLOAD_STARTED : Z := 38.
Definition EVENT_KIND_RESULT_UPLOAD_SERVER_ABORTED : Z := 41.

(** ** Libraries *)

(** More of [absl::Time]; see [AbslTime]. *)
Class AbslMillis `{AbslTime} := {
  InfinitePast : Time;
  InfiniteFuture : Time;
  Time_minus : Time → Duration → Time;
  Time_eqb : Time → Time → bool;
  FromUnixMillis : Z → Time;
  ToUnixMillis : Time → Z;
  ToInt64Hours : Duration → Z;
  ToInt64Milliseconds : Duration → Z
}.

Definition kTicksPerMillisecond : Z := 4 * 10 ^ 6.

Class AbslMillisLaws `{L : AbslTimeLaws} `(!AbslMillis) := {
  InfinitePast_lt t x : time_ticks t = Some x → Time_lt InfinitePast t = true;
  ToUnixMillis_ticks t x :
    time_ticks t = Some x → in_int64 (x / kTicksPerMillisecond) = true →
    ToUnixMillis t = x / kTicksPerMillisecond
}.

(** [google::protobuf::util::TimeUtil]. *)
Class ProtobufTime := {
  TimestampToSeconds : Timestamp → Z;
  TimestampToMilliseconds : Timestamp → Z;
  MillisecondsToTimestamp : Z → Timestamp;
  DurationToMilliseconds : DurationProto → Z
}.

Class ProtobufTimeLaws `(ProtobufTime) := {
  TimestampToSeconds_seconds t : TimestampToSeconds t = seconds t;
  MillisecondsToTimestamp_roundtrip m :
    in_int64 (m * 10 ^ 6) = true → TimestampToMilliseconds (MillisecondsToTimestamp m) = m
}.

(** [ByteSizeLong] of the two messages. *)
Class ByteSize := {
  stats_ByteSizeLong : OperationalStats → Z;
  sequence_ByteSizeLong : OpStatsSequence → Z
}.

(** An entry of a repeated field takes its own size and more. *)
Class ByteSizeLaws `(ByteSize) := {
  stats_size_nonneg s : 0 ≤ stats_ByteSizeLong s;
  sequence_size_cons s l t :
    stats_ByteSizeLong s + sequence_ByteSizeLong {| opstats := l; earliest_trustworthy_time := t |} ≤
    sequence_ByteSizeLong {| opstats := s :: l; earliest_trustworthy_time := t |}
}.

(** ** The world *)

(** An open file description: the number of the file, which is not its path, and
    whether it has the lock of [flock]. *)
Record OpenFile := { open_inode : nat; flocked : bool }.

Record World `{AbslTime, ProtoDataStore OpStatsSequence} := {
  disk : Disk;
  store : Store;
  (** The readings to come of [absl::Now] and of [TimeUtil::GetCurrentTime]. *)
  clock : nat → Time;
  timestamps : nat → Timestamp;
  (** The values passed to [LogToLongHistogram], the last one first. *)
  histograms : list (Z * Z);
  (** The static set of each process, and its file descriptors. *)
  files_in_use : gset (nat * string);
  open_files : gmap (nat * Z) OpenFile;
  (** The numbers of the files that paths name. *)
  inodes : gmap path nat
}.

Definition OPSTATS_INVALID_FILE_PATH : Z := 1699.
Definition OPSTATS_PARENT_DIR_CREATION_FAILED : Z := 1698.
Definition OPSTATS_READ_FAILED : Z := 1697.
Definition OPSTATS_RESET_FAILED : Z := 1696.
Definition OPSTATS_WRITE_FAILED : Z := 1695.
Definition OPSTATS_INCORRECT_COLLECTION_URI : Z := 1694.
Definition OPSTATS_INVALID_SELECTION_CRITERIA : Z := 1693.
Definition OPSTATS_EXAMPLE_STORE_REQUESTED_NOT_ENABLED : Z := 1692.
Definition OPSTATS_DB_COMMIT_EXPECTED : Z := 1690.
Definition OPSTATS_DB_COMMIT_ATTEMPTED : Z := 1689.
Definition OPSTATS_MULTIPLE_DB_INSTANCE_DETECTED : Z := 1688.
Definition OPSTATS_FAILED_TO_OPEN_FILE : Z := 1687.
Definition TRAINING_OPSTATS_ENABLED : Z := 1002.
Definition TRAINING_OPSTATS_COMMIT_LATENCY : Z := 12.
Definition OPSTATS_DB_SIZE_BYTES : Z := 100009.
Definition OPSTATS_DB_NUM_ENTRIES : Z := 100010.
Definition OPSTATS_NUM_PRUNED_ENTRIES : Z := 100011.
Definition OPSTATS_OLDEST_PRUNED_ENTRY_TENURE_HOURS : Z := 100012.

Definition kOpStatsParentDir : string := "fcp/opstats".
Definition kDbFileName : string := "opstats.pb".

(** The members of the object that do not change; [store] has its store. *)
Record PdsBackedOpStatsDb `{AbslTime} := {
  ttl_ : Duration;
  max_size_bytes_ : Z;
  (** The captures of [lock_releaser_]. *)
  db_path_ : string;
  fd_ : Z
}.

(** [std::filesystem::path::operator/=] on the text of a path. *)
Fixpoint ends_with_separator (s : string) : bool :=
  match s with
  | EmptyString => false
  | String c EmptyString => Ascii.eqb c "/"%char
  | String _ s => ends_with_separator s
  end.

Definition append_native (base_dir name : string) : string :=
  if ends_with_separator base_dir then (base_dir +:+ name)%string else (base_dir +:+ "/" +:+ name)%string.

(** The path of the database. *)
Definition database_path (base_dir : string) : string :=
  append_native (append_native base_dir kOpStatsParentDir) kDbFileName.

(** [open] returns the lowest number that is free. *)
Definition lowest_free (used : gset Z) : Z :=
  default 0 (head (filter (.∉ used) (Z.of_nat <$> seq 0 (S (size used))))).

Section OpStats.
Context `{AbslTime, ProtoDataStore OpStatsSequence} `{!AbslMillis, ProtobufTime, ByteSize}.

Definition with_disk (d : Disk) (w : World) : World :=
  {| disk := d; store := store w; clock := clock w; timestamps := timestamps w; histograms := histograms w;
     files_in_use := files_in_use w; open_files := open_files w; inodes := inodes w |}.
Definition with_store (s : Store) (w : World) : World :=
  {| disk := disk w; store := s; clock := clock w; timestamps := timestamps w; histograms := histograms w;
     files_in_use := files_in_use w; open_files := open_files w; inodes := inodes w |}.
Definition with_files_in_use (f : gset (nat * string)) (w : World) : World :=
  {| disk := disk w; store := store w; clock := clock w; timestamps := timestamps w; histograms := histograms w;
     files_in_use := f; open_files := open_files w; inodes := inodes w |}.
Definition with_open_files (o : gmap (nat * Z) OpenFile) (w : World) : World :=
  {| disk := disk w; store := store w; clock := clock w; timestamps := timestamps w; histograms := histograms w;
     files_in_use := files_in_use w; open_files := o; inodes := inodes w |}.
Definition with_inodes (i : gmap path nat) (w : World) : World :=
  {| disk := disk w; store := store w; clock := clock w; timestamps := timestamps w; histograms := histograms w;
     files_in_use := files_in_use w; open_files := open_files w; inodes := i |}.

Definition on_disk {A} (m : M Disk A) : M World A := λ w,
  let '(r, d) := m (disk w) in (r, with_disk d w).

Definition log (code : Z) : M World unit := on_disk (LogDiag code).

Definition LogToLongHistogram (counter value : Z) : M World unit := λ w,
  (Ok tt, {| disk := disk w; store := store w; clock := clock w; timestamps := timestamps w;
             histograms := (counter, value) :: histograms w;
             files_in_use := files_in_use w; open_files := open_files w; inodes := inodes w |}).

Definition Now : M World Time := λ w,
  (Ok (clock w 0%nat),
   {| disk := disk w; store := store w; clock := λ n, clock w (S n); timestamps := timestamps w;
      histograms := histograms w; files_in_use := files_in_use w; open_files := open_files w; inodes := inodes w |}).

Definition GetCurrentTime : M World Timestamp := λ w,
  (Ok (timestamps w 0%nat),
   {| disk := disk w; store := store w; clock := clock w; timestamps := λ n, timestamps w (S n);
      histograms := histograms w; files_in_use := files_in_use w; open_files := open_files w; inodes := inodes w |}).

(** ** The lock of the file *)

Section Process.
(** The process that runs. *)
Context (pid : nat).

Definition used_descriptors (w : World) : gset Z :=
  set_map snd (filter (λ k : nat * Z, k.1 = pid) (dom (open_files w))).

(** A number that no file has, nor any open one that has lost its name. *)
Definition new_inode (w : World) : nat :=
  S (max_list ((open_inode ∘ snd <$> map_to_list (open_files w)) ++ (map_to_list (inodes w)).*2)).

(** [open] with [O_CREAT | O_RDWR]: the descriptor, or -1.  A file that is created
    is a new one, and so is one that no number is known of. *)
Definition os_open (p : path) : M World Z :=
  f ← on_disk (fault op_open);
  n ← on_disk (node_at p);
  parent ← on_disk (node_at (removelast (resolve p)));
  let create := match f, n, parent with
                | Some _, _, _ | _, Some Directory, _ => None
                | _, Some (File _), _ => Some false
                | _, _, Some Directory => Some true
                | _, _, _ => None
                end in
  match create with
  | None => mret (-1)
  | Some is_new =>
      (if is_new : bool then on_disk (set_node p (File [])) else mret tt);;
      w ← get;
      let fd := lowest_free (used_descriptors w) in
      let inode := if is_new then new_inode w else default (new_inode w) (inodes w !! resolve p) in
      modify (with_inodes (<[resolve p := inode]> (inodes w)));;
      modify (with_open_files (<[(pid, fd) := {| open_inode := inode; flocked := false |}]> (open_files w)));;
      mret fd
  end.

(** Another open file description has the lock on the file. *)
Definition locked_elsewhere (fd : Z) (inode : nat) (files : gmap (nat * Z) OpenFile) : bool :=
  existsb (λ kf, bool_decide (kf.1 ≠ (pid, fd)) && bool_decide (open_inode kf.2 = inode) && flocked kf.2)
    (map_to_list files).

(** [flock] with [LOCK_EX | LOCK_NB]: 0, or -1. *)
Definition os_flock (fd : Z) : M World Z :=
  f ← on_disk (fault op_flock);
  w ← get;
  match f, open_files w !! (pid, fd) with
  | None, Some file =>
      if locked_elsewhere fd (open_inode file) (open_files w) then mret (-1)
      else
        modify (with_open_files (<[(pid, fd) := {| open_inode := open_inode file; flocked := true |}]> (open_files w)));;
        mret 0
  | _, _ => mret (-1)
  end.

Definition os_close (fd : Z) : M World unit :=
  modify (λ w, with_open_files (delete (pid, fd) (open_files w)) w).

Definition erase_in_use (db_path : string) : M World unit :=
  modify (λ w, with_files_in_use (files_in_use w ∖ {[(pid, db_path)]}) w).

(** Whether the path was inserted. *)
Definition insert_in_use (db_path : string) : M World bool :=
  w ← get;
  modify (with_files_in_use (files_in_use w ∪ {[(pid, db_path)]}));;
  mret (bool_decide ((pid, db_path) ∉ files_in_use w)).

Definition AcquireFileLock (db_path : string) : M World Z :=
  inserted ← insert_in_use db_path;
  if negb inserted then
    log OPSTATS_MULTIPLE_DB_INSTANCE_DETECTED;;
    fail INTERNAL "Another instance is already using the underlying database file."
  else
    fd ← os_open (path_of db_path);
    if fd <? 0 then
      erase_in_use db_path;;
      log OPSTATS_FAILED_TO_OPEN_FILE;;
      fail INTERNAL ("Failed to open file: " +:+ db_path)
    else
      locked ← os_flock fd;
      if locked <? 0 then
        erase_in_use db_path;;
        os_close fd;;
        log OPSTATS_MULTIPLE_DB_INSTANCE_DETECTED;;
        fail INTERNAL "Failed to acquire file lock on the underlying database file."
      else mret fd.

Definition ReleaseFileLock (db_path : string) (fd : Z) : M World unit :=
  erase_in_use db_path;;
  if 0 <=? fd then os_close fd else crash.
End Process.

(** ** The database *)

(** The contents of the file of the database. *)
Definition db_file (db_path : string) (w : World) : option (list Z) :=
  match tree (disk w) !! resolve (path_of db_path) with
  | Some (File content) => Some content
  | _ => None
  end.

Definition set_db_file (db_path : string) (f : option (list Z)) (d : Disk) : Disk :=
  match f with
  | Some content => with_tree (<[resolve (path_of db_path) := File content]> (tree d)) d
  | None => with_tree (delete (resolve (path_of db_path)) (tree d)) d
  end.

Definition store_Read (db_path : string) : M World (OpStatsSequence + Status) := λ w,
  let '(r, s) := pds_Read (db_file db_path w) (store w) in (Ok r, with_store s w).

Definition store_Write (db_path : string) (data : OpStatsSequence) : M World (option Status) := λ w,
  let '(r, f, s) := pds_Write data (db_file db_path w) (store w) in
  (Ok r, with_store s (with_disk (set_db_file db_path f (disk w)) w)).

Definition store_GetFileSize (db_path : string) : M World (Z + Status) := λ w,
  let '(r, s) := GetFileSize (db_file db_path w) (store w) in (Ok r, with_store s w).

Definition CreateEmptyData : M World OpStatsSequence :=
  now ← GetCurrentTime;
  mret {| opstats := []; earliest_trustworthy_time := Some now |}.

Definition ReadInternal (db_path : string) : M World OpStatsSequence :=
  data ← store_Read db_path;
  match data with
  | inl data => mret data
  | inr (_, message) =>
      log OPSTATS_READ_FAILED;;
      fail INTERNAL ("Failed to read from database, with error message: " +:+ message)
  end.

Definition ResetInternal (db_path : string) : M World unit :=
  data ← CreateEmptyData;
  reset_status ← store_Write db_path data;
  match reset_status with
  | None => mret tt
  | Some (code, _) =>
      log OPSTATS_RESET_FAILED;;
      fail INTERNAL ("Failed to reset the database, with error message: " +:+ pretty (status_value code))
  end.

Definition GetLastUpdateTime (operational_stats : OperationalStats) : Time :=
  match last (events operational_stats) with
  | None => InfinitePast
  | Some event => FromUnixSeconds (TimestampToSeconds (event_timestamp event))
  end.

(** The first event of the first entry that has events. *)
Fixpoint first_event_time (op_stats : list OperationalStats) : option Timestamp :=
  match op_stats with
  | [] => None
  | stat :: op_stats =>
      match events stat with
      | [] => first_event_time op_stats
      | event :: _ => Some (event_timestamp event)
      end
  end.

Definition GetEarliestTrustWorthyTime (op_stats : list OperationalStats) : M World Timestamp :=
  timestamp ← GetCurrentTime;
  mret (default timestamp (first_event_time op_stats)).

(** An entry that [remove_if] keeps. *)
Definition not_outdated (earliest_accepted_time : Time) (s : OperationalStats) : Prop :=
  Time_lt (GetLastUpdateTime s) earliest_accepted_time = false.

#[export] Instance not_outdated_dec t s : Decision (not_outdated t s).
Proof. unfold not_outdated. apply _. Defined.

Definition RemoveOutdatedData (data : OpStatsSequence) (ttl : Duration) : M World OpStatsSequence :=
  now ← Now;
  let earliest_accepted_time := Time_minus now ttl in
  let op_stats := filter (not_outdated earliest_accepted_time) (opstats data) in
  mret {| opstats := op_stats;
          earliest_trustworthy_time :=
            if decide (length op_stats < length (opstats data))%nat
            then Some (MillisecondsToTimestamp (ToUnixMillis earliest_accepted_time))
            else earliest_trustworthy_time data |}.

(** The variables of the loop that prunes; [it] is what is left. *)
Record Pruning := {
  it : list OperationalStats;
  current_size : Z;
  num_pruned_entries : Z;
  earliest_event_time : Time
}.

Fixpoint prune_loop (max_size_bytes : Z) (it : list OperationalStats) (current_size num_pruned_entries : Z)
    (earliest_event_time : Time) : Pruning :=
  match it with
  | stat :: rest =>
      if max_size_bytes <? current_size then
        prune_loop max_size_bytes rest (current_size - stats_ByteSizeLong stat) (num_pruned_entries + 1)
          (if Time_eqb earliest_event_time InfinitePast then GetLastUpdateTime stat else earliest_event_time)
      else {| it := it; current_size := current_size; num_pruned_entries := num_pruned_entries;
              earliest_event_time := earliest_event_time |}
  | [] => {| it := []; current_size := current_size; num_pruned_entries := num_pruned_entries;
             earliest_event_time := earliest_event_time |}
  end.

Definition PruneOldDataUntilBelowSizeLimit (data : OpStatsSequence) (max_size_bytes : Z) : M World OpStatsSequence :=
  let size := sequence_ByteSizeLong data in
  '(data, size) ←
    (if max_size_bytes <? size then
       let p := prune_loop max_size_bytes (opstats data) size 0 InfinitePast in
       earliest ← GetEarliestTrustWorthyTime (it p);
       LogToLongHistogram OPSTATS_NUM_PRUNED_ENTRIES (num_pruned_entries p);;
       now ← Now;
       LogToLongHistogram OPSTATS_OLDEST_PRUNED_ENTRY_TENURE_HOURS
         (ToInt64Hours (Time_sub now (earliest_event_time p)));;
       mret ({| opstats := it p; earliest_trustworthy_time := Some earliest |}, current_size p)
     else mret (data, size));
  LogToLongHistogram OPSTATS_DB_SIZE_BYTES size;;
  LogToLongHistogram OPSTATS_DB_NUM_ENTRIES (Z.of_nat (length (opstats data)));;
  mret data.

(** [new_store] is the new [ProtoDataStore]. *)
Definition Create (pid : nat) (base_dir : string) (ttl : Duration) (max_size_bytes : Z) (new_store : Store) :
    M World PdsBackedOpStatsDb :=
  if negb (is_absolute base_dir) then
    log OPSTATS_INVALID_FILE_PATH;; fail INVALID_ARGUMENT "The path must start with a slash"
  else
    error ← on_disk (fs_create_directories (path_of (append_native base_dir kOpStatsParentDir)));
    if error : bool then
      log OPSTATS_PARENT_DIR_CREATION_FAILED;; fail INTERNAL "Failed to create directory"
    else
      let db_path := database_path base_dir in
      fd ← AcquireFileLock pid db_path;
      modify (with_store new_store);;
      file_size ← store_GetFileSize db_path;
      match file_size with
      | inr (c, message) => ReleaseFileLock pid db_path fd;; fail c message
      | inl file_size =>
          write_status ← (if file_size =? 0 then data ← CreateEmptyData; store_Write db_path data else mret None);
          match write_status with
          | Some (c, message) => ReleaseFileLock pid db_path fd;; fail c message
          | None => mret {| ttl_ := ttl; max_size_bytes_ := max_size_bytes; db_path_ := db_path; fd_ := fd |}
          end
      end.

(** The destructor. *)
Definition destroy (pid : nat) (self : PdsBackedOpStatsDb) : M World unit :=
  ReleaseFileLock pid (db_path_ self) (fd_ self).

Section Methods.
Context (self : PdsBackedOpStatsDb).

Definition Read : M World OpStatsSequence :=
  data_or ← attempt (ReadInternal (db_path_ self));
  match data_or with
  | inl data => mret data
  | inr (c, message) => attempt (ResetInternal (db_path_ self));; fail c message
  end.

Definition Transform (func : OpStatsSequence → OpStatsSequence) : M World unit :=
  data_or ← attempt (ReadInternal (db_path_ self));
  data ← match data_or with
         | inr _ => ResetInternal (db_path_ self);; mret empty_sequence
         | inl data => RemoveOutdatedData data (ttl_ self)
         end;
  data ← PruneOldDataUntilBelowSizeLimit (func data) (max_size_bytes_ self);
  data ← match earliest_trustworthy_time data with
         | Some _ => mret data
         | None =>
             earliest ← GetEarliestTrustWorthyTime (opstats data);
             mret {| opstats := opstats data; earliest_trustworthy_time := Some earliest |}
         end;
  status ← store_Write (db_path_ self) data;
  match status with
  | None => mret tt
  | Some (c, message) => log OPSTATS_WRITE_FAILED;; fail c message
  end.
End Methods.

(** ** [opstats_utils.cc] *)

(** Whether an entry has an event of a kind. *)
Definition has_event (kind : Z) (s : OperationalStats) : bool := existsb (λ e, event_type e =? kind) (events s).

(** The loop over the events, which sets the two variables. *)
Definition upload_step (acc : bool * bool) (e : Event) : bool * bool :=
  let '(upload_started, upload_aborted) := acc in
  (if event_type e =? EVENT_KIND_RESULT_UPLOAD_STARTED then true else upload_started,
   if event_type e =? EVENT_KIND_RESULT_UPLOAD_SERVER_ABORTED then true else upload_aborted).

Fixpoint last_successful (task_name' : string) (reversed : list OperationalStats) : option OperationalStats :=
  match reversed with
  | [] => None
  | opstats_entry :: reversed =>
      if negb (bool_decide (task_name opstats_entry = task_name')) then last_successful task_name' reversed
      else
        let '(upload_started, upload_aborted) := foldl upload_step (false, false) (events opstats_entry) in
        if upload_started && negb upload_aborted then Some opstats_entry
        else last_successful task_name' reversed
  end.

Definition GetLastSuccessfulContribution (data : OpStatsSequence) (task_name : string) : option OperationalStats :=
  last_successful task_name (reverse (opstats data)).

Definition GetLastSuccessfulContributionTime (data : OpStatsSequence) (task_name : string) : option Timestamp :=
  match GetLastSuccessfulContribution data task_name with
  | None => None
  | Some last_successful_entry =>
      match List.find (λ e, event_type e =? EVENT_KIND_RESULT_UPLOAD_STARTED) (events last_successful_entry) with
      | None => None
      | Some upload_started => Some (event_timestamp upload_started)
      end
  end.

(** ** [OpStatsLoggerImpl] *)

(** The logger, with the database that it owns. *)
Record OpStatsLoggerImpl := {
  db_ : PdsBackedOpStatsDb;
  stats_ : OperationalStats;
  already_committed_ : bool
}.

Record NetworkStats := { bytes_downloaded : Z; bytes_uploaded : Z; network_stats_duration : Duration }.

Definition with_stats (s : OperationalStats) (self : OpStatsLoggerImpl) : OpStatsLoggerImpl :=
  {| db_ := db_ self; stats_ := s; already_committed_ := already_committed_ self |}.

Definition empty_stats (session population : string) : OperationalStats :=
  {| population_name := population; session_name := session; task_name := EmptyString; events := [];
     dataset_stats := ∅; error_message := EmptyString; retry_window := None;
     chunking_layer_bytes_downloaded := 0; chunking_layer_bytes_uploaded := 0; network_duration := None |}.

Definition new_OpStatsLoggerImpl (db : PdsBackedOpStatsDb) (session population : string) :
    M World OpStatsLoggerImpl :=
  log TRAINING_OPSTATS_ENABLED;;
  log OPSTATS_DB_COMMIT_EXPECTED;;
  mret {| db_ := db; stats_ := empty_stats session population; already_committed_ := false |}.

Definition with_events (l : list Event) (s : OperationalStats) : OperationalStats :=
  {| population_name := population_name s; session_name := session_name s; task_name := task_name s;
     events := l; dataset_stats := dataset_stats s; error_message := error_message s;
     retry_window := retry_window s; chunking_layer_bytes_downloaded := chunking_layer_bytes_downloaded s;
     chunking_layer_bytes_uploaded := chunking_layer_bytes_uploaded s; network_duration := network_duration s |}.

Definition AddNewEventToStats (kind : Z) (s : OperationalStats) : M World OperationalStats :=
  now ← GetCurrentTime;
  mret (with_events (events s ++ [{| event_type := kind; timestamp := Some now |}]) s).

Definition AddEventAndSetTaskName (task : string) (kind : Z) (self : OpStatsLoggerImpl) : M World OpStatsLoggerImpl :=
  s ← AddNewEventToStats kind (stats_ self);
  mret (with_stats
    {| population_name := population_name s; session_name := session_name s; task_name := task;
       events := events s; dataset_stats := dataset_stats s; error_message := error_message s;
       retry_window := retry_window s; chunking_layer_bytes_downloaded := chunking_layer_bytes_downloaded s;
       chunking_layer_bytes_uploaded := chunking_layer_bytes_uploaded s; network_duration := network_duration s |} self).

Definition AddEvent (kind : Z) (self : OpStatsLoggerImpl) : M World OpStatsLoggerImpl :=
  s ← AddNewEventToStats kind (stats_ self);
  mret (with_stats s self).

Definition AddEventWithErrorMessage (kind : Z) (message : string) (self : OpStatsLoggerImpl) :
    M World OpStatsLoggerImpl :=
  s ← AddNewEventToStats kind (stats_ self);
  mret (with_stats
    {| population_name := population_name s; session_name := session_name s; task_name := task_name s;
       events := events s; dataset_stats := dataset_stats s;
       error_message := if decide (error_message s = EmptyString) then message else error_message s;
       retry_window := retry_window s; chunking_layer_bytes_downloaded := chunking_layer_bytes_downloaded s;
       chunking_layer_bytes_uploaded := chunking_layer_bytes_uploaded s; network_duration := network_duration s |} self).

(** A sum of two [int64_t]; one that does not fit is undefined and ends the run. *)
Definition add_int64 (x y : Z) : M World Z := if in_int64 (x + y) then mret (x + y) else crash.

Definition UpdateDatasetStats (collection_uri : string) (additional_example_count additional_example_size_bytes : Z)
    (self : OpStatsLoggerImpl) : M World OpStatsLoggerImpl :=
  let s := stats_ self in
  let old := default {| num_examples_read := 0; num_bytes_read := 0 |} (dataset_stats s !! collection_uri) in
  examples ← add_int64 (num_examples_read old) additional_example_count;
  bytes ← add_int64 (num_bytes_read old) additional_example_size_bytes;
  mret (with_stats
    {| population_name := population_name s; session_name := session_name s; task_name := task_name s;
       events := events s;
       dataset_stats := <[collection_uri := {| num_examples_read := examples; num_bytes_read := bytes |}]> (dataset_stats s);
       error_message := error_message s; retry_window := retry_window s;
       chunking_layer_bytes_downloaded := chunking_layer_bytes_downloaded s;
       chunking_layer_bytes_uploaded := chunking_layer_bytes_uploaded s; network_duration := network_duration s |} self).

Definition SetNetworkStats (network_stats : NetworkStats) (self : OpStatsLoggerImpl) : OpStatsLoggerImpl :=
  let s := stats_ self in
  with_stats
    {| population_name := population_name s; session_name := session_name s; task_name := task_name s;
       events := events s; dataset_stats := dataset_stats s; error_message := error_message s;
       retry_window := retry_window s;
       chunking_layer_bytes_downloaded := bytes_downloaded network_stats;
       chunking_layer_bytes_uploaded := bytes_uploaded network_stats;
       network_duration := Some (ConvertAbslToProtoDuration (network_stats_duration network_stats)) |} self.

Definition SetRetryWindow (window : RetryWindow) (self : OpStatsLoggerImpl) : OpStatsLoggerImpl :=
  let s := stats_ self in
  with_stats
    {| population_name := population_name s; session_name := session_name s; task_name := task_name s;
       events := events s; dataset_stats := dataset_stats s; error_message := error_message s;
       retry_window := Some {| retry_token := EmptyString; delay_min := delay_min window; delay_max := delay_max window |};
       chunking_layer_bytes_downloaded := chunking_layer_bytes_downloaded s;
       chunking_layer_bytes_uploaded := chunking_layer_bytes_uploaded s; network_duration := network_duration s |} self.

(** The two functions that are passed to [Transform]. *)
Definition append_stats (s : OperationalStats) (data : OpStatsSequence) : OpStatsSequence :=
  {| opstats := opstats data ++ [s]; earliest_trustworthy_time := earliest_trustworthy_time data |}.

Definition replace_stats (s : OperationalStats) (data : OpStatsSequence) : OpStatsSequence :=
  if decide (length (opstats data) = 0%nat) then append_stats s data
  else {| opstats := <[(length (opstats data) - 1)%nat := s]> (opstats data);
          earliest_trustworthy_time := earliest_trustworthy_time data |}.

(** The status, which the destructor ignores, and the logger afterwards. *)
Definition CommitToStorage (self : OpStatsLoggerImpl) : M World (option Status * OpStatsLoggerImpl) :=
  log OPSTATS_DB_COMMIT_ATTEMPTED;;
  before_commit_time ← Now;
  status ← attempt (Transform (db_ self)
    (if already_committed_ self then replace_stats (stats_ self) else append_stats (stats_ self)));
  after_commit_time ← Now;
  LogToLongHistogram TRAINING_OPSTATS_COMMIT_LATENCY
    (ToInt64Milliseconds (Time_sub after_commit_time before_commit_time));;
  mret (match status with inl _ => None | inr s => Some s end,
        {| db_ := db_ self; stats_ := stats_ self; already_committed_ := true |}).

(** The destructor: [db_] is destroyed after the commit. *)
Definition destroy_OpStatsLoggerImpl (pid : nat) (self : OpStatsLoggerImpl) : M World unit :=
  CommitToStorage self;;
  destroy pid (db_ self).

Definition GetCurrentTaskName (self : OpStatsLoggerImpl) : string := task_name (stats_ self).
End OpStats.
