(* ===== verification/OpStatsLocks.v ===== *)
(** * One database per file

    The databases of all processes as a system: objects are created, used and
    destroyed in any order, by any process, while the files change and calls of
    the operating system fail.  The lock tables are exactly those of the objects
    that are alive, and no two of these have locked the same file. *)

From S2P Require Import Prelude TimeUtil FileSystem FileSystemCorrect OpStats.

(** ** Descriptors *)

Lemma lowest_free_spec (used : gset Z) : (lowest_free used ∉ used) ∧ 0 ≤ lowest_free used.
Proof.
  unfold lowest_free.
  destruct (filter (.∉ used) (Z.of_nat <$> seq 0 (S (size used)))) as [|z l] eqn:Hf; simpl.
  - assert (list_to_set (Z.of_nat <$> seq 0 (S (size used))) ⊆ used) as Hsub.
    { intros z Hz%elem_of_list_to_set. destruct (decide (z ∈ used)); [done|].
      assert (z ∈ filter (.∉ used) (Z.of_nat <$> seq 0 (S (size used)))) as Hz' by (by apply list_elem_of_filter).
      rewrite Hf in Hz'. by apply not_elem_of_nil in Hz'. }
    apply subseteq_size in Hsub. rewrite size_list_to_set in Hsub; [rewrite length_fmap, length_seq in Hsub; lia|].
    apply NoDup_fmap; [apply _|apply NoDup_seq].
  - assert (z ∈ filter (.∉ used) (Z.of_nat <$> seq 0 (S (size used)))) as Hz by (rewrite Hf; left).
    apply list_elem_of_filter in Hz as [Hz (n & -> & _)%list_elem_of_fmap]. split; [done|lia].
Qed.

Section Locks.
Context `{AbslTime, ProtoDataStore OpStatsSequence} `{!AbslMillis, ProtobufTime, ByteSize}.

Lemma fresh_descriptor pid w :
  open_files w !! (pid, lowest_free (used_descriptors pid w)) = None ∧ 0 ≤ lowest_free (used_descriptors pid w).
Proof.
  destruct (lowest_free_spec (used_descriptors pid w)) as [Hn ?]. split; [|done].
  apply eq_None_not_Some. intros Hs%elem_of_dom. apply Hn. unfold used_descriptors.
  apply elem_of_map. eexists (pid, _). split; [done|]. by apply elem_of_filter.
Qed.

(** ** What the operations change *)

(** A relation that the elementary operations other than those on the locks satisfy. *)
Record neutral (R : relation World) : Prop := {
  neutral_preorder : PreOrder R;
  neutral_disk d w : R w (with_disk d w);
  neutral_store s w : R w (with_store s w);
  neutral_histogram c v w : R w (LogToLongHistogram c v w).2;
  neutral_Now w : R w (Now w).2;
  neutral_GetCurrentTime w : R w (GetCurrentTime w).2
}.

Section Neutral.
Context (R : relation World) (HR : neutral R).

#[local] Instance R_preorder : PreOrder R := neutral_preorder R HR.

Lemma neutral_keeps_on_disk {A} (m : M Disk A) : keeps R (on_disk m).
Proof. intros w. unfold on_disk. destruct (m (disk w)). apply (neutral_disk R HR). Qed.
Lemma neutral_keeps_log code : keeps R (log code).
Proof. apply neutral_keeps_on_disk. Qed.
Lemma keeps_histogram c v : keeps R (LogToLongHistogram c v).
Proof. intros w. apply (neutral_histogram R HR). Qed.
Lemma neutral_keeps_Now : keeps R Now.
Proof. intros w. apply (neutral_Now R HR). Qed.
Lemma keeps_GetCurrentTime : keeps R GetCurrentTime.
Proof. intros w. apply (neutral_GetCurrentTime R HR). Qed.
Lemma keeps_store_Read p : keeps R (store_Read p).
Proof. intros w. unfold store_Read. destruct (pds_Read _ _). apply (neutral_store R HR). Qed.
Lemma keeps_store_Write p data : keeps R (store_Write p data).
Proof.
  intros w. unfold store_Write. destruct (pds_Write _ _ _) as [[??]?].
  etrans; [apply (neutral_disk R HR)|apply (neutral_store R HR)].
Qed.
Lemma keeps_store_GetFileSize p : keeps R (store_GetFileSize p).
Proof. intros w. unfold store_GetFileSize. destruct (GetFileSize _ _). apply (neutral_store R HR). Qed.

#[local] Hint Resolve neutral_keeps_on_disk neutral_keeps_log keeps_histogram neutral_keeps_Now keeps_GetCurrentTime keeps_store_Read
  keeps_store_Write keeps_store_GetFileSize : keeps.

Lemma keeps_CreateEmptyData : keeps R CreateEmptyData.
Proof. unfold CreateEmptyData. keep. Qed.
Lemma keeps_ReadInternal p : keeps R (ReadInternal p).
Proof. unfold ReadInternal. keep. Qed.
#[local] Hint Resolve keeps_CreateEmptyData keeps_ReadInternal : keeps.
Lemma keeps_ResetInternal p : keeps R (ResetInternal p).
Proof. unfold ResetInternal. keep. Qed.
Lemma keeps_Earliest l : keeps R (GetEarliestTrustWorthyTime l).
Proof. unfold GetEarliestTrustWorthyTime. keep. Qed.
Lemma keeps_RemoveOutdatedData data ttl : keeps R (RemoveOutdatedData data ttl).
Proof. unfold RemoveOutdatedData. keep. Qed.
#[local] Hint Resolve keeps_ResetInternal keeps_Earliest keeps_RemoveOutdatedData : keeps.
Lemma keeps_Prune data max : keeps R (PruneOldDataUntilBelowSizeLimit data max).
Proof. unfold PruneOldDataUntilBelowSizeLimit. keep. Qed.
#[local] Hint Resolve keeps_Prune : keeps.

Lemma keeps_Read self : keeps R (Read self).
Proof. unfold Read. keep. Qed.
Lemma keeps_Transform self func : keeps R (Transform self func).
Proof. unfold Transform. keep. Qed.
#[local] Hint Resolve keeps_Transform : keeps.
Lemma keeps_CommitToStorage lg : keeps R (CommitToStorage lg).
Proof. unfold CommitToStorage. keep. Qed.
End Neutral.

(** ** Operations that leave the locks alone *)

Definition same_tables (w w' : World) : Prop := files_in_use w' = files_in_use w ∧ open_files w' = open_files w.
Definition same_locks (w w' : World) : Prop :=
  files_in_use w' = files_in_use w ∧ open_files w' = open_files w ∧ inodes w' = inodes w.

#[local] Instance same_tables_preorder : PreOrder same_tables.
Proof. split; unfold same_tables; [done|]. intros ??? [-> ->] [-> ->]. done. Qed.
#[local] Instance same_locks_preorder : PreOrder same_locks.
Proof. split; unfold same_locks; [done|]. intros ??? (-> & -> & ->) (-> & -> & ->). done. Qed.

Lemma same_locks_tables w w' : same_locks w w' → same_tables w w'.
Proof. intros (? & ? & _). by split. Qed.

Lemma same_locks_neutral : neutral same_locks.
Proof. by split; [apply _|..]. Qed.

(** ** Acquiring and releasing *)

(** The lock is taken: the descriptor is new, no description of its file was
    locked, and the path names that file. *)
Definition acquired (pid : nat) (db_path : string) (fd : Z) (w w' : World) : Prop :=
  ((pid, db_path) ∉ files_in_use w) ∧
  files_in_use w' = files_in_use w ∪ {[(pid, db_path)]} ∧
  0 ≤ fd ∧ open_files w !! (pid, fd) = None ∧
  ∃ inode, open_files w' = <[(pid, fd) := {| open_inode := inode; flocked := true |}]> (open_files w) ∧
    (∀ k f, open_files w !! k = Some f → open_inode f = inode → flocked f = false) ∧
    inodes w' !! resolve (path_of db_path) = Some inode.

Definition acquires (pid : nat) (db_path : string) (w : World) (r : Res Z) (w' : World) : Prop :=
  match r with
  | Ok fd => acquired pid db_path fd w w'
  | Error _ _ => same_tables w w'
  | Crash => False
  end.

(** A file is open, or nothing has changed. *)
Definition opens (pid : nat) (p : path) (w : World) (fd : Z) (w' : World) : Prop :=
  files_in_use w' = files_in_use w ∧
  (fd = -1 ∧ open_files w' = open_files w ∨
   0 ≤ fd ∧ open_files w !! (pid, fd) = None ∧
   ∃ inode, open_files w' = <[(pid, fd) := {| open_inode := inode; flocked := false |}]> (open_files w) ∧
     inodes w' !! resolve p = Some inode).

Lemma os_open_spec pid p w : wp (os_open pid p) (returns (opens pid p w)) w.
Proof.
  assert (∀ w1, same_locks w w1 → returns (opens pid p w) (Ok (-1)) w1) as Hno.
  { intros w1 (Hu & Ho & _). eexists. split; [reflexivity|]. split; [done|by left]. }
  assert (∀ w1 inode, same_locks w w1 → let fd := lowest_free (used_descriptors pid w1) in
    returns (opens pid p w) (Ok fd) (with_open_files
      (<[(pid, fd) := {| open_inode := inode; flocked := false |}]> (open_files w1))
        (with_inodes (<[resolve p := inode]> (inodes w1)) w1))) as Hopen.
  { intros w1 inode (Hu & Ho & _). eexists. split; [reflexivity|]. destruct (fresh_descriptor pid w1) as [Hf ?].
    rewrite Ho in Hf. split; [done|right]. simpl. rewrite Ho. split_and!; [done..|].
    exists inode. split; [done|apply lookup_insert_eq]. }
  unfold os_open, wp, mret, M_ret, set_node, modify, mbind, M_bind, on_disk, fault, node_at.
  cbn -[lowest_free with_disk new_inode resolve].
  repeat case_match; simplify_eq; solve [by apply Hno|by apply Hopen].
Qed.

Lemma locked_elsewhere_false pid fd inode files :
  locked_elsewhere pid fd inode files = false →
  ∀ k f, files !! k = Some f → k ≠ (pid, fd) → open_inode f = inode → flocked f = false.
Proof.
  intros He k f Hk Hne Hp. destruct (flocked f) eqn:Hl; [|done]. exfalso.
  apply not_true_iff_false in He. apply He. apply existsb_exists. exists (k, f).
  split; [by apply list_elem_of_In, elem_of_map_to_list|]. simpl.
  rewrite !bool_decide_true by done. done.
Qed.

Lemma os_flock_spec pid fd inode b w :
  open_files w !! (pid, fd) = Some {| open_inode := inode; flocked := b |} →
  wp (os_flock pid fd) (returns (λ r w',
    files_in_use w' = files_in_use w ∧ inodes w' = inodes w ∧
    (r = -1 ∧ open_files w' = open_files w ∨
     r = 0 ∧ (∀ k f, open_files w !! k = Some f → k ≠ (pid, fd) → open_inode f = inode → flocked f = false) ∧
     open_files w' = <[(pid, fd) := {| open_inode := inode; flocked := true |}]> (open_files w)))) w.
Proof.
  intros Hfd. unfold wp, os_flock, mbind, M_bind, on_disk, fault, get. cbn -[with_disk locked_elsewhere open_files].
  change (open_files (with_disk _ w)) with (open_files w). rewrite Hfd. cbn -[with_disk locked_elsewhere].
  repeat case_match; simplify_eq/=; (eexists; split; [reflexivity|]; split_and!; [done..|]); try (by left).
  right. split_and!; try done. by apply locked_elsewhere_false.
Qed.

Lemma insert_in_use_eq pid db_path w :
  insert_in_use pid db_path w =
  (Ok (bool_decide ((pid, db_path) ∉ files_in_use w)), with_files_in_use (files_in_use w ∪ {[(pid, db_path)]}) w).
Proof. done. Qed.

Lemma AcquireFileLock_spec pid db_path w :
  wp (AcquireFileLock pid db_path) (acquires pid db_path w) w.
Proof.
  unfold AcquireFileLock. apply wp_bind. unfold wp at 1. rewrite insert_in_use_eq. cbn [fst snd].
  case_bool_decide as Hin; cbn [negb].
  2: { unfold wp, same_tables. cbn. split; [set_solver|done]. }
  assert ((files_in_use w ∪ {[(pid, db_path)]}) ∖ {[(pid, db_path)]} = files_in_use w) as Hdiff by set_solver.
  eapply wp_bind_returns; [apply os_open_spec|]. intros fd w1 (Hu & [[-> Ho] | (Hfd & Hn & inode & Ho & Hi)]); simpl in *.
  { unfold wp. simpl. unfold same_tables. simpl. by rewrite Hu, Ho. }
  rewrite (proj2 (Z.ltb_ge fd 0)) by lia.
  eapply wp_bind_returns; [eapply os_flock_spec; rewrite Ho; apply lookup_insert_eq|].
  intros locked w2 (Hu2 & Hi2 & [[-> Ho2] | (-> & Hfree & Ho2)]).
  - unfold wp. simpl. unfold same_tables. simpl. by rewrite Hu2, Ho2, Hu, Ho, Hdiff, delete_insert_id.
  - unfold wp. simpl. unfold acquired. rewrite Hu2, Ho2, Hi2, Hu, Ho, insert_insert_eq. split_and!; [done..|].
    exists inode. split_and!; [done| |done]. intros k f Hk Hp.
    apply (Hfree k); [|congruence|done]. rewrite Ho, lookup_insert_ne; [done|congruence].
Qed.

Lemma ReleaseFileLock_spec pid db_path fd w :
  0 ≤ fd →
  ReleaseFileLock pid db_path fd w =
  (Ok tt, with_open_files (delete (pid, fd) (open_files w))
            (with_files_in_use (files_in_use w ∖ {[(pid, db_path)]}) w)).
Proof.
  intros Hfd. unfold ReleaseFileLock, mbind, M_bind. cbn. by rewrite (proj2 (Z.leb_le 0 fd)) by lia.
Qed.

(** A database is created with the lock, or nothing is locked. *)
Definition creates (pid : nat) (db_path : string) (w : World) (r : Res PdsBackedOpStatsDb) (w' : World) : Prop :=
  match r with
  | Ok db => db_path_ db = db_path ∧ acquired pid db_path (fd_ db) w w'
  | Error _ _ => same_tables w w'
  | Crash => False
  end.

Lemma acquired_same pid p fd w1 w2 w3 w4 :
  same_locks w1 w2 → acquired pid p fd w2 w3 → same_locks w3 w4 → acquired pid p fd w1 w4.
Proof. unfold acquired. intros (Hu & Ho & _) Ha (-> & -> & ->). by rewrite Hu, Ho in Ha. Qed.

(** What was acquired is released. *)
Lemma acquired_released pid p fd w w' :
  acquired pid p fd w w' →
  files_in_use w' ∖ {[(pid, p)]} = files_in_use w ∧ delete (pid, fd) (open_files w') = open_files w.
Proof. intros (Hin & -> & _ & Hn & inode & -> & _). split; [set_solver|by rewrite delete_insert_id]. Qed.

Lemma release_fails pid p fd w w1 c message :
  acquired pid p fd w w1 →
  wp (ReleaseFileLock pid p fd;; fail c message) (creates pid p w) w1.
Proof.
  intros Ha. pose proof Ha as (_ & _ & Hfd & _). apply acquired_released in Ha as [Hu Ho].
  unfold wp, mbind, M_bind. rewrite ReleaseFileLock_spec by done. by split.
Qed.

(** A step that leaves the locks alone, and returns. *)
Lemma wp_bind_keeps {A B} (m : M World A) (f : A → M World B) Q w :
  keeps same_locks m → (∃ a, (m w).1 = Ok a) → (∀ a w', same_locks w w' → wp (f a) Q w') → wp (mbind f m) Q w.
Proof.
  intros Hk [a Ha] Hf. apply wp_bind. unfold wp. specialize (Hk w). rewrite Ha. by apply Hf.
Qed.

Lemma Create_spec pid base_dir ttl max new_store w :
  wp (Create pid base_dir ttl max new_store) (creates pid (database_path base_dir) w) w.
Proof.
  unfold Create. destruct (is_absolute base_dir); cbn [negb]; [|by split].
  apply wp_bind_keeps; [apply neutral_keeps_on_disk, same_locks_neutral| |].
  { unfold on_disk, fs_create_directories, fault, mbind, M_bind, get, modify, mret, M_ret. cbn.
    repeat (case_match; simplify_eq/=); eauto. }
  intros [] w1 Hw1; [exact (same_locks_tables _ _ Hw1)|]. apply wp_bind. eapply wp_mono; [apply AcquireFileLock_spec|].
  intros [fd|c e|] w2 Hacq; [|exact (transitivity (same_locks_tables _ _ Hw1) Hacq)|done]. simpl in Hacq.
  assert (∀ w3, same_locks w2 w3 → acquired pid (database_path base_dir) fd w w3) as Ha
    by (intros; by eapply acquired_same).
  apply wp_bind_keeps; [by apply keeps_modify|by eexists|]. intros [] w3 Hw3.
  apply wp_bind_keeps; [apply keeps_store_GetFileSize, same_locks_neutral| |].
  { unfold store_GetFileSize. destruct (GetFileSize _ _). by eexists. }
  intros [file_size|[c message]] w4 Hw4; [|apply release_fails, Ha; by etrans].
  apply wp_bind_keeps; [case_match; eauto using keeps_bind, keeps_ret, keeps_CreateEmptyData, keeps_store_Write, same_locks_neutral with typeclass_instances| |].
  { case_match; [|by eexists]. unfold CreateEmptyData, store_Write, GetCurrentTime, mbind, M_bind, mret, M_ret.
    cbn. destruct (pds_Write _ _ _) as [[??]?]. by eexists. }
  assert (same_locks w2 w4) as H24 by (by etrans).
  intros [[c message]|] w5 Hw5; [apply release_fails|apply wp_ret; split; [done|]]; apply Ha; by etrans.
Qed.

(** ** The system *)

(** An object, the process that has it, and the state of its store. *)
Record Live := { owner : nat; handle : PdsBackedOpStatsDb; saved : Store }.
Record System := { world : World; live : gmap nat Live }.

Definition key (l : Live) : nat * Z := (owner l, fd_ (handle l)).

(** The file that the object has locked, and the path that it was opened with. *)
Definition file_of (w : World) (l : Live) : option nat := open_inode <$> open_files w !! key l.
Definition path_to (l : Live) : path := resolve (path_of (db_path_ (handle l))).

(** The path still names that file: no other program has removed or replaced it. *)
Definition attached (w : World) (l : Live) : Prop := inodes w !! path_to l = file_of w l.

(** A call of a method, with the store of the object. *)
Definition call {A} (m : M World A) (l : Live) (w : World) : World := (m (with_store (saved l) w)).2.

Inductive step (σ : System) : System → Prop :=
  | step_Create id pid base_dir ttl max new_store db w :
      live σ !! id = None →
      Create pid base_dir ttl max new_store (world σ) = (Ok db, w) →
      step σ {| world := w; live := <[id := {| owner := pid; handle := db; saved := store w |}]> (live σ) |}
  | step_Create_fails pid base_dir ttl max new_store c message w :
      Create pid base_dir ttl max new_store (world σ) = (Error c message, w) →
      step σ {| world := w; live := live σ |}
  | step_Read id l w :
      live σ !! id = Some l → w = call (Read (handle l)) l (world σ) →
      step σ {| world := w; live := <[id := {| owner := owner l; handle := handle l; saved := store w |}]> (live σ) |}
  | step_Transform id l func w :
      live σ !! id = Some l → w = call (Transform (handle l) func) l (world σ) →
      step σ {| world := w; live := <[id := {| owner := owner l; handle := handle l; saved := store w |}]> (live σ) |}
  | step_destroy id l w :
      live σ !! id = Some l → destroy (owner l) (handle l) (world σ) = (Ok tt, w) →
      step σ {| world := w; live := delete id (live σ) |}
  (** Other programs change files, and remove, replace, rename and link them; a
      store that puts a new file in the place of the old one does it as well. *)
  | step_files d i : step σ {| world := with_inodes i (with_disk d (world σ)); live := live σ |}.

(** [o] are the descriptors at the start. *)
Record locks_exact (o : gmap (nat * Z) OpenFile) (σ : System) : Prop := {
  in_use_exact pid p :
    (pid, p) ∈ files_in_use (world σ) ↔ ∃ id l, live σ !! id = Some l ∧ owner l = pid ∧ db_path_ (handle l) = p;
  live_open id l :
    live σ !! id = Some l →
    0 ≤ fd_ (handle l) ∧ ∃ inode, open_files (world σ) !! key l = Some {| open_inode := inode; flocked := true |};
  open_exact k f :
    open_files (world σ) !! k = Some f → o !! k = Some f ∨ ∃ id l, live σ !! id = Some l ∧ k = key l;
  start_open k f : o !! k = Some f → open_files (world σ) !! k = Some f ∧ flocked f = false;
  files_distinct id l id' l' :
    live σ !! id = Some l → live σ !! id' = Some l' → file_of (world σ) l = file_of (world σ) l' → id = id';
  names_distinct id l id' l' :
    live σ !! id = Some l → live σ !! id' = Some l' → owner l = owner l' →
    db_path_ (handle l) = db_path_ (handle l') → id = id'
}.

Lemma locks_exact_same o σ w :
  locks_exact o σ → same_tables (world σ) w → locks_exact o {| world := w; live := live σ |}.
Proof. intros [] [Hu Ho]. unfold file_of in *. by split; cbn [world live]; unfold file_of; rewrite ?Hu, ?Ho. Qed.

(** The invariant depends on the tables and on the constants of the objects. *)
Lemma locks_exact_store o σ id l s :
  locks_exact o σ → live σ !! id = Some l →
  locks_exact o {| world := world σ; live := <[id := {| owner := owner l; handle := handle l; saved := s |}]> (live σ) |}.
Proof.
  intros [Hin Hlive Hopen Hstart Hdist Hnames] Hl.
  set (live' := <[id := {| owner := owner l; handle := handle l; saved := s |}]> (live σ)).
  assert (∀ i l', live' !! i = Some l' → ∃ l0, live σ !! i = Some l0 ∧ owner l' = owner l0 ∧ handle l' = handle l0) as Hold.
  { intros i l' [[<- <-] | [? ?]]%lookup_insert_Some; eauto. }
  assert (∀ i l', live σ !! i = Some l' → ∃ l0, live' !! i = Some l0 ∧ owner l0 = owner l' ∧ handle l0 = handle l') as Hnew.
  { intros i l' Hi. unfold live'. destruct (decide (i = id)) as [->|].
    - rewrite Hl in Hi. simplify_eq. eexists. by rewrite lookup_insert_eq.
    - exists l'. by rewrite lookup_insert_ne. }
  split; cbn [world live]; fold live'.
  - intros pid p. rewrite Hin. split.
    + intros (i & l' & (l0 & ? & <- & <-)%Hnew & <- & <-). by exists i, l0.
    + intros (i & l' & (l0 & ? & -> & ->)%Hold & <- & <-). by exists i, l0.
  - intros i l' (l0 & Hl0 & H4 & H5)%Hold. unfold key. rewrite H4, H5. by eapply Hlive.
  - intros k f [?|(i & l' & (l0 & ? & H4 & H5)%Hnew & ->)]%Hopen; [by left|right].
    exists i, l0. unfold key. by rewrite H4, H5.
  - done.
  - intros i l1 j l2 (l3 & H3' & Ho & Hh)%Hold (l4 & H4' & Ho' & Hh')%Hold. unfold file_of, key.
    rewrite Ho, Ho', Hh, Hh'. by eapply Hdist.
  - intros i l1 j l2 (l3 & H3' & Ho & Hh)%Hold (l4 & H4' & Ho' & Hh')%Hold. rewrite Ho, Ho', Hh, Hh'. by eapply Hnames.
Qed.

Lemma locks_exact_update o σ w id l s :
  locks_exact o σ → live σ !! id = Some l → same_locks (world σ) w →
  locks_exact o {| world := w; live := <[id := {| owner := owner l; handle := handle l; saved := s |}]> (live σ) |}.
Proof.
  intros Hex Hl Hw. apply (locks_exact_same _ {| world := world σ; live := _ |}); [by apply locks_exact_store|].
  by apply same_locks_tables.
Qed.

Lemma locks_exact_create o σ pid db w id s :
  locks_exact o σ → live σ !! id = None → acquired pid (db_path_ db) (fd_ db) (world σ) w →
  locks_exact o {| world := w; live := <[id := {| owner := pid; handle := db; saved := s |}]> (live σ) |}.
Proof.
  intros Hex Hid (Hin & Hu & Hfd & Hn & inode & Ho & Hfree & _).
  set (new := {| owner := pid; handle := db; saved := s |}).
  assert (∀ i l, live σ !! i = Some l → key l ≠ (pid, fd_ db)) as Hkey.
  { intros i l Hi Hk. destruct (live_open _ _ Hex _ _ Hi) as (_ & j & Hj). congruence. }
  assert (∀ i l, live σ !! i = Some l → file_of w l = file_of (world σ) l) as Hfile.
  { intros i l Hi. unfold file_of. rewrite Ho, lookup_insert_ne; [done|]. intros E. by apply (Hkey i l). }
  assert (file_of w new = Some inode) as Hnew by (unfold file_of, new, key; cbn; by rewrite Ho, lookup_insert_eq).
  assert (∀ i l, live σ !! i = Some l → file_of w l ≠ file_of w new) as Hdiff.
  { intros i l Hi. rewrite (Hfile i l), Hnew by done. unfold file_of. destruct (live_open _ _ Hex _ _ Hi) as (_ & j & Hj).
    rewrite Hj. intros [= ->]. by specialize (Hfree _ _ Hj eq_refl). }
  assert (∀ i l, live σ !! i = Some l → owner l = pid → db_path_ (handle l) ≠ db_path_ db) as Hname.
  { intros i l Hi Hp Hq. apply Hin. rewrite <- Hp, <- Hq. apply (in_use_exact _ _ Hex). eauto. }
  split; cbn [world live]; rewrite ?Hu, ?Ho.
  - intros pid' p. rewrite elem_of_union, elem_of_singleton, (in_use_exact _ _ Hex). split.
    + intros [(i & l & Hi & Hp) | [= -> ->]]; [exists i, l|exists id, new].
      * rewrite lookup_insert_ne; [done|congruence].
      * by rewrite lookup_insert_eq.
    + intros (i & l & [[<- <-] | [? ?]]%lookup_insert_Some & <- & <-); [by right|left; by eauto 6].
  - intros i l [[<- <-] | [? Hi]]%lookup_insert_Some; [split; [done|]; exists inode; by rewrite lookup_insert_eq|].
    destruct (live_open _ _ Hex _ _ Hi) as (? & j & Hk). split; [done|]. exists j.
    rewrite lookup_insert_ne; [done|]. intros E. by apply (Hkey i l).
  - intros k f [[<- <-] | [? Hk]]%lookup_insert_Some; [right; exists id, new; by rewrite lookup_insert_eq|].
    apply (open_exact _ _ Hex) in Hk as [?|(i & l & Hi & ?)]; [by left|right].
    exists i, l. rewrite lookup_insert_ne; [done|congruence].
  - intros k f Hk. destruct (start_open _ _ Hex _ _ Hk). rewrite lookup_insert_ne; [done|congruence].
  - intros i l j l' [[<- <-] | [? Hi]]%lookup_insert_Some [[<- <-] | [? Hj]]%lookup_insert_Some Hf; [done|..].
    + symmetry in Hf. by apply Hdiff in Hj.
    + by apply Hdiff in Hi.
    + rewrite (Hfile i l), (Hfile j l') in Hf by done. by eapply (files_distinct _ _ Hex).
  - intros i l j l' [[<- <-] | [? Hi]]%lookup_insert_Some [[<- <-] | [? Hj]]%lookup_insert_Some Hp Hq; [done|..].
    + by apply (Hname j l') in Hj.
    + by apply (Hname i l) in Hi.
    + by eapply (names_distinct _ _ Hex).
Qed.

Lemma locks_exact_destroy o σ id l w :
  locks_exact o σ → live σ !! id = Some l →
  files_in_use w = files_in_use (world σ) ∖ {[(owner l, db_path_ (handle l))]} →
  open_files w = delete (key l) (open_files (world σ)) →
  locks_exact o {| world := w; live := delete id (live σ) |}.
Proof.
  intros Hex Hl Hu Ho.
  assert (∀ i l', live σ !! i = Some l' → key l' = key l → i = id) as Hkey.
  { intros i l' Hi Hk. eapply (files_distinct _ _ Hex); [done..|]. unfold file_of. by rewrite Hk. }
  assert (∀ i l', delete id (live σ) !! i = Some l' → live σ !! i = Some l' ∧ i ≠ id ∧ key l ≠ key l') as Hdel.
  { intros i l' [Hne Hi]%lookup_delete_Some. split_and!; [done..|]. intros E. by apply Hne; symmetry; apply (Hkey i l'). }
  assert (∀ i l', delete id (live σ) !! i = Some l' → file_of w l' = file_of (world σ) l') as Hfile.
  { intros i l' (_ & _ & Hne)%Hdel. unfold file_of. by rewrite Ho, lookup_delete_ne. }
  split; cbn [world live]; rewrite ?Hu, ?Ho.
  - intros pid p. rewrite elem_of_difference, elem_of_singleton, (in_use_exact _ _ Hex). split.
    + intros [(i & l' & Hi & <- & <-) Hne]. exists i, l'. rewrite lookup_delete_ne; [done|]. congruence.
    + intros (i & l' & (Hi & Hne & _)%Hdel & <- & <-). split; [by eauto|]. intros [= Hpid Hp]. apply Hne.
      by eapply (names_distinct _ _ Hex).
  - intros i l' (Hi & _ & Hne)%Hdel. destruct (live_open _ _ Hex _ _ Hi) as (? & j & Hk). split; [done|].
    exists j. by rewrite lookup_delete_ne.
  - intros k f [Hne Hk]%lookup_delete_Some. apply (open_exact _ _ Hex) in Hk as [Hk|(i & l' & Hi & ->)]; [by left|right].
    exists i, l'. rewrite lookup_delete_ne; [done|]. congruence.
  - intros k f Hk. destruct (start_open _ _ Hex _ _ Hk) as [Hk' Hf]. split; [|done]. rewrite lookup_delete_ne; [done|].
    intros <-. destruct (live_open _ _ Hex _ _ Hl) as (_ & j & Hj). rewrite Hj in Hk'. by simplify_eq.
  - intros i l1 j l2 Hi Hj Hf. rewrite (Hfile i l1), (Hfile j l2) in Hf by done.
    apply Hdel in Hi as [Hi _], Hj as [Hj _]. by eapply (files_distinct _ _ Hex).
  - intros i l1 j l2 [Hi _]%Hdel [Hj _]%Hdel. by eapply (names_distinct _ _ Hex).
Qed.

Lemma step_locks_exact o σ σ' : locks_exact o σ → step σ σ' → locks_exact o σ'.
Proof.
  intros Hex Hstep. destruct Hstep as [id pid base_dir ttl max new_store db w Hid HC
    |pid base_dir ttl max new_store c message w HC|id l w Hl ->|id l func w Hl ->|id l w Hl Hd|d i].
  - pose proof (Create_spec pid base_dir ttl max new_store (world σ)) as Hs. unfold wp in Hs. rewrite HC in Hs.
    destruct Hs as [Hp Ha]. simpl in Hp. rewrite <- Hp in Ha. by apply locks_exact_create.
  - pose proof (Create_spec pid base_dir ttl max new_store (world σ)) as Hs. unfold wp in Hs. rewrite HC in Hs.
    by apply locks_exact_same.
  - apply locks_exact_update; [done..|]. apply (keeps_Read _ same_locks_neutral (handle l) (with_store (saved l) (world σ))).
  - apply locks_exact_update; [done..|]. apply (keeps_Transform _ same_locks_neutral (handle l) func (with_store (saved l) (world σ))).
  - unfold destroy in Hd. destruct (live_open _ _ Hex _ _ Hl) as [Hfd _].
    rewrite ReleaseFileLock_spec in Hd by done. injection Hd as <-. by eapply locks_exact_destroy.
  - by apply locks_exact_same.
Qed.

Lemma run_locks_exact o σ σ' : locks_exact o σ → rtc step σ σ' → locks_exact o σ'.
Proof. intros Hex Hr. induction Hr; eauto using step_locks_exact. Qed.

(** The lock that a database gets is on the file that its path names. *)
Lemma Create_attached pid base_dir ttl max new_store db w w' s :
  Create pid base_dir ttl max new_store w = (Ok db, w') →
  attached w' {| owner := pid; handle := db; saved := s |}.
Proof.
  intros HC. pose proof (Create_spec pid base_dir ttl max new_store w) as Hs. unfold wp in Hs. rewrite HC in Hs.
  destruct Hs as [Hp (_ & _ & _ & _ & inode & Ho & _ & Hi)]. cbn [fst snd] in Ho, Hi, Hp.
  unfold attached, path_to, file_of, key. cbn. by rewrite Hp, Hi, Ho, lookup_insert_eq.
Qed.
End Locks.

(** C23: However many processes create, use and destroy databases of operational
    statistics, in any order, whatever fails, and whatever other programs do to the
    files: no two live databases have the lock of the same file, even under
    different names of it; no two of one process have the same path; and two whose
    paths still name the files that they opened have different paths, so that of
    two databases with one path at least one has a file that was removed or
    replaced since.  The sets of files in use and the locked descriptors are
    exactly those of the live databases, and the other descriptors are those of the
    start: a failed Create and a destructor leave no lock and no descriptor
    behind. *)
Theorem one_database_per_file `{AbslTime, ProtoDataStore OpStatsSequence} `{!AbslMillis, ProtobufTime, ByteSize}
    (w : World) (σ : System) :
  files_in_use w = ∅ → map_Forall (λ _ f, flocked f = false) (open_files w) →
  rtc step {| world := w; live := ∅ |} σ →
  (∀ id l id' l', live σ !! id = Some l → live σ !! id' = Some l' →
     file_of (world σ) l = file_of (world σ) l' ∨
     owner l = owner l' ∧ db_path_ (handle l) = db_path_ (handle l') ∨
     path_to l = path_to l' ∧ attached (world σ) l ∧ attached (world σ) l' → id = id') ∧
  (∀ pid p, (pid, p) ∈ files_in_use (world σ) ↔
     ∃ id l, live σ !! id = Some l ∧ owner l = pid ∧ db_path_ (handle l) = p) ∧
  (∀ k, (∃ f, open_files (world σ) !! k = Some f ∧ flocked f = true) ↔ ∃ id l, live σ !! id = Some l ∧ k = key l) ∧
  (∀ k f, flocked f = false → open_files (world σ) !! k = Some f ↔ open_files w !! k = Some f).
Proof.
  intros Hu Ho Hrtc. assert (locks_exact (open_files w) {| world := w; live := ∅ |}) as H0'.
  { split; cbn [world live]; try done; [|by left|intros k f Hk; split; [done|exact (Ho k f Hk)]].
    intros pid p. rewrite Hu. split; [set_solver|]. intros (? & ? & [=] & _). }
  apply (run_locks_exact _ _ _ H0') in Hrtc as [Hin Hlive Hopen Hstart Hdist Hnames]. split_and!.
  - intros id l id' l' Hl Hl' [Hf|[[Hp Hq] | (Hp & Ha & Ha')]]; [by eapply Hdist|by eapply Hnames|].
    eapply Hdist; [done..|]. unfold attached in *. congruence.
  - done.
  - intros k. split.
    + intros (f & [Hk|?]%Hopen & Hf); [|done]. by apply Hstart in Hk as [_ ?]; congruence.
    + intros (id & l & [_ [inode Hk]]%Hlive & ->). eauto.
  - intros k f Hf. split; [|by intros [? _]%Hstart]. intros Hk. pose proof Hk as [?|(id & l & Hl & ->)]%Hopen; [done|].
    apply Hlive in Hl as (_ & inode & Hk'). rewrite Hk' in Hk. by simplify_eq.
Qed.
