(* ===== verification/OpStatsStore.v ===== *)
(** * Examples of operational statistics: [client/opstats/opstats_example_store.cc]

    The example iterator that a plan reads the history of the device with: which
    entries a selector selects, the example of an entry, and the iterator.  The
    encoding of a [tensorflow.Example], the decoding of the criteria and the
    order in which a map of protobuf is iterated are the class [ExampleLibrary].
    [OpStatsLogger] is the base class of the logger, which has a database that
    is always empty, or the implementation. *)

From S2P Require Import Prelude TimeUtil FileSystem OpStats.

(** [tensorflow.Feature]. *)
Inductive Feature := BytesList (values : list string) | Int64List (values : list Z).

Abbreviation Example_features := (gmap string Feature).

Record OpStatsSelectionCriteria := {
  start_time : option Timestamp;
  end_time : option Timestamp;
  last_successful_contribution : bool
}.

Class ExampleLibrary := {
  Any : Type;
  UnpackTo : Any → option OpStatsSelectionCriteria;
  SerializeAsString : Example_features → string;
  dataset_order : gmap string DatasetStats → list (string * DatasetStats)
}.

Class ExampleLibraryLaws `(ExampleLibrary) := {
  dataset_order_perm m : dataset_order m ≡ₚ map_to_list m
}.

Record ExampleSelector `{ExampleLibrary} := { collection_uri : string; criteria : option Any }.

Definition kOpStatsCollectionUri : string := "internal:/opstats".
Definition kPopulationName : string := "population_name".
Definition kSessionName : string := "session_name".
Definition kTaskName : string := "task_name".
Definition kEventsEventType : string := "events-event_type".
Definition kEventsTimestampMillis : string := "events-timestamp".
Definition kDatasetStatsUri : string := "dataset_stats-uri".
Definition kDatasetStatsNumExamplesRead : string := "dataset_stats-num_examples_read".
Definition kDatasetStatsNumBytesRead : string := "dataset_stats-num_bytes_read".
Definition kErrorMessage : string := "error_message".
Definition kRetryWindowDelayMinMillis : string := "retry_window-delay_min".
Definition kRetryWindowDelayMaxMillis : string := "retry_window-delay_max".
Definition kChunkingLayerBytesDownloaded : string := "chunking_layer_bytes_downloaded".
Definition kChunkingLayerBytesUploaded : string := "chunking_layer_bytes_uploaded".
Definition kNetworkDuration : string := "network_duration".
Definition kEarliestTrustWorthyTimeMillis : string := "earliest_trustworthy_time".

Section OpStatsStore.
Context `{AbslTime, ProtoDataStore OpStatsSequence} `{!AbslMillis, ProtobufTime, ByteSize, ExampleLibrary}.

(** The base class, or the implementation. *)
Inductive OpStatsLogger :=
  | NoOpLogger (opstats_enabled_ : bool)
  | LoggerImpl (impl : OpStatsLoggerImpl).

Definition IsOpStatsEnabled (l : OpStatsLogger) : bool :=
  match l with NoOpLogger opstats_enabled_ => opstats_enabled_ | LoggerImpl _ => true end.

Definition logger_Read (l : OpStatsLogger) : M World OpStatsSequence :=
  match l with NoOpLogger _ => mret empty_sequence | LoggerImpl impl => Read (db_ impl) end.

Definition logger_TaskName (l : OpStatsLogger) : string :=
  match l with NoOpLogger _ => EmptyString | LoggerImpl impl => GetCurrentTaskName impl end.

(** In milliseconds, where the database counts seconds. *)
Definition GetLastUpdatedTime (op_stats : OperationalStats) : Time :=
  match last (events op_stats) with
  | None => InfinitePast
  | Some event => FromUnixMillis (TimestampToMilliseconds (event_timestamp event))
  end.

Definition CreateFeatureFromString (str : string) : Feature := BytesList [str].
Definition CreateFeatureFromInt (value : Z) : Feature := Int64List [value].
Definition CreateFeatureFromStringVector (values : list string) : Feature := BytesList values.
Definition CreateFeatureFromIntVector (values : list Z) : Feature := Int64List values.

Definition window_of (op_stats : OperationalStats) : RetryWindow :=
  default {| retry_token := EmptyString; delay_min := None; delay_max := None |} (retry_window op_stats).

(** The features of an example, each assigned to its key in turn. *)
Definition example_features (op_stats : OperationalStats) (earliest_trustworthy_time : Z) : Example_features :=
  let datasets := dataset_order (dataset_stats op_stats) in
  foldl (λ feature_map kf, <[kf.1 := kf.2]> feature_map) ∅
    [ (kPopulationName, CreateFeatureFromString (population_name op_stats));
      (kSessionName, CreateFeatureFromString (session_name op_stats));
      (kTaskName, CreateFeatureFromString (task_name op_stats));
      (kEventsEventType, CreateFeatureFromIntVector (event_type <$> events op_stats));
      (kEventsTimestampMillis,
        CreateFeatureFromIntVector ((λ e, TimestampToMilliseconds (event_timestamp e)) <$> events op_stats));
      (kDatasetStatsUri, CreateFeatureFromStringVector datasets.*1);
      (kDatasetStatsNumExamplesRead, CreateFeatureFromIntVector (num_examples_read <$> datasets.*2));
      (kDatasetStatsNumBytesRead, CreateFeatureFromIntVector (num_bytes_read <$> datasets.*2));
      (kErrorMessage, CreateFeatureFromString (error_message op_stats));
      (kRetryWindowDelayMinMillis,
        CreateFeatureFromInt (DurationToMilliseconds (default default_duration (delay_min (window_of op_stats)))));
      (kRetryWindowDelayMaxMillis,
        CreateFeatureFromInt (DurationToMilliseconds (default default_duration (delay_max (window_of op_stats)))));
      (kChunkingLayerBytesDownloaded, CreateFeatureFromInt (chunking_layer_bytes_downloaded op_stats));
      (kChunkingLayerBytesUploaded, CreateFeatureFromInt (chunking_layer_bytes_uploaded op_stats));
      (kNetworkDuration,
        CreateFeatureFromInt (DurationToMilliseconds (default default_duration (network_duration op_stats))));
      (kEarliestTrustWorthyTimeMillis, CreateFeatureFromInt earliest_trustworthy_time) ].

Definition CreateExample (op_stats : OperationalStats) (earliest_trustworthy_time : Z) : string :=
  SerializeAsString (example_features op_stats earliest_trustworthy_time).

(** ** The iterator *)

Record OpStatsExampleIterator := {
  next_ : Z;
  data_ : list OperationalStats;
  earliest_trustworthy_time_millis_ : Z
}.

Definition new_OpStatsExampleIterator (op_stats : list OperationalStats) (earliest_trustworthy_time : Z) :
    OpStatsExampleIterator :=
  {| next_ := 0; data_ := op_stats; earliest_trustworthy_time_millis_ := earliest_trustworthy_time |}.

(** [next_] is an [int]; the comparison with the size is unsigned. *)
Definition Next : M OpStatsExampleIterator string := λ self,
  if (next_ self <? 0) || (Z.of_nat (length (data_ self)) <=? next_ self) then
    (Error OUT_OF_RANGE "The iterator is out of range.", self)
  else
    match data_ self !! Z.to_nat (next_ self) with
    | None => (Crash, self)
    | Some op_stats =>
        (Ok (CreateExample op_stats (earliest_trustworthy_time_millis_ self)),
         {| next_ := i32 (next_ self + 1); data_ := data_ self;
            earliest_trustworthy_time_millis_ := earliest_trustworthy_time_millis_ self |})
    end.

Definition Close (self : OpStatsExampleIterator) : OpStatsExampleIterator :=
  {| next_ := 0; data_ := []; earliest_trustworthy_time_millis_ := earliest_trustworthy_time_millis_ self |}.

(** ** The factory *)

Record OpStatsExampleIteratorFactory := {
  op_stats_logger_ : OpStatsLogger;
  opstats_last_successful_contribution_criteria_ : bool
}.

Definition CanHandle (example_selector : ExampleSelector) : bool :=
  bool_decide (collection_uri example_selector = kOpStatsCollectionUri).

(** The bounds of the criteria and the flag. *)
Definition read_criteria (example_selector : ExampleSelector) : M World (Time * Time * bool) :=
  match criteria example_selector with
  | None => mret (InfinitePast, InfiniteFuture, false)
  | Some any =>
      match UnpackTo any with
      | None =>
          log OPSTATS_INVALID_SELECTION_CRITERIA;;
          fail INVALID_ARGUMENT "Unable to parse selection criteria."
      | Some c =>
          let lower_bound_time :=
            match start_time c with
            | Some t => FromUnixMillis (TimestampToMilliseconds t)
            | None => InfinitePast
            end in
          let upper_bound_time :=
            match end_time c with
            | Some t => FromUnixMillis (TimestampToMilliseconds t)
            | None => InfiniteFuture
            end in
          if Time_lt upper_bound_time lower_bound_time then
            log OPSTATS_INVALID_SELECTION_CRITERIA;;
            fail INVALID_ARGUMENT "Invalid selection criteria: start_time is after end_time."
          else mret (lower_bound_time, upper_bound_time, last_successful_contribution c)
      end
  end.

(** An entry within the bounds, which are inclusive. *)
Definition within (lower_bound_time upper_bound_time : Time) (s : OperationalStats) : Prop :=
  Time_lt (GetLastUpdatedTime s) lower_bound_time = false ∧ Time_lt upper_bound_time (GetLastUpdatedTime s) = false.

#[export] Instance within_dec l u s : Decision (within l u s).
Proof. unfold within. apply _. Defined.

Definition CreateExampleIterator (self : OpStatsExampleIteratorFactory) (example_selector : ExampleSelector) :
    M World OpStatsExampleIterator :=
  if negb (bool_decide (collection_uri example_selector = kOpStatsCollectionUri)) then
    log OPSTATS_INCORRECT_COLLECTION_URI;; fail INVALID_ARGUMENT "The collection uri is not the expected uri"
  else if negb (IsOpStatsEnabled (op_stats_logger_ self)) then
    log OPSTATS_EXAMPLE_STORE_REQUESTED_NOT_ENABLED;;
    fail INVALID_ARGUMENT "OpStats example store is not enabled."
  else
    '(lower_bound_time, upper_bound_time, last_successful_contribution) ← read_criteria example_selector;
    data ← logger_Read (op_stats_logger_ self);
    selected_data ←
      (if last_successful_contribution : bool then
         if opstats_last_successful_contribution_criteria_ self then
           mret (option_list (GetLastSuccessfulContribution data (logger_TaskName (op_stats_logger_ self))))
         else fail INVALID_ARGUMENT "last_successful_contribution enabled but feature not enabled in the runtime!"
       else mret (filter (within lower_bound_time upper_bound_time) (reverse (opstats data))));
    mret (new_OpStatsExampleIterator selected_data
            (TimestampToMilliseconds (default default_timestamp (earliest_trustworthy_time data)))).
End OpStatsStore.
