(* ===== verification/OpStatsCorrect.v ===== *)
(** * The history of operational statistics

    What a transformation stores, by age and by size; that a session is one
    entry of the history however often it is committed; and which entries the
    searches and the example iterator return. *)

From S2P Require Import Prelude TimeUtil FileSystem FileSystemCorrect OpStats OpStatsLocks OpStatsStore.

(** ** Ages *)

Lemma filter_all_kept {A} (P : A → Prop) `{∀ x, Decision (P x)} (l : list A) :
  ¬ (length (filter P l) < length l)%nat → filter P l = l.
Proof.
  induction l as [|x l IH]; [done|]. rewrite filter_cons. pose proof (length_filter P l).
  case_decide; simpl; intros Hl; [f_equal; apply IH; lia|lia].
Qed.

Lemma length_filter_lt {A} (P : A → Prop) `{∀ x, Decision (P x)} (l : list A) :
  (length (filter P l) < length l)%nat ↔ filter P l ≠ l.
Proof.
  split; [intros ? E; rewrite E in *; lia|]. induction l as [|x l IH]; [done|].
  rewrite filter_cons. pose proof (length_filter P l). case_decide; simpl; [|lia].
  intros Hne. assert (filter P l ≠ l) as Hl by congruence. apply IH in Hl. lia.
Qed.

Section Ages.
Context `{L : AbslTimeLaws} `{!AbslMillis, !AbslMillisLaws _} `{ProtobufTimeLaws}.

(** An entry without events does not outlive the next transformation. *)
Lemma no_events_outdated t x s : time_ticks t = Some x → events s = [] → ¬ not_outdated t s.
Proof.
  intros Ht He. unfold not_outdated, GetLastUpdateTime. rewrite He. simpl. by rewrite (InfinitePast_lt _ _ Ht).
Qed.

(** The history can be trusted from a time that is not before the last event of
    an entry that was too old, up to the second. *)
Lemma outdated_before_trust t x s e :
  time_ticks t = Some x → in_int64 (x / kTicksPerMillisecond * 10 ^ 6) = true →
  last (events s) = Some e → in_int64 (seconds (event_timestamp e)) = true → ¬ not_outdated t s →
  seconds (event_timestamp e) * 1000 ≤ TimestampToMilliseconds (MillisecondsToTimestamp (ToUnixMillis t)).
Proof.
  intros Ht Hx He Hs Hout. unfold not_outdated, GetLastUpdateTime in Hout. rewrite He, TimestampToSeconds_seconds in Hout.
  rewrite (Time_lt_ticks _ _ _ _ (FromUnixSeconds_ticks _ Hs) Ht) in Hout.
  apply not_false_iff_true, Z.ltb_lt in Hout. rewrite in_int64_iff in Hx.
  rewrite (ToUnixMillis_ticks _ _ Ht), MillisecondsToTimestamp_roundtrip by (apply in_int64_iff; lia).
  unfold kTicksPerSecond, kTicksPerMillisecond in *. apply Z.div_le_lower_bound; lia.
Qed.
End Ages.

Section Transform.
Context `{AbslTime, ProtoDataStore OpStatsSequence} `{!AbslMillis, ProtobufTime, ByteSize}.

(** ** Sizes *)

Definition total_size (l : list OperationalStats) : Z := foldr (λ s n, stats_ByteSizeLong s + n) 0 l.

Lemma prune_loop_spec max l size n t :
  let p := prune_loop max l size n t in
  ∃ k, (k ≤ length l)%nat ∧ it p = drop k l ∧ current_size p = size - total_size (take k l) ∧
       num_pruned_entries p = n + Z.of_nat k ∧
       (k = length l ∨ size - total_size (take k l) ≤ max) ∧
       (∀ j, (j < k)%nat → max < size - total_size (take j l)).
Proof.
  revert size n t. induction l as [|s l IH]; intros size n t; simpl.
  { exists 0%nat. simpl. split_and!; [lia|done|lia|lia|by left|lia]. }
  destruct (Z.ltb_spec max size) as [Hgt|Hle]; simpl.
  2: { exists 0%nat. simpl. split_and!; [lia|done|lia|lia|right; lia|lia]. }
  edestruct (IH (size - stats_ByteSizeLong s) (n + 1)) as (k & Hk & Hit & Hsize & Hnum & Hend & Hbefore).
  exists (S k). simpl. split_and!; [lia|exact Hit|rewrite Hsize; lia|rewrite Hnum; lia| |].
  - destruct Hend; [left; lia|right; lia].
  - intros [|j] Hj; simpl; [lia|]. specialize (Hbefore j). lia.
Qed.

(** [new] is [d] without the oldest entries, as few as the limit allows; [now]
    is the time that a database without events can be trusted from. *)
Definition pruned (max : Z) (now : Timestamp) (d new : OpStatsSequence) : Prop :=
  (∃ k, (k ≤ length (opstats d))%nat ∧ opstats new = drop k (opstats d) ∧
        (k = length (opstats d) ∨ sequence_ByteSizeLong d - total_size (take k (opstats d)) ≤ max) ∧
        (∀ j, (j < k)%nat → max < sequence_ByteSizeLong d - total_size (take j (opstats d)))) ∧
  earliest_trustworthy_time new =
    Some (match earliest_trustworthy_time d with
          | Some t => if max <? sequence_ByteSizeLong d then default now (first_event_time (opstats new)) else t
          | None => default now (first_event_time (opstats new))
          end).

(** The files and the store are left alone, and so are the clocks. *)
Definition same_db (w w' : World) : Prop := tree (disk w') = tree (disk w) ∧ store w' = store w.

Lemma same_db_file p w w' : same_db w w' → db_file p w' = db_file p w.
Proof. intros [Ht _]. unfold db_file. by rewrite Ht. Qed.

Lemma Prune_spec d max w :
  wp (PruneOldDataUntilBelowSizeLimit d max) (returns (λ d' w',
    same_db w w' ∧
    (max < sequence_ByteSizeLong d → pruned max (timestamps w 0%nat) d d') ∧
    (sequence_ByteSizeLong d ≤ max → d' = d ∧ timestamps w' = timestamps w))) w.
Proof.
  unfold wp, PruneOldDataUntilBelowSizeLimit.
  destruct (Z.ltb_spec max (sequence_ByteSizeLong d)) as [Hgt|Hle]; (eexists; split; [reflexivity|]).
  - split; [done|]. split; [|lia]. intros _. split.
    + edestruct (prune_loop_spec max (opstats d) (sequence_ByteSizeLong d) 0 InfinitePast)
        as (k & Hk & Hit & _ & _ & Hend & Hbefore). exists k. simpl. rewrite Hit. done.
    + simpl. rewrite (proj2 (Z.ltb_lt _ _) Hgt). by destruct (earliest_trustworthy_time d).
  - split; [done|]. split; [lia|done].
Qed.

Lemma pruned_small max now d t :
  sequence_ByteSizeLong d ≤ max →
  t = match earliest_trustworthy_time d with Some t => t | None => default now (first_event_time (opstats d)) end →
  pruned max now d {| opstats := opstats d; earliest_trustworthy_time := Some t |}.
Proof.
  intros Hle ->. split; simpl.
  - exists 0%nat. rewrite take_0, drop_0. simpl. split_and!; [lia|done|right; lia|lia].
  - destruct (earliest_trustworthy_time d); [|done]. by rewrite (proj2 (Z.ltb_ge _ _)).
Qed.

(** The two steps between [func] and the store. *)
Lemma prune_and_date_spec d max w :
  wp (data ← PruneOldDataUntilBelowSizeLimit d max;
      match earliest_trustworthy_time data with
      | Some _ => mret data
      | None =>
          earliest ← GetEarliestTrustWorthyTime (opstats data);
          mret {| opstats := opstats data; earliest_trustworthy_time := Some earliest |}
      end) (returns (λ new w', same_db w w' ∧ pruned max (timestamps w 0%nat) d new)) w.
Proof.
  eapply wp_bind_returns; [apply Prune_spec|]. intros d' w' (Hsame & Hgt & Hle).
  destruct (decide (sequence_ByteSizeLong d ≤ max)) as [Hs|Hs].
  - destruct (Hle Hs) as [-> Hts].
    destruct (earliest_trustworthy_time d) as [t|] eqn:Ht; (eexists; split; [reflexivity|]); (split; [done|]).
    + replace d with {| opstats := opstats d; earliest_trustworthy_time := Some t |} at 2 by (destruct d; simpl in *; by subst).
      apply pruned_small; [done|]. by rewrite Ht.
    + apply pruned_small; [done|]. rewrite Ht, <- Hts. done.
  - assert (pruned max (timestamps w 0%nat) d d') as Hp by (apply Hgt; lia).
    rewrite (proj2 Hp). eexists. by split.
Qed.

(** What is left of the entries by age. *)
Definition up_to_date (t : Time) (data kept : OpStatsSequence) : Prop :=
  opstats kept = filter (not_outdated t) (opstats data) ∧
  (opstats kept = opstats data → earliest_trustworthy_time kept = earliest_trustworthy_time data) ∧
  (opstats kept ≠ opstats data →
   earliest_trustworthy_time kept = Some (MillisecondsToTimestamp (ToUnixMillis t))).

Lemma RemoveOutdatedData_spec data ttl w :
  wp (RemoveOutdatedData data ttl) (returns (λ kept w',
    same_db w w' ∧ timestamps w' = timestamps w ∧ up_to_date (Time_minus (clock w 0%nat) ttl) data kept)) w.
Proof.
  eexists. split; [reflexivity|]. split; [done|]. split; [done|]. unfold up_to_date. simpl.
  split; [done|]. rewrite <- length_filter_lt. split; intros Hf; case_decide as Hd; try done.
  apply length_filter_lt in Hd. done.
Qed.

(** ** Transformations *)

(** The database has [data], and reading and writing it do not fail. *)
Definition db_holds `{!ProtoDataStoreLaws _} (self : PdsBackedOpStatsDb) (data : OpStatsSequence) (w : World) : Prop :=
  holds data (db_file (db_path_ self) w) (store w) ∧ is_Some (db_file (db_path_ self) w) ∧ sound (store w).

Lemma store_Write_spec `{!ProtoDataStoreLaws _} self data w :
  is_Some (db_file (db_path_ self) w) → sound (store w) →
  wp (store_Write (db_path_ self) data) (returns (λ status w',
    status = None ∧ db_holds self data w' ∧ clock w' = clock w ∧ timestamps w' = timestamps w)) w.
Proof.
  intros Hf Hs. unfold wp, store_Write. destruct (Write_sound data _ _ Hf Hs) as (f' & s' & Hw & Hs').
  destruct (Write_holds _ _ _ _ _ Hw) as [Hh [content ->]]. rewrite Hw. eexists. split; [reflexivity|].
  split_and!; try done.
  assert (db_file (db_path_ self) (with_store s' (with_disk (set_db_file (db_path_ self) (Some content) (disk w)) w)) =
          Some content) as Hfile by (unfold db_file; simpl; by rewrite lookup_insert_eq).
  unfold db_holds. simpl in *. rewrite Hfile. split_and!; [done|by eexists|done].
Qed.

Lemma ReadInternal_spec `{!ProtoDataStoreLaws _} self data w :
  db_holds self data w →
  wp (ReadInternal (db_path_ self)) (returns (λ d w',
    d = data ∧ sound (store w') ∧ tree (disk w') = tree (disk w) ∧ clock w' = clock w ∧ timestamps w' = timestamps w)) w.
Proof.
  intros (Hh & Hf & Hs). destruct (Read_sound _ _ _ Hh Hs) as (s' & Hr & Hs').
  unfold wp, ReadInternal, store_Read, mbind, M_bind. rewrite Hr. eexists. split; [reflexivity|]. done.
Qed.

Lemma Transform_spec `{!ProtoDataStoreLaws _} self func data w :
  db_holds self data w →
  wp (Transform self func) (returns (λ _ w',
    ∃ kept new, up_to_date (Time_minus (clock w 0%nat) (ttl_ self)) data kept ∧
      pruned (max_size_bytes_ self) (timestamps w 0%nat) (func kept) new ∧ db_holds self new w')) w.
Proof.
  intros Hdb. pose proof Hdb as (_ & Hfile & _). unfold Transform.
  eapply (wp_bind_returns _ _ (λ r w1, r = inl data ∧ sound (store w1) ∧ tree (disk w1) = tree (disk w) ∧
    clock w1 = clock w ∧ timestamps w1 = timestamps w)).
  { apply wp_attempt. eapply wp_mono; [by apply ReadInternal_spec|]. intros r w1 (d & -> & -> & ?).
    eexists. by split. }
  intros r w1 (-> & Hs1 & Ht1 & Hc1 & Hts1).
  eapply wp_bind_returns; [apply RemoveOutdatedData_spec|]. intros kept w2 ((Ht2 & Hs2) & Hts2 & Hkept).
  apply wp_bind_assoc. eapply wp_bind_returns; [apply prune_and_date_spec|].
  intros new w3 ((Ht3 & Hs3) & Hnew). rewrite Hts2, Hts1 in Hnew. rewrite Hc1 in Hkept.
  eapply wp_bind_returns; [apply store_Write_spec|].
  - unfold db_file in *. by rewrite Ht3, Ht2, Ht1.
  - by rewrite Hs3, Hs2.
  - intros status w4 (-> & Hdb4 & _). apply wp_ret_returns. eauto.
Qed.
End Transform.

(** ** What is stored *)

Section Stored.
Context `{AbslTime, ProtoDataStore OpStatsSequence} `{!AbslMillis, ProtobufTime, ByteSize}.
Context `{!ByteSizeLaws _}.

Lemma total_size_nonneg l : 0 ≤ total_size l.
Proof. induction l as [|s l IH]; simpl; [done|]. pose proof (stats_size_nonneg s). lia. Qed.

(** Removing entries saves at least their own sizes. *)
Lemma sequence_size_drop k l t :
  sequence_ByteSizeLong {| opstats := drop k l; earliest_trustworthy_time := t |} ≤
  sequence_ByteSizeLong {| opstats := l; earliest_trustworthy_time := t |} - total_size (take k l).
Proof.
  revert l. induction k as [|k IH]; intros [|s l]; simpl; try lia.
  pose proof (sequence_size_cons s l t). specialize (IH l). lia.
Qed.

Lemma pruned_bounded max now d new :
  pruned max now d new →
  opstats new = [] ∨
  sequence_ByteSizeLong {| opstats := opstats new; earliest_trustworthy_time := earliest_trustworthy_time d |} ≤ max.
Proof.
  intros [(k & Hk & -> & [-> | Hle] & _) _]; [left; by rewrite drop_all|right].
  etrans; [apply sequence_size_drop|]. by destruct d.
Qed.

Lemma wp_returns_run {S A} (m : M S A) P (s : S) : wp m (returns P) s → ∃ a s', m s = (Ok a, s') ∧ P a s'.
Proof. unfold wp, returns. destruct (m s) as [r s']. simpl. intros (a & -> & HP). eauto. Qed.

Lemma Read_holds_spec `{!ProtoDataStoreLaws _} self data w : db_holds self data w → (Read self w).1 = Ok data.
Proof.
  intros Hdb. apply (ReadInternal_spec self) in Hdb.
  apply wp_returns_run in Hdb as (d & w' & Hr & -> & _). unfold Read, attempt, mbind, M_bind. by rewrite Hr.
Qed.

(** ** A session *)

Inductive Action :=
  | Event_ (kind : Z)
  | TaskEvent (task : string) (kind : Z)
  | ErrorEvent (kind : Z) (message : string)
  | Dataset (uri : string) (examples bytes : Z)
  | Network (stats : NetworkStats)
  | Retry (window : RetryWindow)
  | Commit.

Definition act (a : Action) (self : OpStatsLoggerImpl) : M World OpStatsLoggerImpl :=
  match a with
  | Event_ kind => AddEvent kind self
  | TaskEvent task kind => AddEventAndSetTaskName task kind self
  | ErrorEvent kind message => AddEventWithErrorMessage kind message self
  | Dataset uri examples bytes => UpdateDatasetStats uri examples bytes self
  | Network stats => mret (SetNetworkStats stats self)
  | Retry window => mret (SetRetryWindow window self)
  | Commit => r ← CommitToStorage self; mret r.2
  end.

Definition adds_event (a : Action) : bool :=
  match a with Event_ _ | TaskEvent _ _ | ErrorEvent _ _ => true | _ => false end.

(** The numbers that an action adds to the statistics of a dataset. *)
Definition examples_of (a : Action) : Z := match a with Dataset _ n _ => Z.abs n | _ => 0 end.
Definition bytes_of (a : Action) : Z := match a with Dataset _ _ n => Z.abs n | _ => 0 end.
Definition total (f : Action → Z) (l : list Action) : Z := foldr (λ a n, f a + n) 0 l.

Context `{L : !AbslTimeLaws _} `{!ProtoDataStoreLaws _}.
Context (self : PdsBackedOpStatsDb) (data : OpStatsSequence) (horizon : Time).

(** The readings of the clocks: what is removed is older than [horizon], and
    events are not. *)
Definition timely (w : World) : Prop :=
  (∀ n, Time_lt horizon (Time_minus (clock w n) (ttl_ self)) = false) ∧
  (∀ n, Time_lt (FromUnixSeconds (TimestampToSeconds (timestamps w n))) horizon = false).

(** The entry of the session is the last one, if any entry is left. *)
Definition has_entry (s : OperationalStats) (d : OpStatsSequence) : Prop :=
  opstats d = [] ∨ ∃ l, l `sublist_of` opstats data ∧ opstats d = l ++ [s].

(** The clocks have gone on. *)
Definition later (w w' : World) : Prop :=
  (∃ i, ∀ n, clock w' n = clock w (i + n)%nat) ∧ (∃ i, ∀ n, timestamps w' n = timestamps w (i + n)%nat).

#[local] Instance later_preorder : PreOrder later.
Proof.
  split; [intros w; by split; exists 0%nat|].
  intros w1 w2 w3 [[i Hi] [j Hj]] [[i' Hi'] [j' Hj']]. split; [exists (i + i')%nat|exists (j + j')%nat]; intros n.
  - by rewrite Hi', Hi, Nat.add_assoc.
  - by rewrite Hj', Hj, Nat.add_assoc.
Qed.

Lemma later_neutral : neutral later.
Proof.
  split; [apply _|..]; intros; (split; [try (by exists 0%nat)|try (by exists 0%nat)]); by exists 1%nat.
Qed.

Lemma later_timely w w' : later w w' → timely w → timely w'.
Proof. intros [[i Hi] [j Hj]] [H1' H2']. split; intros n; rewrite ?Hi, ?Hj; auto. Qed.

(** The numbers of the datasets are bounded. *)
Definition datasets_within (examples bytes : Z) (s : OperationalStats) : Prop :=
  ∀ uri d, dataset_stats s !! uri = Some d → Z.abs (num_examples_read d) ≤ examples ∧ Z.abs (num_bytes_read d) ≤ bytes.

Lemma add_int64_ok x y w : in_int64 (x + y) = true → add_int64 x y w = (Ok (x + y), w).
Proof. unfold add_int64. by intros ->. Qed.

(** The actions other than [Commit]. *)
Definition acted (a : Action) (lg : OpStatsLoggerImpl) (w : World) (lg' : OpStatsLoggerImpl) (w' : World) : Prop :=
  same_db w w' ∧ later w w' ∧ db_ lg' = db_ lg ∧ already_committed_ lg' = already_committed_ lg ∧
  (if adds_event a
   then ∃ kind, events (stats_ lg') = events (stats_ lg) ++ [{| event_type := kind; timestamp := Some (timestamps w 0%nat) |}]
   else events (stats_ lg') = events (stats_ lg)).

Lemma act_spec a lg w e b :
  a ≠ Commit → datasets_within e b (stats_ lg) → e + examples_of a < 2 ^ 63 → b + bytes_of a < 2 ^ 63 →
  0 ≤ e → 0 ≤ b →
  wp (act a lg) (returns (λ lg' w', acted a lg w lg' w' ∧
    datasets_within (e + examples_of a) (b + bytes_of a) (stats_ lg'))) w.
Proof.
  intros Hc Hw He Hb He0 Hb0. destruct a as [kind|task kind|kind message|uri n m|stats|window|]; try done; simpl in *.
  1,2,3: eexists; split; [reflexivity|]; rewrite !Z.add_0_r; split; [|done];
    split_and!; try done; [split; [by exists 0%nat|by exists 1%nat]|by eexists].
  2,3: eexists; split; [reflexivity|]; rewrite !Z.add_0_r; split; [|done]; split_and!; [by split|reflexivity|done..].
  set (old := default {| num_examples_read := 0; num_bytes_read := 0 |} (dataset_stats (stats_ lg) !! uri)).
  assert (Z.abs (num_examples_read old) ≤ e ∧ Z.abs (num_bytes_read old) ≤ b) as [Hoe Hob].
  { unfold old. destruct (dataset_stats (stats_ lg) !! uri) as [d|] eqn:Hd; simpl; [by eapply Hw|lia]. }
  unfold UpdateDatasetStats. fold old.
  do 2 (apply wp_bind; unfold wp at 1; rewrite add_int64_ok by (apply in_int64_iff; lia); cbn [fst snd]).
  apply wp_ret_returns. split.
  - split_and!; [by split|reflexivity|done..].
  - intros u d. simpl. intros [[<- <-] | [? Hd]]%lookup_insert_Some; simpl; [lia|]. apply Hw in Hd. lia.
Qed.

Lemma fresh_cutoff t s : Time_lt horizon t = false → not_outdated horizon s → not_outdated t s.
Proof. intros Ht Hs. by eapply Time_ge_trans. Qed.

(** The entries that are stored by a commit, before pruning. *)
Lemma committed_entries lg d kept t :
  (if already_committed_ lg then ∃ s, not_outdated horizon s ∧ has_entry s d else d = data) →
  Time_lt horizon t = false → opstats kept = filter (not_outdated t) (opstats d) →
  ∃ l, l `sublist_of` opstats data ∧
    opstats ((if already_committed_ lg then replace_stats (stats_ lg) else append_stats (stats_ lg)) kept) =
    l ++ [stats_ lg].
Proof.
  intros Hd Ht Hkept. destruct (already_committed_ lg).
  - destruct Hd as (s & Hs & [Hnil | (l & Hl & Hd)]).
    + rewrite Hnil in Hkept. exists []. split; [apply sublist_nil_l|]. unfold replace_stats, append_stats. by rewrite Hkept.
    + rewrite Hd, filter_app, filter_cons_True, filter_nil in Hkept by (by eapply fresh_cutoff).
      exists (filter (not_outdated t) l). split; [etrans; [apply sublist_filter|done]|].
      unfold replace_stats. rewrite Hkept, length_app. simpl. rewrite decide_False by lia. simpl.
      by rewrite insert_app_r_alt, Nat.add_sub, Nat.sub_diag by lia.
  - subst d. exists (filter (not_outdated t) (opstats data)). split; [apply sublist_filter|].
    simpl. by rewrite Hkept.
Qed.

(** The entry is stored, unless the history is too large with it. *)
Definition committed (s : OperationalStats) (d : OpStatsSequence) : Prop :=
  has_entry s d ∧
  (opstats d = [] → ∃ l t, l `sublist_of` opstats data ∧
     max_size_bytes_ self < sequence_ByteSizeLong {| opstats := l ++ [s]; earliest_trustworthy_time := t |}).

Lemma pruned_committed s l now d new :
  l `sublist_of` opstats data → opstats d = l ++ [s] → pruned (max_size_bytes_ self) now d new → committed s new.
Proof.
  intros Hl Hd [(k & Hk & Hnew & _ & Hbefore) _]. rewrite Hd in *. rewrite length_app in Hk. simpl in Hk.
  destruct (decide (k ≤ length l)%nat) as [Hle|Hgt].
  - rewrite drop_app_le in Hnew by done. split; [|by rewrite Hnew; destruct (drop k l)].
    right. exists (drop k l). split; [etrans; [apply sublist_drop|done]|done].
  - rewrite drop_ge in Hnew by (rewrite length_app; simpl; lia). split; [by left|]. intros _.
    exists l, (earliest_trustworthy_time d). split; [done|]. specialize (Hbefore 0%nat ltac:(lia)).
    rewrite take_0 in Hbefore. simpl in Hbefore. rewrite <- Hd. destruct d; simpl in *; subst. lia.
Qed.

(** Invariant of a session after its first event. *)
Record in_session (e b : Z) (lg : OpStatsLoggerImpl) (w : World) : Prop := {
  session_db : db_ lg = self;
  session_timely : timely w;
  session_fresh : not_outdated horizon (stats_ lg);
  session_datasets : datasets_within e b (stats_ lg);
  session_stored : ∃ d, db_holds self d w ∧
    (if already_committed_ lg then ∃ s, not_outdated horizon s ∧ has_entry s d else d = data)
}.

Lemma db_holds_same d w w' : same_db w w' → db_holds self d w → db_holds self d w'.
Proof. intros Hs. unfold db_holds. rewrite (same_db_file _ _ _ Hs), (proj2 Hs). done. Qed.

Lemma CommitToStorage_spec e b lg w :
  in_session e b lg w →
  wp (CommitToStorage lg) (returns (λ r w', r = (None, {| db_ := self; stats_ := stats_ lg; already_committed_ := true |}) ∧
    ∃ d, db_holds self d w' ∧ committed (stats_ lg) d)) w.
Proof.
  intros [Hdb [Hclock _] _ _ (d & Hd & Hst)]. unfold CommitToStorage. rewrite Hdb.
  eapply (wp_bind_returns _ _ (λ _ w1, same_db w w1 ∧ clock w1 = clock w)); [by eexists|]. intros [] w1 [Hs1 Hc1].
  eapply (wp_bind_returns _ _ (λ _ w2, same_db w w2 ∧ clock w2 0%nat = clock w 1%nat)).
  { eexists. split; [reflexivity|]. split; [done|]. simpl. by rewrite Hc1. }
  intros before w2 [Hs2 Hc2].
  eapply (wp_bind_returns _ _ (λ r w3, r = inl tt ∧ ∃ d, db_holds self d w3 ∧ committed (stats_ lg) d)).
  { apply wp_attempt. eapply wp_mono; [by eapply Transform_spec, db_holds_same|].
    intros r w3 ([] & -> & kept & new & (Hkept & _) & Hnew & Hdb3). eexists. split; [done|]. split; [done|].
    exists new. split; [done|]. rewrite Hc2 in Hkept.
    destruct (committed_entries lg d kept _ Hst (Hclock 1%nat) Hkept) as (l & Hl & Heq).
    by eapply pruned_committed. }
  intros r w3 (-> & d' & Hd' & Hcom). eexists. split; [reflexivity|]. split; [done|].
  exists d'. split; [|done]. eapply db_holds_same; [|done]. by split.
Qed.

(** Every action keeps the invariant, and [Commit] stores the entry. *)
Lemma act_session a e b lg w :
  in_session e b lg w → e + examples_of a < 2 ^ 63 → b + bytes_of a < 2 ^ 63 → 0 ≤ e → 0 ≤ b →
  wp (act a lg) (returns (λ lg' w', in_session (e + examples_of a) (b + bytes_of a) lg' w' ∧
    (a = Commit → ∃ d, db_holds self d w' ∧ committed (stats_ lg') d))) w.
Proof.
  intros Hin He Hb He0 Hb0. assert (a = Commit ∨ a ≠ Commit) as [-> | Hc] by (destruct a; (by left) || (by right)).
  - pose proof (keeps_CommitToStorage _ later_neutral lg w) as Hlater. pose proof (CommitToStorage_spec _ _ _ _ Hin) as Hs.
    apply wp_returns_run in Hs as (r & w' & Hr & -> & d & Hd & Hcom). rewrite Hr in Hlater.
    unfold wp, act, mbind, M_bind. rewrite Hr. eexists. split; [reflexivity|]. destruct Hin as [Hdb Ht Hf Hds _].
    split; [|by eauto]. simpl. rewrite !Z.add_0_r. split; simpl; try done; [by eapply later_timely|].
    exists d. split; [done|]. exists (stats_ lg). split; [done|]. apply Hcom.
  - destruct Hin as [Hdb Ht Hf Hds (d & Hd & Hst)].
    eapply wp_mono; [by apply act_spec|]. intros r w' (lg' & -> & (Hs & Hl & Hdb' & Hac & Hev) & Hds').
    eexists. split; [done|]. split; [|done]. split; [congruence|by eapply later_timely| |done|].
    + unfold not_outdated, GetLastUpdateTime in *. destruct (adds_event a); [|by rewrite Hev].
      destruct Hev as [kind ->]. rewrite last_snoc. simpl. apply (proj2 Ht).
    + rewrite Hac. exists d. split; [by eapply db_holds_same|done].
Qed.

Lemma examples_of_nonneg a : 0 ≤ examples_of a ∧ 0 ≤ bytes_of a.
Proof. destruct a; simpl; lia. Qed.

Lemma total_nonneg l : 0 ≤ total examples_of l ∧ 0 ≤ total bytes_of l.
Proof. induction l as [|a l IH]; simpl; [done|]. pose proof (examples_of_nonneg a). lia. Qed.

Lemma run_session l e b lg w :
  in_session e b lg w → e + total examples_of l < 2 ^ 63 → b + total bytes_of l < 2 ^ 63 → 0 ≤ e → 0 ≤ b →
  wp (for_each act l lg) (returns (in_session (e + total examples_of l) (b + total bytes_of l))) w.
Proof.
  revert e b lg w. induction l as [|a l IH]; intros e b lg w Hin He Hb He0 Hb0; simpl in *.
  { apply wp_ret_returns. by rewrite !Z.add_0_r. }
  pose proof (examples_of_nonneg a). pose proof (total_nonneg l). eapply wp_bind_returns; [apply (act_session a e b); [done|lia..]|].
  intros lg' w' [Hin' _]. rewrite !Z.add_assoc. apply IH; [done|lia..].
Qed.
End Stored.

(** The time of the last event of an entry, in ticks. *)
Definition last_event_ticks (s : OperationalStats) : option Z :=
  (λ e, seconds (event_timestamp e) * kTicksPerSecond + nanos (event_timestamp e) * kTicksPerNanosecond) <$> last (events s).

Definition valid_timestamp (t : Timestamp) : Prop := in_int64 (seconds t) = true ∧ 0 ≤ nanos t < 10 ^ 9.

(** [keep] tells by the age of an entry, to the second, whether it is kept: [limit]
    is the limit of age. *)
Definition keeps_by_age (limit : Z) (keep : OperationalStats → bool) : Prop :=
  ∀ s, Forall (λ e, valid_timestamp (event_timestamp e)) (events s) →
    match last_event_ticks s with
    | Some x => (limit + kTicksPerSecond ≤ x → keep s = true) ∧ (x < limit → keep s = false)
    | None => keep s = false
    end.

Lemma not_outdated_by_age `{AbslTime} `{!AbslMillis, ProtobufTime} `{L : !AbslTimeLaws _, !AbslMillisLaws _, !ProtobufTimeLaws _}
    (t : Time) (limit : Z) :
  time_ticks t = Some limit → keeps_by_age limit (λ s, bool_decide (not_outdated t s)).
Proof.
  intros Ht s Hs. unfold last_event_ticks.
  assert (Hold : bool_decide (not_outdated t s) = negb (Time_lt (GetLastUpdateTime s) t)).
  { destruct (Time_lt (GetLastUpdateTime s) t) eqn:E; [apply bool_decide_eq_false|apply bool_decide_eq_true];
      unfold not_outdated; by rewrite E. }
  rewrite Hold. unfold GetLastUpdateTime. clear Hold. destruct (last (events s)) as [e|] eqn:He.
  - assert (valid_timestamp (event_timestamp e)) as [Hsec Hnano].
    { rewrite Forall_forall in Hs. apply Hs. apply last_Some in He as [l ->]. set_solver. }
    rewrite TimestampToSeconds_seconds. rewrite (Time_lt_ticks _ _ _ _ (FromUnixSeconds_ticks _ Hsec) Ht).
    cbn [fmap option_fmap option_map]. unfold kTicksPerSecond, kTicksPerNanosecond.
    split; intros Hx; lia.
  - simpl. by rewrite (InfinitePast_lt t limit Ht).
Qed.

(** C25: A transformation of a database that can be read and written succeeds and
    stores, for the next Read, what the function makes of the entries that are
    not too old, in their order, without the oldest entries of the result, as few
    of them as the size limit allows; with at least one entry left, the entries
    fit into the limit. Age is told to the second: an entry stays if its last
    event is a second or more after the limit of age, and goes if its last event
    is before the limit or it has none. The time from which the history can be
    trusted is always stored: it stays as it is when nothing is removed, it is the
    limit of age when entries are too old, and the first event that is left when
    the history is too large. *)
Theorem Transform_result `{AbslTime, ProtoDataStore OpStatsSequence} `{!AbslMillis, ProtobufTime, ByteSize}
    `{L : !AbslTimeLaws _, !AbslMillisLaws _, !ProtobufTimeLaws _, !ByteSizeLaws _, !ProtoDataStoreLaws _}
    (self : PdsBackedOpStatsDb) (func : OpStatsSequence → OpStatsSequence) (data : OpStatsSequence) (limit : Z) (w : World) :
  db_holds self data w → time_ticks (Time_minus (clock w 0%nat) (ttl_ self)) = Some limit →
  ∃ w' keep kept new,
    Transform self func w = (Ok tt, w') ∧ (Read self w').1 = Ok new ∧ db_holds self new w' ∧
    keeps_by_age limit keep ∧ opstats kept = filter (λ s, keep s = true) (opstats data) ∧
    earliest_trustworthy_time kept =
      (if decide (length (opstats kept) < length (opstats data))%nat
       then Some (MillisecondsToTimestamp (ToUnixMillis (Time_minus (clock w 0%nat) (ttl_ self))))
       else earliest_trustworthy_time data) ∧
    pruned (max_size_bytes_ self) (timestamps w 0%nat) (func kept) new ∧
    (opstats new = [] ∨
     sequence_ByteSizeLong {| opstats := opstats new;
                              earliest_trustworthy_time := earliest_trustworthy_time (func kept) |} ≤ max_size_bytes_ self).
Proof.
  intros Hdb Hlimit. apply (Transform_spec self func) in Hdb.
  apply wp_returns_run in Hdb as ([] & w' & Hrun & kept & new & (Hkept & Hsame & Hdiff) & Hnew & Hdb).
  exists w', (λ s, bool_decide (not_outdated (Time_minus (clock w 0%nat) (ttl_ self)) s)), kept, new.
  split_and!; try done; [by apply Read_holds_spec|by apply not_outdated_by_age| | |by eapply pruned_bounded].
  - rewrite Hkept. apply list_filter_iff. intros s. by rewrite bool_decide_eq_true.
  - rewrite Hkept in Hsame, Hdiff |- *. rewrite <- length_filter_lt in Hdiff. case_decide as Hlt; [by apply Hdiff|].
    by apply Hsame, filter_all_kept.
Qed.

(** C24: A session is one entry of the history: a logger that records an event
    and then any events, statistics and commits, in any order, and commits at the
    end, leaves its statistics as the last entry, once, after entries that were
    there before, in their order; only when the history with the entry exceeds
    the size limit can it be missing.  This holds when the database can be read
    and no operation of the store fails, the events of the session are younger
    than the time to live, and the counters of a dataset do not overflow. *)
Theorem session_one_entry `{AbslTime, ProtoDataStore OpStatsSequence} `{!AbslMillis, ProtobufTime, ByteSize}
    `{L : !AbslTimeLaws _} `{!ProtoDataStoreLaws _}
    (self : PdsBackedOpStatsDb) (data : OpStatsSequence) (horizon : Time) (w : World)
    (session population : string) (first : Action) (actions : list Action) :
  db_holds self data w → timely self horizon w → adds_event first = true →
  total examples_of actions < 2 ^ 63 → total bytes_of actions < 2 ^ 63 →
  ∃ lg w' d,
    (lg ← new_OpStatsLoggerImpl self session population; for_each act (first :: actions ++ [Commit]) lg) w = (Ok lg, w') ∧
    db_holds self d w' ∧ committed self data (stats_ lg) d.
Proof.
  intros Hdb Ht Hfirst He Hb.
  set (lg0 := {| db_ := self; stats_ := empty_stats session population; already_committed_ := false |}).
  assert (wp (new_OpStatsLoggerImpl self session population)
    (returns (λ lg w1, lg = lg0 ∧ same_db w w1 ∧ later w w1)) w) as Hnew.
  { eexists. split; [reflexivity|]. split_and!; [done|done|]. split; by exists 0%nat. }
  enough (wp (lg ← new_OpStatsLoggerImpl self session population; for_each act (first :: actions ++ [Commit]) lg)
    (returns (λ lg w', ∃ d, db_holds self d w' ∧ committed self data (stats_ lg) d)) w) as Hwp.
  { apply wp_returns_run in Hwp as (lg & w' & Hrun & d & ?). by exists lg, w', d. }
  eapply wp_bind_returns; [exact Hnew|]. intros lg w1 (-> & Hs1 & Hl1).
  assert (timely self horizon w1) as Ht1 by (by eapply later_timely).
  assert (first ≠ Commit) as Hc by (by intros ->). cbn [for_each].
  eapply wp_bind_returns; [apply (act_spec first lg0 w1 0 0); try done; destruct first; done|].
  intros lg w2 ((Hs2 & Hl2 & Hdb2 & Hac & Hev) & Hds). rewrite Hfirst in Hev. destruct Hev as [kind Hev].
  assert (in_session self data horizon 0 0 lg w2) as Hin.
  { split; [done|by eapply later_timely| |by destruct first|].
    - unfold not_outdated, GetLastUpdateTime. rewrite Hev, last_snoc. apply (proj2 Ht1).
    - rewrite Hac. exists data. split; [|done]. eapply db_holds_same, db_holds_same; done. }
  apply wp_for_each_app. eapply wp_bind_returns; [apply (run_session self data horizon actions 0 0); [done|lia..]|].
  intros lg' w3 Hin'. cbn [for_each]. pose proof (total_nonneg actions).
  eapply wp_bind_returns; [apply (act_session self data horizon Commit); [done|simpl; lia..]|].
  intros lg'' w4 [_ Hcom]. apply wp_ret_returns. by apply Hcom.
Qed.

(** ** Searches *)

Section Searches.
Context `{AbslTime, ProtoDataStore OpStatsSequence} `{!AbslMillis, ProtobufTime, ByteSize}.

Lemma upload_steps_eq l acc :
  foldl upload_step acc l =
  (acc.1 || existsb (λ e, event_type e =? EVENT_KIND_RESULT_UPLOAD_STARTED) l,
   acc.2 || existsb (λ e, event_type e =? EVENT_KIND_RESULT_UPLOAD_SERVER_ABORTED) l).
Proof.
  revert acc. induction l as [|e l IH]; intros [a b]; simpl; [by rewrite !orb_false_r|]. rewrite IH. simpl.
  by repeat case_match; destruct a, b.
Qed.

(** A contribution to a task that the server did not abort. *)
Definition successful (task : string) (s : OperationalStats) : Prop :=
  task_name s = task ∧ has_event EVENT_KIND_RESULT_UPLOAD_STARTED s = true ∧
  has_event EVENT_KIND_RESULT_UPLOAD_SERVER_ABORTED s = false.

#[export] Instance successful_dec task s : Decision (successful task s).
Proof. unfold successful. apply _. Defined.

Lemma last_successful_eq task l : last_successful task l = head (filter (successful task) l).
Proof.
  induction l as [|s l IH]; [done|]. simpl. rewrite upload_steps_eq, filter_cons, IH. simpl.
  fold (has_event EVENT_KIND_RESULT_UPLOAD_STARTED s) (has_event EVENT_KIND_RESULT_UPLOAD_SERVER_ABORTED s).
  case_decide as Hs; case_bool_decide as Ht; unfold successful in Hs; simpl;
    destruct (has_event EVENT_KIND_RESULT_UPLOAD_STARTED s), (has_event EVENT_KIND_RESULT_UPLOAD_SERVER_ABORTED s);
    naive_solver.
Qed.

(** The last successful entry of the history. *)
Lemma GetLastSuccessfulContribution_spec data task :
  GetLastSuccessfulContribution data task = last (filter (successful task) (opstats data)).
Proof.
  unfold GetLastSuccessfulContribution. rewrite last_successful_eq. rewrite <- (reverse_involutive (opstats data)) at 2.
  generalize (reverse (opstats data)). intros l. rewrite filter_reverse, last_reverse. done.
Qed.

(** The entry that is found has the event whose time is asked for. *)
Lemma GetLastSuccessfulContributionTime_Some data task :
  is_Some (GetLastSuccessfulContributionTime data task) ↔ is_Some (GetLastSuccessfulContribution data task).
Proof.
  unfold GetLastSuccessfulContributionTime. destruct (GetLastSuccessfulContribution data task) as [s|] eqn:Hs; [|done].
  rewrite GetLastSuccessfulContribution_spec in Hs. apply last_Some_elem_of, list_elem_of_filter in Hs as [(_ & Hst & _) _].
  unfold has_event in Hst. apply existsb_exists in Hst as (e & He & Hk).
  destruct (List.find _ _) eqn:Hf; [naive_solver|]. by eapply List.find_none in Hf; [rewrite Hk in Hf|].
Qed.
End Searches.

(** ** Examples *)

Section Iterator.
Context `{AbslTime, ProtoDataStore OpStatsSequence} `{!AbslMillis, ProtobufTime, ByteSize, ExampleLibrary}.

(** Calls [Next] until it returns an error, whose code is the second result. *)
Fixpoint drain (fuel : nat) (it : OpStatsExampleIterator) : list string * option StatusCode :=
  match fuel with
  | O => ([], None)
  | S fuel =>
      match Next it with
      | (Ok example, it) => let '(l, c) := drain fuel it in (example :: l, c)
      | (Error c _, _) => ([], Some c)
      | (Crash, _) => ([], None)
      end
  end.

Lemma drain_from l t done rest fuel :
  l = done ++ rest → Z.of_nat (length l) < 2 ^ 31 → (length rest < fuel)%nat →
  drain fuel {| next_ := Z.of_nat (length done); data_ := l; earliest_trustworthy_time_millis_ := t |} =
  ((λ s, CreateExample s t) <$> rest, Some OUT_OF_RANGE).
Proof.
  revert done fuel. induction rest as [|s rest IH]; intros pre fuel Hl Hlen Hfuel; (destruct fuel as [|fuel]; [lia|]).
  - subst l. rewrite app_nil_r in *. cbn [drain]. unfold Next. cbn [next_ data_].
    by rewrite (proj2 (Z.leb_le _ _)), orb_true_r by lia.
  - cbn [drain]. unfold Next. cbn [next_ data_].
    assert (length l = (length pre + S (length rest))%nat) as Hll by (subst l; by rewrite length_app).
    rewrite (proj2 (Z.ltb_ge _ _)), (proj2 (Z.leb_gt _ _)) by lia. cbn [orb].
    rewrite Nat2Z.id, Hl, list_lookup_middle by done. rewrite <- Hl.
    cbn [earliest_trustworthy_time_millis_]. rewrite i32_small by lia.
    replace (Z.of_nat (length pre) + 1) with (Z.of_nat (length (pre ++ [s]))) by (rewrite length_app; simpl; lia).
    rewrite (IH (pre ++ [s])); [done|by rewrite <- app_assoc|done|simpl in *; lia].
Qed.

(** The bounds that criteria ask for. *)
Definition lower_bound (c : OpStatsSelectionCriteria) : Time :=
  match start_time c with Some t => FromUnixMillis (TimestampToMilliseconds t) | None => InfinitePast end.
Definition upper_bound (c : OpStatsSelectionCriteria) : Time :=
  match end_time c with Some t => FromUnixMillis (TimestampToMilliseconds t) | None => InfiniteFuture end.

Lemma read_criteria_ok sel any c w :
  criteria sel = Some any → UnpackTo any = Some c → Time_lt (upper_bound c) (lower_bound c) = false →
  read_criteria sel w = (Ok (lower_bound c, upper_bound c, last_successful_contribution c), w).
Proof.
  intros Hc Hu Hb. unfold read_criteria. rewrite Hc, Hu. fold (lower_bound c) (upper_bound c). by rewrite Hb.
Qed.
End Iterator.

(** For a selector of the collection of operational statistics with valid
    criteria, the iterator yields, newest first, exactly the entries of the
    database whose last event lies within the bounds, or with
    last_successful_contribution the last entry of the current task that
    contributed, if there is one; then Next returns OUT_OF_RANGE. *)
Lemma examples_selected `{AbslTime, ProtoDataStore OpStatsSequence}
    `{!AbslMillis, ProtobufTime, ByteSize, ExampleLibrary} `{!ProtoDataStoreLaws _}
    (lg : OpStatsLoggerImpl) (feature : bool) (sel : ExampleSelector) (any : Any) (c : OpStatsSelectionCriteria)
    (data : OpStatsSequence) (w : World) :
  db_holds (db_ lg) data w → Z.of_nat (length (opstats data)) < 2 ^ 31 →
  CanHandle sel = true → criteria sel = Some any → UnpackTo any = Some c →
  Time_lt (upper_bound c) (lower_bound c) = false → (last_successful_contribution c = true → feature = true) →
  ∃ it w',
    CreateExampleIterator {| op_stats_logger_ := LoggerImpl lg; opstats_last_successful_contribution_criteria_ := feature |}
      sel w = (Ok it, w') ∧
    drain (S (length (opstats data))) it =
      ((λ s, CreateExample s (TimestampToMilliseconds (default default_timestamp (earliest_trustworthy_time data)))) <$>
         (if last_successful_contribution c
          then option_list (last (filter (successful (task_name (stats_ lg))) (opstats data)))
          else filter (within (lower_bound c) (upper_bound c)) (reverse (opstats data))),
       Some OUT_OF_RANGE).
Proof.
  intros Hdb Hlen Hcan Hc Hu Hb Hfeat. set (selected := if last_successful_contribution c then _ else _).
  set (t := TimestampToMilliseconds _).
  assert (length selected ≤ length (opstats data))%nat as Hsel.
  { unfold selected. case_match; [|rewrite <- (length_reverse (opstats data)); apply length_filter].
    destruct (last _) as [s|] eqn:Hs; simpl; [|lia].
    apply last_Some_elem_of, list_elem_of_filter in Hs as [_ Hs]. destruct (opstats data); [by apply not_elem_of_nil in Hs|simpl; lia]. }
  destruct (Read (db_ lg) w) as [r w'] eqn:Hr. pose proof (Read_holds_spec _ _ _ Hdb) as Hr1.
  rewrite Hr in Hr1. simpl in Hr1. subst r.
  exists (new_OpStatsExampleIterator selected t), w'. split.
  2: { apply (drain_from selected t [] selected); [done|lia..]. }
  unfold CreateExampleIterator. unfold CanHandle in Hcan. rewrite Hcan. cbn [negb op_stats_logger_ IsOpStatsEnabled].
  unfold mbind at 1, M_bind at 1. rewrite (read_criteria_ok sel any c) by done. cbn [logger_Read].
  unfold mbind at 1, M_bind at 1. rewrite Hr. unfold selected.
  destruct (last_successful_contribution c); [|done].
  rewrite Hfeat by done. cbn [opstats_last_successful_contribution_criteria_ logger_TaskName].
  rewrite GetLastSuccessfulContribution_spec. done.
Qed.
