(* ===== verification/OpStatsExamples.v ===== *)
(** * Runs of the operational statistics

    Instances of the libraries, and runs of the database, the logger and the
    example iterator on a disk in memory. *)

From S2P Require Import Prelude TimeUtil FileSystem OpStats OpStatsLocks OpStatsStore OpStatsCorrect.
#[local] Open Scope Z_scope.

(** ** Libraries *)

#[export] Instance Ticks_millis : AbslMillis := {|
  InfinitePast := NegInfinite : @Time Ticks;
  InfiniteFuture := PosInfinite;
  Time_minus := sub_ticks;
  Time_eqb := λ t u, bool_decide (t = u);
  FromUnixMillis := λ m, saturate (m * kTicksPerMillisecond);
  ToUnixMillis := λ t, match t with Finite x => x / kTicksPerMillisecond | PosInfinite => 2 ^ 63 - 1 | NegInfinite => - 2 ^ 63 end;
  ToInt64Hours := λ d, (idiv_ticks d (Finite (3600 * kTicksPerSecond))).1;
  ToInt64Milliseconds := λ d, (idiv_ticks d (Finite kTicksPerMillisecond)).1
|}.

#[export] Instance Ticks_millis_laws : AbslMillisLaws Ticks_millis.
Proof.
  split.
  - intros t x Ht. apply finite_ticks_Some in Ht as [-> _]. done.
  - intros t x Ht _. apply finite_ticks_Some in Ht as [-> _]. done.
Qed.

#[export] Instance proto_time : ProtobufTime := {|
  TimestampToSeconds := seconds;
  TimestampToMilliseconds := λ t, seconds t * 1000 + nanos t / 10 ^ 6;
  MillisecondsToTimestamp := λ m, {| seconds := m / 1000; nanos := m mod 1000 * 10 ^ 6 |};
  DurationToMilliseconds := λ d, duration_seconds d * 1000 + Z.quot (duration_nanos d) (10 ^ 6)
|}.

#[export] Instance proto_time_laws : ProtobufTimeLaws proto_time.
Proof.
  split; [done|]. intros m _. simpl. rewrite Z.div_mul by done. pose proof (Z.div_mod m 1000). lia.
Qed.

(** Four bytes per event, ten for the names, and two for the tag and the length of an entry. *)
#[export] Instance small_messages : ByteSize := {|
  stats_ByteSizeLong := λ s, 10 + 4 * Z.of_nat (length (events s));
  sequence_ByteSizeLong := λ d,
    foldr (λ s n, 12 + 4 * Z.of_nat (length (events s)) + n) (if earliest_trustworthy_time d is Some _ then 8 else 0) (opstats d)
|}.

#[export] Instance small_messages_laws : ByteSizeLaws small_messages.
Proof. split; simpl; intros; lia. Qed.

#[export] Instance StatsStore : ProtoDataStore OpStatsSequence := MemoryStore OpStatsSequence.
#[export] Instance StatsStore_laws : ProtoDataStoreLaws StatsStore := MemoryStore_laws OpStatsSequence.

(** An example is encoded as the name of its session. *)
#[export] Instance example_library : ExampleLibrary := {|
  Any := OpStatsSelectionCriteria;
  UnpackTo := Some;
  SerializeAsString := λ f, match f !! kSessionName with Some (BytesList [s]) => s | _ => EmptyString end;
  dataset_order := map_to_list
|}.

#[export] Instance example_library_laws : ExampleLibraryLaws example_library.
Proof. by split. Qed.

(** ** A world *)

Definition second (n : Z) : TickCount := Finite (n * kTicksPerSecond).
Definition at_second (n : Z) : Timestamp := {| seconds := n; nanos := 0 |}.

(** The clocks start at the second [start] and go on by a second, for a thousand readings. *)
Definition readings (start : Z) : nat → @Time Ticks := λ n, second (start + Z.min 1000 (Z.of_nat n)).

Definition world_at (start : Z) (in_memory : option OpStatsSequence) (faults : Op → list (option nat)) : World := {|
  disk := {| tree := {[ [] := Directory ]}; faults := faults; diags := [] |};
  store := in_memory : @Store _ StatsStore;
  clock := readings start;
  timestamps := λ n, at_second (start + Z.of_nat n);
  histograms := [];
  files_in_use := ∅;
  open_files := {[ (1%nat, 0) := {| open_inode := 0; flocked := false |} ]};
  inodes := ∅
|}.

Definition day : TickCount := second 86400.

(** A database of one day and 100 bytes, and the world with it. *)
Definition example_db : PdsBackedOpStatsDb :=
  {| ttl_ := day : @Duration Ticks; max_size_bytes_ := 100; db_path_ := "/data/fcp/opstats/opstats.pb"; fd_ := 1 |}.
Definition with_db : World := (Create 1%nat "/data" (day : @Duration Ticks) 100 (None : @Store _ StatsStore) (world_at 1000000 None (λ _, []))).2.

Example create_database :
  (Create 1%nat "/data" (day : @Duration Ticks) 100 (None : @Store _ StatsStore) (world_at 1000000 None (λ _, []))).1 = Ok example_db.
Proof. reflexivity. Qed.

(** Neither the same process nor another one can open the file again, under any name. *)
Definition error_of {A} (r : Res A) : option (StatusCode * string) :=
  match r with Error c message => Some (c, message) | _ => None end.

Definition open_again (pid : nat) (base_dir : string) : option (StatusCode * string) :=
  error_of (Create pid base_dir (day : @Duration Ticks) 100 (None : @Store _ StatsStore) with_db).1.

Example create_twice :
  [open_again 1%nat "/data"; open_again 1%nat "/data/"; open_again 1%nat "/data/x/.."; open_again 2%nat "/data"] =
  [Some (INTERNAL, "Another instance is already using the underlying database file."%string);
   Some (INTERNAL, "Another instance is already using the underlying database file."%string);
   Some (INTERNAL, "Failed to acquire file lock on the underlying database file."%string);
   Some (INTERNAL, "Failed to acquire file lock on the underlying database file."%string)].
Proof. vm_compute. reflexivity. Qed.

(** When another program removes the file, another process gets a database at the
    same path, on a new file, and both are live. *)
Definition removed : World :=
  with_inodes ∅ (with_disk (with_tree (delete (resolve (path_of (db_path_ example_db))) (tree (disk with_db))) (disk with_db)) with_db).

Example create_after_removal :
  let r := Create 2%nat "/data" (day : @Duration Ticks) 100 (None : @Store _ StatsStore) removed in
  (db_path_ <$> (if r.1 is Ok db then Some db else None), open_inode <$> open_files r.2 !! (1%nat, 1), open_inode <$> open_files r.2 !! (2%nat, 0)) =
  (Some (db_path_ example_db), Some 1%nat, Some 2%nat).
Proof. vm_compute. reflexivity. Qed.

(** ** Witnesses *)

(** One process has the database; another one fails to open it. *)
Definition held : System :=
  {| world := with_db; live := {[ 0%nat := {| owner := 1%nat; handle := example_db; saved := store with_db |} ]} |}.
Definition refused : System :=
  {| world := (Create 2%nat "/data" (day : @Duration Ticks) 100 (None : @Store _ StatsStore) with_db).2; live := live held |}.

Lemma run_pair {A B} (p : A * B) a : p.1 = a → p = (a, p.2).
Proof. destruct p. by intros <-. Qed.

Lemma error_of_Some {A} (r : Res A) c message : error_of r = Some (c, message) → r = Error c message.
Proof. destruct r; simpl; congruence. Qed.

Lemma reach_refused : rtc step {| world := world_at 1000000 None (λ _, []); live := ∅ |} refused.
Proof.
  apply (rtc_l _ _ held).
  - apply (step_Create {| world := world_at 1000000 None (λ _, []); live := ∅ |} 0%nat 1%nat "/data"
      (day : @Duration Ticks) 100 (None : @Store _ StatsStore) example_db with_db); [reflexivity|].
    exact (run_pair _ _ create_database).
  - apply rtc_once. apply (step_Create_fails held 2%nat "/data" (day : @Duration Ticks) 100 (None : @Store _ StatsStore)
      INTERNAL "Failed to acquire file lock on the underlying database file.").
    apply run_pair, error_of_Some. change (open_again 2%nat "/data" =
      Some (INTERNAL, "Failed to acquire file lock on the underlying database file."%string)). vm_compute. reflexivity.
Qed.

Lemma one_database_per_file_witness :
  (1%nat, db_path_ example_db) ∈ files_in_use (world refused) ∧ ¬ (2%nat, db_path_ example_db) ∈ files_in_use (world refused).
Proof.
  destruct (one_database_per_file (world_at 1000000 None (λ _, [])) refused) as (_ & Hin & _).
  - reflexivity.
  - apply map_Forall_singleton. reflexivity.
  - apply reach_refused.
  - split.
    + apply Hin. eexists 0%nat, _. split; [apply lookup_singleton_eq|done].
    + intros (id & l & Hl & Hp & _)%Hin. unfold refused, held in Hl. cbn [live] in Hl.
      apply lookup_singleton_Some in Hl as [_ <-]. done.
Defined.

(** A session with an event at a second. *)
Definition entry (name : string) (n : Z) : OperationalStats :=
  with_events [{| event_type := 7; timestamp := Some (at_second n) |}] (empty_stats name "population").

Definition history : OpStatsSequence :=
  {| opstats := [entry "old" 900000; entry "a" 999990]; earliest_trustworthy_time := Some (at_second 900000) |}.

(** The database has a history. *)
Definition world_with (data : OpStatsSequence) : World := {|
  disk := {| tree := <[resolve (path_of (db_path_ example_db)) := File [1]]> {[ [] := Directory ]};
             faults := λ _, []; diags := [] |};
  store := Some data : @Store _ StatsStore;
  clock := readings 1000000;
  timestamps := λ n, at_second (1000000 + Z.of_nat n);
  histograms := [];
  files_in_use := ∅;
  open_files := ∅;
  inodes := ∅
|}.

Lemma world_with_holds data : db_holds example_db data (world_with data).
Proof. split_and!; [reflexivity|exists [1]; reflexivity|done]. Qed.

Lemma Transform_result_witness :
  ∃ w' new, Transform example_db (append_stats (entry "b" 999999)) (world_with history) = (Ok tt, w') ∧
    (Read example_db w').1 = Ok new.
Proof.
  assert (time_ticks (Time_minus (clock (world_with history) 0%nat) (ttl_ example_db)) =
    Some ((1000000 - 86400) * kTicksPerSecond)) as Hlimit by reflexivity.
  destruct (Transform_result example_db (append_stats (entry "b" 999999)) history ((1000000 - 86400) * kTicksPerSecond)
    (world_with history) (world_with_holds history) Hlimit) as (w' & keep & kept & new & Hrun & Hread & _).
  exists w', new. split; [exact Hrun|exact Hread].
Defined.

(** The names of the sessions in the database after actions of a logger. *)
Definition sessions_after (actions : list Action) : list string :=
  match (lg ← new_OpStatsLoggerImpl example_db "b" "population"; for_each act actions lg;; Read example_db)
          (world_with history) with
  | (Ok data, _) => session_name <$> opstats data
  | _ => []
  end.

(** The entry that is too old goes. *)
Example two_commits : sessions_after [Event_ 7; Commit; Event_ 10; Commit] = ["a"; "b"]%string.
Proof. vm_compute. reflexivity. Qed.

(** A logger that commits before its first event loses the entry of another
    session: its own entry, which has no events, is outdated at the next commit,
    which then overwrites the last entry that is left. *)
Lemma commit_overwrites_other_session : sessions_after [Commit; Event_ 7; Commit] = ["b"]%string.
Proof. vm_compute. reflexivity. Qed.

(** An event at 10.9 s is removed by a limit of age at 10.5 s, since the age of
    an entry is in whole seconds; the history is said to be complete from 10.5 s. *)
Definition event_at_10_9 : OperationalStats :=
  with_events [{| event_type := 7; timestamp := Some {| seconds := 10; nanos := 900000000 |} |}] (empty_stats "c" "population").

Example removed_after_trust :
  let limit := Finite (21 * kTicksPerSecond / 2) in
  bool_decide (not_outdated (limit : @Time Ticks) event_at_10_9) = false ∧
  MillisecondsToTimestamp (ToUnixMillis (limit : @Time Ticks)) = {| seconds := 10; nanos := 500000000 |}.
Proof. split; vm_compute; reflexivity. Qed.

(** Everything that is removed is a day old. *)
Definition horizon : TickCount := second (1000000 + 1000 - 86400).

Lemma world_with_timely data : timely example_db (horizon : @Time Ticks) (world_with data).
Proof.
  split; intros n.
  - unfold horizon, day, second. simpl. unfold saturate.
    replace (in_range _) with true; [simpl; apply Z.ltb_ge; unfold kTicksPerSecond; lia|].
    symmetry. apply in_range_iff. unfold kTicksPerSecond. lia.
  - unfold horizon, second. simpl. unfold saturate. destruct (in_range _) eqn:Hr.
    + simpl. apply Z.ltb_ge. unfold kTicksPerSecond. lia.
    + rewrite (proj2 (Z.ltb_lt 0 _)); [done|]. unfold kTicksPerSecond. lia.
Qed.

Lemma session_one_entry_witness :
  ∃ lg w' d,
    (lg ← new_OpStatsLoggerImpl example_db "b" "population";
     for_each act (Event_ 7 :: [Commit; Dataset "app" 3 100; TaskEvent "task" 9] ++ [Commit]) lg) (world_with history)
    = (Ok lg, w') ∧ db_holds example_db d w' ∧ committed example_db history (stats_ lg) d.
Proof.
  apply (session_one_entry example_db history (horizon : @Time Ticks) (world_with history) "b" "population" (Event_ 7)
    [Commit; Dataset "app" 3 100; TaskEvent "task" 9]).
  - apply world_with_holds.
  - apply world_with_timely.
  - reflexivity.
  - simpl. lia.
  - simpl. lia.
Defined.

(** A logger of the task of the last session, and a selector of a range of times. *)
Definition example_logger : OpStatsLoggerImpl :=
  {| db_ := example_db; stats_ := empty_stats "b" "population"; already_committed_ := false |}.
Definition recent : OpStatsSelectionCriteria :=
  {| start_time := Some (at_second 950000); end_time := None; last_successful_contribution := false |}.

Lemma examples_selected_witness :
  ∃ it w',
    CreateExampleIterator {| op_stats_logger_ := LoggerImpl example_logger; opstats_last_successful_contribution_criteria_ := false |}
      {| collection_uri := kOpStatsCollectionUri; criteria := Some (recent : @Any example_library) |} (world_with history) = (Ok it, w') ∧
    drain 3 it = (["a"%string], Some OUT_OF_RANGE).
Proof.
  destruct (examples_selected example_logger false
    {| collection_uri := kOpStatsCollectionUri; criteria := Some (recent : @Any example_library) |} recent recent history
    (world_with history)) as (it & w' & Hrun & Hdrain).
  - apply world_with_holds.
  - simpl. lia.
  - reflexivity.
  - reflexivity.
  - reflexivity.
  - vm_compute. reflexivity.
  - done.
  - exists it, w'. split; [exact Hrun|]. etransitivity; [exact Hdrain|]. vm_compute. reflexivity.
Defined.
