(* ===== verification/Scheduler.v ===== *)
(** * Schedulers: [base/scheduler.cc]

    [ThreadPoolScheduler] and [WorkerImpl] as a state machine. A critical section
    of a mutex is one step, and so is every effect of a task that runs; the
    steps of the threads and the calls from outside occur in any order. A
    closure is a [Task], the list of what it schedules while it runs. The [trace]
    records what the pool and the workers are asked to do and what they do. *)

From S2P Require Import Prelude.

(** ** Tasks and threads *)

Inductive Task := task (name : Z) (body : list Effect)
with Effect :=
  | ScheduleOnPool (t : Task)
  | ScheduleOnWorker (w : nat) (t : Task).

Definition body (t : Task) : list Effect := match t with task _ effects => effects end.

(** A closure in the queue of the pool: a task, or the closure in which
    [MaybeRunNext] wraps a task of a worker. *)
Inductive Job := Plain (t : Task) | WorkerStep (w : nat) (t : Task).

Definition job_task (j : Job) : Task := match j with Plain t => t | WorkerStep _ t => t end.

(** Where a thread of the pool is in [PerThreadActivity]. *)
Inductive Thread :=
  | Entering                                (** before the mutex at the top of the loop *)
  | Blocked                                 (** asleep in [work_available_cond_var_.Wait] *)
  | Woken                                   (** signalled, about to take the mutex again *)
  | Running (j : Job) (rest : list Effect)  (** in [task()] *)
  | Exited.

Record Worker := { running_ : bool; steps_ : list Task; marker : bool }.

Inductive Event :=
  | Posted (w : nat) (t : Task)   (** [WorkerImpl::Schedule] *)
  | Queued (j : Job)              (** [ThreadPoolScheduler::Schedule] *)
  | Started (j : Job)
  | Finished (j : Job).

Record Pool := {
  threads_ : list Thread;
  todo_ : list Job;
  active_count_ : Z;
  threads_should_join_ : bool;
  workers : list Worker;
  trace : list Event
}.

Definition set_threads (l : list Thread) (s : Pool) : Pool :=
  {| threads_ := l; todo_ := todo_ s; active_count_ := active_count_ s;
     threads_should_join_ := threads_should_join_ s; workers := workers s; trace := trace s |}.
Definition set_todo (q : list Job) (s : Pool) : Pool :=
  {| threads_ := threads_ s; todo_ := q; active_count_ := active_count_ s;
     threads_should_join_ := threads_should_join_ s; workers := workers s; trace := trace s |}.
Definition set_active_count (n : Z) (s : Pool) : Pool :=
  {| threads_ := threads_ s; todo_ := todo_ s; active_count_ := n;
     threads_should_join_ := threads_should_join_ s; workers := workers s; trace := trace s |}.
Definition set_should_join (s : Pool) : Pool :=
  {| threads_ := threads_ s; todo_ := todo_ s; active_count_ := active_count_ s;
     threads_should_join_ := true; workers := workers s; trace := trace s |}.
Definition set_workers (l : list Worker) (s : Pool) : Pool :=
  {| threads_ := threads_ s; todo_ := todo_ s; active_count_ := active_count_ s;
     threads_should_join_ := threads_should_join_ s; workers := l; trace := trace s |}.
Definition log (e : Event) (s : Pool) : Pool :=
  {| threads_ := threads_ s; todo_ := todo_ s; active_count_ := active_count_ s;
     threads_should_join_ := threads_should_join_ s; workers := workers s; trace := trace s ++ [e] |}.

Definition set_thread (i : nat) (th : Thread) (s : Pool) : Pool := set_threads (<[i := th]> (threads_ s)) s.

(** ** The condition variable *)

Definition is_blocked (th : Thread) : bool := match th with Blocked => true | _ => false end.

(** [Signal] wakes one of the sleeping threads, whichever the implementation
    picks: the thread [hint] if it is asleep, else the first one that is. *)
Fixpoint wake_first (l : list Thread) : list Thread :=
  match l with
  | [] => []
  | Blocked :: l => Woken :: l
  | th :: l => th :: wake_first l
  end.

Definition Signal (hint : nat) (l : list Thread) : list Thread :=
  match l !! hint with
  | Some Blocked => <[hint := Woken]> l
  | _ => wake_first l
  end.

Definition SignalAll (l : list Thread) : list Thread :=
  (λ th, if is_blocked th then Woken else th) <$> l.

(** ** [ThreadPoolScheduler] *)

Definition CreateThreadPoolScheduler (thread_count : nat) : Res Pool :=
  FCP_CHECK (0 <? thread_count)%nat ;;
  Ok {| threads_ := replicate thread_count Entering; todo_ := []; active_count_ := Z.of_nat thread_count;
        threads_should_join_ := false; workers := []; trace := [] |}.

Definition Schedule (j : Job) (hint : nat) (s : Pool) : Pool :=
  let s := log (Queued j) (set_todo (todo_ s ++ [j]) s) in
  set_threads (Signal hint (threads_ s)) s.

Definition IdleCondition (s : Pool) : bool :=
  match todo_ s with [] => active_count_ s =? 0 | _ => false end.

(** The destructor up to the joins of the threads. *)
Definition ThreadPoolScheduler_destroy (s : Pool) : Res Pool :=
  FCP_CHECK IdleCondition s ;;
  let s := set_should_join s in
  Ok (set_threads (SignalAll (threads_ s)) s).

(** ** [WorkerImpl] *)

Definition CreateWorker (s : Pool) : Pool :=
  set_workers (workers s ++ [{| running_ := false; steps_ := []; marker := true |}]) s.

Definition MaybeRunNext (w : nat) (hint : nat) (s : Pool) : Pool :=
  match workers s !! w with
  | None => s
  | Some wk =>
      if running_ wk then s
      else match steps_ wk with
           | [] => s
           | t :: rest =>
               Schedule (WorkerStep w t) hint
                 (set_workers (<[w := {| running_ := true; steps_ := rest; marker := marker wk |}]> (workers s)) s)
           end
  end.

(** A worker that does not exist or was destroyed cannot be used. *)
Definition WorkerImpl_Schedule (w : nat) (t : Task) (hint : nat) (s : Pool) : Res Pool :=
  match workers s !! w with
  | None => Crash
  | Some wk =>
      FCP_CHECK marker wk ;;
      Ok (MaybeRunNext w hint (log (Posted w t)
            (set_workers (<[w := {| running_ := running_ wk; steps_ := steps_ wk ++ [t]; marker := true |}]> (workers s)) s)))
  end.

Definition WorkerImpl_destroy (w : nat) (s : Pool) : Pool :=
  match workers s !! w with
  | None => s
  | Some wk => set_workers (<[w := {| running_ := running_ wk; steps_ := steps_ wk; marker := false |}]> (workers s)) s
  end.

(** What the closure of [MaybeRunNext] does after the task it wraps. *)
Definition finish_step (w : nat) (hint : nat) (s : Pool) : Res Pool :=
  match workers s !! w with
  | None => Crash
  | Some wk =>
      FCP_CHECK marker wk ;;
      Ok (MaybeRunNext w hint
            (set_workers (<[w := {| running_ := false; steps_ := steps_ wk; marker := marker wk |}]> (workers s)) s))
  end.

(** ** Steps of a thread *)

(** The loop on the condition variable and what follows it, under the mutex. *)
Definition take_task (i : nat) (s : Pool) : Res Pool :=
  match todo_ s with
  | [] => Ok (set_thread i (if threads_should_join_ s then Exited else Blocked) s)
  | j :: rest =>
      FCP_CHECK negb (threads_should_join_ s) ;;
      Ok (log (Started j) (set_thread i (Running j (body (job_task j)))
            (set_active_count (u64 (active_count_ s + 1)) (set_todo rest s))))
  end.

Definition perform_effect (e : Effect) (hint : nat) (s : Pool) : Res Pool :=
  match e with
  | ScheduleOnPool t => Ok (Schedule (Plain t) hint s)
  | ScheduleOnWorker w t => WorkerImpl_Schedule w t hint s
  end.

Definition finish_job (j : Job) (hint : nat) (s : Pool) : Res Pool :=
  match j with
  | Plain _ => Ok s
  | WorkerStep w _ => finish_step w hint s
  end.

Definition PerThreadActivity (i : nat) (hint : nat) (s : Pool) : Res Pool :=
  match threads_ s !! i with
  | Some Entering => take_task i (set_active_count (u64 (active_count_ s - 1)) s)
  | Some Woken => take_task i s
  | Some (Running j (e :: rest)) => perform_effect e hint (set_thread i (Running j rest) s)
  | Some (Running j []) => finish_job j hint (log (Finished j) (set_thread i Entering s))
  | _ => Ok s
  end.

(** ** Runs *)

Inductive Action :=
  | Step (i : nat) (hint : nat)                   (** a thread of the pool goes on *)
  | SpuriousWakeup (i : nat)                      (** [Wait] returns without a signal *)
  | CallSchedule (t : Task) (hint : nat)          (** calls of other threads *)
  | CallCreateWorker
  | CallWorkerSchedule (w : nat) (t : Task) (hint : nat)
  | CallDestroyWorker (w : nat)
  | CallDestroy.

(** An action of a thread that cannot make it changes nothing. *)
Definition act (a : Action) (s : Pool) : Res Pool :=
  match a with
  | Step i hint => PerThreadActivity i hint s
  | SpuriousWakeup i =>
      match threads_ s !! i with Some Blocked => Ok (set_thread i Woken s) | _ => Ok s end
  | CallSchedule t hint => Ok (Schedule (Plain t) hint s)
  | CallCreateWorker => Ok (CreateWorker s)
  | CallWorkerSchedule w t hint => WorkerImpl_Schedule w t hint s
  | CallDestroyWorker w => Ok (WorkerImpl_destroy w s)
  | CallDestroy => ThreadPoolScheduler_destroy s
  end.

Fixpoint act_all (actions : list Action) (s : Pool) : Res Pool :=
  match actions with
  | [] => Ok s
  | a :: rest => s ← act a s; act_all rest s
  end.

(** The documented obligations of the callers: the pool is idle when it is
    destroyed and not used afterwards, a worker has finished its tasks when it
    is destroyed and is not used afterwards. *)
Definition usable (w : nat) (s : Pool) : bool :=
  match workers s !! w with Some wk => marker wk | None => false end.

Definition allowed (a : Action) (s : Pool) : bool :=
  match a with
  | Step i _ =>
      match threads_ s !! i with
      | Some (Running _ (ScheduleOnWorker w _ :: _)) => usable w s
      | _ => true
      end
  | SpuriousWakeup _ => true
  | CallSchedule _ _ | CallCreateWorker => negb (threads_should_join_ s)
  | CallWorkerSchedule w _ _ => negb (threads_should_join_ s) && usable w s
  | CallDestroyWorker w =>
      match workers s !! w with
      | Some wk => negb (running_ wk) && match steps_ wk with [] => true | _ => false end
      | None => false
      end
  | CallDestroy => IdleCondition s && negb (threads_should_join_ s)
  end.

Fixpoint all_allowed (actions : list Action) (s : Pool) : bool :=
  match actions with
  | [] => true
  | a :: rest => allowed a s && match act a s with Ok s => all_allowed rest s | _ => true end
  end.

Example two_tasks_on_a_worker :
  let a := task 1 [ScheduleOnWorker 0 (task 3 [])] in
  let b := task 2 [] in
  ∃ s, (s ← CreateThreadPoolScheduler 2;
        act_all [CallCreateWorker; CallWorkerSchedule 0 a 0; CallWorkerSchedule 0 b 0;
                 Step 0 0; Step 1 0; Step 0 0; Step 0 0; Step 1 0; Step 0 0; Step 1 0;
                 Step 0 0; Step 0 0; Step 0 0; Step 1 0; Step 1 0; Step 1 0] s) = Ok s ∧
    IdleCondition s = true ∧
    trace s = [Posted 0 a; Queued (WorkerStep 0 a); Posted 0 b; Started (WorkerStep 0 a); Posted 0 (task 3 []);
               Finished (WorkerStep 0 a); Queued (WorkerStep 0 b); Started (WorkerStep 0 b);
               Finished (WorkerStep 0 b); Queued (WorkerStep 0 (task 3 [])); Started (WorkerStep 0 (task 3 []));
               Finished (WorkerStep 0 (task 3 []))].
Proof. eexists. split; [vm_compute; reflexivity|]. split; [vm_compute; reflexivity|]. vm_compute. reflexivity. Qed.
