(* ===== verification/SchedulerCorrect.v ===== *)
(** * Correctness of the schedulers of [base/scheduler.cc]

    Two invariants: [pool_ok] relates the threads to the counter, the queue and
    the condition variable; [work_ok] relates the trace to the queues of the
    pool and the workers. *)

From S2P Require Import Prelude Scheduler.

(** ** What a trace says *)

Definition queued (tr : list Event) : list Job :=
  tr ≫= λ e, match e with Queued j => [j] | _ => [] end.
Definition started (tr : list Event) : list Job :=
  tr ≫= λ e, match e with Started j => [j] | _ => [] end.
Definition finished (tr : list Event) : list Job :=
  tr ≫= λ e, match e with Finished j => [j] | _ => [] end.

(** The tasks posted on a worker, and those among some jobs. *)
Definition posted (w : nat) (tr : list Event) : list Task :=
  tr ≫= λ e, match e with Posted w' t => if decide (w = w') then [t] else [] | _ => [] end.
Definition steps_of (w : nat) (jobs : list Job) : list Task :=
  jobs ≫= λ j, match j with WorkerStep w' t => if decide (w = w') then [t] else [] | Plain _ => [] end.

Inductive Run := Begin (t : Task) | End (t : Task).

(** When the tasks of a worker begin and end. *)
Definition worker_runs (w : nat) (tr : list Event) : list Run :=
  tr ≫= λ e, match e with
             | Started j => Begin <$> steps_of w [j]
             | Finished j => End <$> steps_of w [j]
             | _ => []
             end.

(** Tasks that run one after the other. *)
Definition one_by_one (ts : list Task) : list Run := ts ≫= λ t, [Begin t; End t].

Section Snoc.
Context (tr : list Event) (e : Event) (w : nat).
Lemma queued_snoc : queued (tr ++ [e]) = queued tr ++ queued [e].
Proof. apply bind_app. Qed.
Lemma started_snoc : started (tr ++ [e]) = started tr ++ started [e].
Proof. apply bind_app. Qed.
Lemma finished_snoc : finished (tr ++ [e]) = finished tr ++ finished [e].
Proof. apply bind_app. Qed.
Lemma posted_snoc : posted w (tr ++ [e]) = posted w tr ++ posted w [e].
Proof. apply bind_app. Qed.
Lemma worker_runs_snoc : worker_runs w (tr ++ [e]) = worker_runs w tr ++ worker_runs w [e].
Proof. apply bind_app. Qed.
End Snoc.

Lemma steps_of_app w jobs jobs' : steps_of w (jobs ++ jobs') = steps_of w jobs ++ steps_of w jobs'.
Proof. apply bind_app. Qed.
Lemma steps_of_cons w j jobs : steps_of w (j :: jobs) = steps_of w [j] ++ steps_of w jobs.
Proof. apply (steps_of_app w [j]). Qed.
Lemma one_by_one_app ts ts' : one_by_one (ts ++ ts') = one_by_one ts ++ one_by_one ts'.
Proof. apply bind_app. Qed.
Lemma steps_of_perm w jobs jobs' : jobs ≡ₚ jobs' → steps_of w jobs ≡ₚ steps_of w jobs'.
Proof. intros. by apply bind_Permutation. Qed.
#[export] Instance steps_of_proper w : Proper ((≡ₚ) ==> (≡ₚ)) (steps_of w).
Proof. intros jobs jobs' Hp. by apply steps_of_perm. Qed.

Lemma steps_of_step w w' t : steps_of w [WorkerStep w' t] = if decide (w = w') then [t] else [].
Proof. unfold steps_of. simpl. apply app_nil_r. Qed.
Lemma steps_of_plain w t : steps_of w [Plain t] = [].
Proof. done. Qed.
#[local] Arguments steps_of : simpl never.

(** ** The work of the pool and of its workers *)

Record worker_ok (except : option nat) (tr : list Event) (pending : list Job) (w : nat) (wk : Worker) : Prop := {
  wk_posted : posted w tr = steps_of w (queued tr) ++ steps_ wk;
  wk_drained : except ≠ Some w → running_ wk = false → steps_ wk = [];
  wk_marker : running_ wk = true ∨ steps_ wk ≠ [] → marker wk = true;
  wk_pending : length (steps_of w pending) = if running_ wk then 1%nat else 0%nat
}.

(** [run] are the jobs that the threads run. [except] is a worker whose next task
    is still to be looked for. *)
Record work_ok (except : option nat) (tr : list Event) (run todo : list Job) (ws : list Worker) : Prop := {
  wo_fifo : queued tr = started tr ++ todo;
  wo_started : started tr ≡ₚ finished tr ++ run;
  wo_workers w wk : ws !! w = Some wk → worker_ok except tr (run ++ todo) w wk;
  wo_others w : ws !! w = None → posted w tr = [] ∧ steps_of w (queued tr) = [];
  wo_runs w : worker_runs w tr = one_by_one (steps_of w (finished tr)) ++ (Begin <$> steps_of w run)
}.

Lemma work_ok_None x tr run todo ws : work_ok None tr run todo ws → work_ok x tr run todo ws.
Proof.
  intros [Hf Hs Hw Ho Hr]. split; try done. intros w wk [Hp Hd Hm Hn]%Hw. split; try done. intros _. by apply Hd.
Qed.

(** Of the tasks of a worker at most one is on its way through the pool. *)
Lemma pending_le x tr run todo ws w :
  work_ok x tr run todo ws → (length (steps_of w (run ++ todo)) ≤ 1)%nat.
Proof.
  intros [Hf Hs Hw Ho _]. destruct (ws !! w) as [wk|] eqn:Hwk.
  - rewrite (wk_pending _ _ _ _ _ (Hw _ _ Hwk)). destruct (running_ wk); lia.
  - destruct (Ho w Hwk) as [_ Hq]. rewrite Hf in Hq. apply (f_equal length) in Hq.
    rewrite steps_of_app, length_app, (steps_of_perm w _ _ Hs), steps_of_app, length_app in Hq.
    rewrite steps_of_app, length_app. simpl in Hq. lia.
Qed.

(** The jobs that run matter only as a multiset. *)
Lemma work_ok_perm x tr run run' todo ws :
  run ≡ₚ run' → work_ok x tr run todo ws → work_ok x tr run' todo ws.
Proof.
  intros Hp Hok. pose proof (λ w, pending_le _ _ _ _ _ w Hok) as Hle. destruct Hok as [Hf Hs Hw Ho Hr]. split; try done.
  - by rewrite Hs, Hp.
  - intros w wk [H1 H2 H3 H4]%Hw. split; try done. rewrite <- H4. by rewrite Hp.
  - intros w. rewrite Hr. do 2 f_equal. specialize (Hle w). rewrite steps_of_app, length_app in Hle.
    pose proof (steps_of_perm w _ _ Hp) as Hpw.
    destruct (steps_of w run) as [|t [|]]; [by apply Permutation_nil_l in Hpw| |simpl in Hle; lia].
    by apply Permutation_singleton_l in Hpw.
Qed.

Lemma work_ok_queue_plain x t tr run todo ws :
  work_ok x tr run todo ws → work_ok x (tr ++ [Queued (Plain t)]) run (todo ++ [Plain t]) ws.
Proof.
  intros [Hf Hs Hw Ho Hr]. split.
  - rewrite queued_snoc, started_snoc, Hf. simpl. by rewrite app_nil_r, (assoc_L (++)).
  - rewrite started_snoc, finished_snoc, Hs. simpl. by rewrite !app_nil_r.
  - intros w wk [H1 H2 H3 H4]%Hw. split; try done.
    + rewrite posted_snoc, queued_snoc, steps_of_app. simpl. by rewrite !app_nil_r.
    + by rewrite (assoc_L (++)), steps_of_app, length_app, H4, Nat.add_0_r.
  - intros w [H1 H2]%Ho. rewrite posted_snoc, queued_snoc, steps_of_app, H1, H2. done.
  - intros w. rewrite worker_runs_snoc, finished_snoc, Hr. simpl. by rewrite !app_nil_r.
Qed.

Lemma work_ok_start x j tr run todo ws :
  work_ok x tr run (j :: todo) ws → work_ok x (tr ++ [Started j]) (j :: run) todo ws.
Proof.
  intros Hok. pose proof (λ w, pending_le _ _ _ _ _ w Hok) as Hle. destruct Hok as [Hf Hs Hw Ho Hr]. split.
  - rewrite queued_snoc, started_snoc, Hf. simpl. by rewrite app_nil_r, <- (assoc_L (++)).
  - rewrite started_snoc, finished_snoc, Hs. simpl. rewrite app_nil_r. solve_Permutation.
  - intros w wk [H1 H2 H3 H4]%Hw. split; try done.
    + rewrite posted_snoc, queued_snoc. simpl. by rewrite !app_nil_r.
    + rewrite <- H4. apply Permutation_length, steps_of_perm. solve_Permutation.
  - intros w [H1 H2]%Ho. rewrite posted_snoc, queued_snoc, H1. simpl. by rewrite app_nil_r.
  - intros w. rewrite worker_runs_snoc, finished_snoc, Hr. simpl. rewrite !app_nil_r, <- (assoc_L (++)).
    f_equal. specialize (Hle w). rewrite steps_of_app, (steps_of_cons w j todo), !length_app in Hle.
    rewrite (steps_of_cons w j run), <- fmap_app.
    destruct (steps_of w [j]), (steps_of w run); simpl in *; rewrite ?app_nil_r; try done; lia.
Qed.

Lemma work_ok_finish_plain x t tr run todo ws :
  work_ok x tr (Plain t :: run) todo ws → work_ok x (tr ++ [Finished (Plain t)]) run todo ws.
Proof.
  intros [Hf Hs Hw Ho Hr]. split.
  - rewrite queued_snoc, started_snoc, Hf. simpl. by rewrite !app_nil_r.
  - rewrite started_snoc, finished_snoc, Hs. simpl. rewrite app_nil_r. solve_Permutation.
  - intros w wk [H1 H2 H3 H4]%Hw. split; try done.
    rewrite posted_snoc, queued_snoc. simpl. by rewrite !app_nil_r.
  - intros w [H1 H2]%Ho. rewrite posted_snoc, queued_snoc, H1. simpl. by rewrite app_nil_r.
  - intros w. rewrite worker_runs_snoc, finished_snoc, Hr, steps_of_app. simpl. by rewrite !app_nil_r.
Qed.

Lemma work_ok_finish_step w t tr run todo ws :
  work_ok None tr (WorkerStep w t :: run) todo ws →
  ∃ wk, ws !! w = Some wk ∧ marker wk = true ∧
    work_ok (Some w) (tr ++ [Finished (WorkerStep w t)]) run todo
      (<[w := {| running_ := false; steps_ := steps_ wk; marker := marker wk |}]> ws).
Proof.
  intros Hok. pose proof (λ w, pending_le _ _ _ _ _ w Hok) as Hle. destruct Hok as [Hf Hs Hw Ho Hr].
  assert (steps_of w run = [] ∧ steps_of w todo = []) as [Hrun Htodo].
  { specialize (Hle w). rewrite <- app_comm_cons, steps_of_cons, steps_of_step, decide_True, steps_of_app, !length_app in Hle by done.
    simpl in Hle. split; apply nil_length_inv; lia. }
  destruct (ws !! w) as [wk|] eqn:Hwk; last first.
  { exfalso. destruct (Ho w Hwk) as [_ Hq]. rewrite Hf in Hq. apply (f_equal length) in Hq.
    rewrite steps_of_app, length_app, (steps_of_perm w _ _ Hs), steps_of_app, steps_of_cons, steps_of_step,
      decide_True, !length_app in Hq by done. simpl in Hq. lia. }
  pose proof (Hw _ _ Hwk) as [Hp Hd Hm Hn].
  rewrite <- app_comm_cons, steps_of_cons, steps_of_step, decide_True, steps_of_app, Hrun, Htodo in Hn by done. simpl in Hn.
  destruct (running_ wk) eqn:Hrk; [|done]. exists wk.
  split_and!; [done|apply Hm; by left|]. split.
  - rewrite queued_snoc, started_snoc, Hf. simpl. by rewrite !app_nil_r.
  - rewrite started_snoc, finished_snoc, Hs. simpl. rewrite app_nil_r. solve_Permutation.
  - intros w' wk'. rewrite list_lookup_insert_Some. intros [(<- & <- & _)|[Hne Hw']].
    + split; simpl; try done.
      * rewrite posted_snoc, queued_snoc. simpl. by rewrite !app_nil_r.
      * intros _. apply Hm. by left.
      * by rewrite steps_of_app, Hrun, Htodo.
    + destruct (Hw _ _ Hw') as [H1 H2 H3 H4]. split; [|intros _; by apply H2|done|].
      * rewrite posted_snoc, queued_snoc. simpl. by rewrite !app_nil_r.
      * by rewrite <- app_comm_cons, steps_of_cons, steps_of_step, decide_False in H4 by done.
  - intros w'. rewrite list_lookup_insert_None. intros [H1 H2]%Ho.
    rewrite posted_snoc, queued_snoc, H1. simpl. by rewrite app_nil_r.
  - intros w'. rewrite worker_runs_snoc, finished_snoc, Hr, (steps_of_app _ (finished tr)), one_by_one_app,
      <- !(assoc_L (++)). f_equal. rewrite (steps_of_cons w' _ run). simpl.
    rewrite !app_nil_r, !steps_of_step. destruct (decide (w' = w)) as [->|]; simpl; [by rewrite Hrun|by rewrite app_nil_r].
Qed.

(** [MaybeRunNext] when the worker has a task to run. *)
Lemma work_ok_queue_step w t rest wk tr run todo ws :
  work_ok (Some w) tr run todo ws → ws !! w = Some wk → running_ wk = false → steps_ wk = t :: rest →
  work_ok None (tr ++ [Queued (WorkerStep w t)]) run (todo ++ [WorkerStep w t])
    (<[w := {| running_ := true; steps_ := rest; marker := marker wk |}]> ws).
Proof.
  intros [Hf Hs Hw Ho Hr] Hwk Hrk Hst. split.
  - rewrite queued_snoc, started_snoc, Hf. simpl. by rewrite app_nil_r, (assoc_L (++)).
  - rewrite started_snoc, finished_snoc, Hs. simpl. by rewrite !app_nil_r.
  - intros w' wk'. rewrite list_lookup_insert_Some. intros [(<- & <- & _)|[Hne Hw']].
    + pose proof (Hw _ _ Hwk) as [Hp Hd Hm Hn]. rewrite Hrk in Hn. split; simpl; try done.
      * rewrite posted_snoc, queued_snoc, Hp, Hst, steps_of_app. simpl.
        by rewrite app_nil_r, steps_of_step, decide_True, <- (assoc_L (++)).
      * intros _. apply Hm. right. by rewrite Hst.
      * by rewrite (assoc_L (++)), steps_of_app, length_app, Hn, steps_of_step, decide_True.
    + destruct (Hw _ _ Hw') as [H1 H2 H3 H4]. split; [|intros _; apply H2; congruence|done|].
      * rewrite posted_snoc, queued_snoc, H1, steps_of_app. simpl.
        by rewrite app_nil_r, steps_of_step, decide_False, app_nil_r by done.
      * by rewrite (assoc_L (++)), steps_of_app, length_app, H4, steps_of_step, decide_False, Nat.add_0_r by done.
  - intros w'. rewrite list_lookup_insert_None. intros Hw'. destruct (Ho _ Hw') as [H1 H2].
    assert (w' ≠ w) by congruence.
    rewrite posted_snoc, queued_snoc, H1, steps_of_app, H2. simpl. by rewrite steps_of_step, decide_False.
  - intros w'. rewrite worker_runs_snoc, finished_snoc, Hr. simpl. by rewrite !app_nil_r.
Qed.

Lemma work_ok_idle_worker w wk tr run todo ws :
  work_ok (Some w) tr run todo ws → ws !! w = Some wk → running_ wk = true ∨ steps_ wk = [] →
  work_ok None tr run todo ws.
Proof.
  intros [Hf Hs Hw Ho Hr] Hwk Hidle. split; try done. intros w' wk' Hw'.
  pose proof (Hw _ _ Hw') as [H1 H2 H3 H4]. split; try done. intros _ Hr'.
  destruct (decide (w' = w)) as [->|]; [|by apply H2; [congruence|]].
  simplify_eq. by destruct Hidle; [congruence|].
Qed.

Lemma work_ok_post w t wk tr run todo ws :
  work_ok None tr run todo ws → ws !! w = Some wk → marker wk = true →
  work_ok (Some w) (tr ++ [Posted w t]) run todo
    (<[w := {| running_ := running_ wk; steps_ := steps_ wk ++ [t]; marker := true |}]> ws).
Proof.
  intros [Hf Hs Hw Ho Hr] Hwk Hmk. split.
  - rewrite queued_snoc, started_snoc, Hf. simpl. by rewrite !app_nil_r.
  - rewrite started_snoc, finished_snoc, Hs. simpl. by rewrite !app_nil_r.
  - intros w' wk'. rewrite list_lookup_insert_Some. intros [(<- & <- & _)|[Hne Hw']].
    + pose proof (Hw _ _ Hwk) as [Hp Hd Hm Hn]. split; simpl; [|by intros []|done..].
      rewrite posted_snoc, queued_snoc, Hp. simpl. by rewrite !app_nil_r, decide_True, <- (assoc_L (++)).
    + destruct (Hw _ _ Hw') as [H1 H2 H3 H4]. split; [|intros _; by apply H2|done..].
      rewrite posted_snoc, queued_snoc, H1. simpl. by rewrite decide_False, !app_nil_r by done.
  - intros w'. rewrite list_lookup_insert_None. intros Hw'. destruct (Ho _ Hw') as [H1 H2].
    assert (w' ≠ w) by congruence.
    rewrite posted_snoc, queued_snoc, H1. simpl. by rewrite !app_nil_r, decide_False.
  - intros w'. rewrite worker_runs_snoc, finished_snoc, Hr. simpl. by rewrite !app_nil_r.
Qed.

Lemma work_ok_destroy w wk tr run todo ws :
  work_ok None tr run todo ws → ws !! w = Some wk → running_ wk = false → steps_ wk = [] →
  work_ok None tr run todo (<[w := {| running_ := running_ wk; steps_ := steps_ wk; marker := false |}]> ws).
Proof.
  intros [Hf Hs Hw Ho Hr] Hwk Hrk Hst. split; try done.
  - intros w' wk'. rewrite list_lookup_insert_Some. intros [(<- & <- & _)|[Hne Hw']]; [|by apply Hw].
    destruct (Hw _ _ Hwk) as [Hp Hd Hm Hn]. split; simpl; try done. rewrite Hrk, Hst. by intros [?|?].
  - intros w'. rewrite list_lookup_insert_None. by apply Ho.
Qed.

Lemma work_ok_create tr run todo ws :
  work_ok None tr run todo ws →
  work_ok None tr run todo (ws ++ [{| running_ := false; steps_ := []; marker := true |}]).
Proof.
  intros [Hf Hs Hw Ho Hr]. split; try done.
  - intros w wk. rewrite lookup_app_Some, list_lookup_singleton_Some.
    intros [?|(? & Hlen & <-)]; [by apply Hw|].
    assert (ws !! w = None) as Hnone by (apply lookup_ge_None; lia).
    destruct (Ho w Hnone) as [Hp Hq]. split; simpl; try done; [by rewrite Hp, Hq|].
    rewrite Hf in Hq. apply (f_equal length) in Hq.
    rewrite steps_of_app, length_app, Hs, steps_of_app, length_app in Hq. rewrite steps_of_app, length_app.
    simpl in Hq. lia.
  - intros w. rewrite lookup_ge_None, length_app. simpl. intros. apply Ho, lookup_ge_None. lia.
Qed.

(** ** The threads of the pool *)

Definition active (th : Thread) : nat := match th with Entering | Running _ _ => 1 | _ => 0 end.
Definition asleep (th : Thread) : nat := match th with Blocked => 1 | _ => 0 end.
Definition woken (th : Thread) : nat := match th with Woken => 1 | _ => 0 end.
Definition exited (th : Thread) : nat := match th with Exited => 1 | _ => 0 end.
Definition job_of (th : Thread) : list Job := match th with Running j _ => [j] | _ => [] end.
Definition running_jobs (l : list Thread) : list Job := l ≫= job_of.

Abbreviation count f s := (sum_list_with f (threads_ s)).

Lemma sum_insert {A} (f : A → nat) l i x y :
  l !! i = Some x → (sum_list_with f (<[i := y]> l) + f x = sum_list_with f l + f y)%nat.
Proof.
  revert i. induction l as [|z l IH]; intros [|i] Hi; simplify_eq/=; [lia|]. specialize (IH _ Hi). lia.
Qed.

Lemma running_jobs_insert l i th th' :
  l !! i = Some th → job_of th ++ running_jobs (<[i := th']> l) ≡ₚ job_of th' ++ running_jobs l.
Proof.
  revert i. induction l as [|z l IH]; intros [|i] Hi; simplify_eq/=; [solve_Permutation|].
  specialize (IH _ Hi). unfold running_jobs in *. simpl.
  rewrite (Permutation_app_swap_app (job_of th)), IH, Permutation_app_swap_app. done.
Qed.

Lemma running_jobs_same l i th th' :
  l !! i = Some th → job_of th = job_of th' → running_jobs (<[i := th']> l) ≡ₚ running_jobs l.
Proof. intros Hi Hj. eapply (Permutation_app_inv_l (job_of th)). rewrite running_jobs_insert by done. by rewrite Hj. Qed.

(** What [Signal] does. *)
Lemma wake_first_spec l :
  (wake_first l = l ∧ sum_list_with asleep l = 0%nat) ∨ ∃ i, l !! i = Some Blocked ∧ wake_first l = <[i := Woken]> l.
Proof.
  induction l as [|th l IH]; [by left|].
  destruct th; simpl; try (destruct IH as [[-> ->]|(i & ? & ->)]; [by left|right; by exists (S i)]).
  right. by exists 0%nat.
Qed.

Lemma Signal_spec hint l :
  (Signal hint l = l ∧ sum_list_with asleep l = 0%nat) ∨ ∃ i, l !! i = Some Blocked ∧ Signal hint l = <[i := Woken]> l.
Proof.
  unfold Signal. destruct (l !! hint) as [[]|] eqn:Hi; try apply wake_first_spec. right. by exists hint.
Qed.

Lemma length_Signal hint l : length (Signal hint l) = length l.
Proof. destruct (Signal_spec hint l) as [[-> _]|(i & _ & ->)]; [done|]. by rewrite length_insert. Qed.

Lemma running_jobs_Signal hint l : running_jobs (Signal hint l) ≡ₚ running_jobs l.
Proof. destruct (Signal_spec hint l) as [[-> _]|(i & Hi & ->)]; [done|]. by eapply running_jobs_same. Qed.

Record pool_ok (s : Pool) : Prop := {
  po_size : 0 < Z.of_nat (length (threads_ s)) < 2 ^ 64;
  po_active : active_count_ s = Z.of_nat (count active s);
  (** No wakeup is lost: unless every thread is awake, enough of them are on
      their way to take the tasks that wait. *)
  po_awake : count asleep s = 0%nat ∨ (length (todo_ s) ≤ count woken s)%nat;
  po_join : threads_should_join_ s = true → todo_ s = [] ∧ count active s = 0%nat ∧ count asleep s = 0%nat;
  po_exited : threads_should_join_ s = false → count exited s = 0%nat
}.

Lemma pool_ok_Schedule j hint s :
  pool_ok s → threads_should_join_ s = false → pool_ok (Schedule j hint s).
Proof.
  intros [Hsz Ha Hw Hj He] Hn. unfold Schedule, log, set_todo, set_threads. split; simpl.
  - by rewrite length_Signal.
  - rewrite Ha. destruct (Signal_spec hint (threads_ s)) as [[-> _]|(i & Hi & ->)]; [done|].
    pose proof (sum_insert active _ _ _ Woken Hi). simpl in *. lia.
  - rewrite length_app. simpl. destruct (Signal_spec hint (threads_ s)) as [[-> ->]|(i & Hi & ->)]; [by left|].
    pose proof (sum_insert asleep _ _ _ Woken Hi). pose proof (sum_insert woken _ _ _ Woken Hi). simpl in *. lia.
  - congruence.
  - intros _. destruct (Signal_spec hint (threads_ s)) as [[-> _]|(i & Hi & ->)]; [by apply He|].
    pose proof (sum_insert exited _ _ _ Woken Hi). specialize (He Hn). simpl in *. lia.
Qed.

(** A thread that changes to a state that counts alike. *)
Lemma pool_ok_same i th th' s :
  pool_ok s → threads_ s !! i = Some th →
  active th = active th' → asleep th = asleep th' → woken th = woken th' → exited th = exited th' →
  pool_ok (set_thread i th' s).
Proof.
  intros [Hsz Ha Hw Hj He] Hi H1 H2 H3 H4. unfold set_thread, set_threads.
  pose proof (sum_insert active _ _ _ th' Hi). pose proof (sum_insert asleep _ _ _ th' Hi).
  pose proof (sum_insert woken _ _ _ th' Hi). pose proof (sum_insert exited _ _ _ th' Hi).
  split; simpl; [by rewrite length_insert|lia|lia| |].
  - intros (? & ? & ?)%Hj. split_and!; [done|lia..].
  - intros ?%He. lia.
Qed.

Lemma sum_pos {A} (f : A → nat) l i x : l !! i = Some x → (f x ≤ sum_list_with f l)%nat.
Proof. revert i. induction l as [|z l IH]; intros [|i] Hi; simplify_eq/=; [lia|]. specialize (IH _ Hi). lia. Qed.

Lemma sum_le_length {A} (f : A → nat) l : (∀ x, f x ≤ 1)%nat → (sum_list_with f l ≤ length l)%nat.
Proof. intros Hf. induction l as [|x l IH]; simpl; [lia|]. specialize (Hf x). lia. Qed.

(** ** Every step keeps the invariant *)

Definition inv (s : Pool) : Prop :=
  pool_ok s ∧ work_ok None (trace s) (running_jobs (threads_ s)) (todo_ s) (workers s).

Lemma create_inv n s : Z.of_nat n < 2 ^ 64 → CreateThreadPoolScheduler n = Ok s → inv s.
Proof.
  unfold CreateThreadPoolScheduler. intros Hn [Hpos%Nat.ltb_lt [= <-]]%fcp_check_ok.
  assert (∀ f, f Entering = 0%nat → sum_list_with f (replicate n Entering) = 0%nat) as H0.
  { intros f Hf. clear Hpos Hn. induction n; simpl; rewrite ?Hf; auto. }
  split; split; simpl.
  - rewrite length_replicate. lia.
  - f_equal. clear. induction n; simpl; lia.
  - left. by apply H0.
  - done.
  - intros _. by apply H0.
  - done.
  - by assert (running_jobs (replicate n Entering) = []) as -> by (clear; induction n; done).
  - done.
  - done.
  - intros w. by assert (running_jobs (replicate n Entering) = []) as -> by (clear; induction n; done).
Qed.

Lemma Schedule_plain_inv t hint s : inv s → threads_should_join_ s = false → inv (Schedule (Plain t) hint s).
Proof.
  intros [Hp Hw] Hn. split; [by apply pool_ok_Schedule|]. simpl.
  eapply work_ok_perm; [symmetry; apply running_jobs_Signal|]. by apply work_ok_queue_plain.
Qed.

Lemma MaybeRunNext_inv w wk hint s :
  pool_ok s → threads_should_join_ s = false → workers s !! w = Some wk →
  work_ok (Some w) (trace s) (running_jobs (threads_ s)) (todo_ s) (workers s) → inv (MaybeRunNext w hint s).
Proof.
  intros Hp Hn Hwk Hw. unfold MaybeRunNext. rewrite Hwk.
  destruct (running_ wk) eqn:Hr; [by split; [|eapply work_ok_idle_worker; [..|left]]|].
  destruct (steps_ wk) as [|t rest] eqn:Hs; [by split; [|eapply work_ok_idle_worker; [..|right]]|].
  split; [apply pool_ok_Schedule; [|done]; by destruct Hp|]. simpl.
  eapply work_ok_perm; [symmetry; apply running_jobs_Signal|]. by apply work_ok_queue_step.
Qed.

Lemma WorkerImpl_Schedule_inv w t hint s :
  inv s → threads_should_join_ s = false → usable w s = true →
  ∃ s', WorkerImpl_Schedule w t hint s = Ok s' ∧ inv s'.
Proof.
  intros [Hp Hw] Hn. unfold usable, WorkerImpl_Schedule. destruct (workers s !! w) as [wk|] eqn:Hwk; [|done].
  intros Hm. rewrite Hm. eexists. split; [done|]. eapply MaybeRunNext_inv; simpl.
  - by destruct Hp.
  - done.
  - apply list_lookup_insert_eq. by eapply lookup_lt_Some.
  - by apply work_ok_post.
Qed.

Lemma take_task_inv i th s :
  inv s → threads_ s !! i = Some th → th = Woken ∨ th = Entering →
  ∃ s', take_task i (set_active_count (u64 (active_count_ s - Z.of_nat (active th))) s) = Ok s' ∧ inv s'.
Proof.
  intros [[Hsz Ha Haw Hj He] Hw] Hi Hth. unfold take_task. simpl.
  pose proof (sum_pos active _ _ _ Hi) as Hpos.
  assert (count active s ≤ length (threads_ s))%nat by (apply sum_le_length; intros []; simpl; lia).
  rewrite u64_small by lia.
  assert (running_jobs (<[i := Blocked]> (threads_ s)) ≡ₚ running_jobs (threads_ s)) as Hb.
  { eapply running_jobs_same; [done|]. by destruct Hth as [-> | ->]. }
  destruct (todo_ s) as [|j rest] eqn:Htodo.
  - eexists. split; [done|]. split; simpl; rewrite ?Htodo; last first.
    { eapply work_ok_perm; [symmetry; eapply running_jobs_same; [done|]|done].
      destruct (threads_should_join_ s); by destruct Hth as [-> | ->]. }
    set (th' := if threads_should_join_ s then Exited else Blocked).
    pose proof (sum_insert active _ _ _ th' Hi). pose proof (sum_insert asleep _ _ _ th' Hi).
    pose proof (sum_insert exited _ _ _ th' Hi).
    destruct Hth as [-> | ->]; destruct (threads_should_join_ s) eqn:Hn; subst th';
      (destruct (Hj eq_refl) as (_ & ? & ?) || clear Hj); (specialize (He eq_refl) || clear He);
      split; simpl in *; rewrite ?length_insert, ?Htodo; try done; simpl in *; try lia;
      intros; first [congruence|split_and!; done || lia].
  - destruct (threads_should_join_ s) eqn:Hn; [by destruct (Hj eq_refl)|]. simpl. eexists. split; [done|].
    set (th' := Running j (body (job_task j))).
    pose proof (sum_insert active _ _ _ th' Hi). pose proof (sum_insert asleep _ _ _ th' Hi).
    pose proof (sum_insert woken _ _ _ th' Hi). pose proof (sum_insert exited _ _ _ th' Hi).
    assert (sum_list_with active (<[i := th']> (threads_ s)) ≤ length (threads_ s))%nat.
    { erewrite <- length_insert. apply sum_le_length. intros []; simpl; lia. }
    specialize (He eq_refl). simpl in *.
    split; [destruct Hth as [-> | ->]; split; simpl in *; rewrite ?length_insert; rewrite ?u64_small by lia; congruence || lia|].
    simpl. eapply (work_ok_perm _ _ (j :: running_jobs (threads_ s))); [|by apply work_ok_start].
    symmetry. pose proof (running_jobs_insert _ _ _ th' Hi) as Hrj. by destruct Hth as [-> | ->].
Qed.

Lemma running_not_joined i j rest s :
  pool_ok s → threads_ s !! i = Some (Running j rest) → threads_should_join_ s = false.
Proof.
  intros [_ _ _ Hj _] Hi. apply not_true_is_false. intros (_ & Ha & _)%Hj.
  pose proof (sum_pos active _ _ _ Hi). simpl in *. lia.
Qed.

Lemma finish_job_inv i j hint s :
  inv s → threads_ s !! i = Some (Running j []) →
  ∃ s', finish_job j hint (log (Finished j) (set_thread i Entering s)) = Ok s' ∧ inv s'.
Proof.
  intros [Hp Hw] Hi. pose proof (running_not_joined _ _ _ _ Hp Hi) as Hn.
  pose proof (pool_ok_same _ _ Entering _ Hp Hi eq_refl eq_refl eq_refl eq_refl) as Hp'.
  apply (work_ok_perm _ _ _ (j :: running_jobs (<[i := Entering]> (threads_ s)))) in Hw;
    [|by rewrite (running_jobs_insert _ _ _ Entering Hi)].
  destruct j as [t|w t]; simpl.
  - eexists. split; [done|]. split; [by destruct Hp'|]. simpl. by apply work_ok_finish_plain.
  - apply work_ok_finish_step in Hw as (wk & Hwk & Hm & Hw). unfold finish_step. simpl. rewrite Hwk, Hm. simpl.
    eexists. split; [done|]. eapply MaybeRunNext_inv; simpl; [by destruct Hp'|done| |by rewrite Hm in Hw].
    apply list_lookup_insert_eq. by eapply lookup_lt_Some.
Qed.

Lemma PerThreadActivity_inv i hint s :
  inv s → allowed (Step i hint) s = true → ∃ s', PerThreadActivity i hint s = Ok s' ∧ inv s'.
Proof.
  intros Hinv. unfold PerThreadActivity. simpl. destruct (threads_ s !! i) as [th|] eqn:Hi; [|by eauto].
  destruct th as [| | |j [|e rest]|]; intros Hal; try by eauto.
  - by destruct (take_task_inv _ _ _ Hinv Hi (or_intror eq_refl)) as (s' & Hs & ?); eauto.
  - destruct (take_task_inv _ _ _ Hinv Hi (or_introl eq_refl)) as (s' & Hs & ?). exists s'. split; [|done].
    rewrite <- Hs. f_equal. destruct Hinv as [[Hsz Ha _ _ _] _].
    assert (count active s ≤ length (threads_ s))%nat by (apply sum_le_length; intros []; simpl; lia).
    destruct s. simpl in *. unfold set_active_count. simpl. f_equal. rewrite Z.sub_0_r, u64_small; lia.
  - by apply finish_job_inv.
  - destruct Hinv as [Hp Hw]. pose proof (running_not_joined _ _ _ _ Hp Hi) as Hn.
    assert (inv (set_thread i (Running j rest) s)) as Hinv.
    { split; [by eapply pool_ok_same|]. simpl.
      eapply work_ok_perm; [symmetry; by eapply running_jobs_same|]. done. }
    destruct e as [t|w t]; simpl; [|by apply WorkerImpl_Schedule_inv].
    eexists. split; [done|]. by apply Schedule_plain_inv.
Qed.

Lemma SignalAll_sums l :
  sum_list_with active (SignalAll l) = sum_list_with active l ∧ sum_list_with asleep (SignalAll l) = 0%nat ∧
  running_jobs (SignalAll l) = running_jobs l.
Proof.
  unfold running_jobs, SignalAll. induction l as [|th l (IH1 & IH2 & IH3)]; [done|].
  rewrite fmap_cons, !bind_cons, IH3. cbn [sum_list_with]. rewrite IH1, IH2. by destruct th.
Qed.

Lemma act_inv a s : inv s → allowed a s = true → ∃ s', act a s = Ok s' ∧ inv s'.
Proof.
  intros Hinv Hal. destruct a as [i hint|i|t hint| |w t hint|w|]; simpl in *.
  - by apply PerThreadActivity_inv.
  - destruct (threads_ s !! i) as [[]|] eqn:Hi; try by eauto.
    eexists. split; [done|]. destruct Hinv as [[Hsz Ha Haw Hj He] Hw].
    split; [|eapply work_ok_perm; [symmetry; by eapply running_jobs_same|]; done].
    pose proof (sum_insert active _ _ _ Woken Hi). pose proof (sum_insert asleep _ _ _ Woken Hi).
    pose proof (sum_insert woken _ _ _ Woken Hi). pose proof (sum_insert exited _ _ _ Woken Hi).
    split; simpl in *; [by rewrite length_insert|lia|lia| |].
    + intros (? & ? & ?)%Hj. split_and!; [done|lia..].
    + intros ?%He. lia.
  - eexists. split; [done|]. apply Schedule_plain_inv; [done|]. by apply negb_true_iff.
  - eexists. split; [done|]. destruct Hinv as [Hp Hw]. split; [by destruct Hp|]. by apply work_ok_create.
  - apply andb_true_iff in Hal as [Hn%negb_true_iff Hu]. by apply WorkerImpl_Schedule_inv.
  - eexists. split; [done|]. unfold WorkerImpl_destroy. destruct (workers s !! w) as [wk|] eqn:Hwk; [|done].
    apply andb_true_iff in Hal as [Hr%negb_true_iff Hs]. destruct Hinv as [Hp Hw]. split; [by destruct Hp|].
    apply work_ok_destroy; try done. by destruct (steps_ wk).
  - apply andb_true_iff in Hal as [Hid Hn%negb_true_iff]. unfold ThreadPoolScheduler_destroy. rewrite Hid. simpl.
    eexists. split; [done|]. destruct (SignalAll_sums (threads_ s)) as (H1 & H2 & H3).
    unfold IdleCondition in Hid. destruct Hinv as [[Hsz Ha Haw Hj He] Hw].
    destruct (todo_ s) eqn:Htodo; [|done]. apply Z.eqb_eq in Hid.
    split; [split; simpl; rewrite ?H1, ?H2|simpl; rewrite H3]; try done; simpl in *.
    + unfold SignalAll. by rewrite length_fmap.
    + by left.
    + intros _. split_and!; [done|lia|done].
    + by rewrite Htodo.
Qed.

Lemma act_all_inv actions s : inv s → all_allowed actions s = true → ∃ s', act_all actions s = Ok s' ∧ inv s'.
Proof.
  revert s. induction actions as [|a rest IH]; intros s Hinv; simpl; [by eauto|].
  intros [Ha Hrest]%andb_true_iff. destruct (act_inv _ _ Hinv Ha) as (s' & Hs & Hinv').
  rewrite Hs in *. simpl. by apply IH.
Qed.

Lemma act_all_app actions actions' s s' :
  act_all actions s = Ok s' → act_all (actions ++ actions') s = act_all actions' s'.
Proof.
  revert s. induction actions as [|a rest IH]; intros s; simpl; [by intros [= ->]|].
  intros (s1 & -> & H)%bind_ok. simpl. by apply IH.
Qed.

(** ** Termination *)

Fixpoint task_work (t : Task) : nat :=
  match t with task _ effects => 3 + sum_list_with effect_work effects end
with effect_work (e : Effect) : nat :=
  match e with ScheduleOnPool t | ScheduleOnWorker _ t => 2 + task_work t end.

Definition thread_work (th : Thread) : nat :=
  match th with
  | Blocked | Exited => 0
  | Woken => 1
  | Entering => 2
  | Running _ rest => 3 + sum_list_with effect_work rest
  end.

(** A bound on the steps that the threads can still make. *)
Definition work (s : Pool) : nat :=
  sum_list_with thread_work (threads_ s) + sum_list_with (λ j, task_work (job_task j)) (todo_ s) +
  sum_list_with (λ wk, sum_list_with (λ t, S (task_work t)) (steps_ wk)) (workers s).

Definition can_step (i : nat) (s : Pool) : bool :=
  match threads_ s !! i with Some (Entering | Woken | Running _ _) => true | _ => false end.

Lemma Schedule_work j hint s : (work (Schedule j hint s) ≤ work s + task_work (job_task j) + 1)%nat.
Proof.
  unfold work. simpl. rewrite sum_list_with_app. simpl.
  destruct (Signal_spec hint (threads_ s)) as [[-> _]|(i & Hi & ->)]; [lia|].
  pose proof (sum_insert thread_work _ _ _ Woken Hi). simpl in *. lia.
Qed.

Lemma work_set_worker w wk wk' s :
  workers s !! w = Some wk →
  (work (set_workers (<[w := wk']> (workers s)) s) + sum_list_with (λ t, S (task_work t)) (steps_ wk) =
   work s + sum_list_with (λ t, S (task_work t)) (steps_ wk'))%nat.
Proof.
  intros Hw. unfold work. simpl.
  pose proof (sum_insert (λ wk, sum_list_with (λ t, S (task_work t)) (steps_ wk)) _ _ _ wk' Hw). simpl in *. lia.
Qed.

Lemma MaybeRunNext_work w hint s : (work (MaybeRunNext w hint s) ≤ work s)%nat.
Proof.
  unfold MaybeRunNext. destruct (workers s !! w) as [wk|] eqn:Hw; [|done].
  destruct (running_ wk); [done|]. destruct (steps_ wk) as [|t rest] eqn:Hs; [done|].
  etrans; [apply Schedule_work|]. simpl.
  pose proof (work_set_worker _ _ {| running_ := true; steps_ := rest; marker := marker wk |} _ Hw) as Heq.
  rewrite Hs in Heq. simpl in Heq. lia.
Qed.

Lemma work_log e s : work (log e s) = work s.
Proof. done. Qed.

Lemma perform_effect_work e hint s s' :
  perform_effect e hint s = Ok s' → (work s' < work s + effect_work e)%nat.
Proof.
  destruct e as [t|w t]; simpl.
  - intros [= <-]. pose proof (Schedule_work (Plain t) hint s). simpl in *. lia.
  - unfold WorkerImpl_Schedule. destruct (workers s !! w) as [wk|] eqn:Hw; [|done].
    intros [_ [= <-]]%fcp_check_ok. eapply Nat.le_lt_trans; [apply MaybeRunNext_work|]. rewrite work_log.
    pose proof (work_set_worker _ _ {| running_ := running_ wk; steps_ := steps_ wk ++ [t]; marker := true |} _ Hw) as Heq.
    simpl in Heq. rewrite sum_list_with_app in Heq. simpl in Heq. lia.
Qed.

Lemma finish_job_work j hint s s' : finish_job j hint s = Ok s' → (work s' ≤ work s)%nat.
Proof.
  destruct j as [t|w t]; simpl; [by intros [= ->]|].
  unfold finish_step. destruct (workers s !! w) as [wk|] eqn:Hw; [|done].
  intros [_ [= <-]]%fcp_check_ok. etrans; [apply MaybeRunNext_work|].
  pose proof (work_set_worker _ _ {| running_ := false; steps_ := steps_ wk; marker := marker wk |} _ Hw) as Heq.
  simpl in Heq. lia.
Qed.

Lemma take_task_work i th n s s' :
  threads_ s !! i = Some th → (1 ≤ thread_work th)%nat → take_task i (set_active_count n s) = Ok s' →
  (work s' < work s)%nat.
Proof.
  intros Hi Hth. unfold take_task. simpl. destruct (todo_ s) as [|j rest] eqn:Htodo.
  - intros [= <-]. unfold work. simpl. rewrite Htodo.
    pose proof (sum_insert thread_work _ _ _ (if threads_should_join_ s then Exited else Blocked) Hi) as Heq.
    assert (thread_work (if threads_should_join_ s then Exited else Blocked) = 0%nat) by by destruct (threads_should_join_ s).
    simpl in *. lia.
  - intros [_ [= <-]]%fcp_check_ok. unfold work. simpl. rewrite Htodo.
    pose proof (sum_insert thread_work _ _ _ (Running j (body (job_task j))) Hi) as Heq.
    simpl in *. destruct (job_task j) as [name effects]; simpl in *. lia.
Qed.

(** Every step of a thread uses up some of the work. *)
Lemma Step_work i hint s s' :
  can_step i s = true → PerThreadActivity i hint s = Ok s' → (work s' < work s)%nat.
Proof.
  unfold can_step, PerThreadActivity. destruct (threads_ s !! i) as [th|] eqn:Hi; [|done].
  destruct th as [| | |j [|e rest]|]; intros Hc H; try done.
  - eapply take_task_work; [done| |done]. simpl. lia.
  - eapply (take_task_work _ _ (active_count_ s)); [done|simpl; lia|]. by destruct s.
  - apply finish_job_work in H. rewrite work_log in H. unfold work in *. simpl in *.
    pose proof (sum_insert thread_work _ _ _ Entering Hi). simpl in *. lia.
  - apply perform_effect_work in H. unfold work in *. simpl in *.
    pose proof (sum_insert thread_work _ _ _ (Running j rest) Hi). simpl in *. lia.
Qed.

(** While the pool is not idle, some thread can go on. *)
Lemma sum_witness {A} (f : A → nat) l : sum_list_with f l ≠ 0%nat → ∃ i x, l !! i = Some x ∧ f x ≠ 0%nat.
Proof.
  induction l as [|x l IH]; [done|]. simpl. intros H.
  destruct (decide (f x = 0%nat)) as [H0|H0]; [|by exists 0%nat, x].
  destruct IH as (i & y & Hi & Hy); [lia|]. by exists (S i), y.
Qed.

Lemma thread_kinds l :
  (sum_list_with active l + sum_list_with asleep l + sum_list_with woken l + sum_list_with exited l)%nat = length l.
Proof. induction l as [|th l IH]; [done|]. destruct th; simpl; lia. Qed.

Lemma progress s :
  pool_ok s → threads_should_join_ s = false → IdleCondition s = false → ∃ i, can_step i s = true.
Proof.
  intros [Hsz Ha Haw Hj He] Hn Hid. pose proof (thread_kinds (threads_ s)) as Hkinds. specialize (He Hn).
  assert (count active s ≠ 0%nat ∨ count woken s ≠ 0%nat) as [(i & th & Hi & Hth)%sum_witness|(i & th & Hi & Hth)%sum_witness].
  { unfold IdleCondition in Hid. destruct (todo_ s); simpl in *; [|lia]. apply Z.eqb_neq in Hid. lia. }
  - exists i. unfold can_step. rewrite Hi. by destruct th.
  - exists i. unfold can_step. rewrite Hi. by destruct th.
Qed.

(** ** Properties *)

(** A pool of [n] threads and what happens to it, within the obligations of the callers. *)
Definition run (n : nat) (actions : list Action) : Res Pool :=
  s ← CreateThreadPoolScheduler n; act_all actions s.
Definition proper (n : nat) (actions : list Action) : bool :=
  match CreateThreadPoolScheduler n with Ok s => all_allowed actions s | _ => false end.

Lemma run_inv n actions :
  Z.of_nat n < 2 ^ 64 → proper n actions = true → ∃ s, run n actions = Ok s ∧ inv s.
Proof.
  intros Hn. unfold proper, run. destruct (CreateThreadPoolScheduler n) as [s| |] eqn:Hs; [|done..].
  intros Hal. simpl. apply act_all_inv; [|done]. by eapply create_inv.
Qed.

Definition begun (rs : list Run) : list Task := rs ≫= λ r, match r with Begin t => [t] | End _ => [] end.

Lemma begun_begin ts : begun (Begin <$> ts) = ts.
Proof. unfold begun. induction ts as [|t ts IH]; [done|]. rewrite fmap_cons, bind_cons, IH. done. Qed.
Lemma begun_end ts : begun (End <$> ts) = [].
Proof. by induction ts. Qed.
Lemma begun_one_by_one ts : begun (one_by_one ts) = ts.
Proof. unfold begun, one_by_one. induction ts as [|t ts IH]; [done|]. rewrite bind_cons, bind_app, IH. done. Qed.

Lemma begun_started w tr : begun (worker_runs w tr) = steps_of w (started tr).
Proof.
  induction tr as [|e tr IH] using rev_ind; [done|].
  rewrite worker_runs_snoc, started_snoc, steps_of_app, <- IH. unfold begun. rewrite bind_app. f_equal. fold begun.
  destruct e; simpl; rewrite ?app_nil_r; [done..|apply begun_begin|apply begun_end].
Qed.

(** The tasks of a worker start in the order in which they finish. *)
Lemma steps_started x tr run todo ws w :
  work_ok x tr run todo ws → steps_of w (started tr) = steps_of w (finished tr) ++ steps_of w run.
Proof.
  intros [_ _ _ _ Hr]. rewrite <- begun_started, Hr. unfold begun. rewrite bind_app.
  f_equal; [apply begun_one_by_one|apply begun_begin].
Qed.

Lemma posted_split tr run todo ws w :
  work_ok None tr run todo ws →
  ∃ waiting, posted w tr = steps_of w (finished tr) ++ steps_of w run ++ waiting ∧
    (run = [] → todo = [] → waiting = []).
Proof.
  intros Hok. pose proof (steps_started _ _ _ _ _ w Hok) as Hst. destruct Hok as [Hf Hs Hw Ho Hr].
  destruct (ws !! w) as [wk|] eqn:Hwk.
  - destruct (Hw _ _ Hwk) as [Hp Hd Hm Hn]. exists (steps_of w todo ++ steps_ wk).
    rewrite Hp, Hf, steps_of_app, Hst, <- !(assoc_L (++)). split; [done|]. intros -> ->. simpl in *.
    apply Hd; [done|]. by destruct (running_ wk).
  - destruct (Ho w Hwk) as [-> Hq]. rewrite Hf, steps_of_app, Hst in Hq.
    apply app_nil in Hq as [Hq Hq2]. apply app_nil in Hq as [-> ->]. by exists [].
Qed.

(** C10: A worker runs its tasks strictly one after the other, in the order in
    which they were scheduled, whatever the threads of the pool do: of the
    tasks scheduled so far a prefix has run, at most one runs, and each began
    after the one before it had ended. No check fails in such a run. *)
Theorem worker_sequential n actions :
  Z.of_nat n < 2 ^ 64 → proper n actions = true →
  ∃ s, run n actions = Ok s ∧
    ∀ w, let done := steps_of w (finished (trace s)) in
         let current := steps_of w (running_jobs (threads_ s)) in
         (length current ≤ 1)%nat ∧
         worker_runs w (trace s) = one_by_one done ++ (Begin <$> current) ∧
         ∃ waiting, posted w (trace s) = done ++ current ++ waiting.
Proof.
  intros Hn Hp. destruct (run_inv _ _ Hn Hp) as (s & Hs & _ & Hw). exists s. split; [done|]. intros w. split_and!.
  - pose proof (pending_le _ _ _ _ _ w Hw) as Hle. rewrite steps_of_app, length_app in Hle. lia.
  - apply (wo_runs _ _ _ _ _ Hw).
  - destruct (posted_split _ _ _ _ w Hw) as (waiting & -> & _). by exists waiting.
Qed.

(** The pool starts the closures it is given in the order in which it
    received them and runs each of them exactly once; [active_count_] counts the
    threads that are not waiting for work. When [WaitUntilIdle] returns, every
    closure has finished and so has every task of every worker. *)
Lemma pool_idle_done n actions :
  Z.of_nat n < 2 ^ 64 → proper n actions = true →
  ∃ s, run n actions = Ok s ∧
    queued (trace s) = started (trace s) ++ todo_ s ∧
    started (trace s) ≡ₚ finished (trace s) ++ running_jobs (threads_ s) ∧
    active_count_ s = Z.of_nat (count active s) ∧
    (IdleCondition s = true →
     queued (trace s) ≡ₚ finished (trace s) ∧ ∀ w, posted w (trace s) = steps_of w (finished (trace s))).
Proof.
  intros Hn Hp. destruct (run_inv _ _ Hn Hp) as (s & Hs & [Hsz Ha _ _ _] & Hw). exists s.
  split_and!; [done|apply (wo_fifo _ _ _ _ _ Hw)|apply (wo_started _ _ _ _ _ Hw)|done|].
  unfold IdleCondition. destruct (todo_ s) as [|] eqn:Htodo; [|done]. intros Hid%Z.eqb_eq.
  assert (running_jobs (threads_ s) = []) as Hrun.
  { assert (count active s = 0%nat) as H0 by lia. revert H0. clear. unfold running_jobs.
    induction (threads_ s) as [|th l IH]; [done|]. rewrite bind_cons. destruct th; simpl; [lia|auto..|lia|auto]. }
  rewrite Hrun in *. split.
  - rewrite (wo_fifo _ _ _ _ _ Hw), (wo_started _ _ _ _ _ Hw). by rewrite !app_nil_r.
  - intros w. destruct (posted_split _ _ _ _ w Hw) as (waiting & -> & ->); [by rewrite app_nil_r|done..].
Qed.

(** Steps that their threads can make. *)
Fixpoint effective (steps : list (nat * nat)) (s : Pool) : bool :=
  match steps with
  | [] => true
  | (i, hint) :: rest =>
      can_step i s && match PerThreadActivity i hint s with Ok s => effective rest s | _ => false end
  end.

Lemma effective_work steps s s' :
  effective steps s = true → act_all (uncurry Step <$> steps) s = Ok s' → (length steps + work s' ≤ work s)%nat.
Proof.
  revert s. induction steps as [|[i hint] rest IH]; intros s; simpl; [by intros _ [= ->]|].
  intros [Hc He]%andb_true_iff (s1 & Hs1 & Hrest)%bind_ok. rewrite Hs1 in He.
  pose proof (Step_work _ _ _ _ Hc Hs1). specialize (IH _ He Hrest). lia.
Qed.

Lemma steps_not_joined steps s s' :
  inv s → all_allowed (uncurry Step <$> steps) s = true → act_all (uncurry Step <$> steps) s = Ok s' →
  threads_should_join_ s' = threads_should_join_ s.
Proof.
  revert s. induction steps as [|[i hint] rest IH]; intros s Hinv; simpl; [by intros _ [= ->]|].
  intros [Hal Hrest]%andb_true_iff (s1 & Hs1 & Hact)%bind_ok. rewrite Hs1 in Hrest.
  destruct (PerThreadActivity_inv i hint s Hinv Hal) as (s2 & Hs2 & Hinv').
  assert (s2 = s1) as -> by congruence. rewrite (IH s1 Hinv' Hrest Hact). clear -Hs2. unfold PerThreadActivity, take_task, perform_effect, finish_job,
    WorkerImpl_Schedule, finish_step, MaybeRunNext, fcp_check in Hs2.
  repeat (case_match; simplify_eq/=; try done).
Qed.

(** C11: No wakeup is lost: the threads of the pool cannot go on forever without
    new calls, and when none of them can go on any more the pool is idle, so
    that [WaitUntilIdle] returns. *)
Theorem pool_drains n actions steps :
  Z.of_nat n < 2 ^ 64 → proper n (actions ++ (uncurry Step <$> steps)) = true →
  ∃ s s', run n actions = Ok s ∧ act_all (uncurry Step <$> steps) s = Ok s' ∧
    (effective steps s = true → length steps ≤ work s)%nat ∧
    (threads_should_join_ s = false → (∀ i, can_step i s' = false) → IdleCondition s' = true).
Proof.
  intros Hn Hp. unfold proper in Hp. destruct (CreateThreadPoolScheduler n) as [s0| |] eqn:Hs0; [|done..].
  assert (∃ s, act_all actions s0 = Ok s ∧ inv s ∧ all_allowed (uncurry Step <$> steps) s = true) as (s & Hs & Hinv & Hal).
  { apply create_inv in Hs0; [|done]. revert s0 Hs0 Hp. clear.
    induction actions as [|a rest IH]; intros s Hinv; simpl; [by eauto|].
    intros [Ha Hrest]%andb_true_iff. destruct (act_inv _ _ Hinv Ha) as (s1 & Hs1 & Hinv1).
    rewrite Hs1 in *. simpl. by apply IH. }
  destruct (act_all_inv _ _ Hinv Hal) as (s' & Hs' & Hinv'). exists s, s'. unfold run. rewrite Hs0. simpl.
  split_and!; [done..| |].
  - intros He. pose proof (effective_work _ _ _ He Hs'). lia.
  - intros Hj Hstuck. rewrite <- (steps_not_joined _ _ _ Hinv Hal Hs') in Hj.
    destruct (IdleCondition s') eqn:Hid; [done|].
    destruct (progress _ (proj1 Hinv') Hj Hid) as [i Hi]. by rewrite Hstuck in Hi.
Qed.

(** ** A run: two threads, a worker whose first task schedules a third one *)

Definition task_a : Task := task 1 [ScheduleOnWorker 0 (task 3 []); ScheduleOnPool (task 4 [])].
Definition task_b : Task := task 2 [].

Definition example_actions : list Action :=
  [CallCreateWorker; Step 0 0; CallWorkerSchedule 0 task_a 0; SpuriousWakeup 1; CallWorkerSchedule 0 task_b 0;
   Step 0 0; Step 1 0; Step 0 0; Step 0 1].
Definition example_steps : list (nat * nat) :=
  [(0, 0); (0, 0); (1, 0); (1, 0); (0, 0); (1, 0); (0, 0); (1, 0); (1, 0)]%nat.

Lemma worker_sequential_witness :
  proper 2 example_actions = true ∧
  ∃ s, run 2 example_actions = Ok s ∧ worker_runs 0 (trace s) = [Begin task_a].
Proof.
  split; [vm_compute; reflexivity|].
  destruct (worker_sequential 2 example_actions ltac:(lia) ltac:(vm_compute; reflexivity)) as (s & Hs & Hw).
  exists s. split; [done|]. destruct (Hw 0%nat) as (_ & -> & _). clear Hw.
  vm_compute in Hs. injection Hs as <-. vm_compute. reflexivity.
Defined.

Lemma pool_idle_done_witness :
  ∃ s, run 2 (example_actions ++ (uncurry Step <$> example_steps)) = Ok s ∧ IdleCondition s = true ∧
       steps_of 0 (finished (trace s)) = [task_a; task_b; task 3 []].
Proof.
  destruct (pool_idle_done 2 (example_actions ++ (uncurry Step <$> example_steps)) ltac:(lia)
    ltac:(vm_compute; reflexivity)) as (s & Hs & _ & _ & _ & Hid).
  exists s. split; [done|]. vm_compute in Hs. injection Hs as <-.
  destruct Hid as [_ Hp]; [vm_compute; reflexivity|]. split; [vm_compute; reflexivity|].
  rewrite <- Hp. vm_compute. reflexivity.
Defined.

Lemma pool_drains_witness :
  ∃ s s', run 2 example_actions = Ok s ∧ act_all (uncurry Step <$> example_steps) s = Ok s' ∧ IdleCondition s' = true.
Proof.
  destruct (pool_drains 2 example_actions example_steps ltac:(lia) ltac:(vm_compute; reflexivity))
    as (s & s' & Hs & Hs' & _ & Hid).
  exists s, s'. split_and!; [done..|]. vm_compute in Hs. injection Hs as <-. vm_compute in Hs'. injection Hs' as <-.
  apply Hid; [reflexivity|]. intros [|[|i]]; reflexivity.
Defined.
