(* ===== verification/Future.v ===== *)
(** * Futures: [base/future.h]

    A promise and the future that is paired with it share a [FutureState]. A
    [FuturePair] holds that state and which of the two handles still refer to
    it: a handle that was used up or moved from is empty. *)

From S2P Require Import Prelude.

Section Future.
Context {T : Type}.

Inductive State := kNotSet | kSet | kTaken.

Record FutureState := { ready_ : bool; state_ : State; value_ : option T }.

Record FuturePair := { shared : FutureState; promise_has_state : bool; future_has_state : bool }.

Definition FutureState_Set (val : option T) (s : FutureState) : Res FutureState :=
  FCP_CHECK negb (ready_ s) ;;
  match state_ s with
  | kNotSet => Ok {| ready_ := true; state_ := kSet; value_ := val |}
  | kSet | kTaken => Crash
  end.

(** Whether the notification has come when the wait ends. *)
Definition FutureState_Wait (s : FutureState) : bool := ready_ s.

(** After [WaitForNotification]; the value that is moved out is not read again. *)
Definition FutureState_Take (s : FutureState) : Res (option T * FutureState) :=
  match state_ s with
  | kSet => Ok (value_ s, {| ready_ := ready_ s; state_ := kTaken; value_ := value_ s |})
  | kNotSet | kTaken => Crash
  end.

Definition MakeFuture : FuturePair :=
  {| shared := {| ready_ := false; state_ := kNotSet; value_ := None |};
     promise_has_state := true; future_has_state := true |}.

Definition Promise_Set (value : T) (p : FuturePair) : Res FuturePair :=
  FCP_CHECK promise_has_state p ;;
  s ← FutureState_Set (Some value) (shared p);
  Ok {| shared := s; promise_has_state := false; future_has_state := future_has_state p |}.

(** The destructor of the promise: a promise that was not set is abandoned. *)
Definition Promise_destroy (p : FuturePair) : Res FuturePair :=
  if promise_has_state p then
    s ← FutureState_Set None (shared p);
    Ok {| shared := s; promise_has_state := false; future_has_state := future_has_state p |}
  else Ok p.

Definition Future_Wait (p : FuturePair) : Res bool :=
  FCP_CHECK future_has_state p ;; Ok (FutureState_Wait (shared p)).

(** [None]: it waits for the value. *)
Definition Future_Take (p : FuturePair) : option (Res (option T * FuturePair)) :=
  if negb (future_has_state p) then Some Crash
  else if negb (ready_ (shared p)) then None
  else Some ('(v, s) ← FutureState_Take (shared p);
             Ok (v, {| shared := s; promise_has_state := promise_has_state p; future_has_state := false |})).

(** ** What becomes of a pair *)

Inductive PairStage := Pending | Fulfilled (v : option T) | Consumed.

(** The stage of a pair as its two holders see it. *)
Inductive at_stage : PairStage → FuturePair → Prop :=
  | at_pending : at_stage Pending MakeFuture
  | at_fulfilled v :
      at_stage (Fulfilled v) {| shared := {| ready_ := true; state_ := kSet; value_ := v |};
                                promise_has_state := false; future_has_state := true |}
  | at_consumed v :
      at_stage Consumed {| shared := {| ready_ := true; state_ := kTaken; value_ := v |};
                           promise_has_state := false; future_has_state := false |}.

(** No check of the shared state fails: a promise that is set or abandoned
    fulfils its future, which can be waited for any number of times and yields
    the value once. *)
Lemma Promise_Set_stage v p : at_stage Pending p → ∃ p', Promise_Set v p = Ok p' ∧ at_stage (Fulfilled (Some v)) p'.
Proof. inversion 1; subst. eexists. split; [done|]. constructor. Qed.

Lemma Promise_destroy_stage st p :
  at_stage st p → ∃ p', Promise_destroy p = Ok p' ∧
    at_stage (match st with Pending => Fulfilled None | _ => st end) p'.
Proof. inversion 1; subst; eexists; (split; [done|]); constructor. Qed.

Lemma Future_Wait_stage st p :
  at_stage st p → st ≠ Consumed → Future_Wait p = Ok match st with Pending => false | _ => true end.
Proof. by inversion 1. Qed.

Lemma Future_Take_stage v p :
  at_stage (Fulfilled v) p → ∃ p', Future_Take p = Some (Ok (v, p')) ∧ at_stage Consumed p'.
Proof. inversion 1; subst. eexists. split; [done|]. constructor. Qed.
End Future.

Arguments FutureState : clear implicits.
Arguments FuturePair : clear implicits.
Arguments PairStage : clear implicits.
