(* ===== verification/InterruptibleRunner.v ===== *)
(** * Interruptible runs: [client/interruptible_runner.cc]

    A callable [f] runs on a background thread while the calling thread waits
    for its future and polls [should_abort_]. [f] is given as its slices: a slice
    changes the shared environment and may end the callable with a status. Before
    every action of the calling thread the background thread makes as many
    slices as it gets to, [slices] saying how many; that covers all
    interleavings of the two, and how far [f] gets during a wait. A status is an
    [option Status], [None] being OK. *)

From S2P Require Import Prelude FileSystem FileSystemCorrect Future.

Record TimingConfig := {
  polling_period : Z;
  graceful_shutdown_period : Z;
  extended_shutdown_period : Z
}.

Record DiagnosticsConfig := {
  interrupted : Z;
  interrupt_timeout : Z;
  interrupted_extended : Z;
  interrupt_timeout_extended : Z
}.

(** What can be observed of a run. *)
Inductive RunEvent :=
  | Polled (abort : bool)                 (** the answer of [should_abort_] *)
  | AbortCalled                           (** [abort_function] *)
  | Diag (code : Z)
  | Completed (status : option Status).   (** [f] returned *)

Inductive Outcome := Returned (status : option Status) | ExitProcess | StillWaiting.

Section Runner.
Context {E : Type}.

(** The members, what they share with the callable, and the future of the task
    in the thread pool, which has one thread and no other task. *)
Record InterruptibleRunner := {
  env : E;
  run_future : option (FuturePair (option Status));
  clock : nat;
  events : list RunEvent
}.

Definition set_env (e : E) (r : InterruptibleRunner) : InterruptibleRunner :=
  {| env := e; run_future := run_future r; clock := clock r; events := events r |}.
Definition set_future (p : FuturePair (option Status)) (r : InterruptibleRunner) : InterruptibleRunner :=
  {| env := env r; run_future := Some p; clock := clock r; events := events r |}.
Definition tick (r : InterruptibleRunner) : InterruptibleRunner :=
  {| env := env r; run_future := run_future r; clock := S (clock r); events := events r |}.
Definition log (e : RunEvent) (r : InterruptibleRunner) : InterruptibleRunner :=
  {| env := env r; run_future := run_future r; clock := clock r; events := events r ++ [e] |}.

Context (f : E → option (option Status) * E) (abort_function : E → E).
Context (should_abort_ : E → bool * E) (timing_config_ : TimingConfig) (diagnostics_config_ : DiagnosticsConfig).
Context (slices : nat → nat).

(** The closure of [ScheduleFuture]: the value of [f] is given to the promise. *)
Definition run_slice (r : InterruptibleRunner) : Res InterruptibleRunner :=
  match run_future r with
  | Some p =>
      if promise_has_state p then
        match f (env r) with
        | (None, e) => Ok (set_env e r)
        | (Some status, e) =>
            p ← Promise_Set status p; Ok (log (Completed status) (set_future p (set_env e r)))
        end
      else Ok r
  | None => Ok r
  end.

Fixpoint run_slices (n : nat) (r : InterruptibleRunner) : Res InterruptibleRunner :=
  match n with
  | O => Ok r
  | S n => r ← run_slice r; run_slices n r
  end.

Definition background : M InterruptibleRunner unit := λ r,
  match run_slices (slices (clock r)) (tick r) with
  | Ok r => (Ok tt, r)
  | _ => (Crash, r)
  end.

Definition ScheduleFuture : M InterruptibleRunner unit := modify (set_future MakeFuture).

Definition future_ready : M InterruptibleRunner bool := λ r,
  match run_future r with
  | Some p => (Future_Wait p, r)
  | None => (Crash, r)
  end.

Definition Wait (timeout : Z) : M InterruptibleRunner bool := background;; future_ready.

(** [Take] of a future that is ready, and the check that its promise was kept. *)
Definition take_value : M InterruptibleRunner (option Status) := λ r,
  match p ← run_future r; Future_Take p with
  | Some (Ok (Some status, p)) => (Ok status, set_future p r)
  | _ => (Crash, r)
  end.

Definition Take : M InterruptibleRunner (option Status) := background;; take_value.

Definition ask : M InterruptibleRunner bool := λ r,
  let '(b, e) := should_abort_ (env r) in (Ok b, log (Polled b) (set_env e r)).

Definition poll : M InterruptibleRunner bool := background;; ask.

Definition call_abort : M InterruptibleRunner unit :=
  background;; modify (λ r, log AbortCalled (set_env (abort_function (env r)) r)).

Definition LogDiag (code : Z) : M InterruptibleRunner unit := modify (log (Diag code)).

Definition Abort : M InterruptibleRunner Outcome :=
  call_abort;;
  done ← Wait (graceful_shutdown_period timing_config_);
  if (done : bool) then
    LogDiag (interrupted diagnostics_config_);;
    Take;;
    mret (Returned (Some (CANCELLED, "cancelled after graceful wait"%string)))
  else
    LogDiag (interrupt_timeout diagnostics_config_);;
    done ← Wait (extended_shutdown_period timing_config_);
    if (done : bool) then
      LogDiag (interrupted_extended diagnostics_config_);;
      Take;;
      mret (Returned (Some (CANCELLED, "cancelled after extended wait"%string)))
    else
      LogDiag (interrupt_timeout_extended diagnostics_config_);;
      mret ExitProcess.

(** At most [fuel] turns of the loop. *)
Fixpoint WaitUntilDone (fuel : nat) : M InterruptibleRunner Outcome :=
  match fuel with
  | O => mret StillWaiting
  | S fuel =>
      done ← Wait (polling_period timing_config_);
      if (done : bool) then status ← Take; mret (Returned status)
      else
        abort ← poll;
        if (abort : bool) then Abort else WaitUntilDone fuel
  end.

Definition Run (fuel : nat) : M InterruptibleRunner Outcome :=
  abort ← poll;
  if (abort : bool) then mret (Returned (Some (CANCELLED, "cancelled before posting callable"%string)))
  else ScheduleFuture;; WaitUntilDone fuel.
End Runner.

Arguments InterruptibleRunner : clear implicits.

(** ** What a run did *)

Definition polls (evs : list RunEvent) : list bool := evs ≫= λ e, match e with Polled b => [b] | _ => [] end.
Definition aborts (evs : list RunEvent) : nat := length (evs ≫= λ e, match e with AbortCalled => [tt] | _ => [] end).
Definition completions (evs : list RunEvent) : list (option Status) :=
  evs ≫= λ e, match e with Completed st => [st] | _ => [] end.

Lemma polls_snoc evs e : polls (evs ++ [e]) = polls evs ++ polls [e].
Proof. apply bind_app. Qed.
Lemma aborts_snoc evs e : aborts (evs ++ [e]) = (aborts evs + aborts [e])%nat.
Proof. unfold aborts. by rewrite bind_app, length_app. Qed.
Lemma completions_snoc evs e : completions (evs ++ [e]) = completions evs ++ completions [e].
Proof. apply bind_app. Qed.

Section Correct.
Context {E : Type} (f : E → option (option Status) * E) (abort_function : E → E).
Context (should_abort_ : E → bool * E) (timing_config_ : TimingConfig) (diagnostics_config_ : DiagnosticsConfig).
Context (slices : nat → nat).
Implicit Types (r : InterruptibleRunner E).

(** No task is left in the thread pool. *)
Definition idle r : Prop := match run_future r with Some p => promise_has_state p = false | None => True end.

(** [f] has been scheduled and its future not been taken; [c] is its status
    once it has one. *)
Inductive task_state r : option (option Status) → Prop :=
  | task_pending p : run_future r = Some p → at_stage Pending p → completions (events r) = [] → task_state r None
  | task_done p st : run_future r = Some p → at_stage (Fulfilled (Some st)) p → completions (events r) = [st] →
                     task_state r (Some st).

(** The background thread does not poll or abort, and a status stays. *)
Record advances r r' : Prop := {
  ad_polls : polls (events r') = polls (events r);
  ad_aborts : aborts (events r') = aborts (events r)
}.

Lemma run_slices_task n r c :
  task_state r c → ∃ r' c', run_slices f n r = Ok r' ∧ task_state r' c' ∧ (is_Some c → c' = c) ∧ advances r r'.
Proof.
  revert r c. induction n as [|n IH]; intros r c Hr; simpl; [exists r, c; by repeat split|].
  assert (∃ r' c', run_slice f r = Ok r' ∧ task_state r' c' ∧ (is_Some c → c' = c) ∧ advances r r') as (r1 & c1 & -> & H1 & Hc1 & Ha1).
  { unfold run_slice. destruct Hr as [p Hp Hs Hc|p st Hp Hs Hc]; rewrite Hp.
    - inversion Hs; subst. simpl. destruct (f (env r)) as [[st|] e] eqn:Hf.
      + eexists _, (Some st). split; [done|]. split_and!; [|by intros []|split; simpl].
        * eapply task_done; [done|constructor|]. simpl. by rewrite completions_snoc, Hc.
        * rewrite polls_snoc. apply app_nil_r.
        * rewrite aborts_snoc. apply Nat.add_0_r.
      + eexists _, None. split; [done|]. split_and!; [|done|done]. by eapply task_pending.
    - inversion Hs; subst. simpl. eexists _, (Some st). split; [done|]. split_and!; [|done|done].
      by eapply task_done. }
  simpl. destruct (IH _ _ H1) as (r2 & c2 & -> & H2 & Hc2 & Ha2). exists r2, c2. split; [done|].
  split_and!; [done| |destruct Ha1, Ha2; split; congruence].
  intros Hsome. rewrite <- Hc1 by done. apply Hc2. by rewrite Hc1.
Qed.

Lemma background_task r c :
  task_state r c →
  wp (background f slices) (returns (λ _ r', ∃ c', task_state r' c' ∧ (is_Some c → c' = c) ∧ advances r r')) r.
Proof.
  intros Hr. unfold wp, background.
  assert (task_state (tick r) c) as Ht by (destruct Hr; [by eapply task_pending|by eapply task_done]).
  destruct (run_slices_task (slices (clock r)) _ _ Ht) as (r' & c' & -> & Hr' & Hc & [Hp Ha]).
  eexists. split; [done|]. exists c'. by split_and!.
Qed.

Lemma background_idle r : idle r → background f slices r = (Ok tt, tick r).
Proof.
  intros Hi. unfold background.
  assert (∀ n, run_slices f n (tick r) = Ok (tick r)) as ->; [|done].
  intros n. induction n as [|n IH]; simpl; [done|].
  assert (run_slice f (tick r) = Ok (tick r)) as ->; [|done].
  unfold run_slice. simpl. unfold idle in Hi. destruct (run_future r) as [p|]; [|done]. by rewrite Hi.
Qed.

(** The operations of the calling thread while [f] is scheduled. *)
Lemma Wait_task timeout r c :
  task_state r c →
  wp (Wait f slices timeout) (returns (λ done r', ∃ c', task_state r' c' ∧ (is_Some c → c' = c) ∧ advances r r' ∧
                                          done = bool_decide (is_Some c'))) r.
Proof.
  intros Hr. eapply wp_bind_returns; [by apply background_task|]. simpl. intros _ r' (c' & Hr' & Hc & Ha).
  unfold wp, future_ready. destruct Hr' as [p Hp Hs Hn|p st Hp Hs Hn]; rewrite Hp; simpl.
  - rewrite (Future_Wait_stage _ _ Hs) by done. eexists. split; [done|]. exists None.
    split_and!; [by eapply task_pending|done..].
  - rewrite (Future_Wait_stage _ _ Hs) by done. eexists. split; [done|]. exists (Some st).
    split_and!; [by eapply task_done|done..].
Qed.

Lemma Take_task r st :
  task_state r (Some st) →
  wp (Take f slices) (returns (λ st' r', st' = st ∧ idle r' ∧ completions (events r') = [st] ∧ advances r r')) r.
Proof.
  intros Hr. eapply wp_bind_returns; [by apply background_task|]. simpl. intros _ r' (c' & Hr' & Hc & Ha).
  rewrite Hc in Hr' by done. inversion Hr' as [|p ? Hp Hs Hn]; subst.
  destruct (Future_Take_stage _ _ Hs) as (p' & Ht & Hs'). unfold wp, take_value. rewrite Hp. simpl. rewrite Ht.
  eexists. split; [done|]. split_and!; [done| |done|by destruct Ha]. unfold idle. simpl. by inversion Hs'.
Qed.

Lemma poll_task r c :
  task_state r c →
  wp (poll f should_abort_ slices) (returns (λ b r', ∃ c', task_state r' c' ∧
     polls (events r') = polls (events r) ++ [b] ∧ aborts (events r') = aborts (events r))) r.
Proof.
  intros Hr. eapply wp_bind_returns; [by apply background_task|]. simpl. intros _ r' (c' & Hr' & Hc & [Hp Ha]).
  unfold wp, ask. destruct (should_abort_ (env r')) as [b e]. simpl. eexists. split; [done|]. exists c'. simpl.
  rewrite polls_snoc, aborts_snoc, Hp, Ha. split_and!; [|done|apply Nat.add_0_r].
  destruct Hr'; [eapply task_pending|eapply task_done]; try done; simpl; rewrite completions_snoc; simpl;
    by rewrite app_nil_r.
Qed.

Lemma log_task r c e : task_state r c → completions [e] = [] → task_state (log e r) c.
Proof.
  intros Hr He. destruct Hr; [eapply task_pending|eapply task_done]; try done; simpl; rewrite completions_snoc, He;
    by rewrite app_nil_r.
Qed.

(** What a run returns, from what it did. *)
Inductive run_spec (fuel : nat) (evs : list RunEvent) : Outcome → Prop :=
  | never_started :
      polls evs = [true] → aborts evs = 0%nat → completions evs = [] →
      run_spec fuel evs (Returned (Some (CANCELLED, "cancelled before posting callable"%string)))
  | own_status n st :
      polls evs = replicate n false → aborts evs = 0%nat → completions evs = [st] → run_spec fuel evs (Returned st)
  | was_interrupted n st msg :
      polls evs = replicate n false ++ [true] → aborts evs = 1%nat → completions evs = [st] →
      run_spec fuel evs (Returned (Some (CANCELLED, msg)))
  | gave_up n :
      polls evs = replicate n false ++ [true] → aborts evs = 1%nat → run_spec fuel evs ExitProcess
  | still_waiting :
      polls evs = replicate (S fuel) false → aborts evs = 0%nat → run_spec fuel evs StillWaiting.

Definition run_post (fuel : nat) (out : Outcome) r : Prop :=
  run_spec fuel (events r) out ∧ ∀ st, out = Returned st → idle r.

Lemma call_abort_task r c :
  task_state r c →
  wp (call_abort f abort_function slices) (returns (λ _ r', ∃ c', task_state r' c' ∧
     polls (events r') = polls (events r) ∧ aborts (events r') = S (aborts (events r)))) r.
Proof.
  intros Hr. eapply wp_bind_returns; [by apply background_task|]. simpl. intros _ r' (c' & Hr' & Hc & [Hp Ha]).
  unfold wp, modify. simpl. eexists. split; [done|]. exists c'. simpl. split_and!.
  - apply log_task; [|done]. destruct Hr'; [by eapply task_pending|by eapply task_done].
  - rewrite polls_snoc, Hp. apply app_nil_r.
  - rewrite aborts_snoc, Ha. change (aborts [AbortCalled]) with 1%nat. lia.
Qed.

(** A diagnostic, [Take] and the status. *)
Lemma finish_abort fuel n st code msg r :
  task_state r (Some st) → polls (events r) = replicate n false ++ [true] → aborts (events r) = 1%nat →
  wp (LogDiag code;; Take f slices;; mret (Returned (Some (CANCELLED, msg)))) (returns (run_post fuel)) r.
Proof.
  intros Hr Hp Ha. eapply (wp_bind_returns _ _ (λ _ r', r' = log (Diag code) r)); [by eexists|]. intros _ ? ->.
  eapply wp_bind_returns; [apply Take_task, log_task; done|]. simpl. intros st' r' (-> & Hi & Hc & [Hp' Ha']).
  apply wp_ret_returns. simpl in *. rewrite polls_snoc, app_nil_r in Hp'. rewrite aborts_snoc, Nat.add_0_r in Ha'.
   split; [|done]. eapply was_interrupted; [by rewrite Hp'|lia|done].
Qed.

Lemma Abort_task fuel n r c :
  task_state r c → polls (events r) = replicate n false ++ [true] → aborts (events r) = 0%nat →
  wp (Abort f abort_function timing_config_ diagnostics_config_ slices) (returns (run_post fuel)) r.
Proof.
  intros Hr Hp Ha. eapply wp_bind_returns; [by eapply call_abort_task|]. simpl. intros _ r1 (c1 & Hr1 & Hp1 & Ha1).
  rewrite Hp in Hp1. rewrite Ha in Ha1.
  eapply wp_bind_returns; [by eapply Wait_task|]. simpl. intros ? r2 (c2 & Hr2 & _ & [Hp2 Ha2] & ->).
  destruct c2 as [st|]; simpl; [eapply (finish_abort _ n); [done|congruence..]|].
  eapply (wp_bind_returns _ _ (λ _ r', r' = log (Diag _) r2)); [by eexists|]. intros _ ? ->.
  eapply wp_bind_returns; [eapply Wait_task, log_task; done|]. simpl.
  intros ? r3 (c3 & Hr3 & _ & [Hp3 Ha3] & ->). simpl in *. rewrite polls_snoc, app_nil_r in Hp3.
  rewrite aborts_snoc, Nat.add_0_r in Ha3.
  destruct c3 as [st|]; simpl; [eapply (finish_abort _ n); [done|congruence|lia]|].
  unfold LogDiag, modify, wp. simpl. eexists. split; [done|]. split; [|done]. simpl.
  eapply (gave_up _ _ n); rewrite ?polls_snoc, ?aborts_snoc, ?app_nil_r, ?Nat.add_0_r; congruence.
Qed.

Lemma WaitUntilDone_task fuel total n r c :
  task_state r c → polls (events r) = replicate n false → aborts (events r) = 0%nat → (n + fuel = S total)%nat →
  wp (WaitUntilDone f abort_function should_abort_ timing_config_ diagnostics_config_ slices fuel)
     (returns (run_post total)) r.
Proof.
  revert n r c. induction fuel as [|fuel IH]; intros n r c Hr Hp Ha Hn; simpl.
  - apply wp_ret_returns. split; [|done]. apply still_waiting; [|done]. rewrite Hp. f_equal. lia.
  - eapply wp_bind_returns; [by eapply Wait_task|]. simpl. intros ? r1 (c1 & Hr1 & _ & [Hp1 Ha1] & ->).
    destruct c1 as [st|]; simpl.
    + eapply wp_bind_returns; [by apply Take_task|]. simpl. intros ? r2 (-> & Hi & Hc & [Hp2 Ha2]).
      apply wp_ret_returns. split; [|done]. eapply own_status; [by rewrite Hp2, Hp1|lia|done].
    + eapply wp_bind_returns; [by eapply poll_task|]. simpl. intros b r2 (c2 & Hr2 & Hp2 & Ha2).
      rewrite Hp1, Hp in Hp2. destruct b.
      * eapply Abort_task; [done..|lia].
      * eapply (IH (S n)); [done| |lia|lia]. by rewrite Hp2, replicate_S_end.
Qed.

Lemma Run_post fuel r :
  idle r → events r = [] →
  wp (Run f abort_function should_abort_ timing_config_ diagnostics_config_ slices fuel) (returns (run_post fuel)) r.
Proof.
  intros Hi He. unfold Run, poll.
  eapply (wp_bind_returns _ _ (λ b r', idle r' ∧ events r' = [Polled b])).
  { unfold wp, mbind, M_bind. rewrite (background_idle _ Hi). simpl. unfold ask. simpl.
    destruct (should_abort_ (env r)) as [b e]. eexists. split; [done|]. simpl. by rewrite He. }
  intros [] r' [Hi' He'].
  - apply wp_ret_returns. split; [|done]. rewrite He'. by apply never_started.
  - eapply (wp_bind_returns _ _ (λ _ r'', r'' = set_future MakeFuture r')); [by eexists|]. intros _ ? ->.
    apply (WaitUntilDone_task _ _ 1 _ None); simpl; rewrite ?He'; [|done..|lia].
    eapply task_pending; [done|constructor|]. simpl. by rewrite He'.
Qed.
End Correct.

(** C12: A run never fails a check. It returns the status of the callable if it
    was never interrupted, and CANCELLED otherwise: without starting the
    callable if the first poll says so, else after calling the abort function
    exactly once. When it has returned, the callable has ended: no slice of it
    runs any more, so that what it refers to may be destroyed. *)
Theorem Run_result {E} (f : E → option (option Status) * E) abort_function should_abort_ timing diag slices fuel r :
  idle r → events r = [] →
  ∃ out r', Run f abort_function should_abort_ timing diag slices fuel r = (Ok out, r') ∧
    run_spec fuel (events r') out ∧
    ∀ st, out = Returned st → ∀ n, run_slices f n r' = Ok r'.
Proof.
  intros Hi He. destruct (Run_post f abort_function should_abort_ timing diag slices fuel r Hi He) as (out & Hout & Hspec & Hid).
  destruct (Run _ _ _ _ _ _ _ r) as [res r'] eqn:Hrun. simpl in *. subst res. exists out, r'. split_and!; [done..|].
  intros st Hst n. specialize (Hid _ Hst). induction n as [|n IH]; simpl; [done|].
  assert (run_slice f r' = Ok r') as ->; [|done].
  unfold run_slice, idle in *. destruct (run_future r') as [p|]; [|done]. by rewrite Hid.
Qed.

(** ** What the callable, the poll and the abort function keep *)

Section KeepsEnv.
Context {E : Type} (f : E → option (option Status) * E) (abort_function : E → E).
Context (should_abort_ : E → bool * E) (timing_config_ : TimingConfig) (diagnostics_config_ : DiagnosticsConfig).
Context (slices : nat → nat) (R : relation E) `{!PreOrder R}.
Context (Hf : ∀ e, R e (f e).2) (Habort : ∀ e, R e (abort_function e)) (Hpoll : ∀ e, R e (should_abort_ e).2).

Definition env_related : relation (InterruptibleRunner E) := λ r r', R (env r) (env r').

#[local] Instance env_related_preorder : PreOrder env_related.
Proof. split; [intros r; unfold env_related; reflexivity|intros r1 r2 r3; unfold env_related; apply transitivity]. Qed.

Lemma run_slices_env n r r' : run_slices f n r = Ok r' → R (env r) (env r').
Proof using Hf PreOrder0.
  revert r. induction n as [|n IH]; intros r; simpl; [by intros [= ->]|].
  intros (r1 & Hr1 & Hrest%IH)%bind_ok. etrans; [|exact Hrest]. clear Hrest. unfold run_slice in Hr1.
  specialize (Hf (env r)). repeat (case_match; simplify_eq/=; try reflexivity; try done).
  apply bind_ok in Hr1 as (p' & _ & [= <-]). done.
Qed.

Lemma keeps_background : keeps env_related (background f slices).
Proof using Hf PreOrder0.
  intros r. unfold background. destruct (run_slices f (slices (clock r)) (tick r)) as [r1| |] eqn:Hr; simpl; [|reflexivity..].
  by apply run_slices_env in Hr.
Qed.

Lemma keeps_Wait timeout : keeps env_related (Wait f slices timeout).
Proof using Hf PreOrder0.
  apply keeps_bind; [apply _|apply keeps_background|]. intros _ r. unfold future_ready. case_match; reflexivity.
Qed.

Lemma keeps_Take : keeps env_related (Take f slices).
Proof using Hf PreOrder0.
  apply keeps_bind; [apply _|apply keeps_background|]. intros _ r. unfold take_value.
  by repeat (case_match; simpl; unfold env_related; simpl; try reflexivity).
Qed.

Lemma keeps_poll : keeps env_related (poll f should_abort_ slices).
Proof using Hf Hpoll PreOrder0.
  apply keeps_bind; [apply _|apply keeps_background|]. intros _ r. unfold ask. specialize (Hpoll (env r)).
  destruct (should_abort_ (env r)). done.
Qed.

Lemma keeps_diag code : keeps env_related (LogDiag code).
Proof using PreOrder0. intros r. unfold env_related. simpl. reflexivity. Qed.

Lemma keeps_Abort : keeps env_related (Abort f abort_function timing_config_ diagnostics_config_ slices).
Proof using Hf Habort PreOrder0.
  unfold Abort. apply keeps_bind; [apply _| |].
  { apply keeps_bind; [apply _|apply keeps_background|]. intros _ r. apply Habort. }
  intros _. repeat (first [apply keeps_Wait | apply keeps_Take | apply keeps_diag | apply keeps_ret; apply _
                          | case_match | apply keeps_bind; [apply _| |intros ?]]).
Qed.

Lemma keeps_Run fuel :
  keeps env_related (Run f abort_function should_abort_ timing_config_ diagnostics_config_ slices fuel).
Proof using Hf Habort Hpoll PreOrder0.
  apply keeps_bind; [apply _|apply keeps_poll|]. intros []; [apply keeps_ret; apply _|].
  apply keeps_bind; [apply _| |intros _].
  { intros r. unfold env_related. simpl. reflexivity. }
  induction fuel as [|fuel IH]; simpl; [apply keeps_ret; apply _|].
  apply keeps_bind; [apply _|apply keeps_Wait|]. intros [].
  - apply keeps_bind; [apply _|apply keeps_Take|]. intros st. apply keeps_ret. apply _.
  - apply keeps_bind; [apply _|apply keeps_poll|]. intros []; [apply keeps_Abort|done].
Qed.
End KeepsEnv.

(** ** Termination *)

Section Terminates.
Context {E : Type} (f : E → option (option Status) * E) (abort_function : E → E).
Context (should_abort_ : E → bool * E) (timing_config_ : TimingConfig) (diagnostics_config_ : DiagnosticsConfig).
Context (slices : nat → nat) (remaining : E → nat).
Context (Hf : ∀ e e', f e = (None, e') → (remaining e' < remaining e)%nat).
Context (Hpoll : ∀ e, (remaining (should_abort_ e).2 ≤ remaining e)%nat).
Context (Hslices : ∀ n, (1 ≤ slices n)%nat).
Implicit Types (r : InterruptibleRunner E).

Definition pending r : bool := match run_future r with Some p => promise_has_state p | None => false end.

Lemma run_slices_remaining n r r' :
  run_slices f n r = Ok r' → pending r' = true → pending r = true ∧ (remaining (env r') + n ≤ remaining (env r))%nat.
Proof using Hf.
  revert r. induction n as [|n IH]; intros r; simpl.
  - intros [= ->] ?. split; [done|lia].
  - intros (r1 & Hr1 & Hrest)%bind_ok Hp. destruct (IH _ Hrest Hp) as [Hp1 Hle].
    unfold run_slice in Hr1. unfold pending in Hp1 |- *. destruct (run_future r) as [p|] eqn:Hrf.
    + destruct (promise_has_state p) eqn:Hpp; [|simplify_eq; by rewrite Hrf, Hpp in Hp1].
      destruct (f (env r)) as [[st|] e] eqn:Hfe.
      * exfalso. apply bind_ok in Hr1 as (p' & Hset & [= <-]). simpl in Hp1.
        unfold Promise_Set in Hset. apply fcp_check_ok in Hset as [_ (s & _ & [= <-])%bind_ok]. done.
      * simplify_eq. simpl in *. apply Hf in Hfe. split; [done|lia].
    + simplify_eq. by rewrite Hrf in Hp1.
Qed.

Definition uses_up r r' : Prop := pending r' = true → pending r = true ∧ (remaining (env r') < remaining (env r))%nat.

Lemma background_remaining r :
  wp (background f slices) (λ res r', ∀ u, res = Ok u → uses_up r r') r.
Proof using Hf Hslices.
  unfold wp, background. pose proof (Hslices (clock r)).
  destruct (run_slices f (slices (clock r)) (tick r)) as [r1| |] eqn:Hrun; simpl; [|done..].
  intros _ _ Hp. destruct (run_slices_remaining _ _ _ Hrun Hp). simpl in *. split; [done|lia].
Qed.

Lemma Wait_remaining timeout r : wp (Wait f slices timeout) (λ res r', ∀ b, res = Ok b → uses_up r r') r.
Proof using Hf Hslices.
  eapply (wp_bind_ok _ _ (λ _ r', uses_up r r')); [apply background_remaining|]. intros _ r' Hr'. unfold wp, future_ready. by case_match.
Qed.

Lemma poll_remaining r : wp (poll f should_abort_ slices) (λ res r', ∀ b, res = Ok b → uses_up r r') r.
Proof using Hf Hpoll Hslices.
  eapply (wp_bind_ok _ _ (λ _ r', uses_up r r')); [apply background_remaining|]. intros _ r' Hr'. unfold wp, ask. specialize (Hpoll (env r')).
  destruct (should_abort_ (env r')) as [b e]. simpl in *. intros _ _ Hp. destruct (Hr' Hp). simpl in *. split; [done|lia].
Qed.

Lemma task_pending_iff r c : task_state r c → pending r = bool_decide (c = None).
Proof. intros []; unfold pending; simplify_option_eq; by match goal with H : at_stage _ _ |- _ => inversion H end. Qed.

Lemma Abort_not_waiting r :
  wp (Abort f abort_function timing_config_ diagnostics_config_ slices) (λ res _, ∀ out, res = Ok out → out ≠ StillWaiting) r.
Proof.
  unfold Abort. repeat (eapply (wp_bind_ok _ _ (λ _ _, True)); [done|]; intros ? ? _; try case_match); unfold wp; simpl; naive_solver.
Qed.

Lemma wp_conj {A} (m : M (InterruptibleRunner E) A) P Q r : wp m P r → wp m Q r → wp m (λ res r', P res r' ∧ Q res r') r.
Proof. done. Qed.

Lemma WaitUntilDone_terminates fuel r c :
  task_state r c → (0 < fuel)%nat → (pending r = true → remaining (env r) < fuel)%nat →
  wp (WaitUntilDone f abort_function should_abort_ timing_config_ diagnostics_config_ slices fuel)
     (λ res _, ∀ out, res = Ok out → out ≠ StillWaiting) r.
Proof using Hf Hpoll Hslices.
  revert r c. induction fuel as [|fuel IH]; intros r c Hr H0 Hrem; [lia|]. simpl.
  eapply (wp_bind_ok _ _ (λ b r', uses_up r r' ∧ ∃ c', task_state r' c' ∧ b = bool_decide (is_Some c'))).
  { eapply wp_mono; [apply wp_conj; [apply (Wait_remaining (polling_period timing_config_))|by eapply Wait_task]|].
    intros res r' [Hu (b & -> & c' & ? & _ & _ & ->)] ? [= <-]. split; [by eapply Hu|by eauto]. }
  intros b r1 [Hu (c1 & Hr1 & ->)]. destruct c1 as [st|]; simpl.
  - eapply (wp_bind_ok _ _ (λ _ _, True)); [done|]. intros ? ? _. unfold wp. simpl. naive_solver.
  - pose proof (task_pending_iff _ _ Hr1) as Hp1. simpl in Hp1. destruct (Hu Hp1) as [Hp Hlt]. specialize (Hrem Hp).
    eapply (wp_bind_ok _ _ (λ b r', uses_up r1 r' ∧ ∃ c', task_state r' c')).
    { eapply wp_mono; [apply wp_conj; [apply poll_remaining|by eapply poll_task]|].
      intros res r' [Hu' (b & -> & c' & ? & _)] ? [= <-]. split; [by eapply Hu'|by eauto]. }
    intros [] r2 [Hu2 [c2 Hr2]]; [apply Abort_not_waiting|].
    eapply IH; [done|lia|]. intros Hp2. destruct (Hu2 Hp2). lia.
Qed.
End Terminates.

(** C22: A run ends: if the callable ends after finitely many slices, polling does
    not lengthen it and the background thread is not starved, the loop of
    [WaitUntilDone] ends, within as many turns as the callable has slices left. *)
Theorem Run_terminates {E} (f : E → option (option Status) * E) abort_function should_abort_ timing diag slices
    (remaining : E → nat) r :
  (∀ e e', f e = (None, e') → (remaining e' < remaining e)%nat) →
  (∀ e, (remaining (should_abort_ e).2 ≤ remaining e)%nat) →
  (∀ n, (1 ≤ slices n)%nat) → idle r → events r = [] →
  ∃ out r', Run f abort_function should_abort_ timing diag slices (S (remaining (env r))) r = (Ok out, r') ∧
    out ≠ StillWaiting.
Proof.
  intros Hf Hpoll Hs Hi He.
  destruct (Run_post f abort_function should_abort_ timing diag slices (S (remaining (env r))) r Hi He) as (out & Hout & _).
  destruct (Run _ _ _ _ _ _ _ r) as [res r'] eqn:Hrun. simpl in *. subst res. exists out, r'. split; [done|].
  enough (wp (Run f abort_function should_abort_ timing diag slices (S (remaining (env r))))
            (λ res _, ∀ out, res = Ok out → out ≠ StillWaiting) r) as Hwp
    by (unfold wp in Hwp; rewrite Hrun in Hwp; by apply Hwp).
  clear Hrun. eapply (wp_bind_ok _ _ (λ b r', events r' = [Polled b] ∧ (remaining (env r') ≤ remaining (env r))%nat)).
  { unfold poll, wp, mbind, M_bind. rewrite (background_idle _ _ _ Hi). simpl. unfold ask. simpl.
    specialize (Hpoll (env r)). destruct (should_abort_ (env r)) as [b e]. simpl in *. intros ? [= <-].
    by rewrite He. }
  intros [] r1 [He1 Hle]; [unfold wp; simpl; naive_solver|].
  eapply (wp_bind_ok _ _ (λ _ r'', r'' = set_future MakeFuture r1)); [done|]. intros _ ? ->.
  eapply (WaitUntilDone_terminates _ _ _ _ _ _ remaining Hf Hpoll Hs _ _ None); [|lia|simpl; lia].
  eapply task_pending; [done|constructor|]. simpl. by rewrite He1.
Qed.

(** ** Runs of a callable that counts down *)

Definition countdown (n : nat) : option (option Status) * nat :=
  match n with O => (Some None, O) | S n => (None, n) end.
Definition counting (n : nat) : InterruptibleRunner nat := {| env := n; run_future := None; clock := 0; events := [] |}.
Definition example_timing : TimingConfig :=
  {| polling_period := 200; graceful_shutdown_period := 1000; extended_shutdown_period := 2000 |}.
Definition example_diag : DiagnosticsConfig :=
  {| interrupted := 1; interrupt_timeout := 2; interrupted_extended := 3; interrupt_timeout_extended := 4 |}.

(** An abort that cuts the work short. *)
Lemma Run_result_witness :
  ∃ r', Run countdown (λ _, 1%nat) (λ n, (n <=? 18, n)%nat) example_timing example_diag (λ _, 1%nat) 5 (counting 20)
        = (Ok (Returned (Some (CANCELLED, "cancelled after extended wait"%string))), r') ∧
    (∀ n, run_slices countdown n r' = Ok r') ∧ polls (events r') = [false; true].
Proof.
  destruct (Run_result countdown (λ _, 1%nat) (λ n, (n <=? 18, n)%nat) example_timing example_diag (λ _, 1%nat) 5
    (counting 20) I eq_refl) as (out & r' & Hrun & Hspec & Hidle).
  vm_compute in Hrun. injection Hrun as Hout Hr'. exists r'. split_and!.
  - rewrite <- Hr'. vm_compute. reflexivity.
  - by eapply Hidle.
  - rewrite <- Hr'. reflexivity.
Defined.

Lemma Run_terminates_witness :
  ∃ r', Run countdown (λ _, 1%nat) (λ n, (false, n)) example_timing example_diag (λ _, 1%nat) 8 (counting 7) =
        (Ok (Returned None), r').
Proof.
  destruct (Run_terminates countdown (λ _, 1%nat) (λ n, (false, n)) example_timing example_diag (λ _, 1%nat) id (counting 7))
    as (out & r' & Hrun & Hout).
  - intros [|n] e' [= <-]. simpl. lia.
  - simpl. lia.
  - lia.
  - exact I.
  - reflexivity.
  - exists r'. assert (out = Returned None) as ->; [|exact Hrun]. vm_compute in Hrun. by simplify_eq.
Defined.
