(* ===== verification/InMemoryHttp.v ===== *)
(** * Requests and responses in memory: [client/http/in_memory_request_response.cc]

    Requests whose body is a string, callbacks that buffer a response, and the
    functions that perform a group of requests or fetch a group of resources,
    through a cache if there is one. Not in the repository and so arguments of
    the definitions: the [HttpClient] of the platform, an interface of
    [http_client.h]; the gzip streams and [Any] of protobuf; [SimpleAtoi] of
    Abseil. A [Cord] is the list of its fragments. Data are shorter than 2^31
    bytes, the range of the [int]s that measure it in the gzip functions. *)

From S2P Require Import Prelude FileSystem TimeUtil ResourceCache Future InterruptibleRunner HttpUtil.
From stdpp Require Import pretty.
From Stdlib Require Import Ascii.
#[local] Open Scope Z_scope.

Abbreviation Cord := (list (list Z)).

(** ** Libraries *)

(** [absl::SimpleAtoi] for [int64_t]. *)
Class SimpleAtoi := simple_atoi : string → option Z.

(** [GzipOutputStream] over a string, and what [GzipInputStream] returns. *)
Class Gzip := {
  OutputStream : Type;
  new_stream : OutputStream;
  (** The size of the next buffer. *)
  stream_Next : OutputStream → option Z * OutputStream;
  (** The buffer is filled with some bytes, and the rest of it is given back. *)
  stream_fill : list Z → OutputStream → OutputStream;
  stream_Close : OutputStream → bool * OutputStream;
  stream_output : OutputStream → list Z;
  ZlibErrorMessage : OutputStream → string;
  (** The buffers that [Next] of an input stream returns, [None] one of negative
      size, until it returns false; and the error message it then has. *)
  input_buffers : list Z → list (option (list Z)) * option string
}.

(** [written s]: the bytes written to a stream. *)
Class GzipLaws (G : Gzip) := {
  written : OutputStream → list Z;
  written_new : written new_stream = [];
  stream_Next_ok s : ∃ n s', stream_Next s = (Some n, s') ∧ 0 < n < 2 ^ 31 ∧
    ∀ bytes, Z.of_nat (length bytes) ≤ n → written (stream_fill bytes s') = written s ++ bytes;
  stream_Close_ok s : ∃ s', stream_Close s = (true, s') ∧
    ∃ buffers, input_buffers (stream_output s') = (Some <$> buffers, None) ∧ concat buffers = written s
}.

(** ** Compression *)

Section Compression.
Context `{Gzip}.

(** The loop from position [starting_pos] on: [rest] are the [in_size] bytes
    there. A turn consumes at least a byte of it; [fuel] bounds the turns. *)
Fixpoint compress_loop (fuel : nat) (rest : list Z) (s : OutputStream) : Res OutputStream :=
  match rest, fuel with
  | [], _ => Ok s
  | _, O => Crash
  | _, S fuel =>
      match stream_Next s with
      | (None, s) => Error INTERNAL ("An error has occurred during compression: " +:+ ZlibErrorMessage s)
      | (Some out_size, s) =>
          if out_size <=? 0 then Error INTERNAL ("An error has occurred during compression: " +:+ ZlibErrorMessage s)
          else if Z.of_nat (length rest) <=? out_size then Ok (stream_fill rest s)
          else compress_loop fuel (drop (Z.to_nat out_size) rest) (stream_fill (take (Z.to_nat out_size) rest) s)
      end
  end.

Definition CompressWithGzip (uncompressed_data : list Z) : Res (list Z) :=
  s ← compress_loop (length uncompressed_data) uncompressed_data new_stream;
  match stream_Close s with
  | (true, s) => Ok (stream_output s)
  | (false, s) => Error INTERNAL ("Failed to close the stream: " +:+ ZlibErrorMessage s)
  end.

Fixpoint append_buffers (buffers : list (option (list Z))) (out : Cord) : Res Cord :=
  match buffers with
  | [] => Ok out
  | None :: _ => Error INTERNAL "Uncompress failed: invalid input size returned by the GzipInputStream."
  | Some buffer :: buffers => append_buffers buffers (out ++ [buffer])
  end.

Definition UncompressWithGzip (compressed_data : list Z) : Res Cord :=
  let '(buffers, error) := input_buffers compressed_data in
  out ← append_buffers buffers [];
  match error with
  | Some message => Error INTERNAL ("An error has occurred during decompression:" +:+ message)
  | None => Ok out
  end.
End Compression.

(** ** Requests *)

Definition StartsWithIgnoreCase (text prefix : string) : bool :=
  String.prefix (AsciiStrToLower prefix) (AsciiStrToLower text).

Definition EndsWithIgnoreCase (text suffix : string) : bool :=
  bool_decide (list.suffix (String.list_ascii_of_string (AsciiStrToLower suffix))
                         (String.list_ascii_of_string (AsciiStrToLower text))).

Record InMemoryHttpRequest := {
  uri_ : string;
  method_ : Method;
  headers_ : HeaderList;
  body_ : list Z;
  cursor_ : Z
}.

Definition method_value (m : Method) : Z :=
  match m with kHead => 0 | kGet => 1 | kPost => 2 | kPut => 3 | kPatch => 4 | kDelete => 5 end.

Definition allows_body (m : Method) : bool :=
  match m with kPost | kPatch | kPut | kDelete => true | kHead | kGet => false end.

Definition HasBody (r : InMemoryHttpRequest) : bool := match body_ r with [] => false | _ => true end.

Definition str_size (l : list Z) : Z := Z.of_nat (length l).

Definition Create `{Gzip} (uri : string) (method : Method) (extra_headers : HeaderList) (body : list Z)
    (use_compression : bool) : Res InMemoryHttpRequest :=
  if negb (StartsWithIgnoreCase uri kHttpsScheme) && negb (StartsWithIgnoreCase uri kLocalhostUri) then
    Error INVALID_ARGUMENT ("Non-HTTPS URIs are not supported: " +:+ uri)
  else
    '(body, extra_headers) ←
      (if use_compression then
         body ← CompressWithGzip body;
         Ok (body, extra_headers ++ [(kContentEncodingHdr, kGzipEncodingHdrValue)])
       else Ok (body, extra_headers));
    match FindHeader extra_headers kContentLengthHdr with
    | Some _ => Error INVALID_ARGUMENT "Content-Length header should not be provided!"
    | None =>
        match body with
        | [] => Ok {| uri_ := uri; method_ := method; headers_ := extra_headers; body_ := body; cursor_ := 0 |}
        | _ =>
            if negb (allows_body method) then
              Error INVALID_ARGUMENT ("Request method does not allow request body: " +:+ pretty (method_value method))
            else
              Ok {| uri_ := uri; method_ := method;
                    headers_ := extra_headers ++ [(kContentLengthHdr, pretty (str_size body))];
                    body_ := body; cursor_ := 0 |}
        end
    end.

(** The bytes that are written to the buffer. *)
Definition ReadBody (buffer_is_null : bool) (requested : Z) : M InMemoryHttpRequest (list Z) := λ r,
  let bytes_left := str_size (body_ r) - cursor_ r in
  if bytes_left =? 0 then (Error OUT_OF_RANGE "End of stream reached", r)
  else if buffer_is_null then (Crash, r)
  else if negb (0 <? requested) then (Crash, r)
  else
    let actual_read := if bytes_left <=? requested then bytes_left else requested in
    (Ok (take (Z.to_nat actual_read) (drop (Z.to_nat (cursor_ r)) (body_ r))),
     {| uri_ := uri_ r; method_ := method_ r; headers_ := headers_ r; body_ := body_ r;
        cursor_ := cursor_ r + actual_read |}).

(** ** Responses *)

Record HttpResponse := { code : Z; response_headers : HeaderList }.

Record InMemoryHttpResponse := {
  response_code : Z;
  content_encoding : string;
  content_type : string;
  response_body : Cord
}.

Record InMemoryHttpRequestCallback := {
  status_ : option Status;
  response_code_ : option Z;
  content_encoding_ : string;
  content_type_ : string;
  expected_content_length_ : option Z;
  response_buffer_ : Cord
}.

Definition new_callback : InMemoryHttpRequestCallback :=
  {| status_ := Some (UNAVAILABLE, "No response received"%string); response_code_ := None;
     content_encoding_ := EmptyString; content_type_ := EmptyString; expected_content_length_ := None;
     response_buffer_ := [] |}.

Definition set_status (st : option Status) (cb : InMemoryHttpRequestCallback) : InMemoryHttpRequestCallback :=
  {| status_ := st; response_code_ := response_code_ cb; content_encoding_ := content_encoding_ cb;
     content_type_ := content_type_ cb; expected_content_length_ := expected_content_length_ cb;
     response_buffer_ := response_buffer_ cb |}.
Definition set_headers (code : option Z) (encoding type : string) (length : option Z) (cb : InMemoryHttpRequestCallback) :
    InMemoryHttpRequestCallback :=
  {| status_ := status_ cb; response_code_ := code; content_encoding_ := encoding; content_type_ := type;
     expected_content_length_ := length; response_buffer_ := response_buffer_ cb |}.
Definition append_data (data : list Z) (cb : InMemoryHttpRequestCallback) : InMemoryHttpRequestCallback :=
  {| status_ := status_ cb; response_code_ := response_code_ cb; content_encoding_ := content_encoding_ cb;
     content_type_ := content_type_ cb; expected_content_length_ := expected_content_length_ cb;
     response_buffer_ := response_buffer_ cb ++ [data] |}.

(** A callback returns a status to the client. *)
Definition refuse (st : Status) (cb : InMemoryHttpRequestCallback) : option Status * InMemoryHttpRequestCallback :=
  (Some st, set_status (Some st) cb).

Section Callback.
Context `{SimpleAtoi}.

Definition OnResponseStarted (request : InMemoryHttpRequest) (response : HttpResponse)
    (cb : InMemoryHttpRequestCallback) : option Status * InMemoryHttpRequestCallback :=
  let cb := set_headers (Some (code response)) (content_encoding_ cb) (content_type_ cb) (expected_content_length_ cb) cb in
  let content_encoding_header := FindHeader (response_headers response) kContentEncodingHdr in
  match content_encoding_header, FindHeader (headers_ request) kAcceptEncodingHdr with
  | Some _, None => refuse (INVALID_ARGUMENT, "Unexpected header: " +:+ kContentEncodingHdr) cb
  | _, _ =>
      let encoding := default (content_encoding_ cb) content_encoding_header in
      let type := default EmptyString (FindHeader (response_headers response) kContentTypeHdr) in
      let cb := set_headers (response_code_ cb) encoding type (expected_content_length_ cb) cb in
      if match FindHeader (response_headers response) kTransferEncodingHdr with
         | Some h => negb (bool_decide (AsciiStrToLower h = kIdentityEncodingHdrValue))
         | None => false
         end
      then refuse (INVALID_ARGUMENT, "Unexpected header: " +:+ kTransferEncodingHdr) cb
      else
        match FindHeader (response_headers response) kContentLengthHdr with
        | None => (None, cb)
        | Some h =>
            match simple_atoi h with
            | None => refuse (INVALID_ARGUMENT, "Could not parse Content-Length response header"%string) cb
            | Some content_length =>
                if content_length <? 0 then
                  refuse (OUT_OF_RANGE, "Invalid Content-Length response header: " +:+ pretty content_length) cb
                else
                  (None, set_headers (response_code_ cb) (content_encoding_ cb) (content_type_ cb) (Some content_length) cb)
            end
        end
  end.

Definition OnResponseError (error : Status) (cb : InMemoryHttpRequestCallback) : InMemoryHttpRequestCallback :=
  set_status (Some (error.1, "Error receiving response headers (error: " +:+ error.2 +:+ ")")) cb.

Definition OnResponseBody (data : list Z) (cb : InMemoryHttpRequestCallback) :
    option Status * InMemoryHttpRequestCallback :=
  match expected_content_length_ cb with
  | Some expected =>
      if expected <? cord_size (response_buffer_ cb) + str_size data then
        refuse (OUT_OF_RANGE, "Too much response body data received (rcvd: " +:+ pretty (cord_size (response_buffer_ cb)) +:+
                  ", new: " +:+ pretty (str_size data) +:+ ", max: " +:+ pretty expected +:+ ")") cb
      else (None, append_data data cb)
  | None => (None, append_data data cb)
  end.

Definition OnResponseBodyError (response : HttpResponse) (error : Status) (cb : InMemoryHttpRequestCallback) :
    InMemoryHttpRequestCallback :=
  set_status (Some (error.1, "Error receiving response body (response code: " +:+ pretty (code response) +:+
                               ", error: " +:+ error.2 +:+ ")")) cb.

(** A callback that has no response code yet cannot be completed. *)
Definition OnResponseCompleted (cb : InMemoryHttpRequestCallback) : Res InMemoryHttpRequestCallback :=
  match expected_content_length_ cb with
  | Some expected =>
      if negb (cord_size (response_buffer_ cb) =? expected) then
        Ok (set_status (Some (INVALID_ARGUMENT, "Too little response body data received (rcvd: " +:+
              pretty (cord_size (response_buffer_ cb)) +:+ ", expected: " +:+ pretty expected +:+ ")")) cb)
      else match response_code_ cb with
           | Some c => Ok (set_status (ConvertHttpCodeToStatus c) cb)
           | None => Crash
           end
  | None => match response_code_ cb with
            | Some c => Ok (set_status (ConvertHttpCodeToStatus c) cb)
            | None => Crash
            end
  end.

Definition Response (cb : InMemoryHttpRequestCallback) : Res InMemoryHttpResponse :=
  match status_ cb with
  | Some (c, message) => Error c message
  | None =>
      match response_code_ cb with
      | Some c =>
          Ok {| response_code := c; content_encoding := content_encoding_ cb; content_type := content_type_ cb;
                response_body := response_buffer_ cb |}
      | None => Crash
      end
  end.
End Callback.

(** ** The client of the platform: [http_client.h] *)

(** The calls of an [HttpRequestCallback]. *)
Inductive Delivery :=
  | ResponseStarted (response : HttpResponse)
  | ResponseError (error : Status)
  | ResponseBody (data : list Z)
  | ResponseBodyError (response : HttpResponse) (error : Status)
  | ResponseCompleted.

(** What [PerformRequests] does next: it works on its own, reads from the body of
    a request, calls a callback, or returns. *)
Inductive ClientStep (C : Type) :=
  | Working (c : C)
  | Reading (i : nat) (requested : Z) (k : Res (list Z) → C)
  | Delivering (i : nat) (d : Delivery) (k : option Status → C)
  | Returning (status : option Status) (c : C).
Arguments Working {C}.
Arguments Reading {C}.
Arguments Delivering {C}.
Arguments Returning {C}.

Class HttpClient := {
  Client : Type;
  Handle : Type;
  EnqueueRequest : InMemoryHttpRequest → Client → Handle * Client;
  PerformRequests : list Handle → Client → ClientStep Client;
  Cancel : Handle → Client → Client;
  (** Sent and received. *)
  TotalSentReceivedBytes : Handle → Client → Z * Z
}.

(** ** Performing requests *)

Definition deliver `{SimpleAtoi} (request : InMemoryHttpRequest) (d : Delivery) (cb : InMemoryHttpRequestCallback) :
    Res (option Status * InMemoryHttpRequestCallback) :=
  match d with
  | ResponseStarted response => Ok (OnResponseStarted request response cb)
  | ResponseError error => Ok (None, OnResponseError error cb)
  | ResponseBody data => Ok (OnResponseBody data cb)
  | ResponseBodyError response error => Ok (None, OnResponseBodyError response error cb)
  | ResponseCompleted => cb ← OnResponseCompleted cb; Ok (None, cb)
  end.

(** A function that may end the process with [exit] or run out of turns of the
    loop that waits. *)
Inductive Fetch A := FetchDone (r : Res A) | FetchExit | FetchWaiting.
Arguments FetchDone {A}.
Arguments FetchExit {A}.
Arguments FetchWaiting {A}.

Section Perform.
Context `{SimpleAtoi, HttpClient}.

(** What the background thread and the calling thread share during
    [PerformRequests], with the calls of the callbacks so far. [died] is set by
    a check that fails. *)
Record Exchange := {
  client : Client;
  requests : list InMemoryHttpRequest;
  callbacks : list InMemoryHttpRequestCallback;
  delivered : list (nat * Delivery);
  died : bool
}.

Definition set_client (c : Client) (x : Exchange) : Exchange :=
  {| client := c; requests := requests x; callbacks := callbacks x; delivered := delivered x; died := died x |}.
Definition set_request (i : nat) (r : InMemoryHttpRequest) (x : Exchange) : Exchange :=
  {| client := client x; requests := <[i := r]> (requests x); callbacks := callbacks x; delivered := delivered x;
     died := died x |}.
Definition set_callback (i : nat) (d : Delivery) (cb : InMemoryHttpRequestCallback) (x : Exchange) : Exchange :=
  {| client := client x; requests := requests x; callbacks := <[i := cb]> (callbacks x);
     delivered := delivered x ++ [(i, d)]; died := died x |}.
Definition die (x : Exchange) : Exchange :=
  {| client := client x; requests := requests x; callbacks := callbacks x; delivered := delivered x; died := true |}.

Definition perform_slice (handles : list Handle) (x : Exchange) : option (option Status) * Exchange :=
  if died x then (Some None, x)
  else
    match PerformRequests handles (client x) with
    | Working c => (None, set_client c x)
    | Returning status c => (Some status, set_client c x)
    | Reading i requested k =>
        match requests x !! i with
        | None => (None, die x)
        | Some r =>
            match ReadBody false requested r with
            | (Crash, _) => (None, die x)
            | (res, r) => (None, set_client (k res) (set_request i r x))
            end
        end
    | Delivering i d k =>
        match requests x !! i, callbacks x !! i with
        | Some r, Some cb =>
            match deliver r d cb with
            | Ok (status, cb) => (None, set_client (k status) (set_callback i d cb x))
            | _ => (None, die x)
            end
        | _, _ => (None, die x)
        end
    end.

Definition cancel_all (handles : list Handle) (x : Exchange) : Exchange :=
  set_client (foldl (λ c h, Cancel h c) (client x) handles) x.

Fixpoint enqueue_all (rs : list InMemoryHttpRequest) (c : Client) : list Handle * Client :=
  match rs with
  | [] => ([], c)
  | r :: rs =>
      let '(h, c) := EnqueueRequest r c in
      let '(hs, c) := enqueue_all rs c in
      (h :: hs, c)
  end.

(** The client, the two accumulators ([None] for a null pointer) and the steps
    of the background thread so far. *)
Record Net := {
  net_client : Client;
  bytes_received_acc : option Z;
  bytes_sent_acc : option Z;
  net_clock : nat
}.

Definition add_bytes (c : Client) (net : Net) (h : Handle) : Net :=
  let '(sent, received) := TotalSentReceivedBytes h c in
  {| net_client := net_client net; bytes_received_acc := (λ acc, acc + received) <$> bytes_received_acc net;
     bytes_sent_acc := (λ acc, acc + sent) <$> bytes_sent_acc net; net_clock := net_clock net |}.

Definition after_run (handles : list Handle) (x : Exchange) (clock : nat) (net : Net) : Net :=
  foldl (add_bytes (client x))
    {| net_client := client x; bytes_received_acc := bytes_received_acc net; bytes_sent_acc := bytes_sent_acc net;
       net_clock := clock |} handles.

Definition new_exchange (requests : list InMemoryHttpRequest) (c : Client) : Exchange :=
  {| client := c; requests := requests; callbacks := (λ _, new_callback) <$> requests; delivered := []; died := false |}.

Section Runner.
Context (should_abort_ : Client → bool * Client) (timing_config_ : TimingConfig).
Context (diagnostics_config_ : DiagnosticsConfig) (slices : nat → nat) (fuel : nat).

(** The platform's callback does not see the objects of the exchange. *)
Definition poll_abort (x : Exchange) : bool * Exchange :=
  let '(b, c) := should_abort_ (client x) in (b, set_client c x).

(** The call of [interruptible_runner.Run]. *)
Definition run_requests (handles : list Handle) (x : Exchange) (clock : nat) :
    Res Outcome * InterruptibleRunner Exchange :=
  Run (perform_slice handles) (cancel_all handles) poll_abort timing_config_ diagnostics_config_ slices fuel
    {| env := x; run_future := None; InterruptibleRunner.clock := clock; events := [] |}.

Definition PerformMultipleRequestsInMemory (rs : list InMemoryHttpRequest) (net : Net) :
    Fetch (list (Res InMemoryHttpResponse)) * Net :=
  let '(handles, c) := enqueue_all rs (net_client net) in
  let '(out, runner) := run_requests handles (new_exchange rs c) (net_clock net) in
  let x := env runner in
  let net := after_run handles x (InterruptibleRunner.clock runner) net in
  if died x then (FetchDone Crash, net)
  else
    match out with
    | Ok (Returned None) => (FetchDone (Ok (Response <$> callbacks x)), net)
    | Ok (Returned (Some (code, message))) => (FetchDone (Error code message), net)
    | Ok ExitProcess => (FetchExit, net)
    | Ok StillWaiting => (FetchWaiting, net)
    | _ => (FetchDone Crash, net)
    end.

Definition PerformRequestInMemory (r : InMemoryHttpRequest) (net : Net) : Fetch InMemoryHttpResponse * Net :=
  match PerformMultipleRequestsInMemory [r] net with
  | (FetchDone result, net) =>
      (FetchDone (results ← result; match results !! 0%nat with Some response => response | None => Crash end), net)
  | (FetchExit, net) => (FetchExit, net)
  | (FetchWaiting, net) => (FetchWaiting, net)
  end.
End Runner.
End Perform.

(** ** Resources *)

Inductive CompressionFormat := kUncompressed | kGzip.

Record InlineData := { data : Cord; compression_format : CompressionFormat }.
Record Uri `{AbslTime} := { uri : string; client_cache_id : string; max_age : Duration }.
Record UriOrInlineData `{AbslTime} := { uri_of : Uri; inline_data_of : InlineData }.

Definition CreateInlineData `{AbslTime} (zero : Duration) (inline_data : Cord) (format : CompressionFormat) : UriOrInlineData :=
  {| uri_of := {| uri := EmptyString; client_cache_id := EmptyString; max_age := zero |};
     inline_data_of := {| data := inline_data; compression_format := format |} |}.
Definition CreateUri `{AbslTime} (u id : string) (age : Duration) : UriOrInlineData :=
  {| uri_of := {| uri := u; client_cache_id := id; max_age := age |};
     inline_data_of := {| data := []; compression_format := kUncompressed |} |}.

(** [HttpResourceMetadata] in an [Any]. *)
Inductive ResourceCompressionFormat := FORMAT_UNSPECIFIED | FORMAT_GZIP.
#[export] Instance ResourceCompressionFormat_eq_dec : EqDecision ResourceCompressionFormat.
Proof. solve_decision. Defined.

Class MetadataAny := {
  PackFrom : ResourceCompressionFormat → Any;
  UnpackTo : Any → option ResourceCompressionFormat
}.
Class MetadataAnyLaws (A : MetadataAny) := {
  UnpackTo_PackFrom format : UnpackTo (PackFrom format) = Some format
}.

(** The interface [ResourceCache], over the state of a cache. *)
Record ResourceCacheOps `{AbslTime} (S : Type) := {
  cache_Get : string → option Duration → M S ResourceAndMetadata;
  cache_Put : string → Cord → Any → Duration → M S unit
}.
Arguments cache_Get {_ _}.
Arguments cache_Put {_ _}.

Definition kOctetStream : string := "application/octet-stream".
Definition kClientDecodedGzipSuffix : string := "+gzip".

Section Resources.
Context `{AbslTime, SimpleAtoi, Gzip, MetadataAny, HttpClient} {S : Type}.

Definition of_res {A} (r : Res A) : M S A := λ s, (r, s).

Definition TryGetResourceFromCache (id : string) (age : option Duration) (cache : ResourceCacheOps S) : M S Cord :=
  cached ← cache_Get cache id age;
  match UnpackTo (resource_metadata cached) with
  | None => fail INTERNAL "Failed to unpack metadata!"
  | Some FORMAT_GZIP => of_res (UncompressWithGzip (resource cached))
  | Some FORMAT_UNSPECIFIED => mret [resource cached]
  end.

Definition TryPutResourceInCache (id : string) (response_body : Cord) (response_encoded_with_gzip : bool)
    (age : Duration) (cache : ResourceCacheOps S) : M S unit :=
  let metadata := if response_encoded_with_gzip then FORMAT_GZIP else FORMAT_UNSPECIFIED in
  cache_Put cache id response_body (PackFrom metadata) age.

(** The closures of the accessors. *)
Inductive Accessor := CachedResponse (cached : Cord) | HttpResponseAt (index : nat) | InlineResponse (d : InlineData).

Record AccessorAndCacheMetadata := {
  accessor : Accessor;
  access_cache_id : string;
  access_max_age : option Duration      (** not set by the accessors of inline data *)
}.

Definition fake_response (type : string) (body : Cord) : InMemoryHttpResponse :=
  {| response_code := kHttpOk; content_encoding := EmptyString; content_type := type; response_body := body |}.

Definition access (responses : list (Res InMemoryHttpResponse)) (a : Accessor) : Res InMemoryHttpResponse :=
  match a with
  | CachedResponse cached => Ok (fake_response kOctetStream cached)
  | HttpResponseAt i => match responses !! i with Some r => r | None => Crash end
  | InlineResponse d =>
      let type := match compression_format d with
                  | kUncompressed => kOctetStream
                  | kGzip => kOctetStream +:+ kClientDecodedGzipSuffix
                  end in
      Ok (fake_response type (data d))
  end.

Definition is_empty (s : string) : bool := match s with EmptyString => true | _ => false end.

(** A resource that is not in the cache. *)
Definition enqueue_fetch (caching_enabled : bool) (u : Uri)
    (acc : list AccessorAndCacheMetadata * list InMemoryHttpRequest) :
    M S (list AccessorAndCacheMetadata * list InMemoryHttpRequest) :=
  let '(response_accessors, http_requests) := acc in
  request ← of_res (Create (uri u) kGet [] [] false);
  mret (response_accessors ++
          [{| accessor := HttpResponseAt (length http_requests);
              access_cache_id := if caching_enabled then client_cache_id u else EmptyString;
              access_max_age := if caching_enabled then Some (max_age u) else None |}],
        http_requests ++ [request]).

(** The loop over the resources. *)
Definition prepare_resource (cache : option (ResourceCacheOps S)) (resource : UriOrInlineData)
    (acc : list AccessorAndCacheMetadata * list InMemoryHttpRequest) :
    M S (list AccessorAndCacheMetadata * list InMemoryHttpRequest) :=
  let '(response_accessors, http_requests) := acc in
  let u := uri_of resource in
  if negb (is_empty (uri u)) then
    match cache with
    | Some ops =>
        if negb (is_empty (client_cache_id u)) then
          cached_resource ← attempt (TryGetResourceFromCache (client_cache_id u) (Some (max_age u)) ops);
          match cached_resource with
          | inl cached =>
              mret (response_accessors ++
                      [{| accessor := CachedResponse cached; access_cache_id := EmptyString;
                          access_max_age := None |}], http_requests)
          | inr _ => enqueue_fetch true u acc
          end
        else enqueue_fetch true u acc
    | None => enqueue_fetch false u acc
    end
  else
    mret (response_accessors ++
            [{| accessor := InlineResponse (inline_data_of resource); access_cache_id := EmptyString;
                access_max_age := None |}], http_requests).

(** The end of the loop over the accessors, for a response that is OK. *)
Definition decode_response (response : InMemoryHttpResponse) : Res InMemoryHttpResponse :=
  if EndsWithIgnoreCase (content_type response) kClientDecodedGzipSuffix then
    decoded ← UncompressWithGzip (concat (response_body response));
    Ok {| response_code := response_code response; content_encoding := content_encoding response;
          content_type := content_type response; response_body := decoded |}
  else Ok response.

Definition gather_response (cache : option (ResourceCacheOps S)) (responses : list (Res InMemoryHttpResponse))
    (a : AccessorAndCacheMetadata) (result : list (Res InMemoryHttpResponse)) : M S (list (Res InMemoryHttpResponse)) :=
  match access responses (accessor a) with
  | Crash => crash
  | Error c message => mret (result ++ [Error c message])
  | Ok response =>
      let encoded_with_gzip := EndsWithIgnoreCase (content_type response) kClientDecodedGzipSuffix in
      (match cache, access_max_age a with
       | Some ops, Some age =>
           if negb (is_empty (access_cache_id a)) then
             attempt (TryPutResourceInCache (access_cache_id a) (response_body response) encoded_with_gzip age ops);;
             mret tt
           else mret tt
       | _, _ => if negb (is_empty (access_cache_id a)) then crash else mret tt
       end);;
      match decode_response response with
      | Crash => crash
      | decoded => mret (result ++ [decoded])
      end
  end.

Section Runner.
Context (should_abort_ : Client → bool * Client) (timing_config_ : TimingConfig).
Context (diagnostics_config_ : DiagnosticsConfig) (slices : nat → nat) (fuel : nat).

Definition FetchResourcesInMemory (resources : list UriOrInlineData) (cache : option (ResourceCacheOps S))
    (net : Net) (s : S) : Fetch (list (Res InMemoryHttpResponse)) * Net * S :=
  match for_each (prepare_resource cache) resources ([], []) s with
  | (Ok (response_accessors, http_requests), s) =>
      match PerformMultipleRequestsInMemory should_abort_ timing_config_ diagnostics_config_ slices fuel http_requests net with
      | (FetchDone (Ok http_responses), net) =>
          let '(result, s) := for_each (gather_response cache http_responses) response_accessors [] s in
          (FetchDone result, net, s)
      | (FetchDone (Error c message), net) => (FetchDone (Error c message), net, s)
      | (FetchDone Crash, net) => (FetchDone Crash, net, s)
      | (FetchExit, net) => (FetchExit, net, s)
      | (FetchWaiting, net) => (FetchWaiting, net, s)
      end
  | (Error c message, s) => (FetchDone (Error c message), net, s)
  | (Crash, s) => (FetchDone Crash, net, s)
  end.
End Runner.
End Resources.
