(* ===== verification/InMemoryHttpCorrect.v ===== *)
(** * Correctness of the requests and responses in memory *)

From S2P Require Import Prelude FileSystem FileSystemCorrect TimeUtil ResourceCache CacheCorrect CacheRefinement Future InterruptibleRunner HttpUtil InMemoryHttp.
From stdpp Require Import pretty.
#[local] Open Scope Z_scope.

(** ** Compression *)

Section Compression.
Context (G : Gzip) {L : GzipLaws G}.

Lemma compress_loop_ok fuel rest s :
  (length rest ≤ fuel)%nat → ∃ s', compress_loop fuel rest s = Ok s' ∧ written s' = written s ++ rest.
Proof using L.
  revert rest s. induction fuel as [|fuel IH]; intros rest s Hlen.
  { apply Nat.le_0_r, nil_length_inv in Hlen as ->. exists s. by rewrite app_nil_r. }
  destruct rest as [|b rest]; [exists s; by rewrite app_nil_r|].
  destruct (stream_Next_ok s) as (n & s' & Hnext & Hn & Hfill).
  cbn [compress_loop]. rewrite Hnext, (proj2 (Z.leb_gt _ _)) by lia.
  destruct (Z.leb_spec (Z.of_nat (length (b :: rest))) n) as [Hle|Hgt].
  - eexists. split; [done|]. by apply Hfill.
  - destruct (IH (drop (Z.to_nat n) (b :: rest)) (stream_fill (take (Z.to_nat n) (b :: rest)) s')) as (s2 & Hs2 & Hw).
    { rewrite length_drop. simpl in *. lia. }
    exists s2. split; [done|]. rewrite Hw, Hfill, <- (assoc_L (++)), take_drop; [done|]. rewrite length_take. lia.
Qed.

Lemma append_buffers_ok buffers out : append_buffers (Some <$> buffers) out = Ok (out ++ buffers).
Proof.
  revert out. induction buffers as [|b buffers IH]; intros out; simpl; [by rewrite app_nil_r|].
  by rewrite IH, <- (assoc_L (++)).
Qed.

(** [UncompressWithGzip] undoes [CompressWithGzip], which does not fail. *)
Lemma Gzip_roundtrip data :
  ∃ z out, CompressWithGzip data = Ok z ∧ UncompressWithGzip z = Ok out ∧ concat out = data.
Proof using L.
  unfold CompressWithGzip. destruct (compress_loop_ok _ data new_stream (le_n _)) as (s & -> & Hw). simpl.
  destruct (stream_Close_ok s) as (s' & -> & buffers & Hin & Hc).
  eexists _, buffers. split; [done|]. unfold UncompressWithGzip. rewrite Hin. rewrite append_buffers_ok. simpl.
  split; [done|]. by rewrite Hc, Hw, written_new.
Qed.
End Compression.

(** ** Requests *)

(** Reads with buffers of the given sizes, until the end of the stream. *)
Fixpoint read_all (sizes : list Z) (r : InMemoryHttpRequest) : list (list Z) * option StatusCode * InMemoryHttpRequest :=
  match sizes with
  | [] => ([], None, r)
  | n :: sizes =>
      match ReadBody false n r with
      | (Ok chunk, r) => let '(chunks, e, r) := read_all sizes r in (chunk :: chunks, e, r)
      | (Error c _, r) => ([], Some c, r)
      | (Crash, r) => ([], None, r)
      end
  end.

Definition unread (r : InMemoryHttpRequest) : list Z := drop (Z.to_nat (cursor_ r)) (body_ r).

Lemma ReadBody_chunk n r :
  0 < n → 0 ≤ cursor_ r ≤ str_size (body_ r) → unread r ≠ [] →
  ∃ r', ReadBody false n r = (Ok (take (Z.to_nat n) (unread r)), r') ∧
    unread r' = drop (Z.to_nat n) (unread r) ∧ 0 ≤ cursor_ r' ≤ str_size (body_ r').
Proof.
  intros Hn Hc Hne. unfold ReadBody, unread, str_size in *.
  assert (cursor_ r ≠ Z.of_nat (length (body_ r))).
  { intros Heq. apply Hne. apply drop_ge. lia. }
  rewrite (proj2 (Z.eqb_neq _ _)), (proj2 (Z.ltb_lt _ _) Hn) by lia. simpl.
  destruct (Z.leb_spec (Z.of_nat (length (body_ r)) - cursor_ r) n) as [Hle|Hgt]; eexists; (split; [|split]); simpl.
  - f_equal. f_equal. rewrite !take_ge; [done|rewrite length_drop; lia..].
  - simpl. rewrite (drop_ge (drop _ _)), drop_ge; [done|lia|rewrite length_drop; lia].
  - simpl. lia.
  - done.
  - simpl. rewrite drop_drop. f_equal. lia.
  - simpl. lia.
Qed.

Lemma ReadBody_end n r :
  0 ≤ cursor_ r ≤ str_size (body_ r) → unread r = [] → ReadBody false n r = (Error OUT_OF_RANGE "End of stream reached", r).
Proof.
  intros Hc Hnil. apply (f_equal length) in Hnil. unfold unread, str_size in *. rewrite length_drop in Hnil. simpl in Hnil.
  unfold ReadBody, str_size. by rewrite (proj2 (Z.eqb_eq _ _)) by lia.
Qed.

Lemma read_all_spec sizes r :
  Forall (λ n, 0 < n) sizes → 0 ≤ cursor_ r ≤ str_size (body_ r) →
  ∃ chunks e r', read_all sizes r = (chunks, e, r') ∧ concat chunks ++ unread r' = unread r ∧
    Forall (λ c, c ≠ []) chunks ∧
    (e = Some OUT_OF_RANGE ∧ unread r' = [] ∨ e = None ∧ length chunks = length sizes).
Proof.
  intros Hs. revert r. induction Hs as [|n sizes Hn Hs IH]; intros r Hc; simpl.
  { eexists [], None, r. split_and!; [done..|by constructor|by right]. }
  destruct (decide (unread r = [])) as [Hnil|Hne].
  { rewrite ReadBody_end by done. eexists [], _, r. split_and!; [done..|by constructor|by left]. }
  destruct (ReadBody_chunk n r Hn Hc Hne) as (r1 & -> & Hun & Hc1).
  destruct (IH r1 Hc1) as (chunks & e & r' & -> & Hcat & Hne' & He).
  eexists (_ :: chunks), e, r'. split_and!; [done| | |].
  - simpl. rewrite <- (assoc_L (++)), Hcat, Hun. apply take_drop.
  - constructor; [|done]. destruct (unread r); [done|]. destruct (Z.to_nat n) eqn:?; [lia|done].
  - destruct He as [[-> ?]|[-> <-]]; [by left|by right].
Qed.

Lemma FindHeader_snoc hs k v needle :
  FindHeader (hs ++ [(k, v)]) needle =
  match FindHeader hs needle with
  | Some x => Some x
  | None => if bool_decide (AsciiStrToLower k = AsciiStrToLower needle) then Some v else None
  end.
Proof.
  unfold FindHeader. induction hs as [|[k' v'] hs IH]; simpl.
  - by destruct (bool_decide (AsciiStrToLower k = AsciiStrToLower needle)).
  - by destruct (bool_decide (AsciiStrToLower k' = AsciiStrToLower needle)).
Qed.

Lemma length_concat_nonempty (chunks : list (list Z)) :
  Forall (λ c, c ≠ []) chunks → (length chunks ≤ length (concat chunks))%nat.
Proof.
  induction 1 as [|c chunks Hc _ IH]; simpl; [lia|]. rewrite length_app. destruct c; [done|]. simpl. lia.
Qed.

Definition payload_of `{Gzip} (use_compression : bool) (body payload : list Z) : Prop :=
  if use_compression then ∃ out, UncompressWithGzip payload = Ok out ∧ concat out = body else payload = body.

Lemma Create_inv {G : Gzip} {L : GzipLaws G} uri method hdrs body comp r :
  Create uri method hdrs body comp = Ok r →
  payload_of comp body (body_ r) ∧ cursor_ r = 0 ∧ (HasBody r = true → allows_body method = true) ∧
  FindHeader (headers_ r) kContentLengthHdr = if HasBody r then Some (pretty (str_size (body_ r))) else None.
Proof.
  unfold Create. case_match; [done|]. intros ([payload hs] & Hcomp & Hrest)%bind_ok.
  assert (payload_of comp body payload) as Hpay.
  { unfold payload_of. destruct comp; [|by simplify_eq].
    apply bind_ok in Hcomp as (z & Hz & [= <- <-]). destruct (Gzip_roundtrip _ body) as (z' & out & Hz' & ? & ?).
    rewrite Hz in Hz'. simplify_eq. by exists out. }
  simpl in Hrest. destruct (FindHeader hs kContentLengthHdr) eqn:Hcl; [done|].
  destruct payload as [|b payload]; [by simplify_eq|].
  destruct (allows_body method); [|done]. simplify_eq/=. split_and!; [done..|].
  by rewrite FindHeader_snoc, Hcl, bool_decide_true.
Qed.

(** Whatever the sizes of the buffers that the client reads with, it reads
    exactly the payload of a request, in non-empty chunks, and then
    OUT_OF_RANGE. The payload is the body, or what decompresses to it; a
    Content-Length header with its length is there unless it is empty. *)
Lemma Create_ReadBody (G : Gzip) (L : GzipLaws G) uri method hdrs body comp r sizes :
  Create uri method hdrs body comp = Ok r → Forall (λ n, 0 < n) sizes →
  ∃ payload chunks e r', payload_of comp body payload ∧ read_all sizes r = (chunks, e, r') ∧
    Forall (λ c, c ≠ []) chunks ∧ concat chunks `prefix_of` payload ∧
    (e = Some OUT_OF_RANGE → concat chunks = payload) ∧
    ((length payload < length sizes)%nat → e = Some OUT_OF_RANGE) ∧
    FindHeader (headers_ r) kContentLengthHdr = match payload with [] => None | _ => Some (pretty (str_size payload)) end.
Proof.
  intros (Hpay & Hcur & _ & Hlen)%Create_inv Hs.
  destruct (read_all_spec sizes r Hs) as (chunks & e & r' & Hread & Hcat & Hne & He); [unfold str_size; lia|].
  assert (unread r = body_ r) as Hun by (unfold unread; by rewrite Hcur). rewrite Hun in Hcat.
  exists (body_ r), chunks, e, r'. split_and!; [done..|by eexists| | |].
  - intros ->. destruct He as [[_ Hnil]|[? _]]; [|done]. rewrite Hnil, app_nil_r in Hcat. done.
  - intros Hlt. destruct He as [[-> _]|[_ Hl]]; [done|]. exfalso. apply length_concat_nonempty in Hne.
    apply (f_equal length) in Hcat. rewrite length_app in Hcat. lia.
  - rewrite Hlen. unfold HasBody. by destruct (body_ r).
Qed.

(** ** Responses *)

Section Responses.
Context {A : SimpleAtoi}.

(** The calls of a callback, up to the first one that it refuses. *)
Fixpoint feed (request : InMemoryHttpRequest) (ds : list Delivery) (cb : InMemoryHttpRequestCallback) :
    Res InMemoryHttpRequestCallback :=
  match ds with
  | [] => Ok cb
  | d :: ds =>
      '(status, cb) ← deliver request d cb;
      match status with None => feed request ds cb | Some _ => Ok cb end
  end.

Definition has_header (hs : HeaderList) (name : string) : bool :=
  match FindHeader hs name with Some _ => true | None => false end.

(** The length that the headers of a response announce, if any; [None] if they
    are not those of a response that this library can take. *)
Definition announced (request : InMemoryHttpRequest) (response : HttpResponse) : option (option Z) :=
  if has_header (response_headers response) kContentEncodingHdr &&
     negb (has_header (headers_ request) kAcceptEncodingHdr) then None
  else if match FindHeader (response_headers response) kTransferEncodingHdr with
          | Some h => negb (bool_decide (AsciiStrToLower h = "identity"%string))
          | None => false
          end then None
  else match FindHeader (response_headers response) kContentLengthHdr with
       | None => Some None
       | Some h => match simple_atoi h with
                   | Some n => if n <? 0 then None else Some (Some n)
                   | None => None
                   end
       end.

(** The callback after the headers. *)
Definition started_callback (response : HttpResponse) (len : option Z) (chunks : Cord) : InMemoryHttpRequestCallback :=
  {| status_ := status_ new_callback; response_code_ := Some (code response);
     content_encoding_ := default EmptyString (FindHeader (response_headers response) kContentEncodingHdr);
     content_type_ := default EmptyString (FindHeader (response_headers response) kContentTypeHdr);
     expected_content_length_ := len; response_buffer_ := chunks |}.

Lemma OnResponseStarted_announced request response :
  match announced request response with
  | Some len => OnResponseStarted request response new_callback = (None, started_callback response len [])
  | None => ∃ c m cb, OnResponseStarted request response new_callback = (Some (c, m), cb) ∧
              status_ cb = Some (c, m) ∧ (c = INVALID_ARGUMENT ∨ c = OUT_OF_RANGE)
  end.
Proof.
  unfold announced, OnResponseStarted, has_header, kIdentityEncodingHdrValue.
  destruct (FindHeader (response_headers response) kContentEncodingHdr) as [enc|] eqn:Henc,
    (FindHeader (headers_ request) kAcceptEncodingHdr) eqn:Hacc; simpl; try (by eauto 10);
  (destruct (FindHeader (response_headers response) kTransferEncodingHdr) as [t|];
     [destruct (bool_decide (AsciiStrToLower t = "identity"%string)); simpl; [|by eauto 10]|]);
  (destruct (FindHeader (response_headers response) kContentLengthHdr) as [h|];
     [destruct (simple_atoi h) as [n|]; [destruct (n <? 0)|]|]); simpl; try (by eauto 10);
  unfold started_callback; by rewrite Henc.
Qed.

(** What the body adds up to. *)
Lemma feed_body request response len chunks got ds :
  0 ≤ default 0 len →
  match len with
  | Some n => cord_size got ≤ n →
      if n <? cord_size (got ++ chunks) then
        ∃ cb m, feed request ((ResponseBody <$> chunks) ++ ds) (started_callback response len got) = Ok cb ∧
          status_ cb = Some (OUT_OF_RANGE, m)
      else feed request ((ResponseBody <$> chunks) ++ ds) (started_callback response len got) =
           feed request ds (started_callback response len (got ++ chunks))
  | None => feed request ((ResponseBody <$> chunks) ++ ds) (started_callback response len got) =
            feed request ds (started_callback response len (got ++ chunks))
  end.
Proof.
  intros Hlen. revert got. induction chunks as [|c chunks IH]; intros got; simpl.
  { rewrite app_nil_r. destruct len as [n|]; [|done]. intros Hle. by rewrite (proj2 (Z.ltb_ge _ _)). }
  assert (cord_size (got ++ [c]) = cord_size got + str_size c) as Hsz.
  { unfold cord_size, str_size. rewrite concat_app, length_app. simpl. rewrite app_nil_r. lia. }
  specialize (IH (got ++ [c])). rewrite <- (assoc_L (++)) in IH. simpl in IH.
  destruct len as [n|]; unfold OnResponseBody; simpl in *; [|done].
  intros Hle. destruct (Z.ltb_spec n (cord_size got + str_size c)) as [Hgt|Hge]; simpl.
  - assert (cord_size (got ++ [c]) ≤ cord_size (got ++ c :: chunks)).
    { unfold cord_size. rewrite !concat_app, !length_app. simpl. rewrite !length_app. simpl. lia. }
    rewrite (proj2 (Z.ltb_lt _ _)) by lia. eauto.
  - apply IH. lia.
Qed.

(** The status of a response that was delivered completely. *)
Definition complete_status (response : HttpResponse) (len : option Z) (total : Z) : option StatusCode :=
  match len with
  | Some n => if n <? total then Some OUT_OF_RANGE else if total <? n then Some INVALID_ARGUMENT
              else ConvertHttpCodeToStatusCode (code response)
  | None => ConvertHttpCodeToStatusCode (code response)
  end.

Lemma completed_response response len chunks :
  (∀ n, len = Some n → cord_size chunks ≤ n) →
  ∃ cb, OnResponseCompleted (started_callback response len chunks) = Ok cb ∧
    match complete_status response len (cord_size chunks) with
    | None => Response cb = Ok {| response_code := code response;
        content_encoding := default EmptyString (FindHeader (response_headers response) kContentEncodingHdr);
        content_type := default EmptyString (FindHeader (response_headers response) kContentTypeHdr);
        response_body := chunks |}
    | Some c => ∃ m, Response cb = Error c m
    end.
Proof.
  intros Hle. unfold OnResponseCompleted, complete_status. simpl. destruct len as [n|].
  - specialize (Hle n eq_refl). rewrite (proj2 (Z.ltb_ge _ _)) by lia.
    destruct (Z.eqb_spec (cord_size chunks) n) as [->|Hne]; simpl; eexists; (split; [done|]).
    + rewrite Z.ltb_irrefl. unfold Response, ConvertHttpCodeToStatus. simpl. case_match; simpl; eauto.
    + rewrite (proj2 (Z.ltb_lt _ _)) by lia. unfold Response. simpl. eauto.
  - eexists. split; [done|]. unfold Response, ConvertHttpCodeToStatus. simpl. case_match; simpl; eauto.
Qed.
End Responses.

(** A response that the client delivers completely, in whatever chunks, is
    returned with its code, its headers and all of its body exactly when the
    headers are acceptable, the body has the announced length and the code is
    one of success. Too long a body is OUT_OF_RANGE, too short a one
    INVALID_ARGUMENT, another code its canonical status. *)
Lemma Response_delivered (A : SimpleAtoi) request response chunks :
  ∃ cb, feed request (ResponseStarted response :: (ResponseBody <$> chunks) ++ [ResponseCompleted]) new_callback = Ok cb ∧
    match announced request response with
    | None => ∃ c m, Response cb = Error c m ∧ (c = INVALID_ARGUMENT ∨ c = OUT_OF_RANGE)
    | Some len =>
        match complete_status response len (cord_size chunks) with
        | Some c => ∃ m, Response cb = Error c m
        | None => Response cb = Ok {| response_code := code response;
            content_encoding := default EmptyString (FindHeader (response_headers response) kContentEncodingHdr);
            content_type := default EmptyString (FindHeader (response_headers response) kContentTypeHdr);
            response_body := chunks |}
        end
    end.
Proof.
  pose proof (OnResponseStarted_announced request response) as Hst. cbn [feed deliver mbind Res_bind].
  destruct (announced request response) as [len|] eqn:Han.
  - rewrite Hst. assert (0 ≤ default 0 len) as Hlen.
    { unfold announced in Han. repeat (case_match; simplify_eq/=; try lia). }
    pose proof (feed_body request response len chunks [] [ResponseCompleted] Hlen) as Hbody.
    assert ((∃ n, len = Some n ∧ n < cord_size chunks) ∨ ∀ n, len = Some n → cord_size chunks ≤ n) as [(n & -> & Hlt)|Hle].
    { destruct len as [n|]; [|by right]. destruct (Z.lt_ge_cases n (cord_size chunks)); [by left; eauto|].
      right. by intros ? [= <-]. }
    + simpl in Hbody. rewrite (proj2 (Z.ltb_lt _ _) Hlt) in Hbody. destruct Hbody as (cb & m & -> & Hs); [done|].
      exists cb. split; [done|]. simpl. rewrite (proj2 (Z.ltb_lt _ _) Hlt). exists m. unfold Response. by rewrite Hs.
    + destruct (completed_response response len chunks Hle) as (cb & Hc & Hres).
      assert (feed request ((ResponseBody <$> chunks) ++ [ResponseCompleted]) (started_callback response len []) = Ok cb) as ->;
        [|eauto].
      rewrite app_nil_l in Hbody. destruct len as [n|].
      * rewrite (proj2 (Z.ltb_ge _ _) (Hle _ eq_refl)) in Hbody. rewrite Hbody by done. cbn [feed deliver]. by rewrite Hc.
      * rewrite Hbody. cbn [feed deliver]. by rewrite Hc.
  - destruct Hst as (c & m & cb & -> & Hs & Hc). exists cb. split; [done|]. exists c, m. split; [|done].
    unfold Response. by rewrite Hs.
Qed.

(** ** Performing requests *)

(** All calls of a callback. *)
Fixpoint feed_all `{SimpleAtoi} (request : InMemoryHttpRequest) (ds : list Delivery) (cb : InMemoryHttpRequestCallback) :
    Res InMemoryHttpRequestCallback :=
  match ds with
  | [] => Ok cb
  | d :: ds => '(_, cb) ← deliver request d cb; feed_all request ds cb
  end.

(** The calls of the callback of request [i] among the calls of all of them. *)
Definition deliveries_of (i : nat) (l : list (nat * Delivery)) : list Delivery :=
  l ≫= λ '(j, d), if decide (i = j) then [d] else [].

Section Perform.
Context `{SimpleAtoi, HttpClient}.

Lemma feed_all_snoc request ds d cb :
  feed_all request (ds ++ [d]) cb = cb ← feed_all request ds cb; '(_, cb) ← deliver request d cb; Ok cb.
Proof.
  revert cb. induction ds as [|d' ds IH]; intros cb; simpl.
  - destruct (deliver request d cb) as [[st cb']| |]; done.
  - destruct (deliver request d' cb) as [[st cb']| |]; simpl; [apply IH|done..].
Qed.

Lemma deliver_headers r r' d cb : headers_ r = headers_ r' → deliver r d cb = deliver r' d cb.
Proof. intros Hh. destruct d; try done. simpl. unfold OnResponseStarted. by rewrite Hh. Qed.

Lemma ReadBody_headers b n r : headers_ (ReadBody b n r).2 = headers_ r.
Proof. unfold ReadBody. by repeat case_match. Qed.

Lemma deliveries_snoc i l j d :
  deliveries_of i (l ++ [(j, d)]) = deliveries_of i l ++ if decide (i = j) then [d] else [].
Proof. unfold deliveries_of. rewrite bind_app. simpl. by rewrite app_nil_r. Qed.

(** Every callback is in the state into which the calls for its own request
    have brought it. *)
Record exchange_ok (rs : list InMemoryHttpRequest) (x : Exchange) : Prop := {
  ex_length : length (callbacks x) = length rs;
  ex_requests i r0 : rs !! i = Some r0 → ∃ r, requests x !! i = Some r ∧ headers_ r = headers_ r0;
  ex_only i : rs !! i = None → requests x !! i = None;
  ex_callbacks i r0 : rs !! i = Some r0 →
    ∃ cb, callbacks x !! i = Some cb ∧ feed_all r0 (deliveries_of i (delivered x)) new_callback = Ok cb
}.

Lemma new_exchange_ok rs c : exchange_ok rs (new_exchange rs c).
Proof.
  split; simpl; [by rewrite length_fmap|by eauto|done|]. intros i r0 Hi. exists new_callback.
  by rewrite list_lookup_fmap, Hi.
Qed.

Lemma perform_slice_ok rs handles x : exchange_ok rs x → exchange_ok rs (perform_slice handles x).2.
Proof.
  intros Hok. pose proof Hok as [Hlen Hreq Honly Hcb]. unfold perform_slice. destruct (died x); [done|].
  destruct (PerformRequests handles (client x)) as [c|i n k|i d k|st c]; simpl; [by destruct Hok| | |by destruct Hok].
  - destruct (requests x !! i) as [r|] eqn:Hr; [|by destruct Hok].
    pose proof (ReadBody_headers false n r) as Hh.
    assert (exchange_ok rs (set_client (k (ReadBody false n r).1) (set_request i (ReadBody false n r).2 x))) as Hset.
    { split; simpl; try done.
      - intros i' r0 Hi'. destruct (Hreq _ _ Hi') as (r1 & Hr1 & Hh1). destruct (decide (i' = i)) as [->|].
        + exists (ReadBody false n r).2. rewrite list_lookup_insert_eq by by eapply lookup_lt_Some.
          split; [done|]. rewrite Hh. congruence.
        + exists r1. by rewrite list_lookup_insert_ne by done.
      - intros i' Hi'. by apply list_lookup_insert_None, Honly. }
    by destruct (ReadBody false n r) as [[] r'].
  - destruct (requests x !! i) as [r|] eqn:Hr; [|by destruct Hok].
    destruct (callbacks x !! i) as [cb|] eqn:Hc; [|by destruct Hok].
    destruct (deliver r d cb) as [[st cb']| |] eqn:Hd; [|by destruct Hok..].
    split; simpl; try done; [by rewrite length_insert|].
    intros i' r0 Hi'. destruct (Hcb _ _ Hi') as (cb0 & Hcb0 & Hfeed). rewrite deliveries_snoc.
    destruct (decide (i' = i)) as [->|].
    + exists cb'. rewrite list_lookup_insert_eq by by eapply lookup_lt_Some. split; [done|].
      rewrite feed_all_snoc, Hfeed. simpl. destruct (Hreq _ _ Hi') as (r1 & Hr1 & Hh1).
      assert (cb0 = cb) as -> by congruence. assert (r1 = r) as -> by congruence.
      by rewrite <- (deliver_headers r r0), Hd.
    + exists cb0. by rewrite list_lookup_insert_ne, app_nil_r by done.
Qed.

Definition sum_received (handles : list Handle) (c : Client) : Z :=
  foldr (λ h acc, (TotalSentReceivedBytes h c).2 + acc) 0 handles.
Definition sum_sent (handles : list Handle) (c : Client) : Z :=
  foldr (λ h acc, (TotalSentReceivedBytes h c).1 + acc) 0 handles.

Lemma add_bytes_sum handles c net :
  let net' := foldl (add_bytes c) net handles in
  bytes_received_acc net' = (λ acc, acc + sum_received handles c) <$> bytes_received_acc net ∧
  bytes_sent_acc net' = (λ acc, acc + sum_sent handles c) <$> bytes_sent_acc net.
Proof.
  revert net. induction handles as [|h hs IH]; intros net; simpl.
  - destruct (bytes_received_acc net), (bytes_sent_acc net); simpl; by rewrite ?Z.add_0_r.
  - destruct (IH (add_bytes c net h)) as [-> ->]. unfold add_bytes.
    destruct (TotalSentReceivedBytes h c) as [sent received]. simpl.
    destruct (bytes_received_acc net), (bytes_sent_acc net); simpl; split; try done; f_equal; lia.
Qed.
End Perform.

(** C13: A group of requests that is performed returns the responses in the order
    of the requests, each one what its callback made of the calls for that
    request alone, however the client interleaves the calls for different
    requests with each other and with reads of the bodies. Once it has returned,
    the client makes no more calls. The accumulators grow by the bytes sent and
    received for all requests, also when it fails or is interrupted. *)
Theorem PerformMultipleRequests_results `{SimpleAtoi, HttpClient} should_abort_ timing diag slices fuel rs net
    handles c out net' :
  enqueue_all rs (net_client net) = (handles, c) →
  PerformMultipleRequestsInMemory should_abort_ timing diag slices fuel rs net = (out, net') →
  let runner := (run_requests should_abort_ timing diag slices fuel handles (new_exchange rs c) (net_clock net)).2 in
  (∀ results, out = FetchDone (Ok results) →
     length results = length rs ∧
     ∀ i r, rs !! i = Some r →
       ∃ cb, feed_all r (deliveries_of i (delivered (env runner))) new_callback = Ok cb ∧ results !! i = Some (Response cb)) ∧
  (∀ res, out = FetchDone res → died (env runner) = false → ∀ n, run_slices (perform_slice handles) n runner = Ok runner) ∧
  bytes_received_acc net' = (λ acc, acc + sum_received handles (client (env runner))) <$> bytes_received_acc net ∧
  bytes_sent_acc net' = (λ acc, acc + sum_sent handles (client (env runner))) <$> bytes_sent_acc net.
Proof.
  intros Henq Hperf runner. unfold PerformMultipleRequestsInMemory in Hperf. rewrite Henq in Hperf.
  destruct (Run_result (perform_slice handles) (cancel_all handles) (poll_abort should_abort_) timing diag slices fuel
    {| env := new_exchange rs c; run_future := None; InterruptibleRunner.clock := net_clock net; events := [] |} I eq_refl)
    as (o & r' & Hrun & _ & Hidle).
  fold (run_requests should_abort_ timing diag slices fuel handles (new_exchange rs c) (net_clock net)) in Hrun.
  assert (exchange_ok rs (env runner)) as Hok.
  { assert (keeps (env_related (λ x x', exchange_ok rs x → exchange_ok rs x'))
      (Run (perform_slice handles) (cancel_all handles) (poll_abort should_abort_) timing diag slices fuel)) as Hkeeps.
    { apply keeps_Run.
      - split; [by intros ??|intros x1 x2 x3; auto].
      - intros x. apply perform_slice_ok.
      - intros x []. by split.
      - intros x []. unfold poll_abort. destruct (should_abort_ (client x)). by split. }
    apply Hkeeps. apply new_exchange_ok. }
  subst runner. rewrite Hrun in *. simpl in *.
  pose proof (add_bytes_sum handles (client (env r'))
    {| net_client := client (env r'); bytes_received_acc := bytes_received_acc net; bytes_sent_acc := bytes_sent_acc net;
       net_clock := InterruptibleRunner.clock r' |}) as [Hrecv Hsent].
  fold (after_run handles (env r') (InterruptibleRunner.clock r') net) in Hrecv, Hsent. simpl in Hrecv, Hsent.
  assert (net' = after_run handles (env r') (InterruptibleRunner.clock r') net) as ->
    by (repeat case_match; by simplify_eq).
  split_and!; [| |done..].
  - intros results ->. destruct (died (env r')); [done|]. destruct o as [[[]|]| |]; simplify_eq.
    split; [by rewrite length_fmap, (ex_length _ _ Hok)|]. intros i r Hi.
    destruct (ex_callbacks _ _ Hok _ _ Hi) as (cb & Hcb & Hfeed). exists cb. split; [done|].
    by rewrite list_lookup_fmap, Hcb.
  - intros res -> Hd. rewrite Hd in Hperf. destruct o as [st| |]; [by eapply Hidle|done..].
Qed.
