(* ===== verification/HttpFetch.v ===== *)
(** * Fetching resources through a cache

    [ResourceCacheSpec] is what the fetching code relies on in a cache: a map
    from ids to resources that may lose entries when it stores one. The file
    backed cache is an instance; the theorems on [FetchResourcesInMemory] are
    proved against the interface. *)

From S2P Require Import Prelude FileSystem FileSystemCorrect TimeUtil ResourceCache CacheCorrect CacheRefinement Future InterruptibleRunner HttpUtil InMemoryHttp InMemoryHttpCorrect.
From stdpp Require Import pretty.
#[local] Open Scope Z_scope.

Class ResourceCacheSpec `{AbslTime} {S : Type} (ops : ResourceCacheOps S) := {
  cache_state : gmap string (list Z * Any) → S → Prop;
  valid_id : string → Prop;
  max_resource : Z;
  Get_spec v s id age :
    cache_state v s → valid_id id →
    wp (cache_Get ops id age) (λ res s', cache_state v s' ∧
      res = match v !! id with
            | Some (c, meta) => Ok {| resource := c; resource_metadata := meta |}
            | None => Error NOT_FOUND "not found"
            end) s;
  Put_spec v s id cord meta age :
    cache_state v s → valid_id id → cord_size cord ≤ max_resource →
    wp (cache_Put ops id cord meta age) (returns (λ _ s', ∃ kept, kept ⊆ v ∧
      cache_state (match kept !! id with Some _ => kept | None => <[id := (concat cord, meta)]> kept end) s')) s
}.

(** ** The file backed cache *)

Section FileBacked.
Context `{AbslTimeLaws, ProtoDataStore CacheManifest, MapOrder} `{!StdSort, !StdSortLaws _, !ProtoDataStoreLaws _}.
Context (self : FileBackedResourceCache) (Hplaced : placed self) (Hmax : 0 ≤ max_cache_size_bytes_ self < 2 ^ 63).

Definition file_backed_ops : ResourceCacheOps World := {| cache_Get := Get self; cache_Put := Put self |}.

#[export] Program Instance file_backed_spec : ResourceCacheSpec file_backed_ops := {|
  cache_state v w := ∃ m, ready self m w ∧ view self m (tree (disk w)) = v;
  valid_id id := simple_name id = true;
  max_resource := max_cache_size_bytes_ self / 2
|}.
Next Obligation.
  intros v s id age (m & Hr & <-) Hid. eapply wp_mono; [by eapply Get_ready|].
  intros res s' (m' & Hr' & Hv & ->). split; [by exists m'|done].
Qed.
Next Obligation.
  intros v s id cord meta age (m & Hr & <-) Hid Hsz. eapply wp_mono; [by eapply Put_ready|].
  intros res s' (u & -> & m' & kept & Hr' & Hsub & Hv). exists u. split; [done|]. exists kept. split; [done|].
  by exists m'.
Qed.
End FileBacked.

(** ** The order and origin of the results *)

Section Fetch.
Context `{AbslTime, SimpleAtoi, Gzip, MetadataAny, HttpClient} {S : Type}.
Context (cache : option (ResourceCacheOps S)).

(** What inline data stand for. *)
Definition inline_result (d : InlineData) : Res InMemoryHttpResponse :=
  match compression_format d with
  | kUncompressed => Ok (fake_response kOctetStream (data d))
  | kGzip => out ← UncompressWithGzip (concat (data d)); Ok (fake_response (kOctetStream +:+ "+gzip") out)
  end.

(** Where the result for a resource comes from. *)
Inductive fetched (rs : list InMemoryHttpRequest) (responses : list (Res InMemoryHttpResponse))
    (resource : UriOrInlineData) (result : Res InMemoryHttpResponse) : Prop :=
  | fetched_inline :
      uri (uri_of resource) = EmptyString → result = inline_result (inline_data_of resource) →
      fetched rs responses resource result
  | fetched_cached ops s cached s' :
      uri (uri_of resource) ≠ EmptyString → cache = Some ops →
      TryGetResourceFromCache (client_cache_id (uri_of resource)) (Some (max_age (uri_of resource))) ops s = (Ok cached, s') →
      result = Ok (fake_response kOctetStream cached) →
      fetched rs responses resource result
  | fetched_http j request response :
      uri (uri_of resource) ≠ EmptyString → Create (uri (uri_of resource)) kGet [] [] false = Ok request →
      rs !! j = Some request → responses !! j = Some response → result = (r ← response; decode_response r) →
      fetched rs responses resource result.

(** The accessor for a resource. *)
Inductive prepared (rs : list InMemoryHttpRequest) (resource : UriOrInlineData) (a : AccessorAndCacheMetadata) : Prop :=
  | prepared_inline :
      uri (uri_of resource) = EmptyString → accessor a = InlineResponse (inline_data_of resource) → prepared rs resource a
  | prepared_cached ops s cached s' :
      uri (uri_of resource) ≠ EmptyString → cache = Some ops →
      TryGetResourceFromCache (client_cache_id (uri_of resource)) (Some (max_age (uri_of resource))) ops s = (Ok cached, s') →
      accessor a = CachedResponse cached → prepared rs resource a
  | prepared_http j request :
      uri (uri_of resource) ≠ EmptyString → Create (uri (uri_of resource)) kGet [] [] false = Ok request →
      rs !! j = Some request → accessor a = HttpResponseAt j → prepared rs resource a.

Lemma prepared_app rs rs' resource a : prepared rs resource a → prepared (rs ++ rs') resource a.
Proof.
  intros [Hu Hx|ops s cached s' Hu Hx Hg Ha|j request Hu Hx Hg Ha];
    [by eapply prepared_inline|by eapply prepared_cached|eapply prepared_http; try done].
  by apply lookup_app_l_Some.
Qed.

Lemma enqueue_fetch_prepared caching resource accs rs s :
  uri (uri_of resource) ≠ EmptyString →
  wp (enqueue_fetch caching (uri_of resource) (accs, rs))
     (λ res (s' : S), ∀ acc', res = Ok acc' → ∃ a rs', acc' = (accs ++ [a], rs ++ rs') ∧ prepared (rs ++ rs') resource a) s.
Proof.
  intros Hu. unfold enqueue_fetch, of_res, wp, mbind, M_bind.
  destruct (Create (uri (uri_of resource)) kGet [] [] false) as [request| |] eqn:Hc; simpl; [|done..].
  intros acc' [= <-]. eexists _, [request]. split; [done|].
  eapply (prepared_http _ _ _ (length rs)); [done..| |done]. by rewrite list_lookup_middle.
Qed.

Lemma is_empty_true u : is_empty u = true ↔ u = EmptyString.
Proof. by destruct u. Qed.
Lemma is_empty_false u : is_empty u = false ↔ u ≠ EmptyString.
Proof. by destruct u. Qed.

Lemma prepare_resource_prepared resource accs rs s :
  wp (prepare_resource cache resource (accs, rs))
     (λ res s', ∀ acc', res = Ok acc' → ∃ a rs', acc' = (accs ++ [a], rs ++ rs') ∧ prepared (rs ++ rs') resource a) s.
Proof.
  unfold prepare_resource. destruct (is_empty (uri (uri_of resource))) eqn:Hu; cbn [negb].
  { apply wp_ret. intros ? [= <-]. eexists _, []. rewrite app_nil_r. split; [done|].
    apply prepared_inline; [|done]. by apply is_empty_true. }
  apply is_empty_false in Hu. destruct cache as [ops|] eqn:Hcache; [|by apply enqueue_fetch_prepared].
  destruct (is_empty (client_cache_id (uri_of resource))); cbn [negb]; [by apply enqueue_fetch_prepared|].
  apply wp_bind, wp_attempt. unfold wp at 1.
  destruct (TryGetResourceFromCache _ _ ops s) as [[cached|c m|] s'] eqn:Hget; cbn [fst snd]; [| |done].
  - apply wp_ret. intros ? [= <-]. eexists _, []. rewrite app_nil_r. split; [done|]. by eapply prepared_cached.
  - by apply enqueue_fetch_prepared.
Qed.

Lemma prepare_all resources s :
  wp (for_each (prepare_resource cache) resources ([], []))
     (λ res s', ∀ acc, res = Ok acc → Forall2 (prepared acc.2) resources acc.1) s.
Proof.
  eapply (wp_for_each (λ done acc s, Forall2 (prepared acc.2) done acc.1)); [constructor|].
  intros pre x rest [accs rs] s0 _ Hpre. simpl in Hpre.
  eapply wp_mono; [apply prepare_resource_prepared|]. intros res s' Hres acc' Hacc.
  destruct (Hres _ Hacc) as (a & rs' & -> & Ha). simpl. apply Forall2_app; [|by constructor].
  eapply Forall2_impl; [exact Hpre|]. intros. by apply prepared_app.
Qed.

(** The result for an accessor. *)
Definition gathered (responses : list (Res InMemoryHttpResponse)) (a : AccessorAndCacheMetadata)
    (result : Res InMemoryHttpResponse) : Prop :=
  access responses (accessor a) ≠ Crash ∧ result = (r ← access responses (accessor a); decode_response r).

Lemma gather_response_gathered responses a result s :
  wp (gather_response cache responses a result)
     (λ res s', ∀ result', res = Ok result' → ∃ r, result' = result ++ [r] ∧ gathered responses a r) s.
Proof.
  unfold gather_response, gathered. destruct (access responses (accessor a)) as [response|c m|]; [|by unfold wp; simpl; naive_solver|done].
  eapply (wp_bind_ok _ _ (λ _ _, True)); [done|]. intros _ s' _.
  destruct (decode_response response) as [decoded|c m|] eqn:Hd; unfold wp; simpl; rewrite Hd; naive_solver.
Qed.

Lemma gather_all responses accs s :
  wp (for_each (gather_response cache responses) accs [])
     (λ res s', ∀ results, res = Ok results → Forall2 (gathered responses) accs results) s.
Proof.
  eapply (wp_for_each (λ done results s, Forall2 (gathered responses) done results)); [constructor|].
  intros pre x rest results s0 _ Hpre. eapply wp_mono; [apply gather_response_gathered|].
  intros res s' Hres results' Hr. destruct (Hres _ Hr) as (r & -> & Hg). apply Forall2_app; [done|by constructor].
Qed.

Lemma decode_inline d : (r ← access [] (InlineResponse d); decode_response r) = inline_result d.
Proof. unfold inline_result. simpl. unfold decode_response. by destruct (compression_format d). Qed.

Lemma gathered_fetched rs responses resource a result :
  prepared rs resource a → gathered responses a result → fetched rs responses resource result.
Proof.
  intros [Hu Hx|ops s cached s' Hu Hx Hg Ha|j request Hu Hx Hg Ha] [Hnc Hr].
  - apply fetched_inline; [done|]. by rewrite Hr, Hx, <- decode_inline.
  - eapply fetched_cached; [done..|]. by rewrite Hr, Ha.
  - rewrite Ha in *. simpl in *. destruct (responses !! j) as [response|] eqn:Hj; [|done].
    by eapply fetched_http.
Qed.
End Fetch.

(** Fetching resources returns a result per resource, in their order,
    whichever of them are inline, in the cache or have to be fetched: the
    decompressed inline data, the cached resource, or the response to the
    request for its own URI, decompressed if its type says so. *)
Lemma FetchResources_results `{AbslTime, SimpleAtoi, Gzip, MetadataAny, HttpClient} {S : Type}
    should_abort_ timing diag slices fuel (cache : option (ResourceCacheOps S)) resources net s results net' s' :
  FetchResourcesInMemory should_abort_ timing diag slices fuel resources cache net s = (FetchDone (Ok results), net', s') →
  ∃ rs responses,
    PerformMultipleRequestsInMemory should_abort_ timing diag slices fuel rs net = (FetchDone (Ok responses), net') ∧
    Forall2 (fetched cache rs responses) resources results.
Proof.
  unfold FetchResourcesInMemory. intros Hfetch.
  pose proof (prepare_all cache resources s) as Hprep. unfold wp in Hprep.
  destruct (for_each (prepare_resource cache) resources ([], []) s) as [[[accs rs]|c m|] s1]; [|done..].
  destruct (PerformMultipleRequestsInMemory should_abort_ timing diag slices fuel rs net) as [[[responses|c m|]| |] net1] eqn:Hperf;
    try done.
  pose proof (gather_all cache responses accs s1) as Hgather. unfold wp in Hgather.
  destruct (for_each (gather_response cache responses) accs [] s1) as [res s2]. simplify_eq/=.
  exists rs, responses. split; [done|]. specialize (Hprep _ eq_refl). specialize (Hgather _ eq_refl). simpl in Hprep.
  clear -Hprep Hgather. revert results Hgather. induction Hprep as [|resource a resources accs Ha _ IH]; intros results Hg;
    inversion Hg; subst; constructor; [by eapply gathered_fetched|by apply IH].
Qed.

(** ** A resource that was fetched is in the cache *)

Section Cached.
Context `{AbslTime, SimpleAtoi, Gzip, A : MetadataAny, HttpClient} {S : Type} {AL : MetadataAnyLaws A}.
Context (ops : ResourceCacheOps S) {Spec : ResourceCacheSpec ops}.

Lemma for_each_one {St X B} (body : B → X → M St X) x (a : X) (s : St) : for_each body [x] a s = body x a s.
Proof. simpl. unfold mbind, M_bind. by destruct (body x a s) as [[]]. Qed.

(** A miss leads to a request. *)
Lemma prepare_miss resource v s :
  cache_state v s → v !! client_cache_id (uri_of resource) = None → valid_id (client_cache_id (uri_of resource)) →
  client_cache_id (uri_of resource) ≠ EmptyString → uri (uri_of resource) ≠ EmptyString →
  ∃ s', prepare_resource (Some ops) resource ([], []) s = enqueue_fetch true (uri_of resource) ([], []) s' ∧ cache_state v s'.
Proof using Spec.
  intros Hs Hv Hid Hne Hu. unfold prepare_resource. rewrite (proj2 (is_empty_false _) Hu), (proj2 (is_empty_false _) Hne).
  cbn [negb]. pose proof (Get_spec v s (client_cache_id (uri_of resource)) (Some (max_age (uri_of resource))) Hs Hid) as Hget.
  unfold wp in Hget. rewrite Hv in Hget. destruct Hget as [Hs' Hres].
  unfold mbind, M_bind, attempt, TryGetResourceFromCache, mbind, M_bind.
  destruct (cache_Get ops _ _ s) as [res s']. simpl in *. rewrite Hres. by exists s'.
Qed.

(** The metadata that go with a response. *)
Definition format_of (response : InMemoryHttpResponse) : ResourceCompressionFormat :=
  if EndsWithIgnoreCase (content_type response) kClientDecodedGzipSuffix then FORMAT_GZIP else FORMAT_UNSPECIFIED.

(** A response is put into the cache. *)
Lemma gather_puts responses j id age response decoded v s :
  cache_state v s → v !! id = None → valid_id id → id ≠ EmptyString →
  responses !! j = Some (Ok response) → decode_response response = Ok decoded →
  cord_size (response_body response) ≤ max_resource →
  ∃ v' s', gather_response (Some ops) responses
      {| accessor := HttpResponseAt j; access_cache_id := id; access_max_age := Some age |} [] s = (Ok [Ok decoded], s') ∧
    cache_state v' s' ∧ v' !! id = Some (concat (response_body response), PackFrom (format_of response)).
Proof using Spec.
  intros Hs Hv Hid Hne Hj Hdec Hsz. unfold gather_response. cbn [accessor access access_cache_id access_max_age].
  rewrite Hj, (proj2 (is_empty_false _) Hne). cbn [negb].
  pose proof (Put_spec v s id (response_body response) (PackFrom (format_of response)) age Hs Hid Hsz) as Hput.
  unfold wp in Hput. destruct Hput as (u & Hres & kept & Hsub & Hs').
  unfold mbind, M_bind, attempt, TryPutResourceInCache. fold (format_of response).
  destruct (cache_Put ops _ _ _ _ s) as [res s']. simpl in *. rewrite Hres, Hdec.
  assert (kept !! id = None) as Hk.
  { destruct (kept !! id) eqn:Hk; [|done]. eapply lookup_weaken in Hk; [|done]. congruence. }
  rewrite Hk in Hs'. eexists _, s'. split; [done|]. split; [done|]. by rewrite lookup_insert_eq.
Qed.

(** What is in the cache is decoded like the response was. *)
Lemma prepare_hit resource v s response decoded :
  cache_state v s →
  v !! client_cache_id (uri_of resource) = Some (concat (response_body response), PackFrom (format_of response)) →
  valid_id (client_cache_id (uri_of resource)) → client_cache_id (uri_of resource) ≠ EmptyString →
  uri (uri_of resource) ≠ EmptyString → decode_response response = Ok decoded →
  ∃ cached s', prepare_resource (Some ops) resource ([], []) s =
      (Ok ([{| accessor := CachedResponse cached; access_cache_id := EmptyString; access_max_age := None |}], []), s') ∧
    concat cached = concat (response_body decoded).
Proof using AL Spec.
  intros Hs Hv Hid Hne Hu Hdec. unfold prepare_resource.
  rewrite (proj2 (is_empty_false _) Hu), (proj2 (is_empty_false _) Hne). cbn [negb].
  pose proof (Get_spec v s (client_cache_id (uri_of resource)) (Some (max_age (uri_of resource))) Hs Hid) as Hget.
  unfold wp in Hget. rewrite Hv in Hget. destruct Hget as [Hs' Hres].
  unfold mbind, M_bind, attempt, TryGetResourceFromCache, mbind, M_bind.
  destruct (cache_Get ops _ _ s) as [res s']. simpl in *. rewrite Hres. simpl. rewrite UnpackTo_PackFrom.
  unfold format_of, decode_response in *.
  destruct (EndsWithIgnoreCase (content_type response) kClientDecodedGzipSuffix).
  - apply bind_ok in Hdec as (out & Hout & [= <-]). unfold of_res. rewrite Hout. by exists out, s'.
  - injection Hdec as <-. exists [concat (response_body response)], s'. split; [done|]. simpl. by rewrite app_nil_r.
Qed.
End Cached.

(** C21: A resource that was fetched successfully is served from the cache by the
    next fetch: it performs no request and returns the same bytes, also when the
    response was compressed and is kept compressed. The resource has a uri and a
    cache id, which is valid for the cache and was not in it before; the body of
    the response is not larger than what the cache accepts, half of its size in
    the file backed cache; the operations of the cache do not fail; and the next
    fetch is not interrupted. *)
Theorem fetch_uses_cache `{AbslTime, SimpleAtoi, Gzip, A : MetadataAny, HttpClient} {S : Type} (AL : MetadataAnyLaws A)
    (ops : ResourceCacheOps S) (Spec : ResourceCacheSpec ops) should_abort_ timing diag slices fuel
    resource v s net r net1 s1 net2 :
  cache_state v s → v !! client_cache_id (uri_of resource) = None → valid_id (client_cache_id (uri_of resource)) →
  client_cache_id (uri_of resource) ≠ EmptyString → uri (uri_of resource) ≠ EmptyString →
  (∀ request responses net', Create (uri (uri_of resource)) kGet [] [] false = Ok request →
     PerformMultipleRequestsInMemory should_abort_ timing diag slices fuel [request] net = (FetchDone (Ok responses), net') →
     ∀ response, Ok response ∈ responses → cord_size (response_body response) ≤ max_resource) →
  FetchResourcesInMemory should_abort_ timing diag slices fuel [resource] (Some ops) net s = (FetchDone (Ok [Ok r]), net1, s1) →
  PerformMultipleRequestsInMemory should_abort_ timing diag slices fuel [] net1 = (FetchDone (Ok []), net2) →
  ∃ r2 s2,
    FetchResourcesInMemory should_abort_ timing diag slices fuel [resource] (Some ops) net1 s1 = (FetchDone (Ok [Ok r2]), net2, s2) ∧
    concat (response_body r2) = concat (response_body r).
Proof.
  intros Hs Hv Hid Hne Hu Hsz Hfetch Hnone.
  destruct (prepare_miss ops resource v s Hs Hv Hid Hne Hu) as (s' & Hprep & Hs').
  unfold FetchResourcesInMemory in Hfetch. rewrite for_each_one, Hprep in Hfetch.
  unfold enqueue_fetch, of_res, mbind, M_bind in Hfetch.
  destruct (Create (uri (uri_of resource)) kGet [] [] false) as [request| |] eqn:Hcreate; [|done..]. simpl in Hfetch.
  destruct (PerformMultipleRequestsInMemory should_abort_ timing diag slices fuel [request] net)
    as [[[responses|c m|]| |] net'] eqn:Hperf; try done.
  fold (for_each (gather_response (Some ops) responses)) in Hfetch. change (M_bind _ _ ?f ?m ?s) with (mbind f m s) in Hfetch.
  assert (∃ response, responses !! 0%nat = Some (Ok response) ∧ decode_response response = Ok r) as (response & Hj & Hdec).
  { pose proof (gather_response_gathered (Some ops) responses
      {| accessor := HttpResponseAt 0; access_cache_id := client_cache_id (uri_of resource);
         access_max_age := Some (max_age (uri_of resource)) |} [] s') as Hg. unfold wp in Hg.
    unfold mbind, M_bind in Hfetch.
    destruct (gather_response _ _ _ _ s') as [[rs| |] s''] eqn:Hga; simpl in *; [|simplify_eq..].
    simplify_eq. destruct (Hg _ eq_refl) as (r' & [= <-] & Hnc & Hr'). simpl in *.
    destruct (responses !! 0%nat) as [[response| |]|]; simpl in *; try done. by exists response. }
  destruct (gather_puts ops responses 0 _ (max_age (uri_of resource)) response r v s' Hs' Hv Hid Hne Hj Hdec)
    as (v' & s'' & Hgather & Hs'' & Hv').
  { eapply Hsz; [done|exact Hperf|]. by eapply list_elem_of_lookup_2. }
  unfold mbind, M_bind in Hfetch. rewrite Hgather in Hfetch. simpl in Hfetch. simplify_eq.
  destruct (prepare_hit ops resource v' s1 response r Hs'' Hv' Hid Hne Hu Hdec) as (cached & s2 & Hprep2 & Hcat).
  exists (fake_response kOctetStream cached), s2. split; [|done].
  unfold FetchResourcesInMemory. by rewrite for_each_one, Hprep2, Hnone.
Qed.
