(* ===== verification/HttpExamples.v ===== *)
(** * Runs of the HTTP functions

    A client that follows a script, a format that stores its input, and a group
    of requests and fetches with them. *)

From S2P Require Import Prelude FileSystem FileSystemCorrect TimeUtil ResourceCache CacheCorrect CacheRefinement CacheExamples Future InterruptibleRunner HttpUtil InMemoryHttp InMemoryHttpCorrect HttpFetch.
From stdpp Require Import pretty.
From Stdlib Require Import Ascii.
#[local] Open Scope Z_scope.

(** Unsigned decimal numbers. *)
Fixpoint decimal (acc : Z) (s : string) : option Z :=
  match s with
  | EmptyString => Some acc
  | String c s =>
      let d := char_code c - 48 in
      if (0 <=? d) && (d <=? 9) then decimal (10 * acc + d) s else None
  end.
#[export] Instance decimal_atoi : SimpleAtoi := λ s, match s with EmptyString => None | _ => decimal 0 s end.

(** Two bytes in front of the data, which are read in one buffer. *)
#[export] Instance Stored : Gzip := {|
  OutputStream := list Z;
  new_stream := [];
  stream_Next s := (Some 4, s);
  stream_fill bytes s := s ++ bytes;
  stream_Close s := (true, s);
  stream_output s := [31; 139] ++ s;
  ZlibErrorMessage _ := EmptyString;
  input_buffers l :=
    match l with
    | 31 :: 139 :: rest => ([Some rest], None)
    | _ => ([], Some "incorrect header check"%string)
    end
|}.

#[export] Program Instance Stored_laws : GzipLaws Stored := {| written s := s |}.
Next Obligation. done. Defined.
Next Obligation. intros s. exists 4, s. done. Defined.
Next Obligation. intros s. exists s. split; [done|]. exists [s]. simpl. by rewrite app_nil_r. Defined.

#[export] Instance ByteAny : MetadataAny := {|
  PackFrom format := {| type_url := "HttpResourceMetadata"; value := match format with FORMAT_GZIP => [8; 1] | _ => [] end |};
  UnpackTo any := match value any with [] => Some FORMAT_UNSPECIFIED | [8; 1] => Some FORMAT_GZIP | _ => None end
|}.
#[export] Instance ByteAny_laws : MetadataAnyLaws ByteAny.
Proof. split. by intros []. Defined.

(** Delivers what its script says, stops delivering to a callback that refuses,
    and counts ten bytes sent and twenty received for every request. *)
#[export] Instance Scripted : HttpClient := {|
  Client := list (nat * Delivery);
  Handle := nat;
  EnqueueRequest _ c := (0%nat, c);
  PerformRequests _ c :=
    match c with
    | [] => Returning None []
    | (i, d) :: rest =>
        Delivering i d (λ status, match status with None => rest | Some _ => filter (λ x, x.1 ≠ i) rest end)
    end;
  InMemoryHttp.Cancel _ _ := [];
  TotalSentReceivedBytes _ _ := (10, 20)
|}.

Definition never : Client → bool * Client := λ c, (false, c).
Definition octets : HttpResponse :=
  {| code := 200; response_headers := [("content-length", "4"); ("Content-Type", "application/octet-stream+gzip")]%string |}.
Definition not_found : HttpResponse := {| code := 404; response_headers := [] |}.

Definition script : list (nat * Delivery) :=
  [(1%nat, ResponseStarted not_found); (0%nat, ResponseStarted octets); (0%nat, ResponseBody [31; 139; 7]);
   (1%nat, ResponseCompleted); (0%nat, ResponseBody [8]); (0%nat, ResponseCompleted)].

Definition network (c : list (nat * Delivery)) : Net :=
  {| net_client := c; bytes_received_acc := Some 0; bytes_sent_acc := None; net_clock := 0 |}.

Definition get_request (u : string) : InMemoryHttpRequest :=
  {| uri_ := u; method_ := kGet; headers_ := []; body_ := []; cursor_ := 0 |}.

Definition two_requests : list InMemoryHttpRequest := [get_request "https://a"; get_request "https://b"].

Lemma PerformMultipleRequests_results_witness :
  ∃ net', PerformMultipleRequestsInMemory never example_timing example_diag (λ _, 2%nat) 10 two_requests (network script) =
      (FetchDone (Ok [Ok {| response_code := 200; content_encoding := ""; content_type := "application/octet-stream+gzip";
                           response_body := [[31; 139; 7]; [8]] |};
                      Error NOT_FOUND "Request returned non-OK response (code: 404)"]), net') ∧
    bytes_received_acc net' = Some 40 ∧ bytes_sent_acc net' = None.
Proof.
  destruct (enqueue_all two_requests (net_client (network script))) as [handles c] eqn:Henq.
  destruct (PerformMultipleRequestsInMemory never example_timing example_diag (λ _, 2%nat) 10 two_requests (network script))
    as [out net'] eqn:Hperf.
  destruct (PerformMultipleRequests_results _ _ _ _ _ _ _ _ _ _ _ Henq Hperf) as (_ & _ & Hrecv & Hsent).
  exists net'. split; [vm_compute in Hperf; vm_compute; congruence|].
  rewrite Hrecv, Hsent. vm_compute in Henq. injection Henq as <- <-. split; reflexivity.
Defined.

Lemma Create_ReadBody_witness :
  ∃ r, Create "https://host/x" kPost [("Accept", "*/*")]%string [1; 2; 3; 4; 5; 6] true = Ok r ∧
    ∃ payload chunks r', read_all [3; 3; 3; 3] r = (chunks, Some OUT_OF_RANGE, r') ∧ concat chunks = payload ∧
      payload_of true [1; 2; 3; 4; 5; 6] payload.
Proof.
  eexists. split; [vm_compute; reflexivity|].
  destruct (Create_ReadBody Stored Stored_laws "https://host/x" kPost [("Accept", "*/*")]%string [1; 2; 3; 4; 5; 6] true
    _ [3; 3; 3; 3] eq_refl ltac:(repeat constructor)) as (payload & chunks & e & r' & Hp & Hread & _ & _ & Hcat & _).
  assert (e = Some OUT_OF_RANGE) as -> by (vm_compute in Hread; by simplify_eq).
  exists payload, chunks, r'. split; [exact Hread|]. split; [by apply Hcat|done].
Defined.

(** Inline data, a resource with a cache id and one without, which fails. *)
Definition page : UriOrInlineData := CreateUri "https://page" "page" hour.
Definition three_resources : list UriOrInlineData :=
  [page; CreateInlineData (Finite 0) [[31; 139]; [5]] kGzip; CreateUri "https://gone" "" hour].

Definition fetch_first :=
  FetchResourcesInMemory never example_timing example_diag (λ _, 2%nat) 10 three_resources
    (Some (file_backed_ops example_cache)) (network script) (created no_faults).

Lemma FetchResources_results_witness :
  ∃ r1 r2 c m rs responses,
    fetch_first.1.1 = FetchDone (Ok [Ok r1; Ok r2; Error c m]) ∧
    concat (response_body r1) = [7; 8] ∧ concat (response_body r2) = [5] ∧
    fetched (Some (file_backed_ops example_cache)) rs responses page (Ok r1).
Proof.
  destruct fetch_first as [[out net'] s'] eqn:Hfetch.
  assert (∃ r1 r2 c m, out = FetchDone (Ok [Ok r1; Ok r2; Error c m]) ∧
    concat (response_body r1) = [7; 8] ∧ concat (response_body r2) = [5]) as (r1 & r2 & c & m & -> & H1 & H2).
  { apply (f_equal (λ x, x.1.1)) in Hfetch. simpl in Hfetch. rewrite <- Hfetch. clear. vm_compute.
    eexists _, _, _, _. split; [reflexivity|]. split; reflexivity. }
  destruct (FetchResources_results _ _ _ _ _ _ _ _ _ _ _ _ Hfetch) as (rs & responses & _ & Hall).
  exists r1, r2, c, m, rs, responses. split_and!; [done..|]. by inversion Hall.
Defined.

Definition fetch_page (c : list (nat * Delivery)) (w : World) :=
  FetchResourcesInMemory never example_timing example_diag (λ _, 2%nat) 10 [page]
    (Some (file_backed_ops example_cache)) (network c) w.

(** The page is fetched once; the second fetch finds it in the cache, compressed. *)
Lemma fetch_uses_cache_witness :
  ∃ r net1 w1, fetch_page (filter (λ x, x.1 = 0%nat) script) (created no_faults) = (FetchDone (Ok [Ok r]), net1, w1) ∧
    concat (response_body r) = [7; 8] ∧
    ∃ r2, (FetchResourcesInMemory never example_timing example_diag (λ _, 2%nat) 10 [page]
                (Some (file_backed_ops example_cache)) net1 w1).1.1 = FetchDone (Ok [Ok r2]) ∧
      concat (response_body r2) = [7; 8].
Proof.
  destruct (fetch_page (filter (λ x, x.1 = 0%nat) script) (created no_faults)) as [[out net1] w1] eqn:Hfetch.
  assert (∃ r, out = FetchDone (Ok [Ok r]) ∧ concat (response_body r) = [7; 8]) as (r & -> & Hr).
  { apply (f_equal (λ x, x.1.1)) in Hfetch. simpl in Hfetch. rewrite <- Hfetch. clear. vm_compute.
    eexists. split; reflexivity. }
  assert (net1 = {| net_client := []; bytes_received_acc := Some 20; bytes_sent_acc := None; net_clock := net_clock net1 |}) as Hnet.
  { apply (f_equal (λ x, x.1.2)) in Hfetch. simpl in Hfetch. rewrite <- Hfetch. vm_compute. reflexivity. }
  exists r, net1, w1. split; [done|]. split; [done|].
  assert (∃ net2, PerformMultipleRequestsInMemory never example_timing example_diag (λ _, 2%nat) 10 [] net1 = (FetchDone (Ok []), net2))
    as [net2 Hnone] by (rewrite Hnet; eexists; vm_compute; reflexivity).
  destruct (fetch_uses_cache ByteAny_laws (file_backed_ops example_cache)
    (file_backed_spec example_cache (cache_of_placed _ _ _) ltac:(simpl; lia))
    never example_timing example_diag (λ _, 2%nat) 10 page ∅ (created no_faults) (network (filter (λ x, x.1 = 0%nat) script)) r net1 w1 net2) as (r2 & w2 & H2 & Hcat).
  - exists ∅. split; [apply ready_created|]. apply map_eq. intros id. by rewrite lookup_view, !lookup_empty.
  - apply lookup_empty.
  - reflexivity.
  - done.
  - done.
  - intros request responses net' Hc Hp. injection Hc as <-. vm_compute in Hp. injection Hp as <- _.
    intros response [= ->]%list_elem_of_singleton. vm_compute. done.
  - exact Hfetch.
  - exact Hnone.
  - exists r2. rewrite H2. split; [done|]. by rewrite Hcat.
Defined.
