(* ===== verification/Chunking.v ===== *)
(** * Chunked streams: [protocol/grpc_chunked_bidi_stream.h]

    Client and server exchange messages over a bidirectional stream.  A message
    can be sent in chunks: a start, pieces of the encoded message, which the
    receiver acknowledges, and an end; a sender has only so many pieces under
    way, and keeps the others in a queue.

    The class is a template over the types of the outgoing and the incoming
    messages; the two methods that are specialised for the client are the class
    [Side].  The encodings of messages are the class [Codec].  [Endpoint] is an
    object together with its end of the stream: what has arrived and is not read
    ([inbox]), what it has written ([outbox]) and how its next writes end.  A
    read of an empty stream that the peer has not ended waits: [Receive] returns
    [None], and the loop goes on when it is called again, since it has no state
    of its own.  The compression that gRPC itself applies is not modelled. *)

From S2P Require Import Prelude TimeUtil FileSystem.

(** ** Messages *)

Definition UNCOMPRESSED : Z := 0.
Definition ZLIB_DEFAULT : Z := 1.
Definition ZLIB_BEST_COMPRESSION : Z := 2.
Definition ZLIB_BEST_SPEED : Z := 3.

Inductive ChunkedTransferMessage :=
  | Start (start_uncompressed_size start_compression_level start_blob_size_bytes : Z)
  | Data (chunk_index : Z) (chunk_bytes : list Z)
  | End_ (chunk_count : Z)
  | Ack (ack_chunk_index : Z)
  | KindNotSet.

(** A message of the stream: its kind is [kChunkedTransfer] or another one. *)
Inductive Wire (M : Type) := Whole (m : M) | ChunkedTransfer (c : ChunkedTransferMessage).
Arguments Whole {_} _.
Arguments ChunkedTransfer {_} _.

(** The encodings of messages: plain, and through the streams of zlib. *)
Class Codec (T : Type) := {
  AppendToString : T → option (list Z);
  SerializeCompressed : Z → T → option (list Z);
  ParseFromString : list Z → option (Wire T);
  ParseCompressed : list Z → option (Wire T);
  ByteSizeLong : Wire T → Z
}.

Class CodecLaws `(Codec T) := {
  AppendToString_parse m o : AppendToString m = Some o → ParseFromString o = Some (Whole m);
  SerializeCompressed_parse level m o : SerializeCompressed level m = Some o → ParseCompressed o = Some (Whole m)
}.

Record ProtocolOptionsRequest := {
  supports_chunked_blob_transfer : bool;
  supported_compression_levels : list Z
}.

Record ProtocolOptionsResponse := {
  response_chunk_size_for_upload : Z;
  response_max_pending_chunks : Z;
  response_compression_level : Z
}.

(** [snoop] is [None] for a message that is not looked at. *)
Class Side (Outgoing Incoming : Type) := {
  decorate : Outgoing → Outgoing;
  snoop : Incoming → option (option ProtocolOptionsResponse)
}.

(** ** The object *)

Record IncomingState := {
  uncompressed_size : Z;
  incoming_compression_level : Z;
  blob_size_bytes : Z;
  incoming_deque : list (list Z);
  composite : list Z;
  total_bytes_downloaded : Z
}.

Record OutgoingState (Outgoing : Type) := {
  chunk_size_for_upload : Z;
  max_pending_chunks : Z;
  pending_chunks : Z;
  compression_level : Z;
  outgoing_deque : list (Wire Outgoing);
  total_bytes_uploaded : Z
}.
Arguments chunk_size_for_upload {_} _.
Arguments max_pending_chunks {_} _.
Arguments pending_chunks {_} _.
Arguments compression_level {_} _.
Arguments outgoing_deque {_} _.
Arguments total_bytes_uploaded {_} _.

Record Endpoint (Outgoing Incoming : Type) := {
  (** The two pointers are not null. *)
  writer_interface_ : bool;
  reader_interface_ : bool;
  incoming_ : IncomingState;
  outgoing_ : OutgoingState Outgoing;
  inbox : list (Wire Incoming);
  (** The peer has ended the stream behind [inbox]. *)
  ended : bool;
  outbox : list (Wire Outgoing);
  (** Whether the next calls of [Write] succeed. *)
  writes : list bool
}.
Arguments writer_interface_ {_ _} _.
Arguments reader_interface_ {_ _} _.
Arguments incoming_ {_ _} _.
Arguments outgoing_ {_ _} _.
Arguments inbox {_ _} _.
Arguments ended {_ _} _.
Arguments outbox {_ _} _.
Arguments writes {_ _} _.

Record GrpcChunkedBidiStreamOptions := {
  option_chunk_size_for_upload : Z;
  option_max_pending_chunks : Z;
  option_compression_level : Z
}.

Definition default_options : GrpcChunkedBidiStreamOptions :=
  {| option_chunk_size_for_upload := -1; option_max_pending_chunks := -1; option_compression_level := UNCOMPRESSED |}.

Definition new_incoming : IncomingState :=
  {| uncompressed_size := -1; incoming_compression_level := UNCOMPRESSED; blob_size_bytes := -1;
     incoming_deque := []; composite := []; total_bytes_downloaded := 0 |}.

Definition new_stream {Out In} (options : GrpcChunkedBidiStreamOptions) : Endpoint Out In :=
  {| writer_interface_ := true; reader_interface_ := true;
     incoming_ := new_incoming;
     outgoing_ := {| chunk_size_for_upload := option_chunk_size_for_upload options;
                     max_pending_chunks := option_max_pending_chunks options; pending_chunks := 0;
                     compression_level := option_compression_level options; outgoing_deque := [];
                     total_bytes_uploaded := 0 |};
     inbox := []; ended := false; outbox := []; writes := [] |}.

Section Chunking.
Context {Out In : Type} `{!Codec Out, !Codec In, !Side Out In}.
Local Abbreviation E := (Endpoint Out In).

(** ** Updates of the state *)

Definition set_incoming (i : IncomingState) (e : E) : E :=
  {| writer_interface_ := writer_interface_ e; reader_interface_ := reader_interface_ e; incoming_ := i;
     outgoing_ := outgoing_ e; inbox := inbox e; ended := ended e; outbox := outbox e; writes := writes e |}.
Definition set_outgoing (o : OutgoingState Out) (e : E) : E :=
  {| writer_interface_ := writer_interface_ e; reader_interface_ := reader_interface_ e; incoming_ := incoming_ e;
     outgoing_ := o; inbox := inbox e; ended := ended e; outbox := outbox e; writes := writes e |}.

Definition with_queue (l : list (Wire Out)) (o : OutgoingState Out) : OutgoingState Out :=
  {| chunk_size_for_upload := chunk_size_for_upload o; max_pending_chunks := max_pending_chunks o;
     pending_chunks := pending_chunks o; compression_level := compression_level o; outgoing_deque := l;
     total_bytes_uploaded := total_bytes_uploaded o |}.
Definition with_pending (n : Z) (o : OutgoingState Out) : OutgoingState Out :=
  {| chunk_size_for_upload := chunk_size_for_upload o; max_pending_chunks := max_pending_chunks o;
     pending_chunks := n; compression_level := compression_level o; outgoing_deque := outgoing_deque o;
     total_bytes_uploaded := total_bytes_uploaded o |}.

Definition on_outgoing (f : OutgoingState Out → OutgoingState Out) : M E unit :=
  modify (λ e, set_outgoing (f (outgoing_ e)) e).

Definition Close : M E unit :=
  modify (λ e, {| writer_interface_ := false; reader_interface_ := false; incoming_ := incoming_ e;
                  outgoing_ := outgoing_ e; inbox := inbox e; ended := ended e; outbox := outbox e;
                  writes := writes e |}).

(** ** Sending *)

(** [Write] of gRPC: whether it succeeded. *)
Definition Write (message : Wire Out) : M E bool := λ e,
  let ok := default true (head (writes e)) in
  (Ok ok, {| writer_interface_ := writer_interface_ e; reader_interface_ := reader_interface_ e;
             incoming_ := incoming_ e; outgoing_ := outgoing_ e; inbox := inbox e; ended := ended e;
             outbox := if ok then outbox e ++ [message] else outbox e; writes := tail (writes e) |}).

Definition SendRaw (message : Wire Out) : M E unit :=
  e ← get;
  if negb (writer_interface_ e) then fail FAILED_PRECONDITION "Send on closed stream."
  else
    on_outgoing (λ o,
      {| chunk_size_for_upload := chunk_size_for_upload o; max_pending_chunks := max_pending_chunks o;
         pending_chunks := pending_chunks o; compression_level := compression_level o;
         outgoing_deque := outgoing_deque o;
         total_bytes_uploaded := total_bytes_uploaded o + ByteSizeLong message |});;
    ok ← Write message;
    if ok : bool then mret tt else Close;; fail ABORTED "End of stream.".

Definition SendAck (chunk_index : Z) : M E unit := SendRaw (ChunkedTransfer (Ack chunk_index)).

Definition is_data (w : Wire Out) : bool :=
  match w with ChunkedTransfer (Data _ _) => true | _ => false end.

(** The loop, over the queue. *)
Fixpoint send_pending (deque : list (Wire Out)) : M E unit :=
  match deque with
  | [] => mret tt
  | front :: rest =>
      e ← get;
      if pending_chunks (outgoing_ e) <? max_pending_chunks (outgoing_ e) then
        SendRaw front;;
        (if is_data front then on_outgoing (λ o, with_pending (pending_chunks o + 1) o) else mret tt);;
        on_outgoing (with_queue rest);;
        send_pending rest
      else mret tt
  end.

Definition TrySendPending : M E unit := e ← get; send_pending (outgoing_deque (outgoing_ e)).

(** [std::string::substr], which throws when the offset is behind the end. *)
Definition substr (s : list Z) (offset count : Z) : option (list Z) :=
  if Z.of_nat (length s) <? offset then None else Some (take (Z.to_nat count) (drop (Z.to_nat offset) s)).

(** The loop over the pieces of the encoded message: the messages and the number
    of pieces.  [offset] is a [size_t], the size and the index are [int32_t]. *)
Fixpoint chunk_loop (fuel : nat) (output : list Z) (blob_size chunk_size offset chunk_index : Z) :
    Res (list (Wire Out) * Z) :=
  match fuel with
  | O => Crash
  | S fuel =>
      if offset <? u64 blob_size then
        match substr output offset chunk_size with
        | None => Crash
        | Some chunk_bytes =>
            match chunk_loop fuel output blob_size chunk_size (u64 (offset + Z.min blob_size chunk_size)) (chunk_index + 1) with
            | Ok (l, n) => Ok (ChunkedTransfer (Data chunk_index chunk_bytes) :: l, n)
            | Error c m => Error c m
            | Crash => Crash
            end
        end
      else Ok ([], chunk_index)
  end.

Definition lift_res {A} (r : Res A) : M E A := λ e, (r, e).

Definition push (l : list (Wire Out)) : M E unit := on_outgoing (λ o, with_queue (outgoing_deque o ++ l) o).

(** The encoded message. *)
Definition encode_message (level : Z) (message : Out) : M E (list Z) :=
  if decide (level = UNCOMPRESSED) then
    match AppendToString message with
    | None => fail INTERNAL "Could not append to string."
    | Some output => mret output
    end
  else if bool_decide (level = ZLIB_DEFAULT) || bool_decide (level = ZLIB_BEST_COMPRESSION) ||
          bool_decide (level = ZLIB_BEST_SPEED) then
    match SerializeCompressed level message with
    | None => fail INVALID_ARGUMENT "Failed to serialize message"
    | Some output => mret output
    end
  else Close;; fail INTERNAL "Unsupported compression level.".

(** The start is put into the queue first; when the encoding fails it stays there
    without the sizes. *)
Definition ChunkMessage (message : Out) : M E unit :=
  e ← get;
  let level := compression_level (outgoing_ e) in
  let chunk_size := chunk_size_for_upload (outgoing_ e) in
  encoded ← attempt (encode_message level message);
  match encoded with
  | inr (c, m) => push [ChunkedTransfer (Start 0 level 0)];; fail c m
  | inl output =>
      let size := i32 (Z.of_nat (length output)) in
      let blob_size := if size =? 0 then 1 else size in
      '(chunks, count) ← lift_res (chunk_loop (S (S (length output))) output blob_size chunk_size 0 0);
      push (ChunkedTransfer (Start (i32 (ByteSizeLong (Whole message))) level blob_size)
              :: chunks ++ [ChunkedTransfer (End_ count)])
  end.

Definition TrySend (message : Out) : M E unit :=
  e ← get;
  if (chunk_size_for_upload (outgoing_ e) <=? 0) || (max_pending_chunks (outgoing_ e) <=? 0) then SendRaw (Whole message)
  else
    status ← attempt (ChunkMessage message);
    match status with
    | inr (c, m) => Close;; fail c m
    | inl _ => TrySendPending
    end.

Definition Send (message : Wire Out) : M E unit :=
  match message with
  | ChunkedTransfer _ => Close;; fail INVALID_ARGUMENT "Message is pre-chunked"
  | Whole m => TrySend (decorate m)
  end.

(** ** Receiving *)

(** [None] when nothing has arrived. *)
Definition ReceiveRaw : M E (option (Wire In)) :=
  e ← get;
  if negb (reader_interface_ e) then fail FAILED_PRECONDITION "Receive on closed stream."
  else
    match inbox e with
    | [] => if ended e then Close;; fail ABORTED "End of stream." else mret None
    | message :: rest =>
        modify (λ e,
          {| writer_interface_ := writer_interface_ e; reader_interface_ := reader_interface_ e;
             incoming_ := {| uncompressed_size := uncompressed_size (incoming_ e);
                             incoming_compression_level := incoming_compression_level (incoming_ e);
                             blob_size_bytes := blob_size_bytes (incoming_ e);
                             incoming_deque := incoming_deque (incoming_ e); composite := composite (incoming_ e);
                             total_bytes_downloaded := total_bytes_downloaded (incoming_ e) + ByteSizeLong message |};
             outgoing_ := outgoing_ e; inbox := rest; ended := ended e; outbox := outbox e; writes := writes e |});;
        mret (Some message)
    end.

(** The message when it is assembled. *)
Definition AssemblePending : M E (option (Wire In)) :=
  e ← get;
  let i := incoming_ e in
  let parsed :=
    if decide (incoming_compression_level i = UNCOMPRESSED) then ParseFromString (composite i)
    else ParseCompressed (composite i) in
  match parsed with
  | None => fail INTERNAL "Could not parse."
  | Some message =>
      modify (set_incoming {| uncompressed_size := -1; incoming_compression_level := incoming_compression_level i;
                              blob_size_bytes := -1; incoming_deque := []; composite := [];
                              total_bytes_downloaded := total_bytes_downloaded i |});;
      mret (Some message)
  end.

(** [chunk_index] and [chunk_count] are compared with a [size_t]. *)
Definition TryAssemblePending (chunk : ChunkedTransferMessage) : M E (option (Wire In)) :=
  e ← get;
  let i := incoming_ e in
  match chunk with
  | Start start_size start_level start_blob =>
      if negb (bool_decide (incoming_deque i = [])) || negb (uncompressed_size i =? -1) then
        fail INTERNAL "Unexpected Start."
      else
        modify (set_incoming {| uncompressed_size := start_size; incoming_compression_level := start_level;
                                blob_size_bytes := start_blob; incoming_deque := incoming_deque i;
                                composite := composite i; total_bytes_downloaded := total_bytes_downloaded i |});;
        mret None
  | Data chunk_index chunk_bytes =>
      if negb (u64 chunk_index =? Z.of_nat (length (incoming_deque i))) then fail INTERNAL "Unexpected Data."
      else
        modify (set_incoming {| uncompressed_size := uncompressed_size i;
                                incoming_compression_level := incoming_compression_level i;
                                blob_size_bytes := blob_size_bytes i;
                                incoming_deque := incoming_deque i ++ [chunk_bytes];
                                composite := composite i ++ chunk_bytes;
                                total_bytes_downloaded := total_bytes_downloaded i |});;
        SendAck (i32 (Z.of_nat (length (incoming_deque i ++ [chunk_bytes])) - 1));;
        mret None
  | End_ chunk_count =>
      if bool_decide (incoming_deque i = []) || negb (u64 chunk_count =? Z.of_nat (length (incoming_deque i))) then
        fail INTERNAL "Unexpected End."
      else AssemblePending
  | Ack _ => fail INTERNAL "Unexpected Ack."
  | KindNotSet => fail INTERNAL "Unexpected message subtype"
  end.

Definition TrySnoopCheckinResponse (message : Wire In) : M E unit :=
  match message with
  | ChunkedTransfer _ => mret tt
  | Whole m =>
      match snoop m with
      | None => mret tt
      | Some options =>
          e ← get;
          if negb (uncompressed_size (incoming_ e) =? -1) then fail INVALID_ARGUMENT "Chunk reassembly in progress."
          else
            match options with
            | None => mret tt
            | Some r =>
                on_outgoing (λ o,
                  {| chunk_size_for_upload := response_chunk_size_for_upload r;
                     max_pending_chunks := response_max_pending_chunks r; pending_chunks := pending_chunks o;
                     compression_level := response_compression_level r; outgoing_deque := outgoing_deque o;
                     total_bytes_uploaded := total_bytes_uploaded o |})
            end
      end
  end.

(** The loop of [Receive]; every turn takes a message from [inbox]. *)
Fixpoint receive_loop (fuel : nat) : M E (option (Wire In)) :=
  match fuel with
  | O => crash
  | S fuel =>
      r ← ReceiveRaw;
      match r with
      | None => mret None
      | Some (ChunkedTransfer (Ack _)) =>
          on_outgoing (λ o, with_pending (pending_chunks o - 1) o);;
          TrySendPending;;
          receive_loop fuel
      | Some (ChunkedTransfer chunk) =>
          assembled ← TryAssemblePending chunk;
          match assembled with
          | Some message => mret (Some message)
          | None => receive_loop fuel
          end
      | Some (Whole m) =>
          e ← get;
          if negb (uncompressed_size (incoming_ e) =? -1) then fail INVALID_ARGUMENT "Chunk reassembly in progress."
          else mret (Some (Whole m))
      end
  end.

Definition Receive : M E (option (Wire In)) :=
  e ← get;
  message ← receive_loop (S (length (inbox e)));
  match message with
  | None => mret None
  | Some message => TrySnoopCheckinResponse message;; mret (Some message)
  end.

Definition ChunkingLayerBytesReceived (e : E) : Z := total_bytes_downloaded (incoming_ e).
Definition ChunkingLayerBytesSent (e : E) : Z := total_bytes_uploaded (outgoing_ e).
End Chunking.

(** ** The two sides *)

(** The parts of the messages that the stream looks at; the rest of a message
    has a type for each kind. *)
Inductive ClientStreamMessage (Eligibility Checkin Other : Type) :=
  | EligibilityEvalCheckinRequest (protocol_options_request : ProtocolOptionsRequest) (rest : Eligibility)
  | CheckinRequest (protocol_options_request : ProtocolOptionsRequest) (rest : Checkin)
  | OtherClientMessage (rest : Other).
Arguments EligibilityEvalCheckinRequest {_ _ _} _ _.
Arguments CheckinRequest {_ _ _} _ _.
Arguments OtherClientMessage {_ _ _} _.

Inductive ServerStreamMessage (Eligibility Checkin Other : Type) :=
  | EligibilityEvalCheckinResponse (protocol_options_response : option ProtocolOptionsResponse) (rest : Eligibility)
  | CheckinResponse (protocol_options_response : option ProtocolOptionsResponse) (rest : Checkin)
  | OtherServerMessage (rest : Other).
Arguments EligibilityEvalCheckinResponse {_ _ _} _ _.
Arguments CheckinResponse {_ _ _} _ _.
Arguments OtherServerMessage {_ _ _} _.

Definition decorate_options (options : ProtocolOptionsRequest) : ProtocolOptionsRequest :=
  {| supports_chunked_blob_transfer := true;
     supported_compression_levels :=
       supported_compression_levels options ++ [UNCOMPRESSED; ZLIB_DEFAULT; ZLIB_BEST_COMPRESSION; ZLIB_BEST_SPEED] |}.

Section Sides.
Context {E C O E' C' O' : Type}.

Definition TryDecorateCheckinRequest (message : ClientStreamMessage E C O) : ClientStreamMessage E C O :=
  match message with
  | EligibilityEvalCheckinRequest options rest => EligibilityEvalCheckinRequest (decorate_options options) rest
  | CheckinRequest options rest => CheckinRequest (decorate_options options) rest
  | OtherClientMessage rest => OtherClientMessage rest
  end.

(** Whether the response is looked at, and its options. *)
Definition snooped (message : ServerStreamMessage E' C' O') : option (option ProtocolOptionsResponse) :=
  match message with
  | EligibilityEvalCheckinResponse options _ => Some options
  | CheckinResponse options _ => Some options
  | OtherServerMessage _ => None
  end.

#[export] Instance ClientSide : Side (ClientStreamMessage E C O) (ServerStreamMessage E' C' O') :=
  {| decorate := TryDecorateCheckinRequest; snoop := snooped |}.

(** The methods that are not specialised do nothing. *)
#[export] Instance ServerSide : Side (ServerStreamMessage E' C' O') (ClientStreamMessage E C O) :=
  {| decorate := λ m, m; snoop := λ _, None |}.
End Sides.
