(* ===== verification/ChunkingCorrect.v ===== *)
(** * Chunks are put together again

    What a sequence of messages of the stream stands for ([assemble]); that the
    chunks of a message stand for it; and what the operations of an endpoint do
    when writing does not fail. *)

From S2P Require Import Prelude TimeUtil FileSystem FileSystemCorrect Chunking.

(** ** Counting *)

Definition is_ack {T} (w : Wire T) : bool := match w with ChunkedTransfer (Ack _) => true | _ => false end.

Definition non_acks {T} (l : list (Wire T)) : list (Wire T) := filter (λ w, is_ack w = false) l.
Definition acks {T} (l : list (Wire T)) : Z := Z.of_nat (length (filter (λ w, is_ack w = true) l)).
Definition datas {T} (l : list (Wire T)) : Z := Z.of_nat (length (filter (λ w, is_data w = true) l)).

Section Counting.
Context {T : Type}.
Implicit Types l k : list (Wire T).

Lemma non_acks_app l k : non_acks (l ++ k) = non_acks l ++ non_acks k.
Proof. apply filter_app. Qed.
Lemma acks_app l k : acks (l ++ k) = acks l + acks k.
Proof. unfold acks. rewrite filter_app, length_app. lia. Qed.
Lemma datas_app l k : datas (l ++ k) = datas l + datas k.
Proof. unfold datas. rewrite filter_app, length_app. lia. Qed.
Lemma non_acks_cons w l : non_acks (w :: l) = if is_ack w then non_acks l else w :: non_acks l.
Proof. unfold non_acks. rewrite filter_cons. by destruct (is_ack w). Qed.
Lemma acks_cons w l : acks (w :: l) = (if is_ack w then 1 else 0) + acks l.
Proof. unfold acks. rewrite filter_cons. destruct (is_ack w); case_decide; simpl; try done; lia. Qed.
Lemma datas_cons w l : datas (w :: l) = (if is_data w then 1 else 0) + datas l.
Proof. unfold datas. rewrite filter_cons. destruct (is_data w); case_decide; simpl; try done; lia. Qed.
Lemma acks_nonneg l : 0 ≤ acks l.
Proof. unfold acks. lia. Qed.
Lemma datas_nonneg l : 0 ≤ datas l.
Proof. unfold datas. lia. Qed.

(** Messages none of which is an acknowledgement. *)
Definition ack_free l : Prop := Forall (λ w, is_ack w = false) l.

Lemma ack_free_non_acks l : ack_free l → non_acks l = l.
Proof. induction 1 as [|w l Hw _ IH]; [done|]. by rewrite non_acks_cons, Hw, IH. Qed.
Lemma ack_free_acks l : ack_free l → acks l = 0.
Proof. induction 1 as [|w l Hw _ IH]; [done|]. by rewrite acks_cons, Hw, IH. Qed.
End Counting.

Create Rewrite HintDb counts.
#[export] Hint Rewrite @non_acks_app @acks_app @datas_app @non_acks_cons @acks_cons @datas_cons @length_app : counts.

(** ** What a sequence of messages stands for *)

(** The state of the assembly: the size and the level of the start, the pieces and their contents. *)
Definition Assembly : Type := Z * Z * list (list Z) * list Z.
Definition assembly (i : IncomingState) : Assembly :=
  (uncompressed_size i, incoming_compression_level i, incoming_deque i, composite i).
Definition idle (a : Assembly) : Prop := ∃ level, a = (-1, level, [], []).

Section Assembly.
Context {T : Type} `{!Codec T}.

Definition parse (level : Z) (s : list Z) : option (Wire T) :=
  if decide (level = UNCOMPRESSED) then ParseFromString s else ParseCompressed s.

(** The messages that a message of the stream completes; [None] if it is not expected. *)
Definition feed (a : Assembly) (w : Wire T) : option (list T * Assembly) :=
  let '(size, level, pieces, contents) := a in
  match w with
  | Whole m => if size =? -1 then Some ([m], a) else None
  | ChunkedTransfer (Start size' level' _) =>
      if bool_decide (pieces = []) && (size =? -1) then Some ([], (size', level', pieces, contents)) else None
  | ChunkedTransfer (Data i piece) =>
      if u64 i =? Z.of_nat (length pieces) then Some ([], (size, level, pieces ++ [piece], contents ++ piece)) else None
  | ChunkedTransfer (End_ n) =>
      if negb (bool_decide (pieces = [])) && (u64 n =? Z.of_nat (length pieces)) then
        match parse level contents with
        | Some (Whole m) => Some ([m], (-1, level, [], []))
        | _ => None
        end
      else None
  | ChunkedTransfer (Ack _) | ChunkedTransfer KindNotSet => None
  end.

Fixpoint assemble (a : Assembly) (l : list (Wire T)) : option (list T * Assembly) :=
  match l with
  | [] => Some ([], a)
  | w :: l =>
      '(ms, a) ← feed a w;
      '(ms', a) ← assemble a l;
      Some (ms ++ ms', a)
  end.

Lemma assemble_app a l k ms a' :
  assemble a l = Some (ms, a') →
  assemble a (l ++ k) = ('(ms', a'') ← assemble a' k; Some (ms ++ ms', a'')).
Proof.
  revert a ms a'. induction l as [|w l IH]; intros a ms a' Ha; simpl in *.
  { simplify_eq. by destruct (assemble a' k) as [[??]|]. }
  destruct (feed a w) as [[ms1 a1]|]; simpl in *; [|done].
  destruct (assemble a1 l) as [[ms2 a2]|] eqn:Hl; simpl in *; [|done]. simplify_eq.
  rewrite (IH _ _ _ Hl). destruct (assemble a' k) as [[ms3 a3]|]; simpl; [|done]. by rewrite app_assoc.
Qed.

Lemma assemble_ack_free a l r : assemble a l = Some r → ack_free l.
Proof.
  revert a r. induction l as [|w l IH]; intros a r Ha; [constructor|]. simpl in Ha.
  destruct (feed a w) as [[ms1 a1]|] eqn:Hf; simpl in *; [|done].
  destruct (assemble a1 l) eqn:Hl; [|done]. constructor; [|by eapply IH].
  destruct a as [[[??]?]?], w as [|[]]; done.
Qed.
End Assembly.

(** ** The chunks of a message *)

Section Chunks.
Context {T : Type} `{!Codec T, !CodecLaws _}.

(** The data messages from an offset on. *)
Lemma chunk_loop_spec fuel output blob chunk_size offset index size level pieces :
  0 < chunk_size → blob = Z.max 1 (Z.of_nat (length output)) → blob < 2 ^ 31 →
  0 ≤ offset ≤ blob + Z.min blob chunk_size → (Z.to_nat (blob - offset) < fuel)%nat →
  index = Z.of_nat (length pieces) → index ≤ offset →
  ∃ l pieces',
    chunk_loop fuel output blob chunk_size offset index = Ok (l, Z.of_nat (length pieces')) ∧
    assemble (size, level, pieces, take (Z.to_nat offset) output) l = Some ([], (size, level, pieces', output)) ∧
    (offset < blob ∨ pieces ≠ [] → pieces' ≠ []) ∧ Z.of_nat (length pieces') < 2 ^ 32.
Proof.
  intros Hc Hblob Hb. revert offset index pieces.
  induction fuel as [|fuel IH]; intros offset index pieces Ho Hf Hi Hio; [lia|]. cbn [chunk_loop].
  unfold u64 at 1. rewrite (Z.mod_small blob) by lia. destruct (Z.ltb_spec offset blob) as [Hlt|Hge].
  2: { exists [], pieces. subst index. cbn [assemble]. rewrite take_ge by lia. split_and!; try done; [|lia].
       intros [?|?]; [lia|done]. }
  unfold substr. rewrite (proj2 (Z.ltb_ge _ _)) by lia.
  unfold u64. rewrite (Z.mod_small (offset + _)) by lia.
  set (piece := take (Z.to_nat chunk_size) (drop (Z.to_nat offset) output)).
  assert (take (Z.to_nat offset) output ++ piece = take (Z.to_nat (offset + Z.min blob chunk_size)) output) as Htake.
  { unfold piece. rewrite take_take_drop. destruct (Z.le_gt_cases chunk_size blob).
    - rewrite Z.min_r by lia. f_equal. lia.
    - rewrite !take_ge by lia. done. }
  edestruct (IH (offset + Z.min blob chunk_size) (index + 1) (pieces ++ [piece])) as (l & pieces' & Hl & Ha & Hne & Hn);
    [lia|lia|rewrite length_app; simpl; lia|lia|].
  rewrite Hl. exists (ChunkedTransfer (Data index piece) :: l), pieces'. split; [done|].
  rewrite <- Htake in Ha. cbn [assemble feed]. unfold u64. rewrite (Z.mod_small index) by lia.
  rewrite (proj2 (Z.eqb_eq index _)) by done. simpl. rewrite Ha. simpl. split_and!; try done.
  intros _. apply Hne. right. by destruct pieces.
Qed.

(** Encoded with any level, a message is shorter than 2 GiB. *)
Definition encodable (m : T) : Prop :=
  0 ≤ ByteSizeLong (Whole m) < 2 ^ 31 ∧
  (∃ o, AppendToString m = Some o ∧ Z.of_nat (length o) < 2 ^ 31) ∧
  (∀ level, 1 ≤ level ≤ 3 → ∃ o, SerializeCompressed level m = Some o ∧ Z.of_nat (length o) < 2 ^ 31).

(** The messages that stand for [m]. *)
Definition stands_for (l : list (Wire T)) (m : T) : Prop :=
  ∀ a, idle a → ∃ a', assemble a l = Some ([m], a') ∧ idle a'.

Lemma whole_stands_for m : stands_for [Whole m] m.
Proof. intros a [level ->]. simpl. eexists. split; [done|]. by eexists. Qed.

Lemma chunks_stand_for m output level chunk_size l n :
  parse level output = Some (Whole m) → Z.of_nat (length output) < 2 ^ 31 → 0 < chunk_size →
  0 ≤ ByteSizeLong (Whole m) < 2 ^ 31 →
  let size := i32 (Z.of_nat (length output)) in
  let blob := if size =? 0 then 1 else size in
  chunk_loop (S (S (length output))) output blob chunk_size 0 0 = Ok (l, n) →
  stands_for (ChunkedTransfer (Start (i32 (ByteSizeLong (Whole m))) level blob) :: l ++ [ChunkedTransfer (End_ n)]) m.
Proof.
  intros Hp Hlen Hc Hsize. cbv zeta. rewrite !i32_small by lia.
  set (blob := if _ =? 0 then 1 else _). assert (blob = Z.max 1 (Z.of_nat (length output))) as Hblob.
  { unfold blob. destruct (Z.eqb_spec (Z.of_nat (length output)) 0); lia. }
  intros Hl a [level' ->].
  edestruct (chunk_loop_spec (S (S (length output))) output blob chunk_size 0 0 (ByteSizeLong (Whole m)) level [])
    as (l' & pieces & Hl' & Ha & Hne & Hn); try done; try lia. rewrite Hl in Hl'. simplify_eq.
  assert (pieces ≠ []) as Hp' by (apply Hne; lia).
  exists (-1, level, [], []). split; [|by eexists]. cbn [assemble feed]. simpl.
  change (take (Z.to_nat 0) output) with (@nil Z) in Ha. rewrite (assemble_app _ _ _ _ _ Ha). simpl.
  unfold u64. rewrite Z.mod_small, Z.eqb_refl, (bool_decide_false _ Hp') by lia. simpl. by rewrite Hp.
Qed.
End Chunks.

(** ** The operations of an endpoint *)

Section Operations.
Context {Out In : Type} `{!Codec Out, !Codec In, !Side Out In}.
Implicit Types e : Endpoint Out In.

(** The stream is open, and writing succeeds. *)
Definition healthy e : Prop :=
  writer_interface_ e = true ∧ reader_interface_ e = true ∧ ended e = false ∧ writes e = [].

(** What is not a counter of bytes. *)
Definition sending (o : OutgoingState Out) : Z * Z * Z * Z * list (Wire Out) :=
  (chunk_size_for_upload o, max_pending_chunks o, pending_chunks o, compression_level o, outgoing_deque o).

(** Only the outgoing side has changed. *)
Definition framed e e' : Prop := incoming_ e' = incoming_ e ∧ inbox e' = inbox e ∧ healthy e'.

Lemma framed_refl e : healthy e → framed e e.
Proof. intros He. split; [done|]. by split. Qed.

Lemma SendRaw_spec w e :
  healthy e →
  wp (SendRaw w) (returns (λ _ e', sending (outgoing_ e') = sending (outgoing_ e) ∧ outbox e' = outbox e ++ [w] ∧ framed e e')) e.
Proof.
  intros (Hw & Hr & He & Hws). destruct e; simpl in *; subst. eexists. split; [reflexivity|]. done.
Qed.

(** Messages are taken from the front of the queue while pieces may be under way. *)
Lemma send_pending_spec l e :
  healthy e → outgoing_deque (outgoing_ e) = l →
  wp (send_pending l) (returns (λ _ e', ∃ k rest,
    l = k ++ rest ∧ outbox e' = outbox e ++ k ∧ framed e e' ∧
    sending (outgoing_ e') =
      (chunk_size_for_upload (outgoing_ e), max_pending_chunks (outgoing_ e),
       pending_chunks (outgoing_ e) + datas k, compression_level (outgoing_ e), rest) ∧
    (rest = [] ∨ max_pending_chunks (outgoing_ e) ≤ pending_chunks (outgoing_ e) + datas k) ∧
    (pending_chunks (outgoing_ e) + datas k ≤ Z.max (pending_chunks (outgoing_ e)) (max_pending_chunks (outgoing_ e))))) e.
Proof.
  revert e. induction l as [|front rest IH]; intros e He Hl.
  { apply wp_ret_returns. exists [], []. rewrite !app_nil_r. unfold sending. rewrite Hl, Z.add_0_r.
    split_and!; [done|done|by apply framed_refl|done|by left|lia]. }
  cbn [send_pending]. apply wp_bind. unfold wp at 1. cbn [get fst snd].
  destruct (Z.ltb_spec (pending_chunks (outgoing_ e)) (max_pending_chunks (outgoing_ e))) as [Hlt|Hge].
  2: { apply wp_ret_returns. exists [], (front :: rest). rewrite !app_nil_r. unfold sending. rewrite Hl, Z.add_0_r.
       split_and!; [done|done|by apply framed_refl|done|right; lia|lia]. }
  eapply wp_bind_returns; [by apply SendRaw_spec|]. intros _ e1 (Hs1 & Ho1 & Hi1 & Hb1 & Hh1).
  unfold sending in Hs1. simplify_eq.
  eapply (wp_bind_returns _ _ (λ _ e2, outbox e2 = outbox e1 ∧ framed e1 e2 ∧
    sending (outgoing_ e2) = (chunk_size_for_upload (outgoing_ e1), max_pending_chunks (outgoing_ e1),
      pending_chunks (outgoing_ e1) + (if is_data front then 1 else 0), compression_level (outgoing_ e1), outgoing_deque (outgoing_ e1)))).
  { destruct (is_data front); (eexists; split; [reflexivity|]); unfold sending; rewrite ?Z.add_0_r; done. }
  intros _ e2 (Ho2 & (Hi2 & Hb2 & Hh2) & Hs2). unfold sending in Hs2. simplify_eq.
  eapply (wp_bind_returns _ _ (λ _ e3, outbox e3 = outbox e2 ∧ framed e2 e3 ∧
    sending (outgoing_ e3) = (chunk_size_for_upload (outgoing_ e2), max_pending_chunks (outgoing_ e2),
      pending_chunks (outgoing_ e2), compression_level (outgoing_ e2), rest))).
  { eexists. split; [reflexivity|]. done. }
  intros _ e3 (Ho3 & (Hi3 & Hb3 & Hh3) & Hs3). unfold sending in Hs3. simplify_eq.
  eapply wp_mono; [by apply IH|]. intros r e4 ([] & -> & k & rest' & -> & Ho4 & (Hi4 & Hb4 & Hh4) & Hs4 & Hend & Hmax).
  eexists. split; [done|]. exists (front :: k), rest'. rewrite datas_cons.
  split_and!; try done.
  - by rewrite Ho4, Ho3, Ho2, Ho1, <- app_assoc.
  - split_and!; congruence.
  - rewrite Hs4. repeat apply (f_equal2 pair); first [congruence|lia].
  - destruct Hend; [by left|right; lia].
  - destruct (is_data front); lia.
Qed.

(** Messages are sent in chunks. *)
Definition chunking (o : OutgoingState Out) : Prop := 0 < chunk_size_for_upload o ∧ 0 < max_pending_chunks o.

(** What [k] from the front of the queue [l] leaves behind. *)
Definition sends e (l : list (Wire Out)) e' : Prop :=
  ∃ k rest, l = k ++ rest ∧ outbox e' = outbox e ++ k ∧ framed e e' ∧
    sending (outgoing_ e') =
      (chunk_size_for_upload (outgoing_ e), max_pending_chunks (outgoing_ e),
       pending_chunks (outgoing_ e) + datas k, compression_level (outgoing_ e), rest) ∧
    (rest = [] ∨ chunking (outgoing_ e) ∧ max_pending_chunks (outgoing_ e) ≤ pending_chunks (outgoing_ e) + datas k) ∧
    pending_chunks (outgoing_ e) + datas k ≤ Z.max (pending_chunks (outgoing_ e)) (max_pending_chunks (outgoing_ e)).

Lemma TrySendPending_spec e :
  healthy e → (outgoing_deque (outgoing_ e) ≠ [] → chunking (outgoing_ e)) →
  wp TrySendPending (returns (λ _ e', sends e (outgoing_deque (outgoing_ e)) e')) e.
Proof.
  intros He Hc. apply wp_bind. unfold wp at 1. cbn [get fst snd].
  eapply wp_mono; [by apply send_pending_spec|]. intros r e' ([] & -> & k & rest & Hl & Ho & Hf & Hs & Hend & Hmax).
  eexists. split; [done|]. exists k, rest. split_and!; try done.
  destruct Hend as [?|Hend]; [by left|]. destruct rest as [|w rest]; [by left|right].
  split; [|done]. apply Hc. rewrite Hl. by destruct k.
Qed.

Lemma encode_message_spec `{!CodecLaws Codec0} level m e :
  encodable m → 0 ≤ level ≤ 3 →
  ∃ o, encode_message (In:=In) level m e = (Ok o, e) ∧ parse level o = Some (Whole m) ∧ Z.of_nat (length o) < 2 ^ 31.
Proof.
  intros (_ & (o & Ho & Hlen) & Hz) Hl. unfold encode_message, parse. case_decide as Hd.
  { exists o. rewrite Ho. split_and!; [done|by apply AppendToString_parse|done]. }
  assert (1 ≤ level ≤ 3) as Hl' by (unfold UNCOMPRESSED in Hd; lia).
  destruct (Hz level Hl') as (o' & Ho' & Hlen'). exists o'. rewrite Ho'.
  replace (_ || _) with true; [split_and!; [done|by eapply SerializeCompressed_parse|done]|].
  symmetry. unfold ZLIB_DEFAULT, ZLIB_BEST_COMPRESSION, ZLIB_BEST_SPEED.
  rewrite !orb_true_iff, !bool_decide_eq_true. lia.
Qed.

Lemma ChunkMessage_spec `{!CodecLaws Codec0} m e :
  encodable m → chunking (outgoing_ e) → 0 ≤ compression_level (outgoing_ e) ≤ 3 →
  ∃ new, stands_for new m ∧
    ChunkMessage m e = (Ok tt, set_outgoing (with_queue (outgoing_deque (outgoing_ e) ++ new) (outgoing_ e)) e).
Proof.
  intros Hm [Hc _] Hl. destruct (encode_message_spec _ m e Hm Hl) as (o & Ho & Hp & Hlen).
  edestruct (chunk_loop_spec (T:=Out) (S (S (length o))) o (Z.max 1 (Z.of_nat (length o)))
    (chunk_size_for_upload (outgoing_ e)) 0 0 0 0 []) as (l & pieces & Hloop & _); try done; try lia.
  pose proof (chunks_stand_for m o _ _ l (Z.of_nat (length pieces)) Hp Hlen Hc (proj1 Hm)) as Hst. cbv zeta in Hst.
  set (size := i32 (Z.of_nat (length o))) in *. assert (size = Z.of_nat (length o)) as Hsize by (apply i32_small; lia).
  assert ((if size =? 0 then 1 else size) = Z.max 1 (Z.of_nat (length o))) as Hblob
    by (rewrite Hsize; destruct (Z.eqb_spec (Z.of_nat (length o)) 0); lia).
  rewrite Hblob in Hst. specialize (Hst Hloop). eexists. split; [exact Hst|].
  unfold ChunkMessage, mbind, M_bind, get, attempt. rewrite Ho. fold size. rewrite Hblob.
  unfold lift_res. by rewrite Hloop.
Qed.

Lemma TrySend_spec `{!CodecLaws Codec0} m e :
  healthy e → encodable m → (outgoing_deque (outgoing_ e) ≠ [] → chunking (outgoing_ e)) →
  (chunking (outgoing_ e) → 0 ≤ compression_level (outgoing_ e) ≤ 3) →
  wp (TrySend m) (returns (λ _ e', ∃ new, stands_for new m ∧ sends e (outgoing_deque (outgoing_ e) ++ new) e')) e.
Proof.
  intros He Hm Hq Hl. unfold TrySend. apply wp_bind. unfold wp at 1. cbn [get fst snd].
  destruct (_ || _) eqn:Hno.
  - assert (¬ chunking (outgoing_ e)) as Hnc.
    { intros [??]. apply orb_true_iff in Hno as [?%Z.leb_le|?%Z.leb_le]; lia. }
    assert (outgoing_deque (outgoing_ e) = []) as Hnil by (destruct (outgoing_deque (outgoing_ e)); [done|by destruct Hnc; apply Hq]).
    eapply wp_mono; [by apply SendRaw_spec|]. intros r e' ([] & -> & Hs & Ho & Hf). eexists. split; [done|].
    exists [Whole m]. split; [apply whole_stands_for|]. exists [Whole m], []. rewrite Hnil. unfold sending in Hs.
    split_and!; try done; [|by left|unfold datas; simpl; lia].
    unfold sending. rewrite Hs, Hnil. unfold datas. simpl. by rewrite Z.add_0_r.
  - apply orb_false_iff in Hno as [Hc1%Z.leb_gt Hc2%Z.leb_gt]. assert (chunking (outgoing_ e)) as Hc by done.
    destruct (ChunkMessage_spec m e Hm Hc (Hl Hc)) as (new & Hst & Hrun).
    eapply (wp_bind_returns _ _ (λ r e1, r = inl tt ∧
      e1 = set_outgoing (with_queue (outgoing_deque (outgoing_ e) ++ new) (outgoing_ e)) e)).
    { unfold wp, attempt. rewrite Hrun. eexists. by split. }
    intros r e1 [-> ->]. eapply wp_mono; [apply TrySendPending_spec; [done|by intros _]|].
    intros r e' ([] & -> & Hsends). eexists. split; [done|]. exists new. by split.
Qed.

(** A message is taken from the stream. *)
Lemma ReceiveRaw_spec w rest e :
  healthy e → inbox e = w :: rest →
  wp ReceiveRaw (returns (λ r e', r = Some w ∧ inbox e' = rest ∧ assembly (incoming_ e') = assembly (incoming_ e) ∧
    outgoing_ e' = outgoing_ e ∧ outbox e' = outbox e ∧ healthy e')) e.
Proof.
  intros (Hw & Hr & He & Hws) Hin. destruct e; simpl in *; subst. eexists. split; [reflexivity|]. done.
Qed.

Lemma ReceiveRaw_empty e : healthy e → inbox e = [] → ReceiveRaw e = (Ok None, e).
Proof. intros (Hw & Hr & He & Hws) Hin. destruct e; simpl in *; subst. done. Qed.

Lemma TryAssemblePending_spec c ms a e :
  healthy e → feed (assembly (incoming_ e)) (ChunkedTransfer c) = Some (ms, a) →
  wp (TryAssemblePending c) (returns (λ r e', r = Whole <$> head ms ∧ (length ms ≤ 1)%nat ∧ assembly (incoming_ e') = a ∧ inbox e' = inbox e ∧
    sending (outgoing_ e') = sending (outgoing_ e) ∧ healthy e' ∧
    ∃ l, outbox e' = outbox e ++ l ∧ non_acks l = [] ∧ datas l = 0 ∧
         acks l = if is_data (Out:=In) (ChunkedTransfer c) then 1 else 0)) e.
Proof.
  intros He Hf. unfold TryAssemblePending. apply wp_bind. unfold wp at 1. cbn [get fst snd].
  unfold assembly in Hf. destruct c as [size level blob|i piece|n|i|]; cbn [feed] in Hf; try done.
  - destruct (bool_decide_reflect (incoming_deque (incoming_ e) = [])) as [Hnil|]; [|done].
    destruct (uncompressed_size (incoming_ e) =? -1) eqn:Hs; [|done]. simpl in Hf. simplify_eq. cbn [negb orb].
    eexists. split; [reflexivity|]. split_and!; try done; [simpl; lia|]. exists []. by rewrite app_nil_r.
  - destruct (u64 i =? _) eqn:Hi; [|done]. simplify_eq. cbn [negb].
    eapply (wp_bind_returns _ _ (λ _ e1, assembly (incoming_ e1) =
      (uncompressed_size (incoming_ e), incoming_compression_level (incoming_ e), incoming_deque (incoming_ e) ++ [piece],
       composite (incoming_ e) ++ piece) ∧ inbox e1 = inbox e ∧ outgoing_ e1 = outgoing_ e ∧ outbox e1 = outbox e ∧ healthy e1)).
    { eexists. split; [reflexivity|]. done. }
    intros _ e1 (Ha1 & Hb1 & Hg1 & Ho1 & Hh1).
    eapply wp_bind_returns; [by apply SendRaw_spec|]. intros _ e2 (Hs2 & Ho2 & Hi2 & Hb2 & Hh2).
    apply wp_ret_returns. rewrite Hi2, Ha1, Hb2, Hb1, Hs2, Hg1. split_and!; try done; [simpl; lia|].
    eexists. rewrite Ho2, Ho1. done.
  - destruct (bool_decide_reflect (incoming_deque (incoming_ e) = [])) as [Hnil|]; [done|].
    destruct (u64 n =? _) eqn:Hn; [|done]. cbn [negb orb andb] in *.
    destruct (parse _ _) as [[m|]|] eqn:Hp; [|done..]. simplify_eq.
    unfold AssemblePending. apply wp_bind. unfold wp at 1. cbn [get fst snd]. unfold parse in Hp. rewrite Hp.
    eexists. split; [reflexivity|]. split_and!; try done. exists []. by rewrite app_nil_r.
Qed.
End Operations.
