(* ===== verification/ChunkingSystem.v ===== *)
(** * Two endpoints of a chunked stream

    A client and a server that send and receive in any order.  Each receives
    what the other has sent, in the order of sending and each message once; the
    pieces under way are bounded by the negotiated window; and when the two only
    receive, everything arrives. *)

From S2P Require Import Prelude TimeUtil FileSystem FileSystemCorrect Chunking ChunkingCorrect.

(** ** One direction *)

Section Link.
Context {A B : Type} `{!Codec A, !CodecLaws (T:=A) _, !Codec B, !CodecLaws (T:=B) _}.
(** The largest window that is negotiated. *)
Context (window : Z).

Record sane_options (r : ProtocolOptionsResponse) : Prop := {
  sane_chunk_size : 0 < response_chunk_size_for_upload r;
  sane_window : 0 < response_max_pending_chunks r ≤ window;
  sane_level : 0 ≤ response_compression_level r ≤ 3
}.

(** [todo] is what is still to come. *)
Definition stream_ok (a : Assembly) (l : list (Wire A)) (todo : list A) : Prop :=
  ∃ fin, assemble a l = Some (todo, fin) ∧ idle fin.

(** From the endpoint [e] to its peer [p], with what [e] has sent and [p] has
    received. *)
Record linked (e : Endpoint A B) (p : Endpoint B A) (sent got : list A) : Prop := {
  link_stream : ∃ todo,
    stream_ok (assembly (incoming_ p)) (non_acks (inbox p ++ outbox e) ++ outgoing_deque (outgoing_ e)) todo ∧
    got ++ todo = sent;
  link_pending : pending_chunks (outgoing_ e) = datas (inbox p ++ outbox e) + acks (inbox e ++ outbox p);
  link_window : pending_chunks (outgoing_ e) ≤ Z.max 0 window;
  link_queue : outgoing_deque (outgoing_ e) ≠ [] → chunking (outgoing_ e);
  link_valid : max_pending_chunks (outgoing_ e) ≤ window ∧
    (chunking (outgoing_ e) → 0 ≤ compression_level (outgoing_ e) ≤ 3);
  link_healthy : healthy e
}.

(** A queue waits for an acknowledgement. *)
Definition flowing (e : Endpoint A B) : Prop := outgoing_deque (outgoing_ e) ≠ [] → 0 < pending_chunks (outgoing_ e).

(** What is left to do in one direction. *)
Definition weight (e : Endpoint A B) (p : Endpoint B A) : Z :=
  2 * Z.of_nat (length (outgoing_deque (outgoing_ e)) + length (non_acks (inbox p ++ outbox e))) + acks (inbox e ++ outbox p).

Lemma stream_ok_app a l todo new ms :
  stream_ok a l todo → (∀ a, idle a → stream_ok a new ms) → stream_ok a (l ++ new) (todo ++ ms).
Proof.
  intros (fin & Ha & Hfin) Hnew. destruct (Hnew fin Hfin) as (fin' & Ha' & Hfin').
  exists fin'. by rewrite (assemble_app _ _ _ _ _ Ha), Ha'.
Qed.

Lemma stream_ok_queue a l q todo : stream_ok a (non_acks l ++ q) todo → ack_free q.
Proof. intros (fin & Ha & _). apply assemble_ack_free in Ha. by apply Forall_app in Ha as [_ ?]. Qed.

(** The sender appends [new], which stands for [ms], and sends from its queue. *)
Lemma linked_sends e p sent got new ms e' :
  linked e p sent got → (∀ a, idle a → stream_ok a new ms) →
  sends e (outgoing_deque (outgoing_ e) ++ new) e' →
  linked e' p (sent ++ ms) got ∧ flowing e' ∧ weight e' p = weight e p + 2 * Z.of_nat (length new) ∧
  ∃ k, ack_free k ∧ outbox e' = outbox e ++ k ∧ incoming_ e' = incoming_ e ∧ inbox e' = inbox e.
Proof.
  intros [(todo & Hst & Hgot) Hpend Hwin Hq Hval Hh] Hnew (k & rest & Hl & Ho & (Hi & Hb & Hh') & Hs & Hend & Hmax).
  assert (Hall := stream_ok_app _ _ _ _ _ Hst Hnew). rewrite <- app_assoc, Hl in Hall.
  assert (ack_free (k ++ rest)) as Hfree by (by eapply stream_ok_queue).
  apply Forall_app in Hfree as [Hk _]. unfold sending in Hs. injection Hs as Hs1 Hs2 Hs3 Hs4 Hs5.
  split; [split|split; [|split; [|by exists k]]]; unfold chunking, flowing, weight in *;
    rewrite ?Hs1, ?Hs2, ?Hs3, ?Hs4, ?Hs5, ?Ho, ?Hb, ?(app_assoc (inbox p)), ?non_acks_app, ?datas_app;
    rewrite ?(ack_free_non_acks k) by done.
  - exists (todo ++ ms). split; [by rewrite <- non_acks_app, <- app_assoc|]. by rewrite app_assoc, Hgot.
  - rewrite <- datas_app. lia.
  - destruct Hval. lia.
  - intros Hne. by destruct Hend as [?|[? _]].
  - done.
  - done.
  - intros Hne. destruct Hend as [?|[[_ ?] ?]]; [done|lia].
  - apply (f_equal length) in Hl. rewrite !length_app in *. lia.
Qed.

(** The receiver sends [k]. *)
Lemma linked_peer e p p' sent got k :
  linked e p sent got → assembly (incoming_ p') = assembly (incoming_ p) → inbox p' = inbox p →
  outbox p' = outbox p ++ k → ack_free k → linked e p' sent got ∧ weight e p' = weight e p.
Proof.
  intros [Hst Hpend Hwin Hq Hval Hh] Ha Hb Ho Hk. unfold weight.
  assert (acks (inbox e ++ outbox p') = acks (inbox e ++ outbox p)) as Hacks
    by (rewrite Ho, app_assoc, acks_app, (ack_free_acks k) by done; lia).
  rewrite Hacks, Hb. split; [|done]. split; rewrite ?Ha, ?Hb, ?Hacks; done.
Qed.

(** The receiver takes a message from the stream that is not an
    acknowledgement: it was expected. *)
Lemma linked_next e p sent got w rest :
  linked e p sent got → inbox p = w :: rest → is_ack w = false →
  ∃ ms a todo, feed (assembly (incoming_ p)) w = Some (ms, a) ∧
    stream_ok a (non_acks (rest ++ outbox e) ++ outgoing_deque (outgoing_ e)) todo ∧ got ++ ms ++ todo = sent.
Proof.
  intros [(todo & (fin & Ha & Hfin) & Hgot) _ _ _ _ _] Hb Hw. rewrite Hb in Ha. cbn [app] in Ha.
  rewrite non_acks_cons, Hw in Ha. cbn [app assemble] in Ha.
  destruct (feed _ w) as [[ms a]|]; [|done]. simpl in Ha.
  destruct (assemble a _) as [[ms' a']|] eqn:Hrest; [|done]. simpl in Ha. simplify_eq.
  exists ms, a, ms'. split_and!; [done| |done]. by exists fin.
Qed.

(** It has processed the message, and sends [k]. *)
Lemma linked_received e p p' sent got w rest ms a todo k :
  linked e p sent got → inbox p = w :: rest → is_ack w = false →
  stream_ok a (non_acks (rest ++ outbox e) ++ outgoing_deque (outgoing_ e)) todo → got ++ ms ++ todo = sent →
  assembly (incoming_ p') = a → inbox p' = rest → outbox p' = outbox p ++ k → acks k = (if is_data w then 1 else 0) →
  linked e p' sent (got ++ ms) ∧ weight e p' < weight e p.
Proof.
  intros [_ Hpend Hwin Hq Hval Hh] Hb Hw Hst Hgot Ha Hb' Ho Hk.
  assert (acks (inbox e ++ outbox p') = acks (inbox e ++ outbox p) + (if is_data w then 1 else 0)) as Hacks
    by (rewrite Ho, app_assoc, acks_app; lia).
  rewrite Hb in Hpend. simpl in Hpend. rewrite datas_cons in Hpend. split; [split|]; try done.
  - exists todo. rewrite Ha, Hb'. split; [done|]. by rewrite <- app_assoc.
  - rewrite Hb', Hacks. lia.
  - unfold weight. rewrite Hb', Hacks, Hb. simpl. rewrite non_acks_cons, Hw. simpl. destruct (is_data w); lia.
Qed.

(** The receiver takes an acknowledgement of its own pieces. *)
Lemma linked_skip_ack e p p' sent got w rest :
  linked e p sent got → inbox p = w :: rest → is_ack w = true →
  assembly (incoming_ p') = assembly (incoming_ p) → inbox p' = rest → outbox p' = outbox p →
  linked e p' sent got ∧ weight e p' = weight e p.
Proof.
  intros [Hst Hpend Hwin Hq Hval Hh] Hb Hw Ha Hb' Ho. unfold weight. rewrite Hb, Hb', Ho in *. simpl in *.
  rewrite non_acks_cons, Hw in *. rewrite datas_cons in Hpend.
  assert (is_data w = false) as Hd by (by destruct w as [|[]]). rewrite Hd in Hpend.
  split; [|done]. split; rewrite ?Ha, ?Hb', ?Ho; done.
Qed.

(** The sender takes an acknowledgement. *)
Lemma linked_acked e e' p sent got w rest :
  linked e p sent got → inbox e = w :: rest → is_ack w = true →
  inbox e' = rest → outbox e' = outbox e → healthy e' →
  sending (outgoing_ e') = (chunk_size_for_upload (outgoing_ e), max_pending_chunks (outgoing_ e),
    pending_chunks (outgoing_ e) - 1, compression_level (outgoing_ e), outgoing_deque (outgoing_ e)) →
  linked e' p sent got ∧ weight e' p = weight e p - 1.
Proof.
  intros [Hst Hpend Hwin Hq Hval Hh] Hb Hw Hb' Ho Hh' Hs.
  unfold sending in Hs. injection Hs as Hs1 Hs2 Hs3 Hs4 Hs5.
  rewrite Hb in Hpend. simpl in Hpend. rewrite acks_cons, Hw in Hpend.
  unfold weight. rewrite Hb, Hb', Ho, Hs5. simpl. rewrite acks_cons, Hw. split; [|lia].
  split; unfold chunking in *; rewrite ?Hs1, ?Hs2, ?Hs3, ?Hs4, ?Hs5, ?Hb', ?Ho; try done; lia.
Qed.

(** The sender takes another message; only its incoming side changes, and it sends [k]. *)
Lemma linked_other e e' p sent got w rest k :
  linked e p sent got → flowing e → inbox e = w :: rest → is_ack w = false →
  inbox e' = rest → outbox e' = outbox e ++ k → non_acks k = [] → datas k = 0 → healthy e' →
  sending (outgoing_ e') = sending (outgoing_ e) →
  linked e' p sent got ∧ flowing e' ∧ weight e' p = weight e p.
Proof.
  intros [Hst Hpend Hwin Hq Hval Hh] Hfl Hb Hw Hb' Ho Hk Hd Hh' Hs.
  unfold sending in Hs. injection Hs as Hs1 Hs2 Hs3 Hs4 Hs5.
  rewrite Hb in Hpend. simpl in Hpend. rewrite acks_cons, Hw in Hpend.
  unfold weight, flowing in *. rewrite Hb, Hb', Ho, Hs5, Hs3. simpl. rewrite acks_cons, Hw.
  rewrite (app_assoc (inbox p)), non_acks_app, Hk, app_nil_r. split; [|split; [done|lia]].
  split; unfold chunking in *; rewrite ?Hs1, ?Hs2, ?Hs3, ?Hs4, ?Hs5, ?Hb', ?Ho; try done.
  - by rewrite (app_assoc (inbox p)), non_acks_app, Hk, app_nil_r.
  - rewrite (app_assoc (inbox p)), datas_app. lia.
Qed.
(** Options with which a stream can start. *)
Definition startable (o : GrpcChunkedBidiStreamOptions) : Prop :=
  option_max_pending_chunks o ≤ window ∧
  (0 < option_chunk_size_for_upload o → 0 < option_max_pending_chunks o → 0 ≤ option_compression_level o ≤ 3).

Lemma linked_start o o' : startable o → linked (new_stream o) (new_stream o') [] [].
Proof.
  intros [Ho Ho']. split; try done; simpl.
  - exists []. split; [|done]. eexists. split; [done|]. by eexists.
  - lia.
  - split; [done|]. intros [? ?]. by apply Ho'.
Qed.
End Link.

(** ** Both directions *)

Section Both.
Context {A B : Type} `{!Codec A, !CodecLaws (T:=A) _, !Codec B, !CodecLaws (T:=B) _, !Side A B}.
Context (window : Z).

(** The options that a message carries can be adopted. *)
Definition acceptable (m : B) : Prop := ∀ r, snoop m = Some (Some r) → sane_options window r.

Record joined (e : Endpoint A B) (p : Endpoint B A) (sa gb : list A) (sb ga : list B) : Prop := {
  joined_to : linked window e p sa gb;
  joined_from : linked window p e sb ga;
  joined_flow : flowing e;
  joined_flow_peer : flowing p
}.

Definition work (e : Endpoint A B) (p : Endpoint B A) : Z := weight e p + weight p e.

Lemma feed_done a w m ms a' : feed (T:=B) a w = Some (m :: ms, a') → a'.1.1.1 = -1.
Proof.
  destruct a as [[[size level] pieces] contents], w as [x|[]]; simpl; repeat case_match; try done;
    intros; simplify_eq/=; try done; by apply Z.eqb_eq.
Qed.

(** An acknowledgement is processed. *)
Lemma turn_ack e e1 p sa gb sb ga w rest :
  joined e p sa gb sb ga → inbox e = w :: rest → is_ack w = true →
  inbox e1 = rest → assembly (incoming_ e1) = assembly (incoming_ e) → outgoing_ e1 = outgoing_ e →
  outbox e1 = outbox e → healthy e1 →
  wp (on_outgoing (λ o, with_pending (pending_chunks o - 1) o);; TrySendPending)
    (returns (λ _ e', joined e' p sa gb sb ga ∧ inbox e' = rest ∧ work e' p < work e p)) e1.
Proof.
  intros [Hto Hfrom _ Hfp] Hb Hw Hb1 Ha1 Hg1 Ho1 Hh1.
  set (e2 := set_outgoing (with_pending (pending_chunks (outgoing_ e1) - 1) (outgoing_ e1)) e1).
  destruct (linked_acked window e e2 p sa gb w rest) as [Hto2 Hw2]; try done; [unfold e2, sending; simpl; by rewrite Hg1|].
  destruct (linked_skip_ack window p e e2 sb ga w rest) as [Hfrom2 Hw2']; try done.
  eapply (wp_bind_returns _ _ (λ _ e', e' = e2)); [by eexists|]. intros _ e' ->.
  eapply wp_mono; [apply TrySendPending_spec; [done|apply (link_queue _ _ _ _ _ Hto2)]|].
  intros r e3 ([] & -> & Hs). eexists. split; [done|].
  rewrite <- (app_nil_r (outgoing_deque (outgoing_ e2))) in Hs.
  destruct (linked_sends window e2 p sa gb [] [] e3) as (Hto3 & Hf3 & Hw3 & k & Hk & Ho3 & Hi3 & Hb3); try done.
  { intros a Ha. by exists a. }
  destruct (linked_peer window p e2 e3 sb ga k) as [Hfrom3 Hw3']; try done; [by rewrite Hi3|].
  rewrite app_nil_r in Hto3. split; [by split|]. split; [by rewrite Hb3|]. unfold work. simpl in Hw3. lia.
Qed.

(** Another message is processed. *)
Lemma turn_other e e' p sa gb sb ga w rest ms a todo k :
  joined e p sa gb sb ga → inbox e = w :: rest → is_ack w = false →
  stream_ok a (non_acks (rest ++ outbox p) ++ outgoing_deque (outgoing_ p)) todo → ga ++ ms ++ todo = sb →
  assembly (incoming_ e') = a → inbox e' = rest → outbox e' = outbox e ++ k → acks k = (if is_data w then 1 else 0) →
  non_acks k = [] → datas k = 0 → healthy e' → sending (outgoing_ e') = sending (outgoing_ e) →
  joined e' p sa gb sb (ga ++ ms) ∧ work e' p < work e p.
Proof.
  intros [Hto Hfrom Hf Hfp] Hb Hw Hst Hgot Ha Hb' Ho Hk Hn Hd Hh Hs.
  destruct (linked_received window p e e' sb ga w rest ms a todo k) as [Hfrom' Hw1]; try done.
  destruct (linked_other window e e' p sa gb w rest k) as (Hto' & Hf' & Hw2); try done.
  split; [by split|]. unfold work. lia.
Qed.

(** What [receive_loop] has done. *)
Definition received (e : Endpoint A B) (p : Endpoint B A) sa gb sb ga (r : option (Wire B)) (e' : Endpoint A B) : Prop :=
  match r with
  | None => inbox e' = [] ∧ joined e' p sa gb sb ga
  | Some w => ∃ m, w = Whole m ∧ uncompressed_size (incoming_ e') = -1 ∧ joined e' p sa gb sb (ga ++ [m])
  end ∧ work e' p ≤ work e p ∧ (inbox e ≠ [] → work e' p < work e p).

Lemma received_trans e e1 p sa gb sb ga r e' :
  work e1 p < work e p → received e1 p sa gb sb ga r e' → received e p sa gb sb ga r e'.
Proof. intros Hw (Hr & Hle & _). split; [done|]. lia. Qed.

Lemma receive_loop_spec fuel e p sa gb sb ga :
  joined e p sa gb sb ga → (length (inbox e) < fuel)%nat →
  wp (receive_loop fuel) (returns (received e p sa gb sb ga)) e.
Proof.
  revert e. induction fuel as [|fuel IH]; intros e Hj Hf; [lia|]. cbn [receive_loop].
  pose proof (link_healthy _ _ _ _ _ (joined_to _ _ _ _ _ _ Hj)) as Hh.
  destruct (inbox e) as [|w rest] eqn:Hb.
  { apply wp_bind. unfold wp at 1. rewrite ReceiveRaw_empty by done. cbn [fst snd].
    apply wp_ret_returns. split; [done|]. split; [lia|]. by rewrite Hb. }
  eapply wp_bind_returns; [by apply (ReceiveRaw_spec w rest)|].
  intros r e1 (-> & Hb1 & Ha1 & Hg1 & Ho1 & Hh1). simpl in Hf.
  assert (∀ e2, joined e2 p sa gb sb ga → inbox e2 = rest → work e2 p < work e p →
    wp (receive_loop fuel) (returns (received e p sa gb sb ga)) e2) as Hloop.
  { intros e2 Hj2 Hb2 Hw2. eapply wp_mono; [apply IH; [done|rewrite Hb2; lia]|].
    intros r e3 (x & -> & Hr). eexists. split; [done|]. by eapply received_trans. }
  destruct (is_ack w) eqn:Hw.
  - destruct w as [|[]]; try done. apply wp_bind_assoc.
    eapply wp_bind_returns; [by eapply (turn_ack e e1 p sa gb sb ga)|].
    intros _ e2 (Hj2 & Hb2 & Hw2). by apply Hloop.
  - destruct (linked_next window p e sb ga w rest) as (ms & a & todo & Hfeed & Hst & Hgot);
      [apply (joined_from _ _ _ _ _ _ Hj)|done|done|]. rewrite <- Ha1 in Hfeed.
    destruct w as [m|c].
    + unfold assembly in Hfeed. cbn [feed] in Hfeed.
      destruct (uncompressed_size (incoming_ e1) =? -1) eqn:Hsize; [|done]. simplify_eq.
      apply wp_bind. unfold wp at 1. cbn [get fst snd]. rewrite Hsize. cbn [negb]. apply wp_ret_returns.
      destruct (turn_other e e1 p sa gb (ga ++ [m] ++ todo) ga (Whole m) (inbox e1) [m] (assembly (incoming_ e1)) todo []) as [Hj1 Hw1];
        [done|done|done|exact Hst|done|done|done|by rewrite app_nil_r|done|done|done|done|by rewrite Hg1|].
      split; [|split; [lia|done]]. exists m. split; [done|]. split; [by apply Z.eqb_eq|done].
    + assert (wp (assembled ← TryAssemblePending c;
        match assembled with Some message => mret (Some message) | None => receive_loop fuel end)
        (returns (received e p sa gb sb ga)) e1) as Hwp; [|by destruct c].
      eapply wp_bind_returns; [by apply (TryAssemblePending_spec c ms a)|].
      intros r e2 (-> & Hlen & Ha2 & Hb2 & Hs2 & Hh2 & k & Ho2 & Hk1 & Hk2 & Hk3).
      edestruct (turn_other e e2 p sa gb sb ga (ChunkedTransfer c) rest ms a todo k) as [Hj2 Hw2]; try done.
      * by rewrite Hb2.
      * by rewrite Ho2, Ho1.
      * by rewrite Hs2, Hg1.
      * destruct ms as [|m ms]; cbn [head fmap option_fmap option_map].
        -- rewrite app_nil_r in Hj2. apply Hloop; [done|by rewrite Hb2|done].
        -- destruct ms; [|simpl in Hlen; lia]. apply wp_ret_returns. split; [|split; [lia|done]].
           exists m. split; [done|]. split; [|done]. apply feed_done in Hfeed. by rewrite <- Ha2 in Hfeed.
Qed.

(** The options that a message carries are adopted. *)
Lemma snoop_spec m e p sa gb sb ga :
  joined e p sa gb sb ga → acceptable m → uncompressed_size (incoming_ e) = -1 →
  wp (TrySnoopCheckinResponse (Whole m)) (returns (λ _ e', joined e' p sa gb sb ga ∧ work e' p = work e p ∧ incoming_ e' = incoming_ e)) e.
Proof.
  intros Hj Hm Hsize. cbn [TrySnoopCheckinResponse]. unfold acceptable in Hm.
  destruct (snoop m) as [o|]; [|by apply wp_ret_returns].
  apply wp_bind. unfold wp at 1. cbn [get fst snd]. rewrite Hsize. cbn [Z.eqb negb].
  destruct o as [r|]; [|by apply wp_ret_returns]. destruct (Hm r eq_refl) as [Hc Hw Hl].
  eexists. split; [reflexivity|]. destruct Hj as [[Hst Hp Hwin Hq Hval Hh] Hfrom Hf Hfp]. split; [|by split].
  split; try done.
  - split; try done; unfold chunking; simpl; lia.
  - by destruct Hfrom; split.
Qed.

Lemma Receive_spec e p sa gb sb ga :
  joined e p sa gb sb ga → Forall acceptable sb → wp Receive (returns (received e p sa gb sb ga)) e.
Proof.
  intros Hj Hok. unfold Receive. apply wp_bind. unfold wp at 1. cbn [get fst snd].
  eapply wp_bind_returns; [by apply receive_loop_spec; [|lia]|].
  intros [w|] e1 (Hr & Hle & Hlt); [|by apply wp_ret_returns].
  destruct Hr as (m & -> & Hsize & Hj1).
  assert (acceptable m) as Hm.
  { destruct (link_stream _ _ _ _ _ (joined_from _ _ _ _ _ _ Hj1)) as (todo & _ & Hsb).
    eapply Forall_forall; [exact Hok|]. rewrite <- Hsb. set_solver. }
  eapply wp_bind_returns; [by apply snoop_spec|]. intros _ e2 (Hj2 & Hw2 & Hi2). apply wp_ret_returns.
  split; [|rewrite Hw2; by split]. exists m. split; [done|]. split; [by rewrite Hi2|done].
Qed.

Lemma Send_spec m e p sa gb sb ga :
  joined e p sa gb sb ga → encodable (decorate m) →
  wp (Send (Whole m)) (returns (λ _ e', joined e' p (sa ++ [decorate m]) gb sb ga ∧ inbox e' = inbox e)) e.
Proof.
  intros [Hto Hfrom Hf Hfp] Hm. cbn [Send].
  eapply wp_mono; [apply TrySend_spec; [apply (link_healthy _ _ _ _ _ Hto)|done|apply (link_queue _ _ _ _ _ Hto)|
    apply (link_valid _ _ _ _ _ Hto)]|].
  intros r e' ([] & -> & new & Hnew & Hs). eexists. split; [done|].
  destruct (linked_sends window e p sa gb new [decorate m] e') as (Hto' & Hf' & _ & k & Hk & Ho & Hi & Hb); try done.
  by destruct (linked_peer window p e e' sb ga k) as [Hfrom' _]; try (by rewrite Hi).
Qed.
End Both.

(** ** The system *)

Record System (A B : Type) := {
  side_a : Endpoint A B;
  side_b : Endpoint B A;
  sent_a : list A;
  sent_b : list B;
  got_a : list B;
  got_b : list A
}.
Arguments side_a {_ _} _.
Arguments side_b {_ _} _.
Arguments sent_a {_ _} _.
Arguments sent_b {_ _} _.
Arguments got_a {_ _} _.
Arguments got_b {_ _} _.

Definition swap {A B} (σ : System A B) : System B A :=
  {| side_a := side_b σ; side_b := side_a σ; sent_a := sent_b σ; sent_b := sent_a σ;
     got_a := got_b σ; got_b := got_a σ |}.

(** What an endpoint has written arrives at its peer. *)
Definition take_out {A B} (e : Endpoint A B) : Endpoint A B :=
  {| writer_interface_ := writer_interface_ e; reader_interface_ := reader_interface_ e; incoming_ := incoming_ e;
     outgoing_ := outgoing_ e; inbox := inbox e; ended := ended e; outbox := []; writes := writes e |}.
Definition arrive {A B} (l : list (Wire A)) (p : Endpoint B A) : Endpoint B A :=
  {| writer_interface_ := writer_interface_ p; reader_interface_ := reader_interface_ p; incoming_ := incoming_ p;
     outgoing_ := outgoing_ p; inbox := inbox p ++ l; ended := ended p; outbox := outbox p; writes := writes p |}.

Definition transmit {A B} (e : Endpoint A B) (sent : list A) (got : list B) (σ : System A B) : System A B :=
  {| side_a := take_out e; side_b := arrive (outbox e) (side_b σ); sent_a := sent; sent_b := sent_b σ;
     got_a := got; got_b := got_b σ |}.

Section System.
Context {A B : Type} `{!Codec A, !Codec B}.

(** The first side sends a message, or receives; [None] when that fails. *)
Definition act_a `{!Side A B} (m : option A) (σ : System A B) : option (System A B) :=
  match m with
  | Some m =>
      match Send (Whole m) (side_a σ) with
      | (Ok _, e) => Some (transmit e (sent_a σ ++ [decorate m]) (got_a σ) σ)
      | _ => None
      end
  | None =>
      match Receive (side_a σ) with
      | (Ok None, e) => Some (transmit e (sent_a σ) (got_a σ) σ)
      | (Ok (Some (Whole m)), e) => Some (transmit e (sent_a σ) (got_a σ ++ [m]) σ)
      | _ => None
      end
  end.
End System.

Section Runs.
Context {A B : Type} `{!Codec A, !Codec B, !Side A B, !Side B A}.

Inductive Action := ActA (m : option A) | ActB (m : option B).

Definition act (a : Action) (σ : System A B) : option (System A B) :=
  match a with
  | ActA m => act_a m σ
  | ActB m => swap <$> act_a m (swap σ)
  end.

Fixpoint run (l : list Action) (σ : System A B) : option (System A B) :=
  match l with
  | [] => Some σ
  | a :: l => σ ← act a σ; run l σ
  end.

Definition start (options_a options_b : GrpcChunkedBidiStreamOptions) : System A B :=
  {| side_a := new_stream options_a; side_b := new_stream options_b; sent_a := []; sent_b := []; got_a := []; got_b := [] |}.

(** The two sides receive in turn, [n] times. *)
Fixpoint pump (n : nat) (σ : System A B) : option (System A B) :=
  match n with
  | O => Some σ
  | S n => σ ← act (ActA None) σ; σ ← act (ActB None) σ; pump n σ
  end.
End Runs.

(** ** The invariant of the system *)

Section Invariant.
Context {A B : Type} `{!Codec A, !CodecLaws (T:=A) _, !Codec B, !CodecLaws (T:=B) _}.

Lemma weight_nonneg (e : Endpoint A B) p : 0 ≤ weight e p.
Proof. unfold weight. pose proof (acks_nonneg (inbox e ++ outbox p)). lia. Qed.

(** Nothing is left to do: everything has arrived. *)
Lemma weight_zero window (e : Endpoint A B) p sent got : linked window e p sent got → weight e p = 0 → got = sent.
Proof.
  intros [(todo & (fin & Ha & _) & Hgot) _ _ _ _ _] Hw. unfold weight in Hw.
  pose proof (acks_nonneg (inbox e ++ outbox p)).
  destruct (outgoing_deque (outgoing_ e)), (non_acks (inbox p ++ outbox e)); simpl in *; try lia.
  simplify_eq. by rewrite app_nil_r.
Qed.

Lemma datas_le_pending window (e : Endpoint A B) p sent got :
  linked window e p sent got → datas (inbox p ++ outbox e) ≤ Z.max 0 window.
Proof. intros [_ Hp Hw _ _ _]. pose proof (acks_nonneg (inbox e ++ outbox p)). lia. Qed.

(** Nothing is on the way: nothing is left to do. *)
Lemma weight_quiet window (e : Endpoint A B) p sent got :
  linked window e p sent got → flowing e → inbox e = [] → inbox p = [] → outbox e = [] → outbox p = [] → weight e p = 0.
Proof.
  intros [_ Hp _ _ _ _] Hf He Hp' Ho Ho'. unfold weight, flowing in *. rewrite He, Hp', Ho, Ho' in *. simpl in *.
  unfold datas, acks in *. simpl in *. destruct (outgoing_deque (outgoing_ e)); simpl in *; [done|].
  assert (0 < pending_chunks (outgoing_ e)) by (by apply Hf). lia.
Qed.

Lemma linked_transmit window (e : Endpoint A B) p sent got :
  linked window e p sent got → linked window (take_out e) (arrive (outbox e) p) sent got ∧
  weight (take_out e) (arrive (outbox e) p) = weight e p.
Proof.
  intros [Hst Hp Hw Hq Hv Hh]. unfold weight. simpl. rewrite app_nil_r. split; [|done].
  split; simpl; rewrite ?app_nil_r; done.
Qed.

Lemma linked_transmit_peer window (e : Endpoint A B) p sent got :
  linked window e p sent got → outbox e = [] → linked window (arrive (outbox p) e) (take_out p) sent got ∧
  weight (arrive (outbox p) e) (take_out p) = weight e p.
Proof.
  intros [Hst Hp Hw Hq Hv Hh] Ho. unfold weight. simpl. rewrite app_nil_r. split; [|done].
  split; simpl; rewrite ?app_nil_r; done.
Qed.
End Invariant.

Section Steps.
Context {A B : Type} `{!Codec A, !CodecLaws (T:=A) _, !Codec B, !CodecLaws (T:=B) _, !Side A B, !Side B A}.
Context (window : Z).

Record good (σ : System A B) : Prop := {
  good_joined : joined window (side_a σ) (side_b σ) (sent_a σ) (got_b σ) (sent_b σ) (got_a σ);
  good_outbox_a : outbox (side_a σ) = [];
  good_outbox_b : outbox (side_b σ) = [];
  good_sent_a : Forall (acceptable window) (sent_a σ);
  good_sent_b : Forall (acceptable window) (sent_b σ)
}.

Definition sys_work (σ : System A B) : Z := work (side_a σ) (side_b σ).

Lemma joined_transmit (e : Endpoint A B) p sa gb sb ga :
  joined window e p sa gb sb ga → outbox p = [] →
  joined window (take_out e) (arrive (outbox e) p) sa gb sb ga ∧ work (take_out e) (arrive (outbox e) p) = work e p.
Proof.
  intros [Hto Hfrom Hf Hfp] Ho.
  destruct (linked_transmit window e p sa gb Hto) as [Hto' Hw1].
  destruct (linked_transmit_peer window p e sb ga Hfrom Ho) as [Hfrom' Hw2].
  split; [by split|]. unfold work. lia.
Qed.

(** What the first side may send. *)
Definition sendable (m : A) : Prop := encodable (decorate m) ∧ acceptable window (decorate m).

Lemma act_a_send m σ :
  good σ → sendable m →
  ∃ σ', act_a (Some m) σ = Some σ' ∧ good σ' ∧ sent_a σ' = sent_a σ ++ [decorate m] ∧ sent_b σ' = sent_b σ.
Proof.
  intros [Hj Hoa Hob Hsa Hsb] [He Hacc]. pose proof (Send_spec window m _ _ _ _ _ _ Hj He) as Hs.
  unfold wp, returns in Hs. cbn [act_a]. destruct (Send (Whole m) (side_a σ)) as [r e]. simpl in Hs.
  destruct Hs as (u & -> & Hj' & _). eexists. split; [done|]. split; [|done].
  destruct (joined_transmit e (side_b σ) _ _ _ _ Hj' Hob) as [Hj'' _]. split; simpl; try done.
  apply Forall_app. split; [done|]. by constructor.
Qed.

Lemma act_a_receive σ :
  good σ →
  ∃ σ', act_a None σ = Some σ' ∧ good σ' ∧ sent_a σ' = sent_a σ ∧ sent_b σ' = sent_b σ ∧
    sys_work σ' ≤ sys_work σ ∧ (inbox (side_a σ) ≠ [] → sys_work σ' < sys_work σ) ∧
    ∃ l, inbox (side_b σ') = inbox (side_b σ) ++ l.
Proof.
  intros [Hj Hoa Hob Hsa Hsb]. pose proof (Receive_spec window _ _ _ _ _ _ Hj Hsb) as Hr.
  unfold wp, returns in Hr. cbn [act_a]. destruct (Receive (side_a σ)) as [r e]. simpl in Hr.
  destruct Hr as (r' & -> & Hrec & Hle & Hlt). unfold sys_work.
  destruct r' as [w|].
  - destruct Hrec as (m & -> & _ & Hj'). eexists. split; [done|].
    destruct (joined_transmit e (side_b σ) _ _ _ _ Hj' Hob) as [Hj'' Hw]. simpl. rewrite Hw. split_and!; try done; by eexists.
  - destruct Hrec as [_ Hj']. eexists. split; [done|].
    destruct (joined_transmit e (side_b σ) _ _ _ _ Hj' Hob) as [Hj'' Hw]. simpl. rewrite Hw. split_and!; try done; by eexists.
Qed.

Lemma good_quiet σ : good σ → inbox (side_a σ) = [] → inbox (side_b σ) = [] → sys_work σ = 0.
Proof.
  intros [[Hto Hfrom Hf Hfp] Hoa Hob _ _] Ha Hb. unfold sys_work, work.
  rewrite (weight_quiet window (side_a σ) (side_b σ) _ _ Hto), (weight_quiet window (side_b σ) (side_a σ) _ _ Hfrom) by done.
  done.
Qed.

Lemma good_done σ : good σ → sys_work σ = 0 → got_b σ = sent_a σ ∧ got_a σ = sent_b σ.
Proof.
  intros [[Hto Hfrom _ _] _ _ _ _] Hw. unfold sys_work, work in Hw.
  pose proof (weight_nonneg (side_a σ) (side_b σ)). pose proof (weight_nonneg (side_b σ) (side_a σ)).
  split; eapply weight_zero; eauto; lia.
Qed.

Lemma sys_work_nonneg σ : 0 ≤ sys_work σ.
Proof.
  unfold sys_work, work. pose proof (weight_nonneg (side_a σ) (side_b σ)).
  pose proof (weight_nonneg (side_b σ) (side_a σ)). lia.
Qed.
End Steps.

Section Swap.
Context {A B : Type} `{!Codec A, !CodecLaws (T:=A) _, !Codec B, !CodecLaws (T:=B) _, !Side A B, !Side B A}.
Context (window : Z).

Lemma good_swap (σ : System A B) : good window σ → good window (swap σ).
Proof. intros [[] ? ? ? ?]. by split; [split|..]. Qed.

Lemma work_swap (σ : System A B) : sys_work (swap σ) = sys_work σ.
Proof. unfold sys_work, work. simpl. lia. Qed.
End Swap.

(** ** Runs *)

Section RunsCorrect.
Context {A B : Type} `{!Codec A, !CodecLaws (T:=A) _, !Codec B, !CodecLaws (T:=B) _, !Side A B, !Side B A}.
Context (window : Z).

(** What an action may send. *)
Definition may (a : Action (A:=A) (B:=B)) : Prop :=
  match a with
  | ActA (Some m) => sendable window m
  | ActB (Some m) => sendable window m
  | _ => True
  end.

(** The messages that a run sends. *)
Definition sends_a (l : list (Action (A:=A) (B:=B))) : list A := omap (λ a, match a with ActA (Some m) => Some (decorate m) | _ => None end) l.
Definition sends_b (l : list (Action (A:=A) (B:=B))) : list B := omap (λ a, match a with ActB (Some m) => Some (decorate m) | _ => None end) l.

Lemma act_good a (σ : System A B) :
  good window σ → may a →
  ∃ σ', act a σ = Some σ' ∧ good window σ' ∧ sent_a σ' = sent_a σ ++ sends_a [a] ∧ sent_b σ' = sent_b σ ++ sends_b [a].
Proof.
  intros Hg Hm. pose proof (good_swap window σ Hg) as Hgs.
  destruct a as [[m|]|[m|]]; cbn [act sends_a sends_b omap list_omap]; rewrite ?app_nil_r.
  - destruct (act_a_send window m σ Hg Hm) as (σ' & ? & ? & ? & ?). eauto.
  - destruct (act_a_receive window σ Hg) as (σ' & ? & ? & ? & ? & _). eauto.
  - destruct (act_a_send window m (swap σ) Hgs Hm) as (σ' & -> & Hg' & ? & ?).
    exists (swap σ'). split_and!; try done. by apply good_swap.
  - destruct (act_a_receive window (swap σ) Hgs) as (σ' & -> & Hg' & ? & ? & _).
    exists (swap σ'). split_and!; try done. by apply good_swap.
Qed.

Lemma run_good l (σ : System A B) :
  good window σ → Forall may l →
  ∃ σ', run l σ = Some σ' ∧ good window σ' ∧ sent_a σ' = sent_a σ ++ sends_a l ∧ sent_b σ' = sent_b σ ++ sends_b l.
Proof.
  intros Hg Hl. revert σ Hg. induction Hl as [|a l Ha _ IH]; intros σ Hg; cbn [run].
  { exists σ. cbn. by rewrite !app_nil_r. }
  destruct (act_good a σ Hg Ha) as (σ1 & -> & Hg1 & Ha1 & Hb1). cbn [mbind option_bind].
  destruct (IH σ1 Hg1) as (σ2 & -> & Hg2 & Ha2 & Hb2). exists σ2. split_and!; try done.
  - rewrite Ha2, Ha1, <- app_assoc. f_equal. by destruct a as [[]|[]].
  - rewrite Hb2, Hb1, <- app_assoc. f_equal. by destruct a as [[]|[]].
Qed.

(** A turn of both sides does some of the work that is left. *)
Lemma pump_good n (σ : System A B) :
  good window σ →
  ∃ σ', pump n σ = Some σ' ∧ good window σ' ∧ sent_a σ' = sent_a σ ∧ sent_b σ' = sent_b σ ∧
    sys_work σ' ≤ Z.max 0 (sys_work σ - Z.of_nat n).
Proof.
  revert σ. induction n as [|n IH]; intros σ Hg; cbn [pump].
  { exists σ. split_and!; try done. lia. }
  destruct (act_a_receive window σ Hg) as (σ1 & E1 & Hg1 & Ha1 & Hb1 & Hle1 & Hlt1 & l & Hl).
  destruct (act_a_receive window (swap σ1) (good_swap window σ1 Hg1)) as (σ2 & E2 & Hg2 & Ha2 & Hb2 & Hle2 & Hlt2 & _).
  cbn [act]. rewrite E1. cbn [mbind option_bind]. rewrite E2. cbn [fmap option_fmap option_map mbind option_bind].
  destruct (IH (swap σ2) (good_swap window σ2 Hg2)) as (σ3 & -> & Hg3 & Ha3 & Hb3 & Hw3).
  exists σ3. rewrite work_swap in Hw3. rewrite work_swap in Hle2. rewrite work_swap in Hlt2. simpl in *. split_and!; [done|done|congruence|congruence|].
  pose proof (sys_work_nonneg σ). destruct (decide (sys_work σ = 0)) as [|Hne]; [lia|].
  assert (sys_work σ2 < sys_work σ); [|lia].
  destruct (inbox (side_a σ)) as [|w k] eqn:Hia; [|specialize (Hlt1 ltac:(done)); lia].
  destruct (inbox (side_b σ)) as [|w k] eqn:Hib; [by destruct Hne; apply (good_quiet window)|].
  enough (sys_work σ2 < sys_work σ1) by lia. apply Hlt2. by rewrite Hl.
Qed.

Lemma start_good oa ob : startable window oa → startable window ob → good window (start (A:=A) (B:=B) oa ob).
Proof. intros Ha Hb. split; try done. split; try (by apply linked_start); by intros ?. Qed.
End RunsCorrect.

(** C16: A client and a server that send and receive over a chunked stream in any
    order never fail; each has received, in order and once each, the first of the
    messages that the other has sent; and never are more pieces of a message
    under way than the largest window that was negotiated.  This holds when
    writing succeeds, messages can be encoded, and the options that the server
    sends are positive with a known compression. *)
Theorem chunked_stream_fifo {A B : Type}
    `{!Codec A, !CodecLaws (T:=A) _, !Codec B, !CodecLaws (T:=B) _, !Side A B, !Side B A}
    (window : Z) (options_a options_b : GrpcChunkedBidiStreamOptions) (actions : list Action) :
  startable window options_a → startable window options_b → Forall (may window) actions →
  ∃ σ : System A B,
    run actions (start options_a options_b) = Some σ ∧
    sent_a σ = sends_a actions ∧ sent_b σ = sends_b actions ∧
    got_b σ `prefix_of` sent_a σ ∧ got_a σ `prefix_of` sent_b σ ∧
    datas (inbox (side_b σ)) ≤ Z.max 0 window ∧ datas (inbox (side_a σ)) ≤ Z.max 0 window.
Proof.
  intros Ha Hb Hl. destruct (run_good window actions _ (start_good window _ _ Ha Hb) Hl) as (σ & Hr & Hg & Hsa & Hsb).
  exists σ. destruct Hg as [[Hto Hfrom _ _] Hoa Hob _ _].
  pose proof (datas_le_pending _ _ _ _ _ Hto) as Hd1. pose proof (datas_le_pending _ _ _ _ _ Hfrom) as Hd2.
  rewrite Hoa, app_nil_r in Hd1. rewrite Hob, app_nil_r in Hd2.
  destruct (link_stream _ _ _ _ _ Hto) as (ta & _ & Hta), (link_stream _ _ _ _ _ Hfrom) as (tb & _ & Htb).
  split_and!; try done; [by exists ta|by exists tb].
Qed.

(** C17: Once the two sides of a chunked stream only receive, in turn, each gets
    everything that the other has sent, after a number of turns that is bounded by
    the messages under way and in the queues: the stream does not get stuck,
    whatever the sizes of the pieces and of the windows. *)
Theorem chunked_stream_delivers {A B : Type}
    `{!Codec A, !CodecLaws (T:=A) _, !Codec B, !CodecLaws (T:=B) _, !Side A B, !Side B A}
    (window : Z) (options_a options_b : GrpcChunkedBidiStreamOptions) (actions : list Action) (n : nat) :
  startable window options_a → startable window options_b → Forall (may window) actions →
  ∃ σ : System A B,
    run actions (start options_a options_b) = Some σ ∧
    (sys_work σ ≤ Z.of_nat n →
     ∃ σ', pump n σ = Some σ' ∧ got_b σ' = sends_a actions ∧ got_a σ' = sends_b actions).
Proof.
  intros Ha Hb Hl. destruct (run_good window actions _ (start_good window _ _ Ha Hb) Hl) as (σ & Hr & Hg & Hsa & Hsb).
  exists σ. split; [done|]. intros Hn. destruct (pump_good window n σ Hg) as (σ' & Hp & Hg' & Ha' & Hb' & Hw).
  exists σ'. split; [done|]. pose proof (sys_work_nonneg σ').
  destruct (good_done window σ' Hg' ltac:(lia)) as [-> ->]. by rewrite Ha', Hb', Hsa, Hsb.
Qed.
