(* ===== verification/ChunkingExamples.v ===== *)
(** * Runs of chunked streams

    An encoding of the messages that satisfies the laws, and a client and a
    server that exchange messages in chunks of three bytes with at most two
    under way. *)

From S2P Require Import Prelude TimeUtil FileSystem Chunking ChunkingCorrect ChunkingSystem.

Abbreviation client_message := (ClientStreamMessage (list Z) (list Z) (list Z)).
Abbreviation server_message := (ServerStreamMessage (list Z) (list Z) (list Z)).

(** ** Encodings *)

Definition encode_request (r : ProtocolOptionsRequest) (rest : list Z) : list Z :=
  Z.b2z (supports_chunked_blob_transfer r) :: Z.of_nat (length (supported_compression_levels r)) ::
    supported_compression_levels r ++ rest.

Definition decode_request (l : list Z) : option (ProtocolOptionsRequest * list Z) :=
  match l with
  | b :: n :: l =>
      Some ({| supports_chunked_blob_transfer := b =? 1; supported_compression_levels := take (Z.to_nat n) l |},
            drop (Z.to_nat n) l)
  | _ => None
  end.

Lemma decode_encode_request r rest : decode_request (encode_request r rest) = Some (r, rest).
Proof.
  destruct r as [b l]. unfold encode_request, decode_request. simpl.
  rewrite Nat2Z.id, take_app_length, drop_app_length. by destruct b.
Qed.

Definition encode_client (m : client_message) : list Z :=
  match m with
  | EligibilityEvalCheckinRequest r rest => 1 :: encode_request r rest
  | CheckinRequest r rest => 2 :: encode_request r rest
  | OtherClientMessage rest => 3 :: rest
  end.

Definition decode_client (l : list Z) : option client_message :=
  match l with
  | 1 :: l => '(r, rest) ← decode_request l; Some (EligibilityEvalCheckinRequest r rest)
  | 2 :: l => '(r, rest) ← decode_request l; Some (CheckinRequest r rest)
  | 3 :: l => Some (OtherClientMessage l)
  | _ => None
  end.

Definition encode_response (r : option ProtocolOptionsResponse) (rest : list Z) : list Z :=
  match r with
  | None => 0 :: rest
  | Some r => 1 :: response_chunk_size_for_upload r :: response_max_pending_chunks r :: response_compression_level r :: rest
  end.

Definition decode_response (l : list Z) : option (option ProtocolOptionsResponse * list Z) :=
  match l with
  | 0 :: rest => Some (None, rest)
  | 1 :: size :: window :: level :: rest =>
      Some (Some {| response_chunk_size_for_upload := size; response_max_pending_chunks := window;
                    response_compression_level := level |}, rest)
  | _ => None
  end.

Definition encode_server (m : server_message) : list Z :=
  match m with
  | EligibilityEvalCheckinResponse r rest => 1 :: encode_response r rest
  | CheckinResponse r rest => 2 :: encode_response r rest
  | OtherServerMessage rest => 3 :: rest
  end.

Definition decode_server (l : list Z) : option server_message :=
  match l with
  | 1 :: l => '(r, rest) ← decode_response l; Some (EligibilityEvalCheckinResponse r rest)
  | 2 :: l => '(r, rest) ← decode_response l; Some (CheckinResponse r rest)
  | 3 :: l => Some (OtherServerMessage l)
  | _ => None
  end.

Lemma decode_encode_client m : decode_client (encode_client m) = Some m.
Proof. destruct m; cbn [encode_client decode_client]; by rewrite ?decode_encode_request. Qed.

Lemma decode_encode_server m : decode_server (encode_server m) = Some m.
Proof. by destruct m as [[[]|]|[[]|]|]. Qed.

(** The compressed form keeps the level in front. *)
Definition codec_of {T} (encode : T → list Z) (decode : list Z → option T) : Codec T := {|
  AppendToString m := Some (encode m);
  SerializeCompressed level m := Some (level :: encode m);
  ParseFromString l := Whole <$> decode l;
  ParseCompressed l := Whole <$> decode (tail l);
  ByteSizeLong w := match w with Whole m => Z.of_nat (length (encode m)) | ChunkedTransfer (Data _ l) => 4 + Z.of_nat (length l) | _ => 4 end
|}.

#[export] Instance ClientCodec : Codec client_message := codec_of encode_client decode_client.
#[export] Instance ServerCodec : Codec server_message := codec_of encode_server decode_server.

#[export] Instance ClientCodec_laws : CodecLaws ClientCodec.
Proof. split; intros; simplify_eq/=; by rewrite decode_encode_client. Defined.
#[export] Instance ServerCodec_laws : CodecLaws ServerCodec.
Proof. split; intros; simplify_eq/=; by rewrite decode_encode_server. Defined.

(** ** A run *)

Definition negotiated : ProtocolOptionsResponse :=
  {| response_chunk_size_for_upload := 3; response_max_pending_chunks := 2; response_compression_level := ZLIB_DEFAULT |}.

Definition server_options : GrpcChunkedBidiStreamOptions :=
  {| option_chunk_size_for_upload := 4; option_max_pending_chunks := 1; option_compression_level := UNCOMPRESSED |}.

Definition no_request : ProtocolOptionsRequest :=
  {| supports_chunked_blob_transfer := false; supported_compression_levels := [] |}.

(** The client checks in, the server answers with the options, and the client
    sends two messages before it has received an acknowledgement. *)
Definition exchange : list (Action (A:=client_message) (B:=server_message)) :=
  [ActA (Some (CheckinRequest no_request [7])); ActB None; ActB (Some (CheckinResponse (Some negotiated) [8; 9]));
   ActA None; ActB None; ActA None; ActB None; ActA None;
   ActA (Some (OtherClientMessage [1; 2; 3; 4; 5; 6; 7; 8; 9; 10])); ActA (Some (OtherClientMessage [11])); ActB None].

(** The second message of the client is in the queue behind the rest of the first one. *)
Example exchange_run :
  (λ σ : System client_message server_message,
     (got_a σ, length (got_b σ), outgoing_deque (outgoing_ (side_a σ)), inbox (side_a σ))) <$>
    run exchange (start default_options server_options) =
  Some ([CheckinResponse (Some negotiated) [8; 9]], 1%nat,
        [ChunkedTransfer (Data 2 [5; 6; 7]); ChunkedTransfer (Data 3 [8; 9; 10]); ChunkedTransfer (End_ 4);
         ChunkedTransfer (Start 2 1 3); ChunkedTransfer (Data 0 [1; 3; 11]); ChunkedTransfer (End_ 1)],
        [ChunkedTransfer (Ack 0); ChunkedTransfer (Ack 1)]).
Proof. vm_compute. reflexivity. Qed.

Lemma negotiated_sane : sane_options 2 negotiated.
Proof. split; unfold negotiated, ZLIB_DEFAULT; simpl; lia. Qed.

Lemma encodable_of {T} (encode : T → list Z) decode m :
  Z.of_nat (length (encode m)) < 2 ^ 20 → encodable (Codec0:=codec_of encode decode) m.
Proof.
  intros Hlen. split; [simpl; lia|]. split; [eexists; split; [done|lia]|].
  intros level _. eexists. split; [done|]. simpl. lia.
Qed.

Lemma exchange_may : Forall (may 2) exchange.
Proof.
  repeat apply Forall_cons_2; try done; (split; [by apply encodable_of|]); intros r Hr; simplify_eq/=.
  apply negotiated_sane.
Qed.

Lemma client_startable : startable 2 default_options.
Proof. split; simpl; lia. Qed.

Lemma server_startable : startable 2 server_options.
Proof. split; unfold server_options, UNCOMPRESSED; simpl; lia. Qed.

(** The run above. *)
Lemma chunked_stream_fifo_witness :
  ∃ σ : System client_message server_message,
    run exchange (start default_options server_options) = Some σ ∧
    got_b σ `prefix_of` sent_a σ ∧ datas (inbox (side_b σ)) ≤ 2.
Proof.
  destruct (chunked_stream_fifo 2 default_options server_options exchange
    client_startable server_startable exchange_may) as (σ & Hr & _ & _ & Hp & _ & Hd & _).
  exists σ. split; [exact Hr|]. split; [exact Hp|exact Hd].
Defined.

(** Fourteen turns of both sides deliver what is left. *)
Lemma chunked_stream_delivers_witness :
  ∃ σ : System client_message server_message,
    run exchange (start default_options server_options) = Some σ ∧
    ∃ σ', pump 14 σ = Some σ' ∧ got_b σ' = sends_a exchange.
Proof.
  destruct (chunked_stream_delivers 2 default_options server_options exchange 14
    client_startable server_startable exchange_may) as (σ & Hr & Hp).
  exists σ. split; [exact Hr|].
  assert (sys_work <$> run exchange (start default_options server_options) = Some 14) as Hw by reflexivity.
  rewrite Hr in Hw. injection Hw as Hw. destruct Hp as (σ' & Hp & Hb & _); [by rewrite Hw|].
  exists σ'. split; [exact Hp|exact Hb].
Defined.

(** ** Options that end the chunking *)

Definition no_chunking : ProtocolOptionsResponse :=
  {| response_chunk_size_for_upload := 0; response_max_pending_chunks := 0; response_compression_level := UNCOMPRESSED |}.

(** The client adopts such options while pieces of a message are in its queue:
    the next message is sent whole, before them, and the server fails. *)
Definition overtaking : list (Action (A:=client_message) (B:=server_message)) :=
  [ActA (Some (OtherClientMessage [1; 2; 3; 4; 5])); ActB (Some (CheckinResponse (Some no_chunking) []));
   ActA None; ActA (Some (OtherClientMessage [6])); ActB None].

Example overtaking_fails :
  run overtaking (start server_options default_options) = None ∧
  is_Some (run (take 4 overtaking) (start server_options default_options)).
Proof. split; [by vm_compute|]. vm_compute. by eexists. Qed.

(** A piece and an end without a start are assembled with the compression of the
    message before. *)
Example assembled_without_start :
  let e : Endpoint client_message server_message :=
    arrive [ChunkedTransfer (Data 0 [3; 5]); ChunkedTransfer (End_ 1)] (new_stream default_options) in
  fst (Receive e) = Ok (Some (Whole (OtherServerMessage [5]))).
Proof. by vm_compute. Qed.
