(* ===== verification/RetryWindows.v ===== *)
(** * Retry windows: [client/federated_protocol_util.cc]

    How a delay is chosen from a range that the server gives, and how it is given
    to the caller.  Floating-point numbers, the product of a duration and such a
    number, and the generator of random numbers are the class [Randomness];
    [RandomnessLaws] states what is documented of them.  [FixedPoint],
    in GrpcExamples.v, is an instance with ten binary digits behind the point. *)

From S2P Require Import Prelude TimeUtil FileSystem OpStats.
From Stdlib Require Import String Ascii.
Open Scope Z_scope.

Class Randomness `{AbslTime} := {
  double : Type;
  double_of_bit : bool → double;                 (** 0.0 and 1.0 *)
  double_lt : double → double → bool;
  double_add : double → double → double;
  double_sub : double → double → double;
  ZeroDuration : Duration;
  Duration_lt : Duration → Duration → bool;
  Duration_sub : Duration → Duration → Duration;
  Duration_mul : Duration → double → Duration;
  BitGen : Type;
  (** [absl::Uniform(bit_gen, 0, 1.0)] *)
  Uniform : BitGen → double * BitGen
}.

(** From 0 to 1. *)
Definition unit_interval `{Randomness} (j : double) : Prop :=
  double_lt j (double_of_bit false) = false ∧ double_lt (double_of_bit true) j = false.

Class RandomnessLaws `{AbslTimeLaws} (R : Randomness) := {
  bits_in_unit b : unit_interval (double_of_bit b);
  double_lt_bits : double_lt (double_of_bit true) (double_of_bit false) = false;
  double_lt_asym x y : double_lt x y = true → double_lt y x = false;
  ZeroDuration_ticks : duration_ticks ZeroDuration = Some 0;
  Duration_lt_ticks d e x y : duration_ticks d = Some x → duration_ticks e = Some y → Duration_lt d e = (x <? y);
  Duration_sub_ticks d e x y :
    duration_ticks d = Some x → duration_ticks e = Some y → in_range (x - y) = true →
    duration_ticks (Duration_sub d e) = Some (x - y);
  Uniform_mul g d x :
    duration_ticks d = Some x → 0 ≤ x → ∃ y, duration_ticks (Duration_mul d (Uniform g).1) = Some y ∧ 0 ≤ y ≤ x;
  Duration_mul_less d x j :
    duration_ticks d = Some x → 0 ≤ x → unit_interval j →
    ∃ y, duration_ticks (Duration_mul d (double_sub (double_of_bit true) j)) = Some y ∧ 0 ≤ y ≤ x;
  Duration_mul_more d x j :
    duration_ticks d = Some x → 0 ≤ x → in_range (2 * x) = true → unit_interval j →
    ∃ y, duration_ticks (Duration_mul d (double_add (double_of_bit true) j)) = Some y ∧ x ≤ y ≤ 2 * x
}.

Section RetryWindows.
Context `{Randomness}.

(** [std::max] and [std::min]. *)
Definition max_duration (a b : Duration) : Duration := if Duration_lt a b then b else a.
Definition max_double (a b : double) : double := if double_lt a b then b else a.
Definition min_double (a b : double) : double := if double_lt b a then b else a.

Definition PickRetryDelayFromRange (min_delay max_delay : Duration) (bit_gen : BitGen) : Duration * BitGen :=
  let min_delay := max_duration ZeroDuration min_delay in
  let max_delay := max_duration max_delay min_delay in
  let window_width := Duration_sub max_delay min_delay in
  let '(random, bit_gen) := Uniform bit_gen in
  (Duration_add min_delay (Duration_mul window_width random), bit_gen).

(** A duration that is not set. *)
Definition no_duration : DurationProto := {| duration_seconds := 0; duration_nanos := 0 |}.

Definition proto_duration (d : option DurationProto) : Duration :=
  Duration_add (Seconds (duration_seconds (default no_duration d))) (Nanoseconds (duration_nanos (default no_duration d))).

(** [now] is what [absl::Now] returns. *)
Definition PickRetryTimeFromRange (min_delay max_delay : option DurationProto) (now : Time) (bit_gen : BitGen) :
    Time * BitGen :=
  let '(delay, bit_gen) := PickRetryDelayFromRange (proto_duration min_delay) (proto_duration max_delay) bit_gen in
  (Time_add now delay, bit_gen).

(** Both ends of the window are the same. *)
Definition window_at (delay : Duration) : RetryWindow :=
  {| retry_token := EmptyString; delay_min := Some (ConvertAbslToProtoDuration delay);
     delay_max := Some (ConvertAbslToProtoDuration delay) |}.

Definition GenerateRetryWindowFromTargetDelay (target_delay : Duration) (jitter_percent : double) (bit_gen : BitGen) :
    RetryWindow * BitGen :=
  let jitter_percent := min_double (double_of_bit true) (max_double (double_of_bit false) jitter_percent) in
  let '(retry_delay, bit_gen) :=
    PickRetryDelayFromRange (Duration_mul target_delay (double_sub (double_of_bit true) jitter_percent))
      (Duration_mul target_delay (double_add (double_of_bit true) jitter_percent)) bit_gen in
  (window_at retry_delay, bit_gen).

Definition GenerateRetryWindowFromRetryTime (retry_time now : Time) : RetryWindow :=
  window_at (max_duration ZeroDuration (Time_sub retry_time now)).
End RetryWindows.

(** The task name, or [None] after a diagnostic has been logged. *)
Definition find_task_name (session_id population_name : string) : option string :=
  match index 0 (population_name +:+ "/") session_id, index 0 "#" session_id with
  | Some O, Some task_end =>
      if (task_end <=? String.length population_name + 1)%nat then None
      else Some (substring (String.length population_name + 1) (task_end - String.length population_name - 1) session_id)
  | _, _ => None
  end.

Definition kTaskNameExtractionFailed : Z := 1691.

Definition ExtractTaskNameFromAggregationSessionId (session_id population_name : string) : string * list Z :=
  match find_task_name session_id population_name with
  | None => (session_id, [kTaskNameExtractionFailed])
  | Some name => (name, [])
  end.

(** ** What is chosen *)

Section Chosen.
Context `{RandomnessLaws}.

Lemma max_duration_ticks d e x y :
  duration_ticks d = Some x → duration_ticks e = Some y → duration_ticks (max_duration d e) = Some (Z.max x y).
Proof.
  intros Hd He. unfold max_duration. rewrite (Duration_lt_ticks _ _ _ _ Hd He).
  destruct (Z.ltb_spec x y); rewrite ?Hd, ?He; f_equal; lia.
Qed.

(** The delay is in the range, which is made sane first. *)
Lemma PickRetryDelay_range lo hi x y g :
  duration_ticks lo = Some x → duration_ticks hi = Some y →
  ∃ z, duration_ticks (PickRetryDelayFromRange lo hi g).1 = Some z ∧ Z.max 0 x ≤ z ≤ Z.max y (Z.max 0 x).
Proof.
  intros Hlo Hhi. unfold PickRetryDelayFromRange.
  pose proof (max_duration_ticks _ _ _ _ ZeroDuration_ticks Hlo) as Hmin.
  pose proof (max_duration_ticks _ _ _ _ Hhi Hmin) as Hmax.
  pose proof (duration_ticks_range _ _ Hmin) as Hr1. pose proof (duration_ticks_range _ _ Hmax) as Hr2.
  rewrite in_range_iff in Hr1, Hr2.
  assert (duration_ticks (Duration_sub (max_duration hi (max_duration ZeroDuration lo)) (max_duration ZeroDuration lo)) =
    Some (Z.max y (Z.max 0 x) - Z.max 0 x)) as Hw.
  { apply Duration_sub_ticks; [done|done|]. apply in_range_iff. lia. }
  destruct (Uniform_mul g _ _ Hw ltac:(lia)) as (z & Hz & Hb).
  destruct (Uniform g) as [random g']. simpl in *. exists (Z.max 0 x + z). split; [|lia].
  apply Duration_add_ticks; [done|done|]. apply in_range_iff. lia.
Qed.

(** A time within the range behind [now]. *)
Lemma PickRetryTime_range lo hi x y now t g :
  duration_ticks (proto_duration lo) = Some x → duration_ticks (proto_duration hi) = Some y →
  time_ticks now = Some t → in_range (t + Z.max y (Z.max 0 x)) = true →
  ∃ z, time_ticks (PickRetryTimeFromRange lo hi now g).1 = Some (t + z) ∧ Z.max 0 x ≤ z ≤ Z.max y (Z.max 0 x).
Proof.
  intros Hlo Hhi Hnow Hr. unfold PickRetryTimeFromRange.
  destruct (PickRetryDelay_range _ _ _ _ g Hlo Hhi) as (z & Hz & Hb).
  destruct (PickRetryDelayFromRange _ _ g) as [delay g']. simpl in *. exists z. split; [|done].
  apply Time_add_ticks; [done|done|]. pose proof (time_ticks_range _ _ Hnow). rewrite in_range_iff in *. lia.
Qed.

Lemma clamp_unit j :
  unit_interval (min_double (double_of_bit true) (max_double (double_of_bit false) j)).
Proof.
  unfold min_double, max_double. destruct (double_lt (double_of_bit false) j) eqn:Hlow.
  - destruct (double_lt j (double_of_bit true)) eqn:Hhigh; [|apply bits_in_unit].
    split; by apply double_lt_asym.
  - case_match; apply bits_in_unit.
Qed.

(** The delay differs from the target by at most the jitter, and is at most twice
    the target. *)
Lemma TargetDelay_range target x jitter g :
  duration_ticks target = Some x → 0 ≤ x → in_range (2 * x) = true →
  ∃ d z, (GenerateRetryWindowFromTargetDelay target jitter g).1 = window_at d ∧
    duration_ticks d = Some z ∧ 0 ≤ z ≤ 2 * x.
Proof.
  intros Ht Hx Hr. unfold GenerateRetryWindowFromTargetDelay.
  set (j := min_double _ _). pose proof (clamp_unit jitter : unit_interval j) as Hj.
  destruct (Duration_mul_less _ _ _ Ht Hx Hj) as (lo & Hlo & Hl).
  destruct (Duration_mul_more _ _ _ Ht Hx Hr Hj) as (hi & Hhi & Hh).
  destruct (PickRetryDelay_range _ _ _ _ g Hlo Hhi) as (z & Hz & Hb).
  destruct (PickRetryDelayFromRange _ _ g) as [delay g']. exists delay, z. split_and!; [done|done|lia..].
Qed.

(** The delay to a time: none when it has passed. *)
Lemma RetryTime_delay retry now r t :
  time_ticks retry = Some r → time_ticks now = Some t → in_range (r - t) = true →
  ∃ d, GenerateRetryWindowFromRetryTime retry now = window_at d ∧ duration_ticks d = Some (Z.max 0 (r - t)).
Proof.
  intros Hr Ht Hrange. eexists. split; [done|]. apply max_duration_ticks; [apply ZeroDuration_ticks|].
  by apply Time_sub_ticks.
Qed.
End Chosen.

(** ** Names of tasks *)

Lemma index_prefix s s' : index 0 s (s +:+ s') = Some 0%nat.
Proof.
  assert (prefix s (s +:+ s') = true) as Hp by (induction s; simpl; [by destruct s'|by case_match]).
  destruct s; simpl in *; [by destruct s'|]. by rewrite Hp.
Qed.

Lemma index_char_skip c s r :
  index 0 (String c EmptyString) s = None →
  index 0 (String c EmptyString) (s +:+ String c r) = Some (String.length s).
Proof.
  induction s as [|a s IH]; intros Hs; [apply (index_prefix (String c EmptyString))|].
  simpl in Hs |- *. destruct (Ascii.ascii_dec c a) as [|Hne].
  { by destruct s. }
  destruct (index 0 (String c EmptyString) s); [done|]. by rewrite IH.
Qed.

Lemma index_char_app c s r :
  index 0 (String c EmptyString) s = None → index 0 (String c EmptyString) r = None →
  index 0 (String c EmptyString) (s +:+ r) = None.
Proof.
  induction s as [|a s IH]; intros Hs Hr; simpl in *; [done|].
  destruct (Ascii.ascii_dec c a); [by destruct s|].
  destruct (index 0 (String c EmptyString) s); [done|]. by rewrite IH.
Qed.

Lemma substring_middle s m r : substring (String.length s) (String.length m) (s +:+ m +:+ r) = m.
Proof.
  induction s as [|a s IH]; simpl; [|done]. induction m as [|a m IHm]; simpl; [by destruct r|]. f_equal. exact IHm.
Qed.

Lemma length_string_app s r : String.length (s +:+ r) = (String.length s + String.length r)%nat.
Proof. induction s as [|a s IH]; simpl; [done|]. f_equal. exact IH. Qed.

Lemma string_app_assoc s r t : (s +:+ r) +:+ t = s +:+ (r +:+ t).
Proof. induction s as [|a s IH]; [done|]. exact (f_equal (String a) IH). Qed.

(** A session id is the population, the task and the rest. *)
Lemma find_task_name_spec population task rest :
  index 0 "#" population = None → index 0 "#" task = None → task ≠ EmptyString →
  find_task_name (population +:+ "/" +:+ task +:+ "#" +:+ rest) population = Some task.
Proof.
  intros Hp Ht Hne. unfold find_task_name.
  assert (population +:+ "/" +:+ task +:+ "#" +:+ rest = (population +:+ "/") +:+ task +:+ "#" +:+ rest) as Hs
    by (by rewrite string_app_assoc).
  assert (index 0 "#" (population +:+ "/" +:+ task +:+ "#" +:+ rest) =
    Some (String.length population + 1 + String.length task)%nat) as Hi.
  { rewrite Hs, <- string_app_assoc. change ("#" +:+ rest) with (String "#"%char rest).
    rewrite index_char_skip; [by rewrite !length_string_app|].
    apply index_char_app; [by apply index_char_app|done]. }
  rewrite Hi, Hs, index_prefix. destruct task as [|c task]; [done|].
  rewrite (proj2 (Nat.leb_gt _ _)) by (simpl; lia). f_equal.
  replace (String.length population + 1 + String.length (String c task) - String.length population - 1)%nat
    with (String.length (String c task)) by lia.
  replace (String.length population + 1)%nat with (String.length (population +:+ "/")) by (by rewrite length_string_app).
  apply substring_middle.
Qed.
