(* ===== verification/GrpcProtocol.v ===== *)
(** * A session with the server over gRPC: [client/grpc_federated_protocol.cc]

    A [GrpcFederatedProtocol] object is one session: an eligibility check-in, a
    check-in and a report, over a bidirectional stream of messages, with the
    resources of a task in the messages or fetched by HTTP.

    Messages carry what the session looks at; [TaskEligibilityInfo], which is
    passed on, is an arbitrary type.  The stream is the class
    [GrpcBidiStreamInterface], as in [client/grpc_bidi_stream.h]: a call that
    returns [None] still waits.  Secure aggregation is run
    by a [SecAggRunnerFactory].  The session's calls of the stream run on the
    background thread of an [InterruptibleRunner].  A method returns [Fetch]: a
    result, or the process ends, or the runner still waits.  The stopwatch of the
    network is not modelled. *)

From S2P Require Import Prelude TimeUtil FileSystem OpStats RetryWindows Client ResourceCache Future InterruptibleRunner HttpUtil InMemoryHttp Chunking.
#[local] Open Scope Z_scope.

(** ** Methods that can end the process *)

Definition X (P A : Type) : Type := P → Fetch A * P.

#[export] Instance X_ret {P} : MRet (X P) := λ A a p, (FetchDone (Ok a), p).
#[export] Instance X_bind {P} : MBind (X P) := λ A B f m p,
  match m p with
  | (FetchDone (Ok a), p') => f a p'
  | (FetchDone (Error c msg), p') => (FetchDone (Error c msg), p')
  | (FetchDone Crash, p') => (FetchDone Crash, p')
  | (FetchExit, p') => (FetchExit, p')
  | (FetchWaiting, p') => (FetchWaiting, p')
  end.

Definition x_fail {P A} (code : StatusCode) (message : string) : X P A := λ p, (FetchDone (Error code message), p).
Definition x_crash {P A} : X P A := λ p, (FetchDone Crash, p).
Definition x_get {P} : X P P := λ p, (FetchDone (Ok p), p).
Definition x_modify {P} (f : P → P) : X P unit := λ p, (FetchDone (Ok tt), f p).

(** A status that the caller looks at. *)
Definition x_attempt {P A} (m : X P A) : X P (A + Status) := λ p,
  match m p with
  | (FetchDone (Ok a), p') => (FetchDone (Ok (inl a)), p')
  | (FetchDone (Error c msg), p') => (FetchDone (Ok (inr (c, msg))), p')
  | (FetchDone Crash, p') => (FetchDone Crash, p')
  | (FetchExit, p') => (FetchExit, p')
  | (FetchWaiting, p') => (FetchWaiting, p')
  end.

Definition x_return {P A} (r : A + Status) : X P A :=
  match r with inl a => mret a | inr (c, msg) => x_fail c msg end.

(** ** Messages *)

Record RequestInfo := {
  req_population_name : string;
  req_retry_token : string;
  req_client_version : string;
  req_attestation_measurement : string;
  should_ack_checkin : bool;
  supports_http_download : bool;
  supports_eligibility_eval_http_download : bool;
  req_client_variant : list Z;
  supported_http_compression_formats : list Z
}.

Record UriResource := { res_uri : string; res_client_cache_id : string; res_max_age : option DurationProto }.

(** A oneof of data and a resource; when it is not set the data are empty. *)
Inductive ResourceField := ResourceData (data : list Z) | ResourceUri (resource : UriResource).

Record EligibilityEvalPayload := {
  eval_plan : ResourceField;
  eval_init_checkpoint : ResourceField;
  eval_execution_id : string
}.

Inductive EligibilityEvalResponse :=
  | EvalPayload (payload : EligibilityEvalPayload)
  | NoEligibilityEvalConfigured
  | EvalRejectionInfo
  | EvalResultNotSet.

Record SideChannelExecutionInfo := { output_bitwidth : Z; aggregand_modulus : Z }.

Record SecureAggregationExecutionInfo := {
  expected_number_of_clients : Z;
  minimum_surviving_clients_for_reconstruction : Z;
  minimum_clients_in_server_visible_aggregate : Z
}.

Record AcceptanceInfo := {
  execution_phase_id : string;
  accepted_plan : ResourceField;
  accepted_init_checkpoint : ResourceField;
  side_channels : gmap string SideChannelExecutionInfo;
  secure_aggregation_info : option SecureAggregationExecutionInfo;
  uri_template : string
}.

Inductive CheckinResponseResult :=
  | Acceptance (info : AcceptanceInfo)
  | CheckinRejectionInfo
  | CheckinResultNotSet.

(** With the client variant of the side channels of the protocol options. *)
Record CheckinResponseInfo := { checkin_result : CheckinResponseResult; response_client_variant : Z }.

Record CheckinRequestAck := {
  retry_window_if_accepted : option RetryWindow;
  retry_window_if_rejected : option RetryWindow
}.

Inductive OtherServerKind := AckKind (ack : CheckinRequestAck) | ReportResponseKind | NoKind.

Record ReportInfo := {
  report_population_name : string;
  report_execution_phase_id : string;
  update_checkpoint : list Z;
  report_status_code : Z;
  report_duration : DurationProto
}.

(** The messages of secure aggregation are outside the oneof. *)
Inductive OtherClientKind :=
  | ReportKind (report : ReportInfo) (commit : option ClientToServer)
  | SecAggKind (message : ClientToServer).

Abbreviation with_secagg T := (T * option ServerToClient)%type.
Abbreviation ServerMessage :=
  (ServerStreamMessage (with_secagg EligibilityEvalResponse) (with_secagg CheckinResponseInfo) (with_secagg OtherServerKind)).
Abbreviation ClientMessage Info :=
  (ClientStreamMessage RequestInfo (RequestInfo * option Info)%type OtherClientKind).

(** ** Results *)

Inductive Payload := PayloadString (s : list Z) | PayloadCord (c : Cord).
Record PlanAndCheckpointPayloads := { plan : Payload; checkpoint : Payload }.

Record SecAggInfo := { info_expected_number_of_clients : Z; info_minimum_clients_in_server_visible_aggregate : Z }.

Record TaskInfo := {
  federated_select_uri_template : string;
  aggregation_session_id : string;
  sec_agg_info : option SecAggInfo
}.

Inductive EligibilityEvalCheckinResult :=
  | EligibilityEvalTask (payloads : PlanAndCheckpointPayloads) (execution_id : string)
  | EligibilityEvalDisabled
  | EligibilityRejection.

Inductive CheckinResult := TaskAssignment (payloads : PlanAndCheckpointPayloads) (task : TaskInfo) | Rejection.

(** What the callbacks of the caller were called with. *)
Inductive UrisReceived := EvalUrisReceived (execution_id : string) | TaskUrisReceived (task : TaskInfo).

Record QuantizedTensor := { tensor_values : list Z; tensor_bitwidth : Z; tensor_dimensions : list Z }.
Inductive ResultValue := TFCheckpoint (s : list Z) | Quantized (t : QuantizedTensor).
(** In the order in which the map is iterated over. *)
Abbreviation ComputationResults := (list (string * ResultValue)).

Inductive PhaseOutcome := PHASE_OUTCOME_UNDEFINED | COMPLETED_ | INTERRUPTED_ | ERROR_.

#[export] Instance PhaseOutcome_eq_dec : EqDecision PhaseOutcome.
Proof. solve_decision. Defined.

Inductive ObjectState :=
  | kInitialized
  | kEligibilityEvalCheckinFailed
  | kEligibilityEvalCheckinFailedPermanentError
  | kEligibilityEvalCheckinRejected
  | kEligibilityEvalDisabled
  | kEligibilityEvalEnabled
  | kCheckinFailed
  | kCheckinFailedPermanentError
  | kCheckinRejected
  | kCheckinAccepted
  | kMultipleTaskAssignmentsFailed
  | kMultipleTaskAssignmentsFailedPermanentError
  | kMultipleTaskAssignmentsNoAvailableTask
  | kMultipleTaskAssignmentsAccepted
  | kReportCalled
  | kReportFailedPermanentError
  | kReportMultipleTaskPartialError.

#[export] Instance ObjectState_eq_dec : EqDecision ObjectState.
Proof. solve_decision. Defined.

(** ** Interfaces *)

Class GrpcBidiStreamInterface (Info S : Type) := {
  stream_Send : ClientMessage Info → S → option (Res unit) * S;
  stream_Receive : S → option (Res (Wire ServerMessage)) * S;
  stream_Close : S → S;
  ChunkingLayerBytesSent_ : S → Z;
  ChunkingLayerBytesReceived_ : S → Z
}.

(** [SecAggRunner::Run], for the checkpoint and the function that reports it with
    a message of the client, the side channels and the two numbers of clients;
    also the state of the runner of the session. *)
Class SecAggRunnerFactory (S : Type) := run_secagg :
  list Z → (list Z → option ClientToServer → S → option (Res unit) * S) → gmap string SideChannelExecutionInfo → Z → Z →
  ComputationResults → S * nat → Fetch unit * (S * nat).

Record Flags `{Randomness} := {
  enable_grpc_with_eligibility_eval_http_resource_support : bool;
  transient_errors_retry_delay_secs : Z;
  transient_errors_retry_delay_jitter_percent : double;
  permanent_errors_retry_delay_secs : Z;
  permanent_errors_retry_delay_jitter_percent : double;
  permanent_error_codes : list Z
}.

Definition SECAGG_CLIENT_VARIANT_NATIVE_V1 : Z := 2.
Definition HTTP_COMPRESSION_FORMAT_GZIP : Z := 1.
Definition kAckExpectedButNotReceived : Z := 29.
Definition kAckReceived : Z := 28.
Definition kResourceUsesHttp : Z := 1799.
Definition kResourceHttpFetchFailed : Z := 1798.
Definition kResourceHttpFetchSucceeded : Z := 1797.
Definition kUnsupportedVersion : Z := 1368.

Record RetryTimeAndToken `{AbslTime} := { retry_time : Time; retry_info_token : string }.
Record CheckinRequestAckInfo `{AbslTime} := {
  retry_info_if_rejected : RetryTimeAndToken;
  retry_info_if_accepted : RetryTimeAndToken
}.

Section Protocol.
Context `{AbslTime, !Randomness, SimpleAtoi, Gzip, MetadataAny, HttpClient}.
Context {Info S CacheState : Type} `{!GrpcBidiStreamInterface Info S, !SecAggRunnerFactory S}.

(** ** The object *)

Record GrpcFederatedProtocol := {
  object_state_ : ObjectState;
  grpc_bidi_stream_ : S;
  (** The HTTP client with the two counters of bytes; its clock is that of [interruptible_runner_]. *)
  http_ : Net;
  cache_ : CacheState;
  bit_gen_ : BitGen;
  (** The readings of [absl::Now] so far. *)
  readings : nat;
  checkin_request_ack_info_ : option CheckinRequestAckInfo;
  execution_phase_id_ : string;
  side_channels_ : gmap string SideChannelExecutionInfo;
  side_channel_protocol_execution_info_ : option SecureAggregationExecutionInfo;
  side_channel_protocol_options_response_ : Z;
  (** Diagnostics and calls of callbacks. *)
  diagnostics : list Z;
  uris_received : list UrisReceived
}.
Local Abbreviation Session := (X GrpcFederatedProtocol).

(** What the object is constructed with; [http_client_] and the publisher of the
    events of secure aggregation can be null, and [now] are the readings of the
    clock.  The rest is for [interruptible_runner_], on the environments in which
    it runs callables. *)
Record SessionConfig := {
  cfg_flags : Flags;
  cfg_has_http_client : bool;
  cfg_has_secagg_event_publisher : bool;
  cfg_population_name : string;
  cfg_retry_token : string;
  cfg_client_version : string;
  cfg_attestation_measurement : string;
  cfg_resource_cache : option (ResourceCacheOps CacheState);
  cfg_now : nat → Time;
  cfg_should_abort_stream : S → bool * S;
  cfg_should_abort_http : InMemoryHttp.Client → bool * InMemoryHttp.Client;
  cfg_timing : TimingConfig;
  cfg_diagnostics : DiagnosticsConfig;
  cfg_slices : nat → nat;
  cfg_fuel : nat
}.
Context (cfg : SessionConfig).
Local Abbreviation flags_ := (cfg_flags cfg).
Local Abbreviation has_http_client_ := (cfg_has_http_client cfg).
Local Abbreviation has_secagg_event_publisher := (cfg_has_secagg_event_publisher cfg).
Local Abbreviation population_name_ := (cfg_population_name cfg).
Local Abbreviation retry_token_ := (cfg_retry_token cfg).
Local Abbreviation client_version_ := (cfg_client_version cfg).
Local Abbreviation attestation_measurement_ := (cfg_attestation_measurement cfg).
Local Abbreviation resource_cache_ := (cfg_resource_cache cfg).
Local Abbreviation now := (cfg_now cfg).
Local Abbreviation should_abort_stream := (cfg_should_abort_stream cfg).
Local Abbreviation should_abort_http := (cfg_should_abort_http cfg).
Local Abbreviation timing_config_ := (cfg_timing cfg).
Local Abbreviation diagnostics_config_ := (cfg_diagnostics cfg).
Local Abbreviation slices := (cfg_slices cfg).
Local Abbreviation fuel := (cfg_fuel cfg).

Definition new_GrpcFederatedProtocol (stream : S) (http : Net) (cache : CacheState) (bit_gen : BitGen) :
    GrpcFederatedProtocol :=
  {| object_state_ := kInitialized; grpc_bidi_stream_ := stream; http_ := http; cache_ := cache; bit_gen_ := bit_gen;
     readings := 0; checkin_request_ack_info_ := None; execution_phase_id_ := EmptyString; side_channels_ := ∅;
     side_channel_protocol_execution_info_ := None; side_channel_protocol_options_response_ := 0;
     diagnostics := []; uris_received := [] |}.

Definition set_state (st : ObjectState) (p : GrpcFederatedProtocol) : GrpcFederatedProtocol :=
  {| object_state_ := st; grpc_bidi_stream_ := grpc_bidi_stream_ p; http_ := http_ p; cache_ := cache_ p;
     bit_gen_ := bit_gen_ p; readings := readings p; checkin_request_ack_info_ := checkin_request_ack_info_ p;
     execution_phase_id_ := execution_phase_id_ p; side_channels_ := side_channels_ p;
     side_channel_protocol_execution_info_ := side_channel_protocol_execution_info_ p;
     side_channel_protocol_options_response_ := side_channel_protocol_options_response_ p;
     diagnostics := diagnostics p; uris_received := uris_received p |}.
Definition set_stream (s : S) (clock : nat) (p : GrpcFederatedProtocol) : GrpcFederatedProtocol :=
  {| object_state_ := object_state_ p; grpc_bidi_stream_ := s;
     http_ := {| net_client := net_client (http_ p); bytes_received_acc := bytes_received_acc (http_ p);
                 bytes_sent_acc := bytes_sent_acc (http_ p); net_clock := clock |};
     cache_ := cache_ p; bit_gen_ := bit_gen_ p; readings := readings p;
     checkin_request_ack_info_ := checkin_request_ack_info_ p;
     execution_phase_id_ := execution_phase_id_ p; side_channels_ := side_channels_ p;
     side_channel_protocol_execution_info_ := side_channel_protocol_execution_info_ p;
     side_channel_protocol_options_response_ := side_channel_protocol_options_response_ p;
     diagnostics := diagnostics p; uris_received := uris_received p |}.
Definition set_http (net : Net) (cache : CacheState) (p : GrpcFederatedProtocol) : GrpcFederatedProtocol :=
  {| object_state_ := object_state_ p; grpc_bidi_stream_ := grpc_bidi_stream_ p; http_ := net; cache_ := cache;
     bit_gen_ := bit_gen_ p; readings := readings p; checkin_request_ack_info_ := checkin_request_ack_info_ p;
     execution_phase_id_ := execution_phase_id_ p; side_channels_ := side_channels_ p;
     side_channel_protocol_execution_info_ := side_channel_protocol_execution_info_ p;
     side_channel_protocol_options_response_ := side_channel_protocol_options_response_ p;
     diagnostics := diagnostics p; uris_received := uris_received p |}.
Definition set_random (g : BitGen) (n : nat) (p : GrpcFederatedProtocol) : GrpcFederatedProtocol :=
  {| object_state_ := object_state_ p; grpc_bidi_stream_ := grpc_bidi_stream_ p; http_ := http_ p; cache_ := cache_ p;
     bit_gen_ := g; readings := n; checkin_request_ack_info_ := checkin_request_ack_info_ p;
     execution_phase_id_ := execution_phase_id_ p; side_channels_ := side_channels_ p;
     side_channel_protocol_execution_info_ := side_channel_protocol_execution_info_ p;
     side_channel_protocol_options_response_ := side_channel_protocol_options_response_ p;
     diagnostics := diagnostics p; uris_received := uris_received p |}.
Definition set_ack_info (a : CheckinRequestAckInfo) (p : GrpcFederatedProtocol) : GrpcFederatedProtocol :=
  {| object_state_ := object_state_ p; grpc_bidi_stream_ := grpc_bidi_stream_ p; http_ := http_ p; cache_ := cache_ p;
     bit_gen_ := bit_gen_ p; readings := readings p; checkin_request_ack_info_ := Some a;
     execution_phase_id_ := execution_phase_id_ p; side_channels_ := side_channels_ p;
     side_channel_protocol_execution_info_ := side_channel_protocol_execution_info_ p;
     side_channel_protocol_options_response_ := side_channel_protocol_options_response_ p;
     diagnostics := diagnostics p; uris_received := uris_received p |}.
Definition set_phase_id (id : string) (p : GrpcFederatedProtocol) : GrpcFederatedProtocol :=
  {| object_state_ := object_state_ p; grpc_bidi_stream_ := grpc_bidi_stream_ p; http_ := http_ p; cache_ := cache_ p;
     bit_gen_ := bit_gen_ p; readings := readings p; checkin_request_ack_info_ := checkin_request_ack_info_ p;
     execution_phase_id_ := id; side_channels_ := side_channels_ p;
     side_channel_protocol_execution_info_ := side_channel_protocol_execution_info_ p;
     side_channel_protocol_options_response_ := side_channel_protocol_options_response_ p;
     diagnostics := diagnostics p; uris_received := uris_received p |}.
(** The side channels are added to those that there are. *)
Definition set_side_channels (info : AcceptanceInfo) (variant : Z) (p : GrpcFederatedProtocol) : GrpcFederatedProtocol :=
  {| object_state_ := object_state_ p; grpc_bidi_stream_ := grpc_bidi_stream_ p; http_ := http_ p; cache_ := cache_ p;
     bit_gen_ := bit_gen_ p; readings := readings p; checkin_request_ack_info_ := checkin_request_ack_info_ p;
     execution_phase_id_ := execution_phase_id_ p; side_channels_ := side_channels info ∪ side_channels_ p;
     side_channel_protocol_execution_info_ := secure_aggregation_info info;
     side_channel_protocol_options_response_ := variant;
     diagnostics := diagnostics p; uris_received := uris_received p |}.
Definition log_diag (code : Z) (p : GrpcFederatedProtocol) : GrpcFederatedProtocol :=
  {| object_state_ := object_state_ p; grpc_bidi_stream_ := grpc_bidi_stream_ p; http_ := http_ p; cache_ := cache_ p;
     bit_gen_ := bit_gen_ p; readings := readings p; checkin_request_ack_info_ := checkin_request_ack_info_ p;
     execution_phase_id_ := execution_phase_id_ p; side_channels_ := side_channels_ p;
     side_channel_protocol_execution_info_ := side_channel_protocol_execution_info_ p;
     side_channel_protocol_options_response_ := side_channel_protocol_options_response_ p;
     diagnostics := diagnostics p ++ [code]; uris_received := uris_received p |}.
Definition call_back (u : UrisReceived) (p : GrpcFederatedProtocol) : GrpcFederatedProtocol :=
  {| object_state_ := object_state_ p; grpc_bidi_stream_ := grpc_bidi_stream_ p; http_ := http_ p; cache_ := cache_ p;
     bit_gen_ := bit_gen_ p; readings := readings p; checkin_request_ack_info_ := checkin_request_ack_info_ p;
     execution_phase_id_ := execution_phase_id_ p; side_channels_ := side_channels_ p;
     side_channel_protocol_execution_info_ := side_channel_protocol_execution_info_ p;
     side_channel_protocol_options_response_ := side_channel_protocol_options_response_ p;
     diagnostics := diagnostics p; uris_received := uris_received p ++ [u] |}.

Definition Now_ : Session Time :=
  p ← x_get; x_modify (set_random (bit_gen_ p) (Datatypes.S (readings p)));; mret (now (readings p)).

(** ** The stream *)

(** The stream and what a callable leaves in the variables it captures. *)
Record StreamEnv (A : Type) := { env_stream : S; env_result : option A; env_died : bool }.
Arguments env_stream {_}.
Arguments env_result {_}.
Arguments env_died {_}.

(** A call of the stream as a callable: it ends with its status. *)
Definition stream_slice {A} (call : S → option (Res A) * S) (e : StreamEnv A) : option (option Status) * StreamEnv A :=
  match call (env_stream e) with
  | (None, s) => (None, {| env_stream := s; env_result := env_result e; env_died := env_died e |})
  | (Some (Ok a), s) => (Some None, {| env_stream := s; env_result := Some a; env_died := env_died e |})
  | (Some (Error c msg), s) => (Some (Some (c, msg)), {| env_stream := s; env_result := env_result e; env_died := env_died e |})
  | (Some Crash, s) => (Some None, {| env_stream := s; env_result := env_result e; env_died := true |})
  end.

(** [interruptible_runner_->Run], with a function to abort that closes the stream. *)
Definition RunOnStream {A} (call : S → option (Res A) * S) : Session A := λ p,
  let close e := {| env_stream := stream_Close (env_stream e); env_result := env_result e; env_died := env_died e |} in
  let poll e := let '(b, s) := should_abort_stream (env_stream e) in
                (b, {| env_stream := s; env_result := env_result e; env_died := env_died e |}) in
  let '(out, r) :=
    Run (stream_slice call) close poll timing_config_ diagnostics_config_ slices fuel
      {| env := {| env_stream := grpc_bidi_stream_ p; env_result := None; env_died := false |};
         run_future := None; InterruptibleRunner.clock := net_clock (http_ p); InterruptibleRunner.events := [] |} in
  let p := set_stream (env_stream (env r)) (InterruptibleRunner.clock r) p in
  if env_died (env r) then (FetchDone Crash, p)
  else
    match out with
    | Ok (Returned None) => (FetchDone (match env_result (env r) with Some a => Ok a | None => Crash end), p)
    | Ok (Returned (Some (c, msg))) => (FetchDone (Error c msg), p)
    | Ok ExitProcess => (FetchExit, p)
    | Ok StillWaiting => (FetchWaiting, p)
    | _ => (FetchDone Crash, p)
    end.

Definition SendMessage (client_stream_message : ClientMessage Info) : Session unit :=
  RunOnStream (stream_Send client_stream_message).

Definition ReceiveServerStreamMessage : Session (Wire ServerMessage) := RunOnStream stream_Receive.

(** ** Checking in *)

(** The part of the options that the stream sets is empty. *)
Definition no_chunk_options : ProtocolOptionsRequest :=
  {| supports_chunked_blob_transfer := false; supported_compression_levels := [] |}.

Definition CreateRequestInfo (should_ack : bool) : RequestInfo :=
  {| req_population_name := population_name_; req_retry_token := retry_token_; req_client_version := client_version_;
     req_attestation_measurement := attestation_measurement_; should_ack_checkin := should_ack;
     supports_http_download := has_http_client_;
     supports_eligibility_eval_http_download :=
       has_http_client_ && enable_grpc_with_eligibility_eval_http_resource_support flags_;
     req_client_variant := [SECAGG_CLIENT_VARIANT_NATIVE_V1];
     supported_http_compression_formats := [HTTP_COMPRESSION_FORMAT_GZIP] |}.

Definition SendEligibilityEvalCheckinRequest : Session unit :=
  SendMessage (EligibilityEvalCheckinRequest no_chunk_options (CreateRequestInfo true)).

Definition SendCheckinRequest (task_eligibility_info : option Info) : Session unit :=
  SendMessage (CheckinRequest no_chunk_options (CreateRequestInfo false, task_eligibility_info)).

(** A retry time in the window, chosen now. *)
Definition pick_retry_time (w : RetryWindow) : Session RetryTimeAndToken :=
  t ← Now_;
  p ← x_get;
  let '(time, g) := PickRetryTimeFromRange (delay_min w) (delay_max w) t (bit_gen_ p) in
  x_modify (set_random g (readings p));;
  mret {| retry_time := time; retry_info_token := retry_token w |}.

Definition ReceiveCheckinRequestAck : Session unit :=
  message ← ReceiveServerStreamMessage;
  match message with
  | Whole (OtherServerMessage (AckKind ack, _)) =>
      x_modify (log_diag kAckReceived);;
      match retry_window_if_accepted ack, retry_window_if_rejected ack with
      | Some accepted, Some rejected =>
          if_rejected ← pick_retry_time rejected;
          if_accepted ← pick_retry_time accepted;
          x_modify (set_ack_info {| retry_info_if_rejected := if_rejected; retry_info_if_accepted := if_accepted |})
      | _, _ => x_fail UNIMPLEMENTED "Received CheckinRequestAck message with missing retry windows"
      end
  | _ =>
      x_modify (log_diag kAckExpectedButNotReceived);;
      x_fail UNIMPLEMENTED "Requested but did not receive CheckinRequestAck"
  end.

(** ** The resources of a task *)

Record TaskResource := {
  has_uri : bool;
  task_uri : string;
  task_data : list Z;
  task_client_cache_id : string;
  task_max_age : Duration
}.

(** Fields of a resource that is not set have their defaults. *)
Definition to_task_resource (f : ResourceField) : TaskResource :=
  match f with
  | ResourceData d =>
      {| has_uri := false; task_uri := EmptyString; task_data := d; task_client_cache_id := EmptyString;
         task_max_age := ConvertProtoToAbslDuration no_duration |}
  | ResourceUri u =>
      {| has_uri := true; task_uri := res_uri u; task_data := []; task_client_cache_id := res_client_cache_id u;
         task_max_age := ConvertProtoToAbslDuration (default no_duration (res_max_age u)) |}
  end.

Definition ConvertResourceToUriOrInlineData (resource : TaskResource) : Res UriOrInlineData :=
  if negb (has_uri resource) then Ok (CreateInlineData ZeroDuration [task_data resource] kUncompressed)
  else if is_empty (task_uri resource) then Error INVALID_ARGUMENT "Resource uri must be non-empty when set"
  else Ok (CreateUri (task_uri resource) (task_client_cache_id resource) (task_max_age resource)).

Definition x_lift {A} (r : Res A) : Session A := λ p, (FetchDone r, p).

Definition fetch_resources (resources : list UriOrInlineData) : Session (list (Res InMemoryHttpResponse)) := λ p,
  let '(out, net, cache) :=
    FetchResourcesInMemory should_abort_http timing_config_ diagnostics_config_ slices fuel resources resource_cache_
      (http_ p) (cache_ p) in
  (out, set_http net cache p).

Definition is_error {A} (r : Res A) : bool := match r with Error _ _ => true | _ => false end.

Definition forward_error (message : string) (r : Res InMemoryHttpResponse) : Session InMemoryHttpResponse :=
  match r with
  | Error c msg => x_fail c (message +:+ msg)
  | r => x_lift r
  end.

Definition FetchTaskResources (plan_resource checkpoint_resource : TaskResource) : Session PlanAndCheckpointPayloads :=
  plan_uri_or_data ← x_lift (ConvertResourceToUriOrInlineData plan_resource);
  checkpoint_uri_or_data ← x_lift (ConvertResourceToUriOrInlineData checkpoint_resource);
  let uses_http := negb (is_empty (uri (uri_of plan_uri_or_data))) || negb (is_empty (uri (uri_of checkpoint_uri_or_data))) in
  (if uses_http then x_modify (log_diag kResourceUsesHttp) else mret tt);;
  resource_responses ← x_attempt (fetch_resources [plan_uri_or_data; checkpoint_uri_or_data]);
  match resource_responses with
  | inr (c, msg) => x_modify (log_diag kResourceHttpFetchFailed);; x_fail c msg
  | inl responses =>
      match responses !! 0%nat, responses !! 1%nat with
      | Some plan_data_response, Some checkpoint_data_response =>
          (if is_error plan_data_response || is_error checkpoint_data_response
           then x_modify (log_diag kResourceHttpFetchFailed) else mret tt);;
          plan_response ← forward_error "plan fetch failed: " plan_data_response;
          checkpoint_response ← forward_error "checkpoint fetch failed: " checkpoint_data_response;
          (if uses_http then x_modify (log_diag kResourceHttpFetchSucceeded) else mret tt);;
          mret {| plan := PayloadCord (response_body plan_response);
                  checkpoint := PayloadCord (response_body checkpoint_response) |}
      | _, _ => x_crash
      end
  end.

Definition inline_data (f : ResourceField) : list Z := match f with ResourceData d => d | ResourceUri _ => [] end.

(** The payloads of a task, in the message or fetched. *)
Definition get_payloads (fetch : bool) (plan_field checkpoint_field : ResourceField) : Session PlanAndCheckpointPayloads :=
  if fetch then FetchTaskResources (to_task_resource plan_field) (to_task_resource checkpoint_field)
  else mret {| plan := PayloadString (inline_data plan_field); checkpoint := PayloadString (inline_data checkpoint_field) |}.

Definition ReceiveEligibilityEvalCheckinResponse : Session EligibilityEvalCheckinResult :=
  message ← ReceiveServerStreamMessage;
  match message with
  | Whole (EligibilityEvalCheckinResponse _ (response, _)) =>
      match response with
      | EvalPayload payload =>
          x_modify (set_state kEligibilityEvalEnabled);;
          x_modify (call_back (EvalUrisReceived (eval_execution_id payload)));;
          payloads ← get_payloads (has_http_client_ && enable_grpc_with_eligibility_eval_http_resource_support flags_)
            (eval_plan payload) (eval_init_checkpoint payload);
          mret (EligibilityEvalTask payloads (eval_execution_id payload))
      | NoEligibilityEvalConfigured => x_modify (set_state kEligibilityEvalDisabled);; mret EligibilityEvalDisabled
      | EvalRejectionInfo => x_modify (set_state kEligibilityEvalCheckinRejected);; mret EligibilityRejection
      | EvalResultNotSet => x_fail UNIMPLEMENTED "Unrecognized EligibilityEvalCheckinResponse"
      end
  | _ => x_fail UNIMPLEMENTED "Bad response to EligibilityEvalCheckinRequest"
  end.

Definition ReceiveCheckinResponse : Session CheckinResult :=
  message ← ReceiveServerStreamMessage;
  match message with
  | Whole (CheckinResponse _ (response, _)) =>
      x_modify (set_phase_id (match checkin_result response with
                              | Acceptance info => execution_phase_id info
                              | _ => EmptyString
                              end));;
      match checkin_result response with
      | Acceptance info =>
          x_modify (set_side_channels info (response_client_variant response));;
          let task := {| federated_select_uri_template := uri_template info;
                         aggregation_session_id := execution_phase_id info;
                         sec_agg_info := (λ i, {| info_expected_number_of_clients := expected_number_of_clients i;
                                                  info_minimum_clients_in_server_visible_aggregate :=
                                                    minimum_clients_in_server_visible_aggregate i |}) <$>
                                           secure_aggregation_info info |} in
          x_modify (call_back (TaskUrisReceived task));;
          payloads ← get_payloads has_http_client_ (accepted_plan info) (accepted_init_checkpoint info);
          x_modify (set_state kCheckinAccepted);;
          mret (TaskAssignment payloads task)
      | CheckinRejectionInfo => x_modify (set_state kCheckinRejected);; mret Rejection
      | CheckinResultNotSet => x_fail UNIMPLEMENTED "Unrecognized CheckinResponse"
      end
  | _ => x_fail UNIMPLEMENTED "Bad response to CheckinRequest"
  end.

(** [status.code()], as an [int32_t]. *)
Definition code_of {A} (r : A + Status) : Z := match r with inl _ => 0 | inr (c, _) => status_value c end.

Definition UpdateObjectStateIfPermanentError {A} (status : A + Status) (permanent_error_object_state : ObjectState) :
    Session unit :=
  if decide (code_of status ∈ permanent_error_codes flags_) then x_modify (set_state permanent_error_object_state)
  else mret tt.

(** A phase, whose status is looked at and then returned. *)
Definition checked {A} (permanent_error_object_state : ObjectState) (m : Session A) : Session A :=
  status ← x_attempt m;
  UpdateObjectStateIfPermanentError status permanent_error_object_state;;
  x_return status.

Definition EligibilityEvalCheckin : Session EligibilityEvalCheckinResult :=
  p ← x_get;
  if decide (object_state_ p = kInitialized) then
    x_modify (set_state kEligibilityEvalCheckinFailed);;
    _ ← Now_;
    checked kEligibilityEvalCheckinFailedPermanentError SendEligibilityEvalCheckinRequest;;
    checked kEligibilityEvalCheckinFailedPermanentError ReceiveCheckinRequestAck;;
    checked kEligibilityEvalCheckinFailedPermanentError ReceiveEligibilityEvalCheckinResponse
  else x_crash.

(** Nothing is done. *)
Definition ReportEligibilityEvalError (error_status : option Status) : Session unit := mret tt.

Definition Checkin (task_eligibility_info : option Info) : Session CheckinResult :=
  p ← x_get;
  let allowed :=
    match object_state_ p with
    | kEligibilityEvalEnabled => bool_decide (is_Some task_eligibility_info)
    | kEligibilityEvalDisabled => negb (bool_decide (is_Some task_eligibility_info))
    | _ => false
    end in
  if allowed then
    x_modify (set_state kCheckinFailed);;
    _ ← Now_;
    checked kCheckinFailedPermanentError (SendCheckinRequest task_eligibility_info);;
    checked kCheckinFailedPermanentError ReceiveCheckinResponse
  else x_crash.

Definition PerformMultipleTaskAssignments (task_names : list string) : Session unit :=
  x_fail UNIMPLEMENTED "PerformMultipleTaskAssignments is not supported by GrpcFederatedProtocol.".

(** ** Reporting *)

Definition duration_proto (d : Duration) : DurationProto :=
  let '(s, d) := IDivDuration d (Seconds 1) in
  let '(n, _) := IDivDuration d (Nanoseconds 1) in
  {| duration_seconds := s; duration_nanos := i32 n |}.

Definition prefix_error (message : string) (r : Res unit) : Res unit :=
  match r with Error c msg => Error c (message +:+ msg) | r => r end.

Definition ReportInternal (phase_id : string) (phase_outcome : PhaseOutcome) (plan_duration : Duration)
    (tf_checkpoint : list Z) (secagg_commit_message : option ClientToServer) (s : S) : option (Res unit) * S :=
  let report :=
    {| report_population_name := population_name_; report_execution_phase_id := phase_id;
       update_checkpoint := tf_checkpoint;
       report_status_code := match phase_outcome with COMPLETED_ => 0 | _ => status_value INTERNAL end;
       report_duration := duration_proto plan_duration |} in
  let '(status, s) := stream_Send (OtherClientMessage (ReportKind report secagg_commit_message)) s in
  (prefix_error "Error sending ReportRequest: " <$> status, s).

Fixpoint find_checkpoint (results : ComputationResults) : option (list Z) :=
  match results with
  | [] => None
  | (_, TFCheckpoint c) :: _ => Some c
  | (_, Quantized _) :: results => find_checkpoint results
  end.

Definition run_secagg_session (checkpoint : list Z) (report : list Z → option ClientToServer → S → option (Res unit) * S)
    (expected minimum : Z) (results : ComputationResults) : Session unit := λ p,
  let '(out, (s, clock)) :=
    run_secagg checkpoint report (side_channels_ p) expected minimum results (grpc_bidi_stream_ p, net_clock (http_ p)) in
  (out, set_stream s clock p).

(** [has_checkpoint] has no initial value: [uninitialized] is what it happens to be. *)
Definition Report (uninitialized : bool) (results : ComputationResults) (phase_outcome : PhaseOutcome)
    (plan_duration : Duration) : Session unit :=
  p ← x_get;
  let tf_checkpoint := default [] (find_checkpoint results) in
  let has_checkpoint := match find_checkpoint results with Some _ => true | None => uninitialized end in
  let report := ReportInternal (execution_phase_id_ p) phase_outcome plan_duration in
  (match side_channel_protocol_execution_info_ p with
   | Some info =>
       if decide (phase_outcome = COMPLETED_) then
         if decide (side_channel_protocol_options_response_ p = SECAGG_CLIENT_VARIANT_NATIVE_V1) then
           if has_secagg_event_publisher then
             run_secagg_session tf_checkpoint report (expected_number_of_clients info)
               (minimum_surviving_clients_for_reconstruction info) results
           else x_crash
         else
           x_modify (log_diag kUnsupportedVersion);; x_fail INTERNAL "Unsupported SecAgg client variant: "
       else x_fail INTERNAL "Aborting the SecAgg protocol (no update was produced)."
   | None =>
       if decide (length results = 1%nat) then
         if has_checkpoint : bool then RunOnStream (report tf_checkpoint None)
         else x_fail INTERNAL "Simple Aggregation aggregands have unexpected format."
       else x_fail INTERNAL "Simple Aggregation aggregands have unexpected format."
   end);;
  received ← x_attempt ReceiveServerStreamMessage;
  match received with
  | inr (c, msg) => x_fail c ("Error after ReportRequest: " +:+ msg)
  | inl (Whole (OtherServerMessage (ReportResponseKind, _))) => mret tt
  | inl _ => x_fail UNIMPLEMENTED "Bad response to ReportRequest"
  end.

Definition report_phase (uninitialized : bool) (results : ComputationResults) (phase_outcome : PhaseOutcome)
    (plan_duration : Duration) : Session unit :=
  p ← x_get;
  if decide (object_state_ p = kCheckinAccepted) then
    x_modify (set_state kReportCalled);;
    checked kReportFailedPermanentError (Report uninitialized results phase_outcome plan_duration)
  else x_crash.

Definition ReportCompleted (uninitialized : bool) (results : ComputationResults) (plan_duration : Duration) : Session unit :=
  report_phase uninitialized results COMPLETED_ plan_duration.

Definition ReportNotCompleted (uninitialized : bool) (phase_outcome : PhaseOutcome) (plan_duration : Duration) :
    Session unit :=
  report_phase uninitialized [("tensorflow_checkpoint"%string, TFCheckpoint [])] phase_outcome plan_duration.

(** ** The retry window *)

Definition GenerateRetryWindowFromRetryTimeAndToken (retry_info : RetryTimeAndToken) : Session RetryWindow :=
  t ← Now_;
  let w := GenerateRetryWindowFromRetryTime (retry_time retry_info) t in
  mret {| retry_token := retry_info_token retry_info; delay_min := delay_min w; delay_max := delay_max w |}.

Definition generate_from_target (delay_secs : Z) (jitter : double) : Session RetryWindow :=
  p ← x_get;
  let '(w, g) := GenerateRetryWindowFromTargetDelay (Seconds delay_secs) jitter (bit_gen_ p) in
  x_modify (set_random g (readings p));; mret w.

Definition GetLatestRetryWindow : Session RetryWindow :=
  p ← x_get;
  match object_state_ p with
  | kCheckinAccepted | kReportCalled =>
      match checkin_request_ack_info_ p with
      | Some info => GenerateRetryWindowFromRetryTimeAndToken (retry_info_if_accepted info)
      | None => x_crash
      end
  | kEligibilityEvalCheckinRejected | kEligibilityEvalDisabled | kEligibilityEvalEnabled | kCheckinRejected =>
      match checkin_request_ack_info_ p with
      | Some info => GenerateRetryWindowFromRetryTimeAndToken (retry_info_if_rejected info)
      | None => x_crash
      end
  | kInitialized | kEligibilityEvalCheckinFailed | kCheckinFailed =>
      match checkin_request_ack_info_ p with
      | Some info => GenerateRetryWindowFromRetryTimeAndToken (retry_info_if_rejected info)
      | None => generate_from_target (transient_errors_retry_delay_secs flags_) (transient_errors_retry_delay_jitter_percent flags_)
      end
  | kEligibilityEvalCheckinFailedPermanentError | kCheckinFailedPermanentError | kReportFailedPermanentError =>
      generate_from_target (permanent_errors_retry_delay_secs flags_) (permanent_errors_retry_delay_jitter_percent flags_)
  | kMultipleTaskAssignmentsAccepted | kMultipleTaskAssignmentsFailed | kMultipleTaskAssignmentsFailedPermanentError
  | kMultipleTaskAssignmentsNoAvailableTask | kReportMultipleTaskPartialError => x_crash
  end.

(** The bytes downloaded and uploaded. *)
Definition GetNetworkStats (p : GrpcFederatedProtocol) : Z * Z :=
  (ChunkingLayerBytesReceived_ (grpc_bidi_stream_ p) + default 0 (bytes_received_acc (http_ p)),
   ChunkingLayerBytesSent_ (grpc_bidi_stream_ p) + default 0 (bytes_sent_acc (http_ p))).
End Protocol.
