(* ===== verification/GrpcProtocolCorrect.v ===== *)
(** * Sessions over gRPC: phases and retry windows

    Whatever the stream, the HTTP client, the cache and secure aggregation do, and
    whatever is called in which order, the state of the object is the one that
    the last phase left, and the retry window is one that fits what has happened. *)

From S2P Require Import Prelude TimeUtil FileSystem OpStats RetryWindows Client ResourceCache Future InterruptibleRunner HttpUtil InMemoryHttp Chunking GrpcProtocol.
#[local] Open Scope Z_scope.

(** ** A logic of methods that return *)

Section Post.
Context {P : Type}.

(** [Q] holds when the method returns and no check has failed. *)
Definition post {A} (m : X P A) (Q : Res A → P → Prop) (p : P) : Prop :=
  ∀ r p', m p = (FetchDone r, p') → r ≠ Crash → Q r p'.

(** [Q] for the value, and [R] for an error. *)
Definition either {A} (Q : A → P → Prop) (R : StatusCode → P → Prop) (r : Res A) (p : P) : Prop :=
  match r with Ok a => Q a p | Error c _ => R c p | Crash => True end.

Lemma post_mono {A} (m : X P A) (Q Q' : Res A → P → Prop) p :
  post m Q p → (∀ r p', Q r p' → Q' r p') → post m Q' p.
Proof. intros Hm HQ r p' Hr Hne. by apply HQ, Hm. Qed.

Lemma post_either_mono {A} (m : X P A) (Q Q' : A → P → Prop) (R R' : StatusCode → P → Prop) p :
  post m (either Q R) p → (∀ a p', Q a p' → Q' a p') → (∀ c p', R c p' → R' c p') → post m (either Q' R') p.
Proof. intros Hm HQ HR. eapply post_mono; [done|]. intros [] p'; simpl; auto. Qed.

Lemma post_ret {A} (a : A) Q p : Q (Ok a) p → post (mret a) Q p.
Proof. intros HQ r p' [= <- <-] _. done. Qed.

Lemma post_fail {A} c msg (Q : Res A → P → Prop) p : Q (Error c msg) p → post (x_fail c msg) Q p.
Proof. intros HQ r p' [= <- <-] _. done. Qed.

Lemma post_crash {A} (Q : Res A → P → Prop) p : post x_crash Q p.
Proof. intros r p' [= <- <-] Hne. done. Qed.

Lemma post_modify f (Q : Res unit → P → Prop) p : Q (Ok tt) (f p) → post (x_modify f) Q p.
Proof. intros HQ r p' [= <- <-] _. done. Qed.

Lemma post_get (Q : Res P → P → Prop) p : Q (Ok p) p → post x_get Q p.
Proof. intros HQ r p' [= <- <-] _. done. Qed.

Lemma post_bind {A B} (m : X P A) (f : A → X P B) Q R (T : Res B → P → Prop) p :
  post m (either Q R) p → (∀ a p', Q a p' → post (f a) T p') → (∀ c msg p', R c p' → T (Error c msg) p') →
  post (m ≫= f) T p.
Proof.
  intros Hm Hf HR r p' Hr Hne. unfold mbind, X_bind in Hr. unfold post in Hm.
  destruct (m p) as [[[a|c msg|]| |] p1]; simplify_eq.
  - eapply Hf; [|done|done]. by apply (Hm (Ok a)).
  - apply HR. by apply (Hm (Error c msg)).
Qed.

Lemma post_bind_get {B} (f : P → X P B) Q p : post (f p) Q p → post (x_get ≫= f) Q p.
Proof. done. Qed.

Lemma post_bind_modify {B} g (f : unit → X P B) Q p : post (f tt) Q (g p) → post (x_modify g ≫= f) Q p.
Proof. done. Qed.

Lemma post_attempt {A} (m : X P A) Q R p :
  post m (either Q R) p →
  post (x_attempt m) (either (λ a p', match a with inl a => Q a p' | inr (c, _) => R c p' end) (λ _ _, False)) p.
Proof.
  intros Hm r p' Hr Hne. unfold x_attempt in Hr. unfold post in Hm.
  destruct (m p) as [[[a|c msg|]| |] p1]; simplify_eq; simpl.
  - by apply (Hm (Ok a)).
  - by apply (Hm (Error c msg)).
Qed.
End Post.

Create HintDb post discriminated.
#[export] Hint Resolve post_crash : post.

Section Correct.
Context `{AbslTime, !Randomness, SimpleAtoi, Gzip, MetadataAny, HttpClient}.
Context {Info S CacheState : Type} `{!GrpcBidiStreamInterface Info S, !SecAggRunnerFactory S}.
Local Abbreviation P := (GrpcFederatedProtocol (S:=S) (CacheState:=CacheState)).
Context (cfg : SessionConfig (S:=S) (CacheState:=CacheState)).

(** ** Methods that leave the state and the retry times *)

Definition keeps (p p' : P) : Prop :=
  object_state_ p' = object_state_ p ∧ checkin_request_ack_info_ p' = checkin_request_ack_info_ p.

#[local] Instance keeps_preorder : PreOrder keeps.
Proof. split; [by split|]. intros p q r [] []. split; congruence. Qed.

Definition keeping {A} (m : X P A) : Prop := ∀ p, post m (either (λ _ p', keeps p p') (λ _ p', keeps p p')) p.

Lemma keeping_bind {A B} (m : X P A) (f : A → X P B) : keeping m → (∀ a, keeping (f a)) → keeping (m ≫= f).
Proof.
  intros Hm Hf p. eapply post_bind; [apply Hm| |done]. intros a p' Hk.
  eapply post_either_mono; [apply Hf| |]; intros ? p'' Hk'; by transitivity p'.
Qed.

Lemma keeping_ret {A} (a : A) : keeping (mret a).
Proof. intros p. apply post_ret. by split. Qed.
Lemma keeping_fail {A} c msg : keeping (x_fail c msg : X P A).
Proof. intros p. apply post_fail. by split. Qed.
Lemma keeping_crash {A} : keeping (x_crash : X P A).
Proof. intros p. apply post_crash. Qed.
Lemma keeping_get : keeping (x_get : X P P).
Proof. intros p. apply post_get. by split. Qed.
Lemma keeping_modify f : (∀ p, keeps p (f p)) → keeping (x_modify f).
Proof. intros Hf p. apply post_modify, Hf. Qed.
Lemma keeping_lift {A} (r : Res A) : keeping (x_lift r).
Proof. intros p r' p' [= <- <-] Hne. destruct r; by try split. Qed.
Lemma keeping_attempt {A} (m : X P A) : keeping m → keeping (x_attempt m).
Proof.
  intros Hm p. eapply post_either_mono; [apply post_attempt, Hm| |done]. by intros [|[]] p'.
Qed.
Lemma keeping_RunOnStream {A} (call : S → option (Res A) * S) :
  keeping (RunOnStream cfg call).
Proof.
  intros p r p' Hr Hne. unfold RunOnStream in Hr. destruct (Run _ _ _ _ _ _ _ _) as [out run].
  destruct (env_died _); simplify_eq.
  destruct out as [[[[]|]| |]| |]; simplify_eq; try done; repeat case_match; by try split.
Qed.
Lemma keeping_fetch resources :
  keeping (fetch_resources cfg resources).
Proof.
  intros p r p' Hr Hne. unfold fetch_resources in Hr. destruct (FetchResourcesInMemory _ _ _ _ _ _ _ _ _) as [[out net] c].
  simplify_eq. destruct r; by try split.
Qed.
Lemma keeping_secagg checkpoint report expected minimum results :
  keeping (run_secagg_session checkpoint report expected minimum results : X P unit).
Proof.
  intros p r p' Hr Hne. unfold run_secagg_session in Hr. destruct (run_secagg _ _ _ _ _ _ _) as [out [s c]].
  simplify_eq. destruct r; by try split.
Qed.

Lemma keeping_bind_get {B} (f : P → X P B) : (∀ p, keeping (f p)) → keeping (x_get ≫= f).
Proof. intros Hf. apply keeping_bind; [apply keeping_get|done]. Qed.

Lemma keeping_payloads fetch plan_field checkpoint_field : keeping (get_payloads cfg fetch plan_field checkpoint_field).
Proof.
  unfold get_payloads. destruct fetch; [|apply keeping_ret]. unfold FetchTaskResources.
  repeat first [apply keeping_bind; [|intros ?] | apply keeping_lift | apply keeping_attempt | apply keeping_fetch
    | apply keeping_ret | apply keeping_fail | apply keeping_crash | by apply keeping_modify | progress case_match].
  all: unfold forward_error; case_match; eauto using keeping_lift, keeping_fail.
Qed.

Lemma keeping_pick w : keeping (pick_retry_time cfg w).
Proof.
  unfold pick_retry_time, Now_.
  repeat first [apply keeping_bind; [|intros ?] | apply keeping_get | apply keeping_ret | by apply keeping_modify | progress case_match].
Qed.

Lemma keeping_Report u results outcome d : keeping (Report cfg u results outcome d).
Proof.
  unfold Report. apply keeping_bind_get. intros p.
  repeat first [apply keeping_bind; [|intros ?] | apply keeping_RunOnStream | apply keeping_attempt | apply keeping_secagg
    | apply keeping_ret | apply keeping_fail | apply keeping_crash | by apply keeping_modify | progress case_match].
Qed.

(** ** The phases *)

Definition permanent (c : StatusCode) : Prop := status_value c ∈ permanent_error_codes (cfg_flags cfg).
#[export] Instance permanent_dec c : Decision (permanent c).
Proof. unfold permanent. apply _. Defined.

(** The flag does not list OK. *)
Context (ok_not_permanent : 0 ∉ permanent_error_codes (cfg_flags cfg)).

Lemma post_checked {A} st (m : X P A) Q R p :
  post m (either Q R) p →
  post (checked cfg st m) (either Q (λ c p', ∃ p1, R c p1 ∧ p' = if decide (permanent c) then set_state st p1 else p1)) p.
Proof.
  intros Hm. unfold checked. eapply post_bind; [by apply post_attempt| |done].
  intros [a|[c msg]] p'; simpl; intros Ha; unfold UpdateObjectStateIfPermanentError; cbn [code_of].
  - rewrite decide_False by done. by apply post_ret.
  - fold (permanent c). case_decide; apply post_fail; simpl; exists p'; (split; [done|]);
      by first [rewrite decide_True by done | rewrite decide_False by done].
Qed.

(** A phase that failed: in the state for permanent errors, or in one of [Q]. *)
Definition failed (st : ObjectState) (Q : P → Prop) (c : StatusCode) (p : P) : Prop :=
  if decide (permanent c) then object_state_ p = st else Q p.

Lemma post_checked_failed {A} st (m : X P A) Q (R : P → Prop) p :
  post m (either Q (λ _, R)) p → post (checked cfg st m) (either Q (failed st R)) p.
Proof.
  intros Hm. eapply post_either_mono; [by apply post_checked|done|].
  intros c p' (p1 & Hp1 & ->). unfold failed. by case_decide.
Qed.

(** One phase after another. *)
Lemma post_checked_bind {A B} st (m : X P A) (f : A → X P B) (Q : A → P → Prop) (R R' : P → Prop) T p :
  post m (either Q (λ _, R)) p → (∀ p', R p' → R' p') → (∀ a p', Q a p' → post (f a) (either T (failed st R')) p') →
  post (checked cfg st m ≫= f) (either T (failed st R')) p.
Proof.
  intros Hm HR Hf. eapply post_bind; [by apply post_checked_failed|done|].
  intros c msg p'. simpl. unfold failed. case_decide; auto.
Qed.

Definition acked (p : P) : Prop := is_Some (checkin_request_ack_info_ p).
Definition at_state (st : ObjectState) (p : P) : Prop := object_state_ p = st.

Lemma keeps_at st p p' : keeps p p' → at_state st p → at_state st p'.
Proof. intros [Hs _] Hp. unfold at_state. by rewrite Hs. Qed.
Lemma keeps_acked p p' : keeps p p' → acked p → acked p'.
Proof. intros [_ Ha] Hp. unfold acked. by rewrite Ha. Qed.

(** A method that keeps both, from a state. *)
Lemma post_keeping {A} (m : X P A) (Q : P → Prop) p :
  keeping m → (∀ p', keeps p p' → Q p') → post m (either (λ _, Q) (λ _, Q)) p.
Proof. intros Hm HQ. eapply post_either_mono; [apply Hm|auto|auto]. Qed.

Lemma post_keeping_bind {A B} (m : X P A) (f : A → X P B) T p :
  keeping m → (∀ c msg p', keeps p p' → T (Error c msg) p') → (∀ a p', keeps p p' → post (f a) T p') → post (m ≫= f) T p.
Proof. intros Hm HT Hf. eapply post_bind; [apply Hm|done|done]. Qed.

Lemma post_bind_now {B} (f : Time → X P B) Q p :
  post (f (cfg_now cfg (readings p))) Q (set_random (bit_gen_ p) (Datatypes.S (readings p)) p) → post (Now_ cfg ≫= f) Q p.
Proof. done. Qed.

Lemma ReceiveCheckinRequestAck_post st p :
  at_state st p →
  post (ReceiveCheckinRequestAck cfg) (either (λ _ p', at_state st p' ∧ acked p') (λ _, at_state st)) p.
Proof.
  intros Hp. unfold ReceiveCheckinRequestAck.
  apply post_keeping_bind; [apply keeping_RunOnStream|intros; by eapply keeps_at|].
  intros message p1 Hk1. apply (keeps_at st) in Hk1; [|done].
  repeat case_match; try (apply post_bind_modify, post_fail; done).
  apply post_bind_modify. apply post_keeping_bind; [apply keeping_pick|intros ??? Hk; by apply (keeps_at st _ _ Hk)|].
  intros a p2 Hk2. apply (keeps_at st) in Hk2; [|done].
  apply post_keeping_bind; [apply keeping_pick|intros ??? Hk; by apply (keeps_at st _ _ Hk)|].
  intros b p3 Hk3. apply (keeps_at st) in Hk3; [|done]. apply post_modify. split; [done|by eexists].
Qed.

(** The state that an answer to the eligibility check-in leaves. *)
Definition eligibility_state (r : EligibilityEvalCheckinResult) : ObjectState :=
  match r with
  | EligibilityEvalTask _ _ => kEligibilityEvalEnabled
  | EligibilityEvalDisabled => GrpcProtocol.kEligibilityEvalDisabled
  | EligibilityRejection => kEligibilityEvalCheckinRejected
  end.

(** Without a task; the resources of a task may not have been fetched. *)
Definition eligibility_failed (p : P) : Prop :=
  at_state kEligibilityEvalCheckinFailed p ∨ (at_state kEligibilityEvalEnabled p ∧ acked p).

Lemma EligibilityEvalCheckin_post p :
  post (EligibilityEvalCheckin cfg)
    (either (λ r p', at_state (eligibility_state r) p' ∧ acked p')
            (failed kEligibilityEvalCheckinFailedPermanentError eligibility_failed)) p.
Proof.
  unfold EligibilityEvalCheckin. apply post_bind_get. case_decide; [|apply post_crash].
  apply post_bind_modify, post_bind_now. set (p1 := set_random _ _ _).
  assert (at_state kEligibilityEvalCheckinFailed p1) as Hp1 by done.
  eapply post_checked_bind; [apply (post_keeping _ (at_state kEligibilityEvalCheckinFailed));
    [apply keeping_RunOnStream|intros; by eapply keeps_at]|by left|].
  intros [] p2 Hp2. eapply post_checked_bind; [by apply ReceiveCheckinRequestAck_post|by left|].
  intros [] p3 [Hp3 Ha3]. apply post_checked_failed. unfold ReceiveEligibilityEvalCheckinResponse.
  apply post_keeping_bind; [apply keeping_RunOnStream|intros; left; by eapply keeps_at|].
  intros message p4 Hk4. pose proof (keeps_at _ _ _ Hk4 Hp3) as Hp4. pose proof (keeps_acked _ _ Hk4 Ha3) as Ha4.
  destruct message as [[o [[payload| | |] sa]|o r|r]|]; try (apply post_fail; by left).
  - do 2 apply post_bind_modify. set (p5 := call_back _ _).
    assert (at_state kEligibilityEvalEnabled p5 ∧ acked p5) as [Hp5 Ha5] by done.
    apply post_keeping_bind; [apply keeping_payloads| |].
    + intros c msg p6 Hk6. right. split; [by eapply keeps_at|by eapply keeps_acked].
    + intros payloads p6 Hk6. apply post_ret. split; [by eapply keeps_at|by eapply keeps_acked].
  - apply post_bind_modify, post_ret. done.
  - apply post_bind_modify, post_ret. done.
Qed.

Definition checkin_state (r : CheckinResult) : ObjectState :=
  match r with TaskAssignment _ _ => kCheckinAccepted | Rejection => kCheckinRejected end.

Lemma Checkin_post info p :
  acked p →
  post (Checkin cfg info)
    (either (λ r p', at_state (checkin_state r) p' ∧ acked p')
            (failed kCheckinFailedPermanentError (λ p', at_state kCheckinFailed p' ∧ acked p'))) p.
Proof.
  intros Ha. unfold Checkin. apply post_bind_get. case_match; [|apply post_crash].
  apply post_bind_modify, post_bind_now. set (p1 := set_random _ _ _).
  assert (at_state kCheckinFailed p1 ∧ acked p1) as [Hp1 Ha1] by done.
  eapply post_checked_bind; [apply (post_keeping _ (λ p', at_state kCheckinFailed p' ∧ acked p'));
    [apply keeping_RunOnStream|intros; split; [by eapply keeps_at|by eapply keeps_acked]]|done|].
  intros [] p2 [Hp2 Ha2]. apply post_checked_failed. unfold ReceiveCheckinResponse.
  apply post_keeping_bind; [apply keeping_RunOnStream|intros; split; [by eapply keeps_at|by eapply keeps_acked]|].
  intros message p4 Hk4. pose proof (keeps_at _ _ _ Hk4 Hp2) as Hp4. pose proof (keeps_acked _ _ Hk4 Ha2) as Ha4.
  destruct message as [[o r|o [[[acceptance| |] variant] sa]|r]|]; try (apply post_fail; by split);
    apply post_bind_modify; cbn [checkin_result].
  - do 2 apply post_bind_modify. set (p5 := call_back _ _).
    assert (at_state kCheckinFailed p5 ∧ acked p5) as [Hp5 Ha5] by done.
    apply post_keeping_bind; [apply keeping_payloads| |].
    + intros c msg p6 Hk6. split; [by eapply keeps_at|by eapply keeps_acked].
    + intros payloads p6 Hk6. apply post_bind_modify, post_ret. split; [done|by apply (keeps_acked _ _ Hk6)].
  - apply post_bind_modify, post_ret. done.
Qed.

Lemma report_phase_post u results outcome d p :
  post (report_phase cfg u results outcome d)
    (either (λ _ p', at_state kReportCalled p' ∧ (acked p → acked p'))
            (failed kReportFailedPermanentError (λ p', at_state kReportCalled p' ∧ (acked p → acked p')))) p.
Proof.
  unfold report_phase. apply post_bind_get. case_decide; [|apply post_crash]. apply post_bind_modify.
  apply post_checked_failed. apply (post_keeping _ (λ p', at_state kReportCalled p' ∧ (acked p → acked p'))); [apply keeping_Report|].
  intros p' Hk. split; [by apply (keeps_at _ _ _ Hk)|]. intros Ha. by apply (keeps_acked _ _ Hk).
Qed.

Lemma keeping_window : keeping (GetLatestRetryWindow cfg).
Proof.
  unfold GetLatestRetryWindow, GenerateRetryWindowFromRetryTimeAndToken, generate_from_target, Now_.
  repeat first [apply keeping_bind; [|intros ?] | apply keeping_get | apply keeping_ret | apply keeping_crash
    | by apply keeping_modify | progress case_match].
Qed.

(** ** Sessions *)

Inductive Call :=
  | CEligibilityEvalCheckin
  | CReportEligibilityEvalError (error_status : option Status)
  | CCheckin (task_eligibility_info : option Info)
  | CPerformMultipleTaskAssignments (task_names : list string)
  | CReportCompleted (uninitialized : bool) (results : ComputationResults) (plan_duration : Duration)
  | CReportNotCompleted (uninitialized : bool) (phase_outcome : PhaseOutcome) (plan_duration : Duration)
  | CGetLatestRetryWindow.

Inductive Answer :=
  | AEligibility (r : EligibilityEvalCheckinResult)
  | ACheckin (r : CheckinResult)
  | ADone
  | AWindow (w : RetryWindow).

Definition perform (c : Call) : X P Answer :=
  match c with
  | CEligibilityEvalCheckin => r ← EligibilityEvalCheckin cfg; mret (AEligibility r)
  | CReportEligibilityEvalError st => ReportEligibilityEvalError st;; mret ADone
  | CCheckin info => r ← Checkin cfg info; mret (ACheckin r)
  | CPerformMultipleTaskAssignments names => PerformMultipleTaskAssignments names;; mret ADone
  | CReportCompleted u results d => ReportCompleted cfg u results d;; mret ADone
  | CReportNotCompleted u outcome d => ReportNotCompleted cfg u outcome d;; mret ADone
  | CGetLatestRetryWindow => w ← GetLatestRetryWindow cfg; mret (AWindow w)
  end.

Abbreviation History := (list (Call * (Answer + Status))).

(** A session: calls that returned, in any order, with what they returned. *)
Inductive session : History → P → Prop :=
  | session_new stream http cache g : session [] (new_GrpcFederatedProtocol stream http cache g)
  | session_call h p c a p' :
      session h p → x_attempt (perform c) p = (FetchDone (Ok a), p') → session (h ++ [(c, a)]) p'.

Definition is_phase (c : Call) : bool :=
  match c with
  | CEligibilityEvalCheckin | CCheckin _ | CReportCompleted _ _ _ | CReportNotCompleted _ _ _ => true
  | _ => false
  end.

(** The last phase. *)
Fixpoint last_phase (h : History) : option (Call * (Answer + Status)) :=
  match h with
  | [] => None
  | e :: h => match last_phase h with Some e' => Some e' | None => if is_phase e.1 then Some e else None end
  end.

(** What a phase leaves. *)
Definition left_by (c : Call) (a : Answer + Status) (p : P) : Prop :=
  match c, a with
  | CEligibilityEvalCheckin, inl (AEligibility r) => at_state (eligibility_state r) p ∧ acked p
  | CEligibilityEvalCheckin, inr (c, _) => failed kEligibilityEvalCheckinFailedPermanentError eligibility_failed c p
  | CCheckin _, inl (ACheckin r) => at_state (checkin_state r) p ∧ acked p
  | CCheckin _, inr (c, _) => failed kCheckinFailedPermanentError (λ p, at_state kCheckinFailed p ∧ acked p) c p
  | (CReportCompleted _ _ _ | CReportNotCompleted _ _ _), inl ADone => at_state kReportCalled p ∧ acked p
  | (CReportCompleted _ _ _ | CReportNotCompleted _ _ _), inr (c, _) =>
      failed kReportFailedPermanentError (λ p, at_state kReportCalled p ∧ acked p) c p
  | _, _ => False
  end.

Definition phase_of (h : History) (p : P) : Prop :=
  match last_phase h with
  | None => at_state kInitialized p ∧ checkin_request_ack_info_ p = None
  | Some (c, a) => left_by c a p
  end.

Lemma last_phase_snoc h e : last_phase (h ++ [e]) = if is_phase e.1 then Some e else last_phase h.
Proof.
  induction h as [|e' h IH]; simpl; [done|]. rewrite IH. by destruct (is_phase e.1).
Qed.

(** The states in which a phase can be called. *)
Definition callable (c : Call) (p : P) : Prop :=
  match c with
  | CEligibilityEvalCheckin => at_state kInitialized p
  | CCheckin (Some _) => at_state kEligibilityEvalEnabled p
  | CCheckin None => at_state GrpcProtocol.kEligibilityEvalDisabled p
  | CReportCompleted _ _ _ | CReportNotCompleted _ _ _ => at_state kCheckinAccepted p
  | _ => True
  end.

(** In another state the check fails. *)
Lemma perform_callable c p r p' : x_attempt (perform c) p = (FetchDone r, p') → r ≠ Crash → callable c p.
Proof.
  intros Hr Hne. unfold callable, at_state. destruct c as [| |info| |u results d|u outcome d|]; try done.
  - destruct (decide (object_state_ p = kInitialized)) as [|Hn]; [done|].
    unfold x_attempt, perform, EligibilityEvalCheckin in Hr. unfold mbind, X_bind, x_get in Hr.
    rewrite decide_False in Hr by done. unfold x_crash in Hr. by simplify_eq.
  - unfold x_attempt, perform, Checkin in Hr. unfold mbind, X_bind, x_get in Hr.
    destruct info as [i|]; [rewrite (bool_decide_true (is_Some (Some i))) in Hr by done
                           |rewrite (bool_decide_false (is_Some None)) in Hr by (by intros [])];
      destruct (object_state_ p); try done; cbv beta iota zeta delta [negb x_crash] in Hr; by simplify_eq.
  - destruct (decide (object_state_ p = kCheckinAccepted)) as [|Hn]; [done|].
    unfold x_attempt, perform, ReportCompleted, report_phase in Hr. unfold mbind, X_bind, x_get in Hr.
    rewrite decide_False in Hr by done. unfold x_crash in Hr. by simplify_eq.
  - destruct (decide (object_state_ p = kCheckinAccepted)) as [|Hn]; [done|].
    unfold x_attempt, perform, ReportNotCompleted, report_phase in Hr. unfold mbind, X_bind, x_get in Hr.
    rewrite decide_False in Hr by done. unfold x_crash in Hr. by simplify_eq.
Qed.

(** A phase leaves what it says, if the server's acknowledgement was there when
    it is needed. *)
Lemma phase_left_by c p a p' :
  is_phase c = true → (c ≠ CEligibilityEvalCheckin → acked p) →
  x_attempt (perform c) p = (FetchDone (Ok a), p') → left_by c a p'.
Proof.
  intros Hc Ha Hr.
  assert (∀ {A} (m : X P A) (f : A → Answer) Q R, post m (either Q R) p →
    x_attempt (r ← m; mret (f r)) p = (FetchDone (Ok a), p') →
    match a with inl b => ∃ r, b = f r ∧ Q r p' | inr (c, _) => R c p' end) as Hpost.
  { intros A m f Q R Hm Hm'. unfold x_attempt, mbind, X_bind in Hm'. unfold post in Hm.
    destruct (m p) as [[[r|c' msg|]| |] p1]; cbn in Hm'; simplify_eq.
    - exists r. split; [done|]. by apply (Hm (Ok r)).
    - by apply (Hm (Error c' msg)). }
  destruct c as [| |info| |u results d|u outcome d|]; try done; unfold perform in Hr.
  - apply (Hpost _ _ _ _ _ (EligibilityEvalCheckin_post p)) in Hr. destruct a as [b|[c msg]]; [|done].
    by destruct Hr as (r & -> & Hr).
  - apply (Hpost _ _ _ _ _ (Checkin_post info p (Ha ltac:(done)))) in Hr. destruct a as [b|[c msg]]; [|done].
    by destruct Hr as (r & -> & Hr).
  - apply (Hpost _ _ (λ _, ADone) _ _ (report_phase_post u results COMPLETED_ d p)) in Hr.
    specialize (Ha ltac:(done)). destruct a as [b|[c msg]]; simpl.
    + destruct Hr as (r & -> & Hs & Hk). auto.
    + unfold failed in *. case_decide; naive_solver.
  - apply (Hpost _ _ (λ _, ADone) _ _ (report_phase_post u _ outcome d p)) in Hr.
    specialize (Ha ltac:(done)). destruct a as [b|[c msg]]; simpl.
    + destruct Hr as (r & -> & Hs & Hk). auto.
    + unfold failed in *. case_decide; naive_solver.
Qed.

(** Other calls keep the state. *)
Lemma other_keeps c p a p' :
  is_phase c = false → x_attempt (perform c) p = (FetchDone (Ok a), p') → keeps p p'.
Proof.
  intros Hc Hr. assert (keeping (perform c)) as Hk.
  { destruct c; try done; unfold perform; (apply keeping_bind; [|intros ?; apply keeping_ret]).
    - apply keeping_ret.
    - apply keeping_fail.
    - apply keeping_window. }
  by apply (keeping_attempt _ Hk p (Ok a) p').
Qed.

Lemma left_by_keeps c a p p' : keeps p p' → left_by c a p → left_by c a p'.
Proof.
  intros Hk. pose proof (λ st, keeps_at st _ _ Hk) as Hs. pose proof (keeps_acked _ _ Hk) as Ha.
  unfold left_by, failed, eligibility_failed. repeat case_match; try done; try naive_solver; apply Hs.
Qed.

(** A phase that can be called behind another one has been acknowledged. *)
Lemma callable_acked h c p : phase_of h p → is_phase c = true → c ≠ CEligibilityEvalCheckin → callable c p → acked p.
Proof.
  unfold phase_of, left_by, failed, eligibility_failed, callable, at_state. intros Hp Hc Hne Hcall.
  destruct (last_phase h) as [[c' a]|]; [|repeat case_match; naive_solver congruence].
  repeat case_match; try done; destruct_and?; try done; destruct_or?; try congruence; naive_solver congruence.
Qed.

Lemma session_phase h p : session h p → phase_of h p.
Proof.
  induction 1 as [|h p c a p' Hs IH Hr]; [done|]. unfold phase_of. rewrite last_phase_snoc. simpl.
  destruct (is_phase c) eqn:Hc.
  - eapply phase_left_by; [done| |done]. intros Hne. eapply callable_acked; [done|done|done|].
    by eapply perform_callable.
  - pose proof (other_keeps _ _ _ _ Hc Hr) as Hk. unfold phase_of in IH.
    destruct (last_phase h) as [[c' a']|]; [by eapply left_by_keeps|].
    destruct IH as [Hi Hn]. split; [by eapply keeps_at|]. destruct Hk as [_ Hk]. by rewrite Hk.
Qed.

(** The server has accepted the client and its task has been fetched. *)
Definition assigned (e : Call * (Answer + Status)) : bool :=
  match e with (CCheckin _, inl (ACheckin (TaskAssignment _ _))) => true | _ => false end.

Definition past_checkin (st : ObjectState) : bool :=
  match st with kCheckinAccepted | kReportCalled | kReportFailedPermanentError => true | _ => false end.

Lemma left_by_past c a p :
  left_by c a p → is_phase c = true →
  past_checkin (object_state_ p) =
    match c with CReportCompleted _ _ _ | CReportNotCompleted _ _ _ => true | _ => assigned (c, a) end.
Proof.
  unfold left_by, failed, eligibility_failed, at_state. intros Hl Hc.
  repeat case_match; try done; destruct_and?; try done; destruct_or?; destruct_and?; simplify_eq/=;
    repeat match goal with H : object_state_ p = _ |- _ => rewrite H end;
    repeat match goal with r : EligibilityEvalCheckinResult |- _ => destruct r | r : CheckinResult |- _ => destruct r end;
    simplify_eq/=; done.
Qed.

Lemma session_accepted h p : session h p → past_checkin (object_state_ p) = existsb assigned h.
Proof.
  induction 1 as [|h p c a p' Hs IH Hr]; [done|]. rewrite existsb_app. simpl. rewrite orb_false_r.
  destruct (is_phase c) eqn:Hc.
  - pose proof (perform_callable _ _ _ _ Hr ltac:(done)) as Hcall. pose proof (session_phase _ _ Hs) as Hp.
    assert (left_by c a p') as Hl by (eapply phase_left_by; [done|intros; by eapply callable_acked|done]).
    rewrite (left_by_past _ _ _ Hl Hc), <- IH.
    unfold callable, at_state in Hcall. destruct c as [| |[]| | | |]; try done; rewrite Hcall; done.
  - destruct (other_keeps _ _ _ _ Hc Hr) as [-> _]. rewrite IH.
    destruct c; try done; by rewrite orb_false_r.
Qed.

(** The last phase failed with a permanent error. *)
Definition failed_permanently (h : History) : Prop :=
  match last_phase h with Some (_, inr (c, _)) => permanent c | _ => False end.
#[export] Instance failed_permanently_dec h : Decision (failed_permanently h).
Proof. unfold failed_permanently. repeat case_match; apply _. Defined.

(** The order of the calls in which [client/federated_protocol.h] asks for the
    phases, where the eligibility check-in may be left out. *)
Definition documented (last : option (Call * (Answer + Status))) (c : Call) : Prop :=
  match c, last with
  | CEligibilityEvalCheckin, None => True
  | CCheckin None, None => True
  | CCheckin (Some _), Some (CEligibilityEvalCheckin, inl (AEligibility (EligibilityEvalTask _ _))) => True
  | CCheckin None, Some (CEligibilityEvalCheckin, inl (AEligibility EligibilityEvalDisabled)) => True
  | (CReportCompleted _ _ _ | CReportNotCompleted _ _ _), Some (CCheckin _, inl (ACheckin (TaskAssignment _ _))) => True
  | _, _ => False
  end.

(** The phases that follow another one, and the eligibility check-in. *)
Definition prepared (last : option (Call * (Answer + Status))) (c : Call) : Prop :=
  c = CEligibilityEvalCheckin ∨ is_Some last.

(** The last phase was an eligibility check-in that failed, not permanently. *)
Definition eligibility_unavailable (h : History) : Prop :=
  ∃ e, last_phase h = Some (CEligibilityEvalCheckin, inr e) ∧ ¬ permanent e.1.

Lemma not_callable_crash c p : ¬ callable c p → perform c p = (FetchDone Crash, p).
Proof.
  unfold callable, at_state. intros Hn. destruct c as [| |info| |u results d|u outcome d|]; try done.
  - unfold perform, EligibilityEvalCheckin, mbind, X_bind, x_get. by rewrite decide_False.
  - unfold perform, Checkin, mbind, X_bind, x_get.
    destruct info as [i|]; [rewrite (bool_decide_true (is_Some (Some i))) by done
                           |rewrite (bool_decide_false (is_Some None)) by (by intros [])];
      destruct (object_state_ p); done.
  - unfold perform, ReportCompleted, report_phase, mbind, X_bind, x_get. by rewrite decide_False.
  - unfold perform, ReportNotCompleted, report_phase, mbind, X_bind, x_get. by rewrite decide_False.
Qed.
End Correct.

Section Sessions.
Context `{AbslTime, !Randomness, SimpleAtoi, Gzip, MetadataAny, HttpClient}.
Context {Info S CacheState : Type} `{!GrpcBidiStreamInterface Info S, !SecAggRunnerFactory S}.

(** A phase that passes its check was called in the documented order, or follows a
    failed eligibility check-in. *)
Lemma callable_documented (cfg : SessionConfig (S:=S) (CacheState:=CacheState)) h p (c : Call (Info:=Info)) :
  0 ∉ permanent_error_codes (cfg_flags cfg) → session cfg h p → is_phase c = true → callable c p →
  documented (last_phase h) c ∨ eligibility_unavailable cfg h.
Proof.
  intros Hok Hs Hc Hcall. pose proof (session_phase cfg Hok h p Hs) as Hp. unfold phase_of in Hp.
  unfold eligibility_unavailable. unfold callable, at_state in Hcall. destruct (last_phase h) as [[c' a]|].
  - unfold left_by, failed, eligibility_failed, at_state in Hp.
    repeat case_match; try done; destruct_and?; destruct_or?; destruct_and?; try congruence; simpl;
      try (by left); try (by right; eexists);
      repeat match goal with r : EligibilityEvalCheckinResult |- _ => destruct r | r : CheckinResult |- _ => destruct r end;
      simpl in *; try congruence; by left.
  - destruct Hp as [Hp _]. unfold at_state in Hp. destruct c as [| |[]| | | |]; try done; try congruence; by left.
Qed.


(** Which window the code takes, in every state. *)
Lemma retry_window_chosen (cfg : SessionConfig (S:=S) (CacheState:=CacheState)) (h : list (Call (Info:=Info) * (Answer + Status))) p :
  0 ∉ permanent_error_codes (cfg_flags cfg) → session cfg h p →
  GetLatestRetryWindow cfg p =
    if decide (failed_permanently cfg h) then
      generate_from_target (permanent_errors_retry_delay_secs (cfg_flags cfg))
        (permanent_errors_retry_delay_jitter_percent (cfg_flags cfg)) p
    else
      match checkin_request_ack_info_ p with
      | None => generate_from_target (transient_errors_retry_delay_secs (cfg_flags cfg))
                  (transient_errors_retry_delay_jitter_percent (cfg_flags cfg)) p
      | Some info =>
          GenerateRetryWindowFromRetryTimeAndToken cfg
            (if existsb assigned h then retry_info_if_accepted info else retry_info_if_rejected info) p
      end.
Proof.
  intros Hok Hs. pose proof (session_phase cfg Hok h p Hs) as Hp. rewrite <- (session_accepted cfg Hok h p Hs).
  unfold GetLatestRetryWindow, mbind, X_bind, x_get. unfold phase_of in Hp.
  destruct (decide (failed_permanently cfg h)) as [Hf|Hf]; unfold failed_permanently in Hf;
    destruct (last_phase h) as [[c a]|]; try done.
  - unfold left_by, failed, at_state in Hp.
    destruct a as [|[e msg]]; [done|]. destruct c; try done; rewrite decide_True in Hp by done; by rewrite Hp.
  - unfold left_by, failed, eligibility_failed, at_state, acked, is_Some in Hp.
    destruct c, a as [[r|r| |w]|[e msg]]; try done; try (rewrite decide_False in Hp by done); try destruct r;
      simpl in Hp; destruct_and?; destruct_or?; destruct_and?;
      match goal with Hs : object_state_ p = _ |- _ => rewrite Hs end; by destruct (checkin_request_ack_info_ p); naive_solver.
  - destruct Hp as [Hp Hn]. unfold at_state in Hp. by rewrite Hp, Hn.
Qed.

(** The windows of the server that fit what has happened: the one for accepted
    clients once a task was assigned; the one for rejected clients when the client
    was rejected or has not checked in; after a check-in that failed, either of
    them, since it may have failed on the way to a task that the server has
    offered. *)
Definition fitting (h : list (Call (Info:=Info) * (Answer + Status))) (info : CheckinRequestAckInfo) : list RetryTimeAndToken :=
  if existsb assigned h then [retry_info_if_accepted info]
  else
    match last_phase h with
    | Some (CCheckin _, inr _) => [retry_info_if_accepted info; retry_info_if_rejected info]
    | _ => [retry_info_if_rejected info]
    end.

End Sessions.

#[export] Hint Resolve keeping_ret keeping_fail keeping_crash keeping_get keeping_lift keeping_attempt
  keeping_RunOnStream keeping_fetch keeping_secagg : post.

Section RetryTimes.
Context `{RandomnessLaws, HttpClient} {S CacheState : Type}.

(** C19: A client comes back when the server wants it to: from a window that
    arrives at one time and is turned into a delay at another one, however long
    the session takes in between, the delay leads to a time within the server's
    range behind the arrival, or is zero when that time has passed; both ends of
    the window that is returned are this delay, and the token is the server's. *)
Theorem retry_delay_promise (cfg : SessionConfig (S:=S) (CacheState:=CacheState)) w p info p1 p2 x y arrived asked :
  pick_retry_time cfg w p = (FetchDone (Ok info), p1) →
  duration_ticks (proto_duration (delay_min w)) = Some x → duration_ticks (proto_duration (delay_max w)) = Some y →
  time_ticks (cfg_now cfg (readings p)) = Some arrived → time_ticks (cfg_now cfg (readings p2)) = Some asked →
  in_range (arrived + Z.max y (Z.max 0 x)) = true → in_range (arrived + Z.max 0 x - asked) = true →
  in_range (arrived + Z.max y (Z.max 0 x) - asked) = true →
  ∃ window p3 d z,
    GenerateRetryWindowFromRetryTimeAndToken cfg info p2 = (FetchDone (Ok window), p3) ∧
    retry_token window = retry_token w ∧
    delay_min window = Some (ConvertAbslToProtoDuration d) ∧ delay_max window = Some (ConvertAbslToProtoDuration d) ∧
    duration_ticks d = Some (Z.max 0 (arrived + z - asked)) ∧ Z.max 0 x ≤ z ≤ Z.max y (Z.max 0 x).
Proof.
  intros Hpick Hx Hy Hn Hm Hr1 Hr2 Hr3.
  destruct (PickRetryTime_range _ _ _ _ _ _ (bit_gen_ p) Hx Hy Hn Hr1) as (z & Hz & Hb).
  assert (info = {| retry_time := (PickRetryTimeFromRange (delay_min w) (delay_max w) (cfg_now cfg (readings p)) (bit_gen_ p)).1;
                    retry_info_token := retry_token w |}) as ->.
  { unfold pick_retry_time, Now_, mbind, X_bind, x_get, x_modify, mret, X_ret in Hpick. simpl in Hpick.
    destruct (PickRetryTimeFromRange _ _ _ _) as [time g]. by simplify_eq. }
  destruct (RetryTime_delay _ _ _ _ Hz Hm) as (d & Hd & Hticks); [rewrite in_range_iff in *; lia|].
  eexists _, _, d, z. split; [done|].
  cbn [retry_token delay_min delay_max retry_time retry_info_token]. rewrite Hd. split_and!; try done; lia.
Qed.
End RetryTimes.
