(* ===== verification/GrpcStream.v ===== *)
(** * The stream of a session: [client/grpc_bidi_stream.cc]

    A [GrpcBidiStream] is a chunked stream over a call of gRPC.  Its mutex is held
    while a message is received, also while this waits; [Close] of another thread
    then tries to cancel the call first, and closes the stream once the mutex is
    free.  [TryCancel] of gRPC is a parameter: it is documented as a best effort,
    and nothing is assumed of it.
    What arrives from the server, and when, is the list [arrivals]: each try to
    receive takes the next element. *)

From S2P Require Import Prelude TimeUtil FileSystem FileSystemCorrect OpStats RetryWindows Client ResourceCache Future InterruptibleRunner HttpUtil InMemoryHttp Chunking ChunkingCorrect ChunkingSystem GrpcProtocol.
#[local] Open Scope Z_scope.

(** [grpc::ClientContext], which may end a call. *)
Class ClientContext (Info : Type) := {
  TryCancel : Endpoint (ClientMessage Info) ServerMessage → Endpoint (ClientMessage Info) ServerMessage
}.

Section Stream.
Context {Info : Type} `{!Codec (ClientMessage Info), !Codec ServerMessage, !ClientContext Info}.

(** Messages, and whether the server ends the call behind them. *)
Record Arrival := { arriving : list (Wire ServerMessage); ending : bool }.

Record GrpcBidiStream := {
  mu_held : bool;
  (** A [Close] that has tried to cancel the call and waits for the mutex. *)
  close_waits : bool;
  (** The pointers are not null. *)
  client_reader_writer_ : bool;
  stub_ : bool;
  chunked_bidi_stream_ : Endpoint (ClientMessage Info) ServerMessage;
  (** What [Finish] returns. *)
  finish_status : option Status;
  arrivals : list Arrival
}.

Definition with_chunked (e : Endpoint (ClientMessage Info) ServerMessage) (s : GrpcBidiStream) : GrpcBidiStream :=
  {| mu_held := mu_held s; close_waits := close_waits s; client_reader_writer_ := client_reader_writer_ s;
     stub_ := stub_ s; chunked_bidi_stream_ := e; finish_status := finish_status s; arrivals := arrivals s |}.
Definition with_lock (held waits : bool) (s : GrpcBidiStream) : GrpcBidiStream :=
  {| mu_held := held; close_waits := waits; client_reader_writer_ := client_reader_writer_ s; stub_ := stub_ s;
     chunked_bidi_stream_ := chunked_bidi_stream_ s; finish_status := finish_status s; arrivals := arrivals s |}.

(** With the mutex. *)
Definition close_locked (s : GrpcBidiStream) : GrpcBidiStream :=
  {| mu_held := mu_held s; close_waits := false; client_reader_writer_ := false; stub_ := false;
     chunked_bidi_stream_ := snd (Chunking.Close (chunked_bidi_stream_ s)); finish_status := finish_status s;
     arrivals := arrivals s |}.

Definition Close (s : GrpcBidiStream) : GrpcBidiStream :=
  if mu_held s then with_lock true true (with_chunked (TryCancel (chunked_bidi_stream_ s)) s) else close_locked s.

(** The mutex is released, and a [Close] that waits for it goes on. *)
Definition release (s : GrpcBidiStream) : GrpcBidiStream :=
  let s' := with_lock false (close_waits s) s in if close_waits s then close_locked s' else s'.

(** The status of a call that the server has ended. *)
Definition finished {A} (s : GrpcBidiStream) (r : Res A) : Res A :=
  match r, finish_status s with
  | Error ABORTED _, Some (c, msg) => Error c msg
  | _, _ => r
  end.

Definition Send (message : ClientMessage Info) (s : GrpcBidiStream) : option (Res unit) * GrpcBidiStream :=
  if mu_held s then (None, s)
  else if negb (client_reader_writer_ s) then
    (Some (Error CANCELLED "Send failed because GrpcBidiStream was closed."), s)
  else
    let '(status, e) := Chunking.Send (Whole message) (chunked_bidi_stream_ s) in
    let s := with_chunked e s in
    match finished s status with
    | Error c msg => (Some (Error c msg), Close s)
    | status => (Some status, s)
    end.

(** What has arrived since the last try. *)
Definition take_arrivals (s : GrpcBidiStream) : GrpcBidiStream :=
  match arrivals s with
  | [] => s
  | a :: l =>
      let e := arrive (arriving a) (chunked_bidi_stream_ s) in
      {| mu_held := mu_held s; close_waits := close_waits s; client_reader_writer_ := client_reader_writer_ s;
         stub_ := stub_ s;
         chunked_bidi_stream_ :=
           {| writer_interface_ := writer_interface_ e; reader_interface_ := reader_interface_ e; incoming_ := incoming_ e;
              outgoing_ := outgoing_ e; inbox := inbox e; ended := ended e || ending a; outbox := outbox e;
              writes := writes e |};
         finish_status := finish_status s; arrivals := l |}
  end.

(** A try; the mutex is held until it returns. *)
Definition Receive (s : GrpcBidiStream) : option (Res (Wire ServerMessage)) * GrpcBidiStream :=
  if negb (mu_held s) && negb (client_reader_writer_ s) then
    (Some (Error CANCELLED "Receive failed because GrpcBidiStream was closed."), s)
  else
    let s := take_arrivals s in
    let '(status, e) := Chunking.Receive (chunked_bidi_stream_ s) in
    let s := with_chunked e s in
    match finished s status with
    | Ok None => (None, with_lock true (close_waits s) s)
    | Ok (Some message) => (Some (Ok message), release s)
    | Error c msg => (Some (Error c msg), Close (release s))
    | Crash => (Some Crash, release s)
    end.

Definition new_GrpcBidiStream (channel : bool) (finish : option Status) (l : list Arrival) : GrpcBidiStream :=
  let s := {| mu_held := false; close_waits := false; client_reader_writer_ := true; stub_ := true;
              chunked_bidi_stream_ := Chunking.new_stream default_options; finish_status := finish; arrivals := l |} in
  if channel then s else Close s.

#[export] Instance GrpcBidiStream_interface : GrpcBidiStreamInterface Info GrpcBidiStream := {|
  stream_Send := Send;
  stream_Receive := Receive;
  stream_Close := Close;
  ChunkingLayerBytesSent_ s := ChunkingLayerBytesSent (chunked_bidi_stream_ s);
  ChunkingLayerBytesReceived_ s := ChunkingLayerBytesReceived (chunked_bidi_stream_ s)
|}.
End Stream.

(** ** A call that has ended *)

Section Ended.
Context {Out In : Type} `{!Codec Out, !Codec In, !Side Out In}.

Definition stays_ended {A} (m : M (Endpoint Out In) A) : Prop := ∀ e, ended e = true → ended (m e).2 = true.

Lemma ended_bind {A B} (m : M (Endpoint Out In) A) (f : A → M (Endpoint Out In) B) :
  stays_ended m → (∀ a, stays_ended (f a)) → stays_ended (m ≫= f).
Proof.
  intros Hm Hf e He. specialize (Hm e He). unfold mbind, M_bind.
  destruct (m e) as [[a|c msg|] e']; simpl in *; [by apply Hf|done|done].
Qed.
Lemma ended_ret {A} (a : A) : stays_ended (mret a).
Proof. intros e He. exact He. Qed.
Lemma ended_fail {A} c msg : stays_ended (fail c msg : M _ A).
Proof. intros e He. exact He. Qed.
Lemma ended_get : stays_ended get.
Proof. intros e He. exact He. Qed.
Lemma ended_modify f : (∀ e, ended (f e) = ended e) → stays_ended (modify f).
Proof. intros Hf e He. simpl. by rewrite Hf. Qed.
Lemma ended_Write w : stays_ended (Write w).
Proof. intros e He. exact He. Qed.

Create HintDb ended discriminated.
#[local] Hint Resolve ended_ret ended_fail ended_get ended_Write : ended.
#[local] Hint Extern 3 (stays_ended (modify _)) => by apply ended_modify : ended.

Ltac stay := repeat first [apply ended_bind; [|intros ?] | progress eauto with ended | progress case_match].

Lemma ended_SendRaw w : stays_ended (SendRaw w).
Proof. unfold SendRaw, on_outgoing, Chunking.Close. stay. Qed.

Lemma ended_send_pending l : stays_ended (send_pending l).
Proof. induction l as [|w l IH]; cbn [send_pending]; unfold on_outgoing; stay. all: apply ended_SendRaw. Qed.

Lemma ended_TrySendPending : stays_ended TrySendPending.
Proof. unfold TrySendPending. stay. apply ended_send_pending. Qed.

Lemma ended_TryAssemblePending c : stays_ended (TryAssemblePending c).
Proof. unfold TryAssemblePending, AssemblePending, SendAck. stay. all: apply ended_SendRaw. Qed.

(** [Q] of a value, wherever it is returned. *)
Definition returning {A} (Q : A → Prop) (m : M (Endpoint Out In) A) (e : Endpoint Out In) : Prop :=
  match (m e).1 with Ok a => Q a | _ => True end.

Lemma returning_bind {A B} (m : M _ A) (f : A → M _ B) Q e :
  stays_ended m → ended e = true → (∀ a e', ended e' = true → (m e).1 = Ok a → returning Q (f a) e') →
  returning Q (m ≫= f) e.
Proof.
  intros Hm He Hf. specialize (Hm e He). unfold returning, mbind, M_bind in *.
  destruct (m e) as [[a|c msg|] e']; simpl in *; [by apply Hf|done|done].
Qed.

(** Receiving from it does not wait. *)
Lemma receive_loop_ended fuel e : ended e = true → returning is_Some (receive_loop fuel) e.
Proof.
  revert e. induction fuel as [|fuel IH]; intros e He; [done|]. cbn [receive_loop].
  assert (stays_ended (ReceiveRaw (Out:=Out) (In:=In))) as Hraw.
  { unfold ReceiveRaw, Chunking.Close. stay. }
  apply returning_bind; [done|done|]. intros r e1 He1 Hr.
  destruct r as [[m|c]|].
  - apply returning_bind; [apply ended_get|done|]. intros e2 e3 _ _. destruct (negb _); [exact I|by eexists].
  - assert (returning is_Some (assembled ← TryAssemblePending c;
      match assembled with Some message => mret (Some message) | None => receive_loop fuel end) e1) as Hc.
    { apply returning_bind; [apply ended_TryAssemblePending|done|]. intros [m|] e2 He2 _; [by eexists|by apply IH]. }
    destruct c; try done. clear Hc.
    apply returning_bind; [by apply ended_modify|done|]. intros [] e2 He2 _.
    apply returning_bind; [apply ended_TrySendPending|done|]. intros [] e3 He3 _. by apply IH.
  - exfalso. unfold ReceiveRaw, mbind, M_bind, get in Hr. simpl in Hr.
    destruct (reader_interface_ e); simpl in Hr; [|done]. rewrite He in Hr. destruct (inbox e); simpl in Hr; done.
Qed.

Lemma Receive_ended e e' : ended e = true → Chunking.Receive e ≠ (Ok None, e').
Proof.
  intros He Hr. assert (returning is_Some (Chunking.Receive (Out:=Out) (In:=In)) e) as Hs; [|].
  2:{ unfold returning in Hs. rewrite Hr in Hs. by destruct Hs. }
  unfold Chunking.Receive, returning, mbind, M_bind, get.
  pose proof (receive_loop_ended (Datatypes.S (length (inbox e))) e He) as Hl. unfold returning in Hl.
  destruct (receive_loop _ e) as [[[m|]|c msg|] e1]; simpl in *; try done; try (by destruct Hl).
  destruct (TrySnoopCheckinResponse m e1) as [[[]|c msg|] e2]; done.
Qed.
End Ended.

Section Closing.
Context {Info : Type} `{!Codec (ClientMessage Info), !Codec ServerMessage, !ClientContext Info}.

Definition closed (s : GrpcBidiStream (Info:=Info)) : Prop :=
  mu_held s = false ∧ close_waits s = false ∧ client_reader_writer_ s = false ∧ stub_ s = false.

Lemma close_released s : close_waits s = true → closed (release s).
Proof. intros Hw. unfold release. by rewrite Hw. Qed.

Lemma Close_closed s : closed s → closed (Close s).
Proof. intros (Hm & _). unfold Close. by rewrite Hm. Qed.

Lemma Close_free s : mu_held s = false → closed (Close s).
Proof. intros Hm. unfold Close. by rewrite Hm. Qed.

(** The thread that receives tries, up to [n] times. *)
Fixpoint tries (n : nat) (s : GrpcBidiStream (Info:=Info)) : option (Res (Wire ServerMessage)) * GrpcBidiStream (Info:=Info) :=
  match n with
  | O => (None, s)
  | Datatypes.S n => match Receive s with (None, s) => tries n s | r => r end
  end.

(** A thread in [Receive] and one that waits to close the stream. *)
Definition closing (s : GrpcBidiStream (Info:=Info)) : Prop := mu_held s = true ∧ close_waits s = true.

Lemma take_arrivals_closing s : closing s → closing (take_arrivals s).
Proof. intros [Hm Hw]. unfold closing, take_arrivals. by destruct (arrivals s). Qed.

(** A try leaves it so, or returns and closes the stream. *)
Lemma Receive_closing s :
  closing s → match Receive s with (None, s') => closing s' | (Some _, s') => closed s' end.
Proof.
  intros Hs. unfold Receive. rewrite (proj1 Hs). cbn [negb andb].
  apply take_arrivals_closing in Hs. set (s1 := take_arrivals s) in *. destruct Hs as [Hm Hw].
  destruct (Chunking.Receive (chunked_bidi_stream_ s1)) as [status e].
  assert (closed (release (with_chunked e s1))) as Hc by (by apply close_released).
  destruct (finished (with_chunked e s1) status) as [[w|]|c msg|]; [done|done| |done]. by apply Close_closed.
Qed.

(** It returns when the call has ended. *)
Lemma Receive_closing_ended s :
  closing s → ended (chunked_bidi_stream_ (take_arrivals s)) = true → ∃ r s', Receive s = (Some r, s').
Proof.
  intros [Hm Hw] He. unfold Receive. rewrite Hm. cbn [negb andb].
  destruct (Chunking.Receive (chunked_bidi_stream_ (take_arrivals s))) as [status e] eqn:Hr.
  destruct status as [[w|]|c msg|]; unfold finished; [by eexists _, _| |destruct c, (finish_status (with_chunked e (take_arrivals s))) as [[]|]; by eexists _, _|by eexists _, _].
  exfalso. by eapply Receive_ended in Hr.
Qed.

Lemma take_arrivals_ended (s : GrpcBidiStream (Info:=Info)) :
  ended (chunked_bidi_stream_ s) = true → ended (chunked_bidi_stream_ (take_arrivals s)) = true.
Proof. intros He. unfold take_arrivals. destruct (arrivals s) as [|a l]; [done|]. cbn. by rewrite He. Qed.

(** It leaves the stream closed when the call has ended. *)
Lemma Receive_closing_closed s :
  closing s → ended (chunked_bidi_stream_ (take_arrivals s)) = true → ∃ r s', Receive s = (Some r, s') ∧ closed s'.
Proof.
  intros Hs He. destruct (Receive_closing_ended _ Hs He) as (r & s' & Hr).
  exists r, s'. pose proof (Receive_closing _ Hs) as Hc. by rewrite Hr in Hc.
Qed.


(** A stream that is closed stays so and answers with CANCELLED. *)
Lemma closed_Receive s : closed s → ∃ msg, Receive s = (Some (Error CANCELLED msg), s).
Proof. intros (Hm & _ & Hr & _). unfold Receive. rewrite Hm, Hr. by eexists. Qed.

Lemma closed_Send m s : closed s → ∃ msg, Send m s = (Some (Error CANCELLED msg), s).
Proof. intros (Hm & _ & Hr & _). unfold Send. rewrite Hm, Hr. by eexists. Qed.

(** A thread that sends while another one waits in Receive waits, too. *)
Lemma Send_waits m s : mu_held s = true → Send m s = (None, s).
Proof. intros Hm. unfold Send. by rewrite Hm. Qed.
End Closing.
