(* ===== verification/SecAggRunner.v ===== *)
(** * Secure aggregation in a session: [client/secagg_runner.cc]

    [SecAggRunnerImpl::Run] turns the tensors of a computation into the input of
    a [SecAggClient] and runs the client over the stream of the session: a
    callable on the background thread, of which every slice is a start, a try to
    receive or the processing of a message.  [GrpcSecAggSendToServerImpl] and
    [GrpcSecAggProtocolDelegate] of [client/grpc_federated_protocol.cc] are the
    two ends of the stream.  What the client draws at random, and when its
    computations see an abort, are arguments.  Published events are not modelled. *)

From S2P Require Import Prelude Math SecAggVector SecAggVectorCorrect Prng Crypto Client TimeUtil FileSystem OpStats RetryWindows ResourceCache Future InterruptibleRunner HttpUtil InMemoryHttp Chunking GrpcProtocol.
#[local] Open Scope Z_scope.

(** ** The input *)

(** A shift by 64 bits or more, or by a negative number, is undefined. *)
Definition GetModulus (side_channels : gmap string SideChannelExecutionInfo) (key : string) : Res Z :=
  match side_channels !! key with
  | None => Error INTERNAL "Execution not found for aggregand: "
  | Some info =>
      if 0 <? aggregand_modulus info then Ok (aggregand_modulus info)
      else if (0 <=? output_bitwidth info) && (output_bitwidth info <? 64) then Ok (Z.shiftl 1 (output_bitwidth info))
      else Crash
  end.

(** The product of the dimensions in an [int64_t], whose overflow is undefined. *)
Fixpoint flatten (acc : Z) (dimensions : list Z) : Res Z :=
  match dimensions with
  | [] => Ok acc
  | size :: dimensions => if in_int64 (acc * size) then flatten (acc * size) dimensions else Crash
  end.

Definition add_tensor (side_channels : gmap string SideChannelExecutionInfo) (k : string) (vector : QuantizedTensor)
    (acc : list InputVectorSpecification * SecAggVectorMap) : Res (list InputVectorSpecification * SecAggVectorMap) :=
  let '(specs, input_map) := acc in
  modulus ← GetModulus side_channels k;
  if (modulus <=? 1) || (kMaxModulus <? modulus) then Error INTERNAL "Invalid SecAgg modulus configuration: "
  else if bool_decide (tensor_values vector = []) then Error INTERNAL "Zero sized vector found: "
  else
    flattened_length ← flatten 1 (tensor_dimensions vector);
    let data_length := Z.of_nat (length (tensor_values vector)) in
    if negb (u64 flattened_length =? data_length) then Error INTERNAL "Flattened length does not match vector size: "
    else if existsb (λ value, modulus <=? value) (tensor_values vector) then
      Error INTERNAL "The input SecAgg vector doesn't have the appropriate modulus: "
    else
      spec ← new_InputVectorSpecification k flattened_length modulus;
      v ← SecAggVector_of_span (tensor_values vector) modulus false;
      (** [try_emplace] *)
      Ok (specs ++ [spec], match input_map !! k with Some _ => input_map | None => <[k := v]> input_map end).

Fixpoint build_input (side_channels : gmap string SideChannelExecutionInfo) (results : ComputationResults)
    (acc : list InputVectorSpecification * SecAggVectorMap) : Res (list InputVectorSpecification * SecAggVectorMap) :=
  match results with
  | [] => Ok acc
  | (k, Quantized vector) :: results => acc ← add_tensor side_channels k vector acc; build_input side_channels results acc
  | (_, TFCheckpoint _) :: results => build_input side_channels results acc
  end.

(** ** The run *)

Section Runner.
Context {P : Primitives} {Info S : Type} `{!GrpcBidiStreamInterface Info S}.
Context (samples : nat) (abort_message : string) (entropy : nat → Entropy) (async_abort : nat → AsyncAbort).
Context (should_abort_stream : S → bool * S) (timing_config_ : TimingConfig) (diagnostics_config_ : DiagnosticsConfig).
Context (slices : nat → nat) (fuel : nat).

Inductive RunPhase := Starting | Looping.

Record RunEnv := {
  run_stream : S;
  secagg_client_ : ClientState;
  run_phase : RunPhase;
  (** The checkpoint, until it is moved into the report. *)
  run_checkpoint : list Z;
  (** Messages of the server so far. *)
  run_messages : nat;
  run_died : bool;
  (** A thread waits for the mutex of the stream, which another one holds. *)
  run_stuck : bool
}.

Definition set_run_stream (s : S) (e : RunEnv) : RunEnv :=
  {| run_stream := s; secagg_client_ := secagg_client_ e; run_phase := run_phase e; run_checkpoint := run_checkpoint e;
     run_messages := run_messages e; run_died := run_died e; run_stuck := run_stuck e |}.
Definition set_client (c : ClientState) (e : RunEnv) : RunEnv :=
  {| run_stream := run_stream e; secagg_client_ := c; run_phase := run_phase e; run_checkpoint := run_checkpoint e;
     run_messages := run_messages e; run_died := run_died e; run_stuck := run_stuck e |}.
Definition set_run_phase (ph : RunPhase) (n : nat) (e : RunEnv) : RunEnv :=
  {| run_stream := run_stream e; secagg_client_ := secagg_client_ e; run_phase := ph; run_checkpoint := run_checkpoint e;
     run_messages := n; run_died := run_died e; run_stuck := run_stuck e |}.
Definition run_die (e : RunEnv) : RunEnv :=
  {| run_stream := run_stream e; secagg_client_ := secagg_client_ e; run_phase := run_phase e;
     run_checkpoint := run_checkpoint e; run_messages := run_messages e; run_died := true; run_stuck := run_stuck e |}.
Definition run_block (e : RunEnv) : RunEnv :=
  {| run_stream := run_stream e; secagg_client_ := secagg_client_ e; run_phase := run_phase e;
     run_checkpoint := run_checkpoint e; run_messages := run_messages e; run_died := run_died e; run_stuck := true |}.
Definition run_unblock (e : RunEnv) : RunEnv :=
  {| run_stream := run_stream e; secagg_client_ := secagg_client_ e; run_phase := run_phase e;
     run_checkpoint := run_checkpoint e; run_messages := run_messages e; run_died := run_died e; run_stuck := false |}.
(** A thread did not get past its last send. *)
Definition halted (e : RunEnv) : bool := run_stuck e || run_died e.
Definition move_checkpoint (e : RunEnv) : RunEnv :=
  {| run_stream := run_stream e; secagg_client_ := secagg_client_ e; run_phase := run_phase e; run_checkpoint := [];
     run_messages := run_messages e; run_died := run_died e; run_stuck := run_stuck e |}.

Section Report.
Context (report : list Z → option ClientToServer → S → option (Res unit) * S).

(** [GrpcSecAggSendToServerImpl::Send]: a status that is not OK is logged only. *)
Definition SendToServer (message : ClientToServer) (e : RunEnv) : RunEnv :=
  let '(status, s) :=
    match message with
    | CS_masked_input_response _ => report (run_checkpoint e) (Some message) (run_stream e)
    | _ => stream_Send (OtherClientMessage (SecAggKind message)) (run_stream e)
    end in
  let e := set_run_stream s (match message with CS_masked_input_response _ => move_checkpoint e | _ => e end) in
  match status with
  | None => run_block e
  | Some Crash => run_die e
  | Some _ => e
  end.

Definition send_event (e : RunEnv) (ev : Client.Event) : RunEnv :=
  match ev with Client.Send message => if halted e then e else SendToServer message e | Transition _ => e end.

(** The client does an operation: its messages are sent first, and then [state_] is
    assigned. *)
Definition client_did (c : ClientState) (events : list Client.Event) (e : RunEnv) : RunEnv :=
  let e := foldl send_event e events in if halted e then e else set_client c e.

(** [GrpcSecAggProtocolDelegate::ReceiveServerMessage] *)
Definition secagg_message (w : Wire ServerMessage) : option ServerToClient :=
  match w with
  | Whole (EligibilityEvalCheckinResponse _ (_, m)) => m
  | Whole (CheckinResponse _ (_, m)) => m
  | Whole (OtherServerMessage (_, m)) => m
  | ChunkedTransfer _ => None
  end.

Definition prefix_receive_error (r : Res (Wire ServerMessage)) : Res ServerToClient :=
  match r with
  | Ok w =>
      match secagg_message w with
      | Some m => Ok m
      | None => Error INTERNAL "Error during SecAgg receive: Bad response to SecAgg protocol"
      end
  | Error c msg => Error c ("Error during SecAgg receive: Error during SecAgg receive: " +:+ msg)
  | Crash => Crash
  end.

Definition ended_with {A} (r : Res A) (e : RunEnv) : option (option Status) * RunEnv :=
  match r with
  | Ok _ => (Some None, e)
  | Error c msg => (Some (Some (c, msg)), e)
  | Crash => (Some None, run_die e)
  end.

(** [AbortInternal], then [Abort] of the delegate, which is not reached by a
    thread that waits or ends the process. *)
Definition AbortInternal (e : RunEnv) : RunEnv :=
  match Client.Abort (secagg_client_ e) "Client-initiated abort." with
  | Ok (c, events) => client_did c events e
  | _ => e
  end.

Definition abort_secagg (e : RunEnv) : RunEnv :=
  let e := AbortInternal e in
  if halted e then e else set_run_stream (stream_Close (run_stream e)) e.

(** An abort that waits goes on when the mutex is free.  What it has waited for
    had no effect, so that it is done again.  The other thread cannot use the
    client before it has ended, since [Abort] holds the mutex of the client. *)
Definition resume_abort (e : RunEnv) : RunEnv := if run_stuck e then abort_secagg (run_unblock e) else e.

Definition start_slice (input_map : SecAggVectorMap) (e : RunEnv) : option (option Status) * RunEnv :=
  match Client.Start (secagg_client_ e) (entropy 0) with
  | Ok (c, events) =>
      let e := client_did c events e in
      if halted e then (None, e)
      else
        match Client.SetInput c input_map with
        | Ok (c, events) => (None, set_run_phase Looping 0 (client_did c events e))
        | r => ended_with r e
        end
  | r => ended_with r e
  end.

Definition error_message (c : ClientState) : string :=
  match ErrorMessage c with Ok s => s | _ => "error message not found." end.

Definition loop_slice (e : RunEnv) : option (option Status) * RunEnv :=
  if IsCompletedSuccessfully (secagg_client_ e) then (Some None, e)
  else
    match stream_Receive (run_stream e) with
    | (None, s) => (None, set_run_stream s e)
    | (Some r, s) =>
        let e := resume_abort (set_run_stream s e) in
        match prefix_receive_error r with
        | Ok message =>
            let n := Datatypes.S (run_messages e) in
            let '(c, events, result) :=
              ReceiveMessage samples abort_message (secagg_client_ e) message (entropy n) (async_abort n) in
            let e := set_run_phase Looping n (client_did c events e) in
            match result with
            | Ok _ =>
                if IsAborted c then ended_with (Error CANCELLED ("SecAgg aborted: " +:+ error_message c) : Res unit) e
                else (None, e)
            | Error c msg => ended_with (Error c ("Error receiving SecAgg message: " +:+ msg) : Res unit) e
            | Crash => ended_with (Crash : Res unit) e
            end
        | r => ended_with r e
        end
    end.

Definition secagg_slice (input_map : SecAggVectorMap) (e : RunEnv) : option (option Status) * RunEnv :=
  match run_phase e with
  | Starting => start_slice input_map e
  | Looping => loop_slice e
  end.

Definition poll_run (e : RunEnv) : bool * RunEnv :=
  let '(b, s) := should_abort_stream (run_stream e) in (b, set_run_stream s e).
End Report.

Definition Run_ (checkpoint : list Z) (report : list Z → option ClientToServer → S → option (Res unit) * S)
    (side_channels : gmap string SideChannelExecutionInfo) (expected minimum : Z) (results : ComputationResults)
    (st : S * nat) : Fetch unit * (S * nat) :=
  let '(s, clock) := st in
  match build_input side_channels results ([], ∅) with
  | Ok (specs, input_map) =>
      let '(client, _) := new_SecAggClient expected minimum specs in
      let '(out, r) :=
        Run (secagg_slice report input_map) (abort_secagg report) poll_run timing_config_ diagnostics_config_ slices fuel
          {| env := {| run_stream := s; secagg_client_ := client; run_phase := Starting; run_checkpoint := checkpoint;
                       run_messages := 0; run_died := false; run_stuck := false |};
             run_future := None; InterruptibleRunner.clock := clock; InterruptibleRunner.events := [] |} in
      let st := (run_stream (env r), InterruptibleRunner.clock r) in
      if run_died (env r) then (FetchDone Crash, st)
      else if run_stuck (env r) then (FetchWaiting, st)
      else
        match out with
        | Ok (Returned None) => (FetchDone (Ok tt), st)
        | Ok (Returned (Some (c, msg))) => (FetchDone (Error c msg), st)
        | Ok ExitProcess => (FetchExit, st)
        | Ok StillWaiting => (FetchWaiting, st)
        | _ => (FetchDone Crash, st)
        end
  | Error c msg => (FetchDone (Error c msg), st)
  | Crash => (FetchDone Crash, st)
  end.

#[export] Instance SecAggRunnerFactoryImpl : SecAggRunnerFactory S := Run_.
End Runner.

(** ** The input is what the client expects *)

(** The entries for tensors. *)
Definition tensors (results : ComputationResults) : list (string * QuantizedTensor) :=
  omap (λ r, match r with (k, Quantized t) => Some (k, t) | _ => None end) results.

Lemma flatten_range acc dimensions n : in_int64 acc = true → flatten acc dimensions = Ok n → in_int64 n = true.
Proof.
  revert acc. induction dimensions as [|size dimensions IH]; intros acc Ha Hf; simpl in Hf; [by simplify_eq|].
  destruct (in_int64 (acc * size)) eqn:Hs; [|done]. by apply (IH _ Hs).
Qed.

(** What the side channel of a tensor says: its modulus, or else a number of bits. *)
Definition modulus_of (info : SideChannelExecutionInfo) : Z :=
  if decide (0 < aggregand_modulus info) then aggregand_modulus info else 2 ^ output_bitwidth info.

(** A specification and the vector that goes with it: the values, which are below
    the modulus, as long as the bits of the vector can be counted in an [int]. *)
Record describes (sc : gmap string SideChannelExecutionInfo) (k : string) (t : QuantizedTensor)
    (spec : InputVectorSpecification) (v : SecAggVector) : Prop := {
  desc_name : ivs_name spec = k;
  desc_channel : ∃ info, sc !! k = Some info ∧ ivs_modulus spec = modulus_of info;
  desc_modulus : modulus_ v = ivs_modulus spec;
  desc_length : ivs_length spec = Z.of_nat (length (tensor_values t)) ∧ num_elements_ v = ivs_length spec;
  desc_below : Forall (λ x, x < ivs_modulus spec) (tensor_values t);
  desc_values : Forall (Z.le 0) (tensor_values t) → Z.of_nat (length (tensor_values t)) * GetBitWidth (ivs_modulus spec) < 2 ^ 31 →
    decoded v = tensor_values t
}.

Lemma GetModulus_ok sc k m :
  GetModulus sc k = Ok m → ∃ info, sc !! k = Some info ∧ m = modulus_of info.
Proof.
  unfold GetModulus, modulus_of. destruct (sc !! k) as [info|]; [|done]. intros H. exists info. split; [done|].
  destruct (Z.ltb_spec 0 (aggregand_modulus info)); [rewrite decide_True by done; congruence|].
  rewrite decide_False by lia. destruct (_ && _) eqn:Hb; [|done].
  rewrite Z.shiftl_1_l in H. congruence.
Qed.

Lemma of_span_fields es m b v :
  SecAggVector_of_span es m b = Ok v → modulus_ v = m ∧ num_elements_ v = Z.of_nat (length es).
Proof.
  unfold SecAggVector_of_span. rewrite !fcp_check_ok, bind_ok. intros (_ & _ & bytes & _ & Hv). by simplify_eq.
Qed.

Lemma add_tensor_ok sc k t specs m specs' m' :
  add_tensor sc k t (specs, m) = Ok (specs', m') → m !! k = None →
  ∃ spec v, specs' = specs ++ [spec] ∧ m' = <[k := v]> m ∧ describes sc k t spec v.
Proof.
  unfold add_tensor. rewrite bind_ok. intros (modulus & Hmod & Hr) Hk. apply GetModulus_ok in Hmod.
  destruct ((modulus <=? 1) || _) eqn:Hvalid; [done|]. case_bool_decide; [done|].
  apply bind_ok in Hr as (n & Hn & Hr).
  destruct (u64 n =? Z.of_nat (length (tensor_values t))) eqn:Hlen; [|done]. simpl in Hr.
  destruct (existsb _ _) eqn:Hbelow; [done|]. apply bind_ok in Hr as (spec & Hspec & Hr). apply bind_ok in Hr as (v & Hv & Hr).
  rewrite Hk in Hr. simplify_eq. exists spec, v. split; [done|]. split; [done|].
  unfold new_InputVectorSpecification in Hspec. rewrite !fcp_check_ok in Hspec. destruct Hspec as (Hpos & _ & Hspec).
  simplify_eq. pose proof (of_span_fields _ _ _ _ Hv) as [Hm Hl].
  assert (n = Z.of_nat (length (tensor_values t))) as Hn'.
  { apply flatten_range in Hn; [|done]. rewrite in_int64_iff in Hn.
    apply Z.eqb_eq in Hlen. unfold u64 in Hlen. rewrite Z.mod_small in Hlen by lia. done. }
  assert (Forall (λ x, x < modulus) (tensor_values t)) as Hall.
  { apply Forall_forall. intros x Hx. destruct (Z.leb_spec modulus x); [|done].
    assert (existsb (λ value, modulus <=? value) (tensor_values t) = true); [|congruence].
    apply existsb_exists. exists x. split; [by apply list_elem_of_In|lia]. }
  split; simpl; [done|done|done|split; [done|congruence]|done|]. intros Hnn Hbits.
  assert (Forall (in_modulus modulus) (tensor_values t)) as Hin.
  { eapply Forall_impl; [apply Forall_and; exact (conj Hnn Hall)|]. done. }
  assert (valid_modulus modulus = true) as Hvm by (unfold valid_modulus; lia).
  rewrite SecAggVector_of_span_ok in Hv by done. injection Hv as <-. by apply decoded_vector_of.
Qed.

(** What the loop has built: a specification and a vector for each tensor. *)
Record built (sc : gmap string SideChannelExecutionInfo) (ts : list (string * QuantizedTensor)) (specs : list InputVectorSpecification) (m : SecAggVectorMap) : Prop := {
  built_specs : Forall2 (λ t spec, ∃ v, m !! t.1 = Some v ∧ describes sc t.1 t.2 spec v) ts specs;
  built_dom : dom m = list_to_set ts.*1;
  built_size : size m = length ts
}.

Lemma Forall2_mono_l {A B} (R : A → Prop) (P Q : A → B → Prop) l k :
  Forall R l → Forall2 P l k → (∀ x y, R x → P x y → Q x y) → Forall2 Q l k.
Proof. intros HR HP HQ. induction HP; inversion HR; subst; constructor; auto. Qed.

Lemma built_add sc ts specs m k t spec v :
  built sc ts specs m → k ∉ ts.*1 → describes sc k t spec v → built sc (ts ++ [(k, t)]) (specs ++ [spec]) (<[k := v]> m).
Proof.
  intros [Hs Hd Hn] Hk Hv.
  assert (m !! k = None) as Hm by (apply not_elem_of_dom; rewrite Hd; by rewrite elem_of_list_to_set).
  split.
  - apply Forall2_app; [|repeat constructor; exists v; simpl; by rewrite lookup_insert_eq].
    eapply (Forall2_mono_l (λ t, t.1 ≠ k)); [|exact Hs|].
    + apply Forall_forall. intros t' Ht' <-. apply Hk. by apply list_elem_of_fmap_2.
    + intros t' spec' Hne (v' & Hv' & Hd'). exists v'. by rewrite lookup_insert_ne.
  - rewrite dom_insert_L, Hd, fmap_app, list_to_set_app_L. simpl. set_solver.
  - rewrite map_size_insert_None, Hn, length_app by done. simpl. lia.
Qed.

Lemma build_input_ok sc results ts specs m specs' m' :
  built sc ts specs m → NoDup (ts.*1 ++ results.*1) →
  build_input sc results (specs, m) = Ok (specs', m') → built sc (ts ++ tensors results) specs' m'.
Proof.
  revert ts specs m. induction results as [|[k [c|t]] results IH]; intros ts specs m Hb Hnd Hr.
  - simpl in Hr. simplify_eq. by rewrite app_nil_r.
  - apply (IH ts specs m); [done| |done]. simpl in Hnd.
    apply NoDup_app in Hnd as (Hts & Hdisj & Hrest). apply NoDup_cons in Hrest as [_ Hrest].
    apply NoDup_app. split_and!; [done| |done]. intros x Hx Hx'. apply (Hdisj x Hx). by right.
  - cbn [build_input] in Hr. apply bind_ok in Hr as ([specs1 m1] & Ha & Hr). simpl in Hnd.
    assert (k ∉ ts.*1) as Hk.
    { apply NoDup_app in Hnd as (_ & Hdisj & _). intros Hk. apply (Hdisj k Hk). by left. }
    apply add_tensor_ok in Ha as (spec & v & -> & -> & Hd).
    2:{ apply not_elem_of_dom. rewrite (built_dom _ _ _ _ Hb). by rewrite elem_of_list_to_set. }
    change (tensors ((k, Quantized t) :: results)) with ([(k, t)] ++ tensors results). rewrite app_assoc.
    apply (IH _ _ _ (built_add _ _ _ _ _ _ _ _ Hb Hk Hd)); [|done].
    rewrite fmap_app, <- app_assoc. done.
Qed.

Lemma built_valid sc ts specs m : built sc ts specs m → ValidateInput m specs = true.
Proof.
  intros [Hs _ Hn]. unfold ValidateInput. rewrite andb_true_iff, bool_decide_eq_true, forallb_forall. split.
  - rewrite Hn. by eapply Forall2_length.
  - intros spec Hin. apply list_elem_of_In in Hin. apply list_elem_of_lookup in Hin as [i Hi].
    destruct (Forall2_lookup_r _ _ _ _ _ Hs Hi) as (t & _ & v & Hv & [Hname _ Hm [_ Hl] _ _]).
    rewrite Hname, Hv, Hm, Hl. rewrite !Z.eqb_refl. done.
Qed.

Section RunnerCorrect.
Context {P : Primitives} {Info S : Type} `{!GrpcBidiStreamInterface Info S}.
Context (entropy : nat → Entropy) (report : list Z → option ClientToServer → S → option (Res unit) * S).

(** The stream takes a message: sending returns. *)
Definition takes (e : RunEnv (S:=S)) : Prop :=
  run_stuck e = false ∧ run_died e = false ∧
  ∀ m, ∃ r s, stream_Send m (run_stream e) = (Some r, s) ∧ r ≠ Crash.

Lemma client_did_one c m ph (e : RunEnv (S:=S)) :
  takes e → (match m with CS_masked_input_response _ => False | _ => True end) →
  let e' := client_did report c [Client.Send m; Transition ph] e in
  halted e' = false ∧ secagg_client_ e' = c.
Proof.
  intros (Hs & Hd & Htakes) Hm. unfold client_did. cbn [foldl send_event].
  assert (halted e = false) as Hh by (unfold halted; by rewrite Hs, Hd). rewrite Hh. unfold SendToServer. destruct (Htakes (OtherClientMessage (SecAggKind m))) as (r & s & Hsend & Hr).
  assert (match m with CS_masked_input_response _ => report (run_checkpoint e) (Some m) (run_stream e)
          | _ => stream_Send (OtherClientMessage (SecAggKind m)) (run_stream e) end = (Some r, s)) as ->
    by (by destruct m).
  assert (match m with CS_masked_input_response _ => move_checkpoint e | _ => e end = e) as -> by (by destruct m).
  cbv zeta. destruct r as [[]| |]; [| |done]; unfold halted in *; cbn; rewrite Hs, Hd; cbn; by rewrite Hs, Hd.
Qed.

(** C20: The input that the runner builds from the results of a computation, when
    it builds one, has for every tensor a specification and a vector. Their
    modulus is the one of the side channel of the tensor, or a power of two with
    the output bitwidth as the exponent where no modulus is given; all values are
    below it, and the vector holds the values. The client accepts this input: if
    the stream takes the message of the first round, the client is in the next
    round with that input. *)
Theorem runner_input_accepted side_channels results specs input_map expected minimum (e : RunEnv (S:=S)) :
  NoDup results.*1 → build_input side_channels results ([], ∅) = Ok (specs, input_map) →
  secagg_client_ e = (new_SecAggClient expected minimum specs).1 → takes e →
  (∃ e' c k, start_slice entropy report input_map e = (None, e') ∧ run_phase e' = Looping ∧
     secagg_client_ e' = R1InputSet c k input_map ∧ input_vector_specs_ c = specs) ∧
  Forall2 (λ t spec, ∃ v, input_map !! t.1 = Some v ∧ describes side_channels t.1 t.2 spec v) (tensors results) specs.
Proof.
  intros Hnd Hb Hc Htakes. assert (built side_channels (tensors results) specs input_map) as Hbuilt.
  { apply (build_input_ok side_channels results [] [] ∅); [|done|done]. split; [constructor| |]; set_solver. }
  split; [|apply Hbuilt]. unfold start_slice. rewrite Hc. cbn [new_SecAggClient fst Client.Start R0InputNotSet_Start].
  match goal with |- context [client_did report ?c [Client.Send ?m; Transition ?ph] e] =>
    destruct (client_did_one c m ph e Htakes I) as [Hh Hc'] end.
  rewrite Hh. cbn [Client.SetInput]. unfold R1InputNotSet_SetInput. cbn [input_vector_specs_].
  rewrite (built_valid _ _ _ _ Hbuilt). eexists _, _, _. split; [done|]. split; [done|].
  unfold client_did at 1. cbn [foldl send_event]. rewrite Hh. done.
Qed.
End RunnerCorrect.
