(* ===== verification/GrpcExamples.v ===== *)
(** * Runs of sessions over gRPC

    A session in which the server accepts the client, one in which the server
    does not answer, and secure aggregation that is interrupted while it waits for
    a message. *)

From S2P Require Import Prelude Math SecAggVector Prng Crypto Client TimeUtil FileSystem OpStats RetryWindows ResourceCache Future InterruptibleRunner HttpUtil InMemoryHttp HttpExamples Chunking ChunkingSystem GrpcProtocol GrpcProtocolCorrect GrpcStream SecAggRunner.
#[local] Open Scope Z_scope.

(** ** Numbers with ten digits behind the point *)

Definition unit_scale : Z := 2 ^ 10.

Definition mul_ticks (d : TickCount) (x : Z) : TickCount :=
  match d with Finite t => saturate (t * x / unit_scale) | d => d end.

(** The generator is a list of numbers. *)
#[export] Instance FixedPoint : Randomness := {|
  double := Z;
  double_of_bit b := if b then unit_scale else 0;
  double_lt := Z.ltb;
  double_add := Z.add;
  double_sub := Z.sub;
  ZeroDuration := Finite 0;
  Duration_lt := ltb_ticks : @Duration Ticks → @Duration Ticks → bool;
  Duration_sub := sub_ticks;
  Duration_mul := mul_ticks : @Duration Ticks → Z → @Duration Ticks;
  BitGen := list Z;
  Uniform g := (default 0 (head g) mod unit_scale, tail g)
|}.

Lemma mul_ticks_bounds x u lo hi :
  in_range x = true → 0 ≤ x → lo * unit_scale ≤ x * u ≤ hi * unit_scale → in_range hi = true → 0 ≤ lo →
  ∃ y, finite_ticks (mul_ticks (Finite x) u) = Some y ∧ lo ≤ y ≤ hi.
Proof.
  intros Hx Hpos Hb Hhi Hlo. simpl. exists (x * u / unit_scale).
  assert (lo ≤ x * u / unit_scale ≤ hi) as Hy.
  { unfold unit_scale in *. split; [apply Z.div_le_lower_bound|apply Z.div_le_upper_bound]; lia. }
  split; [|done]. apply saturate_finite. rewrite in_range_iff in *. unfold kTicksPerSecond in *. lia.
Qed.

#[export] Instance FixedPoint_laws : RandomnessLaws FixedPoint.
Proof.
  split; unfold unit_interval; cbn; intros; ticks; try done.
  - by destruct b.
  - rewrite Z.ltb_lt, Z.ltb_ge in *. lia.
  - by apply saturate_finite.
  - assert (0 ≤ default 0 (head g) mod unit_scale < unit_scale) as Hu by (apply Z.mod_pos_bound; done).
    apply mul_ticks_bounds; try done; nia.
  - rewrite !Z.ltb_ge in *. apply mul_ticks_bounds; try done; try lia; unfold unit_scale in *; nia.
  - rewrite !Z.ltb_ge in *. apply mul_ticks_bounds; try done; try lia; unfold unit_scale in *; nia.
Defined.

(** ** A server and a session *)

(** Messages that are sent whole are not encoded. *)
#[export] Instance WholeOnly T : Codec T := {|
  AppendToString _ := None;
  SerializeCompressed _ _ := None;
  ParseFromString _ := None;
  ParseCompressed _ := None;
  ByteSizeLong w := match w with Whole _ => 10 | ChunkedTransfer _ => 5 end
|}.

#[export] Instance WholeOnly_laws T : CodecLaws (WholeOnly T).
Proof. by split. Defined.

Abbreviation stream := (GrpcBidiStream (Info:=string)).

(** The call is cancelled: it ends, and writing fails. *)
#[export] Instance cancels : ClientContext string := {|
  TryCancel e :=
    {| writer_interface_ := writer_interface_ e; reader_interface_ := reader_interface_ e; incoming_ := incoming_ e;
       outgoing_ := outgoing_ e; inbox := inbox e; ended := true; outbox := outbox e; writes := [false] |}
|}.

Definition quiet : stream → bool * stream := λ s, (false, s).

Definition no_entropy : nat → Entropy := λ _,
  {| fresh_enc_key := []; fresh_prng_key := []; rand8 := []; rand_words := []; rand_iv := λ _, [] |}.

#[export] Instance ToySecAgg : SecAggRunnerFactory stream :=
  SecAggRunnerFactoryImpl (P:=ToyPrimitives) 100 "abort" no_entropy (λ _, None) quiet example_timing example_diag
    (λ _, 2%nat) 10.

Definition example_flags : Flags :=
  {| enable_grpc_with_eligibility_eval_http_resource_support := false;
     transient_errors_retry_delay_secs := 900; transient_errors_retry_delay_jitter_percent := 204;
     permanent_errors_retry_delay_secs := 14400; permanent_errors_retry_delay_jitter_percent := 204;
     permanent_error_codes := [5; 3; 12] |}.

(** The clock is a minute later at every reading. *)
Definition minutes (n : nat) : Time := FromUnixSeconds (60 * Z.of_nat n).

Definition example_config : SessionConfig (S:=stream) (CacheState:=unit) :=
  {| cfg_flags := example_flags; cfg_has_http_client := false; cfg_has_secagg_event_publisher := true;
     cfg_population_name := "population"; cfg_retry_token := "token"; cfg_client_version := "1";
     cfg_attestation_measurement := EmptyString; cfg_resource_cache := None; cfg_now := minutes;
     cfg_should_abort_stream := quiet; cfg_should_abort_http := never; cfg_timing := example_timing;
     cfg_diagnostics := example_diag; cfg_slices := λ _, 2%nat; cfg_fuel := 10 |}.

Definition from_hours (token : string) (lo hi : Z) : RetryWindow :=
  {| retry_token := token;
     delay_min := Some {| duration_seconds := 3600 * lo; duration_nanos := 0 |};
     delay_max := Some {| duration_seconds := 3600 * hi; duration_nanos := 0 |} |}.

Definition now_arriving (m : ServerMessage) : Arrival := {| arriving := [Whole m]; ending := false |}.

Definition acknowledgement : ServerMessage :=
  OtherServerMessage (AckKind {| retry_window_if_accepted := Some (from_hours "accepted" 10 12);
                                 retry_window_if_rejected := Some (from_hours "rejected" 1 2) |}, None).

Definition acceptance : ServerMessage :=
  CheckinResponse None
    ({| checkin_result := Acceptance
          {| execution_phase_id := "population/task#1"; accepted_plan := ResourceData [1; 2];
             accepted_init_checkpoint := ResourceData [3]; side_channels := ∅; secure_aggregation_info := None;
             uri_template := EmptyString |};
        response_client_variant := 0 |}, None).

Definition evaluation : ServerMessage :=
  EligibilityEvalCheckinResponse None
    (EvalPayload {| eval_plan := ResourceData [4]; eval_init_checkpoint := ResourceData [5];
                    eval_execution_id := "eval" |}, None).

Definition report_response : ServerMessage := OtherServerMessage (ReportResponseKind, None).

Definition connected (l : list ServerMessage) : GrpcFederatedProtocol (S:=stream) (CacheState:=unit) :=
  new_GrpcFederatedProtocol (new_GrpcBidiStream true (Some (UNAVAILABLE, "gone"%string)) (now_arriving <$> l))
    (network []) tt [512; 256].

(** The calls that return. *)
Fixpoint run_calls (calls : list Call) (h : list (Call (Info:=string) * (Answer + Status))) p :=
  match calls with
  | [] => Some (h, p)
  | c :: calls =>
      match x_attempt (perform example_config c) p with
      | (FetchDone (Ok a), p) => run_calls calls (h ++ [(c, a)]) p
      | _ => None
      end
  end.

Lemma run_calls_session calls h p h' p' :
  session example_config h p → run_calls calls h p = Some (h', p') → session example_config h' p'.
Proof.
  revert h p. induction calls as [|c calls IH]; intros h p Hs Hr; cbn [run_calls] in Hr; [by simplify_eq|].
  destruct (x_attempt (perform example_config c) p) as [[[a|?|]| |] p1] eqn:Ha; try done.
  eapply IH; [by eapply session_call|done].
Qed.

Definition full_session : list (Call (Info:=string)) :=
  [CEligibilityEvalCheckin; CCheckin (Some "eligible"%string);
   CReportCompleted false [("result"%string, TFCheckpoint [9])] (Seconds 5)].

Definition answers_of (r : option (list (Call (Info:=string) * (Answer + Status)) * GrpcFederatedProtocol (S:=stream) (CacheState:=unit))) :
    option (ObjectState * list (option StatusCode)) :=
  match r with
  | Some (h, p) => Some (object_state_ p, (λ e : Call (Info:=string) * (Answer + Status), match e.2 with inl _ => None | inr (c, _) => Some c end) <$> h)
  | None => None
  end.

(** The server accepts the client, and all phases succeed. *)
Example full_session_run :
  answers_of (run_calls full_session [] (connected [acknowledgement; evaluation; acceptance; report_response])) =
  Some (kReportCalled, [None; None; None]).
Proof. reflexivity. Qed.

(** The server rejects the client by a message that is not expected: UNIMPLEMENTED
    is a permanent error here. *)
Example bad_session_run :
  answers_of (run_calls [CEligibilityEvalCheckin] [] (connected [acknowledgement; report_response])) =
  Some (kEligibilityEvalCheckinFailedPermanentError, [Some UNIMPLEMENTED]).
Proof. reflexivity. Qed.

Lemma example_flags_ok : 0 ∉ permanent_error_codes (cfg_flags example_config).
Proof. by apply (bool_decide_unpack _). Qed.

(** Whether a task was assigned, the last phase failed permanently and the
    acknowledgement arrived. *)
Definition summary_of (r : option (list (Call (Info:=string) * (Answer + Status)) * GrpcFederatedProtocol (S:=stream) (CacheState:=unit))) :=
  match r with
  | Some (h, p) => Some (existsb assigned h, bool_decide (failed_permanently example_config h),
                         match checkin_request_ack_info_ p with Some _ => true | None => false end)
  | None => None
  end.

Lemma connected_session l : session example_config [] (connected l).
Proof. apply session_new. Qed.

Lemma summarised calls l :
  summary_of (run_calls calls [] (connected l)) = Some (true, false, true) →
  ∃ h p info, session example_config h p ∧ existsb assigned h = true ∧ ¬ failed_permanently example_config h ∧
    checkin_request_ack_info_ p = Some info.
Proof.
  destruct (run_calls calls [] (connected l)) as [[h p]|] eqn:Hr; [|done].
  apply (run_calls_session _ _ _ _ _ (connected_session l)) in Hr. intros [= Ha Hf Hi].
  destruct (checkin_request_ack_info_ p) as [info|] eqn:Hinfo; [|done]. apply bool_decide_eq_false in Hf.
  by exists h, p, info.
Qed.

Lemma accepted_run :
  ∃ h p info, session example_config h p ∧ existsb assigned h = true ∧ ¬ failed_permanently example_config h ∧
    checkin_request_ack_info_ p = Some info.
Proof. apply (summarised full_session [acknowledgement; evaluation; acceptance; report_response]). reflexivity. Qed.


(** The eligibility check-in returned a task. *)
Definition eligible (r : option (list (Call (Info:=string) * (Answer + Status)) * GrpcFederatedProtocol (S:=stream) (CacheState:=unit))) : bool :=
  match r with
  | Some (h, _) =>
      match last_phase h with Some (CEligibilityEvalCheckin, inl (AEligibility (EligibilityEvalTask _ _))) => true | _ => false end
  | _ => false
  end.

Lemma eligible_documented calls l info :
  eligible (run_calls calls [] (connected l)) = true →
  ∃ h p, session example_config h p ∧ documented (last_phase h) (CCheckin (Some info)).
Proof.
  destruct (run_calls calls [] (connected l)) as [[h p]|] eqn:Hr; [|done].
  apply (run_calls_session _ _ _ _ _ (connected_session l)) in Hr. intros He. exists h, p. split; [done|].
  unfold eligible in He. repeat case_match; done.
Qed.

Lemma evaluated_run :
  ∃ h p, session example_config h p ∧ documented (last_phase h) (CCheckin (Some "eligible"%string)).
Proof. apply (eligible_documented [CEligibilityEvalCheckin] [acknowledgement; evaluation]). reflexivity. Qed.


(** A window of ten to twelve hours that arrives at minute 0 and is asked for at
    minute 5. *)
Definition arrived_window := pick_retry_time example_config (from_hours "accepted" 10 12) (connected []).

Lemma hours_ticks h :
  0 ≤ h ≤ 100 →
  duration_ticks (proto_duration (Some {| duration_seconds := 3600 * h; duration_nanos := 0 |})) = Some (3600 * h * kTicksPerSecond).
Proof.
  intros Hh. unfold proto_duration. cbn [default duration_seconds duration_nanos].
  rewrite <- (Z.add_0_r (3600 * h * kTicksPerSecond)). apply Duration_add_ticks.
  - apply Seconds_ticks. apply in_int64_iff. lia.
  - by apply Nanoseconds_ticks.
  - apply in_range_iff. unfold kTicksPerSecond. lia.
Qed.

Lemma minutes_ticks n : (n ≤ 100)%nat → time_ticks (minutes n) = Some (60 * Z.of_nat n * kTicksPerSecond).
Proof. intros Hn. apply FromUnixSeconds_ticks. apply in_int64_iff. lia. Qed.

Definition five_minutes_later := set_random (bit_gen_ (connected [])) 5 (connected []).

Lemma retry_delay_promise_witness :
  ∃ info p1 window p3 d z, arrived_window = (FetchDone (Ok info), p1) ∧
    GenerateRetryWindowFromRetryTimeAndToken example_config info five_minutes_later = (FetchDone (Ok window), p3) ∧
    delay_min window = Some (ConvertAbslToProtoDuration d) ∧
    duration_ticks d = Some (Z.max 0 (z - 300 * kTicksPerSecond)) ∧
    36000 * kTicksPerSecond ≤ z ≤ 43200 * kTicksPerSecond.
Proof.
  assert (∃ info p1, arrived_window = (FetchDone (Ok info), p1)) as (info & p1 & Hp) by (eexists _, _; reflexivity).
  destruct (retry_delay_promise example_config (from_hours "accepted" 10 12) (connected []) info p1
    five_minutes_later (36000 * kTicksPerSecond) (43200 * kTicksPerSecond) 0 (300 * kTicksPerSecond)
    Hp (hours_ticks 10 ltac:(lia)) (hours_ticks 12 ltac:(lia)) (minutes_ticks 0 ltac:(lia)) (minutes_ticks 5 ltac:(lia))
    eq_refl eq_refl eq_refl)
    as (window & p3 & d & z & Hw & _ & Hmin & _ & Hd & Hz).
  exists info, p1, window, p3, d, z. split; [exact Hp|]. split; [exact Hw|]. split; [exact Hmin|].
  split; [rewrite Hd; do 2 f_equal; lia|]. unfold kTicksPerSecond in *. lia.
Defined.

(** ** Secure aggregation *)

Definition example_results : ComputationResults :=
  [("v"%string, Quantized {| tensor_values := [1; 15; 3; 0]; tensor_bitwidth := 4; tensor_dimensions := [2; 2] |});
   ("checkpoint"%string, TFCheckpoint [7])].

Lemma example_results_distinct : NoDup example_results.*1.
Proof. by apply (bool_decide_unpack _). Qed.

Definition example_side_channels : gmap string SideChannelExecutionInfo :=
  {["v"%string := {| output_bitwidth := 4; aggregand_modulus := 0 |}]}.

Definition run_env (s : stream) (c : ClientState) : RunEnv (S:=stream) :=
  {| run_stream := s; secagg_client_ := c; run_phase := Starting; run_checkpoint := [7]; run_messages := 0;
     run_died := false; run_stuck := false |}.

Definition no_report : list Z → option ClientToServer → stream → option (Res unit) * stream := λ _ _ s, (Some (Ok tt), s).

Lemma run_env_takes c : takes (run_env (new_GrpcBidiStream true None []) c).
Proof. split; [done|]. split; [done|]. intros m. eexists _, _. split; [reflexivity|done]. Qed.

Lemma runner_input_accepted_witness :
  ∃ specs input_map, build_input example_side_channels example_results ([], ∅) = Ok (specs, input_map) ∧
    ∃ e', start_slice (P:=ToyPrimitives) no_entropy no_report input_map
            (run_env (new_GrpcBidiStream true None []) (new_SecAggClient 10 2 specs).1) = (None, e') ∧
      run_phase e' = Looping.
Proof.
  assert (∃ specs input_map, build_input example_side_channels example_results ([], ∅) = Ok (specs, input_map))
    as (specs & m & Hb) by (vm_compute; eexists _, _; reflexivity).
  destruct (runner_input_accepted (P:=ToyPrimitives) no_entropy no_report example_side_channels example_results specs m
    10 2 (run_env (new_GrpcBidiStream true None []) (new_SecAggClient 10 2 specs).1)
    example_results_distinct Hb eq_refl (run_env_takes _)) as ((e' & _ & _ & Hs & Hl & _) & _).
  exists specs, m. split; [exact Hb|]. exists e'. split; [exact Hs|exact Hl].
Defined.

(** The slices of the callable while nothing arrives. *)
Fixpoint waiting_slices (report : list Z → option ClientToServer → stream → option (Res unit) * stream)
    (n : nat) (e : RunEnv (S:=stream)) : RunEnv (S:=stream) :=
  match n with
  | O => e
  | Datatypes.S n =>
      waiting_slices report n
        (loop_slice (P:=ToyPrimitives) 100 "abort" no_entropy (λ _, None) report e).2
  end.

(** A try that finds nothing changes nothing. *)
Definition idle_stream (s : stream) : Prop := mu_held s = true ∧ GrpcStream.Receive s = (None, s).

Lemma waiting_slices_same report n e :
  IsCompletedSuccessfully (secagg_client_ e) = false → idle_stream (run_stream e) → waiting_slices report n e = e.
Proof.
  intros Hc [_ Hr]. induction n as [|n IH]; [done|]. cbn [waiting_slices]. unfold loop_slice. rewrite Hc.
  cbn [stream_Receive GrpcBidiStream_interface]. rewrite Hr. cbn [snd].
  replace (set_run_stream (run_stream e) e) with e by (by destruct e). exact IH.
Qed.

(** C40: Interrupting secure aggregation while it waits for a message of the server
    does not cancel the call. The abort message of the client is sent first, and
    waits for the mutex that the receiving thread holds; so the stream is not
    closed, the call is not cancelled and the client does not leave its state,
    for as long as the server sends nothing. *)
Theorem secagg_abort_waits (report : list Z → option ClientToServer → stream → option (Res unit) * stream)
    (e : RunEnv (S:=stream)) n :
  idle_stream (run_stream e) → halted e = false →
  IsAborted (secagg_client_ e) = false → IsCompletedSuccessfully (secagg_client_ e) = false →
  waiting_slices report n (abort_secagg report e) = run_block e.
Proof.
  intros Hs Hh Ha Hc. assert (abort_secagg report e = run_block e) as ->; [|by apply waiting_slices_same].
  unfold abort_secagg, AbortInternal, Client.Abort. rewrite Ha, Hc.
  cbn [orb AbortAndNotifyServer]. unfold client_did. cbn [foldl send_event]. rewrite Hh. unfold SendToServer.
  cbn [stream_Send GrpcBidiStream_interface]. rewrite (Send_waits _ _ (proj1 Hs)). by destruct e.
Qed.

(** A client that has started and waits for the keys of the others. *)
Definition waiting_stream : stream := snd (GrpcStream.Receive (new_GrpcBidiStream true None [])).
Definition waiting_env : RunEnv (S:=stream) :=
  run_env waiting_stream (R1InputNotSet {| max_neighbors_expected_ := 10; minimum_surviving_ := 2; input_vector_specs_ := [] |}
               (fresh_keys (no_entropy 0))).

Lemma secagg_abort_waits_witness : waiting_slices no_report 5 (abort_secagg no_report waiting_env) = run_block waiting_env.
Proof. apply (secagg_abort_waits no_report waiting_env 5); [split; reflexivity|reflexivity..]. Defined.

(** When the server sends something after all, the abort goes on: the message of
    the client is sent, the stream is closed, and the run ends. *)
Example abort_goes_on :
  let arrived := set_run_stream
    {| mu_held := true; close_waits := false; client_reader_writer_ := true; stub_ := true;
       chunked_bidi_stream_ := chunked_bidi_stream_ waiting_stream; finish_status := None;
       arrivals := [now_arriving acknowledgement; now_arriving report_response] |} (run_block waiting_env) in
  let '(r, e) := loop_slice (P:=ToyPrimitives) 100 "abort" no_entropy (λ _, None) no_report arrived in
  bool_decide (r = None) = false ∧ halted e = false ∧ IsAborted (secagg_client_ e) = true ∧
  client_reader_writer_ (run_stream e) = false.
Proof. vm_compute. done. Qed.


(** ** A variable that is not initialised *)

Definition tensor_only (uninitialized : bool) : list (Call (Info:=string)) :=
  [CEligibilityEvalCheckin; CCheckin (Some "eligible"%string); CReportCompleted uninitialized (take 1 example_results) (Seconds 5)].

(** Without a checkpoint and without secure aggregation it decides whether an empty
    report is sent. *)
Example report_uninitialized :
  let server := [acknowledgement; evaluation; acceptance; report_response] in
  answers_of (run_calls (tensor_only false) [] (connected server)) = Some (kReportCalled, [None; None; Some INTERNAL]) ∧
  answers_of (run_calls (tensor_only true) [] (connected server)) = Some (kReportCalled, [None; None; None]).
Proof. split; reflexivity. Qed.
